(* ===== verification/_CoqProject ===== *)
-Q . S2P
Prelude.v
Utils.v
Policy.v
Murmur.v
HashTable.v
CpuCodeCache.v
Detach.v
CodeCache.v
Allocator.v
BumpAllocator.v
SpinLock.v
Register.v
Worklist.v
UsedRegs.v
HotPatch.v
Machine.v
EmitUtils.v
PrivateStack.v
PrivateCall.v
CleanCall.v
Align.v
Mangle.v
Ibl.v
IblGlobal.v
Trace.v
TraceCorrect.v
TraceTerm.v
Dbl.v
DblEntry.v
Interrupt.v
InterruptDelay.v
MangleCti.v
BlockInfo.v
DelayStates.v
InterruptHandler.v
Idt.v
DList.v
GList.v
Instruction.v
Encode.v
Watchpoint.v
BoundsChecker.v
RcuDbg.v
LeakDetector.v
PageWalk.v
WpInstrument.v
WpCorrect.v
RegionSpill.v
