(* ===== verification/Prelude.v ===== *)
(** * Granary: a verification development

    Granary is a dynamic binary translator for kernel and user code, with
    clients that instrument the translated code.  Native code is translated
    block by block into a code cache; branches look their targets up in
    global and CPU-private tables, which are filled on demand; instrumented
    blocks are placed by bump allocators inside an executable area, and
    described by meta-information that is searched by address; the
    instrumentation uses registers the block leaves dead.  This library
    models those parts of the C++ sources under [src/granary] and the core of
    the watchpoint client under [src/clients/watchpoints], and proves them
    correct.

    ** Conventions

    Every operation is an executable function.  A C++ function that can fail
    an assertion, index outside an array or loop returns [outcome]: a value,
    [Fault], or [OutOfFuel].  Assertions ([ASSERT]) are part of the model, as
    with [CONFIG_DEBUG_ASSERTIONS]; a theorem that concludes [Ret] shows that
    they hold.  Machine integers are [Z] with their wrap-around written out
    ([wrap], [u16], [u32], [u64]).  Pointers are addresses (or indices of
    arrays); objects that are shared are kept in a store ([gmap]).  The
    build options that select code are the class [Config].  Loops that are
    not structural take fuel; the bounds are the number of slots of a table
    (hash tables), the number of fragments of a slab plus one (binary
    search), the three iterations of [allocate_bare], the number of watchpoint
    descriptors, the length of a list or
    of a program, and the theorems state that this fuel is enough; for the
    loop that builds a trace the number of turns is shown to exist by a
    lexicographic measure.

    ** Files

    - [Prelude]: configuration, the outcome monad, machine integers,
      bit-fields, tactics, the hint database [granary], and lemmas on probing,
      linked lists in a store and disjoint blocks.
    - [Utils] ([granary/utils.h]): valid addresses, [atomic_id_set] (a
      lock-free identifier table), bit sets.
    - [Policy] ([granary/policy.h], [policy.cc]): the bit-fields of an
      instrumentation policy, inheritance of properties, mangled addresses,
      and the registry that dispatches to the visitors of a policy class.
    - [Murmur] ([deps/murmurhash]): the hash function used by the tables.
    - [HashTable] ([granary/hash_table.h], [hash_table.cc]): the open
      addressing table, growth, and sets; the class [LookupTable] states what
      the code cache needs of a table, and the table is an instance.
    - [CpuCodeCache] ([granary/cpu_code_cache.cc]): the CPU-private cache.
    - [Detach] ([granary/detach.cc]): targets at which execution leaves
      Granary.
    - [CodeCache] ([granary/code_cache.cc]): lookup, translation under the
      coarse lock, publication; proved against [LookupTable] and against the
      class [CodeCacheEnv] that stands for the translator and the generated
      exit code.
    - [Allocator] ([granary/allocator.cc]): the executable area and the heap.
    - [BumpAllocator] ([granary/bump_allocator.h]): slabs and their sharing.
    - [Register] ([granary/register.cc], [register.h]): liveness of registers
      and scratch registers.
    - [Worklist]: the loop over a list of pending blocks, shared by the next
      two files.
    - [UsedRegs] ([granary/emit_utils.cc]): the registers that a function may
      change.
    - [HotPatch] ([granary/kernel/hotpatch.cc]): instrumenting, copying and
      redirecting kernel functions.
    - [Machine]: an interpreter for the x86 instructions that Granary emits,
      with 64-bit registers, the flags and memory by quadwords; calls run
      C++ functions given as parameters.  The code generators below produce
      programs for it.
    - [EmitUtils] ([granary/emit_utils.cc]): padding, saving and restoring of
      registers and flags, near and far calls and jumps, stack alignment.
    - [PrivateStack] ([granary/x86/stack.asm]): the switch to the private
      stack and back.
    - [PrivateCall]: the sequence that calls a C++ function on the private
      stack, shared by the generated routines below.
    - [CleanCall] ([granary/emit_utils.cc], [emit_utils.h]): calls of C++
      functions from instrumented code.
    - [Align] ([granary/mangle.cc]): placing hot-patchable branches inside
      cache lines, and the size estimate.
    - [Mangle] ([granary/mangle.cc]): instructions with memory operands that
      the code cache cannot reach.
    - [Ibl], [IblGlobal] ([granary/ibl.cc], [x86/utils.asm]): the lookup of
      indirect branch targets in generated code, and the generated routine
      that asks the code cache on a miss.
    - [Dbl], [DblEntry] ([granary/dbl.cc]): linking of direct branches on
      their first execution, as a protocol between threads and as generated
      code.
    - [MangleCti] ([granary/mangle.cc]): how a branch of a block is replaced:
      by a direct branch into the cache, by a linking stub, or by a lookup.
    - [Trace], [TraceCorrect], [TraceTerm] ([granary/basic_block.cc]): growing
      a trace of blocks from a native address; the emitted trace follows the
      native code; the construction ends.
    - [BlockInfo] ([granary/basic_block_info.cc]): block meta-information.
    - [DelayStates] ([granary/basic_block.cc], [basic_block.h]): the byte
      states that tell where an interrupt must be delayed.
    - [Interrupt] ([granary/kernel/interrupt.cc]): the generated entry code of
      an interrupt vector and the common routine with its three ways out.
    - [InterruptDelay] ([granary/kernel/interrupt.cc]): the copy of a delay
      region that delivers an interrupt at the end of the region.
    - [InterruptHandler] ([granary/kernel/interrupt.cc]): the decision what to
      do with an interrupt, over the code cache and the byte states.
    - [Idt] ([granary/kernel/interrupt.cc], [deps/drk/segment_descriptor.h]):
      gate descriptors and the table that Granary installs.
    - [DList] ([granary/instruction.cc]): lists of instructions.
    - [GList] ([granary/list.h]): the generic list with its cache of items.
    - [Instruction] ([granary/instruction.cc], [instruction.h]): replacing and
      cloning instructions, and their flags.
    - [Encode] ([granary/instruction.cc], [deps/dr/x86/encode.c]): the two
      passes that encode a list of instructions into bytes.
    - [SpinLock] ([granary/spin_lock.h]): the spin lock as a step relation.
    - [Watchpoint] ([clients/watchpoints/instrument.h]): watched addresses and
      [add_watchpoint], over the class [DescriptorType] with its laws.
    - [BoundsChecker] ([clients/watchpoints/clients/bounds_checker]): the
      descriptors of the bounds checker, an instance of that class.
    - [RcuDbg] ([clients/watchpoints/clients/rcudbg]): the events, section
      identifiers, watched addresses and log of the RCU debugger.
    - [LeakDetector], [PageWalk] ([clients/watchpoints/clients/leak_detector]):
      the descriptors of the leak detector, another instance of that class,
      its scan for lost objects, and the walk over the page table of the
      kernel that finds references to objects.
    - [WpInstrument], [WpCorrect] ([clients/watchpoints/instrument.cc]): the
      code emitted around an instruction so that it may be given watched
      addresses, and what that code does.
    - [RegionSpill] ([clients/watchpoints/instrument.cc]): spilling registers
      around regions of a block before it is instrumented.

    ** What the theorems show

    - Refinement: hash tables and the CPU-private cache implement finite
      maps; instruction lists and generic lists implement sequences; a registered
      policy
      dispatches to its own visitors.
    - The code cache: a lookup returns, a second lookup of the same address
      returns the same target, and of two translations of one block exactly
      the one in the cache is committed.
    - Memory: allocated blocks are fresh, disjoint, aligned and classified as
      their kind; free lists stay well formed; slabs are disjoint and are not
      lost, and no byte of a slab in use is given out twice.
    - Registers: one step of the analysis is the data-flow equation of
      liveness; for every processor that respects the operands of its
      instructions a scratch register can be overwritten before the analysed
      block without changing memory or a live register.  No execution of a
      function whose instructions write whole registers and are not [swapgs]
      changes a register that the walk over its instructions leaves live;
      counterexamples show that both conditions are needed.
    - Clean calls: the function is called with the values of its operands,
      when these do not use each other's registers, and the instrumented code
      goes on with its registers, flags and stack.
    - Hot-patching: for a function without indirect jumps and [swapgs] exactly
      its blocks, by the control flow of the machine, are translated; every
      branch of a copy leads to the corresponding place, and the relative
      operand of an indirect branch, which the code forgets, does not; the
      word written over the function is a jump.
    - Translation: a trace is built in finitely many turns, and every run of
      the emitted trace is matched by native steps with the same machine state
      up to the branch at which control leaves it.
    - Generated code: for every sequence of added exit routines an indirect
      branch reaches the code added for its target, or the code cache is
      asked, with the registers and the stack of the branch; the sequences
      for unreachable operands have the effect of the instruction they
      replace; save and restore sequences are round trips; hot-patchable
      displacements lie inside cache lines and the code fits the space
      reserved for it.
    - Encoding: every branch of an encoded list leads to its target, in as many
      bytes as announced; replacing an instruction keeps all lists.
    - Linking: under all interleavings a direct branch leads to its stub or to
      one translation of its target, and every thread arrives there with its
      registers (in kernel builds without six caller-saved ones, which the
      entry code saves too late); a branch that is linked when its block is
      translated goes where a lookup at run time would send it, unless a
      lookup that forced attachment has cached a block for a target at which
      execution detaches.
    - Meta-information: every address of a stored block finds it; an interrupt
      is delayed exactly where it would split a delay region.
    - Interrupts: from its delivery to each way out of the entry code an
      interrupt is invisible to the kernel, which finds the frame that the
      processor pushed, or to the code that is resumed; an interrupt of a
      region without branches is delayed with interrupts off and reaches its
      handler in the state behind the region; a fault on module code resumes
      in its translation under the start policy, as application code; the installed table
      differs from that of the kernel in the gates that are taken only.
    - Watchpoints: the code around an instruction has the effect of the
      instruction at the unwatched addresses; spilled regions are transparent,
      and which regions are spilled is specified by what they name;
      tainting is reversible, interior pointers keep their
      descriptor; and from one law for each operation of a client, a new
      descriptor is one that was not in use, is in the table and holds its
      arguments.
    - The RCU debugger: correct readers and writers raise no report, a pointer
      that leaks out of its critical section is reported, with its places, at
      the first read through it, and identifiers of sections are not shared
      while there are any left.
    - The leak detector: the scan ends and reports exactly the active objects
      that cannot be reached through unmarked objects; the page table walk
      finds the references on the pages it covers, and which pages it misses.
      An object here has one word more than its size, as the scan reads it.
    - Concurrency: mutual exclusion and progress of the spin lock under all
      interleavings; identifiers and descriptors under their own counters.
    - Errors: the theorems on exhausted or mis-guarded cases state exactly
      where the code stops on an assertion, does not terminate, or loses an
      entry; each is recorded as a finding.

    ** What is not modelled

    The decoder and encoder are DynamoRIO's (vendored): what the decoder
    reports about an instruction is data of the models, and of the encoder
    only branches and instructions with a relative displacement are modelled,
    the other bytes are data.  System call entry points, printing,
    performance counters, static initialisation, the wrapper generators and
    the remaining clients are left out, and so are, in modelled files, the
    instrumentation of the kernel's own interrupt handlers
    ([create_interrupt_entrypoint]) and the redzone guards that the watchpoint
    client adds to user code. *)

From Stdlib Require Import ZArith Lia Bool.
From stdpp Require Import base numbers list option gmap.

#[global] Open Scope Z_scope.

(** ** Build configuration

    The options of [granary/globals.h] and [Makefile] that change which code
    is compiled.  Every component that depends on one takes it from the
    ambient instance of this class. *)
Class Config := {
  (** [CONFIG_ENV_KERNEL]: kernel space (true) or user space (false). *)
  env_kernel : bool;
  (** [CONFIG_FEATURE_INSTRUMENT_HOST]. *)
  instrument_host : bool
}.

(** [IF_USER_ELSE(user, kernel)]. *)
Definition IF_USER_ELSE `{Config} {A} (u k : A) : A := if env_kernel then k else u.

Definition kernel_config : Config := {| env_kernel := true; instrument_host := false |}.
Definition user_config : Config := {| env_kernel := false; instrument_host := true |}.

(** ** Outcomes

    A C++ function returns a value, stops on a failed assertion or an access
    outside an object ([Fault]), or does not return within the fuel given to
    its loops ([OutOfFuel]). *)
Inductive outcome (A : Type) : Type :=
  | Ret (a : A)
  | Fault
  | OutOfFuel.

Arguments Ret {A} a.
Arguments Fault {A}.
Arguments OutOfFuel {A}.

#[export] Instance outcome_ret : MRet outcome := fun A a => Ret a.
#[export] Instance outcome_bind : MBind outcome := fun A B k m =>
  match m with
  | Ret a => k a
  | Fault => Fault
  | OutOfFuel => OutOfFuel
  end.

(** [ASSERT(b)]: with [CONFIG_DEBUG_ASSERTIONS] a false condition faults. *)
Definition ASSERT (b : bool) : outcome unit := if b then Ret tt else Fault.

(** Access inside an array: an index outside it is a fault. *)
Definition idx {A} (l : list A) (i : nat) : outcome A :=
  match l !! i with Some x => Ret x | None => Fault end.

Definition set_idx {A} (l : list A) (i : nat) (x : A) : outcome (list A) :=
  if bool_decide (i < length l)%nat then Ret (<[i := x]> l) else Fault.

(** ** Machine integers

    A [w]-bit unsigned integer is a [Z] in [0, 2^w); arithmetic that can
    leave the range is wrapped explicitly. *)
Definition wrap (w z : Z) : Z := z mod 2 ^ w.
Abbreviation u8 := (wrap 8).
Abbreviation u16 := (wrap 16).
Abbreviation u32 := (wrap 32).
Abbreviation u64 := (wrap 64).

Definition in_width (w z : Z) : Prop := 0 <= z < 2 ^ w.

(** [~x] at width [w]. *)
Definition wnot (w x : Z) : Z := Z.lxor x (Z.ones w).

(** Rotation to the left at width [w]. *)
Definition rotl (w x r : Z) : Z :=
  Z.lor (wrap w (Z.shiftl x r)) (Z.shiftr x (w - r)).

(** Bit-fields: [w] bits starting at bit [lo]. *)
Definition get_field (lo w x : Z) : Z := Z.land (Z.shiftr x lo) (Z.ones w).

Definition set_field (lo w v x : Z) : Z :=
  Z.lor (Z.ldiff x (Z.shiftl (Z.ones w) lo)) (Z.shiftl (Z.land v (Z.ones w)) lo).

(** A one-bit [bool] field. *)
Definition get_flag (lo x : Z) : bool := Z.testbit x lo.
Definition set_flag (lo : Z) (b : bool) (x : Z) : Z := set_field lo 1 (Z.b2z b) x.

(** [ALIGN_TO(lval, const_align)] (granary/pp.h). *)
Definition ALIGN_TO (lval const_align : Z) : Z :=
  if lval mod const_align =? 0 then 0 else const_align - lval mod const_align.

(** ** Tactics and hint databases *)
Create HintDb granary discriminated.
Create Rewrite HintDb bits.

(** Split the boolean tests that occur in the goal and the hypotheses and
    turn them into (in)equalities on [Z] or [nat]. *)
Ltac split_tests :=
  repeat match goal with
  | |- context [?a <=? ?b] => destruct (Z.leb_spec a b)
  | |- context [?a <? ?b] => destruct (Z.ltb_spec a b)
  | |- context [?a =? ?b] => destruct (Z.eqb_spec a b)
  | H : context [?a <=? ?b] |- _ => destruct (Z.leb_spec a b)
  | H : context [?a <? ?b] |- _ => destruct (Z.ltb_spec a b)
  | H : context [?a =? ?b] |- _ => destruct (Z.eqb_spec a b)
  end.

Ltac zb := split_tests; cbn [andb orb negb] in *; try lia; try congruence.

(** Invert an equation [m ≫= k = Ret b] of the outcome monad. *)
Ltac inv_outcome :=
  repeat match goal with
  | H : mbind _ ?m = Ret _ |- _ =>
      let E := fresh "E" in
      destruct m eqn:E; cbn [mbind outcome_bind] in H; try discriminate H
  | H : Ret _ = Ret _ |- _ => injection H as H
  | H : mret _ = Ret _ |- _ => unfold mret, outcome_ret in H
  | H : ASSERT ?b = Ret _ |- _ => destruct b eqn:?; cbn [ASSERT] in H; try discriminate H; clear H
  end; try subst.

(** ** Lemmas: powers of two and widths *)
Lemma pow2_pos n : 0 <= n -> 0 < 2 ^ n.
Proof. intros. apply Z.pow_pos_nonneg; lia. Qed.

Lemma wrap_range w z : 0 <= w -> 0 <= wrap w z < 2 ^ w.
Proof. intros. apply Z.mod_pos_bound, pow2_pos; lia. Qed.

Lemma wrap_small w z : 0 <= z < 2 ^ w -> wrap w z = z.
Proof. apply Z.mod_small. Qed.

Lemma wrap_wrap w z : wrap w (wrap w z) = wrap w z.
Proof. unfold wrap. apply Zmod_mod. Qed.

Lemma wrap_ones w x : 0 <= w -> wrap w x = Z.land x (Z.ones w).
Proof. intros. unfold wrap. now rewrite Z.land_ones. Qed.

Lemma testbit_high n x i : 0 <= x < 2 ^ n -> n <= i -> Z.testbit x i = false.
Proof.
  intros [H0 H1] Hi. destruct (Z.eq_dec x 0) as [->|]; [apply Z.bits_0|].
  apply Z.bits_above_log2; [lia|].
  apply Z.lt_le_trans with n; [|lia]. apply Z.log2_lt_pow2; lia.
Qed.

Lemma in_width_bits n x :
  0 <= n -> 0 <= x -> (forall i, n <= i -> Z.testbit x i = false) -> 0 <= x < 2 ^ n.
Proof.
  intros Hn Hx Hb. split; [lia|].
  assert (Hm : x mod 2 ^ n = x).
  { apply Z.bits_inj'. intros i Hi. destruct (Z.lt_ge_cases i n).
    - now rewrite Z.mod_pow2_bits_low by lia.
    - rewrite Z.mod_pow2_bits_high by lia. now rewrite Hb by lia. }
  rewrite <- Hm. apply Z.mod_pos_bound. apply pow2_pos. lia.
Qed.

Lemma testbit_ones w i : 0 <= w -> 0 <= i -> Z.testbit (Z.ones w) i = (i <? w).
Proof.
  intros. destruct (Z.ltb_spec i w).
  - apply Z.ones_spec_low. lia.
  - apply Z.ones_spec_high. lia.
Qed.

Lemma testbit_shiftl x n i :
  0 <= n -> 0 <= i -> Z.testbit (Z.shiftl x n) i = (n <=? i) && Z.testbit x (i - n).
Proof.
  intros. rewrite Z.shiftl_spec by lia. destruct (Z.leb_spec n i); [done|].
  now rewrite Z.testbit_neg_r by lia.
Qed.

Lemma testbit_shiftr x n i : 0 <= i -> Z.testbit (Z.shiftr x n) i = Z.testbit x (i + n).
Proof. intros. now apply Z.shiftr_spec. Qed.

Lemma testbit_wrap w x i :
  0 <= w -> 0 <= i -> Z.testbit (wrap w x) i = (i <? w) && Z.testbit x i.
Proof.
  intros. rewrite wrap_ones, Z.land_spec, testbit_ones by lia. apply andb_comm.
Qed.

(** ** Lemmas: bit-fields *)
Lemma testbit_get_field lo w x i :
  0 <= w -> 0 <= i -> Z.testbit (get_field lo w x) i = (i <? w) && Z.testbit x (i + lo).
Proof.
  intros. unfold get_field.
  rewrite Z.land_spec, testbit_shiftr, testbit_ones by lia. apply andb_comm.
Qed.

Lemma testbit_set_field lo w v x i :
  0 <= lo -> 0 <= w -> 0 <= i ->
  Z.testbit (set_field lo w v x) i =
    if (lo <=? i) && (i <? lo + w) then Z.testbit v (i - lo) else Z.testbit x i.
Proof.
  intros. unfold set_field.
  rewrite Z.lor_spec, Z.ldiff_spec, !testbit_shiftl, Z.land_spec by lia.
  destruct (Z.leb_spec lo i); cbn [andb].
  - rewrite testbit_ones by lia.
    zb; cbn; rewrite ?andb_false_r, ?andb_true_r, ?orb_false_r; done.
  - cbn. now rewrite andb_true_r, orb_false_r.
Qed.

Lemma testbit_set_flag lo b x i :
  0 <= lo -> 0 <= i ->
  Z.testbit (set_flag lo b x) i = if i =? lo then b else Z.testbit x i.
Proof.
  intros. unfold set_flag. rewrite testbit_set_field by lia. zb.
  replace (i - lo) with 0 by lia. now destruct b.
Qed.

Lemma get_field_range lo w x : 0 <= w -> 0 <= get_field lo w x < 2 ^ w.
Proof.
  intros. unfold get_field. rewrite Z.land_ones by lia.
  apply Z.mod_pos_bound, pow2_pos. lia.
Qed.

Lemma set_field_range n lo w v x :
  0 <= lo -> 0 <= w -> lo + w <= n -> 0 <= x < 2 ^ n -> 0 <= set_field lo w v x < 2 ^ n.
Proof.
  intros ? ? ? Hx. apply in_width_bits; [lia| |].
  - unfold set_field. apply Z.lor_nonneg. split.
    + apply Z.ldiff_nonneg. lia.
    + apply Z.shiftl_nonneg, Z.land_nonneg. right. rewrite Z.ones_equiv.
      pose proof (pow2_pos w). lia.
  - intros i Hi. rewrite testbit_set_field by lia. zb.
    now apply (testbit_high n).
Qed.

Lemma set_flag_range n lo b x :
  0 <= lo < n -> 0 <= x < 2 ^ n -> 0 <= set_flag lo b x < 2 ^ n.
Proof. intros. unfold set_flag. apply set_field_range; lia. Qed.

#[export] Hint Rewrite Z.lor_spec Z.land_spec Z.lxor_spec Z.ldiff_spec : bits.
#[export] Hint Rewrite testbit_get_field testbit_set_field testbit_set_flag
  testbit_shiftl testbit_shiftr testbit_wrap testbit_ones Z.bits_0 using lia : bits.

(** Prove an equation between integers bit by bit. *)
Ltac bitwise i Hi :=
  apply Z.bits_inj'; intros i Hi; unfold get_flag in *;
  repeat (autorewrite with bits; try lia).

Lemma get_set_field_same lo w v x :
  0 <= lo -> 0 <= w -> get_field lo w (set_field lo w v x) = wrap w v.
Proof. intros. bitwise i Hi. zb. now replace (i + lo - lo) with i by lia. Qed.

Lemma get_set_field_other lo w lo' w' v x :
  0 <= lo -> 0 <= w -> 0 <= lo' -> 0 <= w' -> lo + w <= lo' \/ lo' + w' <= lo ->
  get_field lo w (set_field lo' w' v x) = get_field lo w x.
Proof. intros. bitwise i Hi. zb. Qed.

Lemma get_flag_set_same lo b x : 0 <= lo -> get_flag lo (set_flag lo b x) = b.
Proof. intros. unfold get_flag. rewrite testbit_set_flag by lia. zb. Qed.

Lemma get_flag_set_other lo lo' b x :
  0 <= lo -> 0 <= lo' -> lo <> lo' -> get_flag lo (set_flag lo' b x) = get_flag lo x.
Proof. intros. unfold get_flag. rewrite testbit_set_flag by lia. zb. Qed.

Lemma get_flag_set_field_other lo lo' w v x :
  0 <= lo -> 0 <= lo' -> 0 <= w -> lo < lo' \/ lo' + w <= lo ->
  get_flag lo (set_field lo' w v x) = get_flag lo x.
Proof. intros. unfold get_flag. rewrite testbit_set_field by lia. zb. Qed.

Lemma get_field_set_flag_other lo w lo' b x :
  0 <= lo -> 0 <= w -> 0 <= lo' -> lo + w <= lo' \/ lo' < lo ->
  get_field lo w (set_flag lo' b x) = get_field lo w x.
Proof. intros. unfold set_flag. apply get_set_field_other; lia. Qed.

Lemma set_field_set_same lo w v v' x :
  0 <= lo -> 0 <= w -> set_field lo w v (set_field lo w v' x) = set_field lo w v x.
Proof. intros. bitwise i Hi. zb. Qed.

Lemma set_field_get lo w x :
  0 <= lo -> 0 <= w -> set_field lo w (get_field lo w x) x = x.
Proof. intros. bitwise i Hi. zb; rewrite testbit_get_field by lia; zb. now replace (i - lo + lo) with i by lia. Qed.

Lemma get_field_0_wrap w x : 0 <= w -> get_field 0 w x = wrap w x.
Proof. intros. bitwise i Hi. now replace (i + 0) with i by lia. Qed.

(** ** Lemmas: alignment *)
Lemma ALIGN_TO_range v a : 0 < a -> 0 <= ALIGN_TO v a < a.
Proof. intros. unfold ALIGN_TO. pose proof (Z.mod_pos_bound v a). zb. Qed.

Lemma ALIGN_TO_aligned v a : 0 < a -> (v + ALIGN_TO v a) mod a = 0.
Proof.
  intros. unfold ALIGN_TO. pose proof (Z.mod_pos_bound v a).
  destruct (Z.eqb_spec (v mod a) 0) as [E|E].
  - now rewrite Z.add_0_r.
  - replace (v + (a - v mod a)) with (1 * a + (v / a) * a).
    + rewrite <- Z.mul_add_distr_r. apply Z_mod_mult.
    + pose proof (Z.div_mod v a). lia.
Qed.

Lemma ALIGN_TO_least v a d :
  0 < a -> 0 <= d -> (v + d) mod a = 0 -> ALIGN_TO v a <= d.
Proof.
  intros Ha Hd Hm. destruct (Z.le_gt_cases (ALIGN_TO v a) d) as [|Hlt]; [done|exfalso].
  pose proof (ALIGN_TO_range v a Ha). pose proof (ALIGN_TO_aligned v a Ha) as Hm'.
  apply Z.mod_divide in Hm as [q Hq]; [|lia]. apply Z.mod_divide in Hm' as [q' Hq']; [|lia].
  assert (ALIGN_TO v a - d = (q' - q) * a) by lia.
  assert (0 < q' - q < 1) by nia. lia.
Qed.

(** ** Lemmas: outcomes and arrays *)
Lemma idx_ret {A} (l : list A) i x : idx l i = Ret x <-> l !! i = Some x.
Proof. unfold idx. destruct (l !! i); split; congruence. Qed.

Lemma idx_lt {A} (l : list A) i : (i < length l)%nat -> exists x, idx l i = Ret x /\ l !! i = Some x.
Proof.
  intros [x Hx]%lookup_lt_is_Some_2. exists x. split; [|done]. now apply idx_ret.
Qed.

Lemma set_idx_ret {A} (l : list A) i x :
  (i < length l)%nat -> set_idx l i x = Ret (<[i := x]> l).
Proof. intros. unfold set_idx. now rewrite bool_decide_eq_true_2. Qed.

#[export] Hint Extern 1 (Z.le _ _) => lia : granary.
#[export] Hint Resolve wrap_range get_field_range set_field_range set_flag_range pow2_pos : granary.

(** ** Lemmas: linear probing

    The [j]-th slot examined when a table of [n] slots is scanned from slot
    [start] with wrap-around. *)
Definition probe (n start j : nat) : nat := ((start + j) mod n)%nat.

Lemma probe_lt n start j : (0 < n)%nat -> (probe n start j < n)%nat.
Proof. intros. unfold probe. apply Nat.mod_upper_bound. lia. Qed.

Lemma probe_0 n start : (start < n)%nat -> probe n start 0 = start.
Proof. intros. unfold probe. rewrite Nat.add_0_r. now apply Nat.mod_small. Qed.

Lemma probe_succ n start j : (0 < n)%nat -> ((probe n start j + 1) mod n)%nat = probe n start (S j).
Proof.
  intros. unfold probe. rewrite Nat.Div0.add_mod_idemp_l. f_equal. lia.
Qed.

Lemma probe_surj n start i :
  (start < n)%nat -> (i < n)%nat -> exists j, (j < n)%nat /\ probe n start j = i.
Proof.
  intros Hs Hi. unfold probe. destruct (le_lt_dec start i).
  - exists (i - start)%nat. split; [lia|]. rewrite Nat.mod_small; lia.
  - exists (n + i - start)%nat. split; [lia|].
    replace (start + (n + i - start))%nat with (i + 1 * n)%nat by lia.
    rewrite Nat.Div0.mod_add. apply Nat.mod_small. lia.
Qed.

Lemma probe_cases n start j :
  (start < n)%nat -> (j < n)%nat ->
  probe n start j = (if bool_decide (start + j < n)%nat then start + j else start + j - n)%nat.
Proof.
  intros. unfold probe. case_bool_decide.
  - apply Nat.mod_small; lia.
  - replace (start + j)%nat with (start + j - n + 1 * n)%nat at 1 by lia.
    rewrite Nat.Div0.mod_add. apply Nat.mod_small. lia.
Qed.

Lemma probe_inj n start j j' :
  (start < n)%nat -> (j < n)%nat -> (j' < n)%nat -> probe n start j = probe n start j' -> j = j'.
Proof.
  intros Hs Hj Hj'. rewrite !probe_cases by done. repeat case_bool_decide; lia.
Qed.

(** The first index below a bound at which a decidable predicate holds. *)
Lemma bounded_search (P : nat -> Prop) `{forall j, Decision (P j)} n :
  (exists j, (j < n)%nat /\ P j /\ forall i, (i < j)%nat -> ~ P i) \/
  (forall j, (j < n)%nat -> ~ P j).
Proof.
  induction n as [|n [(j & ? & ? & ?)|IH]].
  - right. lia.
  - left. exists j. split; [lia|done].
  - destruct (decide (P n)) as [Hn|Hn].
    + left. exists n. split; [lia|done].
    + right. intros j Hj. destruct (decide (j = n)) as [->|]; [done|]. apply IH. lia.
Qed.

Lemma first_index (P : nat -> Prop) `{forall j, Decision (P j)} n :
  (exists j, (j < n)%nat /\ P j) ->
  exists j, (j < n)%nat /\ P j /\ forall i, (i < j)%nat -> ~ P i.
Proof.
  intros (j & Hj & HP). destruct (bounded_search P n) as [|Hno]; [done|].
  now destruct (Hno j Hj).
Qed.

(** ** Singly linked lists in memory

    [chain next h l]: the list that starts at address [h] and follows the
    [next] fields visits the addresses [l] and ends at null. *)
Fixpoint chain (next : gmap Z Z) (h : Z) (l : list Z) : Prop :=
  match l with
  | [] => h = 0
  | a :: l => h = a /\ a <> 0 /\ exists n, next !! a = Some n /\ chain next n l
  end.

Lemma chain_cong next next' h l :
  (forall a, a ∈ l -> next' !! a = next !! a) -> chain next h l -> chain next' h l.
Proof.
  revert h. induction l as [|a l IH]; intros h Heq; [done|]. cbn. intros (-> & Ha & n & Hn & Hc).
  repeat split; [done|]. exists n. rewrite Heq by by left. split; [done|].
  apply IH; [|done]. intros b Hb. apply Heq. by right.
Qed.

Lemma chain_push next a h l :
  a <> 0 -> a ∉ l -> chain next h l -> chain (<[a := h]> next) a (a :: l).
Proof.
  intros Ha Hnot Hc. cbn. repeat split; [done|]. exists h. split; [apply lookup_insert_eq|].
  apply (chain_cong next); [|done]. intros b Hb. apply lookup_insert_ne. congruence.
Qed.

Lemma chain_head next h l : chain next h l -> h = hd 0 l.
Proof. destruct l; cbn; [done|]. by intros [-> _]. Qed.

(** ** Disjoint blocks of memory

    A block is its address and its size. *)
Definition block_disjoint (b c : Z * Z) : Prop := b.1 + b.2 <= c.1 \/ c.1 + c.2 <= b.1.

Definition all_disjoint (bs : list (Z * Z)) : Prop := ForallOrdPairs block_disjoint bs.

Lemma block_disjoint_sym b c : block_disjoint b c -> block_disjoint c b.
Proof. unfold block_disjoint. intuition. Qed.

Lemma all_disjoint_cons b bs : all_disjoint (b :: bs) <-> Forall (block_disjoint b) bs /\ all_disjoint bs.
Proof. split; [intros H; inversion H; auto|intros [? ?]; by constructor]. Qed.

#[export] Instance all_disjoint_perm : Proper (Permutation ==> iff) all_disjoint.
Proof.
  assert (Himp : forall l l', Permutation l l' -> all_disjoint l -> all_disjoint l').
  { intros l l' Hp. induction Hp as [|x l l' Hp IH|x y l|]; intros Hd; try done.
    - apply all_disjoint_cons in Hd as [Hf Hd]. apply all_disjoint_cons.
      split; [by rewrite <- Hp|auto].
    - rewrite !all_disjoint_cons, !List.Forall_cons_iff in *. destruct Hd as ((Hyx & Hy) & Hx & Hd).
      repeat split; auto using block_disjoint_sym.
    - auto. }
  intros l l' Hp. split; apply Himp; [done|by symmetry].
Qed.

Lemma all_disjoint_lookup b c bs bs' :
  all_disjoint (bs ++ b :: bs') -> c ∈ bs ++ bs' -> block_disjoint b c.
Proof.
  rewrite <- Permutation_middle. rewrite all_disjoint_cons. intros [Hf _] Hc.
  rewrite Forall_forall in Hf. by apply Hf.
Qed.

(** Unlinking an element, through the head or through its predecessor. *)
Lemma chain_unlink m h l1 f l2 n :
  chain m h (l1 ++ f :: l2) -> NoDup (l1 ++ f :: l2) -> m !! f = Some n ->
  match last l1 with
  | None => chain m n l2
  | Some p => chain (<[p := n]> m) h (l1 ++ l2)
  end.
Proof.
  revert h. induction l1 as [|a l1 IH]; intros h Hc Hnd Hf.
  - cbn in Hc |- *. destruct Hc as (_ & _ & n' & Hn' & Hc). congruence.
  - cbn [app] in Hc, Hnd. apply NoDup_cons in Hnd as [Hna Hnd].
    cbn in Hc. destruct Hc as (-> & Ha & h' & Hh' & Hc). specialize (IH h' Hc Hnd Hf).
    destruct l1 as [|b l1].
    + cbn in IH |- *. repeat split; [done|]. exists n. split; [apply lookup_insert_eq|].
      apply (chain_cong m); [|done]. intros x Hx. apply lookup_insert_ne. intros ->.
      apply Hna. cbn. by right.
    + rewrite last_cons_cons. destruct (last (b :: l1)) as [p|] eqn:Hp.
      * assert (Hpin : p ∈ b :: l1) by by apply last_Some_elem_of.
        cbn [app] in IH |- *. split; [done|]. split; [done|]. exists h'. split; [|done].
        rewrite lookup_insert_ne; [done|]. intros ->. apply Hna. apply elem_of_app. by left.
      * by apply last_None in Hp.
Qed.

(** Appending a chain to the last element of another one. *)
Lemma chain_splice m h l e g lg :
  chain m h (l ++ [e]) -> chain m g lg -> NoDup (l ++ [e]) -> (forall x, x ∈ lg -> x <> e) ->
  chain (<[e := g]> m) h ((l ++ [e]) ++ lg).
Proof.
  revert h. induction l as [|a l IH]; intros h Hc Hg Hnd Hne.
  - cbn in Hc |- *. destruct Hc as (-> & He & _). repeat split; [done|]. exists g.
    split; [apply lookup_insert_eq|]. apply (chain_cong m); [|done].
    intros x Hx. apply lookup_insert_ne. apply not_eq_sym. by apply Hne.
  - cbn [app] in Hc, Hnd |- *. apply NoDup_cons in Hnd as [Hna Hnd].
    cbn in Hc |- *. destruct Hc as (-> & Ha & h' & Hh' & Hc). repeat split; [done|]. exists h'.
    split; [|by apply IH]. rewrite lookup_insert_ne; [done|]. intros ->. apply Hna. apply elem_of_app. right. by left.
Qed.

(** The elements of a chain are keys of the map that links it. *)
Lemma chain_dom m h l : chain m h l -> forall x, x ∈ l -> x ∈ dom m.
Proof.
  revert h. induction l as [|a l IH]; intros h Hc x Hx; [by apply elem_of_nil in Hx|].
  cbn in Hc. destruct Hc as (_ & _ & n & Hn & Hc). apply elem_of_cons in Hx as [->|Hx].
  - by apply elem_of_dom_2 in Hn.
  - by apply (IH n).
Qed.

Lemma chain_length m h l : chain m h l -> NoDup l -> (length l <= size m)%nat.
Proof.
  intros Hc Hnd. rewrite <- size_dom, <- (size_list_to_set (C := gset Z) l Hnd).
  apply subseteq_size. intros x Hx. apply elem_of_list_to_set in Hx. by eapply chain_dom.
Qed.

Lemma chain_nonnull m h l : chain m h l -> forall x, x ∈ l -> x <> 0.
Proof.
  revert h. induction l as [|a l IH]; intros h Hc x Hx; [by apply elem_of_nil in Hx|].
  cbn in Hc. destruct Hc as (_ & Ha & n & Hn & Hc). apply elem_of_cons in Hx as [->|Hx]; [done|].
  by apply (IH n).
Qed.
