(* ===== verification/Utils.v ===== *)
(** * Utilities ([granary/utils.h])

    Address classification, the lock-free set of identified elements
    ([atomic_id_set]), the bit set and the size of an object with a trailing
    array.  [atomic_id_set] is modelled for one thread at a time, in which a
    [compare_exchange] succeeds exactly when the slot holds the expected
    value. *)

From Stdlib Require Import ZArith Lia.
From stdpp Require Import base numbers list option relations.
From S2P Require Import Prelude.

(** ** Valid addresses *)

(** Kernel: bit 47 of the address; user: above the first page. *)
Definition is_valid_address `{Config} (addr : Z) : bool :=
  if env_kernel then negb (Z.land 1 (Z.shiftr addr 47) =? 0) else 4095 <? addr.

(** ** [sizeof_trailing_vla]

    [array_size] is a 32-bit [unsigned], so [array_size - 1] wraps at 32
    bits before it is widened to [size_t]. *)
Definition sizeof_trailing_vla (sizeof_T sizeof_V array_size : Z) : Z :=
  u64 (sizeof_T + u32 (array_size - 1) * sizeof_V).

(** ** [atomic_id_set] *)
Module AtomicIdSet.

Record atomic_id_set := {
  set : list Z;
  default_value : Z;
  missing_value : Z
}.

Definition max_items (s : atomic_id_set) : nat := length (set s).

(** The constructor leaves the slots alone: they are zero, as the sets have
    static storage. *)
Definition make (n : nat) (default_value_ missing_value_ : Z) : atomic_id_set :=
  {| set := replicate n 0;
     default_value := default_value_; missing_value := missing_value_ |}.

Definition store_slot (s : atomic_id_set) (i : nat) (v : Z) : atomic_id_set :=
  {| set := <[i := v]> (set s);
     default_value := default_value s; missing_value := missing_value s |}.

Definition load_slot (s : atomic_id_set) (i : nat) : Z :=
  default (default_value s) (set s !! i).

(** One iteration of the [do ... while] loop of [add] per unit of fuel. *)
Fixpoint add_loop (fuel : nat) (s : atomic_id_set) (value : Z) (next_index : nat)
    (last_missing_index : nat) (found_missing_slot : bool) : outcome (atomic_id_set * nat) :=
  match fuel with
  | O => OutOfFuel
  | S fuel =>
      let index := next_index in
      let next_index := ((index + 1) mod max_items s)%nat in
      let found_value := load_slot s index in
      if missing_value s =? found_value then
        if found_value =? value then Ret (s, index)
        else add_loop fuel s value next_index index true
      else if default_value s =? found_value then
        Ret (store_slot s (if found_missing_slot then last_missing_index else index) value, index)
      else if found_value =? value then Ret (s, index)
      else add_loop fuel s value next_index last_missing_index found_missing_slot
  end.

Definition start_index (s : atomic_id_set) (value : Z) : nat :=
  Z.to_nat (value mod Z.of_nat (max_items s)).

Definition add (fuel : nat) (s : atomic_id_set) (value : Z) : outcome (atomic_id_set * nat) :=
  add_loop fuel s value (start_index s value) 0 false.

Definition get (s : atomic_id_set) (id : nat) : Z :=
  let val := load_slot s (id mod max_items s)%nat in
  if missing_value s =? val then default_value s else val.

Definition remove (s : atomic_id_set) (id : nat) : atomic_id_set :=
  store_slot s (id mod max_items s)%nat (missing_value s).

(** A value an element can have. *)
Definition is_element (s : atomic_id_set) (v : Z) : Prop :=
  v <> default_value s /\ v <> missing_value s.

(** Every element is reached from its home slot without crossing a slot that
    was never used. *)
Record inv (s : atomic_id_set) : Prop := {
  inv_size : (0 < max_items s)%nat;
  inv_distinct : default_value s <> missing_value s;
  inv_reach : forall i v, set s !! i = Some v -> is_element s v ->
    exists j, (j < max_items s)%nat /\ probe (max_items s) (start_index s v) j = i /\
      forall j', (j' < j)%nat ->
        load_slot s (probe (max_items s) (start_index s v) j') <> default_value s
}.

End AtomicIdSet.

(** ** [bitset] *)
Module Bitset.

Definition MIN_NUM_BITS : Z := 64.
Definition TRAILING_BITS (num_bits : Z) : Z := num_bits mod MIN_NUM_BITS.
Definition MISSING_BITS (num_bits : Z) : Z := MIN_NUM_BITS - TRAILING_BITS num_bits.
Definition NUM_BITS (num_bits : Z) : Z :=
  if TRAILING_BITS num_bits =? 0 then num_bits else num_bits + MISSING_BITS num_bits.
Definition NUM_ELEMS (num_bits : Z) : Z := NUM_BITS num_bits / MIN_NUM_BITS.

Definition mask_of (offset : Z) : Z := u64 (Z.shiftl 1 (offset mod MIN_NUM_BITS)).

Definition elem_index (offset : Z) : nat := Z.to_nat (offset / MIN_NUM_BITS).

Definition set (elems : list Z) (offset : Z) (value : bool) : outcome (list Z) :=
  let mask := mask_of offset in
  e ← idx elems (elem_index offset);
  set_idx elems (elem_index offset)
    (if value then Z.lor e mask else Z.land e (wnot 64 mask)).

Definition get (elems : list Z) (offset : Z) : outcome bool :=
  let mask := mask_of offset in
  e ← idx elems (elem_index offset);
  Ret (negb (Z.land mask e =? 0)).

Definition wf (num_bits : Z) (elems : list Z) : Prop :=
  length elems = Z.to_nat (NUM_ELEMS num_bits) /\ Forall (in_width 64) elems.

(** The abstract bit set: the offsets whose bit is set. *)
Definition bit_of (elems : list Z) (offset : Z) : bool :=
  match elems !! elem_index offset with
  | Some e => Z.testbit e (offset mod MIN_NUM_BITS)
  | None => false
  end.

End Bitset.

(** ** Theorems: [atomic_id_set] *)
Section atomic_id_set_lemmas.
Import AtomicIdSet.

Lemma load_store_slot s i v k :
  (i < max_items s)%nat ->
  load_slot (store_slot s i v) k = if decide (k = i) then v else load_slot s k.
Proof.
  intros. unfold load_slot, store_slot; cbn. destruct (decide (k = i)) as [->|].
  - now rewrite list_lookup_insert_eq.
  - now rewrite list_lookup_insert_ne.
Qed.

Lemma max_items_store s i v : max_items (store_slot s i v) = max_items s.
Proof. apply length_insert. Qed.

Lemma start_index_lt s v : (0 < max_items s)%nat -> (start_index s v < max_items s)%nat.
Proof. intros. unfold start_index. pose proof (Z.mod_pos_bound v (Z.of_nat (max_items s))). lia. Qed.

(** What the scan from the [j]-th probe does when the first slot that is
    unused or holds the value is the [j0]-th. *)
Lemma add_loop_scan s v st fuel j j0 lm fm :
  (0 < max_items s)%nat -> is_element s v -> (j <= j0)%nat -> (j0 - j < fuel)%nat ->
  (forall i, (j <= i < j0)%nat -> load_slot s (probe (max_items s) st i) <> default_value s /\
     load_slot s (probe (max_items s) st i) <> v) ->
  (load_slot s (probe (max_items s) st j0) = default_value s \/
   load_slot s (probe (max_items s) st j0) = v) ->
  default_value s <> missing_value s ->
  (fm = true -> exists i, (i < j)%nat /\ lm = probe (max_items s) st i /\ load_slot s lm = missing_value s) ->
  exists s', add_loop fuel s v (probe (max_items s) st j) lm fm = Ret (s', probe (max_items s) st j0) /\
    (load_slot s (probe (max_items s) st j0) = v -> s' = s) /\
    (load_slot s (probe (max_items s) st j0) = default_value s ->
     exists i, (i <= j0)%nat /\ s' = store_slot s (probe (max_items s) st i) v /\
       (i = j0 \/ load_slot s (probe (max_items s) st i) = missing_value s) /\
       ((fm = true \/ exists m, (j <= m < j0)%nat /\
          load_slot s (probe (max_items s) st m) = missing_value s) ->
        load_slot s (probe (max_items s) st i) = missing_value s)).
Proof.
  intros Hn [Hvd Hvm]. revert j lm fm.
  induction fuel as [|fuel IH]; intros j lm fm Hj Hf Hpre Hstop Hdm Hlm; [lia|].
  cbn [add_loop]. destruct (decide (j = j0)) as [->|Hne].
  - destruct Hstop as [Hd|Hv].
    + rewrite Hd. destruct (Z.eqb_spec (missing_value s) (default_value s)); [congruence|].
      rewrite Z.eqb_refl. eexists; split; [done|]. split; [congruence|]. intros _.
      destruct fm.
      * destruct Hlm as (i & Hi & -> & Hm); [done|]. exists i. repeat split; eauto with lia.
      * exists j0. repeat split; eauto. intros [|(m & ? & ?)]; [done|lia].
    + rewrite Hv. destruct (Z.eqb_spec (missing_value s) v); [congruence|].
      destruct (Z.eqb_spec (default_value s) v); [congruence|]. rewrite Z.eqb_refl.
      eexists; split; [done|]. split; [done|]. congruence.
  - destruct (Hpre j) as [Hnd Hnv]; [lia|]. rewrite probe_succ by done.
    destruct (Z.eqb_spec (missing_value s) (load_slot s (probe (max_items s) st j))) as [Hm|Hm].
    + destruct (Z.eqb_spec (load_slot s (probe (max_items s) st j)) v); [congruence|].
      destruct (IH (S j) (probe (max_items s) st j) true) as (s' & -> & H1 & H2);
        [lia|lia|intros; apply Hpre; lia|done|done|intros _; exists j; eauto with lia|].
      exists s'. split; [done|]. split; [done|]. intros Hd.
      destruct (H2 Hd) as (i & ? & ? & ? & H5). exists i. repeat split; try done.
      intros _. apply H5. now left.
    + destruct (Z.eqb_spec (default_value s) (load_slot s (probe (max_items s) st j))); [congruence|].
      destruct (Z.eqb_spec (load_slot s (probe (max_items s) st j)) v); [congruence|].
      destruct (IH (S j) lm fm) as (s' & -> & H1 & H2);
        [lia|lia|intros; apply Hpre; lia|done|done| |].
      { intros Hfm. destruct (Hlm Hfm) as (i & ? & ? & ?). exists i. eauto with lia. }
      exists s'. split; [done|]. split; [done|]. intros Hd.
      destruct (H2 Hd) as (i & ? & ? & ? & H5). exists i. repeat split; try done.
      intros [Hfm|(m & Hmr & Hmm)]; apply H5; [now left|right].
      exists m. split; [|done]. destruct (decide (m = j)) as [->|]; [congruence|lia].
Qed.

(** [add] scans up to the first slot that is unused or holds the value. *)
Lemma add_scan s v :
  inv s -> is_element s v ->
  (exists i, (i < max_items s)%nat /\ (load_slot s i = default_value s \/ load_slot s i = v)) ->
  exists j0, (j0 < max_items s)%nat /\
  (forall i, (i < j0)%nat ->
     load_slot s (probe (max_items s) (start_index s v) i) <> default_value s /\
     load_slot s (probe (max_items s) (start_index s v) i) <> v) /\
  exists s', add (max_items s) s v = Ret (s', probe (max_items s) (start_index s v) j0) /\
    (load_slot s (probe (max_items s) (start_index s v) j0) = v /\ s' = s \/
     load_slot s (probe (max_items s) (start_index s v) j0) = default_value s /\
     exists i, (i <= j0)%nat /\ s' = store_slot s (probe (max_items s) (start_index s v) i) v /\
       (i = j0 \/ load_slot s (probe (max_items s) (start_index s v) i) = missing_value s) /\
       ((exists m, (m < j0)%nat /\
          load_slot s (probe (max_items s) (start_index s v) m) = missing_value s) ->
        load_slot s (probe (max_items s) (start_index s v) i) = missing_value s)).
Proof.
  intros [Hn Hdm _] Hv (i0 & Hi0 & Hl0). pose proof (start_index_lt s v Hn) as Hst.
  destruct (probe_surj (max_items s) (start_index s v) i0 Hst Hi0) as (k & Hk & Hpk).
  destruct (first_index (fun j => load_slot s (probe (max_items s) (start_index s v) j) = default_value s \/
     load_slot s (probe (max_items s) (start_index s v) j) = v) (max_items s)) as (j0 & Hj0 & HP & Hmin).
  { exists k. rewrite Hpk. done. }
  exists j0. split; [done|].
  split; [intros i Hi; specialize (Hmin i Hi); tauto|].
  destruct (add_loop_scan s v (start_index s v) (max_items s) 0 j0 0 false) as (s' & Hadd & H1 & H2);
    try done; try lia.
  { intros i [_ Hi]. specialize (Hmin i Hi). tauto. }
  rewrite probe_0 in Hadd by done. exists s'. split; [exact Hadd|].
  destruct HP as [Hd|Hv']; [right|left; auto].
  split; [done|]. destruct (H2 Hd) as (i & ? & ? & ? & H5). exists i. repeat split; try done.
  intros (m & ? & ?). apply H5. right. exists m. eauto with lia.
Qed.

Lemma store_slot_inv s k u :
  inv s -> (k < max_items s)%nat -> u <> default_value s ->
  (is_element s u -> exists j, (j < max_items s)%nat /\
     probe (max_items s) (start_index s u) j = k /\
     forall j', (j' < j)%nat ->
       load_slot s (probe (max_items s) (start_index s u) j') <> default_value s) ->
  inv (store_slot s k u).
Proof.
  intros [Hn Hdm Hreach] Hk Hu Hel. split; rewrite ?max_items_store; try done.
  intros i v Hi Hv. unfold start_index. rewrite max_items_store.
  assert (Hkeep : forall p, load_slot s p <> default_value s ->
    load_slot (store_slot s k u) p <> default_value s).
  { intros p Hp. rewrite load_store_slot by done. now destruct (decide (p = k)). }
  destruct (decide (i = k)) as [->|Hne].
  - cbn in Hi. rewrite list_lookup_insert_eq in Hi by done. injection Hi as <-.
    destruct (Hel Hv) as (j & ? & ? & Hj). exists j. repeat split; try done. auto.
  - cbn in Hi. rewrite list_lookup_insert_ne in Hi by done.
    destruct (Hreach i v Hi Hv) as (j & ? & ? & Hj). exists j. repeat split; try done. auto.
Qed.

Lemma get_probe s st j :
  (0 < max_items s)%nat ->
  get s (probe (max_items s) st j) =
    (let val := load_slot s (probe (max_items s) st j) in
     if missing_value s =? val then default_value s else val).
Proof.
  intros. unfold get. rewrite (Nat.mod_small (probe _ _ _)) by now apply probe_lt. done.
Qed.

(** Adding returns within [max_items] iterations, keeps the invariant, and
    leaves every other slot alone. *)
Lemma add_inv s v :
  inv s -> is_element s v ->
  (exists i, (i < max_items s)%nat /\ (load_slot s i = default_value s \/ load_slot s i = v)) ->
  exists s' id, add (max_items s) s v = Ret (s', id) /\ inv s' /\
    exists k, (k < max_items s)%nat /\ load_slot s' k = v /\
      forall k', k' <> k -> load_slot s' k' = load_slot s k'.
Proof.
  intros Hinv Hv Hex. destruct (add_scan s v Hinv Hv Hex) as (j0 & Hj0 & Hpre & s' & -> & Hcase).
  pose proof (inv_size _ Hinv) as Hn. eexists _, _. split; [done|].
  destruct Hcase as [[Hl ->]|(Hd & i & Hi & -> & _ & _)].
  - split; [done|]. exists (probe (max_items s) (start_index s v) j0).
    split; [now apply probe_lt|]. done.
  - assert (Hp : (probe (max_items s) (start_index s v) i < max_items s)%nat) by now apply probe_lt.
    split.
    + apply store_slot_inv; [done|done|apply Hv|]. intros _. exists i.
      repeat split; [lia|]. intros j' Hj'. apply Hpre. lia.
    + exists (probe (max_items s) (start_index s v) i). split; [done|].
      rewrite load_store_slot, decide_True by done. split; [done|].
      intros k' Hk'. now rewrite load_store_slot, decide_False by done.
Qed.

Lemma remove_inv s id : inv s -> inv (remove s id).
Proof.
  intros Hinv. pose proof (inv_size _ Hinv) as Hn. apply store_slot_inv; [done| | |].
  - apply Nat.mod_upper_bound. lia.
  - intros E. symmetry in E. revert E. apply Hinv.
  - intros [_ []]. done.
Qed.

Lemma probe_add_n n st j : (0 < n)%nat -> (n <= j)%nat -> probe n st j = probe n st (j - n).
Proof.
  intros. unfold probe. replace (st + j)%nat with (st + (j - n) + 1 * n)%nat by lia.
  apply Nat.Div0.mod_add.
Qed.

(** Whatever the fuel, a scan that returns keeps the invariant. *)
Lemma add_loop_inv fuel s v j lm fm s' id :
  inv s -> is_element s v ->
  (forall i, (i < j)%nat -> load_slot s (probe (max_items s) (start_index s v) i) <> default_value s) ->
  (fm = true -> exists i, (i < j)%nat /\ lm = probe (max_items s) (start_index s v) i) ->
  add_loop fuel s v (probe (max_items s) (start_index s v) j) lm fm = Ret (s', id) -> inv s'.
Proof.
  intros Hinv Hv. pose proof (inv_size _ Hinv) as Hn. revert j lm fm.
  induction fuel as [|fuel IH]; intros j lm fm Hpre Hlm Hadd; [done|]. cbn [add_loop] in Hadd.
  rewrite probe_succ in Hadd by done.
  destruct (Z.eqb_spec (missing_value s) (load_slot s (probe (max_items s) (start_index s v) j))) as [Hm|Hm].
  - destruct (_ =? v); [congruence|]. apply IH in Hadd; [done| |].
    + intros i Hi. destruct (decide (i = j)) as [->|]; [|apply Hpre; lia].
      rewrite <- Hm. intros E. destruct (inv_distinct _ Hinv). done.
    + intros _. exists j. split; [lia|done].
  - destruct (Z.eqb_spec (default_value s) (load_slot s (probe (max_items s) (start_index s v) j))) as [Hd|Hd].
    + injection Hadd as <- <-.
      assert (Hj : (j < max_items s)%nat).
      { destruct (le_lt_dec (max_items s) j) as [Hge|]; [exfalso|done].
        rewrite probe_add_n in Hd by done. symmetry in Hd. revert Hd. apply Hpre. lia. }
      assert (exists i, (i <= j)%nat /\ (if fm then lm else probe (max_items s) (start_index s v) j)
        = probe (max_items s) (start_index s v) i) as (i & Hi & ->).
      { destruct fm; [destruct Hlm as (i & ? & ->); [done|]; exists i|exists j]; eauto with lia. }
      apply store_slot_inv; [done|now apply probe_lt|apply Hv|]. intros _. exists i.
      repeat split; [lia|]. intros j' ?. apply Hpre. lia.
    + destruct (_ =? v); [congruence|]. apply IH in Hadd; [done| |].
      * intros i Hi. destruct (decide (i = j)) as [->|]; [done|apply Hpre; lia].
      * intros Hfm. destruct (Hlm Hfm) as (i & ? & ->). exists i. eauto with lia.
Qed.

Lemma add_any_inv fuel s v s' id :
  inv s -> is_element s v -> add fuel s v = Ret (s', id) -> inv s'.
Proof.
  intros Hinv Hv Hadd. pose proof (start_index_lt s v (inv_size _ Hinv)).
  apply (add_loop_inv fuel s v 0 0 false s' id); try done; [lia|]. now rewrite probe_0.
Qed.

Lemma make_inv n d m : (0 < n)%nat -> d = 0 -> m <> 0 -> inv (make n d m).
Proof.
  intros Hn -> Hm. split; unfold max_items; cbn; rewrite ?length_replicate; try done.
  intros i v [-> _]%lookup_replicate [Hv _]. done.
Qed.

End atomic_id_set_lemmas.

(** The operations of an [atomic_id_set] as steps. *)
Inductive idset_step : AtomicIdSet.atomic_id_set -> AtomicIdSet.atomic_id_set -> Prop :=
  | step_add s s' fuel v id :
      AtomicIdSet.is_element s v ->
      AtomicIdSet.add fuel s v = Ret (s', id) -> idset_step s s'
  | step_remove s id : idset_step s (AtomicIdSet.remove s id).

(** ** Theorems: [bitset] *)
Section bitset_lemmas.
Import Bitset.

Lemma elem_index_lt num_bits elems offset :
  0 < num_bits -> wf num_bits elems -> 0 <= offset < num_bits ->
  (elem_index offset < length elems)%nat.
Proof.
  intros Hn [-> _] Ho. unfold elem_index, NUM_ELEMS, NUM_BITS, MISSING_BITS, TRAILING_BITS, MIN_NUM_BITS.
  assert (offset / 64 < (if num_bits mod 64 =? 0 then num_bits else num_bits + (64 - num_bits mod 64)) / 64).
  { destruct (Z.eqb_spec (num_bits mod 64) 0); Z.to_euclidean_division_equations; lia. }
  pose proof (Z.div_pos offset 64). lia.
Qed.

Lemma offset_split offset : 0 <= offset -> offset = 64 * (offset / 64) + offset mod 64 /\ 0 <= offset mod 64 < 64.
Proof. intros. Z.to_euclidean_division_equations; lia. Qed.

Lemma testbit_mask_of offset i :
  0 <= i -> Z.testbit (mask_of offset) i = (i =? offset mod MIN_NUM_BITS).
Proof.
  intros. unfold mask_of, MIN_NUM_BITS. pose proof (Z.mod_pos_bound offset 64).
  rewrite testbit_wrap, testbit_shiftl by lia. destruct (Z.eqb_spec i (offset mod 64)) as [->|].
  - rewrite Z.sub_diag. now zb.
  - zb. destruct (Z.testbit 1 (i - offset mod 64)) eqn:E; [|done].
    exfalso. revert E. rewrite (testbit_high 1); [done|lia|lia].
Qed.

Lemma get_bit_of elems offset :
  (elem_index offset < length elems)%nat -> get elems offset = Ret (bit_of elems offset).
Proof.
  intros Hlt. destruct (idx_lt elems _ Hlt) as (e & He & Hl). unfold get, bit_of.
  rewrite He, Hl. cbn [mbind outcome_bind]. f_equal.
  pose proof (Z.mod_pos_bound offset 64).
  destruct (Z.testbit e (offset mod MIN_NUM_BITS)) eqn:Hb; unfold MIN_NUM_BITS in *.
  - destruct (Z.eqb_spec (Z.land (mask_of offset) e) 0) as [E|]; [|done]. exfalso.
    assert (Hz : Z.testbit (Z.land (mask_of offset) e) (offset mod 64) = false) by (rewrite E; apply Z.bits_0).
    rewrite Z.land_spec, testbit_mask_of, Z.eqb_refl, Hb in Hz by lia. done.
  - destruct (Z.eqb_spec (Z.land (mask_of offset) e) 0) as [|E]; [done|]. exfalso. apply E.
    bitwise i Hi. rewrite testbit_mask_of by lia. unfold MIN_NUM_BITS. zb.
Qed.

Lemma set_bit_of elems offset b offset' :
  0 <= offset -> 0 <= offset' -> (elem_index offset < length elems)%nat ->
  exists elems', set elems offset b = Ret elems' /\ length elems' = length elems /\
    (Forall (in_width 64) elems -> Forall (in_width 64) elems') /\
    bit_of elems' offset' = if offset' =? offset then b else bit_of elems offset'.
Proof.
  intros Ho Ho' Hlt. destruct (idx_lt elems _ Hlt) as (e & He & Hl). unfold set. rewrite He.
  cbn [mbind outcome_bind]. rewrite set_idx_ret by done. eexists; split; [done|].
  split; [apply length_insert|].
  pose proof (Z.mod_pos_bound offset 64). split.
  { intros Hw. apply Forall_insert; [done|]. rewrite Forall_lookup in Hw.
    specialize (Hw _ _ Hl). unfold in_width in *.
    apply in_width_bits; [lia| |].
    - destruct b; [apply Z.lor_nonneg; split; [lia|apply wrap_range; lia]|].
      apply Z.land_nonneg. left. lia.
    - intros i Hi. destruct b; rewrite ?Z.lor_spec, ?Z.land_spec, (testbit_high 64 e) by lia; [|done].
      rewrite testbit_mask_of by lia. unfold MIN_NUM_BITS. zb. }
  unfold bit_of. destruct (decide (elem_index offset' = elem_index offset)) as [E|Hne].
  - rewrite E, list_lookup_insert_eq, Hl by done.
    assert (Hm : (offset' =? offset) = (offset' mod 64 =? offset mod 64)).
    { unfold elem_index, MIN_NUM_BITS in E. pose proof (offset_split offset Ho).
      pose proof (offset_split offset' Ho'). pose proof (Z.div_pos offset 64).
      pose proof (Z.div_pos offset' 64). zb. }
    rewrite Hm. pose proof (Z.mod_pos_bound offset' 64). unfold MIN_NUM_BITS.
    destruct b; rewrite ?Z.lor_spec, ?Z.land_spec; unfold wnot;
      rewrite ?Z.lxor_spec, ?testbit_ones, testbit_mask_of by lia; unfold MIN_NUM_BITS;
      zb; rewrite ?orb_true_r, ?orb_false_r, ?andb_true_r, ?andb_false_r; done.
  - rewrite list_lookup_insert_ne by done. destruct (Z.eqb_spec offset' offset) as [->|]; done.
Qed.

End bitset_lemmas.

(** ** Properties *)

(** An [atomic_id_set] that satisfies its invariant satisfies it after
    every operation: no element is ever hidden behind a never-used slot of
    its probe sequence. *)
Theorem atomic_id_set_invariant s s' :
  AtomicIdSet.inv s -> rtc idset_step s s' -> AtomicIdSet.inv s'.
Proof.
  intros Hinv Hsteps. induction Hsteps as [|s s1 s2 Hstep _ IH]; [done|]. apply IH.
  destruct Hstep as [s s' fuel v id Hv Hadd|]; [now apply (add_any_inv fuel s v s' id)|now apply remove_inv].
Qed.

Lemma atomic_id_set_invariant_witness :
  AtomicIdSet.inv (AtomicIdSet.remove (AtomicIdSet.store_slot (AtomicIdSet.make 4 0 1) 2 6) 2).
Proof.
  apply (atomic_id_set_invariant (AtomicIdSet.make 4 0 1)).
  - apply make_inv; lia.
  - eapply rtc_l; [|apply rtc_once, step_remove].
    apply (step_add _ _ 4 6 2); [split; discriminate|reflexivity].
Defined.

(** While no slot has been freed, [add] on a set with a never-used slot
    returns within [max_items] iterations an identifier under which [get]
    returns the added value, and every other identifier keeps its element. *)
Theorem atomic_id_set_add_get s v :
  AtomicIdSet.inv s -> AtomicIdSet.is_element s v ->
  (exists i, (i < AtomicIdSet.max_items s)%nat /\ AtomicIdSet.load_slot s i = AtomicIdSet.default_value s) ->
  (forall i, (i < AtomicIdSet.max_items s)%nat -> AtomicIdSet.load_slot s i <> AtomicIdSet.missing_value s) ->
  exists s' id, AtomicIdSet.add (AtomicIdSet.max_items s) s v = Ret (s', id) /\
    AtomicIdSet.get s' id = v /\
    forall id', (id' mod AtomicIdSet.max_items s <> id)%nat -> AtomicIdSet.get s' id' = AtomicIdSet.get s id'.
Proof.
  intros Hinv Hv (i & Hi & Hd) Hnm. pose proof (AtomicIdSet.inv_size _ Hinv) as Hn.
  destruct (add_scan s v Hinv Hv) as (j0 & Hj0 & _ & s' & Hadd & Hcase); [eauto|].
  eexists _, _. split; [exact Hadd|]. clear Hadd.
  destruct Hcase as [[Hl ->]|(Hl & i' & _ & -> & [->|Hm] & _)].
  - split; [|done]. rewrite get_probe by done. cbn. rewrite Hl. destruct Hv. zb.
  - pose proof (probe_lt _ (AtomicIdSet.start_index s v) j0 Hn) as Hp.
    split; [|intros id' Hid']; unfold AtomicIdSet.get; rewrite max_items_store, load_store_slot by done; cbn.
    + rewrite Nat.mod_small, decide_True by done. destruct Hv. zb.
    + now rewrite decide_False by done.
  - destruct (Hnm (probe (AtomicIdSet.max_items s) (AtomicIdSet.start_index s v) i')); [|done].
    now apply probe_lt.
Qed.

Lemma atomic_id_set_add_get_witness :
  exists s' id, AtomicIdSet.add 4 (AtomicIdSet.make 4 0 1) 6 = Ret (s', id) /\
    AtomicIdSet.get s' id = 6 /\
    forall id', (id' mod 4 <> id)%nat -> AtomicIdSet.get s' id' = AtomicIdSet.get (AtomicIdSet.make 4 0 1) id'.
Proof.
  apply (atomic_id_set_add_get (AtomicIdSet.make 4 0 1) 6).
  - apply make_inv; lia.
  - split; discriminate.
  - exists 0%nat. split; [vm_compute; lia|reflexivity].
  - intros i Hi. do 4 (destruct i as [|i]; [discriminate|]). vm_compute in Hi. lia.
Defined.

(** When the scan crosses a freed slot before it reaches a never-used one,
    [add] stores the new value in the freed slot but returns the index of the
    never-used slot: [get] on the returned identifier yields the default
    value, not the element. *)
Theorem atomic_id_set_add_reuse_wrong_id s v m :
  AtomicIdSet.inv s -> AtomicIdSet.is_element s v ->
  (forall i, AtomicIdSet.load_slot s i <> v) ->
  (exists i, (i < AtomicIdSet.max_items s)%nat /\ AtomicIdSet.load_slot s i = AtomicIdSet.default_value s) ->
  (forall j, (j <= m)%nat -> AtomicIdSet.load_slot s
     (probe (AtomicIdSet.max_items s) (AtomicIdSet.start_index s v) j) <> AtomicIdSet.default_value s) ->
  AtomicIdSet.load_slot s (probe (AtomicIdSet.max_items s) (AtomicIdSet.start_index s v) m)
    = AtomicIdSet.missing_value s ->
  exists s' id, AtomicIdSet.add (AtomicIdSet.max_items s) s v = Ret (s', id) /\
    AtomicIdSet.get s' id = AtomicIdSet.default_value s.
Proof.
  intros Hinv Hv Hno (i & Hi & Hd) Hpre Hm. pose proof (AtomicIdSet.inv_size _ Hinv) as Hn.
  destruct (add_scan s v Hinv Hv) as (j0 & Hj0 & _ & s' & Hadd & Hcase); [eauto|].
  eexists _, _. split; [exact Hadd|].
  destruct Hcase as [[Hl _]|(Hl & i' & _ & -> & _ & Hmiss)]; [now destruct (Hno _ Hl)|].
  assert (Hmj : (m < j0)%nat).
  { destruct (le_lt_dec j0 m) as [Hle|]; [|done]. now destruct (Hpre j0 Hle). }
  specialize (Hmiss (ex_intro _ m (conj Hmj Hm))). unfold AtomicIdSet.get.
  rewrite max_items_store, Nat.mod_small, load_store_slot by now apply probe_lt.
  destruct (decide _) as [E|_]; [|cbn; rewrite Hl; zb].
  exfalso. apply (AtomicIdSet.inv_distinct _ Hinv). rewrite <- Hl, E. done.
Qed.

Lemma atomic_id_set_add_reuse_wrong_id_witness :
  exists s' id,
    AtomicIdSet.add 4 (AtomicIdSet.store_slot (AtomicIdSet.make 4 0 1) 2 1) 6 = Ret (s', id) /\
    AtomicIdSet.get s' id = 0.
Proof.
  apply (atomic_id_set_add_reuse_wrong_id (AtomicIdSet.store_slot (AtomicIdSet.make 4 0 1) 2 1) 6 0).
  - apply store_slot_inv; [apply make_inv; lia|vm_compute; lia|discriminate|].
    intros [_ []]. reflexivity.
  - split; discriminate.
  - intros i. do 4 (destruct i as [|i]; [discriminate|]). discriminate.
  - exists 0%nat. split; [vm_compute; lia|reflexivity].
  - intros j Hj. destruct j; [discriminate|lia].
  - reflexivity.
Defined.

(** [bitset]: setting the bit at an offset below [num_bits] stays inside
    the array, keeps its well-formedness, and [get] then returns the new
    value at that offset and the old one at every other offset. *)
Theorem bitset_get_set num_bits elems offset b offset' :
  0 < num_bits -> Bitset.wf num_bits elems ->
  0 <= offset < num_bits -> 0 <= offset' < num_bits ->
  exists elems', Bitset.set elems offset b = Ret elems' /\ Bitset.wf num_bits elems' /\
    if offset' =? offset then Bitset.get elems' offset' = Ret b
    else Bitset.get elems' offset' = Bitset.get elems offset'.
Proof.
  intros Hn Hwf Ho Ho'. pose proof (elem_index_lt _ _ _ Hn Hwf Ho) as Hlt.
  pose proof (elem_index_lt _ _ _ Hn Hwf Ho') as Hlt'. destruct Hwf as [Hlen Hw].
  destruct (set_bit_of elems offset b offset') as (elems' & -> & Hlen' & Hw' & Hbit); [lia..|done|].
  exists elems'. split; [done|]. split; [split; [congruence|auto]|].
  rewrite !get_bit_of by (rewrite ?Hlen'; done). rewrite Hbit. now destruct (_ =? _).
Qed.

Lemma bitset_get_set_witness :
  exists elems', Bitset.set [0; 0] 70 true = Ret elems' /\ Bitset.wf 100 elems' /\
    Bitset.get elems' 70 = Ret true.
Proof.
  apply (bitset_get_set 100 [0; 0] 70 true 70); try lia.
  split; [reflexivity|]. repeat constructor; discriminate.
Defined.
