(* ===== verification/Policy.v ===== *)
(** * Instrumentation policies ([granary/policy.h], [granary/policy.cc])

    The 16-bit policy word with its temporary and inherited property bits,
    mangled addresses (a policy in the high 16 bits of a code address), and
    the registration and dispatch of the client's policy classes. *)

From Stdlib Require Import ZArith Lia.
From stdpp Require Import base numbers list option gmap relations.
From S2P Require Import Prelude.

(** ** The policy word *)

Inductive property_inherit_constraint :=
  | INHERIT_ALL | INHERIT_CALL | INHERIT_JMP | INHERIT_RETURN.

Inductive runtime_context := RUNNING_AS_APP | RUNNING_AS_HOST.

(** The union of the bit-field struct [u] and [as_raw_bits]. *)
Record instrumentation_policy := mk_policy { as_raw_bits : Z }.

Definition NUM_TEMPORARY_PROPERTIES : Z := 4.
Definition NUM_INHERITED_PROERTIES : Z := 4.
Definition NUM_PROPERTIES : Z := NUM_TEMPORARY_PROPERTIES + NUM_INHERITED_PROERTIES.
Definition MAX_NUM_POLICY_IDS : Z := Z.shiftl 1 (16 - NUM_PROPERTIES).

(** Bit positions of the fields of [u], in declaration order. *)
Definition BEGINS_FUNCTIONAL_UNIT : Z := 0.
Definition IS_INDIRECT_TARGET : Z := 1.
Definition IS_RETURN_TARGET : Z := 2.
Definition FORCE_ATTACH : Z := 3.
Definition IS_IN_XMM_CONTEXT : Z := 4.
Definition IS_IN_HOST_CONTEXT : Z := 5.
Definition ACCESSES_USER_DATA : Z := 6.
Definition CAN_DIRECT_RETURN : Z := 7.

Definition flag (f : Z) (p : instrumentation_policy) : bool := get_flag f (as_raw_bits p).
Definition with_flag (f : Z) (val : bool) (p : instrumentation_policy) : instrumentation_policy :=
  mk_policy (set_flag f val (as_raw_bits p)).

Definition u_id (p : instrumentation_policy) : Z :=
  get_field NUM_PROPERTIES (16 - NUM_PROPERTIES) (as_raw_bits p).
Definition with_id (i : Z) (p : instrumentation_policy) : instrumentation_policy :=
  mk_policy (set_field NUM_PROPERTIES (16 - NUM_PROPERTIES) i (as_raw_bits p)).

Definition from_id (i : Z) : instrumentation_policy := with_id i (mk_policy 0).
Definition decode (bits : Z) : instrumentation_policy := mk_policy bits.
Definition encode (p : instrumentation_policy) : Z := as_raw_bits p.

(** [operator==], [operator!=] and [operator!] look at the identifier only. *)
Definition policy_eqb (p q : instrumentation_policy) : bool := u_id p =? u_id q.
Definition policy_neqb (p q : instrumentation_policy) : bool := negb (u_id p =? u_id q).
Definition policy_not (p : instrumentation_policy) : bool := u_id p =? 0.

Definition is_beginning_of_functional_unit := flag BEGINS_FUNCTIONAL_UNIT.
Definition begins_functional_unit := with_flag BEGINS_FUNCTIONAL_UNIT.
Definition accesses_user_data := flag ACCESSES_USER_DATA.
Definition access_user_data := with_flag ACCESSES_USER_DATA.
Definition indirect_cti_target := with_flag IS_INDIRECT_TARGET.
Definition is_indirect_cti_target := flag IS_INDIRECT_TARGET.
Definition return_target := with_flag IS_RETURN_TARGET.
Definition is_return_target := flag IS_RETURN_TARGET.
Definition in_host_context := with_flag IS_IN_HOST_CONTEXT.
Definition is_in_host_context := flag IS_IN_HOST_CONTEXT.
Definition in_xmm_context := with_flag IS_IN_XMM_CONTEXT.
Definition is_in_xmm_context := flag IS_IN_XMM_CONTEXT.
Definition force_attach := with_flag FORCE_ATTACH.
Definition can_detach (p : instrumentation_policy) : bool := negb (flag FORCE_ATTACH p).

(** [CONFIG_OPTIMISE_DIRECT_RETURN] is [CONFIG_ENV_KERNEL]. *)
Definition return_address_is_in_code_cache `{Config} (p : instrumentation_policy) : bool :=
  if env_kernel then true else flag CAN_DIRECT_RETURN p.
Definition return_address_in_code_cache `{Config} (val : bool) (p : instrumentation_policy)
    : instrumentation_policy :=
  if env_kernel then p else with_flag CAN_DIRECT_RETURN val p.

Definition context (p : instrumentation_policy) : runtime_context :=
  if is_in_host_context p then RUNNING_AS_HOST else RUNNING_AS_APP.

Definition base_policy (p : instrumentation_policy) : instrumentation_policy :=
  let policy := mk_policy (as_raw_bits p) in
  let policy := with_flag BEGINS_FUNCTIONAL_UNIT false policy in
  let policy := with_flag IS_INDIRECT_TARGET false policy in
  let policy := with_flag IS_RETURN_TARGET false policy in
  with_flag FORCE_ATTACH false policy.

Definition inherit_properties (self that_ : instrumentation_policy)
    (constraint : property_inherit_constraint) : instrumentation_policy :=
  let i := u_id self in
  let that := base_policy that_ in
  let self := mk_policy 0 in
  let self :=
    match constraint with
    | INHERIT_ALL | INHERIT_JMP | INHERIT_RETURN =>
        mk_policy (Z.lor (as_raw_bits self) (as_raw_bits that))
    | INHERIT_CALL =>
        with_flag ACCESSES_USER_DATA false
          (mk_policy (Z.lor (as_raw_bits self) (as_raw_bits that)))
    end in
  with_id i self.

Definition clear_properties (self : instrumentation_policy) : instrumentation_policy :=
  with_id (u_id self) (mk_policy 0).

Definition policy_wf (p : instrumentation_policy) : Prop := in_width 16 (as_raw_bits p).

(** ** Mangled addresses *)
Module MangledAddress.

Definition NUM_MANGLED_BITS : Z := 16.

(** [as_policy_address.policy_bits]: the high bits of [as_uint]. *)
Definition policy_bits (as_uint : Z) : Z := get_field (64 - NUM_MANGLED_BITS) NUM_MANGLED_BITS as_uint.
Definition set_policy_bits (bits as_uint : Z) : Z :=
  set_field (64 - NUM_MANGLED_BITS) NUM_MANGLED_BITS bits as_uint.

(** The constructor [mangled_address(addr_, policy_)]. *)
Definition mangled_address (addr_ : Z) (policy_ : instrumentation_policy) : Z :=
  set_policy_bits (as_raw_bits policy_) addr_.

Definition unmangled_address `{Config} (as_uint : Z) : Z :=
  set_policy_bits (IF_USER_ELSE 0 0xFFFF) as_uint.

(** The constructor [instrumentation_policy(const mangled_address &)]. *)
Definition policy_of (addr : Z) : instrumentation_policy := mk_policy (policy_bits addr).

(** A canonical address of the mode the program was built for. *)
Definition canonical `{Config} (addr : Z) : Prop :=
  in_width 64 addr /\ policy_bits addr = IF_USER_ELSE 0 0xFFFF.

End MangledAddress.

(** ** Registration and dispatch of policy classes *)
Section Registry.
Context `{Config}.
(** The other arguments of a visitor and of an interrupt handler. *)
Context {Args IArgs : Type}.

Inductive interrupt_handled_state := INTERRUPT_RETURN | INTERRUPT_DEFER | INTERRUPT_IRET.

Definition basic_block_visitor : Type := instrumentation_policy -> Args -> instrumentation_policy.
Definition interrupt_visitor : Type := instrumentation_policy -> IArgs -> interrupt_handled_state.

(** A client class [T] as [policy_for<T>] uses it. *)
Record policy_class := {
  AUTO_INSTRUMENT_HOST : bool;
  visit_app_instructions : basic_block_visitor;
  visit_host_instructions : basic_block_visitor;
  class_handle_interrupt : interrupt_visitor
}.

(** The static members of [instrumentation_policy], and [POLICY_ID] of every
    instance of [policy_for] (absent: still zero). *)
Record registry := {
  AUTO_VISIT_HOST : list bool;
  APP_VISITORS : list (option basic_block_visitor);
  HOST_VISITORS : list (option basic_block_visitor);
  INTERRUPT_VISITORS : list (option interrupt_visitor);
  NEXT_POLICY_ID : Z;
  POLICY_IDS : gmap nat Z
}.

Definition initial_registry : registry :=
  let n := Z.to_nat MAX_NUM_POLICY_IDS in
  {| AUTO_VISIT_HOST := replicate n false;
     APP_VISITORS := replicate n None;
     HOST_VISITORS := replicate n None;
     INTERRUPT_VISITORS := replicate n None;
     NEXT_POLICY_ID := 0;
     POLICY_IDS := ∅ |}.

Definition POLICY_ID (r : registry) (T : nat) : Z := default 0 (POLICY_IDS r !! T).

Definition init_policy (c : policy_class) (r : registry) : outcome (registry * Z) :=
  let policy_id := NEXT_POLICY_ID r in
  let i := Z.to_nat policy_id in
  auto ← (if instrument_host then Ret (AUTO_VISIT_HOST r)
          else set_idx (AUTO_VISIT_HOST r) i (AUTO_INSTRUMENT_HOST c));
  app ← set_idx (APP_VISITORS r) i (Some (visit_app_instructions c));
  host ← set_idx (HOST_VISITORS r) i (Some (visit_host_instructions c));
  int ← (if env_kernel then set_idx (INTERRUPT_VISITORS r) i (Some (class_handle_interrupt c))
         else Ret (INTERRUPT_VISITORS r));
  Ret ({| AUTO_VISIT_HOST := auto; APP_VISITORS := app; HOST_VISITORS := host;
          INTERRUPT_VISITORS := int; NEXT_POLICY_ID := u32 (policy_id + 1);
          POLICY_IDS := POLICY_IDS r |}, policy_id).

(** The conversion of [policy_for<T>] to a policy. *)
Definition policy_for (T : nat) (c : policy_class) (r : registry)
    : outcome (registry * instrumentation_policy) :=
  r ← (if POLICY_ID r T =? 0 then
         ri ← init_policy c r;
         Ret {| AUTO_VISIT_HOST := AUTO_VISIT_HOST ri.1; APP_VISITORS := APP_VISITORS ri.1;
                HOST_VISITORS := HOST_VISITORS ri.1;
                INTERRUPT_VISITORS := INTERRUPT_VISITORS ri.1;
                NEXT_POLICY_ID := NEXT_POLICY_ID ri.1;
                POLICY_IDS := <[T := ri.2]> (POLICY_IDS ri.1) |}
       else Ret r);
  Ret (r, from_id (POLICY_ID r T)).

Definition instrument (r : registry) (p : instrumentation_policy) (args : Args)
    : outcome instrumentation_policy :=
  visitor ← (if is_in_host_context p then idx (HOST_VISITORS r) (Z.to_nat (u_id p))
             else idx (APP_VISITORS r) (Z.to_nat (u_id p)));
  let self := p in
  _ ← ASSERT (as_raw_bits p =? as_raw_bits self);
  match visitor with
  | Some v => Ret (v self args)
  | None => Fault
  end.

Definition handle_interrupt (r : registry) (p : instrumentation_policy) (args : IArgs)
    : outcome interrupt_handled_state :=
  visitor ← idx (INTERRUPT_VISITORS r) (Z.to_nat (u_id p));
  match visitor with
  | None => Ret INTERRUPT_DEFER
  | Some v => Ret (v p args)
  end.

Definition is_host_auto_instrumented (r : registry) (p : instrumentation_policy) : outcome bool :=
  if instrument_host then Ret true else idx (AUTO_VISIT_HOST r) (Z.to_nat (u_id p)).

(** One conversion of some class, the classes being given by [cls]. *)
Inductive registry_step (cls : nat -> policy_class) : registry -> registry -> Prop :=
  | step_policy_for T r r' p :
      policy_for T (cls T) r = Ret (r', p) -> registry_step cls r r'.

(** What the registry promises: the slot of every identified class holds
    that class's entry points, and identified classes have different slots. *)
Record registry_inv (cls : nat -> policy_class) (r : registry) : Prop := {
  ri_app_len : length (APP_VISITORS r) = Z.to_nat MAX_NUM_POLICY_IDS;
  ri_host_len : length (HOST_VISITORS r) = Z.to_nat MAX_NUM_POLICY_IDS;
  ri_auto_len : length (AUTO_VISIT_HOST r) = Z.to_nat MAX_NUM_POLICY_IDS;
  ri_int_len : length (INTERRUPT_VISITORS r) = Z.to_nat MAX_NUM_POLICY_IDS;
  ri_next : 0 <= NEXT_POLICY_ID r <= MAX_NUM_POLICY_IDS;
  ri_slot : forall T i, POLICY_IDS r !! T = Some i ->
    0 <= i < NEXT_POLICY_ID r /\
    APP_VISITORS r !! Z.to_nat i = Some (Some (visit_app_instructions (cls T))) /\
    HOST_VISITORS r !! Z.to_nat i = Some (Some (visit_host_instructions (cls T))) /\
    (instrument_host = false ->
     AUTO_VISIT_HOST r !! Z.to_nat i = Some (AUTO_INSTRUMENT_HOST (cls T))) /\
    (env_kernel = true ->
     INTERRUPT_VISITORS r !! Z.to_nat i = Some (Some (class_handle_interrupt (cls T))));
  ri_inj : forall T T' i, POLICY_IDS r !! T = Some i -> POLICY_IDS r !! T' = Some i -> T = T'
}.

End Registry.

(** ** Lemmas: the policy word *)
Ltac policy_consts := unfold MAX_NUM_POLICY_IDS, NUM_PROPERTIES, NUM_TEMPORARY_PROPERTIES,
  NUM_INHERITED_PROERTIES, BEGINS_FUNCTIONAL_UNIT, IS_INDIRECT_TARGET, IS_RETURN_TARGET,
  FORCE_ATTACH, IS_IN_XMM_CONTEXT, IS_IN_HOST_CONTEXT, ACCESSES_USER_DATA, CAN_DIRECT_RETURN in *.

Lemma flag_with_flag_same f b p : 0 <= f -> flag f (with_flag f b p) = b.
Proof. apply get_flag_set_same. Qed.

Lemma flag_with_flag_other f f' b p :
  0 <= f -> 0 <= f' -> f <> f' -> flag f (with_flag f' b p) = flag f p.
Proof. apply get_flag_set_other. Qed.

Lemma flag_with_id f i p : 0 <= f < NUM_PROPERTIES -> flag f (with_id i p) = flag f p.
Proof. intros. apply get_flag_set_field_other; policy_consts; lia. Qed.

Lemma id_with_id i p : u_id (with_id i p) = u8 i.
Proof. unfold u_id, with_id; cbn [as_raw_bits]. now rewrite get_set_field_same by (vm_compute; congruence). Qed.

Lemma id_range p : 0 <= u_id p < MAX_NUM_POLICY_IDS.
Proof. apply (get_field_range NUM_PROPERTIES 8); lia. Qed.

Lemma id_from_id i : 0 <= i < MAX_NUM_POLICY_IDS -> u_id (from_id i) = i.
Proof. intros Hi. unfold from_id. rewrite id_with_id. apply wrap_small. exact Hi. Qed.

Lemma flag_from_id f i : 0 <= f < NUM_PROPERTIES -> flag f (from_id i) = false.
Proof. intros. unfold from_id. rewrite flag_with_id by done. apply Z.bits_0. Qed.

Lemma with_flag_wf f b p : 0 <= f < 16 -> policy_wf p -> policy_wf (with_flag f b p).
Proof. intros. now apply set_flag_range. Qed.

Lemma with_id_wf i p : policy_wf p -> policy_wf (with_id i p).
Proof. intros. apply set_field_range; policy_consts; done. Qed.

Lemma flag_base_policy f p :
  0 <= f -> flag f (base_policy p) = if f <? NUM_TEMPORARY_PROPERTIES then false else flag f p.
Proof.
  intros. unfold base_policy, flag, with_flag, get_flag,
    BEGINS_FUNCTIONAL_UNIT, IS_INDIRECT_TARGET, IS_RETURN_TARGET, FORCE_ATTACH, NUM_TEMPORARY_PROPERTIES;
    cbn [as_raw_bits].
  rewrite !testbit_set_flag by lia. zb.
Qed.

Lemma id_with_flag f v p : 0 <= f < NUM_PROPERTIES -> u_id (with_flag f v p) = u_id p.
Proof.
  intros Hf. unfold u_id, with_flag. cbn [as_raw_bits].
  assert (NUM_PROPERTIES = 8) as E by reflexivity. rewrite E in *. apply get_field_set_flag_other; lia.
Qed.

Lemma base_policy_wf p : policy_wf p -> policy_wf (base_policy p).
Proof. intros. unfold base_policy. repeat (apply with_flag_wf; [policy_consts; lia|]). done. Qed.

#[export] Hint Resolve with_flag_wf with_id_wf base_policy_wf : granary.

(** ** Lemmas: the registry *)
Section registry_lemmas.
Context `{Config} {Args IArgs : Type}.
Abbreviation registry := (@registry Args IArgs).
Abbreviation policy_class := (@policy_class Args IArgs).
Implicit Types (r : registry) (cls : nat -> policy_class).

Lemma set_idx_inv {A} (l l' : list A) i x :
  set_idx l i x = Ret l' -> (i < length l)%nat /\ l' = <[i := x]> l.
Proof. unfold set_idx. case_bool_decide; [|done]. intros [= <-]. done. Qed.

(** Every slot below the identifier counter is final. *)
Definition slots_kept r r' : Prop :=
  NEXT_POLICY_ID r <= NEXT_POLICY_ID r' /\
  forall i, 0 <= i < NEXT_POLICY_ID r ->
    APP_VISITORS r' !! Z.to_nat i = APP_VISITORS r !! Z.to_nat i /\
    HOST_VISITORS r' !! Z.to_nat i = HOST_VISITORS r !! Z.to_nat i.

Lemma initial_registry_inv cls : registry_inv cls initial_registry.
Proof.
  split; cbn [initial_registry APP_VISITORS HOST_VISITORS AUTO_VISIT_HOST INTERRUPT_VISITORS
    NEXT_POLICY_ID POLICY_IDS]; rewrite ?length_replicate; try done.
Qed.

(** A registration writes the four arrays at the counter and increments it. *)
Lemma init_policy_inv cls (c : policy_class) r r1 i :
  registry_inv cls r -> init_policy c r = Ret (r1, i) ->
  i = NEXT_POLICY_ID r /\ 0 <= i < MAX_NUM_POLICY_IDS /\ NEXT_POLICY_ID r1 = i + 1 /\
  APP_VISITORS r1 = <[Z.to_nat i := Some (visit_app_instructions c)]> (APP_VISITORS r) /\
  HOST_VISITORS r1 = <[Z.to_nat i := Some (visit_host_instructions c)]> (HOST_VISITORS r) /\
  AUTO_VISIT_HOST r1 = (if instrument_host then AUTO_VISIT_HOST r
    else <[Z.to_nat i := AUTO_INSTRUMENT_HOST c]> (AUTO_VISIT_HOST r)) /\
  INTERRUPT_VISITORS r1 = (if env_kernel then
      <[Z.to_nat i := Some (class_handle_interrupt c)]> (INTERRUPT_VISITORS r)
    else INTERRUPT_VISITORS r) /\
  POLICY_IDS r1 = POLICY_IDS r.
Proof.
  intros [Ha Hh Hau Hi Hnext _ _]. unfold init_policy. intros Hini. inv_outcome.
  assert (Hlt : (Z.to_nat (NEXT_POLICY_ID r) < length (APP_VISITORS r))%nat) by now apply set_idx_inv in E0.
  assert (Hr : 0 <= NEXT_POLICY_ID r < MAX_NUM_POLICY_IDS) by lia.
  apply set_idx_inv in E0 as [_ ->]. apply set_idx_inv in E1 as [_ ->].
  cbn. repeat split; try lia.
  - apply wrap_small. change MAX_NUM_POLICY_IDS with 256 in *. lia.
  - destruct instrument_host; [congruence|]. now apply set_idx_inv in E as [_ ->].
  - destruct env_kernel; [now apply set_idx_inv in E2 as [_ ->]|congruence].
Qed.

Lemma policy_for_inv cls T r r' p :
  registry_inv cls r -> policy_for T (cls T) r = Ret (r', p) ->
  registry_inv cls r' /\ slots_kept r r' /\
  exists i, POLICY_IDS r' !! T = Some i /\ p = from_id i.
Proof.
  intros Hinv Hpf. unfold policy_for in Hpf.
  destruct (Z.eqb_spec (POLICY_ID r T) 0) as [E|E].
  - destruct (init_policy (cls T) r) as [[r1 i]| |] eqn:Hini; try done.
    cbn [mbind outcome_bind fst snd] in Hpf. injection Hpf as <- <-.
    destruct (init_policy_inv cls _ _ _ _ Hinv Hini) as (-> & Hi & Hn1 & Ea & Eh & Eau & Ei & Eid).
    destruct Hinv as [Ha Hh Hau Hil Hnext Hslot Hinj].
    set (i := NEXT_POLICY_ID r) in *.
    assert (Hne : forall k, 0 <= k < i -> Z.to_nat i <> Z.to_nat k) by lia.
    assert (Hlt : (Z.to_nat i < Z.to_nat MAX_NUM_POLICY_IDS)%nat) by lia.
    split; [|split].
    + split; cbn; rewrite ?Ea, ?Eh, ?Eau, ?Ei, ?Eid, ?length_insert; try done; try lia.
      * destruct instrument_host; rewrite ?length_insert; done.
      * destruct env_kernel; rewrite ?length_insert; done.
      * intros T' k. destruct (decide (T' = T)) as [->|HT].
        -- rewrite lookup_insert_eq. intros [= <-]. split; [lia|].
           rewrite !list_lookup_insert_eq by lia.
           repeat split; intros ->; rewrite list_lookup_insert_eq by lia; done.
        -- rewrite lookup_insert_ne by done. intros Hk.
           destruct (Hslot T' k Hk) as (Hkr & H1 & H2 & H3 & H4). split; [lia|].
           rewrite !list_lookup_insert_ne by auto. repeat split; try done.
           ++ intros Hc. rewrite Hc. rewrite list_lookup_insert_ne by auto. auto.
           ++ intros Hc. rewrite Hc. rewrite list_lookup_insert_ne by auto. auto.
      * intros T1 T2 k. rewrite !lookup_insert. repeat case_decide; subst; try done.
        -- intros [= <-] H2. apply Hslot in H2 as [? _]. lia.
        -- intros H2 [= <-]. apply Hslot in H2 as [? _]. lia.
        -- apply Hinj.
    + split; cbn; [lia|]. intros k Hk. rewrite Ea, Eh, !list_lookup_insert_ne by auto. done.
    + exists i. unfold POLICY_ID. cbn. rewrite lookup_insert_eq. done.
  - cbn in Hpf. injection Hpf as <- <-. split; [done|]. split; [split; [lia|done]|].
    unfold POLICY_ID in *. destruct (POLICY_IDS r !! T) as [i|]; [|done]. exists i. done.
Qed.

Lemma policy_for_fresh cls T r :
  registry_inv cls r -> NEXT_POLICY_ID r < MAX_NUM_POLICY_IDS -> POLICY_ID r T = 0 ->
  exists r', policy_for T (cls T) r = Ret (r', from_id (NEXT_POLICY_ID r)) /\
    POLICY_IDS r' !! T = Some (NEXT_POLICY_ID r) /\ NEXT_POLICY_ID r' = NEXT_POLICY_ID r + 1.
Proof.
  intros [Ha Hh Hau Hil Hnext _ _] Hlt E. unfold policy_for, init_policy. rewrite E. cbn [Z.eqb].
  rewrite !set_idx_ret by lia.
  destruct instrument_host, env_kernel; cbn; unfold POLICY_ID; cbn; rewrite lookup_insert_eq;
    (eexists; split; [done|]); cbn; rewrite lookup_insert_eq; (split; [done|]);
    (apply wrap_small; change MAX_NUM_POLICY_IDS with 256 in *; lia).
Qed.

Lemma slots_kept_trans r1 r2 r3 : slots_kept r1 r2 -> slots_kept r2 r3 -> slots_kept r1 r3.
Proof.
  intros [H1 H2] [H3 H4]. split; [lia|]. intros i Hi. destruct (H2 i Hi) as [<- <-]. apply H4. lia.
Qed.

Lemma registry_steps_inv cls r r' :
  registry_inv cls r -> rtc (registry_step cls) r r' -> registry_inv cls r' /\ slots_kept r r'.
Proof.
  intros Hinv Hs. induction Hs as [r|r r1 r2 [T ? ? p Hp] _ IH].
  - split; [done|]. split; [lia|done].
  - destruct (policy_for_inv cls T _ _ p Hinv Hp) as (H1 & H2 & _).
    destruct (IH H1) as [? ?]. split; [done|]. eauto using slots_kept_trans.
Qed.

End registry_lemmas.

(** ** Properties *)

Lemma inherit_properties_facts self that c f :
  0 <= f < NUM_PROPERTIES ->
  u_id (inherit_properties self that c) = u_id self /\
  flag f (inherit_properties self that c) =
    if f <? NUM_TEMPORARY_PROPERTIES then false
    else match c with
         | INHERIT_CALL => if f =? ACCESSES_USER_DATA then false else flag f that
         | _ => flag f that
         end.
Proof.
  intros Hf. unfold inherit_properties. rewrite id_with_id, flag_with_id by done.
  split; [apply wrap_small; apply id_range|].
  assert (Hor : flag f (mk_policy (Z.lor 0 (as_raw_bits (base_policy that)))) = flag f (base_policy that))
    by done.
  destruct c; cbn [as_raw_bits];
    try (rewrite Hor; now rewrite flag_base_policy by lia).
  destruct (Z.eqb_spec f ACCESSES_USER_DATA) as [->|Hne].
  - rewrite flag_with_flag_same by done. done.
  - rewrite flag_with_flag_other by (policy_consts; lia). rewrite Hor.
    now rewrite flag_base_policy by lia.
Qed.

(** [inherit_properties] keeps the receiver's identifier, clears the four
    temporary properties, and takes the inherited properties of the other
    policy, except that a call does not inherit [accesses_user_data]. *)
Theorem inherit_properties_spec self that c f :
  0 <= f < NUM_PROPERTIES ->
  u_id (inherit_properties self that c) = u_id self /\
  flag f (inherit_properties self that c) =
    if f <? NUM_TEMPORARY_PROPERTIES then false
    else match c with
         | INHERIT_CALL => if f =? ACCESSES_USER_DATA then false else flag f that
         | _ => flag f that
         end.
Proof. apply inherit_properties_facts. Qed.

Lemma inherit_properties_spec_witness :
  u_id (inherit_properties (mk_policy 0x0700) (mk_policy 0x0377) INHERIT_CALL)
    = u_id (mk_policy 0x0700) /\
  flag ACCESSES_USER_DATA (inherit_properties (mk_policy 0x0700) (mk_policy 0x0377) INHERIT_CALL) = false.
Proof.
  apply (inherit_properties_spec (mk_policy 0x0700) (mk_policy 0x0377) INHERIT_CALL ACCESSES_USER_DATA).
  vm_compute. intuition congruence.
Defined.

Lemma mangled_address_facts `{Config} addr p :
  MangledAddress.canonical addr -> policy_wf p ->
  in_width 64 (MangledAddress.mangled_address addr p) /\
  MangledAddress.unmangled_address (MangledAddress.mangled_address addr p) = addr /\
  MangledAddress.policy_of (MangledAddress.mangled_address addr p) = p.
Proof.
  intros [Hw Hc] Hp. unfold MangledAddress.unmangled_address, MangledAddress.mangled_address,
    MangledAddress.policy_of, MangledAddress.set_policy_bits, MangledAddress.policy_bits,
    MangledAddress.NUM_MANGLED_BITS in *.
  split; [apply set_field_range; done|]. rewrite set_field_set_same, get_set_field_same by lia.
  split.
  - rewrite <- Hc. now apply set_field_get.
  - rewrite wrap_small by exact Hp. now destruct p.
Qed.

(** Mangling a canonical code address with a policy loses neither: the
    mangled address is a 64-bit word from which both the address and the
    policy are recovered, in kernel and in user space. *)
Theorem mangled_address_roundtrip `{Config} addr p :
  MangledAddress.canonical addr -> policy_wf p ->
  in_width 64 (MangledAddress.mangled_address addr p) /\
  MangledAddress.unmangled_address (MangledAddress.mangled_address addr p) = addr /\
  MangledAddress.policy_of (MangledAddress.mangled_address addr p) = p.
Proof. apply mangled_address_facts. Qed.

Lemma mangled_address_roundtrip_witness :
  in_width 64 (MangledAddress.mangled_address 0xFFFFFFFF81000000 (mk_policy 0x0120)) /\
  MangledAddress.unmangled_address (H := kernel_config)
    (MangledAddress.mangled_address 0xFFFFFFFF81000000 (mk_policy 0x0120)) = 0xFFFFFFFF81000000 /\
  MangledAddress.policy_of (MangledAddress.mangled_address 0xFFFFFFFF81000000 (mk_policy 0x0120))
    = mk_policy 0x0120.
Proof.
  apply (@mangled_address_roundtrip kernel_config).
  - split; [vm_compute; intuition congruence|reflexivity].
  - vm_compute; intuition congruence.
Defined.

(** Dispatch: from the initial registry, once the conversion of class [T]
    to a policy has returned, every policy word with that identifier, with
    whatever properties and after any number of later registrations, is
    instrumented by the host or app visitor of [T], by its context bit. *)
Theorem registry_dispatch `{Config} {Args IArgs} (cls : nat -> policy_class (Args := Args) (IArgs := IArgs))
    r T r1 p r2 p' args :
  rtc (registry_step cls) initial_registry r ->
  policy_for T (cls T) r = Ret (r1, p) ->
  rtc (registry_step cls) r1 r2 ->
  policy_eqb p' p = true ->
  instrument r2 p' args =
    Ret (if is_in_host_context p' then visit_host_instructions (cls T) p' args
         else visit_app_instructions (cls T) p' args).
Proof.
  intros H0 Hp H12 Heq. destruct (registry_steps_inv cls _ _ (initial_registry_inv cls) H0) as [Hinv _].
  destruct (policy_for_inv cls T r r1 p Hinv Hp) as (Hinv1 & _ & i & Hi & ->).
  destruct (registry_steps_inv cls _ _ Hinv1 H12) as [_ [_ Hkeep]].
  destruct (ri_slot _ _ Hinv1 T i Hi) as (Hir & Happ & Hhost & _).
  pose proof (ri_next _ _ Hinv1) as Hnext.
  apply Z.eqb_eq in Heq. rewrite id_from_id in Heq by lia.
  destruct (Hkeep i Hir) as [Ka Kh]. unfold instrument. rewrite Heq, Z.eqb_refl. unfold idx.
  rewrite Ka, Kh, Happ, Hhost. now destruct (is_in_host_context p').
Qed.

Definition example_class : policy_class (Args := unit) (IArgs := unit) :=
  {| AUTO_INSTRUMENT_HOST := false;
     visit_app_instructions := fun p _ => p;
     visit_host_instructions := fun p _ => in_xmm_context true p;
     class_handle_interrupt := fun _ _ => INTERRUPT_DEFER |}.

Lemma registry_dispatch_witness :
  exists r1 p, policy_for (H := kernel_config) 3 example_class initial_registry = Ret (r1, p) /\
  instrument r1 (in_host_context true p) tt =
    Ret (in_xmm_context true (in_host_context true p)).
Proof.
  eexists _, _. split; [reflexivity|].
  exact (@registry_dispatch kernel_config unit unit (fun _ => example_class) initial_registry 3
    _ _ _ (in_host_context true (from_id 0)) tt (rtc_refl _ _) eq_refl (rtc_refl _ _) eq_refl).
Defined.

(** Identifiers start at zero and zero also means "not registered": the
    first class converted to a policy is registered again by its second
    conversion, and the two conversions return policies that compare
    different. *)
Theorem first_policy_registered_twice `{Config} {Args IArgs} T (c : policy_class (Args := Args) (IArgs := IArgs)) :
  exists r1 p1 r2 p2,
    policy_for T c initial_registry = Ret (r1, p1) /\
    policy_for T c r1 = Ret (r2, p2) /\
    policy_not p1 = true /\ policy_neqb p1 p2 = true /\ NEXT_POLICY_ID r2 = 2.
Proof.
  destruct (policy_for_fresh (fun _ => c) T initial_registry) as (r1 & E1 & I1 & N1);
    [apply initial_registry_inv|done|done|].
  destruct (policy_for_inv (fun _ => c) T _ _ _ (initial_registry_inv _) E1) as (Hinv1 & _ & _).
  destruct (policy_for_fresh (fun _ => c) T r1 Hinv1) as (r2 & E2 & _ & N2).
  { now rewrite N1. }
  { unfold POLICY_ID. now rewrite I1. }
  exists r1, (from_id 0), r2, (from_id 1). rewrite N1 in E2, N2. repeat split; done.
Qed.
