(* ===== verification/Murmur.v ===== *)
(** * MurmurHash3 ([deps/murmurhash/murmurhash.cc])

    The 32-bit variant, which hashes the keys of every [hash_table], and the
    finalisers.  The finaliser is shown to be a bijection of 32-bit words,
    from which the hash of a four-byte key is injective. *)

From Stdlib Require Import ZArith Lia.
From stdpp Require Import base numbers list option.
From S2P Require Import Prelude.

Definition rotl32 (x r : Z) : Z := Z.lor (u32 (Z.shiftl x r)) (Z.shiftr x (32 - r)).
Definition rotl64 (x r : Z) : Z := Z.lor (u64 (Z.shiftl x r)) (Z.shiftr x (64 - r)).

(** [h ^= h >> s]. *)
Definition xorshift (s h : Z) : Z := Z.lxor h (Z.shiftr h s).

Definition fmix (h : Z) : Z :=
  let h := xorshift 16 h in
  let h := u32 (h * 0x85ebca6b) in
  let h := xorshift 13 h in
  let h := u32 (h * 0xc2b2ae35) in
  xorshift 16 h.

Definition MurmurHash3_mix (h : Z) : Z := fmix h.

Definition fmix64 (k : Z) : Z :=
  let k := xorshift 33 k in
  let k := u64 (k * 0xff51afd7ed558ccd) in
  let k := xorshift 33 k in
  let k := u64 (k * 0xc4ceb9fe1a85ec53) in
  xorshift 33 k.

(** A little-endian 32-bit load from the bytes of the key. *)
Definition getblock (b0 b1 b2 b3 : Z) : Z :=
  b0 + 2 ^ 8 * b1 + 2 ^ 16 * b2 + 2 ^ 24 * b3.

Definition c1 : Z := 0xcc9e2d51.
Definition c2 : Z := 0x1b873593.

Definition mix_k1 (k1 : Z) : Z := u32 (rotl32 (u32 (k1 * c1)) 15 * c2).

(** The loop over the four-byte blocks, then the [switch] on the bytes that
    are left. *)
Fixpoint body (data : list Z) (h1 : Z) : Z :=
  match data with
  | b0 :: b1 :: b2 :: b3 :: rest =>
      let k1 := mix_k1 (getblock b0 b1 b2 b3) in
      let h1 := Z.lxor h1 k1 in
      let h1 := rotl32 h1 13 in
      body rest (u32 (h1 * 5 + 0xe6546b64))
  | [t0; t1; t2] =>
      let k1 := Z.lxor (Z.lxor (Z.shiftl t2 16) (Z.shiftl t1 8)) t0 in
      Z.lxor h1 (mix_k1 k1)
  | [t0; t1] => Z.lxor h1 (mix_k1 (Z.lxor (Z.shiftl t1 8) t0))
  | [t0] => Z.lxor h1 (mix_k1 t0)
  | [] => h1
  end.

Definition MurmurHash3_x86_32 (key : list Z) (seed : Z) : Z :=
  let h1 := body key seed in
  let h1 := Z.lxor h1 (u32 (Z.of_nat (length key))) in
  fmix h1.

(** The inverse of the finaliser. *)
Definition unmix (h : Z) : Z :=
  let h := xorshift 16 h in
  let h := u32 (h * 0x7ed1b41d) in
  let h := Z.lxor (xorshift 13 h) (Z.shiftr h 26) in
  let h := u32 (h * 0xa5cb9243) in
  xorshift 16 h.

(** The inverse of the mixing of one block. *)
Definition unmix_k1 (k : Z) : Z := u32 (rotl32 (u32 (k * 0x56ed309b)) 17 * 0xdee13bb1).

(** ** Lemmas *)
Lemma lxor_in_width n x y : 0 <= n -> in_width n x -> in_width n y -> in_width n (Z.lxor x y).
Proof.
  intros Hn Hx Hy. apply in_width_bits; [done|apply Z.lxor_nonneg; unfold in_width in *; lia|].
  intros i Hi. now rewrite Z.lxor_spec, (testbit_high n x), (testbit_high n y).
Qed.

Lemma shiftr_in_width n x s : 0 <= n -> 0 <= s -> in_width n x -> in_width n (Z.shiftr x s).
Proof.
  intros Hn Hs Hx. apply in_width_bits; [done|apply Z.shiftr_nonneg; unfold in_width in *; lia|].
  intros i Hi. rewrite testbit_shiftr by lia. apply (testbit_high n); [done|lia].
Qed.

Lemma xorshift_in_width n s h : 0 <= n -> 0 <= s -> in_width n h -> in_width n (xorshift s h).
Proof. intros. apply lxor_in_width; [done..|]. now apply shiftr_in_width. Qed.

Lemma wrap_in_width w z : 0 <= w -> in_width w (wrap w z).
Proof. apply wrap_range. Qed.

#[export] Hint Resolve lxor_in_width shiftr_in_width xorshift_in_width wrap_in_width : granary.

(** Multiplying by an odd constant is undone by its inverse modulo [2^32]. *)
Lemma mul_inverse c d h : c * d mod 2 ^ 32 = 1 -> in_width 32 h -> u32 (u32 (h * c) * d) = h.
Proof.
  intros Hcd Hh. unfold wrap. rewrite Z.mul_mod_idemp_l by lia.
  rewrite <- Z.mul_assoc, Z.mul_mod, Hcd, Z.mul_1_r, Zmod_mod by lia. now apply Z.mod_small.
Qed.

Lemma xorshift_involutive s h : 16 <= s -> in_width 32 h -> xorshift s (xorshift s h) = h.
Proof.
  intros Hs Hh. unfold xorshift. bitwise i Hi.
  rewrite (testbit_high 32 h (i + s + s)) by (done || lia).
  now destruct (Z.testbit h i), (Z.testbit h (i + s)).
Qed.

Lemma xorshift13_inverse h :
  in_width 32 h -> Z.lxor (xorshift 13 (xorshift 13 h)) (Z.shiftr (xorshift 13 h) 26) = h.
Proof.
  intros Hh. unfold xorshift. bitwise i Hi.
  rewrite (testbit_high 32 h (i + 26 + 13)) by (done || lia).
  replace (i + 13 + 13) with (i + 26) by lia.
  now destruct (Z.testbit h i), (Z.testbit h (i + 13)), (Z.testbit h (i + 26)).
Qed.

Lemma unmix_fmix h : in_width 32 h -> unmix (fmix h) = h.
Proof.
  intros Hh. unfold unmix, fmix. cbn zeta.
  rewrite xorshift_involutive by auto with granary.
  rewrite mul_inverse by first [reflexivity | auto with granary].
  rewrite xorshift13_inverse by auto with granary.
  rewrite mul_inverse by first [reflexivity | auto with granary].
  apply xorshift_involutive; auto with granary.
Qed.

Lemma rotl32_in_width x r : 0 <= r <= 32 -> in_width 32 x -> in_width 32 (rotl32 x r).
Proof.
  intros Hr Hx. unfold rotl32. apply in_width_bits; [lia| |].
  - apply Z.lor_nonneg. split; [apply wrap_range; lia|apply Z.shiftr_nonneg, Hx].
  - intros i Hi. autorewrite with bits; try lia.
    rewrite (testbit_high 32 x (i + (32 - r))) by (done || lia). zb.
Qed.

(** Rotating by the complement undoes a rotation. *)
Lemma rotl32_inverse x r : 0 < r < 32 -> in_width 32 x -> rotl32 (rotl32 x r) (32 - r) = x.
Proof.
  intros Hr Hx. unfold rotl32. bitwise i Hi.
  destruct (Z.leb_spec (32 - r) i) as [Hc|Hc]; cbn [andb].
  - rewrite !testbit_wrap, !testbit_shiftl, !testbit_shiftr by lia.
    rewrite (testbit_high 32 x (i + (32 - (32 - r)) + (32 - r))) by (done || lia).
    replace (i - (32 - r) + (32 - r)) with i by lia. replace (i + (32 - (32 - r)) - r) with i by lia.
    zb; cbn; rewrite ?orb_false_r; try done; now rewrite (testbit_high 32 x i) by (done || lia).
  - rewrite !testbit_wrap, !testbit_shiftl, !testbit_shiftr by lia.
    rewrite (testbit_high 32 x (i + (32 - (32 - r)) + (32 - r))) by (done || lia).
    replace (i + (32 - (32 - r)) - r) with i by lia.
    zb; cbn; rewrite ?orb_false_r; try done; now rewrite (testbit_high 32 x i) by (done || lia).
Qed.

Lemma rotl32_inj x y r :
  0 < r < 32 -> in_width 32 x -> in_width 32 y -> rotl32 x r = rotl32 y r -> x = y.
Proof.
  intros Hr Hx Hy E. rewrite <- (rotl32_inverse x r), <- (rotl32_inverse y r) by done. now rewrite E.
Qed.

Lemma mix_k1_in_width k : in_width 32 (mix_k1 k).
Proof. apply wrap_range. lia. Qed.

Lemma unmix_k1_mix_k1 k : in_width 32 k -> unmix_k1 (mix_k1 k) = k.
Proof.
  intros Hk. unfold unmix_k1, mix_k1, c1, c2.
  rewrite mul_inverse; [|reflexivity|apply rotl32_in_width; [lia|auto with granary]].
  rewrite (rotl32_inverse _ 15) by (lia || auto with granary).
  now rewrite mul_inverse.
Qed.

Lemma lxor_inj_l x y z : Z.lxor x z = Z.lxor y z -> x = y.
Proof.
  intros E. rewrite <- (Z.lxor_0_r x), <- (Z.lxor_0_r y), <- (Z.lxor_nilpotent z).
  now rewrite <- !Z.lxor_assoc, E.
Qed.

Lemma lxor_inj_r x y z : Z.lxor z x = Z.lxor z y -> x = y.
Proof. rewrite !(Z.lxor_comm z). apply lxor_inj_l. Qed.

(** The affine step [h1*5 + 0xe6546b64]. *)
Lemma affine_inj h h' :
  in_width 32 h -> in_width 32 h' ->
  u32 (h * 5 + 0xe6546b64) = u32 (h' * 5 + 0xe6546b64) -> h = h'.
Proof.
  intros Hh Hh' E. unfold in_width, wrap in *.
  apply Z.cong_iff_0 in E. apply Z.mod_divide in E as [q Hq]; [|lia]. lia.
Qed.

Lemma block_step_in_width h k : in_width 32 (u32 (rotl32 (Z.lxor h (mix_k1 k)) 13 * 5 + 0xe6546b64)).
Proof. apply wrap_range. lia. Qed.

Lemma body_cons4 b0 b1 b2 b3 data h :
  body (b0 :: b1 :: b2 :: b3 :: data) h =
  body data (u32 (rotl32 (Z.lxor h (mix_k1 (getblock b0 b1 b2 b3))) 13 * 5 + 0xe6546b64)).
Proof. done. Qed.

(** Induction over the four-byte blocks of a key. *)
Lemma blocks_ind (P : list Z -> Prop) :
  P [] -> (forall a, P [a]) -> (forall a b, P [a; b]) -> (forall a b c, P [a; b; c]) ->
  (forall a b c d l, P l -> P (a :: b :: c :: d :: l)) -> forall l, P l.
Proof.
  intros H0 H1 H2 H3 H4 l. remember (length l) as n eqn:Hn. revert l Hn.
  induction n as [n IH] using lt_wf_ind. intros l ->.
  destruct l as [|a [|b [|c [|d l]]]]; auto.
  apply H4. apply (IH (length l)); [cbn; lia|done].
Qed.

Lemma body_in_width data h : in_width 32 h -> in_width 32 (body data h).
Proof.
  revert h. induction data as [| | | |a b c d l IH] using blocks_ind; intros h Hh; [done|..].
  1-3: cbn [body]; auto using mix_k1_in_width with granary.
  rewrite body_cons4. apply IH, block_step_in_width.
Qed.

(** For fixed data the body is injective in the running hash. *)
Lemma body_inj data h h' :
  in_width 32 h -> in_width 32 h' -> body data h = body data h' -> h = h'.
Proof.
  revert h h'. induction data as [| | | |a b c d l IH] using blocks_ind; intros h h' Hh Hh'; [done|..].
  1-3: apply lxor_inj_l.
  rewrite !body_cons4. intros E. apply IH in E; [|apply block_step_in_width..].
  apply affine_inj in E; [|apply rotl32_in_width; [lia|auto using mix_k1_in_width with granary]..].
  apply rotl32_inj in E; [|lia|auto using mix_k1_in_width with granary..].
  now apply lxor_inj_l in E.
Qed.

Ltac split_bytes :=
  repeat match goal with H : Forall _ (_ :: _) |- _ => rewrite !List.Forall_cons_iff in H end;
  destruct_and?; unfold getblock, in_width in *.

Lemma getblock_inj a b c d a' b' c' d' :
  Forall (in_width 8) [a; b; c; d] -> Forall (in_width 8) [a'; b'; c'; d'] ->
  getblock a b c d = getblock a' b' c' d' -> [a; b; c; d] = [a'; b'; c'; d'].
Proof.
  intros H H' E. split_bytes.
  assert (d = d') by lia. assert (c = c') by lia. assert (b = b') by lia.
  assert (a = a') by lia. congruence.
Qed.

Lemma getblock_in_width a b c d : Forall (in_width 8) [a; b; c; d] -> in_width 32 (getblock a b c d).
Proof.
  intros H. split_bytes. lia.
Qed.

(** ** Properties *)

(** Keys that agree on everything after their first four bytes hash to
    different 32-bit values: with the little-endian addresses that Granary
    hashes, two addresses in the same 4 GB region never have the same hash. *)
Theorem murmur_same_region_injective seed suffix a b c d a' b' c' d' :
  in_width 32 seed ->
  Forall (in_width 8) [a; b; c; d] -> Forall (in_width 8) [a'; b'; c'; d'] ->
  MurmurHash3_x86_32 (a :: b :: c :: d :: suffix) seed
    = MurmurHash3_x86_32 (a' :: b' :: c' :: d' :: suffix) seed ->
  [a; b; c; d] = [a'; b'; c'; d'].
Proof.
  intros Hs Hk Hk' E. unfold MurmurHash3_x86_32 in E. cbn [length] in E.
  assert (Hl : forall data n, in_width 32 (Z.lxor (body data seed) (u32 n))).
  { intros. apply lxor_in_width; [lia|now apply body_in_width|apply wrap_range; lia]. }
  apply (f_equal unmix) in E. rewrite !unmix_fmix in E by apply Hl. apply lxor_inj_l in E.
  rewrite !body_cons4 in E. apply body_inj in E; [|apply block_step_in_width..].
  apply affine_inj in E; [|apply rotl32_in_width; [lia|auto using mix_k1_in_width with granary]..].
  apply rotl32_inj in E; [|lia|auto using mix_k1_in_width with granary..].
  apply lxor_inj_r, (f_equal unmix_k1) in E.
  rewrite !unmix_k1_mix_k1 in E by now apply getblock_in_width. now apply getblock_inj.
Qed.

Lemma murmur_same_region_injective_witness :
  MurmurHash3_x86_32 [0x10; 0; 0; 0; 0x81; 0xff; 0xff; 0xff] 0xDEADBEEF <>
  MurmurHash3_x86_32 [0x20; 0; 0; 0; 0x81; 0xff; 0xff; 0xff] 0xDEADBEEF.
Proof.
  intros E.
  assert (H : [0x10; 0; 0; 0] = [0x20; 0; 0; 0]); [|discriminate H].
  apply (murmur_same_region_injective 0xDEADBEEF [0x81; 0xff; 0xff; 0xff]); [| | |exact E].
  - split; [discriminate|reflexivity].
  - repeat constructor; discriminate.
  - repeat constructor; discriminate.
Defined.
