(* ===== verification/HashTable.v ===== *)
(** * Hash tables ([granary/hash_table.h], [granary/hash_table.cc])

    The open-addressing table with linear probing, its growth, the set and
    the locked table built on it.  Keys and values are abstract, as in the
    template; the metadata class gives the hash function and the constants.
    A slot is free when it holds the default (all-zero) key.  The table is
    shown to implement a finite map. *)

From Stdlib Require Import ZArith Lia.
From stdpp Require Import base numbers list option gmap.
From S2P Require Import Prelude Murmur.

Inductive hash_store_policy := HASH_OVERWRITE_PREV_ENTRY | HASH_KEEP_PREV_ENTRY.

Inductive hash_store_state :=
  | HASH_ENTRY_STORED_NEW | HASH_ENTRY_STORED_OVERWRITE | HASH_ENTRY_SKIPPED.

(** [load_for]: three quarters of the size, truncated. *)
Definition load_for (size : Z) : Z := size * 3 / 4.

Definition HASH_TABLE_MAX_SIZES : list Z :=
  map (fun i => load_for (Z.shiftl 1 (Z.of_nat i))) (seq 0 32).

(** [hash_table_meta<K, V>], with the all-zero key and [V()]. *)
Class hash_table_meta (K V : Type) := {
  DEFAULT_SCALE_FACTOR : Z;
  MAX_SCAN_SCALE_FACTOR : Z;
  hash : K -> Z;
  zero_key : K;
  zero_value : V
}.

Section Table.
Context {K V : Type} `{Countable K, EqDecision V, !hash_table_meta K V}.

(** [hash_table] with its [table_] and [entry_slots] members in one record. *)
Record hash_table := {
  num_entries : Z;
  scaling_factor : Z;
  mask : Z;
  entries : list (K * V);
  growing_ : bool
}.

Definition with_entries (t : hash_table) (es : list (K * V)) : hash_table :=
  {| num_entries := num_entries t; scaling_factor := scaling_factor t; mask := mask t;
     entries := es; growing_ := growing_ t |}.

Definition with_growing (t : hash_table) (b : bool) : hash_table :=
  {| num_entries := num_entries t; scaling_factor := scaling_factor t; mask := mask t;
     entries := entries t; growing_ := b |}.

(** [new_trailing_vla] of that many entries: zeroed memory. *)
Definition new_slots (n : Z) : list (K * V) := replicate (Z.to_nat n) (zero_key, zero_value).

(** The constructor. *)
Definition make : hash_table :=
  let capacity := u32 (Z.shiftl 1 DEFAULT_SCALE_FACTOR) in
  {| num_entries := 0; scaling_factor := DEFAULT_SCALE_FACTOR; mask := capacity - 1;
     entries := new_slots capacity; growing_ := false |}.

(** The scan of [insert]: returns the slots, the scan length and the state. *)
Fixpoint insert_loop (fuel : nat) (es : list (K * V)) (mask entry_base scan : Z)
    (key : K) (value : V) (update : bool) : outcome (list (K * V) * Z * hash_store_state) :=
  match fuel with
  | O => OutOfFuel
  | S fuel =>
      let entry_base := Z.land entry_base mask in
      let i := Z.to_nat entry_base in
      entry ← idx es i;
      if decide (zero_key = entry.1) then
        Ret (<[i := (key, value)]> es, scan, HASH_ENTRY_STORED_NEW)
      else if decide (entry.1 = key) then
        if update then Ret (<[i := (entry.1, value)]> es, scan, HASH_ENTRY_STORED_OVERWRITE)
        else Ret (es, scan, HASH_ENTRY_SKIPPED)
      else insert_loop fuel es mask (u32 (entry_base + 1)) (u32 (scan + 1)) key value update
  end.

(** [insert], with the function it calls to grow the table. *)
Definition insert_with (grow : hash_table -> outcome hash_table)
    (t : hash_table) (key : K) (value : V) (update : bool) : outcome (hash_table * hash_store_state) :=
  r ← insert_loop (length (entries t)) (entries t) (mask t) (hash key) 0 key value update;
  let '(es, scan, state) := r in
  let t := with_entries t es in
  t ← (if (MAX_SCAN_SCALE_FACTOR <? scan) && negb (growing_ t) then
         t ← grow (with_growing t true);
         Ret (with_growing t false)
       else Ret t);
  Ret (t, state).

(** [grow]: every caller has set [growing_], so that the insertions it makes
    do not grow the table again; [OutOfFuel] marks the call that would. *)
Definition grow (t : hash_table) : outcome hash_table :=
  let num_old_slots := u32 (mask t + 1) in
  let num_new_slots := u32 (num_old_slots * 2) in
  let t' := {| num_entries := num_entries t;
               scaling_factor := u32 (scaling_factor t + 1);
               mask := u32 (num_new_slots - 1);
               entries := new_slots num_new_slots;
               growing_ := growing_ t |} in
  foldl (fun t' entry_old =>
    t' ← t';
    if decide (zero_key = entry_old.1) then Ret t'
    else
      r ← insert_with (fun _ => OutOfFuel) t' entry_old.1 entry_old.2 true;
      Ret r.1) (Ret t') (take (Z.to_nat num_old_slots) (entries t)).

Definition insert := insert_with grow.

Fixpoint find_loop (fuel : nat) (es : list (K * V)) (mask entry_base : Z) (key : K) : outcome V :=
  match fuel with
  | O => OutOfFuel
  | S fuel =>
      let entry_base := Z.land entry_base mask in
      entry ← idx es (Z.to_nat entry_base);
      if decide (zero_key = entry.1) then Ret zero_value
      else if decide (entry.1 = key) then Ret entry.2
      else find_loop fuel es mask (u32 (entry_base + 1)) key
  end.

Definition find (t : hash_table) (key : K) : outcome V :=
  find_loop (length (entries t)) (entries t) (mask t) (hash key) key.

(** [load]: the value through the reference, and whether it is not [V()]. *)
Definition load (t : hash_table) (key : K) : outcome (bool * V) :=
  value ← find t key;
  Ret (negb (bool_decide (zero_value = value)), value).

Definition store (t : hash_table) (key : K) (value : V) (update : hash_store_policy)
    : outcome (hash_table * bool) :=
  max_num_entries ← idx HASH_TABLE_MAX_SIZES (Z.to_nat (scaling_factor t));
  t ← (if max_num_entries <? num_entries t then
         t ← grow (with_growing t true);
         Ret (with_growing t false)
       else Ret t);
  r ← insert t key value (match update with HASH_OVERWRITE_PREV_ENTRY => true | _ => false end);
  let '(t, state) := r in
  match state with
  | HASH_ENTRY_STORED_NEW =>
      Ret ({| num_entries := u32 (num_entries t + 1); scaling_factor := scaling_factor t;
              mask := mask t; entries := entries t; growing_ := growing_ t |}, true)
  | HASH_ENTRY_STORED_OVERWRITE => Ret (t, true)
  | HASH_ENTRY_SKIPPED => Ret (t, false)
  end.

(** [for_each_entry] with a callback that updates its arguments. *)
Definition for_each_entry {A} (t : hash_table) (callback : K -> V -> A -> A) (args : A) : A :=
  let num_slots := u32 (mask t + 1) in
  foldl (fun args entry =>
    if decide (zero_key = entry.1) then args else callback entry.1 entry.2 args)
    args (take (Z.to_nat num_slots) (entries t)).

(** ** Invariant and abstraction *)

(** The entries a slot array holds. *)
Definition occupied (es : list (K * V)) : list (K * V) := filter (fun e => e.1 <> zero_key) es.

(** The map a slot array stands for. *)
Definition view (es : list (K * V)) : gmap K V := list_to_map (occupied es).

Definition home (n : nat) (k : K) : nat := Z.to_nat (hash k mod Z.of_nat n).

(** Every occupied slot is reached from its home slot over slots that are
    occupied by other keys. *)
Definition reachable (es : list (K * V)) : Prop :=
  forall i k v, es !! i = Some (k, v) -> k <> zero_key ->
  exists j, (j < length es)%nat /\ probe (length es) (home (length es) k) j = i /\
    forall j', (j' < j)%nat -> exists k' v',
      es !! probe (length es) (home (length es) k) j' = Some (k', v') /\ k' <> zero_key /\ k' <> k.

(** [cap] is the size of the slot array as a power of two. *)
Record slots_wf (sf m : Z) (es : list (K * V)) : Prop := {
  sw_sf : 3 <= sf <= 31;
  sw_mask : m = 2 ^ sf - 1;
  sw_len : Z.of_nat (length es) = 2 ^ sf;
  sw_reach : reachable es
}.

Record wf (t : hash_table) : Prop := {
  wf_slots : slots_wf (scaling_factor t) (mask t) (entries t);
  wf_count : num_entries t = Z.of_nat (length (occupied (entries t)));
  wf_load : num_entries t <= load_for (2 ^ scaling_factor t) + 1;
  wf_growing : growing_ t = false
}.

(** What [store] means on the map. *)
Definition spec_store (m : gmap K V) (key : K) (value : V) (update : hash_store_policy) : gmap K V :=
  match update with
  | HASH_OVERWRITE_PREV_ENTRY => <[key := value]> m
  | HASH_KEEP_PREV_ENTRY => if decide (is_Some (m !! key)) then m else <[key := value]> m
  end.

Definition spec_stored (m : gmap K V) (key : K) (update : hash_store_policy) : bool :=
  match update with
  | HASH_OVERWRITE_PREV_ENTRY => true
  | HASH_KEEP_PREV_ENTRY => bool_decide (m !! key = None)
  end.

End Table.

Arguments hash_table : clear implicits.

(** ** [hash_set] *)
Section HashSet.
Context {K : Type} `{Countable K, !hash_table_meta K bool}.

Definition hash_set : Type := hash_table K bool.

Definition set_add (s : hash_set) (key : K) : outcome hash_set :=
  r ← store s key true HASH_OVERWRITE_PREV_ENTRY; Ret r.1.

Definition set_remove (s : hash_set) (key : K) : outcome hash_set :=
  r ← store s key false HASH_OVERWRITE_PREV_ENTRY; Ret r.1.

Definition set_contains (s : hash_set) (key : K) : outcome bool := find s key.

End HashSet.

(** ** Lemmas: slot arrays *)
Section slot_lemmas.
Context {K V : Type} `{Countable K, EqDecision V, !hash_table_meta K V}.
Implicit Types (es : list (K * V)) (k : K) (v : V).

Lemma land_mask x sf : 0 <= sf -> Z.land x (2 ^ sf - 1) = x mod 2 ^ sf.
Proof. intros. rewrite <- Z.land_ones, Z.ones_equiv by lia. f_equal. Qed.

(** One step of [entry_base = (entry_base + 1) & mask] is one probe. *)
Lemma base_step w n sf base st j :
  0 <= sf < w -> Z.of_nat n = 2 ^ sf ->
  Z.to_nat (Z.land base (2 ^ sf - 1)) = probe n st j ->
  Z.to_nat (Z.land (wrap w (Z.land base (2 ^ sf - 1) + 1)) (2 ^ sf - 1)) = probe n st (S j).
Proof.
  intros Hsf Hn E. pose proof (pow2_pos sf). rewrite !land_mask in * by lia.
  pose proof (Z.mod_pos_bound base (2 ^ sf)).
  assert (2 ^ sf < 2 ^ w) by (apply Z.pow_lt_mono_r; lia).
  rewrite wrap_small by lia. rewrite <- probe_succ, <- E by lia.
  rewrite <- (Nat2Z.id ((_ + 1) mod n)), Nat2Z.inj_mod, Nat2Z.inj_add, Z2Nat.id by lia.
  now rewrite Hn.
Qed.

Lemma base_home n sf k :
  0 <= sf -> Z.of_nat n = 2 ^ sf -> Z.to_nat (Z.land (hash k) (2 ^ sf - 1)) = probe n (home n k) 0.
Proof.
  intros Hsf Hn. pose proof (pow2_pos sf Hsf). rewrite land_mask by lia. unfold home. rewrite Hn.
  pose proof (Z.mod_pos_bound (hash k) (2 ^ sf)). rewrite probe_0; lia.
Qed.

Lemma home_lt n k : (0 < n)%nat -> (home n k < n)%nat.
Proof. intros. unfold home. pose proof (Z.mod_pos_bound (hash k) (Z.of_nat n)). lia. Qed.

(** The slot at which a scan for [k] stops. *)
Definition stops es k (p : nat) : Prop := exists e, es !! p = Some e /\ (e.1 = zero_key \/ e.1 = k).
Definition passes es k (p : nat) : Prop :=
  exists k' v', es !! p = Some (k', v') /\ k' <> zero_key /\ k' <> k.

Lemma insert_loop_scan sf es k v upd st j0 fuel j base scan :
  0 <= sf <= 31 -> Z.of_nat (length es) = 2 ^ sf ->
  (j <= j0)%nat -> (j0 - j < fuel)%nat ->
  Z.to_nat (Z.land base (2 ^ sf - 1)) = probe (length es) st j ->
  (forall i, (j <= i < j0)%nat -> passes es k (probe (length es) st i)) ->
  stops es k (probe (length es) st j0) ->
  exists sc, insert_loop fuel es (2 ^ sf - 1) base scan k v upd =
    Ret (match es !! probe (length es) st j0 with
         | Some e =>
             if decide (e.1 = zero_key) then
               (<[probe (length es) st j0 := (k, v)]> es, sc, HASH_ENTRY_STORED_NEW)
             else if upd then (<[probe (length es) st j0 := (k, v)]> es, sc, HASH_ENTRY_STORED_OVERWRITE)
             else (es, sc, HASH_ENTRY_SKIPPED)
         | None => (es, sc, HASH_ENTRY_SKIPPED)
         end).
Proof.
  intros Hsf Hn. revert j base scan.
  induction fuel as [|fuel IH]; intros j base scan Hj Hf Hb Hpre Hstop; [lia|].
  cbn [insert_loop]. rewrite Hb. destruct (decide (j = j0)) as [->|Hne].
  - destruct Hstop as (e & He & Hor). unfold idx. rewrite He. cbn [mbind outcome_bind].
    exists scan. destruct (decide (e.1 = zero_key)) as [Hz|Hz].
    + now rewrite decide_True.
    + destruct Hor as [|Hk]; [done|]. rewrite decide_False, decide_True by congruence.
      rewrite Hk. now destruct upd.
  - destruct (Hpre j) as (k' & v' & He & Hz & Hk'); [lia|]. unfold idx. rewrite He. cbn [mbind outcome_bind fst].
    rewrite !decide_False by congruence.
    apply (IH (S j)); [lia|lia| |intros; apply Hpre; lia|done]. apply base_step; [lia|done..].
Qed.

Lemma find_loop_scan sf es k st j0 fuel j base :
  0 <= sf <= 31 -> Z.of_nat (length es) = 2 ^ sf ->
  (j <= j0)%nat -> (j0 - j < fuel)%nat ->
  Z.to_nat (Z.land base (2 ^ sf - 1)) = probe (length es) st j ->
  (forall i, (j <= i < j0)%nat -> passes es k (probe (length es) st i)) ->
  stops es k (probe (length es) st j0) ->
  find_loop fuel es (2 ^ sf - 1) base k =
    Ret (match es !! probe (length es) st j0 with
         | Some e => if decide (e.1 = zero_key) then zero_value else e.2
         | None => zero_value
         end).
Proof.
  intros Hsf Hn. revert j base.
  induction fuel as [|fuel IH]; intros j base Hj Hf Hb Hpre Hstop; [lia|].
  cbn [find_loop]. rewrite Hb. destruct (decide (j = j0)) as [->|Hne].
  - destruct Hstop as (e & He & Hor). unfold idx. rewrite He. cbn [mbind outcome_bind].
    destruct (decide (e.1 = zero_key)) as [Hz|Hz].
    + now rewrite decide_True by done.
    + destruct Hor as [|Hk]; [done|]. now rewrite decide_False, decide_True by congruence.
  - destruct (Hpre j) as (k' & v' & He & Hz & Hk'); [lia|]. unfold idx. rewrite He. cbn [mbind outcome_bind fst].
    rewrite !decide_False by congruence.
    apply (IH (S j)); [lia|lia| |intros; apply Hpre; lia|done]. apply base_step; [lia|done..].
Qed.

(** A slot array with a free slot has a first stopping slot for every key. *)
Lemma first_stop es k :
  (0 < length es)%nat -> (exists i e, es !! i = Some e /\ e.1 = zero_key) ->
  exists j0, (j0 < length es)%nat /\ stops es k (probe (length es) (home (length es) k) j0) /\
    forall i, (i < j0)%nat -> passes es k (probe (length es) (home (length es) k) i).
Proof.
  intros Hn (i & e & Hi & He). pose proof (home_lt (length es) k Hn) as Hh.
  assert (Hdec : forall j, Decision (stops es k (probe (length es) (home (length es) k) j))).
  { intros j. unfold stops. destruct (es !! probe _ _ j) as [e'|].
    - destruct (decide (e'.1 = zero_key \/ e'.1 = k)); [left; eauto|right].
      intros (? & [= <-] & ?). done.
    - right. intros (? & ? & _). done. }
  destruct (first_index (fun j => stops es k (probe (length es) (home (length es) k) j)) (length es))
    as (j0 & Hj0 & Hst & Hmin).
  { pose proof (lookup_lt_Some _ _ _ Hi) as Hlt.
    destruct (probe_surj (length es) (home (length es) k) i Hh Hlt) as (j & ? & Hp).
    exists j. split; [done|]. rewrite Hp. exists e. auto. }
  exists j0. repeat split; try done. intros i' Hi'. specialize (Hmin i' Hi').
  destruct (lookup_lt_is_Some_2 es (probe (length es) (home (length es) k) i')) as [[k' v'] Hl];
    [now apply probe_lt|].
  exists k', v'. split; [done|]. split; intros ->; apply Hmin; eexists; split; eauto.
Qed.

(** ** Lemmas: counting and uniqueness *)
Lemma occupied_insert es i old new :
  es !! i = Some old -> new.1 <> zero_key ->
  length (occupied (<[i := new]> es)) =
    (length (occupied es) + if decide (old.1 = zero_key) then 1 else 0)%nat.
Proof.
  intros Hi Hnew. pose proof (lookup_lt_Some _ _ _ Hi). unfold occupied.
  rewrite (insert_take_drop es i new) by done.
  transitivity (length (filter (fun e : K * V => e.1 <> zero_key) (take i es ++ old :: drop (S i) es))
    + if decide (old.1 = zero_key) then 1 else 0)%nat; [|by rewrite take_drop_middle].
  rewrite !filter_app, !filter_cons. rewrite decide_True by done.
  case_decide; case_decide; try done; rewrite !length_app; cbn [length]; lia.
Qed.

Lemma occupied_cons e es :
  occupied (e :: es) = if decide (e.1 = zero_key) then occupied es else e :: occupied es.
Proof.
  unfold occupied. rewrite filter_cons. destruct (decide (e.1 = zero_key)).
  - by rewrite decide_False by tauto.
  - by rewrite decide_True by done.
Qed.

Lemma exists_free es :
  (length (occupied es) < length es)%nat -> exists i e, es !! i = Some e /\ e.1 = zero_key.
Proof.
  induction es as [|e es IH]; [cbn; lia|]. rewrite occupied_cons.
  case_decide; cbn [length]; intros Hl; [by exists 0%nat, e|].
  destruct IH as (i & e' & ? & ?); [lia|]. by exists (S i), e'.
Qed.

Definition unique es : Prop :=
  forall i i' k v v', es !! i = Some (k, v) -> es !! i' = Some (k, v') -> k <> zero_key -> i = i'.

Lemma reachable_unique es : reachable es -> unique es.
Proof.
  intros Hr i i' k v v' Hi Hi' Hk.
  destruct (Hr i k v Hi Hk) as (j & Hj & Hp & Hpre). destruct (Hr i' k v' Hi' Hk) as (j' & Hj' & Hp' & Hpre').
  destruct (Nat.lt_trichotomy j j') as [Hlt|[->|Hlt]]; [|congruence|].
  - destruct (Hpre' j Hlt) as (k1 & v1 & E & _ & Hne). rewrite Hp, Hi in E. congruence.
  - destruct (Hpre j' Hlt) as (k1 & v1 & E & _ & Hne). rewrite Hp', Hi' in E. congruence.
Qed.

Lemma elem_occupied es k v : (k, v) ∈ occupied es <-> k <> zero_key /\ exists i, es !! i = Some (k, v).
Proof. unfold occupied. rewrite list_elem_of_filter, list_elem_of_lookup. done. Qed.

Lemma occupied_nodup es : unique es -> NoDup (occupied es).*1.
Proof.
  induction es as [|[k v] es IH]; intros Hu; [constructor|]. rewrite occupied_cons.
  assert (Hu' : unique es).
  { intros i i' k1 v1 v1' H1 H2 Hk. assert (S i = S i') as [= ->]; [|done]. now apply (Hu _ _ k1 v1 v1'). }
  case_decide as Hk; [now apply IH|]. cbn. constructor; [|now apply IH].
  intros ([k1 v1] & E & Hel)%list_elem_of_fmap. cbn in E, Hk. subst k1.
  apply elem_occupied in Hel as [_ [i Hi]].
  assert (0%nat = S i) by now apply (Hu _ _ k v v1). done.
Qed.

Lemma view_lookup es k v :
  unique es -> view es !! k = Some v <-> k <> zero_key /\ exists i, es !! i = Some (k, v).
Proof.
  intros Hu. unfold view. rewrite <- elem_of_list_to_map by now apply occupied_nodup.
  apply elem_occupied.
Qed.

Lemma view_lookup_None es k :
  unique es -> k <> zero_key -> (forall i v, es !! i <> Some (k, v)) -> view es !! k = None.
Proof.
  intros Hu Hk Hno. apply eq_None_not_Some. intros [v Hv].
  apply view_lookup in Hv as [_ [i Hi]]; [|done]. now apply Hno in Hi.
Qed.

(** ** Lemmas: writing the stopping slot *)
Section stop_slot.
Context (es : list (K * V)) (k : K) (v : V) (j0 : nat) (old : K * V).
Abbreviation n := (length es).
Abbreviation p := (probe n (home n k) j0).
Context (Hr : reachable es) (Hk : k <> zero_key) (Hj0 : (j0 < n)%nat).
Context (Hpre : forall i, (i < j0)%nat -> passes es k (probe n (home n k) i)).
Context (Hold : es !! p = Some old) (Hstop : old.1 = zero_key \/ old.1 = k).

Lemma stop_slot_reachable : reachable (<[p := (k, v)]> es).
Proof.
  assert (Hpn : (p < n)%nat) by (apply probe_lt; lia).
  intros i k1 v1. rewrite length_insert. intros Hi Hk1.
  destruct (decide (i = p)) as [->|Hne].
  - rewrite list_lookup_insert_eq in Hi by done. injection Hi as <- <-.
    exists j0. repeat split; [done|]. intros j' Hj'. destruct (Hpre j' Hj') as (k' & v' & E & ? & ?).
    exists k', v'. rewrite list_lookup_insert_ne; [done|]. intros Ep. rewrite <- Ep, Hold in E.
    injection E as ->. cbn in Hstop. intuition.
  - rewrite list_lookup_insert_ne in Hi by done.
    destruct (Hr i k1 v1 Hi Hk1) as (j & ? & ? & Hj). exists j. repeat split; [done..|].
    intros j' Hj'. destruct (Hj j' Hj') as (k' & v' & E & ? & ?).
    destruct (decide (probe n (home n k1) j' = p)) as [Ep|Ep].
    + exists k, v. rewrite Ep, list_lookup_insert_eq by done. rewrite Ep, Hold in E. injection E as ->.
      cbn in Hstop. intuition congruence.
    + exists k', v'. now rewrite list_lookup_insert_ne.
Qed.

Lemma stop_slot_absent : old.1 = zero_key -> forall i v', es !! i <> Some (k, v').
Proof.
  intros Hz i v' Hi. destruct (Hr i k v' Hi Hk) as (j & Hj & Hp & Hjpre).
  destruct (Nat.lt_trichotomy j j0) as [Hlt|[->|Hlt]].
  - destruct (Hpre j Hlt) as (k1 & v1 & E & _ & ?). rewrite Hp in E. congruence.
  - rewrite Hp in Hold. destruct old; cbn in *; congruence.
  - destruct (Hjpre j0 Hlt) as (k1 & v1 & E & ? & _). rewrite Hold in E. injection E as ->. done.
Qed.

Lemma stop_slot_view : view (<[p := (k, v)]> es) = <[k := v]> (view es).
Proof.
  assert (Hpn : (p < n)%nat) by (apply probe_lt; lia).
  pose proof (reachable_unique _ Hr) as Hu. pose proof (reachable_unique _ stop_slot_reachable) as Hu'.
  apply map_eq. intros k1. apply option_eq. intros v1. rewrite view_lookup by done.
  destruct (decide (k1 = k)) as [->|Hne].
  - rewrite lookup_insert_eq. split.
    + intros [_ [i Hi]]. destruct (decide (i = p)) as [->|Hip].
      * rewrite list_lookup_insert_eq in Hi by done. congruence.
      * exfalso. apply Hip. apply (Hu' _ _ k v1 v); [done|by apply list_lookup_insert_eq|done].
    + intros [= ->]. split; [done|]. exists p. by apply list_lookup_insert_eq.
  - rewrite lookup_insert_ne, view_lookup by done. split; intros [? [i Hi]]; (split; [done|]); exists i.
    + destruct (decide (i = p)) as [->|Hip].
      * rewrite list_lookup_insert_eq in Hi by done. congruence.
      * by rewrite list_lookup_insert_ne in Hi.
    + rewrite list_lookup_insert_ne; [done|]. intros <-. rewrite Hold in Hi. injection Hi as ->.
      cbn in Hstop. intuition.
Qed.

Lemma stop_slot_old_view :
  view es !! k = if decide (old.1 = zero_key) then None else Some old.2.
Proof.
  pose proof (reachable_unique _ Hr) as Hu. case_decide as Hz.
  - apply view_lookup_None; [done..|]. now apply stop_slot_absent.
  - apply view_lookup; [done|]. split; [done|]. exists p. rewrite Hold. destruct old; cbn in *. intuition congruence.
Qed.

End stop_slot.
End slot_lemmas.

(** ** Lemmas: the operations *)

(** Project the fields of updated tables, and nothing else. *)
Ltac tbl_cbn :=
  cbn [with_growing with_entries entries growing_ scaling_factor mask num_entries] in *.

Section table_lemmas.
Context {K V : Type} `{Countable K, EqDecision V, !hash_table_meta K V}.
Implicit Types (es : list (K * V)) (k : K) (v : V) (t : hash_table K V).

Lemma slots_len_pos sf m es : slots_wf sf m es -> (0 < length es)%nat.
Proof. intros [? _ Hl _]. pose proof (pow2_pos sf). lia. Qed.

Lemma scan_at sf m es k :
  slots_wf sf m es -> (length (occupied es) < length es)%nat ->
  exists j0 old, (j0 < length es)%nat /\
    (forall i, (i < j0)%nat -> passes es k (probe (length es) (home (length es) k) i)) /\
    es !! probe (length es) (home (length es) k) j0 = Some old /\
    (old.1 = zero_key \/ old.1 = k).
Proof.
  intros Hwf Hfree. apply exists_free in Hfree.
  destruct (first_stop es k (slots_len_pos _ _ _ Hwf) Hfree) as (j0 & ? & (e & ? & ?) & ?).
  exists j0, e. eauto.
Qed.

Lemma insert_loop_spec sf m es k v upd :
  slots_wf sf m es -> k <> zero_key -> (length (occupied es) < length es)%nat ->
  exists es' sc st,
    insert_loop (length es) es m (hash k) 0 k v upd = Ret (es', sc, st) /\
    slots_wf sf m es' /\
    match view es !! k with
    | None => st = HASH_ENTRY_STORED_NEW /\ view es' = <[k := v]> (view es) /\
        length (occupied es') = S (length (occupied es))
    | Some _ => length (occupied es') = length (occupied es) /\
        if upd then st = HASH_ENTRY_STORED_OVERWRITE /\ view es' = <[k := v]> (view es)
        else st = HASH_ENTRY_SKIPPED /\ es' = es
    end.
Proof.
  intros Hwf Hk Hfree. destruct (scan_at sf m es k Hwf Hfree) as (j0 & old & Hj0 & Hpre & Hold & Hstop).
  pose proof Hwf as [Hsf -> Hlen Hr].
  destruct (insert_loop_scan sf es k v upd (home (length es) k) j0 (length es) 0 (hash k) 0) as [sc ->];
    try done; try lia.
  { apply base_home; [lia|done]. } { intros i [_ Hi]. by apply Hpre. } { by exists old. }
  rewrite Hold, (stop_slot_old_view es k j0 old) by done.
  assert (Hwf' : slots_wf sf (2 ^ sf - 1) (<[probe (length es) (home (length es) k) j0 := (k, v)]> es)).
  { split; [done..|by rewrite length_insert|]. by apply (stop_slot_reachable es k v j0 old). }
  pose proof (occupied_insert es _ old (k, v) Hold Hk) as Hocc.
  pose proof (stop_slot_view es k v j0 old Hr Hk Hj0 Hpre Hold Hstop) as Hview.
  destruct (decide (old.1 = zero_key)) as [Hz|Hz].
  - eexists _, _, _. split; [done|]. repeat split; [apply Hwf'..|done|lia].
  - destruct upd; eexists _, _, _; (split; [done|]).
    + repeat split; [apply Hwf'..|lia|done].
    + repeat split; [apply Hwf..].
Qed.

(** [find] returns the value the map has, and [V()] where it has none. *)
Lemma find_view t k :
  slots_wf (scaling_factor t) (mask t) (entries t) -> k <> zero_key ->
  (length (occupied (entries t)) < length (entries t))%nat ->
  find t k = Ret (default zero_value (view (entries t) !! k)).
Proof.
  intros Hwf Hk Hfree. destruct (scan_at _ _ _ k Hwf Hfree) as (j0 & old & Hj0 & Hpre & Hold & Hstop).
  unfold find. pose proof Hwf as [Hsf -> Hlen Hr].
  rewrite (find_loop_scan (scaling_factor t) _ k (home (length (entries t)) k) j0 _ 0); try done; try lia.
  - rewrite Hold, (stop_slot_old_view (entries t) k j0 old) by done. by case_decide.
  - apply base_home; [lia|done].
  - intros i [_ Hi]. by apply Hpre.
  - by exists old.
Qed.

Lemma occupied_new_slots n : occupied (new_slots n) = @nil (K * V).
Proof.
  unfold new_slots. induction (Z.to_nat n) as [|m IH]; [done|]. cbn [replicate].
  by rewrite occupied_cons, decide_True.
Qed.

Lemma new_slots_wf sf : 3 <= sf <= 31 -> slots_wf sf (2 ^ sf - 1) (new_slots (K := K) (V := V) (2 ^ sf)).
Proof.
  intros Hsf. pose proof (pow2_pos sf). split; [done..| |].
  - unfold new_slots. rewrite length_replicate. lia.
  - intros i k v Hi Hk. unfold new_slots in Hi. apply lookup_replicate in Hi as [[= -> _] _]. done.
Qed.

(** The step of the loop of [grow]. *)
Definition grow_step (t' : outcome (hash_table K V)) (entry_old : K * V) : outcome (hash_table K V) :=
  t' ← t';
  if decide (zero_key = entry_old.1) then Ret t'
  else
    r ← insert_with (fun _ => OutOfFuel) t' entry_old.1 entry_old.2 true;
    Ret r.1.

(** Re-inserting a list of entries with different keys into a table that has
    none of them and enough room. *)
Lemma grow_fold l t' :
  slots_wf (scaling_factor t') (mask t') (entries t') -> growing_ t' = true ->
  NoDup (occupied l).*1 ->
  (forall k, k ∈ (occupied l).*1 -> view (entries t') !! k = None) ->
  (length (occupied (entries t')) + length (occupied l) < length (entries t'))%nat ->
  exists t'', foldl grow_step (Ret t') l = Ret t'' /\
    slots_wf (scaling_factor t'') (mask t'') (entries t'') /\ growing_ t'' = true /\
    scaling_factor t'' = scaling_factor t' /\ num_entries t'' = num_entries t' /\
    view (entries t'') = view (entries t') ∪ list_to_map (occupied l) /\
    length (occupied (entries t'')) = (length (occupied (entries t')) + length (occupied l))%nat.
Proof.
  revert t'. induction l as [|[k v] l IH]; intros t' Hwf Hg Hnd Hdis Hroom.
  - exists t'. cbn. rewrite map_union_empty, Nat.add_0_r. done.
  - cbn [foldl]. unfold grow_step at 2. cbn [mbind outcome_bind fst snd].
    rewrite occupied_cons in *. cbn [fst] in *. destruct (decide (zero_key = k)) as [<-|Hk].
    + rewrite decide_True in * by done. by apply IH.
    + rewrite decide_False in * by congruence. cbn [length fmap list_fmap fst] in *.
      apply NoDup_cons in Hnd as [Hnk Hnd].
      destruct (insert_loop_spec (scaling_factor t') (mask t') (entries t') k v true)
        as (es' & sc & st & Hins & Hwf' & Hview); [done|done|lia|].
      rewrite Hdis in Hview by by left. destruct Hview as (-> & Hview & Hocc).
      unfold insert_with. rewrite Hins. cbn [mbind outcome_bind]. cbn [with_entries growing_]. rewrite Hg.
      rewrite andb_false_r. cbn [mbind outcome_bind fst].
      assert (Hl : length es' = length (entries t')).
      { pose proof (sw_len _ _ _ Hwf). pose proof (sw_len _ _ _ Hwf'). lia. }
      destruct (IH (with_entries t' es')) as (t'' & Hf & Hwf2 & ? & ? & ? & Hv & Ho);
        cbn [with_entries entries growing_ scaling_factor mask num_entries] in *; try done.
      { intros k1 Hk1. rewrite Hview, lookup_insert_ne by (intros ->; done). apply Hdis. by right. }
      { lia. }
      exists t''. split; [done|]. split; [done|]. repeat split; try done; [|lia].
      rewrite Hv, Hview. rewrite list_to_map_cons. rewrite <- insert_union_l, insert_union_r; [done|].
      apply Hdis. by left.
Qed.

(** Growing doubles the slots and keeps the map. *)
Lemma grow_spec t :
  slots_wf (scaling_factor t) (mask t) (entries t) -> growing_ t = true -> scaling_factor t < 31 ->
  exists t', grow t = Ret t' /\ slots_wf (scaling_factor t') (mask t') (entries t') /\
    growing_ t' = true /\ scaling_factor t' = scaling_factor t + 1 /\
    num_entries t' = num_entries t /\ view (entries t') = view (entries t) /\
    length (occupied (entries t')) = length (occupied (entries t)).
Proof.
  intros [Hsf Hm Hlen Hr] Hg Hsf'. unfold grow.
  assert (Hp : 2 ^ scaling_factor t <= 2 ^ 30) by (apply Z.pow_le_mono_r; lia).
  assert (Hd : 2 ^ scaling_factor t * 2 = 2 ^ (scaling_factor t + 1)) by (rewrite Z.pow_add_r; lia).
  pose proof (pow2_pos (scaling_factor t)).
  rewrite Hm. replace (2 ^ scaling_factor t - 1 + 1) with (2 ^ scaling_factor t) by lia.
  rewrite !(wrap_small 32 (2 ^ scaling_factor t)) by lia. rewrite !(wrap_small 32 (_ * 2)) by lia.
  rewrite !(wrap_small 32 (_ * 2 - 1)), (wrap_small 32 (scaling_factor t + 1)) by lia.
  rewrite <- Hlen, Nat2Z.id, firstn_all, Hlen, Hd.
  destruct (grow_fold (entries t) {| num_entries := num_entries t; scaling_factor := scaling_factor t + 1;
    mask := 2 ^ (scaling_factor t + 1) - 1; entries := new_slots (2 ^ (scaling_factor t + 1));
    growing_ := growing_ t |}) as (t' & Hf & Hwf' & ? & ? & ? & Hv & Ho);
    cbn [entries growing_ scaling_factor mask num_entries] in *.
  - apply new_slots_wf. lia.
  - done.
  - by apply occupied_nodup, reachable_unique.
  - intros k _. unfold view. by rewrite occupied_new_slots.
  - rewrite occupied_new_slots. cbn. unfold new_slots. rewrite length_replicate.
    pose proof (length_filter (fun e : K * V => e.1 <> zero_key) (entries t)).
    unfold occupied. lia.
  - exists t'. split; [exact Hf|]. rewrite Hv, Ho, occupied_new_slots.
    unfold view at 1. rewrite occupied_new_slots. cbn. rewrite map_empty_union. done.
Qed.

Lemma max_sizes_lookup sf :
  0 <= sf <= 31 -> idx HASH_TABLE_MAX_SIZES (Z.to_nat sf) = Ret (load_for (2 ^ sf)).
Proof.
  intros Hsf. apply idx_ret. unfold HASH_TABLE_MAX_SIZES.
  rewrite list_lookup_fmap, lookup_seq_lt by lia. cbn. rewrite Z2Nat.id by lia.
  by rewrite Z.shiftl_1_l.
Qed.

Lemma load_for_bounds x : 4 <= x -> 0 <= load_for x < x /\ load_for x + 1 <= load_for (2 * x).
Proof. intros. unfold load_for. Z.to_euclidean_division_equations. lia. Qed.

Lemma load_for_pow2 sf : 3 <= sf ->
  0 <= load_for (2 ^ sf) < 2 ^ sf /\ load_for (2 ^ sf) + 1 < 2 ^ sf /\
  load_for (2 ^ sf) + 1 <= load_for (2 ^ (sf + 1)).
Proof.
  intros Hsf. assert (8 <= 2 ^ sf) by (change 8 with (2 ^ 3); apply Z.pow_le_mono_r; lia).
  rewrite Z.pow_add_r, (Z.mul_comm (2 ^ sf) (2 ^ 1)) by lia. change (2 ^ 1) with 2.
  destruct (load_for_bounds (2 ^ sf)); [lia|]. repeat split; try lia.
  unfold load_for. Z.to_euclidean_division_equations. lia.
Qed.

(** [insert] on a table at rest. *)
Lemma insert_spec t k v upd :
  slots_wf (scaling_factor t) (mask t) (entries t) -> growing_ t = false -> scaling_factor t < 31 ->
  k <> zero_key -> (length (occupied (entries t)) < length (entries t))%nat ->
  exists t' st, insert t k v upd = Ret (t', st) /\
    slots_wf (scaling_factor t') (mask t') (entries t') /\ growing_ t' = false /\
    num_entries t' = num_entries t /\
    scaling_factor t <= scaling_factor t' <= scaling_factor t + 1 /\
    match view (entries t) !! k with
    | None => st = HASH_ENTRY_STORED_NEW /\ view (entries t') = <[k := v]> (view (entries t)) /\
        length (occupied (entries t')) = S (length (occupied (entries t)))
    | Some _ => length (occupied (entries t')) = length (occupied (entries t)) /\
        if upd then st = HASH_ENTRY_STORED_OVERWRITE /\ view (entries t') = <[k := v]> (view (entries t))
        else st = HASH_ENTRY_SKIPPED /\ view (entries t') = view (entries t)
    end.
Proof.
  intros Hwf Hg Hsf Hk Hfree. unfold insert, insert_with.
  destruct (insert_loop_spec _ _ _ k v upd Hwf Hk Hfree) as (es' & sc & st & -> & Hwf' & Hres).
  cbn [mbind outcome_bind with_entries growing_]. rewrite Hg.
  destruct (_ <? sc); cbn [andb negb].
  - destruct (grow_spec (with_growing (with_entries t es') true)) as (t2 & -> & Hwf2 & _ & Hs2 & Hn2 & Hv2 & Ho2);
      [done..|]. cbn [mbind outcome_bind]. eexists _, _. split; [done|]. tbl_cbn. repeat split; try apply Hwf2; try done; try lia.
    rewrite Hv2, Ho2. destruct (view (entries t) !! k); [|done].
    destruct Hres as [? Hres]. split; [done|]. destruct upd; [done|]. destruct Hres as [? ->]. done.
  - cbn [mbind outcome_bind]. eexists _, _. split; [done|]. tbl_cbn. repeat split; try apply Hwf'; try done; try lia.
    destruct (view (entries t) !! k); [|done].
    destruct Hres as [? Hres]. split; [done|]. destruct upd; [done|]. destruct Hres as [? ->]. done.
Qed.

Lemma wf_free t : wf t -> (length (occupied (entries t)) < length (entries t))%nat.
Proof.
  intros [[Hsf _ Hlen _] Hc Hl _]. pose proof (load_for_pow2 (scaling_factor t)). lia.
Qed.

(** The growth check at the start of [store]. *)
Lemma store_check_spec t :
  wf t -> scaling_factor t < 31 ->
  exists t', (if load_for (2 ^ scaling_factor t) <? num_entries t then
      t ← grow (with_growing t true); Ret (with_growing t false) else Ret t) = Ret t' /\
    slots_wf (scaling_factor t') (mask t') (entries t') /\ growing_ t' = false /\
    num_entries t' = num_entries t /\ scaling_factor t <= scaling_factor t' <= scaling_factor t + 1 /\
    view (entries t') = view (entries t) /\
    length (occupied (entries t')) = length (occupied (entries t)) /\
    num_entries t <= load_for (2 ^ scaling_factor t').
Proof.
  intros [Hwf Hc Hl Hg] Hsf. pose proof (sw_sf _ _ _ Hwf) as Hr.
  pose proof (load_for_pow2 (scaling_factor t)). destruct (Z.ltb_spec (load_for (2 ^ scaling_factor t)) (num_entries t)).
  - destruct (grow_spec (with_growing t true)) as (t2 & -> & Hwf2 & _ & Hs2 & Hn2 & Hv2 & Ho2); [done..|].
    cbn [mbind outcome_bind]. eexists; split; [done|]. tbl_cbn. repeat split; try apply Hwf2; try done; try lia. rewrite Hs2. lia.
  - exists t. repeat split; try apply Hwf; try done; lia.
Qed.

(** [store] implements the map update, in both store policies. *)
Lemma store_spec t k v upd :
  wf t -> scaling_factor t < 30 -> k <> zero_key ->
  exists t' b, store t k v upd = Ret (t', b) /\ wf t' /\
    scaling_factor t <= scaling_factor t' <= scaling_factor t + 2 /\
    view (entries t') = spec_store (view (entries t)) k v upd /\
    b = spec_stored (view (entries t)) k upd.
Proof.
  intros Hwf Hsf Hk. unfold store. pose proof (sw_sf _ _ _ (wf_slots _ Hwf)) as Hr.
  rewrite max_sizes_lookup by lia. cbn [mbind outcome_bind].
  destruct (store_check_spec t Hwf) as (t1 & Hcheck & Hs1 & Hg1 & Hn1 & Hsf1 & Hv1 & Ho1 & Hl1); [lia|].
  cbn [mbind outcome_bind] in Hcheck. rewrite Hcheck. cbn [mbind outcome_bind].
  pose proof (wf_count _ Hwf) as Hcount. pose proof (sw_len _ _ _ Hs1) as Hlen1.
  pose proof (sw_sf _ _ _ Hs1) as Hr1. pose proof (load_for_pow2 (scaling_factor t1)) as Hb1.
  destruct (insert_spec t1 k v (match upd with HASH_OVERWRITE_PREV_ENTRY => true | _ => false end))
    as (t2 & st & -> & Hs2 & Hg2 & Hn2 & Hsf2 & Hres); try done; try lia.
  cbn [mbind outcome_bind]. rewrite Hv1 in Hres.
  assert (Hb2 : load_for (2 ^ scaling_factor t1) <= load_for (2 ^ scaling_factor t2)).
  { unfold load_for. apply Z.div_le_mono; [lia|].
    assert (2 ^ scaling_factor t1 <= 2 ^ scaling_factor t2) by (apply Z.pow_le_mono_r; lia). lia. }
  destruct (view (entries t) !! k) as [v0|] eqn:Hvk.
  - destruct Hres as [Ho2 Hres].
    assert (Hwf2 : wf t2) by (split; [done|lia|lia|done]).
    destruct upd; cbn in Hres; destruct Hres as [-> Hv2]; eexists _, _; (split; [done|]);
      (split; [done|]); (split; [lia|]); unfold spec_store, spec_stored.
    + done.
    + rewrite Hvk, decide_True by eauto. rewrite bool_decide_eq_false_2 by done. done.
  - destruct Hres as (-> & Hv2 & Ho2). eexists _, _. split; [done|].
    assert (2 ^ scaling_factor t1 <= 2 ^ 31) by (apply Z.pow_le_mono_r; lia).
    split; [|split; [tbl_cbn; lia|]].
    + split; tbl_cbn; [done| | |done]; rewrite wrap_small; lia.
    + tbl_cbn. unfold spec_store, spec_stored. destruct upd; [done|].
      rewrite Hvk, decide_False by (intros [? ?]; done). by rewrite bool_decide_eq_true_2.
Qed.

(** Storing under the all-zero key writes a free slot and leaves it free. *)
Lemma insert_loop_zero sf m es v upd :
  slots_wf sf m es -> (length (occupied es) < length es)%nat ->
  exists es' sc,
    insert_loop (length es) es m (hash zero_key) 0 zero_key v upd = Ret (es', sc, HASH_ENTRY_STORED_NEW) /\
    slots_wf sf m es' /\ occupied es' = occupied es.
Proof.
  intros Hwf Hfree. destruct (scan_at sf m es zero_key Hwf Hfree) as (j0 & old & Hj0 & Hpre & Hold & Hstop).
  pose proof Hwf as [Hsf -> Hlen Hr]. assert (Hz : old.1 = zero_key) by intuition.
  destruct (insert_loop_scan sf es zero_key v upd (home (length es) zero_key) j0 (length es) 0 (hash zero_key) 0)
    as [sc ->]; try done; try lia.
  { apply base_home; [lia|done]. } { intros i [_ Hi]. by apply Hpre. } { by exists old. }
  rewrite Hold, decide_True by done. eexists _, _. split; [done|].
  set (p := probe (length es) (home (length es) zero_key) j0) in *.
  assert (Hkeep : forall i k' v', es !! i = Some (k', v') -> k' <> zero_key ->
    <[p := (zero_key, v)]> es !! i = Some (k', v')).
  { intros i k' v' Hi Hk'. rewrite list_lookup_insert_ne; [done|]. intros <-.
    rewrite Hold in Hi. injection Hi as ->. done. }
  split; [split; [done..|by rewrite length_insert|]|].
  - intros i k1 v1. rewrite length_insert. intros Hi Hk1.
    destruct (decide (i = p)) as [->|Hne].
    { rewrite list_lookup_insert_eq in Hi by (eapply lookup_lt_Some; eauto). congruence. }
    rewrite list_lookup_insert_ne in Hi by done.
    destruct (Hr i k1 v1 Hi Hk1) as (j & ? & ? & Hj). exists j. repeat split; [done..|].
    intros j' Hj'. destruct (Hj j' Hj') as (k' & v' & E & ? & ?). exists k', v'. auto.
  - unfold occupied. pose proof (lookup_lt_Some _ _ _ Hold).
    rewrite (insert_take_drop es p) by done. rewrite <- (take_drop_middle es p old Hold) at 3.
    rewrite !filter_app, !filter_cons_False by tauto. done.
Qed.

Lemma make_wf : 3 <= DEFAULT_SCALE_FACTOR <= 31 -> wf (make (K := K) (V := V)) /\ view (entries make) = (∅ : gmap K V).
Proof.
  intros Hd. assert (2 ^ DEFAULT_SCALE_FACTOR <= 2 ^ 31) by (apply Z.pow_le_mono_r; lia).
  pose proof (pow2_pos DEFAULT_SCALE_FACTOR). pose proof (load_for_pow2 DEFAULT_SCALE_FACTOR).
  assert (Hm : make (K := K) (V := V) = {| num_entries := 0; scaling_factor := DEFAULT_SCALE_FACTOR;
    mask := 2 ^ DEFAULT_SCALE_FACTOR - 1; entries := new_slots (2 ^ DEFAULT_SCALE_FACTOR); growing_ := false |}).
  { unfold make. rewrite Z.shiftl_1_l, wrap_small by lia. done. }
  rewrite Hm. split.
  - split; tbl_cbn; [by apply new_slots_wf|by rewrite occupied_new_slots|lia|done].
  - tbl_cbn. unfold view. by rewrite occupied_new_slots.
Qed.

End table_lemmas.

(** ** Pointer tables: the instance Granary uses *)

(** The bytes of a 64-bit key in memory order. *)
Definition key_bytes (k : Z) : list Z := map (fun i => get_field (8 * Z.of_nat i) 8 k) (seq 0 8).

#[export] Instance app_pc_meta : hash_table_meta Z Z := {|
  DEFAULT_SCALE_FACTOR := 4;
  MAX_SCAN_SCALE_FACTOR := 16;
  hash := fun key => MurmurHash3_x86_32 (key_bytes key) 0xDEADBEEF;
  zero_key := 0;
  zero_value := 0
|}.

#[export] Instance app_pc_set_meta : hash_table_meta Z bool := {|
  DEFAULT_SCALE_FACTOR := 4;
  MAX_SCAN_SCALE_FACTOR := 16;
  hash := fun key => MurmurHash3_x86_32 (key_bytes key) 0xDEADBEEF;
  zero_key := 0;
  zero_value := false
|}.

(** ** Interface

    What a component that looks addresses up promises to its clients: a
    finite map from non-null keys with [load] and [store]. *)
Class LookupTable (T : Type) := {
  lt_load : T -> Z -> outcome (bool * Z);
  lt_store : T -> Z -> Z -> hash_store_policy -> outcome (T * bool);
  lt_ok : T -> Prop;
  (** Room for that many more stores. *)
  lt_room : nat -> T -> Prop;
  lt_map : T -> gmap Z Z;
  lt_load_spec : forall t k, lt_ok t -> k <> 0 ->
    lt_load t k = Ret (negb (bool_decide (0 = default 0 (lt_map t !! k))), default 0 (lt_map t !! k));
  lt_store_spec : forall n t k v upd, lt_ok t -> lt_room (S n) t -> k <> 0 ->
    exists t' b, lt_store t k v upd = Ret (t', b) /\ lt_ok t' /\ lt_room n t' /\
      lt_map t' = spec_store (lt_map t) k v upd /\ b = spec_stored (lt_map t) k upd
}.

Lemma load_view {K V} `{Countable K, EqDecision V, !hash_table_meta K V} (t : hash_table K V) k :
  wf t -> k <> zero_key ->
  load t k = Ret (negb (bool_decide (zero_value = default zero_value (view (entries t) !! k))),
                  default zero_value (view (entries t) !! k)).
Proof. intros Hwf Hk. unfold load. rewrite find_view; [done|apply Hwf|done|by apply wf_free]. Qed.

#[export, refine] Instance hash_table_lookup : LookupTable (hash_table Z Z) := {|
  lt_load := load;
  lt_store := store;
  lt_ok := wf;
  lt_room := fun n t => scaling_factor t + 2 * Z.of_nat n <= 31;
  lt_map := fun t => view (entries t)
|}.
Proof.
  - intros t k Hwf Hk. exact (load_view t k Hwf Hk).
  - intros n t k v upd Hwf Hroom Hk.
    destruct (store_spec t k v upd Hwf) as (t' & b & ? & ? & Hsf & ? & ?); [lia|done|].
    exists t', b. repeat split; try done; try apply H0. lia.
Defined.

Section property_lemmas.
Context {K V : Type} `{Countable K, EqDecision V, !hash_table_meta K V}.
Implicit Types (t : hash_table K V).

Lemma find_zero t :
  slots_wf (scaling_factor t) (mask t) (entries t) ->
  (length (occupied (entries t)) < length (entries t))%nat -> find t zero_key = Ret zero_value.
Proof.
  intros Hwf Hfree. destruct (scan_at _ _ _ zero_key Hwf Hfree) as (j0 & old & Hj0 & Hpre & Hold & Hstop).
  unfold find. pose proof Hwf as [Hsf -> Hlen Hr].
  rewrite (find_loop_scan (scaling_factor t) _ zero_key (home (length (entries t)) zero_key) j0 _ 0);
    try done; try lia.
  - rewrite Hold, decide_True by intuition. done.
  - apply base_home; [lia|done].
  - intros i [_ Hi]. by apply Hpre.
  - by exists old.
Qed.

Lemma insert_zero t v upd :
  slots_wf (scaling_factor t) (mask t) (entries t) -> growing_ t = false -> scaling_factor t < 31 ->
  (length (occupied (entries t)) < length (entries t))%nat ->
  exists t', insert t zero_key v upd = Ret (t', HASH_ENTRY_STORED_NEW) /\
    slots_wf (scaling_factor t') (mask t') (entries t') /\
    num_entries t' = num_entries t /\ view (entries t') = view (entries t) /\
    (length (occupied (entries t')) < length (entries t'))%nat.
Proof.
  intros Hwf Hg Hsf Hfree. unfold insert, insert_with.
  destruct (insert_loop_zero _ _ _ v upd Hwf Hfree) as (es' & sc & -> & Hwf' & Hocc).
  cbn [mbind outcome_bind with_entries growing_]. rewrite Hg.
  pose proof (sw_len _ _ _ Hwf) as Hl. pose proof (sw_len _ _ _ Hwf') as Hl'.
  destruct (_ <? sc); cbn [andb negb].
  - destruct (grow_spec (with_growing (with_entries t es') true)) as (t2 & -> & Hwf2 & _ & Hs2 & Hn2 & Hv2 & Ho2);
      [done..|]. cbn [mbind outcome_bind]. eexists. split; [done|]. tbl_cbn.
    pose proof (sw_len _ _ _ Hwf2) as Hl2. rewrite Hs2, Z.pow_add_r in Hl2 by (destruct Hwf; lia).
    repeat split; try apply Hwf2; try done; [|rewrite Ho2, Hocc; lia].
    rewrite Hv2. unfold view. by rewrite Hocc.
  - cbn [mbind outcome_bind]. eexists. split; [done|]. tbl_cbn.
    repeat split; try apply Hwf'; try done; [|rewrite Hocc; lia]. unfold view. by rewrite Hocc.
Qed.

Lemma foldl_occupied {A} (callback : K -> V -> A -> A) es args :
  foldl (fun args (entry : K * V) =>
    if decide (zero_key = entry.1) then args else callback entry.1 entry.2 args) args es =
  foldl (fun args entry => callback entry.1 entry.2 args) args (occupied es).
Proof.
  revert args. induction es as [|e es IH]; intros args; [done|]. cbn [foldl]. rewrite occupied_cons.
  destruct (decide (zero_key = e.1)), (decide (e.1 = zero_key)); try congruence; apply IH.
Qed.

End property_lemmas.

(** ** Properties *)

(** C2 A hash table is a finite map: on a well-formed table that can still
    grow twice, [store] under a non-zero key returns, keeps the table
    well-formed, updates the map as the store policy says and reports whether
    it wrote; [find] then returns, for every non-zero key, what the updated
    map has, and [V()] where it has nothing.  The scans are given as many
    iterations as the table has slots. *)
Theorem hash_table_refines_map {K V} `{Countable K, EqDecision V, !hash_table_meta K V}
    (t : hash_table K V) k v upd :
  wf t -> scaling_factor t < 30 -> k <> zero_key ->
  exists t' b, store t k v upd = Ret (t', b) /\ wf t' /\
    view (entries t') = spec_store (view (entries t)) k v upd /\
    b = spec_stored (view (entries t)) k upd /\
    forall k', k' <> zero_key ->
      find t' k' = Ret (default zero_value (spec_store (view (entries t)) k v upd !! k')).
Proof.
  intros Hwf Hsf Hk. destruct (store_spec t k v upd Hwf Hsf Hk) as (t' & b & ? & Hwf' & _ & Hv & ?).
  exists t', b. repeat split; try done; try apply Hwf'. intros k' Hk'. rewrite <- Hv.
  apply find_view; [apply Hwf'|done|by apply wf_free].
Qed.

Lemma hash_table_refines_map_witness :
  exists t' b, store (make (K := Z) (V := Z)) 0x400000 7 HASH_KEEP_PREV_ENTRY = Ret (t', b) /\
    wf t' /\ b = true /\ find t' 0x400000 = Ret 7.
Proof.
  destruct (hash_table_refines_map (make (K := Z) (V := Z)) 0x400000 7 HASH_KEEP_PREV_ENTRY)
    as (t' & b & Hs & Hwf & _ & -> & Hf).
  - apply make_wf. cbn. lia.
  - reflexivity.
  - discriminate.
  - exists t', true. split; [exact Hs|]. split; [exact Hwf|]. split; [reflexivity|].
    rewrite Hf by discriminate. reflexivity.
Defined.

(** Growing the table doubles the number of slots and moves every entry:
    each non-zero key is found with the same value before and after, and the
    invariant and the entry count are kept. *)
Theorem hash_table_grow_preserves {K V} `{Countable K, EqDecision V, !hash_table_meta K V}
    (t : hash_table K V) :
  wf t -> scaling_factor t < 31 ->
  exists t', grow (with_growing t true) = Ret t' /\ wf (with_growing t' false) /\
    length (entries t') = (2 * length (entries t))%nat /\
    forall k, k <> zero_key -> find t' k = find t k.
Proof.
  intros Hwf Hsf. destruct (grow_spec (with_growing t true)) as (t' & Hg & Hs & _ & Hsf' & Hn & Hv & Ho);
    [apply Hwf|done|done|]. tbl_cbn. pose proof (wf_free _ Hwf).
  pose proof (sw_len _ _ _ Hs) as Hl'. pose proof (sw_len _ _ _ (wf_slots _ Hwf)) as Hl.
  pose proof (sw_sf _ _ _ (wf_slots _ Hwf)). rewrite Hsf', Z.pow_add_r in Hl' by lia.
  exists t'. split; [done|]. split; [|split; [lia|]].
  - destruct Hwf as [? Hc Hld _]. split; tbl_cbn; [done|congruence| |done].
    rewrite Hsf'. pose proof (load_for_pow2 (scaling_factor t)). lia.
  - intros k Hk. rewrite !find_view, Hv; try done; [apply Hwf|lia].
Qed.

Lemma hash_table_grow_preserves_witness :
  exists t', grow (with_growing (make (K := Z) (V := Z)) true) = Ret t' /\
    wf (with_growing t' false) /\ length (entries t') = 32%nat.
Proof.
  destruct (hash_table_grow_preserves (make (K := Z) (V := Z))) as (t' & ? & ? & ? & _).
  - apply make_wf. cbn. lia.
  - reflexivity.
  - exists t'. auto.
Defined.

(** [for_each_entry] calls the callback exactly once per entry of the
    map: the bindings it collects are those of the map, without duplicates. *)
Theorem for_each_entry_complete {K V} `{Countable K, EqDecision V, !hash_table_meta K V}
    (t : hash_table K V) :
  wf t ->
  for_each_entry t (fun k v acc => (k, v) :: acc) [] ≡ₚ map_to_list (view (entries t)).
Proof.
  intros Hwf. destruct (wf_slots _ Hwf) as [Hsf Hm Hl Hr]. unfold for_each_entry. rewrite Hm.
  assert (2 ^ scaling_factor t <= 2 ^ 31) by (apply Z.pow_le_mono_r; lia).
  rewrite wrap_small by (pose proof (pow2_pos (scaling_factor t)); lia).
  replace (2 ^ scaling_factor t - 1 + 1) with (Z.of_nat (length (entries t))) by lia.
  rewrite Nat2Z.id, firstn_all.
  pose proof (foldl_occupied (fun k v acc => (k, v) :: acc) (entries t) []) as E. cbn beta in E.
  rewrite E. clear E. unfold view.
  rewrite map_to_list_to_map by now apply occupied_nodup, reachable_unique.
  rewrite <- (app_nil_r (occupied (entries t))) at 2. generalize (@nil (K * V)).
  induction (occupied (entries t)) as [|[k v] l IH]; intros acc; [done|].
  cbn [foldl fst snd]. rewrite IH. cbn. by rewrite Permutation_middle.
Qed.

Lemma for_each_entry_complete_witness :
  for_each_entry (make (K := Z) (V := Z)) (fun k v acc => (k, v) :: acc) []
    ≡ₚ map_to_list (view (entries make)).
Proof. apply for_each_entry_complete. apply make_wf. cbn. lia. Defined.

(** A store under the all-zero key reports success and counts an entry,
    but nothing is stored: the slot it writes stays free, the map does not
    change, and [find] returns [V()]. *)
Theorem hash_table_zero_key_lost {K V} `{Countable K, EqDecision V, !hash_table_meta K V}
    (t : hash_table K V) v upd :
  wf t -> scaling_factor t < 30 ->
  exists t', store t zero_key v upd = Ret (t', true) /\
    num_entries t' = num_entries t + 1 /\ view (entries t') = view (entries t) /\
    find t' zero_key = Ret zero_value.
Proof.
  intros Hwf Hsf. unfold store. pose proof (sw_sf _ _ _ (wf_slots _ Hwf)) as Hr.
  rewrite max_sizes_lookup by lia. cbn [mbind outcome_bind].
  destruct (store_check_spec t Hwf) as (t1 & Hcheck & Hs1 & Hg1 & Hn1 & Hsf1 & Hv1 & Ho1 & Hl1); [lia|].
  cbn [mbind outcome_bind] in Hcheck. rewrite Hcheck. cbn [mbind outcome_bind].
  pose proof (wf_count _ Hwf) as Hcount. pose proof (sw_len _ _ _ Hs1) as Hlen1.
  pose proof (load_for_pow2 (scaling_factor t1)) as Hb1.
  assert (2 ^ scaling_factor t1 <= 2 ^ 31) by (apply Z.pow_le_mono_r; lia).
  destruct (insert_zero t1 v (match upd with HASH_OVERWRITE_PREV_ENTRY => true | _ => false end))
    as (t2 & -> & Hs2 & Hn2 & Hv2 & Hf2); try done; try lia.
  cbn [mbind outcome_bind]. eexists. split; [done|]. tbl_cbn.
  split; [rewrite wrap_small; lia|]. split; [congruence|]. by apply find_zero.
Qed.

Lemma hash_table_zero_key_lost_witness :
  exists t', store (make (K := Z) (V := Z)) 0 5 HASH_OVERWRITE_PREV_ENTRY = Ret (t', true) /\
    num_entries t' = 1 /\ find t' 0 = Ret 0.
Proof.
  destruct (hash_table_zero_key_lost (make (K := Z) (V := Z)) 5 HASH_OVERWRITE_PREV_ENTRY)
    as (t' & Hs & Hn & _ & Hf).
  - apply make_wf. cbn. lia.
  - reflexivity.
  - exists t'. split; [exact Hs|]. split; [exact Hn|exact Hf].
Defined.

(** A [hash_set] is a set: after [add] the key is contained, after
    [remove] it is not, and no other key's membership changes. *)
Theorem hash_set_add_remove {K} `{Countable K, !hash_table_meta K bool} (s : hash_set (K := K)) key :
  zero_value = false -> wf s -> scaling_factor s < 30 -> key <> zero_key ->
  (exists s', set_add s key = Ret s' /\ wf s' /\ set_contains s' key = Ret true /\
     forall k, k <> zero_key -> k <> key -> set_contains s' k = set_contains s k) /\
  (exists s', set_remove s key = Ret s' /\ wf s' /\ set_contains s' key = Ret false /\
     forall k, k <> zero_key -> k <> key -> set_contains s' k = set_contains s k).
Proof.
  intros Hz Hwf Hsf Hk.
  assert (Hgen : forall b, exists s', (r ← store s key b HASH_OVERWRITE_PREV_ENTRY; Ret r.1) = Ret s' /\
    wf s' /\ set_contains s' key = Ret b /\
    forall k, k <> zero_key -> k <> key -> set_contains s' k = set_contains s k); [|by split; apply Hgen].
  intros b. destruct (store_spec s key b HASH_OVERWRITE_PREV_ENTRY Hwf Hsf Hk) as (s' & r & Hs & Hwf' & _ & Hv & _).
  exists s'. rewrite Hs. split; [done|]. split; [done|].
  assert (Hf : forall k, k <> zero_key ->
    set_contains s' k = Ret (default zero_value (<[key := b]> (view (entries s)) !! k))).
  { intros k Hk'. unfold set_contains. rewrite find_view, Hv; [done|apply Hwf'|done|by apply wf_free]. }
  split; [rewrite Hf, lookup_insert_eq; done|]. intros k Hk' Hne. rewrite Hf, lookup_insert_ne by done.
  unfold set_contains. rewrite find_view; [done|apply Hwf|done|by apply wf_free].
Qed.

Lemma hash_set_add_remove_witness :
  exists s', set_add (make (K := Z) (V := bool)) 0x1000 = Ret s' /\ set_contains s' 0x1000 = Ret true.
Proof.
  destruct (hash_set_add_remove (make (K := Z) (V := bool)) 0x1000) as [(s' & Ha & _ & Hc & _) _].
  - reflexivity.
  - apply make_wf. cbn. lia.
  - reflexivity.
  - discriminate.
  - exists s'. auto.
Defined.
