(* ===== verification/CpuCodeCache.v ===== *)
(** * CPU-private code cache ([granary/cpu_code_cache.h], [granary/cpu_code_cache.cc])

    The hash table that maps mangled addresses to code-cache addresses on one
    CPU, and that also holds the detach targets.  It has no load limit and a
    lookup examines at most [MAX_SCAN] slots.  The slot-array theory of the
    general hash table is reused with the 64-bit mix as the hash. *)

From Stdlib Require Import ZArith Lia.
From stdpp Require Import base numbers list option gmap.
From S2P Require Import Prelude Murmur HashTable.

Module CpuCache.

Definition MAX_SCAN : nat := 8.
Definition MIN_DEFAULT_ENTRIES : Z := 128.

(** The 64-bit mix function of MurmurHash3, repeated in this file. *)
Definition fmix (k : Z) : Z :=
  let k := Z.lxor k (Z.shiftr k 33) in
  let k := u64 (k * 0xff51afd7ed558ccd) in
  let k := Z.lxor k (Z.shiftr k 33) in
  let k := u64 (k * 0xc4ceb9fe1a85ec53) in
  Z.lxor k (Z.shiftr k 33).

(** A [cpu_private_code_cache_entry] is the pair of its source and
    destination; [entries] is [None] while the pointer is null. *)
Record cpu_private_code_cache := {
  bit_mask : Z;
  centries : option (list (Z * Z));
  cgrowing : bool
}.

(** [allocate_memory<cpu_private_code_cache_entry>(num)]: zeroed entries; the
    byte size is a 32-bit [unsigned]. *)
Definition allocate_entries (num : Z) : list (Z * Z) :=
  replicate (Z.to_nat (u32 (16 * u32 num) / 16)) (0, 0).

(** The zero-initialised cache. *)
Definition empty_cache : cpu_private_code_cache :=
  {| bit_mask := 0; centries := None; cgrowing := false |}.

(** [for(int m(0); ++m <= MAX_SCAN; ++index)]: [m] slots are left to examine. *)
Fixpoint find_loop (m : nat) (es : list (Z * Z)) (bit_mask index key : Z) : outcome Z :=
  match m with
  | O => Ret 0
  | S m =>
      let index := Z.land index bit_mask in
      entry ← idx es (Z.to_nat index);
      if entry.1 =? 0 then Ret 0
      else if key =? entry.1 then Ret entry.2
      else find_loop m es bit_mask (u64 (index + 1)) key
  end.

Definition find (c : cpu_private_code_cache) (key : Z) : outcome Z :=
  match centries c with
  | None => Ret 0
  | Some es => find_loop MAX_SCAN es (bit_mask c) (fmix key) key
  end.

Definition load (c : cpu_private_code_cache) (key : Z) : outcome (bool * Z) :=
  value ← find c key;
  Ret (negb (0 =? value), value).

(** The scan of [insert]. *)
Fixpoint insert_loop (fuel : nat) (es : list (Z * Z)) (bit_mask index scan key value : Z)
    (update : bool) : outcome (list (Z * Z) * Z * hash_store_state) :=
  match fuel with
  | O => OutOfFuel
  | S fuel =>
      let index := Z.land index bit_mask in
      let i := Z.to_nat index in
      entry ← idx es i;
      if 0 =? entry.1 then Ret (<[i := (key, value)]> es, scan, HASH_ENTRY_STORED_NEW)
      else if entry.1 =? key then
        if update then Ret (<[i := (entry.1, value)]> es, scan, HASH_ENTRY_STORED_OVERWRITE)
        else Ret (es, scan, HASH_ENTRY_SKIPPED)
      else insert_loop fuel es bit_mask (u64 (index + 1)) (u32 (scan + 1)) key value update
  end.

(** [insert], with the function it calls to grow; a null [entries] is a
    fault.  The fuel is a number of iterations of the scan. *)
Definition insert_with (grow : cpu_private_code_cache -> outcome cpu_private_code_cache)
    (fuel : nat) (c : cpu_private_code_cache) (key value : Z) (update : bool)
    : outcome (cpu_private_code_cache * hash_store_state) :=
  match centries c with
  | None => Fault
  | Some es =>
      r ← insert_loop fuel es (bit_mask c) (fmix key) 0 key value update;
      let '(es, scan, state) := r in
      let c := {| bit_mask := bit_mask c; centries := Some es; cgrowing := cgrowing c |} in
      c ← (if (Z.of_nat MAX_SCAN <? scan) && negb (cgrowing c) then
             c ← grow {| bit_mask := bit_mask c; centries := centries c; cgrowing := true |};
             Ret {| bit_mask := bit_mask c; centries := centries c; cgrowing := false |}
           else Ret c);
      Ret (c, state)
  end.

(** [grow]: the insertions it makes run with [growing] set, so that none of
    them grows the table again; [OutOfFuel] marks the call that would. *)
Definition grow (fuel : nat) (c : cpu_private_code_cache) : outcome cpu_private_code_cache :=
  match centries c with
  | None => Fault
  | Some old_entries =>
      let old_num_entries := u64 (bit_mask c + 1) in
      let new_num_entries := u64 (Z.shiftl old_num_entries 1) in
      let c := {| bit_mask := u64 (new_num_entries - 1);
                  centries := Some (allocate_entries new_num_entries);
                  cgrowing := true |} in
      c ← foldl (fun c (e : Z * Z) =>
            c ← c;
            if e.1 =? 0 then Ret c
            else r ← insert_with (fun _ => OutOfFuel) fuel c e.1 e.2 true; Ret r.1)
          (Ret c) (take (Z.to_nat old_num_entries) old_entries);
      Ret {| bit_mask := bit_mask c; centries := centries c; cgrowing := false |}
  end.

Definition insert (fuel : nat) := insert_with (grow fuel) fuel.

(** [if(!entries) ...] at the start of [store]. *)
Definition allocate_if_null (c : cpu_private_code_cache) : cpu_private_code_cache :=
  match centries c with
  | None => {| bit_mask := MIN_DEFAULT_ENTRIES - 1;
               centries := Some (allocate_entries MIN_DEFAULT_ENTRIES);
               cgrowing := cgrowing c |}
  | Some _ => c
  end.

Definition store (fuel : nat) (c : cpu_private_code_cache) (key value : Z)
    (update : hash_store_policy) : outcome (cpu_private_code_cache * bool) :=
  let c := allocate_if_null c in
  r ← insert fuel c key value (match update with HASH_OVERWRITE_PREV_ENTRY => true | _ => false end);
  let '(c, state) := r in
  match state with
  | HASH_ENTRY_STORED_NEW => Ret (c, true)
  | HASH_ENTRY_STORED_OVERWRITE => Ret (c, true)
  | HASH_ENTRY_SKIPPED => Ret (c, false)
  end.

(** The mix as the hash of the slot-array theory. *)
Definition cpu_meta : hash_table_meta Z Z := {|
  DEFAULT_SCALE_FACTOR := 7;
  MAX_SCAN_SCALE_FACTOR := 8;
  hash := fmix;
  zero_key := 0;
  zero_value := 0
|}.

#[local] Existing Instance cpu_meta.

(** The slots of the cache; an unallocated cache has none. *)
Definition slots (c : cpu_private_code_cache) : list (Z * Z) := default [] (centries c).

(** The map the cache stands for. *)
Definition cpu_view (c : cpu_private_code_cache) : gmap Z Z := view (slots c).

(** Well-formed at scaling factor [sf], with the slots allocated. *)
Definition cpu_wf (sf : Z) (c : cpu_private_code_cache) : Prop :=
  cgrowing c = false /\ exists es, centries c = Some es /\ slots_wf sf (bit_mask c) es.

Definition num_free (c : cpu_private_code_cache) : nat :=
  (length (slots c) - length (occupied (slots c)))%nat.

(** The inverse of the mix. *)
Definition unmix64 (k : Z) : Z :=
  let k := Z.lxor k (Z.shiftr k 33) in
  let k := u64 (k * 0x9cb4b2f8129337db) in
  let k := Z.lxor k (Z.shiftr k 33) in
  let k := u64 (k * 0x4f74430c22a54005) in
  Z.lxor k (Z.shiftr k 33).

(** Store a list of keys in order, with the value one more than the key. *)
Definition store_all (fuel : nat) (c : cpu_private_code_cache) (keys : list Z)
    : outcome cpu_private_code_cache :=
  foldl (fun c k => c ← c; r ← store fuel c k (k + 1) HASH_OVERWRITE_PREV_ENTRY; Ret r.1)
    (Ret c) keys.

End CpuCache.

(** ** Lemmas *)
Section cpu_lemmas.
Import CpuCache.
#[local] Existing Instance cpu_meta.

Lemma cpu_base_home n sf k :
  0 <= sf -> Z.of_nat n = 2 ^ sf ->
  Z.to_nat (Z.land (fmix k) (2 ^ sf - 1)) = probe n (home (V := Z) n k) 0.
Proof. change (fmix k) with (hash (V := Z) k). apply base_home. Qed.

Lemma cpu_insert_loop_scan sf es k v upd st j0 fuel j base scan :
  0 <= sf <= 31 -> Z.of_nat (length es) = 2 ^ sf ->
  (j <= j0)%nat -> (j0 - j < fuel)%nat ->
  Z.to_nat (Z.land base (2 ^ sf - 1)) = probe (length es) st j ->
  (forall i, (j <= i < j0)%nat -> passes es k (probe (length es) st i)) ->
  stops es k (probe (length es) st j0) ->
  exists sc, CpuCache.insert_loop fuel es (2 ^ sf - 1) base scan k v upd =
    Ret (match es !! probe (length es) st j0 with
         | Some e =>
             if decide (e.1 = 0) then
               (<[probe (length es) st j0 := (k, v)]> es, sc, HASH_ENTRY_STORED_NEW)
             else if upd then (<[probe (length es) st j0 := (k, v)]> es, sc, HASH_ENTRY_STORED_OVERWRITE)
             else (es, sc, HASH_ENTRY_SKIPPED)
         | None => (es, sc, HASH_ENTRY_SKIPPED)
         end).
Proof.
  intros Hsf Hn. revert j base scan.
  induction fuel as [|fuel IH]; intros j base scan Hj Hf Hb Hpre Hstop; [lia|].
  cbn [CpuCache.insert_loop]. rewrite Hb. destruct (decide (j = j0)) as [->|Hne].
  - destruct Hstop as (e & He & Hor). unfold idx. rewrite He. cbn [mbind outcome_bind].
    exists scan. cbn in Hor. destruct (decide (e.1 = 0)) as [Hz|Hz].
    + rewrite Hz. done.
    + destruct Hor as [|Hk]; [done|]. destruct (Z.eqb_spec 0 e.1); [congruence|].
      rewrite Hk, Z.eqb_refl. now destruct upd.
  - destruct (Hpre j) as (k' & v' & He & Hz & Hk'); [lia|]. unfold idx. rewrite He. cbn [mbind outcome_bind fst].
    cbn in Hz. destruct (Z.eqb_spec 0 k'); [congruence|]. destruct (Z.eqb_spec k' k); [congruence|].
    apply (IH (S j)); [lia|lia| |intros; apply Hpre; lia|done]. apply base_step; [lia|done..].
Qed.

(** The scan of [insert] on a well-formed slot array with a free slot. *)
Lemma cpu_insert_loop_spec sf m es k v upd fuel :
  slots_wf sf m es -> k <> 0 -> (length (occupied es) < length es)%nat -> (length es <= fuel)%nat ->
  exists es' sc st,
    CpuCache.insert_loop fuel es m (fmix k) 0 k v upd = Ret (es', sc, st) /\
    slots_wf sf m es' /\
    match view es !! k with
    | None => st = HASH_ENTRY_STORED_NEW /\ view es' = <[k := v]> (view es) /\
        length (occupied es') = S (length (occupied es))
    | Some _ => length (occupied es') = length (occupied es) /\
        if upd then st = HASH_ENTRY_STORED_OVERWRITE /\ view es' = <[k := v]> (view es)
        else st = HASH_ENTRY_SKIPPED /\ es' = es
    end.
Proof.
  intros Hwf Hk Hfree Hfuel. destruct (scan_at sf m es k Hwf Hfree) as (j0 & old & Hj0 & Hpre & Hold & Hstop).
  pose proof Hwf as [Hsf -> Hlen Hr].
  destruct (cpu_insert_loop_scan sf es k v upd (home (V := Z) (length es) k) j0 fuel 0 (fmix k) 0) as [sc ->];
    try done; try lia.
  { apply cpu_base_home; [lia|done]. }
  { intros i [_ Hi]. by apply Hpre. }
  { by exists old. }
  rewrite Hold, (stop_slot_old_view es k j0 old) by done.
  assert (Hwf' : slots_wf sf (2 ^ sf - 1) (<[probe (length es) (home (V := Z) (length es) k) j0 := (k, v)]> es)).
  { split; [done..|by rewrite length_insert|]. by apply (stop_slot_reachable es k v j0 old). }
  pose proof (occupied_insert es _ old (k, v) Hold Hk) as Hocc.
  pose proof (stop_slot_view es k v j0 old Hr Hk Hj0 Hpre Hold Hstop) as Hview. cbn [zero_key cpu_meta] in *.
  destruct (decide (old.1 = 0)) as [Hz|Hz].
  - eexists _, _, _. split; [done|]. repeat split; [apply Hwf'..|done|lia].
  - destruct upd; eexists _, _, _; (split; [done|]).
    + repeat split; [apply Hwf'..|lia|done].
    + repeat split; [apply Hwf..].
Qed.

(** A lookup examines the first [m] probes. *)
Lemma cpu_find_loop_sound sf es k m j base :
  slots_wf sf (2 ^ sf - 1) es ->
  Z.to_nat (Z.land base (2 ^ sf - 1)) = probe (length es) (home (V := Z) (length es) k) j ->
  exists r, CpuCache.find_loop m es (2 ^ sf - 1) base k = Ret r /\
    (r = 0 \/ view es !! k = Some r).
Proof.
  intros Hwf. pose proof (slots_len_pos _ _ _ Hwf) as Hpos. pose proof Hwf as [Hsf _ Hlen Hr].
  revert j base. induction m as [|m IH]; intros j base Hb; [by exists 0; auto|].
  cbn [CpuCache.find_loop]. rewrite Hb.
  destruct (idx_lt es (probe (length es) (home (V := Z) (length es) k) j)) as ([k' v'] & -> & Hl); [by apply probe_lt|].
  cbn [mbind outcome_bind fst snd]. destruct (Z.eqb_spec k' 0) as [|Hz]; [by exists 0; auto|].
  destruct (Z.eqb_spec k k') as [<-|].
  - exists v'. split; [done|]. right. apply view_lookup; [by apply reachable_unique|]. eauto.
  - apply (IH (S j)). apply base_step; [lia|done..].
Qed.

Lemma allocate_entries_pow2 sf : 0 <= sf <= 27 -> allocate_entries (2 ^ sf) = new_slots (2 ^ sf).
Proof.
  intros Hsf. unfold allocate_entries, new_slots. cbn [zero_key zero_value cpu_meta].
  assert (2 ^ sf <= 2 ^ 27) by (apply Z.pow_le_mono_r; lia). pose proof (pow2_pos sf).
  rewrite (wrap_small 32 (2 ^ sf)), wrap_small by lia. f_equal. f_equal.
  rewrite Z.mul_comm. apply Z.div_mul. lia.
Qed.

Definition cpu_grow_step (fuel : nat) (c : outcome cpu_private_code_cache) (e : Z * Z)
    : outcome cpu_private_code_cache :=
  c ← c;
  if e.1 =? 0 then Ret c
  else r ← CpuCache.insert_with (fun _ => OutOfFuel) fuel c e.1 e.2 true; Ret r.1.

Lemma cpu_grow_fold fuel l sf m es :
  slots_wf sf m es -> (length es <= fuel)%nat ->
  NoDup (occupied l).*1 -> (forall k, k ∈ (occupied l).*1 -> view es !! k = None) ->
  (length (occupied es) + length (occupied l) < length es)%nat ->
  exists es', foldl (cpu_grow_step fuel)
      (Ret {| bit_mask := m; centries := Some es; cgrowing := true |}) l
      = Ret {| bit_mask := m; centries := Some es'; cgrowing := true |} /\
    slots_wf sf m es' /\ view es' = view es ∪ list_to_map (occupied l) /\
    length (occupied es') = (length (occupied es) + length (occupied l))%nat.
Proof.
  revert es. induction l as [|[k v] l IH]; intros es Hwf Hfuel Hnd Hdis Hroom.
  - exists es. cbn. rewrite map_union_empty, Nat.add_0_r. done.
  - cbn [foldl]. unfold cpu_grow_step at 2. cbn [mbind outcome_bind fst snd].
    rewrite occupied_cons in *. cbn [fst zero_key cpu_meta] in *. destruct (Z.eqb_spec k 0) as [->|Hk].
    + rewrite decide_True in * by done. by apply IH.
    + rewrite decide_False in * by congruence. cbn [length fmap list_fmap fst] in *.
      apply NoDup_cons in Hnd as [Hnk Hnd].
      destruct (cpu_insert_loop_spec sf m es k v true fuel) as (es' & sc & st & Hins & Hwf' & Hview);
        [done|done|lia|done|].
      rewrite Hdis in Hview by by left. destruct Hview as (-> & Hview & Hocc).
      unfold CpuCache.insert_with. cbn [centries bit_mask cgrowing]. rewrite Hins.
      cbn [mbind outcome_bind negb]. rewrite andb_false_r. cbn [mbind outcome_bind fst].
      assert (Hl : length es' = length es).
      { pose proof (sw_len _ _ _ Hwf). pose proof (sw_len _ _ _ Hwf'). lia. }
      destruct (IH es') as (es'' & Hf & Hwf2 & Hv & Ho); [done|lia|done| |lia|].
      { intros k1 Hk1. rewrite Hview, lookup_insert_ne by (intros ->; done). apply Hdis. by right. }
      exists es''. split; [done|]. split; [done|]. split; [|lia].
      rewrite Hv, Hview, list_to_map_cons, <- insert_union_l, insert_union_r; [done|].
      apply Hdis. by left.
Qed.

Lemma cpu_grow_spec fuel sf es m b :
  slots_wf sf m es -> sf < 27 -> (2 * length es <= fuel)%nat ->
  exists es', CpuCache.grow fuel {| bit_mask := m; centries := Some es; cgrowing := b |}
      = Ret {| bit_mask := 2 ^ (sf + 1) - 1; centries := Some es'; cgrowing := false |} /\
    slots_wf (sf + 1) (2 ^ (sf + 1) - 1) es' /\ view es' = view es /\
    length (occupied es') = length (occupied es).
Proof.
  intros [Hsf -> Hlen Hr] Hsf' Hfuel. unfold CpuCache.grow. cbn [centries bit_mask cgrowing].
  assert (Hp : 2 ^ sf <= 2 ^ 27) by (apply Z.pow_le_mono_r; lia).
  assert (Hd : 2 ^ (sf + 1) = 2 * 2 ^ sf) by (rewrite Z.pow_add_r; lia). pose proof (pow2_pos sf).
  replace (2 ^ sf - 1 + 1) with (2 ^ sf) by lia. rewrite !(wrap_small 64 (2 ^ sf)) by lia.
  rewrite Z.shiftl_mul_pow2, Z.mul_comm by lia. change (2 ^ 1) with 2. rewrite <- Hd.
  rewrite !(wrap_small 64 (2 ^ (sf + 1))), !(wrap_small 64 (2 ^ (sf + 1) - 1)) by lia.
  rewrite allocate_entries_pow2 by lia. rewrite <- Hlen, Nat2Z.id, firstn_all.
  destruct (cpu_grow_fold fuel es (sf + 1) (2 ^ (sf + 1) - 1) (new_slots (2 ^ (sf + 1))))
    as (es' & Hf & Hwf' & Hv & Ho).
  - apply new_slots_wf. lia.
  - unfold new_slots. rewrite length_replicate. lia.
  - by apply occupied_nodup, reachable_unique.
  - intros k _. unfold view. by rewrite occupied_new_slots.
  - rewrite occupied_new_slots. cbn [length]. unfold new_slots. rewrite length_replicate.
    pose proof (length_filter (fun e : Z * Z => e.1 <> zero_key (V := Z)) es). unfold occupied. lia.
  - exists es'. unfold cpu_grow_step in Hf. rewrite Hf. cbn [mbind outcome_bind]. split; [done|].
    split; [done|]. rewrite Hv, Ho, occupied_new_slots. unfold view at 1. rewrite occupied_new_slots.
    cbn [list_to_map foldr length Nat.add]. by rewrite map_empty_union.
Qed.

Lemma cpu_store_spec fuel sf c k v upd :
  cpu_wf sf (allocate_if_null c) -> sf < 27 -> (0 < num_free (allocate_if_null c))%nat ->
  k <> 0 -> (2 * length (slots (allocate_if_null c)) <= fuel)%nat ->
  exists c' b sf', CpuCache.store fuel c k v upd = Ret (c', b) /\ cpu_wf sf' c' /\ sf <= sf' <= sf + 1 /\
    cpu_view c' = spec_store (cpu_view (allocate_if_null c)) k v upd /\
    b = spec_stored (cpu_view (allocate_if_null c)) k upd.
Proof.
  intros (Hg & es & He & Hwf) Hsf Hfree Hk Hfuel. unfold CpuCache.store, CpuCache.insert, CpuCache.insert_with.
  unfold num_free, cpu_view, slots in *. rewrite He in *. cbn [default from_option] in *.
  unfold id in *. destruct (cpu_insert_loop_spec sf (bit_mask (allocate_if_null c)) es k v
    (match upd with HASH_OVERWRITE_PREV_ENTRY => true | _ => false end) fuel)
    as (es' & sc & st & -> & Hwf' & Hres); [done|done|lia|lia|].
  cbn [mbind outcome_bind centries bit_mask cgrowing]. rewrite Hg.
  assert (Hl : length es' = length es).
  { pose proof (sw_len _ _ _ Hwf). pose proof (sw_len _ _ _ Hwf'). lia. }
  assert (Hmap : forall es2, view es2 = view es' ->
    view es2 = spec_store (view es) k v upd /\
    match st with HASH_ENTRY_SKIPPED => false | _ => true end = spec_stored (view es) k upd).
  { intros es2 ->. unfold spec_store, spec_stored. destruct (view es !! k) eqn:Hvk; [|destruct upd].
    - destruct Hres as [_ Hres]. destruct upd; [by destruct Hres as [-> ?]|].
      destruct Hres as [-> ->]. by rewrite decide_True by eauto.
    - by destruct Hres as (-> & ? & _).
    - destruct Hres as (-> & ? & _). rewrite decide_False by (intros [? ?]; done). done. }
  destruct (_ <? sc); cbn [andb negb].
  - destruct (cpu_grow_spec fuel sf es' (bit_mask (allocate_if_null c)) true)
      as (es2 & -> & Hwf2 & Hv2 & _); [done|done|lia|]. cbn [mbind outcome_bind bit_mask centries].
    destruct (Hmap es2 Hv2) as [H H0]. eexists _, (match st with HASH_ENTRY_SKIPPED => false | _ => true end), (sf + 1).
    split; [destruct st; done|]. split; [split; [done|]; by exists es2|]. split; [lia|]. split; [exact H|exact H0].
  - cbn [mbind outcome_bind]. destruct (Hmap es' eq_refl) as [H H0]. eexists _, (match st with HASH_ENTRY_SKIPPED => false | _ => true end), sf.
    split; [destruct st; done|]. split; [split; [done|]; by exists es'|]. split; [lia|]. split; [exact H|exact H0].
Qed.

Lemma fresh_cache_wf : cpu_wf 7 (allocate_if_null empty_cache).
Proof.
  split; [done|]. eexists; split; [reflexivity|]. cbn [bit_mask allocate_if_null centries empty_cache].
  change MIN_DEFAULT_ENTRIES with (2 ^ 7). rewrite allocate_entries_pow2 by lia.
  apply (new_slots_wf 7). lia.
Qed.

(** A slot array in which every entry is in its home slot. *)
Definition all_home (es : list (Z * Z)) : bool :=
  forallb (fun ie => Nat.eqb (home (V := Z) (length es) ie.2.1) ie.1) (zip (seq 0 (length es)) es).

Lemma all_home_reachable es : (0 < length es)%nat -> all_home es = true -> reachable es.
Proof.
  intros Hpos Hall i k v Hi Hk. unfold all_home in Hall. rewrite List.forallb_forall in Hall.
  assert (Hh : home (V := Z) (length es) k = i).
  { apply Nat.eqb_eq, (Hall (i, (k, v))). apply list_elem_of_In, list_elem_of_lookup. exists i.
    apply lookup_zip_with_Some. exists i, (k, v).
    repeat split; [|done]. apply lookup_seq. split; [done|]. by eapply lookup_lt_Some. }
  exists 0%nat. split; [done|]. split; [|lia]. rewrite probe_0; [done|].
  rewrite Hh. by eapply lookup_lt_Some.
Qed.

(** On a full table without the key the scan of [insert] never stops. *)
Lemma cpu_insert_loop_full sf es k v upd fuel j base scan :
  slots_wf sf (2 ^ sf - 1) es ->
  (forall i e, es !! i = Some e -> e.1 <> 0 /\ e.1 <> k) ->
  Z.to_nat (Z.land base (2 ^ sf - 1)) = probe (length es) (home (V := Z) (length es) k) j ->
  CpuCache.insert_loop fuel es (2 ^ sf - 1) base scan k v upd = OutOfFuel.
Proof.
  intros Hwf Hfull. pose proof (slots_len_pos _ _ _ Hwf) as Hpos. pose proof Hwf as [Hsf _ Hlen _].
  revert j base scan. induction fuel as [|fuel IH]; intros j base scan Hb; [done|].
  cbn [CpuCache.insert_loop]. rewrite Hb.
  destruct (idx_lt es (probe (length es) (home (V := Z) (length es) k) j)) as ([k' v'] & -> & Hl); [by apply probe_lt|].
  cbn [mbind outcome_bind fst]. destruct (Hfull _ _ Hl) as [Hz Hne]. cbn [fst] in Hz, Hne.
  destruct (Z.eqb_spec 0 k'); [congruence|]. destruct (Z.eqb_spec k' k); [congruence|].
  apply (IH (S j)). apply base_step; [lia|done..].
Qed.

End cpu_lemmas.

(** ** Properties *)

(** A lookup in the CPU-private code cache always returns, within its
    eight probes, and never returns a wrong address: the result is null or
    what the cache maps the key to. *)
Theorem cpu_find_sound sf c k :
  CpuCache.cpu_wf sf c ->
  exists r, CpuCache.find c k = Ret r /\ (r = 0 \/ CpuCache.cpu_view c !! k = Some r).
Proof.
  intros (_ & es & He & Hwf). unfold CpuCache.find, CpuCache.cpu_view, CpuCache.slots. rewrite He.
  pose proof Hwf as [Hsf Hm Hlen _]. rewrite Hm in Hwf |- *.
  apply (cpu_find_loop_sound sf es k CpuCache.MAX_SCAN 0); [done|].
  apply cpu_base_home; [lia|done].
Qed.

Lemma cpu_find_sound_witness :
  exists r, CpuCache.find (CpuCache.allocate_if_null CpuCache.empty_cache) 5 = Ret r /\
    (r = 0 \/ CpuCache.cpu_view (CpuCache.allocate_if_null CpuCache.empty_cache) !! 5 = Some r).
Proof. apply (cpu_find_sound 7). apply fresh_cache_wf. Defined.

(** While a slot is free, a store to the CPU-private code cache returns,
    keeps the table well-formed (growing it at most once), and updates the
    map as the store policy says; the fuel is twice the number of slots. *)
Theorem cpu_store_refines_map fuel sf c k v upd :
  CpuCache.cpu_wf sf (CpuCache.allocate_if_null c) -> sf < 27 ->
  (0 < CpuCache.num_free (CpuCache.allocate_if_null c))%nat -> k <> 0 ->
  (2 * length (CpuCache.slots (CpuCache.allocate_if_null c)) <= fuel)%nat ->
  exists c' b sf', CpuCache.store fuel c k v upd = Ret (c', b) /\ CpuCache.cpu_wf sf' c' /\
    sf <= sf' <= sf + 1 /\
    CpuCache.cpu_view c' = spec_store (CpuCache.cpu_view (CpuCache.allocate_if_null c)) k v upd /\
    b = spec_stored (CpuCache.cpu_view (CpuCache.allocate_if_null c)) k upd.
Proof. apply cpu_store_spec. Qed.

Lemma cpu_store_refines_map_witness :
  exists c' b sf', CpuCache.store 256 CpuCache.empty_cache 5 9 HASH_OVERWRITE_PREV_ENTRY = Ret (c', b) /\
    CpuCache.cpu_wf sf' c' /\ b = true.
Proof.
  destruct (cpu_store_refines_map 256 7 CpuCache.empty_cache 5 9 HASH_OVERWRITE_PREV_ENTRY)
    as (c' & b & sf' & ? & ? & _ & _ & ->).
  - apply fresh_cache_wf.
  - reflexivity.
  - vm_compute. lia.
  - discriminate.
  - vm_compute. lia.
  - eauto 6.
Defined.

(** The table grows only when a scan is longer than [MAX_SCAN], never
    because it is full: a store of a new key into a table without a free slot
    runs for ever, whatever the fuel.  (The witness reaches such a table from
    the empty cache with 128 stores.) *)
Theorem cpu_store_full_diverges sf c k v upd fuel :
  CpuCache.cpu_wf sf c ->
  (forall i e, CpuCache.slots c !! i = Some e -> e.1 <> 0 /\ e.1 <> k) ->
  CpuCache.store fuel c k v upd = OutOfFuel.
Proof.
  intros (_ & es & He & Hwf) Hfull. unfold CpuCache.slots in Hfull. rewrite He in Hfull.
  unfold CpuCache.store, CpuCache.allocate_if_null. rewrite He.
  unfold CpuCache.insert, CpuCache.insert_with. rewrite He.
  pose proof Hwf as [Hsf Hm Hlen _]. rewrite Hm in Hwf |- *.
  rewrite (cpu_insert_loop_full sf es k v _ fuel 0); [done|done|done|].
  apply cpu_base_home; [lia|done].
Qed.

(** 128 keys with the home slots 0 to 127, and the cache that holds them. *)
Definition full_keys : list Z := map (fun i => CpuCache.unmix64 (Z.of_nat i + 128)) (seq 0 128).
Definition full_cache : CpuCache.cpu_private_code_cache :=
  {| CpuCache.bit_mask := 127; CpuCache.centries := Some (map (fun k => (k, k + 1)) full_keys);
     CpuCache.cgrowing := false |}.

Lemma cpu_store_full_diverges_witness :
  CpuCache.store_all 256 CpuCache.empty_cache full_keys = Ret full_cache /\
  CpuCache.store 4096 full_cache (CpuCache.unmix64 256) 1 HASH_OVERWRITE_PREV_ENTRY = OutOfFuel.
Proof.
  split; [vm_compute; reflexivity|]. apply (cpu_store_full_diverges 7).
  - split; [reflexivity|]. eexists; split; [reflexivity|].
    split; [lia|reflexivity|reflexivity|]. apply all_home_reachable; [vm_compute; lia|vm_compute; reflexivity].
  - intros i e Hi.
    assert (Hc : forallb (fun e : Z * Z => negb (e.1 =? 0) && negb (e.1 =? CpuCache.unmix64 256))
      (CpuCache.slots full_cache) = true) by (vm_compute; reflexivity).
    rewrite List.forallb_forall in Hc. specialize (Hc e).
    assert (Hin : In e (CpuCache.slots full_cache)) by (apply list_elem_of_In, list_elem_of_lookup; eauto).
    apply Hc in Hin. apply andb_prop in Hin as [H1 H2].
    apply negb_true_iff, Z.eqb_neq in H1. apply negb_true_iff, Z.eqb_neq in H2. done.
Defined.

(** A key that is stored at the ninth slot of its probe sequence is lost:
    the scan of the insertion is not longer than [MAX_SCAN], so the table
    does not grow, and a lookup stops after eight slots.  Nine keys with the
    same home slot are stored in the empty cache; the last one is not found
    although its store reported success. *)
Theorem cpu_ninth_key_lost :
  let keys := map (fun i => CpuCache.unmix64 (Z.of_nat i * 128 + 5)) (seq 1 9) in
  exists c, CpuCache.store_all 256 CpuCache.empty_cache keys = Ret c /\
    CpuCache.cpu_view c !! CpuCache.unmix64 (9 * 128 + 5) = Some (CpuCache.unmix64 (9 * 128 + 5) + 1) /\
    CpuCache.find c (CpuCache.unmix64 (9 * 128 + 5)) = Ret 0 /\
    CpuCache.find c (CpuCache.unmix64 (8 * 128 + 5)) = Ret (CpuCache.unmix64 (8 * 128 + 5) + 1).
Proof. eexists. split; [vm_compute; reflexivity|]. repeat split; vm_compute; reflexivity. Qed.
