(* ===== verification/Detach.v ===== *)
(** * Detach points ([granary/detach.h], [granary/detach.cc])

    Two tables, one per context, map functions that must not be instrumented
    to the address to run instead.  [FUNCTION_WRAPPERS] comes from generated
    code, [is_host_address] from the kernel module and [granary_fault] from
    assembly: they are parameters. *)

From Stdlib Require Import ZArith Lia.
From stdpp Require Import base numbers list option gmap.
From S2P Require Import Prelude Policy HashTable CpuCodeCache.
Import CpuCache.

Record function_wrapper := {
  original_address : Z;
  app_wrapper_address : Z;
  host_wrapper_address : Z
}.

(** [DETACH_HASH_TABLE], indexed by the context. *)
Record detach_tables := { app_detach : cpu_private_code_cache; host_detach : cpu_private_code_cache }.

Definition detach_table (d : detach_tables) (context : runtime_context) : cpu_private_code_cache :=
  match context with RUNNING_AS_APP => app_detach d | RUNNING_AS_HOST => host_detach d end.

Definition set_detach_table (d : detach_tables) (context : runtime_context)
    (c : cpu_private_code_cache) : detach_tables :=
  match context with
  | RUNNING_AS_APP => {| app_detach := c; host_detach := host_detach d |}
  | RUNNING_AS_HOST => {| app_detach := app_detach d; host_detach := c |}
  end.

(** Fuel for one store: every slot of the table and of its double. *)
Definition store_fuel (c : cpu_private_code_cache) : nat := (2 * length (slots (allocate_if_null c)))%nat.

Definition add_detach_target (detach_addr redirect_addr : Z) (context : runtime_context)
    (d : detach_tables) : outcome detach_tables :=
  let c := detach_table d context in
  r ← store (store_fuel c) c detach_addr redirect_addr HASH_OVERWRITE_PREV_ENTRY;
  Ret (set_detach_table d context r.1).

(** The static initialiser: the wrappers of both contexts are added. *)
Definition init_wrapper (d : outcome detach_tables) (wrapper : function_wrapper) : outcome detach_tables :=
  d ← d;
  if original_address wrapper =? 0 then Ret d
  else
    d ← (if app_wrapper_address wrapper =? 0 then Ret d
         else add_detach_target (original_address wrapper) (app_wrapper_address wrapper) RUNNING_AS_APP d);
    if host_wrapper_address wrapper =? 0 then Ret d
    else add_detach_target (original_address wrapper) (host_wrapper_address wrapper) RUNNING_AS_HOST d.

Definition detach_init (FUNCTION_WRAPPERS : list function_wrapper) : outcome detach_tables :=
  foldl init_wrapper (Ret {| app_detach := empty_cache; host_detach := empty_cache |}) FUNCTION_WRAPPERS.

Section FindDetachTarget.
Context `{Config} (is_host_address : Z -> bool) (granary_fault : Z).

Definition find_detach_target (d : detach_tables) (detach_addr : Z) (context : runtime_context) : outcome Z :=
  if env_kernel && match context with RUNNING_AS_APP => negb (is_host_address detach_addr) | _ => false end
  then Ret 0
  else
    r ← load (detach_table d context) detach_addr;
    let redirect_addr := r.2 in
    if (r.1 : bool) then
      ASSERT (negb (granary_fault =? redirect_addr)) ≫= fun _ => Ret redirect_addr
    else Ret 0.

(** Both tables are well-formed, or not yet allocated. *)
Definition detach_ok (d : detach_tables) : Prop :=
  forall context, exists sf, cpu_wf sf (allocate_if_null (detach_table d context)).

(** What a table stands for: an unallocated one has no entries. *)
Definition detach_view (d : detach_tables) (context : runtime_context) : gmap Z Z :=
  cpu_view (detach_table d context).

End FindDetachTarget.

(** ** Lemmas *)
Lemma cpu_load_sound sf c k :
  cpu_wf sf (allocate_if_null c) ->
  exists r, load c k = Ret (negb (0 =? r), r) /\ (r = 0 \/ cpu_view c !! k = Some r).
Proof.
  intros Hwf. unfold load. destruct (centries c) as [es|] eqn:He.
  - destruct Hwf as (_ & es' & He' & Hwf). unfold allocate_if_null in *. rewrite He in *.
    injection (eq_trans (eq_sym He) He') as <-.
    unfold find, cpu_view, slots. rewrite He. cbn [default from_option]. unfold id.
    pose proof Hwf as [Hsf Hm Hlen _]. rewrite Hm in Hwf |- *.
    destruct (cpu_find_loop_sound sf es k MAX_SCAN 0 (fmix k)) as (r & -> & Hr); [done| |by exists r].
    apply cpu_base_home; [lia|done].
  - exists 0. unfold find. rewrite He. auto.
Qed.

(** ** Properties *)

(** [find_detach_target] on well-formed tables either returns null, or an
    address that was registered for this function and this context, or stops
    on the assertion because the function was registered as an error; in the
    kernel, code that runs as an app never detaches from a non-host address. *)
Theorem find_detach_target_sound `{Config} is_host_address granary_fault d addr context :
  detach_ok d ->
  (exists r, find_detach_target is_host_address granary_fault d addr context = Ret r /\
     (r = 0 \/ (detach_view d context !! addr = Some r /\ r <> granary_fault /\
        (env_kernel = true -> context = RUNNING_AS_APP -> is_host_address addr = true)))) \/
  (find_detach_target is_host_address granary_fault d addr context = Fault /\
     detach_view d context !! addr = Some granary_fault).
Proof.
  intros Hok. unfold find_detach_target, detach_view. destruct (Hok context) as [sf Hwf].
  destruct (cpu_load_sound sf _ addr Hwf) as (r & Hl & Hr).
  destruct (env_kernel && _) eqn:Hguard; [left; exists 0; auto|].
  rewrite Hl. cbn [mbind outcome_bind].
  cbn [fst snd]. destruct (Z.eqb_spec 0 r) as [E0|Hnz]; cbn [negb]; [left; exists 0; auto|].
  destruct Hr as [Hr|Hr]; [congruence|].
  destruct (Z.eqb_spec granary_fault r) as [E|Hnf]; cbn [negb ASSERT mbind outcome_bind].
  { right. by rewrite E. }
  left. exists r. split; [done|]. right. repeat split; [done|congruence|]. intros Hk ->.
  rewrite Hk in Hguard. cbn in Hguard. by destruct (is_host_address addr).
Qed.

Lemma find_detach_target_sound_witness :
  exists d, add_detach_target 0x1000 0x2000 RUNNING_AS_HOST
      {| app_detach := empty_cache; host_detach := empty_cache |} = Ret d /\
    find_detach_target (H := kernel_config) (fun _ => true) 0x9000 d 0x1000 RUNNING_AS_HOST = Ret 0x2000 /\
    ((exists r, find_detach_target (H := kernel_config) (fun _ => true) 0x9000
        {| app_detach := empty_cache; host_detach := empty_cache |} 0x1000 RUNNING_AS_HOST = Ret r /\
     (r = 0 \/ (detach_view {| app_detach := empty_cache; host_detach := empty_cache |} RUNNING_AS_HOST !! 0x1000 = Some r
        /\ r <> 0x9000 /\ (true = true -> RUNNING_AS_HOST = RUNNING_AS_APP -> true = true)))) \/
     (find_detach_target (H := kernel_config) (fun _ => true) 0x9000
        {| app_detach := empty_cache; host_detach := empty_cache |} 0x1000 RUNNING_AS_HOST = Fault /\
      detach_view {| app_detach := empty_cache; host_detach := empty_cache |} RUNNING_AS_HOST !! 0x1000 = Some 0x9000)).
Proof.
  eexists. split; [vm_compute; reflexivity|]. split; [vm_compute; reflexivity|].
  apply (@find_detach_target_sound kernel_config (fun _ => true) 0x9000).
  intros []; exists 7; apply fresh_cache_wf.
Defined.
