(* ===== verification/CodeCache.v ===== *)
(** * The code cache ([granary/code_cache.h], [granary/code_cache.cc])

    The globally shared table from policy-mangled addresses to translated
    code, and the lookup that translates on a miss.  The table is used through
    the [LookupTable] interface; the address classifiers, the detach lookup,
    the basic-block translator and the generator of exit stubs are the
    operations of the class [CodeCacheEnv].  Each access to the table holds
    its lock for its whole duration, so that accesses are atomic; what other
    CPUs do to the table while a block is being translated is part of what
    [translate] may do to it. *)

From Stdlib Require Import ZArith Lia.
From stdpp Require Import base numbers list option gmap.
From S2P Require Import Prelude Policy HashTable.
Import MangledAddress.

(** The components the code cache calls.  [W] is their state. *)
Class CodeCacheEnv (T W : Type) := {
  is_code_cache_address : Z -> bool;
  is_wrapper_address : Z -> bool;
  is_gencode_address : Z -> bool;
  is_host_address : Z -> bool;
  find_detach_target : Z -> runtime_context -> outcome Z;
  (** The table and the state afterwards, the address of the block and the
      number of blocks that were translated. *)
  translate : T -> W -> instrumentation_policy -> Z -> outcome (T * W * Z * Z);
  ibl_exit_routine : W -> Z -> Z -> W * Z
}.

(** The effects of a lookup on locks, allocators and the client. *)
Inductive cc_event :=
  | lock_coarse | unlock_coarse | ibl_lock | ibl_unlock
  | commit_to_basic_block (block : Z)
  (** [discard_basic_block], [remove_basic_block_info] and the three
      [free_last]. *)
  | discard_basic_block (block : Z).

Section CodeCache.
Context `{Config} {T W : Type} `{!LookupTable T, !CodeCacheEnv T W}.

Record cc_state := { CODE_CACHE : T; world : W; events : list cc_event }.

Definition with_cache (st : cc_state) (t : T) : cc_state :=
  {| CODE_CACHE := t; world := world st; events := events st |}.
Definition emit (st : cc_state) (e : cc_event) : cc_state :=
  {| CODE_CACHE := CODE_CACHE st; world := world st; events := events st ++ [e] |}.

(** [code_cache::add]. *)
Definition add (st : cc_state) (source dest : Z) : outcome cc_state :=
  r ← lt_store (CODE_CACHE st) source dest HASH_OVERWRITE_PREV_ENTRY;
  Ret (with_cache st r.1).

(** [code_cache::lookup]. *)
Definition lookup (st : cc_state) (addr : Z) : outcome Z :=
  r ← lt_load (CODE_CACHE st) addr; Ret r.2.

(** The policy after the conversion to the context of the target. *)
Definition converted_policy (addr : Z) : instrumentation_policy :=
  in_host_context (IF_USER_ELSE false (is_host_address (unmangled_address addr))) (policy_of addr).

(** [base_addr]. *)
Definition base_address (addr : Z) : Z :=
  mangled_address (unmangled_address addr) (base_policy (converted_policy addr)).

(** From the miss up to the translation: the target, or null. *)
Definition resolve (st : cc_state) (addr : Z) : outcome Z :=
  let app_target_addr := unmangled_address addr in
  let policy_was_in_host_context := is_in_host_context (policy_of addr) in
  let policy := converted_policy addr in
  let target_addr :=
    if is_code_cache_address app_target_addr || is_wrapper_address app_target_addr
       || is_gencode_address app_target_addr
    then app_target_addr else 0 in
  target_addr ← (if (target_addr =? 0) && negb (base_address addr =? addr) then
                   r ← lt_load (CODE_CACHE st) (base_address addr); Ret r.2
                 else Ret target_addr);
  if (target_addr =? 0) && can_detach policy then
    target_addr ← find_detach_target app_target_addr (context policy);
    if negb instrument_host && (target_addr =? 0) && negb policy_was_in_host_context
       && is_in_host_context policy
    then Ret app_target_addr else Ret target_addr
  else Ret target_addr.

(** Translation of the target and publication of the block. *)
Definition translate_and_publish (st : cc_state) (addr : Z) : outcome (cc_state * Z) :=
  let base_addr := base_address addr in
  r ← translate (CODE_CACHE st) (world st) (base_policy (converted_policy addr)) (unmangled_address addr);
  let '(t, w, target_addr, num_translated_bbs) := r in
  let st := {| CODE_CACHE := t; world := w; events := events st |} in
  if 1 =? num_translated_bbs then
    r ← lt_store (CODE_CACHE st) base_addr target_addr HASH_KEEP_PREV_ENTRY;
    let st := with_cache st r.1 in
    if (r.2 : bool) then Ret (emit st (commit_to_basic_block target_addr), target_addr)
    else
      let st := emit st (discard_basic_block target_addr) in
      r ← lt_load (CODE_CACHE st) base_addr;
      ASSERT (negb (r.2 =? 0)) ≫= fun _ => Ret (st, r.2)
  else
    r ← lt_store (CODE_CACHE st) base_addr target_addr HASH_OVERWRITE_PREV_ENTRY;
    Ret (emit (with_cache st r.1) (commit_to_basic_block target_addr), target_addr).

(** The exit stub of an indirect branch or a return. *)
Definition publish_exit (st : cc_state) (addr target_addr : Z) : outcome (cc_state * Z) :=
  let policy := converted_policy addr in
  if is_indirect_cti_target policy || is_return_target policy then
    let st := emit st ibl_lock in
    let '(w, target_addr) := ibl_exit_routine (world st) addr target_addr in
    let st := {| CODE_CACHE := CODE_CACHE st; world := w; events := events st |} in
    r ← lt_store (CODE_CACHE st) addr target_addr HASH_KEEP_PREV_ENTRY;
    let st := with_cache st r.1 in
    target_addr ← (if (r.2 : bool) then Ret target_addr
                   else r ← lt_load (CODE_CACHE st) addr; Ret r.2);
    Ret (emit st ibl_unlock, target_addr)
  else Ret (st, target_addr).

(** [code_cache::find]. *)
Definition find (st : cc_state) (addr : Z) : outcome (cc_state * Z) :=
  r ← lt_load (CODE_CACHE st) addr;
  if (r.1 : bool) then Ret (st, r.2)
  else
    target_addr ← resolve st addr;
    let st := emit st lock_coarse in
    sr ← (if target_addr =? 0 then translate_and_publish st addr else Ret (st, target_addr));
    let '(st, target_addr) := sr in
    publish_exit (emit st unlock_coarse) addr target_addr.

(** ** What the environment must satisfy *)

(** No address is mapped to null. *)
Definition no_null (m : gmap Z Z) : Prop := forall k v, m !! k = Some v -> v <> 0.

(** A key under which translation publishes blocks. *)
Definition canonical_key (k : Z) : Prop := base_address k = k.

Class EnvLaws : Prop := {
  (** The translator returns a block for every address; the table stays well
      formed with room for two more stores, and changes at canonical keys
      only, at which the blocks of a trace are added. *)
  translate_law : forall t w p a, lt_ok t -> lt_room 3 t -> no_null (lt_map t) ->
    exists t' w' b n, translate t w p a = Ret (t', w', b, n) /\ b <> 0 /\ lt_ok t' /\ lt_room 2 t' /\
      no_null (lt_map t') /\
      (forall k, ~ canonical_key k -> lt_map t' !! k = lt_map t !! k);
  (** Exit stubs have an address. *)
  ibl_law : forall w a t, (ibl_exit_routine w a t).2 <> 0
}.

Record cc_ok (st : cc_state) : Prop := {
  cc_table : lt_ok (CODE_CACHE st);
  cc_room : lt_room 3 (CODE_CACHE st);
  cc_no_null : no_null (lt_map (CODE_CACHE st))
}.

End CodeCache.

Arguments cc_state : clear implicits.

(** ** Lemmas *)
Section cc_lemmas.
Context `{Config} {T W : Type} `{!LookupTable T, !CodeCacheEnv T W, !EnvLaws (T := T) (W := W)}.
Implicit Types (st : cc_state T W) (t : T).

Lemma load_present t k :
  lt_ok t -> no_null (lt_map t) -> k <> 0 ->
  lt_load t k = Ret (bool_decide (is_Some (lt_map t !! k)), default 0 (lt_map t !! k)).
Proof.
  intros Hok Hnn Hk. rewrite lt_load_spec by done. f_equal. f_equal.
  destruct (lt_map t !! k) as [v|] eqn:E; cbn; [|done].
  rewrite bool_decide_eq_false_2; [done|]. apply Hnn in E. congruence.
Qed.

Lemma spec_store_no_null m k v upd : no_null m -> v <> 0 -> no_null (spec_store m k v upd).
Proof.
  intros Hm Hv k' v'. assert (Hi : no_null (<[k := v]> m)).
  { intros k1 v1. rewrite lookup_insert. case_decide; [by intros [= <-]|apply Hm]. }
  unfold spec_store. destruct upd; [apply Hi|]. case_decide; [apply Hm|apply Hi].
Qed.

(** A keep-store publishes the value, or finds the one that is there. *)
Lemma store_keep n t k v :
  lt_ok t -> lt_room (S n) t -> no_null (lt_map t) -> k <> 0 -> v <> 0 ->
  exists t' b, lt_store t k v HASH_KEEP_PREV_ENTRY = Ret (t', b) /\ lt_ok t' /\ lt_room n t' /\
    no_null (lt_map t') /\
    lt_map t' = (match lt_map t !! k with Some _ => lt_map t | None => <[k := v]> (lt_map t) end) /\
    b = bool_decide (lt_map t !! k = None).
Proof.
  intros Hok Hroom Hnn Hk Hv.
  destruct (lt_store_spec n t k v HASH_KEEP_PREV_ENTRY Hok Hroom Hk) as (t' & b & Hs & Hok' & Hroom' & Hm & Hb).
  exists t', b. repeat split; try done.
  - rewrite Hm. by apply spec_store_no_null.
  - rewrite Hm. unfold spec_store. destruct (lt_map t !! k) eqn:E.
    + by rewrite decide_True by eauto.
    + by rewrite decide_False by (intros [? ?]; done).
Qed.

(** What becomes of the block [new] when [n] blocks were translated and the
    table then holds [old] for the base address: [blk] is the block that the
    table has afterwards. *)
Definition decided (n : Z) (old : option Z) (new blk : Z) (ev : cc_event) : Prop :=
  (n = 1 -> old = None -> blk = new /\ ev = commit_to_basic_block new) /\
  (forall v, n = 1 -> old = Some v -> blk = v /\ ev = discard_basic_block new) /\
  (n <> 1 -> blk = new /\ ev = commit_to_basic_block new).

(** What the translation step publishes. *)
Lemma translate_and_publish_spec st addr :
  cc_ok st -> base_address addr <> 0 ->
  exists st' tgt ev, translate_and_publish st addr = Ret (st', tgt) /\
    lt_ok (CODE_CACHE st') /\ lt_room 1 (CODE_CACHE st') /\ no_null (lt_map (CODE_CACHE st')) /\
    lt_map (CODE_CACHE st') !! base_address addr = Some tgt /\ tgt <> 0 /\
    events st' = events st ++ [ev] /\
    (exists t w new n, translate (CODE_CACHE st) (world st) (base_policy (converted_policy addr)) (unmangled_address addr) =
       Ret (t, w, new, n) /\ decided n (lt_map t !! base_address addr) new tgt ev) /\
    (forall k, k <> base_address addr -> ~ canonical_key k ->
       lt_map (CODE_CACHE st') !! k = lt_map (CODE_CACHE st) !! k).
Proof.
  intros [Hok Hroom Hnn] Hb. unfold translate_and_publish.
  destruct (translate_law (CODE_CACHE st) (world st) (base_policy (converted_policy addr))
    (unmangled_address addr)) as (t1 & w1 & blk & n & Et & Hblk & Hok1 & Hroom1 & Hnn1 & Hcan); [done..|]. rewrite Et.
  cbn [mbind outcome_bind CODE_CACHE]. destruct (Z.eqb_spec 1 n).
  - destruct (store_keep 1 t1 (base_address addr) blk) as (t2 & b & -> & Hok2 & Hroom2 & Hnn2 & Hm2 & ->); try done.
    cbn [mbind outcome_bind fst snd]. destruct (lt_map t1 !! base_address addr) as [v|] eqn:E.
    + rewrite bool_decide_eq_false_2 by done. cbn [emit with_cache CODE_CACHE].
      rewrite load_present, Hm2, E by done. cbn [mbind outcome_bind snd default from_option]. unfold id.
      pose proof (Hnn1 _ _ E) as Hv. destruct (Z.eqb_spec v 0); [done|]. cbn [negb ASSERT mbind outcome_bind].
      eexists _, _, _. split; [done|]. cbn [emit with_cache CODE_CACHE events fst]. do 3 (split; [done|]).
      rewrite Hm2, E. do 3 (split; [done|]). split; [|auto].
      exists t1, w1, blk, n. split; [done|]. rewrite E. split; [done|]. split; [|done]. by intros v' _ [= <-].
    + rewrite bool_decide_eq_true_2 by done. eexists _, _, _. split; [done|].
      cbn [emit with_cache CODE_CACHE events fst]. do 3 (split; [done|]).
      rewrite Hm2, lookup_insert_eq. do 3 (split; [done|]). split.
      { exists t1, w1, blk, n. split; [done|]. rewrite E. split; [done|]. split; [congruence|done]. }
      intros k Hk Hc. rewrite lookup_insert_ne by done. auto.
  - destruct (lt_store_spec 1 t1 (base_address addr) blk HASH_OVERWRITE_PREV_ENTRY)
      as (t2 & b & -> & Hok2 & Hroom2 & Hm2 & _); [done..|]. cbn [mbind outcome_bind fst].
    eexists _, _, _. split; [done|]. cbn [emit with_cache CODE_CACHE events fst] in *.
    do 2 (split; [done|]). rewrite Hm2. cbn [spec_store].
    split; [by apply (spec_store_no_null _ _ _ HASH_OVERWRITE_PREV_ENTRY)|].
    rewrite lookup_insert_eq. do 3 (split; [done|]). split.
    { exists t1, w1, blk, n. split; [done|]. split; [congruence|]. split; [congruence|done]. }
    intros k Hk Hc. rewrite lookup_insert_ne by done. auto.
Qed.

(** An indirect or return target publishes its exit under the full address. *)
Lemma publish_exit_spec n st addr tgt :
  lt_ok (CODE_CACHE st) -> lt_room (S n) (CODE_CACHE st) -> no_null (lt_map (CODE_CACHE st)) -> addr <> 0 ->
  exists st' tgt', publish_exit st addr tgt = Ret (st', tgt') /\ lt_ok (CODE_CACHE st') /\
    no_null (lt_map (CODE_CACHE st')) /\
    (forall k v, lt_map (CODE_CACHE st) !! k = Some v -> lt_map (CODE_CACHE st') !! k = Some v) /\
    if is_indirect_cti_target (converted_policy addr) || is_return_target (converted_policy addr)
    then lt_map (CODE_CACHE st') !! addr = Some tgt' /\
      events st' = events st ++ [ibl_lock; ibl_unlock]
    else st' = st /\ tgt' = tgt.
Proof.
  intros Hok Hroom Hnn Ha. unfold publish_exit. destruct (_ || _); [|by eexists _, _].
  pose proof (ibl_law (world (emit st ibl_lock)) addr tgt) as Hx.
  destruct (ibl_exit_routine _ addr tgt) as [w x]. cbn [snd] in Hx.
  destruct (store_keep n (CODE_CACHE st) addr x) as (t2 & b & Hs & Hok2 & _ & Hnn2 & Hm2 & ->); try done.
  cbn [emit CODE_CACHE]. rewrite Hs. cbn [mbind outcome_bind fst snd with_cache CODE_CACHE].
  destruct (lt_map (CODE_CACHE st) !! addr) as [v|] eqn:E.
  - rewrite bool_decide_eq_false_2, load_present, Hm2, E by done. cbn [mbind outcome_bind snd default from_option].
    unfold id. eexists _, _. split; [done|]. cbn [emit with_cache CODE_CACHE events fst]. do 2 (split; [done|]).
    rewrite Hm2. split; [done|]. by rewrite E, <- app_assoc.
  - rewrite bool_decide_eq_true_2 by done. cbn [mbind outcome_bind]. eexists _, _. split; [done|].
    cbn [emit with_cache CODE_CACHE events fst]. do 2 (split; [done|]). rewrite Hm2.
    split; [|by rewrite lookup_insert_eq, <- app_assoc].
    intros k v Hk. rewrite lookup_insert_ne; [done|]. congruence.
Qed.

(** [resolve] depends on the state only through the binding of the base
    address. *)
Lemma resolve_cong st st' addr :
  lt_load (CODE_CACHE st') (base_address addr) = lt_load (CODE_CACHE st) (base_address addr) ->
  resolve st' addr = resolve st addr.
Proof. intros E. unfold resolve. by rewrite E. Qed.

Lemma resolve_returns st addr r :
  lt_ok (CODE_CACHE st) -> no_null (lt_map (CODE_CACHE st)) -> base_address addr <> 0 ->
  find_detach_target (unmangled_address addr) (context (converted_policy addr)) = Ret r ->
  exists tgt, resolve st addr = Ret tgt.
Proof.
  intros Hok Hnn Hb Hd. unfold resolve. rewrite load_present by done.
  repeat (cbn [mbind outcome_bind]; match goal with
    | |- context [if ?b then _ else _] => destruct b
    end; rewrite ?Hd); cbn [mbind outcome_bind]; eauto.
Qed.

(** After a miss, publishing the base address makes [resolve] find it. *)
Lemma resolve_published st st' addr tgt :
  resolve st addr = Ret 0 -> base_address addr <> addr -> base_address addr <> 0 ->
  lt_ok (CODE_CACHE st') -> no_null (lt_map (CODE_CACHE st')) ->
  lt_map (CODE_CACHE st') !! base_address addr = Some tgt -> resolve st' addr = Ret tgt.
Proof.
  intros Hres Hne Hb Hok Hnn Hm. pose proof (Hnn _ _ Hm) as Ht. unfold resolve in *.
  rewrite load_present, Hm by done. cbn [mbind outcome_bind snd default from_option]. unfold id.
  destruct (_ || _ || _) eqn:Hreg; destruct (Z.eqb_spec (base_address addr) addr); try done; cbn [negb andb].
  - destruct (Z.eqb_spec (unmangled_address addr) 0) as [|Hz]; cbn [andb mbind outcome_bind].
    + destruct (Z.eqb_spec tgt 0); done.
    + exfalso. destruct (Z.eqb_spec (unmangled_address addr) 0); [done|].
      cbn [andb mbind outcome_bind] in Hres. destruct (Z.eqb_spec (unmangled_address addr) 0); [done|].
      cbn [andb] in Hres. congruence.
  - change (0 =? 0) with true. cbn [andb mbind outcome_bind]. destruct (Z.eqb_spec tgt 0); done.
Qed.

(** A lookup that misses but resolves without translating, for a direct
    branch. *)
Lemma find_resolved st addr v r :
  lt_load (CODE_CACHE st) addr = Ret (false, v) -> resolve st addr = Ret r -> r <> 0 ->
  is_indirect_cti_target (converted_policy addr) || is_return_target (converted_policy addr) = false ->
  find st addr = Ret (emit (emit st lock_coarse) unlock_coarse, r).
Proof.
  intros Hl Hr Hnz Hind. unfold find. rewrite Hl. cbn [mbind outcome_bind fst]. rewrite Hr.
  cbn [mbind outcome_bind]. destruct (Z.eqb_spec r 0); [done|]. cbn [mbind outcome_bind].
  unfold publish_exit. by rewrite Hind.
Qed.

Lemma find_hit st addr v :
  lt_ok (CODE_CACHE st) -> no_null (lt_map (CODE_CACHE st)) -> addr <> 0 ->
  lt_map (CODE_CACHE st) !! addr = Some v -> find st addr = Ret (st, v).
Proof.
  intros Hok Hnn Ha Hm. unfold find. rewrite load_present, Hm by done.
  cbn [mbind outcome_bind fst snd]. by rewrite bool_decide_eq_true_2.
Qed.

(** What a lookup does on a miss that has to translate. *)
Lemma find_translates st addr :
  cc_ok st -> addr <> 0 -> base_address addr <> 0 ->
  lt_map (CODE_CACHE st) !! addr = None -> resolve st addr = Ret 0 ->
  exists st1 blk ev st' tgt, find st addr = Ret (st', tgt) /\
    translate_and_publish (emit st lock_coarse) addr = Ret (st1, blk) /\
    publish_exit (emit st1 unlock_coarse) addr blk = Ret (st', tgt) /\
    lt_ok (CODE_CACHE st1) /\ lt_room 1 (CODE_CACHE st1) /\ no_null (lt_map (CODE_CACHE st1)) /\
    lt_map (CODE_CACHE st1) !! base_address addr = Some blk /\ blk <> 0 /\
    events st1 = events st ++ [lock_coarse; ev] /\
    (exists t w new n, translate (CODE_CACHE st) (world st) (base_policy (converted_policy addr)) (unmangled_address addr) =
       Ret (t, w, new, n) /\ decided n (lt_map t !! base_address addr) new blk ev) /\
    (forall k, k <> base_address addr -> ~ canonical_key k ->
       lt_map (CODE_CACHE st1) !! k = lt_map (CODE_CACHE st) !! k).
Proof.
  intros Hok Ha Hb Hm Hres. pose proof Hok as [Ht Hroom Hnn].
  destruct (translate_and_publish_spec (emit st lock_coarse) addr)
    as (st1 & blk & ev & Htp & Hok1 & Hroom1 & Hnn1 & Hm1 & Hblk & Hev & Hevc & Hkeep); [by destruct Hok|done|].
  destruct (publish_exit_spec 0 (emit st1 unlock_coarse) addr blk) as (st' & tgt & Hpe & _); [done..|].
  exists st1, blk, ev, st', tgt. cbn [emit events CODE_CACHE] in Hev, Hkeep. rewrite <- app_assoc in Hev.
  split; [|by repeat split].
  unfold find. rewrite load_present, Hm by done. cbn [mbind outcome_bind fst].
  rewrite bool_decide_eq_false_2 by (intros [? ?]; done). rewrite Hres. cbn [mbind outcome_bind].
  cbn [Z.eqb]. rewrite Htp. cbn [mbind outcome_bind]. exact Hpe.
Qed.

End cc_lemmas.

Lemma find_repeatable `{Config} {T W} `{!LookupTable T, !CodeCacheEnv T W, !EnvLaws (T := T) (W := W)}
    (st : cc_state T W) addr r :
  cc_ok st -> addr <> 0 -> base_address addr <> 0 ->
  find_detach_target (unmangled_address addr) (context (converted_policy addr)) = Ret r ->
  exists st' tgt, find st addr = Ret (st', tgt) /\ tgt <> 0 /\
    exists st'', find st' addr = Ret (st'', tgt) /\
      CODE_CACHE st'' = CODE_CACHE st' /\ world st'' = world st'.
Proof.
  intros Hok Ha Hb Hd. pose proof Hok as [Ht Hroom Hnn].
  destruct (lt_map (CODE_CACHE st) !! addr) as [v|] eqn:Hm.
  { exists st, v. rewrite (find_hit st addr v) by done. repeat split; eauto. }
  destruct (resolve_returns st addr r) as [r0 Hres]; [done..|].
  assert (Hmiss : forall st' : cc_state T W, lt_ok (CODE_CACHE st') -> no_null (lt_map (CODE_CACHE st')) ->
    lt_map (CODE_CACHE st') !! addr = None -> lt_load (CODE_CACHE st') addr = Ret (false, 0)).
  { intros st' Hok' Hnn' Hm'. rewrite load_present, Hm' by done.
    by rewrite bool_decide_eq_false_2 by (intros [? ?]; done). }
  destruct (is_indirect_cti_target (converted_policy addr) || is_return_target (converted_policy addr)) eqn:Hind.
  - assert (Hex : exists st1 blk, find st addr = publish_exit (emit st1 unlock_coarse) addr blk /\
      lt_ok (CODE_CACHE st1) /\ (exists n, lt_room (S n) (CODE_CACHE st1)) /\ no_null (lt_map (CODE_CACHE st1))).
    { destruct (Z.eq_dec r0 0) as [->|Hr0].
      - destruct (find_translates st addr Hok Ha Hb Hm Hres) as (st1 & blk & ev & st' & tgt & -> & _ & <- & ? & ? & ? & _).
        exists st1, blk. repeat split; eauto.
      - exists (emit st lock_coarse), r0. split; [|repeat split; eauto].
        unfold find. rewrite (Hmiss st) by done. cbn [mbind outcome_bind fst]. rewrite Hres.
        cbn [mbind outcome_bind]. by destruct (Z.eqb_spec r0 0). }
    destruct Hex as (st1 & blk & -> & Hok1 & [n Hroom1] & Hnn1).
    destruct (publish_exit_spec n (emit st1 unlock_coarse) addr blk) as (st' & tgt & -> & Hok' & Hnn' & _ & Hpub); [done..|].
    rewrite Hind in Hpub. destruct Hpub as [Hm' _]. exists st', tgt. split; [done|].
    split; [by eapply Hnn'|]. exists st'. by rewrite (find_hit st' addr tgt).
  - destruct (Z.eq_dec r0 0) as [->|Hr0].
    + destruct (find_translates st addr Hok Ha Hb Hm Hres)
        as (st1 & blk & ev & st' & tgt & -> & _ & Hpe & Hok1 & _ & Hnn1 & Hm1 & Hblk & _ & _ & Hkeep).
      unfold publish_exit in Hpe. rewrite Hind in Hpe. injection Hpe as <- <-.
      exists (emit st1 unlock_coarse), blk. split; [done|]. split; [done|].
      destruct (Z.eq_dec (base_address addr) addr) as [Heq|Hne].
      * exists (emit st1 unlock_coarse). rewrite (find_hit _ addr blk); try done. cbn. congruence.
      * eexists. erewrite find_resolved; try done.
        -- apply Hmiss; [done..|]. cbn [emit CODE_CACHE]. rewrite Hkeep; [done|congruence|done].
        -- by apply (resolve_published st).
    + exists (emit (emit st lock_coarse) unlock_coarse), r0. erewrite find_resolved by eauto.
      split; [done|]. split; [done|]. eexists. erewrite find_resolved; try done; by apply Hmiss || done.
Qed.

(** ** Properties *)

(** C10 A code-cache lookup always returns an address, and asking again for
    the same mangled address returns the same address without translating or
    changing the cache: a block that was published, an exit stub, a detach
    target and an address that is already instrumented are all found again. *)
Theorem code_cache_find_repeatable `{Config} {T W} `{!LookupTable T, !CodeCacheEnv T W, !EnvLaws (T := T) (W := W)}
    (st : cc_state T W) addr r :
  cc_ok st -> addr <> 0 -> base_address addr <> 0 ->
  find_detach_target (unmangled_address addr) (context (converted_policy addr)) = Ret r ->
  exists st' tgt, find st addr = Ret (st', tgt) /\ tgt <> 0 /\
    exists st'', find st' addr = Ret (st'', tgt) /\
      CODE_CACHE st'' = CODE_CACHE st' /\ world st'' = world st'.
Proof. apply find_repeatable. Qed.

(** An environment for examples: every block is translated to one address. *)
#[export] Instance example_env : CodeCacheEnv (hash_table Z Z) unit := {|
  is_code_cache_address := fun _ => false;
  is_wrapper_address := fun _ => false;
  is_gencode_address := fun _ => false;
  is_host_address := fun a => 0xFFFFFFFF90000000 <=? a;
  find_detach_target := fun _ _ => Ret 0;
  translate := fun t w _ _ => Ret (t, w, 0x7000, 1);
  ibl_exit_routine := fun w _ _ => (w, 0x8000)
|}.

Lemma example_env_laws `{Config} : EnvLaws (T := hash_table Z Z) (W := unit).
Proof.
  split; [|done]. intros t w p a Hok Hroom Hnn. exists t, w, 0x7000, 1.
  split; [done|]. split; [done|]. split; [done|]. split; [cbn in *; lia|]. split; done.
Qed.

Definition example_state : cc_state (hash_table Z Z) unit :=
  {| CODE_CACHE := make; world := tt; events := [] |}.

Lemma example_state_ok : cc_ok example_state.
Proof.
  destruct (make_wf (K := Z) (V := Z)) as [Hwf Hv]; [cbn; lia|].
  split; [exact Hwf|cbn; lia|]. intros k v. cbn [lt_map hash_table_lookup CODE_CACHE example_state].
  rewrite Hv. by rewrite lookup_empty.
Qed.

Definition example_addr : Z := mangled_address 0xFFFFFFFF81000000 (indirect_cti_target true (from_id 1)).

Lemma code_cache_find_repeatable_witness :
  exists st' tgt, find (H := kernel_config) example_state example_addr = Ret (st', tgt) /\ tgt <> 0 /\
    exists st'', find (H := kernel_config) st' example_addr = Ret (st'', tgt) /\
      CODE_CACHE st'' = CODE_CACHE st' /\ world st'' = world st'.
Proof.
  pose proof (example_env_laws (H := kernel_config)) as Hl.
  apply (@code_cache_find_repeatable kernel_config _ _ _ _ Hl example_state example_addr 0).
  - apply example_state_ok.
  - vm_compute. discriminate.
  - vm_compute. discriminate.
  - reflexivity.
Defined.

(** C32 A lookup that has to translate commits the new block to the client,
    and maps the base address to it, if several blocks were translated or the
    cache has no block for the base address after the translation; if a
    single block was translated and the cache has one, the new block is
    discarded and the old one stays.  The lookup holds the allocator's lock
    from before the translation until after that decision, and the exit-stub
    lock only for indirect and return targets.  A direct branch gets the
    block that the cache then has. *)
Theorem code_cache_translate_commit `{Config} {T W} `{!LookupTable T, !CodeCacheEnv T W, !EnvLaws (T := T) (W := W)}
    (st : cc_state T W) addr :
  cc_ok st -> addr <> 0 -> base_address addr <> 0 ->
  lt_map (CODE_CACHE st) !! addr = None -> resolve st addr = Ret 0 ->
  let ind := is_indirect_cti_target (converted_policy addr) || is_return_target (converted_policy addr) in
  exists t w new n st' tgt blk ev,
    translate (CODE_CACHE st) (world st) (base_policy (converted_policy addr)) (unmangled_address addr) = Ret (t, w, new, n) /\
    find st addr = Ret (st', tgt) /\
    lt_map (CODE_CACHE st') !! base_address addr = Some blk /\
    events st' = events st ++ [lock_coarse; ev; unlock_coarse]
      ++ (if ind then [ibl_lock; ibl_unlock] else []) /\
    (n <> 1 \/ lt_map t !! base_address addr = None -> blk = new /\ ev = commit_to_basic_block new) /\
    (forall old, n = 1 -> lt_map t !! base_address addr = Some old -> blk = old /\ ev = discard_basic_block new) /\
    (ind = false -> tgt = blk).
Proof.
  intros Hok Ha Hb Hm Hres ind.
  destruct (find_translates st addr Hok Ha Hb Hm Hres)
    as (st1 & blk & ev & st' & tgt & Hf & _ & Hpe & Hok1 & Hroom1 & Hnn1 & Hm1 & Hblk & Hev & Hevc & _).
  destruct (publish_exit_spec 0 (emit st1 unlock_coarse) addr blk)
    as (st2 & tgt2 & Hpe2 & _ & _ & Hkeep & Hpub); [done..|].
  rewrite Hpe in Hpe2. injection Hpe2 as <- <-. destruct Hevc as (t & w & new & n & Et & D1 & D2 & D3).
  exists t, w, new, n, st', tgt, blk, ev. split; [done|].
  split; [done|]. split; [by apply Hkeep|]. fold ind in Hpub. cbn [emit events] in Hpub.
  assert (Hd : n <> 1 \/ lt_map t !! base_address addr = None -> blk = new /\ ev = commit_to_basic_block new).
  { intros [Hn|Hn]; [by apply D3|]. destruct (Z.eq_dec n 1); [by apply D1|by apply D3]. }
  rewrite Hev in Hpub. destruct ind.
  - destruct Hpub as [_ ->]. rewrite <- !app_assoc. done.
  - destruct Hpub as [-> ->]. cbn [emit events]. rewrite Hev, <- !app_assoc. done.
Qed.

Lemma code_cache_translate_commit_witness :
  exists st' tgt blk ev, find (H := kernel_config) example_state example_addr = Ret (st', tgt) /\
    events st' = [lock_coarse; ev; unlock_coarse; ibl_lock; ibl_unlock] /\ ev = commit_to_basic_block blk.
Proof.
  pose proof (example_env_laws (H := kernel_config)) as Hl.
  destruct (@code_cache_translate_commit kernel_config _ _ _ _ Hl example_state example_addr)
    as (t & w & new & n & st' & tgt & blk & ev & _ & Hf & _).
  - apply example_state_ok.
  - vm_compute. discriminate.
  - vm_compute. discriminate.
  - vm_compute. reflexivity.
  - vm_compute. reflexivity.
  - exists st', tgt, 0x7000, (commit_to_basic_block 0x7000). split; [exact Hf|].
    vm_compute in Hf. injection Hf as <- <-. split; reflexivity.
Defined.

(** In a kernel build that does not instrument the host, code that runs
    as an app and branches to a host address that is not in the cache runs
    natively: unless the policy forces instrumentation, the lookup returns
    the registered detach target, or the host address itself, and translates
    nothing. *)
Theorem code_cache_app_to_host_detaches `{Config} {T W} `{!LookupTable T, !CodeCacheEnv T W, !EnvLaws (T := T) (W := W)}
    (st : cc_state T W) addr r :
  env_kernel = true -> instrument_host = false ->
  cc_ok st -> addr <> 0 -> base_address addr <> 0 -> unmangled_address addr <> 0 ->
  is_host_address (unmangled_address addr) = true ->
  is_code_cache_address (unmangled_address addr) = false ->
  is_wrapper_address (unmangled_address addr) = false ->
  is_gencode_address (unmangled_address addr) = false ->
  is_in_host_context (policy_of addr) = false ->
  can_detach (policy_of addr) = true ->
  is_indirect_cti_target (policy_of addr) = false -> is_return_target (policy_of addr) = false ->
  lt_map (CODE_CACHE st) !! addr = None -> lt_map (CODE_CACHE st) !! base_address addr = None ->
  find_detach_target (unmangled_address addr) RUNNING_AS_HOST = Ret r ->
  find st addr = Ret (emit (emit st lock_coarse) unlock_coarse,
                      if r =? 0 then unmangled_address addr else r).
Proof.
  intros Hk Hih [Hok _ Hnn] Ha Hb Hu Hhost Hcc Hw Hg Hwas Hdet Hi Hr Hm Hmb Hfd.
  assert (Hflag : forall f, 0 <= f -> f <> IS_IN_HOST_CONTEXT ->
    flag f (converted_policy addr) = flag f (policy_of addr)).
  { intros f Hf Hne. unfold converted_policy, in_host_context. apply flag_with_flag_other; [done| |done]. done. }
  assert (Hctx : is_in_host_context (converted_policy addr) = true).
  { unfold converted_policy, in_host_context, is_in_host_context, IF_USER_ELSE. rewrite Hk, Hhost.
    by apply flag_with_flag_same. }
  apply (find_resolved st addr 0).
  - rewrite load_present, Hm by done. by rewrite bool_decide_eq_false_2 by (intros [? ?]; done).
  - unfold resolve. rewrite Hcc, Hw, Hg, load_present, Hmb by done. cbn [orb snd default from_option].
    assert (Hcd : can_detach (converted_policy addr) = true).
    { unfold can_detach in *. rewrite Hflag; done. }
    assert (Hc : context (converted_policy addr) = RUNNING_AS_HOST) by (unfold context; by rewrite Hctx).
    rewrite Hcd, Hc, Hfd, Hih, Hwas, Hctx.
    destruct (negb (base_address addr =? addr)); cbn; destruct (r =? 0); done.
  - destruct (Z.eqb_spec r 0); done.
  - unfold is_indirect_cti_target, is_return_target in *. rewrite !Hflag by done. by rewrite Hi, Hr.
Qed.

Definition example_host_addr : Z := mangled_address 0xFFFFFFFF91000000 (from_id 1).

Lemma code_cache_app_to_host_detaches_witness :
  find (H := kernel_config) example_state example_host_addr =
    Ret (emit (emit example_state lock_coarse) unlock_coarse,
         if 0 =? 0 then unmangled_address (H := kernel_config) example_host_addr else 0) /\
  unmangled_address (H := kernel_config) example_host_addr = 0xFFFFFFFF91000000.
Proof.
  split; [|vm_compute; reflexivity].
  pose proof (example_env_laws (H := kernel_config)) as Hl.
  refine (@code_cache_app_to_host_detaches kernel_config _ _ _ _ Hl example_state example_host_addr 0
    _ _ _ _ _ _ _ _ _ _ _ _ _ _ _ _ _).
  3: apply example_state_ok.
  3-5: vm_compute; discriminate.
  all: vm_compute; reflexivity.
Defined.
