(* ===== verification/Allocator.v ===== *)
(** * Global allocators ([granary/allocator.cc], [granary/allocator.h])

    The executable area, which is carved into the code cache, generated code
    and wrappers, and the heap: a bump pointer with one intrusive free list
    per power of two.  Atomic updates and the free-list locks make each
    allocation and each release one step. *)

From Stdlib Require Import ZArith Lia.
From stdpp Require Import base numbers list option gmap relations.
From S2P Require Import Prelude.

Definition _1_MB : Z := 1048576.

(** ** Executable memory *)
Module Exec.

Inductive executable_memory_kind := EXEC_CODE_CACHE | EXEC_GEN_CODE | EXEC_WRAPPER.

Definition PAGE_SIZE : Z := 4096.
Definition CODE_CACHE_SIZE : Z := 100 * _1_MB.
Definition FRAGMENT_CACHE_MAX_SIZE : Z := CODE_CACHE_SIZE - _1_MB.
(** [fragment_allocator_config::SLAB_SIZE] (granary/state.h). *)
Definition FRAGMENT_SLAB_SIZE : Z := PAGE_SIZE.
Definition MAX_NUM_FRAGMENT_SLABS : Z := FRAGMENT_CACHE_MAX_SIZE / FRAGMENT_SLAB_SIZE.

Record exec_state := {
  GRANARY_EXEC_START : Z;
  GRANARY_EXEC_END : Z;
  CODE_CACHE_END : Z;
  GEN_CODE_START : Z;
  WRAPPER_START : Z;
  WRAPPER_END : Z
}.

(** [init_code_cache]: [area] is the address of [EXECUTABLE_AREA]. *)
Definition init_code_cache (area : Z) : exec_state :=
  let end_ := u64 (area + CODE_CACHE_SIZE) in
  {| GRANARY_EXEC_START := area; GRANARY_EXEC_END := end_; CODE_CACHE_END := area;
     GEN_CODE_START := u64 (end_ - _1_MB); WRAPPER_START := u64 (end_ - _1_MB);
     WRAPPER_END := u64 (end_ - _1_MB) |}.

(** [granary_fault] is a fault. *)
Definition global_allocate_executable (size : Z) (where_ : executable_memory_kind) (s : exec_state)
    : outcome (exec_state * Z) :=
  match where_ with
  | EXEC_CODE_CACHE =>
      let mem := CODE_CACHE_END s in
      let s := {| GRANARY_EXEC_START := GRANARY_EXEC_START s; GRANARY_EXEC_END := GRANARY_EXEC_END s;
                  CODE_CACHE_END := u64 (mem + size); GEN_CODE_START := GEN_CODE_START s;
                  WRAPPER_START := WRAPPER_START s; WRAPPER_END := WRAPPER_END s |} in
      if GEN_CODE_START s <? u64 (mem + size) then Fault else Ret (s, mem)
  | EXEC_GEN_CODE =>
      let mem := u64 (GEN_CODE_START s - size) in
      let s := {| GRANARY_EXEC_START := GRANARY_EXEC_START s; GRANARY_EXEC_END := GRANARY_EXEC_END s;
                  CODE_CACHE_END := CODE_CACHE_END s; GEN_CODE_START := mem;
                  WRAPPER_START := WRAPPER_START s; WRAPPER_END := WRAPPER_END s |} in
      if mem <? CODE_CACHE_END s then Fault else Ret (s, mem)
  | EXEC_WRAPPER =>
      let mem := WRAPPER_END s in
      let s := {| GRANARY_EXEC_START := GRANARY_EXEC_START s; GRANARY_EXEC_END := GRANARY_EXEC_END s;
                  CODE_CACHE_END := CODE_CACHE_END s; GEN_CODE_START := GEN_CODE_START s;
                  WRAPPER_START := WRAPPER_START s; WRAPPER_END := u64 (mem + size) |} in
      if GRANARY_EXEC_END s <? u64 (mem + size) then Fault else Ret (s, mem)
  end.

Definition is_code_cache_address (s : exec_state) (addr : Z) : bool :=
  (GRANARY_EXEC_START s <=? addr) && (addr <? CODE_CACHE_END s).
Definition is_wrapper_address (s : exec_state) (addr : Z) : bool :=
  (WRAPPER_START s <=? addr) && (addr <? WRAPPER_END s).
Definition is_gencode_address (s : exec_state) (addr : Z) : bool :=
  (GEN_CODE_START s <=? addr) && (addr <? WRAPPER_START s).

(** The classifier of a kind of memory. *)
Definition classify (k : executable_memory_kind) (s : exec_state) : Z -> bool :=
  match k with
  | EXEC_CODE_CACHE => is_code_cache_address s
  | EXEC_GEN_CODE => is_gencode_address s
  | EXEC_WRAPPER => is_wrapper_address s
  end.

(** The slot of the slab that contains a fragment; outside the array it
    faults. *)
Definition granary_find_fragment_slab (s : exec_state) (fragment_addr : Z) : outcome Z :=
  let index := u32 (u64 (fragment_addr - GRANARY_EXEC_START s) / FRAGMENT_SLAB_SIZE) in
  if index <? MAX_NUM_FRAGMENT_SLABS then Ret index else Fault.

(** The layout of the area. *)
Record layout (s : exec_state) : Prop := {
  lay_start : 0 <= GRANARY_EXEC_START s;
  lay_cache : GRANARY_EXEC_START s <= CODE_CACHE_END s;
  lay_gap : CODE_CACHE_END s <= GEN_CODE_START s;
  lay_gen : GEN_CODE_START s <= WRAPPER_START s;
  lay_wrap : WRAPPER_START s <= WRAPPER_END s;
  lay_end : WRAPPER_END s <= GRANARY_EXEC_END s;
  lay_top : GRANARY_EXEC_END s < 2 ^ 63
}.

End Exec.

(** ** The heap *)
Module Heap.

Definition HEAP_SIZE : Z := _1_MB * 256.
Definition MIN_SCALE : Z := 3.
Definition UNSIGNED_LONG_NUM_BITS : Z := 64.
Definition MIN_OBJECT_SIZE : Z := Z.shiftl 1 MIN_SCALE.
Definition NUM_FREE_LISTS : Z := 64 - MIN_SCALE.

(** [__builtin_clzl], for a positive argument. *)
Definition clzl (x : Z) : Z := 63 - Z.log2 x.

Definition log_base_2 (x : Z) : Z := (UNSIGNED_LONG_NUM_BITS - 1) - clzl x.
Definition next_power_of_2 (x : Z) : Z := u64 (Z.shiftl 1 (UNSIGNED_LONG_NUM_BITS - clzl (x - 1))).

Definition allocation_size (size : Z) : Z :=
  if size <? MIN_OBJECT_SIZE then MIN_OBJECT_SIZE
  else
    let high_power := next_power_of_2 size in
    let low_power := high_power / 2 in
    if size <=? low_power then low_power else high_power.

(** [heads]: the heads of [FREE_LISTS]; [nexts]: the [next] field of each
    free object, by the address of the object. *)
Record heap_state := {
  HEAP_INDEX : Z;
  heads : list Z;
  nexts : gmap Z Z
}.

Section WithHeap.
(** The address of the array [HEAP]. *)
Context (HEAP : Z).

Definition initial : heap_state :=
  {| HEAP_INDEX := 0; heads := replicate (Z.to_nat NUM_FREE_LISTS) 0; nexts := ∅ |}.

Definition is_heap_address (ptr : Z) : bool := (HEAP <=? ptr) && (ptr <? HEAP + HEAP_SIZE).

(** The [for(;;)] of the source repeats only when another CPU empties the
    free list between the test and the lock. *)
Definition global_allocate (size_ : Z) (h : heap_state) : outcome (heap_state * Z) :=
  ASSERT (0 <? size_) ≫= fun _ =>
  let size := allocation_size size_ in
  let scale := log_base_2 size - MIN_SCALE in
  ASSERT (scale <=? NUM_FREE_LISTS) ≫= fun _ =>
  ASSERT (size_ <=? size) ≫= fun _ =>
  head ← idx (heads h) (Z.to_nat scale);
  if head =? 0 then
    let curr_heap_index := HEAP_INDEX h in
    let next_heap_index := curr_heap_index + size in
    let h := {| HEAP_INDEX := u32 (curr_heap_index + size); heads := heads h; nexts := nexts h |} in
    if HEAP_SIZE <=? next_heap_index then Fault else Ret (h, HEAP + curr_heap_index)
  else
    match nexts h !! head with
    | None => Fault
    | Some next =>
        Ret ({| HEAP_INDEX := HEAP_INDEX h; heads := <[Z.to_nat scale := next]> (heads h);
                nexts := nexts h |}, head)
    end.

Definition global_free (addr size_ : Z) (h : heap_state) : outcome heap_state :=
  if negb (is_heap_address addr) then Ret h
  else
    let size := allocation_size size_ in
    let scale := log_base_2 size - MIN_SCALE in
    next_free ← idx (heads h) (Z.to_nat scale);
    Ret {| HEAP_INDEX := HEAP_INDEX h; heads := <[Z.to_nat scale := addr]> (heads h);
           nexts := <[addr := next_free]> (nexts h) |}.

(** ** Invariant

    The blocks of the free lists, the [i]-th list holding objects of [2^(s+i)]
    bytes. *)
Fixpoint free_blocks (s : Z) (fls : list (list Z)) : list (Z * Z) :=
  match fls with
  | [] => []
  | l :: fls => map (fun a => (a, 2 ^ s)) l ++ free_blocks (s + 1) fls
  end.

Definition in_heap (h : heap_state) (b : Z * Z) : Prop :=
  HEAP <= b.1 /\ 8 <= b.2 /\ b.1 + b.2 <= HEAP + HEAP_INDEX h.

(** [live] are the blocks that have been allocated and not released. *)
Record heap_inv (h : heap_state) (live : list (Z * Z)) (fls : list (list Z)) : Prop := {
  hi_base : 0 < HEAP;
  hi_index : 0 <= HEAP_INDEX h < HEAP_SIZE;
  hi_lists : Forall2 (chain (nexts h)) (heads h) fls;
  hi_num : length fls = Z.to_nat NUM_FREE_LISTS;
  hi_range : Forall (in_heap h) (live ++ free_blocks MIN_SCALE fls);
  hi_disjoint : all_disjoint (live ++ free_blocks MIN_SCALE fls)
}.

(** The steps of the heap and of its users, with the live blocks: the memory
    of a live block may be written at will. *)
Inductive heap_step : heap_state * list (Z * Z) -> heap_state * list (Z * Z) -> Prop :=
  | step_allocate h h' live size addr :
      0 < size <= 2 ^ 62 ->
      global_allocate size h = Ret (h', addr) ->
      heap_step (h, live) (h', (addr, allocation_size size) :: live)
  | step_free h h' live live' size addr :
      0 < size <= 2 ^ 62 ->
      live ≡ₚ (addr, allocation_size size) :: live' ->
      global_free addr size h = Ret h' ->
      heap_step (h, live) (h', live')
  | step_write h live b nexts' :
      b ∈ live ->
      (forall o, block_disjoint b (o, 8) -> nexts' !! o = nexts h !! o) ->
      heap_step (h, live) ({| HEAP_INDEX := HEAP_INDEX h; heads := heads h; nexts := nexts' |}, live).

End WithHeap.
End Heap.

(** ** Lemmas: object sizes *)
Section heap_lemmas.
Import Heap.

Lemma log_base_2_pow2 s : 0 <= s -> log_base_2 (2 ^ s) = s.
Proof. intros. unfold log_base_2, clzl, UNSIGNED_LONG_NUM_BITS. rewrite Z.log2_pow2 by lia. lia. Qed.

(** The size of an object is the least power of two that holds the request,
    and at least eight. *)
Lemma allocation_size_pow2 size :
  0 < size <= 2 ^ 62 ->
  exists s, MIN_SCALE <= s <= 62 /\ allocation_size size = 2 ^ s /\ size <= 2 ^ s /\
    (8 < size -> 2 ^ (s - 1) < size).
Proof.
  intros Hs. unfold allocation_size, MIN_OBJECT_SIZE, MIN_SCALE. change (Z.shiftl 1 3) with 8.
  destruct (Z.ltb_spec size 8); [exists 3; change (2 ^ 3) with 8; repeat split; lia|].
  assert (Hl : 0 <= Z.log2 (size - 1)) by apply Z.log2_nonneg.
  destruct (Z.log2_spec (size - 1)) as [H1 H2]; [lia|].
  assert (Hlow : 2 <= Z.log2 (size - 1)) by (apply (Z.log2_le_mono 7); lia).
  assert (Hu : Z.log2 (size - 1) < 62) by (apply Z.log2_lt_pow2; lia).
  unfold next_power_of_2, clzl, UNSIGNED_LONG_NUM_BITS.
  replace (64 - (63 - Z.log2 (size - 1))) with (Z.succ (Z.log2 (size - 1))) by lia.
  assert (2 ^ Z.succ (Z.log2 (size - 1)) <= 2 ^ 62) by (apply Z.pow_le_mono_r; lia).
  pose proof (pow2_pos (Z.succ (Z.log2 (size - 1)))).
  rewrite Z.shiftl_1_l, wrap_small by lia.
  assert (Hhalf : 2 ^ Z.succ (Z.log2 (size - 1)) / 2 = 2 ^ Z.log2 (size - 1)).
  { rewrite Z.pow_succ_r, Z.mul_comm by lia. apply Z.div_mul. lia. }
  rewrite Hhalf. destruct (Z.leb_spec size (2 ^ Z.log2 (size - 1))); [lia|].
  exists (Z.succ (Z.log2 (size - 1))). repeat split; try lia.
  replace (Z.succ (Z.log2 (size - 1)) - 1) with (Z.log2 (size - 1)) by lia. lia.
Qed.

Lemma free_blocks_take s fls i a l :
  fls !! i = Some (a :: l) ->
  free_blocks s fls ≡ₚ (a, 2 ^ (s + Z.of_nat i)) :: free_blocks s (<[i := l]> fls).
Proof.
  revert s i. induction fls as [|l0 fls IH]; intros s [|i] Hi; try done; cbn in Hi |- *.
  - injection Hi as ->. by rewrite Z.add_0_r.
  - rewrite (IH (s + 1) i Hi). replace (s + 1 + Z.of_nat i) with (s + Z.of_nat (S i)) by lia.
    by rewrite Permutation_middle.
Qed.

Lemma free_blocks_put s fls i a l :
  fls !! i = Some l ->
  free_blocks s (<[i := a :: l]> fls) ≡ₚ (a, 2 ^ (s + Z.of_nat i)) :: free_blocks s fls.
Proof.
  intros Hi. pose proof (lookup_lt_Some _ _ _ Hi).
  rewrite (free_blocks_take s (<[i := a :: l]> fls) i a l) by by apply list_lookup_insert_eq.
  by rewrite list_insert_insert_eq, list_insert_id.
Qed.

Lemma free_blocks_elem s fls i a l :
  fls !! i = Some l -> a ∈ l -> (a, 2 ^ (s + Z.of_nat i)) ∈ free_blocks s fls.
Proof.
  revert s i. induction fls as [|l0 fls IH]; intros s [|i] Hi Ha; try done; cbn in Hi |- *.
  - injection Hi as ->. rewrite Z.add_0_r. apply elem_of_app. left.
    apply list_elem_of_fmap. by exists a.
  - apply elem_of_app. right. replace (s + Z.of_nat (S i)) with (s + 1 + Z.of_nat i) by lia. by apply IH.
Qed.

Section inv_lemmas.
Context (HEAP : Z).

Lemma heap_list h live fls i :
  heap_inv HEAP h live fls -> (i < Z.to_nat NUM_FREE_LISTS)%nat ->
  exists hd l, idx (heads h) i = Ret hd /\ heads h !! i = Some hd /\ fls !! i = Some l /\ chain (nexts h) hd l.
Proof.
  intros Hinv Hi. pose proof (hi_num _ _ _ _ Hinv) as Hn.
  destruct (lookup_lt_is_Some_2 fls i) as [l Hl]; [lia|].
  destruct (Forall2_lookup_r _ _ _ _ _ (hi_lists _ _ _ _ Hinv) Hl) as (hd & Hh & Hc).
  exists hd, l. rewrite idx_ret. done.
Qed.

Lemma in_heap_mono h h' b : HEAP_INDEX h <= HEAP_INDEX h' -> in_heap HEAP h b -> in_heap HEAP h' b.
Proof. unfold in_heap. intuition lia. Qed.

(** A block above the bump pointer is disjoint from all blocks below it. *)
Lemma bump_disjoint h bs sz :
  Forall (in_heap HEAP h) bs -> Forall (block_disjoint (HEAP + HEAP_INDEX h, sz)) bs.
Proof.
  intros Hf. eapply Forall_impl; [exact Hf|]. intros [a n] (H1 & H2 & H3). cbn in *.
  right. cbn. lia.
Qed.

(** The two ways in which an allocation succeeds. *)
Lemma global_allocate_cases h live fls size s :
  heap_inv HEAP h live fls -> 0 < size <= 2 ^ 62 ->
  MIN_SCALE <= s <= 62 -> allocation_size size = 2 ^ s -> size <= 2 ^ s ->
  (fls !! Z.to_nat (s - MIN_SCALE) = Some [] /\
   global_allocate HEAP size h =
     if HEAP_SIZE <=? HEAP_INDEX h + 2 ^ s then Fault
     else Ret ({| HEAP_INDEX := HEAP_INDEX h + 2 ^ s; heads := heads h; nexts := nexts h |},
               HEAP + HEAP_INDEX h)) \/
  (exists a n l, fls !! Z.to_nat (s - MIN_SCALE) = Some (a :: l) /\ nexts h !! a = Some n /\ chain (nexts h) n l /\
   global_allocate HEAP size h =
     Ret ({| HEAP_INDEX := HEAP_INDEX h; heads := <[Z.to_nat (s - MIN_SCALE) := n]> (heads h);
             nexts := nexts h |}, a)).
Proof.
  intros Hinv Hs Hr He Hle. unfold global_allocate. rewrite He, log_base_2_pow2 by (unfold MIN_SCALE in *; lia).
  destruct (Z.ltb_spec 0 size); [|lia]. destruct (Z.leb_spec size (2 ^ s)); [|lia].
  destruct (Z.leb_spec (s - MIN_SCALE) NUM_FREE_LISTS); [|unfold NUM_FREE_LISTS, MIN_SCALE in *; lia].
  cbn [ASSERT mbind outcome_bind].
  destruct (heap_list h live fls (Z.to_nat (s - MIN_SCALE))) as (hd & l & -> & _ & Hl & Hc);
    [done|unfold NUM_FREE_LISTS, MIN_SCALE in *; lia|]. cbn [mbind outcome_bind].
  destruct l as [|a l]; cbn in Hc.
  - subst hd. left. split; [done|]. cbn [Z.eqb]. destruct (Z.leb_spec HEAP_SIZE (HEAP_INDEX h + 2 ^ s)); [done|].
    pose proof (hi_index _ _ _ _ Hinv). pose proof (pow2_pos s). unfold MIN_SCALE, HEAP_SIZE, _1_MB in *.
    rewrite wrap_small by lia. done.
  - destruct Hc as (-> & Ha & n & Hn & Hc). right. exists a, n, l. rewrite Hn.
    destruct (Z.eqb_spec a 0); [done|]. done.
Qed.

Lemma allocate_inv h h' live fls size addr :
  heap_inv HEAP h live fls -> 0 < size <= 2 ^ 62 -> global_allocate HEAP size h = Ret (h', addr) ->
  exists fls', heap_inv HEAP h' ((addr, allocation_size size) :: live) fls'.
Proof.
  intros Hinv Hs Hal. destruct (allocation_size_pow2 size Hs) as (s & Hr & He & Hle & _).
  pose proof Hinv as [Hb Hi Hl Hn Hrg Hd]. pose proof (pow2_pos s). rewrite He.
  assert (H8 : 8 <= 2 ^ s) by (change 8 with (2 ^ 3); apply Z.pow_le_mono_r; unfold MIN_SCALE in *; lia).
  destruct (global_allocate_cases h live fls size s) as [(Hf & E)|(a & n & l & Hf & Hna & Hc & E)]; try done;
    rewrite E in Hal.
  - destruct (Z.leb_spec HEAP_SIZE (HEAP_INDEX h + 2 ^ s)); [done|]. injection Hal as <- <-.
    exists fls. split; cbn [HEAP_INDEX heads nexts]; try done; [lia| |].
    + cbn [app]. constructor; [unfold in_heap; cbn; lia|].
      eapply Forall_impl; [exact Hrg|]. intros b. apply in_heap_mono. cbn. lia.
    + cbn [app]. apply all_disjoint_cons. split; [by apply bump_disjoint|done].
  - injection Hal as <- <-. exists (<[Z.to_nat (s - MIN_SCALE) := l]> fls).
    pose proof (free_blocks_take MIN_SCALE fls _ a l Hf) as Hp.
    replace (MIN_SCALE + Z.of_nat (Z.to_nat (s - MIN_SCALE))) with s in Hp by (unfold MIN_SCALE in *; lia).
    assert (Hpp : live ++ free_blocks MIN_SCALE fls ≡ₚ
      ((a, 2 ^ s) :: live) ++ free_blocks MIN_SCALE (<[Z.to_nat (s - MIN_SCALE) := l]> fls)).
    { rewrite Hp. by rewrite <- Permutation_middle. }
    split; cbn [HEAP_INDEX heads nexts]; try done.
    + by apply Forall2_insert.
    + by rewrite length_insert.
    + by rewrite <- Hpp.
    + by rewrite <- Hpp.
Qed.

Lemma free_inv h h' live live' fls size addr :
  heap_inv HEAP h live fls -> 0 < size <= 2 ^ 62 -> live ≡ₚ (addr, allocation_size size) :: live' ->
  global_free HEAP addr size h = Ret h' -> exists fls', heap_inv HEAP h' live' fls'.
Proof.
  intros Hinv Hs Hlive Hfr. destruct (allocation_size_pow2 size Hs) as (s & Hr & He & Hle & _).
  pose proof Hinv as [Hb Hi Hl Hn Hrg Hd]. rewrite Hlive, He in Hrg, Hd. unfold global_free in Hfr.
  pose proof Hrg as Hrg0. cbn [app] in Hrg0. apply List.Forall_cons_iff in Hrg0 as [(Ha1 & Ha2 & Ha3) _]. cbn in Ha1, Ha2, Ha3.
  assert (Hheap : is_heap_address HEAP addr = true).
  { unfold is_heap_address. zb. }
  rewrite Hheap, He, log_base_2_pow2 in Hfr by (unfold MIN_SCALE in *; lia). cbn [negb] in Hfr.
  destruct (heap_list h live fls (Z.to_nat (s - MIN_SCALE))) as (hd & l & E & Hhd & Hfl & Hc);
    [done|unfold NUM_FREE_LISTS, MIN_SCALE in *; lia|].
  rewrite E in Hfr. cbn [mbind outcome_bind] in Hfr. injection Hfr as <-.
  exists (<[Z.to_nat (s - MIN_SCALE) := addr :: l]> fls).
  pose proof (free_blocks_put MIN_SCALE fls _ addr l Hfl) as Hp.
  replace (MIN_SCALE + Z.of_nat (Z.to_nat (s - MIN_SCALE))) with s in Hp by (unfold MIN_SCALE in *; lia).
  assert (Hpp : ((addr, 2 ^ s) :: live') ++ free_blocks MIN_SCALE fls ≡ₚ
    live' ++ free_blocks MIN_SCALE (<[Z.to_nat (s - MIN_SCALE) := addr :: l]> fls)).
  { rewrite Hp. by rewrite <- Permutation_middle. }
  assert (Hnot : forall i l', fls !! i = Some l' -> addr ∉ l').
  { intros i l' Hi' Hin. cbn [app] in Hd. apply all_disjoint_cons in Hd as [Hdj _]. rewrite Forall_forall in Hdj.
    assert (Hel : (addr, 2 ^ (MIN_SCALE + Z.of_nat i)) ∈ live' ++ free_blocks MIN_SCALE fls).
    { apply elem_of_app. right. by eapply free_blocks_elem. }
    destruct (Hdj _ Hel) as [Hc1|Hc1]; cbn in Hc1; [lia|].
    pose proof (pow2_pos (MIN_SCALE + Z.of_nat i)). unfold MIN_SCALE in *. lia. }
  split; cbn [HEAP_INDEX heads nexts]; try done.
  - apply Forall2_insert; [|apply chain_push; [lia|by eapply Hnot|done]].
    apply Forall2_same_length_lookup. split; [by eapply Forall2_length|].
    intros i hd' l' Hh' Hl'. apply (chain_cong (nexts h)).
    + intros b Hb'. apply lookup_insert_ne. intros ->. by eapply Hnot.
    + eapply Forall2_lookup_lr; eauto.
  - by rewrite length_insert.
  - by rewrite <- Hpp.
  - by rewrite <- Hpp.
Qed.

Lemma write_inv h live fls b nexts' :
  heap_inv HEAP h live fls -> b ∈ live ->
  (forall o, block_disjoint b (o, 8) -> nexts' !! o = nexts h !! o) ->
  heap_inv HEAP {| HEAP_INDEX := HEAP_INDEX h; heads := heads h; nexts := nexts' |} live fls.
Proof.
  intros [Hb Hi Hl Hn Hrg Hd] Hin Hw. split; cbn [HEAP_INDEX heads nexts]; try done.
  apply Forall2_same_length_lookup. split; [by eapply Forall2_length|].
  intros i hd l Hh Hl'. apply (chain_cong (nexts h)); [|eapply Forall2_lookup_lr; eauto].
  intros a Ha. apply Hw. pose proof (free_blocks_elem MIN_SCALE fls i a l Hl' Ha) as Hel.
  apply list_elem_of_split in Hin as (l1 & l2 & ->).
  rewrite <- app_assoc in Hd. cbn [app] in Hd.
  assert (Hbd : block_disjoint b (a, 2 ^ (MIN_SCALE + Z.of_nat i))).
  { apply (all_disjoint_lookup b _ l1 (l2 ++ free_blocks MIN_SCALE fls) Hd).
    apply elem_of_app. right. apply elem_of_app. by right. }
  assert (8 <= 2 ^ (MIN_SCALE + Z.of_nat i)).
  { change 8 with (2 ^ 3). apply Z.pow_le_mono_r; unfold MIN_SCALE; lia. }
  destruct Hbd as [H1|H1]; cbn in H1; [by left|right]. cbn. lia.
Qed.

Lemma initial_inv : 0 < HEAP -> heap_inv HEAP initial [] (replicate (Z.to_nat NUM_FREE_LISTS) []).
Proof.
  intros Hb. assert (Hfb : forall n s, free_blocks s (replicate n []) = []).
  { induction n as [|n IH]; intros s; [done|]. cbn. apply IH. }
  split; cbn [initial HEAP_INDEX heads nexts app]; try done.
  - by apply Forall2_replicate.
  - rewrite Hfb. constructor.
Qed.

End inv_lemmas.
End heap_lemmas.

(** ** Lemmas: executable memory *)
Section exec_lemmas.
Import Exec.

Lemma init_layout area :
  0 <= area -> area + CODE_CACHE_SIZE < 2 ^ 63 -> layout (init_code_cache area).
Proof.
  intros. unfold CODE_CACHE_SIZE, _1_MB in *.
  split; cbn [init_code_cache GRANARY_EXEC_START GRANARY_EXEC_END CODE_CACHE_END GEN_CODE_START WRAPPER_START WRAPPER_END];
    unfold CODE_CACHE_SIZE, _1_MB; rewrite ?(wrap_small 64 (area + _)), ?wrap_small by lia; lia.
Qed.

End exec_lemmas.

(** ** Properties *)

(** Executable memory: on a valid layout, an allocation of any kind either
    faults or returns memory that belongs to the region of that kind and to no
    other, that no earlier allocation of any kind contained, and leaves a
    valid layout in which everything that belonged to a region still does.
    The size is at most the address of the area, so that the subtraction for
    generated code does not wrap. *)
Theorem exec_allocate_disjoint s size k :
  Exec.layout s -> 0 < size <= Exec.GRANARY_EXEC_START s ->
  Exec.global_allocate_executable size k s = Fault \/
  exists s' mem, Exec.global_allocate_executable size k s = Ret (s', mem) /\ Exec.layout s' /\
    (forall a, mem <= a < mem + size -> forall k',
       Exec.classify k' s a = false /\
       Exec.classify k' s' a = match k, k' with
         | Exec.EXEC_CODE_CACHE, Exec.EXEC_CODE_CACHE => true
         | Exec.EXEC_GEN_CODE, Exec.EXEC_GEN_CODE => true
         | Exec.EXEC_WRAPPER, Exec.EXEC_WRAPPER => true
         | _, _ => false
         end) /\
    (forall a k', Exec.classify k' s a = true -> Exec.classify k' s' a = true).
Proof.
  intros [L0 L1 L2 L3 L4 L5 L6] Hs.
  destruct k; cbn [Exec.global_allocate_executable]; cbv zeta;
    cbn [Exec.GRANARY_EXEC_START Exec.GRANARY_EXEC_END Exec.CODE_CACHE_END Exec.GEN_CODE_START
         Exec.WRAPPER_START Exec.WRAPPER_END].
  all: rewrite !wrap_small by lia; match goal with |- context [if ?b then _ else _] => destruct b eqn:Hb end; [by left|right];
    apply Z.ltb_ge in Hb; eexists _, _; (split; [done|]); (split; [split; cbn; lia|]); split;
    [intros a Ha []; unfold Exec.classify, Exec.is_code_cache_address, Exec.is_gencode_address,
       Exec.is_wrapper_address; cbn; split; zb
    |intros a []; unfold Exec.classify, Exec.is_code_cache_address, Exec.is_gencode_address,
       Exec.is_wrapper_address; cbn; intros Hc; zb].
Qed.

Lemma exec_allocate_disjoint_witness :
  exists s' mem, Exec.global_allocate_executable 4096 Exec.EXEC_GEN_CODE (Exec.init_code_cache 0x40000000) = Ret (s', mem) /\
    Exec.layout s' /\ Exec.is_gencode_address s' mem = true.
Proof.
  destruct (exec_allocate_disjoint (Exec.init_code_cache 0x40000000) 4096 Exec.EXEC_GEN_CODE)
    as [Hf|(s' & mem & Hr & Hl & Hc & _)].
  - apply init_layout; vm_compute; congruence.
  - vm_compute. split; congruence.
  - vm_compute in Hf. discriminate Hf.
  - exists s', mem. split; [exact Hr|]. split; [exact Hl|].
    apply (Hc mem ltac:(lia) Exec.EXEC_GEN_CODE).
Defined.

(** C19 The heap: every state reached by allocations, releases of live blocks
    and arbitrary writes to live blocks has free lists that are null-ended
    chains of heap objects of their size, and all blocks, live and free, are
    pairwise disjoint and inside the heap. *)
Theorem heap_invariant HEAP h live :
  0 < HEAP -> rtc (Heap.heap_step HEAP) (Heap.initial, []) (h, live) ->
  exists fls, Heap.heap_inv HEAP h live fls.
Proof.
  intros Hb Hsteps.
  assert (Hgen : forall x y, rtc (Heap.heap_step HEAP) x y ->
    (exists fls, Heap.heap_inv HEAP x.1 x.2 fls) -> exists fls, Heap.heap_inv HEAP y.1 y.2 fls).
  { intros x y Hr. induction Hr as [|x y z Hstep _ IH]; [done|]. intros [fls Hinv]. apply IH.
    destruct Hstep; cbn [fst snd] in *;
      [by eapply allocate_inv|by eapply free_inv|exists fls; by eapply write_inv]. }
  apply (Hgen _ _ Hsteps). eexists. by apply initial_inv.
Qed.

Lemma heap_invariant_witness :
  exists h, Heap.global_allocate 0x1000 100 Heap.initial = Ret (h, 0x1000) /\
    exists fls, Heap.heap_inv 0x1000 h [(0x1000, 128)] fls.
Proof.
  eexists. split; [vm_compute; reflexivity|]. apply heap_invariant; [reflexivity|].
  apply rtc_once. apply (Heap.step_allocate 0x1000 _ _ [] 100); [lia|vm_compute; reflexivity].
Defined.

(** [global_allocate] on a heap that satisfies the invariant: the object
    has the least power of two that holds the request (and at least eight
    bytes), lies inside the heap and is disjoint from every live block; the
    only failure is a fault, when the free list is empty and the rest of the
    heap is too small. *)
Theorem global_allocate_fresh HEAP h live fls size :
  Heap.heap_inv HEAP h live fls -> 0 < size <= 2 ^ 62 ->
  (exists s, Heap.allocation_size size = 2 ^ s /\ size <= 2 ^ s /\ (8 < size -> 2 ^ (s - 1) < size)) /\
  (Heap.global_allocate HEAP size h = Fault /\
     Heap.HEAP_SIZE <= Heap.HEAP_INDEX h + Heap.allocation_size size \/
   exists h' addr, Heap.global_allocate HEAP size h = Ret (h', addr) /\
     HEAP <= addr /\ addr + Heap.allocation_size size <= HEAP + Heap.HEAP_SIZE /\
     Forall (block_disjoint (addr, Heap.allocation_size size)) live).
Proof.
  intros Hinv Hs. destruct (allocation_size_pow2 size Hs) as (s & Hr & He & Hle & Hlow).
  split; [by exists s|].
  assert (Hgood : forall h' addr, Heap.global_allocate HEAP size h = Ret (h', addr) ->
    HEAP <= addr /\ addr + Heap.allocation_size size <= HEAP + Heap.HEAP_SIZE /\
    Forall (block_disjoint (addr, Heap.allocation_size size)) live).
  { intros h' addr Hal. destruct (allocate_inv HEAP h h' live fls size addr Hinv Hs Hal) as [fls' Hinv'].
    pose proof Hinv' as [_ Hi _ _ Hrg Hd]. cbn [app] in Hrg, Hd.
    apply List.Forall_cons_iff in Hrg as [(H1 & H2 & H3) _]. apply all_disjoint_cons in Hd as [Hd _].
    cbn in H1, H2, H3. apply Forall_app in Hd as [Hd _]. repeat split; [done|lia|done]. }
  destruct (global_allocate_cases HEAP h live fls size s Hinv Hs Hr He Hle)
    as [(_ & E)|(a & n & l & _ & _ & _ & E)].
  - rewrite E in *. destruct (Z.leb_spec Heap.HEAP_SIZE (Heap.HEAP_INDEX h + 2 ^ s)).
    + left. by rewrite He.
    + right. eexists _, _. split; [done|]. by eapply Hgood.
  - right. rewrite E in *. eexists _, _. split; [done|]. by eapply Hgood.
Qed.

Lemma global_allocate_fresh_witness :
  exists h' addr, Heap.global_allocate 0x1000 9 Heap.initial = Ret (h', addr) /\ 0x1000 <= addr.
Proof.
  destruct (global_allocate_fresh 0x1000 Heap.initial [] (replicate (Z.to_nat Heap.NUM_FREE_LISTS) []) 9)
    as [_ [[Hf _]|(h' & addr & Hr & Hle & _)]].
  - apply initial_inv. reflexivity.
  - lia.
  - vm_compute in Hf. discriminate Hf.
  - exists h', addr. split; [exact Hr|exact Hle].
Defined.

(** Releasing a block and asking for the same size again returns the same
    block and restores the free list. *)
Theorem heap_free_allocate HEAP h live live' fls size addr :
  Heap.heap_inv HEAP h live fls -> 0 < size <= 2 ^ 62 ->
  live ≡ₚ (addr, Heap.allocation_size size) :: live' ->
  exists h1 h2, Heap.global_free HEAP addr size h = Ret h1 /\
    Heap.global_allocate HEAP size h1 = Ret (h2, addr) /\
    Heap.HEAP_INDEX h2 = Heap.HEAP_INDEX h /\ Heap.heads h2 = Heap.heads h.
Proof.
  intros Hinv Hs Hlive. destruct (allocation_size_pow2 size Hs) as (s & Hr & He & Hle & _).
  pose proof Hinv as [Hb Hi _ _ Hrg _]. rewrite Hlive, He in Hrg. cbn [app] in Hrg.
  apply List.Forall_cons_iff in Hrg as [(Ha1 & Ha2 & Ha3) _]. cbn in Ha1, Ha2, Ha3.
  unfold Heap.MIN_SCALE in Hr.
  destruct (heap_list HEAP h live fls (Z.to_nat (s - Heap.MIN_SCALE))) as (hd & l & E & Hhd & _ & _);
    [done|unfold Heap.NUM_FREE_LISTS, Heap.MIN_SCALE; lia|].
  unfold Heap.global_free. assert (Hh : Heap.is_heap_address HEAP addr = true)
    by (unfold Heap.is_heap_address; zb).
  rewrite Hh, He, log_base_2_pow2, E by lia. cbn [negb mbind outcome_bind].
  eexists _, _. split; [done|]. unfold Heap.global_allocate. rewrite He, log_base_2_pow2 by lia.
  destruct (Z.ltb_spec 0 size); [|lia]. destruct (Z.leb_spec size (2 ^ s)); [|lia].
  destruct (Z.leb_spec (s - Heap.MIN_SCALE) Heap.NUM_FREE_LISTS); [|unfold Heap.NUM_FREE_LISTS, Heap.MIN_SCALE in *; lia].
  cbn [ASSERT mbind outcome_bind Heap.heads Heap.nexts Heap.HEAP_INDEX].
  pose proof (lookup_lt_Some _ _ _ Hhd) as Hlt. unfold idx. rewrite list_lookup_insert_eq by done.
  cbn [mbind outcome_bind]. destruct (Z.eqb_spec addr 0); [lia|]. rewrite lookup_insert_eq.
  split; [done|]. cbn. split; [done|]. by rewrite list_insert_insert_eq, list_insert_id.
Qed.

Definition example_heap : Heap.heap_state :=
  {| Heap.HEAP_INDEX := 128; Heap.heads := Heap.heads Heap.initial; Heap.nexts := ∅ |}.

Lemma heap_free_allocate_witness :
  exists h1 h2, Heap.global_allocate 0x1000 100 Heap.initial = Ret (example_heap, 0x1000) /\
    Heap.global_free 0x1000 0x1000 100 example_heap = Ret h1 /\
    Heap.global_allocate 0x1000 100 h1 = Ret (h2, 0x1000).
Proof.
  destruct (heap_free_allocate 0x1000 example_heap [(0x1000, 128)] []
    (replicate (Z.to_nat Heap.NUM_FREE_LISTS) []) 100 0x1000) as (h1 & h2 & H1 & H2 & _).
  - split; try reflexivity; try (vm_compute; split; congruence).
    + apply Forall2_replicate. reflexivity.
    + vm_compute. repeat constructor; discriminate.
    + vm_compute. repeat constructor.
  - lia.
  - reflexivity.
  - exists h1, h2. split; [vm_compute; reflexivity|]. split; [exact H1|exact H2].
Defined.
