(* ===== verification/BumpAllocator.v ===== *)
(** * Bump-pointer allocators ([granary/bump_allocator.h])

    Slabs are objects at addresses with a [next] field; an allocator has a
    list of slabs in use ([curr], newest first, [first] pointing at the
    oldest), a free list, and a global free list shared by all allocators of
    its type.  New slabs and their memory come from the global allocators:
    the addresses those will return next are the [supply].  The contents of
    the memory are not modelled; [memset] and the debug loop that checks it
    have no effect here. *)

From Stdlib Require Import ZArith Lia.
From stdpp Require Import base numbers list option gmap.
From S2P Require Import Prelude.

(** The template parameter [Config]. *)
Class bump_config := {
  SLAB_SIZE : Z;
  EXECUTABLE : bool;
  TRANSIENT : bool;
  SHARED : bool;
  SHARE_DEAD_SLABS_ : bool;
  MIN_ALIGN : Z
}.

Definition SHARE_DEAD_SLABS `{bump_config} : bool := negb SHARED && SHARE_DEAD_SLABS_.

(** [bump_pointer_slab] without its [next] field. *)
Record bump_pointer_slab := {
  memory : Z;
  index : Z;
  remaining : Z;
  ssize : Z
}.

Record bump_state := {
  slabs : gmap Z bump_pointer_slab;
  nexts : gmap Z Z;
  curr : Z;
  first : Z;
  free : Z;
  global_free : Z;
  last_allocation_size : Z;
  last_allocation : Z;
  last_allocation_slab : Z;
  (** Addresses of the next slab objects and of their memory. *)
  supply : list (Z * Z)
}.

Inductive free_memory_hint := FREE_HINT_KEEP_SLAB | FREE_HINT_TRY_FREE_SLAB.

(** The four list heads that can be unlinked from or replaced. *)
Definition set_slabs (b : bump_state) (s : gmap Z bump_pointer_slab) : bump_state :=
  {| slabs := s; nexts := nexts b; curr := curr b; first := first b; free := free b;
     global_free := global_free b; last_allocation_size := last_allocation_size b;
     last_allocation := last_allocation b; last_allocation_slab := last_allocation_slab b;
     supply := supply b |}.
Definition set_lists (b : bump_state) (n : gmap Z Z) (c fi fr gf : Z) : bump_state :=
  {| slabs := slabs b; nexts := n; curr := c; first := fi; free := fr; global_free := gf;
     last_allocation_size := last_allocation_size b; last_allocation := last_allocation b;
     last_allocation_slab := last_allocation_slab b; supply := supply b |}.
Definition set_last (b : bump_state) (n a s : Z) : bump_state :=
  {| slabs := slabs b; nexts := nexts b; curr := curr b; first := first b; free := free b;
     global_free := global_free b; last_allocation_size := n; last_allocation := a;
     last_allocation_slab := s; supply := supply b |}.

Definition get_slab (b : bump_state) (p : Z) : outcome bump_pointer_slab :=
  match slabs b !! p with Some s => Ret s | None => Fault end.
Definition get_next (b : bump_state) (p : Z) : outcome Z :=
  match nexts b !! p with Some n => Ret n | None => Fault end.

(** [connect]: the last slab of the list, whose [next] field is null. *)
Fixpoint connect (fuel : nat) (nexts : gmap Z Z) (p : Z) : outcome Z :=
  match fuel with
  | O => OutOfFuel
  | S fuel =>
      match nexts !! p with
      | None => Fault
      | Some n => if n =? 0 then Ret p else connect fuel nexts n
      end
  end.

(** The loop of [slab_search].  An [unlink_ptr] is [None] for the head of the
    list and [Some p] for the [next] field of [p]; the result is the slab
    that was found and the pointer to unlink it through. *)
Fixpoint search_loop (fuel : nat) (b : bump_state) (unlink_ptr : option Z) (found size : Z)
    (bigger : option (option Z * Z)) : outcome (option (option Z * Z)) :=
  match fuel with
  | O => OutOfFuel
  | S fuel =>
      if found =? 0 then Ret bigger
      else
        s ← get_slab b found;
        if ssize s =? size then Ret (Some (unlink_ptr, found))
        else
          better ← (if size <? ssize s then
                      match bigger with
                      | None => Ret true
                      | Some (_, bf) => bs ← get_slab b bf; Ret (ssize s <? ssize bs)
                      end
                    else Ret false);
          n ← get_next b found;
          search_loop fuel b (Some found) n size
            (if (better : bool) then Some (unlink_ptr, found) else bigger)
  end.

(** [slab_search]: the slab or null, the new head and the [next] fields. *)
Definition slab_search (b : bump_state) (head size : Z) : outcome (Z * Z * gmap Z Z) :=
  r ← search_loop (S (base.size (nexts b))) b None head size None;
  match r with
  | None => Ret (0, head, nexts b)
  | Some (unlink_ptr, found) =>
      n ← get_next b found;
      match unlink_ptr with
      | None => Ret (found, n, nexts b)
      | Some p => Ret (found, head, <[p := n]> (nexts b))
      end
  end.

Section Allocator.
Context `{bump_config}.

(** [initialise:] of [allocate_slab]. *)
Definition initialise_slab (b : bump_state) (found : Z) : outcome (bump_state * Z) :=
  s ← get_slab b found;
  ASSERT (SLAB_SIZE <=? ssize s) ≫= fun _ =>
  Ret (set_lists
    (set_slabs b (<[found := {| memory := memory s; index := 0; remaining := ssize s; ssize := ssize s |}]> (slabs b)))
    (<[found := 0]> (nexts b)) (curr b) (first b) (free b) (global_free b), found).

(** A new slab object and its memory. *)
Definition new_slab (b : bump_state) (size : Z) : outcome (bump_state * Z) :=
  match supply b with
  | [] => Fault
  | (obj, mem) :: rest =>
      Ret ({| slabs := <[obj := {| memory := mem; index := 0; remaining := 0; ssize := size |}]> (slabs b);
              nexts := <[obj := 0]> (nexts b); curr := curr b; first := first b; free := free b;
              global_free := global_free b; last_allocation_size := last_allocation_size b;
              last_allocation := last_allocation b; last_allocation_slab := last_allocation_slab b;
              supply := rest |}, obj)
  end.

(** [allocate_slab]; the lock of the global free list is free, as no other
    CPU holds it. *)
Definition allocate_slab (b : bump_state) (size : Z) : outcome (bump_state * Z) :=
  r ← (if free b =? 0 then Ret (0, b)
       else
         fhn ← slab_search b (free b) size;
         let '(found, head, n) := fhn in
         Ret (found, set_lists b n (curr b) (first b) head (global_free b)));
  let '(found, b) := r in
  if negb (found =? 0) then initialise_slab b found
  else
    r ← (if SHARE_DEAD_SLABS && negb (global_free b =? 0) then
           fhn ← slab_search b (global_free b) size;
           let '(found, head, n) := fhn in
           Ret (found, set_lists b n (curr b) (first b) (free b) head)
         else Ret (0, b));
    let '(found, b) := r in
    if negb (found =? 0) then initialise_slab b found
    else
      bf ← new_slab b size;
      initialise_slab bf.1 bf.2.

(** Push a new slab on the list of slabs in use. *)
Definition push_slab (b : bump_state) (slab_size : Z) : outcome bump_state :=
  bs ← allocate_slab b slab_size;
  let '(b, new_curr) := bs in
  Ret (set_lists b (<[new_curr := curr b]> (nexts b)) new_curr
         (if first b =? 0 then new_curr else first b) (free b) (global_free b)).

(** The [for] loop of [allocate_bare], from the [i]-th iteration; it ends at
    the [break], or returns early on a staged allocation. *)
Fixpoint bare_loop (iters : nat) (b : bump_state) (align size slab_size : Z) (got_slab : bool)
    : outcome (bump_state * bool) :=
  match iters with
  | O => Ret (b, false)
  | S iters =>
      ASSERT (negb got_slab) ≫= fun _ =>
      need ← (if curr b =? 0 then Ret true
              else
                c ← get_slab b (curr b);
                if remaining c <? size then ASSERT (0 <? index c) ≫= fun _ => Ret true
                else Ret false);
      b ← (if (need : bool) then push_slab b slab_size else Ret b);
      if size =? 0 then Ret (b, true)
      else
        c ← get_slab b (curr b);
        ASSERT (index c <=? ssize c) ≫= fun _ =>
        ASSERT (remaining c <=? ssize c) ≫= fun _ =>
        let align_offset := u32 (ALIGN_TO (u64 (memory c + index c)) align) in
        let aligned_size := u32 (size + align_offset) in
        if aligned_size <=? remaining c then
          Ret (set_slabs b (<[curr b := {| memory := memory c; index := u32 (index c + align_offset);
                 remaining := u32 (remaining c - align_offset); ssize := ssize c |}]> (slabs b)), true)
        else
          bare_loop iters
            (set_slabs b (<[curr b := {| memory := memory c; index := ssize c; remaining := 0;
                                         ssize := ssize c |}]> (slabs b)))
            align size slab_size need
  end.

Definition allocate_bare (b : bump_state) (align size : Z) : outcome (bump_state * Z) :=
  let b := set_last b 0 0 0 in
  let slab_size := u32 (size + ALIGN_TO size SLAB_SIZE) in
  let slab_size := if slab_size =? 0 then SLAB_SIZE else slab_size in
  ASSERT (SLAB_SIZE <=? slab_size) ≫= fun _ =>
  br ← bare_loop 3 b align size slab_size false;
  let '(b, done) := br in
  c ← get_slab b (curr b);
  if size =? 0 then Ret (b, u64 (memory c + index c))
  else
    ASSERT done ≫= fun _ =>
    ASSERT (size <=? remaining c) ≫= fun _ =>
    let ret := u64 (memory c + index c) in
    let b := set_last b size ret (curr b) in
    let c' := {| memory := memory c; index := u32 (index c + size);
                 remaining := u32 (remaining c - size); ssize := ssize c |} in
    let b := set_slabs b (<[curr b := c']> (slabs b)) in
    ASSERT (u32 (index c' + remaining c') =? ssize c') ≫= fun _ =>
    ASSERT (0 =? ret mod align) ≫= fun _ =>
    Ret (b, ret).

Definition try_free_curr (b : bump_state) (had_slab : bool) : outcome (bump_state * bool) :=
  c ← get_slab b (curr b);
  if negb had_slab || (index c =? 0) then
    n ← get_next b (curr b);
    Ret (set_lists b (<[curr b := free b]> (nexts b)) n (first b) (curr b) (global_free b), true)
  else Ret (b, false).

(** The splice of the free list onto the global one. *)
Definition share_free (b : bump_state) : outcome bump_state :=
  if free b =? 0 then Ret b
  else
    e ← connect (S (size (nexts b))) (nexts b) (free b);
    Ret (set_lists b (<[e := global_free b]> (nexts b)) (curr b) (first b) 0 (free b)).

Definition try_share_free : bump_state -> outcome bump_state := share_free.

Definition allocate_staged (b : bump_state) : outcome (bump_state * Z) :=
  let had_slab := negb (curr b =? 0) in
  br ← allocate_bare b MIN_ALIGN 0;
  let '(b, ret) := br in
  b ← (if SHARE_DEAD_SLABS then
         bf ← try_free_curr b had_slab;
         if (bf.2 : bool) then try_share_free bf.1 else Ret bf.1
       else Ret b);
  Ret (b, ret).

Definition free_last (b : bump_state) (hint : free_memory_hint) : outcome bump_state :=
  b ← (if negb (curr b =? 0) && negb (last_allocation_size b =? 0)
          && (curr b =? last_allocation_slab b) then
         c ← get_slab b (curr b);
         let n := last_allocation_size b in
         ASSERT (u32 (index c + remaining c) =? ssize c) ≫= fun _ =>
         ASSERT (n <=? index c) ≫= fun _ =>
         ASSERT (u64 (last_allocation b + n) =? u64 (memory c + index c)) ≫= fun _ =>
         let c' := {| memory := memory c; index := u32 (index c - n);
                      remaining := u32 (remaining c + n); ssize := ssize c |} in
         let b := set_slabs b (<[curr b := c']> (slabs b)) in
         ASSERT (index c' <=? ssize c') ≫= fun _ =>
         ASSERT (u32 (index c' + remaining c') =? ssize c') ≫= fun _ =>
         match hint with
         | FREE_HINT_TRY_FREE_SLAB =>
             if SHARE_DEAD_SLABS then
               bf ← try_free_curr b true;
               if (bf.2 : bool) then try_share_free bf.1 else Ret bf.1
             else Ret b
         | FREE_HINT_KEEP_SLAB => Ret b
         end
       else Ret b);
  Ret (set_last b 0 0 0).

(** Move the slabs in use in front of the free list (part of [free_all]). *)
Definition collect_curr (b : bump_state) : outcome bump_state :=
  b ← (if first b =? 0 then Ret b
       else
         n ← get_next b (first b);
         ASSERT (n =? 0) ≫= fun _ =>
         ASSERT (negb (curr b =? 0)) ≫= fun _ =>
         Ret (set_lists b (<[first b := free b]> (nexts b)) (curr b) 0 (free b) (global_free b)));
  Ret (if curr b =? 0 then b else set_lists b (nexts b) 0 (first b) (curr b) (global_free b)).

Definition free_all (b : bump_state) : outcome bump_state :=
  if negb TRANSIENT || SHARED then Fault
  else
    b ← collect_curr (set_last b 0 0 0);
    if SHARE_DEAD_SLABS then share_free b else Ret b.

End Allocator.

(** ** Invariant *)
Section bump_lemmas.
Context `{bump_config}.

Record slab_ok (s : bump_pointer_slab) : Prop := {
  so_memory : 0 < memory s /\ memory s + ssize s < 2 ^ 64;
  so_size : SLAB_SIZE <= ssize s < 2 ^ 31;
  so_index : 0 <= index s;
  so_remaining : 0 <= remaining s;
  so_sum : index s + remaining s = ssize s
}.

(** The memories of two slabs do not overlap. *)
Definition apart (s1 s2 : bump_pointer_slab) : Prop :=
  memory s1 + ssize s1 <= memory s2 \/ memory s2 + ssize s2 <= memory s1.

Definition slabs_apart (m : gmap Z bump_pointer_slab) (L : list Z) : Prop :=
  forall p q sp sq, p ∈ L -> q ∈ L -> p <> q -> m !! p = Some sp -> m !! q = Some sq -> apart sp sq.

(** [lc], [lf] and [lg] are the slabs in use, free, and globally free. *)
Record bump_wf (b : bump_state) (lc lf lg : list Z) : Prop := {
  bw_curr : chain (nexts b) (curr b) lc;
  bw_free : chain (nexts b) (free b) lf;
  bw_global : chain (nexts b) (global_free b) lg;
  bw_nodup : NoDup (lc ++ lf ++ lg);
  bw_slabs : forall p, p ∈ lc ++ lf ++ lg -> exists s, slabs b !! p = Some s /\ slab_ok s;
  bw_apart : slabs_apart (slabs b) (lc ++ lf ++ lg)
}.

(** The bytes that have been given out, with the gaps between them. *)
Definition used (b : bump_state) (lc : list Z) (x : Z) : Prop :=
  exists p s, p ∈ lc /\ slabs b !! p = Some s /\ memory s <= x < memory s + index s.

(** Slabs that are the same but for their indices are apart as before. *)
Lemma slabs_apart_sub m m' L L' :
  (forall p, p ∈ L' -> p ∈ L) ->
  (forall p s', p ∈ L' -> m' !! p = Some s' -> exists s, m !! p = Some s /\ memory s = memory s' /\ ssize s = ssize s') ->
  slabs_apart m L -> slabs_apart m' L'.
Proof.
  intros HL Hm Ha p q sp sq Hp Hq Hne Ep Eq. destruct (Hm p sp Hp Ep) as (sp0 & Ep0 & M1 & S1).
  destruct (Hm q sq Hq Eq) as (sq0 & Eq0 & M2 & S2).
  specialize (Ha p q sp0 sq0 (HL p Hp) (HL q Hq) Hne Ep0 Eq0). unfold apart in *. lia.
Qed.

(** A slab that is apart from all others. *)
Lemma slabs_apart_cons m L p s :
  m !! p = Some s -> (forall q sq, q ∈ L -> m !! q = Some sq -> apart s sq) -> slabs_apart m L ->
  slabs_apart m (p :: L).
Proof.
  intros Hp Hs HL q r sq sr Hq Hr Hne Eq Er.
  apply elem_of_cons in Hq as [->|Hq]; apply elem_of_cons in Hr as [->|Hr]; try done.
  - rewrite Hp in Eq. injection Eq as <-. by eapply Hs.
  - rewrite Hp in Er. injection Er as <-. specialize (Hs q sq Hq Eq). unfold apart in *. lia.
  - by apply (HL q r).
Qed.

Definition size_of (b : bump_state) (p : Z) : Z :=
  match slabs b !! p with Some s => ssize s | None => 0 end.

(** An element of a list together with what points at it. *)
Definition entry (L : list Z) (e : option Z * Z) : Prop :=
  exists l1 l2, L = l1 ++ e.2 :: l2 /\ e.1 = last l1.

(** A best fit among [L]: none is large enough, or the one found is large
    enough and no larger than any other that is. *)
Definition best_fit (b : bump_state) (L : list Z) (size : Z) (r : option (option Z * Z)) : Prop :=
  match r with
  | None => forall x, x ∈ L -> size_of b x < size
  | Some e => entry L e /\ size <= size_of b e.2 /\
      forall x, x ∈ L -> size <= size_of b x -> size_of b e.2 <= size_of b x
  end.

Lemma get_slab_some b p s : slabs b !! p = Some s -> get_slab b p = Ret s.
Proof. intros E. unfold get_slab. by rewrite E. Qed.

Lemma get_next_some b p n : nexts b !! p = Some n -> get_next b p = Ret n.
Proof. intros E. unfold get_next. by rewrite E. Qed.

Lemma search_loop_spec b size pre l fuel found bigger :
  (forall p, p ∈ pre ++ l -> is_Some (slabs b !! p)) ->
  chain (nexts b) found l -> (length l < fuel)%nat ->
  best_fit b pre size bigger -> (forall x, x ∈ pre -> size_of b x <> size) ->
  exists r, search_loop fuel b (last pre) found size bigger = Ret r /\ best_fit b (pre ++ l) size r.
Proof.
  revert pre found fuel bigger. induction l as [|a l IH]; intros pre found fuel bigger Hs Hc Hf Hb Hne;
    (destruct fuel as [|fuel]; [cbn in Hf; lia|]); cbn in Hc.
  - subst found. exists bigger. by rewrite app_nil_r.
  - destruct Hc as (-> & Ha & n & Hn & Hc). cbn [search_loop]. destruct (Z.eqb_spec a 0); [done|].
    destruct (Hs a) as [s Hsa]; [apply elem_of_app; right; by left|].
    rewrite (get_slab_some b a s Hsa). cbn [mbind outcome_bind].
    assert (Hsz : size_of b a = ssize s) by (unfold size_of; by rewrite Hsa).
    destruct (Z.eqb_spec (ssize s) size) as [Heq|Hneq].
    + exists (Some (last pre, a)). split; [done|]. cbn. split; [by exists pre, l|]. rewrite Hsz. split; lia.
    + assert (Hstep : forall bigger', best_fit b (pre ++ [a]) size bigger' ->
        exists r, search_loop fuel b (Some a) n size bigger' = Ret r /\ best_fit b (pre ++ a :: l) size r).
      { intros bigger' Hb'. replace (pre ++ a :: l) with ((pre ++ [a]) ++ l) by by rewrite <- app_assoc.
        replace (Some a) with (last (pre ++ [a])) by apply last_snoc.
        apply IH; [by rewrite <- app_assoc|done|cbn in Hf; lia|done|].
        intros x Hx. apply elem_of_app in Hx as [Hx|Hx]; [by apply Hne|].
        apply list_elem_of_singleton in Hx as ->. lia. }
      rewrite (get_next_some b a n Hn).
      destruct (Z.ltb_spec size (ssize s)) as [Hlt|Hge].
      * destruct bigger as [[u bf]|].
        -- destruct Hb as ((l1 & l2 & Hpre & Hu) & Hle & Hmin). cbn in Hpre, Hu, Hle, Hmin.
           destruct (Hs bf) as [sb Hsb]; [rewrite Hpre; apply elem_of_app; left; apply elem_of_app; right; by left|].
           rewrite (get_slab_some b bf sb Hsb). cbn [mbind outcome_bind].
           assert (Hszb : size_of b bf = ssize sb) by (unfold size_of; by rewrite Hsb).
           destruct (Z.ltb_spec (ssize s) (ssize sb)); cbn [mbind outcome_bind]; apply Hstep; cbn.
           ++ split; [by exists pre, []|]. split; [lia|]. intros x Hx Hxs.
              apply elem_of_app in Hx as [Hx|Hx]; [specialize (Hmin x Hx Hxs); lia|].
              apply list_elem_of_singleton in Hx as ->. lia.
           ++ split; [exists l1, (l2 ++ [a]); rewrite Hpre, <- app_assoc; done|]. split; [lia|]. intros x Hx Hxs.
              apply elem_of_app in Hx as [Hx|Hx]; [by apply Hmin|].
              apply list_elem_of_singleton in Hx as ->. lia.
        -- cbn [mbind outcome_bind]. apply Hstep. cbn. split; [by exists pre, []|]. split; [lia|].
           intros x Hx Hxs. apply elem_of_app in Hx as [Hx|Hx]; [specialize (Hb x Hx); lia|].
           apply list_elem_of_singleton in Hx as ->. lia.
      * cbn [mbind outcome_bind]. apply Hstep. destruct bigger as [[u bf]|]; cbn in *.
        -- destruct Hb as ((l1 & l2 & Hpre & Hu) & Hle & Hmin).
           split; [exists l1, (l2 ++ [a]); cbn in *; rewrite Hpre, <- app_assoc; done|]. split; [done|].
           intros x Hx Hxs. apply elem_of_app in Hx as [Hx|Hx]; [by apply Hmin|].
           apply list_elem_of_singleton in Hx as ->. lia.
        -- intros x Hx. apply elem_of_app in Hx as [Hx|Hx]; [by apply Hb|].
           apply list_elem_of_singleton in Hx as ->. lia.
Qed.

(** [slab_search] takes a best fit out of the list, or finds none. *)
Lemma slab_search_spec b size head l :
  chain (nexts b) head l -> NoDup l -> (forall p, p ∈ l -> is_Some (slabs b !! p)) ->
  exists found head' n', slab_search b head size = Ret (found, head', n') /\
    ((found = 0 /\ head' = head /\ n' = nexts b /\ forall x, x ∈ l -> size_of b x < size) \/
     (exists l1 l2, l = l1 ++ found :: l2 /\ found <> 0 /\ size <= size_of b found /\
        (forall x, x ∈ l -> size <= size_of b x -> size_of b found <= size_of b x) /\
        chain n' head' (l1 ++ l2) /\ (forall x, x ∉ l1 -> n' !! x = nexts b !! x))).
Proof.
  intros Hc Hnd Hs. unfold slab_search. pose proof (chain_length _ _ _ Hc Hnd) as Hlen.
  destruct (search_loop_spec b size [] l (S (base.size (nexts b))) head None) as (r & Hr & Hb); try done; try lia.
  { cbn. intros x Hx. by apply elem_of_nil in Hx. }
  { intros x Hx. by apply elem_of_nil in Hx. }
  cbn [last app] in Hr, Hb. rewrite Hr. cbn [mbind outcome_bind].
  destruct r as [[u f]|]; [|eexists _, _, _; split; [done|]; left; done].
  destruct Hb as ((l1 & l2 & El & Hu) & Hle & Hmin). cbn in El, Hu, Hle, Hmin.
  assert (Hf : f ∈ l) by (rewrite El; apply elem_of_app; right; by left).
  destruct (nexts b !! f) as [n|] eqn:Hn.
  2:{ pose proof (chain_dom _ _ _ Hc f Hf) as Hd. apply elem_of_dom in Hd as [? ?]. congruence. }
  rewrite (get_next_some b f n Hn). cbn [mbind outcome_bind]. rewrite El in Hc, Hnd.
  pose proof (chain_unlink _ _ _ _ _ _ Hc Hnd Hn) as Hun. rewrite <- Hu in Hun.
  pose proof (chain_nonnull _ _ _ Hc f) as Hnz. specialize (Hnz ltac:(rewrite <- El; done)).
  destruct u as [p|]; eexists _, _, _; (split; [done|]); right; exists l1, l2; repeat split; try done.
  - intros x Hx. apply lookup_insert_ne. intros ->. apply Hx. apply last_Some_elem_of. congruence.
  - symmetry in Hu. apply last_None in Hu as ->. done.
Qed.

(** What [allocate_slab] returns: an empty slab that is in no list. *)
Record fresh_slab (b b' : bump_state) (p size : Z) (lc lf lg : list Z) (s : bump_pointer_slab) : Prop := {
  fs_wf : bump_wf b' lc lf lg;
  fs_nonnull : p <> 0;
  fs_out : p ∉ lc ++ lf ++ lg;
  fs_slab : slabs b' !! p = Some s;
  fs_ok : slab_ok s;
  fs_empty : index s = 0;
  fs_size : size <= ssize s;
  fs_apart : forall q sq, q ∈ lc ++ lf ++ lg -> slabs b' !! q = Some sq -> apart s sq;
  fs_curr : curr b' = curr b;
  fs_first : first b' = first b;
  fs_others : forall x, x <> p -> slabs b' !! x = slabs b !! x
}.

Lemma initialise_slab_spec b lc lf lg p s size :
  bump_wf b lc lf lg -> p <> 0 -> p ∉ lc ++ lf ++ lg -> slabs b !! p = Some s ->
  0 < memory s /\ memory s + ssize s < 2 ^ 64 -> 0 < SLAB_SIZE <= ssize s -> ssize s < 2 ^ 31 ->
  size <= ssize s -> (forall q sq, q ∈ lc ++ lf ++ lg -> slabs b !! q = Some sq -> apart s sq) ->
  exists b', initialise_slab b p = Ret (b', p) /\
    fresh_slab b b' p size lc lf lg
      {| memory := memory s; index := 0; remaining := ssize s; ssize := ssize s |}.
Proof.
  intros [Hc Hf Hg Hnd Hs Hap] Hp Hout Hsp Hmem Hss Hlt Hsize Hfar. unfold initialise_slab.
  rewrite (get_slab_some b p s Hsp). cbn [mbind outcome_bind].
  destruct (Z.leb_spec SLAB_SIZE (ssize s)); [|lia]. cbn [ASSERT mbind outcome_bind].
  eexists. split; [done|].
  assert (Hch : forall h l, (forall x, x ∈ l -> x ∈ lc ++ lf ++ lg) -> chain (nexts b) h l ->
    chain (<[p := 0]> (nexts b)) h l).
  { intros h l Hin. apply chain_cong. intros x Hx. apply lookup_insert_ne. intros ->. by apply Hout, Hin. }
  split; cbn [set_lists set_slabs slabs nexts curr first]; try done.
  - split; cbn [set_lists set_slabs slabs nexts curr free global_free]; try done.
    1-3: apply Hch; [intros x; rewrite !elem_of_app; tauto|done].
    + intros x Hx. rewrite lookup_insert_ne; [by apply Hs|]. intros ->. done.
    + apply (slabs_apart_sub (slabs b) _ (lc ++ lf ++ lg)); [done| |done]. intros x s' Hx.
      rewrite lookup_insert_ne by (intros ->; done). eauto.
  - by rewrite lookup_insert_eq.
  - split; cbn; lia.
  - intros q sq Hq. rewrite lookup_insert_ne by (intros ->; done). by apply Hfar.
  - intros x Hx. by rewrite lookup_insert_ne.
Qed.

(** Taking a slab out of one of the two free lists keeps the three lists. *)
Lemma take_wf b lc lf lg l1 p l2 n head' (from_free : bool) :
  bump_wf b lc lf lg -> (if from_free then lf else lg) = l1 ++ p :: l2 ->
  chain n head' (l1 ++ l2) -> (forall x, x ∉ l1 -> n !! x = nexts b !! x) ->
  let b1 := if from_free then set_lists b n (curr b) (first b) head' (global_free b)
            else set_lists b n (curr b) (first b) (free b) head' in
  bump_wf b1 lc (if from_free then l1 ++ l2 else lf) (if from_free then lg else l1 ++ l2) /\
  p ∉ lc ++ (if from_free then l1 ++ l2 else lf) ++ (if from_free then lg else l1 ++ l2).
Proof.
  intros [Hc Hf Hg Hnd Hs Hap] El Hch Hn b1.
  assert (Hperm : lc ++ lf ++ lg ≡ₚ p :: lc ++ (if from_free then l1 ++ l2 else lf) ++
    (if from_free then lg else l1 ++ l2)).
  { destruct from_free; rewrite El; rewrite <- ?app_assoc; cbn [app]; rewrite <- !Permutation_middle; done. }
  rewrite Hperm in Hnd. apply NoDup_cons in Hnd as [Hpn Hnd].
  assert (Hcong : forall h l, (forall x, x ∈ l -> x ∉ l1) -> chain (nexts b) h l -> chain n h l).
  { intros h l Hin. apply chain_cong. intros x Hx. by apply Hn, Hin. }
  assert (Hdis : forall x, x ∈ l1 -> (x ∉ lc) /\ x ∉ (if from_free then lg else lf)).
  { intros x Hx. destruct from_free; apply NoDup_app in Hnd as (_ & Hd1 & Hnd);
      apply NoDup_app in Hnd as (_ & Hd2 & _); split; intros Hx'.
    - apply (Hd1 x Hx'). rewrite !elem_of_app. tauto.
    - apply (Hd2 x); [rewrite elem_of_app; tauto|done].
    - apply (Hd1 x Hx'). rewrite !elem_of_app. tauto.
    - apply (Hd2 x Hx'). rewrite elem_of_app. tauto. }
  split; [|done]. destruct from_free; subst b1; split; cbn [set_lists slabs nexts curr free global_free]; try done.
  1, 2, 5, 6: apply Hcong; [|done]; intros x Hx Hx1; apply Hdis in Hx1; tauto.
  1, 3: intros x Hx; apply Hs; rewrite Hperm; by right.
  1, 2: apply (slabs_apart_sub (slabs b) _ (lc ++ lf ++ lg)); [|eauto|done]; intros x Hx; rewrite Hperm; by right.
Qed.

(** The supply of new slabs: an object that is not in use, with memory that
    does not wrap and overlaps no slab. *)
Definition supply_ok (b : bump_state) (size : Z) (L : list Z) : Prop :=
  exists obj mem rest, supply b = (obj, mem) :: rest /\ obj <> 0 /\ (obj ∉ L) /\ 0 < mem /\ mem + size < 2 ^ 64 /\
    forall q sq, q ∈ L -> slabs b !! q = Some sq ->
      apart {| memory := mem; index := 0; remaining := 0; ssize := size |} sq.

(** Where the memory of a fresh slab comes from. *)
Definition memory_origin (b : bump_state) (p : Z) (s : bump_pointer_slab) : Prop :=
  (exists s0, slabs b !! p = Some s0 /\ memory s = memory s0) \/
  exists obj mem rest, supply b = (obj, mem) :: rest /\ memory s = mem.

(** A slab found in one of the lists. *)
Lemma found_slab_spec b lc lf lg size (ff : bool) l1 p l2 n head' :
  bump_wf b lc lf lg -> 0 < SLAB_SIZE <= size ->
  (if ff then lf else lg) = l1 ++ p :: l2 -> p <> 0 -> size <= size_of b p ->
  chain n head' (l1 ++ l2) -> (forall x, x ∉ l1 -> n !! x = nexts b !! x) ->
  exists b' lf' lg' s, initialise_slab (if ff then set_lists b n (curr b) (first b) head' (global_free b)
      else set_lists b n (curr b) (first b) (free b) head') p = Ret (b', p) /\
    fresh_slab b b' p size lc lf' lg' s /\ memory_origin b p s.
Proof.
  intros Hwf Hsz El Hp Hle Hch Hn. pose proof (bw_slabs _ _ _ _ Hwf) as Hs.
  destruct (take_wf b lc lf lg l1 p l2 n head' ff Hwf El Hch Hn) as [Hwf1 Hout].
  destruct (Hs p) as (s0 & Hs0 & [Hm0 Hss0 _ _ _]).
  { rewrite !elem_of_app. destruct ff; rewrite El; rewrite elem_of_app, elem_of_cons; tauto. }
  unfold size_of in Hle. rewrite Hs0 in Hle.
  assert (HpL : p ∈ lc ++ lf ++ lg).
  { rewrite !elem_of_app. destruct ff; rewrite El; rewrite elem_of_app, elem_of_cons; tauto. }
  destruct (initialise_slab_spec _ _ _ _ p s0 size Hwf1 Hp Hout) as (b' & Hini & Hfresh); try lia.
  { by destruct ff. }
  { intros q sq Hq Eq. apply (bw_apart _ _ _ _ Hwf p q); [done| |intros ->; done|done|by destruct ff].
    rewrite !elem_of_app in *. destruct ff; rewrite El, ?elem_of_app in *; rewrite ?elem_of_cons; tauto. }
  exists b', (if ff then l1 ++ l2 else lf), (if ff then lg else l1 ++ l2). eexists. split; [exact Hini|]. split.
  - destruct Hfresh. by split; destruct ff.
  - left. by exists s0.
Qed.

(** A slab from the global allocators. *)
Lemma new_slab_spec b lc lf lg size :
  bump_wf b lc lf lg -> 0 < SLAB_SIZE <= size -> size < 2 ^ 31 -> supply_ok b size (lc ++ lf ++ lg) ->
  exists b' p s, (bf ← new_slab b size; initialise_slab bf.1 bf.2) = Ret (b', p) /\
    fresh_slab b b' p size lc lf lg s /\ memory_origin b p s.
Proof.
  intros [Hc Hf Hg Hnd Hs Hap] Hsz Hlt (obj & mem & rest & Hsup & Hobj & Hobjn & Hmem & Hmemlt & Hfar).
  unfold new_slab. rewrite Hsup. cbn [mbind outcome_bind fst snd].
  match goal with |- context [initialise_slab ?b1 obj] =>
    destruct (initialise_slab_spec b1 lc lf lg obj
      {| memory := mem; index := 0; remaining := 0; ssize := size |} size) as (b' & -> & Hfresh) end;
    cbn [memory ssize slabs]; try done; try lia.
  - assert (Hch : forall h l, (forall x, x ∈ l -> x ∈ lc ++ lf ++ lg) -> chain (nexts b) h l ->
      chain (<[obj := 0]> (nexts b)) h l).
    { intros h l Hin. apply chain_cong. intros x Hx. apply lookup_insert_ne. intros ->. by apply Hobjn, Hin. }
    split; cbn [nexts curr free global_free slabs]; try done.
    1-3: apply Hch; [intros x; rewrite !elem_of_app; tauto|done].
    + intros x Hx. rewrite lookup_insert_ne; [by apply Hs|]. intros ->. done.
    + apply (slabs_apart_sub (slabs b) _ (lc ++ lf ++ lg)); [done| |done]. intros x s' Hx.
      rewrite lookup_insert_ne by (intros ->; done). eauto.
  - by rewrite lookup_insert_eq.
  - intros q sq Hq. rewrite lookup_insert_ne by (intros ->; done). by apply Hfar.
  - exists b', obj, {| memory := mem; index := 0; remaining := size; ssize := size |}.
    split; [done|]. split; [|right; by exists obj, mem, rest]. destruct Hfresh as [? ? ? ? ? ? ? ? ? ? Hoth].
    split; try done. intros x Hx. rewrite Hoth by done. cbn [slabs]. by rewrite lookup_insert_ne.
Qed.

(** The end of [allocate_slab], after the free list has been searched. *)
Lemma allocate_slab_global b lc lf lg size :
  bump_wf b lc lf lg -> 0 < SLAB_SIZE <= size -> size < 2 ^ 31 -> supply_ok b size (lc ++ lf ++ lg) ->
  exists b' p lf' lg' s,
    (r ← (if SHARE_DEAD_SLABS && negb (global_free b =? 0) then
            fhn ← slab_search b (global_free b) size;
            let '(found, head, n) := fhn in
            Ret (found, set_lists b n (curr b) (first b) (free b) head)
          else Ret (0, b));
     let '(found, b) := r in
     if negb (found =? 0) then initialise_slab b found
     else bf ← new_slab b size; initialise_slab bf.1 bf.2) = Ret (b', p) /\
    fresh_slab b b' p size lc lf' lg' s /\ memory_origin b p s.
Proof.
  intros Hwf Hsz Hlt Hsup. pose proof Hwf as [Hc Hf Hg Hnd Hs _].
  destruct (new_slab_spec b lc lf lg size Hwf Hsz Hlt Hsup) as (bn & pn & sn & Hnew & Hfn & Hmn).
  destruct (_ && _); [|cbn [mbind outcome_bind]; exists bn, pn, lf, lg, sn; eauto].
  assert (Hng : NoDup lg) by (apply NoDup_app in Hnd as (_ & _ & Hnd); apply NoDup_app in Hnd; tauto).
  destruct (slab_search_spec b size (global_free b) lg) as (found & head' & n' & -> & [(-> & -> & -> & _)|
    (l1 & l2 & El & Hfn0 & Hle & _ & Hch & Hn)]); [done|done|..].
  { intros p Hp. destruct (Hs p) as (? & ? & _); [rewrite !elem_of_app; tauto|eauto]. }
  - cbn [mbind outcome_bind]. replace (set_lists b (nexts b) (curr b) (first b) (free b) (global_free b)) with b
      by by destruct b. exists bn, pn, lf, lg, sn. eauto.
  - cbn [mbind outcome_bind]. destruct (Z.eqb_spec found 0); [done|]. cbn [negb].
    destruct (found_slab_spec b lc lf lg size false l1 found l2 n' head') as (b' & lf' & lg' & s & ? & ? & ?);
      try done. exists b', found, lf', lg', s. eauto.
Qed.

Lemma allocate_slab_spec b lc lf lg size :
  bump_wf b lc lf lg -> 0 < SLAB_SIZE <= size -> size < 2 ^ 31 -> supply_ok b size (lc ++ lf ++ lg) ->
  exists b' p lf' lg' s, allocate_slab b size = Ret (b', p) /\ fresh_slab b b' p size lc lf' lg' s /\
    memory_origin b p s.
Proof.
  intros Hwf Hsz Hlt Hsup. pose proof Hwf as [Hc Hf Hg Hnd Hs _]. unfold allocate_slab.
  pose proof (allocate_slab_global b lc lf lg size Hwf Hsz Hlt Hsup) as Hrest.
  destruct (Z.eqb_spec (free b) 0); [exact Hrest|].
  assert (Hnf : NoDup lf) by (apply NoDup_app in Hnd as (_ & _ & Hnd); apply NoDup_app in Hnd; tauto).
  destruct (slab_search_spec b size (free b) lf) as (found & head' & n' & -> & [(-> & -> & -> & _)|
    (l1 & l2 & El & Hfn0 & Hle & _ & Hch & Hn)]); [done|done|..].
  { intros p Hp. destruct (Hs p) as (? & ? & _); [rewrite !elem_of_app; tauto|eauto]. }
  - cbn [mbind outcome_bind]. replace (set_lists b (nexts b) (curr b) (first b) (free b) (global_free b)) with b
      by by destruct b. exact Hrest.
  - cbn [mbind outcome_bind]. destruct (Z.eqb_spec found 0); [done|]. cbn [negb].
    destruct (found_slab_spec b lc lf lg size true l1 found l2 n' head') as (b' & lf' & lg' & s & ? & ? & ?);
      try done. exists b', found, lf', lg', s. eauto.
Qed.

(** Pushing a slab makes it the current one. *)
Lemma push_slab_spec b lc lf lg size :
  bump_wf b lc lf lg -> 0 < SLAB_SIZE <= size -> size < 2 ^ 31 -> supply_ok b size (lc ++ lf ++ lg) ->
  exists b' lf' lg' s, push_slab b size = Ret b' /\ bump_wf b' (curr b' :: lc) lf' lg' /\
    slabs b' !! curr b' = Some s /\ slab_ok s /\ index s = 0 /\ size <= ssize s /\ curr b' <> 0 /\
    (curr b' ∉ lc) /\ (forall x, x <> curr b' -> slabs b' !! x = slabs b !! x) /\ memory_origin b (curr b') s.
Proof.
  intros Hwf Hsz Hlt Hsup. unfold push_slab.
  destruct (allocate_slab_spec b lc lf lg size Hwf Hsz Hlt Hsup) as (b1 & p & lf' & lg' & s & -> & [Hwf1 Hp Hout Hsl Hok He Hs Hap Hcu Hfi Hoth] & Hor).
  cbn [mbind outcome_bind]. destruct Hwf1 as [Hc1 Hf1 Hg1 Hnd1 Hs1 Hap1].
  eexists _, lf', lg', s. split; [done|]. cbn [set_lists curr]. rewrite Hcu in *.
  assert (Hpc : (p ∉ lc) /\ (p ∉ lf') /\ (p ∉ lg')) by (rewrite !elem_of_app in Hout; tauto).
  split; [|repeat split; try done; try apply Hok; tauto].
  split; cbn [set_lists nexts curr free global_free slabs].
  - apply chain_push; tauto.
  - apply (chain_cong (nexts b1)); [|done]. intros x Hx. apply lookup_insert_ne. intros ->. tauto.
  - apply (chain_cong (nexts b1)); [|done]. intros x Hx. apply lookup_insert_ne. intros ->. tauto.
  - cbn [app]. by apply NoDup_cons.
  - cbn [app]. intros x Hx. apply elem_of_cons in Hx as [->|Hx]; [by exists s|by apply Hs1].
  - cbn [app]. by apply (slabs_apart_cons _ _ p s).
Qed.

(** Updating the current slab in place. *)
Lemma update_curr_wf b lc lf lg c0 c :
  bump_wf b lc lf lg -> slabs b !! curr b = Some c0 -> memory c = memory c0 -> ssize c = ssize c0 -> slab_ok c -> bump_wf (set_slabs b (<[curr b := c]> (slabs b))) lc lf lg.
Proof.
  intros [Hc Hf Hg Hnd Hs Hap] H0 Hm Hz Hok. split; cbn [set_slabs slabs nexts curr free global_free]; try done.
  - intros p Hp. destruct (decide (p = curr b)) as [->|Hne].
    + exists c. by rewrite lookup_insert_eq.
    + rewrite lookup_insert_ne by done. by apply Hs.
  - apply (slabs_apart_sub (slabs b) _ (lc ++ lf ++ lg)); [done| |done]. intros p s' Hp.
    destruct (decide (p = curr b)) as [->|Hne].
    + rewrite lookup_insert_eq. intros [= <-]. by exists c0.
    + rewrite lookup_insert_ne by done. eauto.
Qed.

Lemma curr_slab b lc lf lg :
  bump_wf b lc lf lg -> curr b <> 0 -> exists c, slabs b !! curr b = Some c /\ slab_ok c.
Proof.
  intros [Hc _ _ _ Hs _] Hn. destruct lc as [|a lc]; [done|]. cbn in Hc. destruct Hc as (-> & _).
  apply Hs. by left.
Qed.

Lemma curr_in b lc lf lg : bump_wf b lc lf lg -> curr b <> 0 -> curr b ∈ lc.
Proof. intros [Hc _ _ _ _ _] Hn. destruct lc as [|a lc]; [done|]. cbn in Hc. destruct Hc as (-> & _). by left. Qed.

(** Every slab starts at a multiple of the alignment. *)
Definition aligned_slabs (b : bump_state) (align : Z) : Prop :=
  (forall p s, slabs b !! p = Some s -> memory s mod align = 0) /\
  (forall obj mem rest, supply b = (obj, mem) :: rest -> mem mod align = 0).

(** What the loop leaves behind: room for the request at an aligned index,
    where nothing has been given out; and what has been given out still is. *)
Record room (b b' : bump_state) (lc : list Z) (align size : Z) (c' : bump_pointer_slab) : Prop := {
  rm_wf : exists lc' lf' lg', bump_wf b' lc' lf' lg' /\ (curr b' ∈ lc') /\ forall x, used b lc x -> used b' lc' x;
  rm_curr : curr b' <> 0;
  rm_slab : slabs b' !! curr b' = Some c';
  rm_ok : slab_ok c';
  rm_fits : size <= remaining c';
  rm_aligned : (memory c' + index c') mod align = 0;
  rm_fresh : forall x, memory c' + index c' <= x < memory c' + ssize c' -> ~ used b lc x
}.

(** What is used in the slab [c'] is used there before its index. *)
Lemma used_grows b b' lc lc' c' :
  (forall p, p ∈ lc -> p ∈ lc') -> slabs b' !! curr b' = Some c' ->
  (forall p, p ∈ lc -> p <> curr b' -> slabs b' !! p = slabs b !! p) ->
  (forall c, curr b' ∈ lc -> slabs b !! curr b' = Some c -> memory c = memory c' /\ index c <= index c') ->
  forall x, used b lc x -> used b' lc' x.
Proof.
  intros Hl Hc Hoth Hcur x (p & s & Hp & Hs & Hx). destruct (decide (p = curr b')) as [->|Hne].
  - destruct (Hcur s Hp Hs) as [? ?]. exists (curr b'), c'. split; [auto|]. split; [done|]. lia.
  - exists p, s. split; [auto|]. by rewrite Hoth.
Qed.

(** The rest of the current slab is not used. *)
Lemma rest_unused b b' lc lc' lf lg c' :
  bump_wf b' lc' lf lg -> (curr b' ∈ lc') -> (forall p, p ∈ lc -> p ∈ lc') -> slabs b' !! curr b' = Some c' ->
  0 <= index c' ->
  (forall p, p ∈ lc -> p <> curr b' -> slabs b' !! p = slabs b !! p) ->
  (forall c, curr b' ∈ lc -> slabs b !! curr b' = Some c -> memory c = memory c' /\ index c <= index c') ->
  forall x, memory c' + index c' <= x < memory c' + ssize c' -> ~ used b lc x.
Proof.
  intros [_ _ _ _ Hs Hap] Hin Hl Hc Hi Hoth Hcur x Hx (p & s & Hp & Es & Hps).
  destruct (decide (p = curr b')) as [->|Hne].
  - destruct (Hcur s Hp Es). lia.
  - assert (Hp' : p ∈ lc' ++ lf ++ lg) by (apply elem_of_app; auto).
    rewrite <- Hoth in Es by done. destruct (Hs p Hp') as (s1 & E1 & Hok). rewrite Es in E1. injection E1 as <-.
    assert (Hcc : curr b' ∈ lc' ++ lf ++ lg) by (apply elem_of_app; auto).
    specialize (Hap p (curr b') s c' Hp' Hcc Hne Es Hc). destruct Hok. unfold apart in Hap. lia.
Qed.

Section bare.
Context (align size : Z) (Halign : 0 < align < 2 ^ 31) (Hsize : 0 < size) (Hslab : 0 < SLAB_SIZE)
  (Hbound : size + SLAB_SIZE < 2 ^ 31).
Abbreviation slab_size := (size + ALIGN_TO size SLAB_SIZE).

Lemma slab_size_bounds : SLAB_SIZE <= slab_size < 2 ^ 31 /\ size <= slab_size.
Proof.
  pose proof (ALIGN_TO_range size SLAB_SIZE Hslab) as Hr.
  pose proof (ALIGN_TO_aligned size SLAB_SIZE Hslab) as Hm.
  apply Z.mod_divide in Hm as [q Hq]; [|lia].
  assert (0 < q) by nia. repeat split; [nia|lia|lia].
Qed.

Lemma align_offset_spec a :
  0 <= a < 2 ^ 64 -> u32 (ALIGN_TO (u64 a) align) = ALIGN_TO a align /\ 0 <= ALIGN_TO a align < align.
Proof.
  intros Ha. rewrite (wrap_small 64) by done. pose proof (ALIGN_TO_range a align ltac:(lia)) as Hr.
  rewrite wrap_small by lia. done.
Qed.

(** An iteration that needs a slab ends the loop. *)
Lemma bare_loop_push n b lc lf lg need :
  bump_wf b lc lf lg -> supply_ok b slab_size (lc ++ lf ++ lg) -> aligned_slabs b align ->
  (if curr b =? 0 then Ret true
   else c ← get_slab b (curr b);
        if remaining c <? size then ASSERT (0 <? index c) ≫= fun _ => Ret true else Ret false) = Ret need ->
  need = true ->
  exists b' c', bare_loop (S n) b align size slab_size false = Ret (b', true) /\ room b b' lc align size c'.
Proof.
  intros Hwf Hsup [Hal1 Hal2] Hneed ->. cbn [bare_loop negb ASSERT mbind outcome_bind].
  cbn [mbind outcome_bind] in Hneed. rewrite Hneed. cbn [mbind outcome_bind].
  pose proof slab_size_bounds as [Hsb Hsle].
  destruct (push_slab_spec b lc lf lg slab_size) as (b1 & lf' & lg' & s & -> & Hwf1 & Hsl & Hok & Hidx & Hss & Hnz & Hout & Hoth & Hor);
    [done|lia|lia|done|]. cbn [mbind outcome_bind].
  destruct (Z.eqb_spec size 0); [lia|]. rewrite (get_slab_some _ _ _ Hsl). cbn [mbind outcome_bind].
  assert (Hmal : memory s mod align = 0).
  { destruct Hor as [(s0 & Hs0 & ->)|(obj & mem & rest & Hsu & ->)]; eauto. }
  pose proof Hok as [Hm Hsz Hi Hr Hsum].
  destruct (Z.leb_spec (index s) (ssize s)); [|lia]. destruct (Z.leb_spec (remaining s) (ssize s)); [|lia].
  cbn [ASSERT mbind outcome_bind]. destruct (align_offset_spec (memory s + index s)) as [-> Hoff]; [lia|].
  assert (Hz : ALIGN_TO (memory s + index s) align = 0).
  { unfold ALIGN_TO. rewrite Hidx, Z.add_0_r, Hmal. done. }
  rewrite Hz, Z.add_0_r, (wrap_small 32 size) by lia. destruct (Z.leb_spec size (remaining s)); [|lia].
  rewrite !wrap_small by lia.
  set (c' := {| memory := memory s; index := index s + 0; remaining := remaining s - 0; ssize := ssize s |}).
  set (b2 := set_slabs b1 _). assert (Hok' : slab_ok c') by (split; cbn; lia).
  assert (Hwf2 : bump_wf b2 (curr b2 :: lc) lf' lg') by by apply (update_curr_wf b1 (curr b1 :: lc) lf' lg' s).
  assert (Hc2 : slabs b2 !! curr b2 = Some c') by apply lookup_insert_eq.
  assert (Hin : forall p, p ∈ lc -> p ∈ curr b2 :: lc) by (intros; by right).
  assert (Hoth2 : forall p, p ∈ lc -> p <> curr b2 -> slabs b2 !! p = slabs b !! p).
  { intros p _ Hp. cbn [b2 set_slabs slabs]. rewrite lookup_insert_ne by done. by apply Hoth. }
  assert (Hcur : forall c, curr b2 ∈ lc -> slabs b !! curr b2 = Some c -> memory c = memory c' /\ index c <= index c').
  { intros c Hx. by destruct Hout. }
  exists b2, c'. split; [done|]. split; try done; [|cbn; lia|cbn; by rewrite Hidx, !Z.add_0_r|].
  - exists (curr b2 :: lc), lf', lg'. split; [done|]. split; [by left|]. by eapply used_grows.
  - eapply rest_unused; try done; [by left|apply Hok'].
Qed.

Lemma bare_loop_spec b lc lf lg :
  bump_wf b lc lf lg -> supply_ok b slab_size (lc ++ lf ++ lg) -> aligned_slabs b align ->
  (forall c, slabs b !! curr b = Some c -> remaining c < size -> 0 < index c) ->
  exists b' c', bare_loop 3 b align size slab_size false = Ret (b', true) /\ room b b' lc align size c'.
Proof.
  intros Hwf Hsup Hal Hcur.
  destruct (Z.eqb_spec (curr b) 0) as [Hz|Hnz].
  { apply (bare_loop_push 2 b lc lf lg true); try done. by rewrite Hz. }
  destruct (curr_slab b lc lf lg Hwf Hnz) as (c & Hc & Hok). pose proof Hok as [Hm Hsz Hi Hr Hsum].
  destruct (Z.ltb_spec (remaining c) size) as [Hlt|Hge].
  { apply (bare_loop_push 2 b lc lf lg true); try done. destruct (Z.eqb_spec (curr b) 0); [done|].
    rewrite (get_slab_some _ _ _ Hc). cbn [mbind outcome_bind]. specialize (Hcur c Hc Hlt).
    destruct (Z.ltb_spec (remaining c) size); [|lia]. by destruct (Z.ltb_spec 0 (index c)); [|lia]. }
  remember 2%nat as k eqn:Hk.
  cbn [bare_loop negb ASSERT mbind outcome_bind]. destruct (Z.eqb_spec (curr b) 0); [done|].
  rewrite !(get_slab_some _ _ _ Hc). cbn [mbind outcome_bind].
  destruct (Z.ltb_spec (remaining c) size); [lia|]. cbn [mbind outcome_bind].
  destruct (Z.eqb_spec size 0); [lia|]. rewrite !(get_slab_some _ _ _ Hc). cbn [mbind outcome_bind].
  destruct (Z.leb_spec (index c) (ssize c)); [|lia]. destruct (Z.leb_spec (remaining c) (ssize c)); [|lia].
  cbn [ASSERT mbind outcome_bind]. destruct (align_offset_spec (memory c + index c)) as [-> Hoff]; [lia|].
  pose proof (ALIGN_TO_aligned (memory c + index c) align) as Ham. specialize (Ham ltac:(lia)).
  set (off := ALIGN_TO (memory c + index c) align) in *.
  rewrite (wrap_small 32 (size + off)) by lia. destruct (Z.leb_spec (size + off) (remaining c)) as [Hfit|Hno].
  - rewrite !wrap_small by lia.
    set (c' := {| memory := memory c; index := index c + off; remaining := remaining c - off; ssize := ssize c |}).
    set (b2 := set_slabs b _). assert (Hok' : slab_ok c') by (split; cbn; lia).
    assert (Hwf2 : bump_wf b2 lc lf lg) by by apply (update_curr_wf b lc lf lg c).
    assert (Hc2 : slabs b2 !! curr b2 = Some c') by apply lookup_insert_eq.
    assert (Hoth2 : forall p, p ∈ lc -> p <> curr b2 -> slabs b2 !! p = slabs b !! p).
    { intros p _ Hp. by apply lookup_insert_ne. }
    assert (Hcur2 : forall c0, curr b2 ∈ lc -> slabs b !! curr b2 = Some c0 -> memory c0 = memory c' /\ index c0 <= index c').
    { intros c0 _ HH. change (curr b2) with (curr b) in HH. rewrite Hc in HH. injection HH as <-. cbn. lia. }
    assert (Hcin : curr b2 ∈ lc) by by apply (curr_in b lc lf lg).
    exists b2, c'. split; [done|]. split; try done; [|cbn; lia|cbn; by rewrite Z.add_assoc|].
    + exists lc, lf, lg. split; [done|]. split; [done|]. by eapply used_grows.
    + eapply rest_unused; try done. apply Hok'.
  - set (b1 := set_slabs b _).
    assert (Hwf1 : bump_wf b1 lc lf lg) by (apply (update_curr_wf _ _ _ _ c); try done; split; cbn; lia).
    assert (Hc1 : slabs b1 !! curr b1 = Some {| memory := memory c; index := ssize c; remaining := 0; ssize := ssize c |})
      by apply lookup_insert_eq.
    assert (Hu1 : forall x, used b lc x -> used b1 lc x).
    { eapply used_grows; [done|exact Hc1|by intros p _ Hp; apply lookup_insert_ne|].
      intros c0 _ HH. change (curr b1) with (curr b) in HH. rewrite Hc in HH. injection HH as <-. cbn. lia. }
    destruct (bare_loop_push 1 b1 lc lf lg true) as (b' & c' & Hb' & Hroom); try done.
    + destruct Hsup as (obj & mem & rest & ? & ? & ? & ? & ? & Hfar). exists obj, mem, rest. do 5 (split; [done|]).
      intros q sq Hq. cbn [b1 set_slabs slabs]. rewrite lookup_insert. case_decide as Hqc; [|by apply Hfar].
      intros [= <-]. subst q. apply (Hfar _ c Hq Hc).
    + destruct Hal as [Ha1 Ha2]. split; [|done]. intros p s. cbn [b1 set_slabs slabs].
      rewrite lookup_insert. case_decide; [intros [= <-]; cbn; by eapply Ha1|apply Ha1].
    + change (curr b1) with (curr b). destruct (Z.eqb_spec (curr b) 0); [done|].
      rewrite (get_slab_some b1 (curr b) _ Hc1). cbn [mbind outcome_bind remaining index].
      destruct (Z.ltb_spec 0 size); [|lia]. destruct (Z.ltb_spec 0 (ssize c)); [done|lia].
    + exists b', c'. subst k. split; [exact Hb'|]. destruct Hroom as [(lc' & lf' & lg' & Hw & Hin & Hu) ? ? ? ? ? Hfr]. split; try done.
      * exists lc', lf', lg'. auto.
      * intros x Hx Hux. by apply (Hfr x Hx), Hu1.
Qed.

End bare.
End bump_lemmas.

(** The configurations of [granary/state.h] used below. *)
Definition fragment_allocator_config : bump_config :=
  {| SLAB_SIZE := 4096; EXECUTABLE := true; TRANSIENT := false; SHARED := false;
     SHARE_DEAD_SLABS_ := true; MIN_ALIGN := 64 |}.
Definition instruction_allocator_config : bump_config :=
  {| SLAB_SIZE := 4096; EXECUTABLE := true; TRANSIENT := true; SHARED := false;
     SHARE_DEAD_SLABS_ := true; MIN_ALIGN := 1 |}.

(** The constructor, with a supply of slabs. *)
Definition make_bump (supply_ : list (Z * Z)) : bump_state :=
  {| slabs := ∅; nexts := ∅; curr := 0; first := 0; free := 0; global_free := 0;
     last_allocation_size := 0; last_allocation := 0; last_allocation_slab := 0; supply := supply_ |}.

Lemma make_bump_wf `{bump_config} sup : bump_wf (make_bump sup) [] [] [].
Proof.
  split; try done; [constructor|]. intros p Hp. by apply elem_of_nil in Hp.
Qed.

Lemma connect_spec m fuel h l e :
  chain m h (l ++ [e]) -> (length l < fuel)%nat -> connect fuel m h = Ret e.
Proof.
  revert h fuel. induction l as [|a l IH]; intros h fuel Hc Hf; (destruct fuel as [|fuel]; [lia|]); cbn in Hc.
  - destruct Hc as (-> & He & n & Hn & ->). cbn. by rewrite Hn.
  - destruct Hc as (-> & Ha & n & Hn & Hc). cbn. rewrite Hn.
    assert (Hnz : n <> 0). { destruct (l ++ [e]) eqn:E; [by destruct l|]. cbn in Hc. by destruct Hc as (-> & ? & _). }
    destruct (Z.eqb_spec n 0); [done|]. apply IH; [done|cbn in Hf; lia].
Qed.

(** Splicing the free list onto the global one concatenates them. *)
Lemma share_free_spec `{bump_config} b lc lf lg :
  bump_wf b lc lf lg ->
  exists b', share_free b = Ret b' /\ bump_wf b' lc [] (lf ++ lg) /\ curr b' = curr b /\ first b' = first b.
Proof.
  intros [Hc Hf Hg Hnd Hs Hap]. unfold share_free. destruct (Z.eqb_spec (free b) 0) as [Hz|Hnz].
  - destruct lf as [|a lf]; [|cbn in Hf; destruct Hf as (? & ? & _); congruence].
    exists b. by split.
  - destruct lf as [|x lf0 _] using rev_ind; [done|].
    assert (Hndf : NoDup (lf0 ++ [x])) by (apply NoDup_app in Hnd as (_ & _ & Hnd); apply NoDup_app in Hnd; tauto).
    pose proof (chain_length _ _ _ Hf Hndf) as Hlen. rewrite length_app in Hlen. cbn in Hlen.
    rewrite (connect_spec _ _ _ lf0 x Hf) by lia. cbn [mbind outcome_bind]. eexists. split; [done|].
    assert (Hx : (x ∉ lc) /\ (x ∉ lg)).
    { apply NoDup_app in Hnd as (_ & Hd1 & Hnd). apply NoDup_app in Hnd as (_ & Hd2 & _). split.
      - intros Hx. apply (Hd1 x Hx). rewrite !elem_of_app. left. right. by left.
      - apply Hd2. apply elem_of_app. right. by left. }
    split; [|done]. split; cbn [set_lists nexts curr free global_free slabs]; try done.
    + apply (chain_cong (nexts b)); [|done]. intros y Hy. apply lookup_insert_ne. intros ->. tauto.
    + apply chain_splice; try done. intros y Hy ->. tauto.
Qed.

(** The last slab of a list has a null [next] field. *)
Lemma chain_last_next m h l x : chain m h (l ++ [x]) -> m !! x = Some 0.
Proof.
  revert h. induction l as [|a l IH]; intros h; cbn.
  - intros (_ & _ & n & -> & ->). done.
  - intros (_ & _ & n & _ & Hc). by apply (IH n).
Qed.

Lemma collect_curr_spec `{bump_config} b lc lf lg :
  bump_wf b lc lf lg -> first b = default 0 (last lc) ->
  exists b1, collect_curr b = Ret b1 /\ curr b1 = 0 /\ first b1 = 0 /\ bump_wf b1 [] (lc ++ lf) lg.
Proof.
  intros [Hc Hf Hg Hnd Hs Hap] Hfirst. unfold collect_curr. destruct lc as [|x lc0 _] using rev_ind.
  - cbn in Hfirst, Hc. rewrite Hfirst. cbn [Z.eqb mbind outcome_bind]. rewrite Hc. cbn [Z.eqb].
    exists b. by split.
  - rewrite last_snoc in Hfirst. cbn in Hfirst. rewrite Hfirst.
    assert (Hxin : x ∈ lc0 ++ [x]) by (apply elem_of_app; right; by left).
    pose proof (chain_nonnull _ _ _ Hc x Hxin) as Hxz. destruct (Z.eqb_spec x 0); [done|].
    assert (Hcz : curr b <> 0).
    { destruct (lc0 ++ [x]) as [|a l] eqn:E; [by destruct lc0|]. cbn in Hc. by destruct Hc as (-> & ? & _). }
    rewrite (get_next_some b x 0) by by eapply chain_last_next.
    cbn [Z.eqb ASSERT mbind outcome_bind]. destruct (Z.eqb_spec (curr b) 0) as [|Hcz']; [done|].
    cbn [negb ASSERT mbind outcome_bind set_lists curr nexts first global_free].
    destruct (Z.eqb_spec (curr b) 0); [done|]. eexists. split; [done|]. split; [done|]. split; [done|].
    pose proof Hnd as Hnd0. apply NoDup_app in Hnd0 as (Hnd1 & Hd1 & _).
    assert (Hx : (x ∉ lf) /\ (x ∉ lg)) by (specialize (Hd1 x Hxin); rewrite elem_of_app in Hd1; tauto).
    split; cbn [set_lists nexts curr free global_free slabs]; try done.
    + apply chain_splice; try done. intros y Hy ->. tauto.
    + apply (chain_cong (nexts b)); [|done]. intros y Hy. apply lookup_insert_ne. intros ->. tauto.
    + cbn [app]. by rewrite <- app_assoc.
    + cbn [app]. rewrite <- app_assoc. apply Hs.
    + cbn [app]. by rewrite <- app_assoc.
Qed.

(** ** Properties *)

(** [slab_search] is a best fit: it returns null exactly when no slab of
    the list is large enough; otherwise it returns a smallest slab that is
    large enough and unlinks it, and the list keeps all other slabs in
    order. *)
Theorem slab_search_best_fit b size head l :
  chain (nexts b) head l -> NoDup l -> (forall p, p ∈ l -> is_Some (slabs b !! p)) ->
  exists found head' n', slab_search b head size = Ret (found, head', n') /\
    ((found = 0 /\ head' = head /\ n' = nexts b /\ forall x, x ∈ l -> size_of b x < size) \/
     (exists l1 l2, l = l1 ++ found :: l2 /\ found <> 0 /\ size <= size_of b found /\
        (forall x, x ∈ l -> size <= size_of b x -> size_of b found <= size_of b x) /\
        chain n' head' (l1 ++ l2) /\ (forall x, x ∉ l1 -> n' !! x = nexts b !! x))).
Proof. apply slab_search_spec. Qed.

(** Three free slabs of 8192, 4096 and 12288 bytes. *)
Definition example_slabs : bump_state :=
  let slab a n := {| memory := a; index := 0; remaining := n; ssize := n |} in
  {| slabs := {[1 := slab 0x10000 8192; 2 := slab 0x20000 4096; 3 := slab 0x30000 12288]};
     nexts := {[1 := 2; 2 := 3; 3 := 0]}; curr := 0; first := 0; free := 1; global_free := 0;
     last_allocation_size := 0; last_allocation := 0; last_allocation_slab := 0; supply := [] |}.

Lemma slab_search_best_fit_witness :
  exists found head' n', slab_search example_slabs 1 5000 = Ret (found, head', n') /\
    found = 1 /\ head' = 2.
Proof.
  destruct (slab_search_best_fit example_slabs 5000 1 [1; 2; 3]) as (f & h' & n' & Hs & _).
  - repeat split; try discriminate; eexists; (split; [vm_compute; reflexivity|]).
    split; [reflexivity|]. split; [discriminate|]. eexists. split; [vm_compute; reflexivity|].
    split; [reflexivity|]. split; [discriminate|]. eexists. split; [vm_compute; reflexivity|]. reflexivity.
  - apply (bool_decide_unpack _). vm_compute. exact I.
  - intros p Hp. apply elem_of_cons in Hp as [->|Hp]; [vm_compute; eexists; reflexivity|].
    apply elem_of_cons in Hp as [->|Hp]; [vm_compute; eexists; reflexivity|].
    apply list_elem_of_singleton in Hp as ->. vm_compute; eexists; reflexivity.
  - exists f, h', n'. split; [exact Hs|]. vm_compute in Hs. injection Hs as <- <- _. split; reflexivity.
Defined.

(** C33 [allocate_bare] serves every non-empty request: it returns an aligned
    block inside the current slab, none of whose bytes has been given out
    before; the bytes of the block and all that had been given out before
    count as given out in the new state, in which the invariant holds, so that
    later blocks do not overlap this one; the block is recorded as the last
    allocation.  Needed: new slabs overlap no other slab, the slabs start at
    multiples of the alignment, and a current slab that is too small for the
    request is not empty. *)
Theorem allocate_bare_spec `{bump_config} b lc lf lg align size :
  bump_wf b lc lf lg -> 0 < align < 2 ^ 31 -> 0 < size -> 0 < SLAB_SIZE -> size + SLAB_SIZE < 2 ^ 31 ->
  supply_ok b (size + ALIGN_TO size SLAB_SIZE) (lc ++ lf ++ lg) -> aligned_slabs b align ->
  (forall c, slabs b !! curr b = Some c -> remaining c < size -> 0 < index c) ->
  exists b' ret c', allocate_bare b align size = Ret (b', ret) /\
    ret mod align = 0 /\ slabs b' !! curr b' = Some c' /\ slab_ok c' /\
    memory c' <= ret /\ ret + size = memory c' + index c' /\
    last_allocation_size b' = size /\ last_allocation b' = ret /\ last_allocation_slab b' = curr b' /\
    exists lc' lf' lg', bump_wf b' lc' lf' lg' /\
      (forall x, ret <= x < ret + size -> ~ used b lc x /\ used b' lc' x) /\
      (forall x, used b lc x -> used b' lc' x).
Proof.
  intros Hwf Hal Hsz Hslab Hbound Hsup Hsl Hcur. unfold allocate_bare.
  pose proof (slab_size_bounds size Hsz Hslab Hbound) as [Hsb Hsle].
  rewrite (wrap_small 32) by lia. destruct (Z.eqb_spec (size + ALIGN_TO size SLAB_SIZE) 0); [lia|].
  destruct (Z.leb_spec SLAB_SIZE (size + ALIGN_TO size SLAB_SIZE)); [|lia]. cbn [ASSERT mbind outcome_bind].
  destruct (bare_loop_spec align size Hal Hsz Hslab Hbound (set_last b 0 0 0) lc lf lg)
    as (b1 & c1 & -> & [Hwf1 Hnz Hc1 Hok1 Hfit Hal1 Hfr]); [by destruct Hwf|done|done|done|].
  cbn [mbind outcome_bind]. rewrite (get_slab_some _ _ _ Hc1). cbn [mbind outcome_bind ASSERT].
  destruct (Z.eqb_spec size 0); [lia|]. destruct (Z.leb_spec size (remaining c1)); [|lia].
  cbn [ASSERT mbind outcome_bind index remaining ssize]. pose proof Hok1 as [Hm Hss Hi Hr Hsum].
  rewrite !(wrap_small 32 (index c1 + size)), !(wrap_small 32 (remaining c1 - size)), !(wrap_small 64) by lia.
  rewrite (wrap_small 32) by lia. destruct (Z.eqb_spec (index c1 + size + (remaining c1 - size)) (ssize c1)); [|lia].
  rewrite Hal1. cbn [Z.eqb ASSERT mbind outcome_bind].
  set (c2 := {| memory := memory c1; index := index c1 + size; remaining := remaining c1 - size; ssize := ssize c1 |}).
  eexists _, _, c2.
  split; [done|]. cbn [set_slabs set_last slabs curr last_allocation_size last_allocation last_allocation_slab].
  rewrite lookup_insert_eq. split; [done|]. split; [done|].
  assert (Hok2 : slab_ok c2) by (split; cbn; lia).
  split; [done|]. cbn [c2 memory index]. split; [lia|]. split; [lia|]. do 3 (split; [done|]).
  destruct Hwf1 as (lc' & lf' & lg' & Hwf1 & Hin & Hu). exists lc', lf', lg'.
  pose proof (update_curr_wf b1 lc' lf' lg' c1 c2 Hwf1 Hc1 eq_refl eq_refl Hok2) as Hw.
  split; [by destruct Hw|]. split.
  - intros x Hx. split; [apply Hfr; lia|]. eexists (curr b1), _. split; [done|].
    split; [apply lookup_insert_eq|]. cbn. lia.
  - intros x Hx. apply Hu in Hx. revert x Hx.
    match goal with |- forall x, used b1 lc' x -> used ?b2 lc' x =>
      apply (used_grows b1 b2 lc' lc' c2) end.
    + done.
    + apply lookup_insert_eq.
    + intros p _ Hp. by apply lookup_insert_ne.
    + intros c _ Ec. cbn [set_last set_slabs curr] in Ec. rewrite Hc1 in Ec. injection Ec as <-. cbn. lia.
Qed.

(** A slab in use of which 100 bytes are given out, and another in supply. *)
Definition one_in_use : bump_state :=
  {| slabs := {[0x100 := {| memory := 0x10000; index := 100; remaining := 3996; ssize := 4096 |}]};
     nexts := {[0x100 := 0]}; curr := 0x100; first := 0x100; free := 0; global_free := 0;
     last_allocation_size := 100; last_allocation := 0x10000; last_allocation_slab := 0x100;
     supply := [(0x200, 0x20000)] |}.

Lemma one_in_use_slab p s : slabs one_in_use !! p = Some s ->
  p = 0x100 /\ s = {| memory := 0x10000; index := 100; remaining := 3996; ssize := 4096 |}.
Proof. cbn [one_in_use slabs]. rewrite lookup_singleton_Some. by intros [<- <-]. Qed.

Lemma one_in_use_wf : bump_wf (H := fragment_allocator_config) one_in_use [0x100] [] [].
Proof.
  split; try done.
  - split; [done|]. split; [done|]. exists 0. split; [apply lookup_singleton_eq|done].
  - apply NoDup_singleton.
  - intros p Hp. apply list_elem_of_singleton in Hp as ->. eexists. split; [apply lookup_singleton_eq|].
    split; vm_compute; intuition congruence.
  - intros p q sp sq Hp Hq Hne. apply list_elem_of_singleton in Hp as ->. apply list_elem_of_singleton in Hq as ->. done.
Qed.

(** A request for 4090 bytes does not fit: it gets a new slab. *)
Lemma allocate_bare_spec_witness :
  exists b' ret, allocate_bare (H := fragment_allocator_config) one_in_use 64 4090 = Ret (b', ret) /\
    ret mod 64 = 0 /\ forall x, ret <= x < ret + 4090 -> ~ used one_in_use [0x100] x.
Proof.
  destruct (@allocate_bare_spec fragment_allocator_config one_in_use [0x100] [] [] 64 4090)
    as (b' & ret & c' & Ha & Hm & _ & _ & _ & _ & _ & _ & _ & lc' & lf' & lg' & _ & Hu & _).
  - exact one_in_use_wf.
  - lia.
  - lia.
  - reflexivity.
  - reflexivity.
  - exists 0x200, 0x20000, []. split; [reflexivity|]. split; [discriminate|].
    split; [apply not_elem_of_cons; split; [discriminate|apply not_elem_of_nil]|].
    split; [reflexivity|]. split; [reflexivity|]. intros q sq _ Hq.
    destruct (one_in_use_slab q sq Hq) as [_ ->]. right. vm_compute. discriminate.
  - split; [intros p s Hp; destruct (one_in_use_slab p s Hp) as [_ ->]; vm_compute; reflexivity|].
    intros obj mem rest Hs. injection Hs as _ <- _. reflexivity.
  - intros c Hc _. destruct (one_in_use_slab _ c Hc) as [_ ->]. reflexivity.
  - exists b', ret. split; [exact Ha|]. split; [exact Hm|]. intros x Hx. apply (Hu x Hx).
Defined.

(** [free_all] on a transient, unshared allocator loses no slab: the slabs
    in use and the free ones end up, in order, in the free list, or, when dead
    slabs are shared, in front of the global free list; the allocator is
    empty. *)
Theorem free_all_collects `{bump_config} b lc lf lg :
  bump_wf b lc lf lg -> first b = default 0 (last lc) -> TRANSIENT = true -> SHARED = false ->
  exists b', free_all b = Ret b' /\ curr b' = 0 /\ first b' = 0 /\
    if SHARE_DEAD_SLABS then bump_wf b' [] [] (lc ++ lf ++ lg) else bump_wf b' [] (lc ++ lf) lg.
Proof.
  intros Hwf Hfirst Ht Hsh. unfold free_all. rewrite Ht, Hsh. cbn [negb orb].
  destruct (collect_curr_spec (set_last b 0 0 0) lc lf lg) as (b1 & -> & Hc1 & Hf1 & Hwf1);
    [by destruct Hwf|done|]. cbn [mbind outcome_bind].
  destruct SHARE_DEAD_SLABS; [|by exists b1].
  destruct (share_free_spec b1 [] (lc ++ lf) lg Hwf1) as (b' & -> & Hwf' & Hc' & Hf').
  exists b'. split; [done|]. split; [congruence|]. split; [congruence|]. by rewrite <- app_assoc in Hwf'.
Qed.

Lemma free_all_collects_witness :
  exists b', free_all (H := instruction_allocator_config) (make_bump []) = Ret b' /\ curr b' = 0 /\
    bump_wf (H := instruction_allocator_config) b' [] [] [].
Proof.
  destruct (@free_all_collects instruction_allocator_config (make_bump []) [] [] []) as (b' & Hf & Hc & _ & Hw).
  - apply make_bump_wf.
  - reflexivity.
  - reflexivity.
  - reflexivity.
  - exists b'. split; [exact Hf|]. split; [exact Hc|exact Hw].
Defined.
