(* ===== verification/SpinLock.v ===== *)
(** * Spin locks: [granary/spin_lock.h]

    [atomic_spin_lock] as a step relation: any number of threads call
    [acquire], [try_acquire] and [release]; each atomic access to
    [is_locked] is one step, and the steps of the threads interleave freely.
    In kernel builds a thread runs the acquisition loop with interrupts
    disabled; the flag records it per thread.

    The theorems: mutual exclusion, correct answers of [try_acquire], and
    progress: a waiting thread that runs while the lock is free enters. *)

From Stdlib Require Import ZArith Lia Bool.
From stdpp Require Import base numbers list option gmap relations.
From S2P Require Import Prelude.

Section SpinLock.
Context `{Config}.

(** Where a thread is. *)
Inductive pc :=
  | Idle                       (** outside the lock's operations *)
  | AcqLoad                    (** before [is_locked.load] in [acquire] *)
  | AcqXchg                    (** before [is_locked.exchange] in [acquire] *)
  | TryLoad                    (** before [is_locked.load] in [try_acquire] *)
  | TryXchg                    (** before [is_locked.exchange] in [try_acquire] *)
  | Holding.                   (** returned from a successful acquisition *)

#[global] Instance pc_eq_dec : EqDecision pc.
Proof. solve_decision. Defined.

Record thread := {
  at_ : pc;
  (** interrupts are disabled by the lock's code *)
  no_interrupts : bool
}.

Record state := {
  is_locked : bool;
  threads : gmap nat thread
}.

(** [IF_KERNEL( flags = granary_disable_interrupts() )]. *)
Definition disable_interrupts : bool := IF_USER_ELSE false true.

(** The calls a client makes. *)
Inductive call := CallAcquire | CallTryAcquire | CallRelease | Continue.

(** One step of a thread: the lock word and the thread after it, and the
    value [try_acquire] returns when it returns; [None] when the call is not
    possible where the thread is. *)
Definition thread_step (c : call) (locked : bool) (t : thread) : option (bool * thread * option bool) :=
  match c, at_ t with
  | CallAcquire, Idle => Some (locked, {| at_ := AcqLoad; no_interrupts := disable_interrupts |}, None)
  | CallTryAcquire, Idle => Some (locked, {| at_ := TryLoad; no_interrupts := false |}, None)
  | CallRelease, Holding => Some (false, {| at_ := Idle; no_interrupts := false |}, None)
  | Continue, AcqLoad =>
      Some (locked, {| at_ := if locked then AcqLoad else AcqXchg; no_interrupts := no_interrupts t |}, None)
  | Continue, AcqXchg =>
      Some (true, if locked then {| at_ := AcqLoad; no_interrupts := no_interrupts t |}
                  else {| at_ := Holding; no_interrupts := false |}, None)
  | Continue, TryLoad =>
      if locked then Some (locked, {| at_ := Idle; no_interrupts := false |}, Some false)
      else Some (locked, {| at_ := TryXchg; no_interrupts := disable_interrupts |}, None)
  | Continue, TryXchg =>
      Some (true, {| at_ := if locked then Idle else Holding; no_interrupts := false |}, Some (negb locked))
  | _, _ => None
  end.

(** A step of the system: thread [i] makes one step. *)
Inductive step (s : state) : nat -> call -> option bool -> state -> Prop :=
  | step_thread i c t locked' t' r :
      threads s !! i = Some t -> thread_step c (is_locked s) t = Some (locked', t', r) ->
      step s i c r {| is_locked := locked'; threads := <[i := t']> (threads s) |}.

Definition initial (s : state) : Prop :=
  is_locked s = false /\
  forall i t, threads s !! i = Some t -> t = {| at_ := Idle; no_interrupts := false |}.

Inductive reachable : state -> Prop :=
  | reach_initial s : initial s -> reachable s
  | reach_step s i c r s' : reachable s -> step s i c r s' -> reachable s'.

Definition holds (s : state) (i : nat) : Prop := exists t, threads s !! i = Some t /\ at_ t = Holding.

(** The invariant: the lock word is set exactly while a thread holds the
    lock, at most one does; interrupts are only off inside the acquisition. *)
Record lock_inv (s : state) : Prop := {
  li_locked : is_locked s = true <-> exists i, holds s i;
  li_excl : forall i j, holds s i -> holds s j -> i = j;
  li_intr : forall i t, threads s !! i = Some t -> no_interrupts t = true ->
    env_kernel = true /\ (at_ t = AcqLoad \/ at_ t = AcqXchg \/ at_ t = TryXchg)
}.

Lemma holds_insert s i t locked' j :
  holds {| is_locked := locked'; threads := <[i := t]> (threads s) |} j <->
  (j = i /\ at_ t = Holding) \/ (j <> i /\ holds s j).
Proof.
  unfold holds. cbn. split.
  - intros (u & E & Hu). apply lookup_insert_Some in E as [[-> ->]|[Hne E]]; [by left|right].
    split; [done|]. by exists u.
  - intros [[-> Ht]|[Hne (u & E & Hu)]].
    + exists t. by rewrite lookup_insert_eq.
    + exists u. by rewrite lookup_insert_ne.
Qed.

(** What a step does to the lock word and to holding. *)
Lemma thread_step_holding c locked t locked' t' r :
  thread_step c locked t = Some (locked', t', r) ->
  (at_ t = Holding /\ at_ t' <> Holding /\ locked' = false) \/
  (at_ t <> Holding /\ at_ t' = Holding /\ locked = false /\ locked' = true) \/
  (at_ t <> Holding /\ at_ t' <> Holding /\ locked' = locked).
Proof.
  unfold thread_step. intros E.
  destruct c, (at_ t) eqn:Et, locked; simplify_eq; cbn; intuition congruence.
Qed.

Lemma thread_step_intr c locked t locked' t' r :
  thread_step c locked t = Some (locked', t', r) -> no_interrupts t' = true ->
  (no_interrupts t = true -> env_kernel = true) ->
  env_kernel = true /\ (at_ t' = AcqLoad \/ at_ t' = AcqXchg \/ at_ t' = TryXchg).
Proof.
  unfold thread_step, disable_interrupts, IF_USER_ELSE. intros E Hi Hk.
  destruct c, (at_ t) eqn:Et, locked; simplify_eq; cbn in *; destruct env_kernel; intuition congruence.
Qed.

Lemma step_inv s i c r s' : step s i c r s' -> lock_inv s -> lock_inv s'.
Proof.
  intros [i0 c0 t locked' t' r0 Et E] [Hl He Hi]. split.
  - cbn [is_locked]. setoid_rewrite holds_insert.
    destruct (thread_step_holding _ _ _ _ _ _ E) as [(H1 & H2 & ->)|[(H1 & H2 & Hl0 & ->)|(H1 & H2 & ->)]].
    + split; [done|]. intros (j & [[-> ?]|[Hne Hj]]); [done|]. exfalso. apply Hne, He; [done|by exists t].
    + split; [|done]. intros _. exists i0. by left.
    + rewrite Hl. split; intros (j & Hj).
      * exists j. right. split; [|done]. intros ->. destruct Hj as (u & Eu & Hu). congruence.
      * destruct Hj as [[-> ?]|[_ Hj]]; [done|by exists j].
  - intros j k. rewrite !holds_insert.
    destruct (thread_step_holding _ _ _ _ _ _ E) as [(H1 & H2 & ->)|[(H1 & H2 & Hl0 & ->)|(H1 & H2 & ->)]].
    + intros [[-> ?]|[_ Hj]] [[-> ?]|[_ Hk]]; try done. by apply He.
    + assert (Hno : forall j, ~ holds s j).
      { intros l Hj. assert (is_locked s = true) by (apply Hl; by exists l). congruence. }
      intros [[-> ?]|[_ Hj]] [[-> ?]|[_ Hk]]; try done; exfalso; by eapply Hno.
    + intros [[-> ?]|[_ Hj]] [[-> ?]|[_ Hk]]; try done. by apply He.
  - intros j u Eu Hu. cbn [threads] in Eu. apply lookup_insert_Some in Eu as [[-> ->]|[_ Eu]]; [|by eapply Hi].
    eapply thread_step_intr; [done|done|]. intros Hn. by eapply (Hi _ t).
Qed.

Lemma reachable_inv s : reachable s -> lock_inv s.
Proof.
  induction 1 as [s [Hl Ht]|s i c r s' _ IH Hs]; [|by eapply step_inv].
  assert (Hno : forall i, ~ holds s i).
  { intros i (t & E & Hh). apply Ht in E as ->. done. }
  split.
  - rewrite Hl. split; [done|]. intros (i & Hi). by destruct (Hno i).
  - intros i j Hi. by destruct (Hno i).
  - intros i t E. apply Ht in E as ->. done.
Qed.

(** C38 Mutual exclusion.  In every state that any number of threads reach by
    any interleaving of their steps, at most one thread holds the lock, the
    lock word is set exactly when some thread holds it, and interrupts are
    only left disabled inside the acquisition, in kernel builds. *)
Theorem spin_lock_mutual_exclusion s :
  reachable s ->
  (forall i j, holds s i -> holds s j -> i = j) /\
  (is_locked s = true <-> exists i, holds s i) /\
  (forall i t, threads s !! i = Some t -> no_interrupts t = true -> env_kernel = true /\ at_ t <> Holding).
Proof.
  intros Hr. destruct (reachable_inv s Hr) as [Hl He Hi]. split; [done|]. split; [done|].
  intros i t E Hn. destruct (Hi i t E Hn) as (? & [->|[->| ->]]); done.
Qed.

(** Progress and the answer of [try_acquire].  A thread that waits in
    [acquire] while no thread holds the lock holds it after at most two
    further loads and exchanges of its own; and when [try_acquire] returns,
    it returns true exactly when the thread now holds the lock. *)
Theorem spin_lock_progress s i t :
  reachable s -> threads s !! i = Some t ->
  (at_ t = AcqLoad \/ at_ t = AcqXchg -> (forall j, ~ holds s j) ->
     exists s1 s2, rtc (fun s s' => step s i Continue None s') s s1 /\ step s1 i Continue None s2 /\ holds s2 i) /\
  (forall c b s', step s i c (Some b) s' -> b = true <-> holds s' i).
Proof.
  intros Hr Et. destruct (reachable_inv s Hr) as [Hl He Hi]. split.
  - intros Hat Hno.
    assert (Hu : is_locked s = false).
    { destruct (is_locked s) eqn:E; [|done]. destruct (proj1 Hl eq_refl) as [j Hj]. by destruct (Hno j). }
    assert (Hx : forall s1 t1, is_locked s1 = false -> threads s1 !! i = Some t1 -> at_ t1 = AcqXchg ->
              exists s2, step s1 i Continue None s2 /\ holds s2 i).
    { intros s1 t1 Hl1 Et1 Ha1. eexists. split.
      - econstructor; [done|]. unfold thread_step. rewrite Ha1, Hl1. done.
      - apply holds_insert. by left. }
    destruct Hat as [Ha|Ha].
    + set (s1 := {| is_locked := is_locked s;
                    threads := <[i := {| at_ := AcqXchg; no_interrupts := no_interrupts t |}]> (threads s) |}).
      destruct (Hx s1 {| at_ := AcqXchg; no_interrupts := no_interrupts t |}) as (s2 & Hs & Hh).
      * done.
      * apply lookup_insert_eq.
      * done.
      * exists s1, s2. split; [|done]. apply rtc_once.
        econstructor; [done|]. unfold thread_step. rewrite Ha, Hu. done.
    + destruct (Hx s t Hu Et Ha) as (s2 & Hs & Hh). exists s, s2. split; [apply rtc_refl|done].
  - intros c b s' Hs. inversion Hs as [i0 c0 t0 locked' t' r0 Et0 E]; subst.
    rewrite holds_insert. unfold thread_step in E. clear Hs.
    destruct c, (at_ t0) eqn:Ha, (is_locked s); simplify_eq; cbn; intuition congruence.
Qed.

End SpinLock.

(** ** Witnesses *)
Definition idle2 : state :=
  {| is_locked := false;
     threads := {[ 0%nat := {| at_ := Idle; no_interrupts := false |};
                   1%nat := {| at_ := Idle; no_interrupts := false |} ]} |}.

Lemma idle2_initial : initial idle2.
Proof.
  split; [reflexivity|]. intros i t E. cbn in E.
  apply lookup_insert_Some in E as [[_ <-]|[_ E]]; [done|].
  by apply lookup_singleton_Some in E as [_ <-].
Defined.

(** One thread has called [acquire]. *)
Definition waiting2 : state :=
  {| is_locked := false;
     threads := <[0%nat := {| at_ := AcqLoad; no_interrupts := true |}]> (threads idle2) |}.

#[local] Existing Instance kernel_config.

Lemma waiting2_reachable : reachable waiting2.
Proof.
  eapply reach_step; [apply reach_initial, idle2_initial|].
  eapply (step_thread idle2 0 CallAcquire); [reflexivity|reflexivity].
Defined.

Lemma spin_lock_mutual_exclusion_witness :
  reachable waiting2 /\ forall i j, holds waiting2 i -> holds waiting2 j -> i = j.
Proof.
  split; [exact waiting2_reachable|].
  exact (proj1 (spin_lock_mutual_exclusion waiting2 waiting2_reachable)).
Defined.

Lemma spin_lock_progress_witness :
  exists s1 s2, rtc (fun s s' => step s 0 Continue None s') waiting2 s1 /\
    step s1 0 Continue None s2 /\ holds s2 0.
Proof.
  refine (proj1 (spin_lock_progress waiting2 0 {| at_ := AcqLoad; no_interrupts := true |}
    waiting2_reachable eq_refl) (or_introl eq_refl) _).
  intros j (t & E & Hh). unfold waiting2 in E. cbn [threads idle2] in E.
  apply lookup_insert_Some in E as [[_ <-]|[_ E]]; [discriminate Hh|].
  apply lookup_insert_Some in E as [[_ <-]|[_ E]]; [discriminate Hh|].
  apply lookup_singleton_Some in E as [_ <-]. discriminate Hh.
Defined.
