(* ===== verification/Register.v ===== *)
(** * Register liveness: [granary/register.h], [granary/register.cc]

    The [register_manager] tracks live, dead and undead ("zombie") registers.
    It walks an instruction list backwards: each visited instruction kills
    the registers it overwrites and revives those it reads; dead registers
    are then handed out as scratch registers.

    Operands and instructions carry what DynamoRIO reports about them and
    what the code looks at: kinds, register numbers, opcode, and the answers
    of [instr_is_nop] and [instr_is_cti].

    The theorems: one step of the analysis is the data-flow equation of
    liveness (on all sixteen general purpose registers), independently of
    the order of the operands; running the analysis over a block is sound
    for any processor that respects the operands of its instructions, so a
    zombie can be clobbered; the stack pointer is live in every reachable
    state; and the layout of the saved machine state. *)

From Stdlib Require Import ZArith Lia Bool.
From stdpp Require Import base numbers list option relations.
From S2P Require Import Prelude.

(** ** Register numbers (the enumeration of [granary/dynamorio.h]) *)
Abbreviation DR_REG_NULL := 0.
Abbreviation DR_REG_RCX := 2.
Abbreviation DR_REG_RSP := 5.
Abbreviation DR_REG_RSI := 7.
Abbreviation DR_REG_RDI := 8.
Abbreviation DR_REG_R15 := 16.
Abbreviation DR_REG_MM0 := 69.
Abbreviation DR_REG_XMM0 := 77.
Abbreviation DR_REG_XMM15 := 92.
Abbreviation DR_REG_ST0 := 93.

(** RAX RCX RDX RBX RSP RBP RSI RDI R8 .. R15, and their narrower names, in
    the order of the enumeration. *)
Definition GPR64 : list Z := [1; 2; 3; 4; 5; 6; 7; 8; 9; 10; 11; 12; 13; 14; 15; 16].
Definition GPR32 : list Z := [17; 18; 19; 20; 21; 22; 23; 24; 25; 26; 27; 28; 29; 30; 31; 32].
Definition GPR16 : list Z := [33; 34; 35; 36; 37; 38; 39; 40; 41; 42; 43; 44; 45; 46; 47; 48].
(** AL CL DL BL SPL BPL SIL DIL R8L .. R15L. *)
Definition GPR8 : list Z := [49; 50; 51; 52; 65; 66; 67; 68; 57; 58; 59; 60; 61; 62; 63; 64].

(** The lookup tables.  Rows: 64-bit, 32-bit and 16-bit names; then AL..BL,
    AH..BH, R8L..R15L; then SPL, BPL, SIL, DIL. *)
Definition REG_TO_REG64 : list Z :=
  [DR_REG_NULL] ++ GPR64 ++ GPR64 ++ GPR64
  ++ [1; 2; 3; 4] ++ [1; 2; 3; 4] ++ [9; 10; 11; 12; 13; 14; 15; 16] ++ [5; 6; 7; 8].

Definition REG_TO_REG32 : list Z :=
  [DR_REG_NULL] ++ GPR32 ++ GPR32 ++ GPR32
  ++ [17; 18; 19; 20] ++ [17; 18; 19; 20] ++ [25; 26; 27; 28; 29; 30; 31; 32] ++ [21; 22; 23; 24].

Definition REG_TO_REG16 : list Z :=
  [DR_REG_NULL] ++ GPR16 ++ GPR16 ++ GPR16
  ++ [33; 34; 35; 36] ++ [33; 34; 35; 36] ++ [41; 42; 43; 44; 45; 46; 47; 48] ++ [37; 38; 39; 40].

Definition REG_TO_REG8 : list Z :=
  [DR_REG_NULL] ++ GPR8 ++ GPR8 ++ GPR8
  ++ [49; 50; 51; 52] ++ [53; 54; 55; 56] ++ [57; 58; 59; 60; 61; 62; 63; 64] ++ [65; 66; 67; 68].

(** ** Operands and instructions *)
Inductive opnd :=
  | REG_kind (reg : Z)
  | BASE_DISP_kind (base_reg index_reg : Z)
  | OTHER_kind.

Inductive opcode :=
  | OP_bsr | OP_bsf
  | OP_rep_ins | OP_rep_stos | OP_rep_scas | OP_repne_scas
  | OP_rep_outs | OP_rep_lods
  | OP_rep_movs | OP_rep_cmps | OP_repne_cmps
  | OP_other (n : Z).

Record instr := {
  in_opcode : opcode;
  in_dsts : list opnd;
  in_srcs : list opnd;
  in_is_nop : bool;
  in_is_cti : bool
}.

(** ** The register manager *)
Record register_manager := {
  live : Z;
  undead : Z;
  live_xmm : Z;
  undead_xmm : Z
}.

Inductive register_scale := REG_8 | REG_16 | REG_32 | REG_64.

Definition FORCE_LIVE : Z := Z.shiftl 1 (DR_REG_RSP - 1).
Definition ALL16 : Z := wnot 16 0.

Definition register_manager_ctor : register_manager :=
  {| live := ALL16; undead := 0; live_xmm := ALL16; undead_xmm := 0 |}.

(** An element of a table indexed by a register number. *)
Definition reg_idx (t : list Z) (reg : Z) : outcome Z := idx t (Z.to_nat reg).

Definition scale (reg : Z) (s : register_scale) : outcome Z :=
  if DR_REG_MM0 <=? reg then Ret DR_REG_NULL else
  match s with
  | REG_8 => reg_idx REG_TO_REG8 reg
  | REG_16 => reg_idx REG_TO_REG16 reg
  | REG_32 => reg_idx REG_TO_REG32 reg
  | REG_64 => reg_idx REG_TO_REG64 reg
  end.

Definition kill_all (rm : register_manager) : register_manager :=
  {| live := FORCE_LIVE; undead := 0; live_xmm := 0; undead_xmm := 0 |}.

Definition kill_all_live (rm : register_manager) : register_manager :=
  {| live := FORCE_LIVE; undead := undead rm; live_xmm := 0; undead_xmm := undead_xmm rm |}.

Definition revive_all (rm : register_manager) : register_manager :=
  {| live := ALL16; undead := 0; live_xmm := ALL16; undead_xmm := 0 |}.

Definition revive_all_xmm (rm : register_manager) : register_manager :=
  {| live := live rm; undead := undead rm; live_xmm := ALL16; undead_xmm := 0 |}.

Definition revive_all_of (rm that : register_manager) : register_manager :=
  {| live := Z.lor (live rm) (live that);
     undead := Z.lor (undead rm) (undead that);
     live_xmm := Z.lor (live_xmm rm) (live_xmm that);
     undead_xmm := Z.lor (undead_xmm rm) (undead_xmm that) |}.

Definition set_live (l : Z) (rm : register_manager) : register_manager :=
  {| live := l; undead := undead rm; live_xmm := live_xmm rm; undead_xmm := undead_xmm rm |}.

Definition reg_mask (reg : Z) : Z := u16 (Z.shiftl 1 (reg - 1)).

Definition kill_64 (reg : Z) (rm : register_manager) : outcome register_manager :=
  reg64 ← reg_idx REG_TO_REG64 reg;
  if reg64 =? 0 then Ret rm else
  reg32 ← reg_idx REG_TO_REG32 reg;
  if (reg64 =? reg) || (reg32 =? reg) then
    let mask := reg_mask reg64 in
    Ret {| live := Z.lor (Z.land (live rm) (wnot 16 mask)) FORCE_LIVE;
           undead := Z.land (undead rm) (wnot 16 mask);
           live_xmm := live_xmm rm; undead_xmm := undead_xmm rm |}
  else Ret rm.

Definition revive_64 (reg : Z) (rm : register_manager) : outcome register_manager :=
  reg64 ← reg_idx REG_TO_REG64 reg;
  if reg64 =? 0 then Ret rm else
  let mask := reg_mask reg64 in
  Ret {| live := Z.lor (live rm) mask;
         undead := Z.land (undead rm) (wnot 16 mask);
         live_xmm := live_xmm rm; undead_xmm := undead_xmm rm |}.

Definition reg_to_xmm (reg : Z) : Z :=
  if (DR_REG_XMM0 <=? reg) && (reg <=? DR_REG_XMM15) then reg - DR_REG_XMM0 + 1
  else DR_REG_NULL.

Definition kill_xmm (reg : Z) (rm : register_manager) : register_manager :=
  let reg_xmm := reg_to_xmm reg in
  if reg_xmm =? 0 then rm else
  let mask := reg_mask reg_xmm in
  {| live := live rm; undead := undead rm;
     live_xmm := Z.land (live_xmm rm) (wnot 16 mask);
     undead_xmm := Z.land (undead_xmm rm) (wnot 16 mask) |}.

Definition revive_xmm (reg : Z) (rm : register_manager) : register_manager :=
  let reg_xmm := reg_to_xmm reg in
  if reg_xmm =? 0 then rm else
  let mask := reg_mask reg_xmm in
  {| live := live rm; undead := undead rm;
     live_xmm := Z.lor (live_xmm rm) mask;
     undead_xmm := Z.land (undead_xmm rm) (wnot 16 mask) |}.

Definition kill_reg (reg : Z) (rm : register_manager) : outcome register_manager :=
  if DR_REG_MM0 <=? reg then Ret (kill_xmm reg rm) else kill_64 reg rm.

Definition revive_reg (reg : Z) (rm : register_manager) : outcome register_manager :=
  if DR_REG_MM0 <=? reg then Ret (revive_xmm reg rm) else revive_64 reg rm.

Definition kill_opnd (op : opnd) (rm : register_manager) : outcome register_manager :=
  match op with
  | BASE_DISP_kind base_reg index_reg => rm ← kill_64 base_reg rm; kill_64 index_reg rm
  | REG_kind reg => kill_reg reg rm
  | OTHER_kind => Ret rm
  end.

Definition revive_opnd (op : opnd) (rm : register_manager) : outcome register_manager :=
  match op with
  | BASE_DISP_kind base_reg index_reg => rm ← revive_64 base_reg rm; revive_64 index_reg rm
  | REG_kind reg => revive_reg reg rm
  | OTHER_kind => Ret rm
  end.

(** The loops over one class of operands of an instruction. *)
Fixpoint kill_ops (ops : list opnd) (rm : register_manager) : outcome register_manager :=
  match ops with
  | [] => Ret rm
  | op :: ops => rm ← kill_opnd op rm; kill_ops ops rm
  end.

Fixpoint revive_ops (ops : list opnd) (rm : register_manager) : outcome register_manager :=
  match ops with
  | [] => Ret rm
  | op :: ops => rm ← revive_opnd op rm; revive_ops ops rm
  end.

Definition is_bit_scan (o : opcode) : bool :=
  match o with OP_bsr | OP_bsf => true | _ => false end.

(** The loop over the destination operands; [must_live] accumulates the
    registers used in addresses. *)
Fixpoint visit_dests_loop (o : opcode) (ops : list opnd) (rm : register_manager) (must_live : Z)
    : outcome (register_manager * Z) :=
  match ops with
  | [] => Ret (rm, must_live)
  | op :: ops =>
      match op with
      | REG_kind _ =>
          rm ← (if is_bit_scan o then revive_opnd op rm else kill_opnd op rm);
          visit_dests_loop o ops rm must_live
      | BASE_DISP_kind base_reg index_reg =>
          let prev_live_64 := live rm in
          rm ← revive_64 base_reg (set_live 0 rm);
          rm ← revive_64 index_reg rm;
          visit_dests_loop o ops (set_live prev_live_64 rm) (Z.lor must_live (live rm))
      | OTHER_kind => visit_dests_loop o ops rm must_live
      end
  end.

(** The opcode-specific revivals at the end of [visit_dests]. *)
Definition visit_dests_rep (o : opcode) (rm : register_manager) : outcome register_manager :=
  match o with
  | OP_rep_ins | OP_rep_stos | OP_rep_scas | OP_repne_scas =>
      rm ← revive_64 DR_REG_RDI rm; revive_64 DR_REG_RCX rm
  | OP_rep_outs | OP_rep_lods =>
      rm ← revive_64 DR_REG_RSI rm; revive_64 DR_REG_RCX rm
  | OP_rep_movs | OP_rep_cmps | OP_repne_cmps =>
      rm ← revive_64 DR_REG_RSI rm; rm ← revive_64 DR_REG_RDI rm; revive_64 DR_REG_RCX rm
  | _ => Ret rm
  end.

Definition visit_dests (i : instr) (rm : register_manager) : outcome register_manager :=
  if in_is_nop i then Ret rm else
  r ← visit_dests_loop (in_opcode i) (in_dsts i) rm FORCE_LIVE;
  visit_dests_rep (in_opcode i) (set_live (Z.lor (live r.1) r.2) r.1).

Fixpoint visit_dests_simple (ops : list opnd) (rm : register_manager) : outcome register_manager :=
  match ops with
  | [] => Ret rm
  | REG_kind reg :: ops => rm ← kill_reg reg rm; visit_dests_simple ops rm
  | BASE_DISP_kind base_reg index_reg :: ops =>
      rm ← revive_64 base_reg rm; rm ← revive_64 index_reg rm; visit_dests_simple ops rm
  | OTHER_kind :: ops => visit_dests_simple ops rm
  end.

Definition visit_dests_simple_forward (i : instr) (rm : register_manager)
    : outcome register_manager := visit_dests_simple (in_dsts i) rm.

Definition visit_dests_simple_backward (i : instr) (rm : register_manager)
    : outcome register_manager := visit_dests_simple (rev (in_dsts i)) rm.

Definition visit_dests_check (i : instr) (rm : register_manager) : outcome register_manager :=
  if in_is_nop i then Ret rm else
  let orig_live := live rm in
  rm ← visit_dests i rm;
  let correct_live_after := live rm in
  rm ← visit_dests_simple_forward i (set_live orig_live rm);
  let simple_live_forward := live rm in
  rm ← visit_dests_simple_backward i (set_live orig_live rm);
  let simple_live_backward := live rm in
  ASSERT (simple_live_forward =? simple_live_backward) ≫= fun _ =>
  ASSERT (simple_live_forward =? correct_live_after) ≫= fun _ =>
  Ret (set_live correct_live_after rm).

Definition visit_sources (i : instr) (rm : register_manager) : outcome register_manager :=
  if in_is_nop i then Ret rm else revive_ops (in_srcs i) rm.

Definition visit (i : instr) (rm : register_manager) : outcome register_manager :=
  if in_is_nop i then Ret rm else
  if in_is_cti i then Ret (revive_all rm) else
  rm ← visit_dests i rm; revive_ops (in_srcs i) rm.

Definition kill_instr (i : instr) (rm : register_manager) : outcome register_manager :=
  if in_is_nop i then Ret rm else rm ← kill_ops (in_dsts i) rm; kill_ops (in_srcs i) rm.

Definition revive_instr (i : instr) (rm : register_manager) : outcome register_manager :=
  if in_is_nop i then Ret rm else rm ← revive_ops (in_dsts i) rm; revive_ops (in_srcs i) rm.

Definition has_dead (rm : register_manager) : bool := negb (ALL16 =? live rm).
Definition has_live (rm : register_manager) : bool := negb (0 =? live rm).
Definition has_dead_xmm (rm : register_manager) : bool := negb (ALL16 =? live_xmm rm).
Definition has_live_xmm (rm : register_manager) : bool := negb (0 =? live_xmm rm).

(** The search loop of [get_zombie] and [get_xmm_zombie]: the first of [n]
    positions from [pos] whose bit is clear. *)
Fixpoint zombie_loop (zombies pos : Z) (n : nat) : option Z :=
  match n with
  | O => None
  | S n =>
      let mask := u16 (Z.shiftl 1 pos) in
      if Z.land mask zombies =? 0 then Some pos else zombie_loop zombies (pos + 1) n
  end.

Definition get_zombie (rm : register_manager) : Z * register_manager :=
  match zombie_loop (Z.lor (live rm) (undead rm)) 0 (Z.to_nat DR_REG_R15) with
  | Some pos =>
      (pos + 1,
       {| live := live rm; undead := Z.lor (undead rm) (u16 (Z.shiftl 1 pos));
          live_xmm := live_xmm rm; undead_xmm := undead_xmm rm |})
  | None => (DR_REG_NULL, rm)
  end.

Definition get_xmm_zombie (rm : register_manager) : Z * register_manager :=
  match zombie_loop (Z.lor (live_xmm rm) (undead_xmm rm)) 0 16 with
  | Some pos =>
      (pos + DR_REG_XMM0,
       {| live := live rm; undead := undead rm;
          live_xmm := live_xmm rm; undead_xmm := Z.lor (undead_xmm rm) (u16 (Z.shiftl 1 pos)) |})
  | None => (DR_REG_NULL, rm)
  end.

Definition get_zombie_scaled (s : register_scale) (rm : register_manager)
    : outcome (Z * register_manager) :=
  let z := get_zombie rm in reg ← scale z.1 s; Ret (reg, z.2).

(** The test shared by [is_live], [is_dead] and [is_undead]: the bit of the
    register in the set of its class. *)
Definition reg_query (xmm_set gpr_set reg_ : Z) : outcome bool :=
  if (DR_REG_XMM0 <=? reg_) && (reg_ <=? DR_REG_XMM15) then
    let reg := reg_to_xmm reg_ in
    if reg =? 0 then Ret false else Ret (negb (Z.land (reg_mask reg) xmm_set =? 0))
  else if reg_ <? DR_REG_ST0 then
    reg ← reg_idx REG_TO_REG64 reg_;
    if reg =? 0 then Ret false else Ret (negb (Z.land (reg_mask reg) gpr_set =? 0))
  else Fault.

Definition is_live (rm : register_manager) : Z -> outcome bool :=
  reg_query (live_xmm rm) (live rm).
Definition is_dead (rm : register_manager) : Z -> outcome bool :=
  reg_query (wnot 16 (live_xmm rm)) (wnot 16 (live rm)).
Definition is_undead (rm : register_manager) : Z -> outcome bool :=
  reg_query (Z.lor (live_xmm rm) (undead rm)) (Z.lor (live rm) (undead rm)).

Definition rm_encode (rm : register_manager) : Z :=
  Z.lor (u32 (Z.shiftl (live_xmm rm) 16)) (live rm).

Definition rm_decode (bitmask : Z) (rm : register_manager) : register_manager :=
  {| live := Z.lor (Z.land bitmask 255) FORCE_LIVE; undead := 0;
     live_xmm := Z.land (Z.shiftr bitmask 16) 255; undead_xmm := 0 |}.

(** ** The saved machine state *)

(** The order of the fields of [simple_machine_state] (r15 first). *)
Definition simple_machine_state_fields : list Z :=
  [16; 15; 14; 13; 12; 11; 10; 9; 8; 7; 6; 4; 3; 2; 1; 5].

(** [simple_machine_state::operator[]]: the index in [regs]. *)
Definition simple_machine_state_index (reg : Z) : outcome nat :=
  reg ← scale reg REG_64;
  ASSERT (negb (DR_REG_NULL =? reg)) ≫= fun _ =>
  ASSERT (negb (DR_REG_RSP =? reg)) ≫= fun _ =>
  let reg := if DR_REG_RSP <? reg then reg - 1 else reg in
  Ret (Z.to_nat (15 - reg)).

(** ** What instructions read and overwrite

    The reference the analysis is compared with, on register numbers
    [1 .. 16]. *)

(** The 64-bit register that contains register [reg]. *)
Definition reg64_of (reg : Z) : Z := default 0 (REG_TO_REG64 !! Z.to_nat reg).

(** The operand names a part of general purpose register [r]. *)
Definition op_reg (op : opnd) (r : Z) : bool :=
  match op with REG_kind g => (g <? DR_REG_MM0) && (reg64_of g =? r) | _ => false end.

(** The operand is a register operand of 32 or 64 bits within [r]. *)
Definition op_full (op : opnd) (r : Z) : bool :=
  match op with REG_kind g => (g <=? 32) && (reg64_of g =? r) | _ => false end.

(** [r] is part of the address of a memory operand. *)
Definition op_addr (op : opnd) (r : Z) : bool :=
  match op with BASE_DISP_kind b x => (reg64_of b =? r) || (reg64_of x =? r) | _ => false end.

(** The operand is XMM register number [x] (from 1). *)
Definition op_xmm (op : opnd) (x : Z) : bool :=
  match op with REG_kind g => g =? x + (DR_REG_XMM0 - 1) | _ => false end.

Definition in_ops (f : opnd -> Z -> bool) (ops : list opnd) (r : Z) : bool :=
  existsb (fun op => f op r) ops.

(** Registers a repeated string instruction counts and advances. *)
Definition rep_reg (o : opcode) (r : Z) : bool :=
  match o with
  | OP_rep_ins | OP_rep_stos | OP_rep_scas | OP_repne_scas => (r =? DR_REG_RDI) || (r =? DR_REG_RCX)
  | OP_rep_outs | OP_rep_lods => (r =? DR_REG_RSI) || (r =? DR_REG_RCX)
  | OP_rep_movs | OP_rep_cmps | OP_repne_cmps =>
      (r =? DR_REG_RSI) || (r =? DR_REG_RDI) || (r =? DR_REG_RCX)
  | _ => false
  end.

(** [i] needs the old value of [r]: a source, an address, a counter, the
    destination of a bit scan (unchanged when the source is zero), the stack
    pointer, or anything at all when control leaves. *)
Definition uses (i : instr) (r : Z) : bool :=
  negb (in_is_nop i) &&
  (in_is_cti i || (r =? DR_REG_RSP)
   || in_ops op_reg (in_srcs i) r || in_ops op_addr (in_srcs i) r
   || in_ops op_addr (in_dsts i) r || rep_reg (in_opcode i) r
   || (is_bit_scan (in_opcode i) && in_ops op_reg (in_dsts i) r)).

(** [i] replaces the whole of [r]. *)
Definition overwrites (i : instr) (r : Z) : bool :=
  negb (in_is_nop i) && negb (in_is_cti i) && negb (is_bit_scan (in_opcode i))
  && in_ops op_full (in_dsts i) r.

(** Register numbers in memory operands are those of the tables. *)
Definition opnd_ok (op : opnd) : Prop :=
  match op with
  | REG_kind g => 0 <= g < 256
  | BASE_DISP_kind b x => 0 <= b < DR_REG_MM0 /\ 0 <= x < DR_REG_MM0
  | OTHER_kind => True
  end.

Definition instr_ok (i : instr) : Prop := Forall opnd_ok (in_dsts i) /\ Forall opnd_ok (in_srcs i).

(** The invariant: four 16-bit sets, and the stack pointer is live. *)
Definition rm_wf (rm : register_manager) : Prop :=
  (in_width 16 (live rm) /\ in_width 16 (undead rm) /\
   in_width 16 (live_xmm rm) /\ in_width 16 (undead_xmm rm)) /\
  Z.testbit (live rm) (DR_REG_RSP - 1) = true.

Definition lives (rm : register_manager) (r : Z) : bool := Z.testbit (live rm) (r - 1).
Definition zombie (rm : register_manager) (r : Z) : bool := Z.testbit (undead rm) (r - 1).
Definition lives_xmm (rm : register_manager) (x : Z) : bool := Z.testbit (live_xmm rm) (x - 1).
Definition zombie_xmm (rm : register_manager) (x : Z) : bool := Z.testbit (undead_xmm rm) (x - 1).

(** ** Lemmas: tables and masks *)
Lemma range_forallb (P : Z -> bool) (n : Z) z :
  forallb P (seqZ 0 n) = true -> 0 <= z < n -> P z = true.
Proof.
  intros H Hz. rewrite forallb_forall in H. apply H, list_elem_of_In, elem_of_seqZ. lia.
Qed.

Lemma table64 reg : 0 <= reg < DR_REG_MM0 ->
  reg_idx REG_TO_REG64 reg = Ret (reg64_of reg) /\ 0 <= reg64_of reg <= 16 /\
  exists reg32, reg_idx REG_TO_REG32 reg = Ret reg32 /\
    (negb (reg64_of reg =? 0) && ((reg64_of reg =? reg) || (reg32 =? reg)))
    = (1 <=? reg) && (reg <=? 32).
Proof.
  intros H.
  pose (P := fun reg =>
    match reg_idx REG_TO_REG64 reg, reg_idx REG_TO_REG32 reg with
    | Ret a, Ret b =>
        (a =? reg64_of reg) && (0 <=? a) && (a <=? 16) &&
        eqb (negb (a =? 0) && ((a =? reg) || (b =? reg))) ((1 <=? reg) && (reg <=? 32))
    | _, _ => false
    end).
  assert (HP : P reg = true) by (apply (range_forallb P 69); [vm_compute; done|lia]).
  unfold P in HP. destruct (reg_idx REG_TO_REG64 reg) as [a| |]; try done.
  destruct (reg_idx REG_TO_REG32 reg) as [b| |] eqn:E32; try done.
  rewrite !andb_true_iff in HP. destruct HP as [[[Ha H0] H1] He].
  apply Z.eqb_eq in Ha as ->. apply Z.leb_le in H0, H1. apply eqb_prop in He.
  split; [done|]. split; [lia|]. by exists b.
Qed.

Lemma reg64_of_range reg : 0 <= reg < DR_REG_MM0 -> 0 <= reg64_of reg <= 16.
Proof. intros H. by destruct (table64 reg H) as (_ & ? & _). Qed.

Lemma reg64_of_null reg : 0 <= reg < DR_REG_MM0 -> reg64_of reg = 0 -> reg = 0.
Proof.
  intros H H0.
  pose proof (range_forallb (fun g => negb (reg64_of g =? 0) || (g =? 0)) 69 reg
    ltac:(vm_compute; done) ltac:(lia)) as HP. cbn beta in HP.
  rewrite H0 in HP. cbn in HP. by apply Z.eqb_eq in HP.
Qed.

Lemma testbit_reg_mask r i : 1 <= r <= 16 -> 0 <= i -> Z.testbit (reg_mask r) i = (i =? r - 1).
Proof.
  intros Hr Hi. unfold reg_mask.
  rewrite testbit_wrap by lia. rewrite testbit_shiftl by lia.
  destruct (Z.eqb_spec i (r - 1)) as [->|Hne].
  - replace (r - 1 - (r - 1)) with 0 by lia. cbn. zb.
  - destruct (Z.leb_spec (r - 1) i); [|zb].
    replace (Z.testbit 1 (i - (r - 1))) with false; [zb|].
    symmetry. apply (testbit_high 1); lia.
Qed.

Lemma testbit_not_mask r i : 1 <= r <= 16 -> 0 <= i < 16 ->
  Z.testbit (wnot 16 (reg_mask r)) i = negb (i =? r - 1).
Proof.
  intros. unfold wnot. rewrite Z.lxor_spec, testbit_reg_mask, testbit_ones by lia.
  split_tests; cbn; (done || lia).
Qed.

Lemma testbit_FORCE_LIVE i : 0 <= i -> Z.testbit FORCE_LIVE i = (i =? 4).
Proof. intros. exact (testbit_reg_mask 5 i ltac:(lia) ltac:(lia)). Qed.

(** ** Lemmas: the sets as predicates on register numbers *)
Definition widths (rm : register_manager) : Prop :=
  in_width 16 (live rm) /\ in_width 16 (undead rm) /\
  in_width 16 (live_xmm rm) /\ in_width 16 (undead_xmm rm).

(** The four sets of [rm] are given by the predicates [l u lx ux]. *)
Definition view (rm : register_manager) (l u lx ux : Z -> bool) : Prop :=
  widths rm /\ forall r, 1 <= r <= 16 ->
    lives rm r = l r /\ zombie rm r = u r /\ lives_xmm rm r = lx r /\ zombie_xmm rm r = ux r.

Lemma in_width_land w a b : 0 <= w -> in_width w a -> in_width w (Z.land a b).
Proof.
  intros Hw [Ha Hb]. apply in_width_bits; [done|apply Z.land_nonneg; lia|].
  intros i Hi. rewrite Z.land_spec, (testbit_high w a); [done|lia|lia].
Qed.

Lemma in_width_lor w a b : 0 <= w -> in_width w a -> in_width w b -> in_width w (Z.lor a b).
Proof.
  intros Hw [Ha Hb] [Ha' Hb']. apply in_width_bits; [done|apply Z.lor_nonneg; lia|].
  intros i Hi. rewrite Z.lor_spec, (testbit_high w a), (testbit_high w b); [done|lia..].
Qed.

Lemma in_width_mask r : in_width 16 (reg_mask r).
Proof. apply wrap_range. lia. Qed.

Lemma in_width_0 w : 0 <= w -> in_width w 0.
Proof. intros. split; [lia|]. by apply pow2_pos. Qed.

#[local] Hint Resolve in_width_land in_width_lor in_width_mask in_width_0 : granary.
#[local] Hint Extern 1 (0 <= _)%Z => lia : granary.
#[local] Hint Extern 1 (in_width 16 FORCE_LIVE) => (split; vm_compute; congruence) : granary.
#[local] Hint Extern 1 (in_width 16 ALL16) => (split; vm_compute; congruence) : granary.

Lemma view_self rm : widths rm -> view rm (lives rm) (zombie rm) (lives_xmm rm) (zombie_xmm rm).
Proof. by split. Qed.

(** Two states with the same view are equal. *)
Lemma view_inj rm rm' l u lx ux : view rm l u lx ux -> view rm' l u lx ux -> rm = rm'.
Proof.
  intros [(W1 & W2 & W3 & W4) V] [(W1' & W2' & W3' & W4') V'].
  assert (Hbits : forall a b, in_width 16 a -> in_width 16 b ->
            (forall r, 1 <= r <= 16 -> Z.testbit a (r - 1) = Z.testbit b (r - 1)) -> a = b).
  { intros a b Ha Hb H. apply Z.bits_inj'. intros i Hi. destruct (Z.lt_ge_cases i 16).
    - specialize (H (i + 1) ltac:(lia)). by replace (i + 1 - 1) with i in H by lia.
    - rewrite (testbit_high 16 a), (testbit_high 16 b); done. }
  destruct rm as [a b c d], rm' as [a' b' c' d']. cbn in *.
  f_equal; apply Hbits; auto; intros r Hr;
    destruct (V r Hr) as (? & ? & ? & ?), (V' r Hr) as (? & ? & ? & ?);
    unfold lives, zombie, lives_xmm, zombie_xmm in *; cbn in *; congruence.
Qed.

Lemma view_ext rm l u lx ux l' u' lx' ux' :
  view rm l u lx ux ->
  (forall r, 1 <= r <= 16 -> l r = l' r /\ u r = u' r /\ lx r = lx' r /\ ux r = ux' r) ->
  view rm l' u' lx' ux'.
Proof.
  intros [W V] E. split; [done|]. intros r Hr.
  destruct (V r Hr) as (? & ? & ? & ?), (E r Hr) as (? & ? & ? & ?). repeat split; congruence.
Qed.

(** Prove a [view] from the one in the context: the widths are automatic,
    what remains is one register. *)
Ltac view_tac :=
  match goal with V : view ?rm _ _ _ _ |- _ =>
    let W := fresh "W" in let V' := fresh "V" in
    destruct V as [W V']; split;
    [ destruct W as (?&?&?&?); unfold widths; cbn [live undead live_xmm undead_xmm] in *;
      eauto 10 with granary
    | let r := fresh "r" in let Hr := fresh "Hr" in
      intros r Hr; destruct (V' r Hr) as (?&?&?&?); unfold lives, zombie, lives_xmm, zombie_xmm in *;
      cbn [live undead live_xmm undead_xmm] ]
  end.

Lemma revive_64_view reg rm l u lx ux :
  0 <= reg < DR_REG_MM0 -> view rm l u lx ux ->
  exists rm', revive_64 reg rm = Ret rm' /\
    view rm' (fun r => l r || (reg64_of reg =? r)) (fun r => u r && negb (reg64_of reg =? r)) lx ux.
Proof.
  intros Hreg V. destruct (table64 reg Hreg) as (E & Hr & _).
  unfold revive_64. rewrite E. cbn [mbind outcome_bind].
  destruct (Z.eqb_spec (reg64_of reg) 0) as [E0|E0].
  - exists rm. split; [done|]. eapply view_ext; [done|]. intros r Hr'. rewrite E0.
    replace (0 =? r) with false by (symmetry; apply Z.eqb_neq; lia).
    rewrite orb_false_r. cbn. by rewrite andb_true_r.
  - eexists. split; [done|]. view_tac.
    rewrite Z.lor_spec, Z.land_spec, testbit_reg_mask, testbit_not_mask by lia.
    replace (r - 1 =? reg64_of reg - 1) with (reg64_of reg =? r) by zb.
    repeat split; congruence.
Qed.

Lemma kill_64_view reg rm l u lx ux :
  0 <= reg < DR_REG_MM0 -> l DR_REG_RSP = true -> view rm l u lx ux ->
  exists rm', kill_64 reg rm = Ret rm' /\
    view rm' (fun r => (l r && negb ((reg <=? 32) && (reg64_of reg =? r))) || (r =? DR_REG_RSP))
             (fun r => u r && negb ((reg <=? 32) && (reg64_of reg =? r))) lx ux.
Proof.
  intros Hreg Hsp V. destruct (table64 reg Hreg) as (E & Hr & r32 & E32 & Hk).
  unfold kill_64. rewrite E. cbn [mbind outcome_bind].
  destruct (Z.eqb_spec (reg64_of reg) 0) as [E0|E0].
  - exists rm. split; [done|]. eapply view_ext; [done|]. intros r Hr'.
    rewrite E0. replace (0 =? r) with false by (symmetry; apply Z.eqb_neq; lia).
    rewrite andb_false_r. cbn. rewrite !andb_true_r.
    destruct (Z.eqb_spec r DR_REG_RSP) as [->|]; [by rewrite Hsp|]. by rewrite orb_false_r.
  - rewrite E32. cbn [mbind outcome_bind].
    replace (1 <=? reg) with true in Hk.
    2: { symmetry. apply Z.leb_le. assert (reg <> 0) by (intros ->; by apply E0). lia. }
    cbn [negb andb] in Hk. rewrite Hk. destruct (reg <=? 32).
    + eexists. split; [done|]. view_tac.
      rewrite Z.lor_spec, !Z.land_spec, testbit_FORCE_LIVE, testbit_not_mask by lia.
      replace (r - 1 =? reg64_of reg - 1) with (reg64_of reg =? r) by zb.
      replace (r - 1 =? 4) with (r =? DR_REG_RSP) by zb.
      cbn [andb]. repeat split; congruence.
    + exists rm. split; [done|]. eapply view_ext; [done|]. intros r Hr'. cbn.
      rewrite !andb_true_r.
      destruct (Z.eqb_spec r DR_REG_RSP) as [->|]; [by rewrite Hsp|]. by rewrite orb_false_r.
Qed.

Lemma xmm_view reg rm l u lx ux :
  DR_REG_MM0 <= reg -> view rm l u lx ux ->
  view (kill_xmm reg rm) l u (fun x => lx x && negb (op_xmm (REG_kind reg) x))
       (fun x => ux x && negb (op_xmm (REG_kind reg) x)) /\
  view (revive_xmm reg rm) l u (fun x => lx x || op_xmm (REG_kind reg) x)
       (fun x => ux x && negb (op_xmm (REG_kind reg) x)).
Proof.
  intros Hreg V. unfold kill_xmm, revive_xmm, reg_to_xmm, op_xmm.
  destruct ((DR_REG_XMM0 <=? reg) && (reg <=? DR_REG_XMM15)) eqn:Ex.
  - apply andb_true_iff in Ex as [?%Z.leb_le ?%Z.leb_le].
    destruct (Z.eqb_spec (reg - 77 + 1) 0); [lia|].
    split; view_tac;
      rewrite ?Z.lor_spec, ?Z.land_spec, ?testbit_reg_mask, !testbit_not_mask by lia;
      replace (r - 1 =? reg - 77 + 1 - 1) with (reg =? r + (DR_REG_XMM0 - 1)) by zb;
      repeat split; congruence.
  - cbn [Z.eqb]. split; (eapply view_ext; [done|]); intros r Hr;
      (replace (reg =? r + (DR_REG_XMM0 - 1)) with false by
        (symmetry; apply Z.eqb_neq; intros ->; apply andb_false_iff in Ex as [?%Z.leb_gt|?%Z.leb_gt]; lia));
      rewrite ?andb_true_r, ?orb_false_r; done.
Qed.

(** ** Lemmas: operands *)
Definition op_names (op : opnd) (r : Z) : bool := op_reg op r || op_addr op r.

Lemma in_ops_orb f g ops r :
  in_ops f ops r || in_ops g ops r = in_ops (fun op r => f op r || g op r) ops r.
Proof.
  unfold in_ops. induction ops as [|op ops IH]; [done|]. cbn. rewrite <- IH.
  destruct (f op r), (g op r), (existsb _ ops); cbn; rewrite ?orb_true_r; done.
Qed.

Lemma in_ops_cons f op ops r : in_ops f (op :: ops) r = f op r || in_ops f ops r.
Proof. done. Qed.

Lemma in_ops_perm f ops ops' r : ops ≡ₚ ops' -> in_ops f ops r = in_ops f ops' r.
Proof.
  unfold in_ops. induction 1 as [|op ops ops' _ IH|op op' ops|? ? ? _ IH1 _ IH2]; cbn.
  - done.
  - by rewrite IH.
  - by rewrite !orb_assoc, (orb_comm (f op' r)).
  - by rewrite IH1.
Qed.

Lemma revive_opnd_view op rm l u lx ux :
  opnd_ok op -> view rm l u lx ux ->
  exists rm', revive_opnd op rm = Ret rm' /\
    view rm' (fun r => l r || op_names op r) (fun r => u r && negb (op_names op r))
             (fun x => lx x || op_xmm op x) (fun x => ux x && negb (op_xmm op x)).
Proof.
  intros Hok V. destruct op as [g|b x|]; cbn [opnd_ok revive_opnd] in *; unfold revive_reg.
  - destruct (Z.leb_spec DR_REG_MM0 g).
    + exists (revive_xmm g rm). split; [done|].
      eapply view_ext; [by apply (proj2 (xmm_view g rm l u lx ux ltac:(lia) V))|].
      intros r Hr. unfold op_names, op_reg. cbn [op_addr].
      destruct (Z.ltb_spec g DR_REG_MM0); [lia|]. cbn. by rewrite orb_false_r, andb_true_r.
    + destruct (revive_64_view g rm l u lx ux ltac:(lia) V) as (rm' & E & V').
      exists rm'. split; [done|]. eapply view_ext; [done|]. intros r Hr.
      unfold op_names, op_reg, op_xmm. cbn [op_addr]. destruct (Z.ltb_spec g DR_REG_MM0); [|lia].
      destruct (Z.eqb_spec g (r + (DR_REG_XMM0 - 1))); [lia|].
      cbn. by rewrite !orb_false_r, andb_true_r.
  - destruct Hok as [Hb Hx].
    destruct (revive_64_view b rm l u lx ux Hb V) as (rm1 & E1 & V1). rewrite E1.
    cbn [mbind outcome_bind].
    destruct (revive_64_view x rm1 _ _ _ _ Hx V1) as (rm2 & E2 & V2).
    exists rm2. split; [done|]. eapply view_ext; [done|]. intros r Hr. cbn.
    by rewrite !orb_false_r, !andb_true_r, orb_assoc, negb_orb, andb_assoc.
  - exists rm. split; [done|]. eapply view_ext; [done|]. intros r Hr. cbn.
    by rewrite !orb_false_r, !andb_true_r.
Qed.

Lemma revive_ops_view ops : forall rm l u lx ux,
  Forall opnd_ok ops -> view rm l u lx ux ->
  exists rm', revive_ops ops rm = Ret rm' /\
    view rm' (fun r => l r || in_ops op_names ops r) (fun r => u r && negb (in_ops op_names ops r))
             (fun x => lx x || in_ops op_xmm ops x) (fun x => ux x && negb (in_ops op_xmm ops x)).
Proof.
  induction ops as [|op ops IH]; intros rm l u lx ux Hok V; cbn [revive_ops].
  - exists rm. split; [done|]. eapply view_ext; [done|]. intros. cbn.
    by rewrite !orb_false_r, !andb_true_r.
  - apply List.Forall_cons_iff in Hok as [Ho Hok].
    destruct (revive_opnd_view op rm l u lx ux Ho V) as (rm1 & E1 & V1). rewrite E1.
    destruct (IH rm1 _ _ _ _ Hok V1) as (rm2 & E2 & V2). exists rm2. split; [done|].
    eapply view_ext; [done|]. intros r Hr. cbn.
    by rewrite !orb_assoc, !negb_orb, !andb_assoc.
Qed.

Lemma kill_reg_view g rm l u lx ux :
  0 <= g < 256 -> l DR_REG_RSP = true -> view rm l u lx ux ->
  exists rm', kill_reg g rm = Ret rm' /\
    view rm' (fun r => (l r && negb (op_full (REG_kind g) r)) || (r =? DR_REG_RSP))
             (fun r => u r && negb (op_full (REG_kind g) r))
             (fun x => lx x && negb (op_xmm (REG_kind g) x))
             (fun x => ux x && negb (op_xmm (REG_kind g) x)).
Proof.
  intros Hg Hsp V. unfold kill_reg. destruct (Z.leb_spec DR_REG_MM0 g).
  - exists (kill_xmm g rm). split; [done|].
    eapply view_ext; [by apply (proj1 (xmm_view g rm l u lx ux ltac:(lia) V))|].
    intros r Hr. unfold op_full. destruct (Z.leb_spec g 32); [lia|]. cbn.
    rewrite !andb_true_r. destruct (Z.eqb_spec r DR_REG_RSP) as [->|]; [by rewrite Hsp|].
    by rewrite orb_false_r.
  - destruct (kill_64_view g rm l u lx ux ltac:(lia) Hsp V) as (rm' & E & V').
    exists rm'. split; [done|]. eapply view_ext; [done|]. intros r Hr.
    unfold op_full, op_xmm. destruct (Z.eqb_spec g (r + (DR_REG_XMM0 - 1))); [lia|].
    cbn [negb]. by rewrite !andb_true_r.
Qed.

(** ** Lemmas: [visit_dests] *)

(** Registers whose zombie mark a destination operand clears. *)
Definition dest_touch (bs : bool) (op : opnd) (r : Z) : bool :=
  op_addr op r || (if bs then op_reg op r else op_full op r).

Definition dest_live (bs : bool) (ops : list opnd) (l : Z -> bool) (r : Z) : bool :=
  if bs then l r || in_ops op_reg ops r
  else (l r && negb (in_ops op_full ops r)) || (r =? DR_REG_RSP).

Definition dest_xmm (bs : bool) (ops : list opnd) (lx : Z -> bool) (x : Z) : bool :=
  if bs then lx x || in_ops op_xmm ops x else lx x && negb (in_ops op_xmm ops x).

(** A memory destination: the registers of its address become part of
    [must_live], the set of live registers is left as it was. *)
Lemma dest_mem_view b x rm l u lx ux :
  0 <= b < DR_REG_MM0 -> 0 <= x < DR_REG_MM0 -> view rm l u lx ux ->
  exists rm1 rm2, revive_64 b (set_live 0 rm) = Ret rm1 /\ revive_64 x rm1 = Ret rm2 /\
    in_width 16 (live rm2) /\
    (forall r, 1 <= r <= 16 -> lives rm2 r = op_addr (BASE_DISP_kind b x) r) /\
    view (set_live (live rm) rm2) l (fun r => u r && negb (op_addr (BASE_DISP_kind b x) r)) lx ux.
Proof.
  intros Hb Hx V.
  assert (V0 : view (set_live 0 rm) (fun _ => false) u lx ux).
  { destruct V as [(? & ? & ? & ?) V]. split.
    - unfold widths. cbn. eauto with granary.
    - intros r Hr. destruct (V r Hr) as (_ & ? & ? & ?). unfold lives. cbn.
      rewrite Z.bits_0. done. }
  destruct (revive_64_view b _ _ _ _ _ Hb V0) as (rm1 & E1 & V1).
  destruct (revive_64_view x _ _ _ _ _ Hx V1) as (rm2 & E2 & V2).
  exists rm1, rm2. destruct V2 as [(W1 & W2 & W3 & W4) V2]. destruct V as [(W0 & _) V].
  split; [done|]. split; [done|]. split; [done|]. split; [intros r Hr; by apply V2|].
  split; [by repeat (split; [done|])|]. intros r Hr.
  destruct (V r Hr) as (? & ? & ? & ?), (V2 r Hr) as (? & Hz & ? & ?).
  unfold lives, zombie, lives_xmm, zombie_xmm in *. cbn in *.
  by rewrite Hz, negb_orb, andb_assoc.
Qed.

Lemma visit_dests_loop_view o ops : forall rm l u lx ux must,
  Forall opnd_ok ops -> l DR_REG_RSP = true -> view rm l u lx ux -> in_width 16 must ->
  exists rm' must', visit_dests_loop o ops rm must = Ret (rm', must') /\ in_width 16 must' /\
    (forall r, 1 <= r <= 16 ->
       Z.testbit must' (r - 1) = Z.testbit must (r - 1) || in_ops op_addr ops r) /\
    view rm' (dest_live (is_bit_scan o) ops l)
             (fun r => u r && negb (in_ops (dest_touch (is_bit_scan o)) ops r))
             (dest_xmm (is_bit_scan o) ops lx) (fun x => ux x && negb (in_ops op_xmm ops x)).
Proof.
  induction ops as [|op ops IH]; intros rm l u lx ux must Hok Hsp V Hm; cbn [visit_dests_loop].
  - exists rm, must. split; [done|]. split; [done|]. split; [intros; cbn; by rewrite orb_false_r|].
    eapply view_ext; [done|]. intros r Hr. unfold dest_live, dest_xmm. cbn.
    rewrite !orb_false_r, !andb_true_r. destruct (is_bit_scan o); [done|].
    destruct (Z.eqb_spec r DR_REG_RSP) as [->|]; [by rewrite Hsp|]. by rewrite orb_false_r.
  - apply List.Forall_cons_iff in Hok as [Ho Hok]. destruct op as [g|b x|].
    + destruct (is_bit_scan o) eqn:Ebs.
      * destruct (revive_opnd_view _ rm l u lx ux Ho V) as (rm1 & E1 & V1). rewrite E1.
        cbn [mbind outcome_bind].
        edestruct IH as (rm' & must' & E & ? & Hm' & V'); [exact Hok| |exact V1|exact Hm|];
          [cbn beta; by rewrite Hsp|].
        exists rm', must'. split; [done|]. split; [done|]. split; [done|].
        eapply view_ext; [done|]. intros r Hr. unfold dest_live, dest_xmm, op_names, dest_touch. cbn.
        rewrite !orb_false_r, !orb_assoc, !negb_orb, !andb_assoc. done.
      * cbn [kill_opnd]. destruct (kill_reg_view g rm l u lx ux Ho Hsp V) as (rm1 & E1 & V1). rewrite E1.
        cbn [mbind outcome_bind].
        edestruct IH as (rm' & must' & E & ? & Hm' & V'); [exact Hok| |exact V1|exact Hm|];
          [cbn beta; by rewrite orb_true_r|].
        exists rm', must'. split; [done|]. split; [done|]. split; [done|].
        eapply view_ext; [done|]. intros r Hr. unfold dest_live, dest_xmm, dest_touch.
        rewrite !in_ops_cons. change (op_addr (REG_kind g) r) with false. cbn [orb].
        rewrite !negb_orb, !andb_assoc.
        destruct (r =? DR_REG_RSP), (op_full (REG_kind g) r), (in_ops op_full ops r), (l r); done.
    + destruct Ho as [Hb Hx].
      destruct (dest_mem_view b x rm l u lx ux Hb Hx V) as (rm1 & rm2 & E1 & E2 & Hw & Ha & V2).
      rewrite E1. cbn [mbind outcome_bind]. rewrite E2. cbn [mbind outcome_bind].
      edestruct (IH _ _ _ _ _ (Z.lor must (live rm2)) Hok Hsp V2) as (rm' & must' & E & ? & Hm' & V');
        [by apply in_width_lor|].
      exists rm', must'. split; [done|]. split; [done|]. split.
      * intros r Hr. rewrite Hm', Z.lor_spec by done. specialize (Ha r Hr). unfold lives in Ha.
        by rewrite Ha, in_ops_cons, orb_assoc.
      * eapply view_ext; [done|]. intros r Hr. unfold dest_live, dest_xmm, dest_touch. cbn.
        rewrite !negb_orb, !andb_assoc. destruct (is_bit_scan o); cbn; by rewrite ?andb_true_r.
    + edestruct (IH rm _ _ _ _ must Hok Hsp V Hm) as (rm' & must' & E & ? & Hm' & V').
      exists rm', must'. split; [done|]. split; [done|]. split; [done|].
      eapply view_ext; [done|]. intros r Hr. unfold dest_live, dest_xmm, dest_touch. cbn.
      destruct (is_bit_scan o); done.
Qed.

Lemma set_live_view n rm l u lx ux l' :
  view rm l u lx ux -> in_width 16 n -> (forall r, 1 <= r <= 16 -> Z.testbit n (r - 1) = l' r) ->
  view (set_live n rm) l' u lx ux.
Proof.
  intros [(? & ? & ? & ?) V] Hn Hl. split; [done|]. intros r Hr.
  destruct (V r Hr) as (_ & ? & ? & ?). split; [by apply Hl|]. done.
Qed.

(** Consecutive revivals of the string registers. *)
Lemma visit_dests_rep_view o rm l u lx ux :
  view rm l u lx ux ->
  exists rm', visit_dests_rep o rm = Ret rm' /\
    view rm' (fun r => l r || rep_reg o r) (fun r => u r && negb (rep_reg o r)) lx ux.
Proof.
  intros V.
  assert (Hone : forall g rm l u lx ux, 1 <= g <= 16 -> view rm l u lx ux -> exists rm',
            revive_64 g rm = Ret rm' /\
            view rm' (fun r => l r || (r =? g)) (fun r => u r && negb (r =? g)) lx ux).
  { intros g rm0 l0 u0 lx0 ux0 Hg V0.
    destruct (revive_64_view g rm0 l0 u0 lx0 ux0 ltac:(lia) V0) as (rm' & E & V').
    exists rm'. split; [done|]. eapply view_ext; [done|]. intros r Hr.
    assert (reg64_of g = g) as ->.
    { pose proof (range_forallb (fun g => (reg64_of g =? g)) 17 g ltac:(vm_compute; done) ltac:(lia)) as H.
      by apply Z.eqb_eq in H. }
    by rewrite (Z.eqb_sym g r). }
  assert (H2 : forall g h, 1 <= g <= 16 -> 1 <= h <= 16 -> exists rm',
            (rm ← revive_64 g rm; revive_64 h rm) = Ret rm' /\
            view rm' (fun r => l r || ((r =? g) || (r =? h)))
                     (fun r => u r && negb ((r =? g) || (r =? h))) lx ux).
  { intros g h Hg Hh. destruct (Hone g _ _ _ _ _ Hg V) as (rm1 & E1 & V1). rewrite E1.
    destruct (Hone h _ _ _ _ _ Hh V1) as (rm2 & E2 & V2). exists rm2. split; [done|].
    eapply view_ext; [done|]. intros r Hr. by rewrite orb_assoc, negb_orb, andb_assoc. }
  destruct o; cbn [visit_dests_rep rep_reg]; try (apply H2; lia);
    try (exists rm; split; [done|]; eapply view_ext; [done|]; intros; cbn;
         by rewrite orb_false_r, andb_true_r).
  all: destruct (H2 DR_REG_RSI DR_REG_RDI ltac:(lia) ltac:(lia)) as (rm2 & E2 & V2).
  all: destruct (revive_64 DR_REG_RSI rm) as [rm1| |]; cbn [mbind outcome_bind] in *; try done.
  all: rewrite E2; cbn [mbind outcome_bind];
       destruct (Hone DR_REG_RCX _ _ _ _ _ ltac:(lia) V2) as (rm3 & E3 & V3); exists rm3; split; [done|];
       eapply view_ext; [done|]; intros r Hr; by rewrite !orb_assoc, !negb_orb, !andb_assoc.
Qed.

(** ** The analysis *)
Definition visit_dests_live (i : instr) (l : Z -> bool) (r : Z) : bool :=
  dest_live (is_bit_scan (in_opcode i)) (in_dsts i) l r
  || ((r =? DR_REG_RSP) || in_ops op_addr (in_dsts i) r) || rep_reg (in_opcode i) r.

Lemma visit_dests_view i rm l u lx ux :
  Forall opnd_ok (in_dsts i) -> in_is_nop i = false -> l DR_REG_RSP = true -> view rm l u lx ux ->
  exists rm', visit_dests i rm = Ret rm' /\
    view rm' (visit_dests_live i l)
      (fun r => u r && negb (in_ops (dest_touch (is_bit_scan (in_opcode i))) (in_dsts i) r)
                && negb (rep_reg (in_opcode i) r))
      (dest_xmm (is_bit_scan (in_opcode i)) (in_dsts i) lx)
      (fun x => ux x && negb (in_ops op_xmm (in_dsts i) x)).
Proof.
  intros Hok Hn Hsp V. unfold visit_dests. rewrite Hn.
  destruct (visit_dests_loop_view (in_opcode i) (in_dsts i) rm l u lx ux FORCE_LIVE Hok Hsp V)
    as (rm1 & must & E1 & Hw & Hm & V1); [split; vm_compute; congruence|].
  rewrite E1. cbn [mbind outcome_bind fst snd].
  assert (V2 := V1). destruct V2 as [(Wl & _) V2].
  destruct (visit_dests_rep_view (in_opcode i) _ _ _ _ _
    (set_live_view (Z.lor (live rm1) must) rm1 _ _ _ _
       (fun r => dest_live (is_bit_scan (in_opcode i)) (in_dsts i) l r
                 || ((r =? DR_REG_RSP) || in_ops op_addr (in_dsts i) r)) V1
       ltac:(by apply in_width_lor)
       ltac:(intros r Hr; destruct (V2 r Hr) as (Hl & _); unfold lives in Hl;
             rewrite Z.lor_spec, Hl, Hm, testbit_FORCE_LIVE by lia;
             by replace (r - 1 =? 4) with (r =? DR_REG_RSP) by zb)))
    as (rm' & E' & V').
  exists rm'. split; [done|]. by eapply view_ext.
Qed.

Lemma view_wf rm l u lx ux : view rm l u lx ux -> l DR_REG_RSP = true -> rm_wf rm.
Proof.
  intros [W V] Hl. split; [done|]. destruct (V DR_REG_RSP ltac:(lia)) as (H & _).
  unfold lives in H. congruence.
Qed.

Lemma wf_view rm : rm_wf rm ->
  view rm (lives rm) (zombie rm) (lives_xmm rm) (zombie_xmm rm) /\ lives rm DR_REG_RSP = true.
Proof. intros [W H]. split; [by apply view_self|done]. Qed.

Lemma revive_all_view rm : view (revive_all rm) (fun _ => true) (fun _ => false) (fun _ => true) (fun _ => false).
Proof.
  split; [unfold widths; cbn; auto 6 with granary|]. intros r Hr.
  unfold lives, zombie, lives_xmm, zombie_xmm. cbn. rewrite !Z.bits_0.
  assert (Z.testbit ALL16 (r - 1) = true) as ->; [|done].
  change ALL16 with (Z.ones 16). rewrite testbit_ones by lia. zb.
Qed.

Lemma visit_step i rm :
  instr_ok i -> rm_wf rm ->
  exists rm', visit i rm = Ret rm' /\ rm_wf rm' /\
    forall r, 1 <= r <= 16 -> lives rm' r = uses i r || (lives rm r && negb (overwrites i r)).
Proof.
  intros [Hd Hs] Hwf. destruct (wf_view rm Hwf) as [V Hsp].
  unfold visit, uses, overwrites. destruct (in_is_nop i) eqn:En; cbn [negb andb orb].
  { exists rm. split; [done|]. split; [done|]. intros. by rewrite andb_true_r. }
  destruct (in_is_cti i); cbn [negb andb orb].
  { exists (revive_all rm). split; [done|]. pose proof (revive_all_view rm) as Vr.
    split; [by eapply view_wf|]. intros r Hr. by destruct Vr as [_ Vr], (Vr r Hr) as (-> & _). }
  destruct (visit_dests_view i rm _ _ _ _ Hd En Hsp V) as (rm1 & E1 & V1). rewrite E1.
  cbn [mbind outcome_bind].
  destruct (revive_ops_view (in_srcs i) _ _ _ _ _ Hs V1) as (rm2 & E2 & V2).
  exists rm2. split; [done|]. split.
  { eapply view_wf; [done|]. unfold visit_dests_live. cbn. by rewrite !orb_true_r. }
  intros r Hr. destruct V2 as [_ V2]. destruct (V2 r Hr) as (-> & _).
  unfold visit_dests_live, dest_live, op_names. rewrite <- in_ops_orb.
  destruct (is_bit_scan (in_opcode i)), (r =? DR_REG_RSP), (in_ops op_reg (in_srcs i) r),
    (in_ops op_addr (in_srcs i) r), (in_ops op_addr (in_dsts i) r), (rep_reg (in_opcode i) r);
    cbn; rewrite ?orb_true_r, ?orb_false_r, ?andb_true_r; try done.
  apply orb_comm.
Qed.

(** One step of the analysis.  On an instruction whose operands are those
    of the tables, [visit] returns; it preserves the invariant; and register
    [r] is live before the instruction exactly when the instruction uses it,
    or it is live after and the instruction does not overwrite it. *)
Theorem visit_liveness i rm :
  instr_ok i -> rm_wf rm ->
  exists rm', visit i rm = Ret rm' /\ rm_wf rm' /\
    forall r, 1 <= r <= 16 -> lives rm' r = uses i r || (lives rm r && negb (overwrites i r)).
Proof. apply visit_step. Qed.

(** A block of the form [mov (rdi), rax; mov rax, 1]: the store reads [rdi]
    and [rax], the load kills [rax]. *)
Definition store_example : instr :=
  {| in_opcode := OP_other 0; in_dsts := [BASE_DISP_kind DR_REG_RDI DR_REG_NULL];
     in_srcs := [REG_kind 1]; in_is_nop := false; in_is_cti := false |}.
Definition mov_example : instr :=
  {| in_opcode := OP_other 1; in_dsts := [REG_kind 1]; in_srcs := [OTHER_kind];
     in_is_nop := false; in_is_cti := false |}.

Lemma instr_ok_examples : instr_ok store_example /\ instr_ok mov_example.
Proof. repeat constructor; cbn; lia. Defined.

Lemma ctor_wf : rm_wf register_manager_ctor.
Proof. repeat split; vm_compute; congruence. Defined.

Lemma kill_all_wf rm : rm_wf (kill_all rm).
Proof. repeat split; vm_compute; congruence. Defined.

Lemma visit_liveness_witness :
  exists rm', visit store_example (kill_all register_manager_ctor) = Ret rm' /\ rm_wf rm' /\
    lives rm' 1 = true /\ lives rm' 2 = false.
Proof.
  destruct (visit_liveness store_example (kill_all register_manager_ctor)
    (proj1 instr_ok_examples) (kill_all_wf _)) as (rm' & E & W & H).
  exists rm'. split; [exact E|]. split; [exact W|].
  split; [rewrite (H 1 ltac:(lia))|rewrite (H 2 ltac:(lia))]; vm_compute; reflexivity.
Defined.

(** The effect of the destinations does not depend on their order: two
    instructions that differ by a permutation of their destination operands
    leave the same state, zombies and XMM registers included, also when a
    register occurs both in an address and as a destination. *)
Theorem visit_dests_order i j rm :
  instr_ok i -> rm_wf rm -> in_opcode j = in_opcode i -> in_is_nop j = in_is_nop i ->
  in_dsts i ≡ₚ in_dsts j ->
  visit_dests i rm = visit_dests j rm /\ exists rm', visit_dests i rm = Ret rm'.
Proof.
  intros [Hd _] Hwf Eo En Hp. destruct (wf_view rm Hwf) as [V Hsp].
  destruct (in_is_nop i) eqn:Hn.
  { unfold visit_dests. rewrite Hn, En. eauto. }
  assert (Hd' : Forall opnd_ok (in_dsts j)) by (by rewrite <- Hp).
  destruct (visit_dests_view i rm _ _ _ _ Hd Hn Hsp V) as (rm1 & -> & V1).
  destruct (visit_dests_view j rm _ _ _ _ Hd' En Hsp V) as (rm2 & -> & V2).
  split; [|eauto]. f_equal. eapply view_inj; [exact V1|].
  eapply view_ext; [exact V2|]. intros r Hr. unfold visit_dests_live, dest_live, dest_xmm.
  rewrite Eo, <- !(in_ops_perm _ _ _ r Hp). done.
Qed.

Definition movs_like (dsts : list opnd) : instr :=
  {| in_opcode := OP_other 2; in_dsts := dsts; in_srcs := []; in_is_nop := false; in_is_cti := false |}.

Lemma visit_dests_order_witness :
  visit_dests (movs_like [BASE_DISP_kind 8 0; REG_kind 8]) register_manager_ctor =
  visit_dests (movs_like [REG_kind 8; BASE_DISP_kind 8 0]) register_manager_ctor.
Proof.
  apply (visit_dests_order (movs_like [BASE_DISP_kind 8 0; REG_kind 8])
           (movs_like [REG_kind 8; BASE_DISP_kind 8 0]) register_manager_ctor).
  - repeat constructor; cbn; lia.
  - exact ctor_wf.
  - reflexivity.
  - reflexivity.
  - apply Permutation_swap.
Defined.

(** ** Zombies *)
Lemma mask_test pos zs : 0 <= pos < 16 ->
  (Z.land (u16 (Z.shiftl 1 pos)) zs =? 0) = negb (Z.testbit zs pos).
Proof.
  intros Hp. pose proof (testbit_reg_mask (pos + 1)) as Hm. unfold reg_mask in Hm.
  replace (pos + 1 - 1) with pos in Hm by lia.
  destruct (Z.testbit zs pos) eqn:Eb; cbn [negb].
  - apply Z.eqb_neq. intros H0. assert (Z.testbit 0 pos = true) as Hc; [|by rewrite Z.bits_0 in Hc].
    rewrite <- H0, Z.land_spec, Hm, Eb by lia. by rewrite Z.eqb_refl.
  - apply Z.eqb_eq. apply Z.bits_inj'. intros i Hi. rewrite Z.land_spec, Hm, Z.bits_0 by lia.
    destruct (Z.eqb_spec i pos) as [->|]; [by rewrite Eb|done].
Qed.

Lemma zombie_loop_spec zs n : forall pos, 0 <= pos -> pos + Z.of_nat n <= 16 ->
  match zombie_loop zs pos n with
  | Some p => pos <= p < pos + Z.of_nat n /\ Z.testbit zs p = false /\
              forall q, pos <= q < p -> Z.testbit zs q = true
  | None => forall q, pos <= q < pos + Z.of_nat n -> Z.testbit zs q = true
  end.
Proof.
  induction n as [|n IH]; intros pos Hp Hn; cbn [zombie_loop]; [intros; lia|].
  rewrite mask_test by lia. destruct (Z.testbit zs pos) eqn:Eb; cbn [negb].
  - specialize (IH (pos + 1) ltac:(lia) ltac:(lia)). destruct (zombie_loop zs (pos + 1) n) as [p|].
    + destruct IH as (? & ? & IH). split; [lia|]. split; [done|]. intros q Hq.
      destruct (Z.eq_dec q pos) as [->|]; [done|]. apply IH. lia.
    + intros q Hq. destruct (Z.eq_dec q pos) as [->|]; [done|]. apply IH. lia.
  - split; [lia|]. split; [done|]. intros; lia.
Qed.

Lemma testbit_lor_mask x pos i : 0 <= pos < 16 -> 0 <= i ->
  Z.testbit (Z.lor x (u16 (Z.shiftl 1 pos))) i = Z.testbit x i || (i =? pos).
Proof.
  intros. pose proof (testbit_reg_mask (pos + 1) i) as Hm. unfold reg_mask in Hm.
  replace (pos + 1 - 1) with pos in Hm by lia. by rewrite Z.lor_spec, Hm by lia.
Qed.

Lemma get_zombie_spec rm z rm' :
  rm_wf rm -> get_zombie rm = (z, rm') ->
  rm_wf rm' /\ live rm' = live rm /\
  ((z = DR_REG_NULL /\ rm' = rm /\ forall r, 1 <= r <= 16 -> lives rm r || zombie rm r = true) \/
   (1 <= z <= 16 /\ z <> DR_REG_RSP /\ lives rm z = false /\ zombie rm z = false /\
    (forall r, 1 <= r < z -> lives rm r || zombie rm r = true) /\
    forall r, 1 <= r <= 16 -> zombie rm' r = zombie rm r || (r =? z))).
Proof.
  intros Hwf E. unfold get_zombie in E.
  pose proof (zombie_loop_spec (Z.lor (live rm) (undead rm)) (Z.to_nat DR_REG_R15) 0 ltac:(lia) ltac:(lia)) as H.
  unfold lives, zombie.
  destruct (zombie_loop _ _ _) as [p|]; injection E as <- <-.
  - destruct H as (Hp & Hb & Hq). rewrite Z.lor_spec in Hb. apply orb_false_iff in Hb as [Hb1 Hb2].
    destruct Hwf as [(? & ? & ? & ?) Hsp].
    split; [|split; [done|]].
    { split; [|done]. cbn. split; [done|]. split; [|done].
      apply in_width_lor; [lia|done|]. apply wrap_range. lia. }
    change (DR_REG_RSP - 1) with 4 in Hsp.
    right. replace (p + 1 - 1) with p by lia. split; [lia|]. split; [intros E; replace p with 4 in Hb1 by lia; congruence|].
    split; [done|]. split; [done|]. split.
    + intros r Hr. specialize (Hq (r - 1) ltac:(lia)). by rewrite Z.lor_spec in Hq.
    + intros r Hr. cbn. rewrite testbit_lor_mask by lia.
      by replace (r - 1 =? p) with (r =? p + 1) by zb.
  - split; [done|]. split; [done|]. left. split; [done|]. split; [done|]. intros r Hr.
    specialize (H (r - 1) ltac:(lia)). by rewrite Z.lor_spec in H.
Qed.

(** Draw [n] zombies. *)
Fixpoint get_zombies (n : nat) (rm : register_manager) : list Z * register_manager :=
  match n with
  | O => ([], rm)
  | S n =>
      let z := get_zombie rm in
      if z.1 =? DR_REG_NULL then ([], z.2)
      else let zs := get_zombies n z.2 in (z.1 :: zs.1, zs.2)
  end.

Lemma get_zombies_draw n rm zs rm' :
  rm_wf rm -> get_zombies n rm = (zs, rm') ->
  rm_wf rm' /\ live rm' = live rm /\ NoDup zs /\
  (forall z, z ∈ zs -> 1 <= z <= 16 /\ z <> DR_REG_RSP /\ lives rm z = false /\ zombie rm z = false) /\
  ((length zs < n)%nat -> forall r, 1 <= r <= 16 -> lives rm' r || zombie rm' r = true).
Proof.
  revert rm zs rm'. induction n as [|n IH]; intros rm zs rm' Hwf E; cbn [get_zombies] in E.
  { injection E as <- <-. split; [done|]. split; [done|]. split; [constructor|].
    split; [by intros ? ?%elem_of_nil|]. cbn. lia. }
  destruct (get_zombie rm) as [z rm1] eqn:Ez. cbn [fst snd] in E.
  destruct (get_zombie_spec rm z rm1 Hwf Ez) as (Hwf1 & Hl1 & [(-> & -> & Hall)|(Hz & Hsp & Hnl & Hnz & _ & Hz1)]).
  { cbn in E. injection E as <- <-. split; [done|]. split; [done|]. split; [constructor|].
    split; [by intros ? ?%elem_of_nil|]. done. }
  destruct (Z.eqb_spec z DR_REG_NULL); [lia|].
  destruct (get_zombies n rm1) as [zs1 rm2] eqn:Er. injection E as <- <-.
  destruct (IH rm1 zs1 rm2 Hwf1 Er) as (Hwf2 & Hl2 & Hnd & Hzs & Hfew).
  cbn [fst snd]. split; [done|]. split; [congruence|].
  assert (Hin : forall w, w ∈ zs1 ->
    1 <= w <= 16 /\ w <> DR_REG_RSP /\ lives rm w = false /\ zombie rm w = false /\ w <> z).
  { intros w Hw. destruct (Hzs w Hw) as (? & ? & Hlw & Hzw). rewrite Hz1 in Hzw by done.
    apply orb_false_iff in Hzw as [? ?%Z.eqb_neq]. unfold lives in *. rewrite Hl1 in Hlw. done. }
  split; [|split].
  - constructor; [|done]. intros Hc. by destruct (Hin z Hc) as (_ & _ & _ & _ & ?).
  - intros w [->|Hw]%elem_of_cons; [done|]. by destruct (Hin w Hw) as (? & ? & ? & ? & _).
  - cbn. intros Hlt. apply Hfew. lia.
Qed.

Lemma get_zombies_zombie n : forall rm zs rm',
  rm_wf rm -> get_zombies n rm = (zs, rm') ->
  forall r, 1 <= r <= 16 -> zombie rm' r = true <-> zombie rm r = true \/ r ∈ zs.
Proof.
  induction n as [|n IH]; intros rm zs rm' Hwf E r Hr; cbn [get_zombies] in E.
  { injection E as <- <-. rewrite elem_of_nil. tauto. }
  destruct (get_zombie rm) as [z rm1] eqn:Ez. cbn [fst snd] in E.
  destruct (get_zombie_spec rm z rm1 Hwf Ez) as (Hwf1 & _ & [(-> & -> & _)|(Hz & _ & _ & _ & _ & Hz1)]).
  { cbn in E. injection E as <- <-. rewrite elem_of_nil. tauto. }
  destruct (Z.eqb_spec z DR_REG_NULL); [lia|].
  destruct (get_zombies n rm1) as [zs1 rm2] eqn:Er. injection E as <- <-. cbn [fst snd].
  rewrite (IH rm1 zs1 rm2 Hwf1 Er r Hr), Hz1, orb_true_iff, Z.eqb_eq, elem_of_cons by done. tauto.
Qed.

(** Scratch registers.  However many are requested, the registers handed
    out are general purpose registers other than the stack pointer, dead and
    not handed out before, and pairwise different; the live set is unchanged;
    and when fewer than requested are returned every register was live or a
    zombie at that point. *)
Theorem get_zombies_fresh n rm zs rm' :
  rm_wf rm -> get_zombies n rm = (zs, rm') ->
  rm_wf rm' /\ live rm' = live rm /\ NoDup zs /\
  (forall z, z ∈ zs -> 1 <= z <= 16 /\ z <> DR_REG_RSP /\ lives rm z = false /\ zombie rm z = false) /\
  ((length zs < n)%nat -> forall r, 1 <= r <= 16 -> lives rm' r || zombie rm' r = true).
Proof. apply get_zombies_draw. Qed.

Lemma get_zombies_fresh_witness :
  get_zombies 2 (kill_all register_manager_ctor) =
    ([1; 2], {| live := 16; undead := 3; live_xmm := 0; undead_xmm := 0 |}) /\ NoDup [1; 2].
Proof.
  assert (E : get_zombies 2 (kill_all register_manager_ctor) =
    ([1; 2], {| live := 16; undead := 3; live_xmm := 0; undead_xmm := 0 |})) by (vm_compute; reflexivity).
  split; [exact E|]. exact (proj1 (proj2 (proj2 (get_zombies_fresh 2 _ _ _ (kill_all_wf _) E)))).
Defined.

(** ** Soundness of the analysis *)
Section Soundness.
(** The processor: [exec i m s] is the memory and the register file after
    instruction [i]. *)
Context {M V : Type} (exec : instr -> M -> (Z -> V) -> M * (Z -> V)).

(** The processor respects the operands of [i]: what it does to memory
    depends on the registers [i] uses; and so does the new value of a
    register, except that the part of a register that [i] does not
    overwrite also depends on its old value. *)
Definition respects (i : instr) : Prop :=
  forall m s s', (forall r, 1 <= r <= 16 -> uses i r = true -> s r = s' r) ->
    (exec i m s).1 = (exec i m s').1 /\
    forall r, 1 <= r <= 16 -> overwrites i r = true \/ s r = s' r ->
      (exec i m s).2 r = (exec i m s').2 r.

(** Run a block; walk it backwards with [visit]. *)
Fixpoint run (blk : list instr) (m : M) (s : Z -> V) : M * (Z -> V) :=
  match blk with
  | [] => (m, s)
  | i :: blk => let ms := exec i m s in run blk ms.1 ms.2
  end.

Fixpoint visit_back (blk : list instr) (rm : register_manager) : outcome register_manager :=
  match blk with
  | [] => Ret rm
  | i :: blk => rm ← visit_back blk rm; visit i rm
  end.

Definition agree (rm : register_manager) (s s' : Z -> V) : Prop :=
  forall r, 1 <= r <= 16 -> lives rm r = true -> s r = s' r.

Lemma visit_back_sound blk : forall rm_out,
  Forall instr_ok blk -> Forall respects blk -> rm_wf rm_out ->
  exists rm_in, visit_back blk rm_out = Ret rm_in /\ rm_wf rm_in /\
    forall m s s', agree rm_in s s' ->
      (run blk m s).1 = (run blk m s').1 /\ agree rm_out (run blk m s).2 (run blk m s').2.
Proof.
  induction blk as [|i blk IH]; intros rm_out Hok Hre Hwf; cbn [visit_back run].
  { exists rm_out. split; [done|]. by split. }
  apply List.Forall_cons_iff in Hok as [Hi Hok], Hre as [Hri Hre].
  destruct (IH rm_out Hok Hre Hwf) as (rm1 & E1 & W1 & H1). rewrite E1. cbn [mbind outcome_bind].
  destruct (visit_step i rm1 Hi W1) as (rm_in & E & W & Hl).
  exists rm_in. split; [done|]. split; [done|]. intros m s s' Ha.
  destruct (Hri m s s') as [Hm Hr].
  { intros r Hr Hu. apply Ha; [done|]. by rewrite Hl, Hu by done. }
  rewrite Hm. apply H1. intros r Hr' Hlr. apply Hr; [done|].
  destruct (overwrites i r) eqn:Eo; [by left|right]. apply Ha; [done|].
  rewrite Hl by done. rewrite Hlr, Eo. cbn. by rewrite orb_true_r.
Qed.
End Soundness.

(** C13 A zombie can be clobbered.  Take any block of instructions with valid
    operands and any processor that respects their operands.  Analysing the
    block backwards from any live set [rm_out] returns a state; if that state
    gives out a scratch register [z] then overwriting [z] before the block
    with any value changes neither the memory the block leaves nor any
    register that is live after it. *)
Theorem zombie_clobber_sound {M V} (exec : instr -> M -> (Z -> V) -> M * (Z -> V)) blk rm_out :
  Forall instr_ok blk -> Forall (respects exec) blk -> rm_wf rm_out ->
  exists rm_in, visit_back blk rm_out = Ret rm_in /\ rm_wf rm_in /\
    forall z rm', get_zombie rm_in = (z, rm') -> z <> DR_REG_NULL ->
    forall m s v, let s' := fun r => if r =? z then v else s r in
      (run exec blk m s').1 = (run exec blk m s).1 /\
      forall r, 1 <= r <= 16 -> lives rm_out r = true ->
        (run exec blk m s').2 r = (run exec blk m s).2 r.
Proof.
  intros Hok Hre Hwf. destruct (visit_back_sound exec blk rm_out Hok Hre Hwf) as (rm_in & E & W & H).
  exists rm_in. split; [done|]. split; [done|]. intros z rm' Ez Hz m s v s'.
  destruct (get_zombie_spec rm_in z rm' W Ez) as (_ & _ & [(? & _)|(_ & _ & Hnl & _)]); [done|].
  apply H. intros r Hr Hl. unfold s'. destruct (Z.eqb_spec r z) as [->|]; [congruence|done].
Qed.

(** A processor for the two example instructions: the first stores [rax] at
    the address in [rdi], the second loads a constant into [rax]. *)
Definition exec_example (i : instr) (m : list (Z * Z)) (s : Z -> Z) : list (Z * Z) * (Z -> Z) :=
  match in_opcode i with
  | OP_other 0 => ((s 8, s 1) :: m, s)
  | OP_other 1 => (m, fun r => if r =? 1 then 7 else s r)
  | _ => (m, s)
  end.

Lemma respects_examples : Forall (respects exec_example) [mov_example; store_example].
Proof.
  constructor; [|constructor; [|constructor]]; intros m s s' H; split; cbn [exec_example store_example mov_example in_opcode fst snd].
  - done.
  - intros r Hr Ho. destruct (Z.eqb_spec r 1); [done|]. destruct Ho as [Ho|Ho]; [|done].
    exfalso. change (overwrites mov_example r) with ((1 =? r) || false) in Ho.
    rewrite orb_false_r in Ho. apply Z.eqb_eq in Ho. lia.
  - by rewrite (H 8), (H 1) by (lia || reflexivity).
  - intros r Hr [Ho|Ho]; [|done]. exfalso. by vm_compute in Ho.
Defined.

Lemma zombie_clobber_sound_witness :
  exists rm_in, visit_back [mov_example; store_example] (kill_all register_manager_ctor) = Ret rm_in /\
    (get_zombie rm_in).1 = 1 /\
    forall v, (run exec_example [mov_example; store_example] [] (fun r => if r =? 1 then v else 0)).1
              = (run exec_example [mov_example; store_example] [] (fun _ => 0)).1.
Proof.
  destruct (zombie_clobber_sound exec_example [mov_example; store_example]
    (kill_all register_manager_ctor)) as (rm_in & E & W & H).
  - constructor; [exact (proj2 instr_ok_examples)|constructor; [exact (proj1 instr_ok_examples)|constructor]].
  - exact respects_examples.
  - exact (kill_all_wf _).
  - exists rm_in. split; [exact E|].
    assert (Hz : (get_zombie rm_in).1 = 1) by (vm_compute in E; injection E as <-; reflexivity).
    split; [exact Hz|]. intros v.
    exact (proj1 (H 1 (get_zombie rm_in).2 ltac:(rewrite <- Hz; by destruct (get_zombie rm_in))
      ltac:(lia) [] (fun _ => 0) v)).
Defined.

(** ** The stack pointer, and every public operation *)
Inductive rm_step : register_manager -> register_manager -> Prop :=
  | step_kill_all rm : rm_step rm (kill_all rm)
  | step_kill_all_live rm : rm_step rm (kill_all_live rm)
  | step_revive_all rm : rm_step rm (revive_all rm)
  | step_revive_all_xmm rm : rm_step rm (revive_all_xmm rm)
  | step_revive_all_of rm that : rm_wf that -> rm_step rm (revive_all_of rm that)
  | step_kill_reg rm g rm' : kill_reg g rm = Ret rm' -> 0 <= g < 256 -> rm_step rm rm'
  | step_revive_reg rm g rm' : revive_reg g rm = Ret rm' -> 0 <= g < 256 -> rm_step rm rm'
  | step_kill_opnd rm op rm' : kill_opnd op rm = Ret rm' -> opnd_ok op -> rm_step rm rm'
  | step_revive_opnd rm op rm' : revive_opnd op rm = Ret rm' -> opnd_ok op -> rm_step rm rm'
  | step_kill rm i rm' : kill_instr i rm = Ret rm' -> instr_ok i -> rm_step rm rm'
  | step_revive rm i rm' : revive_instr i rm = Ret rm' -> instr_ok i -> rm_step rm rm'
  | step_visit rm i rm' : visit i rm = Ret rm' -> instr_ok i -> rm_step rm rm'
  | step_visit_dests rm i rm' : visit_dests i rm = Ret rm' -> instr_ok i -> rm_step rm rm'
  | step_visit_sources rm i rm' : visit_sources i rm = Ret rm' -> instr_ok i -> rm_step rm rm'
  | step_get_zombie rm : rm_step rm (get_zombie rm).2
  | step_get_xmm_zombie rm : rm_step rm (get_xmm_zombie rm).2
  | step_decode rm bits : 0 <= bits < 2 ^ 32 -> rm_step rm (rm_decode bits rm).

Lemma in_width_land_r w a b : 0 <= w -> in_width w b -> in_width w (Z.land a b).
Proof. intros. rewrite Z.land_comm. by apply in_width_land. Qed.

Lemma kill_64_wf g rm rm' : 0 <= g < DR_REG_MM0 -> rm_wf rm -> kill_64 g rm = Ret rm' -> rm_wf rm'.
Proof.
  intros Hg Hwf E. destruct (wf_view rm Hwf) as [V Hsp].
  destruct (kill_64_view g rm _ _ _ _ Hg Hsp V) as (rm1 & E1 & V1).
  rewrite E in E1. injection E1 as <-. eapply view_wf; [done|].
  cbn beta. by rewrite Z.eqb_refl, orb_true_r.
Qed.

Lemma kill_reg_wf g rm rm' : 0 <= g < 256 -> rm_wf rm -> kill_reg g rm = Ret rm' -> rm_wf rm'.
Proof.
  intros Hg Hwf E. destruct (wf_view rm Hwf) as [V Hsp].
  destruct (kill_reg_view g rm _ _ _ _ Hg Hsp V) as (rm1 & E1 & V1).
  rewrite E in E1. injection E1 as <-. eapply view_wf; [done|].
  cbn beta. by rewrite Z.eqb_refl, orb_true_r.
Qed.

Lemma kill_opnd_wf op rm rm' : opnd_ok op -> rm_wf rm -> kill_opnd op rm = Ret rm' -> rm_wf rm'.
Proof.
  destruct op; cbn [opnd_ok kill_opnd]; intros Hok Hwf E.
  - by eapply kill_reg_wf.
  - inv_outcome. destruct Hok. eapply kill_64_wf; [|eapply kill_64_wf; [| |exact E0]|exact E]; done.
  - by injection E as <-.
Qed.

Lemma kill_ops_wf ops : forall rm rm',
  Forall opnd_ok ops -> rm_wf rm -> kill_ops ops rm = Ret rm' -> rm_wf rm'.
Proof.
  induction ops as [|op ops IH]; intros rm rm' Hok Hwf E; cbn [kill_ops] in E.
  - by injection E as <-.
  - apply List.Forall_cons_iff in Hok as [? ?]. inv_outcome.
    eapply IH; [done| |exact E]. by eapply kill_opnd_wf.
Qed.

Lemma revive_ops_wf ops rm rm' :
  Forall opnd_ok ops -> rm_wf rm -> revive_ops ops rm = Ret rm' -> rm_wf rm'.
Proof.
  intros Hok Hwf E. destruct (wf_view rm Hwf) as [V Hsp].
  destruct (revive_ops_view ops rm _ _ _ _ Hok V) as (rm1 & E1 & V1).
  rewrite E in E1. injection E1 as <-. eapply view_wf; [done|]. cbn beta. by rewrite Hsp.
Qed.

Lemma revive_opnd_wf op rm rm' : opnd_ok op -> rm_wf rm -> revive_opnd op rm = Ret rm' -> rm_wf rm'.
Proof.
  intros Hok Hwf E. apply (revive_ops_wf [op] rm rm'); [by constructor|done|].
  cbn. rewrite E. done.
Qed.

Lemma visit_dests_wf i rm rm' : instr_ok i -> rm_wf rm -> visit_dests i rm = Ret rm' -> rm_wf rm'.
Proof.
  intros [Hd _] Hwf E. destruct (in_is_nop i) eqn:En.
  { unfold visit_dests in E. rewrite En in E. by injection E as <-. }
  destruct (wf_view rm Hwf) as [V Hsp].
  destruct (visit_dests_view i rm _ _ _ _ Hd En Hsp V) as (rm1 & E1 & V1).
  rewrite E in E1. injection E1 as <-. eapply view_wf; [done|].
  unfold visit_dests_live. cbn. by rewrite !orb_true_r.
Qed.

Lemma visit_wf i rm rm' : instr_ok i -> rm_wf rm -> visit i rm = Ret rm' -> rm_wf rm'.
Proof.
  intros Hi Hwf E. destruct (visit_step i rm Hi Hwf) as (rm1 & E1 & ? & _). congruence.
Qed.

Lemma reg_query_gpr xs gs reg :
  0 < reg < DR_REG_MM0 -> reg_query xs gs reg = Ret (Z.testbit gs (reg64_of reg - 1)).
Proof.
  intros Hr. destruct (table64 reg ltac:(lia)) as (E & Hr' & _). unfold reg_query.
  replace (DR_REG_XMM0 <=? reg) with false by zb. replace (reg <? DR_REG_ST0) with true by zb.
  cbn [andb]. rewrite E. cbn [mbind outcome_bind].
  destruct (Z.eqb_spec (reg64_of reg) 0) as [E0|]; [apply reg64_of_null in E0; lia|].
  unfold reg_mask. rewrite mask_test by lia. by rewrite negb_involutive.
Qed.

Lemma revive_all_of_wf rm that : rm_wf rm -> rm_wf that -> rm_wf (revive_all_of rm that).
Proof.
  intros [(? & ? & ? & ?) Hsp] [(? & ? & ? & ?) _]. split.
  - cbn. split; [|split; [|split]]; by apply in_width_lor.
  - cbn [live revive_all_of]. by rewrite Z.lor_spec, Hsp.
Qed.

Lemma xmm_zombie_wf rm : rm_wf rm -> rm_wf (get_xmm_zombie rm).2.
Proof.
  intros [(? & ? & ? & ?) Hsp]. unfold get_xmm_zombie.
  destruct (zombie_loop _ _ _); [|done]. cbn [snd]. split; [|done]. cbn.
  split; [done|]. split; [done|]. split; [done|]. apply in_width_lor; [lia|done|].
  apply wrap_range. lia.
Qed.

Lemma decode_wf rm bits : rm_wf (rm_decode bits rm).
Proof.
  assert (H8 : forall x, in_width 16 (Z.land x 255)).
  { intros x. apply in_width_land_r; [lia|]. split; vm_compute; congruence. }
  split.
  - cbn. split; [apply in_width_lor; [lia|done|auto with granary]|].
    split; [apply in_width_0; lia|]. split; [done|apply in_width_0; lia].
  - cbn [live rm_decode]. rewrite Z.lor_spec, testbit_FORCE_LIVE by lia. by rewrite orb_true_r.
Qed.

Lemma rm_step_wf rm rm' : rm_step rm rm' -> rm_wf rm -> rm_wf rm'.
Proof.
  destruct 1; intros Hwf.
  - apply kill_all_wf.
  - destruct Hwf as [(? & ? & ? & ?) _]. split; [|done]. cbn.
    split; [auto with granary|]. split; [done|]. split; [apply in_width_0; lia|done].
  - eapply view_wf; [apply revive_all_view|done].
  - destruct Hwf as [(? & ? & ? & ?) ?]. split; [|done]. cbn.
    split; [done|]. split; [done|]. split; [auto with granary|apply in_width_0; lia].
  - by apply revive_all_of_wf.
  - by eapply kill_reg_wf.
  - by apply (revive_opnd_wf (REG_kind g) rm rm').
  - by eapply kill_opnd_wf.
  - by eapply revive_opnd_wf.
  - destruct H0. unfold kill_instr in H. destruct (in_is_nop i); inv_outcome; [done|].
    eapply kill_ops_wf; [|eapply kill_ops_wf; [| |exact E]|exact H]; done.
  - destruct H0. unfold revive_instr in H. destruct (in_is_nop i); inv_outcome; [done|].
    eapply revive_ops_wf; [|eapply revive_ops_wf; [| |exact E]|exact H]; done.
  - by eapply visit_wf.
  - by eapply visit_dests_wf.
  - destruct H0. unfold visit_sources in H. destruct (in_is_nop i); inv_outcome; [done|].
    by eapply revive_ops_wf.
  - destruct (get_zombie rm) as [z rm'] eqn:E. by destruct (get_zombie_spec rm z rm' Hwf E).
  - by apply xmm_zombie_wf.
  - apply decode_wf.
Qed.

(** The stack pointer is live in every state that the public operations
    reach from the constructor, and is never handed out as a scratch
    register; the four sets stay 16-bit. *)
Theorem rsp_always_live rm :
  rtc rm_step register_manager_ctor rm ->
  rm_wf rm /\ is_live rm DR_REG_RSP = Ret true /\ (get_zombie rm).1 <> DR_REG_RSP.
Proof.
  intros Hr.
  assert (Hwf : rm_wf rm).
  { pose proof ctor_wf as H0. induction Hr; [done|]. eauto using rm_step_wf. }
  split; [done|]. split.
  - unfold is_live. rewrite reg_query_gpr by lia. destruct Hwf as [_ Hsp].
    by rewrite <- Hsp.
  - destruct (get_zombie rm) as [z rm'] eqn:E. cbn.
    destruct (get_zombie_spec rm z rm' Hwf E) as (_ & _ & [(-> & _)|(_ & ? & _)]); done.
Qed.

Lemma rsp_always_live_witness :
  exists rm, rtc rm_step register_manager_ctor rm /\ live rm = 17 /\ is_live rm DR_REG_RSP = Ret true.
Proof.
  assert (Hr : rtc rm_step register_manager_ctor
            {| live := 17; undead := 0; live_xmm := 0; undead_xmm := 0 |}).
  { eapply rtc_l; [apply step_kill_all|]. eapply rtc_l; [|apply rtc_refl].
    apply (step_revive_reg _ 1); [vm_compute; reflexivity|lia]. }
  eexists. split; [exact Hr|]. split; [reflexivity|]. exact (proj1 (proj2 (rsp_always_live _ Hr))).
Defined.

(** The saved machine state.  Every name of a general purpose register
    other than the stack pointer selects the field of its 64-bit register;
    names of the stack pointer, of no register and of the other register
    classes fail the assertions. *)
Theorem machine_state_layout reg :
  0 <= reg < 256 ->
  (forall j, simple_machine_state_index reg = Ret j ->
     simple_machine_state_fields !! j = Some (reg64_of reg) /\ (j < 15)%nat) /\
  (simple_machine_state_index reg = Fault <->
     DR_REG_MM0 <= reg \/ reg = DR_REG_NULL \/ reg64_of reg = DR_REG_RSP).
Proof.
  intros Hreg.
  pose (P := fun reg =>
    match simple_machine_state_index reg with
    | Ret j => bool_decide (simple_machine_state_fields !! j = Some (reg64_of reg))
               && bool_decide (j < 15)%nat
               && negb ((DR_REG_MM0 <=? reg) || (reg =? 0) || (reg64_of reg =? 5))
    | Fault => (DR_REG_MM0 <=? reg) || (reg =? 0) || (reg64_of reg =? 5)
    | OutOfFuel => false
    end).
  assert (HP : P reg = true) by (apply (range_forallb P 256); [vm_compute; done|lia]).
  unfold P in HP. destruct (simple_machine_state_index reg) as [j| |]; [| |done].
  - rewrite !andb_true_iff, negb_true_iff, !orb_false_iff in HP.
    destruct HP as [[H1%bool_decide_eq_true H2%bool_decide_eq_true] [[H3%Z.leb_gt H4%Z.eqb_neq] H5%Z.eqb_neq]].
    split; [by intros ? [= <-]|]. split; [done|]. intros [?|[?|?]]; lia.
  - split; [done|]. rewrite !orb_true_iff in HP. split; [|done]. intros _.
    destruct HP as [[H3%Z.leb_le|H4%Z.eqb_eq]|H5%Z.eqb_eq]; auto.
Qed.

Lemma machine_state_layout_witness :
  simple_machine_state_index 53 = Ret 14%nat /\ simple_machine_state_fields !! 14%nat = Some 1.
Proof.
  assert (E : simple_machine_state_index 53 = Ret 14%nat) by reflexivity.
  split; [exact E|]. exact (proj1 (proj1 (machine_state_layout 53 ltac:(lia)) _ E)).
Defined.

(** Encoding.  [decode] recovers from [encode] only the first eight
    registers of each class and the stack pointer: every other live register
    (R8 .. R15, XMM8 .. XMM15) comes back dead. *)
Theorem encode_decode_low_registers rm rm0 r :
  rm_wf rm -> 1 <= r <= 16 ->
  lives (rm_decode (rm_encode rm) rm0) r = (lives rm r && (r <=? 8)) || (r =? DR_REG_RSP) /\
  lives_xmm (rm_decode (rm_encode rm) rm0) r = lives_xmm rm r && (r <=? 8).
Proof.
  intros [((? & ?) & _ & (? & ?) & _) _] Hr. unfold lives, lives_xmm, rm_decode, rm_encode.
  cbn [live live_xmm]. change 255 with (Z.ones 8).
  rewrite Z.lor_spec, !Z.land_spec, testbit_FORCE_LIVE, testbit_shiftr, !Z.lor_spec, !testbit_ones by lia.
  rewrite !testbit_wrap, !testbit_shiftl by lia.
  replace (r - 1 =? 4) with (r =? DR_REG_RSP) by zb.
  replace (r - 1 <? 8) with (r <=? 8) by zb.
  rewrite (testbit_high 16 (live rm) (r - 1 + 16)) by lia.
  replace (r - 1 + 16 - 16) with (r - 1) by lia.
  replace (16 <=? r - 1) with false by zb. replace (16 <=? r - 1 + 16) with true by zb.
  replace (r - 1 + 16 <? 32) with true by zb. cbn. rewrite andb_false_r, orb_false_r. done.
Qed.

Lemma encode_decode_low_registers_witness :
  lives register_manager_ctor 9 = true /\
  lives (rm_decode (rm_encode register_manager_ctor) register_manager_ctor) 9 = false.
Proof.
  split; [reflexivity|].
  rewrite (proj1 (encode_decode_low_registers register_manager_ctor register_manager_ctor 9 ctor_wf
    ltac:(lia))). reflexivity.
Defined.

(** An XMM zombie is not undead for [is_undead]: the query looks at the
    general purpose zombies instead. *)
Lemma xmm_zombie_not_undead :
  let rm := (get_xmm_zombie (kill_all register_manager_ctor)).2 in
  (get_xmm_zombie (kill_all register_manager_ctor)).1 = DR_REG_XMM0 /\
  undead_xmm rm = 1 /\ is_undead rm DR_REG_XMM0 = Ret false.
Proof. repeat split; vm_compute; reflexivity. Qed.

(** The queries read past the end of the table on an MMX register. *)
Lemma is_live_mmx_out_of_bounds rm reg :
  DR_REG_MM0 <= reg < DR_REG_XMM0 -> is_live rm reg = Fault.
Proof.
  intros Hr. unfold is_live, reg_query.
  replace (DR_REG_XMM0 <=? reg) with false by zb. replace (reg <? DR_REG_ST0) with true by zb. cbn [andb].
  unfold reg_idx, idx. rewrite lookup_ge_None_2; [done|]. cbn. lia.
Qed.
