(* ===== verification/Worklist.v ===== *)
(** * Worklists over the blocks of a function

    [find_used_regs_in_func] ([granary/emit_utils.cc]) and
    [instrument_function] ([granary/kernel/hotpatch.cc]) walk over the blocks
    of a function in the same way: a list of addresses to process and a set
    of addresses that have been seen; the head of a block is taken from one
    end of the list, its block is scanned, and the targets found by the scan
    are appended.  The two differ in the end of the list and in the scan,
    which are parameters here.

    The list is a sequence ([GList] shows that [list<app_pc>] is one) and the
    set a finite set ([HashTable] shows that [hash_set<app_pc>] is one).

    The lemmas: when the walk returns, the set of seen addresses is closed
    under the successor relation of the scan and contains nothing but
    addresses that are reached; every invariant of the scan holds; and over
    a finite set of addresses the walk returns. *)

From Stdlib Require Import ZArith Lia.
From stdpp Require Import base numbers list option gmap relations.
From S2P Require Import Prelude.

(** ** Blocks

    The instructions of a block: [next] is the address behind an instruction,
    null at the end of the code, and [passes] tells whether the block goes on
    there. *)
Section Blocks.
Context (passes : Z -> bool) (next : Z -> Z).

Inductive on_block : Z -> Z -> Prop :=
  | ob_here bb : bb <> 0 -> on_block bb bb
  | ob_later bb pc : bb <> 0 -> passes bb = true -> on_block (next bb) pc -> on_block bb pc.

Lemma on_block_null pc : ~ on_block 0 pc.
Proof. intros H. inversion H; done. Qed.

Lemma on_block_split bb pc : on_block bb pc -> pc = bb \/ passes bb = true /\ on_block (next bb) pc.
Proof. intros H. inversion H; subst; auto. Qed.

Lemma on_block_next bb pc : on_block bb pc -> passes pc = true -> next pc <> 0 -> on_block bb (next pc).
Proof.
  induction 1 as [bb Hb|bb pc Hb Hp _ IH]; intros Hpass Hn.
  - apply ob_later; [done|done|]. by apply ob_here.
  - apply ob_later; auto.
Qed.

(** Code inside a finite set, in which an instruction lies behind the one
    that it follows. *)
Context (U : gset Z).
Definition forward : Prop := forall pc, pc ∈ U -> passes pc = true -> next pc = 0 \/ (pc < next pc /\ next pc ∈ U).

Lemma on_block_in bb pc : forward -> on_block bb pc -> bb ∈ U -> pc ∈ U.
Proof.
  intros Hf. induction 1 as [|bb pc Hb Hp Hon IH]; [done|]. intros Hbb.
  destruct (Hf bb Hbb Hp) as [Hz|[_ Hin]]; [|auto]. rewrite Hz in Hon. by apply on_block_null in Hon.
Qed.

(** The part of the code from [pc] on. *)
Definition from (pc : Z) : gset Z := filter (fun x => pc <= x) U.

Lemma from_next pc n : pc ∈ U -> pc < n -> (size (from n) < size (from pc))%nat.
Proof.
  intros Hpc Hn. apply subset_size. split.
  - intros x [? ?]%elem_of_filter. apply elem_of_filter. split; [lia|done].
  - intros Hs. assert (Hin : pc ∈ from pc) by (apply elem_of_filter; split; [lia|done]).
    apply Hs, elem_of_filter in Hin as [? _]. lia.
Qed.

Lemma from_here pc : pc ∈ U -> (0 < size (from pc))%nat.
Proof.
  intros Hpc. destruct (size (from pc)) as [|] eqn:Es; [|lia]. apply size_empty_inv in Es.
  assert (Hin : pc ∈ from pc) by (apply elem_of_filter; split; [lia|done]). by apply Es, elem_of_empty in Hin.
Qed.

Lemma from_all pc : (size (from pc) <= size U)%nat.
Proof. apply subseteq_size. by intros x [_ ?]%elem_of_filter. Qed.
End Blocks.

(** [if(!seen.contains(t)) process_bbs.append(t)]. *)
Definition append_unseen (seen : gset Z) (t : Z) (new : list Z) : list Z :=
  if bool_decide (t ∈ seen) then new else new ++ [t].

Lemma elem_append_unseen seen t new x : x ∈ append_unseen seen t new <-> x ∈ new \/ (x = t /\ t ∉ seen).
Proof.
  unfold append_unseen. case_bool_decide; [|rewrite elem_of_app, list_elem_of_singleton]; tauto.
Qed.

Lemma append_unseen_has seen t new : t ∈ seen \/ t ∈ append_unseen seen t new.
Proof. rewrite elem_append_unseen. destruct (decide (t ∈ seen)); auto. Qed.

Lemma length_append_unseen seen t new : (length (append_unseen seen t new) <= S (length new))%nat.
Proof. unfold append_unseen. case_bool_decide; [lia|]. rewrite length_app. cbn. lia. Qed.

Section Worklist.
Context {S : Type} (lifo : bool) (scan : gset Z -> Z -> S -> outcome (S * list Z * bool)).

(** [pop()], or [first()] and [remove]. *)
Definition take_one (pending : list Z) : option (Z * list Z) :=
  match pending with
  | [] => None
  | x :: l => if lifo then Some (List.last pending 0, removelast pending) else Some (x, l)
  end.

(** The loop; the flag of the result tells that the scan has given up. *)
Fixpoint process (fuel : nat) (pending : list Z) (seen : gset Z) (s : S) : outcome (S * gset Z * bool) :=
  match take_one pending with
  | None => Ret (s, seen, false)
  | Some (bb, pending) =>
      match fuel with
      | O => OutOfFuel
      | Datatypes.S fuel =>
          if bool_decide (bb ∈ seen) then process fuel pending seen s
          else
            let seen := {[bb]} ∪ seen in
            r ← scan seen bb s;
            if (r.2 : bool) then Ret (r.1.1, seen, true)
            else process fuel (pending ++ r.1.2) seen r.1.1
      end
  end.

Lemma take_one_perm pending x l : take_one pending = Some (x, l) -> pending ≡ₚ x :: l.
Proof.
  unfold take_one. destruct pending as [|y p]; [done|]. destruct lifo; [|by intros [= -> ->]].
  intros [= <- <-]. rewrite (app_removelast_last (l := y :: p) 0) at 1 by done.
  apply Permutation_app_comm.
Qed.

(** ** What the scan finds *)
Context (ok : S -> Prop) (succ : Z -> Z -> Prop).

(** A scan returns the targets that have not been seen, all of them unless it
    gives up, and keeps the states well formed. *)
Class ScanFinds : Prop := {
  scan_ok : forall seen bb s s' new stop, ok s -> scan seen bb s = Ret (s', new, stop) -> ok s';
  scan_covers : forall seen bb s s' new t,
    ok s -> scan seen bb s = Ret (s', new, false) -> succ bb t -> t ∈ seen \/ t ∈ new;
  scan_only : forall seen bb s s' new stop t,
    ok s -> scan seen bb s = Ret (s', new, stop) -> t ∈ new -> succ bb t
}.
Context `{!ScanFinds}.

(** The targets of the seen blocks are seen or pending. *)
Definition open_closed (pending : list Z) (seen : gset Z) : Prop :=
  forall x t, x ∈ seen -> succ x t -> t ∈ seen \/ t ∈ pending.

Lemma take_one_none pending : take_one pending = None -> pending = [].
Proof. unfold take_one. by destruct pending, lifo. Qed.

Lemma open_closed_seen bb l seen : bb ∈ seen -> open_closed (bb :: l) seen -> open_closed l seen.
Proof.
  intros Hb Ho x t Hx Ht. destruct (Ho x t Hx Ht) as [|[->|]%elem_of_cons]; auto.
Qed.

Lemma open_closed_scan bb l new seen s s' :
  ok s -> scan ({[bb]} ∪ seen) bb s = Ret (s', new, false) -> open_closed (bb :: l) seen ->
  open_closed (l ++ new) ({[bb]} ∪ seen).
Proof.
  intros Hs E Ho x t Hx Ht. rewrite elem_of_union, elem_of_singleton, elem_of_app.
  apply elem_of_union in Hx as [->%elem_of_singleton|Hx].
  - destruct (scan_covers _ _ _ _ _ _ Hs E Ht) as [Hin|]; [rewrite elem_of_union, elem_of_singleton in Hin|]; tauto.
  - destruct (Ho x t Hx Ht) as [|[->|]%elem_of_cons]; tauto.
Qed.

Lemma process_closed fuel : forall pending seen s s' seen',
  process fuel pending seen s = Ret (s', seen', false) -> ok s -> open_closed pending seen ->
  seen ⊆ seen' /\ (forall x, x ∈ pending -> x ∈ seen') /\ (forall x t, x ∈ seen' -> succ x t -> t ∈ seen').
Proof.
  induction fuel as [|fuel IH]; intros pending seen s s' seen' E Hs Ho; cbn [process] in E;
    (destruct (take_one pending) as [[bb l]|] eqn:Et; [apply take_one_perm in Et|apply take_one_none in Et as ->]).
  - discriminate E.
  - injection E as _ <-. split; [done|]. split; [by intros ? ?%elem_of_nil|].
    intros x t Hx Ht. by destruct (Ho x t Hx Ht) as [|Hn%elem_of_nil].
  - assert (Ho' : open_closed (bb :: l) seen) by (intros x t Hx Ht; rewrite <- Et; by apply (Ho x)).
    case_bool_decide as Hb.
    + destruct (IH _ _ _ _ _ E Hs) as (H1 & H2 & H3); [by eapply open_closed_seen|].
      split; [done|]. split; [|done]. intros x. rewrite Et, elem_of_cons. intros [->|]; auto.
    + destruct (scan ({[bb]} ∪ seen) bb s) as [[[s1 new] stop]| |] eqn:Es; cbn [mbind outcome_bind fst snd] in E;
        try discriminate E. destruct stop; [discriminate E|].
      destruct (IH _ _ _ _ _ E) as (H1 & H2 & H3); [by eapply scan_ok|by eapply open_closed_scan|].
      split; [intros x Hx; apply H1, elem_of_union; by right|]. split; [|done]. intros x. rewrite Et, elem_of_cons.
      intros [->|Hx]; [apply H1, elem_of_union; left; by apply elem_of_singleton|]. apply H2, elem_of_app. by left.
  - injection E as _ <-. split; [done|]. split; [by intros ? ?%elem_of_nil|].
    intros x t Hx Ht. by destruct (Ho x t Hx Ht) as [|Hn%elem_of_nil].
Qed.

(** A property of the accumulated state that scans of new blocks keep. *)
Lemma process_inv (I : gset Z -> S -> Prop) fuel : forall pending seen s s' seen' stop,
  (forall seen bb s s' new stop, ok s -> I seen s -> scan ({[bb]} ∪ seen) bb s = Ret (s', new, stop) ->
    I ({[bb]} ∪ seen) s') ->
  process fuel pending seen s = Ret (s', seen', stop) -> ok s -> I seen s -> ok s' /\ I seen' s'.
Proof.
  induction fuel as [|fuel IH]; intros pending seen s s' seen' stop Hstep E Hs HI; cbn [process] in E;
    (destruct (take_one pending) as [[bb l]|] eqn:Et; [|by injection E as <- <- _]).
  - discriminate E.
  - case_bool_decide as Hb; [by eapply IH|].
    destruct (scan ({[bb]} ∪ seen) bb s) as [[[s1 new] stop']| |] eqn:Es; cbn [mbind outcome_bind fst snd] in E;
      try discriminate E.
    pose proof (Hstep _ _ _ _ _ _ Hs HI Es) as HI'. pose proof (scan_ok _ _ _ _ _ _ Hs Es) as Hs'.
    destruct stop'; [by injection E as <- <- _|]. by eapply IH.
Qed.

(** What has been seen is reached from what was pending. *)
Lemma process_reached (reached : Z -> Prop) fuel : forall pending seen s s' seen' stop,
  (forall x t, reached x -> succ x t -> reached t) ->
  process fuel pending seen s = Ret (s', seen', stop) -> ok s ->
  (forall x, x ∈ pending -> reached x) -> (forall x, x ∈ seen -> reached x) -> forall x, x ∈ seen' -> reached x.
Proof.
  induction fuel as [|fuel IH]; intros pending seen s s' seen' stop Hsucc E Hs Hp Hr; cbn [process] in E;
    (destruct (take_one pending) as [[bb l]|] eqn:Et; [apply take_one_perm in Et|by injection E as <- <- _]).
  - discriminate E.
  - assert (Hbb : reached bb) by (apply Hp; rewrite Et; left).
    assert (Hl : forall x, x ∈ l -> reached x) by (intros x Hx; apply Hp; rewrite Et; by right).
    case_bool_decide as Hb; [by eapply IH|].
    destruct (scan ({[bb]} ∪ seen) bb s) as [[[s1 new] stop']| |] eqn:Es; cbn [mbind outcome_bind fst snd] in E;
      try discriminate E.
    assert (Hr' : forall x, x ∈ {[bb]} ∪ seen -> reached x)
      by (intros x [->%elem_of_singleton|]%elem_of_union; auto).
    destruct stop'; [by injection E as <- <- _|].
    eapply IH; [done|exact E|by eapply scan_ok| |done].
    intros x [|Hx]%elem_of_app; [auto|]. eapply Hsucc; [exact Hbb|]. by eapply scan_only.
Qed.

(** ** Termination *)
Section Terminates.
Context (U : gset Z) (k : nat).

(** Scans inside [U] return, with at most [k] new targets. *)
Definition scans_in : Prop :=
  (forall x t, x ∈ U -> succ x t -> t ∈ U) /\
  forall seen bb s, bb ∈ U -> ok s -> exists s' new stop, scan seen bb s = Ret (s', new, stop) /\ (length new <= k)%nat.

Lemma process_returns fuel : forall pending seen s,
  scans_in -> ok s -> (forall x, x ∈ pending -> x ∈ U) -> seen ⊆ U ->
  ((size U - size seen) * Datatypes.S k + length pending <= fuel)%nat ->
  exists r, process fuel pending seen s = Ret r.
Proof.
  induction fuel as [|fuel IH]; intros pending seen s [Hsucc Hscan] Hok Hp Hs Hf; cbn [process];
    (destruct (take_one pending) as [[bb l]|] eqn:Et; [apply take_one_perm in Et|eauto]).
  - apply Permutation_length in Et. cbn [length] in Et. generalize dependent ((size U - size seen) * Datatypes.S k)%nat. lia.
  - pose proof (Permutation_length Et) as Hlen. cbn [length] in Hlen.
    assert (Hbb : bb ∈ U) by (apply Hp; rewrite Et; left).
    assert (Hl : forall x, x ∈ l -> x ∈ U) by (intros x Hx; apply Hp; rewrite Et; by right).
    case_bool_decide as Hb.
    { apply IH; [by split|done|done|done|]. generalize dependent ((size U - size seen) * Datatypes.S k)%nat. lia. }
    destruct (Hscan ({[bb]} ∪ seen) bb s Hbb Hok) as (s1 & new & stop & Es & Hk). rewrite Es.
    cbn [mbind outcome_bind fst snd]. destruct stop; [eauto|].
    assert (Hsub : {[bb]} ∪ seen ⊆ U) by (intros x [->%elem_of_singleton|]%elem_of_union; auto).
    pose proof (subseteq_size _ _ Hsub) as Hsz.
    assert (Hsize : size ({[bb]} ∪ seen) = Datatypes.S (size seen))
      by (rewrite size_union, size_singleton by set_solver; done).
    apply IH; [by split|by eapply scan_ok| |done|].
    + intros x [|Hx]%elem_of_app; [auto|]. eapply Hsucc; [exact Hbb|]. by eapply scan_only.
    + rewrite length_app. rewrite Hsize in *. nia.
Qed.
End Terminates.
End Worklist.
