(* ===== verification/UsedRegs.v ===== *)
(** * The registers that a function may change: [granary/emit_utils.cc]

    [find_used_regs_in_func] walks over the instructions of a function and
    collects the registers that they write, as the dead registers of a
    register manager; the clean calls of [CleanCall] save those registers.
    What the decoder reports about the instruction at an address is a
    parameter.

    The theorems: every execution of the function, over any processor that
    changes no register but the destinations of its instructions, leaves the
    registers that are still live alone, if the instructions write whole
    registers and none is a [swapgs]; the walk ends on every function of
    finitely many instructions; and a function that writes the low byte of a
    register, or one that writes a register behind a [swapgs], changes a
    register that the walk reports as unchanged. *)

From Stdlib Require Import ZArith Lia Bool.
From stdpp Require Import base numbers list option gmap.
From S2P Require Import Prelude Register Worklist.

(** [register_manager::kill_dests]. *)
Definition kill_dests (i : instr) (rm : register_manager) : outcome register_manager := kill_ops (in_dsts i) rm.

Inductive instruction_traversal_constraint := USED_REGS_VISIT_ALL_INSTRUCTIONS | USED_REGS_IGNORE_CALLS.

#[export] Instance constraint_eq_dec : EqDecision instruction_traversal_constraint.
Proof. solve_decision. Defined.

(** How control leaves an instruction: returns, from procedures, interrupts
    and system calls; [swapgs], at which the walk stops as at a return but
    behind which the processor goes on; calls, jumps and conditional
    branches, with their target when it is an address. *)
Inductive flow :=
  | F_return
  | F_swapgs
  | F_call (target : option Z)
  | F_jmp (target : option Z)
  | F_cbr (target : option Z)
  | F_other.

(** A decoded instruction; [di_next] is the address behind it, null if it
    cannot be decoded. *)
Record dins := { di_instr : instr; di_flow : flow; di_next : Z }.

Section UsedRegs.
Context (decode : Z -> dins) (constraint : instruction_traversal_constraint).

Definition ignore_calls : bool := bool_decide (constraint = USED_REGS_IGNORE_CALLS).

(** The loop over the instructions of a block. *)
Fixpoint scan_block (fuel : nat) (seen : gset Z) (bb : Z) (used_regs : register_manager) (new : list Z)
    : outcome (register_manager * list Z * bool) :=
  match fuel with
  | O => OutOfFuel
  | S fuel =>
      if bb =? 0 then Ret (used_regs, new, false)
      else
        let i := decode bb in
        let bb := di_next i in
        used_regs ← kill_dests (di_instr i) used_regs;
        match di_flow i with
        | F_return | F_swapgs => Ret (used_regs, new, false)
        | F_other => scan_block fuel seen bb used_regs new
        | F_call target =>
            if ignore_calls then scan_block fuel seen bb used_regs new
            else match target with
                 | None => Ret (kill_all used_regs, new, true)
                 | Some target_pc => scan_block fuel seen bb used_regs (append_unseen seen target_pc new)
                 end
        | F_jmp None | F_cbr None => Ret (kill_all used_regs, new, true)
        | F_jmp (Some target_pc) => Ret (used_regs, append_unseen seen target_pc new, false)
        | F_cbr (Some target_pc) =>
            Ret (used_regs, append_unseen seen bb (append_unseen seen target_pc new), false)
        end
  end.

Definition scan (fuel : nat) (seen : gset Z) (bb : Z) (used_regs : register_manager)
    : outcome (register_manager * list Z * bool) := scan_block fuel seen bb used_regs [].

(** The blocks are taken from the front of the list. *)
Definition find_used_regs_in_func (block_fuel fuel : nat) (func : Z) : outcome register_manager :=
  r ← process false (scan block_fuel) fuel [func] ∅ (revive_all register_manager_ctor);
  Ret r.1.1.

(** ** Blocks and executions *)

(** The walk goes on behind an instruction. *)
Definition passes (f : flow) : bool :=
  match f with F_other => true | F_call t => ignore_calls || bool_decide (is_Some t) | _ => false end.

Definition passes_at (pc : Z) : bool := passes (di_flow (decode pc)).
Definition next_at (pc : Z) : Z := di_next (decode pc).

Definition branches_to (pc t : Z) : Prop :=
  match di_flow (decode pc) with
  | F_call (Some x) => ignore_calls = false /\ t = x
  | F_jmp (Some x) => t = x
  | F_cbr (Some x) => t = x \/ t = di_next (decode pc)
  | _ => False
  end.

Definition block_succ (bb t : Z) : Prop := exists pc, on_block passes_at next_at bb pc /\ branches_to pc t.

(** [i] writes a part of register [r]. *)
Definition writes (i : instr) (r : Z) : bool := in_ops op_reg (in_dsts i) r.

(** ** An execution of a function

    [istep] is one instruction on a memory and a register file; an ignored
    call keeps the registers [kept]. *)
Section Execution.
Context {M V : Type} (istep : instr -> M * (Z -> V) -> M * (Z -> V) -> Prop) (kept : Z -> Prop).

Inductive executes : Z -> M * (Z -> V) -> M * (Z -> V) -> Prop :=
  | ex_return pc a b :
      pc <> 0 -> di_flow (decode pc) = F_return -> istep (di_instr (decode pc)) a b -> executes pc a b
  | ex_other pc a b c :
      pc <> 0 -> di_flow (decode pc) = F_other -> istep (di_instr (decode pc)) a b ->
      executes (di_next (decode pc)) b c -> executes pc a c
  | ex_swapgs pc a b c :
      pc <> 0 -> di_flow (decode pc) = F_swapgs -> istep (di_instr (decode pc)) a b ->
      executes (di_next (decode pc)) b c -> executes pc a c
  | ex_jmp pc t a b c :
      pc <> 0 -> di_flow (decode pc) = F_jmp (Some t) -> istep (di_instr (decode pc)) a b -> executes t b c ->
      executes pc a c
  | ex_taken pc t a b c :
      pc <> 0 -> di_flow (decode pc) = F_cbr (Some t) -> istep (di_instr (decode pc)) a b -> executes t b c ->
      executes pc a c
  | ex_not_taken pc t a b c :
      pc <> 0 -> di_flow (decode pc) = F_cbr (Some t) -> istep (di_instr (decode pc)) a b ->
      executes (di_next (decode pc)) b c -> executes pc a c
  | ex_call pc t a b c d :
      pc <> 0 -> di_flow (decode pc) = F_call (Some t) -> ignore_calls = false -> istep (di_instr (decode pc)) a b ->
      executes t b c -> executes (di_next (decode pc)) c d -> executes pc a d
  | ex_ignored pc o a b c d :
      pc <> 0 -> di_flow (decode pc) = F_call o -> ignore_calls = true -> istep (di_instr (decode pc)) a b ->
      (forall r, 1 <= r <= 16 -> kept r -> c.2 r = b.2 r) -> executes (di_next (decode pc)) c d -> executes pc a d
  | ex_indirect pc a b :
      pc <> 0 ->
      match di_flow (decode pc) with
      | F_jmp None | F_cbr None => True
      | F_call None => ignore_calls = false
      | _ => False
      end -> executes pc a b.

(** Registers that are not destinations keep their values. *)
Definition respects_dests : Prop :=
  forall i a b r, istep i a b -> 1 <= r <= 16 -> writes i r = false -> b.2 r = a.2 r.
End Execution.

(** The operands are registers of the tables, and no instruction writes a
    part of a register only. *)
Definition whole_dests (i : instr) : Prop :=
  Forall opnd_ok (in_dsts i) /\ forall r, 1 <= r <= 16 -> writes i r = true -> in_ops op_full (in_dsts i) r = true.

(** Code in which every instruction writes whole registers and none is a
    [swapgs]. *)
Definition plain_code : Prop := forall pc, whole_dests (di_instr (decode pc)) /\ di_flow (decode pc) <> F_swapgs.

(** ** Lemmas: the scan *)

(** [rm'] has no more live registers than [rm]. *)
Definition fewer (rm rm' : register_manager) : Prop :=
  (forall r, 1 <= r <= 16 -> lives rm' r = true -> lives rm r = true) /\
  (forall r, 1 <= r <= 16 -> zombie rm r = false -> zombie rm' r = false).

#[local] Instance fewer_preorder : PreOrder fewer.
Proof.
  split; [by intros rm; split|]. intros a b c [H1 H2] [H3 H4].
  split; intros r Hr H; [apply H1, H3|apply H4, H2]; done.
Qed.

(** A view in which nothing is added. *)
Lemma view_fewer rm rm' (k : Z -> bool) lx ux :
  rm_wf rm ->
  view rm' (fun r => (lives rm r && negb (k r)) || (r =? DR_REG_RSP)) (fun r => zombie rm r && negb (k r)) lx ux ->
  rm_wf rm' /\ fewer rm rm' /\ forall r, 1 <= r <= 16 -> r <> DR_REG_RSP -> k r = true -> lives rm' r = false.
Proof.
  intros [_ Hsp] V. split; [eapply view_wf; [exact V|apply orb_true_r]|]. destruct V as [_ V]. split; [split|].
  - intros r Hr. destruct (V r Hr) as (-> & _).
    destruct (Z.eqb_spec r DR_REG_RSP) as [->|]; [intros _; exact Hsp|]. rewrite orb_false_r. by intros [? _]%andb_true_iff.
  - intros r Hr. destruct (V r Hr) as (_ & -> & _). by intros ->.
  - intros r Hr Hne Hk. destruct (V r Hr) as (-> & _). rewrite Hk, andb_false_r. by apply Z.eqb_neq.
Qed.

Lemma kill_opnd_fewer op rm :
  rm_wf rm -> opnd_ok op ->
  exists rm', kill_opnd op rm = Ret rm' /\ rm_wf rm' /\ fewer rm rm' /\
    forall r, 1 <= r <= 16 -> r <> DR_REG_RSP -> op_full op r = true -> lives rm' r = false.
Proof.
  intros Hwf Hok. destruct op as [g|b x|]; cbn [kill_opnd opnd_ok] in *.
  - destruct (wf_view rm Hwf) as [V Hsp]. destruct (kill_reg_view g rm _ _ _ _ Hok Hsp V) as (rm' & E & V').
    exists rm'. split; [done|]. by eapply view_fewer.
  - destruct Hok as [Hb Hx]. destruct (wf_view rm Hwf) as [V Hsp].
    destruct (kill_64_view b rm _ _ _ _ Hb Hsp V) as (rm1 & -> & V1). apply view_fewer in V1 as (Hwf1 & Hf1 & _); [|done].
    destruct (wf_view rm1 Hwf1) as [V1 Hsp1].
    destruct (kill_64_view x rm1 _ _ _ _ Hx Hsp1 V1) as (rm2 & E2 & V2). apply view_fewer in V2 as (Hwf2 & Hf2 & _); [|done].
    exists rm2. cbn [mbind outcome_bind]. split; [done|]. split; [done|]. split; [by etrans|]. done.
  - exists rm. done.
Qed.

Lemma kill_dests_fewer i rm :
  rm_wf rm -> Forall opnd_ok (in_dsts i) ->
  exists rm', kill_dests i rm = Ret rm' /\ rm_wf rm' /\ fewer rm rm' /\
    forall r, 1 <= r <= 16 -> r <> DR_REG_RSP -> in_ops op_full (in_dsts i) r = true -> lives rm' r = false.
Proof.
  unfold kill_dests. generalize (in_dsts i). intros ops. revert rm.
  induction ops as [|op ops IH]; intros rm Hwf Hok; [by exists rm|]. cbn [kill_ops].
  apply List.Forall_cons_iff in Hok as [Hop Hok].
  destruct (kill_opnd_fewer op rm Hwf Hop) as (rm1 & -> & Hwf1 & Hf1 & Hk1). cbn [mbind outcome_bind].
  destruct (IH rm1 Hwf1 Hok) as (rm2 & -> & Hwf2 & Hf2 & Hk2). exists rm2. split; [done|]. split; [done|].
  split; [by etrans|]. intros r Hr Hne. rewrite in_ops_cons. intros [H|H]%orb_true_iff; [|by apply Hk2].
  apply Hk1 in H; [|done..]. destruct (lives rm2 r) eqn:El; [|done]. apply Hf2 in El; [congruence|done].
Qed.

(** The registers written at [pc] are not live. *)
Definition killed_at (rm : register_manager) (pc : Z) : Prop :=
  forall r, 1 <= r <= 16 -> r <> DR_REG_RSP -> in_ops op_full (in_dsts (di_instr (decode pc))) r = true ->
    lives rm r = false.

Lemma killed_fewer rm rm' pc : fewer rm rm' -> killed_at rm pc -> killed_at rm' pc.
Proof.
  intros [Hf _] Hk r Hr Hne Hd. specialize (Hk r Hr Hne Hd). destruct (lives rm' r) eqn:El; [|done].
  apply Hf in El; [congruence|done].
Qed.

(** No register but the stack pointer is live. *)
Definition drained (rm : register_manager) : Prop := forall r, 1 <= r <= 16 -> r <> DR_REG_RSP -> lives rm r = false.

Lemma kill_all_drained rm : drained (kill_all rm).
Proof.
  intros r Hr Hne. unfold lives. cbn [kill_all live]. rewrite testbit_FORCE_LIVE by lia. apply Z.eqb_neq. lia.
Qed.

Lemma drained_fewer rm rm' : fewer rm rm' -> drained rm -> drained rm'.
Proof.
  intros [Hf _] Hd r Hr Hne. destruct (lives rm' r) eqn:El; [|done]. apply Hf in El; [|done].
  by rewrite Hd in El.
Qed.

Lemma kill_all_fewer rm : rm_wf rm -> fewer rm (kill_all rm).
Proof.
  intros [_ Hsp]. split; intros r Hr.
  - unfold lives at 1. cbn [kill_all live]. rewrite testbit_FORCE_LIVE by lia. intros E%Z.eqb_eq.
    replace r with DR_REG_RSP by lia. exact Hsp.
  - intros _. unfold zombie. cbn. apply Z.bits_0.
Qed.

(** The operands of the instructions of a block are well formed. *)
Definition decodes : Prop := forall pc, Forall opnd_ok (in_dsts (di_instr (decode pc))).

(** What one scan does. *)
Record scanned (seen : gset Z) (bb : Z) (rm rm' : register_manager) (new new' : list Z) (stop : bool) : Prop := {
  sc_wf : rm_wf rm';
  sc_fewer : fewer rm rm';
  sc_new : forall t, t ∈ new -> t ∈ new';
  sc_only : forall t, t ∈ new' -> t ∈ new \/ block_succ bb t;
  sc_stop : stop = true -> drained rm';
  sc_killed : stop = false -> forall pc, on_block passes_at next_at bb pc ->
    killed_at rm' pc /\
    match di_flow (decode pc) with
    | F_jmp None | F_cbr None => False
    | F_call None => ignore_calls = true
    | _ => True
    end /\ forall t, branches_to pc t -> t ∈ seen \/ t ∈ new'
}.

(** The scan of the rest of a block, behind its first instruction. *)
Lemma scanned_later seen bb rm rm1 rm' new new1 new' stop :
  bb <> 0 -> passes (di_flow (decode bb)) = true -> fewer rm rm1 -> killed_at rm1 bb ->
  (forall t, t ∈ new -> t ∈ new1) -> (forall t, t ∈ new1 -> t ∈ new \/ block_succ bb t) ->
  (forall t, branches_to bb t -> t ∈ seen \/ t ∈ new1) ->
  scanned seen (di_next (decode bb)) rm1 rm' new1 new' stop -> scanned seen bb rm rm' new new' stop.
Proof.
  intros Hb Hp Hf Hk Hn Ho Hbr [W F N O S K]. constructor; [done|by etrans|auto| |done|].
  - intros t [Ht|(pc & Hpc & Ht)]%O; [by apply Ho|]. right. exists pc. split; [by apply ob_later|done].
  - intros Hs pc [->|[_ Hpc]]%on_block_split; [|by apply K]. split; [by eapply killed_fewer|]. split.
    + unfold passes in Hp. destruct (di_flow (decode bb)) as [| |[t|]|[t|]|[t|]|]; try done.
      cbn in Hp. by rewrite orb_false_r in Hp.
    + intros t [|Ht]%Hbr; auto.
Qed.

(** The scan of a block of one instruction. *)
Lemma scanned_last seen bb rm rm' new new' :
  bb <> 0 -> passes (di_flow (decode bb)) = false -> rm_wf rm' -> fewer rm rm' -> killed_at rm' bb ->
  match di_flow (decode bb) with F_jmp None | F_cbr None | F_call None => False | _ => True end ->
  (forall t, t ∈ new -> t ∈ new') -> (forall t, t ∈ new' -> t ∈ new \/ branches_to bb t) ->
  (forall t, branches_to bb t -> t ∈ seen \/ t ∈ new') -> scanned seen bb rm rm' new new' false.
Proof.
  intros Hb Hp W F K Hfl Hn Ho Hbr. constructor; try done.
  - intros t [|Ht]%Ho; [by left|]. right. exists bb. split; [by apply ob_here|done].
  - intros _ pc [->|[Hp' _]]%on_block_split; [|unfold passes_at in Hp'; congruence]. split; [done|]. split; [|done].
    by destruct (di_flow (decode bb)) as [| |[t|]|[t|]|[t|]|].
Qed.

Lemma scanned_stop seen bb rm rm1 new :
  rm_wf rm -> rm_wf rm1 -> fewer rm rm1 -> scanned seen bb rm (kill_all rm1) new new true.
Proof.
  intros W W1 F. constructor; [apply kill_all_wf| |done|auto| |done].
  - etrans; [exact F|]. by apply kill_all_fewer.
  - intros _. apply kill_all_drained.
Qed.

Lemma scan_block_spec fuel : forall seen bb rm new rm' new' stop,
  decodes -> rm_wf rm -> scan_block fuel seen bb rm new = Ret (rm', new', stop) ->
  scanned seen bb rm rm' new new' stop.
Proof.
  induction fuel as [|fuel IH]; intros seen bb rm new rm' new' stop Hd Hwf E; cbn [scan_block] in E; [discriminate E|].
  destruct (Z.eqb_spec bb 0) as [->|Hb].
  { injection E as <- <- <-. constructor; try done; [auto|]. by intros _ pc ?%on_block_null. }
  destruct (kill_dests_fewer (di_instr (decode bb)) rm Hwf (Hd bb)) as (rm1 & Ek & Hwf1 & Hf & Hk).
  rewrite Ek in E. cbn [mbind outcome_bind] in E. fold (killed_at rm1 bb) in Hk.
  destruct (di_flow (decode bb)) as [| |target|target|target|] eqn:Efl.
  - injection E as <- <- <-. apply scanned_last; rewrite ?Efl; try done; [auto|]. unfold branches_to. by rewrite Efl.
  - injection E as <- <- <-. apply scanned_last; rewrite ?Efl; try done; [auto|]. unfold branches_to. by rewrite Efl.
  - destruct ignore_calls eqn:Ei; [|destruct target as [t|]].
    + apply (scanned_later seen bb rm rm1 rm' new new); [done| |exact Hf|exact Hk|auto|auto| |by apply IH].
      * by rewrite Efl; cbn; rewrite Ei.
      * unfold branches_to. rewrite Efl. by destruct target as [t|]; [intros ? [? _]; congruence|].
    + eapply scanned_later; [done| |exact Hf|exact Hk| | | |by apply IH].
      * rewrite Efl. cbn. by rewrite Ei.
      * intros x Hx. apply elem_append_unseen. by left.
      * intros x [|[-> _]]%elem_append_unseen; [by left|]. right. exists bb. split; [by apply ob_here|].
        unfold branches_to. by rewrite Efl.
      * unfold branches_to. rewrite Efl. intros x [_ ->]. apply append_unseen_has.
    + injection E as <- <- <-. by apply scanned_stop.
  - destruct target as [t|]; injection E as <- <- <-; [|by apply scanned_stop].
    apply scanned_last; rewrite ?Efl; try done; unfold branches_to; rewrite ?Efl.
    + intros x Hx. apply elem_append_unseen. by left.
    + intros x [|[-> _]]%elem_append_unseen; auto.
    + intros x ->. apply append_unseen_has.
  - destruct target as [t|]; injection E as <- <- <-; [|by apply scanned_stop].
    apply scanned_last; rewrite ?Efl; try done; unfold branches_to; rewrite ?Efl.
    + intros x Hx. rewrite !elem_append_unseen. by left; left.
    + intros x. rewrite !elem_append_unseen. tauto.
    + intros x [->| ->]; [|apply append_unseen_has]. destruct (append_unseen_has seen t new) as [|H]; [by left|].
      right. rewrite elem_append_unseen. by left.
  - apply (scanned_later seen bb rm rm1 rm' new new); [done| |exact Hf|exact Hk|auto|auto| |by apply IH]; unfold branches_to; by rewrite Efl.
Qed.

Lemma scan_finds fuel : decodes -> ScanFinds (scan fuel) rm_wf block_succ.
Proof.
  intros Hd. constructor; unfold scan.
  - intros seen bb s s' new stop Hs E. by apply (scan_block_spec _ _ _ _ _ _ _ _ Hd Hs E).
  - intros seen bb s s' new t Hs E (pc & Hpc & Ht).
    by apply (sc_killed _ _ _ _ _ _ _ (scan_block_spec _ _ _ _ _ _ _ _ Hd Hs E) eq_refl pc Hpc).
  - intros seen bb s s' new stop t Hs E Ht.
    by destruct (sc_only _ _ _ _ _ _ _ (scan_block_spec _ _ _ _ _ _ _ _ Hd Hs E) t Ht) as [Hn%elem_of_nil|].
Qed.

(** The blocks that have been seen are accounted for, or everything is. *)
Definition accounted (seen : gset Z) (rm : register_manager) : Prop :=
  (forall bb pc, bb ∈ seen -> on_block passes_at next_at bb pc ->
    killed_at rm pc /\
    match di_flow (decode pc) with
    | F_jmp None | F_cbr None => False | F_call None => ignore_calls = true | _ => True
    end) \/ drained rm.

Lemma accounted_scan fuel : decodes -> forall seen bb rm rm' new stop,
  rm_wf rm -> accounted seen rm -> scan fuel ({[bb]} ∪ seen) bb rm = Ret (rm', new, stop) ->
  accounted ({[bb]} ∪ seen) rm'.
Proof.
  intros Hd seen bb rm rm' new stop Hwf Ha E. unfold scan in E.
  destruct (scan_block_spec _ _ _ _ _ _ _ _ Hd Hwf E) as [_ F _ _ S K].
  destruct stop; [right; by apply S|].
  destruct Ha as [Ha|Ha]; [left|right; by eapply drained_fewer].
  intros x pc [->%elem_of_singleton|Hx]%elem_of_union Hpc.
  - by destruct (K eq_refl pc Hpc) as (? & ? & _).
  - destruct (Ha x pc Hx Hpc). split; [by eapply killed_fewer|done].
Qed.

(** A scan that gives up leaves no register live. *)
Lemma process_stopped scan_fuel fuel : forall pending seen rm rm' seen',
  decodes -> rm_wf rm -> process false (scan scan_fuel) fuel pending seen rm = Ret (rm', seen', true) ->
  drained rm'.
Proof.
  induction fuel as [|fuel IH]; intros pending seen rm rm' seen' Hd Hwf E; cbn [process] in E;
    (destruct (take_one false pending) as [[bb l]|]; [|discriminate E]); [discriminate E|].
  case_bool_decide as Hb; [by eapply IH|].
  destruct (scan scan_fuel ({[bb]} ∪ seen) bb rm) as [[[rm1 new] stop]| |] eqn:Es;
    cbn [mbind outcome_bind fst snd] in E; try discriminate E.
  destruct (scan_block_spec _ _ _ _ _ _ _ _ Hd Hwf Es) as [W _ _ _ S _].
  destruct stop; [injection E as <- _; by apply S|by eapply IH].
Qed.

(** What the walk computes: a set of blocks that contains the function and
    is closed under branches, whose instructions are accounted for. *)
Lemma find_used_regs_spec block_fuel fuel func rm :
  decodes -> find_used_regs_in_func block_fuel fuel func = Ret rm ->
  rm_wf rm /\ (forall r, 1 <= r <= 16 -> zombie rm r = false) /\
  (drained rm \/
   exists seen : gset Z, func ∈ seen /\ (forall x t, x ∈ seen -> block_succ x t -> t ∈ seen) /\ accounted seen rm).
Proof.
  intros Hd E. unfold find_used_regs_in_func in E. pose proof (scan_finds block_fuel Hd) as HF.
  destruct (process _ _ _ _ _ _) as [[[rm' seen'] stop]| |] eqn:Ep; [|discriminate E..].
  injection E as <-. cbn [fst].
  pose proof (revive_all_view register_manager_ctor) as V. pose proof (view_wf _ _ _ _ _ V eq_refl) as Hwf0.
  edestruct (process_inv false (scan block_fuel) rm_wf block_succ
    (fun seen rm => accounted seen rm /\ forall r, 1 <= r <= 16 -> zombie rm r = false)) as (Hwf & Ha & Hz);
    [|exact Ep|exact Hwf0| |].
  { intros seen bb s s' new st Hs [Ha Hz] Es. split; [by eapply accounted_scan|].
    destruct (scan_block_spec _ _ _ _ _ _ _ _ Hd Hs Es) as [_ [_ F] _ _ _ _]. auto. }
  { split; [left; by intros bb pc Hin%elem_of_empty|]. intros r Hr. by apply (proj2 V r Hr). }
  split; [done|]. split; [done|]. destruct stop; [left; eapply process_stopped; [done|exact Hwf0|exact Ep]|right].
  destruct (process_closed false _ rm_wf block_succ _ _ _ _ _ _ Ep Hwf0) as (_ & Hin & Hcl).
  { by intros x t Hx%elem_of_empty. }
  exists seen'. split; [apply Hin; left|done].
Qed.

(** A register that is live at the end is not written by a block that has
    been seen. *)
Lemma executes_keeps {M V} (istep : instr -> M * (Z -> V) -> M * (Z -> V) -> Prop) (kept : Z -> Prop) seen rm r :
  respects_dests istep -> plain_code -> accounted seen rm ->
  (forall x t, x ∈ seen -> block_succ x t -> t ∈ seen) -> 1 <= r <= 16 -> r <> DR_REG_RSP -> lives rm r = true ->
  (ignore_calls = true -> kept r) ->
  forall pc a b, executes istep kept pc a b -> (exists bb, bb ∈ seen /\ on_block passes_at next_at bb pc) -> b.2 r = a.2 r.
Proof.
  intros Hresp Hwhole Ha Hcl Hr Hne Hl Hkept.
  assert (Hstep : forall pc a b, (exists bb, bb ∈ seen /\ on_block passes_at next_at bb pc) -> istep (di_instr (decode pc)) a b -> b.2 r = a.2 r).
  { intros pc a b (bb & Hbb & Hpc) Hi. apply (Hresp _ _ _ _ Hi Hr).
    destruct (writes (di_instr (decode pc)) r) eqn:Ew; [|done]. apply (proj1 (Hwhole pc)) in Ew; [|done].
    destruct Ha as [Ha|Ha]; [|by rewrite Ha in Hl]. destruct (Ha bb pc Hbb Hpc) as [Hk _].
    rewrite (Hk r Hr Hne Ew) in Hl. discriminate Hl. }
  assert (Hnext : forall pc a b, (exists bb, bb ∈ seen /\ on_block passes_at next_at bb pc) -> passes (di_flow (decode pc)) = true ->
    executes istep kept (di_next (decode pc)) a b -> exists bb, bb ∈ seen /\ on_block passes_at next_at bb (di_next (decode pc))).
  { intros pc a b (bb & Hbb & Hpc) Hp He. exists bb. split; [done|].
    apply (on_block_next passes_at next_at bb pc); [done..|]. by inversion He. }
  assert (Hbranch : forall pc t a b, (exists bb, bb ∈ seen /\ on_block passes_at next_at bb pc) -> branches_to pc t ->
    executes istep kept t a b -> exists bb, bb ∈ seen /\ on_block passes_at next_at bb t).
  { intros pc t a b (bb & Hbb & Hpc) Ht He. exists t. split; [|apply ob_here; by inversion He].
    apply (Hcl bb t Hbb). by exists pc. }
  induction 1 as [pc a b Hpc Hfl Hi|pc a b c Hpc Hfl Hi He IH|pc a b c Hpc Hfl Hi He IH|pc t a b c Hpc Hfl Hi He IH|pc t a b c Hpc Hfl Hi He IH
    |pc t a b c Hpc Hfl Hi He IH|pc t a b c d Hpc Hfl Hig Hi He1 IH1 He2 IH2|pc o a b c d Hpc Hfl Hig Hi Hk He IH
    |pc a b Hpc Hfl]; intros Hat.
  - by apply (Hstep pc).
  - rewrite IH; [by apply (Hstep pc)|]. eapply Hnext; [done| |done]. by rewrite Hfl.
  - by destruct (Hwhole pc).
  - rewrite IH; [by apply (Hstep pc)|]. eapply Hbranch; [done| |done]. unfold branches_to. by rewrite Hfl.
  - rewrite IH; [by apply (Hstep pc)|]. eapply Hbranch; [done| |done]. unfold branches_to. rewrite Hfl. by left.
  - rewrite IH; [by apply (Hstep pc)|]. eapply Hbranch; [done| |done]. unfold branches_to. rewrite Hfl. by right.
  - rewrite IH2, IH1; [by apply (Hstep pc)| |].
    + eapply Hbranch; [done| |done]. unfold branches_to. by rewrite Hfl.
    + eapply Hnext; [done| |done]. rewrite Hfl. cbn. apply orb_true_r.
  - rewrite IH, Hk; [by apply (Hstep pc)|done|auto|]. eapply Hnext; [done| |done]. rewrite Hfl. cbn. by rewrite Hig.
  - exfalso. destruct Hat as (bb & Hbb & Hon). destruct Ha as [Ha|Ha]; [|by rewrite Ha in Hl].
    destruct (Ha bb pc Hbb Hon) as [_ Hc]. destruct (di_flow (decode pc)) as [| |[t|]|[t|]|[t|]|]; try done. congruence.
Qed.
End UsedRegs.

(** ** Termination *)
Section Terminates.
Context (decode : Z -> dins) (c : instruction_traversal_constraint) (U : gset Z).

(** The instructions that the walk can reach lie in [U], and an instruction
    lies behind the one that it follows. *)
Record finite_code : Prop := {
  fc_operands : decodes decode;
  fc_next : forward (passes_at decode c) (next_at decode) U;
  fc_branch : forall pc t, pc ∈ U -> branches_to decode c pc t -> t ∈ U
}.

Lemma scan_block_returns fuel : forall seen bb rm new,
  finite_code -> rm_wf rm -> bb = 0 \/ bb ∈ U -> (size (from U bb) < fuel)%nat ->
  exists rm' new' stop, scan_block decode c fuel seen bb rm new = Ret (rm', new', stop) /\
    (length new' <= length new + 2 * fuel)%nat.
Proof.
  induction fuel as [|fuel IH]; intros seen bb rm new Hc Hwf Hbb Hf; [lia|]. cbn [scan_block].
  destruct (Z.eqb_spec bb 0) as [E0|Hb]; [eexists _, _, _; split; [done|lia]|]. destruct Hbb as [|Hbb]; [done|].
  destruct (kill_dests_fewer (di_instr (decode bb)) rm Hwf (fc_operands Hc bb)) as (rm1 & -> & Hwf1 & _).
  cbn [mbind outcome_bind].
  assert (Hrec : forall new1, passes c (di_flow (decode bb)) = true -> (length new1 <= length new + 2)%nat ->
    exists rm' new' stop, scan_block decode c fuel seen (di_next (decode bb)) rm1 new1 = Ret (rm', new', stop) /\
      (length new' <= length new + 2 * S fuel)%nat).
  { intros new1 Hp Hn. pose proof (fc_next Hc bb Hbb Hp) as Hnext.
    destruct fuel as [|fuel].
    - pose proof (from_here U bb Hbb). lia.
    - destruct (Z.eq_dec (di_next (decode bb)) 0) as [Hz|Hz].
      + rewrite Hz. cbn. eexists _, _, _. split; [done|lia].
      + destruct Hnext as [|[Hlt Hin]]; [done|]. pose proof (from_next U bb _ Hbb Hlt). unfold next_at in *.
        destruct (IH seen (di_next (decode bb)) rm1 new1 Hc Hwf1) as (rm' & new' & stop & E & Hl); [by right|lia|].
        exists rm', new', stop. split; [done|lia]. }
  assert (Hl1 : forall t, (length (append_unseen seen t new) <= length new + 2)%nat)
    by (intros t; pose proof (length_append_unseen seen t new); lia).
  assert (Hl2 : forall t u, (length (append_unseen seen u (append_unseen seen t new)) <= length new + 2)%nat)
    by (intros t u; pose proof (length_append_unseen seen t new);
        pose proof (length_append_unseen seen u (append_unseen seen t new)); lia).
  unfold passes in Hrec. destruct (di_flow (decode bb)) as [| |target|target|target|].
  - eexists _, _, _. split; [done|lia].
  - eexists _, _, _. split; [done|lia].
  - destruct (ignore_calls c); [apply Hrec; [done|lia]|].
    destruct target as [t|]; [apply Hrec; [done|auto]|eexists _, _, _; split; [done|lia]].
  - destruct target as [t|]; eexists _, _, _; (split; [done|]); [specialize (Hl1 t)|]; lia.
  - destruct target as [t|]; eexists _, _, _; (split; [done|]); [specialize (Hl2 t (di_next (decode bb)))|]; lia.
  - apply Hrec; [done|lia].
Qed.

End Terminates.

Lemma used_regs_keep {M V} decode c (istep : instr -> M * (Z -> V) -> M * (Z -> V) -> Prop) (kept : Z -> Prop)
    block_fuel fuel func rm a b r :
  plain_code decode -> respects_dests istep ->
  find_used_regs_in_func decode c block_fuel fuel func = Ret rm ->
  executes decode c istep kept func a b ->
  1 <= r <= 16 -> r <> DR_REG_RSP -> lives rm r = true -> (c = USED_REGS_IGNORE_CALLS -> kept r) ->
  b.2 r = a.2 r.
Proof.
  intros Hw Hresp E He Hr Hne Hl Hk.
  destruct (find_used_regs_spec decode c block_fuel fuel func rm) as (_ & _ & Hs); [intros pc; apply Hw|done|].
  destruct Hs as [Hd|(seen & Hin & Hcl & Ha)]; [by rewrite Hd in Hl|].
  eapply (executes_keeps decode c istep kept seen rm r); try done.
  - unfold ignore_calls. intros ?%bool_decide_eq_true. auto.
  - exists func. split; [done|]. apply ob_here. by inversion He.
Qed.

(** ** Theorems *)

(** C14 The registers that the walk leaves live are not changed by the function.
    For every processor that changes no register but the destinations of an
    instruction, every code whose instructions write whole registers and are
    not [swapgs], and every execution of the function from its first instruction to its return,
    through the functions that it calls, a register that is live in the
    result of [find_used_regs_in_func] has its old value; when calls are
    ignored, if the functions that are called keep it. *)
Theorem find_used_regs_sound {M V} decode c (istep : instr -> M * (Z -> V) -> M * (Z -> V) -> Prop) (kept : Z -> Prop)
    block_fuel fuel func rm a b r :
  plain_code decode -> respects_dests istep ->
  find_used_regs_in_func decode c block_fuel fuel func = Ret rm ->
  executes decode c istep kept func a b ->
  1 <= r <= 16 -> r <> DR_REG_RSP -> lives rm r = true -> (c = USED_REGS_IGNORE_CALLS -> kept r) ->
  b.2 r = a.2 r.
Proof. intros. by eapply used_regs_keep. Qed.

(** The walk ends on every function of finitely many instructions, within a
    number of turns that is quadratic in the number of instructions. *)
Theorem find_used_regs_terminates decode c U func :
  finite_code decode c U -> func ∈ U ->
  exists rm, find_used_regs_in_func decode c (S (size U)) (size U * S (2 * S (size U)) + 1) func = Ret rm.
Proof.
  intros Hc Hf. unfold find_used_regs_in_func.
  pose proof (scan_finds decode c (S (size U)) (fc_operands _ _ _ Hc)) as HF.
  pose proof (view_wf _ _ _ _ _ (revive_all_view register_manager_ctor) eq_refl) as Hwf.
  destruct (process_returns false (scan decode c (S (size U))) rm_wf (block_succ decode c) U (2 * S (size U))
    (size U * S (2 * S (size U)) + 1) [func] ∅ (revive_all register_manager_ctor)) as (r & ->);
    [|done|by intros x ->%list_elem_of_singleton|apply empty_subseteq|rewrite size_empty; cbn [length]; lia|by exists r.1.1].
  split.
  - intros x t Hx (pc & Hpc & Ht). eapply (fc_branch _ _ _ Hc); [|exact Ht]. by eapply on_block_in; [apply (fc_next _ _ _ Hc)|exact Hpc|].
  - intros seen bb s Hbb Hs. destruct (scan_block_returns decode c U (S (size U)) seen bb s [] Hc Hs) as (rm & new & st & E & Hl);
      [by right| |].
    { apply le_n_S, from_all. }
    exists rm, new, st. split; [exact E|]. cbn [length] in Hl. lia.
Qed.

(** A function of two instructions: one that writes register [g], and a
    return. *)
Definition write_part (g : Z) : instr :=
  {| in_opcode := OP_other 0; in_dsts := [REG_kind g]; in_srcs := []; in_is_nop := false; in_is_cti := false |}.

Definition return_instr : instr :=
  {| in_opcode := OP_other 1; in_dsts := [REG_kind DR_REG_RSP]; in_srcs := []; in_is_nop := false; in_is_cti := true |}.

Definition part_decode (g : Z) (pc : Z) : dins :=
  if pc =? 0x10 then {| di_instr := write_part g; di_flow := F_other; di_next := 0x13 |}
  else {| di_instr := return_instr; di_flow := F_return; di_next := pc + 1 |}.

(** Writes to parts of registers are missed.  The register manager kills
    a register only for operands of 32 or 64 bits.  A function that writes
    the byte or word register [g] and returns changes the register that
    contains [g], which the walk reports as not changed. *)
Theorem find_used_regs_misses_parts c g :
  33 <= g < DR_REG_MM0 ->
  writes (write_part g) (reg64_of g) = true /\
  exists rm, find_used_regs_in_func (part_decode g) c 3 1 0x10 = Ret rm /\ lives rm (reg64_of g) = true.
Proof.
  intros Hg. assert (Hw : writes (write_part g) (reg64_of g) = true).
  { unfold writes, in_ops. cbn. rewrite Z.eqb_refl, andb_true_r, orb_false_r. apply Z.ltb_lt. lia. }
  split; [done|]. pose proof (reg64_of_range g ltac:(lia)) as Hr.
  assert (Hr0 : reg64_of g <> 0) by (intros H%reg64_of_null; lia).
  assert (Hk : kill_dests (write_part g) (revive_all register_manager_ctor) = Ret (revive_all register_manager_ctor)).
  { unfold kill_dests. cbn [write_part in_dsts kill_ops kill_opnd]. unfold kill_reg.
    destruct (Z.leb_spec DR_REG_MM0 g); [lia|]. destruct (table64 g ltac:(lia)) as (E & _ & r32 & E32 & Hk).
    unfold kill_64. rewrite E. cbn [mbind outcome_bind]. rewrite (proj2 (Z.eqb_neq _ _) Hr0), E32. cbn [mbind outcome_bind].
    replace (g <=? 32) with false in Hk by (symmetry; apply Z.leb_gt; lia). rewrite andb_false_r in Hk.
    rewrite (proj2 (Z.eqb_neq _ _) Hr0) in Hk. cbn [negb andb] in Hk. by rewrite Hk. }
  destruct (kill_dests_fewer return_instr (revive_all register_manager_ctor)) as (rm & Ek & _).
  { eapply view_wf; [apply revive_all_view|done]. }
  { by repeat constructor. }
  exists rm. unfold find_used_regs_in_func, scan. cbn [process take_one].
  rewrite bool_decide_false by apply not_elem_of_empty. cbn [scan_block].
  change (part_decode g 16) with {| di_instr := write_part g; di_flow := F_other; di_next := 0x13 |}.
  cbn [Z.eqb di_instr di_flow di_next Pos.eqb]. rewrite Hk. cbn [mbind outcome_bind scan_block Z.eqb].
  change (part_decode g 19) with {| di_instr := return_instr; di_flow := F_return; di_next := 20 |}.
  cbn [di_instr di_flow]. rewrite Ek. split; [done|].
  assert (Hrm : rm = revive_all register_manager_ctor) by (vm_compute in Ek; injection Ek as <-; reflexivity). rewrite Hrm.
  by destruct (proj2 (revive_all_view register_manager_ctor) (reg64_of g) ltac:(lia)) as (-> & _).
Qed.

Lemma find_used_regs_misses_parts_witness :
  exists rm, find_used_regs_in_func (part_decode 49) USED_REGS_VISIT_ALL_INSTRUCTIONS 3 1 0x10 = Ret rm /\
    lives rm 1 = true.
Proof.
  exact (proj2 (find_used_regs_misses_parts USED_REGS_VISIT_ALL_INSTRUCTIONS 49 (conj (Zle_bool_imp_le 33 49 eq_refl) eq_refl))).
Defined.

(** [mov %rcx; jz 0x18; call 0x20; 0x18: ret; 0x20: mov %rdx; ret]. *)
Definition write_whole (r : Z) : instr := write_part r.

Definition call_decode (pc : Z) : dins :=
  if pc =? 0x10 then {| di_instr := write_whole 2; di_flow := F_other; di_next := 0x13 |}
  else if pc =? 0x13 then {| di_instr := write_whole 0; di_flow := F_cbr (Some 0x18); di_next := 0x15 |}
  else if pc =? 0x15 then {| di_instr := return_instr; di_flow := F_call (Some 0x20); di_next := 0x18 |}
  else if pc =? 0x20 then {| di_instr := write_whole 3; di_flow := F_other; di_next := 0x22 |}
  else {| di_instr := return_instr; di_flow := F_return; di_next := pc + 1 |}.

Definition call_pcs : gset Z := {[0x10; 0x13; 0x15; 0x18; 0x20; 0x22]}.

Lemma call_decode_cases (P : dins -> Prop) :
  P (call_decode 0x10) -> P (call_decode 0x13) -> P (call_decode 0x15) -> P (call_decode 0x20) ->
  (forall n, P {| di_instr := return_instr; di_flow := F_return; di_next := n |}) -> forall pc, P (call_decode pc).
Proof.
  intros H1 H2 H3 H4 H5 pc. unfold call_decode. destruct (Z.eqb_spec pc 0x10); [done|].
  destruct (Z.eqb_spec pc 0x13); [done|]. destruct (Z.eqb_spec pc 0x15); [done|]. by destruct (Z.eqb_spec pc 0x20).
Qed.

Lemma whole_check i :
  Forall opnd_ok (in_dsts i) -> forallb (fun op => match op with REG_kind g => g <=? 16 | _ => false end) (in_dsts i) = true ->
  whole_dests i.
Proof.
  intros Hok Hb. split; [done|]. intros r Hr. unfold writes, in_ops. rewrite !existsb_exists.
  intros (op & Hin & Hop). exists op. split; [done|]. rewrite forallb_forall in Hb. specialize (Hb op Hin).
  destruct op as [g| |]; [|done..]. apply Z.leb_le in Hb. cbn in *. apply andb_prop in Hop as [_ ->].
  destruct (Z.leb_spec g 32); [done|lia].
Qed.

Lemma call_decode_whole pc : whole_dests (di_instr (call_decode pc)).
Proof.
  apply (call_decode_cases (fun d => whole_dests (di_instr d))); intros; (apply whole_check; [|reflexivity]); by repeat constructor.
Qed.

(** A processor that may change the destinations in any way. *)
Definition any_step (i : instr) (a b : unit * (Z -> Z)) : Prop := forall r, 1 <= r <= 16 -> writes i r = false -> b.2 r = a.2 r.

Lemma call_decode_plain : plain_code call_decode.
Proof.
  intros pc. split; [apply call_decode_whole|]. by apply (call_decode_cases (fun d => di_flow d <> F_swapgs)).
Qed.

(** [swapgs; mov %rdx; ret]. *)
Definition swapgs_decode (pc : Z) : dins :=
  if pc =? 0x10 then {| di_instr := write_whole 0; di_flow := F_swapgs; di_next := 0x13 |}
  else if pc =? 0x13 then {| di_instr := write_whole 3; di_flow := F_other; di_next := 0x16 |}
  else {| di_instr := return_instr; di_flow := F_return; di_next := pc + 1 |}.

(** Writes behind [swapgs] are missed.  The walk ends a block at a [swapgs],
    behind which execution goes on: a function that then writes [rdx] changes
    it, and the walk reports it as not changed. *)
Theorem find_used_regs_misses_swapgs c v :
  let a : unit * (Z -> Z) := (tt, fun _ => 0) in
  let b := (tt, fun r => if r =? 3 then v else 0) in
  executes swapgs_decode c any_step (fun _ => True) 0x10 a b /\
  exists rm, find_used_regs_in_func swapgs_decode c 2 1 0x10 = Ret rm /\ lives rm 3 = true.
Proof.
  split; [|eexists; split; vm_compute; reflexivity].
  apply (ex_swapgs _ _ _ _ _ _ (tt, fun _ => 0)); [done|done|by intros r|].
  apply (ex_other _ _ _ _ _ _ (tt, fun r => if r =? 3 then v else 0)); [done|done| |by apply ex_return].
  intros r Hr Hw. cbn. destruct (Z.eqb_spec r 3) as [->|]; [discriminate Hw|done].
Qed.

Lemma find_used_regs_terminates_witness :
  exists rm, find_used_regs_in_func call_decode USED_REGS_VISIT_ALL_INSTRUCTIONS 7 91 0x10 = Ret rm.
Proof.
  apply (find_used_regs_terminates call_decode USED_REGS_VISIT_ALL_INSTRUCTIONS call_pcs 0x10); [|set_solver].
  constructor.
  - intros pc. apply call_decode_whole.
  - intros pc Hpc Hp. unfold call_pcs in *. rewrite !elem_of_union, !elem_of_singleton in Hpc.
    destruct Hpc as [[[[[->| ->]| ->]| ->]| ->]| ->]; try discriminate Hp; right; (split; [reflexivity|]); set_solver.
  - intros pc t Hpc Ht. unfold call_pcs in *. rewrite !elem_of_union, !elem_of_singleton in Hpc.
    destruct Hpc as [[[[[->| ->]| ->]| ->]| ->]| ->]; cbn in Ht; try done; set_solver.
Defined.

Lemma find_used_regs_sound_witness :
  exists rm, find_used_regs_in_func call_decode USED_REGS_VISIT_ALL_INSTRUCTIONS 7 91 0x10 = Ret rm /\
    lives rm 4 = true /\ lives rm 3 = false /\
    let a : unit * (Z -> Z) := (tt, fun r => 10 * r) in
    let b := (tt, fun r => if (r =? 2) || (r =? 3) || (r =? 5) then 7 else 10 * r) in
    executes call_decode USED_REGS_VISIT_ALL_INSTRUCTIONS any_step (fun _ => False) 0x10 a b /\ b.2 4 = a.2 4.
Proof.
  set (a := (tt, fun r : Z => 10 * r)).
  set (b := (tt, fun r : Z => if (r =? 2) || (r =? 3) || (r =? 5) then 7 else 10 * r)).
  assert (He : executes call_decode USED_REGS_VISIT_ALL_INSTRUCTIONS any_step (fun _ => False) 0x10 a b).
  { apply (ex_other _ _ _ _ _ a (tt, fun r => if r =? 2 then 7 else 10 * r)); [done|done| |].
    { intros r Hr Hw. cbn. destruct (Z.eqb_spec r 2) as [->|]; [discriminate Hw|done]. }
    apply (ex_not_taken _ _ _ _ _ 0x18 _ (tt, fun r => if r =? 2 then 7 else 10 * r)); [done|done|by intros r Hr Hw|].
    apply (ex_call _ _ _ _ _ 0x20 _ (tt, fun r => if (r =? 2) || (r =? 5) then 7 else 10 * r) b); [done|done|done| | |].
    - intros r Hr Hw. cbn. destruct (Z.eqb_spec r 5) as [->|]; [discriminate Hw|]. by rewrite orb_false_r.
    - apply (ex_other _ _ _ _ _ _ b); [done|done| |].
      { intros r Hr Hw. cbn. destruct (Z.eqb_spec r 3) as [->|]; [discriminate Hw|]. by rewrite orb_false_r. }
      by apply ex_return.
    - by apply ex_return. }
  eexists. split; [vm_compute; reflexivity|]. split; [reflexivity|]. split; [reflexivity|]. split; [exact He|].
  apply (find_used_regs_sound call_decode USED_REGS_VISIT_ALL_INSTRUCTIONS any_step (fun _ => False) 7 91 0x10
    {| live := 65529; undead := 0; live_xmm := 65535; undead_xmm := 0 |} a b 4).
  - apply call_decode_plain.
  - intros i x y r Hi Hr Hw. by apply Hi.
  - vm_compute. reflexivity.
  - exact He.
  - lia.
  - discriminate.
  - reflexivity.
  - discriminate.
Defined.
