(* ===== verification/HotPatch.v ===== *)
(** * Hot-patching of kernel functions: [granary/kernel/hotpatch.cc]

    Granary replaces a function of the kernel by a jump: to an instrumented
    version, for which all blocks of the function are translated beforehand
    ([instrument_function]), or to a copy of the function
    ([duplicate_function]).

    The theorems: for a finite function without indirect jumps the search
    ends, and the blocks that are translated are exactly those that control
    reaches inside of it, each once; every direct branch of a copy leads to
    the place in the copy that corresponds to its target, or to its target
    outside of the function, while an indirect branch through memory relative
    to the instruction pointer is not relocated; and the one word that
    is written over the function decodes to a jump to the new address. *)

From Stdlib Require Import ZArith Lia Bool.
From stdpp Require Import base numbers list option gmap relations.
From S2P Require Import Prelude Register Worklist UsedRegs.

(** ** [instrument_function] *)
Section Instrument.
Context (decode : Z -> dins) (addr len : Z).

(** A target is followed only inside the function. *)
Definition in_function (t : Z) : bool := (addr <=? t) && (t <? addr + len).

Definition append_target (seen : gset Z) (t : Z) (new : list Z) : list Z :=
  if in_function t then append_unseen seen t new else new.

(** The loop over the instructions of a block.  Calls and indirect branches
    are passed over. *)
Fixpoint scan_bb (fuel : nat) (seen : gset Z) (bb : Z) (new : list Z) : outcome (list Z) :=
  match fuel with
  | O => OutOfFuel
  | S fuel =>
      if bb =? 0 then Ret new
      else
        let i := decode bb in
        let bb := di_next i in
        match di_flow i with
        | F_return | F_swapgs => Ret new
        | F_other | F_call _ | F_jmp None | F_cbr None => scan_bb fuel seen bb new
        | F_jmp (Some t) => Ret (append_target seen t new)
        | F_cbr (Some t) => Ret (append_unseen seen bb (append_target seen t new))
        end
  end.

(** [lookup_bbs.append(bb)], and the loop. *)
Definition scan_lookup (fuel : nat) (seen : gset Z) (bb : Z) (lookup_bbs : list Z) : outcome (list Z * list Z * bool) :=
  new ← scan_bb fuel seen bb [];
  Ret (lookup_bbs ++ [bb], new, false).

(** The blocks, in the order in which they are found; [process_bbs] is used
    as a stack. *)
Definition find_blocks (block_fuel fuel : nat) : outcome (list Z) :=
  r ← process true (scan_lookup block_fuel) fuel [addr] ∅ [];
  Ret r.1.1.

(** [code_cache::find] for an address under [START_POLICY]. *)
Context {W : Type} (find : W -> Z -> outcome (W * Z)).

Fixpoint find_all (bbs : list Z) (w : W) : outcome W :=
  match bbs with
  | [] => Ret w
  | bb :: bbs => r ← find w bb; find_all bbs r.1
  end.

Definition instrument_function (block_fuel fuel : nat) (w : W) : outcome (W * Z) :=
  lookup_bbs ← find_blocks block_fuel fuel;
  w ← find_all (rev lookup_bbs) w;
  find w addr.

(** *** The blocks that the search goes through

    Behind an indirect jump the search goes on as behind a call, and it stops
    at [swapgs]. *)
Definition bb_passes (pc : Z) : bool :=
  match di_flow (decode pc) with F_other | F_call _ | F_jmp None | F_cbr None => true | _ => false end.

Definition bb_next (pc : Z) : Z := di_next (decode pc).

Definition bb_branches (pc t : Z) : Prop :=
  match di_flow (decode pc) with
  | F_jmp (Some x) => addr <= x < addr + len /\ t = x
  | F_cbr (Some x) => addr <= x < addr + len /\ t = x \/ t = bb_next pc
  | _ => False
  end.

Definition bb_succ (bb t : Z) : Prop := exists pc, on_block bb_passes bb_next bb pc /\ bb_branches pc t.

Lemma elem_append_target seen t new x : x ∈ append_target seen t new <-> x ∈ new \/ (addr <= t < addr + len /\ x = t /\ t ∉ seen).
Proof.
  unfold append_target, in_function. destruct (Z.leb_spec addr t), (Z.ltb_spec t (addr + len)); cbn [andb];
    rewrite ?elem_append_unseen; intuition (congruence || lia).
Qed.

Lemma scan_bb_spec fuel : forall seen bb new new',
  scan_bb fuel seen bb new = Ret new' ->
  (forall t, t ∈ new' <-> t ∈ new \/ (bb_succ bb t /\ t ∉ seen)).
Proof.
  induction fuel as [|fuel IH]; intros seen bb new new' E t; cbn [scan_bb] in E; [discriminate E|].
  destruct (Z.eqb_spec bb 0) as [->|Hb].
  { injection E as <-. split; [by left|]. intros [|[(pc & Hpc & _) _]]; [done|]. by apply on_block_null in Hpc. }
  assert (Hpass : bb_passes bb = true -> forall x, bb_succ bb x <-> bb_succ (bb_next bb) x).
  { intros Hp x. split; intros (pc & Hpc & Hx).
    - apply on_block_split in Hpc as [->|[_ Hpc]]; [|by exists pc]. exfalso. clear - Hp Hx.
      unfold bb_passes, bb_branches in *. by destruct (di_flow (decode bb)) as [| |[t|]|[t|]|[t|]|].
    - exists pc. split; [by apply ob_later|done]. }
  assert (Hstop : bb_passes bb = false -> forall x, bb_succ bb x <-> bb_branches bb x).
  { intros Hp x. split; [|intros Hx; exists bb; split; [by apply ob_here|done]].
    intros (pc & [->|[Hp' _]]%on_block_split & Hx); [done|congruence]. }
  unfold bb_passes, bb_branches in Hpass, Hstop.
  destruct (di_flow (decode bb)) as [| |target|[t0|]|[t0|]|];
    try (rewrite (Hpass eq_refl); apply (IH seen (bb_next bb) new new' E)); rewrite (Hstop eq_refl); injection E as <-.
  - tauto.
  - tauto.
  - rewrite elem_append_target. intuition congruence.
  - rewrite elem_append_unseen, elem_append_target. unfold bb_next. intuition congruence.
Qed.

#[local] Instance scan_lookup_finds fuel : ScanFinds (scan_lookup fuel) (fun _ => True) bb_succ.
Proof.
  constructor; [done| |].
  - intros seen bb s s' new t _ E Ht. unfold scan_lookup in E.
    destruct (scan_bb fuel seen bb []) as [n| |] eqn:Es; cbn [mbind outcome_bind] in E; [|discriminate E..]. injection E as <- <-.
    destruct (decide (t ∈ seen)); [by left|right]. apply (scan_bb_spec _ _ _ _ _ Es). by right.
  - intros seen bb s s' new stop t _ E Ht. unfold scan_lookup in E.
    destruct (scan_bb fuel seen bb []) as [n| |] eqn:Es; cbn [mbind outcome_bind] in E; [|discriminate E..]. injection E as <- <- _.
    apply (scan_bb_spec _ _ _ _ _ Es) in Ht as [Ht%elem_of_nil|[? _]]; done.
Qed.

(** The list of blocks to look up is the set of blocks seen, without
    repetitions. *)
Lemma lookup_is_seen block_fuel fuel : forall pending seen l l' seen' stop,
  process true (scan_lookup block_fuel) fuel pending seen l = Ret (l', seen', stop) ->
  (forall x, x ∈ l <-> x ∈ seen) -> NoDup l ->
  (forall x, x ∈ l' <-> x ∈ seen') /\ NoDup l' /\ stop = false.
Proof.
  induction fuel as [|fuel IH]; intros pending seen l l' seen' stop E Hl Hnd; cbn [process] in E;
    (destruct (take_one true pending) as [[bb p]|]; [|by injection E as <- <- <-]); [discriminate E|].
  case_bool_decide as Hb; [by eapply IH|].
  destruct (scan_lookup block_fuel ({[bb]} ∪ seen) bb l) as [[[l1 new] st]| |] eqn:Es;
    cbn [mbind outcome_bind fst snd] in E; [|discriminate E..].
  unfold scan_lookup in Es. destruct (scan_bb block_fuel _ bb []) as [n| |]; cbn [mbind outcome_bind] in Es; [|discriminate Es..].
  injection Es as <- <- <-. apply IH in E; [done| |].
  - intros x. rewrite elem_of_app, list_elem_of_singleton, elem_of_union, elem_of_singleton, Hl. tauto.
  - apply NoDup_app. split; [done|]. split; [|apply NoDup_singleton]. intros x Hx ->%list_elem_of_singleton. by apply Hb, Hl.
Qed.

Lemma scan_bb_returns (U : gset Z) fuel : forall seen bb new,
  forward bb_passes bb_next U -> bb = 0 \/ bb ∈ U -> (size (from U bb) < fuel)%nat ->
  exists new', scan_bb fuel seen bb new = Ret new' /\ (length new' <= length new + 2)%nat.
Proof.
  induction fuel as [|fuel IH]; intros seen bb new Hf Hbb Hsz; [lia|]. cbn [scan_bb].
  destruct (Z.eqb_spec bb 0) as [|Hb]; [eexists; split; [done|lia]|]. destruct Hbb as [|Hbb]; [done|].
  assert (Hrec : bb_passes bb = true ->
    exists new', scan_bb fuel seen (di_next (decode bb)) new = Ret new' /\ (length new' <= length new + 2)%nat).
  { intros Hp. pose proof (from_here U bb Hbb). destruct (Hf bb Hbb Hp) as [Hz|[Hlt Hin]].
    - fold (bb_next bb). rewrite Hz. destruct fuel; [lia|]. cbn. eexists. split; [done|lia].
    - pose proof (from_next U bb _ Hbb Hlt). apply IH; [done|by right|fold (bb_next bb); lia]. }
  assert (Ht : forall t, (length (append_target seen t new) <= S (length new))%nat).
  { intros t. unfold append_target. pose proof (length_append_unseen seen t new). destruct (in_function t); lia. }
  unfold bb_passes in Hrec.
  destruct (di_flow (decode bb)) as [| |target|[t|]|[t|]|]; try (by apply Hrec); eexists; (split; [done|]).
  - lia.
  - lia.
  - specialize (Ht t). lia.
  - specialize (Ht t). pose proof (length_append_unseen seen (di_next (decode bb)) (append_target seen t new)). lia.
Qed.
End Instrument.

(** When the search returns, it has found exactly the blocks that the function
    reaches from its first instruction by direct branches that stay inside of
    it, and by falling through conditional ones, each once. *)
Lemma find_blocks_spec decode addr len block_fuel fuel lookup_bbs :
  find_blocks decode addr len block_fuel fuel = Ret lookup_bbs ->
  NoDup lookup_bbs /\ forall bb, bb ∈ lookup_bbs <-> rtc (bb_succ decode addr len) addr bb.
Proof.
  unfold find_blocks. destruct (process _ _ _ _ _ _) as [[[l seen] stop]| |] eqn:E; [|discriminate 1..]. intros [= <-].
  pose proof (scan_lookup_finds decode addr len block_fuel) as HF.
  destruct (lookup_is_seen decode addr len block_fuel fuel _ _ _ _ _ _ E) as (Hl & Hnd & ->);
    [intros x; by rewrite elem_of_nil, elem_of_empty|constructor|].
  destruct (process_closed true _ (fun _ => True) (bb_succ decode addr len) _ _ _ _ _ _ E) as (_ & Hin & Hcl);
    [done|by intros x t Hx%elem_of_empty|].
  split; [done|]. intros bb. rewrite Hl. split.
  - apply (process_reached true _ (fun _ => True) (bb_succ decode addr len) (rtc (bb_succ decode addr len) addr)
      fuel _ _ _ _ _ _ ltac:(intros x t Hx Ht; by eapply rtc_r) E I); [|by intros x Hx%elem_of_empty].
    intros x ->%list_elem_of_singleton. apply rtc_refl.
  - assert (Hr : forall x y, rtc (bb_succ decode addr len) x y -> x ∈ seen -> y ∈ seen).
    { induction 1 as [|x y z Hxy _ IH]; [done|]. intros Hx. apply IH. by apply (Hcl x). }
    intros Hbb. apply (Hr addr bb Hbb), Hin. left.
Qed.

(** The search for the blocks of a function of finitely many instructions
    ends. *)
Lemma find_blocks_terminates decode addr len (U : gset Z) :
  forward (bb_passes decode) (bb_next decode) U ->
  (forall pc t, pc ∈ U -> bb_branches decode addr len pc t -> t ∈ U) -> addr ∈ U ->
  exists lookup_bbs, find_blocks decode addr len (S (size U)) (3 * size U + 1) = Ret lookup_bbs.
Proof.
  intros Hf Hb Ha. unfold find_blocks. pose proof (scan_lookup_finds decode addr len (S (size U))) as HF.
  destruct (process_returns true (scan_lookup decode addr len (S (size U))) (fun _ => True) (bb_succ decode addr len) U 2
    (3 * size U + 1) [addr] ∅ []) as (r & ->);
    [|done|by intros x ->%list_elem_of_singleton|apply empty_subseteq|rewrite size_empty; cbn [length]; lia|by exists r.1.1].
  split.
  - intros x t Hx (pc & Hpc & Ht). eapply Hb; [|exact Ht]. by eapply on_block_in.
  - intros seen bb s Hbb _. destruct (scan_bb_returns decode addr len U (S (size U)) seen bb [] Hf) as (new & E & Hl);
      [by right|apply le_n_S, from_all|].
    exists (s ++ [bb]), new, false. unfold scan_lookup. rewrite E. split; [done|exact Hl].
Qed.

(** A lookup that also notes the addresses that are looked up. *)
Definition logged {W} (find : W -> Z -> outcome (W * Z)) (w : W * list Z) (a : Z) : outcome (W * list Z * Z) :=
  r ← find w.1 a; Ret (r.1, w.2 ++ [a], r.2).

Lemma find_all_log {W} (find : W -> Z -> outcome (W * Z)) bbs : (forall w a, exists r, find w a = Ret r) ->
  forall w log, exists w', find_all (logged find) bbs (w, log) = Ret (w', log ++ bbs).
Proof.
  intros Ht. induction bbs as [|bb bbs IH]; intros w log; [exists w; by rewrite app_nil_r|].
  destruct (Ht w bb) as [r E].
  assert (El : logged find (w, log) bb = Ret (r.1, log ++ [bb], r.2)) by (unfold logged; cbn [fst snd]; by rewrite E).
  cbn [find_all]. rewrite El. cbn [mbind outcome_bind fst].
  destruct (IH r.1 (log ++ [bb])) as [w' ->]. exists w'. by rewrite <- app_assoc.
Qed.

(** *** The control flow of a function *)
Section Control.
Context (decode : Z -> dins) (addr len : Z).

(** Control goes from the instruction at [pc] to the one at [t], inside of
    the function: behind calls, which return, and other instructions, and
    through direct branches.  Where an indirect jump leads is not known. *)
Definition flows (pc t : Z) : Prop :=
  match di_flow (decode pc) with
  | F_other | F_swapgs | F_call _ => t = di_next (decode pc)
  | F_jmp (Some x) => addr <= x < addr + len /\ t = x
  | F_cbr (Some x) => (addr <= x < addr + len /\ t = x) \/ t = di_next (decode pc)
  | F_return | F_jmp None | F_cbr None => False
  end.

Definition is_branch (pc : Z) : Prop := match di_flow (decode pc) with F_jmp _ | F_cbr _ => True | _ => False end.

(** A block begins at the entry, and where control comes from a branch. *)
Definition block_head (t : Z) : Prop := t = addr \/ exists pc, rtc flows addr pc /\ is_branch pc /\ flows pc t.

(** The function consists of the instructions [U], among which there is no
    indirect jump and no [swapgs]. *)
Record function_code (U : gset Z) : Prop := {
  fn_entry : addr ∈ U;
  fn_flows : forall pc t, pc ∈ U -> flows pc t -> t ∈ U;
  fn_plain : forall pc, pc ∈ U -> pc <> 0 /\ pc < di_next (decode pc) /\
    match di_flow (decode pc) with F_swapgs | F_jmp None | F_cbr None => False | _ => True end
}.

Context (U : gset Z).
Hypothesis Hfn : function_code U.

Lemma passes_flows pc : pc ∈ U -> bb_passes decode pc = true -> flows pc (bb_next decode pc).
Proof.
  intros Hpc. destruct (fn_plain _ Hfn pc Hpc) as (_ & _ & Hp). unfold bb_passes, flows, bb_next.
  by destruct (di_flow (decode pc)) as [| |t|[t|]|[t|]|].
Qed.

Lemma branch_flows pc t : pc ∈ U -> bb_branches decode addr len pc t <-> is_branch pc /\ flows pc t.
Proof.
  intros Hpc. destruct (fn_plain _ Hfn pc Hpc) as (_ & _ & Hp). unfold bb_branches, is_branch, flows, bb_next.
  destruct (di_flow (decode pc)) as [| |x|[x|]|[x|]|]; tauto.
Qed.

Lemma flows_cases pc t : pc ∈ U -> flows pc t ->
  bb_branches decode addr len pc t \/ (bb_passes decode pc = true /\ t = bb_next decode pc).
Proof.
  intros Hpc Ht. destruct (fn_plain _ Hfn pc Hpc) as (_ & _ & Hp). unfold bb_branches, bb_passes, flows, bb_next in *.
  destruct (di_flow (decode pc)) as [| |x|[x|]|[x|]|]; tauto.
Qed.

Lemma flows_in pc : rtc flows addr pc -> pc ∈ U.
Proof.
  intros Hr. assert (K : forall x y, rtc flows x y -> x ∈ U -> y ∈ U).
  { induction 1 as [|x y z Hxy _ IH]; [done|]. intros Hx. by apply IH, (fn_flows _ Hfn x). }
  apply (K addr); [done|apply Hfn].
Qed.

(** The instructions of a block are reached from its head. *)
Lemma on_block_flows bb pc : bb ∈ U -> on_block (bb_passes decode) (bb_next decode) bb pc -> rtc flows bb pc.
Proof.
  intros Hbb Hon. revert Hbb. induction Hon as [bb Hb|bb pc Hb Hp Hon IH]; intros Hbb; [apply rtc_refl|].
  pose proof (passes_flows bb Hbb Hp) as Hf. eapply rtc_l; [exact Hf|]. apply IH. by apply (fn_flows _ Hfn bb).
Qed.

Lemma found_is_head bb : rtc (bb_succ decode addr len) addr bb -> block_head bb /\ rtc flows addr bb.
Proof.
  intros Hr. apply (rtc_ind_r (fun bb => block_head bb /\ rtc flows addr bb) addr) in Hr; [done| |].
  - split; [by left|apply rtc_refl].
  - intros x t _ (pc & Hon & Hbr) [_ Hx]. pose proof (flows_in x Hx) as Hxu.
    assert (Hpc : rtc flows addr pc) by (etrans; [exact Hx|by apply on_block_flows]).
    apply (branch_flows pc t (flows_in pc Hpc)) in Hbr as [Hbr Hf].
    split; [right; by exists pc|]. by eapply rtc_r.
Qed.

Lemma reached_on_block pc : rtc flows addr pc ->
  exists bb, rtc (bb_succ decode addr len) addr bb /\ on_block (bb_passes decode) (bb_next decode) bb pc.
Proof.
  intros Hr. apply (rtc_ind_r (fun pc => rtc flows addr pc /\
    exists bb, rtc (bb_succ decode addr len) addr bb /\ on_block (bb_passes decode) (bb_next decode) bb pc) addr) in Hr;
    [by destruct Hr| |].
  - split; [apply rtc_refl|]. exists addr. split; [apply rtc_refl|]. apply ob_here. by apply (fn_plain _ Hfn), Hfn.
  - intros x t _ Hf [Hx (bb & Hbb & Hon)]. assert (Ht : rtc flows addr t) by (by eapply rtc_r). split; [done|].
    destruct (fn_plain _ Hfn t (flows_in t Ht)) as (Ht0 & _).
    destruct (flows_cases x t (flows_in x Hx) Hf) as [Hbr|[Hp ->]].
    + exists t. split; [eapply rtc_r; [exact Hbb|by exists x]|by apply ob_here].
    + exists bb. split; [done|]. by eapply on_block_next.
Qed.

Lemma head_is_found bb : block_head bb <-> rtc (bb_succ decode addr len) addr bb.
Proof.
  split; [|by intros [? _]%found_is_head]. intros [->|(pc & Hpc & Hbr & Hf)]; [apply rtc_refl|].
  destruct (reached_on_block pc Hpc) as (b & Hb & Hon). eapply rtc_r; [exact Hb|]. exists pc. split; [done|].
  by apply (branch_flows pc bb (flows_in pc Hpc)).
Qed.

Lemma function_forward : forward (bb_passes decode) (bb_next decode) U.
Proof.
  intros pc Hpc Hp. right. destruct (fn_plain _ Hfn pc Hpc) as (_ & Hlt & _). split; [done|].
  by apply (fn_flows _ Hfn pc), passes_flows.
Qed.

Lemma function_branches pc t : pc ∈ U -> bb_branches decode addr len pc t -> t ∈ U.
Proof. intros Hpc [_ Hf]%branch_flows; [|done]. by apply (fn_flows _ Hfn pc). Qed.
End Control.

(** C30 The blocks that are translated when a function is instrumented.  For a
    function of finitely many instructions, without indirect jumps and
    without [swapgs], and a lookup in the code cache that returns, the search
    ends, and the addresses that are looked up are exactly the heads of the
    blocks of the function, that is its entry and the places to which control
    comes from a branch of an instruction that control reaches inside of the
    function, each once; then the function itself is looked up, and the
    result is its instrumented code. *)
Theorem instrument_function_blocks {W} decode addr len (U : gset Z) (find : W -> Z -> outcome (W * Z)) w :
  function_code decode addr len U -> (forall w a, exists r, find w a = Ret r) ->
  exists w1 w2 blocks pc,
    instrument_function decode addr len (logged find) (S (size U)) (3 * size U + 1)%nat (w, []) =
      Ret (w2, blocks ++ [addr], pc) /\
    find w1 addr = Ret (w2, pc) /\
    NoDup blocks /\ forall bb, bb ∈ blocks <-> block_head decode addr len bb.
Proof.
  intros Hfn Ht. destruct (find_blocks_terminates decode addr len U) as [bbs E];
    [by apply (function_forward decode addr len)|by apply function_branches|apply Hfn|].
  destruct (find_blocks_spec _ _ _ _ _ _ E) as [Hnd Hin].
  destruct (find_all_log find (rev bbs) Ht w []) as [w1 E1]. destruct (Ht w1 addr) as [[w2 pc] E2].
  exists w1, w2, (rev bbs), pc. unfold instrument_function. rewrite E. cbn [mbind outcome_bind]. rewrite E1.
  cbn [mbind outcome_bind app]. unfold logged. cbn [fst snd]. rewrite E2. split; [done|]. split; [done|].
  split; [by rewrite <- (Permutation_rev bbs)|]. intros bb. rewrite <- (Permutation_rev bbs), Hin.
  symmetry. by apply (head_is_found decode addr len U).
Qed.

(** ** [duplicate_function]

    Code memory by instruction: what decodes at an address.  Branches to
    relative targets and memory operands relative to the instruction pointer
    hold a displacement from the next instruction, of [w] bits.  [R_cti] is
    an indirect branch or a return; its operand, if it has one and that is
    relative to the instruction pointer, is such a displacement. *)
Inductive raw :=
  | R_invalid
  | R_branch (w size disp : Z)
  | R_cti (size : Z) (operand : option Z)
  | R_rel_mem (size disp : Z)
  | R_other (size : Z) (id : Z).

Definition raw_size (r : raw) : Z :=
  match r with
  | R_invalid => 1
  | R_branch _ n _ | R_cti n _ | R_rel_mem n _ | R_other n _ => n
  end.

(** The address that an instruction at [pc] refers to. *)
Definition refers_to (pc : Z) (r : raw) : option Z :=
  match r with
  | R_branch _ n d | R_rel_mem n d | R_cti n (Some d) => Some (pc + n + d)
  | _ => None
  end.

Definition fits (w d : Z) : bool := (- 2 ^ (w - 1) <=? d) && (d <? 2 ^ (w - 1)).

(** Encoding at [pc]; a displacement out of reach fails. *)
Definition encode_branch (w size target pc : Z) : outcome raw :=
  let d := target - (pc + size) in if fits w d then Ret (R_branch w size d) else Fault.

Definition encode_rel_mem (size target pc : Z) : outcome raw :=
  let d := target - (pc + size) in if fits 32 d then Ret (R_rel_mem size d) else Fault.

Section Duplicate.
Context (addr len new_addr : Z).

(** [memcpy] of the function. *)
Definition copy_function (mem : Z -> raw) : Z -> raw := fun x =>
  if (new_addr <=? x) && (x <? new_addr + len) then mem (addr + (x - new_addr)) else mem x.

Definition put (x : Z) (r : raw) (mem : Z -> raw) : Z -> raw := fun y => if y =? x then r else mem y.

(** Where a branch target is in the copy. *)
Definition redirect (target : Z) : Z :=
  if (addr <=? target) && (target <? addr + len) then new_addr + (target - addr) else target.

Fixpoint dup_loop (fuel : nat) (pc left : Z) (mem : Z -> raw) : outcome (Z -> raw) :=
  if (pc =? 0) || (left <=? 0) then Ret mem
  else match fuel with
  | O => OutOfFuel
  | S fuel =>
      let r := mem pc in
      let new_pc := new_addr + (pc - addr) in
      match r with
      | R_invalid => Ret mem
      | R_branch w n d =>
          r' ← encode_branch w n (redirect (pc + n + d)) new_pc;
          dup_loop fuel (pc + n) (left - n) (put new_pc r' mem)
      | R_rel_mem n d =>
          r' ← encode_rel_mem n (pc + n + d) new_pc;
          dup_loop fuel (pc + n) (left - n) (put new_pc r' mem)
      | R_cti n _ | R_other n _ => dup_loop fuel (pc + n) (left - n) mem
      end
  end.

Definition duplicate_function (fuel : nat) (mem : Z -> raw) : outcome ((Z -> raw) * Z) :=
  mem ← dup_loop fuel addr len (copy_function mem);
  Ret (mem, new_addr).

(** The instructions of the function, from [pc] on, fill it up to its end;
    no code is at address null. *)
Fixpoint tiles (n : nat) (mem : Z -> raw) (pc : Z) : Prop :=
  match n with
  | O => pc = addr + len
  | S n => pc <> 0 /\ mem pc <> R_invalid /\ 0 < raw_size (mem pc) /\ tiles n mem (pc + raw_size (mem pc))
  end.

(** [pc] is the address of one of them. *)
Fixpoint instruction_at (n : nat) (mem : Z -> raw) (pc x : Z) : Prop :=
  match n with
  | O => False
  | S n => x = pc \/ instruction_at n mem (pc + raw_size (mem pc)) x
  end.

(** What the copy of an instruction refers to is in reach. *)
Definition in_reach (pc : Z) (r : raw) : Prop :=
  let new_pc := new_addr + (pc - addr) in
  match r with
  | R_branch w n d => fits w (redirect (pc + n + d) - (new_pc + n)) = true
  | R_rel_mem n d => fits 32 (pc + n + d - (new_pc + n)) = true
  | _ => True
  end.

(** The instruction [r] at [pc] and its copy [r'] at [pc']. *)
Definition relocated (pc : Z) (r : raw) (pc' : Z) (r' : raw) : Prop :=
  raw_size r' = raw_size r /\
  match r with
  | R_branch _ _ _ => refers_to pc' r' = redirect <$> refers_to pc r
  | R_rel_mem _ _ => refers_to pc' r' = refers_to pc r
  | R_cti _ _ => r' = r /\ refers_to pc' r' = (fun a => a + (pc' - pc)) <$> refers_to pc r
  | R_invalid | R_other _ _ => r' = r
  end.

Lemma tiles_end n : forall mem pc, tiles n mem pc -> pc <= addr + len.
Proof.
  induction n as [|n IH]; intros mem pc; cbn [tiles]; [lia|]. intros (_ & _ & Hs & Ht). apply IH in Ht. lia.
Qed.

(** The original code is in place, and its copy from [pc] on. *)
Definition copied (orig mem : Z -> raw) (pc : Z) : Prop :=
  (forall x, x < new_addr \/ new_addr + len <= x -> mem x = orig x) /\
  (forall x, new_addr + (pc - addr) <= x < new_addr + len -> mem x = orig (addr + (x - new_addr))).

Lemma copied_put orig mem pc r n :
  addr <= pc -> 0 < n -> pc + n <= addr + len -> copied orig mem pc ->
  copied orig (put (new_addr + (pc - addr)) r mem) (pc + n) /\ copied orig mem (pc + n).
Proof.
  intros Hpc Hn He [Ho Hc]. split; (split; intros x Hx); unfold put; try (apply Ho; lia); try (apply Hc; lia);
    (destruct (Z.eqb_spec x (new_addr + (pc - addr))); [lia|]); [apply Ho|apply Hc]; lia.
Qed.

(** One turn: the next instruction is rewritten, or left as it was copied. *)
Lemma dup_step orig mem fuel pc left :
  let r := orig pc in
  let new_pc := new_addr + (pc - addr) in
  addr <= pc -> pc <> 0 -> r <> R_invalid -> 0 < raw_size r -> pc + raw_size r <= addr + len -> 0 < left ->
  addr + len <= new_addr \/ new_addr + len <= addr -> copied orig mem pc -> in_reach pc r ->
  exists mem1, dup_loop (S fuel) pc left mem = dup_loop fuel (pc + raw_size r) (left - raw_size r) mem1 /\
    copied orig mem1 (pc + raw_size r) /\ relocated pc r new_pc (mem1 new_pc) /\
    (forall x, x <> new_pc -> mem1 x = mem x).
Proof.
  intros r new_pc Hpc H0 Hi Hs He Hl Hdis Hcp Hr. cbn [dup_loop].
  rewrite (proj2 (Z.eqb_neq pc 0) H0), (proj2 (Z.leb_gt left 0)) by lia. cbn [orb].
  replace (mem pc) with r by (symmetry; apply Hcp; lia).
  assert (Hnew : mem new_pc = r).
  { rewrite (proj2 Hcp) by (unfold new_pc; lia). unfold r. f_equal. unfold new_pc. lia. }
  assert (Hkeep : r <> R_invalid -> (forall w n d, r <> R_branch w n d) -> (forall n d, r <> R_rel_mem n d) -> relocated pc r new_pc (mem new_pc)).
  { intros _ Hb Hm. rewrite Hnew. split; [done|]. destruct r; try done; [by destruct (Hb w size disp)|destruct operand; (split; [done|]); cbn; [f_equal; unfold new_pc; lia|done]|by destruct (Hm size disp)]. }
  assert (Hput : forall r', put new_pc r' mem new_pc = r') by (intros r'; unfold put; by rewrite Z.eqb_refl).
  assert (Hother : forall r' x, x <> new_pc -> put new_pc r' mem x = mem x).
  { intros r' x Hx. unfold put. by rewrite (proj2 (Z.eqb_neq x new_pc) Hx). }
  fold new_pc. destruct r as [|w n d|n o|n d|n id] eqn:Er; [done|..]; cbn [raw_size in_reach] in *.
  - unfold encode_branch. fold new_pc in Hr. rewrite Hr. cbn [mbind outcome_bind]. eexists. split; [reflexivity|].
    split; [apply (copied_put orig mem pc _ n); done|]. split; [|apply Hother]. rewrite Hput. split; [done|]. cbn. f_equal. lia.
  - exists mem. split; [done|]. split; [apply (copied_put orig mem pc R_invalid n); done|]. split; [by apply Hkeep|done].
  - unfold encode_rel_mem. fold new_pc in Hr. rewrite Hr. cbn [mbind outcome_bind]. eexists. split; [reflexivity|].
    split; [apply (copied_put orig mem pc _ n); done|]. split; [|apply Hother]. rewrite Hput. split; [done|]. cbn. f_equal. lia.
  - exists mem. split; [done|]. split; [apply (copied_put orig mem pc R_invalid n); done|]. split; [by apply Hkeep|done].
Qed.

Lemma dup_loop_spec (orig : Z -> raw) n : forall fuel pc left mem,
  (n <= fuel)%nat -> left = addr + len - pc -> addr <= pc ->
  (addr + len <= new_addr \/ new_addr + len <= addr) -> copied orig mem pc ->
  tiles n orig pc -> (forall x, instruction_at n orig pc x -> in_reach x (orig x)) ->
  exists mem', dup_loop fuel pc left mem = Ret mem' /\
    (forall x, instruction_at n orig pc x -> relocated x (orig x) (new_addr + (x - addr)) (mem' (new_addr + (x - addr)))) /\
    (forall x, x < new_addr + (pc - addr) \/ new_addr + len <= x -> mem' x = mem x).
Proof.
  induction n as [|n IH]; intros fuel pc left mem Hf Hl Hpc Hdis Hcp Ht Hr; cbn [tiles instruction_at] in *.
  - exists mem. subst pc left. replace (addr + len - (addr + len)) with 0 by lia.
    split; [destruct fuel; cbn [dup_loop]; by rewrite orb_true_r|]. split; done.
  - destruct Ht as (H0 & Hi & Hs & Ht). destruct fuel as [|fuel]; [lia|]. pose proof (tiles_end _ _ _ Ht) as Hend.
    destruct (dup_step orig mem fuel pc left) as (mem1 & -> & Hcp1 & Hrel & Hsame); try done; [lia|by apply Hr; left|].
    destruct (IH fuel (pc + raw_size (orig pc)) (left - raw_size (orig pc)) mem1) as (mem' & -> & Hrel' & Hsame');
      try done; try lia; [by intros x Hx; apply Hr; right|].
    exists mem'. split; [done|]. split.
    + intros x [->|Hx]; [|by apply Hrel']. rewrite Hsame' by lia. exact Hrel.
    + intros x Hx. rewrite Hsame' by lia. apply Hsame. lia.
Qed.
End Duplicate.

(** C31 The copy of a function.  When every branch and relative operand of the
    function is in reach of its place in the copy, the instructions of the
    function are copied one for one: a branch of the copy leads to the place
    in the copy that corresponds to its target, or to the target itself if
    that is outside of the function; a memory operand relative to the
    instruction pointer refers to the same address, except for that of an
    indirect branch, which is copied as it is and so refers to an address that
    is off by the distance to the copy; every other instruction is unchanged,
    and so is all code outside of the copy. *)
Theorem duplicate_function_relocates addr len new_addr mem n fuel :
  (n <= fuel)%nat -> 0 < len -> addr + len <= new_addr \/ new_addr + len <= addr ->
  tiles addr len n mem addr -> (forall x, instruction_at n mem addr x -> in_reach addr len new_addr x (mem x)) ->
  exists mem', duplicate_function addr len new_addr fuel mem = Ret (mem', new_addr) /\
    (forall x, instruction_at n mem addr x ->
      relocated addr len new_addr x (mem x) (new_addr + (x - addr)) (mem' (new_addr + (x - addr)))) /\
    (forall x, x < new_addr \/ new_addr + len <= x -> mem' x = mem x).
Proof.
  intros Hf Hlen Hdis Ht Hr. unfold duplicate_function.
  assert (Hout : forall x, x < new_addr \/ new_addr + len <= x -> copy_function addr len new_addr mem x = mem x).
  { intros x Hx. unfold copy_function. destruct (Z.leb_spec new_addr x), (Z.ltb_spec x (new_addr + len)); done || lia. }
  destruct (dup_loop_spec addr len new_addr mem n fuel addr len (copy_function addr len new_addr mem))
    as (mem' & -> & Hrel & Hsame); try done; try lia.
  { split; [done|]. intros x Hx. unfold copy_function.
    destruct (Z.leb_spec new_addr x), (Z.ltb_spec x (new_addr + len)); done || lia. }
  exists mem'. split; [done|]. split; [done|]. intros x Hx. rewrite Hsame, Hout by lia. done.
Qed.

(** ** [redirect_function]

    Memory by aligned words.  The word that is written holds the encoding of
    a jump with a displacement of 32 bits and a breakpoint behind it; it is
    written by one store. *)
Definition OPCODE_JMP : Z := 0xE9.
Definition OPCODE_INT3 : Z := 0xCC.

Definition hotpatch_word (disp : Z) : Z :=
  set_field 40 8 OPCODE_INT3 (set_field 8 32 (u32 disp) (set_field 0 8 OPCODE_JMP 0)).

Definition redirect_function (old_address new_address : Z) (words : Z -> Z) : outcome (Z -> Z) :=
  ASSERT (old_address mod 8 =? 0) ≫= fun _ =>
  let disp := new_address - (old_address + 5) in
  if fits 32 disp then Ret (fun x => if x =? old_address then hotpatch_word disp else words x) else Fault.

(** What the processor sees at an address: a jump. *)
Definition sext32 (z : Z) : Z := if Z.testbit z 31 then z - 2 ^ 32 else z.

Definition decode_jmp (pc word : Z) : option Z :=
  if get_field 0 8 word =? OPCODE_JMP then Some (pc + 5 + sext32 (get_field 8 32 word)) else None.

Lemma sext32_u32 d : fits 32 d = true -> sext32 (u32 d) = d.
Proof.
  unfold fits, sext32. intros [H1%Z.leb_le H2%Z.ltb_lt]%andb_prop. cbn in H1, H2.
  destruct (Z.lt_ge_cases d 0).
  - assert (E : u32 d = d + 2 ^ 32).
    { unfold wrap. symmetry. apply Z.mod_unique with (-1); lia. }
    rewrite E. replace (Z.testbit (d + 2 ^ 32) 31) with true; [lia|]. symmetry. apply Z.testbit_true; [lia|].
    replace ((d + 2 ^ 32) / 2 ^ 31) with 1; [done|]. apply Z.div_unique with (d + 2 ^ 31); lia.
  - rewrite wrap_small by lia. replace (Z.testbit d 31) with false; [done|]. symmetry. apply Z.testbit_false; [lia|].
    rewrite Z.div_small by lia. done.
Qed.

(** Redirecting a function replaces the word at its address, and nothing
    else, by a jump to the new address with a breakpoint behind it, if the new
    address is in reach; an address that is not aligned or out of reach is
    refused. *)
Theorem redirect_function_jumps old_address new_address words :
  (old_address mod 8 = 0 -> fits 32 (new_address - (old_address + 5)) = true ->
   exists words', redirect_function old_address new_address words = Ret words' /\
     decode_jmp old_address (words' old_address) = Some new_address /\
     get_field 40 8 (words' old_address) = OPCODE_INT3 /\ forall x, x <> old_address -> words' x = words x) /\
  (old_address mod 8 <> 0 \/ fits 32 (new_address - (old_address + 5)) = false ->
   redirect_function old_address new_address words = Fault).
Proof.
  unfold redirect_function. split.
  - intros Ha Hf. rewrite (proj2 (Z.eqb_eq _ 0) Ha), Hf. cbn [ASSERT mbind outcome_bind]. eexists. split; [reflexivity|].
    cbn beta. rewrite Z.eqb_refl. unfold decode_jmp, hotpatch_word.
    rewrite (get_set_field_other 0 8 40), (get_set_field_other 0 8 8), get_set_field_same by lia.
    change (wrap 8 OPCODE_JMP =? OPCODE_JMP) with true. cbn iota.
    rewrite (get_set_field_other 8 32 40), (get_set_field_same 8 32), wrap_wrap, sext32_u32 by (done || lia).
    split; [f_equal; lia|]. split; [by rewrite get_set_field_same by lia|].
    intros x Hx. by rewrite (proj2 (Z.eqb_neq x old_address) Hx).
  - intros [Ha|Hf]; [by rewrite (proj2 (Z.eqb_neq _ 0) Ha)|]. rewrite Hf. by destruct (_ =? 0).
Qed.

(** ** Witnesses *)
Lemma instrument_function_blocks_witness :
  exists w, instrument_function call_decode 0x10 0x20 (logged (fun w a => Ret (w + 1, a + 0x1000))) 7 19 (0, []) =
      Ret (w, [0x18; 0x15; 0x10; 0x10], 0x1010) /\
    block_head call_decode 0x10 0x20 0x15.
Proof.
  destruct (instrument_function_blocks call_decode 0x10 0x20 call_pcs (fun w a => Ret (w + 1, a + 0x1000)) 0)
    as (w1 & w2 & blocks & pc & E & _ & _ & H).
  - constructor.
    + apply (bool_decide_unpack _). vm_compute. exact I.
    + intros pc t Hpc Ht. unfold call_pcs in Hpc. rewrite !elem_of_union, !elem_of_singleton in Hpc.
      destruct Hpc as [[[[[->| ->]| ->]| ->]| ->]| ->]; cbn in Ht; try done;
        first [subst t|destruct Ht as [[_ ->]| ->]]; apply (bool_decide_unpack _); vm_compute; exact I.
    + intros pc Hpc. unfold call_pcs in Hpc. rewrite !elem_of_union, !elem_of_singleton in Hpc.
      destruct Hpc as [[[[[->| ->]| ->]| ->]| ->]| ->]; (split; [discriminate|]); (split; [reflexivity|exact I]).
  - intros w a. eexists. reflexivity.
  - change (size call_pcs) with 6%nat in E. exists 4. split; [vm_compute; reflexivity|]. apply H.
    assert (E' : blocks ++ [0x10] = [0x18; 0x15; 0x10; 0x10]).
    { vm_compute in E. injection E as _ E _. symmetry. exact E. }
    change [0x18; 0x15; 0x10; 0x10] with ([0x18; 0x15; 0x10] ++ [0x10]) in E'. apply app_inj_2 in E' as [-> _]; [|reflexivity].
    right. left.
Defined.

(** [jmp 0x16; mov data(%rip); 0x16: ret]. *)
Definition small_function (pc : Z) : raw :=
  if pc =? 0x10 then R_branch 8 2 4 else if pc =? 0x12 then R_rel_mem 4 0x500 else if pc =? 0x16 then R_cti 1 None else R_invalid.

Lemma duplicate_function_relocates_witness :
  exists mem', duplicate_function 0x10 7 0x1000 3 small_function = Ret (mem', 0x1000) /\
    refers_to 0x1000 (mem' 0x1000) = Some 0x1006 /\ refers_to 0x1002 (mem' 0x1002) = Some 0x516.
Proof.
  destruct (duplicate_function_relocates 0x10 7 0x1000 small_function 3 3) as (mem' & E & H & _).
  - lia.
  - lia.
  - lia.
  - cbn. repeat split; discriminate.
  - intros x [->|[->|[->|[]]]]; reflexivity.
  - exists mem'. split; [exact E|].
    destruct (H 0x10 (or_introl eq_refl)) as [_ H1]. destruct (H 0x12 (or_intror (or_introl eq_refl))) as [_ H2].
    split; [exact H1|exact H2].
Defined.

Lemma redirect_function_jumps_witness :
  exists words', redirect_function 0x10000 0xF000 (fun _ => 0) = Ret words' /\ words' 0x10000 = 0xCCFFFFEFFBE9.
Proof.
  destruct (proj1 (redirect_function_jumps 0x10000 0xF000 (fun _ => 0)) eq_refl eq_refl) as (words' & E & _).
  exists words'. split; [exact E|]. injection E as <-. reflexivity.
Defined.
