(* ===== verification/Machine.v ===== *)
(** * The instructions Granary emits, and what they do

    Granary generates code: interrupt entry points, stubs, exits from the
    code cache.  This file has the instruction forms that the generators of
    [granary/emit_utils.cc], [granary/ibl.cc], [granary/mangle.cc] and
    [kernel/interrupt.cc] build
    (the constructors carry the names of the functions of
    [granary/instruction.h] that create them), and an interpreter for them on
    a machine with sixteen 64-bit registers, the flags register and
    byte-addressed memory, as the architecture manual defines them.

    Lists of instructions are run from the front; a jump to a label continues
    after the label; control that leaves the list (a jump to an address, a
    return, an interrupt return, a call to code that does not return here) is
    the result of the run.  The lemmas are the ones that make symbolic
    execution go: reading after writing, and pushing and popping. *)

From Stdlib Require Import ZArith Lia.
From stdpp Require Import base numbers list option.
From S2P Require Import Prelude.

(** ** Machine states *)
Inductive reg :=
  | rax | rcx | rdx | rbx | rsp | rbp | rsi | rdi
  | r8 | r9 | r10 | r11 | r12 | r13 | r14 | r15.

#[export] Instance reg_eq_dec : EqDecision reg.
Proof. solve_decision. Defined.

Definition reg_id (r : reg) : Z :=
  match r with
  | rax => 1 | rcx => 2 | rdx => 3 | rbx => 4 | rsp => 5 | rbp => 6 | rsi => 7 | rdi => 8
  | r8 => 9 | r9 => 10 | r10 => 11 | r11 => 12 | r12 => 13 | r13 => 14 | r14 => 15 | r15 => 16
  end.

Definition reg_eqb (x y : reg) : bool := reg_id x =? reg_id y.

Record mach := {
  regs : reg -> Z;
  mem : Z -> Z;
  flags : Z
}.

(** Bits of the flags register. *)
Definition CF : Z := 0.
Definition PF : Z := 2.
Definition AF : Z := 4.
Definition ZF : Z := 6.
Definition SF : Z := 7.
Definition IF : Z := 9.
Definition OF : Z := 11.

Definition set_reg (r : reg) (v : Z) (m : mach) : mach :=
  {| regs := fun x => if reg_eqb x r then v else regs m x; mem := mem m; flags := flags m |}.

Definition set_mem (f : Z -> Z) (m : mach) : mach :=
  {| regs := regs m; mem := f; flags := flags m |}.

Definition set_flags (f : Z) (m : mach) : mach :=
  {| regs := regs m; mem := mem m; flags := f |}.

(** Eight bytes, the lowest first, at addresses modulo [2^64]. *)
Fixpoint read_bytes (n : nat) (f : Z -> Z) (a : Z) : Z :=
  match n with
  | O => 0
  | S n => Z.lor (f (u64 a)) (Z.shiftl (read_bytes n f (a + 1)) 8)
  end.

Definition read64 (f : Z -> Z) (a : Z) : Z := read_bytes 8 f a.

Definition write64 (f : Z -> Z) (a v : Z) : Z -> Z := fun x =>
  let o := u64 (x - a) in
  if o <? 8 then get_field (8 * o) 8 v else f x.

(** ** Instructions *)
Inductive operand :=
  | OReg (r : reg)
  | OMem (base : reg) (disp : Z)
  | OAbs (addr : Z)
  | OImm (v : Z).

(** Where a control transfer goes: an address, or a label of the list. *)
Inductive target :=
  | pc_ (addr : Z)
  | instr_ (label : nat).

Inductive instr :=
  | label_ (l : nat)
  | push_ (o : operand)
  | pop_ (r : reg)
  | pop_mem_ (o : operand)
  | mov_imm_ (r : reg) (v : Z)
  | mov_ld_ (r : reg) (o : operand)
  | mov_st_ (o : operand) (r : reg)
  | lea_ (r : reg) (base : reg) (disp : Z)
  | lea_sib_ (r : reg) (base index : reg) (scale : Z)
  | lea_pc_ (r : reg) (addr : Z)
  | lea_bd_ (r : reg) (base index : option reg) (scale disp : Z)
  | xchg_ (o : operand) (r : reg)
  | bswap_ (r : reg)
  | shl_ (r : reg) (n : Z)
  | shr_ (r : reg) (n : Z)
  | cmovz_ (r s : reg)
  | and_ (o s : operand)
  | or_ (o s : operand)
  | xor_ (o s : operand)
  | xor_32 (r s : reg)
  | and_16 (r : reg) (v : Z)
  | or_16 (r : reg) (v : Z)
  | cmp_ (o s : operand)
  | cmp_32 (r s : reg)
  | bt_ (r : reg) (n : Z)
  | setb_ (r : reg)
  | mov_imm16_ (r : reg) (v : Z)
  | mov_16_ (r s : reg)
  | movzx_8_ (r s : reg)
  | xlat_
  | lahf_
  | sahf_
  | pushf_
  | popf_
  | cli_
  | jmp_ (t : target)
  | jz_ (l : nat)
  | jnz_ (l : nat)
  | jl_ (l : nat)
  | jb_ (l : nat)
  | jnb_ (l : nat)
  | jmp_ind_ (o : operand)
  | call_ (t : Z)
  | call_instr_ (l : nat) (ra : Z)
  | call_ind_ (o : operand)
  | ret_
  | ret_imm_ (n : Z)
  | iret_
  | native_ (id : Z).

(** How control leaves a list. *)
Inductive exit :=
  | ToPc (addr : Z)
  | Iret
  | Fell.

(** ** Semantics *)
Definition ea (m : mach) (base : reg) (disp : Z) : Z := u64 (regs m base + disp).

(** The same with an index register and a scale; either register can be
    missing. *)
Definition ea_bd (m : mach) (base index : option reg) (scale disp : Z) : Z :=
  let r o := match o with Some x => regs m x | None => 0 end in
  u64 (r base + r index * scale + disp).

Definition get_op (m : mach) (o : operand) : Z :=
  match o with
  | OReg r => regs m r
  | OMem b d => read64 (mem m) (ea m b d)
  | OAbs a => read64 (mem m) a
  | OImm v => u64 v
  end.

Definition set_op (m : mach) (o : operand) (v : Z) : mach :=
  match o with
  | OReg r => set_reg r v m
  | OMem b d => set_mem (write64 (mem m) (ea m b d) v) m
  | OAbs a => set_mem (write64 (mem m) a v) m
  | OImm _ => m
  end.

Definition push (v : Z) (m : mach) : mach :=
  let sp := u64 (regs m rsp - 8) in
  set_reg rsp sp (set_mem (write64 (mem m) sp v) m).

(** The value on top of the stack, and the machine without it. *)
Definition top (m : mach) : Z := read64 (mem m) (regs m rsp).
Definition drop_top (n : Z) (m : mach) : mach := set_reg rsp (u64 (regs m rsp + n)) m.

Definition parity_even (v : Z) : bool :=
  negb (foldr xorb false (map (Z.testbit v) [0; 1; 2; 3; 4; 5; 6; 7])).

(** The arithmetic flags of a [w]-bit result. *)
Definition result_flags (w res : Z) (carry overflow aux : bool) (f : Z) : Z :=
  set_flag CF carry (set_flag PF (parity_even res) (set_flag AF aux
    (set_flag ZF (res =? 0) (set_flag SF (Z.testbit res (w - 1)) (set_flag OF overflow f))))).

Definition logic (op : Z -> Z -> Z) (o s : operand) (m : mach) : mach :=
  let res := op (get_op m o) (get_op m s) in
  set_flags (result_flags 64 res false false false (flags m)) (set_op m o res).

(** The same on the low 16 bits of a register. *)
Definition logic16 (op : Z -> Z -> Z) (r : reg) (v : Z) (m : mach) : mach :=
  let res := u16 (op (u16 (regs m r)) (u16 v)) in
  set_flags (result_flags 16 res false false false (flags m))
    (set_reg r (set_field 0 16 res (regs m r)) m).

(** Comparison at width [w]. *)
Definition compare (w a b : Z) (m : mach) : mach :=
  let a := wrap w a in let b := wrap w b in
  let res := wrap w (a - b) in
  let sa := Z.testbit a (w - 1) in let sb := Z.testbit b (w - 1) in
  set_flags (result_flags w res (a <? b)
    (xorb sa sb && xorb sa (Z.testbit res (w - 1))) (wrap 4 a <? wrap 4 b) (flags m)) m.

(** The low [n] bytes in reverse order. *)
Fixpoint bswap (n : nat) (v : Z) : Z :=
  match n with
  | O => 0
  | S n => Z.lor (Z.shiftl (u8 v) (8 * Z.of_nat n)) (bswap n (Z.shiftr v 8))
  end.
Definition bswap64 : Z -> Z := bswap 8.
Definition bswap16 : Z -> Z := bswap 2.

(** [al := byte at rbx + al]. *)
Definition xlat (m : mach) : mach :=
  set_reg rax (set_field 0 8 (mem m (u64 (regs m rbx + u8 (regs m rax)))) (regs m rax)) m.

(** [ah] holds SF, ZF, AF, PF and CF, with bit 1 set; [sahf] loads them. *)
Definition AH_MASK : Z := 0xD5.
Definition lahf (m : mach) : mach :=
  set_reg rax (set_field 8 8 (Z.lor (Z.land (flags m) AH_MASK) 2) (regs m rax)) m.
Definition sahf (m : mach) : mach :=
  set_flags (Z.lor (Z.ldiff (flags m) AH_MASK) (Z.land (get_field 8 8 (regs m rax)) AH_MASK)) m.

(** The instructions after label [l]. *)
Fixpoint find_label (l : nat) (code : list instr) : option (list instr) :=
  match code with
  | [] => None
  | label_ l' :: code => if decide (l = l') then Some code else find_label l code
  | _ :: code => find_label l code
  end.

(** [bt] is taken to change CF alone, as the processors do; the manual leaves
    OF, SF, AF and PF undefined.

    The effect of an instruction: go on, branch, call an address, or leave. *)
Inductive effect :=
  | Next (m : mach)
  | Branch (l : nat) (m : mach)
  | Call (addr : Z) (m : mach)
  | Leave (e : exit) (m : mach).

Definition native_sem := Z -> mach -> mach.
Definition no_native : native_sem := fun _ m => m.

(** [nat_sem] is what the native instructions that a generator copies do. *)
Definition exec1 (nat_sem : native_sem) (i : instr) (m : mach) : effect :=
  match i with
  | label_ _ => Next m
  | push_ o => Next (push (get_op m o) m)
  | pop_ r => Next (set_reg r (top m) (drop_top 8 m))
  | pop_mem_ o => Next (set_op (drop_top 8 m) o (top m))
  | mov_imm_ r v => Next (set_reg r (u64 v) m)
  | mov_ld_ r o => Next (set_reg r (get_op m o) m)
  | mov_st_ o r => Next (set_op m o (regs m r))
  | lea_ r b d => Next (set_reg r (ea m b d) m)
  | lea_sib_ r b i k => Next (set_reg r (u64 (regs m b + regs m i * k)) m)
  | lea_pc_ r a => Next (set_reg r (u64 a) m)
  | lea_bd_ r b i k d => Next (set_reg r (ea_bd m b i k d) m)
  | xchg_ o r => Next (set_reg r (get_op m o) (set_op m o (regs m r)))
  | bswap_ r => Next (set_reg r (bswap64 (regs m r)) m)
  | shl_ r n =>
      let v := regs m r in let res := u64 (Z.shiftl v n) in
      Next (set_flags (result_flags 64 res (Z.testbit v (64 - n)) false false (flags m)) (set_reg r res m))
  | shr_ r n =>
      let v := regs m r in let res := Z.shiftr v n in
      Next (set_flags (result_flags 64 res (Z.testbit v (n - 1)) false false (flags m)) (set_reg r res m))
  | cmovz_ r s => Next (if get_flag ZF (flags m) then set_reg r (regs m s) m else m)
  | and_ o s => Next (logic Z.land o s m)
  | or_ o s => Next (logic Z.lor o s m)
  | xor_ o s => Next (logic Z.lxor o s m)
  | and_16 r v => Next (logic16 Z.land r v m)
  | or_16 r v => Next (logic16 Z.lor r v m)
  | cmp_ o s => Next (compare 64 (get_op m o) (get_op m s) m)
  | xor_32 r s =>
      let res := Z.lxor (u32 (regs m r)) (u32 (regs m s)) in
      Next (set_flags (result_flags 32 res false false false (flags m)) (set_reg r res m))
  | cmp_32 r s => Next (compare 32 (regs m r) (regs m s) m)
  | bt_ r n => Next (set_flags (set_flag CF (Z.testbit (regs m r) n) (flags m)) m)
  | setb_ r => Next (set_reg r (set_field 0 8 (Z.b2z (get_flag CF (flags m))) (regs m r)) m)
  | mov_imm16_ r v => Next (set_reg r (set_field 0 16 (u16 v) (regs m r)) m)
  | mov_16_ r s => Next (set_reg r (set_field 0 16 (u16 (regs m s)) (regs m r)) m)
  | movzx_8_ r s => Next (set_reg r (u8 (regs m s)) m)
  | xlat_ => Next (xlat m)
  | lahf_ => Next (lahf m)
  | sahf_ => Next (sahf m)
  | pushf_ => Next (push (flags m) m)
  | popf_ => Next (set_flags (top m) (drop_top 8 m))
  | cli_ => Next (set_flags (set_flag IF false (flags m)) m)
  | jmp_ (pc_ a) => Leave (ToPc a) m
  | jmp_ (instr_ l) => Branch l m
  | jz_ l => if get_flag ZF (flags m) then Branch l m else Next m
  | jnz_ l => if get_flag ZF (flags m) then Next m else Branch l m
  | jl_ l => if xorb (get_flag SF (flags m)) (get_flag OF (flags m)) then Branch l m else Next m
  | jb_ l => if get_flag CF (flags m) then Branch l m else Next m
  | jnb_ l => if get_flag CF (flags m) then Next m else Branch l m
  | jmp_ind_ o => Leave (ToPc (get_op m o)) m
  | call_ a => Call a m
  | call_instr_ l ra => Branch l (push ra m)
  | call_ind_ o => Call (get_op m o) m
  | ret_ => Leave (ToPc (top m)) (drop_top 8 m)
  | ret_imm_ n => Leave (ToPc (top m)) (drop_top (8 + n) m)
  | iret_ => Leave Iret m
  | native_ id => Next (nat_sem id m)
  end.

(** [callee a m]: what a call of the code at [a] does: it returns to the
    instruction after the call, with the return address popped again
    ([None]), or control ends up somewhere else. *)
Definition callee_sem := Z -> mach -> outcome (option exit * mach).

(** Run [rest], a suffix of the code; [go] branches to a label of it. *)
Fixpoint run_from (go : nat -> mach -> outcome (exit * mach)) (nat_sem : native_sem)
    (callee : callee_sem) (rest : list instr) (m : mach) : outcome (exit * mach) :=
  match rest with
  | [] => Ret (Fell, m)
  | i :: rest =>
      match exec1 nat_sem i m with
      | Next m => run_from go nat_sem callee rest m
      | Branch l m => go l m
      | Call a m =>
          r ← callee a m;
          match fst r with
          | None => run_from go nat_sem callee rest (snd r)
          | Some e => Ret (e, snd r)
          end
      | Leave e m => Ret (e, m)
      end
  end.

(** The fuel is spent by branches only. *)
Fixpoint branch (fuel : nat) (nat_sem : native_sem) (callee : callee_sem) (code : list instr)
    (l : nat) (m : mach) : outcome (exit * mach) :=
  match fuel with
  | O => OutOfFuel
  | S fuel =>
      match find_label l code with
      | None => Fault
      | Some rest => run_from (branch fuel nat_sem callee code) nat_sem callee rest m
      end
  end.

Definition run (fuel : nat) (nat_sem : native_sem) (callee : callee_sem) (code : list instr)
    (m : mach) : outcome (exit * mach) :=
  run_from (branch fuel nat_sem callee code) nat_sem callee code m.

(** A call of the generated [code], with return address [ra]. *)
Definition call_code (fuel : nat) (nat_sem : native_sem) (callee : callee_sem)
    (code : list instr) (ra : Z) (m : mach) : outcome (option exit * mach) :=
  r ← run fuel nat_sem callee code (push ra m);
  match fst r with
  | ToPc a => Ret (if a =? ra then None else Some (ToPc a), snd r)
  | e => Ret (Some e, snd r)
  end.

(** Symbolic execution leaves the operations on words alone. *)
#[global] Strategy 1000 [wrap bswap64 bswap16 set_field get_field result_flags read64 write64
  set_flag get_flag Z.land Z.lor Z.lxor Z.shiftl Z.shiftr Z.mul Z.add Z.sub Z.modulo].

#[global] Arguments read64 : simpl never.
#[global] Arguments write64 : simpl never.
#[global] Arguments wrap : simpl never.
#[global] Arguments set_field : simpl never.
#[global] Arguments get_field : simpl never.
#[global] Arguments set_flag : simpl never.
#[global] Arguments get_flag : simpl never.
#[global] Arguments result_flags : simpl never.
#[global] Arguments bswap64 : simpl never.
#[global] Arguments bswap16 : simpl never.

(** ** Lemmas: memory *)
Lemma read_bytes_ext n f g a :
  (forall i, 0 <= i < Z.of_nat n -> f (u64 (a + i)) = g (u64 (a + i))) ->
  read_bytes n f a = read_bytes n g a.
Proof.
  revert a. induction n as [|n IH]; intros a H; [done|]. cbn [read_bytes].
  rewrite <- (Z.add_0_r a) at 1 3. rewrite (H 0) by lia. f_equal. f_equal. apply IH.
  intros i Hi. replace (a + 1 + i) with (a + (1 + i)) by lia. apply H. lia.
Qed.

(** The bytes of [v] from bit [8 * k] on. *)
Lemma read_bytes_field n v : forall a k, 0 <= k ->
  read_bytes n (fun x => get_field (8 * (u64 (x - a))) 8 v) (a + k) =
    get_field (8 * k) (8 * Z.of_nat n) v \/ 2 ^ 64 < k + Z.of_nat n.
Proof.
  induction n as [|n IH]; intros a k Hk.
  - left. cbn. symmetry. apply Z.bits_inj'. intros i Hi. rewrite testbit_get_field, Z.bits_0 by lia. zb.
  - destruct (Z.lt_ge_cases (2 ^ 64) (k + Z.of_nat (S n))); [now right|left]. cbn [read_bytes].
    replace (a + k + 1) with (a + (k + 1)) by lia.
    destruct (IH a (k + 1) ltac:(lia)) as [->|]; [|lia].
    replace (u64 (u64 (a + k) - a)) with k.
    2: { unfold wrap. rewrite Zminus_mod_idemp_l. replace (a + k - a) with k by lia.
         symmetry. apply Z.mod_small. lia. }
    rewrite Nat2Z.inj_succ. bitwise i Hi.
    destruct (Z.ltb_spec i 8); cbn [andb orb].
    + rewrite (proj2 (Z.leb_gt 8 i)) by lia. cbn. rewrite orb_false_r.
      rewrite (proj2 (Z.ltb_lt i _)) by lia. reflexivity.
    + rewrite (proj2 (Z.leb_le 8 i)) by lia. cbn. rewrite testbit_get_field by lia.
      replace (i - 8 + 8 * (k + 1)) with (i + 8 * k) by lia. zb.
Qed.

Lemma read64_write64_same f a v : 0 <= v < 2 ^ 64 -> read64 (write64 f a v) a = v.
Proof.
  intros Hv. unfold read64. rewrite (read_bytes_ext 8 _ (fun x => get_field (8 * (u64 (x - a))) 8 v)).
  - destruct (read_bytes_field 8 v a 0 ltac:(lia)) as [H|]; [|lia].
    rewrite Z.add_0_r in H. rewrite H. change (8 * 0) with 0. rewrite get_field_0_wrap by lia.
    now apply wrap_small.
  - intros i Hi. unfold write64. unfold wrap. rewrite Zminus_mod_idemp_l.
    replace (a + i - a) with i by lia. rewrite (Z.mod_small i) by lia.
    rewrite (proj2 (Z.ltb_lt i 8)) by lia. reflexivity.
Qed.

(** Words of memory that do not overlap, and do not wrap around. *)
Definition word_at (a : Z) : Prop := 0 <= a /\ a + 8 <= 2 ^ 64.

Lemma write64_other f a v x :
  word_at a -> 0 <= x < 2 ^ 64 -> x < a \/ a + 8 <= x -> write64 f a v x = f x.
Proof.
  intros [Ha1 Ha2] Hx Hd. unfold write64. rewrite (proj2 (Z.ltb_ge _ 8)); [done|].
  destruct Hd as [Hd|Hd].
  - unfold wrap. rewrite <- (Z_mod_plus_full (x - a) 1), Z.mod_small by lia. lia.
  - rewrite wrap_small by lia. lia.
Qed.

Lemma read64_ext f g a :
  word_at a -> (forall x, a <= x < a + 8 -> f x = g x) -> read64 f a = read64 g a.
Proof.
  intros [Ha1 Ha2] H. apply read_bytes_ext. intros i Hi. rewrite wrap_small by lia. apply H. lia.
Qed.

Lemma read64_write64_other f a v b :
  word_at a -> word_at b -> b + 8 <= a \/ a + 8 <= b -> read64 (write64 f a v) b = read64 f b.
Proof.
  intros Ha Hb Hd. apply read64_ext; [done|]. intros x Hx.
  destruct Ha, Hb. apply write64_other; [done|lia|lia].
Qed.

(** ** Lemmas: registers *)
Lemma reg_eqb_spec x y : reflect (x = y) (reg_eqb x y).
Proof. destruct x, y; constructor; congruence. Qed.

Lemma regs_set_same r v m : regs (set_reg r v m) r = v.
Proof. cbn. destruct (reg_eqb_spec r r); congruence. Qed.

Lemma regs_set_other r v m x : x <> r -> regs (set_reg r v m) x = regs m x.
Proof. intros. cbn. destruct (reg_eqb_spec x r); congruence. Qed.

Lemma regs_set_mem f m : regs (set_mem f m) = regs m.
Proof. done. Qed.

Lemma reg_id_range r : 1 <= reg_id r <= 16.
Proof. destruct r; cbn; lia. Qed.

(** Machines whose registers hold 64-bit values. *)
Definition wf_regs (m : mach) : Prop := forall r, in_width 64 (regs m r).

(** ** Lemmas: straight-line code *)
Fixpoint exec_list (nat_sem : native_sem) (l : list instr) (m : mach) : option mach :=
  match l with
  | [] => Some m
  | i :: l =>
      match exec1 nat_sem i m with
      | Next m => exec_list nat_sem l m
      | _ => None
      end
  end.

Lemma exec_list_app ns l1 l2 m :
  exec_list ns (l1 ++ l2) m = m' ← exec_list ns l1 m; exec_list ns l2 m'.
Proof.
  revert m. induction l1 as [|i l1 IH]; intros m; [done|]. cbn [exec_list app].
  destruct (exec1 ns i m); [apply IH|done..].
Qed.

Lemma run_from_straight go ns cl l rest m m' :
  exec_list ns l m = Some m' -> run_from go ns cl (l ++ rest) m = run_from go ns cl rest m'.
Proof.
  revert m. induction l as [|i l IH]; intros m H; cbn [exec_list] in H.
  - now injection H as ->.
  - cbn [app run_from]. destruct (exec1 ns i m); [now apply IH|done..].
Qed.

(** Pushing and popping. *)
Lemma exec_push ns r m :
  8 <= regs m rsp < 2 ^ 64 ->
  exec1 ns (push_ (OReg r)) m =
    Next (set_reg rsp (regs m rsp - 8) (set_mem (write64 (mem m) (regs m rsp - 8) (regs m r)) m)).
Proof. intros. cbn [exec1 get_op]. unfold push. now rewrite wrap_small by lia. Qed.

Lemma exec_pop ns r m :
  0 <= regs m rsp -> regs m rsp + 8 < 2 ^ 64 ->
  exec1 ns (pop_ r) m =
    Next (set_reg r (read64 (mem m) (regs m rsp)) (set_reg rsp (regs m rsp + 8) m)).
Proof. intros. cbn [exec1]. unfold top, drop_top. now rewrite wrap_small by lia. Qed.

(** Whatever happens in between, registers that were pushed come back when
    they are popped in the opposite order, if the stack is as it was. *)
Lemma save_restore_exec ns rs : forall m,
  NoDup rs -> rsp ∉ rs -> wf_regs m -> 8 * Z.of_nat (length rs) <= regs m rsp -> regs m rsp + 8 < 2 ^ 64 ->
  exists m1, exec_list ns (map (fun r => push_ (OReg r)) rs) m = Some m1 /\
    regs m1 rsp = regs m rsp - 8 * Z.of_nat (length rs) /\
    (forall r, r <> rsp -> regs m1 r = regs m r) /\ flags m1 = flags m /\
    (forall x, 0 <= x < 2 ^ 64 -> x < regs m1 rsp \/ regs m rsp <= x -> mem m1 x = mem m x) /\
    forall m2, regs m2 rsp = regs m1 rsp ->
      (forall x, regs m1 rsp <= x < regs m rsp -> mem m2 x = mem m1 x) ->
      exists m3, exec_list ns (map pop_ (rev rs)) m2 = Some m3 /\
        mem m3 = mem m2 /\ flags m3 = flags m2 /\ regs m3 rsp = regs m rsp /\
        (forall r, r ∈ rs -> regs m3 r = regs m r) /\
        (forall r, r ∉ rs -> r <> rsp -> regs m3 r = regs m2 r).
Proof.
  induction rs as [|r rs IH]; intros m Hnd Hsp Hwf Hlo Hhi.
  - exists m. cbn [map rev exec_list length]. split; [done|]. split; [lia|]. split; [done|]. split; [done|].
    split; [done|]. intros m2 E _. exists m2. split; [done|]. split; [done|]. split; [done|].
    split; [rewrite E; lia|]. split; [|done]. by intros ? ?%elem_of_nil.
  - inversion Hnd as [|? ? Hr Hnd']; subst. clear Hnd; rename Hnd' into Hnd. rewrite not_elem_of_cons in Hsp. destruct Hsp as [Hne Hsp].
    cbn [map length] in *. cbn [exec_list]. rewrite exec_push by lia.
    set (m' := set_reg rsp _ _).
    assert (Hm'sp : regs m' rsp = regs m rsp - 8) by (unfold m'; now rewrite regs_set_same).
    assert (Hm'r : forall x, x <> rsp -> regs m' x = regs m x).
    { intros x Hx. unfold m'. now rewrite regs_set_other. }
    destruct (IH m') as (m1 & E1 & S1 & R1 & F1 & M1 & K); [done|done| |lia|lia|].
    { intros x. destruct (decide (x = rsp)) as [->|Hx].
      - rewrite Hm'sp. split; lia.
      - rewrite Hm'r by done. apply Hwf. }
    exists m1. split; [exact E1|]. split; [lia|].
    split; [intros x Hx; rewrite R1, Hm'r; done|]. split; [done|]. split.
    { intros x Hx Hd. rewrite M1 by lia. unfold m'. cbn [mem set_reg set_mem].
      apply write64_other; [split; lia|done|lia]. }
    intros m2 E2 Hmem. destruct (K m2 E2) as (m3 & E3 & M3 & F3 & S3 & R3 & O3).
    { intros x Hx. apply Hmem. lia. }
    cbn [rev]. rewrite map_app, exec_list_app, E3. cbn [mbind option_bind map exec_list].
    rewrite exec_pop by lia. eexists. split; [reflexivity|]. split; [done|]. split; [done|].
    split; [rewrite regs_set_other, regs_set_same by congruence; lia|]. split.
    + intros x [->|Hx]%elem_of_cons.
      * rewrite regs_set_same, M3, S3, Hm'sp.
        rewrite (read64_ext (mem m2) (mem m1)) by (try split; try lia; intros; apply Hmem; lia).
        rewrite (read64_ext (mem m1) (mem m')) by (try split; try lia; intros; apply M1; lia).
        unfold m'. cbn [mem set_reg set_mem]. apply read64_write64_same, Hwf.
      * assert (x <> r) by (intros ->; done). assert (x <> rsp) by (intros ->; done).
        rewrite !regs_set_other by congruence. rewrite R3, Hm'r by done. done.
    + intros x Hx Hxs. rewrite not_elem_of_cons in Hx. destruct Hx as [Hx Hxr].
      rewrite !regs_set_other by congruence. now apply O3.
Qed.

(** Rewriting addresses and memory in a goal about a machine state. *)
Ltac machine :=
  repeat match goal with
  | |- context [wrap 64 ?x] =>
      lazymatch x with context [wrap 64 _] => fail | _ => rewrite (wrap_small 64 x) by lia end
  | |- context [read64 (write64 ?f ?a ?v) ?b] =>
      first
        [ rewrite (read64_write64_same f a v) by (auto; unfold in_width in *; lia)
        | rewrite (read64_write64_other f a v b) by (unfold word_at; lia)
        | replace b with a by lia;
          rewrite (read64_write64_same f a v) by (auto; unfold in_width in *; lia) ]
  end.

(** ** Lemmas: byte swapping *)
Lemma testbit_bswap n : forall v i, 0 <= i ->
  Z.testbit (bswap n v) i =
    (i <? 8 * Z.of_nat n) && Z.testbit v (8 * (Z.of_nat n - 1 - i / 8) + i mod 8).
Proof.
  induction n as [|n IH]; intros v i Hi.
  - cbn. rewrite Z.bits_0. zb.
  - cbn [bswap]. rewrite Nat2Z.inj_succ. autorewrite with bits; try lia. rewrite IH by lia.
    pose proof (Z.div_mod i 8 ltac:(lia)) as Hd. pose proof (Z.mod_pos_bound i 8 ltac:(lia)).
    assert (0 <= i / 8) by (apply Z.div_pos; lia).
    destruct (Z.ltb_spec i (8 * Z.of_nat n)); cbn [andb].
    + rewrite (proj2 (Z.leb_gt _ _)) by lia. cbn. rewrite (proj2 (Z.ltb_lt i _)) by lia.
      rewrite Z.shiftr_spec by lia. cbn. f_equal. lia.
    + rewrite orb_false_r. destruct (Z.ltb_spec i (8 * Z.succ (Z.of_nat n))); cbn.
      * rewrite (proj2 (Z.leb_le _ _)) by lia. cbn.
        rewrite testbit_wrap by lia. rewrite (proj2 (Z.ltb_lt _ 8)) by lia. cbn. f_equal. lia.
      * rewrite testbit_wrap by lia. rewrite (proj2 (Z.ltb_ge (i - 8 * Z.of_nat n) 8)) by lia.
        now rewrite andb_false_r.
Qed.

Lemma bswap_range n v : 0 <= bswap n v < 2 ^ (8 * Z.of_nat n).
Proof.
  apply in_width_bits; [lia| |].
  - revert v. induction n as [|n IH]; intros v; cbn [bswap]; [lia|].
    apply Z.lor_nonneg. split; [|apply IH]. apply Z.shiftl_nonneg. apply wrap_range. lia.
  - intros i Hi. rewrite testbit_bswap by lia. zb.
Qed.

(** Byte [k] of a 16-bit field at the bottom of a swapped word is a field at
    its top. *)
Lemma bswap64_set_low v p :
  in_width 64 v -> in_width 16 p ->
  bswap64 (set_field 0 16 (bswap16 p) (bswap64 v)) = set_field 48 16 p v.
Proof.
  intros Hv Hp. unfold bswap64, bswap16. apply Z.bits_inj'. intros i Hi.
  rewrite testbit_bswap, (testbit_set_field 48) by lia. change (Z.of_nat 8) with 8.
  pose proof (Z.div_mod i 8 ltac:(lia)) as Hd. pose proof (Z.mod_pos_bound i 8 ltac:(lia)).
  destruct (Z.ltb_spec i (8 * 8)) as [Hi64|Hi64]; cbn [andb].
  - assert (0 <= i / 8 < 8) by (split; [apply Z.div_pos|apply Z.div_lt_upper_bound]; lia).
    set (q := 8 - 1 - i / 8) in *. set (r := i mod 8) in *.
    assert (Hj : (8 * q + r) / 8 = q /\ (8 * q + r) mod 8 = r).
    { split; [symmetry; apply Z.div_unique with r|symmetry; apply Z.mod_unique with q]; lia. }
    destruct Hj as [Hj1 Hj2].
    rewrite testbit_set_field by lia. rewrite (proj2 (Z.leb_le 0 _)) by lia. cbn [andb].
    destruct (Z.ltb_spec (8 * q + r) (0 + 16)).
    + rewrite testbit_bswap by lia. rewrite Z.sub_0_r, Hj1, Hj2. change (Z.of_nat 2) with 2.
      rewrite (proj2 (Z.ltb_lt (8 * q + r) (8 * 2))) by lia. cbn [andb]. zb. f_equal. lia.
    + rewrite testbit_bswap by lia. rewrite Hj1, Hj2. change (Z.of_nat 8) with 8.
      rewrite (proj2 (Z.ltb_lt (8 * q + r) (8 * 8))) by lia. cbn [andb]. zb. f_equal. lia.
  - rewrite (proj2 (Z.ltb_ge i (48 + 16))) by lia. rewrite andb_false_r.
    symmetry. apply (testbit_high 64); [exact Hv|lia].
Qed.

Lemma run_from_next go ns cl i rest m m' :
  exec1 ns i m = Next m' -> run_from go ns cl (i :: rest) m = run_from go ns cl rest m'.
Proof. intros E. cbn [run_from]. now rewrite E. Qed.

Lemma run_from_call go ns cl a rest m m' :
  cl a m = Ret (None, m') -> run_from go ns cl (call_ a :: rest) m = run_from go ns cl rest m'.
Proof. intros E. cbn [run_from exec1]. rewrite E. reflexivity. Qed.

(** ** Lemmas: flags *)
Definition arith_flag (i : Z) : bool :=
  (i =? CF) || (i =? PF) || (i =? AF) || (i =? ZF) || (i =? SF) || (i =? OF).

Lemma result_flags_other w res c o a f i :
  0 <= i -> arith_flag i = false -> Z.testbit (result_flags w res c o a f) i = Z.testbit f i.
Proof.
  unfold arith_flag, result_flags, CF, PF, AF, ZF, SF, OF. intros Hi Ha.
  rewrite !testbit_set_flag by lia. zb.
Qed.

Lemma result_flags_ZF w res c o a f : get_flag ZF (result_flags w res c o a f) = (res =? 0).
Proof.
  unfold result_flags, get_flag, CF, PF, AF, ZF, SF, OF. rewrite !testbit_set_flag by lia. reflexivity.
Qed.

Lemma result_flags_SF w res c o a f : get_flag SF (result_flags w res c o a f) = Z.testbit res (w - 1).
Proof.
  unfold result_flags, get_flag, CF, PF, AF, ZF, SF, OF. rewrite !testbit_set_flag by lia. reflexivity.
Qed.

Lemma result_flags_OF w res c o a f : get_flag OF (result_flags w res c o a f) = o.
Proof.
  unfold result_flags, get_flag, CF, PF, AF, ZF, SF, OF. rewrite !testbit_set_flag by lia. reflexivity.
Qed.

(** ** Lemmas: labels *)

(** Code without labels. *)
Definition is_label (i : instr) : bool := match i with label_ _ => true | _ => false end.

Lemma find_label_skip l pre rest :
  forallb (fun i => negb (is_label i)) pre = true -> find_label l (pre ++ rest) = find_label l rest.
Proof.
  induction pre as [|i pre IH]; [done|]. cbn [forallb]. intros [Hi Hp]%andb_prop. cbn [app find_label].
  destruct i; cbn in Hi; try discriminate Hi; now apply IH.
Qed.
