(* ===== verification/EmitUtils.v ===== *)
(** * Emit utilities: [granary/emit_utils.cc], [emit_utils.h]

    The generators of instruction sequences shared by the rest of Granary.
    An insertion point of an instruction list is a [cursor]: the instructions
    up to it and those after it ([DList] relates the pointer operations to
    such sequences).  What the generated instructions do is stated with the
    machine of [Machine].

    The theorems: whatever runs between the instructions that save and
    restore the dead registers, those registers have their old values
    afterwards, and the registers saved are exactly the dead ones; the
    sequences that save and restore the flags are inverse to each other up
    to the overflow flag; a padding of [n] bytes takes [n] bytes; aligning
    the stack can be undone; an address for which [addr_is_32bit] answers
    yes is exactly one that sign-extends. *)

From Stdlib Require Import ZArith Lia.
From stdpp Require Import base numbers list option.
From S2P Require Import Prelude Register Machine.

(** ** Insertion points *)
Record cursor := { before : list instr; after : list instr }.

(** [in = ls.insert_after(in, i)]: the new instruction is the new position. *)
Definition insert_after (i : instr) (c : cursor) : cursor :=
  {| before := before c ++ [i]; after := after c |}.

(** [ls.insert_after(in, i)], the position kept. *)
Definition insert_behind (i : instr) (c : cursor) : cursor :=
  {| before := before c; after := i :: after c |}.

Fixpoint insert_all (l : list instr) (c : cursor) : cursor :=
  match l with
  | [] => c
  | i :: l => insert_all l (insert_after i c)
  end.

Definition cursor_list (c : cursor) : list instr := before c ++ after c.

(** ** Addresses *)
Definition signed64 (z : Z) : Z := if z <? 2 ^ 63 then z else z - 2 ^ 64.

(** [diff = -diff] of the most negative number wraps to itself. *)
Definition is_far_away (p1 p2 : Z) : bool :=
  let diff := signed64 (u64 (p1 - p2)) in
  let diff := if diff <? 0 then signed64 (u64 (- diff)) else diff in
  4294967296 <=? diff.

Definition addr_is_32bit (addr : Z) : bool :=
  let addr_sign := Z.shiftr addr 31 in
  let addr_high := u32 (Z.shiftr addr_sign 1) in
  if negb (Z.land 1 addr_sign =? 0) then wnot 32 0 =? addr_high else 0 =? addr_high.

(** ** Padding *)

(** The instructions that a padding uses, with the sizes of their encodings. *)
Inductive padding :=
  | nop1byte_ | nop2byte_ | nop3byte_
  | jmp_short_
  | pad_label_.

Definition padding_size (p : padding) : Z :=
  match p with
  | nop1byte_ => 1 | nop2byte_ => 2 | nop3byte_ => 3
  | jmp_short_ => 2
  | pad_label_ => 0
  end.

Definition insert_nops_after (num_nops : Z) : list padding :=
  if num_nops =? 0 then []
  else if 1 =? num_nops then [nop1byte_]
  else if 2 =? num_nops then [nop2byte_]
  else if 3 =? num_nops then [nop3byte_]
  else jmp_short_ :: replicate (Z.to_nat (num_nops - 2)) nop1byte_ ++ [pad_label_].

Definition paddings_size (l : list padding) : Z := foldr (fun p n => padding_size p + n) 0 l.

(** ** Saving and restoring registers *)
Definition GPRS : list reg :=
  [rax; rcx; rdx; rbx; rsp; rbp; rsi; rdi; r8; r9; r10; r11; r12; r13; r14; r15].

(** The operand for a register number. *)
Definition reg_of_id (id : Z) : option reg := if id <? 1 then None else GPRS !! Z.to_nat (id - 1).

(** The loops take scratch registers until there is none left; a register
    manager has at most fifteen. *)
Definition ZOMBIE_FUEL : nat := 17.

Fixpoint save_registers (fuel : nat) (rm : register_manager) (c : cursor) : outcome cursor :=
  match fuel with
  | O => OutOfFuel
  | S fuel =>
      let z := get_zombie rm in
      if fst z =? DR_REG_NULL then Ret c
      else match reg_of_id (fst z) with
           | None => Fault
           | Some r => save_registers fuel (snd z) (insert_after (push_ (OReg r)) c)
           end
  end.

(** The pops, each inserted before the previous one. *)
Fixpoint restore_pops (fuel : nat) (rm : register_manager) (pops : list instr)
    : outcome (list instr) :=
  match fuel with
  | O => OutOfFuel
  | S fuel =>
      let z := get_zombie rm in
      if fst z =? DR_REG_NULL then Ret pops
      else match reg_of_id (fst z) with
           | None => Fault
           | Some r => restore_pops fuel (snd z) (pop_ r :: pops)
           end
  end.

(** [restore_registers] returns the label behind the pops. *)
Definition restore_registers (fuel : nat) (rm : register_manager) (last : nat) (c : cursor)
    : outcome cursor :=
  pops ← restore_pops fuel rm [];
  Ret (insert_after (label_ last) (insert_all pops c)).

Fixpoint save_and_restore_registers (fuel : nat) (rm : register_manager) (c : cursor)
    : outcome cursor :=
  match fuel with
  | O => OutOfFuel
  | S fuel =>
      let z := get_zombie rm in
      if fst z =? DR_REG_NULL then Ret c
      else match reg_of_id (fst z) with
           | None => Fault
           | Some r =>
               save_and_restore_registers fuel (snd z)
                 (insert_behind (pop_ r) (insert_after (push_ (OReg r)) c))
           end
  end.

(** ** Control transfers *)
Inductive cti_kind := CTI_CALL | CTI_JMP.

(** [steal] is the register of [CTI_STEAL_REGISTER]; without one, the target
    of a far transfer is read from [slot], in which it has been stored. *)
Definition insert_cti_after (staged_loc target : Z) (steal : option reg) (slot : Z)
    (kind : cti_kind) (c : cursor) : cursor :=
  let ind o := match kind with CTI_CALL => call_ind_ o | CTI_JMP => jmp_ind_ o end in
  if is_far_away staged_loc target then
    match steal with
    | Some r => insert_after (ind (OReg r)) (insert_after (mov_imm_ r target) c)
    | None => insert_after (ind (OAbs slot)) c
    end
  else insert_after (match kind with CTI_CALL => call_ target | CTI_JMP => jmp_ (pc_ target) end) c.

(** ** Flags *)
Inductive flag_save_constraint := REG_AH_IS_LIVE | REG_AH_IS_DEAD.

Definition insert_save_arithmetic_flags_after (k : flag_save_constraint) : list instr :=
  match k with
  | REG_AH_IS_LIVE =>
      [push_ (OReg rax); push_ (OReg rax); lahf_; mov_st_ (OMem rsp 8) rax; pop_ rax]
  | REG_AH_IS_DEAD => [lahf_; push_ (OReg rax)]
  end.

Definition insert_restore_arithmetic_flags_after (k : flag_save_constraint) : list instr :=
  match k with
  | REG_AH_IS_LIVE =>
      [push_ (OReg rax); mov_ld_ rax (OMem rsp 8); sahf_; pop_ rax; lea_ rsp rsp 8]
  | REG_AH_IS_DEAD => [pop_ rax; sahf_]
  end.

Definition insert_save_flags_after `{Config} (k : flag_save_constraint) : list instr :=
  if env_kernel then [pushf_; cli_] else insert_save_arithmetic_flags_after k.

Definition insert_restore_flags_after `{Config} (k : flag_save_constraint) : list instr :=
  if env_kernel then [popf_] else insert_restore_arithmetic_flags_after k.

(** ** The stack *)
Definition insert_align_stack_after : list instr :=
  [push_ (OReg rsp); push_ (OMem rsp 0); and_ (OReg rsp) (OImm (-16))].

Definition insert_restore_old_stack_alignment_after : list instr := [mov_ld_ rsp (OMem rsp 8)].

(** ** Lemmas: the saved registers *)
Lemma reg_of_id_spec z : 1 <= z <= 16 -> exists r, reg_of_id z = Some r /\ reg_id r = z.
Proof.
  intros Hz. assert (Hc : z ∈ [1; 2; 3; 4; 5; 6; 7; 8; 9; 10; 11; 12; 13; 14; 15; 16]).
  { rewrite !elem_of_cons. lia. }
  repeat (apply elem_of_cons in Hc as [->|Hc]; [eexists; split; reflexivity|]). by apply elem_of_nil in Hc.
Qed.

Lemma reg_of_id_id r : reg_of_id (reg_id r) = Some r.
Proof. destruct r; reflexivity. Qed.

Lemma reg_id_inj r r' : reg_id r = reg_id r' -> r = r'.
Proof. intros H. pose proof (reg_of_id_id r) as E. rewrite H, reg_of_id_id in E. congruence. Qed.

Lemma regs_of_ids zs :
  (forall z, z ∈ zs -> 1 <= z <= 16) -> exists rs, map reg_id rs = zs.
Proof.
  induction zs as [|z zs IH]; intros H; [now exists []|].
  destruct (reg_of_id_spec z) as (r & _ & Hr); [apply H, elem_of_cons; auto|].
  destruct IH as [rs Hrs]; [intros w Hw; apply H, elem_of_cons; auto|].
  exists (r :: rs). cbn. congruence.
Qed.

Lemma save_and_restore_draw n : forall rm c rs rm',
  get_zombies n rm = (map reg_id rs, rm') -> (length rs < n)%nat ->
  save_and_restore_registers n rm c =
    Ret {| before := before c ++ map (fun r => push_ (OReg r)) rs;
           after := map pop_ (rev rs) ++ after c |}.
Proof.
  induction n as [|n IH]; intros rm c rs rm' E Hlt; [lia|].
  cbn [get_zombies] in E. cbn [save_and_restore_registers].
  destruct (fst (get_zombie rm) =? DR_REG_NULL) eqn:Ez.
  - injection E as E _. destruct rs; [|done]. cbn. rewrite app_nil_r. now destruct c.
  - destruct rs as [|r rs]; [done|]. cbn [map length] in *. injection E as E1 E2 E3.
    rewrite E1, reg_of_id_id. rewrite (IH _ _ rs rm'); [|destruct (get_zombies n _); cbn in *; congruence|lia].
    cbn [before after insert_after insert_behind map rev]. rewrite map_app, <- !app_assoc. reflexivity.
Qed.

Lemma restore_pops_draw n : forall rm pops rs rm',
  get_zombies n rm = (map reg_id rs, rm') -> (length rs < n)%nat ->
  restore_pops n rm pops = Ret (map pop_ (rev rs) ++ pops).
Proof.
  induction n as [|n IH]; intros rm pops rs rm' E Hlt; [lia|].
  cbn [get_zombies] in E. cbn [restore_pops].
  destruct (fst (get_zombie rm) =? DR_REG_NULL) eqn:Ez.
  - injection E as E _. now destruct rs.
  - destruct rs as [|r rs]; [done|]. cbn [map length] in *. injection E as E1 E2 E3.
    rewrite E1, reg_of_id_id. rewrite (IH _ _ rs rm'); [|destruct (get_zombies n _); cbn in *; congruence|lia].
    cbn [map rev]. rewrite map_app, <- !app_assoc. reflexivity.
Qed.

Lemma save_registers_draw n : forall rm c rs rm',
  get_zombies n rm = (map reg_id rs, rm') -> (length rs < n)%nat ->
  save_registers n rm c =
    Ret {| before := before c ++ map (fun r => push_ (OReg r)) rs; after := after c |}.
Proof.
  induction n as [|n IH]; intros rm c rs rm' E Hlt; [lia|].
  cbn [get_zombies] in E. cbn [save_registers].
  destruct (fst (get_zombie rm) =? DR_REG_NULL) eqn:Ez.
  - injection E as E _. destruct rs; [|done]. cbn. rewrite app_nil_r. now destruct c.
  - destruct rs as [|r rs]; [done|]. cbn [map length] in *. injection E as E1 E2 E3.
    rewrite E1, reg_of_id_id. rewrite (IH _ _ rs rm'); [|destruct (get_zombies n _); cbn in *; congruence|lia].
    cbn [before after insert_after map]. rewrite <- app_assoc. reflexivity.
Qed.

(** The registers that the loops draw: exactly the dead ones, each once. *)
Definition dead_regs (rm : register_manager) (rs : list reg) : Prop :=
  NoDup rs /\ (rsp ∉ rs) /\ (length rs <= 15)%nat /\
  forall r, (r ∈ rs) <-> (lives rm (reg_id r) = false /\ zombie rm (reg_id r) = false).

Lemma NoDup_reg_ids rs : NoDup (map reg_id rs) -> NoDup rs.
Proof. apply NoDup_fmap_1. Qed.

Lemma dead_regs_bound rs : NoDup rs -> rsp ∉ rs -> (length rs <= 15)%nat.
Proof.
  intros Hnd Hsp. assert (Hsub : rs ⊆+ [rax; rcx; rdx; rbx; rbp; rsi; rdi; r8; r9; r10; r11; r12; r13; r14; r15]).
  { apply NoDup_submseteq; [done|]. intros r Hr. assert (r <> rsp) by congruence.
    rewrite !elem_of_cons. destruct r; tauto. }
  apply submseteq_length in Hsub. exact Hsub.
Qed.

Lemma draw_dead rm :
  rm_wf rm -> exists rs rm', get_zombies ZOMBIE_FUEL rm = (map reg_id rs, rm') /\ dead_regs rm rs.
Proof.
  intros Hwf. destruct (get_zombies ZOMBIE_FUEL rm) as [zs rm'] eqn:E.
  destruct (get_zombies_draw _ _ _ _ Hwf E) as (Hwf' & Hl & Hnd & Hzs & Hfew).
  pose proof (get_zombies_zombie _ _ _ _ Hwf E) as Hz.
  destruct (regs_of_ids zs) as [rs Hrs]; [intros z Hzin; by apply Hzs|]. subst zs.
  exists rs, rm'. split; [done|].
  assert (Hin : forall r, reg_id r ∈ map reg_id rs <-> r ∈ rs).
  { intros r. rewrite list_elem_of_fmap. split; [intros (r' & Hr & ?); apply reg_id_inj in Hr; congruence|eauto]. }
  assert (Hsp : rsp ∉ rs).
  { intros H. apply Hin, Hzs in H as (_ & H & _). done. }
  pose proof (NoDup_reg_ids rs Hnd) as Hnd'. pose proof (dead_regs_bound rs Hnd' Hsp) as Hlen.
  split; [done|]. split; [done|]. split; [done|]. intros r. rewrite <- Hin. split.
  - intros H. apply Hzs in H as (_ & _ & ? & ?). done.
  - intros [Hd Hzr]. pose proof (reg_id_range r) as Hr.
    assert (Hlt : (length (map reg_id rs) < ZOMBIE_FUEL)%nat) by (rewrite length_map; unfold ZOMBIE_FUEL; lia).
    specialize (Hfew Hlt (reg_id r) Hr). unfold lives in *. rewrite Hl, Hd in Hfew. cbn in Hfew.
    apply Hz in Hfew as [|]; [congruence|done|done].
Qed.

Lemma save_restore_cursor ns rm c m :
  rm_wf rm -> wf_regs m -> 120 <= regs m rsp -> regs m rsp + 8 < 2 ^ 64 ->
  exists saves restores,
    save_and_restore_registers ZOMBIE_FUEL rm c =
      Ret {| before := before c ++ saves; after := restores ++ after c |} /\
    exists m1, exec_list ns saves m = Some m1 /\
      regs m rsp - 120 <= regs m1 rsp <= regs m rsp /\
      (forall r, r <> rsp -> regs m1 r = regs m r) /\ flags m1 = flags m /\
      (forall x, 0 <= x < 2 ^ 64 -> x < regs m1 rsp \/ regs m rsp <= x -> mem m1 x = mem m x) /\
      forall m2, regs m2 rsp = regs m1 rsp ->
        (forall x, regs m1 rsp <= x < regs m rsp -> mem m2 x = mem m1 x) ->
        exists m3, exec_list ns restores m2 = Some m3 /\
          mem m3 = mem m2 /\ flags m3 = flags m2 /\ regs m3 rsp = regs m rsp /\
          (forall r, r <> rsp -> regs m3 r =
            if lives rm (reg_id r) || zombie rm (reg_id r) then regs m2 r else regs m r).
Proof.
  intros Hwf Hm Hlo Hhi. destruct (draw_dead rm Hwf) as (rs & rm' & E & Hnd & Hsp & Hlen & Hin).
  exists (map (fun r => push_ (OReg r)) rs), (map pop_ (rev rs)).
  split; [apply (save_and_restore_draw _ _ _ _ _ E); unfold ZOMBIE_FUEL; lia|].
  destruct (save_restore_exec ns rs m) as (m1 & E1 & S1 & R1 & F1 & M1 & K); [done|done|done|lia|lia|].
  exists m1. split; [done|]. split; [lia|]. split; [done|]. split; [done|]. split; [done|].
  intros m2 E2 Hmem. destruct (K m2 E2 Hmem) as (m3 & E3 & M3 & F3 & S3 & R3 & O3).
  exists m3. split; [done|]. split; [done|]. split; [done|]. split; [done|]. intros r Hr.
  destruct (lives rm (reg_id r) || zombie rm (reg_id r)) eqn:Hd.
  - apply O3; [|done]. rewrite Hin. intros [H1 H2]. by rewrite H1, H2 in Hd.
  - apply orb_false_iff in Hd. apply R3, Hin. done.
Qed.

(** ** Theorems: registers *)

(** Saving registers around an insertion point.  The fuel of the loop is
    enough; the registers saved are exactly the dead ones of the manager;
    and whatever instructions run between the two halves, if they leave the
    stack pointer and the saved words alone then every dead register is back
    at its old value, the stack pointer is restored and no other register
    and no memory is touched by the restoring half. *)
Theorem save_and_restore_registers_correct ns rm c m :
  rm_wf rm -> wf_regs m -> 120 <= regs m rsp -> regs m rsp + 8 < 2 ^ 64 ->
  exists saves restores,
    save_and_restore_registers ZOMBIE_FUEL rm c =
      Ret {| before := before c ++ saves; after := restores ++ after c |} /\
    exists m1, exec_list ns saves m = Some m1 /\
      regs m rsp - 120 <= regs m1 rsp <= regs m rsp /\
      (forall r, r <> rsp -> regs m1 r = regs m r) /\ flags m1 = flags m /\
      (forall x, 0 <= x < 2 ^ 64 -> x < regs m1 rsp \/ regs m rsp <= x -> mem m1 x = mem m x) /\
      forall m2, regs m2 rsp = regs m1 rsp ->
        (forall x, regs m1 rsp <= x < regs m rsp -> mem m2 x = mem m1 x) ->
        exists m3, exec_list ns restores m2 = Some m3 /\
          mem m3 = mem m2 /\ flags m3 = flags m2 /\ regs m3 rsp = regs m rsp /\
          (forall r, r <> rsp -> regs m3 r =
            if lives rm (reg_id r) || zombie rm (reg_id r) then regs m2 r else regs m r).
Proof. apply save_restore_cursor. Qed.

(** A machine whose registers hold their own numbers, with a stack. *)
Definition sample_mach (sp : Z) : mach :=
  {| regs := fun r => if reg_eqb r rsp then sp else reg_id r; mem := fun _ => 0; flags := 0x202 |}.

Lemma sample_wf sp : in_width 64 sp -> wf_regs (sample_mach sp).
Proof. intros H r. cbn. destruct (reg_eqb r rsp); [done|]. pose proof (reg_id_range r). split; lia. Qed.

Lemma save_and_restore_registers_correct_witness :
  exists saves restores,
    save_and_restore_registers ZOMBIE_FUEL (kill_all register_manager_ctor)
      {| before := []; after := [ret_] |} =
      Ret {| before := [] ++ saves; after := restores ++ [ret_] |} /\
    exists m1, exec_list no_native saves (sample_mach 4096) = Some m1 /\
      forall m2, regs m2 rsp = regs m1 rsp ->
        (forall x, regs m1 rsp <= x < 4096 -> mem m2 x = mem m1 x) ->
        exists m3, exec_list no_native restores m2 = Some m3 /\ regs m3 rbx = 4.
Proof.
  destruct (save_and_restore_registers_correct no_native (kill_all register_manager_ctor)
    {| before := []; after := [ret_] |} (sample_mach 4096)) as (s & r & E & m1 & E1 & _ & _ & _ & _ & K).
  - apply kill_all_wf.
  - apply sample_wf. split; lia.
  - cbn. lia.
  - cbn. lia.
  - exists s, r. split; [exact E|]. exists m1. split; [exact E1|]. intros m2 Hsp Hm.
    destruct (K m2 Hsp Hm) as (m3 & E3 & _ & _ & _ & R). exists m3. split; [exact E3|].
    rewrite R by congruence. reflexivity.
Defined.

(** ** Theorems: flags and the stack *)

(** The flags that [lahf] saves, put back over [f']. *)
Definition restore_ah (f f' : Z) : Z := Z.lor (Z.ldiff f' AH_MASK) (Z.land f AH_MASK).

Lemma sahf_of_lahf f v :
  Z.land (get_field 8 8 (set_field 8 8 (Z.lor (Z.land f AH_MASK) 2) v)) AH_MASK = Z.land f AH_MASK.
Proof.
  rewrite get_set_field_same by lia. bitwise i Hi.
  destruct (Z.lt_ge_cases i 8) as [Hl|Hg].
  - assert (Hc : i = 0 \/ i = 1 \/ i = 2 \/ i = 3 \/ i = 4 \/ i = 5 \/ i = 6 \/ i = 7) by lia.
    destruct Hc as [->|[->|[->|[->|[->|[->|[->| ->]]]]]]]; cbn -[Z.testbit];
      match goal with |- context [Z.testbit f ?i] => destruct (Z.testbit f i) end; reflexivity.
  - rewrite (testbit_high 8 AH_MASK i) by (unfold AH_MASK; lia). now rewrite !andb_false_r.
Qed.

(** A flag that is not among those of [ah] keeps its new value; the others
    get their old one back. *)
Lemma restore_ah_spec f f' i :
  0 <= i -> Z.testbit (restore_ah f f') i = if Z.testbit AH_MASK i then Z.testbit f i else Z.testbit f' i.
Proof.
  intros Hi. unfold restore_ah. rewrite Z.lor_spec, Z.ldiff_spec, Z.land_spec.
  destruct (Z.testbit AH_MASK i); cbn; rewrite ?andb_true_r, ?andb_false_r, ?orb_false_r; done.
Qed.

Lemma set_field_in_width w lo n v x :
  0 <= lo -> 0 <= n -> lo + n <= w -> in_width w x -> in_width w (set_field lo n v x).
Proof. intros. now apply set_field_range. Qed.

(** Saving and restoring the arithmetic flags.  In both forms, the save
    sequence pushes one word; after any code that leaves the stack pointer
    and that word alone, the restore sequence brings back the stack pointer
    and the five flags of [ah], and nothing else: the overflow flag is left
    as that code made it.  [rax] is preserved by the form for a live [ah]. *)
Theorem arithmetic_flags_roundtrip ns k m :
  wf_regs m -> 32 <= regs m rsp -> regs m rsp + 16 < 2 ^ 64 ->
  exists m1, exec_list ns (insert_save_arithmetic_flags_after k) m = Some m1 /\
    regs m1 rsp = regs m rsp - 8 /\ flags m1 = flags m /\
    (forall r, r <> rsp -> (k = REG_AH_IS_LIVE \/ r <> rax) -> regs m1 r = regs m r) /\
    forall m2, wf_regs m2 -> regs m2 rsp = regs m1 rsp ->
      (forall x, regs m1 rsp <= x < regs m rsp -> mem m2 x = mem m1 x) ->
      exists m3, exec_list ns (insert_restore_arithmetic_flags_after k) m2 = Some m3 /\
        regs m3 rsp = regs m rsp /\ flags m3 = restore_ah (flags m) (flags m2) /\
        (forall r, r <> rsp -> (k = REG_AH_IS_LIVE \/ r <> rax) -> regs m3 r = regs m2 r).
Proof.
  intros Hm Hlo Hhi. pose proof (Hm rax) as Hrax.
  assert (Hah : in_width 64 (set_field 8 8 (Z.lor (Z.land (flags m) AH_MASK) 2) (regs m rax)))
    by (apply set_field_in_width; done || lia).
  destruct k; eexists; (split; [cbn; reflexivity|]).
  - cbn. unfold ea, top. cbn. machine. replace (regs m rsp - 8 - 8 + 8) with (regs m rsp - 8) by lia.
    machine. split; [done|]. split; [done|]. split.
    { intros r Hr _. destruct r; try done; machine; done. }
    intros m2 Hm2 Hsp Hmem. eexists. split; [cbn; reflexivity|]. cbn. unfold ea, top, get_op. cbn.
    rewrite Hsp. machine. replace (regs m rsp - 8 - 8 + 8) with (regs m rsp - 8) by lia. machine.
    rewrite (read64_ext (mem m2) (write64 (write64 (write64 (mem m) (regs m rsp - 8) (regs m rax))
      (regs m rsp - 8 - 8) (regs m rax)) (regs m rsp - 8)
      (set_field 8 8 (Z.lor (Z.land (flags m) AH_MASK) 2) (regs m rax))));
      [|split; lia|intros x Hx; rewrite Hmem by lia; done].
    machine. rewrite sahf_of_lahf. split; [lia|]. split; [done|].
    intros r Hr _. pose proof (Hm2 rax). destruct r; try done; machine; done.
  - cbn. machine. split; [done|]. split; [done|]. split.
    { intros r Hr [?|?]; [done|]. destruct r; done. }
    intros m2 Hm2 Hsp Hmem. eexists. split; [cbn; reflexivity|]. cbn. unfold top. cbn.
    rewrite Hsp. machine.
    rewrite (read64_ext (mem m2) (write64 (mem m) (regs m rsp - 8)
      (set_field 8 8 (Z.lor (Z.land (flags m) AH_MASK) 2) (regs m rax))));
      [|split; lia|intros x Hx; rewrite Hmem by lia; done].
    machine. rewrite sahf_of_lahf. split; [lia|]. split; [done|].
    intros r Hr [?|?]; [done|]. destruct r; done.
Qed.

Lemma arithmetic_flags_roundtrip_witness :
  exists m1, exec_list no_native (insert_save_arithmetic_flags_after REG_AH_IS_DEAD) (sample_mach 4096) = Some m1 /\
    exists m3, exec_list no_native (insert_restore_arithmetic_flags_after REG_AH_IS_DEAD)
        (set_flags 0x8D5 m1) = Some m3 /\
      flags m3 = restore_ah 0x202 0x8D5.
Proof.
  destruct (arithmetic_flags_roundtrip no_native REG_AH_IS_DEAD (sample_mach 4096))
    as (m1 & E1 & S1 & F1 & R1 & K); [apply sample_wf; split; lia|cbn; lia|cbn; lia|].
  exists m1. split; [exact E1|]. destruct (K (set_flags 0x8D5 m1)) as (m3 & E3 & _ & F3 & _).
  - intros r. cbn [exec_list insert_save_arithmetic_flags_after exec1 get_op] in E1.
    injection E1 as <-. destruct r; vm_compute; split; congruence.
  - reflexivity.
  - reflexivity.
  - exists m3. split; [exact E3|]. exact F3.
Defined.

(** Aligning the stack: from an 8-byte aligned stack pointer the sequence
    makes it 16-byte aligned, moving it by at most 24 bytes, and after any
    code that leaves it and the two words above it alone the undoing
    instruction finds the old stack pointer. *)
Theorem align_stack_roundtrip ns m :
  wf_regs m -> 64 <= regs m rsp -> regs m rsp + 16 < 2 ^ 64 -> regs m rsp mod 8 = 0 ->
  exists m1, exec_list ns insert_align_stack_after m = Some m1 /\
    regs m1 rsp mod 16 = 0 /\ regs m rsp - 24 <= regs m1 rsp <= regs m rsp - 16 /\
    (forall r, r <> rsp -> regs m1 r = regs m r) /\
    (forall x, 0 <= x < 2 ^ 64 -> x < regs m rsp - 16 \/ regs m rsp <= x -> mem m1 x = mem m x) /\
    forall m2, regs m2 rsp = regs m1 rsp ->
      (forall x, regs m1 rsp <= x < regs m rsp -> mem m2 x = mem m1 x) ->
      exec_list ns insert_restore_old_stack_alignment_after m2 = Some (set_reg rsp (regs m rsp) m2).
Proof.
  intros Hm Hlo Hhi H8. pose proof (Hm rsp) as Hsp.
  set (S := regs m rsp) in *. set (S1 := Z.land (S - 16) (u64 (-16))).
  assert (HS1 : S1 = S - 16 - (S - 16) mod 16).
  { unfold S1. change (u64 (-16)) with (Z.shiftl (Z.ones 60) 4).
    replace (Z.land (S - 16) (Z.shiftl (Z.ones 60) 4)) with (Z.ldiff (S - 16) (Z.ones 4)).
    - rewrite Z.ldiff_ones_r, Z.shiftr_div_pow2, Z.shiftl_mul_pow2 by lia. change (2 ^ 4) with 16.
      pose proof (Z.div_mod (S - 16) 16 ltac:(lia)). lia.
    - bitwise i Hi. destruct (Z.lt_ge_cases i 64).
      + destruct (Z.leb_spec 4 i); autorewrite with bits; try lia; zb; cbn; now rewrite ?andb_true_r, ?andb_false_r.
      + rewrite (testbit_high 64 (S - 16) i) by (unfold in_width in Hsp; lia). done. }
  assert (Hmod : (S - 16) mod 16 = 0 \/ (S - 16) mod 16 = 8).
  { pose proof (Z.mod_pos_bound (S - 16) 16 ltac:(lia)).
    pose proof (Z.div_mod (S - 16) 16 ltac:(lia)). pose proof (Z.div_mod S 8 ltac:(lia)). lia. }
  eexists. split; [cbn; reflexivity|]. cbn. unfold ea. cbn. fold S. machine.
  replace (S - 8 + 0) with (S - 8) by lia. machine. replace (S - 8 - 8) with (S - 16) by lia. fold S1.
  split.
  { rewrite HS1. replace (S - 16 - (S - 16) mod 16) with (16 * ((S - 16) / 16)).
    - rewrite Z.mul_comm. apply Z_mod_mult.
    - pose proof (Z.div_mod (S - 16) 16 ltac:(lia)). lia. }
  split; [lia|]. split; [intros r Hr; destruct r; done|].
  split; [intros x Hx Hd; by rewrite !write64_other by (try split; lia)|].
  intros m2 E2 Hmem. f_equal. unfold ea. rewrite E2. machine. f_equal.
  rewrite (read64_ext (mem m2) (write64 (write64 (mem m) (S - 8) S) (S - 16) S));
    [|split; lia|intros x Hx; apply Hmem; lia].
  destruct Hmod as [E|E]; rewrite E in HS1.
  - rewrite read64_write64_other by (unfold word_at; lia). replace (S1 + 8) with (S - 8) by lia. machine. done.
  - replace (S1 + 8) with (S - 16) by lia. machine. done.
Qed.

Lemma align_stack_roundtrip_witness :
  exists m1, exec_list no_native insert_align_stack_after (sample_mach 4104) = Some m1 /\
    regs m1 rsp mod 16 = 0 /\
    exec_list no_native insert_restore_old_stack_alignment_after m1 = Some (set_reg rsp 4104 m1).
Proof.
  destruct (align_stack_roundtrip no_native (sample_mach 4104)) as (m1 & E1 & A & _ & _ & _ & K);
    [apply sample_wf; split; lia|cbn; lia|cbn; lia|reflexivity|].
  exists m1. split; [exact E1|]. split; [exact A|]. exact (K m1 eq_refl (fun _ _ => eq_refl)).
Defined.

(** ** Theorems: padding and addresses *)

(** A padding of [n] bytes takes [n] bytes. *)
Theorem insert_nops_size n : 0 <= n -> paddings_size (insert_nops_after n) = n.
Proof.
  intros Hn. unfold insert_nops_after.
  destruct (Z.eqb_spec n 0); [subst; done|]. destruct (Z.eqb_spec 1 n); [subst; done|].
  destruct (Z.eqb_spec 2 n); [subst; done|]. destruct (Z.eqb_spec 3 n); [subst; done|].
  assert (H : forall k, paddings_size (replicate k nop1byte_ ++ [pad_label_]) = Z.of_nat k).
  { induction k as [|k IH]; [done|]. cbn [replicate app]. unfold paddings_size in *. cbn. lia. }
  change (paddings_size (jmp_short_ :: ?l)) with (2 + paddings_size l).
  unfold paddings_size at 1. cbn [foldr padding_size].
  change (foldr _ 0 ?l) with (paddings_size l). rewrite H. lia.
Qed.

Lemma insert_nops_size_witness : paddings_size (insert_nops_after 7) = 7.
Proof. apply insert_nops_size. lia. Defined.

(** [addr_is_32bit] accepts exactly the addresses that are the sign extension
    of their low 32 bits. *)
Theorem addr_is_32bit_spec addr :
  in_width 64 addr ->
  addr_is_32bit addr = true <->
    addr = u64 (if Z.testbit addr 31 then u32 addr - 2 ^ 32 else u32 addr).
Proof.
  intros Ha. unfold addr_is_32bit.
  set (low := addr mod 2 ^ 31). set (high := Z.shiftr addr 31).
  assert (Hsplit : addr = 2 ^ 31 * high + low).
  { unfold high, low. rewrite Z.shiftr_div_pow2 by lia. apply Z.div_mod. lia. }
  assert (Hlow : 0 <= low < 2 ^ 31) by (apply Z.mod_pos_bound; lia).
  assert (Hhigh : 0 <= high < 2 ^ 33) by (unfold in_width in Ha; split; lia).
  assert (Hbit : Z.testbit addr 31 = Z.odd high).
  { unfold high. rewrite <- Z.bit0_odd, Z.shiftr_spec by lia. reflexivity. }
  assert (Hodd : negb (Z.land 1 high =? 0) = Z.odd high).
  { rewrite Z.land_comm. change 1 with (Z.ones 1). rewrite Z.land_ones by lia. change (2 ^ 1) with 2.
    rewrite Zmod_odd. now destruct (Z.odd high). }
  rewrite Hbit, Hodd. rewrite Z.shiftr_div_pow2 by lia. change (2 ^ 1) with 2.
  pose proof (Zdiv2_odd_eqn high) as Hd. rewrite Z.div2_div in Hd.
  generalize dependent (Z.odd high). intros o _ _ Hd. set (h := high / 2) in *.
  assert (Hh : 0 <= h < 2 ^ 32) by (destruct o; lia).
  rewrite (wrap_small 32 h) by lia. change (wnot 32 0) with (2 ^ 32 - 1).
  assert (H32 : u32 addr = 2 ^ 31 * (if o then 1 else 0) + low).
  { unfold wrap. symmetry. apply Z.mod_unique with h; destruct o; lia. }
  rewrite H32, Z.eqb_sym. destruct o; rewrite Z.eqb_eq; unfold wrap.
  - rewrite <- (Z_mod_plus_full _ 1), Z.mod_small by lia. lia.
  - rewrite Z.mod_small by lia. lia.
Qed.

Lemma addr_is_32bit_spec_witness :
  addr_is_32bit 0xFFFFFFFF81000000 = true <->
    0xFFFFFFFF81000000 = u64 (if Z.testbit 0xFFFFFFFF81000000 31 then u32 0xFFFFFFFF81000000 - 2 ^ 32
                              else u32 0xFFFFFFFF81000000).
Proof. apply addr_is_32bit_spec. split; lia. Defined.

(** An address that is not far away can still be out of reach of a signed
    32-bit displacement: the test is at four gigabytes, the reach is two. *)
Theorem near_address_out_of_reach :
  exists p1 p2, in_width 64 p1 /\ in_width 64 p2 /\ is_far_away p1 p2 = false /\
    ~ (- 2 ^ 31 <= p1 - p2 < 2 ^ 31).
Proof. exists (3 * 2 ^ 30), 0. unfold in_width. repeat split; try lia. Qed.

(** What [is_far_away] decides: the distance modulo [2^64], except for the
    single distance [2^63], which wraps. *)
Lemma is_far_away_spec p1 p2 :
  in_width 64 p1 -> in_width 64 p2 -> - 2 ^ 63 < p1 - p2 < 2 ^ 63 ->
  is_far_away p1 p2 = (2 ^ 32 <=? Z.abs (p1 - p2)).
Proof.
  intros H1 H2 Hd. unfold is_far_away, signed64.
  assert (Hs : forall d, - 2 ^ 63 < d < 2 ^ 63 -> (if u64 d <? 2 ^ 63 then u64 d else u64 d - 2 ^ 64) = d).
  { intros d Hd'. unfold wrap. destruct (Z.le_gt_cases 0 d).
    - rewrite Z.mod_small by lia. zb.
    - rewrite <- (Z_mod_plus_full d 1), Z.mod_small by lia. zb. }
  rewrite !Hs by lia. destruct (Z.ltb_spec (p1 - p2) 0); rewrite ?Hs by lia; f_equal; lia.
Qed.
