(* ===== verification/PrivateStack.v ===== *)
(** * The private stack: [granary/x86/stack.asm]

    Generated code that calls into Granary first switches to a stack private
    to the processor, unless it is already on it, and switches back
    afterwards.  Both routines are assembly; they are kept here as
    instructions of [Machine] and run as callees.

    The theorem: whatever happens in between, if it keeps the stack pointer
    and the word it points to, leaving restores the stack pointer with which
    the stack was entered, and neither routine touches memory outside the
    sixteen bytes below the pointers involved and the frame of the helper.
    What the C code that is called keeps is the class of callees that obey
    the calling convention. *)

From Stdlib Require Import ZArith Lia.
From stdpp Require Import base numbers list option.
From S2P Require Import Prelude Machine.

(** ** The calling convention *)
Definition callee_saved : list reg := [rbx; rbp; r12; r13; r14; r15].

(** A call that returns has kept the stack pointer, the registers [ks], and
    the memory that is not its own, here [lo, hi); the calling convention
    asks for the callee-saved registers. *)
Record abi_keeps (ks : list reg) (lo hi : Z) (m m' : mach) : Prop := {
  abi_sp : regs m' rsp = regs m rsp;
  abi_regs : forall r, r ∈ ks -> regs m' r = regs m r;
  abi_wf : wf_regs m';
  abi_mem : forall x, lo <= x < hi -> mem m' x = mem m x
}.
Abbreviation abi_effect := (abi_keeps callee_saved).

(** ** The routines *)
Definition enter_do_not_switch : nat := 0.

(** [top_fn] is the address of [granary_get_private_stack_top]. *)
Definition granary_enter_private_stack (top_fn : Z) : list instr :=
  [ push_ (OReg rdi);
    push_ (OReg rsi);
    call_ top_fn;
    pop_ rsi;
    pop_ rdi;
    push_ (OReg rax);
    xor_ (OReg rax) (OReg rsp);
    shr_ rax 16;
    pop_ rax;
    jz_ enter_do_not_switch;
    xchg_ (OReg rsp) rax;
    lea_ rax rax 8;
    push_ (OReg rax);
    push_ (OReg rax);
    jmp_ind_ (OMem rax (-8));
    label_ enter_do_not_switch;
    pop_ rax;
    push_ (OReg rsp);
    push_ (OMem rsp 0);
    jmp_ind_ (OReg rax) ].

Definition granary_exit_private_stack : list instr := [ pop_ rax; pop_ rsp; jmp_ind_ (OReg rax) ].

(** ** Lemmas *)

(** What the switch needs of the helper: it obeys the calling convention and
    returns the top [P] of the private stack, which is apart from the
    stretch [lo, hi) of the current stack. *)
Definition gives_top_keeping (ks : list reg) (cl : callee_sem) (top_fn P hi : Z) (m : mach) : Prop :=
  forall m', regs m' rsp = regs m rsp - 24 -> wf_regs m' ->
    exists m'', cl top_fn m' = Ret (None, m'') /\ regs m'' rax = P /\
      abi_keeps ks (regs m rsp - 24) hi m' m''.
Abbreviation gives_top := (gives_top_keeping callee_saved).

Record entered_keeping (ks : list reg) (s hi P : Z) (m m1 : mach) : Prop := {
  en_sp : regs m1 rsp = P - 16 \/ regs m1 rsp = s - 16;
  en_word : read64 (mem m1) (regs m1 rsp) = s;
  en_args : regs m1 rdi = regs m rdi /\ regs m1 rsi = regs m rsi;
  en_saved : forall r, r ∈ ks -> regs m1 r = regs m r;
  en_wf : wf_regs m1;
  en_mem : forall x, s <= x < hi -> mem m1 x = mem m x
}.
Abbreviation entered := (entered_keeping callee_saved).

(** The registers that the switch itself uses. *)
Definition not_used (ks : list reg) : Prop := forall r, r ∈ ks -> r <> rsp /\ r <> rdi /\ r <> rsi /\ r <> rax.

Lemma wf_set_reg r v m : wf_regs m -> in_width 64 v -> wf_regs (set_reg r v m).
Proof.
  intros Hm Hv x. destruct (decide (x = r)) as [->|Hne].
  - now rewrite regs_set_same.
  - rewrite regs_set_other by done. apply Hm.
Qed.

Lemma wf_set_mem f m : wf_regs m -> wf_regs (set_mem f m).
Proof. intros Hm. exact Hm. Qed.

Lemma callee_saved_other r : r ∈ callee_saved -> r <> rsp /\ r <> rdi /\ r <> rsi /\ r <> rax.
Proof.
  unfold callee_saved. intros Hr.
  repeat (apply elem_of_cons in Hr as [->|Hr]; [repeat split; discriminate|]). by apply elem_of_nil in Hr.
Qed.

(** The part of [granary_enter_private_stack] up to the comparison. *)
Lemma enter_prefix ks go cl top_fn P hi m ra rest :
  let s := regs m rsp in
  wf_regs m -> in_width 64 ra -> 64 <= s -> s <= hi -> hi < 2 ^ 64 -> s + 8 < 2 ^ 64 ->
  in_width 64 P -> gives_top_keeping ks cl top_fn P hi m -> not_used ks ->
  exists m1,
    run_from go no_native cl
      ([push_ (OReg rdi); push_ (OReg rsi); call_ top_fn; pop_ rsi; pop_ rdi;
        push_ (OReg rax); xor_ (OReg rax) (OReg rsp); shr_ rax 16; pop_ rax] ++ rest) (push ra m)
      = run_from go no_native cl rest m1 /\
    regs m1 rsp = s - 8 /\ regs m1 rax = P /\ read64 (mem m1) (s - 8) = ra /\
    regs m1 rdi = regs m rdi /\ regs m1 rsi = regs m rsi /\
    (forall r, r ∈ ks -> regs m1 r = regs m r) /\ wf_regs m1 /\
    (forall x, s <= x < hi -> mem m1 x = mem m x).
Proof.
  intros s Hwf Hra Hlo Hhi Hhi2 Hs HP Hcl Hks. unfold push. rewrite wrap_small by (fold s; lia).
  fold s. set (m0 := set_reg rsp _ _).
  assert (W0 : wf_regs m0) by (apply wf_set_reg; [done|split; lia]).
  cbn [app]. erewrite run_from_next by (apply exec_push; cbn; fold s; lia).
  erewrite run_from_next by (apply exec_push; cbn; fold s; lia).
  cbn -[Z.sub Z.add run_from]. fold s. set (m2 := set_reg rsp _ _).
  assert (S2 : regs m2 rsp = s - 24) by (unfold m2; rewrite regs_set_same; lia).
  assert (W2 : wf_regs m2).
  { unfold m2. repeat first [apply wf_set_reg | apply wf_set_mem]; try done; split; lia. }
  destruct (Hcl m2 S2 W2) as (m3 & E3 & R3 & [A1 A2 A3 A4]).
  rewrite (run_from_call _ _ _ _ _ _ _ E3).
  assert (M3 : forall x, s - 24 <= x < hi -> mem m3 x = mem m2 x) by exact A4.
  assert (M2 : forall a, word_at a -> s - 24 <= a -> a + 8 <= hi -> read64 (mem m3) a = read64 (mem m2) a).
  { intros a Ha H1 H2. apply read64_ext; [done|]. intros x Hx. apply M3. lia. }
  pose proof (Hwf rdi) as Wrdi. pose proof (Hwf rsi) as Wrsi.
  assert (Hrd : read64 (mem m3) (s - 16) = regs m rdi /\ read64 (mem m3) (s - 24) = regs m rsi /\
                read64 (mem m3) (s - 8) = ra).
  { rewrite !M2 by (try split; lia). unfold m2. cbn -[Z.sub]. fold s.
    replace (s - 8 - 8) with (s - 16) by lia. replace (s - 16 - 8) with (s - 24) by lia. machine. done. }
  destruct Hrd as (Hrd & Hrs & Hrr).
  assert (S3 : regs m3 rsp = s - 24) by congruence.
  erewrite run_from_next by (apply exec_pop; lia).
  erewrite run_from_next by (apply exec_pop; rewrite ?regs_set_other, ?regs_set_same by congruence; lia).
  erewrite run_from_next by (apply exec_push; cbn -[Z.add Z.sub]; lia).
  erewrite run_from_next by reflexivity. erewrite run_from_next by reflexivity.
  erewrite run_from_next by (apply exec_pop; cbn -[Z.add Z.sub]; lia).
  eexists. split; [reflexivity|]. cbn -[Z.add Z.sub]. rewrite !S3.
  replace (s - 24 + 8 + 8 - 8) with (s - 16) by lia. replace (s - 24 + 8) with (s - 16) by lia.
  replace (s - 16 + 8) with (s - 8) by lia. machine.
  split; [done|]. split; [done|]. split; [done|]. split; [done|]. split; [done|]. split; [|split].
  - intros r Hr. destruct (Hks r Hr) as (? & ? & ? & ?).
    assert (Hk : regs m3 r = regs m r) by (rewrite A2 by done; unfold m2, m0; destruct r; done).
    destruct r; done.
  - intros r. destruct r; cbn -[Z.sub]; (apply A3 || (rewrite ?R3, ?Hrd, ?Hrs; done) || (split; lia)).
  - intros x Hx. rewrite write64_other by (try split; lia). rewrite M3 by lia.
    unfold m2, m0. cbn -[Z.sub]. fold s. rewrite !write64_other by (try split; lia). done.
Qed.

Lemma enter_keeping_run ks cl top_fn P hi m ra :
  let s := regs m rsp in
  wf_regs m -> in_width 64 ra -> 64 <= s -> s <= hi -> hi < 2 ^ 64 -> s + 8 < 2 ^ 64 ->
  16 <= P < 2 ^ 64 -> P <= s - 8 \/ hi <= P - 16 -> gives_top_keeping ks cl top_fn P hi m -> not_used ks ->
  exists m1, call_code 1 no_native cl (granary_enter_private_stack top_fn) ra m = Ret (None, m1) /\
    entered_keeping ks s hi P m m1.
Proof.
  intros s Hwf Hra Hlo Hhi Hhi2 Hs HP Hapart Hcl Hks. unfold call_code, run.
  set (go := branch 1 _ _ _).
  change (granary_enter_private_stack top_fn) with
    ([push_ (OReg rdi); push_ (OReg rsi); call_ top_fn; pop_ rsi; pop_ rdi;
      push_ (OReg rax); xor_ (OReg rax) (OReg rsp); shr_ rax 16; pop_ rax] ++
     skipn 9 (granary_enter_private_stack top_fn)).
  destruct (enter_prefix ks go cl top_fn P hi m ra (skipn 9 (granary_enter_private_stack top_fn)))
    as (m1 & -> & S1 & R1 & Hret & Hdi & Hsi & Hcs & W1 & M1); try done; [split; lia|]. fold s in S1, Hret, M1.
  assert (Hfin : forall m2, regs m2 rsp = P - 16 \/ regs m2 rsp = s - 16 ->
    read64 (mem m2) (regs m2 rsp) = s ->
    (forall r, r <> rsp -> r <> rax -> regs m2 r = regs m1 r) -> in_width 64 (regs m2 rax) ->
    (forall x, s <= x < hi -> mem m2 x = mem m1 x) -> entered_keeping ks s hi P m m2).
  { intros m2 H1 H2 H3 H4 H5. constructor; [done|done| | | |].
    - rewrite !H3 by done. done.
    - intros r Hr. destruct (Hks r Hr) as (? & ? & ? & ?). rewrite H3 by done. auto.
    - intros r. destruct (decide (r = rsp)) as [->|]; [destruct H1 as [-> | ->]; split; lia|].
      destruct (decide (r = rax)) as [->|]; [done|]. rewrite H3 by done. apply W1.
    - intros x Hx. rewrite H5 by done. auto. }
  cbn [skipn granary_enter_private_stack run_from exec1].
  destruct (get_flag ZF (flags m1)) eqn:Ez.
  - unfold go. cbn [branch]. cbn [find_label granary_enter_private_stack].
    rewrite decide_True by done.
    erewrite run_from_next by (apply exec_pop; lia). rewrite S1, Hret.
    erewrite run_from_next by (apply exec_push; cbn -[Z.add Z.sub]; lia).
    erewrite run_from_next by reflexivity.
    cbn [run_from exec1 get_op]. cbn -[Z.add Z.sub]. unfold ea. cbn -[Z.add Z.sub].
    replace (s - 8 + 8) with s by lia. rewrite Z.add_0_r. machine. rewrite Z.eqb_refl.
    eexists. split; [reflexivity|]. apply Hfin; cbn -[Z.add Z.sub].
    + right. machine. lia.
    + machine. done.
    + intros r Hne1 Hne2. destruct r; done.
    + done.
    + intros x Hx. machine. rewrite !write64_other by (try split; lia). done.
  - cbn [run_from exec1 get_op set_op]. unfold push, ea. cbn -[Z.add Z.sub run_from].
    rewrite R1, S1. replace (s - 8 + 8) with s by lia. machine.
    replace (P - 8 - 8) with (P - 16) by lia. replace (s + -8) with (s - 8) by lia.
    machine. rewrite Hret. rewrite Z.eqb_refl.
    eexists. split; [reflexivity|]. apply Hfin; cbn -[Z.add Z.sub].
    + left. machine. lia.
    + machine. done.
    + intros r Hne1 Hne2. destruct r; done.
    + split; lia.
    + intros x Hx. machine. rewrite !write64_other by (try split; lia). done.
Qed.

Lemma enter_private_stack_run cl top_fn P hi m ra :
  let s := regs m rsp in
  wf_regs m -> in_width 64 ra -> 64 <= s -> s <= hi -> hi < 2 ^ 64 -> s + 8 < 2 ^ 64 ->
  16 <= P < 2 ^ 64 -> P <= s - 8 \/ hi <= P - 16 -> gives_top cl top_fn P hi m ->
  exists m1, call_code 1 no_native cl (granary_enter_private_stack top_fn) ra m = Ret (None, m1) /\
    entered s hi P m m1.
Proof. intros. apply enter_keeping_run; try done. exact callee_saved_other. Qed.

Lemma exit_private_stack_run cl s ra m :
  let p := regs m rsp in
  in_width 64 ra -> 8 <= p -> p + 16 < 2 ^ 64 -> read64 (mem m) p = s ->
  exists m', call_code 0 no_native cl granary_exit_private_stack ra m = Ret (None, m') /\
    regs m' rsp = s /\ (forall r, r <> rsp -> r <> rax -> regs m' r = regs m r) /\
    regs m' rax = ra /\ flags m' = flags m /\
    (forall x, 0 <= x < 2 ^ 64 -> x < p - 8 \/ p <= x -> mem m' x = mem m x).
Proof.
  intros p Hra Hlo Hhi Hs. unfold call_code, run. unfold granary_exit_private_stack.
  unfold push. rewrite wrap_small by (fold p; lia). fold p.
  erewrite run_from_next by (apply exec_pop; cbn -[Z.add Z.sub]; lia).
  erewrite run_from_next by (apply exec_pop; cbn -[Z.add Z.sub]; lia).
  cbn -[Z.add Z.sub]. machine. replace (p - 8 + 8) with p by lia. machine. rewrite Hs, Z.eqb_refl.
  eexists. split; [reflexivity|]. cbn -[Z.add Z.sub]. machine.
  split; [|split; [intros r Hr1 Hr2; destruct r; done|split; [done|split; [done|]]]].
  - replace (p - 8 + 8) with p by lia. done.
  - intros x Hx Hd. rewrite write64_other by (try split; lia). done.
Qed.

(** ** Theorem *)

(** Switching stacks: entering returns, with the argument and callee-saved
    registers and the current stack above [s] kept; and from any later state
    with the stack pointer and the word it points to as entering left them,
    leaving returns with the stack pointer [s] again and the other registers
    but [rax] unchanged.  This covers both the switch and the case of being
    on the private stack already. *)
Theorem private_stack_roundtrip cl top_fn P hi m ra ra' :
  let s := regs m rsp in
  wf_regs m -> in_width 64 ra -> in_width 64 ra' -> 64 <= s -> s <= hi -> hi < 2 ^ 64 -> s + 8 < 2 ^ 64 ->
  32 <= P < 2 ^ 64 -> P <= s - 8 \/ hi <= P - 16 -> gives_top cl top_fn P hi m ->
  exists m1, call_code 1 no_native cl (granary_enter_private_stack top_fn) ra m = Ret (None, m1) /\
    regs m1 rdi = regs m rdi /\ regs m1 rsi = regs m rsi /\
    (forall r, r ∈ callee_saved -> regs m1 r = regs m r) /\
    (forall x, s <= x < hi -> mem m1 x = mem m x) /\
    forall m2, regs m2 rsp = regs m1 rsp -> read64 (mem m2) (regs m2 rsp) = read64 (mem m1) (regs m1 rsp) ->
      exists m3, call_code 0 no_native cl granary_exit_private_stack ra' m2 = Ret (None, m3) /\
        regs m3 rsp = s /\ (forall r, r <> rsp -> r <> rax -> regs m3 r = regs m2 r).
Proof.
  intros s Hwf Hra Hra' Hlo Hhi Hhi2 Hs HP Hapart Hcl.
  destruct (enter_private_stack_run cl top_fn P hi m ra) as (m1 & E1 & []); try done; [lia|].
  fold s in en_sp0, en_word0, en_mem0. exists m1. split; [exact E1|]. destruct en_args0.
  split; [done|]. split; [done|]. split; [done|]. split; [done|]. intros m2 Hsp Hw.
  destruct (exit_private_stack_run cl s ra' m2) as (m3 & E3 & S3 & R3 & _); try done.
  - destruct en_sp0; lia.
  - destruct en_sp0; lia.
  - congruence.
  - exists m3. auto.
Qed.

(** A helper that returns a constant. *)
Definition constant_top (P : Z) : callee_sem := fun _ m => Ret (None, set_reg rax P m).

Lemma constant_gives_top P f hi m : in_width 64 P -> gives_top (constant_top P) f P hi m.
Proof.
  intros HP m' Hsp Hwf. eexists. split; [reflexivity|]. rewrite regs_set_same. split; [done|].
  constructor; try done.
  - intros r Hr. destruct (callee_saved_other r Hr) as (_ & _ & _ & ?). now rewrite regs_set_other.
  - now apply wf_set_reg.
Qed.

Lemma private_stack_roundtrip_witness :
  let m := {| regs := fun r => if reg_eqb r rsp then 0x10000 else reg_id r; mem := fun _ => 0; flags := 0 |} in
  exists m1, call_code 1 no_native (constant_top 0x900000) (granary_enter_private_stack 0x77) 0x1234 m = Ret (None, m1) /\
    exists m3, call_code 0 no_native (constant_top 0x900000) granary_exit_private_stack 0x1240 m1 = Ret (None, m3) /\
      regs m3 rsp = 0x10000.
Proof.
  intros m.
  destruct (private_stack_roundtrip (constant_top 0x900000) 0x77 0x900000 0x20000 m 0x1234 0x1240)
    as (m1 & E1 & _ & _ & _ & _ & K).
  all: try (unfold in_width; cbn; lia).
  - intros r. destruct r; split; cbn; lia.
  - apply constant_gives_top. split; lia.
  - exists m1. split; [exact E1|]. destruct (K m1 eq_refl eq_refl) as (m3 & E3 & S3 & _).
    exists m3. split; [exact E3|exact S3].
Defined.
