(* ===== verification/PrivateCall.v ===== *)
(** * Calls from generated code to Granary

    Three generated routines leave the native stack to run a C++ function:
    the lookup of an indirect branch ([granary/ibl.cc]), the linking of a
    direct branch ([granary/dbl.cc]) and the interrupt handler
    ([granary/kernel/interrupt.cc]).  They choose the registers to save with
    a register manager, switch to the private stack, call, and switch back.
    This file has the parts they share: the calls, near or far, and the
    lemma on a call made on the private stack. *)

From Stdlib Require Import ZArith Lia.
From stdpp Require Import base numbers list option.
From S2P Require Import Prelude Register Machine EmitUtils PrivateStack.

Fixpoint revive_regs (rs : list reg) (rm : register_manager) : outcome register_manager :=
  match rs with
  | [] => Ret rm
  | r :: rs => rm ← revive_reg (reg_id r) rm; revive_regs rs rm
  end.

(** A call that may clobber [rax] ([reg::ret]). *)
Definition insert_call (staged_loc target : Z) (c : cursor) : cursor :=
  insert_cti_after staged_loc target (Some rax) 0 CTI_CALL c.

(** The instructions of a call, whether the target is near or far. *)
Definition call_instrs (staged target : Z) : list instr :=
  if is_far_away staged target then [mov_imm_ rax target; call_ind_ (OReg rax)] else [call_ target].

Lemma insert_call_instrs staged target c :
  insert_call staged target c = {| before := before c ++ call_instrs staged target; after := after c |}.
Proof.
  unfold insert_call, insert_cti_after, call_instrs, insert_after.
  destruct (is_far_away staged target); cbn; [|done]. now rewrite <- app_assoc.
Qed.

(** A machine that differs from [m] in [rax] at most. *)
Definition but_rax (m m0 : mach) : Prop :=
  wf_regs m0 /\ (forall r, r <> rax -> regs m0 r = regs m r) /\ mem m0 = mem m.

Lemma call_instrs_all go cl staged target m (Q : mach -> Prop) :
  wf_regs m -> in_width 64 target ->
  (forall m0, but_rax m m0 -> exists m', cl target m0 = Ret (None, m') /\ Q m') ->
  exists m', (forall rest, run_from go no_native cl (call_instrs staged target ++ rest) m =
    run_from go no_native cl rest m') /\ Q m'.
Proof.
  intros Hwf Hw Hcl. unfold call_instrs. destruct (is_far_away staged target).
  - destruct (Hcl (set_reg rax target m)) as (m' & E & HQ).
    { split; [now apply wf_set_reg|]. split; [|done]. intros r Hr. now rewrite regs_set_other. }
    exists m'. split; [|done]. intros rest. cbn [app run_from exec1 get_op]. rewrite wrap_small by exact Hw.
    rewrite regs_set_same, E. reflexivity.
  - destruct (Hcl m) as (m' & E & HQ); [done|]. exists m'. split; [|done].
    intros rest. cbn [app]. now apply run_from_call.
Qed.

Lemma call_instrs_run go cl staged target rest m (Q : mach -> Prop) :
  wf_regs m -> in_width 64 target ->
  (forall m0, but_rax m m0 -> exists m', cl target m0 = Ret (None, m') /\ Q m') ->
  exists m', run_from go no_native cl (call_instrs staged target ++ rest) m = run_from go no_native cl rest m' /\ Q m'.
Proof.
  intros Hwf Hw Hcl. destruct (call_instrs_all go cl staged target m Q Hwf Hw Hcl) as (m' & E & HQ). eauto.
Qed.

Lemma entered_but_rax s hi P m m0 m1 :
  but_rax m m0 -> entered s hi P m0 m1 -> entered s hi P m m1.
Proof.
  intros (_ & Hr & Hm) []. constructor; auto.
  - rewrite <- !Hr by done. done.
  - intros r Hin. destruct (callee_saved_other r Hin) as (? & ? & ? & ?). rewrite <- Hr by done. auto.
  - intros x Hx. rewrite <- Hm. auto.
Qed.

Section PrivateCall.
Context (top_fn enter_fn exit_fn fn ra : Z) (top_sem : callee_sem) (fn_sem : mach -> outcome (option exit * mach)).

(** The three functions that are called. *)
Definition private_callee : callee_sem := fun a m =>
  if a =? enter_fn then call_code 1 no_native top_sem (granary_enter_private_stack top_fn) ra m
  else if a =? exit_fn then call_code 0 no_native top_sem granary_exit_private_stack ra m
  else if a =? fn then fn_sem m
  else Fault.

(** The code between the saved and the restored registers. *)
Definition private_call (staged : Z) : list instr :=
  call_instrs staged enter_fn ++ call_instrs staged fn ++
  [mov_ld_ rdi (OReg rax)] ++ call_instrs staged exit_fn.

(** The function, called with the arguments and the stack [lo, hi) of [m],
    obeys the calling convention, returns [v], and leaves [G] on that stack;
    the word on top of the private stack is not its own. *)
Definition returns (m : mach) (v lo hi : Z) (G : Z -> Z) : Prop :=
  forall m1, regs m1 rdi = regs m rdi -> regs m1 rsi = regs m rsi -> wf_regs m1 ->
    (forall x, lo <= x < hi -> mem m1 x = mem m x) -> regs m1 rsp + 8 <= lo \/ hi <= regs m1 rsp ->
    exists m2, fn_sem m1 = Ret (None, m2) /\ regs m2 rax = v /\ regs m2 rsp = regs m1 rsp /\
      (forall r, r ∈ callee_saved -> regs m2 r = regs m1 r) /\ wf_regs m2 /\
      read64 (mem m2) (regs m1 rsp) = read64 (mem m1) (regs m1 rsp) /\
      (forall x, lo <= x < hi -> mem m2 x = G x).

(** Distinct addresses, and the private stack apart from the stretch
    [s, hi) of the current one. *)
Record private_env (s hi P : Z) : Prop := {
  pe_addrs : Forall (in_width 64) [enter_fn; exit_fn; fn; ra];
  pe_distinct : NoDup [enter_fn; exit_fn; fn];
  pe_stack : 64 <= s /\ s <= hi /\ hi < 2 ^ 64 /\ s + 8 < 2 ^ 64;
  pe_private : 32 <= P < 2 ^ 64 /\ (P <= s - 8 \/ hi <= P - 24);
  pe_top : forall m0, regs m0 rsp = s -> gives_top top_sem top_fn P hi m0
}.

Lemma callee_enter m : private_callee enter_fn m =
  call_code 1 no_native top_sem (granary_enter_private_stack top_fn) ra m.
Proof. unfold private_callee. by rewrite Z.eqb_refl. Qed.

Lemma callee_exit m : exit_fn <> enter_fn ->
  private_callee exit_fn m = call_code 0 no_native top_sem granary_exit_private_stack ra m.
Proof. intros Hne. unfold private_callee. by rewrite (proj2 (Z.eqb_neq exit_fn enter_fn)), Z.eqb_refl. Qed.

Lemma callee_fn m : fn <> enter_fn -> fn <> exit_fn -> private_callee fn m = fn_sem m.
Proof.
  intros H1 H2. unfold private_callee.
  by rewrite (proj2 (Z.eqb_neq fn enter_fn)), (proj2 (Z.eqb_neq fn exit_fn)), Z.eqb_refl.
Qed.

Lemma private_call_run go staged m rest hi P v G :
  let s := regs m rsp in
  private_env s hi P -> wf_regs m -> returns m v s hi G ->
  exists m', run_from go no_native private_callee (private_call staged ++ rest) m =
      run_from go no_native private_callee rest m' /\
    regs m' rsp = s /\ regs m' rdi = v /\
    (forall r, r ∈ callee_saved -> regs m' r = regs m r) /\
    (forall x, s <= x < hi -> mem m' x = G x).
Proof.
  intros s [Haddr Hnd (Hlo & Hhi & Hhi2 & Hs) (HP & Hapart) Htop] Hwf Hfn.
  rewrite !List.Forall_cons_iff in Haddr. destruct Haddr as (We & Wx & Wf & Hra & _).
  unfold private_call. rewrite <- !app_assoc.
  destruct (call_instrs_run go private_callee staged enter_fn
    (call_instrs staged fn ++ [mov_ld_ rdi (OReg rax)] ++ call_instrs staged exit_fn ++ rest) m
    (fun m1 => entered s hi P m m1)) as (m1 & -> & []); [done|done| |].
  { intros m0 Hb. pose proof Hb as (Hwf0 & Hr0 & Hm0). rewrite callee_enter.
    assert (Hsp0 : regs m0 rsp = s) by (rewrite Hr0 by done; done).
    destruct (enter_private_stack_run top_sem top_fn P hi m0 ra) as (m1 & E & Hen);
      rewrite ?Hsp0; try done; try lia; try (apply Htop; done).
    rewrite Hsp0 in Hen. exists m1. split; [done|]. eapply entered_but_rax; eauto. }
  assert (Hne : fn <> enter_fn /\ fn <> exit_fn /\ exit_fn <> enter_fn).
  { inversion Hnd as [|? ? N1 N2]; subst. inversion N2 as [|? ? N3 N4]; subst.
    rewrite !elem_of_cons, elem_of_nil in N1. rewrite elem_of_cons, elem_of_nil in N3.
    repeat split; intros ->; tauto. }
  destruct Hne as (Hfe & Hfx & Hxe). destruct en_args as [Hdi Hsi].
  destruct (call_instrs_run go private_callee staged fn
    ([mov_ld_ rdi (OReg rax)] ++ call_instrs staged exit_fn ++ rest) m1
    (fun m2 => regs m2 rsp = regs m1 rsp /\ regs m2 rax = v /\
       read64 (mem m2) (regs m1 rsp) = s /\ wf_regs m2 /\
       (forall r, r ∈ callee_saved -> regs m2 r = regs m1 r) /\
       (forall x, s <= x < hi -> mem m2 x = G x))) as (m2 & -> & Hsp2 & Hrax2 & Hw2 & Wf2 & Hcs2 & Hm2);
    [done|done| |].
  { intros m0 (Hwf0 & Hr0 & Hm0). rewrite callee_fn by done.
    destruct (Hfn m0) as (m2 & E & Hrax & Hsp & Hcs & Wf2 & Hword & Hmem);
      [rewrite Hr0 by done; congruence..|done|intros x Hx; rewrite Hm0; auto
      |rewrite Hr0 by done; destruct en_sp; lia|].
    exists m2. split; [done|]. rewrite Hr0 in * by done. rewrite Hm0 in *. split; [done|]. split; [done|].
    split; [congruence|]. split; [done|]. split; [|done].
    intros r Hin. destruct (callee_saved_other r Hin) as (? & ? & ? & ?).
    rewrite Hcs by done. now apply Hr0. }
  cbn [app]. erewrite run_from_next by reflexivity. set (m2' := set_reg rdi _ m2).
  assert (Hsp2' : regs m2' rsp = regs m1 rsp) by (unfold m2'; now rewrite regs_set_other).
  destruct (call_instrs_run go private_callee staged exit_fn rest m2'
    (fun m3 => regs m3 rsp = s /\ regs m3 rdi = v /\
       (forall r, r ∈ callee_saved -> regs m3 r = regs m2 r) /\
       (forall x, s <= x < hi -> mem m3 x = mem m2 x))) as (m3 & -> & Hsp3 & Hdi3 & Hcs3 & Hm3);
    [apply wf_set_reg; [done|apply (Wf2 rax)]|done| |].
  { intros m0 (Hwf0 & Hr0 & Hm0). rewrite callee_exit by done.
    assert (Hsp0 : regs m0 rsp = regs m1 rsp) by (rewrite Hr0 by done; done).
    destruct (exit_private_stack_run top_sem s ra m0) as (m3 & E & S3 & R3 & _ & _ & M3).
    - done.
    - rewrite Hsp0. destruct en_sp; lia.
    - rewrite Hsp0. destruct en_sp; lia.
    - rewrite Hm0, Hsp0. exact Hw2.
    - exists m3. split; [done|]. split; [done|]. split; [|split].
      + rewrite R3, Hr0 by done. unfold m2'. now rewrite regs_set_same.
      + intros r Hin. destruct (callee_saved_other r Hin) as (? & ? & ? & ?).
        rewrite R3, Hr0 by done. unfold m2'. now rewrite regs_set_other.
      + intros x Hx. rewrite M3, Hm0; [done|lia|]. rewrite Hsp0. destruct en_sp; lia. }
  exists m3. split; [done|]. split; [done|]. split; [done|]. split.
  - intros r Hin. rewrite Hcs3, Hcs2 by done. auto.
  - intros x Hx. rewrite Hm3 by done. auto.
Qed.

End PrivateCall.
