(* ===== verification/CleanCall.v ===== *)
(** * Clean calls: [granary/emit_utils.cc], [emit_utils.h]

    A client calls a C++ function from instrumented code by a clean call.
    [generate_clean_callable_address] makes an exit routine for the function:
    it saves the flags, disables interrupts, saves the registers that the
    function may change (as found by [UsedRegs]), aligns the stack, calls
    the function and undoes all of it.  [insert_clean_call_after] saves the
    argument registers, computes the arguments, and calls the routine.

    The theorems, for kernel builds (builds for user space save the XMM
    registers as well): the function runs with the arguments that the
    operands have in the instrumented code, and afterwards the code goes on
    with its registers, flags and stack; a function that calls another one
    may lose [rax] and [rcx] of the instrumented code; and an argument that
    is read from an argument register is the value of an earlier argument.  *)

From Stdlib Require Import ZArith Lia Bool.
From stdpp Require Import base numbers list option gmap.
From S2P Require Import Prelude Register Worklist UsedRegs Machine EmitUtils PrivateStack PrivateCall.

Inductive register_exit_constaint := EXIT_REGS_ABI_COMPATIBLE | EXIT_REGS_UNCONSTRAINED.

#[export] Instance exit_constraint_eq_dec : EqDecision register_exit_constaint.
Proof. solve_decision. Defined.

(** [reg::arg1] to [reg::arg5] of kernel builds. *)
Definition ARGUMENT_REGISTERS : list reg := [rdi; rsi; rdx; r10; r8].

Fixpoint kill_regs (rs : list reg) (rm : register_manager) : outcome register_manager :=
  match rs with
  | [] => Ret rm
  | r :: rs => rm ← kill_reg (reg_id r) rm; kill_regs rs rm
  end.

Definition traversal_of (constraint : register_exit_constaint) : instruction_traversal_constraint :=
  match constraint with
  | EXIT_REGS_ABI_COMPATIBLE => USED_REGS_IGNORE_CALLS
  | EXIT_REGS_UNCONSTRAINED => USED_REGS_VISIT_ALL_INSTRUCTIONS
  end.

(** The registers to save, from those that the function uses.  The array of
    the argument registers has five entries. *)
Definition clean_call_regs (constraint : register_exit_constaint) (num_args : nat) (dead : register_manager)
    : outcome register_manager :=
  dead ← match constraint with
         | EXIT_REGS_ABI_COMPATIBLE =>
             dead ← revive_regs [rbx; rbp; r12; r13; r14; r15] dead;
             kill_regs [r8; r9; r10; r11] dead
         | EXIT_REGS_UNCONSTRAINED => Ret dead
         end;
  if bool_decide (num_args <= 5)%nat then
    dead ← revive_regs (rev (take num_args ARGUMENT_REGISTERS)) dead;
    kill_regs (drop num_args ARGUMENT_REGISTERS) dead
  else Fault.

(** [staged_loc] is where the code will be, [slot] a word that holds
    [func_pc] if it is far away. *)
Definition clean_call_code (staged_loc slot func_pc : Z) (constraint : register_exit_constaint)
    (dead : register_manager) : outcome (list instr) :=
  c ← save_and_restore_registers ZOMBIE_FUEL dead {| before := [pushf_; cli_]; after := [] |};
  let abi := bool_decide (constraint = EXIT_REGS_ABI_COMPATIBLE) in
  let c := if abi then insert_all insert_align_stack_after c else c in
  let c := insert_cti_after staged_loc func_pc None slot CTI_CALL c in
  let c := if abi then insert_all insert_restore_old_stack_alignment_after c else c in
  Ret (cursor_list c ++ [popf_; ret_]).

Definition generate_clean_callable_address (decode : Z -> dins) (block_fuel fuel : nat) (staged_loc slot func_pc : Z)
    (num_args : nat) (constraint : register_exit_constaint) : outcome (list instr) :=
  dead ← find_used_regs_in_func decode (traversal_of constraint) block_fuel fuel func_pc;
  dead ← clean_call_regs constraint num_args dead;
  clean_call_code staged_loc slot func_pc constraint dead.

(** ** Arguments *)

(** Computed by emitted code, a constant, or the value of an operand. *)
Inductive clean_call_argument :=
  | CLEAN_CALL_ARG_FUNC (as_func : reg -> list instr)
  | CLEAN_CALL_ARG_IMM (as_value : Z)
  | CLEAN_CALL_ARG_OPERAND (as_operand : operand).

Definition argument_code (arg : clean_call_argument) (r : reg) : list instr :=
  match arg with
  | CLEAN_CALL_ARG_FUNC as_func => as_func r
  | CLEAN_CALL_ARG_IMM v => [mov_imm_ r v]
  | CLEAN_CALL_ARG_OPERAND (OImm v) => [mov_imm_ r v]
  | CLEAN_CALL_ARG_OPERAND (OReg s) => if reg_eqb r s then [] else [mov_ld_ r (OReg s)]
  | CLEAN_CALL_ARG_OPERAND o => [mov_ld_ r o]
  end.

Fixpoint insert_clean_call_arguments_after (args : list clean_call_argument) (rs : list reg) : outcome (list instr) :=
  match args, rs with
  | [], _ => Ret []
  | arg :: args, r :: rs =>
      code ← insert_clean_call_arguments_after args rs;
      Ret (argument_code arg r ++ code)
  | _ :: _, [] => Fault
  end.

Definition insert_clean_call_after (staged_loc slot clean_call_func : Z) (args : list clean_call_argument)
    : outcome (list instr) :=
  let rs := take (length args) ARGUMENT_REGISTERS in
  code ← insert_clean_call_arguments_after args ARGUMENT_REGISTERS;
  Ret (map (fun r => push_ (OReg r)) rs ++ code ++
       cursor_list (insert_cti_after staged_loc clean_call_func None slot CTI_CALL {| before := []; after := [] |}) ++
       map pop_ (rev rs)).

(** ** Lemmas: the registers to save *)
Lemma reg64_of_reg r : reg64_of (reg_id r) = reg_id r.
Proof. destruct r; reflexivity. Qed.

Lemma reg_id_decide r s : (reg_id r =? reg_id s) = bool_decide (r = s).
Proof.
  destruct (Z.eqb_spec (reg_id r) (reg_id s)) as [E|E]; symmetry; [apply bool_decide_eq_true; by apply reg_id_inj|].
  apply bool_decide_eq_false. by intros ->.
Qed.

(** No register is a zombie. *)
Definition no_zombies (rm : register_manager) : Prop := forall r, zombie rm (reg_id r) = false.

Lemma revive_reg_live r rm :
  rm_wf rm -> no_zombies rm ->
  exists rm', revive_reg (reg_id r) rm = Ret rm' /\ rm_wf rm' /\ no_zombies rm' /\
    forall s, lives rm' (reg_id s) = lives rm (reg_id s) || bool_decide (r = s).
Proof.
  intros Hwf Hz. destruct (wf_view rm Hwf) as [V Hsp]. pose proof (reg_id_range r) as Hr.
  unfold revive_reg. destruct (Z.leb_spec DR_REG_MM0 (reg_id r)); [lia|].
  destruct (revive_64_view (reg_id r) rm _ _ _ _ ltac:(lia) V) as (rm' & E & V'). exists rm'. split; [done|].
  split; [eapply view_wf; [exact V'|]; cbn beta; by rewrite Hsp|].
  split; intros s; destruct (proj2 V' (reg_id s) (reg_id_range s)) as (Hl & Hu & _).
  - rewrite Hu. cbn beta. by rewrite Hz.
  - rewrite Hl. cbn beta. by rewrite reg64_of_reg, reg_id_decide.
Qed.

Lemma kill_reg_live r rm :
  rm_wf rm -> no_zombies rm ->
  exists rm', kill_reg (reg_id r) rm = Ret rm' /\ rm_wf rm' /\ no_zombies rm' /\
    forall s, s <> rsp -> lives rm' (reg_id s) = lives rm (reg_id s) && negb (bool_decide (r = s)).
Proof.
  intros Hwf Hz. destruct (wf_view rm Hwf) as [V Hsp]. pose proof (reg_id_range r) as Hr.
  destruct (kill_reg_view (reg_id r) rm _ _ _ _ ltac:(lia) Hsp V) as (rm' & E & V'). exists rm'. split; [done|].
  split; [eapply view_wf; [exact V'|apply orb_true_r]|].
  split; intros s; destruct (proj2 V' (reg_id s) (reg_id_range s)) as (Hl & Hu & _).
  - rewrite Hu. cbn beta. by rewrite Hz.
  - intros Hs. rewrite Hl. cbn [op_full]. rewrite (proj2 (Z.leb_le (reg_id r) 32)) by lia.
    rewrite reg64_of_reg, reg_id_decide. rewrite (proj2 (Z.eqb_neq (reg_id s) DR_REG_RSP)), orb_false_r; [done|].
    intros E'. apply Hs, reg_id_inj. exact E'.
Qed.

Lemma revive_regs_live rs : forall rm,
  rm_wf rm -> no_zombies rm ->
  exists rm', revive_regs rs rm = Ret rm' /\ rm_wf rm' /\ no_zombies rm' /\
    forall s, lives rm' (reg_id s) = lives rm (reg_id s) || bool_decide (s ∈ rs).
Proof.
  induction rs as [|r rs IH]; intros rm Hwf Hz.
  - exists rm. split; [done|]. split; [done|]. split; [done|]. intros s. by rewrite orb_false_r.
  - cbn [revive_regs]. destruct (revive_reg_live r rm Hwf Hz) as (rm1 & -> & W1 & Z1 & L1). cbn [mbind outcome_bind].
    destruct (IH rm1 W1 Z1) as (rm2 & -> & W2 & Z2 & L2). exists rm2. split; [done|]. split; [done|]. split; [done|].
    intros s. rewrite L2, L1, <- orb_assoc. f_equal. rewrite <- bool_decide_or. apply bool_decide_ext.
    rewrite elem_of_cons. intuition congruence.
Qed.

Lemma kill_regs_live rs : forall rm,
  rm_wf rm -> no_zombies rm ->
  exists rm', kill_regs rs rm = Ret rm' /\ rm_wf rm' /\ no_zombies rm' /\
    forall s, s <> rsp -> lives rm' (reg_id s) = lives rm (reg_id s) && negb (bool_decide (s ∈ rs)).
Proof.
  induction rs as [|r rs IH]; intros rm Hwf Hz.
  - exists rm. split; [done|]. split; [done|]. split; [done|]. intros s _. by rewrite andb_true_r.
  - cbn [kill_regs]. destruct (kill_reg_live r rm Hwf Hz) as (rm1 & -> & W1 & Z1 & L1). cbn [mbind outcome_bind].
    destruct (IH rm1 W1 Z1) as (rm2 & -> & W2 & Z2 & L2). exists rm2. split; [done|]. split; [done|]. split; [done|].
    intros s Hs. rewrite L2, L1, <- andb_assoc, <- negb_orb by done. do 2 f_equal. rewrite <- bool_decide_or.
    apply bool_decide_ext. rewrite elem_of_cons. intuition congruence.
Qed.

Lemma clean_call_regs_live constraint num_args rm :
  rm_wf rm -> no_zombies rm -> (num_args <= 5)%nat ->
  exists rm', clean_call_regs constraint num_args rm = Ret rm' /\ rm_wf rm' /\ no_zombies rm' /\
    forall s, s <> rsp -> s ∉ take num_args ARGUMENT_REGISTERS -> lives rm' (reg_id s) = true ->
      match constraint with
      | EXIT_REGS_UNCONSTRAINED => lives rm (reg_id s) = true
      | EXIT_REGS_ABI_COMPATIBLE => s ∈ callee_saved \/ lives rm (reg_id s) = true /\ (s = rax \/ s = rcx)
      end.
Proof.
  intros Hwf Hz Hn. unfold clean_call_regs. rewrite (bool_decide_true _ Hn).
  assert (H1 : exists rm1, match constraint with
      | EXIT_REGS_ABI_COMPATIBLE => dead ← revive_regs [rbx; rbp; r12; r13; r14; r15] rm; kill_regs [r8; r9; r10; r11] dead
      | EXIT_REGS_UNCONSTRAINED => Ret rm
      end = Ret rm1 /\ rm_wf rm1 /\ no_zombies rm1 /\
      forall s, s <> rsp -> lives rm1 (reg_id s) = true ->
        match constraint with
        | EXIT_REGS_UNCONSTRAINED => lives rm (reg_id s) = true
        | EXIT_REGS_ABI_COMPATIBLE => s ∈ callee_saved \/ lives rm (reg_id s) = true /\ s ∉ [r8; r9; r10; r11]
        end).
  { destruct constraint; [|by exists rm].
    destruct (revive_regs_live [rbx; rbp; r12; r13; r14; r15] rm Hwf Hz) as (rm1 & -> & W1 & Z1 & L1). cbn [mbind outcome_bind].
    destruct (kill_regs_live [r8; r9; r10; r11] rm1 W1 Z1) as (rm2 & -> & W2 & Z2 & L2). exists rm2.
    split; [done|]. split; [done|]. split; [done|]. intros s Hs. rewrite L2, L1 by done.
    intros [[H|H%bool_decide_eq_true]%orb_true_iff Hk]%andb_true_iff; [right|by left]. split; [done|].
    by apply negb_true_iff, bool_decide_eq_false in Hk. }
  destruct H1 as (rm1 & -> & W1 & Z1 & L1). cbn [mbind outcome_bind].
  destruct (revive_regs_live (rev (take num_args ARGUMENT_REGISTERS)) rm1 W1 Z1) as (rm2 & -> & W2 & Z2 & L2).
  cbn [mbind outcome_bind].
  destruct (kill_regs_live (drop num_args ARGUMENT_REGISTERS) rm2 W2 Z2) as (rm3 & -> & W3 & Z3 & L3). exists rm3.
  split; [done|]. split; [done|]. split; [done|]. intros s Hs Hargs. rewrite L3, L2 by done.
  intros [[H|H%bool_decide_eq_true]%orb_true_iff Hk]%andb_true_iff.
  2: { exfalso. apply Hargs. rewrite list_elem_of_In in *. by apply in_rev. }
  apply negb_true_iff, bool_decide_eq_false in Hk.
  assert (Hna : s ∉ ARGUMENT_REGISTERS).
  { rewrite <- (take_drop num_args ARGUMENT_REGISTERS), elem_of_app. tauto. }
  specialize (L1 s Hs H). destruct constraint; [|done]. destruct (decide (s ∈ callee_saved)) as [|Hc]; [by left|right].
  destruct L1 as [|[Hl Hr]]; [done|]. split; [done|]. clear - Hna Hr Hs Hc. unfold ARGUMENT_REGISTERS, callee_saved in *.
  rewrite !not_elem_of_cons in *. destruct s; tauto.
Qed.

(** ** Lemmas: the code *)

(** The register file that the instructions of a function work on. *)
Definition reg_file (m : mach) : Z -> Z := fun z => match reg_of_id z with Some r => regs m r | None => 0 end.

Section Run.
Context (decode : Z -> dins) (constraint : register_exit_constaint) (cl : callee_sem) (func : Z).
Context (istep : Register.instr -> (Z -> Z) * (Z -> Z) -> (Z -> Z) * (Z -> Z) -> Prop).

Definition abi : bool := bool_decide (constraint = EXIT_REGS_ABI_COMPATIBLE).

(** The function, called on a stack that ends above [lo]: it executes its
    instructions, returns, and leaves the stack of its callers, which goes
    up to [hi], alone.  In the constrained case it and the functions that it
    calls obey the calling convention. *)
Definition behaves (lo hi : Z) : Prop := forall m1,
  wf_regs m1 -> lo <= regs m1 rsp -> (abi = true -> regs m1 rsp mod 16 = 0) ->
  exists m2, cl func m1 = Ret (None, m2) /\ wf_regs m2 /\ regs m2 rsp = regs m1 rsp /\
    (forall x, regs m1 rsp <= x < hi -> mem m2 x = mem m1 x) /\
    executes decode (traversal_of constraint) istep (fun r => exists s, s ∈ callee_saved /\ reg_id s = r) func
      (mem m1, reg_file m1) (mem m2, reg_file m2) /\
    (abi = true -> forall r, r ∈ callee_saved -> regs m2 r = regs m1 r).

(** A target that is out of reach is in its slot, apart from the stack. *)
Definition slot_ok (staged slot target lo hi : Z) (m : mach) : Prop :=
  is_far_away staged target = true ->
  word_at slot /\ (slot + 8 <= lo \/ hi <= slot) /\ read64 (mem m) slot = target.

Lemma insert_cti_instr staged slot target c :
  insert_cti_after staged target None slot CTI_CALL c =
    insert_after (if is_far_away staged target then call_ind_ (OAbs slot) else call_ target) c.
Proof. unfold insert_cti_after. by destruct (is_far_away staged target). Qed.

Lemma call_run go staged slot target lo hi rest m m' (cl' : callee_sem) :
  slot_ok staged slot target lo hi m -> cl' target m = Ret (None, m') ->
  run_from go no_native cl' ((if is_far_away staged target then call_ind_ (OAbs slot) else call_ target) :: rest) m =
    run_from go no_native cl' rest m'.
Proof.
  intros Hs E. unfold slot_ok in Hs. destruct (is_far_away staged target); [|by apply run_from_call].
  destruct (Hs eq_refl) as (_ & _ & Hr). cbn [run_from exec1 get_op]. rewrite Hr, E. reflexivity.
Qed.

Lemma slot_ok_ext staged slot target lo hi m m' :
  (forall x, 0 <= x < 2 ^ 64 -> x < lo \/ hi <= x -> mem m' x = mem m x) ->
  slot_ok staged slot target lo hi m -> slot_ok staged slot target lo hi m'.
Proof.
  intros Hm Hs Hf. destruct (Hs Hf) as (Hw & Hd & Hr). split; [done|]. split; [done|]. rewrite <- Hr.
  destruct Hw as [Hw1 Hw2]. apply read64_ext; [done|]. intros x Hx. apply Hm; lia.
Qed.

(** The call of the function, on an aligned stack if need be. *)
Definition window (staged slot : Z) : list instr :=
  (if abi then insert_align_stack_after else []) ++
  [if is_far_away staged func then call_ind_ (OAbs slot) else call_ func] ++
  (if abi then insert_restore_old_stack_alignment_after else []).

Record called (lo : Z) (m m1 m2 : mach) : Prop := {
  ca_call : cl func m1 = Ret (None, m2);
  ca_args : forall r, r <> rsp -> regs m1 r = regs m r;
  ca_mem : forall x, 0 <= x < 2 ^ 64 -> x < lo \/ regs m rsp <= x -> mem m1 x = mem m x;
  ca_below : lo <= regs m1 rsp <= regs m rsp
}.

Lemma window_run go staged slot rest hi m :
  let s := regs m rsp in
  behaves (s - 24) hi -> slot_ok staged slot func (s - 24) s m -> wf_regs m ->
  64 <= s -> s + 16 < 2 ^ 64 -> s mod 8 = 0 -> s <= hi <= 2 ^ 64 ->
  exists m1 m2 m3, called (s - 24) m m1 m2 /\
    run_from go no_native cl (window staged slot ++ rest) m = run_from go no_native cl rest m3 /\
    mem m3 = mem m2 /\ regs m3 rsp = s /\ (forall r, r <> rsp -> regs m3 r = regs m2 r) /\
    (forall x, s <= x < hi -> mem m2 x = mem m x) /\
    executes decode (traversal_of constraint) istep (fun r => exists s, s ∈ callee_saved /\ reg_id s = r) func
      (mem m1, reg_file m1) (mem m2, reg_file m2) /\
    (abi = true -> forall r, r ∈ callee_saved -> regs m2 r = regs m1 r).
Proof.
  intros s Hb Hslot Hwf Hlo Hhi H8 Hs. unfold window. destruct abi eqn:Eabi.
  - destruct (align_stack_roundtrip no_native m Hwf) as (m1 & E1 & A1 & S1 & R1 & M1 & K); [lia..|done|].
    fold s in S1, M1, K. assert (Hwf1 : wf_regs m1).
    { intros r. destruct (decide (r = rsp)) as [->|Hr]; [split; lia|]. rewrite R1 by done. apply Hwf. }
    destruct (Hb m1 Hwf1) as (m2 & E2 & W2 & S2 & M2 & X2 & C2); [lia|done|].
    exists m1, m2, (set_reg rsp s m2). split; [|split].
    + constructor; [done|done| |lia]. intros x Hx Hd. apply M1; lia.
    + rewrite <- !app_assoc. rewrite (run_from_straight _ _ _ _ _ _ _ E1). cbn [app].
      rewrite (call_run go staged slot func (s - 24) s _ m1 m2); [|eapply slot_ok_ext; [|done]; intros; apply M1; lia|done].
      rewrite (run_from_straight _ _ _ _ _ _ _ (K m2 S2 ltac:(intros; apply M2; lia))). done.
    + split; [done|]. split; [apply regs_set_same|]. split; [intros r Hr; by rewrite regs_set_other|].
      split; [intros x Hx; rewrite M2, M1 by lia; done|]. split; [exact X2|]. intros _. by apply C2.
  - destruct (Hb m Hwf) as (m2 & E2 & W2 & S2 & M2 & X2 & C2); [lia|by rewrite Eabi|].
    exists m, m2, m2. split; [|split].
    + constructor; [done|done|done|lia].
    + cbn [app]. by rewrite (call_run go staged slot func (s - 24) s _ m m2).
    + split; [done|]. split; [done|]. split; [done|]. split; [intros x Hx; apply M2; lia|]. split; [exact X2|done].
Qed.

Lemma behaves_mono lo lo' hi : lo <= lo' -> behaves lo hi -> behaves lo' hi.
Proof. intros Hle Hb m1 Hwf Hlo Ha. apply Hb; [done|lia|done]. Qed.

(** The registers that the routine does not lose: a function that obeys the
    calling convention may change [rax] and [rcx] through the functions that
    it calls. *)
Definition covered (used : register_manager) (r : reg) : Prop :=
  abi = true -> r = rax \/ r = rcx -> lives used (reg_id r) = false.

Lemma reg_file_id m r : reg_file m (reg_id r) = regs m r.
Proof. unfold reg_file. by rewrite reg_of_id_id. Qed.

(** A register that is not saved is not changed. *)
Lemma unsaved_kept block_fuel fuel used num_args dead m1 m2 r :
  plain_code decode -> respects_dests istep -> (num_args <= 5)%nat ->
  find_used_regs_in_func decode (traversal_of constraint) block_fuel fuel func = Ret used ->
  (forall s, s <> rsp -> s ∉ take num_args ARGUMENT_REGISTERS -> lives dead (reg_id s) = true ->
    match constraint with
    | EXIT_REGS_UNCONSTRAINED => lives used (reg_id s) = true
    | EXIT_REGS_ABI_COMPATIBLE => s ∈ callee_saved \/ lives used (reg_id s) = true /\ (s = rax \/ s = rcx)
    end) ->
  executes decode (traversal_of constraint) istep (fun r => exists s, s ∈ callee_saved /\ reg_id s = r) func
    (mem m1, reg_file m1) (mem m2, reg_file m2) ->
  (abi = true -> forall r, r ∈ callee_saved -> regs m2 r = regs m1 r) ->
  r <> rsp -> r ∉ take num_args ARGUMENT_REGISTERS -> covered used r -> lives dead (reg_id r) = true ->
  regs m2 r = regs m1 r.
Proof.
  intros Hw Hresp Hn Eu Hl He Hc Hr Ha Hcov Hd. specialize (Hl r Hr Ha Hd). unfold covered, abi in *.
  destruct constraint; cbn [traversal_of] in *.
  - destruct Hl as [Hl|[Hl Hr']]; [by apply Hc|]. rewrite Hcov in Hl; done.
  - rewrite <- !reg_file_id.
    refine (used_regs_keep decode USED_REGS_VISIT_ALL_INSTRUCTIONS istep _ block_fuel fuel func used _ _ (reg_id r) Hw Hresp Eu He
      (reg_id_range r) _ Hl _); [|done].
    intros E. apply Hr, reg_id_inj. exact E.
Qed.

Lemma clean_call_code_shape staged slot dead rs rm' :
  get_zombies ZOMBIE_FUEL dead = (map reg_id rs, rm') -> (length rs <= 15)%nat ->
  clean_call_code staged slot func constraint dead =
    Ret ([pushf_; cli_] ++ map (fun r => push_ (OReg r)) rs ++ window staged slot ++ map pop_ (rev rs) ++ [popf_; ret_]).
Proof.
  intros E Hl. unfold clean_call_code, window.
  rewrite (save_and_restore_draw _ _ _ _ _ E) by (unfold ZOMBIE_FUEL; lia). cbn [mbind outcome_bind before after].
  fold abi. rewrite app_nil_r, insert_cti_instr. f_equal.
  destruct abi; unfold cursor_list, insert_after; cbn [insert_all insert_align_stack_after before after
    insert_restore_old_stack_alignment_after app insert_after]; rewrite <- !app_assoc; done.
Qed.

(** The machine behind the first two instructions of the routine. *)
Definition interrupts_off (ra : Z) (m : mach) : mach :=
  set_flags (set_flag IF false (flags m)) (push (flags m) (push ra m)).

Lemma interrupts_off_state ra m :
  let s := regs m rsp in
  wf_regs m -> 16 <= s < 2 ^ 64 ->
  regs (interrupts_off ra m) rsp = s - 16 /\ (forall r, r <> rsp -> regs (interrupts_off ra m) r = regs m r) /\
  mem (interrupts_off ra m) = write64 (write64 (mem m) (s - 8) ra) (s - 16) (flags m) /\ wf_regs (interrupts_off ra m).
Proof.
  intros s Hwf Hs.
  assert (S1 : regs (interrupts_off ra m) rsp = s - 16)
    by (unfold interrupts_off, push; cbn -[Z.sub]; fold s; machine; lia).
  assert (R1 : forall r, r <> rsp -> regs (interrupts_off ra m) r = regs m r) by (intros r Hr; destruct r; done).
  split; [done|]. split; [done|]. split.
  - unfold interrupts_off, push. cbn -[Z.sub]. fold s. machine. by replace (s - 8 - 8) with (s - 16) by lia.
  - intros r. destruct (decide (r = rsp)) as [->|Hr]; [split; lia|]. rewrite R1 by done. apply Hwf.
Qed.

(** The last two instructions. *)
Lemma leave_run go s ra fl m :
  regs m rsp = s - 16 -> 16 <= s < 2 ^ 64 -> read64 (mem m) (s - 16) = fl -> read64 (mem m) (s - 8) = ra ->
  run_from go no_native cl [popf_; ret_] m = Ret (ToPc ra, drop_top 8 (set_flags fl (drop_top 8 m))).
Proof.
  intros Sm Hs Tf Tr. erewrite run_from_next by reflexivity. cbn [run_from exec1]. unfold top, drop_top at 1.
  cbn [mem set_flags set_reg]. rewrite Sm, Tf. change (regs (set_flags ?f ?x)) with (regs x). unfold drop_top at 1.
  rewrite regs_set_same, Sm. machine. replace (s - 16 + 8) with (s - 8) by lia. by rewrite Tr.
Qed.

Lemma clean_callable_run block_fuel fuel used staged slot num_args ra hi m :
  let s := regs m rsp in
  plain_code decode -> respects_dests istep -> (num_args <= 5)%nat ->
  find_used_regs_in_func decode (traversal_of constraint) block_fuel fuel func = Ret used ->
  behaves (s - 160) hi -> slot_ok staged slot func (s - 160) s m -> wf_regs m ->
  in_width 64 (flags m) -> in_width 64 ra -> 256 <= s -> s + 16 < 2 ^ 64 -> s mod 8 = 0 -> s <= hi <= 2 ^ 64 ->
  exists code m1 m2 m',
    generate_clean_callable_address decode block_fuel fuel staged slot func num_args constraint = Ret code /\
    called (s - 160) m m1 m2 /\ call_code 0 no_native cl code ra m = Ret (None, m') /\
    regs m' rsp = s /\ flags m' = flags m /\ mem m' = mem m2 /\ (forall x, s <= x < hi -> mem m' x = mem m x) /\
    forall r, r <> rsp -> r ∉ take num_args ARGUMENT_REGISTERS -> covered used r -> regs m' r = regs m r.
Proof.
  intros s Hw Hresp Hn Eu Hb Hslot Hwf Hfl Hra Hlo Hhi H8 Hs.
  destruct (find_used_regs_spec decode (traversal_of constraint) block_fuel fuel func used) as (Hwu & Hzu & _);
    [intros pc; apply Hw|done|].
  destruct (clean_call_regs_live constraint num_args used Hwu) as (dead & Ed & Wd & Zd & Ld);
    [intros r; apply Hzu, reg_id_range|done|].
  destruct (draw_dead dead Wd) as (rs & rm' & Ez & Hnd & Hsp & Hlen & Hin).
  unfold generate_clean_callable_address. rewrite Eu. cbn [mbind outcome_bind]. rewrite Ed. cbn [mbind outcome_bind].
  rewrite (clean_call_code_shape staged slot dead rs rm' Ez Hlen).
  set (code := [pushf_; cli_] ++ _). unfold call_code, run. set (go := branch 0 no_native cl code).
  destruct (interrupts_off_state ra m Hwf) as (Sa & Ra & Ma & Wa); [lia|]. set (ma := interrupts_off ra m) in *.
  fold s in Sa, Ma.
  destruct (save_restore_exec no_native rs ma Hnd Hsp Wa) as (mb & Eb & Sb & Rb & _ & Mb & K); [lia..|].
  assert (Wb : wf_regs mb).
  { intros r. destruct (decide (r = rsp)) as [->|Hr]; [split; lia|]. rewrite Rb by done. apply Wa. }
  assert (Mo : forall x, 0 <= x < 2 ^ 64 -> x < regs mb rsp \/ s <= x -> mem mb x = mem m x).
  { intros x Hx Hd. rewrite Mb, Ma by lia. rewrite !write64_other by (try split; lia). done. }
  destruct (window_run go staged slot (map pop_ (rev rs) ++ [popf_; ret_]) hi mb)
    as (m1 & m2 & mc & Hcall & Ew & Mc & Sc & Rc & M2 & X2 & C2); try lia; try done.
  { eapply behaves_mono; [|exact Hb]. lia. }
  { intros Hf. destruct (Hslot Hf) as ([Hw1 Hw2] & Hd & Hr). split; [done|]. split; [lia|]. rewrite <- Hr.
    apply read64_ext; [done|]. intros x Hx. apply Mo; lia. }
  { rewrite Sb, Sa. replace (s - 16 - 8 * Z.of_nat (length rs)) with (s + (- 2 - Z.of_nat (length rs)) * 8) by lia.
    by rewrite Z.mod_add. }
  destruct (K mc Sc) as (md & Ed' & Md & _ & Sd & Rd & Od); [intros x Hx; rewrite Mc; apply M2; lia|].
  assert (Mx : forall x, s - 16 <= x < s -> mem md x = write64 (write64 (mem m) (s - 8) ra) (s - 16) (flags m) x).
  { intros x Hx. rewrite Md, Mc, M2, Mb, Ma by lia. done. }
  assert (Tf : read64 (mem md) (s - 16) = flags m).
  { rewrite (read64_ext (mem md) (write64 (write64 (mem m) (s - 8) ra) (s - 16) (flags m)))
      by (try split; try lia; intros; apply Mx; lia). by machine. }
  assert (Tr : read64 (mem md) (s - 8) = ra).
  { rewrite (read64_ext (mem md) (write64 (write64 (mem m) (s - 8) ra) (s - 16) (flags m)))
      by (try split; try lia; intros; apply Mx; lia). by machine. }
  assert (Er : run_from go no_native cl code (push ra m) =
    Ret (ToPc ra, drop_top 8 (set_flags (flags m) (drop_top 8 md)))).
  { unfold code. change ([pushf_; cli_] ++ ?l) with (pushf_ :: cli_ :: l).
    erewrite run_from_next by reflexivity. erewrite run_from_next by reflexivity. fold ma.
    rewrite (run_from_straight _ _ _ _ _ _ _ Eb), Ew, (run_from_straight _ _ _ _ _ _ _ Ed').
    apply (leave_run go s); [lia|lia|done|done]. }
  exists code, m1, m2, (drop_top 8 (set_flags (flags m) (drop_top 8 md))). split; [done|].
  destruct Hcall as [Cc Ca Cm Cb]. split; [|split; [|split; [|split; [done|split; [|split]]]]].
  - constructor; [done| |intros x Hx Hd; rewrite Cm, Mo by lia; done|lia].
    intros r Hr. by rewrite Ca, Rb, Ra.
  - fold go. rewrite Er. cbn [mbind outcome_bind fst snd]. by rewrite Z.eqb_refl.
  - unfold drop_top. cbn [regs set_reg set_flags reg_eqb Z.eqb reg_id Pos.eqb]. rewrite Sd, Sa. machine. lia.
  - cbn [mem drop_top set_reg set_flags]. by rewrite Md, Mc.
  - intros x Hx. cbn [mem drop_top set_reg set_flags]. rewrite Md, Mc, M2, Mo by lia. done.
  - intros r Hr Ha Hcov. unfold drop_top. rewrite regs_set_other by done. change (regs (set_flags ?f ?x)) with (regs x).
    rewrite regs_set_other by done. destruct (decide (r ∈ rs)) as [Hi|Hi]; [rewrite Rd, Ra by done; done|].
    rewrite Od, Rc by done. rewrite <- (Ra r Hr), <- (Rb r Hr), <- (Ca r Hr).
    eapply (unsaved_kept block_fuel fuel used num_args dead); try done.
    destruct (lives dead (reg_id r)) eqn:El; [done|]. exfalso. apply Hi, Hin. split; [done|apply Zd].
Qed.
End Run.

(** ** Lemmas: the arguments *)
Definition arg_value (m : mach) (arg : clean_call_argument) : Z :=
  match arg with
  | CLEAN_CALL_ARG_FUNC _ => 0
  | CLEAN_CALL_ARG_IMM v => u64 v
  | CLEAN_CALL_ARG_OPERAND o => get_op m o
  end.

Definition mentions (o : operand) (r : reg) : Prop :=
  match o with OReg x => x = r | OMem b _ => b = r | OAbs _ | OImm _ => False end.

(** An argument that does not read the registers [old], which have been
    overwritten, nor the stack pointer. *)
Definition arg_ok (old : list reg) (arg : clean_call_argument) : Prop :=
  match arg with
  | CLEAN_CALL_ARG_FUNC _ => False
  | CLEAN_CALL_ARG_IMM _ => True
  | CLEAN_CALL_ARG_OPERAND o => forall r, mentions o r -> r ∉ old
  end.

Fixpoint args_ok (old rs : list reg) (args : list clean_call_argument) : Prop :=
  match args, rs with
  | arg :: args, r :: rs => arg_ok old arg /\ args_ok (r :: old) rs args
  | _, _ => True
  end.

Lemma get_op_agree m m0 o (old : list reg) :
  (forall r, r ∉ old -> regs m r = regs m0 r) -> mem m = mem m0 -> (forall r, mentions o r -> r ∉ old) ->
  get_op m o = get_op m0 o.
Proof.
  intros Hr Hm Ho. destruct o as [x|b d|a|v]; cbn [get_op mentions] in *; [by apply Hr, Ho| |by rewrite Hm|done].
  unfold ea. by rewrite Hm, Hr by (by apply Ho).
Qed.

Lemma argument_run ns (old : list reg) r arg m0 m :
  arg_ok old arg -> (forall r, r ∉ old -> regs m r = regs m0 r) -> mem m = mem m0 -> r ∉ old ->
  exists m', exec_list ns (argument_code arg r) m = Some m' /\ mem m' = mem m /\ flags m' = flags m /\
    (forall x, x <> r -> regs m' x = regs m x) /\ regs m' r = arg_value m0 arg.
Proof.
  intros Hok Hr Hm Hd.
  assert (Hset : forall i v, exec1 ns i m = Next (set_reg r v m) -> v = arg_value m0 arg ->
    exists m', exec_list ns [i] m = Some m' /\ mem m' = mem m /\ flags m' = flags m /\
      (forall x, x <> r -> regs m' x = regs m x) /\ regs m' r = arg_value m0 arg).
  { intros i v E ->. exists (set_reg r (arg_value m0 arg) m). cbn [exec_list]. rewrite E. split; [done|]. split; [done|].
    split; [done|]. split; [intros x Hx; by rewrite regs_set_other|apply regs_set_same]. }
  destruct arg as [f|v|o]; [done| |]; cbn [arg_ok argument_code arg_value] in *; [by eapply Hset|].
  assert (Eo : get_op m o = get_op m0 o) by (by eapply get_op_agree).
  destruct o as [x|b d|a|v]; [|by eapply Hset..]. destruct (reg_eqb_spec r x) as [->|Hne]; [|by eapply Hset].
  exists m. split; [done|]. split; [done|]. split; [done|]. split; [done|]. exact Eo.
Qed.

Lemma arguments_run ns args : forall rs old m0 m,
  NoDup rs -> (forall r, r ∈ rs -> r ∉ old) -> (length args <= length rs)%nat -> args_ok old rs args ->
  (forall r, r ∉ old -> regs m r = regs m0 r) -> mem m = mem m0 ->
  exists code m', insert_clean_call_arguments_after args rs = Ret code /\ exec_list ns code m = Some m' /\
    mem m' = mem m /\ flags m' = flags m /\ (forall x, x ∉ take (length args) rs -> regs m' x = regs m x) /\
    (forall i arg r, args !! i = Some arg -> rs !! i = Some r -> regs m' r = arg_value m0 arg).
Proof.
  induction args as [|arg args IH]; intros rs old m0 m Hnd Hdis Hlen Hok Hr Hm.
  - exists [], m. by destruct rs.
  - destruct rs as [|r rs]; [cbn in Hlen; lia|]. cbn [insert_clean_call_arguments_after args_ok length] in *.
    destruct Hok as [Ha Hok]. apply NoDup_cons in Hnd as [Hni Hnd].
    destruct (argument_run ns old r arg m0 m Ha Hr Hm) as (m1 & E1 & M1 & F1 & R1 & V1); [apply Hdis; left|].
    destruct (IH rs (r :: old) m0 m1) as (code & m2 & -> & E2 & M2 & F2 & R2 & V2); [done| |lia|done| |congruence|].
    { intros x Hx. rewrite not_elem_of_cons. split; [by intros ->|]. apply Hdis. by right. }
    { intros x [Hx1 Hx2]%not_elem_of_cons. rewrite R1 by done. by apply Hr. }
    cbn [mbind outcome_bind]. exists (argument_code arg r ++ code), m2. split; [done|].
    split; [rewrite exec_list_app, E1; exact E2|]. split; [congruence|]. split; [congruence|]. split.
    + intros x. cbn [take]. rewrite not_elem_of_cons. intros [Hx1 Hx2]. rewrite R2 by done. by apply R1.
    + intros [|i] a x; cbn; [|apply V2]. intros [= <-] [= <-]. rewrite R2; [done|].
      intros Hin. apply Hni. rewrite <- (take_drop (length args) rs). apply elem_of_app. by left.
Qed.

(** The words that an argument reads lie outside of [lo, hi). *)
Definition arg_apart (lo hi : Z) (m : mach) (arg : clean_call_argument) : Prop :=
  match arg with
  | CLEAN_CALL_ARG_OPERAND (OMem b d) => word_at (ea m b d) /\ (ea m b d + 8 <= lo \/ hi <= ea m b d)
  | CLEAN_CALL_ARG_OPERAND (OAbs a) => word_at a /\ (a + 8 <= lo \/ hi <= a)
  | _ => True
  end.

(** Pushing the argument registers does not change the arguments. *)
Lemma arg_value_pushed lo hi m m' arg :
  arg_ok [rsp] arg -> arg_apart lo hi m arg -> (forall r, r <> rsp -> regs m' r = regs m r) ->
  (forall x, 0 <= x < 2 ^ 64 -> x < lo \/ hi <= x -> mem m' x = mem m x) -> arg_value m' arg = arg_value m arg.
Proof.
  intros Hok Ha Hr Hm.
  assert (Hread : forall a, word_at a -> a + 8 <= lo \/ hi <= a -> read64 (mem m') a = read64 (mem m) a).
  { intros a [Ha1 Ha2] Hd. apply read64_ext; [done|]. intros x Hx. apply Hm; lia. }
  destruct arg as [f|v|o]; [done|done|]. cbn [arg_ok arg_apart arg_value] in *.
  assert (Hb : forall b, mentions o b -> regs m' b = regs m b).
  { intros b Hb. apply Hr. intros ->. apply (Hok rsp Hb). left. }
  destruct o as [x|b d|a|v]; cbn [get_op mentions] in *; [by apply Hb| |by apply Hread; destruct Ha|done].
  unfold ea in *. rewrite Hb by done. by apply Hread; destruct Ha.
Qed.

Lemma args_ok_mono rs args : forall old old' : list reg,
  (forall r, r ∈ old' -> r ∈ old) -> args_ok old rs args -> args_ok old' rs args.
Proof.
  revert rs. induction args as [|arg args IH]; intros rs old old' Hd; [by destruct rs|]. destruct rs as [|r rs]; [done|].
  cbn [args_ok]. intros [Ha Hok]. split.
  - destruct arg as [f|v|o]; [done|done|]. cbn [arg_ok] in *. intros x Hx Hin. by apply (Ha x Hx), Hd.
  - apply (IH rs (r :: old)); [|done]. intros x. rewrite !elem_of_cons. intuition.
Qed.

Lemma args_ok_each rs args : forall old : list reg,
  (length args <= length rs)%nat -> args_ok old rs args -> Forall (arg_ok old) args.
Proof.
  revert rs. induction args as [|arg args IH]; intros rs old Hl Hok; [constructor|].
  destruct rs as [|r rs]; [cbn in Hl; lia|]. cbn [args_ok length] in *. destruct Hok as [Ha Hok].
  constructor; [done|]. apply (IH rs old); [lia|]. eapply args_ok_mono; [|exact Hok]. intros x Hx. by right.
Qed.

(** The argument registers are saved and the arguments computed. *)
Lemma arguments_passed ns args m :
  let s := regs m rsp in
  let n := length args in
  let rs := take n ARGUMENT_REGISTERS in
  (n <= 5)%nat -> args_ok [rsp] ARGUMENT_REGISTERS args -> Forall (arg_apart (s - 8 * Z.of_nat n) s m) args ->
  Forall (in_width 64) (map (arg_value m) args) -> wf_regs m -> 512 <= s -> s + 16 < 2 ^ 64 ->
  exists acode m', insert_clean_call_arguments_after args ARGUMENT_REGISTERS = Ret acode /\
    exec_list ns (map (fun r => push_ (OReg r)) rs ++ acode) m = Some m' /\
    regs m' rsp = s - 8 * Z.of_nat n /\ flags m' = flags m /\ wf_regs m' /\
    (forall r, r <> rsp -> r ∉ rs -> regs m' r = regs m r) /\
    (forall i arg r, args !! i = Some arg -> ARGUMENT_REGISTERS !! i = Some r -> regs m' r = arg_value m arg) /\
    (forall x, 0 <= x < 2 ^ 64 -> x < s - 8 * Z.of_nat n \/ s <= x -> mem m' x = mem m x) /\
    forall m2, regs m2 rsp = regs m' rsp -> (forall x, regs m' rsp <= x < s -> mem m2 x = mem m' x) ->
      exists m3, exec_list ns (map pop_ (rev rs)) m2 = Some m3 /\ mem m3 = mem m2 /\ flags m3 = flags m2 /\
        regs m3 rsp = s /\ (forall r, r ∈ rs -> regs m3 r = regs m r) /\
        (forall r, r ∉ rs -> r <> rsp -> regs m3 r = regs m2 r).
Proof.
  intros s n rs Hn Hok Hap Hvals Hwf Hlo Hhi.
  assert (Hrs : length rs = n) by (unfold rs; rewrite length_take; cbn; lia).
  assert (HndA : NoDup ARGUMENT_REGISTERS) by (apply (bool_decide_unpack _); vm_compute; exact I).
  assert (HspA : rsp ∉ ARGUMENT_REGISTERS) by (apply (bool_decide_unpack _); vm_compute; exact I).
  assert (Hsub : forall r, r ∈ rs -> r ∈ ARGUMENT_REGISTERS).
  { intros r Hr. rewrite <- (take_drop n ARGUMENT_REGISTERS). apply elem_of_app. by left. }
  assert (Hnd : NoDup rs).
  { rewrite <- (take_drop n ARGUMENT_REGISTERS) in HndA. by apply NoDup_app in HndA as (? & _). }
  destruct (save_restore_exec ns rs m Hnd) as (ma & Ea & Sa & Ra & Fa & Ma & K); [by intros ?%Hsub|done|lia|lia|].
  fold s in Sa, Ma, K. rewrite Hrs in Sa.
  destruct (arguments_run ns args ARGUMENT_REGISTERS [rsp] ma ma HndA) as (acode & mb & Eac & Eb & Mb & Fb & Rb & Vb);
    [by intros r Hr ->%list_elem_of_singleton|cbn; lia|done|done|done|]. fold n rs in Rb.
  assert (Hv : forall i arg r, args !! i = Some arg -> ARGUMENT_REGISTERS !! i = Some r -> regs mb r = arg_value m arg).
  { intros i arg r Hi Hr. rewrite (Vb i arg r Hi Hr). apply list_elem_of_lookup_2 in Hi.
    pose proof (args_ok_each ARGUMENT_REGISTERS args [rsp] ltac:(cbn; lia) Hok) as Heach. rewrite list.Forall_forall in Heach, Hap.
    eapply (arg_value_pushed (s - 8 * Z.of_nat n) s); [by apply Heach|by apply Hap|done|].
    intros x Hx Hd. apply Ma; lia. }
  assert (Hsb : regs mb rsp = regs ma rsp) by (apply Rb; by intros ?%Hsub).
  exists acode, mb. split; [done|]. split; [rewrite exec_list_app, Ea; exact Eb|]. split; [lia|]. split; [congruence|].
  split; [|split; [|split; [done|split]]].
  - intros r. destruct (decide (r ∈ rs)) as [Hr|Hr].
    + apply list_elem_of_lookup_1 in Hr as [i Hi]. unfold rs in Hi. apply lookup_take_Some in Hi as [Hi Hlt].
      destruct (lookup_lt_is_Some_2 args i Hlt) as [arg Harg]. rewrite (Hv i arg r Harg Hi).
      rewrite list.Forall_forall in Hvals. apply Hvals, list_elem_of_fmap. exists arg. split; [done|].
      by eapply list_elem_of_lookup_2.
    + rewrite Rb by done. destruct (decide (r = rsp)) as [->|Hne]; [split; lia|]. rewrite Ra by done. apply Hwf.
  - intros r Hr Hni. rewrite Rb by done. by apply Ra.
  - intros x Hx Hd. rewrite Mb. apply Ma; lia.
  - intros m2 S2 M2. apply K; [congruence|]. intros x Hx. rewrite M2 by lia. by rewrite Mb.
Qed.

(** ** Theorems *)

(** C6 A clean call is transparent.  Instrumented code calls a function through
    the routine that [generate_clean_callable_address] makes for it, with at
    most five arguments, which are immediates or operands that do not use the
    stack pointer or an argument register that is overwritten before they are
    read, nor the memory below the stack pointer.  The function executes its
    instructions, which write whole registers and are not [swapgs], and
    leaves the stack of its callers alone.  It is called with the values that
    the operands have in the instrumented code; the code then goes on with
    its registers, its flags and its stack, and with the memory that the
    function leaves.  The exceptions are [rax] and [rcx], which a function
    that obeys the calling convention and does not write them itself may
    change through the functions that it calls. *)
Theorem clean_call_transparent decode constraint cl func istep block_fuel fuel used staged slot staged' slot' clean_fn ra
    args hi m :
  let s := regs m rsp in
  let n := length args in
  let lo := s - 8 * Z.of_nat n - 160 in
  (n <= 5)%nat -> plain_code decode -> respects_dests istep ->
  find_used_regs_in_func decode (traversal_of constraint) block_fuel fuel func = Ret used ->
  behaves decode constraint cl func istep lo hi ->
  slot_ok staged slot func lo s m -> slot_ok staged' slot' clean_fn lo s m ->
  args_ok [rsp] ARGUMENT_REGISTERS args -> Forall (arg_apart lo s m) args ->
  Forall (in_width 64) (map (arg_value m) args) ->
  wf_regs m -> in_width 64 (flags m) -> in_width 64 ra -> 512 <= s -> s + 16 < 2 ^ 64 -> s mod 8 = 0 -> s <= hi <= 2 ^ 64 ->
  exists routine code m1 m2 m',
    generate_clean_callable_address decode block_fuel fuel staged slot func n constraint = Ret routine /\
    insert_clean_call_after staged' slot' clean_fn args = Ret code /\
    cl func m1 = Ret (None, m2) /\
    (forall i arg r, args !! i = Some arg -> ARGUMENT_REGISTERS !! i = Some r -> regs m1 r = arg_value m arg) /\
    run 0 no_native (fun a m => if a =? clean_fn then call_code 0 no_native cl routine ra m else Fault) code m = Ret (Fell, m') /\
    (forall r, covered constraint used r -> regs m' r = regs m r) /\ flags m' = flags m /\ mem m' = mem m2 /\
    (forall x, s <= x < hi -> mem m' x = mem m x).
Proof.
  intros s n lo Hn Hw Hresp Eu Hb Hslot Hslot' Hok Hap Hvals Hwf Hfl Hra Hlo Hhi H8 Hs.
  destruct (arguments_passed no_native args m) as (acode & mb & Eac & Eb & Sb & Fb & Wb & Rb & Vb & Mb & K); try done.
  { eapply Forall_impl; [exact Hap|]. intros arg Ha.
    destruct arg as [f|v|[x|b d|a|v]]; try done; destruct Ha as [? Ha]; (split; [done|]); unfold lo in Ha; fold s n; lia. }
  fold s n in Sb, Mb, K.
  assert (Hsl : forall st sl t, slot_ok st sl t lo s m -> slot_ok st sl t lo (s - 8 * Z.of_nat n) mb).
  { intros st sl t Hst Hf. destruct (Hst Hf) as (Hwd & Hd & Hr). split; [done|]. split; [lia|]. rewrite <- Hr.
    destruct Hwd. apply read64_ext; [done|]. intros x Hx. apply Mb; lia. }
  assert (Hmod : (s - 8 * Z.of_nat n) mod 8 = 0).
  { replace (s - 8 * Z.of_nat n) with (s + (- Z.of_nat n) * 8) by lia. by rewrite Z.mod_add. }
  destruct (clean_callable_run decode constraint cl func istep block_fuel fuel used staged slot n ra hi mb)
    as (routine & m1 & m2 & mc & Eg & [Cc Ca Cm Cb] & Er & Sc & Fc & Mc & Mk & Rc); rewrite ?Sb; try done; try lia; auto.
  { by rewrite Fb. }
  rewrite Sb in *. destruct (K mc Sc) as (md & Ed & Md & Fd & Sd & Rd & Od); [intros x Hx; apply Mk; lia|].
  unfold insert_clean_call_after. rewrite Eac, insert_cti_instr. cbn [mbind outcome_bind cursor_list insert_after before after app].
  eexists routine, _, m1, m2, md. split; [done|]. split; [reflexivity|]. split; [done|]. split; [|split].
  - intros i arg r Hi Hr. rewrite Ca; [by apply (Vb i)|]. intros ->.
    destruct i as [|[|[|[|[|i]]]]]; discriminate Hr.
  - unfold run. set (go := branch _ _ _ _). clearbody go. rewrite (app_assoc (map _ _) acode).
    rewrite (run_from_straight _ _ _ _ _ _ _ Eb). change ([?i] ++ ?l) with (i :: l).
    rewrite (call_run go staged' slot' clean_fn lo (s - 8 * Z.of_nat n) _ mb mc); [|auto|rewrite Z.eqb_refl; exact Er].
    rewrite <- (app_nil_r (map pop_ _)). by rewrite (run_from_straight _ _ _ _ _ _ _ Ed).
  - split; [|split; [congruence|split; [congruence|]]].
    + intros r Hcov. destruct (decide (r = rsp)) as [->|Hr]; [done|].
      destruct (decide (r ∈ take n ARGUMENT_REGISTERS)) as [Hi|Hi]; [by apply Rd|]. rewrite Od, Rc by done. by apply Rb.
    + intros x Hx. rewrite Md, Mk, Mb by lia. done.
Qed.

(** The function of [UsedRegs.call_decode], on a machine: it sets [rcx]. *)
Definition sets (r : reg) (v : Z) : callee_sem := fun _ m => Ret (None, set_reg r v m).

Definition any_mach_step (i : Register.instr) (a b : (Z -> Z) * (Z -> Z)) : Prop :=
  forall r, 1 <= r <= 16 -> writes i r = false -> b.2 r = a.2 r.

Lemma reg_file_set x v m z : 1 <= z <= 16 -> z <> reg_id x -> reg_file (set_reg x v m) z = reg_file m z.
Proof.
  intros Hz Hne. unfold reg_file. destruct (reg_of_id_spec z Hz) as (r & -> & Hr).
  rewrite regs_set_other; [done|]. intros ->. by apply Hne.
Qed.

Lemma sets_behaves constraint lo hi :
  traversal_of constraint = USED_REGS_VISIT_ALL_INSTRUCTIONS ->
  behaves call_decode constraint (sets rcx 7) 0x10 any_mach_step lo hi.
Proof.
  intros Hc m1 Hwf Hlo _. exists (set_reg rcx 7 m1). split; [done|]. split; [by apply wf_set_reg|].
  split; [done|]. split; [done|]. split.
  - rewrite Hc. apply (ex_other _ _ _ _ _ _ (mem m1, reg_file (set_reg rcx 7 m1))); [done|done| |].
    { intros r Hr Hw. cbn [snd]. apply reg_file_set; [done|]. intros ->. discriminate Hw. }
    apply (ex_taken _ _ _ _ _ 0x18 _ (mem m1, reg_file (set_reg rcx 7 m1))); [done|done|by intros r Hr Hw|].
    by apply ex_return.
  - intros _ r Hr. apply regs_set_other.
    intros ->. unfold callee_saved in Hr. rewrite !elem_of_cons, elem_of_nil in Hr. intuition congruence.
Qed.

Lemma clean_call_transparent_witness :
  exists routine code m1 m2 m',
    generate_clean_callable_address call_decode 7 91 0 0 0x10 2 EXIT_REGS_UNCONSTRAINED = Ret routine /\
    insert_clean_call_after 0 0 0x500 [CLEAN_CALL_ARG_IMM 5; CLEAN_CALL_ARG_OPERAND (OReg rbx)] = Ret code /\
    sets rcx 7 0x10 m1 = Ret (None, m2) /\ regs m1 rdi = 5 /\ regs m2 rcx = 7 /\
    run 0 no_native (fun a m => if a =? 0x500 then call_code 0 no_native (sets rcx 7) routine 0x77 m else Fault) code
      (sample_mach 4096) = Ret (Fell, m') /\ regs m' rcx = regs (sample_mach 4096) rcx.
Proof.
  destruct (clean_call_transparent call_decode EXIT_REGS_UNCONSTRAINED (sets rcx 7) 0x10 any_mach_step 7 91
    {| live := 65529; undead := 0; live_xmm := 65535; undead_xmm := 0 |} 0 0 0 0 0x500 0x77
    [CLEAN_CALL_ARG_IMM 5; CLEAN_CALL_ARG_OPERAND (OReg rbx)] 8192 (sample_mach 4096))
    as (routine & code & m1 & m2 & m' & E1 & E2 & E3 & Va & E4 & Hr & _).
  - cbn. lia.
  - apply call_decode_plain.
  - intros i a b r Hi Hr Hw. by apply Hi.
  - vm_compute. reflexivity.
  - by apply sets_behaves.
  - discriminate.
  - discriminate.
  - cbn. repeat split. intros r <-. by rewrite !elem_of_cons, elem_of_nil; intuition congruence.
  - repeat constructor.
  - repeat constructor; vm_compute; congruence.
  - apply sample_wf. split; lia.
  - vm_compute. split; congruence.
  - vm_compute. split; congruence.
  - cbn. lia.
  - cbn. lia.
  - reflexivity.
  - cbn. lia.
  - exists routine, code, m1, m2, m'. split; [exact E1|]. split; [exact E2|]. split; [exact E3|].
    split; [exact (Va 0%nat (CLEAN_CALL_ARG_IMM 5) rdi eq_refl eq_refl)|].
    split; [injection E3 as <-; reflexivity|]. split; [exact E4|]. apply (Hr rcx). intros H. discriminate H.
Defined.

(** [call 0x20; ret]. *)
Definition nested_decode (pc : Z) : dins :=
  if pc =? 0x10 then {| di_instr := return_instr; di_flow := F_call (Some 0x20); di_next := 0x15 |}
  else {| di_instr := return_instr; di_flow := F_return; di_next := pc + 1 |}.

Lemma nested_behaves r v lo hi :
  r ∉ callee_saved -> r <> rsp -> in_width 64 v ->
  behaves nested_decode EXIT_REGS_ABI_COMPATIBLE (sets r v) 0x10 any_mach_step lo hi.
Proof.
  intros Hr Hne Hv m1 Hwf Hlo _. exists (set_reg r v m1). split; [done|]. split; [by apply wf_set_reg|].
  split; [by apply regs_set_other|]. split; [done|].
  assert (Hk : forall s, s ∈ callee_saved -> regs (set_reg r v m1) s = regs m1 s)
    by (intros s Hs; apply regs_set_other; by intros ->).
  split; [|by intros _].
  apply (ex_ignored _ _ _ _ _ (Some 0x20) _ (mem m1, reg_file m1) (mem m1, reg_file (set_reg r v m1)));
    [done|done|done|by intros x Hx Hw| |by apply ex_return].
  intros z Hz (s & Hs & <-). cbn [snd]. rewrite !reg_file_id. by apply Hk.
Qed.

(** A register behind a call that returns. *)
Definition returned_reg (r : reg) (o : outcome (option exit * mach)) : option Z :=
  match o with Ret (None, m) => Some (regs m r) | _ => None end.

(** A clean call can lose [rax] and [rcx].  The routine of a function that
    obeys the calling convention saves the scratch registers that the function
    itself writes, [r8] to [r11] and the argument registers.  A function that
    calls another one, which sets [rax] or [rcx], changes these registers of
    the instrumented code. *)
Theorem clean_call_loses_scratch r :
  r = rax \/ r = rcx ->
  exists code,
    generate_clean_callable_address nested_decode 3 1 0 0 0x10 0 EXIT_REGS_ABI_COMPATIBLE = Ret code /\
    behaves nested_decode EXIT_REGS_ABI_COMPATIBLE (sets r 77) 0x10 any_mach_step 0 8192 /\
    returned_reg r (call_code 0 no_native (sets r 77) code 0x500 (sample_mach 4096)) = Some 77 /\
    regs (sample_mach 4096) r <> 77.
Proof.
  intros [->| ->]; (eexists; split; [vm_compute; reflexivity|]);
    (split; [apply nested_behaves; [apply (bool_decide_unpack _); vm_compute; exact I|done|split; lia]|]);
    (split; [vm_compute; reflexivity|done]).
Qed.

Lemma clean_call_loses_scratch_witness :
  exists code,
    generate_clean_callable_address nested_decode 3 1 0 0 0x10 0 EXIT_REGS_ABI_COMPATIBLE = Ret code /\
    returned_reg rax (call_code 0 no_native (sets rax 77) code 0x500 (sample_mach 4096)) = Some 77.
Proof.
  destruct (clean_call_loses_scratch rax (or_introl eq_refl)) as (code & E1 & _ & E2 & _). exists code. split; [exact E1|exact E2].
Defined.

(** Arguments are computed one after the other.  With the operands [rsi]
    and [rdi] as the first two arguments, the function is called with the
    value of [rsi] twice. *)
Theorem clean_call_overlapping_arguments ns m :
  exists code m', insert_clean_call_arguments_after [CLEAN_CALL_ARG_OPERAND (OReg rsi); CLEAN_CALL_ARG_OPERAND (OReg rdi)]
      ARGUMENT_REGISTERS = Ret code /\
    exec_list ns code m = Some m' /\ regs m' rdi = regs m rsi /\ regs m' rsi = regs m rsi.
Proof. eexists _, _. split; [reflexivity|]. split; [reflexivity|]. split; reflexivity. Qed.
