(* ===== verification/Align.v ===== *)
(** * Alignment of hot-patchable instructions: [granary/mangle.cc]

    A direct jump or call to code that is not translated yet is emitted as a
    hot-patchable instruction: its 32-bit displacement is overwritten later,
    while other processors may be running it, so the displacement must not
    cross a cache line.  [align] walks the instructions of a trace, pads
    where needed, and returns the size of the code; [estimate_max_size] of
    [granary/basic_block.cc] is the space that was reserved for it before.

    An instruction is what the two functions look at: its encoded size, the
    branch-hint prefix, and the three classifications.  The theorem: for
    every list of instructions that a block can hold, [align] returns, no
    displacement of a hot-patchable instruction crosses a cache line in the
    code as it is laid out, the instructions are the old ones in the old
    order with padding between them, the returned size is the size of the
    code, and it is at most the estimate. *)

From Stdlib Require Import ZArith Lia.
From stdpp Require Import base numbers list option.
From S2P Require Import Prelude EmitUtils.

Definition CACHE_LINE_SIZE : Z := 64.
Definition JCC_OPCODE_SIZE : Z := 2.
Definition CALL_JMP_OPCODE_SIZE : Z := 1.
Definition REL32_OFFSET_SIZE : Z := 4.

(** [bare_size] is the size of the encoding without a branch hint. *)
Record instruction := {
  bare_size : Z;
  jcc_hint : bool;
  is_unconditional_cti : bool;
  is_cti : bool;
  is_patchable : bool
}.

Definition encoded_size (i : instruction) : Z := bare_size i + (if jcc_hint i then 1 else 0).

Definition set_hint (b : bool) (i : instruction) : instruction :=
  {| bare_size := bare_size i; jcc_hint := b; is_unconditional_cti := is_unconditional_cti i;
     is_cti := is_cti i; is_patchable := is_patchable i |}.

Definition opcode_size (i : instruction) : Z :=
  if is_unconditional_cti i then CALL_JMP_OPCODE_SIZE else JCC_OPCODE_SIZE.

(** Branch hints are stripped from what might be a conditional branch. *)
Definition strip_hint (i : instruction) : instruction :=
  if (JCC_OPCODE_SIZE =? opcode_size i) && jcc_hint i then set_hint false i else i.

(** An element of the aligned list. *)
Inductive item :=
  | Ins (i : instruction)
  | Pad (p : padding).

Definition item_size (x : item) : Z :=
  match x with Ins i => encoded_size i | Pad p => padding_size p end.

(** One instruction of the loop; [has_prev] tells whether another one is in
    front of it.  The result is what takes its place and its size. *)
Definition align_step (has_prev : bool) (in_ : instruction) (curr_align : Z)
    : outcome (list item * Z) :=
  let in_ := strip_hint in_ in
  let in_size := encoded_size in_ in
  if negb (is_patchable in_) then Ret ([Ins in_], in_size) else
  ASSERT (in_size =? opcode_size in_ + REL32_OFFSET_SIZE) ≫= fun _ =>
  ASSERT (is_cti in_) ≫= fun _ =>
  let cache_line_offset := curr_align mod CACHE_LINE_SIZE in
  if cache_line_offset + in_size <=? CACHE_LINE_SIZE then Ret ([Ins in_], in_size) else
  let forward_align := CACHE_LINE_SIZE - cache_line_offset in
  if forward_align <=? opcode_size in_ then Ret ([Ins in_], in_size) else
  let forward_align := forward_align - opcode_size in_ in
  ASSERT has_prev ≫= fun _ =>
  ASSERT (forward_align <? 8) ≫= fun _ =>
  let prefix_align := if JCC_OPCODE_SIZE =? opcode_size in_ then 1 else 0 in
  let forward_align := forward_align - prefix_align in
  let nops := if forward_align =? 0 then [] else insert_nops_after forward_align in
  let in_ := if prefix_align =? 0 then in_ else set_hint true in_ in
  Ret (map Pad nops ++ [Ins in_], in_size + (forward_align + prefix_align)).

(** The loop; sizes and offsets are 32-bit unsigned. *)
Fixpoint align_loop (has_prev : bool) (ls : list instruction) (curr_align size : Z)
    : outcome (list item * Z) :=
  match ls with
  | [] => Ret ([], size)
  | in_ :: ls =>
      s ← align_step has_prev in_ curr_align;
      r ← align_loop true ls (u32 (curr_align + s.2)) (u32 (size + s.2));
      Ret (s.1 ++ r.1, r.2)
  end.

Definition align (ls : list instruction) (curr_align : Z) : outcome (list item * Z) :=
  align_loop false ls curr_align 0.

Fixpoint estimate_loop (ls : list instruction) (size : Z) : Z :=
  match ls with
  | [] => size
  | in_ :: ls =>
      let size := u32 (size + encoded_size in_) in
      let size := if is_patchable in_ then u32 (size + 8) else size in
      estimate_loop ls size
  end.

Definition estimate_max_size (ls : list instruction) : Z := estimate_loop ls 0.

(** ** Layout *)
Definition items_size (l : list item) : Z := foldr (fun x n => item_size x + n) 0 l.

(** The displacements are inside a cache line, from offset [off] on. *)
Fixpoint rel32_aligned (l : list item) (off : Z) : Prop :=
  match l with
  | [] => True
  | x :: l =>
      (forall i, x = Ins i -> is_patchable i = true ->
         (off + encoded_size i - REL32_OFFSET_SIZE) / CACHE_LINE_SIZE =
         (off + encoded_size i - 1) / CACHE_LINE_SIZE) /\
      rel32_aligned l (off + item_size x)
  end.

(** The instructions of a list without the padding. *)
Definition instructions (l : list item) : list instruction :=
  omap (fun x => match x with Ins i => Some i | Pad _ => None end) l.

(** An instruction up to its branch hint. *)
Definition same_but_hint (i j : instruction) : Prop := set_hint false i = set_hint false j.

(** What the emitter guarantees: the hot-patchable instructions are jumps and
    calls with a 32-bit displacement, and a list starts with a label. *)
Definition instruction_ok (i : instruction) : Prop :=
  0 <= bare_size i /\
  (is_patchable i = true ->
     is_cti i = true /\ bare_size i = opcode_size i + REL32_OFFSET_SIZE /\
     (is_unconditional_cti i = true -> jcc_hint i = false)).

Definition list_ok (ls : list instruction) : Prop :=
  Forall instruction_ok ls /\ forall i, head ls = Some i -> is_patchable i = false.

(** The sum that [estimate_max_size] computes, without the wrap-around. *)
Definition budget (i : instruction) : Z := encoded_size i + (if is_patchable i then 8 else 0).
Definition budgets (ls : list instruction) : Z := foldr (fun i n => budget i + n) 0 ls.

(** ** Lemmas *)
Lemma items_size_app l1 l2 : items_size (l1 ++ l2) = items_size l1 + items_size l2.
Proof. induction l1 as [|x l1 IH]; [done|]. cbn. unfold items_size in *. lia. Qed.

Lemma items_size_pads ps : items_size (map Pad ps) = paddings_size ps.
Proof. induction ps as [|p ps IH]; [done|]. cbn. unfold items_size, paddings_size in *. lia. Qed.

Lemma rel32_aligned_app l1 l2 off :
  rel32_aligned (l1 ++ l2) off <-> rel32_aligned l1 off /\ rel32_aligned l2 (off + items_size l1).
Proof.
  revert off. induction l1 as [|x l1 IH]; intros off; cbn [app rel32_aligned items_size foldr].
  - rewrite Z.add_0_r. tauto.
  - rewrite IH. unfold items_size. rewrite Z.add_assoc. tauto.
Qed.

Lemma rel32_aligned_pads ps off : rel32_aligned (map Pad ps) off.
Proof. revert off. induction ps as [|p ps IH]; intros off; [done|]. cbn. split; [congruence|apply IH]. Qed.

Lemma instructions_app l1 l2 : instructions (l1 ++ l2) = instructions l1 ++ instructions l2.
Proof. apply omap_app. Qed.

Lemma instructions_pads ps : instructions (map Pad ps) = [].
Proof. induction ps; [done|]. cbn. done. Qed.

Lemma strip_bare i : bare_size (strip_hint i) = bare_size i.
Proof. unfold strip_hint. now destruct (_ && _). Qed.

Lemma strip_fields i :
  is_unconditional_cti (strip_hint i) = is_unconditional_cti i /\ is_cti (strip_hint i) = is_cti i /\
  is_patchable (strip_hint i) = is_patchable i.
Proof. unfold strip_hint. now destruct (_ && _). Qed.

Lemma strip_same i : same_but_hint (strip_hint i) i.
Proof. unfold strip_hint, same_but_hint. now destruct (_ && _). Qed.

Lemma strip_size i : encoded_size (strip_hint i) <= encoded_size i.
Proof. unfold strip_hint, encoded_size. destruct (_ && _) eqn:E; cbn; [destruct (jcc_hint i); lia|lia]. Qed.

(** Stripped hot-patchable instructions have no hint left. *)
Lemma strip_patchable i :
  instruction_ok i -> is_patchable i = true ->
  encoded_size (strip_hint i) = opcode_size i + REL32_OFFSET_SIZE.
Proof.
  intros [_ Hp] Hi. destruct (Hp Hi) as (_ & Hs & Hh). unfold encoded_size. rewrite strip_bare, Hs.
  unfold strip_hint, opcode_size in *. destruct (is_unconditional_cti i); cbn.
  - rewrite Hh by done. lia.
  - destruct (jcc_hint i) eqn:E; cbn; rewrite ?E; lia.
Qed.

(** A displacement of four bytes that starts at most at offset 60. *)
Lemma inside_line off o : off mod 64 = o -> o <= 60 -> off / 64 = (off + 3) / 64.
Proof.
  intros Ho Hle. pose proof (Z.div_mod off 64 ltac:(lia)). pose proof (Z.mod_pos_bound off 64 ltac:(lia)).
  apply Z.div_unique with (o + 3); lia.
Qed.

Lemma next_line off k : off mod 64 + k = 64 -> (off + k) / 64 = (off + k + 3) / 64.
Proof.
  intros Hk. apply (inside_line _ 0); [|lia].
  pose proof (Z.div_mod off 64 ltac:(lia)). symmetry. apply Z.mod_unique with (off / 64 + 1); lia.
Qed.

(** One instruction that is not padded. *)
Lemma step_plain i off :
  instruction_ok i ->
  (is_patchable i = true -> off mod 64 + encoded_size (strip_hint i) <= 64 \/ 64 - off mod 64 <= opcode_size i) ->
  0 <= off ->
  rel32_aligned [Ins (strip_hint i)] off /\ Forall2 same_but_hint (instructions [Ins (strip_hint i)]) [i] /\
  0 <= items_size [Ins (strip_hint i)] <= budget i.
Proof.
  intros Hok Hfit Hoff. destruct (strip_fields i) as (_ & _ & Hp). cbn [instructions omap list_omap items_size foldr item_size].
  split; [|split; [constructor; [apply strip_same|constructor]|]].
  - split; [|done]. intros j Ej Hj. injection Ej as <-. rewrite Hp in Hj. rewrite (strip_patchable i Hok Hj).
    specialize (Hfit Hj). rewrite (strip_patchable i Hok Hj) in Hfit. unfold REL32_OFFSET_SIZE, CACHE_LINE_SIZE in *.
    pose proof (Z.mod_pos_bound off 64 ltac:(lia)).
    assert (Hop : opcode_size i = 1 \/ opcode_size i = 2)
      by (unfold opcode_size, CALL_JMP_OPCODE_SIZE, JCC_OPCODE_SIZE; destruct (is_unconditional_cti i); auto).
    replace (off + (opcode_size i + 4) - 4) with (off + opcode_size i) by lia.
    replace (off + (opcode_size i + 4) - 1) with (off + opcode_size i + 3) by lia.
    pose proof (Z.div_mod off 64 ltac:(lia)).
    destruct (Z.le_gt_cases 64 (off mod 64 + opcode_size i)).
    + apply (inside_line _ (off mod 64 + opcode_size i - 64)); [|lia].
      symmetry. apply Z.mod_unique with (off / 64 + 1); lia.
    + apply (inside_line _ (off mod 64 + opcode_size i)); [|lia].
      symmetry. apply Z.mod_unique with (off / 64); lia.
  - pose proof (strip_size i). unfold budget. destruct Hok as [Hb _].
    unfold encoded_size in *. rewrite strip_bare in *. destruct (jcc_hint (strip_hint i)), (is_patchable i); lia.
Qed.

Lemma align_step_spec has_prev i off :
  instruction_ok i -> (is_patchable i = true -> has_prev = true) -> 0 <= off ->
  exists l, align_step has_prev i off = Ret (l, items_size l) /\ rel32_aligned l off /\
    Forall2 same_but_hint (instructions l) [i] /\ 0 <= items_size l <= budget i.
Proof.
  intros Hok Hprev Hoff. destruct (strip_fields i) as (Hu & Hc & Hp).
  pose proof (step_plain i off Hok) as Hplain.
  assert (Hop : opcode_size (strip_hint i) = opcode_size i) by (unfold opcode_size; now rewrite Hu).
  assert (Hsz : items_size [Ins (strip_hint i)] = encoded_size (strip_hint i)) by (cbn; lia).
  unfold align_step. rewrite Hp, Hc, Hop. unfold CACHE_LINE_SIZE in *.
  destruct (is_patchable i) eqn:Ep; cbn [negb].
  2: { exists [Ins (strip_hint i)]. rewrite Hsz in *. split; [done|]. apply Hplain; [congruence|done]. }
  pose proof (strip_patchable i Hok Ep) as Hes. rewrite Hes, Z.eqb_refl. cbn [ASSERT mbind outcome_bind].
  destruct Hok as [Hb Hpok]. destruct (Hpok Ep) as (Hcti & Hbs & Hh). rewrite Hcti. cbn [ASSERT mbind outcome_bind].
  rewrite Hes in Hsz, Hplain. unfold REL32_OFFSET_SIZE in *. pose proof (Z.mod_pos_bound off 64 ltac:(lia)) as Hm.
  destruct (Z.leb_spec (off mod 64 + (opcode_size i + 4)) 64) as [Hfit|Hfit].
  { exists [Ins (strip_hint i)]. rewrite Hsz in *. split; [done|]. apply Hplain; [auto|done]. }
  destruct (Z.leb_spec (64 - off mod 64) (opcode_size i)) as [Hfit2|Hfit2].
  { exists [Ins (strip_hint i)]. rewrite Hsz in *. split; [done|]. apply Hplain; [auto|done]. }
  rewrite (Hprev eq_refl). clear Hplain. set (o := opcode_size i) in *.
  assert (Hcase : (o = 1 /\ is_unconditional_cti i = true) \/ (o = 2 /\ is_unconditional_cti i = false))
    by (unfold o, opcode_size, CALL_JMP_OPCODE_SIZE, JCC_OPCODE_SIZE; destruct (is_unconditional_cti i); auto).
  rewrite (proj2 (Z.ltb_lt _ 8)) by lia. cbn [ASSERT mbind outcome_bind].
  set (pre := if JCC_OPCODE_SIZE =? o then 1 else 0). set (n := 64 - off mod 64 - o - pre).
  assert (Hpre : (o = 1 /\ pre = 0) \/ (o = 2 /\ pre = 1))
    by (unfold pre, JCC_OPCODE_SIZE; destruct Hcase as [[-> _]|[-> _]]; auto).
  set (nops := if n =? 0 then [] else insert_nops_after n).
  assert (Hnops : paddings_size nops = n).
  { unfold nops. destruct (Z.eqb_spec n 0) as [->|]; [done|]. apply insert_nops_size. lia. }
  set (j := if pre =? 0 then strip_hint i else set_hint true (strip_hint i)).
  assert (Hj : encoded_size j = o + 4 + pre /\ is_patchable j = true /\ same_but_hint j i).
  { unfold j. destruct Hpre as [[Ho ->]|[Ho ->]]; cbn [Z.eqb].
    - rewrite Hes. split; [lia|]. split; [done|apply strip_same].
    - unfold encoded_size. cbn. rewrite strip_bare. split; [lia|]. split; [done|apply strip_same]. }
  destruct Hj as (Hjs & Hjp & Hjsame).
  exists (map Pad nops ++ [Ins j]).
  assert (Hlen : items_size (map Pad nops ++ [Ins j]) = o + 4 + (n + pre)).
  { rewrite items_size_app, items_size_pads, Hnops. cbn. lia. }
  split; [|split; [|split]].
  - rewrite Hlen. reflexivity.
  - rewrite rel32_aligned_app, items_size_pads, Hnops. split; [apply rel32_aligned_pads|].
    split; [|done]. intros k Ek _. injection Ek as <-. rewrite Hjs. unfold CACHE_LINE_SIZE, REL32_OFFSET_SIZE.
    replace (off + n + (o + 4 + pre) - 4) with (off + (64 - off mod 64)) by lia.
    replace (off + n + (o + 4 + pre) - 1) with (off + (64 - off mod 64) + 3) by lia.
    apply next_line. lia.
  - rewrite instructions_app, instructions_pads. cbn. constructor; [exact Hjsame|constructor].
  - rewrite Hlen. unfold budget, encoded_size. rewrite Ep, Hbs. destruct (jcc_hint i); lia.
Qed.

Lemma budgets_nonneg ls : Forall instruction_ok ls -> 0 <= budgets ls.
Proof.
  induction 1 as [|i ls [Hb _] _ IH]; [done|]. cbn [budgets foldr]. fold (budgets ls).
  unfold budget, encoded_size. destruct (jcc_hint i), (is_patchable i); lia.
Qed.

Lemma estimate_loop_spec ls : forall size,
  Forall instruction_ok ls -> 0 <= size -> size + budgets ls < 2 ^ 32 -> estimate_loop ls size = size + budgets ls.
Proof.
  induction ls as [|i ls IH]; intros size Hok Hs Hlt; cbn [estimate_loop budgets foldr] in *; [lia|].
  apply List.Forall_cons_iff in Hok as [[Hb Hi] Hok]. pose proof (budgets_nonneg ls Hok) as Hn.
  fold (budgets ls) in *. unfold budget in *. assert (0 <= encoded_size i) by (unfold encoded_size; destruct (jcc_hint i); lia).
  destruct (is_patchable i); rewrite ?wrap_small by (rewrite ?wrap_small by lia; lia);
    rewrite IH by (try done; lia); lia.
Qed.

Lemma align_loop_spec ls : forall has_prev off size,
  Forall instruction_ok ls -> (has_prev = false -> forall i, head ls = Some i -> is_patchable i = false) ->
  0 <= off -> 0 <= size -> off + budgets ls < 2 ^ 32 -> size + budgets ls < 2 ^ 32 ->
  exists l, align_loop has_prev ls off size = Ret (l, size + items_size l) /\ rel32_aligned l off /\
    Forall2 same_but_hint (instructions l) ls /\ 0 <= items_size l <= budgets ls.
Proof.
  induction ls as [|i ls IH]; intros has_prev off size Hok Hhead Ho Hs Hlo Hls.
  - exists []. cbn. rewrite Z.add_0_r. split; [done|]. split; [done|]. split; [constructor|lia].
  - apply List.Forall_cons_iff in Hok as [Hi Hok]. pose proof (budgets_nonneg ls Hok) as Hn.
    cbn [budgets foldr] in Hlo, Hls |- *. fold (budgets ls) in *.
    destruct (align_step_spec has_prev i off Hi) as (l1 & E1 & A1 & S1 & B1); [|done|].
    { intros Hp. destruct has_prev; [done|]. rewrite (Hhead eq_refl i eq_refl) in Hp. done. }
    cbn [align_loop]. rewrite E1. cbn [mbind outcome_bind fst snd].
    rewrite !wrap_small by lia.
    destruct (IH true (off + items_size l1) (size + items_size l1)) as (l2 & E2 & A2 & S2 & B2); try done; [lia..|].
    rewrite E2. cbn [mbind outcome_bind fst snd]. exists (l1 ++ l2). rewrite items_size_app.
    split; [now rewrite Z.add_assoc|]. split; [apply rel32_aligned_app; auto|]. split; [|lia].
    rewrite instructions_app. change (i :: ls) with ([i] ++ ls). now apply Forall2_app.
Qed.

(** ** Theorem *)

(** C16 Aligning the code of a trace.  For every list of instructions whose
    hot-patchable ones are jumps or calls with a 32-bit displacement, and
    whatever the offset in a cache line at which the code will start: [align]
    returns; in the code as it is laid out from there no displacement of a
    hot-patchable instruction crosses a cache line; the instructions are the
    given ones in their order, up to branch hints, with padding in between;
    the size returned is the size of that code, and it is within the estimate
    by which the space was reserved. *)
Theorem align_cache_lines ls curr_align :
  list_ok ls -> 0 <= curr_align < CACHE_LINE_SIZE -> CACHE_LINE_SIZE + budgets ls < 2 ^ 32 ->
  exists l, align ls curr_align = Ret (l, items_size l) /\ rel32_aligned l curr_align /\
    Forall2 same_but_hint (instructions l) ls /\ items_size l <= estimate_max_size ls.
Proof.
  intros [Hok Hhead] Hc Hlt. unfold CACHE_LINE_SIZE in *.
  destruct (align_loop_spec ls false curr_align 0) as (l & E & A & S & B); try done; try lia.
  exists l. split; [exact E|]. split; [exact A|]. split; [exact S|]. unfold estimate_max_size.
  rewrite estimate_loop_spec; [lia|done|lia|lia].
Qed.

(** A label, 59 bytes of other instructions, a conditional branch that has to
    be moved, and a jump. *)
Definition sample_block : list instruction :=
  [ {| bare_size := 0; jcc_hint := false; is_unconditional_cti := false; is_cti := false; is_patchable := false |};
    {| bare_size := 59; jcc_hint := false; is_unconditional_cti := false; is_cti := false; is_patchable := false |};
    {| bare_size := 6; jcc_hint := true; is_unconditional_cti := false; is_cti := true; is_patchable := true |};
    {| bare_size := 5; jcc_hint := false; is_unconditional_cti := true; is_cti := true; is_patchable := true |} ].

Lemma align_cache_lines_witness :
  exists l, align sample_block 0 = Ret (l, 73) /\ rel32_aligned l 0 /\ 73 <= estimate_max_size sample_block.
Proof.
  destruct (align_cache_lines sample_block 0) as (l & E & A & _ & B).
  - split; [|intros i Hi; now injection Hi as <-].
    repeat (constructor; [split; [cbn; lia|intros Hp; try discriminate Hp; repeat split; cbn; try done; try congruence]|]).
    constructor.
  - unfold CACHE_LINE_SIZE. lia.
  - vm_compute. reflexivity.
  - exists l. assert (C : exists l', align sample_block 0 = Ret (l', 73)) by (eexists; vm_compute; reflexivity).
    destruct C as [l' C]. assert (El : items_size l = 73) by congruence. rewrite El in *. split; [exact E|]. split; [exact A|exact B].
Defined.
