(* ===== verification/Mangle.v ===== *)
(** * Far memory operands: [granary/mangle.cc]

    The native program addresses its data relative to the instruction
    pointer; in the code cache such an operand can be out of reach.
    [mangle_far_memory_refs] then loads the address into a register that is
    dead at the instruction, or spills one, and rewrites the operand;
    [push] and [pop] of a far operand have sequences of their own.  [lea] of
    a far address becomes a move.

    The instructions are those of [Machine], with an operand [OAbs] where the
    native code has an address; [dr_view] is what DynamoRIO reports about
    them, as [INSTR_CREATE_...] of [deps/dr/x86/instr_create.h] define it,
    which is what the register manager of [Register] looks at.

    The theorems: whatever instruction is mangled, the sequence leaves the
    registers, the flags and the memory that the native instruction leaves,
    with a dead register once its successor has run, with a spilled one at
    once (below the red zone apart), provided that the instruction does not
    read the stack pointer; [push] is right in both forms; [pop] is right
    when the dead register is not the spilled one, and two statements pin
    down how it goes wrong otherwise. *)

From Stdlib Require Import ZArith Lia.
From stdpp Require Import base numbers list option.
From S2P Require Import Prelude Register Machine EmitUtils.

(** ** What DynamoRIO reports *)
Definition dr_opnd (o : operand) : opnd :=
  match o with
  | OReg r => REG_kind (reg_id r)
  | OMem b _ => BASE_DISP_kind (reg_id b) DR_REG_NULL
  | OAbs _ | OImm _ => OTHER_kind
  end.

Definition dr_reg (r : reg) : opnd := REG_kind (reg_id r).
Definition dr_top : opnd := BASE_DISP_kind (reg_id rsp) DR_REG_NULL.

Definition dr_instr (op : Z) (dsts srcs : list opnd) (cti : bool) : Register.instr :=
  {| in_opcode := OP_other op; in_dsts := dsts; in_srcs := srcs; in_is_nop := false; in_is_cti := cti |}.

(** The instructions that occur in native blocks; the others are not looked
    at. *)
Definition dr_view (i : instr) : Register.instr :=
  match i with
  | push_ o => dr_instr 18 [dr_reg rsp; dr_top] [dr_opnd o; dr_reg rsp] false
  | pop_ r => dr_instr 20 [dr_reg r; dr_reg rsp] [dr_reg rsp; dr_top] false
  | pop_mem_ o => dr_instr 20 [dr_opnd o; dr_reg rsp] [dr_reg rsp; dr_top] false
  | mov_imm_ r _ => dr_instr 57 [dr_reg r] [OTHER_kind] false
  | mov_ld_ r o => dr_instr 55 [dr_reg r] [dr_opnd o] false
  | mov_st_ o r => dr_instr 56 [dr_opnd o] [dr_reg r] false
  | lea_ r b d => dr_instr 61 [dr_reg r] [dr_opnd (OMem b d)] false
  | lea_sib_ r b i _ => dr_instr 61 [dr_reg r] [BASE_DISP_kind (reg_id b) (reg_id i)] false
  | lea_pc_ r _ => dr_instr 61 [dr_reg r] [OTHER_kind] false
  | xchg_ o r => dr_instr 62 [dr_opnd o; dr_reg r] [dr_opnd o; dr_reg r] false
  | bswap_ r => dr_instr 205 [dr_reg r] [dr_reg r] false
  | shl_ r _ => dr_instr 257 [dr_reg r] [OTHER_kind; dr_reg r] false
  | shr_ r _ => dr_instr 258 [dr_reg r] [OTHER_kind; dr_reg r] false
  | cmovz_ r s => dr_instr 114 [dr_reg r] [dr_reg s; dr_reg r] false
  | and_ o s => dr_instr 8 [dr_opnd o] [dr_opnd s; dr_opnd o] false
  | or_ o s => dr_instr 5 [dr_opnd o] [dr_opnd s; dr_opnd o] false
  | xor_ o s => dr_instr 12 [dr_opnd o] [dr_opnd s; dr_opnd o] false
  | cmp_ o s => dr_instr 14 [] [dr_opnd o; dr_opnd s] false
  | _ => dr_instr 0 [] [] true
  end.

Definition reported (i : instr) : bool := negb (in_is_cti (dr_view i)).

(** ** Operands *)
Definition operands (i : instr) : list operand :=
  match i with
  | push_ o | pop_mem_ o | mov_ld_ _ o | mov_st_ o _ | xchg_ o _ => [o]
  | and_ o s | or_ o s | xor_ o s | cmp_ o s => [o; s]
  | _ => []
  end.

(** [find_far_operand] over the operands of an instruction. *)
Definition is_far_operand (estimator_pc : Z) (o : operand) : option Z :=
  match o with
  | OAbs a => if is_far_away estimator_pc a then Some a else None
  | _ => None
  end.

Definition find_far_operand (estimator_pc : Z) (i : instr) : option Z :=
  head (omap (is_far_operand estimator_pc) (operands i)).

Definition update_far_operand (new_op o : operand) : operand :=
  match o with OAbs _ => new_op | o => o end.

Definition update_operands (new_op : operand) (i : instr) : instr :=
  let u := update_far_operand new_op in
  match i with
  | push_ o => push_ (u o)
  | pop_mem_ o => pop_mem_ (u o)
  | mov_ld_ r o => mov_ld_ r (u o)
  | mov_st_ o r => mov_st_ (u o) r
  | xchg_ o r => xchg_ (u o) r
  | and_ o s => and_ (u o) (u s)
  | or_ o s => or_ (u o) (u s)
  | xor_ o s => xor_ (u o) (u s)
  | cmp_ o s => cmp_ (u o) (u s)
  | i => i
  end.

(** ** Mangling *)
Definition reg_of (id : Z) : outcome reg :=
  match reg_of_id id with Some r => Ret r | None => Fault end.

(** The registers: whether the first one is dead, that one, and the one to
    spill. *)
Definition far_registers (in_ : instr) (next_in : option instr) : outcome (bool * Z * Z) :=
  let rm := revive_all register_manager_ctor in
  rm ← match next_in with Some n => visit (dr_view n) rm | None => Ret rm end;
  rm ← visit (dr_view in_) rm;
  let dead := get_zombie rm in
  rm ← revive_instr (dr_view in_) (kill_all dead.2);
  rm ← kill_reg dead.1 rm;
  let spill := get_zombie rm in
  let first_reg_is_dead := negb (dead.1 =? DR_REG_NULL) in
  Ret (first_reg_is_dead, if first_reg_is_dead then dead.1 else (get_zombie spill.2).1, spill.1).

Definition mangle_far_memory_push (first_reg_is_dead : bool) (dead_reg spill_reg : reg) (addr : Z)
    : list instr :=
  if first_reg_is_dead then [mov_imm_ dead_reg addr; push_ (OMem dead_reg 0)]
  else
    [ lea_ rsp rsp (-8);
      push_ (OReg spill_reg);
      mov_imm_ spill_reg addr;
      mov_ld_ spill_reg (OMem spill_reg 0);
      mov_st_ (OMem rsp 8) spill_reg;
      pop_ spill_reg ].

(** The last three instructions are inserted one by one directly behind
    [in]. *)
Definition mangle_far_memory_pop (first_reg_is_dead : bool) (dead_reg spill_reg : reg) (addr : Z)
    : list instr :=
  if first_reg_is_dead then
    [ pop_ dead_reg;
      push_ (OReg spill_reg);
      mov_imm_ spill_reg addr;
      mov_st_ (OMem spill_reg 0) dead_reg;
      pop_ spill_reg ]
  else
    let c := {| before :=
      [ push_ (OReg dead_reg);
        push_ (OReg spill_reg);
        mov_imm_ spill_reg addr;
        mov_ld_ dead_reg (OMem rsp 16);
        mov_st_ (OMem spill_reg 0) dead_reg ]; after := [] |} in
    cursor_list (insert_behind (lea_ rsp rsp 8)
      (insert_behind (pop_ dead_reg) (insert_behind (pop_ spill_reg) c))).

Definition mangle_lea (estimator_pc : Z) (r : reg) (target_pc : Z) : instr :=
  if is_far_away estimator_pc target_pc then mov_imm_ r target_pc else lea_pc_ r target_pc.

Section Mangle.
Context `{Config}.

Definition REDZONE_SIZE : Z := IF_USER_ELSE 128 0.

Definition mangle_far_memory_refs (estimator_pc : Z) (in_ : instr) (next_in : option instr)
    : outcome (list instr) :=
  match find_far_operand estimator_pc in_ with
  | None => Ret [in_]
  | Some addr =>
      rs ← far_registers in_ next_in;
      let '(first_reg_is_dead, dead_reg_id, spill_reg_id) := rs in
      match in_ with
      | push_ _ =>
          if (first_reg_is_dead : bool) then
            dead_reg ← reg_of dead_reg_id;
            Ret (mangle_far_memory_push true dead_reg dead_reg addr)
          else spill_reg ← reg_of spill_reg_id;
            Ret (mangle_far_memory_push false spill_reg spill_reg addr)
      | pop_mem_ _ =>
          dead_reg ← reg_of dead_reg_id;
          spill_reg ← reg_of spill_reg_id;
          Ret (mangle_far_memory_pop first_reg_is_dead dead_reg spill_reg addr)
      | _ =>
          if (first_reg_is_dead : bool) then
            used_reg ← reg_of dead_reg_id;
            Ret [mov_imm_ used_reg addr; update_operands (OMem used_reg 0) in_]
          else
            used_reg ← reg_of spill_reg_id;
            Ret (IF_USER_ELSE [lea_ rsp rsp (- REDZONE_SIZE)] [] ++
                 [ push_ (OReg used_reg);
                   mov_imm_ used_reg addr;
                   update_operands (OMem used_reg 0) in_;
                   pop_ used_reg ] ++
                 IF_USER_ELSE [lea_ rsp rsp REDZONE_SIZE] [])
      end
  end.

(** An instruction of a block, with its successor. *)
Definition mangle_instruction (estimator_pc : Z) (in_ : instr) (next_in : option instr)
    : outcome (list instr) :=
  match in_ with
  | lea_pc_ r target_pc => Ret [mangle_lea estimator_pc r target_pc]
  | lea_ _ _ _ | lea_sib_ _ _ _ _ => Ret [in_]
  | _ => mangle_far_memory_refs estimator_pc in_ next_in
  end.

End Mangle.

(** ** Lemmas: instructions respect what is reported about them *)
Lemma reg64_of_id r : reg64_of (reg_id r) = reg_id r.
Proof. destruct r; reflexivity. Qed.

Lemma reg_id_eqb r r' : (reg_id r =? reg_id r') = true <-> r = r'.
Proof. rewrite Z.eqb_eq. split; [apply reg_id_inj|congruence]. Qed.

Lemma reg_id_full r r' : (reg_id r <=? 32) && (reg64_of (reg_id r) =? reg_id r') = true <-> r = r'.
Proof.
  rewrite reg64_of_id, andb_true_iff, reg_id_eqb. pose proof (reg_id_range r). rewrite Z.leb_le. intuition lia.
Qed.

Lemma op_reg_id r : op_reg (dr_reg r) (reg_id r) = true.
Proof. destruct r; reflexivity. Qed.

Lemma op_addr_base b x : op_addr (BASE_DISP_kind (reg_id b) x) (reg_id b) = true.
Proof. cbn [op_addr]. now rewrite reg64_of_id, Z.eqb_refl. Qed.

Lemma op_addr_index b x : op_addr (BASE_DISP_kind b (reg_id x)) (reg_id x) = true.
Proof. cbn [op_addr]. now rewrite reg64_of_id, Z.eqb_refl, orb_true_r. Qed.

(** The registers of an operand have the same values. *)
Definition same_on (o : opnd) (m m' : mach) : Prop :=
  forall r, op_reg o (reg_id r) = true \/ op_addr o (reg_id r) = true -> regs m r = regs m' r.

Lemma same_reg r m m' : same_on (dr_reg r) m m' -> regs m r = regs m' r.
Proof. intros Hs. apply Hs. left. apply op_reg_id. Qed.

Lemma same_ea b d m m' : same_on (dr_opnd (OMem b d)) m m' -> ea m b d = ea m' b d.
Proof. intros Hs. unfold ea. rewrite (Hs b); [done|]. right. apply op_addr_base. Qed.

Lemma same_get o m m' : mem m = mem m' -> same_on (dr_opnd o) m m' -> get_op m o = get_op m' o.
Proof.
  intros Hm Hs. destruct o; cbn [get_op]; [now apply same_reg| |now rewrite Hm|done].
  now rewrite Hm, (same_ea _ _ m m').
Qed.

(** Sources, and the addresses of destinations. *)
Lemma uses_src i m m' o :
  (forall r, uses (dr_view i) (reg_id r) = true -> regs m r = regs m' r) ->
  in_is_nop (dr_view i) = false -> o ∈ in_srcs (dr_view i) -> same_on o m m'.
Proof.
  intros Hu Hn Hin r Hr. apply Hu. unfold uses. rewrite Hn. cbn [negb andb].
  assert (E : in_ops op_reg (in_srcs (dr_view i)) (reg_id r) = true \/
              in_ops op_addr (in_srcs (dr_view i)) (reg_id r) = true).
  { unfold in_ops. rewrite !existsb_exists. destruct Hr as [Hr|Hr]; [left|right]; exists o; by rewrite <- list_elem_of_In. }
  destruct E as [-> | ->]; rewrite ?orb_true_r; done.
Qed.

Lemma uses_dst i m m' b d :
  (forall r, uses (dr_view i) (reg_id r) = true -> regs m r = regs m' r) ->
  in_is_nop (dr_view i) = false -> dr_opnd (OMem b d) ∈ in_dsts (dr_view i) -> ea m b d = ea m' b d.
Proof.
  intros Hu Hn Hin. apply same_ea. intros r [Hr|Hr]; [discriminate Hr|]. apply Hu. unfold uses. rewrite Hn.
  cbn [negb andb]. assert (E : in_ops op_addr (in_dsts (dr_view i)) (reg_id r) = true).
  { unfold in_ops. rewrite existsb_exists. exists (dr_opnd (OMem b d)). by rewrite <- list_elem_of_In. }
  rewrite E, ?orb_true_r. done.
Qed.

Lemma uses_rsp i : in_is_nop (dr_view i) = false -> uses (dr_view i) (reg_id rsp) = true.
Proof. intros Hn. unfold uses. rewrite Hn. cbn. now rewrite orb_true_r. Qed.

(** Writing the same value to an operand keeps machines equal. *)
Definition same_mach (W : reg -> Prop) (m m' n n' : mach) : Prop :=
  mem n = mem n' /\ flags n = flags n' /\
  forall r, W r \/ regs m r = regs m' r -> regs n r = regs n' r.

Lemma same_set_reg m m' x v :
  mem m = mem m' -> flags m = flags m' -> same_mach (fun r => r = x) m m' (set_reg x v m) (set_reg x v m').
Proof.
  intros Hm Hf. split; [done|]. split; [done|]. intros r Hr. cbn. destruct (reg_eqb_spec r x); [done|].
  destruct Hr; done.
Qed.

Lemma same_set_op m m' o v :
  mem m = mem m' -> flags m = flags m' -> (forall b d, o = OMem b d -> ea m b d = ea m' b d) ->
  same_mach (fun r => o = OReg r) m m' (set_op m o v) (set_op m' o v).
Proof.
  intros Hm Hf He. destruct o as [x|b d|a|w]; cbn [set_op].
  - destruct (same_set_reg m m' x v Hm Hf) as (? & ? & Hr). split; [done|]. split; [done|].
    intros r [E|E]; apply Hr; [left; congruence|now right].
  - rewrite (He b d) by done. split; [cbn; congruence|]. split; [done|]. intros r [?|?]; done.
  - split; [cbn; congruence|]. split; [done|]. intros r [?|?]; done.
  - split; [done|]. split; [done|]. intros r [?|?]; done.
Qed.

Lemma same_flags W m m' n n' f :
  same_mach W m m' n n' -> same_mach W m m' (set_flags f n) (set_flags f n').
Proof. intros (? & ? & Hr). split; [done|]. split; [done|exact Hr]. Qed.

Lemma same_weaken (W W' : reg -> Prop) m m' n n' :
  (forall r, W' r -> W r) -> same_mach W m m' n n' -> same_mach W' m m' n n'.
Proof. intros Hw (? & ? & Hr). split; [done|]. split; [done|]. intros r [?|?]; apply Hr; auto. Qed.

Lemma same_logic op o s m m' :
  mem m = mem m' -> flags m = flags m' -> same_on (dr_opnd o) m m' -> same_on (dr_opnd s) m m' ->
  same_mach (fun r => o = OReg r) m m' (logic op o s m) (logic op o s m').
Proof.
  intros Hm Hf Ho Hs. unfold logic. rewrite (same_get o m m'), (same_get s m m'), Hf by done.
  apply same_flags. apply same_set_op; [done|done|]. intros b d ->. now apply same_ea.
Qed.

Lemma same_refl (m m' : mach) : mem m = mem m' -> flags m = flags m' -> same_mach (fun _ => False) m m' m m'.
Proof. intros ? ?. split; [done|]. split; [done|]. intros r [[]|?]; done. Qed.

Lemma same_then_reg W m m' n n' x v :
  same_mach W m m' n n' -> same_mach (fun r => r = x \/ W r) m m' (set_reg x v n) (set_reg x v n').
Proof.
  intros (Hm & Hf & Hr). split; [done|]. split; [done|]. intros r Hw. cbn.
  destruct (reg_eqb_spec r x); [done|]. apply Hr. destruct Hw as [[?|?]|?]; [done|auto|auto].
Qed.

Lemma same_then_op W m m' n n' o v :
  same_mach W m m' n n' -> (forall b d, o = OMem b d -> ea n b d = ea n' b d) ->
  same_mach (fun r => o = OReg r \/ W r) m m' (set_op n o v) (set_op n' o v).
Proof.
  intros (Hm & Hf & Hr) He. destruct o as [x|b d|a|w]; cbn [set_op].
  - eapply same_weaken; [|apply same_then_reg; split; [exact Hm|]; split; [exact Hf|exact Hr]].
    intros r [E|?]; [left; congruence|now right].
  - rewrite (He b d) by done. split; [cbn; congruence|]. split; [done|]. intros r [[?|?]|?]; [done|apply Hr; auto..].
  - split; [cbn; congruence|]. split; [done|]. intros r [[?|?]|?]; [done|apply Hr; auto..].
  - split; [done|]. split; [done|]. intros r [[?|?]|?]; [done|apply Hr; auto..].
Qed.

Lemma overwrites_dsts i r :
  overwrites (dr_view i) (reg_id r) = true -> dr_reg r ∈ in_dsts (dr_view i).
Proof.
  unfold overwrites. rewrite !andb_true_iff. intros [_ Hin].
  unfold in_ops in Hin. apply existsb_exists in Hin as (o & Hin & Ho). apply list_elem_of_In in Hin.
  assert (E : exists r0, o = dr_reg r0 \/ (exists b x, o = BASE_DISP_kind b x) \/ o = OTHER_kind).
  { destruct i; cbn [dr_view dr_instr in_dsts] in Hin; unfold dr_top in Hin;
      repeat (apply elem_of_cons in Hin as [->|Hin]); try (by apply elem_of_nil in Hin);
      try match goal with |- context [dr_opnd ?q] => destruct q end; cbn [dr_opnd];
      first [eexists; left; reflexivity | exists rax; eauto]. }
  destruct E as (r0 & [->|[(b & x & ->)| ->]]); [|discriminate Ho|discriminate Ho].
  apply reg_id_full in Ho as ->. done.
Qed.

Lemma dr_reg_inj r r' : dr_reg r = dr_reg r' -> r = r'.
Proof. intros E. injection E as E. now apply reg_id_inj. Qed.

Lemma dr_opnd_reg o r : dr_reg r = dr_opnd o -> o = OReg r.
Proof. destruct o; try discriminate. intros E. apply dr_reg_inj in E. congruence. Qed.

(** Operands of one machine are replaced by those of the other. *)
Ltac same_ops :=
  repeat match goal with
  | Hm : mem ?m = mem ?m', Hs : forall o, _ -> same_on o ?m ?m' |- context [get_op ?m ?o] =>
      rewrite (same_get o m m' Hm) by (apply Hs; rewrite !elem_of_cons; auto)
  | Hs : forall o, _ -> same_on o ?m ?m' |- context [regs ?m ?r] =>
      rewrite (same_reg r m m') by (apply Hs; unfold dr_reg; rewrite !elem_of_cons; auto)
  end.

(** A register that is overwritten is one of the destinations. *)
Ltac dst_case :=
  match goal with
  | Hw : forall r, _ -> dr_reg r ∈ _ |- forall r, _ -> _ =>
      let r := fresh "r" in let Hr := fresh "Hr" in
      intros r Hr; apply Hw in Hr; unfold dr_top in Hr;
      repeat (apply elem_of_cons in Hr as [Hr|Hr]);
      first [ by apply elem_of_nil in Hr | discriminate Hr
            | apply dr_reg_inj in Hr; subst; auto
            | apply dr_opnd_reg in Hr; subst; auto ]
  end.

(** What an instruction does depends on the registers it uses; and so does
    what it leaves in a register it overwrites. *)
Lemma exec_respects i m m' :
  reported i = true -> mem m = mem m' -> flags m = flags m' ->
  (forall r, uses (dr_view i) (reg_id r) = true -> regs m r = regs m' r) ->
  exists n n', exec1 no_native i m = Next n /\ exec1 no_native i m' = Next n' /\
    same_mach (fun r => overwrites (dr_view i) (reg_id r) = true) m m' n n'.
Proof.
  intros Hrep Hm Hf Hu.
  assert (Hs : in_is_nop (dr_view i) = false -> forall o, (o ∈ in_srcs (dr_view i)) -> same_on o m m')
    by (intros; eapply uses_src; eauto).
  assert (Hd : in_is_nop (dr_view i) = false -> forall b d, (dr_opnd (OMem b d) ∈ in_dsts (dr_view i)) -> ea m b d = ea m' b d)
    by (intros; eapply uses_dst; eauto).
  assert (Hsp : in_is_nop (dr_view i) = false -> regs m rsp = regs m' rsp)
    by (intros; apply Hu; now apply uses_rsp).
  pose proof (overwrites_dsts i) as Hw.
  destruct i; try discriminate Hrep; cbn [dr_view dr_instr in_dsts in_srcs in_is_nop] in Hs, Hd, Hsp, Hw;
    specialize (Hs eq_refl); specialize (Hd eq_refl); specialize (Hsp eq_refl);
    cbn [exec1]; eexists _, _; (split; [reflexivity|]); (split; [reflexivity|]).
  all: same_ops.
  - unfold push. rewrite Hsp. eapply same_weaken; [|apply same_then_reg with (W := fun _ => False)]; [dst_case|].
    split; [cbn; congruence|]. split; [exact Hf|]. intros r [[]|?]; done.
  - unfold top, drop_top. rewrite Hsp, Hm.
    eapply same_weaken; [|apply same_then_reg, same_then_reg, same_refl; done]. dst_case.
  - unfold top, drop_top. rewrite Hsp, Hm.
    eapply same_weaken; [|apply same_then_op; [apply same_then_reg, same_refl; done|]]; [dst_case|].
    intros b d ->. unfold ea. cbn [regs set_reg]. destruct (reg_eqb_spec b rsp); [done|].
    specialize (Hd b d ltac:(rewrite elem_of_cons; auto)). done.
  - eapply same_weaken; [|apply same_then_reg, same_refl; done]. dst_case.
  - eapply same_weaken; [|apply same_then_reg, same_refl; done]. dst_case.
  - eapply same_weaken; [|apply same_then_op; [apply same_refl; done|]]; [dst_case|].
    intros b d ->. apply Hd. rewrite elem_of_cons; auto.
  - rewrite (same_ea base disp m m') by (apply Hs; rewrite elem_of_cons; auto).
    eapply same_weaken; [|apply same_then_reg, same_refl; done]. dst_case.
  - rewrite (Hs _ ltac:(rewrite elem_of_cons; left; reflexivity) base) by (right; apply op_addr_base).
    rewrite (Hs _ ltac:(rewrite elem_of_cons; left; reflexivity) index) by (right; apply op_addr_index).
    eapply same_weaken; [|apply same_then_reg, same_refl; done]. dst_case.
  - eapply same_weaken; [|apply same_then_reg, same_refl; done]. dst_case.
  - eapply same_weaken; [|apply same_then_reg, same_then_op; [apply same_refl; done|]]; [dst_case|].
    intros b d ->. apply Hd. rewrite elem_of_cons; auto.
  - eapply same_weaken; [|apply same_then_reg, same_refl; done]. dst_case.
  - rewrite Hf. apply same_flags. eapply same_weaken; [|apply same_then_reg, same_refl; done]. dst_case.
  - rewrite Hf. apply same_flags. eapply same_weaken; [|apply same_then_reg, same_refl; done]. dst_case.
  - rewrite Hf. destruct (get_flag ZF (flags m')).
    + eapply same_weaken; [|apply same_then_reg, same_refl; done]. dst_case.
    + assert (Er : regs m r = regs m' r) by (apply same_reg, Hs; rewrite !elem_of_cons; auto).
      split; [done|]. split; [done|]. intros r0 [Hr0|Hr0]; [|done]. apply Hw, list_elem_of_singleton, dr_reg_inj in Hr0.
      congruence.
  - eapply same_weaken; [|apply same_logic; [done|done|apply Hs; rewrite !elem_of_cons; auto..]]. dst_case.
  - eapply same_weaken; [|apply same_logic; [done|done|apply Hs; rewrite !elem_of_cons; auto..]]. dst_case.
  - eapply same_weaken; [|apply same_logic; [done|done|apply Hs; rewrite !elem_of_cons; auto..]]. dst_case.
  - unfold compare. rewrite Hf. apply same_flags. eapply same_weaken; [|apply same_refl; done]. dst_case.
Qed.

(** ** Lemmas: the instructions with a far operand *)

(** The instructions that have the address [a] as an operand, and the register
    they mention besides. *)
Definition far_reg (a : Z) (i : instr) : option (option reg) :=
  match i with
  | push_ (OAbs b) | pop_mem_ (OAbs b) => if b =? a then Some None else None
  | mov_ld_ r (OAbs b) | mov_st_ (OAbs b) r | xchg_ (OAbs b) r => if b =? a then Some (Some r) else None
  | and_ (OAbs b) (OReg r) | or_ (OAbs b) (OReg r) | xor_ (OAbs b) (OReg r) | cmp_ (OAbs b) (OReg r)
  | and_ (OReg r) (OAbs b) | or_ (OReg r) (OAbs b) | xor_ (OReg r) (OAbs b) | cmp_ (OReg r) (OAbs b) =>
      if b =? a then Some (Some r) else None
  | and_ (OAbs b) (OImm _) | or_ (OAbs b) (OImm _) | xor_ (OAbs b) (OImm _) | cmp_ (OAbs b) (OImm _) =>
      if b =? a then Some None else None
  | _ => None
  end.

(** Case analysis on the forms. *)
Ltac far_cases :=
  match goal with
  | H : far_reg ?a ?i = Some ?x |- _ =>
      destruct i; try discriminate H; cbn [far_reg] in H;
      repeat match type of H with
      | context [match ?o with OReg _ => _ | _ => _ end] => destruct o; try discriminate H
      end;
      match type of H with
      | context [?b =? _] => destruct (Z.eqb_spec b a) as [->|]; [|discriminate H]
      end; injection H as <-
  end.

Definition is_stack_op (i : instr) : bool :=
  match i with push_ _ | pop_mem_ _ => true | _ => false end.

Lemma far_reported a i x : far_reg a i = Some x -> reported i = true.
Proof. intros H. far_cases; reflexivity. Qed.

Lemma far_found est a i x :
  far_reg a i = Some x -> is_far_away est a = true -> find_far_operand est i = Some a.
Proof.
  intros H E. far_cases; unfold find_far_operand; cbn [operands omap list_omap is_far_operand];
    rewrite E; reflexivity.
Qed.

Lemma dr_opnd_ok o : opnd_ok (dr_opnd o).
Proof.
  destruct o as [r|b d|a|v]; cbn; try done; [pose proof (reg_id_range r)|pose proof (reg_id_range b)]; lia.
Qed.

Lemma dr_reg_ok r : opnd_ok (dr_reg r).
Proof. exact (dr_opnd_ok (OReg r)). Qed.

Lemma dr_view_ok i : instr_ok (dr_view i).
Proof.
  assert (Ht : opnd_ok dr_top) by (cbn; lia).
  destruct i; cbn [dr_view dr_instr]; split; cbn [in_dsts in_srcs];
    repeat (constructor; [first [apply dr_opnd_ok | apply dr_reg_ok | exact Ht | exact I |
      cbn; match goal with |- context [reg_id ?b] => pose proof (reg_id_range b) end; try lia]|]);
    try constructor.
  pose proof (reg_id_range base). pose proof (reg_id_range index). lia.
Qed.

(** The registers that can be spilled. *)
Lemma spill_registers a i x z :
  far_reg a i = Some x ->
  exists rm, revive_instr (dr_view i) (kill_all z) = Ret rm /\ rm_wf rm /\
    kill_reg DR_REG_NULL rm = Ret rm /\
    exists s d, (get_zombie rm).1 = reg_id s /\ (get_zombie (get_zombie rm).2).1 = reg_id d /\
      s <> rsp /\ d <> rsp /\ s <> d /\ x <> Some s /\ x <> Some d.
Proof.
  intros H. far_cases.
  all: try match goal with r : reg |- _ => destruct r end.
  all: (eexists; split; [vm_compute; reflexivity|]); (split; [vm_compute; intuition congruence|]);
    (split; [vm_compute; reflexivity|]).
  all: first [ solve [exists rax, rcx; repeat (split; [reflexivity || congruence|]); congruence]
             | solve [exists rax, rdx; repeat (split; [reflexivity || congruence|]); congruence]
             | solve [exists rcx, rdx; repeat (split; [reflexivity || congruence|]); congruence] ].
Qed.

(** [d] is dead at [i]: it is not read before it is overwritten. *)
Definition dead_at (i : instr) (nxt : option instr) (d : reg) : Prop :=
  uses (dr_view i) (reg_id d) = false /\
  (overwrites (dr_view i) (reg_id d) = true \/
   exists n, nxt = Some n /\ uses (dr_view n) (reg_id d) = false /\ overwrites (dr_view n) (reg_id d) = true).

Lemma revive_all_lives rm r : 1 <= r <= 16 -> lives (revive_all rm) r = true.
Proof. intros Hr. destruct (revive_all_view rm) as [_ V]. apply V. lia. Qed.

Lemma revive_all_wf rm : rm_wf (revive_all rm).
Proof. eapply view_wf; [apply revive_all_view|done]. Qed.

(** The peephole analysis finds registers that are dead. *)
Lemma peephole_dead i nxt :
  exists rm, (rm0 ← match nxt with
              | Some n => visit (dr_view n) (revive_all register_manager_ctor)
              | None => Ret (revive_all register_manager_ctor)
              end; visit (dr_view i) rm0) = Ret rm /\
    rm_wf rm /\ forall d, lives rm (reg_id d) = false -> dead_at i nxt d.
Proof.
  assert (Hnext : exists rm0, match nxt with
              | Some n => visit (dr_view n) (revive_all register_manager_ctor)
              | None => Ret (revive_all register_manager_ctor)
              end = Ret rm0 /\ rm_wf rm0 /\
    forall d, lives rm0 (reg_id d) = false ->
      exists n, nxt = Some n /\ uses (dr_view n) (reg_id d) = false /\ overwrites (dr_view n) (reg_id d) = true).
  { destruct nxt as [n|].
    - destruct (visit_step (dr_view n) (revive_all register_manager_ctor) (dr_view_ok n) (revive_all_wf _))
        as (rm0 & E & W & L).
      exists rm0. split; [done|]. split; [done|]. intros d Hd. exists n. split; [done|].
      rewrite L in Hd by apply reg_id_range. rewrite revive_all_lives in Hd by apply reg_id_range.
      apply orb_false_iff in Hd as [Hu Ho]. split; [done|]. cbn in Ho. by apply negb_false_iff in Ho.
    - eexists. split; [reflexivity|]. split; [apply revive_all_wf|]. intros d Hd.
      rewrite revive_all_lives in Hd by apply reg_id_range. done. }
  destruct Hnext as (rm0 & -> & W0 & D0). cbn [mbind outcome_bind].
  destruct (visit_step (dr_view i) rm0 (dr_view_ok i) W0) as (rm & E & W & L).
  exists rm. split; [done|]. split; [done|]. intros d Hd. rewrite L in Hd by apply reg_id_range.
  apply orb_false_iff in Hd as [Hu Ho]. split; [done|].
  apply andb_false_iff in Ho as [Ho|Ho]; [right; auto|left; by apply negb_false_iff in Ho].
Qed.

Lemma far_registers_spec a i x nxt :
  far_reg a i = Some x ->
  (exists d s, far_registers i nxt = Ret (true, reg_id d, s) /\ d <> rsp /\ dead_at i nxt d) \/
  (exists d s, far_registers i nxt = Ret (false, reg_id d, reg_id s) /\
     d <> rsp /\ s <> rsp /\ d <> s /\ x <> Some s /\ x <> Some d).
Proof.
  intros Hx. unfold far_registers.
  destruct (peephole_dead i nxt) as (rm & E & W & D).
  destruct (match nxt with Some n => visit _ _ | None => _ end) as [rm0| |] eqn:E0;
    cbn [mbind outcome_bind] in E; try discriminate E.
  cbn [mbind outcome_bind]. rewrite E. cbn [mbind outcome_bind].
  destruct (get_zombie rm) as [z rm1] eqn:Ez. cbn [fst snd].
  destruct (spill_registers a i x rm1 Hx) as (rm2 & E2 & W2 & K2 & s & d & Es & Ed & ? & ? & ? & ? & ?).
  rewrite E2. cbn [mbind outcome_bind].
  destruct (get_zombie_spec rm z rm1 W Ez) as (_ & _ & [(-> & _)|(Hz & Hzsp & Hzl & _)]).
  - right. rewrite K2. cbn [mbind outcome_bind Z.eqb negb]. rewrite Es, Ed. exists d, s. auto 10.
  - left. destruct (reg_of_id_spec z Hz) as (d' & _ & <-).
    assert (Hk : exists rm3, kill_reg (reg_id d') rm2 = Ret rm3).
    { destruct (wf_view rm2 W2) as [V Hsp]. destruct (kill_reg_view (reg_id d') rm2 _ _ _ _ ltac:(lia) Hsp V) as (rm3 & ? & _).
      eauto. }
    destruct Hk as [rm3 ->]. cbn [mbind outcome_bind].
    rewrite (proj2 (Z.eqb_neq _ _)) by lia. cbn [negb]. exists d', (get_zombie rm3).1.
    split; [done|]. split; [intros ->; done|]. auto.
Qed.

(** ** Lemmas: running the rewritten instruction *)
Lemma get_op_far m u a : regs m u = a -> word_at a -> get_op m (OMem u 0) = get_op m (OAbs a).
Proof. intros Hu [? ?]. cbn [get_op]. unfold ea. rewrite Hu, Z.add_0_r, wrap_small by lia. done. Qed.

Lemma set_op_far m u a v : regs m u = a -> word_at a -> set_op m (OMem u 0) v = set_op m (OAbs a) v.
Proof. intros Hu [? ?]. cbn [set_op]. unfold ea. rewrite Hu, Z.add_0_r, wrap_small by lia. done. Qed.

Lemma exec_update a i x u m :
  far_reg a i = Some x -> u <> rsp -> regs m u = a -> word_at a ->
  exec1 no_native (update_operands (OMem u 0) i) m = exec1 no_native i m.
Proof.
  intros Hx Hne Hu Ha.
  assert (Hg := get_op_far m u a Hu Ha). assert (Hs := fun v => set_op_far m u a v Hu Ha).
  far_cases; cbn [update_operands update_far_operand exec1]; unfold logic; rewrite ?Hg, ?Hs; try reflexivity.
  rewrite (set_op_far (drop_top 8 m) u a); [done| |done]. unfold drop_top. now rewrite regs_set_other.
Qed.

(** Machines that are the same in everything. *)
Definition same_state (n n0 : mach) : Prop :=
  mem n = mem n0 /\ flags n = flags n0 /\ forall r, regs n r = regs n0 r.

Lemma unused_reported i r : uses (dr_view i) (reg_id r) = false -> reported i = true.
Proof.
  intros Hu. unfold reported. destruct (in_is_cti (dr_view i)) eqn:E; [|done].
  assert (Hn : in_is_nop (dr_view i) = false) by (destruct i; done).
  unfold uses in Hu. rewrite Hn, E in Hu. discriminate Hu.
Qed.

(** An address in a dead register. *)
Lemma far_dead_run a i x nxt d m :
  far_reg a i = Some x -> word_at a -> d <> rsp -> dead_at i nxt d ->
  exists n n0, exec_list no_native [mov_imm_ d a; update_operands (OMem d 0) i] m = Some n /\
    exec_list no_native [i] m = Some n0 /\
    (same_state n n0 \/
     exists nx p p0, nxt = Some nx /\ exec1 no_native nx n = Next p /\ exec1 no_native nx n0 = Next p0 /\
       same_state p p0).
Proof.
  intros Hx [Ha1 Ha2] Hd [Hu Hdead]. cbn [exec_list].
  replace (exec1 no_native (mov_imm_ d a) m) with (Next (set_reg d a m)) by (cbn [exec1]; now rewrite wrap_small by lia).
  rewrite (exec_update a i x d) by (done || apply regs_set_same || (split; lia)).
  destruct (exec_respects i (set_reg d a m) m) as (n & n0 & E & E0 & Hm & Hf & Hr); try done.
  { eapply far_reported; done. }
  { intros r Hr. apply regs_set_other. intros ->. congruence. }
  rewrite E, E0. exists n, n0. split; [done|]. split; [done|].
  assert (Hother : forall r, r <> d -> regs n r = regs n0 r).
  { intros r Hne. apply Hr. right. now apply regs_set_other. }
  destruct Hdead as [Ho|(nx & -> & Hun & Hon)].
  - left. split; [done|]. split; [done|]. intros r. destruct (decide (r = d)) as [->|]; auto.
  - right. pose proof (unused_reported nx d Hun) as Hrep.
    destruct (exec_respects nx n n0) as (p & p0 & Ep & Ep0 & Pm & Pf & Pr); try done.
    { intros r Hur. apply Hother. intros ->. congruence. }
    exists nx, p, p0. split; [done|]. split; [done|]. split; [done|]. split; [done|]. split; [done|].
    intros r. apply Pr. destruct (decide (r = d)) as [->|]; auto.
Qed.

(** The effect of an instruction with a far operand, on two machines that
    agree on what it looks at. *)
Lemma far_frame a i x m m1 :
  far_reg a i = Some x -> is_stack_op i = false -> flags m1 = flags m ->
  (forall r, x = Some r -> regs m1 r = regs m r) -> read64 (mem m1) a = read64 (mem m) a ->
  exists n n1, exec1 no_native i m = Next n /\ exec1 no_native i m1 = Next n1 /\
    flags n1 = flags n /\ (forall r, x = Some r -> regs n1 r = regs n r) /\
    (forall r, x <> Some r -> regs n r = regs m r /\ regs n1 r = regs m1 r) /\
    ((mem n = mem m /\ mem n1 = mem m1) \/
     exists v, mem n = write64 (mem m) a v /\ mem n1 = write64 (mem m1) a v).
Proof.
  intros Hx Hst Hf Hr Ha. far_cases; try discriminate Hst; try (pose proof (Hr _ eq_refl) as Hreg);
    cbn [exec1 get_op set_op]; unfold logic, compare; cbn [get_op set_op]; rewrite ?Hreg, ?Ha, ?Hf;
    eexists _, _; (split; [reflexivity|]); (split; [reflexivity|]);
    (split; [cbn [flags set_flags set_reg set_mem]; congruence|]).
  all: split; [intros r0 E; try discriminate E; try (injection E as <-);
               cbn [regs set_reg set_mem set_flags];
               try (match goal with |- context [reg_eqb ?q ?q] => destruct (reg_eqb_spec q q); [|congruence] end);
               congruence|].
  all: split; [intros r0 E; cbn [regs set_reg set_mem set_flags];
               try (match goal with |- context [reg_eqb ?p ?q] => destruct (reg_eqb_spec p q); [congruence|] end);
               done|].
  all: cbn [mem set_reg set_mem set_flags]; first [left; done | right; eexists; done].
Qed.

Lemma reg_eqb_refl r : reg_eqb r r = true.
Proof. now destruct (reg_eqb_spec r r). Qed.

Lemma reg_eqb_neq r r' : r <> r' -> reg_eqb r r' = false.
Proof. intros. now destruct (reg_eqb_spec r r'). Qed.

(** Registers of a machine after assignments. *)
Ltac regs_simpl :=
  cbn -[Z.add Z.sub reg_eqb]; rewrite ?reg_eqb_refl;
  repeat match goal with
  | H : ?x <> ?y |- context [reg_eqb ?x ?y] => rewrite (reg_eqb_neq x y H)
  | H : ?x <> ?y |- context [reg_eqb ?y ?x] => rewrite (reg_eqb_neq y x (not_eq_sym H))
  end; cbn [negb]; machine.

(** An address in a spilled register; the spilled word is below the red zone
    and is not what the operand names. *)
Lemma far_spill_run `{Config} a i x u m :
  let S := regs m rsp in
  far_reg a i = Some x -> is_stack_op i = false -> word_at a -> u <> rsp -> x <> Some u -> x <> Some rsp ->
  wf_regs m -> REDZONE_SIZE + 8 <= S -> S + 8 < 2 ^ 64 ->
  a + 8 <= S - REDZONE_SIZE - 8 \/ S - REDZONE_SIZE <= a ->
  exists n n0,
    exec_list no_native
      (IF_USER_ELSE [lea_ rsp rsp (- REDZONE_SIZE)] [] ++
       [push_ (OReg u); mov_imm_ u a; update_operands (OMem u 0) i; pop_ u] ++
       IF_USER_ELSE [lea_ rsp rsp REDZONE_SIZE] []) m = Some n /\
    exec_list no_native [i] m = Some n0 /\
    flags n = flags n0 /\ (forall r, regs n r = regs n0 r) /\
    (forall y, 0 <= y < 2 ^ 64 -> y < S - REDZONE_SIZE - 8 \/ S - REDZONE_SIZE <= y -> mem n y = mem n0 y).
Proof.
  intros S Hx Hst [Ha1 Ha2] Hu Hxu Hxsp Hwf Hlo Hhi Hd. set (R := REDZONE_SIZE) in *.
  assert (HR : (env_kernel = true /\ R = 0) \/ (env_kernel = false /\ R = 128))
    by (unfold R, REDZONE_SIZE, IF_USER_ELSE; destruct env_kernel; auto).
  set (P := S - R).
  (* up to the rewritten instruction *)
  assert (Hpre : exists m1, (forall rest, exec_list no_native
      (IF_USER_ELSE [lea_ rsp rsp (- R)] [] ++ [push_ (OReg u); mov_imm_ u a] ++ rest) m =
      exec_list no_native rest m1) /\
    regs m1 rsp = P - 8 /\ regs m1 u = a /\ (forall r, r <> u -> r <> rsp -> regs m1 r = regs m r) /\
    mem m1 = write64 (mem m) (P - 8) (regs m u) /\ flags m1 = flags m).
  { unfold IF_USER_ELSE. destruct HR as [[-> ER]|[-> ER]]; (eexists; split;
      [intros rest; cbn [app exec_list]; cbn [exec1 get_op]; unfold push, ea; regs_simpl; fold S; machine; reflexivity|]);
      fold S; regs_simpl.
    all: split; [lia|]. all: split; [done|].
    all: split; [intros r H1 H2; regs_simpl; done|].
    all: split; [|done]. all: repeat f_equal; lia. }
  destruct Hpre as (m1 & Hpre & Sp1 & U1 & R1 & M1 & F1).
  destruct (far_frame a i x m m1 Hx Hst) as (n0 & n1 & E0 & E1 & Fn & Rn & Ro & Mn); [done| | |].
  { intros r ->. apply R1; congruence. }
  { rewrite M1. apply read64_write64_other; unfold word_at; lia. }
  assert (Sp : regs n1 rsp = P - 8) by (rewrite (proj2 (Ro rsp Hxsp)); exact Sp1).
  assert (Hsaved : read64 (mem n1) (P - 8) = regs m u).
  { assert (E : read64 (mem n1) (P - 8) = read64 (mem m1) (P - 8)).
    { destruct Mn as [[_ ->]|(v & _ & ->)]; [done|]. apply read64_write64_other; unfold word_at; lia. }
    rewrite E, M1. apply read64_write64_same, Hwf. }
  assert (Hpost : exists n, exec_list no_native ([pop_ u] ++ IF_USER_ELSE [lea_ rsp rsp R] []) n1 = Some n /\
    regs n rsp = S /\ regs n u = regs m u /\ (forall r, r <> u -> r <> rsp -> regs n r = regs n1 r) /\
    mem n = mem n1 /\ flags n = flags n1).
  { cbn [app exec_list]. rewrite exec_pop by lia. rewrite Sp, Hsaved. unfold IF_USER_ELSE.
    destruct HR as [[-> ER]|[-> ER]]; (eexists; split; [reflexivity|]); unfold ea; regs_simpl.
    all: split; [lia|]. all: split; [done|].
    all: split; [intros r H1 H2; regs_simpl; done|done]. }
  destruct Hpost as (n & Epost & Spn & Un & Rnn & Mnn & Fnn).
  exists n, n0. split; [|split; [|split; [|split]]].
  - change ([push_ (OReg u); mov_imm_ u a; update_operands (OMem u 0) i; pop_ u] ++ ?l)
      with ([push_ (OReg u); mov_imm_ u a] ++ (update_operands (OMem u 0) i :: [pop_ u] ++ l)).
    rewrite Hpre. cbn [exec_list]. rewrite (exec_update a i x u m1) by (done || (split; lia)). rewrite E1. exact Epost.
  - cbn [exec_list]. now rewrite E0.
  - congruence.
  - intros r. destruct (decide (r = u)) as [->|Hru]; [rewrite Un; symmetry; apply (Ro u Hxu)|].
    destruct (decide (r = rsp)) as [->|Hrsp]; [rewrite Spn; symmetry; apply (Ro rsp Hxsp)|].
    rewrite Rnn by done. destruct x as [r'|]; [|rewrite (proj1 (Ro r ltac:(congruence))), (proj2 (Ro r ltac:(congruence))); auto].
    destruct (decide (r = r')) as [->|Hne]; [auto|].
    rewrite (proj1 (Ro r ltac:(congruence))), (proj2 (Ro r ltac:(congruence))). auto.
  - intros y Hy Hyd. rewrite Mnn. fold P in Hyd.
    assert (Hy1 : mem m1 y = mem m y) by (rewrite M1; apply write64_other; unfold word_at; lia).
    destruct Mn as [[-> ->]|(v & -> & ->)]; [done|]. unfold write64. now destruct (_ <? 8).
Qed.

(** [push] with a spilled register. *)
Lemma far_push_run a u m :
  let S := regs m rsp in
  word_at a -> u <> rsp -> wf_regs m -> 16 <= S -> S + 8 < 2 ^ 64 ->
  a + 8 <= S - 16 \/ S - 8 <= a -> in_width 64 (read64 (mem m) a) ->
  exists n n0, exec_list no_native (mangle_far_memory_push false u u a) m = Some n /\
    exec_list no_native [push_ (OAbs a)] m = Some n0 /\
    flags n = flags n0 /\ (forall r, regs n r = regs n0 r) /\
    (forall y, 0 <= y < 2 ^ 64 -> y < S - 16 \/ S - 8 <= y -> mem n y = mem n0 y).
Proof.
  intros S [Ha1 Ha2] Hu Hwf Hlo Hhi Hd Hw. pose proof (Hwf u) as Hwu. unfold in_width in Hwu.
  unfold mangle_far_memory_push. cbn [exec_list exec1 get_op set_op].
  eexists _, _. split; [reflexivity|]. split; [reflexivity|]. unfold push, ea, top, drop_top. regs_simpl. fold S. machine.
  rewrite ?Z.add_0_r. machine.
  replace (S + -8 - 8 + 8) with (S - 8) by lia. replace (S + -8 - 8) with (S - 16) by lia. machine.
  split; [done|]. split.
  - intros r. destruct (reg_eqb_spec r u) as [->|H1].
    + rewrite (reg_eqb_neq u rsp) by done. done.
    + destruct (reg_eqb_spec r rsp); [done|]. done.
  - intros y Hy Hyd. unfold write64 at 1. unfold write64 at 2. destruct (_ <? 8) eqn:E; [done|].
    apply write64_other; unfold word_at; lia.
Qed.

Lemma far_pop_dead_run a d s m :
  let S := regs m rsp in
  word_at a -> d <> rsp -> s <> rsp -> d <> s -> wf_regs m -> 16 <= S -> S + 16 < 2 ^ 64 ->
  a + 8 <= S \/ S + 8 <= a -> in_width 64 (top m) ->
  exists n n0, exec_list no_native (mangle_far_memory_pop true d s a) m = Some n /\
    exec_list no_native [pop_mem_ (OAbs a)] m = Some n0 /\
    flags n = flags n0 /\ (forall r, r <> d -> regs n r = regs n0 r) /\
    (forall y, 0 <= y < 2 ^ 64 -> y < S \/ S + 8 <= y -> mem n y = mem n0 y).
Proof.
  intros S [Ha1 Ha2] Hd Hs Hds Hwf Hlo Hhi Hapart Hw. pose proof (Hwf s) as Hws. unfold in_width in *.
  unfold mangle_far_memory_pop. cbn [exec_list exec1 get_op set_op].
  eexists _, _. split; [reflexivity|]. split; [reflexivity|]. unfold top in Hw. unfold push, ea, top, drop_top. regs_simpl. fold S. fold S in Hw.
  machine. rewrite ?Z.add_0_r. machine. replace (S + 8 - 8) with S by lia. machine.
  split; [done|]. split.
  - intros r Hr. destruct (reg_eqb_spec r s) as [->|H1]; [regs_simpl; done|].
    destruct (reg_eqb_spec r rsp) as [->|]; [lia|]. regs_simpl. done.
  - intros y Hy Hyd. unfold write64 at 1. unfold write64 at 2. destruct (_ <? 8) eqn:E; [done|].
    apply write64_other; unfold word_at; lia.
Qed.

(** ** Theorems *)
Section FarTheorems.
Context `{Config}.

(** Where a register is spilled. *)
Definition spill_slot (i : instr) (S : Z) : Z :=
  if is_stack_op i then S - 16 else S - REDZONE_SIZE - 8.

Definition is_pop (i : instr) : bool := match i with pop_mem_ _ => true | _ => false end.

Record far_env (est a : Z) (i : instr) (x : option reg) (m : mach) : Prop := {
  fe_form : far_reg a i = Some x;
  fe_far : is_far_away est a = true;
  fe_addr : word_at a;
  fe_sp : x <> Some rsp;
  fe_wf : wf_regs m;
  fe_read : in_width 64 (read64 (mem m) a);
  fe_stack : REDZONE_SIZE + 16 <= regs m rsp /\ regs m rsp + 8 < 2 ^ 64;
  fe_apart : a + 8 <= spill_slot i (regs m rsp) \/ spill_slot i (regs m rsp) + 8 <= a
}.

(** C12 An instruction with a memory operand out of reach of the code cache.
    Whatever it is ([pop] apart, and not reading the stack pointer) and
    whatever follows it, mangling returns a sequence that runs to the same
    flags, registers and memory, the spilled word apart; or, with the address
    in a dead register, to a state from which the next instruction leaves the
    machine as after the native pair. *)
Theorem far_operand_correct est a i x nxt m :
  far_env est a i x m -> is_pop i = false ->
  exists code n n0, mangle_far_memory_refs est i nxt = Ret code /\
    exec_list no_native code m = Some n /\ exec_list no_native [i] m = Some n0 /\
    ((flags n = flags n0 /\ (forall r, regs n r = regs n0 r) /\
      forall y, 0 <= y < 2 ^ 64 -> y < spill_slot i (regs m rsp) \/ spill_slot i (regs m rsp) + 8 <= y ->
        mem n y = mem n0 y) \/
     exists nx p p0, nxt = Some nx /\ exec1 no_native nx n = Next p /\ exec1 no_native nx n0 = Next p0 /\
       same_state p p0).
Proof.
  intros [Hx Hfar Ha Hxsp Hwf Hrd [Hlo Hhi] Hap] Hpop. unfold mangle_far_memory_refs.
  rewrite (far_found est a i x Hx Hfar).
  assert (HR : 0 <= REDZONE_SIZE) by (unfold REDZONE_SIZE, IF_USER_ELSE; destruct env_kernel; lia).
  destruct (far_registers_spec a i x nxt Hx) as [(d & s & -> & Hd & Hdead)|(d & s & -> & Hd & Hs & Hne & Hxs & Hxd)].
  - destruct (far_dead_run a i x nxt d m Hx Ha Hd Hdead) as (n & n0 & E & E0 & Hcase).
    exists [mov_imm_ d a; update_operands (OMem d 0) i], n, n0. split; [|split; [done|]; split; [done|]].
    + cbn [mbind outcome_bind]. unfold reg_of. rewrite reg_of_id_id. cbn [mbind outcome_bind].
      revert Hx Hpop. clear. intros Hx Hpop. far_cases; try discriminate Hpop; reflexivity.
    + destruct Hcase as [(Hm & Hf & Hr)|Hcase]; [left|right; exact Hcase].
      split; [done|]. split; [done|]. intros y _ _. now rewrite Hm.
  - destruct (is_stack_op i) eqn:Est.
    + assert (Ei : i = push_ (OAbs a)) by (far_cases; done). subst i. cbn [spill_slot is_stack_op] in *.
      destruct (far_push_run a s m) as (n & n0 & E & E0 & Hf & Hr & Hm); try done; [lia|lia|].
      exists (mangle_far_memory_push false s s a), n, n0. split; [|split; [done|]; split; [done|]].
      { cbn [mbind outcome_bind]. unfold reg_of. rewrite reg_of_id_id. reflexivity. }
      left. split; [done|]. split; [done|]. intros y Hy Hyd. apply Hm; [done|lia].
    + unfold spill_slot in *. rewrite Est in *.
      destruct (far_spill_run a i x s m) as (n & n0 & E & E0 & Hf & Hr & Hm); try done; [lia|lia|].
      eexists _, n, n0. split; [|split; [exact E|]; split; [done|]].
      { cbn [mbind outcome_bind]. unfold reg_of. rewrite reg_of_id_id. cbn [mbind outcome_bind].
        revert Hx Est. clear. intros Hx Est. far_cases; try discriminate Est; reflexivity. }
      left. split; [done|]. split; [done|]. intros y Hy Hyd. apply Hm; [done|lia].
Qed.

(** [pop] to a far operand with a dead register [d] and another register [s]
    to spill: the popped value is stored, the stack pointer moves, and every
    register but the dead one is as after the native [pop]. *)
Theorem far_pop_dead_correct a d s m :
  word_at a -> d <> rsp -> s <> rsp -> d <> s -> wf_regs m ->
  16 <= regs m rsp -> regs m rsp + 16 < 2 ^ 64 ->
  a + 8 <= regs m rsp \/ regs m rsp + 8 <= a -> in_width 64 (top m) ->
  exists n n0, exec_list no_native (mangle_far_memory_pop true d s a) m = Some n /\
    exec_list no_native [pop_mem_ (OAbs a)] m = Some n0 /\
    flags n = flags n0 /\ (forall r, r <> d -> regs n r = regs n0 r) /\
    (forall y, 0 <= y < 2 ^ 64 -> y < regs m rsp \/ regs m rsp + 8 <= y -> mem n y = mem n0 y).
Proof. apply far_pop_dead_run. Qed.

(** [pop] to a far operand as it is mangled.  When the next instruction
    overwrites [rax], that register is both the dead one and the one that is
    spilled, and the address itself is stored instead of the popped value.
    When no register is dead, the restoring instructions are in the opposite
    order, and [rax] is left with the popped value. *)
Theorem far_pop_wrong est a v m :
  is_far_away est a = true -> word_at a -> wf_regs m -> 32 <= regs m rsp -> regs m rsp + 32 < 2 ^ 64 ->
  a + 8 <= regs m rsp - 16 \/ regs m rsp + 8 <= a ->
  (exists code n, mangle_far_memory_refs est (pop_mem_ (OAbs a)) (Some (mov_imm_ rax v)) = Ret code /\
     exec_list no_native code m = Some n /\ read64 (mem n) a = a) /\
  (exists code n, mangle_far_memory_refs est (pop_mem_ (OAbs a)) None = Ret code /\
     exec_list no_native code m = Some n /\ regs n rax = top m).
Proof.
  intros Hfar [Ha1 Ha2] Hwf Hlo Hhi Hd. set (S := regs m rsp) in *.
  pose proof (Hwf rax) as Hwa. pose proof (Hwf rcx) as Hwc. unfold in_width in Hwa, Hwc.
  assert (Hf : find_far_operand est (pop_mem_ (OAbs a)) = Some a) by (eapply far_found; [cbn; now rewrite Z.eqb_refl|done]).
  unfold mangle_far_memory_refs. rewrite Hf. split.
  - replace (far_registers (pop_mem_ (OAbs a)) (Some (mov_imm_ rax v))) with (Ret (true, reg_id rax, reg_id rax))
      by (vm_compute; reflexivity).
    eexists _, _. split; [reflexivity|]. cbn [mangle_far_memory_pop exec_list exec1 get_op set_op].
    split; [reflexivity|]. unfold push, ea, top, drop_top. regs_simpl. fold S. machine. rewrite ?Z.add_0_r. machine.
    done.
  - replace (far_registers (pop_mem_ (OAbs a)) None) with (Ret (false, reg_id rcx, reg_id rax))
      by (vm_compute; reflexivity).
    eexists _, _. split; [reflexivity|].
    cbn [mangle_far_memory_pop cursor_list insert_behind before after app exec_list exec1 get_op set_op].
    split; [reflexivity|]. unfold push, ea, top, drop_top. cbn -[Z.add Z.sub]. fold S. machine. rewrite ?Z.add_0_r. machine.
    replace (S - 8 - 8 + 8 + 8) with S by lia. machine. done.
Qed.

(** Storing the stack pointer to a far operand when no register is dead: the
    value stored is the stack pointer after the spill. *)
Theorem far_store_rsp_wrong est a m :
  is_far_away est a = true -> word_at a -> wf_regs m ->
  REDZONE_SIZE + 8 <= regs m rsp -> regs m rsp + 8 < 2 ^ 64 ->
  exists code n, mangle_far_memory_refs est (mov_st_ (OAbs a) rsp) None = Ret code /\
    exec_list no_native code m = Some n /\ read64 (mem n) a = regs m rsp - REDZONE_SIZE - 8.
Proof.
  intros Hfar [Ha1 Ha2] Hwf Hlo Hhi. set (S := regs m rsp) in *.
  assert (Hf : find_far_operand est (mov_st_ (OAbs a) rsp) = Some a) by (eapply far_found; [cbn; now rewrite Z.eqb_refl|done]).
  unfold mangle_far_memory_refs. rewrite Hf.
  replace (far_registers (mov_st_ (OAbs a) rsp) None) with (Ret (false, reg_id rcx, reg_id rax)) by (vm_compute; reflexivity).
  cbn [mbind outcome_bind reg_of]. unfold REDZONE_SIZE, IF_USER_ELSE in *.
  destruct env_kernel; eexists _, _; (split; [reflexivity|]);
    cbn [app update_operands update_far_operand exec_list exec1 get_op set_op]; (split; [reflexivity|]);
    unfold push, ea, top, drop_top; cbn -[Z.add Z.sub]; fold S; machine; rewrite ?Z.add_0_r; machine; lia.
Qed.
End FarTheorems.

(** ** Instances *)

(** [and (far), rbx], and [push (far)], without a dead register; and
    [mov rcx, (far)], which kills [rcx] itself. *)
Definition far_sample : Z := 0x7F0000001000.
Definition mach_sample : mach :=
  {| regs := fun r => if reg_eqb r rsp then 0x10000 else reg_id r; mem := fun _ => 0; flags := 0 |}.

Lemma far_sample_env i x :
  far_reg far_sample i = Some x -> x <> Some rsp ->
  far_env (H := user_config) 0x4000 far_sample i x mach_sample.
Proof.
  intros Hx Hsp. constructor; [exact Hx| | |exact Hsp| | | |].
  - vm_compute. reflexivity.
  - split; vm_compute; congruence.
  - intros r. destruct r; split; vm_compute; congruence.
  - split; vm_compute; congruence.
  - split; vm_compute; congruence.
  - right. unfold spill_slot. destruct (is_stack_op i); vm_compute; congruence.
Qed.

Lemma far_operand_correct_witness :
  exists code n n0,
    mangle_far_memory_refs (H := user_config) 0x4000 (mov_ld_ rcx (OAbs far_sample)) (Some (cmp_ (OReg rcx) (OImm 0))) = Ret code /\
    exec_list no_native code mach_sample = Some n /\
    exec_list no_native [mov_ld_ rcx (OAbs far_sample)] mach_sample = Some n0.
Proof.
  destruct (far_operand_correct (H := user_config) 0x4000 far_sample (mov_ld_ rcx (OAbs far_sample)) (Some rcx)
    (Some (cmp_ (OReg rcx) (OImm 0))) mach_sample) as (code & n & n0 & E1 & E2 & E3 & _).
  - apply far_sample_env; [reflexivity|discriminate].
  - reflexivity.
  - exists code, n, n0. split; [exact E1|]. split; [exact E2|exact E3].
Defined.

Lemma far_pop_dead_correct_witness :
  exists n n0, exec_list no_native (mangle_far_memory_pop true rcx rax far_sample) mach_sample = Some n /\
    exec_list no_native [pop_mem_ (OAbs far_sample)] mach_sample = Some n0 /\ regs n rax = regs n0 rax.
Proof.
  destruct (far_pop_dead_correct far_sample rcx rax mach_sample) as (n & n0 & E & E0 & _ & Hr & _).
  - split; vm_compute; congruence.
  - discriminate.
  - discriminate.
  - discriminate.
  - intros r. destruct r; split; vm_compute; congruence.
  - vm_compute. congruence.
  - vm_compute. congruence.
  - right. vm_compute. congruence.
  - split; vm_compute; congruence.
  - exists n, n0. split; [exact E|]. split; [exact E0|]. apply Hr. discriminate.
Defined.

Lemma far_pop_wrong_witness :
  exists code n, mangle_far_memory_refs (H := kernel_config) 0x4000 (pop_mem_ (OAbs far_sample)) (Some (mov_imm_ rax 7)) = Ret code /\
    exec_list no_native code mach_sample = Some n /\ read64 (mem n) far_sample = far_sample.
Proof.
  destruct (far_pop_wrong (H := kernel_config) 0x4000 far_sample 7 mach_sample) as [(code & n & E & E1 & E2) _].
  - reflexivity.
  - split; vm_compute; congruence.
  - intros r. destruct r; split; vm_compute; congruence.
  - vm_compute. congruence.
  - vm_compute. congruence.
  - right. vm_compute. congruence.
  - exists code, n. split; [exact E|]. split; [exact E1|exact E2].
Defined.

Lemma far_store_rsp_wrong_witness :
  exists code n, mangle_far_memory_refs (H := user_config) 0x4000 (mov_st_ (OAbs far_sample) rsp) None = Ret code /\
    exec_list no_native code mach_sample = Some n /\ read64 (mem n) far_sample = 0x10000 - 136.
Proof.
  destruct (far_store_rsp_wrong (H := user_config) 0x4000 far_sample mach_sample) as (code & n & E & E1 & E2).
  - vm_compute. reflexivity.
  - split; vm_compute; congruence.
  - intros r. destruct r; split; vm_compute; congruence.
  - vm_compute. congruence.
  - vm_compute. congruence.
  - exists code, n. split; [exact E|]. split; [exact E1|exact E2].
Defined.
