(* ===== verification/Ibl.v ===== *)
(** * Indirect branch lookup: [granary/ibl.cc], [mangle.cc], [x86/utils.asm]

    An indirect jump, call or return of the native program is replaced by a
    sequence that saves three registers and the arithmetic flags, puts the
    target into [rdi], mixes the policy into its top bits, and jumps through
    a table of 2048 entries that is indexed by bits of the target.  An entry
    points to a chain of exit routines, each of which compares [rdi] with one
    mangled address and goes to its instrumented code or to the previous
    routine of the chain; the chain ends in the routine that searches the
    code cache.

    The code is kept as lists of instructions of [Machine], in a map from the
    addresses at which they were encoded; adding an exit routine is an
    operation on the table and that map.  The theorems: the hash in the stub
    and [granary_ibl_hash] agree; every sequence of additions keeps the
    chains well formed; and, run from the replaced branch, the code arrives
    at the instrumented code last added for the target with every register
    and all memory above the stack as at the branch, or at the global lookup
    when there is none. *)

From Stdlib Require Import ZArith Lia.
From stdpp Require Import base numbers list option gmap relations.
From S2P Require Import Prelude Policy Register Machine EmitUtils.

Definition NUM_IBL_JUMP_TABLE_ENTRIES : Z := 2048.

(** [granary_ibl_hash]: [shr $5, %ax; movzwl %ax, %eax]. *)
Definition granary_ibl_hash (addr : Z) : Z :=
  u16 (set_field 0 16 (Z.shiftr (u16 addr) 5) addr).

(** [reg::indirect_target_addr] is [rdi], [reg::indirect_clobber_reg] is
    [rax] and [reg::indirect_source_addr] is [rsi]. *)
Definition indirect_target_addr : reg := rdi.
Definition indirect_clobber_reg : reg := rax.
Definition indirect_source_addr : reg := rsi.

Section Ibl.
Context `{Config}.
(** The address of the aligned jump table, and of the code of the routine
    that searches the code cache. *)
Context (IBL_JUMP_TABLE GLOBAL_CODE_CACHE_ROUTINE : Z).

(** ** Generated code *)

(** [block_instr] is the address of the label in front of the last two
    instructions. *)
Definition ibl_lookup_stub (policy : instrumentation_policy) (block_instr : Z) : list instr :=
  [ bswap_ indirect_target_addr;
    IF_USER_ELSE or_16 and_16 indirect_target_addr (bswap16 (encode policy));
    bswap_ indirect_target_addr;
    lea_pc_ indirect_source_addr IBL_JUMP_TABLE;
    mov_ld_ indirect_clobber_reg (OReg indirect_target_addr);
    shl_ indirect_clobber_reg 48;
    shr_ indirect_clobber_reg (48 + 5);
    lea_sib_ indirect_clobber_reg indirect_source_addr indirect_clobber_reg 8;
    lea_pc_ indirect_source_addr block_instr;
    jmp_ind_ (OMem indirect_clobber_reg 0) ].

Definition ibl_hit_from_code_cache_find : nat := 0.
Definition ibl_miss : nat := 1.

(** What an exit routine is generated from: the two addresses, the position
    of the generated code when the two jumps are built, and the slots for
    far jump targets. *)
Record exit_args := {
  mangled_target_pc : Z;
  instrumented_target_pc : Z;
  staged_loc : Z;
  hit_slot : Z;
  miss_slot : Z
}.

Definition cti_list (staged target slot : Z) : list instr :=
  cursor_list (insert_cti_after staged target None slot CTI_JMP {| before := []; after := [] |}).

(** From [ibl_hit_from_code_cache_find] on. *)
Definition exit_hit (e : exit_args) (prev_target : Z) : list instr :=
  [pop_ indirect_target_addr] ++
  cti_list (staged_loc e) (instrumented_target_pc e) (hit_slot e) ++
  [label_ ibl_miss] ++ cti_list (staged_loc e) prev_target (miss_slot e).

Definition exit_code (e : exit_args) (prev_target : Z) : list instr :=
  [ mov_imm_ rax (mangled_target_pc e);
    cmp_ (OReg rax) (OReg indirect_target_addr);
    jnz_ ibl_miss ] ++
  insert_restore_arithmetic_flags_after REG_AH_IS_DEAD ++
  [ pop_ indirect_source_addr;
    pop_ indirect_clobber_reg;
    label_ ibl_hit_from_code_cache_find ] ++ exit_hit e prev_target.

(** ** State *)
Record ibl_state := {
  jump_table : list Z;
  code_at : gmap Z (list instr)
}.

(** The table as the static initialiser leaves it. *)
Definition initial_ibl : ibl_state :=
  {| jump_table := replicate (Z.to_nat NUM_IBL_JUMP_TABLE_ENTRIES) GLOBAL_CODE_CACHE_ROUTINE;
     code_at := ∅ |}.

(** [routine] is the memory the fragment allocator returned for the code,
    [hit_pc] the address in it at which the label was encoded. *)
Definition ibl_exit_routine (e : exit_args) (routine hit_pc : Z) (st : ibl_state)
    : outcome (Z * ibl_state) :=
  ASSERT (negb (instrumented_target_pc e =? 0)) ≫= fun _ =>
  let index := granary_ibl_hash (mangled_target_pc e) in
  ASSERT (index <? NUM_IBL_JUMP_TABLE_ENTRIES) ≫= fun _ =>
  prev_target ← idx (jump_table st) (Z.to_nat index);
  ASSERT (negb (prev_target =? 0)) ≫= fun _ =>
  table ← set_idx (jump_table st) (Z.to_nat index) routine;
  Ret (hit_pc, {| jump_table := table;
                  code_at := <[routine := exit_code e prev_target]>
                               (<[hit_pc := exit_hit e prev_target]> (code_at st)) |}).

(** ** The replaced branch: [mangle_ibl_lookup] *)
Inductive ibl_entry_kind := IBL_ENTRY_CALL | IBL_ENTRY_RETURN | IBL_ENTRY_JMP.

(** A target relative to the stack pointer moves with it. *)
Definition adjust_target (t : operand) (stack_offset : Z) : operand :=
  match t with
  | OMem rsp d => OMem rsp (d + stack_offset)
  | t => t
  end.

(** Loading the target and saving the registers; a far %rip-relative target
    is loaded through the register itself. *)
Definition load_target (estimator_pc : Z) (t : operand) : list instr :=
  match t with
  | OReg r => if reg_eqb r indirect_target_addr then [] else [mov_ld_ indirect_target_addr t]
  | OAbs a =>
      if is_far_away a estimator_pc
      then [mov_imm_ indirect_target_addr a; mov_ld_ indirect_target_addr (OMem indirect_target_addr 0)]
      else [mov_ld_ indirect_target_addr t]
  | _ => [mov_ld_ indirect_target_addr t]
  end.

Definition ibl_save : list instr :=
  [push_ (OReg indirect_clobber_reg); push_ (OReg indirect_source_addr)] ++
  insert_save_arithmetic_flags_after REG_AH_IS_DEAD.

Definition call_target_label : nat := 2.
Definition do_call_label : nat := 3.

(** The instructions that take the place of the branch; [ra] is the address
    behind the call that is generated for an indirect call.  The
    instrumentation of the load by the client is the identity. *)
Definition mangle_ibl_lookup (kind : ibl_entry_kind) (target : operand) (policy : instrumentation_policy)
    (estimator_pc block_instr ra : Z) : list instr :=
  match kind with
  | IBL_ENTRY_RETURN =>
      [xchg_ (OMem rsp 0) indirect_target_addr] ++
      load_target estimator_pc (OReg indirect_target_addr) ++ ibl_save ++
      ibl_lookup_stub policy block_instr
  | IBL_ENTRY_JMP =>
      [push_ (OReg indirect_target_addr)] ++
      load_target estimator_pc (adjust_target target 8) ++ ibl_save ++
      ibl_lookup_stub policy block_instr
  | IBL_ENTRY_CALL =>
      [jmp_ (instr_ do_call_label); label_ call_target_label] ++
      [push_ (OReg indirect_target_addr)] ++
      load_target estimator_pc (adjust_target target 16) ++ ibl_save ++
      ibl_lookup_stub policy block_instr ++
      [label_ do_call_label; call_instr_ call_target_label ra]
  end.

(** ** Running the generated code *)

(** Run from address [pc], through generated code, until control reaches an
    address where there is none. *)
Fixpoint follow (fuel : nat) (st : ibl_state) (pc : Z) (m : mach) : outcome (Z * mach) :=
  match code_at st !! pc with
  | None => Ret (pc, m)
  | Some code =>
      match fuel with
      | O => OutOfFuel
      | S fuel =>
          r ← run 1 no_native (fun _ _ => Fault) code m;
          match fst r with
          | ToPc pc => follow fuel st pc (snd r)
          | _ => Fault
          end
      end
  end.

(** The replaced branch, from the block on. *)
Definition run_branch (fuel : nat) (st : ibl_state) (code : list instr) (m : mach)
    : outcome (Z * mach) :=
  r ← run 2 no_native (fun _ _ => Fault) code m;
  match fst r with
  | ToPc pc => follow fuel st pc (snd r)
  | _ => Fault
  end.

(** ** Lemmas: the hash and the mangled target *)
Lemma granary_ibl_hash_field addr : granary_ibl_hash addr = get_field 5 11 addr.
Proof.
  unfold granary_ibl_hash. bitwise i Hi. zb; cbn; rewrite ?Z.sub_0_r; try done.
Qed.

Lemma stub_hash_field v : Z.shiftr (u64 (Z.shiftl v 48)) (48 + 5) = get_field 5 11 v.
Proof. bitwise i Hi. zb; cbn; try done. f_equal. lia. Qed.

Lemma ibl_hash_range addr : 0 <= granary_ibl_hash addr < NUM_IBL_JUMP_TABLE_ENTRIES.
Proof. rewrite granary_ibl_hash_field. apply (get_field_range 5 11). lia. Qed.

(** The low sixteen bits of a swapped canonical address. *)
Lemma bswap_canonical T :
  MangledAddress.canonical T -> u16 (bswap64 T) = IF_USER_ELSE 0 0xFFFF.
Proof.
  intros [HT Hc]. unfold MangledAddress.policy_bits, MangledAddress.NUM_MANGLED_BITS in Hc.
  assert (Hbit : forall k, 0 <= k < 16 -> Z.testbit T (k + 48) = Z.testbit (IF_USER_ELSE 0 0xFFFF) k).
  { intros k Hk. rewrite <- Hc. rewrite testbit_get_field by lia. now rewrite (proj2 (Z.ltb_lt k _)) by lia. }
  unfold bswap64. apply Z.bits_inj'. intros i Hi. rewrite testbit_wrap, testbit_bswap by lia.
  change (Z.of_nat 8) with 8.
  assert (Hw : in_width 16 (IF_USER_ELSE 0 0xFFFF)) by (unfold IF_USER_ELSE; destruct env_kernel; split; lia).
  destruct (Z.ltb_spec i 16) as [Hi16|Hi16]; cbn [andb].
  - rewrite (proj2 (Z.ltb_lt i (8 * 8))) by lia. cbn [andb].
    pose proof (Z.div_mod i 8 ltac:(lia)) as Hd. pose proof (Z.mod_pos_bound i 8 ltac:(lia)).
    assert (0 <= i / 8 < 2) by (split; [apply Z.div_pos|apply Z.div_lt_upper_bound]; lia).
    replace (8 * (8 - 1 - i / 8) + i mod 8) with (8 * (1 - i / 8) + i mod 8 + 48) by lia.
    rewrite Hbit by lia. unfold IF_USER_ELSE. destruct env_kernel.
    + change 0xFFFF with (Z.ones 16). rewrite !testbit_ones by lia. zb.
    + now rewrite !Z.bits_0.
  - symmetry. apply (testbit_high 16); [exact Hw|lia].
Qed.

(** The three instructions that mix the policy into the target. *)
Lemma stub_mangles T p :
  MangledAddress.canonical T -> policy_wf p ->
  bswap64 (set_field 0 16
    (u16 ((IF_USER_ELSE Z.lor Z.land) (u16 (bswap64 T)) (u16 (bswap16 (encode p))))) (bswap64 T))
  = MangledAddress.mangled_address T p.
Proof.
  intros HT Hp. rewrite (bswap_canonical T HT).
  assert (Hb : in_width 16 (bswap16 (encode p))) by (apply (bswap_range 2)).
  rewrite (wrap_small 16 (bswap16 _)) by exact Hb.
  assert (E : u16 (IF_USER_ELSE Z.lor Z.land (IF_USER_ELSE 0 0xFFFF) (bswap16 (encode p))) = bswap16 (encode p)).
  { unfold IF_USER_ELSE. destruct env_kernel.
    - rewrite Z.land_comm. change 0xFFFF with (Z.ones 16). rewrite <- wrap_ones by lia.
      rewrite wrap_wrap. now apply wrap_small.
    - rewrite Z.lor_0_l. now apply wrap_small. }
  rewrite E. rewrite bswap64_set_low; [reflexivity|apply HT|exact Hp].
Qed.

(** The machine where the branch was replaced, and the words saved since;
    [S] is the stack pointer with which the target is to be reached. *)
Record ibl_frame (m0 : mach) (S : Z) (m : mach) : Prop := {
  fr_sp : regs m rsp = S - 32;
  fr_rdi : read64 (mem m) (S - 8) = regs m0 rdi;
  fr_rax : read64 (mem m) (S - 16) = regs m0 rax;
  fr_rsi : read64 (mem m) (S - 24) = regs m0 rsi;
  fr_ah : Z.land (get_field 8 8 (read64 (mem m) (S - 32))) AH_MASK = Z.land (flags m0) AH_MASK;
  fr_regs : forall r, r <> rdi -> r <> rax -> r <> rsi -> r <> rsp -> regs m r = regs m0 r;
  fr_flags : forall i, 0 <= i -> arith_flag i = false -> Z.testbit (flags m) i = Z.testbit (flags m0) i;
  fr_mem : forall x, 0 <= x < 2 ^ 64 -> x < S - 32 \/ S <= x -> mem m x = mem m0 x
}.

(** At the target: everything as at the branch, but for the overflow flag
    and the words below the stack pointer. *)
Record arrived (m0 : mach) (S : Z) (m : mach) : Prop := {
  ar_sp : regs m rsp = S;
  ar_regs : forall r, r <> rsp -> regs m r = regs m0 r;
  ar_flags : forall i, 0 <= i -> i <> OF -> Z.testbit (flags m) i = Z.testbit (flags m0) i;
  ar_mem : forall x, 0 <= x < 2 ^ 64 -> x < S - 32 \/ S <= x -> mem m x = mem m0 x
}.

(** A machine that differs in the three saved registers and in arithmetic
    flags only is in the same frame. *)
Lemma frame_step m0 S m m' :
  ibl_frame m0 S m -> mem m' = mem m ->
  (forall r, r <> rdi -> r <> rax -> r <> rsi -> regs m' r = regs m r) ->
  (forall i, 0 <= i -> arith_flag i = false -> Z.testbit (flags m') i = Z.testbit (flags m) i) ->
  ibl_frame m0 S m'.
Proof.
  intros [] Hm Hr Hf. constructor; rewrite ?Hm; try done.
  - now rewrite Hr by congruence.
  - intros r ? ? ? ?. rewrite Hr by done. auto.
  - intros i ? ?. rewrite Hf by done. auto.
Qed.

(** ** Lemmas: the stub *)
Lemma stub_run go cl m0 S m T p block_instr rest target :
  ibl_frame m0 S m -> regs m rdi = T -> MangledAddress.canonical T -> policy_wf p ->
  0 <= IBL_JUMP_TABLE -> IBL_JUMP_TABLE + 8 * NUM_IBL_JUMP_TABLE_ENTRIES <= 2 ^ 64 ->
  read64 (mem m) (IBL_JUMP_TABLE + 8 * granary_ibl_hash (MangledAddress.mangled_address T p)) = target ->
  exists m', run_from go no_native cl (ibl_lookup_stub p block_instr ++ rest) m = Ret (ToPc target, m') /\
    ibl_frame m0 S m' /\ regs m' rdi = MangledAddress.mangled_address T p.
Proof.
  intros Hf HT Hc Hp Ht0 Ht1 Htab.
  pose proof (ibl_hash_range (MangledAddress.mangled_address T p)) as Hh.
  pose proof (stub_mangles T p Hc Hp) as Hm.
  unfold ibl_lookup_stub, indirect_target_addr, indirect_clobber_reg, indirect_source_addr.
  destruct m as [rg me fl]. cbn in HT. subst T. cbn [mem] in Htab.
  unfold NUM_IBL_JUMP_TABLE_ENTRIES in *.
  replace (IF_USER_ELSE or_16 and_16 rdi (bswap16 (encode p)))
    with (if env_kernel then and_16 rdi (bswap16 (encode p)) else or_16 rdi (bswap16 (encode p)))
    by (unfold IF_USER_ELSE; now destruct env_kernel).
  unfold IF_USER_ELSE in Hm. destruct env_kernel.
  all: cbn [app]; eexists; (split; [cbn -[Z.mul Z.add Z.land Z.lor Z.shiftr Z.shiftl]; rewrite Hm, stub_hash_field, <- granary_ibl_hash_field; unfold ea; cbn -[Z.mul Z.add Z.land Z.lor Z.shiftr Z.shiftl];
    rewrite (wrap_small 64 IBL_JUMP_TABLE), (wrap_small 64 (IBL_JUMP_TABLE + _ * 8)) by lia;
    rewrite wrap_small by lia; rewrite Z.add_0_r, (Z.mul_comm _ 8), Htab; reflexivity|]).
  all: split; [eapply frame_step; [exact Hf|done|intros r ? ? ?; destruct r; done|]|done].
  all: intros i Hi Ha; cbn; now rewrite !result_flags_other by done.
Qed.

(** ** Lemmas: exit routines *)

(** A far jump finds its target in the slot. *)
Definition slot_ok (f : Z -> Z) (staged target slot : Z) : Prop :=
  is_far_away staged target = true -> read64 f slot = target.

Lemma cti_run go ns cl staged target slot rest m :
  slot_ok (mem m) staged target slot ->
  run_from go ns cl (cti_list staged target slot ++ rest) m = Ret (ToPc target, m).
Proof.
  intros Hs. unfold cti_list, insert_cti_after, cursor_list.
  destruct (is_far_away staged target) eqn:E; cbn; [|done]. now rewrite Hs.
Qed.

Lemma arith_or_ah i : i <> OF -> Z.testbit AH_MASK i = false -> arith_flag i = false.
Proof.
  unfold arith_flag, CF, PF, AF, ZF, SF, OF. intros Ho Ha.
  destruct (Z.eqb_spec i 0) as [->|]; [done|]. destruct (Z.eqb_spec i 2) as [->|]; [done|].
  destruct (Z.eqb_spec i 4) as [->|]; [done|]. destruct (Z.eqb_spec i 6) as [->|]; [done|].
  destruct (Z.eqb_spec i 7) as [->|]; [done|]. destruct (Z.eqb_spec i 11) as [->|]; done.
Qed.

Lemma compare_ZF w a b m :
  in_width w a -> in_width w b -> 0 <= w -> get_flag ZF (flags (compare w a b m)) = (a =? b).
Proof.
  intros Ha Hb Hw. unfold compare. cbn [flags set_flags]. rewrite result_flags_ZF.
  rewrite (wrap_small w a), (wrap_small w b) by assumption. unfold in_width in *.
  destruct (Z.eqb_spec a b) as [->|Hne]; [now rewrite Z.sub_diag|]. apply Z.eqb_neq. unfold wrap.
  intros E. apply Z.mod_divide in E as [q Hq]; [|pose proof (pow2_pos w Hw); lia].
  assert (q = 0) by nia. lia.
Qed.

(** From the label on: the state in which the code cache is left when the
    routine is entered by its own comparison or from the global lookup. *)
Lemma exit_hit_run go cl m0 S m e prev :
  32 <= S -> S + 8 < 2 ^ 64 -> slot_ok (mem m) (staged_loc e) (instrumented_target_pc e) (hit_slot e) ->
  regs m rsp = S - 8 -> read64 (mem m) (S - 8) = regs m0 rdi ->
  (forall r, r <> rdi -> r <> rsp -> regs m r = regs m0 r) ->
  (forall i, 0 <= i -> i <> OF -> Z.testbit (flags m) i = Z.testbit (flags m0) i) ->
  (forall x, 0 <= x < 2 ^ 64 -> x < S - 32 \/ S <= x -> mem m x = mem m0 x) ->
  exists m', run_from go no_native cl (exit_hit e prev) m = Ret (ToPc (instrumented_target_pc e), m') /\
    arrived m0 S m'.
Proof.
  intros Hlo Hhi Hslot Hsp Hrdi Hr Hf Hm. unfold exit_hit, indirect_target_addr. cbn [app].
  eexists. split.
  - cbn [run_from]. rewrite exec_pop by lia. rewrite Hsp, Hrdi.
    rewrite cti_run by exact Hslot. reflexivity.
  - constructor; cbn [flags mem set_reg]; try done.
    + rewrite regs_set_other, regs_set_same by congruence. lia.
    + intros r Hne. destruct (decide (r = rdi)) as [->|Hd]; [now rewrite regs_set_same|].
      rewrite !regs_set_other by done. auto.
Qed.

Lemma exit_run_hit cl m0 S m e prev :
  32 <= S -> S + 8 < 2 ^ 64 -> slot_ok (mem m) (staged_loc e) (instrumented_target_pc e) (hit_slot e) ->
  ibl_frame m0 S m -> in_width 64 (mangled_target_pc e) -> regs m rdi = mangled_target_pc e ->
  exists m', run 1 no_native cl (exit_code e prev) m = Ret (ToPc (instrumented_target_pc e), m') /\
    arrived m0 S m'.
Proof.
  intros Hlo Hhi Hslot [] Hw Hrdi. unfold run, exit_code.
  unfold indirect_target_addr, indirect_clobber_reg, indirect_source_addr.
  set (go := branch _ _ _ _). cbn [app run_from exec1 get_op].
  rewrite regs_set_same, regs_set_other, Hrdi by congruence.
  rewrite (wrap_small 64 (mangled_target_pc e)) by exact Hw.
  rewrite compare_ZF by (done || lia). rewrite Z.eqb_refl.
  set (m1 := compare _ _ _ _).
  assert (Hsp1 : regs m1 rsp = S - 32) by (unfold m1; cbn; done).
  cbn [insert_restore_arithmetic_flags_after app].
  erewrite run_from_next by (apply exec_pop; lia). rewrite Hsp1.
  do 3 (erewrite run_from_next by ((apply exec_pop; cbn; lia) || reflexivity)).
  erewrite run_from_next by reflexivity.
  apply exit_hit_run; try done; cbn -[Z.sub Z.add Z.testbit].
  - lia.
  - intros r Hd Hsp. destruct r; try done; cbn -[Z.sub Z.add];
      rewrite ?fr_regs0 by done; try reflexivity.
    + replace (S - 32 + 8 + 8) with (S - 16) by lia. exact fr_rax0.
    + replace (S - 32 + 8) with (S - 24) by lia. exact fr_rsi0.
  - intros i Hi Ho. rewrite fr_ah0. change (Z.lor (Z.ldiff ?f AH_MASK) (Z.land ?g AH_MASK)) with (restore_ah g f).
    rewrite restore_ah_spec by done. destruct (Z.testbit AH_MASK i) eqn:Ha; [done|].
    pose proof (arith_or_ah i Ho Ha). rewrite result_flags_other by done. auto.
Qed.

Lemma exit_run_miss cl m0 S m e prev :
  32 <= S -> S + 8 < 2 ^ 64 -> slot_ok (mem m) (staged_loc e) prev (miss_slot e) ->
  ibl_frame m0 S m -> in_width 64 (mangled_target_pc e) -> in_width 64 (regs m rdi) ->
  regs m rdi <> mangled_target_pc e ->
  exists m', run 1 no_native cl (exit_code e prev) m = Ret (ToPc prev, m') /\
    ibl_frame m0 S m' /\ regs m' rdi = regs m rdi /\ mem m' = mem m.
Proof.
  intros Hlo Hhi Hslot Hf Hw Hw2 Hne. unfold run.
  set (go := branch 1 _ _ _).
  assert (Hgo : forall m', slot_ok (mem m') (staged_loc e) prev (miss_slot e) -> go ibl_miss m' = Ret (ToPc prev, m')).
  { intros m' Hs. unfold go. cbn [branch].
    assert (E : find_label ibl_miss (exit_code e prev) = Some (cti_list (staged_loc e) prev (miss_slot e))).
    { unfold exit_code, exit_hit, cti_list, insert_cti_after, cursor_list. cbn.
      destruct (is_far_away (staged_loc e) (instrumented_target_pc e)); reflexivity. }
    rewrite E. rewrite <- (app_nil_r (cti_list _ _ _)). now rewrite cti_run. }
  unfold exit_code, indirect_target_addr. cbn [app run_from exec1 get_op].
  rewrite regs_set_same, regs_set_other by congruence.
  rewrite (wrap_small 64 (mangled_target_pc e)) by exact Hw.
  rewrite compare_ZF by (done || lia). rewrite (proj2 (Z.eqb_neq _ _)) by congruence.
  eexists. split; [apply Hgo; exact Hslot|]. split; [|done].
  eapply frame_step; [exact Hf|done|intros r ? ? ?; destruct r; done|].
  intros i Hi Ha. unfold compare. cbn [flags set_flags set_reg]. now rewrite result_flags_other.
Qed.

(** ** Lemmas: the replaced branch *)

(** The target operand at the branch: a register other than the stack
    pointer, or a word of memory that the saved registers do not overwrite. *)
Definition target_ok (m0 : mach) (S : Z) (t : operand) : Prop :=
  match t with
  | OReg r => r <> rsp
  | OMem b d => word_at (ea m0 b d) /\ (ea m0 b d + 8 <= S - 32 \/ S <= ea m0 b d)
  | OAbs a => word_at a /\ (a + 8 <= S - 32 \/ S <= a)
  | OImm _ => False
  end.

Lemma load_target_run est t off m0 S m :
  target_ok m0 S t -> 0 <= off -> off <= regs m0 rsp < 2 ^ 64 ->
  (forall r, r <> rsp -> regs m r = regs m0 r) -> regs m rsp = regs m0 rsp - off ->
  (forall x, 0 <= x < 2 ^ 64 -> x < S - 32 \/ S <= x -> mem m x = mem m0 x) ->
  exists m', exec_list no_native (load_target est (adjust_target t off)) m = Some m' /\
    regs m' rdi = get_op m0 t /\ (forall r, r <> rdi -> regs m' r = regs m r) /\
    mem m' = mem m /\ flags m' = flags m.
Proof.
  intros Ht Hoff Hsp Hr Hrsp Hm.
  assert (Hread : forall a, word_at a -> a + 8 <= S - 32 \/ S <= a -> read64 (mem m) a = read64 (mem m0) a).
  { intros a Ha Hd. apply read64_ext; [done|]. intros x Hx. destruct Ha. apply Hm; lia. }
  destruct t as [r|b d|a|v]; cbn [target_ok] in Ht; [| | |done].
  - cbn [adjust_target load_target]. unfold indirect_target_addr.
    destruct (reg_eqb_spec r rdi) as [->|Hne].
    + exists m. split; [done|]. split; [now apply Hr|]. done.
    + eexists. split; [reflexivity|]. rewrite regs_set_same. cbn [get_op].
      split; [now apply Hr|]. split; [|done]. intros r' Hr'. now rewrite regs_set_other.
  - assert (E : exists b' d', adjust_target (OMem b d) off = OMem b' d' /\ ea m b' d' = ea m0 b d).
    { unfold adjust_target, ea. destruct b; eexists _, _; (split; [reflexivity|]);
        try (rewrite Hr by done; reflexivity). rewrite Hrsp. f_equal. lia. }
    destruct E as (b' & d' & -> & Ee). eexists. split; [reflexivity|]. unfold indirect_target_addr.
    rewrite regs_set_same. cbn [get_op]. rewrite Ee. destruct Ht. split; [now apply Hread|].
    split; [|done]. intros r' Hr'. now rewrite regs_set_other.
  - cbn [adjust_target load_target]. destruct Ht as [Ha Hd]. unfold indirect_target_addr.
    destruct (is_far_away a est).
    + eexists. split; [reflexivity|]. rewrite regs_set_same. cbn [get_op]. unfold ea.
      rewrite regs_set_same. destruct Ha. machine. rewrite Z.add_0_r. machine.
      split; [apply Hread; [split|]; done|]. split; [|done]. intros r' Hr'. now rewrite !regs_set_other.
    + eexists. split; [reflexivity|]. rewrite regs_set_same. cbn [get_op].
      split; [now apply Hread|]. split; [|done]. intros r' Hr'. now rewrite regs_set_other.
Qed.

(** Saving [rax], [rsi] and the flags completes the frame. *)
Lemma save_run m0 S m :
  wf_regs m0 -> 32 <= S -> S + 8 < 2 ^ 64 -> regs m rsp = S - 8 ->
  read64 (mem m) (S - 8) = regs m0 rdi ->
  (forall r, r <> rdi -> r <> rsp -> regs m r = regs m0 r) -> flags m = flags m0 ->
  (forall x, 0 <= x < 2 ^ 64 -> x < S - 32 \/ S <= x -> mem m x = mem m0 x) ->
  exists m', exec_list no_native ibl_save m = Some m' /\ ibl_frame m0 S m' /\ regs m' rdi = regs m rdi.
Proof.
  intros Hwf Hlo Hhi Hsp Hrdi Hr Hf Hm. unfold ibl_save.
  unfold indirect_target_addr, indirect_clobber_reg, indirect_source_addr.
  assert (Hrax : regs m rax = regs m0 rax) by (apply Hr; done).
  assert (Hrsi : regs m rsi = regs m0 rsi) by (apply Hr; done).
  pose proof (Hwf rax) as Wrax. pose proof (Hwf rsi) as Wrsi.
  assert (Hah : in_width 64 (set_field 8 8 (Z.lor (Z.land (flags m0) AH_MASK) 2) (regs m0 rax)))
    by (apply set_field_in_width; done || lia).
  cbn [app insert_save_arithmetic_flags_after exec_list].
  rewrite exec_push by lia. cbn [exec_list].
  rewrite exec_push by (rewrite regs_set_same; lia).
  cbn [exec_list exec1 get_op].
  eexists. split; [reflexivity|]. split.
  - constructor; cbn -[Z.sub Z.add Z.testbit].
    all: rewrite ?Hsp, ?Hrax, ?Hrsi, ?Hf.
    all: replace (S - 8 - 8) with (S - 16) by lia; replace (S - 16 - 8) with (S - 24) by lia; machine.
    + lia.
    + exact Hrdi.
    + done.
    + done.
    + replace (S - 24 - 8) with (S - 32) by lia. machine. apply sahf_of_lahf.
    + intros r ? ? ? ?. destruct r; try done; cbn; now rewrite Hr.
    + done.
    + intros x Hx Hd. rewrite !write64_other by (try split; lia). now apply Hm.
  - reflexivity.
Qed.

(** ** Lemmas: chains of exit routines *)

(** An exit routine that was added: its arguments, where it is, and the
    routine it was put in front of. *)
Record added := {
  ad_args : exit_args;
  ad_routine : Z;
  ad_hit : Z;
  ad_prev : Z
}.

Definition ad_mangled (a : added) : Z := mangled_target_pc (ad_args a).
Definition ad_target (a : added) : Z := instrumented_target_pc (ad_args a).

(** From [pc], the routines of [l] in turn, then the global lookup. *)
Inductive chain (c : gmap Z (list instr)) : Z -> list added -> Prop :=
  | chain_end : chain c GLOBAL_CODE_CACHE_ROUTINE []
  | chain_cons a l :
      c !! ad_routine a = Some (exit_code (ad_args a) (ad_prev a)) ->
      chain c (ad_prev a) l -> chain c (ad_routine a) (a :: l).

Lemma chain_mono c c' pc l : c ⊆ c' -> chain c pc l -> chain c' pc l.
Proof.
  intros Hs. induction 1; [constructor|]. constructor; [|done]. eapply lookup_weaken; eauto.
Qed.

(** The most recent routine for [M]. *)
Fixpoint latest (M : Z) (h : list added) : option added :=
  match h with
  | [] => None
  | a :: h => if ad_mangled a =? M then Some a else latest M h
  end.

Lemma latest_filter M h :
  latest M (filter (fun a => granary_ibl_hash (ad_mangled a) = granary_ibl_hash M) h) = latest M h.
Proof.
  induction h as [|a h IH]; [done|]. cbn [latest]. rewrite filter_cons.
  destruct (decide _) as [Hd|Hd]; cbn [latest]; [now rewrite IH|].
  rewrite IH. destruct (Z.eqb_spec (ad_mangled a) M) as [E|]; [|done]. by rewrite E in Hd.
Qed.

(** The slots of a routine hold its far targets, outside the saved words. *)
Definition slots_ok (f : Z -> Z) (S : Z) (a : added) : Prop :=
  in_width 64 (ad_mangled a) /\
  slot_ok f (staged_loc (ad_args a)) (ad_target a) (hit_slot (ad_args a)) /\
  slot_ok f (staged_loc (ad_args a)) (ad_prev a) (miss_slot (ad_args a)) /\
  (word_at (hit_slot (ad_args a)) /\ (hit_slot (ad_args a) + 8 <= S - 32 \/ S <= hit_slot (ad_args a))) /\
  (word_at (miss_slot (ad_args a)) /\ (miss_slot (ad_args a) + 8 <= S - 32 \/ S <= miss_slot (ad_args a))).

Lemma slot_ok_frame f g S staged target slot :
  slot_ok f staged target slot -> word_at slot -> slot + 8 <= S - 32 \/ S <= slot ->
  (forall x, 0 <= x < 2 ^ 64 -> x < S - 32 \/ S <= x -> g x = f x) -> slot_ok g staged target slot.
Proof.
  intros Hs [H1 H2] Hd Hg Hfar. rewrite <- (Hs Hfar). apply read64_ext; [split; done|].
  intros x Hx. apply Hg; lia.
Qed.

(** Where a lookup of [M] ends. *)
Definition dispatched (m0 : mach) (S M : Z) (h : list added) (pc : Z) (m : mach) : Prop :=
  match latest M h with
  | Some a => pc = ad_target a /\ arrived m0 S m
  | None => pc = GLOBAL_CODE_CACHE_ROUTINE /\ ibl_frame m0 S m /\ regs m rdi = M
  end.

Lemma follow_chain st m0 S M fuel : forall l pc m,
  chain (code_at st) pc l -> (length l <= fuel)%nat ->
  code_at st !! GLOBAL_CODE_CACHE_ROUTINE = None ->
  (forall a, a ∈ l -> code_at st !! ad_target a = None) ->
  (forall a, a ∈ l -> slots_ok (mem m0) S a) ->
  32 <= S -> S + 8 < 2 ^ 64 -> in_width 64 M -> ibl_frame m0 S m -> regs m rdi = M ->
  exists pc' m', follow fuel st pc m = Ret (pc', m') /\ dispatched m0 S M l pc' m'.
Proof.
  induction fuel as [|fuel IH]; intros l pc m Hc Hlen Hg Ht Hs Hlo Hhi HM Hf Hrdi.
  - inversion Hc; subst; cbn in Hlen; [|lia]. cbn [follow]. rewrite Hg. unfold dispatched. cbn. eauto 10.
  - inversion Hc as [|a l' Hcode Hrest]; subst.
    + cbn [follow]. rewrite Hg. unfold dispatched. cbn. eauto 10.
    + destruct (Hs a) as (Hw & Hs1 & Hs2 & [Hw1 Hd1] & [Hw2 Hd2]); [apply elem_of_cons; auto|].
      assert (Hmem : forall x, 0 <= x < 2 ^ 64 -> x < S - 32 \/ S <= x -> mem m x = mem m0 x) by apply Hf.
      cbn [follow]. rewrite Hcode. unfold dispatched. cbn [latest].
      destruct (Z.eqb_spec (ad_mangled a) (regs m rdi)) as [E|E].
      * destruct (exit_run_hit (fun _ _ => Fault) m0 S m (ad_args a) (ad_prev a)) as (m' & -> & Ha);
          [done|done|eapply slot_ok_frame; eauto|done|exact Hw|now symmetry|].
        cbn [mbind outcome_bind fst snd].
        exists (ad_target a), m'. split; [|done].
        destruct fuel; cbn [follow]; unfold ad_target in *; rewrite (Ht a) by (apply elem_of_cons; auto); done.
      * destruct (exit_run_miss (fun _ _ => Fault) m0 S m (ad_args a) (ad_prev a))
          as (m' & -> & Hf' & Hr' & _);
          [done|done|eapply slot_ok_frame; eauto|done|exact Hw|exact HM|now apply not_eq_sym|].
        cbn [mbind outcome_bind fst snd].
        apply (IH l' (ad_prev a) m'); auto; try (cbn in Hlen; lia); try congruence.
        -- intros b Hb. apply Ht, elem_of_cons. auto.
        -- intros b Hb. apply Hs, elem_of_cons. auto.
Qed.

(** ** Additions *)

(** The states that additions lead to, with what was added, the most recent
    first.  The fragment allocator hands out addresses of its own: they are
    not null, hold no other routine, and are not targets of any. *)
Inductive ibl_reach : ibl_state -> list added -> Prop :=
  | reach_init : ibl_reach initial_ibl []
  | reach_add st h e routine hit_pc st' prev :
      ibl_reach st h ->
      ibl_exit_routine e routine hit_pc st = Ret (hit_pc, st') ->
      jump_table st !! Z.to_nat (granary_ibl_hash (mangled_target_pc e)) = Some prev ->
      code_at st !! routine = None -> code_at st !! hit_pc = None -> routine <> hit_pc -> routine <> 0 ->
      routine <> GLOBAL_CODE_CACHE_ROUTINE -> hit_pc <> GLOBAL_CODE_CACHE_ROUTINE ->
      (forall a, a ∈ h -> ad_target a <> routine /\ ad_target a <> hit_pc) ->
      code_at st' !! instrumented_target_pc e = None ->
      ibl_reach st' ({| ad_args := e; ad_routine := routine; ad_hit := hit_pc; ad_prev := prev |} :: h).

Definition bucket (i : Z) (h : list added) : list added :=
  filter (fun a => granary_ibl_hash (ad_mangled a) = i) h.

Record ibl_inv (st : ibl_state) (h : list added) : Prop := {
  inv_len : length (jump_table st) = Z.to_nat NUM_IBL_JUMP_TABLE_ENTRIES;
  inv_global : code_at st !! GLOBAL_CODE_CACHE_ROUTINE = None;
  inv_targets : forall a, a ∈ h -> code_at st !! ad_target a = None;
  inv_chain : forall i, 0 <= i < NUM_IBL_JUMP_TABLE_ENTRIES ->
    exists pc, jump_table st !! Z.to_nat i = Some pc /\ pc <> 0 /\ chain (code_at st) pc (bucket i h);
  inv_hit : forall a, a ∈ h -> code_at st !! ad_hit a = Some (exit_hit (ad_args a) (ad_prev a))
}.

Lemma add_succeeds st h e routine hit_pc :
  ibl_inv st h -> instrumented_target_pc e <> 0 ->
  exists prev, jump_table st !! Z.to_nat (granary_ibl_hash (mangled_target_pc e)) = Some prev /\
  ibl_exit_routine e routine hit_pc st =
    Ret (hit_pc, {| jump_table := <[Z.to_nat (granary_ibl_hash (mangled_target_pc e)) := routine]> (jump_table st);
                    code_at := <[routine := exit_code e prev]>
                                 (<[hit_pc := exit_hit e prev]> (code_at st)) |}).
Proof.
  intros [] Hne. pose proof (ibl_hash_range (mangled_target_pc e)) as Hh.
  destruct (inv_chain0 _ Hh) as (prev & Hprev & Hp0 & _). exists prev. split; [done|].
  unfold ibl_exit_routine. rewrite (proj2 (Z.eqb_neq _ _)) by done.
  rewrite (proj2 (Z.ltb_lt _ _)) by lia. cbn [negb ASSERT mbind outcome_bind].
  unfold idx. rewrite Hprev. cbn [mbind outcome_bind].
  rewrite (proj2 (Z.eqb_neq _ _)) by done. cbn [negb ASSERT mbind outcome_bind].
  unfold set_idx. rewrite bool_decide_eq_true_2; [done|]. apply lookup_lt_Some in Hprev. lia.
Qed.

Lemma reach_inv st h : GLOBAL_CODE_CACHE_ROUTINE <> 0 -> ibl_reach st h -> ibl_inv st h.
Proof.
  intros Hg0. induction 1 as [|st h e routine hit st' prev Hr IH E Hprev Hf1 Hf2 Hne Hr0 Hg1 Hg2 Ht Ht'].
  - constructor.
    + apply length_replicate.
    + apply lookup_empty.
    + by intros a ?%elem_of_nil.
    + intros i Hi. exists GLOBAL_CODE_CACHE_ROUTINE. split; [|split; [done|constructor]].
      apply lookup_replicate. split; [done|]. apply Z2Nat.inj_lt; lia.
    + by intros a ?%elem_of_nil.
  - destruct (decide (instrumented_target_pc e = 0)) as [E0|E0].
    { unfold ibl_exit_routine in E. now rewrite E0 in E. }
    destruct (add_succeeds st h e routine hit IH E0) as (prev' & Hprev' & E').
    rewrite E' in E. injection E as <-. assert (prev' = prev) as -> by congruence.
    destruct IH. pose proof (ibl_hash_range (mangled_target_pc e)) as Hh.
    assert (Hsub : code_at st ⊆ <[routine:=exit_code e prev]> (<[hit:=exit_hit e prev]> (code_at st))).
    { transitivity (<[hit:=exit_hit e prev]> (code_at st)).
      - now apply insert_subseteq.
      - apply insert_subseteq. now rewrite lookup_insert_ne. }
    constructor; cbn [jump_table code_at].
    + now rewrite length_insert.
    + now rewrite !lookup_insert_ne by congruence.
    + intros a [->|Ha]%elem_of_cons; [exact Ht'|]. destruct (Ht a Ha).
      rewrite !lookup_insert_ne by congruence. auto.
    + intros i Hi. unfold bucket. rewrite filter_cons. unfold ad_mangled at 1. cbn [ad_args].
      destruct (decide (granary_ibl_hash (mangled_target_pc e) = i)) as [<-|Hd].
      * exists routine. split; [|split; [done|]].
        { apply list_lookup_insert_eq. rewrite inv_len0. apply Z2Nat.inj_lt; lia. }
        apply (chain_cons _ {| ad_args := e; ad_routine := routine; ad_hit := hit; ad_prev := prev |}).
        { cbn. apply lookup_insert_eq. }
        cbn. eapply chain_mono; [exact Hsub|]. destruct (inv_chain0 _ Hh) as (pc & Hpc & _ & Hc).
        rewrite Hprev in Hpc. injection Hpc as ->. exact Hc.
      * destruct (inv_chain0 i Hi) as (pc & Hpc & Hp0 & Hc). exists pc.
        split; [|split; [done|eapply chain_mono; eauto]].
        rewrite list_lookup_insert_ne; [done|]. intros E. apply Hd. apply Z2Nat.inj in E; lia.
    + intros a [->|Ha]%elem_of_cons; cbn [ad_hit ad_args ad_prev].
      * rewrite lookup_insert_ne by done. apply lookup_insert_eq.
      * eapply lookup_weaken; [|exact Hsub]. auto.
Qed.

(** ** Theorems *)

(** The world in which the branch is run: the table and the far slots are in
    memory, and the words that are saved do not overlap them. *)
Record ibl_memory (st : ibl_state) (h : list added) (S : Z) (m0 : mach) : Prop := {
  im_wf : wf_regs m0;
  im_S : 32 <= S /\ S + 8 < 2 ^ 64;
  im_table : 0 <= IBL_JUMP_TABLE /\ IBL_JUMP_TABLE + 8 * NUM_IBL_JUMP_TABLE_ENTRIES <= 2 ^ 64;
  im_apart : S <= IBL_JUMP_TABLE \/ IBL_JUMP_TABLE + 8 * NUM_IBL_JUMP_TABLE_ENTRIES <= S - 32;
  im_entries : forall i, 0 <= i < NUM_IBL_JUMP_TABLE_ENTRIES ->
    jump_table st !! Z.to_nat i = Some (read64 (mem m0) (IBL_JUMP_TABLE + 8 * i));
  im_slots : forall a, a ∈ h -> slots_ok (mem m0) S a
}.

(** From a completed frame, the stub and the chain. *)
Lemma frame_dispatch go st h m0 S m T p block_instr rest fuel :
  GLOBAL_CODE_CACHE_ROUTINE <> 0 -> ibl_reach st h -> ibl_memory st h S m0 ->
  MangledAddress.canonical T -> policy_wf p -> ibl_frame m0 S m -> regs m rdi = T ->
  (length h <= fuel)%nat ->
  exists pc m1, run_from go no_native (fun _ _ => Fault) (ibl_lookup_stub p block_instr ++ rest) m
      = Ret (ToPc pc, m1) /\
    exists pc' m', follow fuel st pc m1 = Ret (pc', m') /\
      dispatched m0 S (MangledAddress.mangled_address T p) h pc' m'.
Proof.
  intros Hg0 Hr [] Hc Hp Hf HT Hfuel. destruct (reach_inv st h Hg0 Hr).
  set (M := MangledAddress.mangled_address T p).
  assert (HM : in_width 64 M).
  { unfold M, MangledAddress.mangled_address, MangledAddress.set_policy_bits, MangledAddress.NUM_MANGLED_BITS.
    apply set_field_in_width; try lia. apply Hc. }
  pose proof (ibl_hash_range M) as Hh. destruct (inv_chain0 _ Hh) as (pc & Hpc & _ & Hch).
  destruct (stub_run go (fun _ _ => Fault) m0 S m T p block_instr rest pc) as (m1 & E1 & Hf1 & Hr1); try done.
  - apply im_table0.
  - apply im_table0.
  - rewrite im_entries0 in Hpc by done. injection Hpc as <-. fold M.
    apply read64_ext; [split; lia|]. intros x Hx. apply Hf; lia.
  - exists pc, m1. split; [done|].
    destruct (follow_chain st m0 S M fuel _ pc m1 Hch) as (pc' & m' & E' & Hd); try tauto; try done.
    + unfold bucket. etransitivity; [apply length_filter|done].
    + intros a [_ Ha]%list_elem_of_filter. auto.
    + intros a [_ Ha]%list_elem_of_filter. auto.
    + exists pc', m'. split; [done|]. unfold dispatched in *. unfold bucket in Hd. now rewrite latest_filter in Hd.
Qed.

(** The machine at the target of a branch of each kind: where the return
    address of a call has been pushed, or that of a return popped. *)
Definition branch_base (kind : ibl_entry_kind) (ra : Z) (m : mach) : mach :=
  match kind with
  | IBL_ENTRY_CALL => push ra m
  | IBL_ENTRY_RETURN => set_reg rsp (regs m rsp + 8) m
  | IBL_ENTRY_JMP => m
  end.

(** The address the native branch goes to. *)
Definition branch_target (kind : ibl_entry_kind) (target : operand) (m : mach) : Z :=
  match kind with
  | IBL_ENTRY_RETURN => read64 (mem m) (regs m rsp)
  | _ => get_op m target
  end.

Lemma find_label_none_skip l a b : find_label l a = None -> find_label l (a ++ b) = find_label l b.
Proof.
  induction a as [|i a IH]; [done|]. cbn [find_label app]. intros Hn.
  destruct i; auto. destruct (decide _); [done|auto].
Qed.

Lemma load_target_no_label l est t : find_label l (load_target est t) = None.
Proof. destruct t as [r|b d|a|v]; cbn; [destruct (reg_eqb r _)| |destruct (is_far_away a est)|]; reflexivity. Qed.

(** The code of a jump, from any machine that differs from the branch by a
    pushed return address of [off - 8] bytes. *)
Lemma jump_dispatch go st h m ma m0 S off target p est block_instr rest fuel :
  GLOBAL_CODE_CACHE_ROUTINE <> 0 -> ibl_reach st h -> policy_wf p ->
  ibl_memory st h S m0 -> MangledAddress.canonical (get_op m target) ->
  target_ok m (regs m rsp) target -> wf_regs m -> 64 <= regs m rsp -> regs m rsp + 16 < 2 ^ 64 ->
  8 <= off <= 16 -> S = regs m rsp - (off - 8) -> ma = m0 -> regs ma rsp = S ->
  (forall r, r <> rsp -> regs ma r = regs m r) -> flags ma = flags m ->
  (forall x, 0 <= x < 2 ^ 64 -> x < S \/ regs m rsp <= x -> mem ma x = mem m x) ->
  (length h <= fuel)%nat ->
  exists pc m1, run_from go no_native (fun _ _ => Fault)
      ([push_ (OReg indirect_target_addr)] ++ load_target est (adjust_target target off) ++
       ibl_save ++ ibl_lookup_stub p block_instr ++ rest) ma = Ret (ToPc pc, m1) /\
    exists pc' m', follow fuel st pc m1 = Ret (pc', m') /\
      dispatched m0 S (MangledAddress.mangled_address (get_op m target) p) h pc' m'.
Proof.
  intros Hg0 Hr Hp Him Hc Ht Hwf Hlo Hhi Hoff HS -> Hsp Hrg Hfl Hmem Hfuel.
  unfold indirect_target_addr. cbn [app].
  erewrite run_from_next by (apply exec_push; lia). set (mb := set_reg rsp _ _).
  assert (Hbsp : regs mb rsp = S - 8) by (unfold mb; rewrite regs_set_same; lia).
  assert (Hbr : forall r, r <> rsp -> regs mb r = regs m0 r).
  { intros r Hne. unfold mb. now rewrite regs_set_other. }
  assert (Hbm : forall x, 0 <= x < 2 ^ 64 -> x < S - 8 \/ S <= x -> mem mb x = mem m0 x).
  { intros x Hx Hd. unfold mb. cbn [mem set_reg set_mem]. apply write64_other; [split|..]; lia. }
  destruct (load_target_run est target off m (regs m rsp) mb) as (mc & Ec & Hcrdi & Hcr & Hcm & Hcf);
    [done|lia|lia| |lia| |].
  { intros r Hne. rewrite Hbr, Hrg by done. done. }
  { intros x Hx Hd. rewrite Hbm, Hmem by lia. done. }
  rewrite (run_from_straight _ _ _ _ _ _ _ Ec).
  destruct (save_run m0 S mc) as (md & Ed & Hfr & Hdr); try done.
  - apply Him.
  - lia.
  - lia.
  - rewrite Hcr by done. exact Hbsp.
  - rewrite Hcm. unfold mb. cbn [mem set_reg set_mem]. rewrite Hsp. apply read64_write64_same.
    apply Him.
  - intros r Hd Hs. rewrite Hcr, Hbr by done. done.
  - intros x Hx Hd. rewrite Hcm, Hbm by lia. done.
  - rewrite (run_from_straight _ _ _ _ _ _ _ Ed).
    eapply frame_dispatch; try done. now rewrite Hdr, Hcrdi.
Qed.

Lemma return_dispatch go st h m p est block_instr fuel :
  GLOBAL_CODE_CACHE_ROUTINE <> 0 -> ibl_reach st h -> policy_wf p ->
  let S := regs m rsp + 8 in let m0 := set_reg rsp S m in let T := read64 (mem m) (regs m rsp) in
  ibl_memory st h S m0 -> MangledAddress.canonical T ->
  wf_regs m -> 64 <= regs m rsp -> regs m rsp + 16 < 2 ^ 64 -> (length h <= fuel)%nat ->
  exists pc m1, run_from go no_native (fun _ _ => Fault)
      ([xchg_ (OMem rsp 0) indirect_target_addr] ++ load_target est (OReg indirect_target_addr) ++
       ibl_save ++ ibl_lookup_stub p block_instr) m = Ret (ToPc pc, m1) /\
    exists pc' m', follow fuel st pc m1 = Ret (pc', m') /\
      dispatched m0 S (MangledAddress.mangled_address T p) h pc' m'.
Proof.
  intros Hg0 Hr Hp S m0 T Him Hc Hwf Hlo Hhi Hfuel.
  change (load_target est (OReg indirect_target_addr)) with (@nil instr).
  unfold indirect_target_addr. cbn [app].
  erewrite run_from_next by reflexivity. set (mc := set_reg rdi _ _).
  assert (Hea : ea m rsp 0 = regs m rsp) by (unfold ea; rewrite Z.add_0_r; apply wrap_small; lia).
  assert (Hmm : mem mc = write64 (mem m) (regs m rsp) (regs m rdi)) by (unfold mc; cbn; now rewrite Hea).
  destruct (save_run m0 S mc) as (md & Ed & Hfr & Hdr); unfold S, m0; try lia.
  - apply Him.
  - unfold mc. cbn. lia.
  - rewrite Hmm. replace (regs m rsp + 8 - 8) with (regs m rsp) by lia.
    rewrite read64_write64_same by apply Hwf. reflexivity.
  - intros r Hd Hs. unfold mc. destruct r; done.
  - reflexivity.
  - intros x Hx Hd. rewrite Hmm. cbn. apply write64_other; [split; lia|done|lia].
  - fold m0 S in Hfr. rewrite <- (app_nil_r (ibl_lookup_stub p block_instr)).
    rewrite (run_from_straight _ _ _ _ _ _ _ Ed).
    eapply frame_dispatch; try done. rewrite Hdr. unfold mc. rewrite regs_set_same.
    cbn [get_op]. now rewrite Hea.
Qed.

(** C3 Indirect branches.  After any additions of exit routines, an indirect
    jump, call or return of the native program, replaced by the generated
    code, ends at the instrumented code of the routine most recently added
    for its target under its policy, with every register, the memory and
    the flags (the overflow flag apart) as the native branch leaves them; if
    there is none, it ends at the global lookup with the mangled target in
    [rdi] and the saved registers on the stack.  As many steps through the
    chain are enough as there were additions. *)
Theorem ibl_branch_correct st h kind target p est block_instr ra m fuel :
  GLOBAL_CODE_CACHE_ROUTINE <> 0 -> ibl_reach st h -> policy_wf p -> wf_regs m ->
  64 <= regs m rsp -> regs m rsp + 16 < 2 ^ 64 ->
  let m0 := branch_base kind ra m in
  let T := branch_target kind target m in
  ibl_memory st h (regs m0 rsp) m0 -> MangledAddress.canonical T ->
  (kind <> IBL_ENTRY_RETURN -> target_ok m (regs m rsp) target) -> (length h <= fuel)%nat ->
  exists pc m', run_branch fuel st (mangle_ibl_lookup kind target p est block_instr ra) m = Ret (pc, m') /\
    dispatched m0 (regs m0 rsp) (MangledAddress.mangled_address T p) h pc m'.
Proof.
  intros Hg0 Hr Hp Hwf Hlo Hhi m0 T Him Hc Ht Hfuel. unfold run_branch, run. set (go := branch 2 _ _ _).
  destruct kind; unfold mangle_ibl_lookup, branch_base, branch_target in *.
  - specialize (Ht ltac:(discriminate)).
    set (code := _ ++ _) in go |- *.
    assert (Ego : run_from go no_native (fun _ _ => Fault) code m =
      branch 1 no_native (fun _ _ => Fault) code call_target_label (push ra m)).
    { unfold code at 1. cbn [app run_from exec1]. unfold go. cbn [branch].
      unfold code at 1. cbn [app find_label]. rewrite decide_False by done.
      cbn [app find_label]. rewrite find_label_none_skip by apply load_target_no_label.
      cbn [ibl_save app insert_save_arithmetic_flags_after find_label].
      rewrite find_label_none_skip by (unfold ibl_lookup_stub, IF_USER_ELSE; destruct env_kernel; reflexivity).
      cbn [find_label]. rewrite decide_True by done. cbn [run_from exec1]. reflexivity. }
    rewrite Ego. cbn [branch]. unfold code at 1. cbn [app find_label]. rewrite decide_True by done.
    assert (Hsp : regs m0 rsp = regs m rsp - 8).
    { unfold m0, push. rewrite regs_set_same. apply wrap_small. lia. }
    match goal with |- context [run_from ?g no_native _ _ (push ra m)] => set (go1 := g) end.
    destruct (jump_dispatch go1 st h m m0 m0 (regs m0 rsp) 16 target p est block_instr
      [label_ do_call_label; call_instr_ call_target_label ra] fuel) as (pc & m1 & E1 & pc' & m' & E2 & Hd);
      try done; try lia.
    + intros r Hne. unfold m0, push. now rewrite regs_set_other.
    + intros x Hx Hd. unfold m0, push. cbn [mem set_reg set_mem]. rewrite wrap_small by lia.
      apply write64_other; [split; lia|done|lia].
    + fold m0. cbn [app] in E1. rewrite E1. cbn [mbind outcome_bind fst snd]. eauto.
  - assert (Hsp : regs m0 rsp = regs m rsp + 8) by (unfold m0; now rewrite regs_set_same).
    rewrite Hsp in *.
    destruct (return_dispatch go st h m p est block_instr fuel) as (pc & m1 & -> & pc' & m' & E2 & Hd); try done.
    cbn [mbind outcome_bind fst snd]. eauto.
  - specialize (Ht ltac:(discriminate)).
    destruct (jump_dispatch go st h m m0 m0 (regs m0 rsp) 8 target p est block_instr [] fuel)
      as (pc & m1 & E1 & pc' & m' & E2 & Hd); try done; try lia.
    + unfold m0. lia.
    + rewrite app_nil_r in E1. change m0 with m in E1. rewrite E1. cbn [mbind outcome_bind fst snd]. eauto.
Qed.

End Ibl.

(** ** An instance *)

(** Memory that holds a table of words at [base]. *)
Definition table_mem (base : Z) (t : list Z) : Z -> Z := fun x =>
  get_field (8 * ((x - base) mod 8)) 8 (t !!! Z.to_nat ((x - base) / 8)).

Lemma table_mem_read base t i v :
  0 <= i -> word_at (base + 8 * i) -> t !! Z.to_nat i = Some v -> in_width 64 v ->
  read64 (table_mem base t) (base + 8 * i) = v.
Proof.
  intros Hi [Ha1 Ha2] Hv Hw. rewrite (read64_ext _ (write64 (table_mem base t) (base + 8 * i) v)).
  - now apply read64_write64_same.
  - split; done.
  - intros x Hx. unfold write64, table_mem. rewrite wrap_small by lia.
    rewrite (proj2 (Z.ltb_lt _ 8)) by lia.
    replace ((x - base) / 8) with i by (apply Z.div_unique with (x - (base + 8 * i)); lia).
    replace ((x - base) mod 8) with (x - (base + 8 * i)) by (apply Z.mod_unique with i; lia).
    now rewrite (list_lookup_total_correct _ _ _ Hv).
Qed.

Definition sample_policy : instrumentation_policy := mk_policy 0x0120.
Definition sample_target : Z := 0xFFFFFFFF81000420.
Definition sample_args : exit_args :=
  {| mangled_target_pc := MangledAddress.mangled_address sample_target sample_policy;
     instrumented_target_pc := 0x5000; staged_loc := 0x7000; hit_slot := 0; miss_slot := 0 |}.
Definition sample_added : added :=
  {| ad_args := sample_args; ad_routine := 0x6000; ad_hit := 0x6010; ad_prev := 0x4000 |}.
Definition sample_table : list Z := <[33%nat := 0x6000]> (replicate 2048 0x4000).
Definition sample_state : ibl_state :=
  {| jump_table := sample_table;
     code_at := <[0x6000 := exit_code sample_args 0x4000]>
                  (<[0x6010 := exit_hit sample_args 0x4000]> ∅) |}.
Definition sample_branch_mach : mach :=
  {| regs := fun r => if reg_eqb r rsp then 0x10000 else if reg_eqb r rbx then sample_target else reg_id r;
     mem := table_mem 0x100000 sample_table; flags := 0x202 |}.

Lemma sample_reach : ibl_reach 0x4000 sample_state [sample_added].
Proof.
  apply (reach_add 0x4000 (initial_ibl 0x4000) [] sample_args 0x6000 0x6010 sample_state 0x4000);
    try (by vm_compute); try done.
  - constructor.
  - by intros a ?%elem_of_nil.
Qed.

Lemma sample_table_entry i : 0 <= i < 2048 -> exists v, sample_table !! Z.to_nat i = Some v /\ in_width 64 v.
Proof.
  intros Hi. unfold sample_table. destruct (decide (Z.to_nat i = 33%nat)) as [->|Hne].
  - rewrite list_lookup_insert_eq by (rewrite length_replicate; lia). eexists. split; [done|]. split; lia.
  - rewrite list_lookup_insert_ne by done. rewrite lookup_replicate_2 by lia. eexists. split; [done|]. split; lia.
Qed.

Lemma sample_memory : ibl_memory 0x100000 sample_state [sample_added] 0x10000 sample_branch_mach.
Proof.
  constructor; unfold NUM_IBL_JUMP_TABLE_ENTRIES; try lia.
  - intros r. destruct r; vm_compute; split; congruence.
  - intros i Hi. destruct (sample_table_entry i Hi) as (v & Hv & Hw). change (jump_table sample_state) with sample_table.
    rewrite Hv. f_equal. symmetry. apply table_mem_read; [lia|split; lia|done|done].
  - intros a [->|?%elem_of_nil]%elem_of_cons; [|done].
    split; [vm_compute; split; congruence|]. split; [by vm_compute|]. split; [by vm_compute|].
    unfold word_at. cbn. lia.
Qed.

Lemma ibl_branch_correct_witness :
  exists m', run_branch 1 sample_state
      (mangle_ibl_lookup (H := kernel_config) 0x100000 IBL_ENTRY_JMP (OReg rbx) sample_policy 0x7000 0x7040 0)
      sample_branch_mach = Ret (0x5000, m') /\
    arrived sample_branch_mach 0x10000 m'.
Proof.
  destruct (ibl_branch_correct (H := kernel_config) 0x100000 0x4000 sample_state [sample_added]
    IBL_ENTRY_JMP (OReg rbx) sample_policy 0x7000 0x7040 0 sample_branch_mach 1)
    as (pc & m' & E & Hd).
  - lia.
  - exact sample_reach.
  - vm_compute; split; congruence.
  - apply sample_memory.
  - cbn. lia.
  - cbn. lia.
  - exact sample_memory.
  - split; [vm_compute; split; congruence|reflexivity].
  - intros _. cbn. discriminate.
  - cbn. lia.
  - unfold dispatched in Hd. replace (latest _ [sample_added]) with (Some sample_added) in Hd by (by vm_compute).
    destruct Hd as [-> Ha]. exists m'. split; [exact E|exact Ha].
Defined.
