(* ===== verification/IblGlobal.v ===== *)
(** * The global lookup of indirect branches: [granary/ibl.cc]

    When no exit routine of the jump table matches, control reaches the
    routine generated by [global_code_cache_lookup_routine]: it saves the
    registers the search may clobber, switches to the private stack, calls
    [code_cache::find], and jumps to the address that it returns, the middle
    of the exit routine for the target.

    The theorem, for the kernel build: if [code_cache::find] obeys the
    calling convention and returns the address behind the comparison of an
    exit routine, the replaced branch arrives at the instrumented code of
    that routine with every register as at the branch.  With [Ibl] this
    covers both ways a branch is resolved. *)

From Stdlib Require Import ZArith Lia.
From stdpp Require Import base numbers list option gmap.
From S2P Require Import Prelude Policy Register Machine EmitUtils PrivateStack PrivateCall Ibl.

Section Global.
Context `{Config}.

(** [IF_NOT_TEST]: outside of test builds the callee-saved registers are left
    to the callee. *)
Definition ibl_saved_regs (test : bool) : outcome register_manager :=
  rm ← revive_regs [indirect_target_addr; indirect_clobber_reg; indirect_source_addr]
         (kill_all register_manager_ctor);
  if test then Ret rm else revive_regs [rbx; rbp; r12; r13; r14; r15] rm.

Definition global_code_cache_lookup_routine (test : bool)
    (staged_loc global_code_cache_find enter_fn exit_fn : Z) : outcome (list instr) :=
  let ibl := if env_kernel
             then insert_restore_arithmetic_flags_after REG_AH_IS_DEAD ++
                  insert_save_flags_after REG_AH_IS_DEAD
             else [] in
  all_regs ← ibl_saved_regs test;
  safe ← save_and_restore_registers ZOMBIE_FUEL all_regs {| before := ibl; after := [] |};
  let safe := if env_kernel then insert_call staged_loc enter_fn safe else safe in
  let safe := insert_call staged_loc global_code_cache_find safe in
  let safe := insert_after (mov_ld_ indirect_target_addr (OReg rax)) safe in
  let safe := if env_kernel then insert_call staged_loc exit_fn safe else safe in
  Ret (cursor_list safe ++ insert_restore_flags_after REG_AH_IS_DEAD ++
       [pop_ indirect_source_addr; pop_ indirect_clobber_reg; jmp_ind_ (OReg indirect_target_addr)]).

(** ** What is called *)
Context (top_fn enter_fn exit_fn find_fn ra : Z) (top_sem : callee_sem) (find_sem : mach -> outcome (option exit * mach)).

Definition ibl_callee : callee_sem := private_callee top_fn enter_fn exit_fn find_fn ra top_sem find_sem.

(** [code_cache::find], called with the mangled target in [rdi], obeys the
    calling convention and returns [hit_pc]; the native stack [lo, hi) and
    the word on top of the private stack are not its own. *)
Definition finds (M hit_pc lo hi : Z) : Prop :=
  forall m, regs m rdi = M -> wf_regs m ->
    exists m', find_sem m = Ret (None, m') /\ regs m' rax = hit_pc /\
      abi_effect lo hi m m' /\
      read64 (mem m') (regs m rsp) = read64 (mem m) (regs m rsp).

(** ** Lemmas *)
Lemma saved_regs_ok test :
  exists rm, ibl_saved_regs test = Ret rm /\ rm_wf rm /\
    (forall r, zombie rm (reg_id r) = false) /\
    (forall r, lives rm (reg_id r) = true ->
       r = rsp \/ r = rdi \/ r = rax \/ r = rsi \/ r ∈ callee_saved).
Proof.
  destruct test; (eexists; split; [vm_compute; reflexivity|]);
    (split; [vm_compute; intuition congruence|]); (split; [by intros []|]);
    intros [] E; vm_compute in E; try discriminate E; unfold callee_saved; rewrite !elem_of_cons; tauto.
Qed.

Lemma finds_returns M hit_pc m lo hi : finds M hit_pc lo hi -> regs m rdi = M ->
  returns find_sem m hit_pc lo hi (mem m).
Proof.
  intros Hf HM m1 Hdi _ Hwf Hmem _. destruct (Hf m1) as (m2 & E & Hr & [] & Hw); [congruence|done|].
  exists m2. split; [done|]. split; [done|]. split; [done|]. split; [done|]. split; [done|]. split; [done|].
  intros x Hx. rewrite abi_mem by done. auto.
Qed.

(** The flags, restored and pushed again in full. *)
Lemma global_prefix_run m0 S m :
  ibl_frame m0 S m -> wf_regs m -> 64 <= S -> S + 16 < 2 ^ 64 -> in_width 64 (restore_ah (flags m0) (flags m)) ->
  exists ma, exec_list no_native [pop_ rax; sahf_; pushf_; cli_] m = Some ma /\
    regs ma rsp = S - 32 /\ (forall r, r <> rax -> r <> rsp -> regs ma r = regs m r) /\
    (in_width 64 (read64 (mem m) (S - 32)) -> wf_regs ma) /\
    read64 (mem ma) (S - 32) = restore_ah (flags m0) (flags m) /\
    (forall x, 0 <= x < 2 ^ 64 -> S - 24 <= x -> mem ma x = mem m x).
Proof.
  intros [] Hwf Hlo Hhi Hfl. cbn [exec_list]. rewrite exec_pop by lia. cbn [exec1].
  eexists. split; [reflexivity|]. unfold push, sahf. cbn -[Z.add Z.sub]. rewrite fr_sp, fr_ah.
  fold (restore_ah (flags m0) (flags m)). machine.
  split; [lia|]. split; [intros r ? ?; destruct r; done|]. split; [|split].
  - intros Hw r. destruct r; cbn -[Z.add Z.sub]; (apply Hwf || done || (split; lia)).
  - replace (S - 32 + 8 - 8) with (S - 32) by lia. machine. done.
  - intros x Hx Hd. rewrite write64_other by (try split; lia). done.
Qed.

Lemma finds_mono M hit_pc lo lo' hi : lo <= lo' -> finds M hit_pc lo hi -> finds M hit_pc lo' hi.
Proof.
  intros Hle Hf m Hm Hwf. destruct (Hf m Hm Hwf) as (m' & E & Hr & [] & Hw).
  exists m'. split; [done|]. split; [done|]. split; [|done]. constructor; auto.
  intros x Hx. apply abi_mem. lia.
Qed.

(** The environment of the routine: distinct addresses of the functions that
    are called, the private stack apart from the native stack [S - 160, hi),
    and the behaviour of the two C functions. *)
Record global_env (S hi P M hit_pc : Z) : Prop := {
  ge_kernel : env_kernel = true;
  ge_addrs : Forall (in_width 64) [enter_fn; exit_fn; find_fn; ra; hit_pc];
  ge_distinct : NoDup [enter_fn; exit_fn; find_fn];
  ge_stack : 512 <= S /\ S <= hi /\ hi < 2 ^ 64 /\ S + 16 < 2 ^ 64;
  ge_private : 32 <= P < 2 ^ 64 /\ (P <= S - 168 \/ hi <= P - 24);
  ge_top : forall m, S - 160 <= regs m rsp <= S -> gives_top top_sem top_fn P hi m;
  ge_find : finds M hit_pc (S - 160) hi
}.

(** The routine, up to its jump. *)
Lemma global_routine_run test staged m0 S m M hit_pc hi P :
  global_env S hi P M hit_pc -> ibl_frame m0 S m -> wf_regs m -> regs m rdi = M ->
  in_width 64 (read64 (mem m) (S - 32)) -> in_width 64 (restore_ah (flags m0) (flags m)) ->
  exists code m1,
    global_code_cache_lookup_routine test staged find_fn enter_fn exit_fn = Ret code /\
    run 0 no_native ibl_callee code m = Ret (ToPc hit_pc, m1) /\
    regs m1 rsp = S - 8 /\ (forall r, r <> rdi -> r <> rsp -> regs m1 r = regs m0 r) /\
    flags m1 = restore_ah (flags m0) (flags m) /\
    (forall x, S - 8 <= x < hi -> mem m1 x = mem m x).
Proof.
  intros [Hk Haddr Hnd [Hlo [Hhi [Hhi2 HS]]] [HP Hapart] Htop Hfind] Hf Hwf HM Hw32 Hfl.
  rewrite !List.Forall_cons_iff in Haddr. destruct Haddr as (We & Wx & Wf & Wra & Whit & _).
  destruct (global_prefix_run m0 S m) as (ma & Ea & Sa & Ra & Wa & Fa & Ma); try done; [lia..|].
  specialize (Wa Hw32).
  destruct (saved_regs_ok test) as (rm & Erm & Hrm & Hz & Hl).
  destruct (save_restore_cursor no_native rm {| before := [pop_ rax; sahf_; pushf_; cli_]; after := [] |} ma)
    as (saves & restores & Ec & mb & Eb & Sb & Rb & Fb & Mb & K); try done; [lia..|].
  assert (Wb : wf_regs mb).
  { intros r. destruct (decide (r = rsp)) as [->|Hr]; [split; lia|]. rewrite Rb by done. apply Wa. }
  set (s := regs mb rsp) in *.
  assert (Hmb : regs mb rdi = M) by (rewrite Rb, Ra by done; done).
  set (tail := insert_restore_flags_after REG_AH_IS_DEAD ++
    [pop_ indirect_source_addr; pop_ indirect_clobber_reg; jmp_ind_ (OReg indirect_target_addr)]).
  exists ([pop_ rax; sahf_; pushf_; cli_] ++ saves ++ private_call enter_fn exit_fn find_fn staged ++ restores ++ tail).
  set (code := _ ++ _). unfold run. set (go := branch 0 _ _ _).
  destruct (private_call_run top_fn enter_fn exit_fn find_fn ra top_sem find_sem go staged mb (restores ++ tail)
    hi P hit_pc (mem mb)) as (mc & Ecall & Sc & Dc & Cc & Mc); fold s.
  { constructor; [rewrite !List.Forall_cons_iff; done|done|lia|lia|]. intros mx Hx. apply Htop. lia. }
  { done. }
  { apply (finds_returns M); [|done]. eapply finds_mono; [|exact Hfind]. lia. }
  fold s in Sc, Mc. fold ibl_callee in Ecall.
  destruct (K mc) as (md & Ed & Md & _ & Sd & Rd); [done|intros x Hx; apply Mc; lia|].
  assert (Hmd : forall x, S - 32 <= x < hi -> mem md x = mem ma x).
  { intros x Hx. rewrite Md, Mc, Mb by lia. done. }
  assert (Hmr : forall a, S - 32 <= a -> a + 8 <= hi -> read64 (mem md) a = read64 (mem ma) a).
  { intros a H1 H2. apply read64_ext; [split; lia|]. intros x Hx. apply Hmd. lia. }
  eexists. split; [|split].
  - unfold global_code_cache_lookup_routine. rewrite Hk, Erm. cbn [mbind outcome_bind].
    unfold insert_save_flags_after. rewrite Hk. cbn [insert_restore_arithmetic_flags_after app].
    rewrite Ec. cbn [mbind outcome_bind before after].
    rewrite !insert_call_instrs. unfold insert_after, cursor_list. cbn [before after].
    unfold code, private_call, tail. rewrite app_nil_r, <- !app_assoc. reflexivity.
  - unfold code. rewrite (run_from_straight _ _ _ _ _ _ _ Ea), (run_from_straight _ _ _ _ _ _ _ Eb), Ecall.
    rewrite (run_from_straight _ _ _ _ _ _ _ Ed). unfold tail, insert_restore_flags_after. rewrite Hk.
    unfold indirect_source_addr, indirect_clobber_reg, indirect_target_addr. cbn [app].
    erewrite run_from_next by reflexivity.
    erewrite run_from_next by (apply exec_pop; cbn -[Z.add Z.sub]; machine; lia).
    erewrite run_from_next by (apply exec_pop; cbn -[Z.add Z.sub]; machine; lia).
    cbn [run_from exec1 get_op]. cbn -[Z.add Z.sub]. machine.
    rewrite (Rd rdi) by done. destruct (lives rm (reg_id rdi) || zombie rm (reg_id rdi)) eqn:Elive.
    + rewrite Dc. reflexivity.
    + exfalso. destruct test; vm_compute in Erm; injection Erm as <-; vm_compute in Elive; discriminate.
  - assert (Hrest : forall r, r <> rdi -> r <> rax -> r <> rsi -> r <> rsp -> regs md r = regs m0 r).
    { intros r H1 H2 H3 H4. rewrite <- (fr_regs _ _ _ Hf) by done. rewrite <- Ra by done. rewrite Rd by done.
      rewrite Hz, orb_false_r. destruct (lives rm (reg_id r)) eqn:El; [|done].
      destruct (Hl r El) as [?|[?|[?|[?|Hin]]]]; try congruence. rewrite Cc by done. now apply Rb. }
    destruct Hf. cbn -[Z.add Z.sub]. machine. rewrite Sd, Sa.
    split; [lia|]. split; [|split].
    + intros r H1 H2. clear Hmd Ea Eb Ecall Ed K Ec Erm.
      destruct r; try (now elim H1); try (now elim H2); cbn -[Z.add Z.sub];
        try (apply Hrest; discriminate).
      * replace (S - 32 + 8 + 8) with (S - 16) by lia. rewrite Hmr by lia.
        rewrite <- fr_rax. apply read64_ext; [split; lia|]. intros x Hx. apply Ma; lia.
      * replace (S - 32 + 8) with (S - 24) by lia. rewrite Hmr by lia.
        rewrite <- fr_rsi. apply read64_ext; [split; lia|]. intros x Hx. apply Ma; lia.
    + unfold top. rewrite Sd, Sa. now rewrite Hmr, Fa by lia.
    + intros x Hx. rewrite Hmd, Ma by lia. done.
Qed.

(** The flags after the routine, but for the overflow flag. *)
Lemma restored_flags m0 S m i :
  ibl_frame m0 S m -> 0 <= i -> i <> OF ->
  Z.testbit (restore_ah (flags m0) (flags m)) i = Z.testbit (flags m0) i.
Proof.
  intros [] Hi Ho. rewrite restore_ah_spec by done. destruct (Z.testbit AH_MASK i) eqn:Ha; [done|].
  apply fr_flags; [done|]. now apply arith_or_ah.
Qed.

Lemma global_lookup_run test staged m0 S m M hi P e prev hit_pc :
  global_env S hi P M hit_pc -> ibl_frame m0 S m -> wf_regs m -> regs m rdi = M ->
  in_width 64 (read64 (mem m) (S - 32)) -> in_width 64 (restore_ah (flags m0) (flags m)) ->
  is_far_away (staged_loc e) (instrumented_target_pc e) = false ->
  exists code m1 m2,
    global_code_cache_lookup_routine test staged find_fn enter_fn exit_fn = Ret code /\
    run 0 no_native ibl_callee code m = Ret (ToPc hit_pc, m1) /\
    run 1 no_native (fun _ _ => Fault) (exit_hit e prev) m1 = Ret (ToPc (instrumented_target_pc e), m2) /\
    regs m2 rsp = S /\ (forall r, r <> rsp -> regs m2 r = regs m0 r) /\
    (forall i, 0 <= i -> i <> OF -> Z.testbit (flags m2) i = Z.testbit (flags m0) i) /\
    (forall x, S <= x < hi -> mem m2 x = mem m0 x).
Proof.
  intros Henv Hf Hwf HM Hw32 Hfl Hnear. pose proof Henv as [_ _ _ (? & ? & ? & ?) _ _ _].
  destruct (global_routine_run test staged m0 S m M hit_pc hi P)
    as (code & m1 & Ecode & Erun & Sp & Rr & Fl & Me); try done.
  destruct (exit_hit_run (branch 1 no_native (fun _ _ => Fault) (exit_hit e prev)) (fun _ _ => Fault)
    {| regs := regs m0; mem := mem m1; flags := flags m0 |} S m1 e prev) as (m2 & Ehit & [A1 A2 A3 A4]);
    cbn [regs mem flags]; try done; try lia.
  - intros E. congruence.
  - rewrite <- (fr_rdi _ _ _ Hf). apply read64_ext; [split; lia|]. intros x Hx. apply Me. lia.
  - intros i Hi Ho. rewrite Fl. now apply (restored_flags m0 S).
  - exists code, m1, m2. split; [done|]. split; [done|]. split; [exact Ehit|].
    split; [exact A1|]. split; [exact A2|]. split; [exact A3|].
    intros x Hx. rewrite A4 by (cbn; lia). cbn [mem]. rewrite Me by lia. apply (fr_mem _ _ _ Hf); lia.
Qed.

(** ** Theorem *)

(** A branch that misses in the jump table: if [code_cache::find] obeys the
    calling convention and returns the label of an exit routine, the generated
    routine runs to that label and the exit routine to its instrumented code,
    with every register and the native stack as at the replaced branch, and
    all flags but the overflow flag. *)
Theorem global_lookup_arrives test staged m0 S m M hi P e prev hit_pc :
  global_env S hi P M hit_pc -> ibl_frame m0 S m -> wf_regs m -> regs m rdi = M ->
  in_width 64 (read64 (mem m) (S - 32)) -> in_width 64 (restore_ah (flags m0) (flags m)) ->
  is_far_away (staged_loc e) (instrumented_target_pc e) = false ->
  exists code m1 m2,
    global_code_cache_lookup_routine test staged find_fn enter_fn exit_fn = Ret code /\
    run 0 no_native ibl_callee code m = Ret (ToPc hit_pc, m1) /\
    run 1 no_native (fun _ _ => Fault) (exit_hit e prev) m1 = Ret (ToPc (instrumented_target_pc e), m2) /\
    regs m2 rsp = S /\ (forall r, r <> rsp -> regs m2 r = regs m0 r) /\
    (forall i, 0 <= i -> i <> OF -> Z.testbit (flags m2) i = Z.testbit (flags m0) i) /\
    (forall x, S <= x < hi -> mem m2 x = mem m0 x).
Proof. apply global_lookup_run. Qed.

End Global.

(** ** An instance *)
Definition sample_find (hit_pc : Z) (m : mach) : outcome (option exit * mach) :=
  Ret (None, set_reg rax hit_pc m).

(** The state in which the routine is entered, from the state at the branch. *)
Definition sample_at_branch : mach :=
  {| regs := fun r => if reg_eqb r rsp then 0x10000 else reg_id r; mem := fun _ => 0; flags := 0x202 |}.
Definition sample_at_miss : mach :=
  {| regs := fun r => if reg_eqb r rsp then 0x10000 - 32 else if reg_eqb r rdi then 0x1234 else reg_id r;
     mem := write64 (write64 (write64 (write64 (fun _ => 0) (0x10000 - 8) (reg_id rdi))
              (0x10000 - 16) (reg_id rax)) (0x10000 - 24) (reg_id rsi)) (0x10000 - 32) 0x200;
     flags := 0x246 |}.

Lemma sample_find_finds hit_pc M lo hi : in_width 64 hit_pc -> finds (sample_find hit_pc) M hit_pc lo hi.
Proof.
  intros Hw m Hm Hwf. eexists. split; [reflexivity|]. rewrite regs_set_same. split; [done|]. split; [|done].
  constructor; try done.
  - intros r Hr. destruct (callee_saved_other r Hr) as (_ & _ & _ & ?). now rewrite regs_set_other.
  - now apply wf_set_reg.
Qed.

Lemma sample_env :
  global_env (H := kernel_config) 0x77 0x100 0x200 0x300 0x1240 (constant_top 0x900000) (sample_find 0x6010)
    0x10000 0x20000 0x900000 0x1234 0x6010.
Proof.
  constructor; unfold in_width; try lia; try done.
  - rewrite !List.Forall_cons_iff. unfold in_width. repeat split; (lia || constructor).
  - rewrite !NoDup_cons, !not_elem_of_cons. repeat split; try lia; try apply not_elem_of_nil. constructor.
  - intros m _. apply constant_gives_top. split; lia.
  - apply sample_find_finds. split; lia.
Qed.

Lemma sample_frame : ibl_frame sample_at_branch 0x10000 sample_at_miss.
Proof.
  constructor.
  - reflexivity.
  - vm_compute; reflexivity.
  - vm_compute; reflexivity.
  - vm_compute; reflexivity.
  - vm_compute; reflexivity.
  - intros [] ? ? ? ?; done.
  - intros i Hi Ha. unfold sample_at_miss, sample_at_branch. cbn [flags].
    destruct (Z.eq_dec i 2) as [->|]; [done|]. destruct (Z.eq_dec i 6) as [->|]; [done|].
    change 0x246 with (Z.lor (Z.lor 0x202 (2 ^ 2)) (2 ^ 6)). rewrite !Z.lor_spec, !Z.pow2_bits_eqb by lia.
    rewrite !(proj2 (Z.eqb_neq _ i)) by lia. now rewrite !orb_false_r.
  - intros x Hx Hd. unfold sample_at_miss, sample_at_branch. cbn [mem].
    rewrite !write64_other by (try split; lia). done.
Qed.

Lemma global_lookup_arrives_witness :
  exists code m1 m2,
    global_code_cache_lookup_routine (H := kernel_config) false 0x7000 0x300 0x100 0x200 = Ret code /\
    run 0 no_native (ibl_callee 0x77 0x100 0x200 0x300 0x1240 (constant_top 0x900000) (sample_find 0x6010))
      code sample_at_miss = Ret (ToPc 0x6010, m1) /\
    run 1 no_native (fun _ _ => Fault) (exit_hit sample_args 0x4000) m1 = Ret (ToPc 0x5000, m2) /\
    regs m2 rsp = 0x10000.
Proof.
  destruct (global_lookup_arrives (H := kernel_config) 0x77 0x100 0x200 0x300 0x1240 (constant_top 0x900000)
    (sample_find 0x6010) false 0x7000 sample_at_branch 0x10000 sample_at_miss 0x1234 0x20000 0x900000
    sample_args 0x4000 0x6010) as (code & m1 & m2 & E1 & E2 & E3 & E4 & _).
  - exact sample_env.
  - exact sample_frame.
  - intros r. destruct r; split; vm_compute; congruence.
  - reflexivity.
  - split; vm_compute; congruence.
  - split; vm_compute; congruence.
  - reflexivity.
  - exists code, m1, m2. split; [exact E1|]. split; [exact E2|]. split; [exact E3|exact E4].
Defined.
