(* ===== verification/Trace.v ===== *)
(** * Building a trace: [granary/basic_block.cc]

    Translating a block starts at a native address and grows a trace: blocks
    are decoded, the direct jumps and fall-throughs at their ends are
    followed to further blocks, jumps into the middle of a block split it,
    and jumps between blocks of the trace are linked to labels; the blocks
    are then laid out one after the other, without no-ops and without jumps
    to the block that follows.

    What DynamoRIO decodes at an address, the detach table, the code cache
    and the client are parameters.  The three instructions into which
    [translate_loops] turns a [loop] are kept as one item whose target is that
    of the middle jump; what [profile_optimise_jcc] and the REP translation
    do is configured out in the source.

    The theorems are in [TraceCorrect] (a run of the emitted code follows the
    native code) and [TraceTerm] (the construction ends). *)

From Stdlib Require Import ZArith Lia.
From stdpp Require Import base numbers list option.
From S2P Require Import Prelude Policy.

(** ** Native code *)
Inductive branch_kind := JMP | JCC | LOOP | CALL | RET.

(** What is decoded at an address: nothing; an instruction at which the
    native code takes over ([ud2], breakpoints); one that leaves the kernel;
    a control transfer, with the target if it is direct; any other one. *)
Inductive decoded :=
  | D_invalid
  | D_trap
  | D_leave_kernel (len : Z)
  | D_cti (k : branch_kind) (target : option Z) (len : Z)
  | D_other (len : Z) (nop moves_rsp sse : bool).

(** ** Instructions of a block *)
Inductive target :=
  | TPc (pc : Z)
  | TCache (pc : Z)
  | TBlock (id : nat)
  | TInd.

Inductive op :=
  | OLabel
  | OOther (nop moves_rsp : bool)
  | OCti (k : branch_kind) (t : target)
  | OUd2a
  | ONative (pc : Z).

(** [mangled] instructions are left alone from then on; [native_pc] is 0 for
    an instruction that was added. *)
Record instruction := {
  native_pc : Z;
  length_ : Z;
  oper : op;
  mangled : bool;
  cond_cti_fall_through : bool;
  in_policy : instrumentation_policy
}.

Definition no_policy : instrumentation_policy := mk_policy 0.

Definition added (o : op) (m cond : bool) : instruction :=
  {| native_pc := 0; length_ := 0; oper := o; mangled := m; cond_cti_fall_through := cond;
     in_policy := no_policy |}.

Definition set_target (t : target) (i : instruction) : instruction :=
  {| native_pc := native_pc i; length_ := length_ i;
     oper := match oper i with OCti k _ => OCti k t | o => o end;
     mangled := true; cond_cti_fall_through := cond_cti_fall_through i; in_policy := in_policy i |}.

Definition set_policy (p : instrumentation_policy) (i : instruction) : instruction :=
  {| native_pc := native_pc i; length_ := length_ i; oper := oper i; mangled := mangled i;
     cond_cti_fall_through := cond_cti_fall_through i; in_policy := p |}.

Record block_translator := {
  id : nat;
  translated : bool;
  can_split : bool;
  start_pc : Z;
  end_pc : Z;
  split_end_pc : Z;
  incoming_policy : instrumentation_policy;
  outgoing_policy : instrumentation_policy;
  ls : list instruction;
  num_decoded_instructions : Z
}.

Definition new_block (n : nat) (start : Z) (policy : instrumentation_policy) : block_translator :=
  {| id := n; translated := false; can_split := true; start_pc := start; end_pc := 0; split_end_pc := 0;
     incoming_policy := policy; outgoing_policy := no_policy; ls := []; num_decoded_instructions := 0 |}.

Definition with_ls (l : list instruction) (b : block_translator) : block_translator :=
  {| id := id b; translated := translated b; can_split := can_split b; start_pc := start_pc b; end_pc := end_pc b;
     split_end_pc := split_end_pc b; incoming_policy := incoming_policy b; outgoing_policy := outgoing_policy b;
     ls := l; num_decoded_instructions := num_decoded_instructions b |}.

Definition with_split_end (pc : Z) (b : block_translator) : block_translator :=
  {| id := id b; translated := translated b; can_split := can_split b; start_pc := start_pc b; end_pc := end_pc b;
     split_end_pc := pc; incoming_policy := incoming_policy b; outgoing_policy := outgoing_policy b;
     ls := ls b; num_decoded_instructions := num_decoded_instructions b |}.

Definition reinitialise_for_split (b : block_translator) : block_translator :=
  {| id := id b; translated := false; can_split := can_split b; start_pc := start_pc b;
     end_pc := split_end_pc b; split_end_pc := split_end_pc b; incoming_policy := incoming_policy b;
     outgoing_policy := outgoing_policy b; ls := []; num_decoded_instructions := 0 |}.

Section Trace.
Context `{Config}.

(** The decoder, the address of [detach], code cache and wrapper addresses,
    the exception tables of the kernel, the detach table, the code cache, and
    the client: the policy it returns, and the policy it gives an instruction. *)
Context (fetch : Z -> decoded) (detach_app_pc : Z) (is_cache_or_wrapper : Z -> bool)
  (kernel_find_exception_metadata : list instruction -> bool)
  (find_detach_target : Z -> runtime_context -> Z) (code_cache_lookup : Z -> Z)
  (instrument : instrumentation_policy -> list instruction -> instrumentation_policy)
  (instrument_in : instrumentation_policy -> instruction -> instrumentation_policy).

(** [CONFIG_FOLLOW_CONDITIONAL_BRANCHES] is 0. *)
Definition CONFIG_FOLLOW_FALL_THROUGH_BRANCHES : nat := 4.

(** ** Decoding *)
Inductive ending :=
  | EndNone
  | FallThrough (pc : Z) (cond : bool)
  | FallThroughDetach (pc : Z) (tail_call : bool).

Record decode_state := {
  ds_ls : list instruction;
  ds_end_pc : Z;
  ds_num : Z;
  ds_xmm : bool
}.

Definition native_in (pc len : Z) (o : op) : instruction :=
  {| native_pc := pc; length_ := len; oper := o; mangled := false; cond_cti_fall_through := false;
     in_policy := no_policy |}.

Definition append (i : instruction) (end_ : Z) (xmm : bool) (s : decode_state) : decode_state :=
  {| ds_ls := ds_ls s ++ [i]; ds_end_pc := end_; ds_num := ds_num s + 1; ds_xmm := xmm |}.

(** Chop the list off in front of the last move to the stack pointer. *)
Fixpoint chop_at_rsp (l : list instruction) : option (list instruction * Z) :=
  match l with
  | [] => None
  | i :: l =>
      match chop_at_rsp l with
      | Some (l', pc) => Some (i :: l', pc)
      | None =>
          match oper i with
          | OOther _ true => Some ([], native_pc i)
          | _ => None
          end
      end
  end.

Definition chop (pc : Z) (s : decode_state) : decode_state * ending :=
  match chop_at_rsp (ds_ls s) with
  | Some (l, pc') =>
      ({| ds_ls := l; ds_end_pc := ds_end_pc s; ds_num := ds_num s; ds_xmm := ds_xmm s |},
       FallThroughDetach pc' false)
  | None => (s, FallThroughDetach pc false)
  end.

(** The loop of [basic_block::decode]. *)
Fixpoint decode_loop (fuel : nat) (desired_end_pc pc : Z) (s : decode_state)
    : outcome (decode_state * ending) :=
  match fuel with
  | O => OutOfFuel
  | S fuel =>
      if desired_end_pc =? pc then Ret (s, FallThrough pc false) else
      match fetch pc with
      | D_invalid =>
          Ret ({| ds_ls := ds_ls s ++ [added OUd2a false false]; ds_end_pc := ds_end_pc s;
                  ds_num := ds_num s; ds_xmm := ds_xmm s |}, EndNone)
      | D_trap => Ret (s, FallThroughDetach pc false)
      | D_leave_kernel len =>
          if env_kernel then
            (* appended, counted and removed again *)
            Ret (chop pc {| ds_ls := ds_ls s; ds_end_pc := pc + len; ds_num := ds_num s + 1; ds_xmm := ds_xmm s |})
          else decode_loop fuel desired_end_pc (pc + len)
                 (append (native_in pc len (OOther false false)) (pc + len) (ds_xmm s) s)
      | D_cti k t len =>
          let next := pc + len in
          let i := native_in pc len (OCti k (match t with Some a => TPc a | None => TInd end)) in
          let s' := append i next (ds_xmm s) s in
          match t with
          | Some a =>
              if detach_app_pc =? a then
                Ret (s', FallThroughDetach next (match k with JMP => true | _ => false end))
              else if is_cache_or_wrapper a then
                Ret (append (set_target (TPc a) i) next (ds_xmm s) s, EndNone)
              else
                match k with
                | JMP | RET => Ret (s', EndNone)
                | CALL => decode_loop fuel desired_end_pc next s'
                | JCC | LOOP => Ret (s', FallThrough next true)
                end
          | None =>
              match k with
              | CALL => decode_loop fuel desired_end_pc next s'
              | JCC | LOOP => Ret (s', FallThrough next true)
              | JMP | RET => Ret (s', EndNone)
              end
          end
      | D_other len nop moves_rsp sse =>
          decode_loop fuel desired_end_pc (pc + len)
            (append (native_in pc len (OOther nop moves_rsp)) (pc + len)
               (ds_xmm s || (negb env_kernel && sse)) s)
      end
  end.

(** The instructions added behind the decoded ones. *)
Definition trailing (e : ending) : list instruction :=
  match e with
  | EndNone => []
  | FallThrough pc cond => [added (OCti JMP (TPc pc)) false cond]
  | FallThroughDetach pc true => [added (OCti RET TInd) true false]
  | FallThroughDetach pc false => [added (ONative pc) true false]
  end.

(** [basic_block::decode]: the instructions, the policy, [end_pc] and the
    number of instructions. *)
Definition decode (fuel : nat) (policy : instrumentation_policy) (start end_ : Z)
    : outcome (list instruction * instrumentation_policy * Z * Z) :=
  let label := {| native_pc := start; length_ := 0; oper := OLabel; mangled := true;
                  cond_cti_fall_through := false; in_policy := no_policy |} in
  let xmm := is_in_xmm_context policy in
  r ← decode_loop fuel end_ start {| ds_ls := [label]; ds_end_pc := end_; ds_num := 0; ds_xmm := xmm |};
  let '(s, e) := r in
  let policy := if negb xmm && ds_xmm s then Policy.in_xmm_context true policy else policy in
  let policy :=
    if env_kernel && (accesses_user_data policy || kernel_find_exception_metadata (ds_ls s))
    then access_user_data true policy else policy in
  Ret (ds_ls s ++ trailing e, policy, ds_end_pc s, ds_num s).

(** [block_translator::run]. *)
Definition run (fuel : nat) (b : block_translator) : outcome block_translator :=
  r ← decode fuel (incoming_policy b) (start_pc b) (end_pc b);
  let '(l, incoming, end_, num) := r in
  let outgoing := inherit_properties (instrument incoming l) incoming INHERIT_ALL in
  Ret {| id := id b; translated := true; can_split := can_split b; start_pc := start_pc b; end_pc := end_;
         split_end_pc := split_end_pc b; incoming_policy := incoming; outgoing_policy := outgoing;
         ls := map (fun i => set_policy (instrument_in incoming i) i) l; num_decoded_instructions := num |}.

(** ** Finding blocks *)
Definition matches (start : Z) (policy : instrumentation_policy) (b : block_translator) : bool :=
  policy_eqb (base_policy policy) (base_policy (incoming_policy b)) &&
  (start_pc b <=? start) && (start <? end_pc b).

(** The last of the first run of blocks that match. *)
Fixpoint find_loop (start : Z) (policy : instrumentation_policy) (first : option block_translator)
    (bs : list block_translator) : option block_translator :=
  match bs with
  | [] => first
  | b :: bs =>
      if matches start policy b then find_loop start policy (Some b) bs
      else match first with Some _ => first | None => find_loop start policy first bs end
  end.

Definition find_block_translator (bs : list block_translator) (start : Z) (policy : instrumentation_policy)
    : option block_translator := find_loop start policy None bs.

(** ** Following branches *)
Definition jmp_policy (i : instruction) (outgoing : instrumentation_policy) : instrumentation_policy :=
  let p := if policy_not (in_policy i) then outgoing else in_policy i in
  let p := begins_functional_unit false p in
  let p := inherit_properties p outgoing INHERIT_JMP in
  indirect_cti_target false (return_target false p).

Definition call_policy (i : instruction) (outgoing : instrumentation_policy) : instrumentation_policy :=
  let p := if policy_not (in_policy i) then outgoing else in_policy i in
  let p := begins_functional_unit false p in
  let p := inherit_properties p outgoing INHERIT_CALL in
  let p := begins_functional_unit true (return_address_in_code_cache true p) in
  indirect_cti_target false (return_target false p).

(** The branches that are followed: jumps of the native code, and the
    fall-throughs of conditional branches while the budget lasts.  The result
    is the target. *)
Definition followed (i : instruction) (num_fall_throughs : nat) : option Z :=
  match oper i with
  | OCti JMP (TPc a) =>
      if mangled i then None
      else if cond_cti_fall_through i then (if decide (num_fall_throughs = 0%nat) then None else Some a)
      else if native_pc i =? 0 then None else Some a
  | _ => None
  end.

(** What the loop of [visit_branches] carries: the identifiers given out, the
    remaining budget, and the blocks queued behind the current one, the last
    one in front. *)
Record visit_state := {
  next_id : nat;
  num_fall_throughs : nat;
  queued : list block_translator
}.

(** The detach point or the code cache entry of a target, if there is one. *)
Definition known_target (i : instruction) (a : Z) (policy : instrumentation_policy) : Z :=
  let t := if cond_cti_fall_through i then 0 else find_detach_target a (context policy) in
  if t =? 0 then code_cache_lookup (MangledAddress.mangled_address a policy) else t.

Definition visit_branch (before_ after_ : list block_translator) (self : block_translator)
    (i : instruction) (v : visit_state) : instruction * visit_state :=
  match followed i (num_fall_throughs v) with
  | None => (i, v)
  | Some a =>
      let policy := jmp_policy i (outgoing_policy self) in
      let t := known_target i a policy in
      if negb (t =? 0) then (set_target (TCache t) i, v) else
      match find_block_translator (before_ ++ self :: queued v ++ after_) a policy with
      | Some b => if start_pc b =? a then (set_target (TBlock (id b)) i, v) else (i, v)
      | None =>
          (set_target (TBlock (next_id v)) i,
           {| next_id := S (next_id v);
              num_fall_throughs := if cond_cti_fall_through i then pred (num_fall_throughs v) else num_fall_throughs v;
              queued := new_block (next_id v) a policy :: queued v |})
      end
  end.

Fixpoint visit_branches (before_ after_ : list block_translator) (self : block_translator)
    (l : list instruction) (v : visit_state) : list instruction * visit_state :=
  match l with
  | [] => ([], v)
  | i :: l =>
      let '(i, v) := visit_branch before_ after_ self i v in
      let '(l, v) := visit_branches before_ after_ self l v in
      (i :: l, v)
  end.

(** ** Linking and splitting *)
Inductive fixup_result :=
  | Fixed (l : list instruction)
  | Split (l : list instruction) (b : nat) (pc : Z).

Fixpoint fixup_branches (trace : list block_translator) (trace_min trace_max : Z)
    (outgoing : instrumentation_policy) (l : list instruction) : fixup_result :=
  match l with
  | [] => Fixed []
  | i :: l =>
      let continue_ i :=
        match fixup_branches trace trace_min trace_max outgoing l with
        | Fixed l => Fixed (i :: l)
        | Split l b pc => Split (i :: l) b pc
        end in
      match oper i with
      | OCti k (TPc a) =>
          if mangled i || (a <? trace_min) || (trace_max <=? a) then continue_ i else
          let policy := match k with CALL => call_policy i outgoing | _ => jmp_policy i outgoing end in
          match find_block_translator trace a policy with
          | None => continue_ i
          | Some b =>
              if start_pc b =? a then continue_ (set_target (TBlock (id b)) i)
              else if can_split b then
                let pc := if (split_end_pc b =? 0) || (a <? split_end_pc b) then a else split_end_pc b in
                Split (i :: l) (id b) pc
              else continue_ i
          end
      | _ => continue_ i
      end
  end.

(** Record a split point in the block with identifier [n]. *)
Definition mark_split (n : nat) (pc : Z) (bs : list block_translator) : list block_translator :=
  map (fun b => if decide (id b = n) then with_split_end pc b else b) bs.

(** The pass over the blocks that links them: the blocks, and whether one was
    split. *)
Fixpoint fixup_pass (trace_min trace_max : Z) (before_ after_ : list block_translator)
    : list block_translator * bool :=
  match after_ with
  | [] => (before_, false)
  | b :: after_ =>
      match fixup_branches (before_ ++ b :: after_) trace_min trace_max (outgoing_policy b) (ls b) with
      | Fixed l => fixup_pass trace_min trace_max (before_ ++ [with_ls l b]) after_
      | Split l n pc => (mark_split n pc (before_ ++ with_ls l b :: after_), true)
      end
  end.

(** ** The loop of [basic_block::translate] *)
Record trace_state := {
  blocks : list block_translator;
  ts_next_id : nat;
  ts_fall_throughs : nat;
  trace_min_pc : Z;
  trace_max_pc : Z
}.

(** Translating the blocks that are not translated yet, or were split. *)
Definition pass_block (fuel : nat) (before_ after_ : list block_translator) (b : block_translator)
    (v : visit_state) : outcome (block_translator * visit_state) :=
  let old_split_end_pc := split_end_pc b in
  let b := if old_split_end_pc =? 0 then b else with_split_end 0 (reinitialise_for_split b) in
  if translated b then Ret (b, v) else
  b ← run fuel b;
  let b := if negb (old_split_end_pc =? 0) && negb (end_pc b =? old_split_end_pc)
           then {| id := id b; translated := translated b; can_split := false; start_pc := start_pc b;
                   end_pc := end_pc b; split_end_pc := split_end_pc b; incoming_policy := incoming_policy b;
                   outgoing_policy := outgoing_policy b; ls := ls b;
                   num_decoded_instructions := num_decoded_instructions b |}
           else b in
  let '(l, v) := visit_branches before_ after_ b (ls b) v in
  Ret (with_ls l b, v).

Fixpoint build_pass (fuel : nat) (before_ after_ : list block_translator) (st : trace_state) (changed : bool)
    : outcome (trace_state * bool) :=
  match after_ with
  | [] => Ret ({| blocks := before_; ts_next_id := ts_next_id st; ts_fall_throughs := ts_fall_throughs st;
                  trace_min_pc := trace_min_pc st; trace_max_pc := trace_max_pc st |}, changed)
  | b :: after_ =>
      r ← pass_block fuel before_ after_ b
            {| next_id := ts_next_id st; num_fall_throughs := ts_fall_throughs st; queued := [] |};
      let '(b, v) := r in
      build_pass fuel (before_ ++ b :: queued v) after_
        {| blocks := blocks st; ts_next_id := next_id v; ts_fall_throughs := num_fall_throughs v;
           trace_min_pc := Z.min (start_pc b) (trace_min_pc st);
           trace_max_pc := Z.max (end_pc b) (trace_max_pc st) |}
        (changed || negb (match queued v with [] => true | _ => false end))
  end.

Definition with_blocks (bs : list block_translator) (st : trace_state) : trace_state :=
  {| blocks := bs; ts_next_id := ts_next_id st; ts_fall_throughs := ts_fall_throughs st;
     trace_min_pc := trace_min_pc st; trace_max_pc := trace_max_pc st |}.

(** One turn of the loop, and whether another one is needed. *)
Definition build_step (fuel : nat) (st : trace_state) : outcome (trace_state * bool) :=
  r ← build_pass fuel [] (blocks st) st false;
  let '(st, changed) := r in
  if (changed : bool) then Ret (st, true) else
  let '(bs, split) := fixup_pass (trace_min_pc st) (trace_max_pc st) [] (blocks st) in
  Ret (with_blocks bs st, split).

Fixpoint build (turns fuel : nat) (st : trace_state) : outcome trace_state :=
  match turns with
  | O => OutOfFuel
  | S turns =>
      r ← build_step fuel st;
      if (r.2 : bool) then build turns fuel r.1 else Ret r.1
  end.

Definition initial_trace (policy : instrumentation_policy) (start : Z) : trace_state :=
  {| blocks := [new_block 0 start policy]; ts_next_id := 1;
     ts_fall_throughs := CONFIG_FOLLOW_FALL_THROUGH_BRANCHES;
     trace_min_pc := start; trace_max_pc := 0 |}.

(** ** Emission *)
Inductive item :=
  | StartLabel (b : nat)
  | EndLabel (b : nat)
  | In (i : instruction).

Definition is_nop (i : instruction) : bool :=
  match oper i with OOther nop _ => nop | _ => false end.

(** No-ops are removed, and a jump at the end to the block that follows. *)
Fixpoint optimise (next : option nat) (l : list instruction) : list instruction :=
  match l with
  | [] => []
  | i :: l =>
      if is_nop i then optimise next l
      else match oper i, l, next with
           | OCti JMP (TBlock t), [], Some n => if decide (t = n) then [] else [i]
           | _, _, _ => i :: optimise next l
           end
  end.

Fixpoint emit (bs : list block_translator) : list item :=
  match bs with
  | [] => []
  | b :: bs =>
      StartLabel (id b) :: map In (optimise (id <$> head bs) (ls b)) ++ EndLabel (id b) :: emit bs
  end.

End Trace.
