(* ===== verification/TraceCorrect.v ===== *)
(** * The emitted trace follows the native code: [granary/basic_block.cc]

    What [Trace] builds is compared with the native code.  The instructions
    are abstract: [effect] is what an instruction does to the machine, and
    [condition] what a conditional branch does and whether it is taken.  Native
    execution steps from address to address; the emitted code runs through
    its items, jumps to start labels, and leaves the trace at a call, at an
    indirect branch, at a direct branch that was not linked, at a branch to a
    code cache entry, or to native code.

    The invariant says of every translated block that its instructions, read
    from its first native address on, are the native instructions, and that
    every branch in them has a target that stands for the native one.
    Decoding establishes it, and following, linking and splitting keep it.  The
    theorem: when a trace is built, each step of the emitted code is matched by
    native steps with the same machine, control never falls off the end of a
    block into the wrong one, and where control leaves the trace the native
    code has arrived at the same branch. *)

From Stdlib Require Import ZArith Lia.
From stdpp Require Import base numbers list option relations.
From S2P Require Import Prelude Policy Trace.

Section Correct.
Context `{Config}.
Context (fetch : Z -> decoded) (detach_app_pc : Z) (is_cache_or_wrapper : Z -> bool)
  (kernel_find_exception_metadata : list instruction -> bool)
  (find_detach_target : Z -> runtime_context -> Z) (code_cache_lookup : Z -> Z)
  (instrument : instrumentation_policy -> list instruction -> instrumentation_policy)
  (instrument_in : instrumentation_policy -> instruction -> instrumentation_policy).

(** Direct branches of the native code to the code cache or to a wrapper are
    jumps. *)
Hypothesis cache_jumps : forall p k a len,
  fetch p = D_cti k (Some a) len -> is_cache_or_wrapper a = true -> k = JMP.

(** ** What a list of instructions stands for *)

(** Where a target leads: [a] is cached, or detached, at [c]. *)
Definition translates (a c : Z) : Prop :=
  c <> 0 /\ ((exists ctx, find_detach_target a ctx = c) \/
             exists p, code_cache_lookup (MangledAddress.mangled_address a p) = c).

Definition key (b : block_translator) : nat * Z := (id b, start_pc b).

Definition resolves (ks : list (nat * Z)) (t : target) (a : Z) : Prop :=
  match t with
  | TPc b => b = a
  | TCache c => translates a c
  | TBlock n => (n, a) ∈ ks
  | TInd => False
  end.

(** The target of a native branch, direct or not. *)
Definition target_ok (ks : list (nat * Z)) (t : target) (ta : option Z) : Prop :=
  match ta with Some a => resolves ks t a | None => t = TInd end.

(** An instruction that is not a branch. *)
Definition plain (p len : Z) (nop moves_rsp : bool) : Prop :=
  (exists sse, fetch p = D_other len nop moves_rsp sse) \/
  (env_kernel = false /\ fetch p = D_leave_kernel len /\ nop = false /\ moves_rsp = false).

Definition conditional (k : branch_kind) : Prop := k = JCC \/ k = LOOP.

(** The instructions of [l], from native address [p] on. *)
Inductive body (ks : list (nat * Z)) : list instruction -> Z -> Prop :=
  | body_label i l p : oper i = OLabel -> body ks l p -> body ks (i :: l) p
  | body_other i l p len nop mv :
      plain p len nop mv -> oper i = OOther nop mv -> native_pc i = p ->
      body ks l (p + len) -> body ks (i :: l) p
  | body_call i l p len t ta :
      fetch p = D_cti CALL ta len -> oper i = OCti CALL t -> target_ok ks t ta -> native_pc i = p ->
      body ks l (p + len) -> body ks (i :: l) p
  | body_cond i l p k len t ta :
      conditional k -> fetch p = D_cti k ta len -> oper i = OCti k t -> target_ok ks t ta -> native_pc i = p ->
      body ks l (p + len) -> body ks (i :: l) p
  | body_jmp i l p len t ta :
      fetch p = D_cti JMP ta len -> oper i = OCti JMP t -> target_ok ks t ta -> native_pc i = p ->
      body ks (i :: l) p
  | body_added_jmp i l p t : oper i = OCti JMP t -> resolves ks t p -> body ks (i :: l) p
  | body_ret i l p len t ta : fetch p = D_cti RET ta len -> oper i = OCti RET t -> native_pc i = p -> body ks (i :: l) p
  | body_ud2a i l p : fetch p = D_invalid -> oper i = OUd2a -> body ks (i :: l) p
  | body_native i l p : oper i = ONative p -> body ks (i :: l) p.

(** ** Decoding *)

(** Straight-line code from [p] to [q]. *)
Inductive straight : list instruction -> Z -> Z -> Prop :=
  | straight_nil p : straight [] p p
  | straight_label i l p q : oper i = OLabel -> straight l p q -> straight (i :: l) p q
  | straight_other i l p q len nop mv :
      plain p len nop mv -> oper i = OOther nop mv -> native_pc i = p ->
      straight l (p + len) q -> straight (i :: l) p q
  | straight_call i l p q len t ta :
      fetch p = D_cti CALL ta len -> oper i = OCti CALL t -> target_ok [] t ta -> native_pc i = p ->
      straight l (p + len) q -> straight (i :: l) p q.

Lemma straight_app l1 l2 p q r : straight l1 p q -> straight l2 q r -> straight (l1 ++ l2) p r.
Proof. induction 1; intros Hl2; cbn; eauto using straight. Qed.

Lemma resolves_mono ks ks' t a : ks ⊆ ks' -> resolves ks t a -> resolves ks' t a.
Proof. intros Hs. destruct t; cbn; auto. Qed.

Lemma target_ok_mono ks ks' t ta : ks ⊆ ks' -> target_ok ks t ta -> target_ok ks' t ta.
Proof. intros Hs. destruct ta; cbn; eauto using resolves_mono. Qed.

Lemma straight_body ks l1 l2 p q : straight l1 p q -> body ks l2 q -> body ks (l1 ++ l2) p.
Proof.
  induction 1; intros Hb; cbn; try eauto using body.
  eapply body_call; eauto. eapply target_ok_mono; [|done]. set_solver.
Qed.

(** Chopping a straight list at a move to the stack pointer. *)
Lemma chop_straight l : forall p q l' pc,
  straight l p q -> chop_at_rsp l = Some (l', pc) -> straight l' p pc.
Proof.
  induction l as [|i l IH]; intros p q l' pc Hs E; cbn [chop_at_rsp] in E; [done|].
  destruct (chop_at_rsp l) as [[l1 pc1]|] eqn:El.
  - injection E as <- <-. inversion Hs; subst; eauto using straight.
  - destruct (oper i) as [|nop [|]| | |] eqn:Eo; try discriminate E. injection E as <- <-.
    inversion Hs; subst; try congruence. constructor.
Qed.

(** How a decoded list goes on. *)
Definition ending_ok (p : Z) (l : list instruction) (e : ending) : Prop :=
  forall ks, body ks (l ++ trailing e) p.

Lemma plain_other p len nop mv sse : fetch p = D_other len nop mv sse -> plain p len nop mv.
Proof. intros E. left. eauto. Qed.

Lemma trailing_fall p q l cond : straight l p q -> ending_ok p l (FallThrough q cond).
Proof. intros Hs ks. eapply straight_body; [exact Hs|]. eapply body_added_jmp; done. Qed.

Lemma trailing_detach p q l : straight l p q -> ending_ok p l (FallThroughDetach q false).
Proof. intros Hs ks. eapply straight_body; [exact Hs|]. by eapply body_native. Qed.

(** A branch at the end of the list. *)
Lemma last_branch p q l i k t ta len e :
  straight l p q -> fetch q = D_cti k ta len -> oper i = OCti k t -> target_ok [] t ta -> native_pc i = q ->
  match k with JMP | RET => True | _ => ending_ok (q + len) [] e end ->
  ending_ok p (l ++ [i]) e.
Proof.
  intros Hs Hf Ho Ht Hn He ks. rewrite <- app_assoc. eapply straight_body; [exact Hs|]. cbn [app].
  assert (Ht' : target_ok ks t ta) by (eapply target_ok_mono; [|done]; set_solver).
  destruct k.
  - by eapply body_jmp.
  - eapply body_cond; [by left|done..|]. apply He.
  - eapply body_cond; [by right|done..|]. apply He.
  - eapply body_call; [done..|]. apply He.
  - by eapply body_ret.
Qed.

Lemma decode_loop_body fuel : forall desired p q s s' e,
  straight (ds_ls s) p q ->
  decode_loop fetch detach_app_pc is_cache_or_wrapper fuel desired q s = Ret (s', e) ->
  ending_ok p (ds_ls s') e.
Proof.
  induction fuel as [|fuel IH]; intros desired p q s s' e Hs E; cbn [decode_loop] in E; [done|].
  destruct (desired =? q); [injection E as <- <-; by apply trailing_fall|].
  destruct (fetch q) as [| |len|k ta len|len nop mv sse] eqn:Ef.
  - injection E as <- <-. intros ks. cbn [ds_ls trailing]. rewrite app_nil_r.
    eapply straight_body; [exact Hs|]. by eapply body_ud2a.
  - injection E as <- <-. by apply trailing_detach.
  - destruct env_kernel eqn:Ek.
    + unfold chop in E. cbn [ds_ls] in E. destruct (chop_at_rsp (ds_ls s)) as [[l' pc]|] eqn:Ec;
        injection E as <- <-; cbn [ds_ls]; apply trailing_detach; [by eapply chop_straight|done].
    + eapply IH; [|exact E]. cbn [append ds_ls]. eapply straight_app; [exact Hs|].
      eapply (straight_other _ _ q _ len false false); [right; by split_and!|done..|constructor].
  - set (i := native_in q len (OCti k (match ta with Some a => TPc a | None => TInd end))) in *.
    assert (Ht : target_ok [] (match ta with Some a => TPc a | None => TInd end) ta) by (destruct ta; done).
    assert (Hcall : k = CALL -> straight (ds_ls s ++ [i]) p (q + len)).
    { intros ->. eapply straight_app; [exact Hs|]. eapply straight_call; [done..|constructor]. }
    assert (Hend : forall e, match k with JMP | RET => True | _ => ending_ok (q + len) [] e end ->
      ending_ok p (ds_ls s ++ [i]) e) by (intros; eapply last_branch; eauto; done).
    assert (Hfall : forall c, ending_ok (q + len) [] (FallThrough (q + len) c)).
    { intros c. apply trailing_fall. constructor. }
    assert (Hdet : ending_ok (q + len) [] (FallThroughDetach (q + len) false)).
    { apply trailing_detach. constructor. }
    destruct ta as [a|].
    + destruct (detach_app_pc =? a).
      { injection E as <- <-. cbn [append ds_ls]. apply Hend. by destruct k. }
      destruct (is_cache_or_wrapper a) eqn:Ec.
      { injection E as <- <-. cbn [append ds_ls]. pose proof (cache_jumps q k a len Ef Ec); subst k.
        eapply (last_branch p q _ _ JMP (TPc a)); [exact Hs|exact Ef|reflexivity|done|done|done]. }
      destruct k; try (injection E as <- <-; cbn [append ds_ls]; apply Hend; done).
      eapply IH; [|exact E]. by apply Hcall.
    + destruct k; try (injection E as <- <-; cbn [append ds_ls]; apply Hend; done).
      eapply IH; [|exact E]. by apply Hcall.
  - eapply IH; [|exact E]. cbn [append ds_ls]. eapply straight_app; [exact Hs|].
    eapply straight_other; [by eapply plain_other|done..|constructor].
Qed.

Lemma decode_body fuel policy start end_ l policy' end' num :
  decode fetch detach_app_pc is_cache_or_wrapper kernel_find_exception_metadata fuel policy start end_
    = Ret (l, policy', end', num) ->
  forall ks, body ks l start.
Proof.
  intros E. unfold decode in E. destruct (decode_loop _ _ _ _ _ _ _) as [[s e]| |] eqn:El; try done.
  cbn [mbind outcome_bind] in E. injection E as <- _ _ _. apply (decode_loop_body fuel end_ start start _ _ _) in El; [exact El|].
  cbn. eapply straight_label; [done|constructor].
Qed.

(** ** Changing targets *)
Definition retarget (ks : list (nat * Z)) (i i' : instruction) : Prop :=
  i' = i \/ exists k a t, oper i = OCti k (TPc a) /\ i' = set_target t i /\ resolves ks t a.

Lemma retarget_pc ks i i' : retarget ks i i' -> native_pc i' = native_pc i.
Proof. intros [->|(k & a & t & _ & -> & _)]; done. Qed.

Lemma retarget_oper ks ks' i i' :
  retarget ks' i i' ->
  match oper i with
  | OCti k t => exists t', oper i' = OCti k t' /\
      forall a, ks ⊆ ks' -> resolves ks t a -> resolves ks' t' a
  | o => oper i' = o
  end.
Proof.
  intros [->|(k & a & t & Ho & -> & Hr)].
  - destruct (oper i); try done. eexists. split; [done|]. intros a0 Hs. by apply resolves_mono.
  - rewrite Ho. eexists. unfold set_target. cbn [oper]. rewrite Ho. split; [done|].
    cbn. by intros ? _ ->.
Qed.

Lemma retarget_cti ks ks' i i' k t ta :
  retarget ks' i i' -> oper i = OCti k t -> ks ⊆ ks' -> target_ok ks t ta ->
  exists t', oper i' = OCti k t' /\ target_ok ks' t' ta.
Proof.
  intros Hrt Ho Hs Ht. destruct ta as [a|]; cbn in Ht.
  - pose proof (retarget_oper ks ks' i i' Hrt) as Hx. rewrite Ho in Hx. destruct Hx as (t' & Ho' & Hr).
    exists t'. split; [done|]. by apply Hr.
  - subst t. destruct Hrt as [->|(? & ? & ? & Ho' & _)]; [|congruence]. by exists TInd.
Qed.

Lemma body_retarget ks ks' l l' p :
  ks ⊆ ks' -> body ks l p -> Forall2 (retarget ks') l l' -> body ks' l' p.
Proof.
  intros Hs Hb. revert l'. induction Hb as
    [i l p Ho _ IH|i l p len nop mv Hp Ho Hn _ IH|i l p len t ta Hf Ho Ht Hn _ IH
    |i l p k len t ta Hk Hf Ho Ht Hn _ IH|i l p len t ta Hf Ho Ht Hn|i l p t Ho Hr|i l p len t ta Hf Ho Hn
    |i l p Hf Ho|i l p Ho]; intros l' Hl; inversion Hl as [|? i' ? l1 Hi Hl']; subst;
    pose proof (retarget_pc _ _ _ Hi) as Hpc; pose proof (retarget_oper ks ks' _ _ Hi) as Hop; rewrite Ho in Hop.
  - eapply body_label; eauto.
  - eapply body_other; eauto; by rewrite Hpc.
  - destruct (retarget_cti ks ks' i i' _ _ _ Hi Ho Hs Ht) as (t' & ? & ?). eapply body_call; eauto; by rewrite Hpc.
  - destruct (retarget_cti ks ks' i i' _ _ _ Hi Ho Hs Ht) as (t' & ? & ?). eapply body_cond; eauto; by rewrite Hpc.
  - destruct (retarget_cti ks ks' i i' _ _ _ Hi Ho Hs Ht) as (t' & ? & ?). eapply body_jmp; eauto; by rewrite Hpc.
  - destruct Hop as (t' & ? & Hr'). eapply body_added_jmp; eauto.
  - destruct Hop as (t' & ? & _). eapply body_ret; eauto; by rewrite Hpc.
  - eapply body_ud2a; eauto.
  - eapply body_native; eauto.
Qed.

Lemma body_mono ks ks' l p : ks ⊆ ks' -> body ks l p -> body ks' l p.
Proof.
  intros Hs Hb. eapply body_retarget; [exact Hs|exact Hb|]. clear Hb. induction l; constructor; [by left|done].
Qed.

(** The policy of an instruction is not part of it. *)
Lemma body_set_policy ks f l p : body ks l p -> body ks (map (fun i => set_policy (f i) i) l) p.
Proof.
  induction 1; cbn [map].
  - eapply body_label; done.
  - eapply body_other; done.
  - eapply body_call; done.
  - eapply body_cond; done.
  - eapply body_jmp; done.
  - eapply body_added_jmp; done.
  - eapply body_ret; done.
  - eapply body_ud2a; done.
  - eapply body_native; done.
Qed.

(** ** Lemmas: finding blocks *)
Lemma find_loop_in start policy bs : forall first b,
  find_loop start policy first bs = Some b -> first = Some b \/ (b ∈ bs /\ matches start policy b = true).
Proof.
  induction bs as [|c bs IH]; intros first b E; cbn [find_loop] in E; [by left|].
  destruct (matches start policy c) eqn:Em.
  - right. apply IH in E as [E|[? ?]]; [injection E as ->; split; [left|done]|split; [by right|done]].
  - destruct first; [by left|]. apply IH in E as [?|[? ?]]; [done|]. right. split; [by right|done].
Qed.

Lemma find_in bs start policy b :
  find_block_translator bs start policy = Some b -> b ∈ bs /\ matches start policy b = true.
Proof. intros E. apply find_loop_in in E as [?|?]; done. Qed.

Lemma key_in bs b a : b ∈ bs -> start_pc b = a -> (id b, a) ∈ map key bs.
Proof. intros Hin <-. apply list_elem_of_fmap. exists b. done. Qed.

Lemma known_target_translates i a policy t :
  known_target find_detach_target code_cache_lookup i a policy = t -> t <> 0 -> translates a t.
Proof.
  unfold known_target. intros E Hne. split; [done|].
  destruct (cond_cti_fall_through i).
  - rewrite Z.eqb_refl in E. eauto.
  - destruct (Z.eqb_spec (find_detach_target a (context policy)) 0); eauto.
Qed.

(** ** The invariant of the blocks of a trace *)
Record inv (bs : list block_translator) (n : nat) : Prop := {
  inv_nodup : NoDup (map id bs);
  inv_ids : forall b, b ∈ bs -> (id b < n)%nat;
  inv_body : forall b, b ∈ bs -> translated b = true -> body (map key bs) (ls b) (start_pc b)
}.

(** ** Lemmas: following branches *)

(** The blocks among which a branch of [self] is looked up. *)
Definition around (before_ after_ : list block_translator) (self : block_translator) (v : visit_state)
    : list block_translator := before_ ++ self :: queued v ++ after_.

(** What the visit of a branch adds. *)
Record visited (before_ after_ : list block_translator) (self : block_translator)
    (l : list instruction) (v : visit_state) (l' : list instruction) (v' : visit_state)
    (fresh : list block_translator) : Prop := {
  vis_queued : queued v' = fresh ++ queued v;
  vis_fresh : Forall (fun b => translated b = false /\ split_end_pc b = 0 /\ end_pc b = 0 /\ can_split b = true) fresh;
  vis_ids : NoDup (map id fresh);
  vis_range : forall b, b ∈ fresh -> (next_id v <= id b < next_id v')%nat;
  vis_le : (next_id v <= next_id v')%nat;
  vis_retarget : Forall2 (retarget (map key (around before_ after_ self v'))) l l'
}.

Lemma followed_oper i n a : followed i n = Some a -> oper i = OCti JMP (TPc a).
Proof.
  unfold followed. destruct (oper i) as [| |[] [] | |]; try done.
  destruct (mangled i); [done|]. destruct (cond_cti_fall_through i).
  - destruct (decide _); [done|]. by intros [= ->].
  - destruct (_ =? _); [done|]. by intros [= ->].
Qed.

Lemma key_around before_ after_ self v b a :
  b ∈ before_ ++ self :: queued v ++ after_ -> start_pc b = a -> (id b, a) ∈ map key (around before_ after_ self v).
Proof. apply key_in. Qed.

Abbreviation visit_branch_ := (visit_branch find_detach_target code_cache_lookup).
Abbreviation visit_branches_ := (visit_branches find_detach_target code_cache_lookup).

Lemma visited_none before_ after_ self l l' v :
  Forall2 (retarget (map key (around before_ after_ self v))) l l' ->
  visited before_ after_ self l v l' v [].
Proof.
  intros Hl. constructor; [done|constructor|constructor| |done|exact Hl]. by intros ? ?%elem_of_nil.
Qed.

Lemma visit_branch_visited before_ after_ self i v i' v' :
  visit_branch_ before_ after_ self i v = (i', v') ->
  exists fresh, visited before_ after_ self [i] v [i'] v' fresh.
Proof.
  intros E. unfold visit_branch in E.
  assert (Hsame : forall j, retarget (map key (around before_ after_ self v)) i j ->
    exists fresh, visited before_ after_ self [i] v [j] v fresh).
  { intros j Hj. exists []. apply visited_none. constructor; [done|constructor]. }
  destruct (followed i (num_fall_throughs v)) as [a|] eqn:Ef.
  2: { injection E as <- <-. apply Hsame. by left. }
  pose proof (followed_oper _ _ _ Ef) as Ho.
  destruct (known_target _ _ i a _ =? 0) eqn:Et; cbn [negb] in E.
  2: { injection E as <- <-. apply Hsame. right. eexists _, a, _. split; [done|]. split; [done|].
       cbn. eapply known_target_translates; [reflexivity|]. by apply Z.eqb_neq. }
  destruct (find_block_translator _ a _) as [b|] eqn:Eb.
  - apply find_in in Eb as [Hin _]. destruct (Z.eqb_spec (start_pc b) a) as [Ea|Ea]; injection E as <- <-; apply Hsame.
    + right. eexists _, a, _. split; [done|]. split; [done|]. cbn. by apply key_around.
    + by left.
  - injection E as <- <-. eexists [_]. constructor.
    + reflexivity.
    + constructor; [done|constructor].
    + cbn. apply NoDup_singleton.
    + intros b Hb%list_elem_of_singleton. subst b. cbn. lia.
    + cbn. lia.
    + constructor; [|constructor]. right. eexists _, a, _. split; [done|]. split; [done|].
      cbn [resolves]. unfold around. cbn [queued]. rewrite map_app, elem_of_app, map_cons, elem_of_cons. cbn.
      rewrite elem_of_cons. auto.
Qed.

Lemma around_sub before_ after_ self v v' fresh :
  queued v' = fresh ++ queued v ->
  map key (around before_ after_ self v) ⊆ map key (around before_ after_ self v').
Proof.
  intros E. unfold around. rewrite E, !map_app. cbn. rewrite !map_app. intros x.
  rewrite !elem_of_app, !elem_of_cons, !elem_of_app. tauto.
Qed.

Lemma Forall2_retarget_mono ks ks' l l' : ks ⊆ ks' -> Forall2 (retarget ks) l l' -> Forall2 (retarget ks') l l'.
Proof.
  intros Hs. induction 1 as [|i i' l l' Hi _ IH]; constructor; [|done].
  destruct Hi as [->|(k & a & t & ? & ? & ?)]; [by left|right; eexists _, _, _; eauto using resolves_mono].
Qed.

Lemma visit_branches_visited before_ after_ self l : forall v l' v',
  visit_branches_ before_ after_ self l v = (l', v') ->
  exists fresh, visited before_ after_ self l v l' v' fresh.
Proof.
  induction l as [|i l IH]; intros v l' v' E; cbn [visit_branches] in E.
  - injection E as <- <-. exists []. apply visited_none. constructor.
  - destruct (visit_branch_ before_ after_ self i v) as [i1 v1] eqn:E1.
    destruct (visit_branches_ before_ after_ self l v1) as [l2 v2] eqn:E2. injection E as <- <-.
    destruct (visit_branch_visited _ _ _ _ _ _ _ E1) as [f1 [Q1 U1 N1 R1 L1 T1]].
    destruct (IH _ _ _ E2) as [f2 [Q2 U2 N2 R2 L2 T2]].
    exists (f2 ++ f1). constructor.
    + by rewrite Q2, Q1, app_assoc.
    + by apply Forall_app.
    + rewrite map_app. apply NoDup_app. split; [done|]. split; [|done].
      intros x Hx Hx1. apply list_elem_of_fmap in Hx as (b2 & -> & Hb2), Hx1 as (b1 & Eb & Hb1).
      specialize (R1 _ Hb1). specialize (R2 _ Hb2). lia.
    + intros b [Hb|Hb]%elem_of_app; [specialize (R2 _ Hb)|specialize (R1 _ Hb)]; lia.
    + lia.
    + constructor; [|done]. apply (Forall2_retarget_mono _ (map key (around before_ after_ self v2))) in T1.
      * by inversion T1.
      * eapply around_sub. exact Q2.
Qed.

(** ** Lemmas: a turn of the loop *)
Abbreviation run_ := (run fetch detach_app_pc is_cache_or_wrapper kernel_find_exception_metadata instrument instrument_in).
Abbreviation pass_block_ := (pass_block fetch detach_app_pc is_cache_or_wrapper kernel_find_exception_metadata
  find_detach_target code_cache_lookup instrument instrument_in).
Abbreviation build_pass_ := (build_pass fetch detach_app_pc is_cache_or_wrapper kernel_find_exception_metadata
  find_detach_target code_cache_lookup instrument instrument_in).
Abbreviation build_step_ := (build_step fetch detach_app_pc is_cache_or_wrapper kernel_find_exception_metadata
  find_detach_target code_cache_lookup instrument instrument_in).
Abbreviation build_ := (build fetch detach_app_pc is_cache_or_wrapper kernel_find_exception_metadata
  find_detach_target code_cache_lookup instrument instrument_in).

Lemma run_block fuel b b' :
  run_ fuel b = Ret b' ->
  translated b' = true /\ key b' = key b /\ split_end_pc b' = split_end_pc b /\ can_split b' = can_split b /\
  forall ks, body ks (ls b') (start_pc b').
Proof.
  intros E. unfold run in E. destruct (decode _ _ _ _ _ _ _ _) as [[[[l p] e] n]| |] eqn:Ed; try done.
  cbn [mbind outcome_bind] in E. injection E as <-. cbn. split; [done|]. split; [done|]. split; [done|]. split; [done|].
  intros ks. apply body_set_policy. eapply decode_body. exact Ed.
Qed.

(** Every translated block but those of [bs] is left alone. *)
Lemma inv_replace before_ after_ b b' fresh n n' :
  inv (before_ ++ b :: after_) n -> key b' = key b ->
  (n <= n')%nat -> NoDup (map id fresh) -> (forall c, c ∈ fresh -> (n <= id c < n')%nat) ->
  Forall (fun c => translated c = false) fresh ->
  (translated b' = true -> body (map key (before_ ++ b' :: fresh ++ after_)) (ls b') (start_pc b')) ->
  inv (before_ ++ b' :: fresh ++ after_) n'.
Proof.
  intros [Hnd Hid Hbody] Hk Hle Hnf Hrange Hun Hb. unfold key in Hk. injection Hk as Hki Hks.
  assert (Hperm : before_ ++ b' :: fresh ++ after_ ≡ₚ fresh ++ (before_ ++ b' :: after_)).
  { change (b' :: fresh ++ after_) with ([b'] ++ (fresh ++ after_)).
    change (b' :: after_) with ([b'] ++ after_).
    rewrite (Permutation_app_comm fresh (before_ ++ _)), <- !app_assoc.
    apply Permutation_app_head, Permutation_app_head, Permutation_app_comm. }
  assert (Hold : map id (before_ ++ b' :: after_) = map id (before_ ++ b :: after_)).
  { rewrite !map_app. cbn. by rewrite Hki. }
  constructor.
  - rewrite (fmap_Permutation id _ _ Hperm : map id _ ≡ₚ map id _), map_app, Hold. apply NoDup_app.
    split; [done|]. split; [|done]. intros x Hx Hx2.
    apply list_elem_of_fmap in Hx as (c & -> & Hc), Hx2 as (d & Ed & Hd).
    specialize (Hrange c Hc). specialize (Hid d Hd). lia.
  - intros c Hc. rewrite Hperm in Hc. apply elem_of_app in Hc as [Hc|Hc]; [specialize (Hrange c Hc); lia|].
    assert (Hin : id c ∈ map id (before_ ++ b :: after_)).
    { rewrite <- Hold. apply list_elem_of_fmap. eauto. }
    apply list_elem_of_fmap in Hin as (d & -> & Hd). specialize (Hid d Hd). lia.
  - intros c Hc Ht. rewrite Hperm in Hc. apply elem_of_app in Hc as [Hc|Hc].
    { rewrite List.Forall_forall in Hun. rewrite (Hun c) in Ht by (by apply list_elem_of_In). done. }
    assert (Hsub : map key (before_ ++ b :: after_) ⊆ map key (before_ ++ b' :: fresh ++ after_)).
    { rewrite !map_app. cbn. rewrite map_app. unfold key at 2 5. rewrite Hki, Hks. intros x.
      rewrite !elem_of_app, !elem_of_cons, !elem_of_app. tauto. }
    apply elem_of_app in Hc as [Hc|Hc]; [|apply elem_of_cons in Hc as [->|Hc]]; [|by apply Hb|].
    + eapply body_mono; [exact Hsub|]. apply Hbody; [|done]. apply elem_of_app. by left.
    + eapply body_mono; [exact Hsub|]. apply Hbody; [|done]. apply elem_of_app. right. by right.
Qed.

Lemma pass_block_inv fuel before_ after_ b v b' v' :
  queued v = [] -> inv (before_ ++ b :: after_) (next_id v) ->
  pass_block_ fuel before_ after_ b v = Ret (b', v') ->
  inv (before_ ++ b' :: queued v' ++ after_) (next_id v') /\ translated b' = true /\ key b' = key b /\
  split_end_pc b' = 0 /\
  Forall (fun c => translated c = false /\ split_end_pc c = 0 /\ end_pc c = 0 /\ can_split c = true) (queued v') /\
  map key (before_ ++ b :: after_) ⊆ map key (before_ ++ b' :: queued v' ++ after_).
Proof.
  intros Hq Hinv E. unfold pass_block in E.
  set (b0 := if split_end_pc b =? 0 then b else with_split_end 0 (reinitialise_for_split b)) in *.
  assert (Hb0 : key b0 = key b /\ split_end_pc b0 = 0 /\ (translated b0 = true -> b0 = b)).
  { unfold b0. destruct (Z.eqb_spec (split_end_pc b) 0); done. }
  destruct Hb0 as (Hk0 & Hs0 & Ht0).
  assert (Hsub : forall c fresh, key c = key b ->
    map key (before_ ++ b :: after_) ⊆ map key (before_ ++ c :: fresh ++ after_)).
  { intros c fresh Hk. rewrite !map_app. cbn. rewrite map_app, Hk. intros x.
    rewrite !elem_of_app, !elem_of_cons, !elem_of_app. tauto. }
  destruct (translated b0) eqn:Et.
  - injection E as <- <-. rewrite Hq. cbn [app]. rewrite (Ht0 eq_refl) in *. done.
  - destruct (run_ fuel b0) as [b1| |] eqn:Er; try done. cbn [mbind outcome_bind] in E.
    destruct (run_block fuel b0 b1 Er) as (T1 & K1 & S1 & _ & B1).
    set (b2 := if negb (split_end_pc b =? 0) && negb (end_pc b1 =? split_end_pc b) then _ else b1) in E.
    assert (Hb2 : key b2 = key b /\ ls b2 = ls b1 /\ translated b2 = true /\ split_end_pc b2 = 0).
    { unfold b2. rewrite Hk0, Hs0 in *. destruct (negb (split_end_pc b =? 0) && _); cbn; done. }
    destruct Hb2 as (K2 & L2 & T2 & S2).
    destruct (visit_branches_ before_ after_ b2 (ls b2) v) as [l v2] eqn:Ev. injection E as <- <-.
    destruct (visit_branches_visited _ _ _ _ _ _ _ Ev) as [fresh [Q U N R L T]].
    rewrite Hq, app_nil_r in Q. rewrite Q.
    split; [|split; [done|]; split; [done|]; split; [done|]; split; [done|by apply Hsub]].
    eapply inv_replace; try done.
    + eapply List.Forall_impl; [|exact U]. cbn. by intros c [? _].
    + intros _. cbn [ls with_ls start_pc].
      assert (Hks : map key (before_ ++ with_ls l b2 :: fresh ++ after_) = map key (around before_ after_ b2 v2)).
      { unfold around. rewrite Q, !map_app. cbn. by rewrite !map_app. }
      rewrite Hks. replace (start_pc b2) with (start_pc b1) by (unfold b2; by destruct (negb _ && _)).
      rewrite L2 in T. eapply (body_retarget [] _ (ls b1)); [by intros x ?%elem_of_nil|apply B1|exact T].
Qed.

Definition all_translated (bs : list block_translator) : Prop := Forall (fun b => translated b = true) bs.

Lemma build_pass_inv fuel after_ : forall before_ st ch st' ch',
  inv (before_ ++ after_) (ts_next_id st) ->
  build_pass_ fuel before_ after_ st ch = Ret (st', ch') ->
  inv (blocks st') (ts_next_id st') /\ map key (before_ ++ after_) ⊆ map key (blocks st') /\
  (ch' = false -> ch = false /\ (all_translated before_ -> all_translated (blocks st'))).
Proof.
  induction after_ as [|b after_ IH]; intros before_ st ch st' ch' Hinv E; cbn [build_pass] in E.
  - injection E as <- <-. cbn. rewrite app_nil_r in *. done.
  - destruct (pass_block_ fuel before_ after_ b _) as [[b' v']| |] eqn:Ep; try done.
    cbn [mbind outcome_bind] in E.
    destruct (pass_block_inv fuel before_ after_ b {| next_id := ts_next_id st; num_fall_throughs := ts_fall_throughs st; queued := [] |}
      b' v' eq_refl Hinv Ep) as (Hinv' & Ht & Hk & _ & Hun & Hsub).
    assert (Eq : before_ ++ b' :: queued v' ++ after_ = (before_ ++ b' :: queued v') ++ after_)
      by (rewrite <- app_assoc; done).
    rewrite Eq in Hinv', Hsub. eapply IH in E as (Hi & Hs & Hc); [|exact Hinv'].
    split; [done|]. split; [etrans; [exact Hsub|exact Hs]|]. intros ->. specialize (Hc eq_refl) as [Hch Hall].
    apply orb_false_iff in Hch as [-> Hch]. split; [done|]. intros Hbefore. apply Hall.
    destruct (queued v') as [|c cs]; [|done]. apply Forall_app. split; [done|]. by constructor.
Qed.

(** ** Lemmas: linking *)
Lemma fixup_branches_retarget trace lo hi outgoing l :
  match fixup_branches trace lo hi outgoing l with
  | Fixed l' => Forall2 (retarget (map key trace)) l l'
  | Split l' n pc => Forall2 (retarget (map key trace)) l l' /\
      exists b, b ∈ trace /\ id b = n /\ can_split b = true /\
        (split_end_pc b = 0 -> start_pc b < pc < end_pc b)
  end.
Proof.
  induction l as [|i l IH]; cbn [fixup_branches]; [constructor|].
  assert (Hrefl : forall l, Forall2 (retarget (map key trace)) l l).
  { intros l0. induction l0; constructor; [by left|done]. }
  assert (Hcont : forall j, retarget (map key trace) i j ->
    match match fixup_branches trace lo hi outgoing l with
          | Fixed l => Fixed (j :: l) | Split l b pc => Split (j :: l) b pc end with
    | Fixed l' => Forall2 (retarget (map key trace)) (i :: l) l'
    | Split l' n pc => Forall2 (retarget (map key trace)) (i :: l) l' /\
        exists b, b ∈ trace /\ id b = n /\ can_split b = true /\
          (split_end_pc b = 0 -> start_pc b < pc < end_pc b)
    end).
  { intros j Hj. destruct (fixup_branches trace lo hi outgoing l); [by constructor|].
    destruct IH as [IH1 IH2]. split; [by constructor|exact IH2]. }
  destruct (oper i) as [| |k [a| | |]| |] eqn:Ho; try (apply Hcont; by left).
  destruct (mangled i || (a <? lo) || (hi <=? a)); [apply Hcont; by left|].
  destruct (find_block_translator trace a _) as [b|] eqn:Eb; [|apply Hcont; by left].
  apply find_in in Eb as [Hin Hm]. unfold matches in Hm. rewrite !andb_true_iff, Z.leb_le, Z.ltb_lt in Hm.
  destruct Hm as [[_ Hlo] Hhi].
  destruct (Z.eqb_spec (start_pc b) a) as [Ea|Ea].
  - apply Hcont. right. eexists _, a, _. split; [done|]. split; [done|]. by apply key_in.
  - destruct (can_split b) eqn:Ec; [|apply Hcont; by left]. split; [apply Hrefl|].
    exists b. split; [done|]. split; [done|]. split; [done|].
    intros ->. cbn. lia.
Qed.

Lemma mark_split_keys n pc bs : map key (mark_split n pc bs) = map key bs.
Proof. unfold mark_split. rewrite map_map. apply map_ext. intros b. by destruct (decide _). Qed.

Lemma mark_split_ids n pc bs : map id (mark_split n pc bs) = map id bs.
Proof. unfold mark_split. rewrite map_map. apply map_ext. intros b. by destruct (decide _). Qed.

Lemma mark_split_in n pc bs b :
  b ∈ mark_split n pc bs -> exists c, c ∈ bs /\ key b = key c /\ ls b = ls c /\ translated b = translated c.
Proof.
  unfold mark_split. intros Hb. apply list_elem_of_fmap in Hb as (c & -> & Hc). exists c.
  by destruct (decide _).
Qed.

Lemma inv_mark_split n pc bs m : inv bs m -> inv (mark_split n pc bs) m.
Proof.
  intros [Hnd Hid Hb]. constructor.
  - by rewrite mark_split_ids.
  - intros b Hin. apply mark_split_in in Hin as (c & Hc & Hk & _). injection Hk as -> _. auto.
  - intros b Hin Ht. apply mark_split_in in Hin as (c & Hc & Hk & Hl & Htc). rewrite mark_split_keys.
    injection Hk as _ ->. rewrite Hl. apply Hb; [done|congruence].
Qed.

Lemma inv_relink before_ after_ b l n :
  inv (before_ ++ b :: after_) n -> Forall2 (retarget (map key (before_ ++ b :: after_))) (ls b) l ->
  inv (before_ ++ with_ls l b :: after_) n.
Proof.
  intros Hinv Hl. apply (inv_replace before_ after_ b (with_ls l b) [] n n); try done; [constructor|by intros ? ?%elem_of_nil|].
  cbn [app with_ls ls start_pc translated]. intros Ht.
  replace (map key (before_ ++ _ :: after_)) with (map key (before_ ++ b :: after_)) by (rewrite !map_app; done).
  eapply body_retarget; [done| |exact Hl]. apply (inv_body _ _ Hinv); [|done]. apply elem_of_app. right. by left.
Qed.

Lemma fixup_pass_inv lo hi after_ : forall before_ n bs sp,
  inv (before_ ++ after_) n -> fixup_pass lo hi before_ after_ = (bs, sp) ->
  inv bs n /\ map key bs = map key (before_ ++ after_) /\
  (all_translated (before_ ++ after_) -> all_translated bs).
Proof.
  induction after_ as [|b after_ IH]; intros before_ n bs sp Hinv E; cbn [fixup_pass] in E.
  - injection E as <- <-. by rewrite app_nil_r in *.
  - pose proof (fixup_branches_retarget (before_ ++ b :: after_) lo hi (outgoing_policy b) (ls b)) as Hf.
    destruct (fixup_branches _ lo hi _ _) as [l|l m pc].
    + apply (inv_relink before_ after_ b l n Hinv) in Hf.
      assert (Ea : forall x, before_ ++ x :: after_ = (before_ ++ [x]) ++ after_) by (intros; by rewrite <- app_assoc).
      rewrite Ea in Hf. apply (IH _ _ _ _ Hf) in E as (Hi & Hk & Ht). split; [done|]. split.
      * rewrite Hk, !map_app. cbn. by rewrite <- app_assoc.
      * intros Hall. apply Ht. rewrite <- Ea. unfold all_translated in *. rewrite Forall_app, List.Forall_cons_iff in *.
        cbn. done.
    + destruct Hf as [Hf _]. apply (inv_relink before_ after_ b l n Hinv) in Hf. injection E as <- <-.
      split; [by apply inv_mark_split|]. split; [rewrite mark_split_keys, !map_app; done|].
      intros Hall. unfold all_translated, mark_split in *. rewrite Forall_app, List.Forall_cons_iff in Hall.
      apply Forall_map. apply Forall_forall. intros c Hc.
      assert (Hc' : translated c = true).
      { destruct Hall as (H1 & H2 & H3). rewrite Forall_forall in H1, H3.
        apply elem_of_app in Hc as [Hc|[->|Hc]%elem_of_cons]; auto. }
      by destruct (decide _).
Qed.

Lemma build_step_inv fuel st st' more :
  inv (blocks st) (ts_next_id st) -> build_step_ fuel st = Ret (st', more) ->
  inv (blocks st') (ts_next_id st') /\ map key (blocks st) ⊆ map key (blocks st') /\
  (more = false -> all_translated (blocks st')).
Proof.
  intros Hinv E. unfold build_step in E.
  destruct (build_pass_ fuel [] (blocks st) st false) as [[st1 ch]| |] eqn:Ep; try done. cbn [mbind outcome_bind] in E.
  destruct (build_pass_inv fuel (blocks st) [] st false st1 ch Hinv Ep) as (Hi & Hs & Hc). cbn [app] in Hs.
  destruct ch.
  - injection E as <- <-. done.
  - destruct (Hc eq_refl) as [_ Hall]. destruct (fixup_pass _ _ _ _) as [bs sp] eqn:Ef. injection E as <- <-.
    destruct (fixup_pass_inv _ _ (blocks st1) [] _ _ _ Hi Ef) as (Hi' & Hk & Ht).
    cbn. split; [done|]. split; [by rewrite Hk|]. intros _. apply Ht, Hall. constructor.
Qed.

Lemma build_inv turns fuel : forall st st',
  inv (blocks st) (ts_next_id st) -> build_ turns fuel st = Ret st' ->
  inv (blocks st') (ts_next_id st') /\ map key (blocks st) ⊆ map key (blocks st') /\ all_translated (blocks st').
Proof.
  induction turns as [|turns IH]; intros st st' Hinv E; cbn [build] in E; [done|].
  destruct (build_step_ fuel st) as [[st1 more]| |] eqn:Es; try done. cbn [mbind outcome_bind fst snd] in E.
  destruct (build_step_inv fuel st st1 more Hinv Es) as (Hi & Hs & Hm). destruct more.
  - destruct (IH st1 st' Hi E) as (? & ? & ?). split; [done|]. split; [etrans; eassumption|done].
  - injection E as <-. auto.
Qed.

(** ** Running native and emitted code *)
Context {M : Type} (effect : Z -> M -> M) (condition : Z -> M -> bool * M).

(** What is decoded as a no-op does nothing; conditional branches are
    direct. *)
Hypothesis nop_effect : forall p len mv sse m, fetch p = D_other len true mv sse -> effect p m = m.
Hypothesis cond_direct : forall p k len, conditional k -> fetch p <> D_cti k None len.

Inductive nstep : Z * M -> Z * M -> Prop :=
  | nstep_plain p len nop mv m : plain p len nop mv -> nstep (p, m) (p + len, effect p m)
  | nstep_jmp p a len m : fetch p = D_cti JMP (Some a) len -> nstep (p, m) (a, m)
  | nstep_cond p k a len m :
      conditional k -> fetch p = D_cti k (Some a) len ->
      nstep (p, m) (if (condition p m).1 then a else p + len, (condition p m).2).

(** How control leaves a trace: at a direct branch to an address or to a code
    cache entry, to native code, at a call, which comes back to the rest of
    the code, at an indirect branch or return, and at bytes that do not
    decode. *)
Inductive exit :=
  | ExPc (pc : Z)
  | ExCache (pc : Z)
  | ExNative (pc : Z)
  | ExCall (t : target) (rest : list item)
  | ExInd
  | ExTrap.

Fixpoint label_pos (n : nat) (code : list item) : option (list item) :=
  match code with
  | [] => None
  | StartLabel k :: code => if decide (k = n) then Some code else label_pos n code
  | _ :: code => label_pos n code
  end.

Definition goto (code : list item) (t : target) (m : M) : option ((list item * M) + (exit * M)) :=
  match t with
  | TPc a => Some (inr (ExPc a, m))
  | TCache c => Some (inr (ExCache c, m))
  | TBlock n => (fun r => inl (r, m)) <$> label_pos n code
  | TInd => Some (inr (ExInd, m))
  end.

(** One item; [None] when there is none left. *)
Definition tstep (code rest : list item) (m : M) : option ((list item * M) + (exit * M)) :=
  match rest with
  | [] => None
  | StartLabel _ :: r | EndLabel _ :: r => Some (inl (r, m))
  | In i :: r =>
      match oper i with
      | OLabel => Some (inl (r, m))
      | OOther _ _ => Some (inl (r, effect (native_pc i) m))
      | OCti JMP t => goto code t m
      | OCti JCC t | OCti LOOP t =>
          let c := condition (native_pc i) m in
          if c.1 then goto code t c.2 else Some (inl (r, c.2))
      | OCti CALL t => Some (inr (ExCall t r, m))
      | OCti RET _ => Some (inr (ExInd, m))
      | OUd2a => Some (inr (ExTrap, m))
      | ONative a => Some (inr (ExNative a, m))
      end
  end.

Fixpoint trun (n : nat) (code rest : list item) (m : M) : option ((list item * M) + (exit * M)) :=
  match n with
  | O => Some (inl (rest, m))
  | S n =>
      match tstep code rest m with
      | Some (inl (r, m)) => trun n code r m
      | res => res
      end
  end.

(** The items of [r], from native address [p] on: as [body], with labels, and
    without the no-ops and the jumps to the next block. *)
Inductive follows (ks : list (nat * Z)) : list item -> Z -> Prop :=
  | fol_start n r p : follows ks r p -> follows ks (StartLabel n :: r) p
  | fol_end n r p : follows ks r p -> follows ks (EndLabel n :: r) p
  | fol_label i r p : oper i = OLabel -> follows ks r p -> follows ks (In i :: r) p
  | fol_other i r p len nop mv :
      plain p len nop mv -> oper i = OOther nop mv -> native_pc i = p ->
      follows ks r (p + len) -> follows ks (In i :: r) p
  | fol_call i r p len t ta :
      fetch p = D_cti CALL ta len -> oper i = OCti CALL t -> target_ok ks t ta ->
      follows ks r (p + len) -> follows ks (In i :: r) p
  | fol_cond i r p k len t a :
      conditional k -> fetch p = D_cti k (Some a) len -> oper i = OCti k t -> resolves ks t a -> native_pc i = p ->
      follows ks r (p + len) -> follows ks (In i :: r) p
  | fol_jmp i r p len t ta :
      fetch p = D_cti JMP ta len -> oper i = OCti JMP t -> target_ok ks t ta -> follows ks (In i :: r) p
  | fol_added_jmp i r p t : oper i = OCti JMP t -> resolves ks t p -> follows ks (In i :: r) p
  | fol_ret i r p len t ta : fetch p = D_cti RET ta len -> oper i = OCti RET t -> follows ks (In i :: r) p
  | fol_ud2a i r p : fetch p = D_invalid -> oper i = OUd2a -> follows ks (In i :: r) p
  | fol_native i r p : oper i = ONative p -> follows ks (In i :: r) p
  | fol_skip_nop r p len mv sse : fetch p = D_other len true mv sse -> follows ks r (p + len) -> follows ks r p
  | fol_skip_jmp r p a len : fetch p = D_cti JMP (Some a) len -> follows ks r a -> follows ks r p.

(** Where the native code is when control leaves the trace. *)
Definition exit_ok (ks : list (nat * Z)) (e : exit) (p : Z) : Prop :=
  match e with
  | ExPc a | ExNative a => p = a
  | ExCache c => translates p c
  | ExCall t r => exists ta len, fetch p = D_cti CALL ta len /\ target_ok ks t ta /\ follows ks r (p + len)
  | ExInd => exists k ta len, fetch p = D_cti k ta len /\ (k = RET \/ ta = None)
  | ExTrap => fetch p = D_invalid
  end.

Definition matched (ks : list (nat * Z)) (p : Z) (m : M) (res : (list item * M) + (exit * M)) : Prop :=
  match res with
  | inl (r, m') => exists p', rtc nstep (p, m) (p', m') /\ follows ks r p'
  | inr (e, m') => exists p', rtc nstep (p, m) (p', m') /\ exit_ok ks e p'
  end.

Lemma matched_step ks p m p' m' res :
  rtc nstep (p, m) (p', m') -> matched ks p' m' res -> matched ks p m res.
Proof.
  intros Hs. destruct res as [[r m2]|[e m2]]; cbn; intros (q & ? & ?); exists q; (split; [etrans; eassumption|done]).
Qed.

(** Every label leads to code that follows its block. *)
Definition labels_ok (ks : list (nat * Z)) (code : list item) : Prop :=
  forall n a, (n, a) ∈ ks -> exists r, label_pos n code = Some r /\ follows ks r a.

Lemma goto_matched ks code t a m :
  labels_ok ks code -> resolves ks t a -> exists res, goto code t m = Some res /\ matched ks a m res.
Proof.
  intros Hl Hr. destruct t as [b|c|n|]; cbn in Hr; cbn [goto].
  - subst b. eexists. split; [done|]. exists a. split; [constructor|done].
  - eexists. split; [done|]. exists a. split; [constructor|done].
  - destruct (Hl n a Hr) as (r & -> & Hf). eexists. split; [done|]. exists a. split; [constructor|done].
  - done.
Qed.

Lemma tstep_matched ks code r p m :
  labels_ok ks code -> follows ks r p -> exists res, tstep code r m = Some res /\ matched ks p m res.
Proof.
  intros Hl Hf. revert m. induction Hf as
    [n r p Hf _|n r p Hf _|i r p Ho Hf _|i r p len nop mv Hp Ho Hn Hf _|i r p len t ta Hfe Ho Ht Hf _
    |i r p k len t a Hk Hfe Ho Hr Hn Hf _|i r p len t ta Hfe Ho Ht|i r p t Ho Hr|i r p len t ta Hfe Ho
    |i r p Hfe Ho|i r p Ho|r p len mv sse Hfe Hf IH|r p a len Hfe Hf IH]; intros m;
    cbn [tstep]; rewrite ?Ho.
  - eexists. split; [done|]. exists p. split; [constructor|done].
  - eexists. split; [done|]. exists p. split; [constructor|done].
  - eexists. split; [done|]. exists p. split; [constructor|done].
  - eexists. split; [done|]. exists (p + len). rewrite Hn. split; [apply rtc_once; by econstructor|done].
  - eexists. split; [done|]. exists p. split; [constructor|]. cbn. eauto.
  - rewrite Hn. assert (Hstep := nstep_cond p k a len m Hk Hfe).
    replace (match k with JMP => goto code t m | CALL => _ | RET => _ | _ => _ end)
      with (if (condition p m).1 then goto code t (condition p m).2 else Some (inl (r, (condition p m).2)))
      by (destruct Hk as [-> | ->]; done).
    destruct ((condition p m).1).
    + destruct (goto_matched ks code t a (condition p m).2 Hl Hr) as (res & -> & Hm).
      exists res. split; [done|]. eapply matched_step; [apply rtc_once; exact Hstep|done].
    + eexists. split; [done|]. exists (p + len). split; [apply rtc_once; exact Hstep|done].
  - destruct ta as [a|]; cbn in Ht.
    + destruct (goto_matched ks code t a m Hl Ht) as (res & -> & Hm). exists res. split; [done|].
      eapply matched_step; [apply rtc_once; by econstructor|done].
    + subst t. eexists. split; [done|]. exists p. split; [constructor|]. cbn. eauto 10.
  - by apply goto_matched.
  - eexists. split; [done|]. exists p. split; [constructor|]. cbn. eauto 10.
  - eexists. split; [done|]. exists p. split; [constructor|done].
  - eexists. split; [done|]. exists p. split; [constructor|done].
  - destruct (IH m) as (res & E & Hm). cbn [tstep] in E. exists res. split; [exact E|].
    eapply matched_step; [|exact Hm]. apply rtc_once. rewrite <- (nop_effect p len mv sse m Hfe) at 2.
    eapply nstep_plain. by eapply plain_other.
  - destruct (IH m) as (res & E & Hm). exists res. split; [exact E|].
    eapply matched_step; [|exact Hm]. apply rtc_once. by econstructor.
Qed.

Lemma trun_matched ks code n : forall r p m,
  labels_ok ks code -> follows ks r p -> exists res, trun n code r m = Some res /\ matched ks p m res.
Proof.
  induction n as [|n IH]; intros r p m Hl Hf; cbn [trun].
  - eexists. split; [done|]. exists p. split; [constructor|done].
  - destruct (tstep_matched ks code r p m Hl Hf) as (res & -> & Hm). destruct res as [[r1 m1]|[e m1]].
    + destruct Hm as (p1 & Hs & Hf1). destruct (IH r1 p1 m1 Hl Hf1) as (res & E & Hm).
      exists res. split; [done|]. by eapply matched_step.
    + eexists. split; [done|]. exact Hm.
Qed.

(** ** Lemmas: emission *)
Lemma body_optimise ks next rest l p :
  body ks l p -> (forall n a, next = Some n -> (n, a) ∈ ks -> follows ks rest a) ->
  follows ks (map In (optimise next l) ++ rest) p.
Proof.
  intros Hb Hnext. induction Hb as
    [i l p Ho _ IH|i l p len nop mv Hp Ho Hn _ IH|i l p len t ta Hf Ho Ht Hn _ IH
    |i l p k len t ta Hk Hf Ho Ht Hn _ IH|i l p len t ta Hf Ho Ht Hn|i l p t Ho Hr|i l p len t ta Hf Ho Hn
    |i l p Hf Ho|i l p Ho]; cbn [optimise]; unfold is_nop; rewrite Ho; cbn [map app].
  - by eapply fol_label.
  - destruct nop.
    + destruct Hp as [[sse Hp]|(_ & _ & ? & _)]; [|done]. by eapply fol_skip_nop.
    + by eapply fol_other.
  - by eapply fol_call.
  - assert (Hkeep : follows ks (map In (i :: optimise next l) ++ rest) p).
    { destruct ta as [a|]; [|exfalso; by eapply cond_direct]. cbn [map app]. by eapply fol_cond. }
    destruct Hk as [-> | ->]; exact Hkeep.
  - assert (Hkeep : forall q, follows ks (map In (i :: q) ++ rest) p) by (intros; cbn; by eapply fol_jmp).
    destruct t as [| |n|]; try apply Hkeep. destruct l; [|apply Hkeep].
    destruct next as [n'|] eqn:En; [|apply Hkeep]. destruct (decide (n = n')) as [->|]; [|apply Hkeep].
    cbn. destruct ta as [a|]; [|done]. eapply fol_skip_jmp; [exact Hf|]. by eapply Hnext.
  - assert (Hkeep : forall q, follows ks (map In (i :: q) ++ rest) p) by (intros; cbn; by eapply fol_added_jmp).
    destruct t as [| |n|]; try apply Hkeep. destruct l; [|apply Hkeep].
    destruct next as [n'|] eqn:En; [|apply Hkeep]. destruct (decide (n = n')) as [->|]; [|apply Hkeep].
    cbn. by eapply Hnext.
  - by eapply fol_ret.
  - by eapply fol_ud2a.
  - by eapply fol_native.
Qed.

(** The code behind the start label of the first block. *)
Definition emit_tail (bs : list block_translator) : list item := tail (emit bs).

Lemma emit_cons b bs : emit (b :: bs) = StartLabel (id b) :: emit_tail (b :: bs).
Proof. done. Qed.

Lemma emit_follows ks bs b :
  (forall n a a', (n, a) ∈ ks -> (n, a') ∈ ks -> a = a') -> map key (b :: bs) ⊆ ks ->
  (forall c, c ∈ b :: bs -> body ks (ls c) (start_pc c)) ->
  follows ks (emit_tail (b :: bs)) (start_pc b).
Proof.
  intros Hfun. revert b. induction bs as [|c bs IH]; intros b Hk Hb; unfold emit_tail; cbn [emit tail].
  - apply body_optimise; [apply Hb; by left|]. done.
  - apply body_optimise; [apply Hb; by left|]. cbn [head fmap option_fmap option_map].
    intros n a [= <-] Ha. apply fol_end. change (map In _ ++ _) with (emit_tail (c :: bs)).
    change (StartLabel (id c) :: emit_tail (c :: bs)) with (emit (c :: bs)). rewrite emit_cons. apply fol_start.
    replace a with (start_pc c).
    + apply IH; [|intros d Hd; apply Hb; by right]. intros x Hx. apply Hk. by right.
    + eapply Hfun; [|exact Ha]. apply Hk. right. by left.
Qed.

Lemma label_pos_items n l rest : label_pos n (map In l ++ rest) = label_pos n rest.
Proof. induction l; done. Qed.

Lemma label_pos_emit bs1 b bs2 :
  id b ∉ map id bs1 -> label_pos (id b) (emit (bs1 ++ b :: bs2)) = Some (emit_tail (b :: bs2)).
Proof.
  induction bs1 as [|c bs1 IH]; intros Hn; cbn [app].
  - rewrite emit_cons. cbn [label_pos]. by rewrite decide_True.
  - cbn [map] in Hn. rewrite not_elem_of_cons in Hn. destruct Hn as [Hne Hn].
    cbn [emit label_pos]. rewrite decide_False by congruence. rewrite label_pos_items. cbn [label_pos]. by apply IH.
Qed.

Lemma keys_functional bs n a a' :
  NoDup (map id bs) -> (n, a) ∈ map key bs -> (n, a') ∈ map key bs -> a = a'.
Proof.
  intros Hnd Ha Ha'. apply list_elem_of_fmap in Ha as (b & Eb & Hb), Ha' as (c & Ec & Hc).
  injection Eb as -> ->. injection Ec as Eid ->. f_equal.
  apply elem_of_Permutation in Hb as [l Hl]. rewrite Hl in Hc.
  apply elem_of_cons in Hc as [->|Hc]; [done|]. exfalso.
  rewrite (Permutation_map id Hl) in Hnd. cbn in Hnd.
  apply NoDup_cons in Hnd as [Hin _]. apply Hin. rewrite Eid. apply list_elem_of_fmap. eauto.
Qed.

Lemma emit_labels bs n :
  inv bs n -> all_translated bs -> labels_ok (map key bs) (emit bs).
Proof.
  intros [Hnd Hid Hb] Hall k a Hka. pose proof Hka as Hin. apply list_elem_of_fmap in Hin as (b & E & Hin).
  injection E as -> ->. apply list_elem_of_split in Hin as (bs1 & bs2 & E).
  exists (emit_tail (b :: bs2)). rewrite E. split.
  - apply label_pos_emit. rewrite E, map_app in Hnd. apply NoDup_app in Hnd as (_ & Hd & _).
    intros Hx. apply (Hd _ Hx). by left.
  - rewrite <- E. apply emit_follows.
    + intros. by eapply keys_functional.
    + intros x Hx. rewrite E, map_app, elem_of_app. by right.
    + intros c Hc. unfold all_translated in Hall. rewrite Forall_forall in Hall.
      assert (Hcin : c ∈ bs) by (rewrite E; apply elem_of_app; by right). apply Hb; auto.
Qed.

(** The trace that was built, run from its entry: it is never stuck, and each
    run is matched by native steps. *)
Lemma built_trace_follows turns fuel policy start st :
  build_ turns fuel (initial_trace policy start) = Ret st ->
  exists entry, label_pos 0 (emit (blocks st)) = Some entry /\
    forall n m, exists res, trun n (emit (blocks st)) entry m = Some res /\
      matched (map key (blocks st)) start m res.
Proof.
  intros E.
  assert (Hinv : inv (blocks (initial_trace policy start)) (ts_next_id (initial_trace policy start))).
  { constructor; cbn.
    - apply NoDup_singleton.
    - intros b Hb%list_elem_of_singleton. subst b. cbn. lia.
    - intros b Hb%list_elem_of_singleton. subst b. done. }
  destruct (build_inv turns fuel _ _ Hinv E) as (Hi & Hk & Hall).
  pose proof (emit_labels _ _ Hi Hall) as Hl.
  destruct (Hl 0%nat start) as (entry & Hpos & Hf); [apply Hk; by left|].
  exists entry. split; [done|]. intros n m. by apply trun_matched.
Qed.

End Correct.
