(* ===== verification/TraceTerm.v ===== *)
(** * Building a trace ends, and what is built is right

    The loop of [basic_block::translate] repeats as long as a new block is
    queued or a block is split.  Blocks are queued for targets that no block
    covers, but a queued block covers nothing until it is translated, so the
    same target can be queued several times; a split makes a block shorter
    and can uncover targets again.  The argument here bounds all of this: for
    native code with finitely many branch targets in which straight-line runs
    end, every turn of the loop decreases, in this order, the number of
    (address, policy) pairs that do not yet start a block; whether a pair
    that does is queued once more; the bytes in blocks that can be split; and
    whether a split is pending.

    With [TraceCorrect] this gives the theorem about the whole construction,
    with the number of turns and the fuel of the decoder included. *)

From Stdlib Require Import ZArith Lia Relations.Relation_Operators Wellfounded.Lexicographic_Product.
From stdpp Require Import base numbers list option gmap relations.
From S2P Require Import Prelude Policy Trace TraceCorrect.

Section Term.
Context `{Config}.
Context (fetch : Z -> decoded) (detach_app_pc : Z) (is_cache_or_wrapper : Z -> bool)
  (kernel_find_exception_metadata : list instruction -> bool)
  (find_detach_target : Z -> runtime_context -> Z) (code_cache_lookup : Z -> Z)
  (instrument : instrumentation_policy -> list instruction -> instrumentation_policy)
  (instrument_in : instrumentation_policy -> instruction -> instrumentation_policy).

(** ** Assumptions on the native code *)

(** A straight-line run from [p] ends within [n] instructions. *)
Fixpoint ends (n : nat) (p : Z) : bool :=
  match n with
  | O => false
  | S n =>
      match fetch p with
      | D_other len _ _ _ => ends n (p + len)
      | D_leave_kernel len => if env_kernel then true else ends n (p + len)
      | D_cti CALL _ len => ends n (p + len)
      | _ => true
      end
  end.

(** The addresses at which blocks can start. *)
Record native_ok (pcs : gset Z) (N : nat) : Prop := {
  nat_len : forall p,
    match fetch p with
    | D_cti _ _ len | D_other len _ _ _ | D_leave_kernel len => 0 < len
    | _ => True
    end;
  nat_jumps : forall p a len, fetch p = D_cti JMP (Some a) len -> a ∈ pcs;
  nat_falls : forall p k t len, conditional k -> fetch p = D_cti k t len -> p + len ∈ pcs;
  nat_pos : forall a, a ∈ pcs -> 0 < a;
  nat_ends : forall p, ends N p = true
}.
Context (pcs : gset Z) (N : nat) (Hnat : native_ok pcs N).

Abbreviation decode_loop_ := (decode_loop fetch detach_app_pc is_cache_or_wrapper).
Abbreviation decode_ := (decode fetch detach_app_pc is_cache_or_wrapper kernel_find_exception_metadata).
Abbreviation run_ := (run fetch detach_app_pc is_cache_or_wrapper kernel_find_exception_metadata instrument instrument_in).
Abbreviation visit_branch_ := (visit_branch find_detach_target code_cache_lookup).
Abbreviation visit_branches_ := (visit_branches find_detach_target code_cache_lookup).
Abbreviation pass_block_ := (pass_block fetch detach_app_pc is_cache_or_wrapper kernel_find_exception_metadata
  find_detach_target code_cache_lookup instrument instrument_in).
Abbreviation build_pass_ := (build_pass fetch detach_app_pc is_cache_or_wrapper kernel_find_exception_metadata
  find_detach_target code_cache_lookup instrument instrument_in).
Abbreviation build_step_ := (build_step fetch detach_app_pc is_cache_or_wrapper kernel_find_exception_metadata
  find_detach_target code_cache_lookup instrument instrument_in).
Abbreviation build_ := (build fetch detach_app_pc is_cache_or_wrapper kernel_find_exception_metadata
  find_detach_target code_cache_lookup instrument instrument_in).

(** ** Lemmas: decoding *)

(** The first instruction decodes. *)
Definition first_ok (p : Z) : bool :=
  match fetch p with D_invalid | D_trap => false | _ => true end.

(** A branch that visiting may follow has its target among the addresses. *)
Definition targets_ok (l : list instruction) : Prop :=
  Forall (fun i => forall n a, followed i n = Some a -> a ∈ pcs) l.

Lemma targets_ok_app l i : targets_ok l -> (forall n a, followed i n = Some a -> a ∈ pcs) -> targets_ok (l ++ [i]).
Proof. intros Hl Hi. apply Forall_app. split; [done|]. by constructor. Qed.

Lemma chop_targets l : forall l' pc, targets_ok l -> chop_at_rsp l = Some (l', pc) -> targets_ok l'.
Proof.
  induction l as [|i l IH]; intros l' pc Hl E; cbn [chop_at_rsp] in E; [done|].
  apply List.Forall_cons_iff in Hl as [Hi Hl]. destruct (chop_at_rsp l) as [[l1 p1]|].
  - injection E as <- <-. constructor; [done|]. by eapply IH.
  - destruct (oper i) as [|? []| | |]; try discriminate E. injection E as <- <-. constructor.
Qed.

Lemma decode_loop_ends fuel : forall desired p s,
  ends fuel p = true -> targets_ok (ds_ls s) ->
  exists s' e, decode_loop_ fuel desired p s = Ret (s', e) /\ targets_ok (ds_ls s' ++ trailing e) /\
    ((desired = p \/ first_ok p = false) /\ ds_end_pc s' = ds_end_pc s \/ p < ds_end_pc s').
Proof.
  induction fuel as [|fuel IH]; intros desired p s He Ht; cbn [ends] in He; [done|]. cbn [decode_loop].
  assert (Hadd : forall o c m, (forall a, o = OCti JMP (TPc a) -> c = true -> a ∈ pcs) ->
    forall n a, followed (added o m c) n = Some a -> a ∈ pcs).
  { intros o c m Ho n a Hf. pose proof (followed_oper _ _ _ Hf) as Eo. cbn in Eo. unfold followed in Hf. cbn in Hf.
    rewrite Eo in Hf. destruct m; [done|]. destruct c; [|done]. by apply (Ho a). }
  destruct (Z.eqb_spec desired p) as [->|Hne].
  { eexists _, _. split; [done|]. split; [|left; auto]. apply targets_ok_app; [done|]. by apply Hadd. }
  pose proof (nat_len _ _ Hnat p) as Hlen. pose proof (nat_jumps _ _ Hnat p) as Hj.
  pose proof (nat_falls _ _ Hnat p) as Hfa.
  assert (Hgo : forall i len x, ends fuel (p + len) = true -> 0 < len -> (forall n a, followed i n = Some a -> a ∈ pcs) ->
    exists s' e, decode_loop_ fuel desired (p + len) (append i (p + len) x s) = Ret (s', e) /\
      targets_ok (ds_ls s' ++ trailing e) /\ ((desired = p \/ first_ok p = false) /\ ds_end_pc s' = ds_end_pc s \/ p < ds_end_pc s')).
  { intros i len x Hen Hl Hi. destruct (IH desired (p + len) (append i (p + len) x s) Hen) as (s' & e & E & T & C).
    { cbn. by apply targets_ok_app. }
    exists s', e. split; [done|]. split; [done|]. right. cbn in C. destruct C as [[_ ->]|?]; lia. }
  assert (Hplain : forall q l o, (forall a, o <> OCti JMP (TPc a)) -> forall n a, followed (native_in q l o) n = Some a -> a ∈ pcs).
  { intros q l o Ho n a Hf. apply followed_oper in Hf. cbn in Hf. by destruct (Ho a). }
  assert (Hbad : fetch p = D_invalid \/ fetch p = D_trap -> first_ok p = false).
  { unfold first_ok. by intros [-> | ->]. }
  destruct (fetch p) as [| |len|k t len|len nop mv sse] eqn:Ef.
  - eexists _, _. split; [done|]. cbn [ds_ls trailing ds_end_pc]. rewrite app_nil_r.
    split; [|left; auto]. apply targets_ok_app; [done|]. by apply Hadd.
  - eexists _, _. split; [done|]. cbn [trailing]. split; [|left; auto]. apply targets_ok_app; [done|]. by apply Hadd.
  - destruct env_kernel.
    + unfold chop. cbn [ds_ls]. destruct (chop_at_rsp (ds_ls s)) as [[l' pc]|] eqn:Ec; eexists _, _; (split; [done|]);
        cbn [ds_ls trailing ds_end_pc]; (split; [|right; lia]).
      * apply targets_ok_app; [by eapply chop_targets|]. by apply Hadd.
      * apply targets_ok_app; [done|]. by apply Hadd.
    + apply Hgo; [done|done|]. by apply Hplain.
  - set (i := native_in p len (OCti k match t with Some a => TPc a | None => TInd end)).
    assert (Hi : forall n a, followed i n = Some a -> a ∈ pcs).
    { intros n a Hf. apply followed_oper in Hf. cbn in Hf. injection Hf as -> Et. destruct t as [a'|]; [|done].
      injection Et as ->. by eapply Hj. }
    assert (Hend : forall e i', (forall n a, followed i' n = Some a -> a ∈ pcs) -> targets_ok (trailing e) ->
      targets_ok (ds_ls (append i' (p + len) (ds_xmm s) s) ++ trailing e)).
    { intros e i' Hi' Hte. cbn. apply Forall_app. split; [by apply targets_ok_app|done]. }
    assert (Htr : forall e, (forall q, e = FallThrough q true -> q ∈ pcs) -> targets_ok (trailing e)).
    { intros [|q [|]|q [|]] Hq; cbn; try constructor; try constructor; apply Hadd; try done.
      intros a [= ->] _. by apply Hq. }
    assert (Hcond : conditional k -> p + len ∈ pcs) by (intros; by eapply Hfa).
    assert (Hcall : ends fuel (p + len) = true -> exists s' e, decode_loop_ fuel desired (p + len) (append i (p + len) (ds_xmm s) s) = Ret (s', e) /\
      targets_ok (ds_ls s' ++ trailing e) /\ ((desired = p \/ first_ok p = false) /\ ds_end_pc s' = ds_end_pc s \/ p < ds_end_pc s')).
    { intros Hen. by apply Hgo. }
    assert (Hstop : forall i' e, (forall n a, followed i' n = Some a -> a ∈ pcs) -> (forall q, e = FallThrough q true -> q ∈ pcs) ->
      exists s' e', Ret (append i' (p + len) (ds_xmm s) s, e) = Ret (s', e') /\ targets_ok (ds_ls s' ++ trailing e') /\
        ((desired = p \/ first_ok p = false) /\ ds_end_pc s' = ds_end_pc s \/ p < ds_end_pc s')).
    { intros i' e Hi' He'. eexists _, _. split; [done|]. split; [apply Hend; [done|by apply Htr]|]. right. cbn. lia. }
    destruct t as [a|].
    + destruct (detach_app_pc =? a); [apply Hstop; done|].
      destruct (is_cache_or_wrapper a).
      { apply Hstop; [|done]. intros n b Hf. unfold followed in Hf. cbn in Hf. by destruct k. }
      destruct k; try (by apply Hstop); try (by apply Hcall);
        apply Hstop; try done; intros q [= <-]; apply Hcond; [by left|by right].
    + destruct k; try (by apply Hstop); try (by apply Hcall);
        apply Hstop; try done; intros q [= <-]; apply Hcond; [by left|by right].
  - apply Hgo; [done|done|]. by apply Hplain.
Qed.

Definition unfollowed (l : list instruction) : Prop := Forall (fun i => forall n, followed i n = None) l.

Lemma decode_loop_first_bad fuel desired p s :
  first_ok p = false -> desired <> p -> unfollowed (ds_ls s) ->
  exists s' e, decode_loop_ (S fuel) desired p s = Ret (s', e) /\ unfollowed (ds_ls s' ++ trailing e) /\
    ds_end_pc s' = ds_end_pc s.
Proof.
  intros Hf Hne Hs. cbn [decode_loop]. rewrite (proj2 (Z.eqb_neq _ _) Hne). unfold first_ok in Hf.
  destruct (fetch p); try done; (eexists _, _; split; [done|]; split; [|done]); cbn [ds_ls trailing].
  - rewrite app_nil_r. apply Forall_app. split; [done|]. by constructor.
  - apply Forall_app. split; [done|]. by constructor.
Qed.

(** The address and the policy identifier of a block. *)
Definition kb (b : block_translator) : Z * Z := (start_pc b, u_id (base_policy (incoming_policy b))).

Lemma id_base p : u_id (base_policy p) = u_id p.
Proof.
  unfold base_policy. rewrite !id_with_flag by (split; [done|reflexivity]). by destruct p.
Qed.

Lemma followed_set_policy p i n : followed (set_policy p i) n = followed i n.
Proof. done. Qed.

Record run_facts (b b' : block_translator) : Prop := {
  rf_translated : translated b' = true;
  rf_id : id b' = id b;
  rf_kb : kb b' = kb b;
  rf_split : split_end_pc b' = split_end_pc b;
  rf_can : can_split b' = can_split b;
  rf_targets : targets_ok (ls b');
  rf_ok : first_ok (start_pc b) = true -> start_pc b < end_pc b';
  rf_bad : first_ok (start_pc b) = false -> end_pc b' = end_pc b /\ unfollowed (ls b')
}.

Lemma label_unfollowed start :
  unfollowed [{| native_pc := start; length_ := 0; oper := OLabel; mangled := true;
                 cond_cti_fall_through := false; in_policy := no_policy |}].
Proof. by constructor. Qed.

Lemma run_total b : end_pc b <> start_pc b -> exists b', run_ N b = Ret b' /\ run_facts b b'.
Proof.
  intros Hne. unfold run, decode. set (p := start_pc b) in *.
  set (s0 := {| ds_ls := _; ds_end_pc := end_pc b; ds_num := 0; ds_xmm := _ |}).
  assert (Ht0 : targets_ok (ds_ls s0)) by (constructor; [by intros ? ? ?|constructor]).
  assert (Hd : exists s' e, decode_loop_ N (end_pc b) p s0 = Ret (s', e) /\ targets_ok (ds_ls s' ++ trailing e) /\
    (first_ok p = true -> p < ds_end_pc s') /\
    (first_ok p = false -> ds_end_pc s' = end_pc b /\ unfollowed (ds_ls s' ++ trailing e))).
  { destruct (decode_loop_ends N (end_pc b) p s0 (nat_ends _ _ Hnat p) Ht0) as (s' & e & E & T & C).
    exists s', e. split; [done|]. split; [done|]. split.
    - intros Hf. destruct C as [[[?|?] _]|?]; [done|congruence|done].
    - intros Hf. pose proof (nat_ends _ _ Hnat p) as Hen. destruct N as [|n] eqn:EN; [done|].
      destruct (decode_loop_first_bad n (end_pc b) p s0 Hf Hne (label_unfollowed p)) as (s1 & e1 & E1 & U1 & C1).
      rewrite E in E1. injection E1 as <- <-. done. }
  destruct Hd as (s' & e & -> & Ht & Hok & Hbad). cbn [mbind outcome_bind].
  eexists. split; [reflexivity|]. constructor; cbn; try done.
  - unfold kb. cbn. f_equal. rewrite !id_base. unfold Policy.in_xmm_context, access_user_data.
    destruct (negb _ && _), (_ && (_ || _)); rewrite ?id_with_flag by (split; [done|reflexivity]); done.
  - unfold targets_ok. apply Forall_map. exact Ht.
  - intros Hf. destruct (Hbad Hf) as [? ?]. split; [done|]. unfold unfollowed. by apply Forall_map.
Qed.

(** ** What is started *)
Definition covers (b : block_translator) : bool := translated b && (start_pc b <? end_pc b).

Definition started (bs : list block_translator) (k : Z * Z) : bool :=
  existsb (fun b => covers b && bool_decide (kb b = k)) bs.

Lemma started_true bs k : started bs k = true <-> exists b, b ∈ bs /\ covers b = true /\ kb b = k.
Proof.
  unfold started. rewrite existsb_exists. split; intros (b & Hin & Hb).
  - apply andb_true_iff in Hb as [? Hb%bool_decide_eq_true]. exists b. by rewrite list_elem_of_In.
  - destruct Hb as [Hc Hk]. exists b. rewrite <- list_elem_of_In, Hc. split; [done|]. by apply bool_decide_eq_true.
Qed.

Lemma started_mono bs bs' k :
  (forall b, b ∈ bs -> covers b = true -> exists b', b' ∈ bs' /\ covers b' = true /\ kb b' = kb b) ->
  started bs k = true -> started bs' k = true.
Proof.
  rewrite !started_true. intros Hs (b & Hin & Hc & <-). destruct (Hs b Hin Hc) as (b' & ? & ? & ?). eauto.
Qed.

(** The state of a block between two turns. *)
Record blk_ok (b : block_translator) : Prop := {
  bo_start : start_pc b ∈ pcs;
  bo_untranslated : translated b = false -> end_pc b = 0 /\ split_end_pc b = 0;
  bo_ok : translated b = true -> first_ok (start_pc b) = true -> start_pc b < end_pc b;
  bo_bad : translated b = true -> first_ok (start_pc b) = false -> end_pc b = 0;
  bo_split : split_end_pc b <> 0 -> translated b = true /\ can_split b = true /\ start_pc b < split_end_pc b < end_pc b
}.

Lemma blk_ok_covers b : blk_ok b -> translated b = true -> covers b = first_ok (start_pc b).
Proof.
  intros [Hs _ Hok Hbad _] Ht. unfold covers. rewrite Ht. cbn. pose proof (nat_pos _ _ Hnat _ Hs).
  destruct (first_ok (start_pc b)) eqn:E; [apply Z.ltb_lt; auto|].
  rewrite (Hbad Ht eq_refl). apply Z.ltb_ge. lia.
Qed.

(** ** Lemmas: queued blocks *)
Lemma find_loop_none start policy bs : find_loop start policy None bs = None ->
  forall b, b ∈ bs -> matches start policy b = false.
Proof.
  assert (Hsome : forall bs c, exists d, find_loop start policy (Some c) bs = Some d).
  { induction bs0 as [|b bs0 IH]; intros c; cbn [find_loop]; [eauto|]. destruct (matches _ _ _); eauto. }
  induction bs as [|b bs IH]; intros E c Hc; [by apply elem_of_nil in Hc|]. cbn [find_loop] in E.
  destruct (matches start policy b) eqn:Em.
  - destruct (Hsome bs b) as [d Hd]. congruence.
  - apply elem_of_cons in Hc as [->|Hc]; auto.
Qed.

Lemma matches_start a policy b :
  covers b = true -> kb b = (a, u_id (base_policy policy)) -> matches a policy b = true.
Proof.
  unfold covers, kb, matches, policy_eqb. intros Hc [= <- ->].
  apply andb_true_iff in Hc as [_ Hc]. rewrite Z.eqb_refl, Z.leb_refl, Hc. done.
Qed.

Definition fresh_ok (bs : list block_translator) (c : block_translator) : Prop :=
  translated c = false /\ end_pc c = 0 /\ split_end_pc c = 0 /\ can_split c = true /\
  start_pc c ∈ pcs /\ started bs (kb c) = false.

Lemma visit_branch_fresh before_ after_ self i v i' v' :
  (forall n a, followed i n = Some a -> a ∈ pcs) ->
  visit_branch_ before_ after_ self i v = (i', v') ->
  queued v' = queued v \/ exists c, queued v' = c :: queued v /\ fresh_ok (before_ ++ self :: after_) c.
Proof.
  intros Hi E. unfold visit_branch in E. destruct (followed i _) as [a|] eqn:Ef; [|injection E as <- <-; by left].
  destruct (negb _); [injection E as <- <-; by left|].
  destruct (find_block_translator _ a _) as [b|] eqn:Eb; [destruct (_ =? a); injection E as <- <-; by left|].
  injection E as <- <-. right. eexists. split; [reflexivity|]. split; [done|]. split; [done|]. split; [done|].
  split; [done|]. split; [by eapply Hi|].
  destruct (started _ _) eqn:Es; [|done]. apply started_true in Es as (b & Hin & Hc & Hk).
  pose proof (find_loop_none _ _ _ Eb b) as Hm. rewrite (matches_start a (jmp_policy i (outgoing_policy self)) b Hc Hk) in Hm.
  apply Hm. apply elem_of_app in Hin as [?|[->|?]%elem_of_cons]; rewrite elem_of_app, elem_of_cons, elem_of_app; tauto.
Qed.

Lemma visit_branches_fresh before_ after_ self l : forall v l' v',
  targets_ok l -> visit_branches_ before_ after_ self l v = (l', v') ->
  exists fresh, queued v' = fresh ++ queued v /\ Forall (fresh_ok (before_ ++ self :: after_)) fresh.
Proof.
  induction l as [|i l IH]; intros v l' v' Ht E; cbn [visit_branches] in E.
  - injection E as <- <-. by exists [].
  - apply List.Forall_cons_iff in Ht as [Hi Ht].
    destruct (visit_branch_ before_ after_ self i v) as [i1 v1] eqn:E1.
    destruct (visit_branches_ before_ after_ self l v1) as [l2 v2] eqn:E2. injection E as <- <-.
    destruct (IH v1 l2 v2 Ht E2) as (fresh & Q & F).
    destruct (visit_branch_fresh _ _ _ _ _ _ _ Hi E1) as [Q1|(c & Q1 & Hc)].
    + exists fresh. by rewrite Q, Q1.
    + exists (fresh ++ [c]). rewrite Q, Q1, <- app_assoc. split; [done|]. apply Forall_app. split; [done|]. by constructor.
Qed.

Lemma visit_unfollowed before_ after_ self l : forall v l' v',
  unfollowed l -> visit_branches_ before_ after_ self l v = (l', v') -> v' = v.
Proof.
  induction l as [|i l IH]; intros v l' v' Hu E; cbn [visit_branches] in E; [by injection E as <- <-|].
  apply List.Forall_cons_iff in Hu as [Hi Hu]. unfold visit_branch in E. rewrite Hi in E.
  destruct (visit_branches_ before_ after_ self l v) as [l2 v2] eqn:E2. injection E as <- <-. by eapply IH.
Qed.

(** ** Lemmas: a block in a turn *)

(** The bytes that splitting can still take away. *)
Definition pot (b : block_translator) : nat :=
  if can_split b && (start_pc b <? end_pc b) then Z.to_nat (end_pc b - start_pc b) else 0%nat.

(** Nothing new can come of a block: it is translated, or does not decode. *)
Definition settled (b : block_translator) : Prop := translated b = true \/ first_ok (start_pc b) = false.

Record pass_facts (before_ after_ : list block_translator) (b b' : block_translator)
    (fresh : list block_translator) : Prop := {
  pf_ok : blk_ok b';
  pf_translated : translated b' = true;
  pf_split : split_end_pc b' = 0;
  pf_kb : kb b' = kb b;
  pf_fresh : Forall (fresh_ok (before_ ++ b' :: after_)) fresh;
  pf_pot : settled b -> (pot b' <= pot b)%nat /\ (split_end_pc b <> 0 -> (pot b' < pot b)%nat) /\
             (split_end_pc b = 0 -> fresh = [])
}.

Lemma started_with_ls before_ after_ b l k :
  started (before_ ++ with_ls l b :: after_) k = started (before_ ++ b :: after_) k.
Proof. unfold started. rewrite !existsb_app. done. Qed.

Lemma pass_block_facts before_ after_ b v :
  queued v = [] -> blk_ok b ->
  exists b' v', pass_block_ N before_ after_ b v = Ret (b', v') /\ pass_facts before_ after_ b b' (queued v').
Proof.
  intros Hq Hb. pose proof Hb as [Hs Hun Hok Hbad Hsp]. unfold pass_block.
  pose proof (nat_pos _ _ Hnat _ Hs) as Hpos.
  set (b0 := if split_end_pc b =? 0 then b else with_split_end 0 (reinitialise_for_split b)).
  assert (Hb0 : start_pc b0 = start_pc b /\ kb b0 = kb b /\ can_split b0 = can_split b /\ split_end_pc b0 = 0 /\
    (translated b0 = true -> b0 = b /\ split_end_pc b = 0) /\
    (translated b0 = false -> end_pc b0 = split_end_pc b /\ end_pc b0 <> start_pc b) /\
    (split_end_pc b = 0 -> translated b0 = translated b)).
  { unfold b0. destruct (Z.eqb_spec (split_end_pc b) 0) as [E|E].
    - do 3 (split; [done|]). split; [done|]. split; [done|]. split; [|done].
      intros Ht. destruct (Hun Ht) as [-> ->]. split; [done|lia].
    - do 4 (split; [done|]). split; [done|]. split; [|done]. intros _. cbn. split; [done|]. destruct (Hsp E). lia. }
  destruct Hb0 as (S0 & K0 & C0 & Sp0 & T0 & U0 & N0). clearbody b0.
  destruct (translated b0) eqn:Et.
  { destruct (T0 eq_refl) as [-> E]. exists b, v. rewrite Hq. split; [done|]. by constructor. }
  destruct (U0 eq_refl) as [E0 Hne]. rewrite <- S0 in Hne.
  destruct (run_total b0 Hne) as (b1 & -> & [T1 I1 K1 Sp1 C1 Ht1 Ok1 Bad1]). cbn [mbind outcome_bind].
  assert (S1 : start_pc b1 = start_pc b) by (unfold kb in K0, K1; congruence).
  rewrite S0 in Ok1, Bad1.
  set (b2 := if negb (split_end_pc b =? 0) && negb (end_pc b1 =? split_end_pc b) then _ else b1).
  assert (Hb2 : start_pc b2 = start_pc b /\ kb b2 = kb b /\ end_pc b2 = end_pc b1 /\ translated b2 = true /\
    split_end_pc b2 = 0 /\ ls b2 = ls b1 /\
    can_split b2 = (if negb (split_end_pc b =? 0) && negb (end_pc b1 =? split_end_pc b) then false else can_split b)).
  { unfold b2. destruct (negb _ && negb _); cbn; rewrite ?S1, ?Sp1, ?C1; (split; [done|]);
      (split; [congruence || (unfold kb in *; cbn; congruence)|]); done. }
  destruct Hb2 as (S2 & K2 & E2 & T2 & Sp2 & L2 & C2). clearbody b2.
  destruct (visit_branches_ before_ after_ b2 (ls b2) v) as [l v2] eqn:Ev. exists (with_ls l b2), v2. split; [done|].
  rewrite L2 in Ev. destruct (visit_branches_fresh _ _ _ _ _ _ _ Ht1 Ev) as (fresh & Q & F).
  rewrite Hq, app_nil_r in Q. rewrite Q.
  assert (Hendbad : first_ok (start_pc b) = false -> split_end_pc b = 0).
  { intros Hf. destruct (decide (split_end_pc b = 0)) as [|Hs0]; [done|]. destruct (Hsp Hs0) as (Htr & _ & ?).
    rewrite (Hbad Htr Hf) in *. lia. }
  constructor; cbn; try done.
  - constructor; cbn; try (rewrite S2); try (rewrite E2); try done; [intros; congruence|].
    intros _ Hf. destruct (Bad1 Hf) as [-> _]. rewrite E0. by apply Hendbad.
  - eapply List.Forall_impl; [|exact F]. intros c (? & ? & ? & ? & ? & ?). unfold fresh_ok. rewrite started_with_ls. done.
  - intros Hset. unfold pot. cbn. rewrite S2, E2, C2.
    destruct (Z.eqb_spec (split_end_pc b) 0) as [Es|Es]; cbn [negb andb].
    + assert (Hbadb : first_ok (start_pc b) = false).
      { destruct Hset as [Htr|]; [|done]. rewrite <- (N0 Es) in Htr. discriminate Htr. }
      destruct (Bad1 Hbadb) as [-> Hu]. rewrite E0, Es. split; [|split; [done|]].
      * rewrite (proj2 (Z.ltb_ge (start_pc b) 0)) by lia. rewrite andb_false_r. lia.
      * intros _. apply (visit_unfollowed _ _ _ _ _ _ _ Hu) in Ev. subst v2. by rewrite Hq in Q.
    + destruct (Hsp Es) as (Htr & Hc & Hlt). rewrite Hc. cbn [andb].
      rewrite (proj2 (Z.ltb_lt (start_pc b) (end_pc b))) by lia.
      destruct (Z.eqb_spec (end_pc b1) (split_end_pc b)) as [Ee|Ee]; cbn [negb andb].
      * rewrite Ee. rewrite (proj2 (Z.ltb_lt _ _)) by lia. split; [lia|]. split; [lia|done].
      * split; [lia|]. split; [lia|done].
Qed.

(** ** Lemmas: a turn *)
Definition pots (bs : list block_translator) : nat := sum_list_with pot bs.

Lemma pots_app bs bs' : pots (bs ++ bs') = (pots bs + pots bs')%nat.
Proof. unfold pots. by rewrite sum_list_with_app. Qed.

Lemma fresh_blk_ok bs c : fresh_ok bs c -> blk_ok c.
Proof. intros (T & E & S & C & P & _). constructor; try done; congruence. Qed.

Lemma fresh_pot bs c : fresh_ok bs c -> pot c = 0%nat.
Proof.
  intros (_ & E & _ & C & P & _). unfold pot. rewrite E, C. pose proof (nat_pos _ _ Hnat _ P).
  by rewrite (proj2 (Z.ltb_ge _ _)) by lia.
Qed.

Lemma fresh_pots bs cs : Forall (fresh_ok bs) cs -> pots cs = 0%nat.
Proof. induction 1 as [|c cs Hc _ IH]; [done|]. cbn. fold (pots cs). rewrite IH, (fresh_pot _ _ Hc). done. Qed.

Record turn_facts (before_ after_ F : list block_translator) (ch ch' : bool) : Prop := {
  tf_ok : Forall blk_ok F;
  tf_grow : forall k, started (before_ ++ after_) k = true -> started F k = true;
  tf_only : forall k, started F k = true -> started (before_ ++ after_) k = true \/
    exists b, b ∈ after_ /\ translated b = false /\ first_ok (start_pc b) = true /\ kb b = k;
  tf_new : forall c, c ∈ F -> translated c = false -> c ∈ before_ \/ started (before_ ++ after_) (kb c) = false;
  tf_done : forall b, b ∈ after_ -> first_ok (start_pc b) = true -> started F (kb b) = true;
  tf_split : (forall c, c ∈ before_ -> split_end_pc c = 0) -> forall c, c ∈ F -> split_end_pc c = 0;
  tf_quiet : Forall settled after_ ->
    (pots F <= pots (before_ ++ after_))%nat /\
    ((exists b, b ∈ after_ /\ split_end_pc b <> 0) -> (pots F < pots (before_ ++ after_))%nat) /\
    ((forall b, b ∈ after_ -> split_end_pc b = 0) -> ch' = ch);
  tf_same : ch' = false -> ch = false /\ (all_translated before_ -> all_translated F)
}.

Lemma build_pass_facts after_ : forall before_ st ch,
  Forall blk_ok (before_ ++ after_) ->
  exists st' ch', build_pass_ N before_ after_ st ch = Ret (st', ch') /\ turn_facts before_ after_ (blocks st') ch ch'.
Proof.
  induction after_ as [|b after_ IH]; intros before_ st ch Hok; cbn [build_pass].
  - eexists _, _. split; [done|]. cbn. rewrite app_nil_r in Hok.
    constructor; rewrite ?app_nil_r; auto; try (by intros b ?%elem_of_nil).
    intros _. split; [done|]. split; [|done]. intros (b & Hb & _). by apply elem_of_nil in Hb.
  - apply Forall_app in Hok as [Hokb Hok]. apply List.Forall_cons_iff in Hok as [Hb Hoka].
    destruct (pass_block_facts before_ after_ b
      {| next_id := ts_next_id st; num_fall_throughs := ts_fall_throughs st; queued := [] |} eq_refl Hb)
      as (b' & v' & -> & [Bok Bt Bs Bk Bf Bp]). cbn [mbind outcome_bind].
    set (fresh := queued v') in *. set (bef := before_ ++ b' :: fresh).
    match goal with |- context [build_pass_ N bef after_ ?s ?c] => destruct (IH bef s c) as (st' & ch' & E & T) end.
    { unfold bef. rewrite <- app_assoc. apply Forall_app. split; [done|]. cbn. constructor; [done|].
      apply Forall_app. split; [|done]. eapply List.Forall_impl; [|exact Bf]. apply fresh_blk_ok. }
    exists st', ch'. split; [exact E|]. clear E. destruct T as [Tok Tgrow Tonly Tnew Tdone Tsplit Tquiet Tsame].
    assert (Hb'cov : covers b' = first_ok (start_pc b)).
    { rewrite blk_ok_covers by done. by injection Bk as -> _. }
    assert (Hgrow : forall k, started (before_ ++ b :: after_) k = true -> started (bef ++ after_) k = true).
    { intros k. apply started_mono. intros c Hc Hcov. unfold bef.
      apply elem_of_app in Hc as [Hc|[->|Hc]%elem_of_cons].
      - exists c. rewrite !elem_of_app. auto.
      - exists b'. split; [rewrite !elem_of_app, elem_of_cons; auto|]. split; [|done].
        rewrite Hb'cov. rewrite <- blk_ok_covers; [done|done|]. by apply andb_true_iff in Hcov as [? _].
      - exists c. rewrite !elem_of_app. auto. }
    assert (Hunfresh : forall c, c ∈ fresh -> covers c = false).
    { intros c Hc. rewrite Forall_forall in Bf. destruct (Bf c Hc) as (Htc & _). unfold covers. by rewrite Htc. }
    assert (Honly : forall k, started (bef ++ after_) k = true -> started (before_ ++ b :: after_) k = true \/
      (translated b = false /\ first_ok (start_pc b) = true /\ kb b = k)).
    { intros k Hk. apply started_true in Hk as (c & Hc & Hcov & <-). unfold bef in Hc.
      rewrite <- app_assoc in Hc. apply elem_of_app in Hc as [Hc|Hc].
      - left. apply started_true. exists c. rewrite elem_of_app. auto.
      - cbn in Hc. apply elem_of_cons in Hc as [->|Hc].
        + rewrite Hb'cov in Hcov. destruct (translated b) eqn:Etb; [|right; by rewrite Bk].
          left. apply started_true. exists b. rewrite elem_of_app, elem_of_cons, blk_ok_covers by done. auto.
        + apply elem_of_app in Hc as [Hc|Hc]; [by rewrite Hunfresh in Hcov|].
          left. apply started_true. exists c. rewrite elem_of_app, elem_of_cons. auto. }
    constructor.
    + done.
    + auto.
    + intros k Hk. apply Tonly in Hk as [Hk|(c & Hc & ?)]; [|right; exists c; rewrite elem_of_cons; auto].
      apply Honly in Hk as [Hk|?]; [by left|]. right. exists b. rewrite elem_of_cons. auto.
    + intros c Hc Htc. apply (Tnew c Hc) in Htc as Hcase.
      destruct (started (before_ ++ b :: after_) (kb c)) eqn:Es; [|by right]. left.
      destruct Hcase as [Hin|Hn]; [|by rewrite (Hgrow _ Es) in Hn].
      unfold bef in Hin. apply elem_of_app in Hin as [?|[->|Hin]%elem_of_cons]; [done|congruence|].
      exfalso. rewrite Forall_forall in Bf. destruct (Bf c Hin) as (_ & _ & _ & _ & _ & Hns).
      apply started_true in Es as (d & Hd & Hcov & Hkd).
      assert (Hs : started (before_ ++ b' :: after_) (kb c) = true).
      { apply started_true. apply elem_of_app in Hd as [Hd|[->|Hd]%elem_of_cons].
        - exists d. rewrite elem_of_app. auto.
        - exists b'. rewrite elem_of_app, elem_of_cons, Hb'cov, Bk. split; [auto|]. split; [|done].
          rewrite <- blk_ok_covers; [done|done|]. by apply andb_true_iff in Hcov as [? _].
        - exists d. rewrite elem_of_app, elem_of_cons. auto. }
      congruence.
    + intros c [->|Hc]%elem_of_cons Hf; [|by apply Tdone]. apply Tgrow. apply started_true. exists b'.
      rewrite Hb'cov, Bk. split; [|done]. unfold bef. rewrite !elem_of_app, elem_of_cons. auto.
    + intros Hsb. apply Tsplit. intros c Hc. unfold bef in Hc.
      apply elem_of_app in Hc as [?|[->|Hc]%elem_of_cons]; [auto|done|].
      rewrite Forall_forall in Bf. by destruct (Bf c Hc) as (_ & _ & ? & _).
    + intros Hset. apply List.Forall_cons_iff in Hset as [Hsb Hset].
      destruct (Bp Hsb) as (P1 & P2 & P3). destruct (Tquiet Hset) as (Q1 & Q2 & Q3).
      assert (Hp : (pots (bef ++ after_) + pot b = pots (before_ ++ b :: after_) + pot b')%nat).
      { unfold bef. rewrite !pots_app. cbn. fold (pots fresh) (pots after_). rewrite (fresh_pots _ _ Bf). lia. }
      split; [lia|]. split.
      * intros (c & [->|Hc]%elem_of_cons & Hcs); [specialize (P2 Hcs); lia|].
        specialize (Q2 ltac:(eauto)). lia.
      * intros Hall. rewrite Q3 by (intros; apply Hall; rewrite elem_of_cons; auto).
        rewrite P3 by (apply Hall; rewrite elem_of_cons; auto). by destruct ch.
    + intros ->. destruct (Tsame eq_refl) as [Hch Hall]. apply orb_false_iff in Hch as [-> Hch].
      split; [done|]. intros Hbef. apply Hall. unfold bef. destruct fresh; [|done].
      apply Forall_app. split; [done|]. by constructor.
Qed.

(** ** Lemmas: linking *)
Definition same_cover (b b' : block_translator) : Prop :=
  blk_ok b' /\ translated b' = true /\ covers b' = covers b /\ kb b' = kb b /\ pot b' = pot b.

Lemma started_same bs bs' k : Forall2 same_cover bs bs' -> started bs' k = started bs k.
Proof.
  unfold started. induction 1 as [|b b' bs bs' (_ & _ & Hc & Hk & _) _ IH]; [done|]. cbn. by rewrite Hc, Hk, IH.
Qed.

Lemma pots_same bs bs' : Forall2 same_cover bs bs' -> pots bs' = pots bs.
Proof. induction 1 as [|b b' bs bs' (_ & _ & _ & _ & Hp) _ IH]; [done|]. cbn. fold (pots bs) (pots bs'). lia. Qed.

Lemma same_cover_refl bs : Forall blk_ok bs -> all_translated bs -> Forall2 same_cover bs bs.
Proof.
  intros Hok Ht. induction bs as [|b bs IH]; [constructor|].
  apply List.Forall_cons_iff in Hok as [? ?], Ht as [? ?]. constructor; [done|auto].
Qed.

Lemma blk_ok_with_ls l b : blk_ok b -> blk_ok (with_ls l b).
Proof. intros []. by constructor. Qed.

Lemma same_cover_trans xs ys zs : Forall2 same_cover xs ys -> Forall2 same_cover ys zs -> Forall2 same_cover xs zs.
Proof.
  intros Hxy. revert zs. induction Hxy as [|x y xs ys (? & ? & Ec & Ek & Ep) _ IH]; intros zs Hyz;
    inversion Hyz as [|? z ? zs' (Ok & T & Ec' & Ek' & Ep') Hz]; subst; constructor; [|auto].
  split; [done|]. split; [done|]. split; [congruence|]. split; congruence.
Qed.

Lemma same_cover_ok xs ys : Forall2 same_cover xs ys -> Forall blk_ok ys /\ all_translated ys.
Proof.
  unfold all_translated. induction 1 as [|x y xs ys (? & ? & _) _ [IH1 IH2]]; [by split|]. split; by constructor.
Qed.

Lemma same_id bs c d : NoDup (map id bs) -> c ∈ bs -> d ∈ bs -> id c = id d -> c = d.
Proof.
  intros Hnd Hc Hd E. apply elem_of_Permutation in Hc as [l Hl]. rewrite Hl in Hd.
  apply elem_of_cons in Hd as [->|Hd]; [done|]. exfalso.
  rewrite (Permutation_map id Hl) in Hnd. cbn in Hnd.
  apply NoDup_cons in Hnd as [Hin _]. apply Hin. rewrite E. apply list_elem_of_fmap. eauto.
Qed.

Lemma mark_split_same bs d pc :
  Forall blk_ok bs -> all_translated bs -> NoDup (map id bs) -> d ∈ bs -> can_split d = true ->
  start_pc d < pc < end_pc d ->
  Forall2 same_cover bs (mark_split (id d) pc bs) /\ exists b, b ∈ mark_split (id d) pc bs /\ split_end_pc b <> 0.
Proof.
  intros Hok Ht Hnd Hd Hcan Hpc. unfold mark_split. split.
  - apply Forall2_fmap_r, Forall_Forall2_diag, Forall_forall. intros c Hc.
    unfold all_translated in Ht. rewrite Forall_forall in Hok, Ht.
    pose proof (Hok c Hc) as Hcok. specialize (Ht c Hc). unfold compose.
    destruct (decide (id c = id d)) as [E|]; [|by split]. rewrite (same_id bs c d) by done.
    rewrite (same_id bs c d) in Hcok, Ht by done.
    split; [|done]. destruct Hcok. constructor; cbn; try done. intros Hx. by rewrite Hx in Ht.
  - exists (with_split_end pc d). split; [|cbn].
    + apply list_elem_of_fmap. exists d. by rewrite decide_True.
    + rewrite Forall_forall in Hok. pose proof (nat_pos _ _ Hnat _ (bo_start _ (Hok d Hd))). lia.
Qed.

Lemma fixup_facts lo hi after_ : forall before_ bs' sp,
  Forall blk_ok (before_ ++ after_) -> all_translated (before_ ++ after_) -> NoDup (map id (before_ ++ after_)) ->
  (forall b, b ∈ before_ ++ after_ -> split_end_pc b = 0) ->
  fixup_pass lo hi before_ after_ = (bs', sp) ->
  Forall2 same_cover (before_ ++ after_) bs' /\ (sp = true -> exists b, b ∈ bs' /\ split_end_pc b <> 0).
Proof.
  induction after_ as [|b after_ IH]; intros before_ bs' sp Hok Ht Hnd Hs E; cbn [fixup_pass] in E.
  - injection E as <- <-. rewrite app_nil_r in *. split; [by apply same_cover_refl|done].
  - pose proof (fixup_branches_retarget find_detach_target code_cache_lookup (before_ ++ b :: after_) lo hi
      (outgoing_policy b) (ls b)) as Hf.
    assert (Hlink : forall l, Forall2 same_cover (before_ ++ b :: after_) (before_ ++ with_ls l b :: after_)).
    { intros l. apply Forall_app in Hok as [Ha Hb], Ht as [Ta Tb]. apply List.Forall_cons_iff in Hb as [Hb1 Hb2], Tb as [Tb1 Tb2].
      apply Forall2_app; [by apply same_cover_refl|]. constructor; [|by apply same_cover_refl].
      split; [by apply blk_ok_with_ls|]. done. }
    assert (Hnd' : forall l, NoDup (map id (before_ ++ with_ls l b :: after_))) by (intros l; rewrite map_app in *; done).
    assert (Hin : forall l d, d ∈ before_ ++ b :: after_ -> exists d', d' ∈ before_ ++ with_ls l b :: after_ /\
      id d' = id d /\ can_split d' = can_split d /\ start_pc d' = start_pc d /\ end_pc d' = end_pc d).
    { intros l d Hd. apply elem_of_app in Hd as [Hd|[->|Hd]%elem_of_cons];
        [exists d|exists (with_ls l b)|exists d]; (split; [rewrite elem_of_app, elem_of_cons; auto|done]). }
    destruct (fixup_branches _ lo hi _ _) as [l|l m pc]; destruct (same_cover_ok _ _ (Hlink l)) as [Hok' Ht'].
    + assert (Ea : forall x, before_ ++ x :: after_ = (before_ ++ [x]) ++ after_) by (intros; by rewrite <- app_assoc).
      specialize (Hnd' l). rewrite Ea in Hok', Ht', Hnd'. apply IH in E as [E1 E2]; try done.
      * split; [|done]. rewrite <- Ea in E1. by eapply same_cover_trans.
      * rewrite <- Ea. intros c Hc.
        apply elem_of_app in Hc as [Hc|[->|Hc]%elem_of_cons];
          [apply Hs|apply (Hs b)|apply Hs]; rewrite elem_of_app, elem_of_cons; auto.
    + destruct Hf as [_ (d & Hd & <- & Hcan & Hpc)]. injection E as <- <-. specialize (Hpc (Hs d Hd)).
      destruct (Hin l d Hd) as (d' & Hd' & <- & Ec & Es & Ee).
      destruct (mark_split_same _ d' pc Hok' Ht' (Hnd' l) Hd') as [M1 M2]; [congruence|lia|].
      split; [by eapply same_cover_trans|done].
Qed.

(** ** The measure *)

(** The pairs that a block can start with. *)
Definition pairs : list (Z * Z) :=
  a ← elements pcs; (fun i => (a, i)) <$> seqZ 0 MAX_NUM_POLICY_IDS.

Definition unstarted (bs : list block_translator) : nat :=
  length (filter (fun k => started bs k = false) pairs).

(** Some block is queued for a pair that already starts a block. *)
Definition again (bs : list block_translator) : nat :=
  if existsb (fun b => negb (translated b) && first_ok (start_pc b) && started bs (kb b)) bs then 1 else 0.

Definition settled_for_now (bs : list block_translator) : nat :=
  if existsb (fun b => negb (split_end_pc b =? 0)) bs then 0 else 1.

Definition measure (bs : list block_translator) : nat * (nat * (nat * nat)) :=
  (unstarted bs, (again bs, (pots bs, settled_for_now bs))).

Definition smaller : nat * (nat * (nat * nat)) -> nat * (nat * (nat * nat)) -> Prop :=
  slexprod _ _ lt (slexprod _ _ lt (slexprod _ _ lt lt)).

Lemma smaller_wf : well_founded smaller.
Proof. repeat apply wf_slexprod; apply lt_wf. Qed.

Lemma kb_pairs b : blk_ok b -> kb b ∈ pairs.
Proof.
  intros Hb. unfold pairs, kb. apply list_elem_of_bind. exists (start_pc b). split.
  - apply list_elem_of_fmap. eexists. split; [done|]. apply elem_of_seqZ.
    pose proof (id_range (base_policy (incoming_policy b))). lia.
  - apply elem_of_elements, Hb.
Qed.

Lemma smaller_intro a a' b b' c c' d d' :
  (a < a' \/ a = a' /\ (b < b' \/ b = b' /\ (c < c' \/ c = c' /\ d < d')))%nat -> smaller (a, (b, (c, d))) (a', (b', (c', d'))).
Proof.
  unfold smaller. intros [?|(-> & [?|(-> & [?|(-> & ?)])])].
  - by apply left_slex.
  - by apply right_slex, left_slex.
  - by apply right_slex, right_slex, left_slex.
  - by apply right_slex, right_slex, right_slex.
Qed.

Lemma filter_fewer {A} (f g : A -> bool) l :
  (forall x, f x = true -> g x = true) ->
  (length (filter (fun x => g x = false) l) <= length (filter (fun x => f x = false) l))%nat /\
  forall x, x ∈ l -> f x = false -> g x = true ->
    (length (filter (fun x => g x = false) l) < length (filter (fun x => f x = false) l))%nat.
Proof.
  intros Hfg. induction l as [|y l [IH1 IH2]]; [split; [done|by intros x ?%elem_of_nil]|].
  rewrite !filter_cons. destruct (decide (f y = false)) as [Ef|Ef], (decide (g y = false)) as [Eg|Eg]; cbn [length].
  - split; [lia|]. intros x [->|Hx]%elem_of_cons Hf Hg; [congruence|]. specialize (IH2 x Hx Hf Hg). lia.
  - split; [lia|]. intros; lia.
  - exfalso. apply not_false_is_true, Hfg in Ef. congruence.
  - split; [done|]. intros x [->|Hx]%elem_of_cons Hf Hg; [congruence|]. by apply IH2 with x.
Qed.

Lemma existsb_false_in {A} (f : A -> bool) l : existsb f l = false <-> forall x, x ∈ l -> f x = false.
Proof.
  induction l as [|y l IH]; cbn; [split; [by intros _ x ?%elem_of_nil|done]|]. rewrite orb_false_iff, IH. split.
  - intros [? ?] x [->|?]%elem_of_cons; auto.
  - intros Hx. split; [apply Hx; by left|]. intros x ?. apply Hx. by right.
Qed.

Lemma again_zero bs : (forall b, b ∈ bs -> translated b = false -> first_ok (start_pc b) = true -> started bs (kb b) = false) ->
  again bs = 0%nat.
Proof.
  intros Hb. unfold again. destruct (existsb _ bs) eqn:E; [|done]. apply existsb_exists in E as (b & Hin & E).
  rewrite !andb_true_iff, negb_true_iff in E. destruct E as [[Ht Hf] Hs]. rewrite <- list_elem_of_In in Hin.
  rewrite (Hb b) in Hs; done.
Qed.

(** Where a turn ends: after the pass over the blocks if it queued any, and
    otherwise after linking them. *)
Definition smaller_than (bs bs' : list block_translator) : Prop := smaller (measure bs') (measure bs).

Lemma turn_smaller bs F bs' ch (more : bool) :
  Forall blk_ok bs -> turn_facts [] bs F false ch ->
  (forall k, started bs' k = started F k) -> pots bs' = pots F ->
  (ch = true /\ bs' = F \/
   ch = false /\ all_translated bs' /\ (more = true -> exists b, b ∈ bs' /\ split_end_pc b <> 0)) ->
  more = true -> smaller_than bs bs'.
Proof.
  intros Hok [_ Tgrow Tonly Tnew Tdone _ Tquiet _] Hst Hp Hend Hmore. cbn [app] in *.
  apply smaller_intro.
  destruct (filter_fewer (started bs) (started bs') pairs) as [Hle Hlt]; [intros k; rewrite Hst; apply Tgrow|].
  fold (unstarted bs) (unstarted bs') in Hle, Hlt.
  destruct (existsb (fun b => negb (translated b) && first_ok (start_pc b) && negb (started bs (kb b))) bs) eqn:Ea.
  { left. apply existsb_exists in Ea as (b & Hin & Eb). rewrite !andb_true_iff, !negb_true_iff in Eb.
    destruct Eb as [[Hun Hf] Hs]. rewrite <- list_elem_of_In in Hin. apply (Hlt (kb b)); [|done|].
    - apply kb_pairs. rewrite Forall_forall in Hok. auto.
    - rewrite Hst. by apply Tdone. }
  rewrite existsb_false_in in Ea.
  assert (Hnot : forall b, b ∈ bs -> translated b = false -> first_ok (start_pc b) = true -> started bs (kb b) = true).
  { intros b Hb Hun Hf. specialize (Ea b Hb). rewrite Hun, Hf in Ea. by apply negb_false_iff. }
  assert (Hsame : forall k, started bs' k = true -> started bs k = true).
  { intros k. rewrite Hst. intros [?|(b & Hb & Hun & Hf & <-)]%Tonly; [done|auto]. }
  right. split.
  { destruct (filter_fewer (started bs') (started bs) pairs Hsame) as [Hge _].
    fold (unstarted bs) (unstarted bs') in Hge. lia. }
  rewrite (again_zero bs').
  2: { destruct Hend as [[_ ->]|(_ & Hall & _)].
       - intros c Hc Htc _. destruct (Tnew c Hc Htc) as [?%elem_of_nil|Hn]; [done|].
         destruct (started F (kb c)) eqn:Es; [|done]. rewrite Hsame in Hn by done. done.
       - intros c Hc Htc. unfold all_translated in Hall. rewrite Forall_forall in Hall. rewrite Hall in Htc; done. }
  unfold again. destruct (existsb _ bs) eqn:Eg; [left; lia|]. right. split; [done|]. rewrite existsb_false_in in Eg.
  destruct Tquiet as (Q1 & Q2 & Q3).
  { apply Forall_forall. intros b Hb. unfold settled. destruct (translated b) eqn:Ht; [by left|].
    destruct (first_ok (start_pc b)) eqn:Hf; [|by right]. specialize (Eg b Hb).
    rewrite Ht, Hf, (Hnot b) in Eg by done. done. }
  rewrite Hp. unfold settled_for_now.
  destruct (existsb (fun b => negb (split_end_pc b =? 0)) bs) eqn:Es.
  - left. apply Q2. apply existsb_exists in Es as (b & Hin & Eb). exists b. rewrite list_elem_of_In.
    split; [done|]. by apply Z.eqb_neq, negb_true_iff.
  - rewrite existsb_false_in in Es. destruct Hend as [[Hch _]|(_ & _ & Hsp)].
    + rewrite Q3 in Hch; [done|]. intros b Hb. specialize (Es b Hb). by apply negb_false_iff, Z.eqb_eq in Es.
    + destruct (Hsp Hmore) as (b & Hb & Hne).
      rewrite (proj2 (existsb_exists _ bs')); [lia|]. exists b. rewrite <- list_elem_of_In. split; [done|].
      by apply negb_true_iff, Z.eqb_neq.
Qed.

(** ** The loop ends *)
Hypothesis cache_jumps : forall p k a len,
  fetch p = D_cti k (Some a) len -> is_cache_or_wrapper a = true -> k = JMP.

Abbreviation inv_ := (inv fetch find_detach_target code_cache_lookup).

Lemma build_step_facts st :
  Forall blk_ok (blocks st) -> inv_ (blocks st) (ts_next_id st) ->
  exists st' more, build_step_ N st = Ret (st', more) /\ Forall blk_ok (blocks st') /\
    inv_ (blocks st') (ts_next_id st') /\ (more = true -> smaller_than (blocks st) (blocks st')).
Proof.
  intros Hok Hinv. destruct (build_pass_facts (blocks st) [] st false Hok) as (st1 & ch & E & T).
  assert (Hstep : exists st' more, build_step_ N st = Ret (st', more) /\ Forall blk_ok (blocks st') /\
    (more = true -> smaller_than (blocks st) (blocks st'))).
  2: { destruct Hstep as (st' & more & Es & Hok' & Hm). exists st', more. split; [done|]. split; [done|].
       split; [|done]. eapply build_step_inv in Es; [|done..]. apply Es. }
  unfold build_step. rewrite E. cbn [mbind outcome_bind]. destruct ch.
  - exists st1, true. split; [done|]. split; [apply T|]. apply (turn_smaller _ (blocks st1) _ true); auto.
  - destruct (build_pass_inv _ _ _ _ _ _ _ _ cache_jumps N (blocks st) [] st false st1 false Hinv E) as ([Hnd _ _] & _ & Hc).
    destruct (Hc eq_refl) as [_ Hall]. specialize (Hall ltac:(constructor)).
    destruct (fixup_pass _ _ _ _) as [bs' sp] eqn:Ef. exists (with_blocks bs' st1), sp. split; [done|]. cbn [with_blocks blocks].
    destruct (fixup_facts (trace_min_pc st1) (trace_max_pc st1) (blocks st1) [] bs' sp (tf_ok _ _ _ _ _ T) Hall Hnd) as [F2 Hsp].
    { apply (tf_split _ _ _ _ _ T). by intros c ?%elem_of_nil. }
    { done. }
    cbn [app] in F2. destruct (same_cover_ok _ _ F2) as [Hok' Hall']. split; [done|].
    apply (turn_smaller _ (blocks st1) _ false); auto using pots_same.
    intros k. by apply started_same.
Qed.

Lemma build_ends st :
  Forall blk_ok (blocks st) -> inv_ (blocks st) (ts_next_id st) -> exists turns st', build_ turns N st = Ret st'.
Proof.
  remember (measure (blocks st)) as m eqn:Em. revert st Em.
  induction m as [m IH] using (well_founded_induction smaller_wf). intros st -> Hok Hinv.
  destruct (build_step_facts st Hok Hinv) as (st1 & more & E & Hok1 & Hinv1 & Hm). destruct more.
  - destruct (IH (measure (blocks st1)) (Hm eq_refl) st1 eq_refl Hok1 Hinv1) as (turns & st' & Et).
    exists (S turns), st'. cbn [build]. rewrite E. exact Et.
  - exists 1%nat, st1. cbn [build]. by rewrite E.
Qed.

Lemma build_from_start policy start :
  start ∈ pcs -> exists turns st, build_ turns N (initial_trace policy start) = Ret st.
Proof.
  intros Hs. apply build_ends.
  - constructor; [|constructor]. constructor; cbn; try done.
  - constructor; cbn.
    + apply NoDup_singleton.
    + intros b Hb%list_elem_of_singleton. subst b. cbn. lia.
    + intros b Hb%list_elem_of_singleton. by subst b.
Qed.

(** More turns change nothing. *)
Lemma build_mono turns turns' fuel : forall st st',
  (turns <= turns')%nat -> build_ turns fuel st = Ret st' -> build_ turns' fuel st = Ret st'.
Proof.
  revert turns'. induction turns as [|turns IH]; intros turns' st st' Hle E; cbn [build] in E; [done|].
  destruct turns' as [|turns']; [lia|]. cbn [build].
  destruct (build_step_ fuel st) as [[st1 [|]]| |]; cbn in *; try done. apply IH; [lia|done].
Qed.

(** ** Theorems *)

(** C21 The loop that builds a trace ends: for native code in which
    straight-line runs end and branch targets are among finitely many
    addresses, some number of turns completes the trace, and any larger
    number gives the same one. *)
Theorem trace_building_ends policy start :
  start ∈ pcs ->
  exists turns st, forall turns', (turns <= turns')%nat -> build_ turns' N (initial_trace policy start) = Ret st.
Proof.
  intros Hs. destruct (build_from_start policy start Hs) as (turns & st & E). exists turns, st. intros turns' Hle.
  by apply (build_mono turns).
Qed.

Context {M : Type} (effect : Z -> M -> M) (condition : Z -> M -> bool * M).
Hypothesis nop_effect : forall p len mv sse m, fetch p = D_other len true mv sse -> effect p m = m.
Hypothesis cond_direct : forall p k len, conditional k -> fetch p <> D_cti k None len.

(** C1 The trace that is built from a native address has an entry, and however
    far the emitted code runs from there, on any machine state, it is not
    stuck and the native code, run from that address, reaches the same
    machine state: at the instruction that the rest of the emitted code
    stands for while control is in the trace, and at the same branch, call,
    return or native address where control leaves it. *)
Theorem trace_follows_native policy start :
  start ∈ pcs ->
  exists turns st entry, build_ turns N (initial_trace policy start) = Ret st /\
    label_pos 0 (emit (blocks st)) = Some entry /\
    forall n m, exists res, trun effect condition n (emit (blocks st)) entry m = Some res /\
      matched fetch find_detach_target code_cache_lookup effect condition (map key (blocks st)) start m res.
Proof.
  intros Hs. destruct (build_from_start policy start Hs) as (turns & st & E).
  destruct (built_trace_follows _ _ _ _ _ _ _ _ cache_jumps effect condition nop_effect cond_direct _ _ _ _ _ E)
    as (entry & Hl & Hr). by exists turns, st, entry.
Qed.

End Term.

(** ** Witnesses: a loop back into the middle of its first block *)
Definition demo_fetch (p : Z) : decoded :=
  if p =? 100 then D_other 3 false false false
  else if p =? 103 then D_other 1 true false false
  else if p =? 104 then D_other 2 false false false
  else if p =? 106 then D_cti JCC (Some 103) 2
  else if p =? 108 then D_cti JMP (Some 100) 2
  else D_invalid.

Definition demo_pcs : gset Z := {[100; 108]}.

Ltac demo_cases p :=
  unfold demo_fetch; destruct (Z.eqb_spec p 100); [subst p|destruct (Z.eqb_spec p 103); [subst p|
    destruct (Z.eqb_spec p 104); [subst p|destruct (Z.eqb_spec p 106); [subst p|destruct (Z.eqb_spec p 108); [subst p|]]]]].

Lemma demo_native_ok : @native_ok user_config demo_fetch demo_pcs 6.
Proof.
  constructor.
  - intros p. demo_cases p; try lia.
  - intros p a len. demo_cases p; intros E; try discriminate E. injection E as <- <-. apply elem_of_union. left. by apply elem_of_singleton.
  - intros p k t len Hk. demo_cases p; intros E; try discriminate E; injection E as <- <- <-.
    + apply elem_of_union. right. by apply elem_of_singleton.
    + by destruct Hk.
  - unfold demo_pcs. intros a [->%elem_of_singleton| ->%elem_of_singleton]%elem_of_union; lia.
  - intros p. cbn [ends]. demo_cases p; try reflexivity.
Qed.

Abbreviation demo_build fetch cached turns start :=
  (build (H := user_config) fetch 0 cached (fun _ => false) (fun _ _ => 0) (fun _ => 0)
     (fun p _ => p) (fun p _ => p) turns 6 (initial_trace (from_id 1) start)).

Lemma trace_building_ends_witness :
  exists turns st, forall turns', (turns <= turns')%nat ->
    demo_build demo_fetch (fun _ => false) turns' 100 = Ret st.
Proof.
  apply (@trace_building_ends user_config demo_fetch 0 (fun _ => false) (fun _ => false) (fun _ _ => 0) (fun _ => 0)
    (fun p _ => p) (fun p _ => p) demo_pcs 6 demo_native_ok).
  - intros p k a len _ E. discriminate E.
  - apply elem_of_union. left. apply elem_of_singleton. reflexivity.
Defined.

(** Each instruction but the no-op counts; the loop is left at ten. *)
Definition demo_effect (p m : Z) : Z := if p =? 103 then m else m + 1.
Definition demo_condition (p m : Z) : bool * Z := (m <? 10, m).

Lemma trace_follows_native_witness :
  exists turns st entry, demo_build demo_fetch (fun _ => false) turns 100 = Ret st /\
    label_pos 0 (emit (blocks st)) = Some entry /\
    forall n m, exists res, trun demo_effect demo_condition n (emit (blocks st)) entry m = Some res /\
      matched (H := user_config) demo_fetch (fun _ _ => 0) (fun _ => 0) demo_effect demo_condition
        (map key (blocks st)) 100 m res.
Proof.
  apply (@trace_follows_native user_config demo_fetch 0 (fun _ => false) (fun _ => false) (fun _ _ => 0) (fun _ => 0)
    (fun p _ => p) (fun p _ => p) demo_pcs 6 demo_native_ok).
  - intros p k a len _ E. discriminate E.
  - intros p len mv sse m. unfold demo_effect. demo_cases p; intros E; try discriminate E. reflexivity.
  - intros p k len Hk. demo_cases p; intros E; try discriminate E.
  - apply elem_of_union. left. apply elem_of_singleton. reflexivity.
Defined.

(** ** Two corner cases *)

(** A split shortens a block, but its second half does not become a block: the
    jump that connects the two has no native address and is no conditional
    fall-through, so it is not followed.  Here the block at 100 is cut at 103,
    where the conditional branch at 106 goes, and neither 103 nor the branch
    is in the trace any more; the fall-through block of the branch still is. *)
Example split_drops_second_half :
  match demo_build demo_fetch (fun _ => false) 10%nat 100 with
  | Ret st => map (fun b => (start_pc b, end_pc b)) (blocks st)
  | _ => []
  end = [(100, 103); (108, 110)].
Proof. vm_compute. reflexivity. Qed.

(** A call whose target is a code cache address ends its block without a
    fall-through: when the call returns, control runs off the block. *)
Definition call_cache_fetch (p : Z) : decoded :=
  if p =? 200 then D_cti CALL (Some 500) 5 else if p =? 205 then D_cti RET None 1 else D_invalid.

Example call_to_cache_runs_off :
  match demo_build call_cache_fetch (fun a => a =? 500) 10%nat 200 with
  | Ret st =>
      let code := emit (blocks st) in
      match trun (M := unit) (fun _ m => m) (fun _ m => (false, m)) 10 code code tt with
      | Some (inr (ExCall t rest, m)) => t = TPc 500 /\ trun (fun _ m => m) (fun _ m => (false, m)) 10 code rest m = None
      | _ => False
      end
  | _ => False
  end.
Proof. vm_compute. split; reflexivity. Qed.
