(* ===== verification/Dbl.v ===== *)
(** * Linking direct branches: [granary/dbl.cc]

    A direct branch whose target is not translated yet is emitted as a branch
    to a stub.  The stub calls [patch_instruction], which has the target
    translated and overwrites the displacement of the branch, and returns to
    the translated target.  Many threads can execute the branch and the stub
    at once: the structure of the branch has a lock that is only ever tried,
    and the translated address is published in it before the displacement is
    written.

    The protocol is a step relation: each access to the lock word, to
    [translated_target_address] and to the displacement is one step, and the
    steps of the threads interleave freely; [try_acquire] and [release] are
    the steps of [SpinLock].  The store of the displacement is one step
    because the displacement lies inside a cache line ([Align]).  What
    [code_cache::find] returns is a parameter; it may differ from call to
    call.

    The theorems: all threads arrive at one translation of the target, which
    is looked up once, the branch at any time leads to the stub or to that
    translation, and no thread is kept from arriving. *)

From Stdlib Require Import ZArith Lia.
From stdpp Require Import base numbers list option gmap relations.
From S2P Require Import Prelude SpinLock.

(** ** Displacements *)
Definition signed32 (v : Z) : Z := if v <? 2 ^ 31 then v else v - 2 ^ 32.

(** The displacement that is encoded for [target] in the branch of [len]
    bytes at [pc], and where the processor goes for a displacement. *)
Definition rel32 (pc len target : Z) : Z := u32 (target - (pc + len)).
Definition cti_target (pc len disp : Z) : Z := u64 (pc + len + signed32 disp).

Lemma rel32_target pc len target :
  in_width 64 target -> - 2 ^ 31 <= target - (pc + len) < 2 ^ 31 -> cti_target pc len (rel32 pc len target) = target.
Proof.
  intros Ht Hd. unfold cti_target, rel32, signed32.
  set (d := target - (pc + len)) in *.
  assert (E : (if u32 d <? 2 ^ 31 then u32 d else u32 d - 2 ^ 32) = d).
  { unfold wrap. destruct (Z.le_gt_cases 0 d).
    - rewrite Z.mod_small by lia. by rewrite (proj2 (Z.ltb_lt _ _)) by lia.
    - rewrite <- (Z_mod_plus_full d 1), Z.mod_small by lia. rewrite (proj2 (Z.ltb_ge _ _)) by lia. lia. }
  rewrite E. unfold d. replace (pc + len + (target - (pc + len))) with target by lia. by apply wrap_small.
Qed.

(** ** The structure of a branch *)
Inductive dbl_kind := DBL_CONDITIONAL | DBL_FALL_THROUGH | DBL_UNCONDITIONAL.

(** The kind recorded by [insert_dbl_lookup_stub]. *)
Definition patch_kind (is_unconditional_cti cond_cti_fall_through : bool) : dbl_kind :=
  if is_unconditional_cti then if cond_cti_fall_through then DBL_FALL_THROUGH else DBL_UNCONDITIONAL
  else DBL_CONDITIONAL.

Section Dbl.
Context `{Config}.

(** The branch: its address and length, and the address of its stub. *)
Context (patch_address cti_len stub_pc : Z).

(** What [code_cache::find] can return for the target of the branch. *)
Context (found : Z -> Prop).

(** The shared state: the displacement in the code cache, the lock word and
    [translated_target_address].  [finds] counts the lookups. *)
Record shared := {
  disp : Z;
  lock : bool;
  translated_target_address : Z;
  finds : nat
}.

Definition with_lock (b : bool) (s : shared) : shared :=
  {| disp := disp s; lock := b; translated_target_address := translated_target_address s; finds := finds s |}.

(** Where a thread is: at the branch, in the stub, or in
    [patch_instruction]; [Arrived] is the address control goes on at. *)
Inductive point :=
  | AtCti
  | AtStub
  | Trying (t : thread)
  | Busy
  | ReadReturn
  | Owner
  | ReleaseReturn
  | Find
  | Publish (target_pc : Z)
  | SetReturn (target_pc : Z)
  | Patch (target_pc ret_address : Z)
  | Release (ret_address : Z)
  | Arrived (pc : Z).

(** The lock's operations on behalf of a thread. *)
Definition idle : thread := {| at_ := Idle; no_interrupts := false |}.
Definition holding : thread := {| at_ := Holding; no_interrupts := false |}.

Definition release (s : shared) : option shared :=
  match thread_step CallRelease (lock s) holding with
  | Some (b, _, _) => Some (with_lock b s)
  | None => None
  end.

(** One step; [target_pc] is what [code_cache::find] returns if this is the
    step that calls it. *)
Definition patch_step (target_pc : Z) (s : shared) (p : point) : option (shared * point) :=
  match p with
  | AtCti =>
      let a := cti_target patch_address cti_len (disp s) in
      Some (s, if a =? stub_pc then AtStub else Arrived a)
  | AtStub =>
      match thread_step CallTryAcquire (lock s) idle with
      | Some (b, t, _) => Some (with_lock b s, Trying t)
      | None => None
      end
  | Trying t =>
      match thread_step Continue (lock s) t with
      | Some (b, t, None) => Some (with_lock b s, Trying t)
      | Some (b, _, Some true) => Some (with_lock b s, Owner)
      | Some (b, _, Some false) => Some (with_lock b s, Busy)
      | None => None
      end
  | Busy => Some (s, if translated_target_address s =? 0 then AtStub else ReadReturn)
  | ReadReturn => Some (s, Arrived (translated_target_address s))
  | Owner => Some (s, if translated_target_address s =? 0 then Find else ReleaseReturn)
  | ReleaseReturn => s ← release s; Some (s, ReadReturn)
  | Find =>
      Some ({| disp := disp s; lock := lock s; translated_target_address := translated_target_address s;
               finds := S (finds s) |}, Publish target_pc)
  | Publish t =>
      Some ({| disp := disp s; lock := lock s; translated_target_address := t; finds := finds s |}, SetReturn t)
  | SetReturn t => Some (s, Patch t (translated_target_address s))
  | Patch t r =>
      Some ({| disp := rel32 patch_address cti_len t; lock := lock s;
               translated_target_address := translated_target_address s; finds := finds s |}, Release r)
  | Release r => s ← release s; Some (s, Arrived r)
  | Arrived _ => None
  end.

Record system := {
  sh : shared;
  points : gmap nat point
}.

Inductive sys_step (g : system) (i : nat) : system -> Prop :=
  | sys_step_intro p t s' p' :
      points g !! i = Some p -> found t -> patch_step t (sh g) p = Some (s', p') ->
      sys_step g i {| sh := s'; points := <[i := p']> (points g) |}.

(** The branch as it is emitted, and any number of threads about to execute
    it. *)
Definition start_shared : shared :=
  {| disp := rel32 patch_address cti_len stub_pc; lock := false; translated_target_address := 0; finds := 0 |}.

Definition sys_initial (g : system) : Prop :=
  sh g = start_shared /\ forall i p, points g !! i = Some p -> p = AtCti.

Inductive sys_reachable : system -> Prop :=
  | sys_reach_initial g : sys_initial g -> sys_reachable g
  | sys_reach_step g i g' : sys_reachable g -> sys_step g i g' -> sys_reachable g'.

(** ** Assumptions *)

(** In reach of a 32-bit displacement of the branch. *)
Definition in_reach (a : Z) : Prop :=
  in_width 64 a /\ - 2 ^ 31 <= a - (patch_address + cti_len) < 2 ^ 31.

Context (Hstub : in_reach stub_pc) (Hfound : forall t, found t -> in_reach t /\ t <> 0 /\ t <> stub_pc).

(** ** The invariant *)
Definition holder (p : point) : bool :=
  match p with
  | Owner | ReleaseReturn | Find | Publish _ | SetReturn _ | Patch _ _ | Release _ => true
  | _ => false
  end.

Abbreviation stub_disp := (rel32 patch_address cti_len stub_pc).
Abbreviation rel := (rel32 patch_address cti_len).

(** The branch is not resolved; it is published but not patched; it is
    patched. *)
Definition unresolved (s : shared) (n : nat) : Prop :=
  translated_target_address s = 0 /\ disp s = stub_disp /\ finds s = n.
Definition published (s : shared) (t : Z) : Prop :=
  translated_target_address s = t /\ found t /\ disp s = stub_disp /\ finds s = 1%nat.
Definition patched (s : shared) : Prop :=
  found (translated_target_address s) /\ disp s = rel (translated_target_address s) /\ finds s = 1%nat.
Definition quiet (s : shared) : Prop := unresolved s 0 \/ patched s.

Definition holder_ok (s : shared) (p : point) : Prop :=
  match p with
  | Owner => quiet s
  | ReleaseReturn => patched s
  | Find => unresolved s 0
  | Publish t => unresolved s 1 /\ found t
  | SetReturn t => published s t
  | Patch t r => published s t /\ r = t
  | Release r => patched s /\ r = translated_target_address s
  | _ => True
  end.

Definition other_ok (s : shared) (p : point) : Prop :=
  match p with
  | Trying t => at_ t = TryLoad \/ at_ t = TryXchg
  | ReadReturn => found (translated_target_address s)
  | Arrived a => found a /\ translated_target_address s = a
  | _ => True
  end.

Definition point_ok (s : shared) (p : point) : Prop :=
  if holder p then lock s = true /\ holder_ok s p else other_ok s p.

Record dbl_inv (g : system) : Prop := {
  di_points : forall i p, points g !! i = Some p -> point_ok (sh g) p;
  di_excl : forall i j p q, points g !! i = Some p -> points g !! j = Some q ->
    holder p = true -> holder q = true -> i = j;
  di_free : lock (sh g) = false -> quiet (sh g);
  di_held : lock (sh g) = true -> exists i p, points g !! i = Some p /\ holder p = true
}.

(** ** Lemmas *)
Lemma found_nonzero t : found t -> (t =? 0) = false.
Proof. intros Ht. apply Z.eqb_neq, Hfound, Ht. Qed.

Lemma with_lock_same s : with_lock (lock s) s = s.
Proof. by destruct s. Qed.

(** In every state of the shared data the branch leads to the stub or to the
    published address, which is a translation of the target. *)
Definition shared_ok (s : shared) : Prop :=
  (translated_target_address s = 0 \/ found (translated_target_address s)) /\
  (cti_target patch_address cti_len (disp s) = stub_pc \/
   (found (translated_target_address s) /\
    cti_target patch_address cti_len (disp s) = translated_target_address s)) /\
  (finds s <= 1)%nat.

Lemma unresolved_shared s n : unresolved s n -> (n <= 1)%nat -> shared_ok s.
Proof.
  intros (E0 & E & <-) Hn. split; [by left|]. split; [|done]. left. rewrite E. apply rel32_target; apply Hstub.
Qed.

Lemma published_shared s t : published s t -> shared_ok s.
Proof.
  intros (<- & Hf & E & Hn). split; [by right|]. split; [|lia]. left. rewrite E. apply rel32_target; apply Hstub.
Qed.

Lemma patched_shared s : patched s -> shared_ok s.
Proof.
  intros (Hf & E & Hn). split; [by right|]. split; [|lia]. right. split; [done|]. rewrite E.
  apply rel32_target; by apply (Hfound _ Hf).
Qed.

Lemma quiet_shared s : quiet s -> shared_ok s.
Proof. intros [Hq|Hq]; [by eapply unresolved_shared; eauto|by apply patched_shared]. Qed.

Lemma holder_shared s p : holder p = true -> holder_ok s p -> shared_ok s.
Proof.
  destruct p; cbn; try done; intros _ Hp.
  - by apply quiet_shared.
  - by apply patched_shared.
  - by eapply unresolved_shared; eauto.
  - by eapply unresolved_shared; [apply Hp|].
  - by eapply published_shared.
  - by eapply published_shared; apply Hp.
  - by apply patched_shared, Hp.
Qed.

Lemma inv_shared g : dbl_inv g -> shared_ok (sh g).
Proof.
  intros [Hp _ Hf Hh]. destruct (lock (sh g)) eqn:El; [|by apply quiet_shared, Hf].
  destruct (Hh eq_refl) as (i & p & E & Hhp). specialize (Hp i p E). unfold point_ok in Hp. rewrite Hhp in Hp.
  by eapply holder_shared; [|apply Hp].
Qed.

(** A step outside the lock leaves the shared data alone, or takes the
    lock. *)
Lemma other_step t s p s' p' :
  holder p = false -> other_ok s p -> shared_ok s -> patch_step t s p = Some (s', p') ->
  (s' = s /\ holder p' = false /\ other_ok s p') \/
  (lock s = false /\ s' = with_lock true s /\ p' = Owner).
Proof.
  intros Hh Hok (H0 & Hl & _) E. destruct p as [| |th| | | | | | | | | |a]; cbn in Hh; try done; cbn [patch_step] in E.
  - injection E as <- <-. left. split; [done|]. destruct Hl as [->|[Hf ->]].
    + by rewrite Z.eqb_refl.
    + rewrite (proj2 (Z.eqb_neq _ _)); [done|]. by apply Hfound.
  - cbn in E. injection E as <- <-. left. rewrite with_lock_same. cbn. auto.
  - cbn in Hok. unfold thread_step in E. destruct Hok as [Hok|Hok]; rewrite Hok in E; destruct (lock s) eqn:El;
      injection E as <- <-; rewrite <- El, ?with_lock_same; cbn; auto.
  - injection E as <- <-. left. split; [done|]. destruct (Z.eqb_spec (translated_target_address s) 0) as [|Hne]; [done|].
    cbn. split; [done|]. by destruct H0.
  - injection E as <- <-. left. cbn in *. auto.
Qed.

(** A step of the thread that has the lock. *)
Lemma holder_step t s p s' p' :
  holder p = true -> lock s = true -> holder_ok s p -> found t -> patch_step t s p = Some (s', p') ->
  ((holder p' = true /\ lock s' = true /\ holder_ok s' p') \/
   (holder p' = false /\ lock s' = false /\ quiet s' /\ other_ok s' p')) /\
  forall q, holder q = false -> other_ok s q -> other_ok s' q.
Proof.
  intros Hh Hl Hok Ht E. destruct p as [| | | | | | | |u|u|u r|r| ]; cbn in Hh; try done; cbn [patch_step] in E;
    cbn [holder_ok] in Hok.
  - injection E as <- <-. split; [|done]. left. destruct (Z.eqb_spec (translated_target_address s) 0) as [E0|Hne].
    + split; [done|]. split; [done|]. destruct Hok as [|(Hf & _)]; [done|]. rewrite E0 in Hf. by destruct (Hfound _ Hf) as (_ & ? & _).
    + split; [done|]. split; [done|]. by destruct Hok as [(? & _)|].
  - injection E as <- <-. split; [|done]. right. split; [done|]. split; [done|]. split; [by right|]. apply Hok.
  - injection E as <- <-. split; [|done]. left. split; [done|]. split; [done|].
    split; [|done]. destruct Hok as (? & ? & Hn). by split; [|split; [|cbn; rewrite Hn]].
  - injection E as <- <-. destruct Hok as [(H0 & Hd & Hn) Hu]. split; [left; by split|].
    intros q Hq. destruct q; cbn in *; try done; rewrite H0. intros [Hf <-].
    by destruct (Hfound _ Hf) as (_ & ? & _).
  - injection E as <- <-. split; [|done]. left. split; [done|]. split; [done|]. split; [done|]. apply Hok.
  - injection E as <- <-. destruct Hok as [(<- & Hf & Hd & Hn) ->]. split; [|done]. left. by split.
  - injection E as <- <-. destruct Hok as [Hp ->]. split; [|done]. right. split; [done|]. split; [done|].
    split; [by right|]. cbn. split; [apply Hp|done].
Qed.

Lemma sys_step_inv g i g' : sys_step g i g' -> dbl_inv g -> dbl_inv g'.
Proof.
  intros [p t s' p' Ep Ht E] Hinv. pose proof (inv_shared g Hinv) as Hsh. pose proof Hinv as [Hpts Hex Hfr Hhe].
  pose proof (Hpts i p Ep) as Hp. unfold point_ok in Hp. destruct (holder p) eqn:Hh.
  - destruct Hp as [Hl Hok]. destruct (holder_step t (sh g) p s' p' Hh Hl Hok Ht E) as [Hs Hq].
    assert (Hoth : forall j q, j <> i -> points g !! j = Some q -> holder q = false).
    { intros j q Hne Eq. destruct (holder q) eqn:Hhq; [|done]. by destruct (Hne (Hex j i q p Eq Ep Hhq Hh)). }
    constructor; cbn [sh points].
    + intros j q Eq. apply lookup_insert_Some in Eq as [[-> <-]|[Hne Eq]]; unfold point_ok.
      * destruct Hs as [(-> & ? & ?)|(-> & _ & _ & ?)]; done.
      * rewrite (Hoth j q) by done. apply Hq; [by apply (Hoth j)|]. specialize (Hpts j q Eq). unfold point_ok in Hpts.
        by rewrite (Hoth j q) in Hpts by done.
    + intros j k q r Eq Er Hq1 Hr1. apply lookup_insert_Some in Eq as [[-> <-]|[Hne Eq]], Er as [[-> <-]|[Hne' Er]]; try done.
      * by rewrite (Hoth k r) in Hr1.
      * by rewrite (Hoth j q) in Hq1.
      * by rewrite (Hoth j q) in Hq1.
    + intros Hf. destruct Hs as [(_ & ? & _)|(_ & _ & ? & _)]; [congruence|done].
    + intros Hlk. destruct Hs as [(Hp' & _)|(_ & ? & _)]; [|congruence]. exists i, p'. by rewrite lookup_insert_eq.
  - destruct (other_step t (sh g) p s' p' Hh Hp Hsh E) as [(-> & Hh' & Hok')|(Hl & -> & ->)].
    + constructor; cbn [sh points].
      * intros j q Eq. apply lookup_insert_Some in Eq as [[-> <-]|[Hne Eq]]; [|by apply Hpts with j].
        unfold point_ok. by rewrite Hh'.
      * intros j k q r Eq Er Hq1 Hr1. apply lookup_insert_Some in Eq as [[-> <-]|[Hne Eq]], Er as [[-> <-]|[Hne' Er]];
          try congruence. by eapply Hex.
      * done.
      * intros Hlk. destruct (Hhe Hlk) as (j & q & Eq & Hhq). exists j, q. split; [|done].
        rewrite lookup_insert_ne; [done|]. intros ->. congruence.
    + assert (Hno : forall j q, points g !! j = Some q -> holder q = false).
      { intros j q Eq. destruct (holder q) eqn:Hhq; [|done]. specialize (Hpts j q Eq). unfold point_ok in Hpts.
        rewrite Hhq in Hpts. destruct Hpts. congruence. }
      constructor; cbn [sh points].
      * intros j q Eq. apply lookup_insert_Some in Eq as [[-> <-]|[Hne Eq]].
        -- split; [done|]. exact (Hfr Hl).
        -- specialize (Hpts j q Eq). unfold point_ok in *. rewrite (Hno j q) in * by done. by destruct q.
      * intros j k q r Eq Er Hq1 Hr1. apply lookup_insert_Some in Eq as [[-> <-]|[Hne Eq]], Er as [[-> <-]|[Hne' Er]]; try done.
        -- by rewrite (Hno k r) in Hr1.
        -- by rewrite (Hno j q) in Hq1.
        -- by rewrite (Hno j q) in Hq1.
      * done.
      * intros _. exists i, Owner. by rewrite lookup_insert_eq.
Qed.

Lemma sys_reachable_inv g : sys_reachable g -> dbl_inv g.
Proof.
  induction 1 as [g [Hs Hp]|g i g' _ IH Hst]; [|by eapply sys_step_inv].
  constructor; rewrite ?Hs.
  - intros i p E. by rewrite (Hp i p E).
  - intros i j p q E _ Hh. by rewrite (Hp i p E) in Hh.
  - intros _. left. done.
  - done.
Qed.

Lemma nsteps_inv (P : nat -> Prop) n x y :
  nsteps (fun x y => exists k, P k /\ sys_step x k y) n x y -> dbl_inv x -> dbl_inv y.
Proof.
  induction 1 as [|n x y z (k & _ & Hxy) _ IH]; [done|]. intros Hx. apply IH. by eapply sys_step_inv.
Qed.

(** ** Running a thread on its own *)
Definition arrived (p : point) : bool := match p with Arrived _ => true | _ => false end.

Fixpoint run_solo (n : nat) (t : Z) (s : shared) (p : point) : option (shared * point) :=
  if arrived p then Some (s, p)
  else match n with
       | O => None
       | S n => r ← patch_step t s p; run_solo n t r.1 r.2
       end.

Lemma run_solo_steps i t n : forall g p s' p',
  found t -> points g !! i = Some p -> run_solo n t (sh g) p = Some (s', p') ->
  exists m, (m <= n)%nat /\
    nsteps (fun x y => sys_step x i y) m g {| sh := s'; points := <[i := p']> (points g) |}.
Proof.
  induction n as [|n IH]; intros g p s' p' Ht Ep E; cbn [run_solo] in E.
  all: destruct (arrived p).
  1,3: injection E as <- <-; exists 0%nat; (split; [lia|]); rewrite insert_id by done; destruct g; constructor.
  - done.
  - destruct (patch_step t (sh g) p) as [[s1 p1]|] eqn:E1; [|done]. cbn in E.
    set (g1 := {| sh := s1; points := <[i := p1]> (points g) |}).
    destruct (IH g1 p1 s' p' Ht) as (m & Hm & Hsteps); [apply lookup_insert_eq|done|].
    exists (S m). split; [lia|]. eapply nsteps_l; [by econstructor|]. cbn [points g1] in Hsteps.
    by rewrite insert_insert_eq in Hsteps.
Qed.

(** The thread with the lock arrives and releases it. *)
Lemma solo_holder t s p :
  found t -> holder p = true -> holder_ok s p ->
  exists s' a, run_solo 7 t s p = Some (s', Arrived a) /\ lock s' = false /\ patched s' /\ found a.
Proof.
  intros Ht Hh Hok. pose proof (found_nonzero t Ht) as Hne.
  destruct p as [| | | | | | | |u|u|u r|r| ]; cbn in Hh; try done; cbn [holder_ok] in Hok.
  - cbn. destruct Hok as [(E0 & Ed & En)|(Hf & Ed & En)].
    + rewrite E0. cbn. rewrite En. eexists _, _. split; [reflexivity|]. split; [done|]. split; [|done]. by split.
    + rewrite (found_nonzero _ Hf). cbn. eexists _, _. split; [reflexivity|]. split; [done|]. by split.
  - cbn. eexists _, _. split; [reflexivity|]. split; [done|]. split; [done|]. apply Hok.
  - destruct Hok as (E0 & Ed & En). cbn. rewrite En. eexists _, _. split; [reflexivity|]. split; [done|]. split; [|done]. by split.
  - destruct Hok as [(E0 & Ed & En) Hu]. cbn. rewrite En. eexists _, _. split; [reflexivity|]. split; [done|].
    split; [|done]. by split.
  - destruct Hok as (<- & Hf & Ed & En). cbn. eexists _, _. split; [reflexivity|]. split; [done|]. by split.
  - destruct Hok as [(<- & Hf & Ed & En) ->]. cbn. eexists _, _. split; [reflexivity|]. split; [done|]. by split.
  - destruct Hok as [Hp ->]. cbn. eexists _, _. split; [reflexivity|]. split; [done|]. split; [done|]. apply Hp.
Qed.

Lemma run_solo_mono t n k : forall s p r, (n <= k)%nat -> run_solo n t s p = Some r -> run_solo k t s p = Some r.
Proof.
  revert k. induction n as [|n IH]; intros k s p r Hk E; cbn [run_solo] in E.
  - destruct k; cbn [run_solo]; by destruct (arrived p).
  - destruct k as [|k]; [lia|]. cbn [run_solo]. destruct (arrived p); [done|].
    destruct (patch_step t s p) as [[s1 p1]|]; [|done]. cbn in *. apply IH; [lia|done].
Qed.

Lemma run_solo_S t n s p s1 p1 :
  arrived p = false -> patch_step t s p = Some (s1, p1) -> run_solo (S n) t s p = run_solo n t s1 p1.
Proof. intros Ha E. cbn [run_solo]. by rewrite Ha, E. Qed.

(** So does a thread outside the lock while the lock is free. *)
Lemma solo_owner t s :
  found t -> quiet s -> exists s' a, run_solo 7 t (with_lock true s) Owner = Some (s', Arrived a) /\ found a.
Proof.
  intros Ht Hq. destruct (solo_holder t (with_lock true s) Owner Ht eq_refl Hq) as (s' & a & ? & _ & _ & ?). eauto.
Qed.

Lemma solo_try t s th :
  found t -> lock s = false -> quiet s -> at_ th = TryLoad \/ at_ th = TryXchg ->
  exists s' a, run_solo 9 t s (Trying th) = Some (s', Arrived a) /\ found a.
Proof.
  intros Ht Hl Hq Hat. destruct (solo_owner t s Ht Hq) as (s' & a & E & Ha). exists s', a. split; [|done].
  assert (Hx : forall u, at_ u = TryXchg -> run_solo 8 t s (Trying u) = Some (s', Arrived a)).
  { intros u Hu. erewrite run_solo_S; [exact E|done|]. cbn [patch_step]. unfold thread_step. by rewrite Hu, Hl. }
  destruct Hat as [Hat|Hat]; [|by apply (run_solo_mono t 8); [lia|apply Hx]].
  erewrite run_solo_S; [|done|cbn [patch_step]; unfold thread_step; rewrite Hat, Hl; reflexivity].
  rewrite <- Hl, with_lock_same. by apply Hx.
Qed.

Lemma solo_stub t s :
  found t -> lock s = false -> quiet s -> exists s' a, run_solo 10 t s AtStub = Some (s', Arrived a) /\ found a.
Proof.
  intros Ht Hl Hq. destruct (solo_try t s {| at_ := TryLoad; no_interrupts := false |} Ht Hl Hq) as (s' & a & E & Ha); [by left|].
  exists s', a. split; [|done]. erewrite run_solo_S; [|done|reflexivity]. by rewrite with_lock_same.
Qed.

Lemma solo_free t s p :
  found t -> lock s = false -> quiet s -> holder p = false -> other_ok s p ->
  exists s' a, run_solo 11 t s p = Some (s', Arrived a) /\ found a.
Proof.
  intros Ht Hl Hq Hh Hok. pose proof (quiet_shared s Hq) as (H0 & Hlead & _).
  destruct (solo_stub t s Ht Hl Hq) as (s1 & a1 & E1 & Ha1).
  destruct p as [| |th| | | | | | | | | |a]; cbn in Hh; try done.
  - erewrite run_solo_S; [|done|reflexivity]. destruct Hlead as [->|[Hf ->]].
    + rewrite Z.eqb_refl. eauto.
    + rewrite (proj2 (Z.eqb_neq _ _)) by (by apply Hfound). cbn. eauto.
  - exists s1, a1. split; [|done]. by apply (run_solo_mono t 10); [lia|].
  - destruct (solo_try t s th Ht Hl Hq Hok) as (s' & a & E & Ha). exists s', a. split; [|done].
    by apply (run_solo_mono t 9); [lia|].
  - erewrite run_solo_S; [|done|reflexivity].
    destruct (Z.eqb_spec (translated_target_address s) 0) as [|Hne]; [eauto|]. cbn. destruct H0; [done|]. eauto.
  - cbn. eauto.
  - cbn. exists s, a. split; [done|]. apply Hok.
Qed.

(** ** Theorems *)

(** C9 Linking a branch is safe under every interleaving of any number of
    threads: all threads that get through arrive at the same address, a
    translation of the target of the branch; the code cache is asked at most
    once; the branch leads to its stub or to that translation at any time,
    and to the translation once the lock is free again; at most one thread
    is in the section that patches. *)
Theorem dbl_patch_safe g :
  sys_reachable g ->
  (forall i a, points g !! i = Some (Arrived a) -> found a /\ a = translated_target_address (sh g)) /\
  (finds (sh g) <= 1)%nat /\
  (cti_target patch_address cti_len (disp (sh g)) = stub_pc \/
   found (cti_target patch_address cti_len (disp (sh g)))) /\
  (lock (sh g) = false -> finds (sh g) = 1%nat ->
   cti_target patch_address cti_len (disp (sh g)) = translated_target_address (sh g)) /\
  (forall i j p q, points g !! i = Some p -> points g !! j = Some q -> holder p = true -> holder q = true -> i = j).
Proof.
  intros Hr. pose proof (sys_reachable_inv g Hr) as Hinv. pose proof (inv_shared g Hinv) as (H0 & Hl & Hn).
  destruct Hinv as [Hp Hex Hf _]. split; [|split; [done|split; [|split; [|done]]]].
  - intros i a E. destruct (Hp i _ E) as [? ->]. done.
  - destruct Hl as [?|[? ->]]; auto.
  - intros Hlk Hfin. destruct (Hf Hlk) as [(_ & _ & En)|(Hfd & -> & _)]; [congruence|].
    apply rel32_target; by apply (Hfound _ Hfd).
Qed.

(** C37 No thread is kept from arriving: from every reachable state there are at
    most eighteen steps, of the thread itself and of the one that has the
    lock, after which it has arrived at a translation of the target. *)
Theorem dbl_patch_progress g i p t :
  sys_reachable g -> points g !! i = Some p -> found t ->
  exists n g' a, (n <= 18)%nat /\
    nsteps (fun x y => exists k, (k = i \/ exists q, points g !! k = Some q /\ holder q = true) /\ sys_step x k y) n g g' /\
    points g' !! i = Some (Arrived a) /\ found a.
Proof.
  intros Hr Ep Ht. pose proof (sys_reachable_inv g Hr) as Hinv.
  set (R := fun x y => exists k, (k = i \/ exists q, points g !! k = Some q /\ holder q = true) /\ sys_step x k y).
  assert (Hlift : forall k n x y, (k = i \/ exists q, points g !! k = Some q /\ holder q = true) ->
    nsteps (fun x y => sys_step x k y) n x y -> nsteps R n x y).
  { intros k n x y Hk Hs. induction Hs as [|n x y z Hxy _ IH]; [constructor|]. econstructor; [|exact IH]. by exists k. }
  assert (Hsolo : forall k q n x s' a, (k = i \/ exists q, points g !! k = Some q /\ holder q = true) ->
    points x !! k = Some q -> run_solo n t (sh x) q = Some (s', Arrived a) ->
    exists m, (m <= n)%nat /\ nsteps R m x {| sh := s'; points := <[k := Arrived a]> (points x) |}).
  { intros k q n x s' a Hk Eq E. destruct (run_solo_steps k t n x q s' (Arrived a) Ht Eq E) as (m & Hm & Hs). eauto. }
  destruct (lock (sh g)) eqn:El.
  - destruct (di_held g Hinv El) as (k & q & Eq & Hq). pose proof (di_points g Hinv k q Eq) as Hok.
    unfold point_ok in Hok. rewrite Hq in Hok. destruct Hok as [_ Hok].
    destruct (solo_holder t (sh g) q Ht Hq Hok) as (s1 & a1 & E1 & L1 & P1 & F1).
    destruct (Hsolo k q 7%nat g s1 a1) as (m1 & Hm1 & S1); [eauto|done|done|].
    set (g1 := {| sh := s1; points := <[k := Arrived a1]> (points g) |}) in *.
    destruct (decide (i = k)) as [->|Hne].
    { exists m1, g1, a1. split; [lia|]. split; [done|]. split; [apply lookup_insert_eq|done]. }
    assert (Ep1 : points g1 !! i = Some p) by (cbn; by rewrite lookup_insert_ne).
    pose proof (nsteps_inv _ _ _ _ S1 Hinv) as Hinv1.
    pose proof (di_points g1 Hinv1 i p Ep1) as Hokp.
    assert (Hhp : holder p = false).
    { destruct (holder p) eqn:Hhp; [|done]. by destruct (Hne (di_excl g Hinv i k p q Ep Eq Hhp Hq)). }
    unfold point_ok in Hokp. rewrite Hhp in Hokp.
    destruct (solo_free t s1 p Ht L1 (or_intror P1) Hhp Hokp) as (s2 & a2 & E2 & F2).
    destruct (Hsolo i p 11%nat g1 s2 a2) as (m2 & Hm2 & S2); [by left|done|done|].
    eexists (m1 + m2)%nat, _, a2. split; [lia|]. split; [by eapply nsteps_trans|]. split; [apply lookup_insert_eq|done].
  - pose proof (di_points g Hinv i p Ep) as Hok. unfold point_ok in Hok. destruct (holder p) eqn:Hhp.
    { destruct Hok. congruence. }
    destruct (solo_free t (sh g) p Ht El (di_free g Hinv El) Hhp Hok) as (s2 & a2 & E2 & F2).
    destruct (Hsolo i p 11%nat g s2 a2) as (m2 & Hm2 & S2); [by left|done|done|].
    eexists m2, _, a2. split; [lia|]. split; [done|]. split; [apply lookup_insert_eq|done].
Qed.

End Dbl.

(** ** Witnesses: two threads at a five-byte branch *)
Definition two_at_cti : system :=
  {| sh := start_shared 0x1000 5 0x3000; points := {[ 0%nat := AtCti; 1%nat := AtCti ]} |}.

Definition demo_found (t : Z) : Prop := t = 0x2000.

(** The first thread has seen the stub, and the second one is still at the
    branch. *)
Definition one_at_stub : system :=
  {| sh := start_shared 0x1000 5 0x3000; points := <[0%nat := AtStub]> (points two_at_cti) |}.

#[local] Existing Instance kernel_config.

Lemma one_at_stub_reachable : sys_reachable 0x1000 5 0x3000 demo_found one_at_stub.
Proof.
  eapply sys_reach_step; [apply (sys_reach_initial _ _ _ _ two_at_cti)|].
  - split; [reflexivity|]. intros i p E. cbn in E. apply lookup_insert_Some in E as [[_ <-]|[_ E]]; [reflexivity|].
    apply lookup_singleton_Some in E as [_ <-]. reflexivity.
  - apply (sys_step_intro 0x1000 5 0x3000 demo_found two_at_cti 0%nat AtCti 0x2000); reflexivity.
Defined.

Lemma demo_reach : in_reach 0x1000 5 0x3000 /\
  forall t, demo_found t -> in_reach 0x1000 5 t /\ t <> 0 /\ t <> 0x3000.
Proof.
  unfold in_reach, in_width, demo_found. split; [lia|]. intros t ->. lia.
Defined.

Lemma dbl_patch_safe_witness :
  sys_reachable 0x1000 5 0x3000 demo_found one_at_stub /\ (finds (sh one_at_stub) <= 1)%nat.
Proof.
  split; [exact one_at_stub_reachable|].
  exact (proj1 (proj2 (dbl_patch_safe 0x1000 5 0x3000 demo_found (proj1 demo_reach) (proj2 demo_reach)
    one_at_stub one_at_stub_reachable))).
Defined.

Lemma dbl_patch_progress_witness :
  exists n g' a, (n <= 18)%nat /\ points g' !! 0%nat = Some (Arrived a) /\ a = 0x2000 /\
    nsteps (fun x y => exists k, (k = 0%nat \/ exists q, points one_at_stub !! k = Some q /\ holder q = true) /\
      sys_step 0x1000 5 0x3000 demo_found x k y) n one_at_stub g'.
Proof.
  destruct (dbl_patch_progress 0x1000 5 0x3000 demo_found (proj1 demo_reach) (proj2 demo_reach)
    one_at_stub 0 AtStub 0x2000 one_at_stub_reachable eq_refl eq_refl) as (n & g' & a & Hn & Hs & Ha & Hf).
  exists n, g', a. auto.
Defined.
