(* ===== verification/DblEntry.v ===== *)
(** * The entry point of direct branch linking: [granary/dbl.cc]

    The stub of a direct branch ([insert_dbl_lookup_stub]) calls, through the
    structure of the branch, the routine that is generated once by the
    initialiser [patch_instruction_entrypoint]: it saves what
    [patch_instruction] may clobber, switches to the private stack in kernel
    builds, passes the address of the return address, and returns to the
    address that [patch_instruction] has put there.

    The theorem: from the branch, control reaches that address with the
    registers, the flags and the stack as at the branch.  In user builds these
    are all registers; in kernel builds the stacks are switched by a call
    before any caller-saved register other than [rdi], [rsi] and [rax] is
    saved, so the others are as the helper of the switch leaves them
    ([switch_clobbers]; [patch_entry_clobbers] is an instance).  It covers a branch that is resolved; when another thread holds
    the lock, [patch_instruction] returns to the call in the stub, and the
    last theorem shows what this does to the stack pointer in user builds. *)

From Stdlib Require Import ZArith Lia.
From stdpp Require Import base numbers list option gmap.
From S2P Require Import Prelude Policy Register Machine EmitUtils PrivateStack PrivateCall Mangle Ibl IblGlobal.

Section DblEntry.
Context `{Config}.

(** ** Generated code *)

(** The stub of a branch, at the label the branch goes to; [patch] is the
    address of [patcher_func] in its structure. *)
Definition insert_dbl_lookup_stub (patch : Z) : list instr :=
  IF_USER_ELSE [lea_ rsp rsp (- REDZONE_SIZE)] [] ++ [call_ind_ (OAbs patch)].

Definition patch_saved_regs (test : bool) : outcome register_manager :=
  rm ← revive_regs [rdi; rsi; rax] (kill_all register_manager_ctor);
  if test then Ret rm else revive_regs [rbx; rbp; r12; r13; r14; r15] rm.

Definition patch_entry_saves : list instr :=
  [push_ (OReg rdi); lea_ rdi rsp 8; pushf_] ++ IF_USER_ELSE [] [cli_] ++ [push_ (OReg rsi); push_ (OReg rax)].

Definition patch_entry_restores : list instr :=
  [pop_ rax; pop_ rsi; popf_; pop_ rdi] ++ IF_USER_ELSE [ret_imm_ REDZONE_SIZE] [ret_].

Definition patch_instruction_entrypoint (test : bool) (staged_loc patch_fn enter_fn exit_fn : Z)
    : outcome (list instr) :=
  rm ← patch_saved_regs test;
  let c := {| before := patch_entry_saves; after := [] |} in
  let c := if env_kernel then insert_call staged_loc enter_fn c else c in
  enter_granary ← save_and_restore_registers ZOMBIE_FUEL rm (insert_after (label_ 0) c);
  let ls := cursor_list (insert_call staged_loc patch_fn enter_granary) in
  let ls := if env_kernel then cursor_list (insert_call staged_loc exit_fn {| before := ls; after := [] |})
            else ls in
  Ret (ls ++ patch_entry_restores).

(** ** What is called *)
Context (top_fn enter_fn exit_fn patch_fn ra : Z) (top_sem : callee_sem)
  (patch_sem : mach -> outcome (option exit * mach)).

Definition dbl_callee : callee_sem := fun a m =>
  if a =? enter_fn then call_code 1 no_native top_sem (granary_enter_private_stack top_fn) ra m
  else if a =? exit_fn then call_code 0 no_native top_sem granary_exit_private_stack ra m
  else if a =? patch_fn then patch_sem m
  else Fault.

(** The memory that is not [patch_instruction]'s own: the native stack
    [lo, hi), and the frames above its own on the stack it is called on, the
    private one with top [P] or the native one. *)
Definition frames (P lo hi : Z) (m : mach) (x : Z) : Prop :=
  lo <= x < hi \/ exists top, (top = P \/ top = lo) /\ top - 144 <= regs m rsp <= x /\ x < top.

(** [patch_instruction], called with the address of the return address in
    [rdi], obeys the calling convention and stores [dst] there. *)
Definition patches (dst ret_addr P lo hi : Z) : Prop :=
  forall m, regs m rdi = ret_addr -> wf_regs m ->
    exists m', patch_sem m = Ret (None, m') /\ regs m' rsp = regs m rsp /\ wf_regs m' /\
      (forall r, r ∈ callee_saved -> regs m' r = regs m r) /\
      (forall x, frames P lo hi m x -> mem m' x = write64 (mem m) ret_addr dst x).

(** ** Lemmas *)
Lemma patch_saved_regs_ok test :
  exists rm, patch_saved_regs test = Ret rm /\ rm_wf rm /\
    (forall r, zombie rm (reg_id r) = false) /\
    (forall r, lives rm (reg_id r) = true ->
       r = rsp \/ r = rdi \/ r = rax \/ r = rsi \/ r ∈ callee_saved).
Proof.
  destruct test; (eexists; split; [vm_compute; reflexivity|]);
    (split; [vm_compute; intuition congruence|]); (split; [by intros []|]);
    intros [] E; vm_compute in E; try discriminate E; unfold callee_saved; rewrite !elem_of_cons; tauto.
Qed.

(** The call of [patch_instruction] between the saved registers. *)
Lemma patch_call_run go test c staged m top P lo hi dst :
  let ret_addr := lo + 32 in
  wf_regs m -> regs m rdi = ret_addr -> (top = P \/ top = lo) -> top - 24 <= regs m rsp <= top ->
  256 <= top -> top < 2 ^ 64 - 8 -> 0 <= lo -> lo + 40 <= hi -> hi < 2 ^ 64 -> top <= lo \/ hi <= top - 144 ->
  in_width 64 patch_fn -> patch_fn <> enter_fn -> patch_fn <> exit_fn -> patches dst ret_addr P lo hi ->
  exists rm saves restores,
    patch_saved_regs test = Ret rm /\
    save_and_restore_registers ZOMBIE_FUEL rm c =
      Ret {| before := before c ++ saves; after := restores ++ after c |} /\
    forall rest, exists m',
      run_from go no_native dbl_callee (saves ++ call_instrs staged patch_fn ++ restores ++ rest) m =
        run_from go no_native dbl_callee rest m' /\
      regs m' rsp = regs m rsp /\ wf_regs m' /\
      (forall r, r <> rdi -> r <> rax -> r <> rsi -> regs m' r = regs m r) /\
      (forall x, lo <= x < hi \/ regs m rsp <= x < top -> mem m' x = write64 (mem m) ret_addr dst x).
Proof.
  intros ret_addr Hwf Hdi Htop Hsp Ht1 Ht2 Hlo Hhi Hhi2 Hapart Wp Hpe Hpx Hpat.
  destruct (patch_saved_regs_ok test) as (rm & Erm & Hrm & Hz & Hl).
  destruct (save_restore_cursor no_native rm c m) as (saves & restores & Ec & mb & Eb & Sb & Rb & Fb & Mb & K);
    try done; [lia..|].
  exists rm, saves, restores. split; [done|]. split; [done|]. intros rest.
  assert (Wb : wf_regs mb).
  { intros r. destruct (decide (r = rsp)) as [->|Hr]; [split; lia|]. rewrite Rb by done. apply Hwf. }
  destruct (call_instrs_run go dbl_callee staged patch_fn (restores ++ rest) mb
    (fun mc => regs mc rsp = regs mb rsp /\ wf_regs mc /\
       (forall r, r ∈ callee_saved -> regs mc r = regs mb r) /\
       (forall x, frames P lo hi mb x -> mem mc x = write64 (mem mb) ret_addr dst x)))
    as (mc & Ecall & Sc & Wc & Rc & Mc); [done|done| |].
  { intros m0 (Hwf0 & Hr0 & Hm0). unfold dbl_callee.
    rewrite (proj2 (Z.eqb_neq patch_fn enter_fn)), (proj2 (Z.eqb_neq patch_fn exit_fn)), Z.eqb_refl by done.
    destruct (Hpat m0) as (mc & E & Sc & Wc & Rc & Mc); [rewrite Hr0, Rb by done; done|done|].
    exists mc. split; [done|]. rewrite Hr0 in Sc by done. rewrite Hm0 in Mc. split; [done|]. split; [done|]. split.
    - intros r Hr. rewrite Rc by done. apply Hr0. by destruct (callee_saved_other r Hr) as (_ & _ & _ & ?).
    - intros x Hx. apply Mc. unfold frames in *. by rewrite Hr0. }
  assert (Hw : forall x, 0 <= x < 2 ^ 64 -> x < lo + 32 \/ lo + 40 <= x -> write64 (mem mb) ret_addr dst x = mem mb x).
  { intros x Hx Hd. apply write64_other; [unfold ret_addr; split; lia|done|unfold ret_addr; lia]. }
  assert (Hfr : forall x, regs mb rsp <= x < top -> frames P lo hi mb x).
  { intros x Hx. right. exists top. split; [done|]. lia. }
  destruct (K mc) as (md & Ed & Md & Fd & Sd & Rd); [done| |].
  { intros x Hx. rewrite Mc by (apply Hfr; lia). apply Hw; lia. }
  exists md. split; [|split; [done|split; [|split]]].
  - rewrite (run_from_straight _ _ _ _ _ _ _ Eb), Ecall, (run_from_straight _ _ _ _ _ _ _ Ed). done.
  - intros r. destruct (decide (r = rsp)) as [->|Hr]; [split; lia|]. rewrite Rd by done.
    destruct (_ || _); [apply Wc|apply Hwf].
  - intros r H1 H2 H3. destruct (decide (r = rsp)) as [->|H4]; [done|]. rewrite Rd by done.
    rewrite Hz, orb_false_r. destruct (lives rm (reg_id r)) eqn:El; [|done].
    destruct (Hl r El) as [?|[?|[?|[?|Hin]]]]; try congruence. rewrite Rc by done. by apply Rb.
  - intros x Hx. rewrite Md, Mc.
    + unfold write64. destruct (_ <? 8); [done|]. apply Mb; lia.
    + destruct Hx as [?|?]; [by left|]. apply Hfr. lia.
Qed.

(** The registers that neither the switch nor the entry saves before it. *)
Definition unsaved : list reg := [rcx; rdx; rbx; rbp; r8; r9; r10; r11; r12; r13; r14; r15].

Lemma unsaved_not_used : not_used unsaved.
Proof.
  intros r Hr. unfold unsaved in Hr.
  repeat (apply elem_of_cons in Hr as [->|Hr]; [repeat split; discriminate|]). by apply elem_of_nil in Hr.
Qed.

(** Those of them that the helper of the switch, a function of the C++
    program, may change by the calling convention. *)
Definition switch_clobbers : list reg := IF_USER_ELSE [] [rcx; rdx; r8; r9; r10; r11].

(** Those that it keeps. *)
Definition kept : list reg := IF_USER_ELSE unsaved callee_saved.

Lemma kept_not_used : not_used kept.
Proof.
  unfold kept, IF_USER_ELSE. destruct env_kernel; [|exact unsaved_not_used].
  intros r Hr. by destruct (callee_saved_other r Hr) as (? & ? & ? & ?).
Qed.

Lemma kept_all r : r ∉ switch_clobbers -> r <> rsp -> r <> rdi -> r <> rsi -> r <> rax -> r ∈ kept.
Proof.
  unfold switch_clobbers, kept, IF_USER_ELSE, unsaved, callee_saved. intros Hr ? ? ? ?.
  destruct env_kernel; rewrite !elem_of_cons in *; destruct r; try done; tauto.
Qed.

(** The environment of the routine, called with the stack pointer [s]: the
    native stack is [s - 40, hi), the private stack is apart from it, and in
    kernel builds the helper of the switch returns its top and obeys the
    calling convention ([gives_top]). *)
Record dbl_env (s hi P dst : Z) : Prop := {
  de_addrs : Forall (in_width 64) [enter_fn; exit_fn; patch_fn; ra; dst];
  de_distinct : NoDup [enter_fn; exit_fn; patch_fn];
  de_stack : 512 <= s /\ s <= hi /\ hi < 2 ^ 64 /\ s + REDZONE_SIZE + 8 < 2 ^ 64;
  de_private : 256 <= P < 2 ^ 64 - 8 /\ (P <= s - 48 \/ hi <= P - 144);
  de_top : env_kernel = true ->
    forall m, regs m rsp = s - 40 -> gives_top top_sem top_fn P hi m;
  de_patch : patches dst (s - 8) P (s - 40) hi
}.

(** The state after the registers are saved, and what is then on the stack. *)
Lemma entry_saves_run r0 m s :
  wf_regs m -> in_width 64 r0 -> in_width 64 (flags m) -> regs m rsp = s -> 512 <= s -> s + 8 < 2 ^ 64 ->
  exists ma, exec_list no_native patch_entry_saves (push r0 m) = Some ma /\
    regs ma rsp = s - 40 /\ regs ma rdi = s - 8 /\ wf_regs ma /\
    (forall r, r <> rsp -> r <> rdi -> regs ma r = regs m r) /\
    read64 (mem ma) (s - 16) = regs m rdi /\ read64 (mem ma) (s - 24) = flags m /\
    read64 (mem ma) (s - 32) = regs m rsi /\ read64 (mem ma) (s - 40) = regs m rax /\
    (forall x, s <= x < 2 ^ 64 -> mem ma x = mem m x).
Proof.
  intros Hwf Hr0 Hfl Hsp Hlo Hhi.
  pose proof (Hwf rdi) as Wdi. pose proof (Hwf rsi) as Wsi. pose proof (Hwf rax) as Wax.
  unfold patch_entry_saves, IF_USER_ELSE.
  destruct env_kernel; cbn [app exec_list exec1 get_op]; (eexists; split; [reflexivity|]);
    unfold push, ea; cbn -[Z.add Z.sub]; rewrite Hsp; machine;
    replace (s - 8 - 8) with (s - 16) by lia; replace (s - 16 - 8) with (s - 24) by lia;
    replace (s - 24 - 8) with (s - 32) by lia; replace (s - 32 - 8) with (s - 40) by lia;
    replace (s - 16 + 8) with (s - 8) by lia; machine.
  - split; [done|]. split; [done|]. split; [|split].
    + intros r. destruct r; cbn -[Z.add Z.sub]; (apply Hwf || (split; lia)).
    + intros r H1 H2. by destruct r.
    + do 4 (split; [done|]). intros x Hx. rewrite !write64_other by (try split; lia). done.
  - split; [done|]. split; [done|]. split; [|split].
    + intros r. destruct r; cbn -[Z.add Z.sub]; (apply Hwf || (split; lia)).
    + intros r H1 H2. by destruct r.
    + do 4 (split; [done|]). intros x Hx. rewrite !write64_other by (try split; lia). done.
Qed.

(** The registers are restored, and the routine returns. *)
Lemma entry_restores_run go cl m s hi dst rdi0 rsi0 rax0 fl :
  regs m rsp = s - 40 -> 512 <= s -> s <= hi -> hi < 2 ^ 64 -> s + REDZONE_SIZE + 8 < 2 ^ 64 ->
  read64 (mem m) (s - 8) = dst ->
  read64 (mem m) (s - 16) = rdi0 -> read64 (mem m) (s - 24) = fl ->
  read64 (mem m) (s - 32) = rsi0 -> read64 (mem m) (s - 40) = rax0 ->
  exists m', run_from go no_native cl patch_entry_restores m = Ret (ToPc dst, m') /\
    regs m' rsp = s + REDZONE_SIZE /\ regs m' rdi = rdi0 /\ regs m' rsi = rsi0 /\ regs m' rax = rax0 /\
    (forall r, r <> rsp -> r <> rdi -> r <> rsi -> r <> rax -> regs m' r = regs m r) /\
    flags m' = fl /\ mem m' = mem m.
Proof.
  intros Hsp Hlo Hhi Hhi2 HR Hd Hdi Hfl Hsi Hax.
  assert (HR0 : REDZONE_SIZE = IF_USER_ELSE 128 0) by done.
  unfold patch_entry_restores, IF_USER_ELSE in *. cbn [app].
  erewrite run_from_next by (apply exec_pop; lia).
  erewrite run_from_next by (apply exec_pop; cbn -[Z.add Z.sub]; lia).
  erewrite run_from_next by reflexivity.
  erewrite run_from_next by (apply exec_pop; cbn -[Z.add Z.sub]; rewrite Hsp; machine; lia).
  destruct env_kernel; cbn [run_from exec1]; unfold top, drop_top; cbn -[Z.add Z.sub];
    rewrite Hsp; machine;
    replace (s - 40 + 8) with (s - 32) by lia; replace (s - 32 + 8) with (s - 24) by lia;
    replace (s - 24 + 8) with (s - 16) by lia; replace (s - 16 + 8) with (s - 8) by lia; rewrite Hd;
    (eexists; split; [reflexivity|]); cbn -[Z.add Z.sub]; machine; rewrite ?HR0;
    (split; [lia|]); do 3 (split; [done|]); (split; [by intros []|done]).
Qed.

(** The code between: the switch of stacks in kernel builds, the saved
    registers and the call. *)
Definition entry_body (staged : Z) (saves restores : list instr) : list instr :=
  (if env_kernel then call_instrs staged enter_fn else []) ++ [label_ 0] ++ saves ++
  call_instrs staged patch_fn ++ restores ++ (if env_kernel then call_instrs staged exit_fn else []).

Lemma distinct_fns : NoDup [enter_fn; exit_fn; patch_fn] ->
  patch_fn <> enter_fn /\ patch_fn <> exit_fn /\ exit_fn <> enter_fn.
Proof.
  intros Hnd. inversion Hnd as [|? ? N1 N2]; subst. inversion N2 as [|? ? N3 N4]; subst.
  rewrite !elem_of_cons, elem_of_nil in N1. rewrite elem_of_cons, elem_of_nil in N3.
  repeat split; intros ->; tauto.
Qed.

Lemma entry_body_run go test c staged m s hi P dst :
  dbl_env s hi P dst -> wf_regs m -> regs m rsp = s - 40 -> regs m rdi = s - 8 ->
  exists rm saves restores,
    patch_saved_regs test = Ret rm /\
    save_and_restore_registers ZOMBIE_FUEL rm c =
      Ret {| before := before c ++ saves; after := restores ++ after c |} /\
    forall rest, exists m',
      run_from go no_native dbl_callee (entry_body staged saves restores ++ rest) m =
        run_from go no_native dbl_callee rest m' /\
      regs m' rsp = s - 40 /\ (forall r, r ∈ kept -> regs m' r = regs m r) /\
      (forall x, s - 40 <= x < hi -> mem m' x = write64 (mem m) (s - 8) dst x).
Proof.
  intros [Haddr Hnd [Hlo [Hhi [Hhi2 HR]]] [HP Hapart] Htop Hpat] Hwf Hsp Hdi.
  rewrite !List.Forall_cons_iff in Haddr. destruct Haddr as (We & Wx & Wp & Wra & Wdst & _).
  destruct (distinct_fns Hnd) as (Hpe & Hpx & Hxe).
  assert (E8 : s - 8 = s - 40 + 32) by lia. rewrite E8 in *.
  assert (HR0 : 0 <= REDZONE_SIZE) by (unfold REDZONE_SIZE, IF_USER_ELSE; destruct env_kernel; lia).
  destruct env_kernel eqn:Hk; unfold entry_body; rewrite Hk.
  2: { destruct (patch_call_run go test c staged m (s - 40) P (s - 40) hi dst)
         as (rm & saves & restores & Erm & Ec & K); try done; try lia; auto.
       exists rm, saves, restores. split; [done|]. split; [done|]. intros rest.
       destruct (K rest) as (m' & E & S' & _ & R' & M').
       exists m'. split; [|split; [congruence|split]].
       - rewrite app_nil_r, <- !app_assoc. cbn [app]. erewrite run_from_next by reflexivity. exact E.
       - intros r Hr. destruct (kept_not_used r Hr) as (? & ? & ? & ?). by apply R'.
       - intros x Hx. apply M'. by left. }
  destruct (call_instrs_all go dbl_callee staged enter_fn m (entered_keeping kept (s - 40) hi P m))
    as (m1 & Een & [S1 W1 [D1 _] R1 Wf1 M1]); [done|done| |].
  { intros m0 Hb. pose proof Hb as (Hwf0 & Hr0 & Hm0).
    unfold dbl_callee. rewrite Z.eqb_refl.
    assert (Hsp0 : regs m0 rsp = s - 40) by (rewrite Hr0 by done; done).
    destruct (enter_keeping_run kept top_sem top_fn P hi m0 ra) as (m1 & E & [A1 A2 A3 A4 A5 A6]);
      rewrite ?Hsp0; try done; try lia; [unfold kept, IF_USER_ELSE; rewrite Hk; by apply Htop|apply kept_not_used|].
    rewrite Hsp0 in *. exists m1. split; [done|]. rewrite !Hr0 in A3 by done. rewrite Hm0 in A6. constructor; try done.
    intros r Hr. rewrite A4 by done. apply Hr0. by destruct (kept_not_used r Hr) as (_ & _ & _ & ?). }
  assert (Htp : exists top, (top = P \/ top = s - 40) /\ regs m1 rsp = top - 16 /\ (top <= s - 40 \/ hi <= top - 144)).
  { destruct S1 as [S1|S1]; [exists P|exists (s - 40)]; (split; [auto|]); (split; [done|]); lia. }
  destruct Htp as (top & Htop' & St & Hap).
  destruct (patch_call_run go test c staged m1 top P (s - 40) hi dst)
    as (rm & saves & restores & Erm & Ec & K); try done; try lia.
  exists rm, saves, restores. split; [done|]. split; [done|]. intros rest.
  destruct (K (call_instrs staged exit_fn ++ rest)) as (m2 & E2 & S2 & W2 & R2 & M2).
  destruct (call_instrs_run go dbl_callee staged exit_fn rest m2
    (fun m3 => regs m3 rsp = s - 40 /\ (forall r, r ∈ kept -> regs m3 r = regs m2 r) /\
       (forall x, s - 40 <= x < hi -> mem m3 x = mem m2 x))) as (m3 & E3 & S3 & R3 & M3); [done|done| |].
  { intros m0 (Hwf0 & Hr0 & Hm0). unfold dbl_callee.
    rewrite (proj2 (Z.eqb_neq exit_fn enter_fn)), Z.eqb_refl by done.
    assert (Hsp0 : regs m0 rsp = top - 16) by (rewrite Hr0 by done; congruence).
    destruct (exit_private_stack_run top_sem (s - 40) ra m0) as (m3 & E & S3 & R3 & _ & _ & M3); rewrite ?Hsp0; try done; try lia.
    - rewrite Hm0. rewrite <- W1, St. rewrite <- (read64_write64_other (mem m1) (s - 40 + 32) dst (top - 16)) by (unfold word_at; lia).
      apply read64_ext; [unfold word_at; lia|]. intros x Hx. apply M2. lia.
    - rewrite Hsp0 in M3. exists m3. split; [done|]. split; [done|]. split.
      + intros r Hr. destruct (kept_not_used r Hr) as (? & ? & ? & ?). rewrite R3 by done. by apply Hr0.
      + intros x Hx. rewrite M3, Hm0 by lia. done. }
  exists m3. split; [|split; [done|split]].
  - rewrite <- !app_assoc. rewrite Een. cbn [app]. erewrite run_from_next by reflexivity. by rewrite E2, E3.
  - intros r Hr. destruct (kept_not_used r Hr) as (? & ? & ? & ?). rewrite R3, R2, R1 by done. done.
  - intros x Hx. rewrite M3, M2 by auto. unfold write64. destruct (_ <? 8); [done|]. by apply M1.
Qed.

(** The routine, called from a state with the stack pointer [s]. *)
Lemma patch_entry_run test staged r0 m s hi P dst :
  dbl_env s hi P dst -> wf_regs m -> in_width 64 (flags m) -> in_width 64 r0 -> regs m rsp = s ->
  exists code m', patch_instruction_entrypoint test staged patch_fn enter_fn exit_fn = Ret code /\
    run 0 no_native dbl_callee code (push r0 m) = Ret (ToPc dst, m') /\
    regs m' rsp = s + REDZONE_SIZE /\ (forall r, r <> rsp -> r ∉ switch_clobbers -> regs m' r = regs m r) /\
    flags m' = flags m /\ (forall x, s <= x < hi -> mem m' x = mem m x).
Proof.
  intros Henv Hwf Hfl Hr0 Hsp. pose proof Henv as [Haddr _ [Hlo [Hhi [Hhi2 HR]]] _ _ _].
  rewrite !List.Forall_cons_iff in Haddr. destruct Haddr as (_ & _ & _ & _ & Wdst & _).
  assert (HR0 : 0 <= REDZONE_SIZE) by (unfold REDZONE_SIZE, IF_USER_ELSE; destruct env_kernel; lia).
  destruct (entry_saves_run r0 m s) as (ma & Ea & Sa & Da & Wa & Ra & L1 & L2 & L3 & L4 & Ma); try done; [lia|].
  set (c := {| before := patch_entry_saves ++ (if env_kernel then call_instrs staged enter_fn else []) ++ [label_ 0];
               after := [] |}).
  set (code := fun saves restores => patch_entry_saves ++ entry_body staged saves restores ++ patch_entry_restores).
  assert (Hbody := fun go => entry_body_run go test c staged ma s hi P dst Henv Wa Sa Da).
  destruct (Hbody (fun _ _ => Fault)) as (rm & saves & restores & Erm & Ec & _).
  exists (code saves restores).
  destruct (Hbody (branch 0 no_native dbl_callee (code saves restores))) as (rm1 & saves1 & restores1 & Erm1 & Ec1 & K).
  rewrite Erm in Erm1. injection Erm1 as <-. rewrite Ec in Ec1.
  assert (saves1 = saves /\ restores1 = restores) as [-> ->].
  { injection Ec1 as E1 E2. split; [by apply app_inv_head in E1|]. by rewrite !app_nil_r in E2. }
  destruct (K patch_entry_restores) as (mb & Eb & Sb & Rb & Mb).
  assert (Hrd : forall a, s - 40 <= a -> a + 8 <= s - 8 -> read64 (mem mb) a = read64 (mem ma) a).
  { intros a H1 H2. rewrite <- (read64_write64_other (mem ma) (s - 8) dst a) by (unfold word_at; lia).
    apply read64_ext; [unfold word_at; lia|]. intros x Hx. apply Mb. lia. }
  destruct (entry_restores_run (branch 0 no_native dbl_callee (code saves restores)) dbl_callee mb s hi dst
    (regs m rdi) (regs m rsi) (regs m rax) (flags m)) as (m' & E' & S' & D1 & D2 & D3 & R' & F' & M'); try done.
  { rewrite <- (read64_write64_same (mem ma) (s - 8) dst) by done.
    apply read64_ext; [unfold word_at; lia|]. intros x Hx. apply Mb. lia. }
  { rewrite Hrd by lia. done. }
  { rewrite Hrd by lia. done. }
  { rewrite Hrd by lia. done. }
  { rewrite Hrd by lia. done. }
  exists m'. split; [|split; [|split; [done|split; [|split; [done|]]]]].
  - unfold patch_instruction_entrypoint. rewrite Erm. cbn [mbind outcome_bind].
    rewrite insert_call_instrs. cbn [before after].
    assert (Ecur : insert_after (label_ 0) (if env_kernel
        then {| before := patch_entry_saves ++ call_instrs staged enter_fn; after := [] |}
        else {| before := patch_entry_saves; after := [] |}) = c).
    { unfold c, insert_after. destruct env_kernel; cbn [before after]; f_equal; rewrite <- ?app_assoc; done. }
    rewrite Ecur, Ec. cbn [mbind outcome_bind]. rewrite !insert_call_instrs. unfold cursor_list, code, entry_body.
    cbn [before after c]. f_equal. destruct env_kernel; rewrite ?app_nil_r, <- ?app_assoc; done.
  - unfold run. unfold code at 2. rewrite (run_from_straight _ _ _ _ _ _ _ Ea), Eb. exact E'.
  - intros r Hr Hc. destruct (decide (r = rdi)) as [->|Hdi]; [done|]. destruct (decide (r = rsi)) as [->|Hsi]; [done|].
    destruct (decide (r = rax)) as [->|Hax]; [done|]. rewrite R', Rb, Ra by (done || by apply kept_all). done.
  - intros x Hx. rewrite M', Mb by lia. rewrite write64_other by (unfold word_at; lia). apply Ma. lia.
Qed.

(** The call in a stub: [entry] is the address of the generated [code], and
    [call_ra] that of the instruction behind the call. *)
Definition stub_callee (entry call_ra : Z) (code : list instr) : callee_sem := fun a m =>
  if a =? entry then call_code 0 no_native dbl_callee code call_ra m else Fault.

Lemma call_entry_run test staged entry call_ra m s hi P dst go :
  dbl_env s hi P dst -> wf_regs m -> in_width 64 (flags m) -> in_width 64 call_ra -> dst <> call_ra ->
  regs m rsp = s ->
  exists code m', patch_instruction_entrypoint test staged patch_fn enter_fn exit_fn = Ret code /\
    (forall patch, read64 (mem m) patch = entry ->
       run_from go no_native (stub_callee entry call_ra code) [call_ind_ (OAbs patch)] m = Ret (ToPc dst, m')) /\
    regs m' rsp = s + REDZONE_SIZE /\ (forall r, r <> rsp -> r ∉ switch_clobbers -> regs m' r = regs m r) /\
    flags m' = flags m /\ (forall x, s <= x < hi -> mem m' x = mem m x).
Proof.
  intros Henv Hwf Hfl Hra Hne Hsp.
  destruct (patch_entry_run test staged call_ra m s hi P dst) as (code & m' & Ec & Er & Hrest); try done.
  exists code, m'. split; [done|]. split; [|done]. intros patch Hp. cbn [run_from exec1 get_op]. rewrite Hp.
  unfold stub_callee, call_code. rewrite Z.eqb_refl, Er. cbn. by rewrite (proj2 (Z.eqb_neq _ _)).
Qed.

(** ** Theorems *)

(** C26 A direct branch whose stub has [patch_instruction] return [dst] goes on
    at [dst] with the flags, the native stack with its red zone, and the
    registers, the stack pointer included, as at the branch: all registers in
    user builds, and all but [switch_clobbers], the caller-saved registers
    that are live across the helper of the stack switch, in kernel builds. *)
Theorem dbl_stub_arrives test staged patch entry call_ra m hi P dst :
  let s := regs m rsp - REDZONE_SIZE in
  dbl_env s hi P dst -> wf_regs m -> in_width 64 (flags m) -> in_width 64 call_ra -> dst <> call_ra ->
  read64 (mem m) patch = entry ->
  exists code m', patch_instruction_entrypoint test staged patch_fn enter_fn exit_fn = Ret code /\
    run 0 no_native (stub_callee entry call_ra code) (insert_dbl_lookup_stub patch) m = Ret (ToPc dst, m') /\
    (forall r, r ∉ switch_clobbers -> regs m' r = regs m r) /\ flags m' = flags m /\
    (forall x, s <= x < hi -> mem m' x = mem m x).
Proof.
  intros s Henv Hwf Hfl Hra Hne Hp. pose proof (de_stack _ _ _ _ Henv) as (Hlo & Hhi & Hhi2 & HR).
  pose proof (Hwf rsp) as Wsp.
  assert (HR0 : REDZONE_SIZE = IF_USER_ELSE 128 0) by done.
  set (m1 := if env_kernel then m else set_reg rsp s m).
  assert (Hm1 : regs m1 rsp = s /\ wf_regs m1 /\ flags m1 = flags m /\ mem m1 = mem m /\
    forall r, r <> rsp -> regs m1 r = regs m r).
  { unfold m1, s in *. unfold IF_USER_ELSE in HR0. destruct env_kernel.
    - rewrite HR0, Z.sub_0_r. done.
    - split; [apply regs_set_same|]. split; [apply wf_set_reg; [done|split; lia]|].
      split; [done|]. split; [done|]. intros r Hr. by apply regs_set_other. }
  destruct Hm1 as (S1 & W1 & F1 & M1 & R1).
  destruct (call_entry_run test staged entry call_ra m1 s hi P dst (fun _ _ => Fault))
    as (code & _ & Ec & _); try done; [by rewrite F1|].
  destruct (call_entry_run test staged entry call_ra m1 s hi P dst
    (branch 0 no_native (stub_callee entry call_ra code) (insert_dbl_lookup_stub patch)))
    as (code' & m' & Ec' & Er & S' & R' & F' & M'); try done; [by rewrite F1|].
  rewrite Ec in Ec'. injection Ec' as <-. exists code, m'. split; [done|]. split; [|split; [|split]].
  - unfold run. unfold insert_dbl_lookup_stub at 2. rewrite <- (Er patch) by (by rewrite M1).
    unfold m1, IF_USER_ELSE in *. destruct env_kernel; [done|]. cbn [app].
    erewrite run_from_next; [reflexivity|]. cbn [exec1]. unfold ea. do 2 f_equal.
    replace (regs m rsp + - REDZONE_SIZE) with s by (unfold s; lia). apply wrap_small. lia.
  - intros r Hc. destruct (decide (r = rsp)) as [->|Hr]; [rewrite S'; unfold s; lia|]. rewrite R', R1; done.
  - by rewrite F', F1.
  - intros x Hx. rewrite M', M1; done.
Qed.

(** When another thread has the lock, [patch_instruction] returns to the call
    in the stub.  In user builds the stack pointer is then that of the branch
    ([dbl_stub_arrives] with that address as [dst]); executing the call from
    there, the routine returns with the stack pointer 128 bytes above that
    of the branch: the red zone is skipped once and given back twice. *)
Theorem dbl_retry_shifts_stack test staged patch entry call_ra m hi P dst :
  env_kernel = false ->
  dbl_env (regs m rsp) hi P dst -> wf_regs m -> in_width 64 (flags m) -> in_width 64 call_ra -> dst <> call_ra ->
  read64 (mem m) patch = entry ->
  exists code m', patch_instruction_entrypoint test staged patch_fn enter_fn exit_fn = Ret code /\
    run 0 no_native (stub_callee entry call_ra code) [call_ind_ (OAbs patch)] m = Ret (ToPc dst, m') /\
    regs m' rsp = regs m rsp + 128.
Proof.
  intros Hu Henv Hwf Hfl Hra Hne Hp.
  destruct (call_entry_run test staged entry call_ra m (regs m rsp) hi P dst (fun _ _ => Fault))
    as (code & _ & Ec & _); try done.
  destruct (call_entry_run test staged entry call_ra m (regs m rsp) hi P dst
    (branch 0 no_native (stub_callee entry call_ra code) [call_ind_ (OAbs patch)]))
    as (code' & m' & Ec' & Er & S' & _); try done.
  rewrite Ec in Ec'. injection Ec' as <-. exists code, m'. split; [done|]. split; [by apply Er|].
  rewrite S'. unfold REDZONE_SIZE, IF_USER_ELSE. by rewrite Hu.
Qed.

End DblEntry.

(** ** Witnesses *)

(** A [patch_instruction] that stores [dst], and nothing else. *)
Definition sample_patch (dst : Z) (m : mach) : outcome (option exit * mach) :=
  Ret (None, set_mem (write64 (mem m) (regs m rdi) dst) m).

Lemma sample_patches dst ret_addr P lo hi : patches (sample_patch dst) dst ret_addr P lo hi.
Proof.
  intros m Hm Hwf. eexists. split; [reflexivity|]. split; [done|]. split; [done|]. split; [done|].
  intros x _. by rewrite <- Hm.
Qed.

(** A helper that returns [P] and, as the calling convention allows, changes
    a caller-saved register. *)
Definition clobbering_top (P : Z) : callee_sem := fun _ m => Ret (None, set_reg rcx 0 (set_reg rax P m)).

Lemma clobbering_gives P f hi m : in_width 64 P -> gives_top (clobbering_top P) f P hi m.
Proof.
  intros HP m' Hsp Hwf. eexists. split; [reflexivity|].
  rewrite regs_set_other, regs_set_same by done. split; [done|].
  constructor; try done.
  - intros r Hr. unfold callee_saved in Hr.
    repeat (apply elem_of_cons in Hr as [->|Hr]; [done|]). by apply elem_of_nil in Hr.
  - apply wf_set_reg; [now apply wf_set_reg|split; lia].
Qed.

(** At a branch: the stack pointer is 0x10000, and the word at 0x8000 is the
    address of the generated routine. *)
Definition at_stub : mach :=
  {| regs := fun r => if reg_eqb r rsp then 0x10000 else reg_id r;
     mem := write64 (fun _ => 0) 0x8000 0x6000; flags := 0x246 |}.

Lemma sample_dbl_env `{Config} s : 0xFF00 <= s <= 0x10000 ->
  dbl_env 0x77 0x100 0x200 0x300 0x1240 (clobbering_top 0x900000) (sample_patch 0x5000) s 0x20000 0x900000 0x5000.
Proof.
  intros Hs. assert (HR : REDZONE_SIZE = 128 \/ REDZONE_SIZE = 0) by (unfold REDZONE_SIZE, IF_USER_ELSE; destruct env_kernel; auto).
  constructor.
  - repeat constructor; unfold in_width; lia.
  - repeat (apply NoDup_cons; split; [rewrite ?elem_of_cons, elem_of_nil; lia|]). constructor.
  - lia.
  - lia.
  - intros _ m _. apply clobbering_gives. split; lia.
  - apply sample_patches.
Qed.

Lemma at_stub_wf : wf_regs at_stub.
Proof. intros r. destruct r; split; vm_compute; congruence. Qed.

Lemma dbl_stub_arrives_witness :
  exists code m', patch_instruction_entrypoint (H := kernel_config) false 0x7000 0x300 0x100 0x200 = Ret code /\
    run 0 no_native (stub_callee 0x77 0x100 0x200 0x300 0x1240 (clobbering_top 0x900000) (sample_patch 0x5000)
      0x6000 0x1006 code) (insert_dbl_lookup_stub (H := kernel_config) 0x8000) at_stub = Ret (ToPc 0x5000, m') /\
    (forall r, r ∉ switch_clobbers (H := kernel_config) -> regs m' r = regs at_stub r).
Proof.
  destruct (dbl_stub_arrives (H := kernel_config) 0x77 0x100 0x200 0x300 0x1240 (clobbering_top 0x900000)
    (sample_patch 0x5000) false 0x7000 0x8000 0x6000 0x1006 at_stub 0x20000 0x900000 0x5000)
    as (code & m' & E1 & E2 & E3 & _).
  - apply sample_dbl_env. change (regs at_stub rsp) with 0x10000. change (@REDZONE_SIZE kernel_config) with 0. lia.
  - exact at_stub_wf.
  - split; vm_compute; congruence.
  - unfold in_width. lia.
  - lia.
  - vm_compute. reflexivity.
  - exists code, m'. split; [exact E1|]. split; [exact E2|exact E3].
Defined.

Lemma dbl_retry_shifts_stack_witness :
  exists code m', patch_instruction_entrypoint (H := user_config) false 0x7000 0x300 0x100 0x200 = Ret code /\
    run 0 no_native (stub_callee 0x77 0x100 0x200 0x300 0x1240 (clobbering_top 0x900000) (sample_patch 0x5000)
      0x6000 0x1006 code) [call_ind_ (OAbs 0x8000)] at_stub = Ret (ToPc 0x5000, m') /\
    regs m' rsp = 0x10000 + 128.
Proof.
  destruct (dbl_retry_shifts_stack (H := user_config) 0x77 0x100 0x200 0x300 0x1240 (clobbering_top 0x900000)
    (sample_patch 0x5000) false 0x7000 0x8000 0x6000 0x1006 at_stub 0x20000 0x900000 0x5000)
    as (code & m' & E1 & E2 & E3).
  - reflexivity.
  - apply sample_dbl_env. change (regs at_stub rsp) with 0x10000. lia.
  - exact at_stub_wf.
  - split; vm_compute; congruence.
  - unfold in_width. lia.
  - lia.
  - vm_compute. reflexivity.
  - exists code, m'. split; [exact E1|]. split; [exact E2|exact E3].
Defined.

(** In kernel builds the stacks are switched before the registers are saved,
    so a helper that clobbers a caller-saved register, as the calling
    convention allows, is seen by the code after the branch. *)
Example patch_entry_clobbers :
  match patch_instruction_entrypoint (H := kernel_config) false 0x7000 0x300 0x100 0x200 with
  | Ret code =>
      match run 0 no_native (dbl_callee 0x77 0x100 0x200 0x300 0x1240
              (clobbering_top 0x900000) (sample_patch 0x5000))
              code (push 0x1234 at_stub) with
      | Ret (ToPc a, m') => a = 0x5000 /\ regs at_stub rcx = 2 /\ regs m' rcx = 0
      | _ => False
      end
  | _ => False
  end.
Proof. vm_compute. repeat split. Qed.
