(* ===== verification/Interrupt.v ===== *)
(** * Interrupt entry: [granary/kernel/interrupt.cc], [interrupt.h]

    Granary replaces the handlers of the interrupt descriptor table.  The
    handler of a vector ([emit_interrupt_routine]) saves the two argument
    registers and the flags and calls a common routine
    ([emit_common_interrupt_routine]); an interrupt of user code goes on to
    the handler of the kernel at once, an interrupt of kernel code is first
    shown to [handle_interrupt] on the private stack.  Its answer decides
    how the routine is left: to the handler of the kernel
    ([INTERRUPT_DEFER]), back to the interrupted code with an [iret]
    ([INTERRUPT_IRET]), or with a plain return to the address in the frame
    ([INTERRUPT_RETURN]).

    The theorem is that each way out restores the interrupted machine: the
    routine is invisible to the handler of the kernel, and the code that is
    resumed has its registers, its stack and the flags of the frame. *)

From Stdlib Require Import ZArith Lia Bool.
From stdpp Require Import base numbers list option.
From S2P Require Import Prelude Policy Register Machine EmitUtils PrivateStack PrivateCall.

(** ** Vectors and frames *)
Definition VECTOR_NMI : Z := 2.
Definition VECTOR_BREAKPOINT : Z := 3.
Definition VECTOR_PAGE_FAULT : Z := 14.
Definition VECTOR_SYSCALL : Z := 0x80.

Definition has_error_code (vector : Z) : bool :=
  match vector with
  | 0 | 1 | 2 | 3 | 4 | 5 | 6 | 7 => false
  | 8 => true
  | 9 => false
  | 10 | 11 | 12 | 13 | 14 => true
  | 15 | 16 => false
  | 17 => true
  | _ => false
  end.

#[export] Instance interrupt_handled_state_eq_dec : EqDecision interrupt_handled_state.
Proof. solve_decision. Defined.

Definition handled_value (s : interrupt_handled_state) : Z :=
  match s with INTERRUPT_RETURN => -1 | INTERRUPT_DEFER => 0 | INTERRUPT_IRET => 1 end.

Record interrupt_stack_frame := {
  error_code : Z;
  instruction_pointer : Z;
  segment_cs : Z;
  isf_flags : Z;
  stack_pointer : Z;
  segment_ss : Z
}.

(** The frame at address [a], but for the error code, which not every vector
    has. *)
Definition frame_at (f : Z -> Z) (a : Z) (i : interrupt_stack_frame) : Prop :=
  read64 f (a + 8) = instruction_pointer i /\ read64 f (a + 16) = segment_cs i /\
  read64 f (a + 24) = isf_flags i /\ read64 f (a + 32) = stack_pointer i /\ read64 f (a + 40) = segment_ss i.

(** ** The handler of a vector

    [arg1], [arg2] and [ret] are [rdi], [rsi] and [rax].  [staged_loc] is
    where the code is put together, [slot] the memory from which a far target
    is read. *)
Definition emit_interrupt_routine (staged_loc slot vector_num original_routine common_interrupt_routine : Z)
    : list instr :=
  let vec_has_error_code := has_error_code vector_num in
  let ls :=
    [push_ (OReg rsp)] ++
    (if vec_has_error_code then [] else [push_ (OMem rsp 0)]) ++
    [ push_ (OReg rdi);
      push_ (OReg rsi);
      lea_ rdi rsp 24;
      mov_imm_ rsi vector_num;
      pushf_;
      call_ common_interrupt_routine;
      popf_;
      pop_ rsi;
      pop_ rdi;
      pop_ rsp ] in
  cursor_list (insert_cti_after staged_loc original_routine None slot CTI_JMP {| before := ls; after := [] |}).

(** ** The common routine *)
Definition in_kernel : nat := 0.
Definition ret_path : nat := 1.
Definition defer_path : nat := 2.

Definition common_saved_regs (test : bool) : outcome register_manager :=
  rm ← revive_regs [rdi; rsi; rax] (kill_all register_manager_ctor);
  if test then Ret rm else revive_regs [rbx; rbp; r12; r13; r14; r15] rm.

(** The test for a change of privilege level, and the way back of an
    interrupt of user code. *)
Definition common_entry : list instr :=
  [ push_ (OReg rdi);
    push_ (OReg rax);
    mov_ld_ rax (OMem rdi 16);
    or_ (OReg rax) (OMem rdi 40);
    and_ (OReg rax) (OImm 3);
    jz_ in_kernel;
    pop_ rax;
    lea_ rsp rsp 8;
    ret_;
    label_ in_kernel ].

Definition iret_code : list instr :=
  [ lea_ rsp rsp 24;
    pop_ rsi;
    pop_ rdi;
    lea_ rsp rsp 16;
    iret_ ].

Definition return_code : list instr :=
  [ pop_ rdi;
    push_ (OReg rax);
    mov_ld_ rax (OMem rdi 32);
    mov_ld_ rsi (OMem rdi 8);
    mov_st_ (OMem rax (-8)) rsi;
    mov_ld_ rsi (OMem rdi 24);
    mov_st_ (OMem rax (-16)) rsi;
    mov_ld_ rsi (OMem rsp 0);
    mov_st_ (OMem rax (-24)) rsi;
    lea_ rax rax (-24);
    mov_ld_ rsi (OMem rsp 24);
    mov_ld_ rdi (OMem rsp 32);
    mov_ld_ rsp (OReg rax);
    pop_ rax;
    popf_;
    ret_ ].

Definition defer_code : list instr := [lea_ rsp rsp 8; ret_].

(** What is appended behind the restored registers. *)
Definition common_exit : list instr :=
  [xor_32 rax rax; cmp_32 rdi rax; pop_ rax; jl_ ret_path; jz_ defer_path] ++
  iret_code ++ [label_ ret_path] ++ return_code ++ [label_ defer_path] ++ defer_code.

Definition emit_common_interrupt_routine (test : bool) (staged_loc handle_fn enter_fn exit_fn : Z)
    : outcome (list instr) :=
  rm ← common_saved_regs test;
  in_ ← save_and_restore_registers ZOMBIE_FUEL rm {| before := common_entry; after := [] |};
  let in_ := insert_call staged_loc enter_fn in_ in
  let in_ := insert_call staged_loc handle_fn in_ in
  let in_ := insert_after (mov_ld_ rdi (OReg rax)) in_ in
  let in_ := insert_call staged_loc exit_fn in_ in
  Ret (cursor_list in_ ++ common_exit).

(** ** Lemmas: what is saved on entry *)

(** A register is not one of those listed. *)
Ltac not_listed := rewrite !not_elem_of_cons; repeat split; try discriminate; try assumption; apply not_elem_of_nil.

(** The address that [handle_interrupt] is given: the frame with room for an
    error code. *)
Definition isf_ptr (vector sp : Z) : Z := if has_error_code vector then sp else sp - 8.

(** The words that the two routines have pushed below the frame at [F], when
    the machine was [m0]. *)
Record entry_saved (m0 : mach) (F ra : Z) (m : mach) : Prop := {
  es_sp : regs m rsp = F - 56;
  es_rax : read64 (mem m) (F - 56) = regs m0 rax;
  es_isf : read64 (mem m) (F - 48) = F;
  es_ra : read64 (mem m) (F - 40) = ra;
  es_flags : read64 (mem m) (F - 32) = flags m0;
  es_rsi : read64 (mem m) (F - 24) = regs m0 rsi;
  es_rdi : read64 (mem m) (F - 16) = regs m0 rdi;
  es_rsp : read64 (mem m) (F - 8) = regs m0 rsp;
  es_regs : forall r, r ∉ [rsp; rax; rdi; rsi] -> regs m r = regs m0 r
}.

Lemma entry_saved_mem m0 F ra m m' :
  64 <= F < 2 ^ 64 -> entry_saved m0 F ra m -> regs m' rsp = F - 56 ->
  (forall x, F - 56 <= x < F -> mem m' x = mem m x) ->
  (forall r, r ∉ [rsp; rax; rdi; rsi] -> regs m' r = regs m0 r) -> entry_saved m0 F ra m'.
Proof.
  intros HF [] Hsp Hmem Hregs.
  assert (E : forall a, F - 56 <= a <= F - 8 -> read64 (mem m') a = read64 (mem m) a).
  { intros a Ha. apply read64_ext; [split; lia|]. intros x Hx. apply Hmem. lia. }
  constructor; rewrite ?E by lia; done.
Qed.

(** The instructions of the handler before its call. *)
Definition routine_entry (vector : Z) : list instr :=
  [push_ (OReg rsp)] ++ (if has_error_code vector then [] else [push_ (OMem rsp 0)]) ++
  [push_ (OReg rdi); push_ (OReg rsi); lea_ rdi rsp 24; mov_imm_ rsi vector; pushf_].

(** A machine in which an interrupt of vector [vector] has just been
    delivered: the frame lies below [hi]. *)
Record delivered (vector hi : Z) (m : mach) : Prop := {
  dl_vector : 0 <= vector < 256;
  dl_wf : wf_regs m;
  dl_flags : in_width 64 (flags m);
  dl_room : 1024 <= regs m rsp;
  dl_frame : isf_ptr vector (regs m rsp) + 48 <= hi < 2 ^ 64
}.

Lemma routine_entry_run vector hi m0 ra :
  delivered vector hi m0 -> in_width 64 ra ->
  let F := isf_ptr vector (regs m0 rsp) in
  exists m1 m2, exec_list no_native (routine_entry vector) m0 = Some m1 /\
    exec_list no_native [push_ (OReg rdi); push_ (OReg rax)] (push ra m1) = Some m2 /\
    entry_saved m0 F ra m2 /\ regs m2 rdi = F /\ regs m2 rsi = vector /\ regs m2 rax = regs m0 rax /\ wf_regs m2 /\
    (forall x, 0 <= x < 2 ^ 64 -> x < F - 56 \/ regs m0 rsp <= x -> mem m2 x = mem m0 x).
Proof.
  intros [Hv Hwf Hfl Hlo Hhi] Hra F. pose proof (Hwf rdi). pose proof (Hwf rsi). pose proof (Hwf rax).
  pose proof (Hwf rsp). unfold in_width in *. unfold F, isf_ptr, routine_entry in *.
  destruct (has_error_code vector) eqn:Eec; cbn [app exec_list exec1 get_op]; unfold push, ea;
    cbn -[Z.add Z.sub]; (eexists; eexists; split; [reflexivity|]; split; [reflexivity|]);
    set (s := regs m0 rsp) in *; cbn -[Z.add Z.sub]; machine;
    (split; [constructor; cbn -[Z.add Z.sub]; fold s; machine;
               first [lia | done | intros [] Hr; try done; by rewrite !not_elem_of_cons in Hr; tauto]|]);
    (split; [lia|]); (split; [done|]); (split; [done|]);
    (split; [intros []; cbn -[Z.add Z.sub]; (apply Hwf || (split; lia))|]);
    intros x Hx Hd; rewrite !write64_other by (try split; lia); done.
Qed.

(** ** Lemmas: the ways out *)

(** The machine when [rax] has been restored. *)
Record popped (m0 : mach) (F ra : Z) (m : mach) : Prop := {
  pd_sp : regs m rsp = F - 48;
  pd_isf : read64 (mem m) (F - 48) = F;
  pd_ra : read64 (mem m) (F - 40) = ra;
  pd_flags : read64 (mem m) (F - 32) = flags m0;
  pd_rsi : read64 (mem m) (F - 24) = regs m0 rsi;
  pd_rdi : read64 (mem m) (F - 16) = regs m0 rdi;
  pd_rsp : read64 (mem m) (F - 8) = regs m0 rsp;
  pd_regs : forall r, r ∉ [rsp; rdi; rsi] -> regs m r = regs m0 r
}.

Lemma pop_rax_run m0 F ra m :
  64 <= F < 2 ^ 64 -> entry_saved m0 F ra m ->
  exists m', exec1 no_native (pop_ rax) m = Next m' /\ popped m0 F ra m' /\ mem m' = mem m /\ flags m' = flags m /\
    regs m' rdi = regs m rdi.
Proof.
  intros HF []. rewrite exec_pop by lia. eexists. split; [reflexivity|].
  split; [|done]. constructor; cbn -[Z.add Z.sub]; rewrite ?es_sp0; try done; try lia.
  intros r Hr. rewrite !not_elem_of_cons in Hr. destruct Hr as (? & ? & ? & _).
  destruct (decide (r = rax)) as [->|Hne]; [done|]. destruct r; try done; apply es_regs0; not_listed.
Qed.

Lemma defer_run go cl m0 F ra m :
  64 <= F < 2 ^ 64 -> popped m0 F ra m ->
  exists m', run_from go no_native cl defer_code m = Ret (ToPc ra, m') /\ regs m' rsp = F - 32 /\
    mem m' = mem m /\ (forall r, r ∉ [rsp; rdi; rsi] -> regs m' r = regs m0 r).
Proof.
  intros HF []. unfold defer_code. cbn [run_from exec1]. unfold ea, top, drop_top. cbn -[Z.add Z.sub].
  rewrite pd_sp0. machine. replace (F - 48 + 8) with (F - 40) by lia. rewrite pd_ra0.
  eexists. split; [reflexivity|]. cbn -[Z.add Z.sub]. split; [lia|]. split; [done|].
  intros r Hr. rewrite <- (pd_regs0 r Hr). rewrite !not_elem_of_cons in Hr. destruct r; try done; tauto.
Qed.

(** The handler behind its call. *)
Lemma routine_exit_run m0 F m :
  64 <= F -> F + 8 < 2 ^ 64 -> regs m rsp = F - 32 ->
  read64 (mem m) (F - 32) = flags m0 -> read64 (mem m) (F - 24) = regs m0 rsi ->
  read64 (mem m) (F - 16) = regs m0 rdi -> read64 (mem m) (F - 8) = regs m0 rsp ->
  (forall r, r ∉ [rsp; rdi; rsi] -> regs m r = regs m0 r) ->
  exists m', exec_list no_native [popf_; pop_ rsi; pop_ rdi; pop_ rsp] m = Some m' /\
    (forall r, regs m' r = regs m0 r) /\ flags m' = flags m0 /\ mem m' = mem m.
Proof.
  intros HF HF' Hsp Hfl Hsi Hdi Hrsp Hr. cbn [exec_list exec1]. unfold top, drop_top. cbn -[Z.add Z.sub].
  rewrite Hsp. machine. replace (F - 32 + 8) with (F - 24) by lia. replace (F - 24 + 8) with (F - 16) by lia.
  replace (F - 16 + 8) with (F - 8) by lia. rewrite Hfl, Hsi, Hdi, Hrsp.
  eexists. split; [reflexivity|]. split; [|done]. intros r. cbn -[Z.add Z.sub].
  destruct (decide (r ∈ [rsp; rdi; rsi])) as [Hin|Hn].
  - rewrite !elem_of_cons, elem_of_nil in Hin. destruct Hin as [->|[->|[->|[]]]]; done.
  - rewrite <- (Hr r Hn). rewrite !not_elem_of_cons in Hn. destruct r; try done; tauto.
Qed.

Lemma iret_run go cl m0 F ra m rest :
  64 <= F -> F + 8 < 2 ^ 64 -> popped m0 F ra m ->
  exists m', run_from go no_native cl (iret_code ++ rest) m = Ret (Iret, m') /\ regs m' rsp = F + 8 /\
    (forall r, r <> rsp -> regs m' r = regs m0 r) /\ mem m' = mem m.
Proof.
  intros HF HF' []. unfold iret_code. cbn [app run_from exec1]. unfold ea, top, drop_top. cbn -[Z.add Z.sub].
  rewrite pd_sp0. machine. replace (F - 48 + 24) with (F - 24) by lia. replace (F - 24 + 8) with (F - 16) by lia.
  rewrite pd_rsi0, pd_rdi0. eexists. split; [reflexivity|]. split; [cbn -[Z.add Z.sub]; lia|]. split; [|done].
  intros r Hne. cbn -[Z.add Z.sub]. destruct (decide (r ∈ [rsp; rdi; rsi])) as [Hin|Hn].
  - rewrite !elem_of_cons, elem_of_nil in Hin. destruct Hin as [->|[->|[->|[]]]]; done.
  - rewrite <- (pd_regs0 r Hn). rewrite !not_elem_of_cons in Hn. destruct r; try done; tauto.
Qed.

(** The stack of the interrupted code, to which three words are pushed, is
    above the frame, as the processor leaves it, or a different one. *)
Definition apart (F sp : Z) : Prop := F + 48 <= sp \/ sp <= F - 48.

Definition return_head : list instr :=
  [pop_ rdi; push_ (OReg rax); mov_ld_ rax (OMem rdi 32); mov_ld_ rsi (OMem rdi 8); mov_st_ (OMem rax (-8)) rsi].
Definition return_middle : list instr :=
  [mov_ld_ rsi (OMem rdi 24); mov_st_ (OMem rax (-16)) rsi; mov_ld_ rsi (OMem rsp 0); mov_st_ (OMem rax (-24)) rsi].
Definition return_tail : list instr :=
  [lea_ rax rax (-24); mov_ld_ rsi (OMem rsp 24); mov_ld_ rdi (OMem rsp 32); mov_ld_ rsp (OReg rax); pop_ rax; popf_].

Lemma return_head_run m0 F ra m S ip :
  64 <= F -> F + 48 < 2 ^ 64 -> popped m0 F ra m -> read64 (mem m) (F + 32) = S -> read64 (mem m) (F + 8) = ip ->
  24 <= S < 2 ^ 64 ->
  exists m1, exec_list no_native return_head m = Some m1 /\ regs m1 rsp = F - 48 /\ regs m1 rdi = F /\
    regs m1 rax = S /\ mem m1 = write64 (write64 (mem m) (F - 48) (regs m0 rax)) (S - 8) ip /\
    (forall r, r ∉ [rsp; rdi; rsi; rax] -> regs m1 r = regs m0 r).
Proof.
  intros HF HF' [] HS Hip WS. assert (Hax : regs m rax = regs m0 rax) by (apply pd_regs0; not_listed).
  unfold return_head. cbn [exec_list exec1 get_op set_op]. unfold ea, top, drop_top, push. cbn -[Z.add Z.sub].
  rewrite pd_sp0, pd_isf0, Hax. machine. replace (F - 48 + 8 - 8) with (F - 48) by lia. machine. rewrite HS, Hip.
  machine. replace (S + -8) with (S - 8) by lia. eexists. split; [reflexivity|]. cbn -[Z.add Z.sub].
  split; [done|]. split; [done|]. split; [done|]. split; [done|].
  intros r Hr. rewrite <- pd_regs0 by (rewrite !not_elem_of_cons in *; tauto).
  rewrite !not_elem_of_cons in Hr. destruct r; try done; tauto.
Qed.

Lemma return_middle_run F m S fl ax :
  64 <= F -> F + 48 < 2 ^ 64 -> 24 <= S < 2 ^ 64 -> apart F S -> in_width 64 fl -> in_width 64 ax ->
  regs m rsp = F - 48 -> regs m rdi = F -> regs m rax = S ->
  read64 (mem m) (F + 24) = fl -> read64 (mem m) (F - 48) = ax ->
  exists m1, exec_list no_native return_middle m = Some m1 /\ regs m1 rsp = F - 48 /\ regs m1 rax = S /\
    mem m1 = write64 (write64 (mem m) (S - 16) fl) (S - 24) ax /\
    (forall r, r <> rsi -> regs m1 r = regs m r).
Proof.
  intros HF HF' HS Hap Wfl Wax Hsp Hdi Hax Hfl Haxm. unfold apart in Hap.
  unfold return_middle. cbn [exec_list exec1 get_op set_op]. unfold ea. cbn -[Z.add Z.sub].
  rewrite Hsp, Hdi, Hax. rewrite Z.add_0_r. machine. rewrite Hfl, Haxm.
  replace (S + -16) with (S - 16) by lia. replace (S + -24) with (S - 24) by lia.
  eexists. split; [reflexivity|]. cbn -[Z.add Z.sub]. split; [done|]. split; [done|]. split; [done|].
  intros r Hr. destruct r; done.
Qed.

Lemma return_tail_run F m S ip fl ax si di :
  64 <= F -> F + 48 < 2 ^ 64 -> 24 <= S < 2 ^ 64 -> in_width 64 ip ->
  regs m rsp = F - 48 -> regs m rax = S -> read64 (mem m) (F - 24) = si -> read64 (mem m) (F - 16) = di ->
  read64 (mem m) (S - 24) = ax -> read64 (mem m) (S - 16) = fl ->
  exists m1, exec_list no_native return_tail m = Some m1 /\ regs m1 rsp = S - 8 /\ flags m1 = fl /\
    regs m1 rsi = si /\ regs m1 rdi = di /\ regs m1 rax = ax /\ mem m1 = mem m /\
    (forall r, r ∉ [rsp; rdi; rsi; rax] -> regs m1 r = regs m r).
Proof.
  intros HF HF' HS Wip Hsp Hax Hsi Hdi Haxm Hfl. unfold return_tail. cbn [exec_list exec1 get_op].
  unfold ea, top, drop_top. cbn -[Z.add Z.sub]. rewrite Hsp, Hax. machine.
  replace (S + -24 + 8) with (S - 16) by lia. replace (S + -24) with (S - 24) by lia. machine.
  replace (F - 48 + 24) with (F - 24) by lia. replace (F - 48 + 32) with (F - 16) by lia. rewrite Hsi, Hdi, Haxm, Hfl.
  eexists. split; [reflexivity|]. cbn -[Z.add Z.sub]. split; [lia|]. repeat (split; [done|]).
  intros r Hr. rewrite !not_elem_of_cons in Hr. destruct r; try done; tauto.
Qed.

Lemma return_run go cl m0 F ra m f rest :
  64 <= F -> F + 48 < 2 ^ 64 -> popped m0 F ra m -> frame_at (mem m) F f ->
  in_width 64 (instruction_pointer f) -> in_width 64 (isf_flags f) -> wf_regs m0 ->
  24 <= stack_pointer f < 2 ^ 64 -> apart F (stack_pointer f) ->
  exists m', run_from go no_native cl (return_code ++ rest) m = Ret (ToPc (instruction_pointer f), m') /\
    regs m' rsp = stack_pointer f /\ flags m' = isf_flags f /\ (forall r, r <> rsp -> regs m' r = regs m0 r) /\
    (forall x, F <= x < 2 ^ 64 -> x < stack_pointer f - 24 \/ stack_pointer f <= x -> mem m' x = mem m x).
Proof.
  intros HF HF' Hp (Hip & Hcs & Hfl & Hsp & Hss) Wip Wfl Hwf HS Hap. pose proof (Hwf rax) as Wax. pose proof Hap as Hd.
  unfold apart in Hd. set (S := stack_pointer f) in *.
  destruct (return_head_run m0 F ra m S (instruction_pointer f)) as (m1 & E1 & S1 & D1 & A1 & M1 & R1); try done.
  assert (K : forall a, F - 48 <= a <= F + 40 -> a <> F - 48 -> (a + 8 <= S - 8 \/ S <= a) -> a >= F - 40 ->
    read64 (mem m1) a = read64 (mem m) a).
  { intros a Ha Hne Hda Hge. rewrite M1. rewrite !read64_write64_other by (unfold word_at; lia). done. }
  destruct (return_middle_run F m1 S (isf_flags f) (regs m0 rax)) as (m2 & E2 & S2 & A2 & M2 & R2); try done.
  { rewrite K by lia. done. }
  { rewrite M1. rewrite read64_write64_other by (unfold word_at; lia). now apply read64_write64_same. }
  destruct (return_tail_run F m2 S (instruction_pointer f) (isf_flags f) (regs m0 rax) (regs m0 rsi) (regs m0 rdi))
    as (m3 & E3 & S3 & F3 & Si3 & Di3 & Ax3 & M3 & R3); try done.
  1-2: rewrite M2, !read64_write64_other, K by (unfold word_at; lia); by destruct Hp.
  { rewrite M2. now apply read64_write64_same. }
  { rewrite M2, read64_write64_other by (unfold word_at; lia). now apply read64_write64_same. }
  change return_code with (return_head ++ return_middle ++ return_tail ++ [ret_]). rewrite <- !app_assoc.
  rewrite (run_from_straight _ _ _ _ _ _ _ E1), (run_from_straight _ _ _ _ _ _ _ E2), (run_from_straight _ _ _ _ _ _ _ E3).
  cbn [app run_from exec1]. unfold top, drop_top. rewrite S3, M3, M2.
  rewrite !read64_write64_other by (unfold word_at; lia). rewrite M1, read64_write64_same by done.
  eexists. split; [reflexivity|]. split; [cbn -[Z.add Z.sub]; machine; lia|]. split; [done|]. split.
  - intros r Hr. rewrite regs_set_other by done.
    destruct (decide (r ∈ [rdi; rsi; rax])) as [Hin|Hn].
    + rewrite !elem_of_cons, elem_of_nil in Hin. destruct Hin as [->|[->|[->|[]]]]; done.
    + rewrite !not_elem_of_cons in Hn. destruct Hn as (? & ? & ? & _).
      rewrite R3, R2, R1; [done|not_listed|done|not_listed].
  - intros x Hx Hdx. cbn [mem set_reg]. rewrite M3, M2, !write64_other, M1, !write64_other by (try split; lia). done.
Qed.

(** ** Lemmas: the common routine *)
Definition saved_list (test : bool) : list reg :=
  if test then [rcx; rdx; rbx; rbp; r8; r9; r10; r11; r12; r13; r14; r15] else [rcx; rdx; r8; r9; r10; r11].

Lemma saved_cursor test :
  (rm ← common_saved_regs test;
   save_and_restore_registers ZOMBIE_FUEL rm {| before := common_entry; after := [] |}) =
  Ret {| before := common_entry ++ map (fun r => push_ (OReg r)) (saved_list test);
         after := map pop_ (rev (saved_list test)) |}.
Proof. destruct test; vm_compute; reflexivity. Qed.

Lemma common_code test staged handle_fn enter_fn exit_fn :
  emit_common_interrupt_routine test staged handle_fn enter_fn exit_fn =
    Ret (common_entry ++ map (fun r => push_ (OReg r)) (saved_list test) ++
         private_call enter_fn exit_fn handle_fn staged ++ map pop_ (rev (saved_list test)) ++ common_exit).
Proof.
  unfold emit_common_interrupt_routine. pose proof (saved_cursor test) as E.
  destruct (common_saved_regs test) as [rm| |]; cbn [mbind outcome_bind] in *; [|discriminate E..].
  rewrite E. cbn [mbind outcome_bind]. rewrite !insert_call_instrs. unfold insert_after, cursor_list, private_call.
  cbn [before after]. by rewrite <- !app_assoc.
Qed.

(** Whether the frame is that of an interrupt of user code. *)
Definition from_user (f : interrupt_stack_frame) : bool :=
  negb (Z.land (Z.lor (segment_cs f) (segment_ss f)) 3 =? 0).

Lemma privilege_test_run F f m :
  0 <= F -> F + 48 < 2 ^ 64 -> regs m rdi = F -> frame_at (mem m) F f -> wf_regs m ->
  in_width 64 (segment_cs f) -> in_width 64 (segment_ss f) ->
  exists m', exec_list no_native
      [mov_ld_ rax (OMem rdi 16); or_ (OReg rax) (OMem rdi 40); and_ (OReg rax) (OImm 3)] m = Some m' /\
    get_flag ZF (flags m') = negb (from_user f) /\ mem m' = mem m /\ wf_regs m' /\
    (forall r, r <> rax -> regs m' r = regs m r).
Proof.
  intros H0 HF Hdi (_ & Hcs & _ & _ & Hss) Hwf Wcs Wss. cbn [exec_list exec1]. unfold logic. cbn -[Z.add Z.sub Z.land Z.lor].
  unfold ea. cbn -[Z.add Z.sub Z.land Z.lor]. rewrite Hdi. machine. rewrite Hcs, Hss.
  change (u64 3) with 3.
  eexists. split; [reflexivity|]. split; [|split; [done|]].
  - cbn [flags set_flags set_op]. rewrite result_flags_ZF. unfold from_user. by rewrite negb_involutive.
  - split; [|intros r Hr; destruct r; done].
    assert (W3 : in_width 64 (Z.land (Z.lor (segment_cs f) (segment_ss f)) 3)).
    { change 3 with (Z.ones 2). rewrite Z.land_ones by lia. unfold in_width.
      pose proof (Z.mod_pos_bound (Z.lor (segment_cs f) (segment_ss f)) (2 ^ 2) ltac:(lia)). lia. }
    intros []; cbn -[Z.land Z.lor]; (apply Hwf || exact W3).
Qed.

(** The answer in [rdi] is tested on its low half. *)
Lemma answer_test_run s m :
  regs m rdi = u64 (handled_value s) ->
  exists m', exec_list no_native [xor_32 rax rax; cmp_32 rdi rax] m = Some m' /\ mem m' = mem m /\
    (forall r, r <> rax -> regs m' r = regs m r) /\
    xorb (get_flag SF (flags m')) (get_flag OF (flags m')) =
      bool_decide (s = INTERRUPT_RETURN) /\
    get_flag ZF (flags m') = bool_decide (s = INTERRUPT_DEFER).
Proof.
  intros Hdi. cbn [exec_list exec1]. eexists. split; [reflexivity|]. split; [done|].
  split; [intros r Hr; destruct r; done|].
  unfold compare. cbn [flags set_flags]. rewrite result_flags_SF, result_flags_OF, result_flags_ZF.
  cbn -[Z.lxor Z.sub Z.testbit]. rewrite Z.lxor_nilpotent, Hdi. by destruct s.
Qed.

Section Entry.
Context (test : bool) (staged_common common_fn handle_fn enter_fn exit_fn top_fn ra ra_private : Z).
Context (top_sem : callee_sem) (handle_sem : mach -> outcome (option exit * mach)).

Abbreviation common_callee := (private_callee top_fn enter_fn exit_fn handle_fn ra_private top_sem handle_sem).

(** [handle_interrupt], called with the frame at [F], obeys the calling
    convention, answers [s], and leaves the native stack as it is but for the
    instruction pointer and the flags of the frame. *)
Definition handles (F vector hi : Z) (s : interrupt_handled_state) (ip fl : Z) : Prop :=
  forall m, regs m rdi = F -> regs m rsi = vector -> wf_regs m -> regs m rsp + 8 <= F \/ hi <= regs m rsp ->
    exists m', handle_sem m = Ret (None, m') /\ regs m' rax = u64 (handled_value s) /\
      regs m' rsp = regs m rsp /\ (forall r, r ∈ callee_saved -> regs m' r = regs m r) /\ wf_regs m' /\
      read64 (mem m') (regs m rsp) = read64 (mem m) (regs m rsp) /\
      (forall x, F - 256 <= x < hi -> mem m' x = write64 (write64 (mem m) (F + 8) ip) (F + 24) fl x).

(** Distinct addresses, and a private stack apart from the native one. *)
Record entry_env (F hi P : Z) : Prop := {
  ee_addrs : Forall (in_width 64) [enter_fn; exit_fn; handle_fn; ra_private];
  ee_distinct : NoDup [enter_fn; exit_fn; handle_fn];
  ee_private : 32 <= P < 2 ^ 64 /\ (P <= F - 256 \/ hi <= P - 24);
  ee_top : forall m, F - 256 <= regs m rsp <= F -> gives_top top_sem top_fn P hi m
}.

Lemma write64_ext f g a v x : f x = g x -> write64 f a v x = write64 g a v x.
Proof. intros E. unfold write64. by destruct (_ <? 8). Qed.

Lemma kernel_body_run go m0 F vector hi P ra0 m s ip fl rest :
  1024 <= F + 16 -> F + 48 <= hi < 2 ^ 64 -> entry_env F hi P -> handles F vector hi s ip fl ->
  entry_saved m0 F ra0 m -> regs m rdi = F -> regs m rsi = vector -> wf_regs m ->
  exists m', run_from go no_native common_callee
      (map (fun r => push_ (OReg r)) (saved_list test) ++ private_call enter_fn exit_fn handle_fn staged_common ++
       map pop_ (rev (saved_list test)) ++ rest) m = run_from go no_native common_callee rest m' /\
    entry_saved m0 F ra0 m' /\ regs m' rdi = u64 (handled_value s) /\
    (forall x, F - 56 <= x < hi -> mem m' x = write64 (write64 (mem m) (F + 8) ip) (F + 24) fl x).
Proof.
  intros HF Hhi [Haddr Hnd (HP & Hap) Htop] Hh Hes Hdi Hsi Hwf. pose proof (es_sp _ _ _ _ Hes) as Hsp.
  assert (Hlen : (length (saved_list test) <= 12)%nat) by (destruct test; cbn; lia).
  assert (Hin : forall r, r ∈ saved_list test -> r ∉ [rsp; rax; rdi; rsi]).
  { intros r Hr. destruct test; cbn in Hr; rewrite !elem_of_cons, elem_of_nil in Hr;
      repeat (destruct Hr as [->|Hr]; [not_listed|]); done. }
  assert (Hall : forall r, r ∉ [rsp; rax; rdi; rsi] -> r ∉ saved_list test -> r ∈ callee_saved).
  { unfold callee_saved, saved_list. intros r Hr Hn. rewrite !not_elem_of_cons in Hr. rewrite !elem_of_cons.
    destruct test; rewrite !not_elem_of_cons in Hn; destruct r; tauto. }
  destruct (save_restore_exec no_native (saved_list test) m) as (m1 & E1 & S1 & R1 & _ & M1 & K);
    [destruct test; apply (bool_decide_unpack _); vm_compute; exact I
    |intros Hr; apply Hin in Hr; rewrite !not_elem_of_cons in Hr; tauto|done|lia|lia|].
  assert (Wf1 : wf_regs m1).
  { intros r. destruct (decide (r = rsp)) as [->|Hr]; [split; lia|]. rewrite R1 by done. apply Hwf. }
  destruct (private_call_run top_fn enter_fn exit_fn handle_fn ra_private top_sem handle_sem go staged_common m1
    (map pop_ (rev (saved_list test)) ++ rest) hi P (u64 (handled_value s))
    (write64 (write64 (mem m1) (F + 8) ip) (F + 24) fl)) as (m2 & E2 & S2 & D2 & C2 & M2).
  { constructor; [done|done|lia|lia|]. intros mx Hx. apply Htop. lia. }
  { done. }
  { intros mx Hxd Hxs Hwx Hxm Hxsp. destruct (Hh mx) as (my & Ey & Ay & Sy & Cy & Wy & Ty & My);
      [rewrite Hxd, R1 by done; done|rewrite Hxs, R1 by done; done|done|lia|].
    exists my. repeat (split; [done|]). intros x Hx. rewrite My by lia.
    apply write64_ext, write64_ext. now apply Hxm. }
  destruct (K m2) as (m3 & E3 & M3 & _ & S3 & R3 & Rn3).
  { done. }
  { intros x Hx. rewrite M2 by lia. rewrite !write64_other by (try split; lia). done. }
  assert (Hmem : forall x, F - 56 <= x < hi -> mem m3 x = write64 (write64 (mem m) (F + 8) ip) (F + 24) fl x).
  { intros x Hx. rewrite M3, M2 by lia. apply write64_ext, write64_ext. apply M1; lia. }
  exists m3. split; [|split; [|split]].
  - rewrite (run_from_straight _ _ _ _ _ _ _ E1), E2. now apply run_from_straight.
  - apply (entry_saved_mem m0 F ra0 m); try done; [lia|congruence| |].
    + intros x Hx. rewrite Hmem by lia. rewrite !write64_other by (try split; lia). done.
    + intros r Hr. rewrite <- (es_regs _ _ _ _ Hes) by done.
      destruct (decide (r ∈ saved_list test)) as [Hs|Hs]; [now apply R3|].
      rewrite !not_elem_of_cons in Hr. rewrite Rn3 by tauto. rewrite C2 by (apply Hall; rewrite ?not_elem_of_cons; tauto).
      apply R1. tauto.
  - rewrite Rn3; [done| |done]. intros Hr. apply Hin in Hr. rewrite !not_elem_of_cons in Hr. tauto.
  - exact Hmem.
Qed.

(** The code of the routine, as [common_code] gives it. *)
Definition common_list : list instr :=
  common_entry ++ map (fun r => push_ (OReg r)) (saved_list test) ++
  private_call enter_fn exit_fn handle_fn staged_common ++ map pop_ (rev (saved_list test)) ++ common_exit.

Lemma call_instrs_labels staged target : forallb (fun i => negb (is_label i)) (call_instrs staged target) = true.
Proof. unfold call_instrs. by destruct (is_far_away staged target). Qed.

Lemma common_labels l : l <> in_kernel -> find_label l common_list = find_label l common_exit.
Proof.
  intros Hl. unfold common_list.
  assert (E : forall X, find_label l (common_entry ++ X) = find_label l X).
  { intros X. unfold common_entry. cbn [app find_label]. by rewrite decide_False. }
  rewrite E. rewrite find_label_skip by (by destruct test).
  unfold private_call. rewrite <- !app_assoc.
  rewrite !find_label_skip by (apply call_instrs_labels || (by destruct test) || done). done.
Qed.

Lemma branch_S n ns cl code l m :
  branch (S n) ns cl code l m =
    match find_label l code with None => Fault | Some rest => run_from (branch n ns cl code) ns cl rest m end.
Proof. done. Qed.

(** How the common routine is left: back to its caller, or to the interrupted
    code. *)
Definition common_left (m0 : mach) (F ra0 hi : Z) (s : interrupt_handled_state) (f : interrupt_stack_frame)
    (G : Z -> Z) (e : exit) (m' : mach) : Prop :=
  match s with
  | INTERRUPT_DEFER =>
      e = ToPc ra0 /\ regs m' rsp = F - 32 /\ (forall r, r ∉ [rsp; rdi; rsi] -> regs m' r = regs m0 r) /\
      (forall x, F - 56 <= x < hi -> mem m' x = G x)
  | INTERRUPT_IRET =>
      e = Iret /\ regs m' rsp = F + 8 /\ (forall r, r <> rsp -> regs m' r = regs m0 r) /\
      (forall x, F <= x < hi -> mem m' x = G x)
  | INTERRUPT_RETURN =>
      e = ToPc (instruction_pointer f) /\ regs m' rsp = stack_pointer f /\ flags m' = isf_flags f /\
      (forall r, r <> rsp -> regs m' r = regs m0 r) /\
      (forall x, F <= x < hi -> x < stack_pointer f - 24 \/ stack_pointer f <= x -> mem m' x = G x)
  end.

(** The frame with the instruction pointer and the flags replaced. *)
Definition with_resume (ip fl : Z) (f : interrupt_stack_frame) : interrupt_stack_frame :=
  {| error_code := error_code f; instruction_pointer := ip; segment_cs := segment_cs f; isf_flags := fl;
     stack_pointer := stack_pointer f; segment_ss := segment_ss f |}.

Lemma frame_at_ext f g a i :
  0 <= a -> a + 48 <= 2 ^ 64 -> (forall x, a <= x < a + 48 -> f x = g x) -> frame_at f a i -> frame_at g a i.
Proof.
  intros H0 Ha E (E1 & E2 & E3 & E4 & E5).
  assert (K : forall b, a <= b <= a + 40 -> read64 g b = read64 f b).
  { intros b Hb. apply read64_ext; [split; lia|]. intros x Hx. symmetry. apply E. lia. }
  unfold frame_at. rewrite !K by lia. done.
Qed.

Lemma frame_at_resume f a i ip fl :
  0 <= a -> a + 48 <= 2 ^ 64 -> in_width 64 ip -> in_width 64 fl -> frame_at f a i ->
  frame_at (write64 (write64 f (a + 8) ip) (a + 24) fl) a (with_resume ip fl i).
Proof.
  intros H0 Ha Wi Wf (E1 & E2 & E3 & E4 & E5). unfold frame_at, with_resume, in_width in *. cbn. machine. done.
Qed.

(** The end of the routine, from the answer on. *)
Lemma common_exit_run m0 F hi ra0 m s f :
  64 <= F -> F + 48 <= hi < 2 ^ 64 -> entry_saved m0 F ra0 m -> wf_regs m0 -> regs m rdi = u64 (handled_value s) ->
  frame_at (mem m) F f -> in_width 64 (instruction_pointer f) -> in_width 64 (isf_flags f) ->
  (s = INTERRUPT_RETURN -> 24 <= stack_pointer f < 2 ^ 64 /\ apart F (stack_pointer f)) ->
  exists e m', run_from (branch 1 no_native common_callee common_list) no_native common_callee common_exit m = Ret (e, m') /\
    common_left m0 F ra0 hi s f (mem m) e m'.
Proof.
  intros HF Hhi Hes Hwf Hdi Hfr Wip Wfl Hret. unfold common_exit.
  destruct (answer_test_run s m Hdi) as (m1 & E1 & M1 & R1 & Cl & Cz).
  change ([xor_32 rax rax; cmp_32 rdi rax; pop_ rax; jl_ ret_path; jz_ defer_path] ++ ?l) with
    ([xor_32 rax rax; cmp_32 rdi rax] ++ [pop_ rax; jl_ ret_path; jz_ defer_path] ++ l).
  rewrite (run_from_straight _ _ _ _ _ _ _ E1).
  destruct (pop_rax_run m0 F ra0 m1) as (m2 & E2 & Hp & M2 & F2 & _); [lia| |].
  { apply (entry_saved_mem m0 F ra0 m); try done; [lia|rewrite R1 by done; apply Hes|by intros; rewrite M1|].
    intros r Hr. rewrite R1 by (rewrite !not_elem_of_cons in Hr; tauto). now apply Hes. }
  cbn [app]. rewrite (run_from_next _ _ _ _ _ _ _ E2). cbn [run_from exec1]. rewrite F2, Cl.
  destruct s; [rewrite bool_decide_true by done|rewrite bool_decide_false by done..].
  - cbn [branch]. rewrite common_labels by done.
    destruct Hret as [HS Hap]; [done|].
    change (find_label ret_path common_exit) with (Some (return_code ++ [label_ defer_path] ++ defer_code)).
    destruct (return_run (branch 0 no_native common_callee common_list) common_callee m0 F ra0 m2 f
      ([label_ defer_path] ++ defer_code)) as (m3 & E3 & S3 & F3 & R3 & M3); try done; [lia|rewrite M2, M1; done|].
    exists (ToPc (instruction_pointer f)), m3. split; [exact E3|]. cbn. repeat (split; [done|]).
    intros x Hx Hd. rewrite M3, M2, M1 by lia. done.
  - rewrite F2, Cz. rewrite bool_decide_true by done. cbn [branch]. rewrite common_labels by done.
    change (find_label defer_path common_exit) with (Some defer_code).
    destruct (defer_run (branch 0 no_native common_callee common_list) common_callee m0 F ra0 m2)
      as (m3 & E3 & S3 & M3 & R3); [lia|done|].
    exists (ToPc ra0), m3. split; [exact E3|]. cbn. repeat (split; [done|]). intros x Hx. by rewrite M3, M2, M1.
  - rewrite F2, Cz. rewrite bool_decide_false by done.
    destruct (iret_run (branch 1 no_native common_callee common_list) common_callee m0 F ra0 m2
      ([label_ ret_path] ++ return_code ++ [label_ defer_path] ++ defer_code)) as (m3 & E3 & S3 & R3 & M3); [lia..|done|].
    exists Iret, m3. split; [exact E3|]. cbn. repeat (split; [done|]). intros x Hx. by rewrite M3, M2, M1.
Qed.

(** Interrupts of user code are deferred without asking. *)
Definition effective (f : interrupt_stack_frame) (s : interrupt_handled_state) : interrupt_handled_state :=
  if from_user f then INTERRUPT_DEFER else s.

(** The native stack when the handler has been asked. *)
Definition frame_memory (F ip fl : Z) (f : interrupt_stack_frame) (g : Z -> Z) : Z -> Z :=
  if from_user f then g else write64 (write64 g (F + 8) ip) (F + 24) fl.

(** A frame of 64-bit words, and where the interrupted stack is if it is to
    be returned to. *)
Record frame_ok (F : Z) (f : interrupt_stack_frame) (s : interrupt_handled_state) (ip fl : Z) : Prop := {
  fo_cs : in_width 64 (segment_cs f);
  fo_ss : in_width 64 (segment_ss f);
  fo_ip : in_width 64 ip;
  fo_fl : in_width 64 fl;
  fo_sp : s = INTERRUPT_RETURN -> 24 <= stack_pointer f < 2 ^ 64 /\ apart F (stack_pointer f)
}.

Lemma common_run m0 F vector hi P ra0 m m2 s ip fl f :
  1024 <= F + 16 -> F + 48 <= hi < 2 ^ 64 -> entry_env F hi P -> handles F vector hi s ip fl -> wf_regs m0 ->
  exec_list no_native [push_ (OReg rdi); push_ (OReg rax)] m = Some m2 -> wf_regs m2 ->
  entry_saved m0 F ra0 m2 -> regs m2 rdi = F -> regs m2 rsi = vector -> frame_at (mem m2) F f -> frame_ok F f s ip fl ->
  exists e m', run 2 no_native common_callee common_list m = Ret (e, m') /\
    common_left m0 F ra0 hi (effective f s) (with_resume ip fl f) (frame_memory F ip fl f (mem m2)) e m'.
Proof.
  intros HF Hhi Henv Hh Hwf0 E2 Hwf Hes Hdi Hsi Hfr [Wcs Wss Wip Wfl Hret]. unfold run.
  destruct (privilege_test_run F f m2) as (m3 & E3 & Z3 & M3 & W3 & R3); try done; [lia..|].
  assert (Hes3 : entry_saved m0 F ra0 m3).
  { apply (entry_saved_mem m0 F ra0 m2); try done; [lia|rewrite R3 by done; apply Hes|by intros; rewrite M3|].
    intros r Hr. rewrite R3 by (rewrite !not_elem_of_cons in Hr; tauto). now apply Hes. }
  unfold common_list at 2, common_entry. set (rest := map _ (saved_list test) ++ _).
  change ([push_ (OReg rdi); push_ (OReg rax); mov_ld_ rax (OMem rdi 16); or_ (OReg rax) (OMem rdi 40);
    and_ (OReg rax) (OImm 3); jz_ in_kernel; pop_ rax; lea_ rsp rsp 8; ret_; label_ in_kernel] ++ rest) with
    ([push_ (OReg rdi); push_ (OReg rax)] ++
     [mov_ld_ rax (OMem rdi 16); or_ (OReg rax) (OMem rdi 40); and_ (OReg rax) (OImm 3)] ++
     [jz_ in_kernel; pop_ rax] ++ (defer_code ++ label_ in_kernel :: rest)).
  rewrite (run_from_straight _ _ _ _ _ _ _ E2), (run_from_straight _ _ _ _ _ _ _ E3).
  cbn [app run_from exec1]. rewrite Z3. unfold effective, frame_memory. destruct (from_user f) eqn:Eu; cbn [negb].
  - destruct (pop_rax_run m0 F ra0 m3) as (m4 & E4 & Hp & M4 & _ & _); [lia|done|].
    cbn [exec1] in E4. injection E4 as E4. rewrite E4.
    destruct (defer_run (branch 2 no_native common_callee common_list) common_callee m0 F ra0 m4)
      as (m5 & E5 & S5 & M5 & R5); [lia|done|].
    exists (ToPc ra0), m5. split; [exact E5|]. cbn. repeat (split; [done|]). intros x Hx. by rewrite M5, M4, M3.
  - rewrite branch_S. change (find_label in_kernel common_list) with (Some rest). cbv beta iota.
    destruct (kernel_body_run (branch 1 no_native common_callee common_list) m0 F vector hi P ra0 m3 s ip fl common_exit)
      as (m4 & E4 & Hes4 & D4 & M4); try done; [rewrite R3 by done; done..|].
    unfold rest. rewrite E4.
    destruct (common_exit_run m0 F hi ra0 m4 s (with_resume ip fl f)) as (e & m5 & E5 & Hl); try done; [lia| |].
    { apply (frame_at_ext (write64 (write64 (mem m3) (F + 8) ip) (F + 24) fl)); [lia..| |].
      - intros x Hx. rewrite M4 by lia. done.
      - apply frame_at_resume; try done; [lia..|]. by rewrite M3. }
    exists e, m5. split; [exact E5|]. rewrite M3 in M4. destruct s; cbn in Hl |- *.
    + destruct Hl as (? & ? & ? & ? & Hm). repeat (split; [done|]). intros x Hx Hd. rewrite Hm, M4 by lia. done.
    + destruct Hl as (? & ? & ? & Hm). repeat (split; [done|]). intros x Hx. rewrite Hm, M4 by lia. done.
    + destruct Hl as (? & ? & ? & Hm). repeat (split; [done|]). intros x Hx. rewrite Hm, M4 by lia. done.
Qed.

(** The call that the handler of a vector makes. *)
Definition routine_callee : callee_sem := fun a m =>
  if a =? common_fn then
    code ← emit_common_interrupt_routine test staged_common handle_fn enter_fn exit_fn;
    call_code 2 no_native common_callee code ra m
  else Fault.

(** How the handler of a vector is left, when the machine was [m0] on entry. *)
Definition interrupt_left (m0 : mach) (F hi original : Z) (s : interrupt_handled_state) (f : interrupt_stack_frame)
    (G : Z -> Z) (e : exit) (m' : mach) : Prop :=
  match s with
  | INTERRUPT_DEFER =>
      e = ToPc original /\ (forall r, regs m' r = regs m0 r) /\ flags m' = flags m0 /\
      (forall x, regs m0 rsp <= x < hi -> mem m' x = G x)
  | INTERRUPT_IRET =>
      e = Iret /\ regs m' rsp = F + 8 /\ (forall r, r <> rsp -> regs m' r = regs m0 r) /\
      (forall x, regs m0 rsp <= x < hi -> mem m' x = G x)
  | INTERRUPT_RETURN =>
      e = ToPc (instruction_pointer f) /\ regs m' rsp = stack_pointer f /\ flags m' = isf_flags f /\
      (forall r, r <> rsp -> regs m' r = regs m0 r) /\
      (forall x, regs m0 rsp <= x < hi -> x < stack_pointer f - 24 \/ stack_pointer f <= x -> mem m' x = G x)
  end.

End Entry.

Lemma routine_shape staged slot vector original common_fn :
  emit_interrupt_routine staged slot vector original common_fn =
    routine_entry vector ++ call_ common_fn :: [popf_; pop_ rsi; pop_ rdi; pop_ rsp] ++
    (if is_far_away staged original then [jmp_ind_ (OAbs slot)] else [jmp_ (pc_ original)]).
Proof.
  unfold emit_interrupt_routine, routine_entry, insert_cti_after, cursor_list, insert_after.
  by destruct (has_error_code vector), (is_far_away staged original).
Qed.

(** ** Theorems *)

(** The handler that Granary installs for a vector, in general: the interrupt
    may come from user code, in which case it is deferred, and the frame may
    be on another stack than the one that was interrupted. *)
Lemma interrupt_entry_run (test : bool) staged staged_common slot common_fn handle_fn enter_fn exit_fn top_fn
    ra ra_private top_sem handle_sem vector original hi P m0 f s ip fl :
  let F := isf_ptr vector (regs m0 rsp) in
  delivered vector hi m0 -> entry_env handle_fn enter_fn exit_fn top_fn ra_private top_sem F hi P ->
  handles handle_sem F vector hi s ip fl -> frame_at (mem m0) F f -> frame_ok F f s ip fl -> in_width 64 ra -> ip <> ra ->
  (is_far_away staged original = true -> regs m0 rsp <= slot /\ slot + 8 <= hi /\
     (slot + 8 <= F + 8 \/ F + 32 <= slot) /\ read64 (mem m0) slot = original) ->
  exists e m', run 0 no_native
      (routine_callee test staged_common common_fn handle_fn enter_fn exit_fn top_fn ra ra_private top_sem handle_sem)
      (emit_interrupt_routine staged slot vector original common_fn) m0 = Ret (e, m') /\
    interrupt_left m0 F hi original (effective f s) (with_resume ip fl f) (frame_memory F ip fl f (mem m0)) e m'.
Proof.
  intros F Hd Henv Hh Hfr Hok Hra Hne Hfar.
  destruct (routine_entry_run vector hi m0 ra Hd Hra) as (m1 & m2 & E1 & E2 & Hes & Hdi & Hsi & _ & W2 & M2).
  fold F in Hes, Hdi, M2. pose proof Hd as [Hv Hwf Hfl Hroom Hhi].
  assert (HF : regs m0 rsp - 8 <= F <= regs m0 rsp) by (unfold F, isf_ptr; destruct (has_error_code vector); lia).
  assert (Hlow : forall x, F + 8 <= x < hi -> mem m2 x = mem m0 x) by (intros x Hx; apply M2; lia).
  assert (Hfr2 : frame_at (mem m2) F f).
  { destruct Hfr as (A1 & A2 & A3 & A4 & A5). unfold frame_at.
    rewrite !(read64_ext (mem m2) (mem m0)) by (try split; try lia; intros x Hx; apply Hlow; lia). done. }
  destruct (common_run test staged_common handle_fn enter_fn exit_fn top_fn ra_private top_sem handle_sem m0 F vector hi P
    ra (push ra m1) m2 s ip fl f) as (e & m3 & E3 & Hl); try done; [lia..|].
  set (callee := routine_callee _ _ _ _ _ _ _ _ _ _ _).
  assert (Ec : callee common_fn m1 = Ret (if match e with ToPc a => a =? ra | _ => false end then None else Some e, m3)).
  { unfold callee, routine_callee. rewrite Z.eqb_refl, common_code. cbn [mbind outcome_bind]. fold (common_list test
      staged_common handle_fn enter_fn exit_fn). unfold call_code. rewrite E3. cbn. by destruct e as [a| |]; [destruct (a =? ra)|..]. }
  unfold run. set (go := branch 0 _ _ _).
  rewrite routine_shape, (run_from_straight _ _ _ _ _ _ _ E1). cbn [run_from exec1]. rewrite Ec. cbn [mbind outcome_bind fst snd].
  assert (HG : forall x, F - 56 <= x < F -> frame_memory F ip fl f (mem m2) x = mem m2 x).
  { intros x Hx. unfold frame_memory. destruct (from_user f); [done|]. by rewrite !write64_other by (try split; lia). }
  assert (HGh : forall x, regs m0 rsp <= x < hi -> frame_memory F ip fl f (mem m2) x = frame_memory F ip fl f (mem m0) x).
  { intros x Hx. unfold frame_memory. destruct (from_user f); [|apply write64_ext, write64_ext]; apply M2; lia. }
  destruct (effective f s) eqn:Ee; cbn in Hl.
  - destruct Hl as (-> & S3 & F3 & R3 & M3). rewrite (proj2 (Z.eqb_neq ip ra)) by done.
    exists (ToPc ip), m3. split; [done|]. cbn. repeat (split; [done|]). intros x Hx Hdx. rewrite M3 by lia. now apply HGh.
  - destruct Hl as (-> & S3 & R3 & M3). rewrite Z.eqb_refl.
    assert (Hw : forall a, F - 56 <= a <= F - 8 -> read64 (mem m3) a = read64 (mem m2) a).
    { intros a Ha. apply read64_ext; [split; lia|]. intros x Hx. rewrite M3, HG by lia. done. }
    destruct (routine_exit_run m0 F m3) as (m4 & E4 & R4 & F4 & M4);
      [lia|lia|done|rewrite Hw by lia; apply Hes..|done|].
    rewrite (run_from_straight _ _ _ _ _ _ _ E4). exists (ToPc original), m4. split.
    + destruct (is_far_away staged original); [|done].
      destruct Hfar as (H1 & H2 & H3 & H4); [done|]. cbn [run_from exec1 get_op]. f_equal. f_equal. f_equal.
      rewrite M4, <- H4. apply read64_ext; [split; lia|]. intros x Hx. rewrite M3, HGh by lia. unfold frame_memory.
      destruct (from_user f); [done|]. by rewrite !write64_other by (try split; lia).
    + cbn. repeat (split; [done|]). intros x Hx. rewrite M4, M3 by lia. now apply HGh.
  - destruct Hl as (-> & S3 & R3 & M3). exists Iret, m3. split; [done|]. cbn. repeat (split; [done|]).
    intros x Hx. rewrite M3 by lia. now apply HGh.
Qed.

(** ** Delivery by the processor *)

(** An interrupt of kernel code at [ip], on the same stack: the stack pointer
    is aligned to 16 bytes, the frame is pushed, and interrupts are
    disabled. *)
Definition deliver (vector ec cs ss ip : Z) (m : mach) : mach :=
  let aligned := set_reg rsp (regs m rsp - regs m rsp mod 16) m in
  let framed := push ip (push cs (push (flags m) (push (regs m rsp) (push ss aligned)))) in
  set_flags (set_flag IF false (flags m)) (if has_error_code vector then push ec framed else framed).

Record deliverable (vector ec cs ss ip hi : Z) (m : mach) : Prop := {
  db_vector : 0 <= vector < 256;
  db_wf : wf_regs m;
  db_words : Forall (in_width 64) [flags m; ec; cs; ss; ip];
  db_kernel : Z.land (Z.lor cs ss) 3 = 0;
  db_stack : 2048 <= regs m rsp /\ regs m rsp <= hi < 2 ^ 64
}.

Definition delivered_frame (ec cs ss ip : Z) (m : mach) : interrupt_stack_frame :=
  {| error_code := ec; instruction_pointer := ip; segment_cs := cs; isf_flags := flags m;
     stack_pointer := regs m rsp; segment_ss := ss |}.

(** What the processor pushes is the frame that the handler expects. *)
Lemma deliver_ok vector ec cs ss ip hi m :
  deliverable vector ec cs ss ip hi m ->
  let A := regs m rsp - regs m rsp mod 16 in
  let m0 := deliver vector ec cs ss ip m in
  delivered vector hi m0 /\ isf_ptr vector (regs m0 rsp) = A - 48 /\
  frame_at (mem m0) (A - 48) (delivered_frame ec cs ss ip m) /\
  (has_error_code vector = true -> read64 (mem m0) (A - 48) = ec) /\
  (forall r, r <> rsp -> regs m0 r = regs m r) /\
  (forall x, 0 <= x < 2 ^ 64 -> x < A - 48 \/ A <= x -> mem m0 x = mem m x).
Proof.
  intros [Hv Hwf Hws Hk (Hlo & Hs & Hhi)] A m0. rewrite !List.Forall_cons_iff in Hws.
  destruct Hws as (Wfl & Wec & Wcs & Wss & Wip & _). pose proof (Z.mod_pos_bound (regs m rsp) 16 ltac:(lia)) as Hmod.
  pose proof (Hwf rsp) as Wsp. unfold in_width in Wfl, Wec, Wcs, Wss, Wip, Wsp.
  assert (HA : regs m rsp - 15 <= A <= regs m rsp) by (unfold A; lia).
  assert (Em : regs m0 rsp = (if has_error_code vector then A - 48 else A - 40) /\
    (forall r, r <> rsp -> regs m0 r = regs m r) /\ flags m0 = set_flag IF false (flags m) /\
    frame_at (mem m0) (A - 48) (delivered_frame ec cs ss ip m) /\
    (has_error_code vector = true -> read64 (mem m0) (A - 48) = ec) /\
    (forall x, 0 <= x < 2 ^ 64 -> x < A - 48 \/ A <= x -> mem m0 x = mem m x)).
  { unfold m0, deliver, push. fold A. clearbody A. cbn -[Z.add Z.sub]. machine.
    destruct (has_error_code vector); cbn -[Z.add Z.sub]; machine; (split; [lia|]);
      (split; [intros r Hr; destruct r; done|]); (split; [done|]);
      (split; [unfold frame_at, delivered_frame; cbn -[Z.add Z.sub]; machine; done|]);
      (split; [intros; try discriminate; machine; done|]); intros x Hx Hd; by rewrite !write64_other by (try split; lia). }
  destruct Em as (Esp & Er & Efl & Efr & Eec & Emem). split; [|split; [|done]].
  - constructor; [done| |rewrite Efl; apply set_flag_range; [unfold IF; lia|done]|destruct (has_error_code vector); lia|].
    2: { unfold isf_ptr. destruct (has_error_code vector); lia. }
    intros r. destruct (decide (r = rsp)) as [->|Hr]; [destruct (has_error_code vector); split; lia|].
    rewrite Er by done. apply Hwf.
  - unfold isf_ptr. destruct (has_error_code vector); lia.
Qed.

(** C7 An interrupt of kernel code, from its delivery by the processor to the
    way out of the handler, when [handle_interrupt] obeys the calling
    convention and changes at most the instruction pointer and the flags of
    the frame.  Deferred, the handler of the kernel starts with the registers
    and flags with which the processor delivered the interrupt; handled with
    an [iret], the [iret] is executed with the registers of the interrupted
    code and the stack pointer at the frame.  In both cases the frame is the
    delivered one, its error code included, with the instruction pointer and
    the flags that [handle_interrupt] chose.  Handled with a return, the
    interrupted code goes on at that instruction pointer and with those
    flags, every register including the stack pointer being that of the
    interrupted code.  The stack of the interrupted code is untouched.  A
    handler of the kernel that is out of reach is jumped to through its slot,
    which lies in that memory. *)
Theorem interrupt_delivery_resumes (test : bool) staged staged_common slot common_fn handle_fn enter_fn exit_fn top_fn
    ra ra_private top_sem handle_sem vector ec cs ss ip0 original hi P m s ip fl :
  let m0 := deliver vector ec cs ss ip0 m in
  let F := regs m rsp - regs m rsp mod 16 - 48 in
  deliverable vector ec cs ss ip0 hi m -> entry_env handle_fn enter_fn exit_fn top_fn ra_private top_sem F hi P ->
  handles handle_sem F vector hi s ip fl -> Forall (in_width 64) [ip; fl; ra] -> ip <> ra ->
  (is_far_away staged original = true ->
     regs m rsp <= slot /\ slot + 8 <= hi /\ read64 (mem m) slot = original) ->
  exists e m', run 0 no_native
      (routine_callee test staged_common common_fn handle_fn enter_fn exit_fn top_fn ra ra_private top_sem handle_sem)
      (emit_interrupt_routine staged slot vector original common_fn) m0 = Ret (e, m') /\
    (s = INTERRUPT_DEFER -> e = ToPc original /\ (forall r, regs m' r = regs m0 r) /\ flags m' = flags m0) /\
    (s = INTERRUPT_IRET -> e = Iret /\ regs m' rsp = F + 8 /\ (forall r, r <> rsp -> regs m' r = regs m r)) /\
    (s <> INTERRUPT_RETURN ->
       frame_at (mem m') F (with_resume ip fl (delivered_frame ec cs ss ip0 m)) /\
       (has_error_code vector = true -> read64 (mem m') F = ec)) /\
    (s = INTERRUPT_RETURN -> e = ToPc ip /\ (forall r, regs m' r = regs m r) /\ flags m' = fl) /\
    (forall x, regs m rsp <= x < hi -> mem m' x = mem m x).
Proof.
  intros m0 F Hd Henv Hh Hw Hne Hfar. rewrite !List.Forall_cons_iff in Hw. destruct Hw as (Wip & Wfl & Wra & _).
  destruct (deliver_ok vector ec cs ss ip0 hi m Hd) as (Hdel & EF & Hfr & Hec & Hr & Hm). fold m0 in Hdel, EF, Hfr, Hec, Hr, Hm.
  fold F in EF, Hfr, Hec, Hm. clearbody m0. pose proof Hd as [_ Hwf Hws Hk (Hlo & Hs & Hhi)]. rewrite !List.Forall_cons_iff in Hws.
  pose proof (Z.mod_pos_bound (regs m rsp) 16 ltac:(lia)) as Hmod. pose proof (Hwf rsp) as Wsp. unfold in_width in Wsp.
  destruct (interrupt_entry_run test staged staged_common slot common_fn handle_fn enter_fn exit_fn top_fn
    ra ra_private top_sem handle_sem vector original hi P m0 (delivered_frame ec cs ss ip0 m) s ip fl)
    as (e & m' & Erun & Hleft); rewrite ?EF; try done.
  { constructor; cbn; try tauto. intros _. split; [lia|]. left. unfold F. lia. }
  { intros Hf. destruct (Hfar Hf) as (H1 & H2 & H3). unfold isf_ptr in EF.
    split; [destruct (has_error_code vector); unfold F in *; lia|]. split; [done|]. split; [right; unfold F; lia|].
    rewrite <- H3. apply read64_ext; [split; lia|]. intros x Hx. apply Hm; unfold F in *; lia. }
  exists e, m'. split; [exact Erun|]. rewrite EF in Hleft.
  assert (Eu : from_user (delivered_frame ec cs ss ip0 m) = false) by (unfold from_user; cbn; by rewrite Hk).
  unfold effective, frame_memory in Hleft. rewrite Eu in Hleft.
  assert (HG : forall x, regs m rsp <= x < hi -> write64 (write64 (mem m0) (F + 8) ip) (F + 24) fl x = mem m x).
  { intros x Hx. rewrite !write64_other by (try split; unfold F in *; lia). apply Hm; unfold F in *; lia. }
  assert (Hsp0 : regs m0 rsp <= regs m rsp).
  { unfold isf_ptr in EF. destruct (has_error_code vector); unfold F in *; lia. }
  assert (Hframe : (forall x, regs m0 rsp <= x < hi -> mem m' x = write64 (write64 (mem m0) (F + 8) ip) (F + 24) fl x) ->
    frame_at (mem m') F (with_resume ip fl (delivered_frame ec cs ss ip0 m)) /\
    (has_error_code vector = true -> read64 (mem m') F = ec)).
  { intros M1. assert (HF : 0 <= F /\ F + 48 <= hi) by (unfold F; lia).
    pose proof (frame_at_resume (mem m0) F _ ip fl (proj1 HF) ltac:(lia) Wip Wfl Hfr) as K. split.
    - destruct K as (K1 & K2 & K3 & K4 & K5). unfold frame_at, isf_ptr in *.
      rewrite !(read64_ext (mem m') (write64 (write64 (mem m0) (F + 8) ip) (F + 24) fl));
        [done|try (split; lia); intros x Hx; apply M1; destruct (has_error_code vector); lia..].
    - intros He. rewrite <- (Hec He). unfold isf_ptr in EF. rewrite He in EF. apply read64_ext; [split; lia|].
      intros x Hx. rewrite M1 by lia. by rewrite !write64_other by (try split; lia). }
  destruct s; cbn in Hleft.
  - destruct Hleft as (-> & S1 & F1 & R1 & M1). split; [done|]. split; [done|]. split; [done|]. split.
    + intros _. split; [done|]. split; [|done]. intros r. destruct (decide (r = rsp)) as [->|Hn]; [done|].
      rewrite R1 by done. by apply Hr.
    + intros x Hx. rewrite M1 by lia. auto.
  - destruct Hleft as (-> & R1 & F1 & M1). split; [done|]. split; [done|]. split; [auto|]. split; [done|].
    intros x Hx. rewrite M1 by lia. auto.
  - destruct Hleft as (-> & S1 & R1 & M1). split; [done|]. split.
    + intros _. split; [done|]. split; [done|]. intros r Hn. rewrite R1 by done. by apply Hr.
    + split; [auto|]. split; [done|]. intros x Hx. rewrite M1 by lia. auto.
Qed.

(** ** An instance: an interrupt that is returned from *)

(** A handler that answers [s] and redirects the frame. *)
Definition sample_handler (s : interrupt_handled_state) (ip fl : Z) (m : mach) : outcome (option exit * mach) :=
  Ret (None, set_reg rax (u64 (handled_value s))
    (set_mem (write64 (write64 (mem m) (regs m rdi + 8) ip) (regs m rdi + 24) fl) m)).

Lemma sample_handles s ip fl F vector hi :
  0 <= F -> F + 48 <= hi < 2 ^ 64 -> handles (sample_handler s ip fl) F vector hi s ip fl.
Proof.
  intros HF Hhi m Hdi Hsi Hwf Hsp. eexists. split; [reflexivity|]. rewrite Hdi, regs_set_same.
  pose proof (Hwf rsp) as Wsp. unfold in_width in Wsp.
  split; [done|]. split; [done|]. split.
  { intros r Hr. destruct (callee_saved_other r Hr) as (? & ? & ? & ?). by rewrite regs_set_other. }
  split; [apply wf_set_reg; [done|by destruct s; split]|]. split; [|done]. cbn [mem set_reg set_mem].
  apply read_bytes_ext. intros i Hi.
  assert (Hw : 0 <= u64 (regs m rsp + i) < 2 ^ 64 /\
    (u64 (regs m rsp + i) < F + 8 \/ F + 48 <= u64 (regs m rsp + i))).
  { unfold wrap. destruct (Z.lt_ge_cases (regs m rsp + i) (2 ^ 64)).
    - rewrite Z.mod_small by lia. lia.
    - rewrite <- (Z_mod_plus_full _ (-1)), Z.mod_small by lia. lia. }
  by rewrite !write64_other by (try split; lia).
Qed.

Definition interrupted_mach : mach :=
  {| regs := fun r => if reg_eqb r rsp then 0x10008 else reg_id r; mem := fun _ => 0; flags := 0x202 |}.

Lemma interrupted_deliverable : deliverable 32 0 0x10 0x18 0x5000 0x20000 interrupted_mach.
Proof.
  constructor; [lia| | |reflexivity|cbn; lia].
  - intros r. destruct r; split; cbn; lia.
  - rewrite !List.Forall_cons_iff. unfold in_width. cbn. repeat split; (lia || constructor).
Qed.

Lemma interrupted_env : entry_env 0x300 0x100 0x200 0x77 0x1250 (constant_top 0x900000) (0x10000 - 48) 0x20000 0x900000.
Proof.
  constructor; unfold in_width; try lia; try done.
  - rewrite !List.Forall_cons_iff. unfold in_width. repeat split; (lia || constructor).
  - apply (bool_decide_unpack _). vm_compute. exact I.
  - intros m _. apply constant_gives_top. split; lia.
Qed.

Lemma interrupt_delivery_resumes_witness :
  exists m', run 0 no_native
      (routine_callee false 0x7000 0x400 0x300 0x100 0x200 0x77 0x1240 0x1250 (constant_top 0x900000)
         (sample_handler INTERRUPT_RETURN 0x6000 0x2))
      (emit_interrupt_routine 0x7000 0 32 0x8000 0x400) (deliver 32 0 0x10 0x18 0x5000 interrupted_mach) =
      Ret (ToPc 0x6000, m') /\
    regs m' rsp = 0x10008 /\ regs m' rdi = reg_id rdi /\ flags m' = 0x2.
Proof.
  destruct (interrupt_delivery_resumes false 0x7000 0x7000 0 0x400 0x300 0x100 0x200 0x77 0x1240 0x1250
    (constant_top 0x900000) (sample_handler INTERRUPT_RETURN 0x6000 0x2) 32 0 0x10 0x18 0x5000 0x8000 0x20000 0x900000
    interrupted_mach INTERRUPT_RETURN 0x6000 0x2) as (e & m' & Erun & _ & _ & _ & Hret & _).
  - exact interrupted_deliverable.
  - exact interrupted_env.
  - change (regs interrupted_mach rsp - regs interrupted_mach rsp mod 16 - 48) with 0xFFD0. apply sample_handles; lia.
  - rewrite !List.Forall_cons_iff. unfold in_width. repeat split; (lia || constructor).
  - lia.
  - discriminate 1.
  - destruct (Hret eq_refl) as (-> & Hr & Hf). exists m'. split; [exact Erun|].
    split; [apply (Hr rsp)|]. split; [apply (Hr rdi)|exact Hf].
Defined.
