(* ===== verification/InterruptDelay.v ===== *)
(** * Delayed interrupts: [granary/kernel/interrupt.cc]

    An interrupt inside a region that must not be split is delayed.
    [emit_delayed_interrupt] copies the region to memory private to the
    processor, with [cli] and [sti] left out and [popf] kept from enabling
    interrupts, and appends code that builds an interrupt stack frame for
    the end of the region and jumps to the handler of the vector.  The
    interrupted code is resumed, with interrupts disabled, at its place in
    the copy.

    The theorem is that the interrupt is then delivered as if it had arrived
    at the end of the region: the handler starts with the registers and the
    stack, frame included, that the processor would have delivered there.
    The states are compared up to the dead part of the stack, for which the
    relation [sim] and its [Proper] instances are set up.

    A region with branches is copied too; the loop that redirects them stops
    too early, which is the last theorem. *)

From Stdlib Require Import ZArith Lia Bool.
From stdpp Require Import base numbers list option.
From S2P Require Import Prelude Machine PrivateStack Interrupt.

(** ** Instructions of a region

    [DR_other] stands for an instruction without an effect on control flow or
    on the interrupt flag. *)
Inductive dr_op :=
  | DR_cli
  | DR_sti
  | DR_popf
  | DR_return
  | DR_branch (conditional : bool) (target_pc : Z)
  | DR_indirect
  | DR_other (id : Z).

Record decoded := { d_op : dr_op; d_len : Z }.

Definition is_cti (o : dr_op) : bool :=
  match o with DR_return | DR_branch _ _ | DR_indirect => true | _ => false end.

(** The copy: labels with the address of the instruction that they replace,
    emitted instructions, and instructions of the region with their address
    (or none) and the position that a branch has been redirected to. *)
Inductive ditem :=
  | DLabel (pc : option Z)
  | DEmit (i : instr)
  | DIn (pc : option Z) (o : dr_op) (redirected : option nat).

Definition item_pc (it : ditem) : option Z :=
  match it with DLabel pc => pc | DEmit _ => None | DIn pc _ _ => pc end.

(** [mask.interrupt] alone. *)
Definition interrupt_mask : Z := 2 ^ IF.

Definition mangle_delayed_instruction (ls : list ditem) (pc : Z) (o : dr_op) : list ditem :=
  match o with
  | DR_cli | DR_sti => ls ++ [DLabel (Some pc)]
  | DR_popf =>
      ls ++ [ DLabel (Some pc);
              DEmit (push_ (OReg rax));
              DEmit (mov_imm_ rax (Z.lnot interrupt_mask));
              DEmit (and_ (OMem rsp 8) (OReg rax));
              DEmit (pop_ rax);
              DIn None DR_popf None ]
  | _ => ls ++ [DIn (Some pc) o None]
  end.

(** The first instruction with address [pc]. *)
Fixpoint position_of (ls : list ditem) (pc : Z) : option nat :=
  match ls with
  | [] => None
  | it :: ls => if bool_decide (item_pc it = Some pc) then Some 0%nat else S <$> position_of ls pc
  end.

(** [FAULT] when the target is outside of the copy. *)
Definition mangle_cti (ls : list ditem) (i : nat) (pc : option Z) (o : dr_op) : outcome (list ditem) :=
  match o with
  | DR_branch _ target_pc =>
      match position_of ls target_pc with
      | Some p => Ret (<[i := DIn pc o (Some p)]> ls)
      | None => Fault
      end
  | _ => Ret ls
  end.

(** The loop that redirects branches: [num_ctis] counts instructions. *)
Fixpoint redirect_loop (num_ctis i : nat) (ls : list ditem) : outcome (list ditem) :=
  match num_ctis with
  | O => Ret ls
  | S num_ctis =>
      match ls !! i with
      | None => Ret ls
      | Some (DIn pc o _) =>
          if is_cti o then ls ← mangle_cti ls i pc o; redirect_loop num_ctis (S i) ls
          else redirect_loop num_ctis (S i) ls
      | Some _ => redirect_loop num_ctis (S i) ls
      end
  end.

Section Delay.
Context (decode : Z -> decoded).

(** The loop that copies the region; [delay_in] is the position of the label
    at the interrupted instruction. *)
Fixpoint copy_region (fuel : nat) (ip delay_begin delay_end : Z) (ls : list ditem) (delay_in : option nat)
    (num_ctis : nat) : outcome (list ditem * option nat * nat) :=
  if delay_begin <? delay_end then
    match fuel with
    | O => OutOfFuel
    | S fuel =>
        let '(ls, delay_in) :=
          if ip =? delay_begin then (ls ++ [DLabel None], Some (length ls)) else (ls, delay_in) in
        let in_ := decode delay_begin in
        let num_ctis := if is_cti (d_op in_) then S num_ctis else num_ctis in
        copy_region fuel ip (delay_begin + d_len in_) delay_end
          (mangle_delayed_instruction ls delay_begin (d_op in_)) delay_in num_ctis
    end
  else Ret (ls, delay_in, num_ctis).

(** The code that builds the frame: [spill] is the address of [cpu->spill],
    [stack_align] that of the alignment table. *)
Definition rebuild_frame (spill stack_align handler vector : Z) (isf : interrupt_stack_frame) (delay_end : Z)
    : list instr :=
  [ push_ (OReg rax);
    mov_imm_ rax spill;
    mov_st_ (OMem rax 8) rbx;
    pop_ rbx;
    mov_st_ (OMem rax 0) rbx;
    mov_st_ (OReg rax) rsp;
    mov_imm_ rbx stack_align;
    xlat_;
    mov_st_ (OReg rbx) rsp;
    mov_st_ (OReg rsp) rax;
    mov_imm_ rax (segment_ss isf);
    push_ (OReg rax);
    push_ (OReg rbx);
    pushf_ ] ++
  (if get_flag IF (isf_flags isf) then [mov_imm_ rax interrupt_mask; or_ (OMem rsp 0) (OReg rax)] else []) ++
  [ mov_imm_ rax (segment_cs isf);
    push_ (OReg rax);
    mov_imm_ rax delay_end;
    push_ (OReg rax) ] ++
  (if has_error_code vector then [mov_imm_ rax (error_code isf); push_ (OReg rax)] else []) ++
  [ mov_imm_ rax spill;
    mov_ld_ rbx (OMem rax 8);
    mov_ld_ rax (OMem rax 0);
    jmp_ (pc_ handler) ].

(** The items, the code behind them, the position at which execution resumes,
    and the frame, in which interrupts are disabled. *)
Definition emit_delayed_interrupt (fuel : nat) (spill stack_align handler vector : Z) (isf : interrupt_stack_frame)
    (delay_begin delay_end : Z) : outcome (list ditem * list instr * nat * interrupt_stack_frame) :=
  r ← copy_region fuel (instruction_pointer isf) delay_begin delay_end [] None 0;
  let '(ls, delay_in, num_ctis) := r in
  ls ← redirect_loop num_ctis 0 ls;
  match delay_in with
  | None => Fault
  | Some p =>
      Ret (ls, rebuild_frame spill stack_align handler vector isf delay_end, p,
           with_resume (instruction_pointer isf)
             (if get_flag IF (isf_flags isf) then set_flag IF false (isf_flags isf) else isf_flags isf) isf)
  end.

End Delay.

(** [STACK_ALIGN]. *)
Definition STACK_ALIGN : list Z := map (fun i => Z.of_nat i - Z.of_nat i mod 16) (seq 0 256).

(** ** Semantics of a region *)

(** Copies without branches are straight-line code. *)
Definition item_code (it : ditem) : option (list instr) :=
  match it with
  | DLabel _ => Some []
  | DEmit i => Some [i]
  | DIn _ DR_popf _ => Some [popf_]
  | DIn _ (DR_other id) _ => Some [native_ id]
  | DIn _ _ _ => None
  end.

Fixpoint straight_code (ls : list ditem) : option (list instr) :=
  match ls with
  | [] => Some []
  | it :: ls => c ← item_code it; cs ← straight_code ls; Some (c ++ cs)
  end.

Section Region.
Context (ns : native_sem) (lo : Z).

(** What the instruction does in place. *)
Definition native_step (o : dr_op) (m : mach) : mach :=
  match o with
  | DR_cli => set_flags (set_flag IF false (flags m)) m
  | DR_sti => set_flags (set_flag IF true (flags m)) m
  | DR_popf => set_flags (top m) (drop_top 8 m)
  | DR_other id => ns id m
  | _ => m
  end.

Definition native_run (os : list dr_op) (m : mach) : mach := foldl (fun m o => native_step o m) m os.

(** Machines that differ in the interrupt flag and in the dead part of the
    stack, which begins at [lo], at most. *)
Record sim (m m' : mach) : Prop := {
  sim_regs : forall r, regs m r = regs m' r;
  sim_flags : set_flag IF false (flags m) = set_flag IF false (flags m');
  sim_mem : forall x, 0 <= x < 2 ^ 64 -> x < lo \/ regs m rsp <= x -> mem m x = mem m' x
}.

#[export] Instance sim_equivalence : Equivalence sim.
Proof.
  split.
  - intros m. by constructor.
  - intros m m' []. constructor; auto. intros x Hx Hd. symmetry. apply sim_mem0; [done|]. by rewrite sim_regs0.
  - intros m1 m2 m3 [R1 F1 M1] [R2 F2 M2]. constructor.
    + intros r. by rewrite R1.
    + by rewrite F1.
    + intros x Hx Hd. rewrite M1 by done. apply M2; [done|]. by rewrite <- R1.
Qed.

(** An instruction of the region respects [sim], and leaves the interrupt
    flag alone. *)
Class plain_instruction (id : Z) : Prop := {
  plain_sim : Proper (sim ==> sim) (ns id);
  plain_if : forall m, get_flag IF (flags (ns id m)) = get_flag IF (flags m)
}.

Definition plain_op (o : dr_op) : Prop :=
  match o with DR_cli | DR_sti | DR_popf => True | DR_other id => plain_instruction id | _ => False end.

(** A machine with 64-bit words and room on its stack. *)
Record roomy (m : mach) : Prop := {
  rm_regs : wf_regs m;
  rm_flags : in_width 64 (flags m);
  rm_stack : 0 <= lo /\ lo + 256 <= regs m rsp /\ regs m rsp + 16 < 2 ^ 64
}.

(** The region runs inside of the stack. *)
Fixpoint runs_in (os : list dr_op) (m : mach) : Prop :=
  match os with
  | [] => roomy m
  | o :: os => roomy m /\ plain_op o /\ runs_in os (native_step o m)
  end.

Lemma same_other_flags f g i : set_flag IF false f = set_flag IF false g -> 0 <= i -> i <> IF -> Z.testbit f i = Z.testbit g i.
Proof.
  intros E Hi Hne. apply (f_equal (fun z => Z.testbit z i)) in E. rewrite !testbit_set_flag in E by (unfold IF; lia).
  by rewrite (proj2 (Z.eqb_neq i IF)) in E.
Qed.

Lemma set_IF_ext f g : (forall i, 0 <= i -> i <> IF -> Z.testbit f i = Z.testbit g i) -> set_flag IF false f = set_flag IF false g.
Proof.
  intros E. apply Z.bits_inj'. intros i Hi. rewrite !testbit_set_flag by (unfold IF; lia).
  destruct (Z.eqb_spec i IF); [done|]. by apply E.
Qed.

Lemma sim_roomy m m' : sim m m' -> roomy m -> in_width 64 (flags m') -> roomy m'.
Proof.
  intros [Hr Hf _] [Wr Wf Hs] Wf'. constructor; [|done|by rewrite <- Hr]. intros r. rewrite <- Hr. apply Wr.
Qed.

Lemma sim_set_IF b m : sim m (set_flags (set_flag IF b (flags m)) m).
Proof.
  constructor; [done| |done]. cbn. symmetry. apply set_IF_ext. intros i Hi Hne.
  rewrite testbit_set_flag by (unfold IF; lia). by rewrite (proj2 (Z.eqb_neq i IF)).
Qed.

Lemma set_IF_nonneg f : 0 <= set_flag IF false f -> 0 <= f.
Proof.
  unfold set_flag, set_field. rewrite Z.lor_nonneg, Z.ldiff_nonneg. intros [[Hf|Hn] _]; [done|].
  exfalso. revert Hn. vm_compute. done.
Qed.

Lemma sim_width m m' : sim m m' -> in_width 64 (flags m) -> in_width 64 (flags m').
Proof.
  intros [_ Hf _] Hw. apply in_width_bits; [lia| |].
  - apply set_IF_nonneg. rewrite <- Hf. apply (set_flag_range 64); [unfold IF; lia|done].
  - intros i Hi. rewrite <- (same_other_flags _ _ i Hf) by (unfold IF; lia). apply (testbit_high 64); [done|lia].
Qed.

(** Interrupts are off at every instruction of straight-line code. *)
Definition interrupts_off_along (code : list instr) (m : mach) : Prop :=
  forall j mj, exec_list ns (take j code) m = Some mj -> get_flag IF (flags mj) = false.

(** An instruction of which the interrupt flag does not depend. *)
Definition leaves_IF (i : instr) : bool :=
  match i with
  | push_ _ | pop_ _ | mov_imm_ _ _ | mov_ld_ _ _ | mov_st_ _ _ | and_ _ _ | or_ _ _ | pushf_ | xlat_ | jmp_ (pc_ _) => true
  | _ => false
  end.

Lemma set_op_flags m o v : flags (set_op m o v) = flags m.
Proof. by destruct o. Qed.

Lemma leaves_IF_step i m m' :
  leaves_IF i = true -> exec1 ns i m = Next m' -> get_flag IF (flags m') = get_flag IF (flags m).
Proof.
  destruct i; try discriminate 1; intros Hi; cbn [exec1]; [..|destruct t; [discriminate 1|discriminate Hi]];
    intros [= <-]; try done; rewrite ?set_op_flags; try done;
    unfold logic; cbn [flags set_flags]; unfold get_flag; by rewrite result_flags_other.
Qed.

Lemma off_along_leaves code : forall m,
  forallb leaves_IF code = true -> get_flag IF (flags m) = false -> interrupts_off_along code m.
Proof.
  induction code as [|i code IH]; intros m Hl Hm [|j] mj E; cbn [take exec_list] in E; try (by injection E as <-).
  cbn [forallb] in Hl. apply andb_prop in Hl as [Hi Hl]. destruct (exec1 ns i m) as [m1| | |] eqn:Ei; try discriminate E.
  apply (IH m1 Hl) in E; [done|]. by rewrite (leaves_IF_step i m).
Qed.

Lemma off_along_app c1 c2 m m1 :
  exec_list ns c1 m = Some m1 -> interrupts_off_along c1 m -> interrupts_off_along c2 m1 ->
  interrupts_off_along (c1 ++ c2) m.
Proof.
  intros E H1 H2 j mj Ej. rewrite take_app in Ej. rewrite exec_list_app in Ej.
  destruct (decide (j <= length c1)%nat) as [Hj|Hj].
  - replace (j - length c1)%nat with 0%nat in Ej by lia. rewrite take_0 in Ej.
    destruct (exec_list ns (take j c1) m) as [m2|] eqn:E2; [|discriminate Ej]. cbn in Ej. injection Ej as <-. by apply (H1 j).
  - rewrite (take_ge c1) in Ej by lia. rewrite E in Ej. by apply (H2 _ mj) in Ej.
Qed.

(** The code for one instruction of the region. *)
Definition delayed_code (o : dr_op) : list instr :=
  match o with
  | DR_popf => [push_ (OReg rax); mov_imm_ rax (Z.lnot interrupt_mask); and_ (OMem rsp 8) (OReg rax); pop_ rax; popf_]
  | DR_other id => [native_ id]
  | _ => []
  end.

Lemma delayed_popf m :
  roomy m ->
  exists m', exec_list ns (delayed_code DR_popf) m = Some m' /\
    (forall r, r <> rsp -> regs m' r = regs m r) /\ regs m' rsp = regs m rsp + 8 /\
    flags m' = Z.land (top m) (u64 (Z.lnot interrupt_mask)) /\
    (forall x, 0 <= x < 2 ^ 64 -> x < regs m rsp - 8 \/ regs m rsp + 8 <= x -> mem m' x = mem m x).
Proof.
  intros [Wr Wf (H0 & Hlo & Hhi)]. pose proof (Wr rax) as Wax. unfold in_width in Wax.
  set (mask := u64 (Z.lnot interrupt_mask)).
  assert (Wm : forall v, 0 <= Z.land v mask < 2 ^ 64).
  { intros v. apply in_width_bits; [lia|apply Z.land_nonneg; right; vm_compute; done|].
    intros i Hi. rewrite Z.land_spec, (testbit_high 64 mask i); [apply andb_false_r| |done].
    vm_compute. intuition congruence. }
  unfold delayed_code. cbn [exec_list exec1]. unfold logic, push, top, drop_top. cbn -[Z.add Z.sub Z.land Z.lnot].
  unfold ea. cbn -[Z.add Z.sub Z.land Z.lnot]. fold mask. machine.
  replace (regs m rsp - 8 + 8) with (regs m rsp) by lia. machine.
  eexists. split; [reflexivity|]. cbn -[Z.add Z.sub Z.land].
  split; [intros r Hr; destruct r; done|]. split; [done|]. split; [done|].
  intros x Hx Hd. by rewrite !write64_other by (try split; lia).
Qed.

(** The delayed machine: interrupts are off. *)
Definition delayed (m m' : mach) : Prop := sim m m' /\ get_flag IF (flags m') = false.

Lemma delayed_step o m m' :
  roomy m -> plain_op o -> roomy (native_step o m) -> delayed m m' ->
  exists m1, exec_list ns (delayed_code o) m' = Some m1 /\ delayed (native_step o m) m1.
Proof.
  intros Hm Ho Hm1 [Hs Hi]. destruct o; cbn [plain_op] in Ho; try done; cbn [native_step] in *.
  - exists m'. split; [done|]. split; [|done]. transitivity m; [symmetry; apply sim_set_IF|done].
  - exists m'. split; [done|]. split; [|done]. transitivity m; [symmetry; apply sim_set_IF|done].
  - destruct (delayed_popf m') as (m1 & E1 & R1 & S1 & F1 & M1).
    { apply (sim_roomy m); try done. apply (sim_width m); [done|apply Hm]. }
    exists m1. split; [exact E1|]. pose proof (rm_stack _ Hm) as (H0 & Hlo & Hhi).
    assert (Ht : top m = top m').
    { unfold top. rewrite <- (sim_regs _ _ Hs). apply read64_ext; [split; lia|].
      intros x Hx. apply (sim_mem _ _ Hs); lia. }
    split; [constructor|].
    + intros r. unfold drop_top. cbn -[Z.add]. machine. rewrite !(sim_regs _ _ Hs) in *.
      destruct (decide (r = rsp)) as [->|Hr]; [done|]. rewrite R1 by done. destruct r; done.
    + cbn [flags set_flags]. rewrite F1, Ht. apply set_IF_ext. intros i Hi' Hne. rewrite Z.land_spec.
      unfold wrap. rewrite Z.testbit_mod_pow2 by lia. rewrite Z.lnot_spec by lia. unfold interrupt_mask.
      rewrite Z.pow2_bits_eqb by (unfold IF; lia). rewrite (proj2 (Z.eqb_neq IF i)) by done.
      destruct (Z.ltb_spec i 64) as [|Hge]; [cbn; by rewrite andb_true_r|].
      symmetry. rewrite andb_false_r. symmetry. apply (testbit_high 64); [|done]. rewrite <- Ht. apply Hm1.
    + intros x Hx Hd. cbn [mem set_flags drop_top set_reg] in *. unfold drop_top in Hd. cbn -[Z.add] in Hd.
      revert Hd. machine. intros Hd. rewrite M1 by (rewrite <- ?(sim_regs _ _ Hs); lia).
      apply (sim_mem _ _ Hs); lia.
    + rewrite F1. unfold get_flag. rewrite Z.land_spec. apply andb_false_r.
  - exists (ns id m'). split; [done|]. destruct Ho as [Hp Hif]. split; [by apply Hp|]. by rewrite Hif.
Qed.

Lemma delayed_off_along o m m' :
  delayed m m' -> (forall m1, exec_list ns (delayed_code o) m' = Some m1 -> get_flag IF (flags m1) = false) ->
  interrupts_off_along (delayed_code o) m'.
Proof.
  intros [_ Hi] Hlast j mj Ej. destruct (decide (length (delayed_code o) <= j)%nat) as [Hj|Hj].
  - rewrite take_ge in Ej by done. by apply Hlast.
  - destruct o; cbn [delayed_code] in *; cbn [length] in Hj; try (destruct j; [by injection Ej as <-|lia]).
    assert (K : take j [push_ (OReg rax); mov_imm_ rax (Z.lnot interrupt_mask); and_ (OMem rsp 8) (OReg rax); pop_ rax; popf_]
      = take j [push_ (OReg rax); mov_imm_ rax (Z.lnot interrupt_mask); and_ (OMem rsp 8) (OReg rax); pop_ rax]).
    { do 5 (destruct j as [|j]; [done|]). lia. }
    rewrite K in Ej. revert Ej. by apply off_along_leaves.
Qed.

Lemma runs_in_head os m : runs_in os m -> roomy m.
Proof. destruct os; [done|]. by intros [? _]. Qed.

(** The copy of the region from the interrupted instruction on. *)
Lemma delayed_run os : forall m m',
  runs_in os m -> delayed m m' ->
  exists m1, exec_list ns (concat (map delayed_code os)) m' = Some m1 /\ delayed (native_run os m) m1 /\
    roomy (native_run os m) /\ interrupts_off_along (concat (map delayed_code os)) m'.
Proof.
  induction os as [|o os IH]; intros m m' Hr Hd.
  { exists m'. split; [done|]. split; [done|]. split; [done|]. apply off_along_leaves; [done|apply Hd]. }
  destruct Hr as (Hm & Ho & Hr).
  destruct (delayed_step o m m') as (m1 & E1 & Hd1); [done|done|by apply (runs_in_head os)|done|].
  destruct (IH (native_step o m) m1 Hr Hd1) as (m2 & E2 & Hd2 & Hr2 & Ho2). exists m2.
  split; [cbn [map concat]; rewrite exec_list_app, E1; exact E2|]. split; [done|]. split; [done|].
  apply (off_along_app _ _ _ m1); [done| |done]. apply (delayed_off_along o m); [done|].
  intros m3 E3. rewrite E1 in E3. injection E3 as <-. apply Hd1.
Qed.

End Region.

(** ** Lemmas: the copy *)
Section Copy.
Context (decode : Z -> decoded).

(** The instructions [ins] lie at [pc] up to [e]. *)
Fixpoint laid_out (pc : Z) (ins : list decoded) (e : Z) : Prop :=
  match ins with
  | [] => pc = e
  | i :: ins => decode pc = i /\ 0 < d_len i /\ laid_out (pc + d_len i) ins e
  end.

(** The address of instruction [k]. *)
Fixpoint address_of (pc : Z) (ins : list decoded) (k : nat) : Z :=
  match k, ins with
  | S k, i :: ins => address_of (pc + d_len i) ins k
  | _, _ => pc
  end.

Definition ops_of (ins : list decoded) : list dr_op := map d_op ins.

Fixpoint items (pc : Z) (ins : list decoded) : list ditem :=
  match ins with
  | [] => []
  | i :: ins => mangle_delayed_instruction [] pc (d_op i) ++ items (pc + d_len i) ins
  end.

Lemma mangle_app ls pc o : mangle_delayed_instruction ls pc o = ls ++ mangle_delayed_instruction [] pc o.
Proof. by destruct o. Qed.

Lemma laid_out_le ins : forall pc e, laid_out pc ins e -> pc <= e.
Proof. induction ins as [|i ins IH]; intros pc e H; cbn in H; [lia|]. destruct H as (_ & Hl & H). apply IH in H. lia. Qed.

Lemma address_of_le ins : forall pc e k, laid_out pc ins e -> (k < length ins)%nat ->
  pc <= address_of pc ins k < e /\ (k <> 0%nat -> pc < address_of pc ins k).
Proof.
  induction ins as [|i ins IH]; intros pc e k H Hk; cbn in Hk; [lia|]. cbn in H. destruct H as (_ & Hl & H).
  destruct k as [|k]; cbn [address_of].
  - apply laid_out_le in H. lia.
  - destruct (IH _ _ k H ltac:(lia)) as [? _]. lia.
Qed.

Lemma copy_step fuel ip pc e ls d n i ins :
  decode pc = i -> is_cti (d_op i) = false -> ip <> pc -> 0 < d_len i -> laid_out (pc + d_len i) ins e ->
  copy_region decode (S fuel) ip pc e ls d n =
    copy_region decode fuel ip (pc + d_len i) e (mangle_delayed_instruction ls pc (d_op i)) d n.
Proof.
  intros Hi Hc Hne Hl H. apply laid_out_le in H. cbn [copy_region].
  rewrite (proj2 (Z.ltb_lt pc e)), (proj2 (Z.eqb_neq ip pc)) by lia. by rewrite Hi, Hc.
Qed.

Definition no_ctis (ins : list decoded) : Prop := Forall (fun i => is_cti (d_op i) = false) ins.

(** Behind the interrupted instruction. *)
Lemma copy_behind ins : forall fuel ip pc e ls d n,
  laid_out pc ins e -> no_ctis ins -> ip < pc -> (length ins <= fuel)%nat ->
  copy_region decode fuel ip pc e ls d n = Ret (ls ++ items pc ins, d, n).
Proof.
  induction ins as [|i ins IH]; intros fuel ip pc e ls d n H Hc Hip Hf.
  - cbn in H. subst e. cbn [items]. rewrite app_nil_r. destruct fuel; cbn; by rewrite Z.ltb_irrefl.
  - destruct fuel as [|fuel]; [cbn in Hf; lia|]. pose proof H as (Hi & Hl & Hr). apply List.Forall_cons_iff in Hc as [Hc0 Hc].
    rewrite (copy_step fuel ip pc e ls d n i ins) by (done || lia). rewrite (IH _ _ _ e) by (done || lia || (cbn in Hf; lia)).
    cbn [items]. by rewrite mangle_app, <- app_assoc.
Qed.

Lemma copy_region_spec ins : forall fuel k pc e ls n,
  laid_out pc ins e -> no_ctis ins -> (k < length ins)%nat -> (length ins <= fuel)%nat ->
  exists pre, copy_region decode fuel (address_of pc ins k) pc e ls None n =
    Ret (ls ++ pre ++ [DLabel None] ++ items (address_of pc ins k) (drop k ins), Some (length (ls ++ pre)), n).
Proof.
  induction ins as [|i ins IH]; intros fuel k pc e ls n H Hc Hk Hf; [cbn in Hk; lia|].
  destruct fuel as [|fuel]; [cbn in Hf; lia|]. pose proof H as (Hi & Hl & Hr). pose proof Hc as Hc'.
  apply List.Forall_cons_iff in Hc' as [Hc0 Hcs]. destruct k as [|k].
  - exists []. cbn [address_of drop]. cbn [copy_region]. pose proof (laid_out_le _ _ _ Hr).
    rewrite (proj2 (Z.ltb_lt pc e)), Z.eqb_refl by lia. rewrite Hi, Hc0.
    rewrite (copy_behind ins fuel pc (pc + d_len i) e) by (done || lia || (cbn in Hf; lia)).
    cbn [items]. rewrite mangle_app, <- !app_assoc. by rewrite app_nil_r.
  - cbn [address_of drop]. destruct (address_of_le ins _ _ k Hr) as [Ha _]; [cbn in Hk; lia|].
    rewrite (copy_step fuel _ pc e ls None n i ins) by (done || lia).
    destruct (IH fuel k (pc + d_len i) e (mangle_delayed_instruction ls pc (d_op i)) n) as (pre & E);
      [done|done|cbn in Hk; lia|cbn in Hf; lia|].
    exists (mangle_delayed_instruction [] pc (d_op i) ++ pre). rewrite E, (mangle_app ls). by rewrite <- !app_assoc.
Qed.

Lemma items_code ins : forall pc, no_ctis ins -> straight_code (items pc ins) = Some (concat (map delayed_code (ops_of ins))).
Proof.
  induction ins as [|i ins IH]; intros pc Hc; [done|]. apply List.Forall_cons_iff in Hc as [Hc0 Hc].
  cbn [items ops_of map concat]. destruct (d_op i) eqn:E; try discriminate Hc0; cbn [mangle_delayed_instruction app straight_code];
    cbn [item_code mbind option_bind]; rewrite (IH (pc + d_len i) Hc); reflexivity.
Qed.

End Copy.

(** ** Lemmas: the frame *)

(** The alignment table and the spill slots lie in memory that is not on the
    stack [lo, hi). *)
Record delay_env (lo hi spill stack_align : Z) (m : mach) : Prop := {
  de_spill : word_at spill /\ word_at (spill + 8) /\ (spill + 16 <= lo \/ hi <= spill);
  de_table : 0 <= stack_align /\ stack_align + 256 <= 2 ^ 64 /\ (stack_align + 256 <= lo \/ hi <= stack_align) /\
    (stack_align + 256 <= spill \/ spill + 16 <= stack_align);
  de_align : forall i, 0 <= i < 256 -> mem m (stack_align + i) = i - i mod 16;
  de_stack : regs m rsp <= hi /\ hi < 2 ^ 64
}.

Lemma align_low v : 0 <= v -> set_field 0 8 (u8 v - u8 v mod 16) v = v - v mod 16.
Proof.
  intros Hv. assert (E : forall z, z - z mod 16 = Z.ldiff z (Z.ones 4)).
  { intros z. rewrite Z.ldiff_ones_r, Z.shiftr_div_pow2, Z.shiftl_mul_pow2 by lia. change (2 ^ 4) with 16.
    pose proof (Z.div_mod z 16 ltac:(lia)). lia. }
  rewrite !E. apply Z.bits_inj'. intros i Hi. rewrite testbit_set_field, !Z.ldiff_spec by lia. unfold wrap.
  rewrite Z.testbit_mod_pow2 by lia. rewrite Z.sub_0_r. destruct (Z.leb_spec 0 i); [|lia].
  destruct (Z.ltb_spec i (0 + 8)) as [H8|H8]; cbn [andb].
  - by rewrite (proj2 (Z.ltb_lt i 8)) by lia.
  - rewrite Z.ones_spec_high by lia. by rewrite andb_true_r.
Qed.

Definition spill_code (spill : Z) : list instr :=
  [push_ (OReg rax); mov_imm_ rax spill; mov_st_ (OMem rax 8) rbx; pop_ rbx; mov_st_ (OMem rax 0) rbx].

Lemma spill_code_run ns spill m :
  wf_regs m -> 64 <= regs m rsp -> regs m rsp + 16 < 2 ^ 64 -> word_at spill -> word_at (spill + 8) ->
  spill + 16 <= regs m rsp - 8 \/ regs m rsp <= spill ->
  exists m1, exec_list ns (spill_code spill) m = Some m1 /\ flags m1 = flags m /\
    (forall r, r <> rax -> r <> rbx -> regs m1 r = regs m r) /\
    mem m1 = write64 (write64 (write64 (mem m) (regs m rsp - 8) (regs m rax)) (spill + 8) (regs m rbx)) spill (regs m rax).
Proof.
  intros Wr Hlo Hhi Hs1 Hs2 Hap. pose proof (Wr rax). pose proof (Wr rbx). unfold in_width, word_at in *.
  unfold spill_code. cbn [exec_list exec1]. unfold push, top, drop_top. cbn -[Z.add Z.sub]. unfold ea.
  cbn -[Z.add Z.sub]. rewrite Z.add_0_r. machine. replace (regs m rsp - 8 + 8) with (regs m rsp) by lia. machine.
  eexists. split; [reflexivity|]. cbn -[Z.add Z.sub]. split; [done|]. split; [|done]. intros r ? ?. destruct r; done.
Qed.

Definition switch_code (stack_align : Z) : list instr :=
  [mov_st_ (OReg rax) rsp; mov_imm_ rbx stack_align; xlat_; mov_st_ (OReg rbx) rsp; mov_st_ (OReg rsp) rax].

Lemma switch_code_run ns stack_align m :
  0 <= regs m rsp -> 0 <= stack_align -> stack_align + 256 <= 2 ^ 64 ->
  (forall i, 0 <= i < 256 -> mem m (stack_align + i) = i - i mod 16) ->
  exists m1, exec_list ns (switch_code stack_align) m = Some m1 /\ flags m1 = flags m /\ mem m1 = mem m /\
    regs m1 rsp = regs m rsp - regs m rsp mod 16 /\ regs m1 rbx = regs m rsp /\
    (forall r, r <> rax -> r <> rbx -> r <> rsp -> regs m1 r = regs m r).
Proof.
  intros H0 Ht0 Ht Hal. unfold switch_code. cbn [exec_list exec1]. unfold xlat. cbn -[Z.add Z.sub Z.modulo].
  assert (Hb : 0 <= u8 (regs m rsp) < 256) by (apply (wrap_range 8); lia).
  machine. rewrite Hal, align_low by done.
  eexists. split; [reflexivity|]. cbn -[Z.add Z.sub Z.modulo]. repeat (split; [done|]).
  intros r ? ? ?. destruct r; done.
Qed.

Lemma lor_interrupt_mask f : Z.lor f interrupt_mask = set_flag IF true f.
Proof.
  apply Z.bits_inj'. intros i Hi. rewrite testbit_set_flag, Z.lor_spec by (unfold IF; lia). unfold interrupt_mask.
  rewrite Z.pow2_bits_eqb by (unfold IF; lia). rewrite (Z.eqb_sym IF). destruct (i =? IF); [apply orb_true_r|apply orb_false_r].
Qed.

Lemma set_IF_same f : set_flag IF (get_flag IF f) f = f.
Proof.
  apply Z.bits_inj'. intros i Hi. rewrite testbit_set_flag by (unfold IF; lia).
  destruct (Z.eqb_spec i IF) as [->|]; done.
Qed.

Definition push_head (ss : Z) (b : bool) : list instr :=
  [mov_imm_ rax ss; push_ (OReg rax); push_ (OReg rbx); pushf_] ++
  (if b then [mov_imm_ rax interrupt_mask; or_ (OMem rsp 0) (OReg rax)] else []).

Definition push_tail (vector ec cs e : Z) : list instr :=
  [mov_imm_ rax cs; push_ (OReg rax); mov_imm_ rax e; push_ (OReg rax)] ++
  (if has_error_code vector then [mov_imm_ rax ec; push_ (OReg rax)] else []).

Lemma push_head_run ns ss b m :
  in_width 64 (regs m rsp) -> in_width 64 (regs m rbx) -> in_width 64 (flags m) -> in_width 64 ss ->
  get_flag IF (flags m) = false -> 64 <= regs m rsp ->
  exists m1, exec_list ns (push_head ss b) m = Some m1 /\ regs m1 rsp = regs m rsp - 24 /\
    (forall r, r <> rax -> r <> rsp -> regs m1 r = regs m r) /\
    read64 (mem m1) (regs m rsp - 8) = ss /\ read64 (mem m1) (regs m rsp - 16) = regs m rbx /\
    read64 (mem m1) (regs m rsp - 24) = set_flag IF b (flags m) /\
    (forall x, 0 <= x < 2 ^ 64 -> x < regs m rsp - 24 \/ regs m rsp <= x -> mem m1 x = mem m x).
Proof.
  intros Wsp Wbx Wf Wss Hif Hlo. unfold in_width in *.
  assert (Wset : forall b, 0 <= set_flag IF b (flags m) < 2 ^ 64) by (intros; apply set_flag_range; unfold IF; lia).
  assert (Ef : set_flag IF false (flags m) = flags m) by (rewrite <- Hif; apply set_IF_same).
  unfold push_head. destruct b; cbn [app exec_list exec1]; unfold push, logic; cbn -[Z.add Z.sub Z.lor]; unfold ea;
    cbn -[Z.add Z.sub Z.lor]; rewrite ?Z.add_0_r; machine.
  - change (u64 interrupt_mask) with interrupt_mask. rewrite lor_interrupt_mask. specialize (Wset true).
    eexists. split; [reflexivity|]. cbn -[Z.add Z.sub]. split; [lia|].
    split; [intros r ? ?; destruct r; done|]. machine. repeat (split; [done|]).
    intros x Hx Hd. by rewrite !write64_other by (try split; lia).
  - eexists. split; [reflexivity|]. cbn -[Z.add Z.sub]. split; [lia|].
    split; [intros r ? ?; destruct r; done|]. machine. rewrite Ef. repeat (split; [done|]).
    intros x Hx Hd. by rewrite !write64_other by (try split; lia).
Qed.

Lemma push_tail_run ns vector ec cs e m :
  in_width 64 (regs m rsp) -> Forall (in_width 64) [ec; cs; e] -> 64 <= regs m rsp ->
  let n := if has_error_code vector then 24 else 16 in
  exists m1, exec_list ns (push_tail vector ec cs e) m = Some m1 /\ regs m1 rsp = regs m rsp - n /\
    (forall r, r <> rax -> r <> rsp -> regs m1 r = regs m r) /\
    read64 (mem m1) (regs m rsp - 8) = cs /\ read64 (mem m1) (regs m rsp - 16) = e /\
    (has_error_code vector = true -> read64 (mem m1) (regs m rsp - 24) = ec) /\
    (forall x, 0 <= x < 2 ^ 64 -> x < regs m rsp - 24 \/ regs m rsp <= x -> mem m1 x = mem m x).
Proof.
  intros Wsp Hw Hlo n. rewrite !List.Forall_cons_iff in Hw. destruct Hw as (Wec & Wcs & We & _).
  unfold in_width in *. unfold push_tail, n.
  destruct (has_error_code vector); cbn [app exec_list exec1]; unfold push; cbn -[Z.add Z.sub]; machine;
    (eexists; split; [reflexivity|]); cbn -[Z.add Z.sub]; (split; [lia|]);
    (split; [intros r ? ?; destruct r; done|]); machine; repeat (split; [done|]);
    intros x Hx Hd; by rewrite !write64_other by (try split; lia).
Qed.

Lemma rebuild_shape spill stack_align handler vector isf e :
  rebuild_frame spill stack_align handler vector isf e =
    spill_code spill ++ switch_code stack_align ++ push_head (segment_ss isf) (get_flag IF (isf_flags isf)) ++
    push_tail vector (error_code isf) (segment_cs isf) e ++
    [mov_imm_ rax spill; mov_ld_ rbx (OMem rax 8); mov_ld_ rax (OMem rax 0); jmp_ (pc_ handler)].
Proof. unfold rebuild_frame, push_head, push_tail. by destruct (get_flag IF _), (has_error_code vector). Qed.

Lemma rebuild_leaves_IF spill stack_align handler vector isf e :
  forallb leaves_IF (rebuild_frame spill stack_align handler vector isf e) = true.
Proof. unfold rebuild_frame. by destruct (get_flag IF _), (has_error_code vector). Qed.

Record isf_wf (isf : interrupt_stack_frame) (e : Z) : Prop := {
  iw_words : Forall (in_width 64) [error_code isf; segment_cs isf; segment_ss isf; e]
}.

Lemma rebuild_run go ns cl lo hi spill stack_align handler vector isf e m :
  roomy lo m -> get_flag IF (flags m) = false -> delay_env lo hi spill stack_align m -> isf_wf isf e ->
  let S := regs m rsp in let A := S - S mod 16 in
  exists m', run_from go ns cl (rebuild_frame spill stack_align handler vector isf e) m = Ret (ToPc handler, m') /\
    (forall r, r <> rsp -> regs m' r = regs m r) /\
    regs m' rsp = (if has_error_code vector then A - 48 else A - 40) /\
    frame_at (mem m') (A - 48) (delivered_frame (error_code isf) (segment_cs isf) (segment_ss isf) e
      (set_flags (set_flag IF (get_flag IF (isf_flags isf)) (flags m)) m)) /\
    (has_error_code vector = true -> read64 (mem m') (A - 48) = error_code isf) /\
    (forall x, 0 <= x < 2 ^ 64 -> x < lo \/ S <= x -> x < spill \/ spill + 16 <= x -> mem m' x = mem m x).
Proof.
  intros [Wr Wf (H0 & Hlo & Hhi)] Hif [(Hs1 & Hs2 & Hsap) (Ht0 & Ht & Htap & Hts) Hal (Hst & Hst2)] [Hw] S A.
  rewrite !List.Forall_cons_iff in Hw. destruct Hw as (Wec & Wcs & Wss & We & _).
  pose proof (Z.mod_pos_bound S 16 ltac:(lia)) as Hmod. assert (HA : S - 15 <= A <= S) by (unfold A; lia).
  fold S in Hlo, Hhi, Hst. set (b := get_flag IF (isf_flags isf)).
  destruct (spill_code_run ns spill m) as (m1 & E1 & F1 & R1 & M1); try done; fold S; try lia.
  fold S in M1. pose proof Hs1 as [Hs1a Hs1b]. pose proof Hs2 as [_ Hs2b].
  assert (M1o : forall x, 0 <= x < 2 ^ 64 -> (x < S - 8 \/ S <= x) -> (x < spill \/ spill + 16 <= x) -> mem m1 x = mem m x).
  { intros x Hx Hd1 Hd2. rewrite M1, !write64_other by (try split; lia). done. }
  assert (Sp1 : regs m1 rsp = S) by (by apply R1).
  destruct (switch_code_run ns stack_align m1) as (m2 & E2 & F2 & M2 & Sp2 & B2 & R2); rewrite ?Sp1; try lia.
  { intros i Hi. rewrite M1o by lia. by apply Hal. }
  rewrite Sp1 in Sp2, B2. fold A in Sp2.
  destruct (push_head_run ns (segment_ss isf) b m2) as (m3 & E3 & Sp3 & R3 & Wss3 & Wsp3 & Wfl3 & M3);
    rewrite ?Sp2, ?B2, ?F2, ?F1; try done; try (split; lia); try lia.
  rewrite Sp2 in Sp3, Wss3, Wsp3, Wfl3, M3. rewrite B2 in Wsp3. rewrite F2, F1 in Wfl3.
  destruct (push_tail_run ns vector (error_code isf) (segment_cs isf) e m3)
    as (m4 & E4 & Sp4 & R4 & Wcs4 & We4 & Wec4 & M4); rewrite ?Sp3; try (split; lia); try lia.
  { rewrite !List.Forall_cons_iff. done. }
  rewrite Sp3 in Sp4, Wcs4, We4, Wec4, M4.
  assert (M4o : forall x, 0 <= x < 2 ^ 64 -> x < A - 48 \/ A <= x -> mem m4 x = mem m1 x).
  { intros x Hx Hd. rewrite M4, M3, M2 by lia. done. }
  assert (Hsp8 : read64 (mem m4) (spill + 8) = regs m rbx /\ read64 (mem m4) spill = regs m rax).
  { pose proof (Wr rax). pose proof (Wr rbx). unfold in_width in *.
    rewrite !(read64_ext (mem m4) (mem m1)) by (try done; intros x Hx; apply M4o; lia). rewrite M1. machine. done. }
  destruct Hsp8 as [Hb Ha].
  rewrite rebuild_shape. fold b. rewrite (run_from_straight _ _ _ _ _ _ _ E1), (run_from_straight _ _ _ _ _ _ _ E2),
    (run_from_straight _ _ _ _ _ _ _ E3), (run_from_straight _ _ _ _ _ _ _ E4).
  cbn [run_from exec1 get_op]. unfold ea. cbn -[Z.add Z.sub]. rewrite Z.add_0_r. machine. rewrite Hb, Ha.
  eexists. split; [reflexivity|]. cbn -[Z.add Z.sub frame_at].
  assert (K : forall a, A - 24 <= a <= A - 8 -> read64 (mem m4) a = read64 (mem m3) a).
  { intros a Ha'. apply read64_ext; [split; lia|]. intros x Hx. apply M4; lia. }
  split; [|split; [|split; [|split]]].
  - intros r Hr. destruct (decide (r = rax)) as [->|Hax]; [done|]. destruct (decide (r = rbx)) as [->|Hbx]; [done|].
    transitivity (regs m4 r); [destruct r; done|]. by rewrite R4, R3, R2, R1.
  - rewrite Sp4. destruct (has_error_code vector); lia.
  - unfold frame_at, delivered_frame. cbn -[Z.add Z.sub].
    replace (A - 48 + 8) with (A - 24 - 16) by lia. replace (A - 48 + 16) with (A - 24 - 8) by lia.
    replace (A - 48 + 24) with (A - 24) by lia. replace (A - 48 + 32) with (A - 16) by lia.
    replace (A - 48 + 40) with (A - 8) by lia.
    rewrite (K (A - 24)), (K (A - 16)), (K (A - 8)) by lia. done.
  - intros Hec. replace (A - 48) with (A - 24 - 24) by lia. by apply Wec4.
  - intros x Hx Hd1 Hd2. rewrite M4o, M1o by lia. done.
Qed.

(** ** Theorem *)
Lemma deliver_regs vector ec cs ss ip m :
  let A := regs m rsp - regs m rsp mod 16 in
  64 <= A < 2 ^ 64 ->
  regs (deliver vector ec cs ss ip m) rsp = (if has_error_code vector then A - 48 else A - 40) /\
  (forall r, r <> rsp -> regs (deliver vector ec cs ss ip m) r = regs m r).
Proof.
  intros A HA. unfold deliver, push. fold A. clearbody A. cbn -[Z.add Z.sub]. machine.
  destruct (has_error_code vector); cbn -[Z.add Z.sub]; machine; (split; [lia|intros r Hr; destruct r; done]).
Qed.

Lemma delay_env_sim lo hi spill stack_align m m' :
  sim lo m m' -> delay_env lo hi spill stack_align m -> delay_env lo hi spill stack_align m'.
Proof.
  intros [Hr _ Hm] [Hs Ht Ha Hst]. constructor; try done; [|by rewrite <- Hr].
  intros i Hi. rewrite <- Hm by lia. by apply Ha.
Qed.

Lemma delayed_flags lo m m' : delayed lo m m' -> set_flag IF (get_flag IF (flags m)) (flags m') = flags m.
Proof.
  intros [[_ Hf _] _]. rewrite <- (set_IF_same (flags m)) at 2. apply Z.bits_inj'. intros i Hi.
  rewrite !testbit_set_flag by (unfold IF; lia). destruct (Z.eqb_spec i IF); [done|]. symmetry. by apply same_other_flags.
Qed.

(** C8 A delayed interrupt is delivered at the end of its region.  Let an
    interrupt arrive at instruction [k] of a region without branches whose
    instructions do not touch the dead part of the stack, and which leaves
    the interrupt flag as it was.  The copy is made, the frame of the
    interrupt gets its interrupt flag cleared, and the machine that resumes
    in the copy with that frame reaches the handler of the vector, with
    interrupts off at every instruction on the way; there its registers are those with which the processor delivers an interrupt behind
    the region, run in place, and the stack holds the same frame, with the
    flags and the stack pointer of that point and the address of the end of
    the region.  Memory is as the region leaves it, but for the spill slots
    and the dead part of the stack. *)
Theorem delayed_interrupt_delivers decode ns cl lo hi spill stack_align handler vector isf delay_begin delay_end ins k
    fuel m m' :
  laid_out decode delay_begin ins delay_end -> no_ctis ins -> (k < length ins)%nat -> (length ins <= fuel)%nat ->
  instruction_pointer isf = address_of delay_begin ins k -> isf_flags isf = flags m -> isf_wf isf delay_end ->
  runs_in ns lo (ops_of (drop k ins)) m ->
  let mn := native_run ns (ops_of (drop k ins)) m in
  let F := regs mn rsp - regs mn rsp mod 16 - 48 in
  let md := deliver vector (error_code isf) (segment_cs isf) (segment_ss isf) delay_end mn in
  get_flag IF (flags mn) = get_flag IF (flags m) -> delay_env lo hi spill stack_align mn ->
  sim lo m m' -> flags m' = set_flag IF false (flags m) ->
  exists ls code p isf' body mh,
    emit_delayed_interrupt decode fuel spill stack_align handler vector isf delay_begin delay_end =
      Ret (ls, code, p, isf') /\
    isf_flags isf' = flags m' /\ straight_code (drop p ls) = Some body /\
    run 0 ns cl (body ++ code) m' = Ret (ToPc handler, mh) /\
    interrupts_off_along ns (body ++ code) m' /\
    (forall r, regs mh r = regs md r) /\
    frame_at (mem mh) F (delivered_frame (error_code isf) (segment_cs isf) (segment_ss isf) delay_end mn) /\
    (has_error_code vector = true -> read64 (mem mh) F = error_code isf) /\
    (forall x, 0 <= x < 2 ^ 64 -> x < lo \/ regs mn rsp <= x -> x < spill \/ spill + 16 <= x -> mem mh x = mem mn x).
Proof.
  intros Hl Hc Hk Hf Hip Hfl Hisf Hr mn F md Hif Henv Hs0 Hf0.
  destruct (copy_region_spec decode ins fuel k delay_begin delay_end [] 0 Hl Hc Hk Hf) as (pre & Ec).
  assert (Hd0 : delayed lo m m').
  { split; [done|]. rewrite Hf0. apply get_flag_set_same. unfold IF. lia. }
  destruct (delayed_run ns lo _ m m' Hr Hd0) as (m1 & E1 & Hd1 & Hroom & Hoff). fold mn in Hd1, Hroom.
  pose proof Hd1 as [Hs1 Hi1]. pose proof Hs1 as [Hr1 _ Hm1].
  assert (Hroom1 : roomy lo m1) by (apply (sim_roomy lo mn); try done; apply (sim_width lo mn); [done|apply Hroom]).
  destruct (rebuild_run (branch 0 ns cl (concat (map delayed_code (ops_of (drop k ins))) ++
      rebuild_frame spill stack_align handler vector isf delay_end)) ns cl lo hi spill stack_align handler vector isf
      delay_end m1 Hroom1 Hi1 (delay_env_sim _ _ _ _ _ _ Hs1 Henv) Hisf) as (mh & Eh & Rh & Sh & Fh & Ech & Mh).
  rewrite <- !Hr1 in Sh, Fh, Ech, Mh. rewrite Hfl, <- Hif, (delayed_flags lo mn m1 Hd1) in Fh.
  pose proof (rm_stack _ _ Hroom) as (H0 & Hlo & Hhi). pose proof (Z.mod_pos_bound (regs mn rsp) 16 ltac:(lia)) as Hmod.
  destruct (deliver_regs vector (error_code isf) (segment_cs isf) (segment_ss isf) delay_end mn) as [Dsp Dr]; [lia|].
  eexists _, _, _, _, _, mh. split; [|split; [|split; [|split; [|split; [|split; [|split; [|split]]]]]]].
  - unfold emit_delayed_interrupt. rewrite Hip, Ec. cbn [mbind outcome_bind redirect_loop]. reflexivity.
  - cbn. rewrite Hfl, Hf0. destruct (get_flag IF (flags m)) eqn:E; [done|]. rewrite <- E at 1. by rewrite set_IF_same.
  - cbn [app]. rewrite drop_app_length. cbn [straight_code item_code mbind option_bind]. rewrite items_code; [reflexivity|].
    by apply Forall_drop.
  - unfold run. cbn [app]. rewrite (run_from_straight _ _ _ _ _ _ _ E1). exact Eh.
  - apply (off_along_app _ _ _ _ m1); [exact E1|exact Hoff|]. apply off_along_leaves; [apply rebuild_leaves_IF|exact Hi1].
  - intros r. destruct (decide (r = rsp)) as [->|Hn]; [rewrite Sh; symmetry; exact Dsp|].
    unfold md. rewrite Dr, Rh by done. symmetry. apply Hr1.
  - unfold delivered_frame in *. cbn [regs set_flags flags] in Fh. by rewrite <- Hr1 in Fh.
  - exact Ech.
  - intros x Hx Hd Hd2. rewrite Mh by done. symmetry. by apply Hm1.
Qed.

(** ** An instance *)
Definition inc_rcx : native_sem := fun _ m => set_reg rcx (u64 (regs m rcx + 1)) m.

Lemma inc_rcx_plain lo id : plain_instruction inc_rcx lo id.
Proof.
  split; [|done]. intros m m' [Hr Hf Hm]. constructor; [|done|].
  - intros r. cbn. rewrite !Hr. by destruct (reg_eqb r rcx).
  - intros x Hx Hd. apply Hm; [done|]. revert Hd. cbn. done.
Qed.

(** [inc %rcx; cli; inc %rcx; sti] at address [0x100]. *)
Definition sample_region : list decoded :=
  [ {| d_op := DR_other 0; d_len := 3 |}; {| d_op := DR_cli; d_len := 1 |};
    {| d_op := DR_other 0; d_len := 3 |}; {| d_op := DR_sti; d_len := 1 |} ].

Definition sample_decode (pc : Z) : decoded :=
  match pc - 0x100 with
  | 0 | 4 => {| d_op := DR_other 0; d_len := 3 |}
  | 3 => {| d_op := DR_cli; d_len := 1 |}
  | _ => {| d_op := DR_sti; d_len := 1 |}
  end.

Definition delay_mach : mach :=
  {| regs := fun r => if reg_eqb r rsp then 0x10008 else reg_id r;
     mem := fun x => if (0x40000 <=? x) && (x <? 0x40100) then (x - 0x40000) - (x - 0x40000) mod 16 else 0;
     flags := 0x202 |}.

Definition delay_isf : interrupt_stack_frame :=
  {| error_code := 0; instruction_pointer := 0x100; segment_cs := 0x10; isf_flags := 0x202; stack_pointer := 0x10008;
     segment_ss := 0x18 |}.

Definition in_word (z : Z) : bool := (0 <=? z) && (z <? 2 ^ 64).
Definition all_regs : list reg := [rax; rcx; rdx; rbx; rsp; rbp; rsi; rdi; r8; r9; r10; r11; r12; r13; r14; r15].

Lemma roomy_check lo m :
  forallb (fun r => in_word (regs m r)) all_regs && in_word (flags m) && (0 <=? lo) && (lo + 256 <=? regs m rsp) &&
    (regs m rsp + 16 <? 2 ^ 64) = true -> roomy lo m.
Proof.
  rewrite !andb_true_iff. intros ((((Hr & Hf) & ?%Z.leb_le) & ?%Z.leb_le) & ?%Z.ltb_lt).
  assert (K : forall z, in_word z = true -> in_width 64 z) by (intros z [?%Z.leb_le ?%Z.ltb_lt]%andb_prop; split; lia).
  constructor; [|by apply K|lia]. rewrite forallb_forall in Hr. intros r. apply K, Hr. by destruct r; cbn; auto 20.
Qed.

Lemma delayed_interrupt_delivers_witness :
  exists ls code p isf' body mh,
    emit_delayed_interrupt sample_decode 4 0x50000 0x40000 0x6000 32 delay_isf 0x100 0x108 = Ret (ls, code, p, isf') /\
    straight_code (drop p ls) = Some body /\
    run 0 inc_rcx (fun _ _ => Fault) (body ++ code) (set_flags 0x2 delay_mach) = Ret (ToPc 0x6000, mh) /\
    regs mh rcx = 4 /\ regs mh rbx = reg_id rbx /\ read64 (mem mh) (0xFFD0 + 8) = 0x108 /\
    read64 (mem mh) (0xFFD0 + 24) = 0x202.
Proof.
  destruct (delayed_interrupt_delivers sample_decode inc_rcx (fun _ _ => Fault) 0x8000 0x20000 0x50000 0x40000 0x6000 32
    delay_isf 0x100 0x108 sample_region 0 4 delay_mach (set_flags 0x2 delay_mach))
    as (ls & code & p & isf' & body & mh & E1 & _ & E2 & E3 & _ & Hr & (Hip & _ & Hfl & _) & _).
  - repeat (split; [reflexivity|]). reflexivity.
  - repeat constructor.
  - cbn. lia.
  - cbn. lia.
  - reflexivity.
  - reflexivity.
  - constructor. rewrite !List.Forall_cons_iff. unfold in_width. cbn. repeat split; (lia || constructor).
  - cbn [ops_of drop sample_region map runs_in d_op plain_op].
    repeat match goal with |- _ /\ _ => split | |- plain_instruction _ _ _ => apply inc_rcx_plain | |- True => exact I end;
      apply roomy_check; vm_compute; reflexivity.
  - reflexivity.
  - constructor; [unfold word_at; lia|lia| |vm_compute; intuition congruence].
    intros i Hi. change (mem (native_run _ _ _)) with (mem delay_mach). cbn [mem delay_mach].
    rewrite (proj2 (Z.leb_le _ _)), (proj2 (Z.ltb_lt _ _)) by lia. cbn [andb]. by replace (0x40000 + i - 0x40000) with i by lia.
  - by constructor.
  - reflexivity.
  - exists ls, code, p, isf', body, mh. split; [exact E1|]. split; [exact E2|]. split; [exact E3|].
    split; [rewrite Hr; reflexivity|]. split; [rewrite Hr; reflexivity|]. split; [exact Hip|exact Hfl].
Defined.

(** ** Branches that escape *)
Definition unredirected (it : ditem) : Prop := match it with DIn _ _ (Some _) => False | _ => True end.
Definition item_is_cti (it : ditem) : bool := match it with DIn _ o _ => is_cti o | _ => false end.
Definition num_ctis_of (ls : list ditem) : nat := length (List.filter item_is_cti ls).

Lemma num_ctis_app l1 l2 : num_ctis_of (l1 ++ l2) = (num_ctis_of l1 + num_ctis_of l2)%nat.
Proof. unfold num_ctis_of. by rewrite List.filter_app, length_app. Qed.

Lemma copy_region_inv decode fuel : forall ip pc e ls d n ls' d' n',
  copy_region decode fuel ip pc e ls d n = Ret (ls', d', n') -> Forall unredirected ls -> n = num_ctis_of ls ->
  Forall unredirected ls' /\ n' = num_ctis_of ls'.
Proof.
  induction fuel as [|fuel IH]; intros ip pc e ls d n ls' d' n' E Hu Hn; cbn [copy_region] in E;
    (destruct (pc <? e); [|injection E as <- <- <-; done]); [discriminate E|].
  assert (K : forall l, Forall unredirected l -> n = num_ctis_of l ->
    Forall unredirected (mangle_delayed_instruction l pc (d_op (decode pc))) /\
    (if is_cti (d_op (decode pc)) then S n else n) =
      num_ctis_of (mangle_delayed_instruction l pc (d_op (decode pc)))).
  { intros l Hl ->. rewrite mangle_app, num_ctis_app. split.
    - apply Forall_app. split; [done|]. by destruct (d_op (decode pc)); repeat constructor.
    - destruct (d_op (decode pc)); unfold num_ctis_of; cbn; lia. }
  destruct (ip =? pc); [destruct (K (ls ++ [DLabel None])) as [K1 K2]|destruct (K ls) as [K1 K2]]; try done.
  - apply Forall_app. split; [done|]. by repeat constructor.
  - rewrite num_ctis_app. cbn. lia.
  - by apply IH in E.
  - by apply IH in E.
Qed.

Lemma redirect_loop_beyond n : forall i ls ls' j,
  redirect_loop n i ls = Ret ls' -> (i + n <= j)%nat -> ls' !! j = ls !! j.
Proof.
  induction n as [|n IH]; intros i ls ls' j E Hj; cbn [redirect_loop] in E; [by injection E as ->|].
  destruct (ls !! i) as [[pc|x|pc o r]|] eqn:Ei; [by apply (IH (S i)); [|lia]..| |by injection E as ->].
  destruct (is_cti o); [|by apply (IH (S i)); [|lia]].
  destruct (mangle_cti ls i pc o) as [ls1| |] eqn:Em; try discriminate E. cbn [mbind outcome_bind] in E.
  rewrite (IH _ _ _ _ E) by lia. unfold mangle_cti in Em. destruct o; try (by injection Em as <-).
  destruct (position_of ls target_pc); [|discriminate Em]. injection Em as <-. by rewrite list_lookup_insert_ne by lia.
Qed.

Lemma num_ctis_insert ls : forall i x y, ls !! i = Some x -> item_is_cti x = item_is_cti y ->
  num_ctis_of (<[i := y]> ls) = num_ctis_of ls.
Proof.
  unfold num_ctis_of. induction ls as [|z ls IH]; intros [|i] x y Hl E; cbn in Hl; try discriminate Hl.
  - injection Hl as ->. cbn. rewrite E. by destruct (item_is_cti y).
  - specialize (IH i x y Hl E). change (<[S i := y]> (z :: ls)) with (z :: <[i := y]> ls). cbn [List.filter].
    destruct (item_is_cti z); cbn [length]; by rewrite IH.
Qed.

Lemma redirect_loop_count n : forall i ls ls', redirect_loop n i ls = Ret ls' -> num_ctis_of ls' = num_ctis_of ls.
Proof.
  induction n as [|n IH]; intros i ls ls' E; cbn [redirect_loop] in E; [by injection E as ->|].
  destruct (ls !! i) as [[pc|x|pc o r]|] eqn:Ei; [by apply IH in E..| |by injection E as ->].
  destruct (is_cti o); [|by apply IH in E].
  destruct (mangle_cti ls i pc o) as [ls1| |] eqn:Em; try discriminate E. cbn [mbind outcome_bind] in E.
  rewrite (IH _ _ _ E). unfold mangle_cti in Em. destruct o; try (by injection Em as <-).
  destruct (position_of ls target_pc); [|discriminate Em]. injection Em as <-. by eapply num_ctis_insert.
Qed.

(** Branches of a delayed region escape from the copy.  The loop that
    redirects the branches of the copy counts down the number of branches at
    every instruction.  Whatever the region, a branch that does not stand
    among as many first instructions of the copy as the copy has branches is
    left with its old target, outside of the copy, where the interrupt that
    is being delayed is no longer delivered. *)
Theorem delayed_branch_escapes decode fuel spill stack_align handler vector isf delay_begin delay_end ls code p isf' j pc o r :
  emit_delayed_interrupt decode fuel spill stack_align handler vector isf delay_begin delay_end = Ret (ls, code, p, isf') ->
  (num_ctis_of ls <= j)%nat -> ls !! j = Some (DIn pc o r) -> r = None.
Proof.
  unfold emit_delayed_interrupt. destruct (copy_region _ _ _ _ _ _ _ _) as [[[ls0 d] n]| |] eqn:Ec; try discriminate 1.
  cbn [mbind outcome_bind]. destruct (redirect_loop n 0 ls0) as [ls1| |] eqn:Er; try discriminate 1.
  cbn [mbind outcome_bind]. destruct d as [p'|]; [|discriminate 1]. intros [= -> _ _ _] Hj Hl.
  destruct (copy_region_inv _ _ _ _ _ _ _ _ _ _ _ Ec) as [Hu Hn]; [constructor|done|].
  rewrite (redirect_loop_count _ _ _ _ Er), <- Hn in Hj. rewrite (redirect_loop_beyond _ _ _ _ j Er) in Hl by lia.
  rewrite list.Forall_forall in Hu. apply list_elem_of_lookup_2, Hu in Hl. by destruct r.
Qed.

(** [inc %rcx; jnz 0x100; ...]: the loop of the region is not closed in the
    copy. *)
Definition loop_decode (pc : Z) : decoded :=
  if pc =? 0x100 then {| d_op := DR_other 0; d_len := 3 |} else {| d_op := DR_branch true 0x100; d_len := 2 |}.

Lemma delayed_branch_escapes_witness :
  exists ls code p isf', emit_delayed_interrupt loop_decode 5 0x50000 0x40000 0x6000 32 delay_isf 0x100 0x105 =
      Ret (ls, code, p, isf') /\
    exists r, ls !! 2%nat = Some (DIn (Some 0x103) (DR_branch true 0x100) r) /\ r = None.
Proof.
  eexists _, _, _, _. split; [reflexivity|]. eexists. split; [reflexivity|].
  eapply (delayed_branch_escapes loop_decode 5 0x50000 0x40000 0x6000 32 delay_isf 0x100 0x105 _ _ _ _ 2);
    [reflexivity|apply (bool_decide_unpack _); vm_compute; exact I|reflexivity].
Defined.
