(* ===== verification/MangleCti.v ===== *)
(** * Mangling of branches: [granary/mangle.cc]

    When a block is emitted its branches are made to stay in the code cache:
    [mangle_cti] works out the policy of the target, [mangle_direct_cti]
    decides where a direct branch goes (to generated code, to a detach point,
    to native code, to a block in the code cache, or to a linking stub), and
    indirect branches go to the lookup code of [Ibl].  The decision is the
    translation-time counterpart of [code_cache::find], which resolves the
    branches that are left to stubs and indirect branches at run time.

    The theorems: the policies are the ones under which [Trace] follows and
    links branches; a direct branch that is resolved at translation time goes
    where [code_cache::find] would send it, when the branch stays in its
    context; and where the two differ. *)

From Stdlib Require Import ZArith Lia.
From stdpp Require Import base numbers list option gmap.
From S2P Require Import Prelude Policy HashTable CodeCache EmitUtils Trace.
Import MangledAddress.

Section MangleCti.
Context `{Config} {T W : Type} `{!LookupTable T, !CodeCacheEnv T W}.
Context {Args IArgs : Type} (reg : registry (Args := Args) (IArgs := IArgs)).

(** ** Policies of targets *)

(** The policy of the instruction, or else that of the block. *)
Definition own_policy (in_policy policy : instrumentation_policy) : instrumentation_policy :=
  begins_functional_unit false (if policy_not in_policy then policy else in_policy).

Definition return_policy (in_policy policy : instrumentation_policy) : instrumentation_policy :=
  let p := inherit_properties (own_policy in_policy policy) policy INHERIT_RETURN in
  return_address_in_code_cache false (in_host_context false (indirect_cti_target false (return_target true p))).

Definition branch_policy (k : branch_kind) (in_policy policy : instrumentation_policy) : instrumentation_policy :=
  match k with
  | CALL =>
      begins_functional_unit true (return_address_in_code_cache true
        (inherit_properties (own_policy in_policy policy) policy INHERIT_CALL))
  | _ => begins_functional_unit false (inherit_properties (own_policy in_policy policy) policy INHERIT_JMP)
  end.

Definition direct_policy (k : branch_kind) (in_policy policy : instrumentation_policy) : instrumentation_policy :=
  indirect_cti_target false (return_target false (branch_policy k in_policy policy)).

Definition indirect_policy (k : branch_kind) (in_policy policy : instrumentation_policy)
    : outcome instrumentation_policy :=
  let p := begins_functional_unit true
             (indirect_cti_target true (return_target false (branch_policy k in_policy policy))) in
  auto ← is_host_auto_instrumented reg p;
  Ret (if (auto : bool) then in_host_context true p else p).

(** ** Direct branches *)

(** What becomes of a direct branch: it is given a target, it is replaced by
    an indirect one through a slot that holds the target, or it goes to a
    stub for the mangled address. *)
Inductive direct_cti :=
  | SetTarget (pc : Z)
  | ThroughSlot (is_call : bool) (pc : Z)
  | DblStub (am : Z).

Definition or_else (target_pc : Z) (next : outcome Z) : outcome Z :=
  if target_pc =? 0 then next else Ret target_pc.

(** The policy that is set on the instruction, and the new branch. *)
Definition mangle_direct_cti (st : cc_state T W) (policy : instrumentation_policy) (estimator_pc : Z)
    (k : branch_kind) (target_pc : Z) (target_policy : instrumentation_policy)
    : outcome (instrumentation_policy * direct_cti) :=
  let generated := is_code_cache_address target_pc || is_wrapper_address target_pc || is_gencode_address target_pc in
  detach ← or_else (if generated then target_pc else 0)
    (if can_detach target_policy then find_detach_target target_pc (context target_policy) else Ret 0);
  r ← (if (detach =? 0) && negb (is_in_host_context policy) && is_host_address target_pc then
         auto ← is_host_auto_instrumented reg policy;
         Ret (if (auto : bool) then (in_host_context true target_policy, detach) else (target_policy, target_pc))
       else Ret (target_policy, detach));
  let '(target_policy, detach) := r in
  let am := mangled_address target_pc target_policy in
  detach ← or_else detach (find_detach_target target_pc (context target_policy));
  detach ← or_else detach (lookup st am);
  if detach =? 0 then Ret (target_policy, DblStub am)
  else if is_far_away estimator_pc detach then
    match k with
    | CALL => Ret (target_policy, ThroughSlot true detach)
    | JMP => Ret (target_policy, ThroughSlot false detach)
    | _ => Fault
    end
  else Ret (target_policy, SetTarget detach).

(** ** [mangle_cti] *)
Inductive mangled_cti :=
  | MangledDirect (c : direct_cti)
  | MangledIbl (target_policy : instrumentation_policy) (k : branch_kind)
  | MangledSyscallTable
  | MangledNothing.

(** [iret] is left alone; so is a branch to a label, whose policy must be that
    of the block.  [native_syscall_table] tells that the operand of the branch
    is the system call table and that the shadow table exists. *)
Definition mangle_cti (st : cc_state T W) (policy START_POLICY : instrumentation_policy) (estimator_pc : Z)
    (is_iret native_syscall_table : bool) (in_ : instruction) : outcome mangled_cti :=
  if is_iret then Ret MangledNothing else
  match oper in_ with
  | OCti RET _ =>
      let p := return_policy (in_policy in_) policy in
      Ret (if return_address_is_in_code_cache policy then MangledNothing else MangledIbl p RET)
  | OCti k (TPc a) =>
      r ← mangle_direct_cti st policy estimator_pc k a (direct_policy k (in_policy in_) policy);
      Ret (MangledDirect r.2)
  | OCti k TInd =>
      p ← indirect_policy k (in_policy in_) policy;
      Ret (if env_kernel && instrument_host && native_syscall_table &&
              policy_eqb (base_policy p) (base_policy START_POLICY)
           then MangledSyscallTable else MangledIbl p k)
  | OCti k _ =>
      ASSERT (policy_eqb (branch_policy k (in_policy in_) policy) policy) ≫= fun _ => Ret MangledNothing
  | _ => Ret MangledNothing
  end.

(** ** Lemmas *)
Lemma with_flag_id f b p : 0 <= f -> flag f p = b -> with_flag f b p = p.
Proof.
  intros Hf Hb. destruct p as [x]. unfold with_flag, flag, get_flag in *. cbn in *. f_equal.
  apply Z.bits_inj'. intros i Hi. rewrite testbit_set_flag by lia. destruct (Z.eqb_spec i f) as [->|]; done.
Qed.

Lemma jmp_policy_direct i outgoing k :
  k <> CALL -> jmp_policy i outgoing = direct_policy k (in_policy i) outgoing.
Proof.
  intros Hk. unfold jmp_policy, direct_policy, branch_policy, own_policy.
  set (p := inherit_properties _ outgoing INHERIT_JMP).
  assert (Hp : begins_functional_unit false p = p).
  { apply with_flag_id; [done|]. apply (inherit_properties_facts _ _ INHERIT_JMP BEGINS_FUNCTIONAL_UNIT). done. }
  destruct k; try done; by rewrite Hp.
Qed.

(** The temporary properties of the policy of a direct branch. *)
Lemma direct_policy_flags k in_policy policy :
  can_detach (direct_policy k in_policy policy) = true /\
  is_indirect_cti_target (direct_policy k in_policy policy) = false /\
  is_return_target (direct_policy k in_policy policy) = false /\
  is_beginning_of_functional_unit (direct_policy k in_policy policy) = (match k with CALL => true | _ => false end) /\
  is_in_host_context (direct_policy k in_policy policy) = is_in_host_context policy.
Proof.
  assert (Hi : forall c f, 0 <= f < NUM_TEMPORARY_PROPERTIES ->
    flag f (inherit_properties (own_policy in_policy policy) policy c) = false).
  { intros c f Hf. destruct (inherit_properties_facts (own_policy in_policy policy) policy c f) as [_ ->].
    - policy_consts. lia.
    - by rewrite (proj2 (Z.ltb_lt _ _)) by lia. }
  assert (Hh : forall c, flag IS_IN_HOST_CONTEXT (inherit_properties (own_policy in_policy policy) policy c) =
    flag IS_IN_HOST_CONTEXT policy).
  { intros c. destruct (inherit_properties_facts (own_policy in_policy policy) policy c IS_IN_HOST_CONTEXT) as [_ ->]; [done|].
    by destruct c. }
  assert (Hb : forall f, flag f (branch_policy k in_policy policy) =
    if f =? BEGINS_FUNCTIONAL_UNIT then (match k with CALL => true | _ => false end)
    else flag f (branch_policy k in_policy policy)).
  { intros f. destruct (Z.eqb_spec f BEGINS_FUNCTIONAL_UNIT) as [->|]; [|done].
    destruct k; apply flag_with_flag_same; done. }
  assert (Hrest : forall f, f = FORCE_ATTACH \/ f = IS_IN_HOST_CONTEXT -> flag f (branch_policy k in_policy policy) =
    flag f (inherit_properties (own_policy in_policy policy) policy (match k with CALL => INHERIT_CALL | _ => INHERIT_JMP end))).
  { intros f Hf. assert (0 <= f /\ f <> BEGINS_FUNCTIONAL_UNIT /\ f <> CAN_DIRECT_RETURN) as (H0 & H1 & H2).
    { policy_consts. destruct Hf; lia. }
    unfold branch_policy, begins_functional_unit, return_address_in_code_cache.
    destruct k; try (by rewrite flag_with_flag_other by done).
    rewrite flag_with_flag_other by done. destruct env_kernel; [done|]. by rewrite flag_with_flag_other by done. }
  unfold direct_policy, can_detach, is_indirect_cti_target, is_return_target, is_beginning_of_functional_unit,
    is_in_host_context, indirect_cti_target, return_target.
  split; [|split; [|split; [|split]]].
  - rewrite !flag_with_flag_other by done. rewrite Hrest by auto. by rewrite Hi by done.
  - by apply flag_with_flag_same.
  - rewrite flag_with_flag_other by done. by apply flag_with_flag_same.
  - rewrite !flag_with_flag_other by done. rewrite Hb. by rewrite Z.eqb_refl.
  - rewrite !flag_with_flag_other by done. rewrite Hrest by auto. apply Hh.
Qed.

Lemma direct_policy_wf k in_policy policy : policy_wf policy -> policy_wf (direct_policy k in_policy policy).
Proof.
  intros Hp. assert (Hi : forall c, policy_wf (inherit_properties (own_policy in_policy policy) policy c)).
  { intros c. assert (Hb : policy_wf (mk_policy (Z.lor 0 (as_raw_bits (base_policy policy))))).
    { rewrite Z.lor_0_l. apply (base_policy_wf policy Hp). }
    unfold inherit_properties. apply with_id_wf. destruct c; try exact Hb.
    apply with_flag_wf; [policy_consts; lia|exact Hb]. }
  unfold direct_policy. do 2 (apply with_flag_wf; [policy_consts; lia|]).
  unfold branch_policy, return_address_in_code_cache.
  destruct k; (apply with_flag_wf; [policy_consts; lia|]); try apply Hi.
  destruct env_kernel; [apply Hi|]. apply with_flag_wf; [policy_consts; lia|apply Hi].
Qed.

(** ** Direct branches at translation time and at run time *)
Definition generated (a : Z) : bool :=
  is_code_cache_address a || is_wrapper_address a || is_gencode_address a.

(** Generated code and detach points are not translated by a lookup that can
    detach; a lookup that forces attachment may have translated a detach
    point and cached it. *)
Definition detaches (a : Z) (ctx : runtime_context) : Prop :=
  generated a = true \/ exists d, find_detach_target a ctx = Ret d /\ d <> 0.

Definition not_attached (st : cc_state T W) (am : Z) : Prop :=
  lt_map (CODE_CACHE st) !! am = None /\ lt_map (CODE_CACHE st) !! base_address am = None.

(** The branch stays in its context: host code branches to host code, and
    other code to other code. *)
Definition same_context (policy : instrumentation_policy) (a : Z) : Prop :=
  is_host_address a = is_in_host_context policy /\ (env_kernel = false -> is_host_address a = false).

Lemma converted_same policy k in_policy a :
  policy_wf policy -> canonical a -> same_context policy a ->
  let p := direct_policy k in_policy policy in
  unmangled_address (mangled_address a p) = a /\ policy_of (mangled_address a p) = p /\
  converted_policy (mangled_address a p) = p.
Proof.
  intros Hw Hc [Hh Hu] p. destruct (mangled_address_facts a p Hc) as (_ & Ea & Ep); [by apply direct_policy_wf|].
  split; [done|]. split; [done|]. unfold converted_policy. rewrite Ea, Ep. apply with_flag_id; [done|].
  destruct (direct_policy_flags k in_policy policy) as (_ & _ & _ & _ & Hp). unfold is_in_host_context in Hp. unfold p.
  rewrite Hp. unfold is_in_host_context in Hh. rewrite <- Hh. unfold IF_USER_ELSE.
  destruct env_kernel; [done|]. by rewrite Hu.
Qed.

(** What [mangle_direct_cti] decides for a branch that stays in its context. *)
Lemma mangle_direct_same st policy estimator_pc k a p tp c :
  can_detach p = true -> same_context policy a ->
  mangle_direct_cti st policy estimator_pc k a p = Ret (tp, c) ->
  tp = p /\ exists d,
    (if generated a && negb (a =? 0) then d = a
     else exists d0, find_detach_target a (context p) = Ret d0 /\
       (if d0 =? 0 then lookup st (mangled_address a p) = Ret d else d = d0)) /\
    (if d =? 0 then c = DblStub (mangled_address a p)
     else c = SetTarget d \/ exists b, c = ThroughSlot b d).
Proof.
  intros Hcd [Hh _] E. unfold mangle_direct_cti, or_else in E. fold (generated a) in E. rewrite Hcd in E.
  assert (Hskip : forall d, (d =? 0) && negb (is_in_host_context policy) && is_host_address a = false).
  { intros d. rewrite Hh. by destruct (d =? 0), (is_in_host_context policy). }
  assert (Hfin : forall d, (if d =? 0 then Ret (p, DblStub (mangled_address a p))
      else if is_far_away estimator_pc d then
        match k with CALL => Ret (p, ThroughSlot true d) | JMP => Ret (p, ThroughSlot false d) | _ => Fault end
      else Ret (p, SetTarget d)) = Ret (tp, c) ->
    tp = p /\ (if d =? 0 then c = DblStub (mangled_address a p) else c = SetTarget d \/ exists b, c = ThroughSlot b d)).
  { intros d Ed. destruct (d =? 0); [by injection Ed as <- <-|]. destruct (is_far_away estimator_pc d).
    - destruct k; try done; injection Ed as <- <-; eauto.
    - injection Ed as <- <-. auto. }
  destruct (generated a && negb (a =? 0)) eqn:Hg.
  - apply andb_true_iff in Hg as [Hg Ha]. apply negb_true_iff in Ha. rewrite Hg, Ha in E.
    cbn [mbind outcome_bind] in E. rewrite Hskip in E. cbn [mbind outcome_bind] in E. rewrite Ha in E.
    cbn [mbind outcome_bind] in E. rewrite Ha in E. cbn [mbind outcome_bind] in E.
    apply Hfin in E as [? E]. split; [done|]. exists a. split; [done|]. done.
  - assert (H0 : (if generated a then a else 0) = 0).
    { destruct (generated a); [|done]. cbn in Hg. by apply negb_false_iff, Z.eqb_eq in Hg. }
    rewrite H0 in E. cbn [Z.eqb] in E. destruct (find_detach_target a (context p)) as [d0| |] eqn:Ed; try done.
    cbn [mbind outcome_bind] in E. rewrite Hskip in E. cbn [mbind outcome_bind] in E.
    destruct (d0 =? 0) eqn:E0.
    + rewrite Ed in E. cbn [mbind outcome_bind] in E. rewrite E0 in E.
      destruct (lookup st (mangled_address a p)) as [d| |] eqn:El; try done. cbn [mbind outcome_bind] in E.
      apply Hfin in E as [? E]. split; [done|]. exists d. split; [|done]. exists d0. by rewrite E0.
    + cbn [mbind outcome_bind] in E. rewrite E0 in E. cbn [mbind outcome_bind] in E.
      apply Hfin in E as [? E]. split; [done|]. exists d0. split; [|done]. exists d0. by rewrite E0.
Qed.

Lemma resolve_special st policy k in_policy a d :
  let p := direct_policy k in_policy policy in
  let am := mangled_address a p in
  lt_ok (CODE_CACHE st) -> no_null (lt_map (CODE_CACHE st)) -> policy_wf policy -> canonical a -> a <> 0 ->
  same_context policy a -> not_attached st am -> base_address am <> 0 -> d <> 0 ->
  (if generated a then d = a else find_detach_target a (context p) = Ret d) ->
  resolve st am = Ret d.
Proof.
  intros p am Hok Hnn Hw Hc Ha Hs [_ Hnb] Hb Hd Hsp.
  destruct (converted_same policy k in_policy a Hw Hc Hs) as (Eu & Ep & Ec). fold p am in Eu, Ep, Ec.
  unfold resolve. rewrite Eu, Ep, Ec. fold (generated a). destruct (generated a).
  - subst d. rewrite (proj2 (Z.eqb_neq a 0) Ha). cbn [andb mbind outcome_bind]. by rewrite (proj2 (Z.eqb_neq a 0) Ha).
  - destruct (direct_policy_flags k in_policy policy) as (Hcd & _). fold p in Hcd. rewrite Hcd.
    rewrite load_present, Hnb by done. cbn [default from_option].
    destruct (negb (base_address am =? am)); cbn [Z.eqb andb mbind outcome_bind snd]; rewrite Hsp;
      cbn [mbind outcome_bind]; rewrite (proj2 (Z.eqb_neq d 0) Hd); by rewrite andb_false_r.
Qed.

(** ** Theorems *)

(** The mangler looks a direct branch up under the policy with which the
    trace builder follows and links it: for jumps, conditional branches and
    calls the two ways of computing the policy agree on every bit. *)
Theorem mangled_policy_is_trace_policy k i outgoing :
  direct_policy k (in_policy i) outgoing = match k with CALL => call_policy i outgoing | _ => jmp_policy i outgoing end.
Proof. destruct k; try done; symmetry; by apply jmp_policy_direct. Qed.

(** C11 Linking at translation time agrees with linking at run time: when the
    mangler gives a direct branch that stays in its context an address, then
    [code_cache::find], which the stub of the branch would have called,
    returns the same address and leaves the table as it is, provided that no
    block is cached for a target that is generated code or a detach point (a
    lookup that forces attachment may have put one there, which [find] then
    prefers and the mangler does not); otherwise the branch goes to a stub
    for exactly its target and policy. *)
Theorem direct_link_agrees_with_find st policy estimator_pc k in_policy a tp c :
  let p := direct_policy k in_policy policy in
  let am := mangled_address a p in
  lt_ok (CODE_CACHE st) -> no_null (lt_map (CODE_CACHE st)) -> policy_wf policy -> canonical a -> a <> 0 ->
  same_context policy a -> (detaches a (context p) -> not_attached st am) -> am <> 0 -> base_address am <> 0 ->
  mangle_direct_cti st policy estimator_pc k a p = Ret (tp, c) ->
  match c with
  | SetTarget d | ThroughSlot _ d =>
      exists st', find st am = Ret (st', d) /\ CODE_CACHE st' = CODE_CACHE st
  | DblStub am' => am' = am /\ unmangled_address am' = a /\ policy_of am' = p
  end.
Proof.
  intros p am Hok Hnn Hw Hc Ha Hs Hpl Ham Hb E.
  destruct (direct_policy_flags k in_policy policy) as (Hcd & Hi & Hr & _). fold p in Hcd, Hi, Hr.
  destruct (converted_same policy k in_policy a Hw Hc Hs) as (Eu & Ep & Ec). fold p am in Eu, Ep, Ec.
  apply mangle_direct_same in E as (_ & d & Hd & Hres); [|done|done].
  destruct (Z.eqb_spec d 0) as [->|Hd0]; [by subst c|].
  assert (Hfind : exists st', find st am = Ret (st', d) /\ CODE_CACHE st' = CODE_CACHE st).
  { assert (Hspecial : (if generated a then d = a else find_detach_target a (context p) = Ret d) ->
      exists st', find st am = Ret (st', d) /\ CODE_CACHE st' = CODE_CACHE st).
    { intros Hsp. assert (Hna : not_attached st am).
      { apply Hpl. unfold detaches. destruct (generated a); [by left|right; by exists d]. }
      pose proof (resolve_special st policy k in_policy a d Hok Hnn Hw Hc Ha Hs Hna Hb Hd0 Hsp) as Er. fold p am in Er.
      destruct Hna as [Hn _].
      eexists. split; [eapply find_resolved; [|exact Er|done|]|].
      - rewrite load_present, Hn by done. by rewrite bool_decide_eq_false_2 by (intros [? ?]; done).
      - by rewrite Ec, Hi, Hr.
      - done. }
    rewrite (proj2 (Z.eqb_neq a 0) Ha), andb_true_r in Hd. destruct (generated a) eqn:Hg; [by apply Hspecial|].
    destruct Hd as (d0 & Ed & Hd). destruct (Z.eqb_spec d0 0) as [->|Hne].
    - exists st. split; [|done]. fold am in Hd. unfold lookup in Hd. rewrite load_present in Hd by done.
      cbn [mbind outcome_bind snd] in Hd. injection Hd as Hd. destruct (lt_map (CODE_CACHE st) !! am) as [v|] eqn:Em; [|done].
      cbn in Hd. unfold id in Hd. subst v. by apply find_hit.
    - subst d0. by apply Hspecial. }
  destruct Hres as [->|[b ->]]; exact Hfind.
Qed.

(** A direct call is never linked to a cached block at translation time: the
    mangler looks it up under a policy that begins a functional unit, and
    blocks are cached under policies without temporary properties. *)
Theorem direct_call_goes_to_stub st policy estimator_pc in_policy a tp c :
  let p := direct_policy CALL in_policy policy in
  lt_ok (CODE_CACHE st) -> no_null (lt_map (CODE_CACHE st)) -> policy_wf policy -> canonical a ->
  (forall q v, lt_map (CODE_CACHE st) !! q = Some v -> is_beginning_of_functional_unit (policy_of q) = false \/
     is_indirect_cti_target (policy_of q) = true) ->
  mangled_address a p <> 0 -> generated a = false -> same_context policy a ->
  find_detach_target a (context p) = Ret 0 ->
  mangle_direct_cti st policy estimator_pc CALL a p = Ret (tp, c) -> c = DblStub (mangled_address a p).
Proof.
  intros p Hok Hnn Hw Hc Hkeys Ham Hg Hs Hdt E.
  destruct (direct_policy_flags CALL in_policy policy) as (Hcd & Hi & _ & Hbg & _). fold p in Hcd, Hi, Hbg.
  destruct (converted_same policy CALL in_policy a Hw Hc Hs) as (_ & Ep & _). fold p in Ep.
  apply mangle_direct_same in E as (_ & d & Hd & Hres); [|done|done].
  rewrite Hg in Hd. cbn [andb] in Hd. destruct Hd as (d0 & Ed & Hd). rewrite Hdt in Ed. injection Ed as <-.
  cbn [Z.eqb] in Hd. unfold lookup in Hd. rewrite load_present in Hd by done. cbn [mbind outcome_bind snd] in Hd.
  destruct (lt_map (CODE_CACHE st) !! mangled_address a p) as [v|] eqn:Em.
  - apply Hkeys in Em. rewrite Ep, Hi, Hbg in Em. by destruct Em.
  - injection Hd as <-. exact Hres.
Qed.

End MangleCti.

(** ** Witnesses *)

(** Modules are above 0xFFFFFFFFA0000000, the host is below; a module
    function and a host function have wrappers for module code. *)
Definition demo_env : CodeCacheEnv (hash_table Z Z) unit := {|
  is_code_cache_address := fun _ => false;
  is_wrapper_address := fun a => a =? 0xFFFFFFFFA0009000;
  is_gencode_address := fun _ => false;
  is_host_address := fun a => a <? 0xFFFFFFFFA0000000;
  find_detach_target := fun a ctx =>
    Ret (match ctx with
         | RUNNING_AS_APP => if (a =? 0xFFFFFFFFA0001000) || (a =? 0xFFFFFFFF91000000) then 0xFFFFFFFFA0009000 else 0
         | RUNNING_AS_HOST => 0
         end);
  translate := fun t w _ _ => Ret (t, w, 0x7000, 1);
  ibl_exit_routine := fun w _ t => (w, t)
|}.

Abbreviation demo_registry := (initial_registry (Args := unit) (IArgs := unit)).
Abbreviation demo_mangle k a :=
  (@mangle_direct_cti kernel_config _ _ _ demo_env _ _ demo_registry example_state (from_id 1) 0xFFFFFFFFA0100000 k a
     (@direct_policy kernel_config k no_policy (from_id 1))).

Lemma example_table : lt_ok (CODE_CACHE example_state) /\ lt_map (CODE_CACHE example_state) = ∅.
Proof.
  destruct (make_wf (K := Z) (V := Z)) as [Hwf Hv]; [cbn; lia|]. split; [exact Hwf|]. exact Hv.
Qed.

Lemma direct_link_agrees_with_find_witness :
  demo_mangle JMP 0xFFFFFFFFA0001000 = Ret (@direct_policy kernel_config JMP no_policy (from_id 1), SetTarget 0xFFFFFFFFA0009000) /\
  exists st', @find kernel_config _ _ _ demo_env example_state
    (mangled_address 0xFFFFFFFFA0001000 (@direct_policy kernel_config JMP no_policy (from_id 1)))
    = Ret (st', 0xFFFFFFFFA0009000) /\ CODE_CACHE st' = CODE_CACHE example_state.
Proof.
  destruct example_table as [Hok Hm].
  assert (E : demo_mangle JMP 0xFFFFFFFFA0001000 =
    Ret (@direct_policy kernel_config JMP no_policy (from_id 1), SetTarget 0xFFFFFFFFA0009000)).
  { vm_compute. reflexivity. }
  split; [exact E|].
  refine (@direct_link_agrees_with_find kernel_config _ _ _ demo_env _ _ demo_registry example_state (from_id 1)
    0xFFFFFFFFA0100000 JMP no_policy 0xFFFFFFFFA0001000 _ (SetTarget 0xFFFFFFFFA0009000) _ _ _ _ _ _ _ _ _ E).
  - exact Hok.
  - intros k v. rewrite Hm, lookup_empty. discriminate.
  - split; vm_compute; congruence.
  - split; [split; vm_compute; congruence|vm_compute; reflexivity].
  - discriminate.
  - split; [vm_compute; reflexivity|discriminate].
  - intros _. unfold not_attached. rewrite Hm, !lookup_empty. split; reflexivity.
  - vm_compute. discriminate.
  - vm_compute. discriminate.
Defined.

Lemma direct_call_goes_to_stub_witness :
  demo_mangle CALL 0xFFFFFFFFA0002000 =
    Ret (@direct_policy kernel_config CALL no_policy (from_id 1),
         DblStub (mangled_address 0xFFFFFFFFA0002000 (@direct_policy kernel_config CALL no_policy (from_id 1)))) /\
  DblStub (mangled_address 0xFFFFFFFFA0002000 (@direct_policy kernel_config CALL no_policy (from_id 1))) =
  DblStub (mangled_address 0xFFFFFFFFA0002000 (@direct_policy kernel_config CALL no_policy (from_id 1))).
Proof.
  destruct example_table as [Hok Hm].
  assert (E : demo_mangle CALL 0xFFFFFFFFA0002000 =
    Ret (@direct_policy kernel_config CALL no_policy (from_id 1),
         DblStub (mangled_address 0xFFFFFFFFA0002000 (@direct_policy kernel_config CALL no_policy (from_id 1))))).
  { vm_compute. reflexivity. }
  split; [exact E|].
  refine (@direct_call_goes_to_stub kernel_config _ _ _ demo_env _ _ demo_registry example_state (from_id 1)
    0xFFFFFFFFA0100000 no_policy 0xFFFFFFFFA0002000 _ _ _ _ _ _ _ _ _ _ _ E).
  - exact Hok.
  - intros k v. rewrite Hm, lookup_empty. discriminate.
  - split; vm_compute; congruence.
  - split; [split; vm_compute; congruence|vm_compute; reflexivity].
  - intros q v. rewrite Hm, lookup_empty. discriminate.
  - vm_compute. discriminate.
  - reflexivity.
  - split; [vm_compute; reflexivity|discriminate].
  - reflexivity.
Defined.

(** Module code that calls a wrapped host function directly reaches the
    wrapper, since the detach points of its own context are consulted before
    the context is converted; [code_cache::find] converts first, and sends an
    indirect call of the same function to the function itself. *)
Example indirect_call_misses_wrapper :
  demo_mangle CALL 0xFFFFFFFF91000000 =
    Ret (@direct_policy kernel_config CALL no_policy (from_id 1), SetTarget 0xFFFFFFFFA0009000) /\
  match @indirect_policy kernel_config _ _ demo_registry CALL no_policy (from_id 1) with
  | Ret p => @resolve kernel_config _ _ _ demo_env example_state (mangled_address 0xFFFFFFFF91000000 p)
               = Ret 0xFFFFFFFF91000000
  | _ => False
  end.
Proof. vm_compute. split; reflexivity. Qed.
