(* ===== verification/BlockInfo.v ===== *)
(** * Block meta-information: [granary/basic_block_info.cc]

    The code cache is divided into slabs; a [fragment_locator] holds, for the
    traces of a slab, pointers to their descriptions in the order of their
    addresses.  A trace that crosses slabs shares the locator of its first
    slab with the following ones, so the slots of the slab table are
    pointers into a store of locators.

    The theorems: the binary search finds the fragment that contains an
    address, within as many iterations as there are fragments; storing a
    trace makes exactly its blocks findable and keeps the others; removing
    the last block undoes it, except that the shared slots stay behind. *)

From Stdlib Require Import ZArith Lia.
From stdpp Require Import base numbers list option gmap.
From S2P Require Import Prelude Allocator.

(** ** Data *)
Definition BB_ALIGN : Z := 64.
Definition MAX_BBS_PER_SLAB : nat := Z.to_nat (Exec.FRAGMENT_SLAB_SIZE / BB_ALIGN + 1).

(** The fields of [basic_block_info] that the lookup uses, and the native
    address that tells two blocks apart. *)
Record basic_block_info := {
  bb_start_pc : Z;
  bb_num_bytes : Z;
  generating_pc : Z
}.

Record trace_info := {
  tr_start_pc : Z;
  num_blocks : Z;
  tr_num_bytes : Z;
  tr_info : list basic_block_info
}.

(** A tagged pointer: the low bit tells a trace from a block. *)
Inductive generic_info_ptr :=
  | NullPtr
  | BlockPtr (block : basic_block_info)
  | TracePtr (trace : trace_info).

Definition start_pc (p : generic_info_ptr) : outcome Z :=
  match p with
  | NullPtr => Fault
  | BlockPtr b => Ret (bb_start_pc b)
  | TracePtr t => Ret (tr_start_pc t)
  end.

Definition end_pc (p : generic_info_ptr) : outcome Z :=
  match p with
  | NullPtr => Fault
  | BlockPtr b => Ret (u64 (bb_start_pc b + bb_num_bytes b))
  | TracePtr t => Ret (u64 (tr_start_pc t + tr_num_bytes t))
  end.

Definition block_has (b : basic_block_info) (pc : Z) : bool :=
  (bb_start_pc b <=? pc) && (pc <? u64 (bb_start_pc b + bb_num_bytes b)).

(** The loop of [get_block] over [blocks], with [n] blocks left. *)
Fixpoint get_block_loop (n : nat) (blocks : list basic_block_info) (pc : Z)
    : outcome basic_block_info :=
  match n with
  | O => Fault
  | S n =>
      match blocks with
      | [] => Fault
      | b :: blocks => if block_has b pc then Ret b else get_block_loop n blocks pc
      end
  end.

Definition get_block (p : generic_info_ptr) (pc : Z) : outcome basic_block_info :=
  match p with
  | NullPtr => Fault
  | BlockPtr b => Ret b
  | TracePtr t => get_block_loop (Z.to_nat (num_blocks t)) (tr_info t) pc
  end.

(** The loop of the binary search; [long] arithmetic with C's truncating
    division. *)
Fixpoint search_loop (fuel : nat) (array : list generic_info_ptr) (pc first last middle : Z)
    : outcome (option basic_block_info) :=
  match fuel with
  | O => OutOfFuel
  | S fuel =>
      if (first <=? middle) && (middle <=? last) then
        info_ptr ← idx array (Z.to_nat middle);
        trace_start_pc ← start_pc info_ptr;
        trace_end_pc ← end_pc info_ptr;
        if trace_start_pc <=? pc then
          if pc <? trace_end_pc then b ← get_block info_ptr pc; Ret (Some b)
          else search_loop fuel array pc (middle + 1) last (Z.quot (middle + 1 + last) 2)
        else search_loop fuel array pc first (middle - 1) (Z.quot (first + (middle - 1)) 2)
      else Ret None
  end.

Definition search_basic_block_info (fuel : nat) (array : list generic_info_ptr) (max pc : Z)
    : outcome (option basic_block_info) :=
  if max =? 0 then Ret None
  else search_loop fuel array pc 0 (max - 1) (Z.quot (0 + (max - 1)) 2).

Record fragment_locator := {
  next_index : nat;
  fragments : list generic_info_ptr
}.

(** The slab table ([granary_find_fragment_slab] gives its slots), the store
    of locators it points into, and the next fresh address. *)
Record locators := {
  slabs : gmap Z Z;
  store : gmap Z fragment_locator;
  fresh : Z
}.

Definition empty_locator : fragment_locator :=
  {| next_index := 0; fragments := replicate MAX_BBS_PER_SLAB NullPtr |}.

Definition initial_locators : locators := {| slabs := ∅; store := ∅; fresh := 1 |}.

(** [allocate_memory<fragment_locator>()] into an empty slot. *)
Definition ensure_locator (slab_ : Z) (st : locators) : locators :=
  match slabs st !! slab_ with
  | Some _ => st
  | None =>
      {| slabs := <[slab_ := fresh st]> (slabs st);
         store := <[fresh st := empty_locator]> (store st);
         fresh := fresh st + 1 |}
  end.

(** The loop that shares the locator [k] with [n] slots from [next_slab_]. *)
Fixpoint share_slabs (n : nat) (next_slab_ k : Z) (st : locators) : outcome locators :=
  match n with
  | O => Ret st
  | S n =>
      match slabs st !! next_slab_ with
      | Some _ => Fault
      | None =>
          share_slabs n (next_slab_ + 1) k
            {| slabs := <[next_slab_ := k]> (slabs st); store := store st; fresh := fresh st |}
      end
  end.

Definition locator_at (st : locators) (slab_ : Z) : outcome (Z * fragment_locator) :=
  match slabs st !! slab_ with
  | None => Fault
  | Some k => match store st !! k with Some loc => Ret (k, loc) | None => Fault end
  end.

Definition set_locator (k : Z) (loc : fragment_locator) (st : locators) : locators :=
  {| slabs := slabs st; store := <[k := loc]> (store st); fresh := fresh st |}.

Section Lookup.
Context (ex : Exec.exec_state).

Definition store_trace_meta_info (trace : trace_info) (st : locators) : outcome locators :=
  slab_ ← Exec.granary_find_fragment_slab ex (tr_start_pc trace);
  let st := ensure_locator slab_ st in
  kl ← locator_at st slab_;
  end_slab_ ← Exec.granary_find_fragment_slab ex (u64 (tr_start_pc trace + tr_num_bytes trace - 1));
  st ← share_slabs (Z.to_nat (end_slab_ - slab_)) (slab_ + 1) kl.1 st;
  kl ← locator_at st slab_;
  ASSERT (0 <? num_blocks trace) ≫= fun _ =>
  ASSERT (bool_decide (next_index kl.2 < MAX_BBS_PER_SLAB)%nat) ≫= fun _ =>
  info_ptr ← (if num_blocks trace =? 1 then b ← idx (tr_info trace) 0; Ret (BlockPtr b)
              else Ret (TracePtr trace));
  frags ← set_idx (fragments kl.2) (next_index kl.2) info_ptr;
  Ret (set_locator kl.1 {| next_index := S (next_index kl.2); fragments := frags |} st).

Definition find_basic_block_info (fuel : nat) (cache_pc : Z) (st : locators)
    : outcome basic_block_info :=
  slab_ ← Exec.granary_find_fragment_slab ex cache_pc;
  kl ← locator_at st slab_;
  info ← search_basic_block_info fuel (fragments kl.2) (Z.of_nat (next_index kl.2)) cache_pc;
  match info with
  | None => Fault
  | Some info =>
      ASSERT (bb_start_pc info <=? cache_pc) ≫= fun _ =>
      ASSERT (cache_pc <? u64 (bb_start_pc info + bb_num_bytes info)) ≫= fun _ =>
      Ret info
  end.

Definition remove_basic_block_info (cache_pc : Z) (st : locators) : outcome locators :=
  slab_ ← Exec.granary_find_fragment_slab ex cache_pc;
  kl ← locator_at st slab_;
  ASSERT (bool_decide (next_index kl.2 <> 0%nat)) ≫= fun _ =>
  frag ← idx (fragments kl.2) (pred (next_index kl.2));
  match frag with
  | BlockPtr b =>
      ASSERT (bb_start_pc b <=? cache_pc) ≫= fun _ =>
      frags ← set_idx (fragments kl.2) (pred (next_index kl.2)) NullPtr;
      Ret (set_locator kl.1 {| next_index := pred (next_index kl.2); fragments := frags |} st)
  | _ => Fault
  end.

End Lookup.

(** ** Specification *)

(** The addresses of a fragment. *)
Definition frag_start (p : generic_info_ptr) : Z :=
  match p with NullPtr => 0 | BlockPtr b => bb_start_pc b | TracePtr t => tr_start_pc t end.
Definition frag_end (p : generic_info_ptr) : Z :=
  match p with
  | NullPtr => 0
  | BlockPtr b => bb_start_pc b + bb_num_bytes b
  | TracePtr t => tr_start_pc t + tr_num_bytes t
  end.
Definition frag_blocks (p : generic_info_ptr) : list basic_block_info :=
  match p with NullPtr => [] | BlockPtr b => [b] | TracePtr t => tr_info t end.

Definition bb_range (b : basic_block_info) : Z * Z := (bb_start_pc b, bb_num_bytes b).

Definition in_block (b : basic_block_info) (pc : Z) : Prop :=
  bb_start_pc b <= pc < bb_start_pc b + bb_num_bytes b.

(** A trace as [translate] builds it: its blocks are non-empty, pairwise
    disjoint and inside it. *)
Record trace_wf (t : trace_info) : Prop := {
  tw_count : num_blocks t = Z.of_nat (length (tr_info t));
  tw_some : tr_info t <> [];
  tw_range : 0 <= tr_start_pc t /\ tr_start_pc t + tr_num_bytes t < 2 ^ 63;
  tw_inside : Forall (fun b => 0 < bb_num_bytes b /\ tr_start_pc t <= bb_start_pc b /\
                bb_start_pc b + bb_num_bytes b <= tr_start_pc t + tr_num_bytes t) (tr_info t);
  tw_disjoint : all_disjoint (map bb_range (tr_info t))
}.

(** A fragment in a locator: the trace, or its only block. *)
Definition frag_of (t : trace_info) : generic_info_ptr :=
  match tr_info t with [b] => BlockPtr b | _ => TracePtr t end.

Definition frag_wf (p : generic_info_ptr) : Prop := exists t, trace_wf t /\ p = frag_of t.

(** Fragments in the order of their addresses, without overlap. *)
Definition ordered (fs : list generic_info_ptr) : Prop :=
  forall i j f g, (i < j)%nat -> fs !! i = Some f -> fs !! j = Some g -> frag_end f <= frag_start g.

Definition used (loc : fragment_locator) : list generic_info_ptr :=
  take (next_index loc) (fragments loc).

(** ** Lemmas: fragments *)
Lemma trace_blocks t b : trace_wf t -> b ∈ tr_info t ->
  0 < bb_num_bytes b /\ tr_start_pc t <= bb_start_pc b /\
  bb_start_pc b + bb_num_bytes b <= tr_start_pc t + tr_num_bytes t.
Proof. intros Hw Hb. pose proof (tw_inside t Hw) as H. by rewrite Forall_forall in H; apply H. Qed.

Lemma trace_first t : trace_wf t -> exists b bs, tr_info t = b :: bs.
Proof. intros Hw. pose proof (tw_some t Hw). destruct (tr_info t); [done|eauto]. Qed.

Lemma frag_of_cases t : trace_wf t ->
  (exists b, tr_info t = [b] /\ frag_of t = BlockPtr b) \/ frag_of t = TracePtr t.
Proof.
  intros Hw. destruct (trace_first t Hw) as (b & bs & E). unfold frag_of. rewrite E.
  destruct bs; eauto.
Qed.

Lemma frag_of_blocks t : trace_wf t -> frag_blocks (frag_of t) = tr_info t.
Proof. intros Hw. by destruct (frag_of_cases t Hw) as [(b & -> & ->)| ->]. Qed.

Lemma frag_of_range t : trace_wf t ->
  tr_start_pc t <= frag_start (frag_of t) /\ frag_start (frag_of t) < frag_end (frag_of t) /\
  frag_end (frag_of t) <= tr_start_pc t + tr_num_bytes t.
Proof.
  intros Hw. destruct (trace_first t Hw) as (b & bs & E).
  pose proof (trace_blocks t b Hw ltac:(rewrite E; left)) as Hb.
  destruct (frag_of_cases t Hw) as [(c & Ec & ->)| ->]; cbn.
  - rewrite E in Ec. injection Ec as -> ->. lia.
  - lia.
Qed.

Lemma frag_wf_pcs f : frag_wf f ->
  0 <= frag_start f /\ frag_start f < frag_end f /\ frag_end f < 2 ^ 63 /\
  start_pc f = Ret (frag_start f) /\ end_pc f = Ret (frag_end f).
Proof.
  intros (t & Hw & ->). pose proof (frag_of_range t Hw) as (H1 & H2 & H3).
  pose proof (tw_range t Hw) as [H4 H5]. split; [lia|]. split; [lia|]. split; [lia|].
  destruct (frag_of_cases t Hw) as [(b & Eb & E)|E]; rewrite E in *; cbn in *;
    rewrite wrap_small by lia; done.
Qed.

Lemma frag_block_inside f b : frag_wf f -> b ∈ frag_blocks f ->
  frag_start f <= bb_start_pc b /\ bb_start_pc b + bb_num_bytes b <= frag_end f /\ 0 < bb_num_bytes b.
Proof.
  intros (t & Hw & ->) Hb. rewrite frag_of_blocks in Hb by done.
  pose proof (trace_blocks t b Hw Hb).
  destruct (frag_of_cases t Hw) as [(c & Ec & ->)| ->]; cbn; [|lia].
  rewrite Ec in Hb. apply list_elem_of_singleton in Hb as ->. lia.
Qed.

Lemma block_has_spec b pc : 0 <= bb_start_pc b -> 0 < bb_num_bytes b ->
  bb_start_pc b + bb_num_bytes b < 2 ^ 63 -> block_has b pc = true <-> in_block b pc.
Proof.
  intros. unfold block_has, in_block. rewrite wrap_small by lia.
  rewrite andb_true_iff, Z.leb_le, Z.ltb_lt. done.
Qed.

Lemma get_block_loop_spec blocks b pc :
  Forall (fun c => 0 <= bb_start_pc c /\ 0 < bb_num_bytes c /\ bb_start_pc c + bb_num_bytes c < 2 ^ 63) blocks ->
  all_disjoint (map bb_range blocks) -> b ∈ blocks -> in_block b pc ->
  get_block_loop (length blocks) blocks pc = Ret b.
Proof.
  induction blocks as [|c blocks IH]; intros Hf Hd Hb Hpc; [by apply elem_of_nil in Hb|].
  apply List.Forall_cons_iff in Hf as [(? & ? & ?) Hf]. cbn [map] in Hd.
  apply all_disjoint_cons in Hd as [Hc Hd]. cbn [length get_block_loop].
  apply elem_of_cons in Hb as [->|Hb].
  - by rewrite (proj2 (block_has_spec c pc ltac:(lia) ltac:(lia) ltac:(lia)) Hpc).
  - destruct (block_has c pc) eqn:E; [|by apply IH].
    apply block_has_spec in E; [|lia..]. exfalso.
    rewrite Forall_forall in Hc. specialize (Hc (bb_range b) ltac:(by apply list_elem_of_fmap_2)).
    unfold block_disjoint, bb_range, in_block in *. cbn in Hc. lia.
Qed.

Lemma get_block_spec f b pc : frag_wf f -> b ∈ frag_blocks f -> in_block b pc -> get_block f pc = Ret b.
Proof.
  intros (t & Hw & ->) Hb Hpc. rewrite frag_of_blocks in Hb by done.
  destruct (frag_of_cases t Hw) as [(c & Ec & ->)| ->]; cbn.
  - rewrite Ec in Hb. by apply list_elem_of_singleton in Hb as ->.
  - rewrite (tw_count t Hw), Nat2Z.id. apply get_block_loop_spec; try done; [|by apply tw_disjoint].
    pose proof (tw_range t Hw). apply Forall_forall. intros c Hc.
    pose proof (trace_blocks t c Hw Hc). lia.
Qed.

(** ** Lemmas: the binary search *)
Lemma search_step_middle first last :
  0 <= first -> first <= last -> first <= Z.quot (first + last) 2 <= last.
Proof. intros. rewrite Z.quot_div_nonneg by lia. split; [apply Z.div_le_lower_bound|apply Z.div_le_upper_bound]; lia. Qed.

Section Search.
Context (array : list generic_info_ptr) (n : nat).
Context (Hn : (n <= length array)%nat).
Context (Hord : ordered (take n array)) (Hwf : Forall frag_wf (take n array)).

Lemma search_lookup m : 0 <= m < Z.of_nat n ->
  exists f, idx array (Z.to_nat m) = Ret f /\ take n array !! Z.to_nat m = Some f /\ frag_wf f.
Proof.
  intros Hm. destruct (idx_lt array (Z.to_nat m) ltac:(lia)) as (f & E & El).
  exists f. split; [done|]. rewrite lookup_take_lt by lia. split; [done|].
  rewrite Forall_forall in Hwf. apply Hwf, (list_elem_of_lookup_2 _ (Z.to_nat m)).
  by rewrite lookup_take_lt by lia.
Qed.

Lemma search_loop_found f i pc :
  take n array !! i = Some f -> frag_start f <= pc < frag_end f ->
  forall fuel first last, 0 <= first -> last < Z.of_nat n -> first <= Z.of_nat i <= last ->
    (Z.to_nat (last - first + 1) < fuel)%nat ->
    search_loop fuel array pc first last (Z.quot (first + last) 2) =
    (b ← get_block f pc; Ret (Some b)).
Proof.
  intros Hi Hpc. induction fuel as [|fuel IH]; intros first last H0 Hl Hfl Hfuel; [lia|].
  cbn [search_loop]. pose proof (search_step_middle first last H0 ltac:(lia)) as Hm.
  set (m := Z.quot (first + last) 2) in *.
  destruct (Z.leb_spec first m); [|lia]. destruct (Z.leb_spec m last); [|lia]. cbn [andb].
  destruct (search_lookup m ltac:(lia)) as (g & -> & Hg & Hgw).
  destruct (frag_wf_pcs g Hgw) as (? & ? & ? & Es & Ee). cbn [mbind outcome_bind].
  rewrite Es. cbn [mbind outcome_bind]. rewrite Ee. cbn [mbind outcome_bind].
  destruct (lt_eq_lt_dec i (Z.to_nat m)) as [[Hlt|Heq]|Hgt].
  - pose proof (Hord i (Z.to_nat m) f g Hlt Hi Hg).
    destruct (Z.leb_spec (frag_start g) pc); [lia|]. apply IH; lia.
  - assert (g = f) as -> by congruence.
    destruct (Z.leb_spec (frag_start f) pc); [|lia].
    destruct (Z.ltb_spec pc (frag_end f)); [done|lia].
  - pose proof (Hord (Z.to_nat m) i g f Hgt Hg Hi).
    destruct (Z.leb_spec (frag_start g) pc); [|lia].
    destruct (Z.ltb_spec pc (frag_end g)); [lia|]. apply IH; lia.
Qed.

Lemma search_loop_none pc :
  (forall f, f ∈ take n array -> ~ (frag_start f <= pc < frag_end f)) ->
  forall fuel first last, 0 <= first -> last < Z.of_nat n -> first <= last + 1 ->
    (Z.to_nat (last - first + 1) < fuel)%nat ->
    search_loop fuel array pc first last (Z.quot (first + last) 2) = Ret None.
Proof.
  intros Hno. induction fuel as [|fuel IH]; intros first last H0 Hl Hfl Hfuel; [lia|].
  cbn [search_loop]. destruct (Z.leb_spec first last) as [Hle|Hgt].
  - pose proof (search_step_middle first last H0 ltac:(lia)) as Hm.
    set (m := Z.quot (first + last) 2) in *.
    destruct (Z.leb_spec first m); [|lia]. destruct (Z.leb_spec m last); [|lia]. cbn [andb].
    destruct (search_lookup m ltac:(lia)) as (g & -> & Hg & Hgw).
    destruct (frag_wf_pcs g Hgw) as (? & ? & ? & Es & Ee). cbn [mbind outcome_bind].
    rewrite Es. cbn [mbind outcome_bind]. rewrite Ee. cbn [mbind outcome_bind].
    specialize (Hno g ltac:(by eapply list_elem_of_lookup_2)).
    destruct (Z.leb_spec (frag_start g) pc).
    + destruct (Z.ltb_spec pc (frag_end g)); [lia|]. apply IH; lia.
    + apply IH; lia.
  - destruct (Z.leb_spec first (Z.quot (first + last) 2)); [|done].
    destruct (Z.leb_spec (Z.quot (first + last) 2) last); [lia|done].
Qed.

Lemma search_spec fuel pc : (n < fuel)%nat ->
  (forall f, f ∈ take n array -> frag_start f <= pc < frag_end f ->
     search_basic_block_info fuel array (Z.of_nat n) pc = (b ← get_block f pc; Ret (Some b))) /\
  ((forall f, f ∈ take n array -> ~ (frag_start f <= pc < frag_end f)) ->
     search_basic_block_info fuel array (Z.of_nat n) pc = Ret None).
Proof.
  intros Hf. unfold search_basic_block_info. split.
  - intros f (i & Hi)%list_elem_of_lookup Hpc. pose proof (lookup_lt_Some _ _ _ Hi) as Hlt.
    rewrite length_take in Hlt. destruct (Z.eqb_spec (Z.of_nat n) 0); [lia|].
    apply (search_loop_found f i); [done|done|lia..].
  - intros Hno. destruct (Z.eqb_spec (Z.of_nat n) 0); [done|].
    apply search_loop_none; [done|lia..].
Qed.
End Search.

(** ** The invariant of the slab table *)
Section Invariant.
Context (ex : Exec.exec_state).

Definition slab_of (pc : Z) : Z := (pc - Exec.GRANARY_EXEC_START ex) / Exec.FRAGMENT_SLAB_SIZE.

(** Addresses whose slab has a slot. *)
Definition in_slabs (pc : Z) : Prop :=
  0 <= Exec.GRANARY_EXEC_START ex <= pc /\ pc < 2 ^ 63 /\ slab_of pc < Exec.MAX_NUM_FRAGMENT_SLABS.

Record inv (st : locators) : Prop := {
  inv_slots : forall i k, slabs st !! i = Some k -> is_Some (store st !! k);
  inv_fresh : forall k, is_Some (store st !! k) -> k < fresh st;
  inv_array : forall k loc, store st !! k = Some loc ->
    length (fragments loc) = MAX_BBS_PER_SLAB /\ (next_index loc <= MAX_BBS_PER_SLAB)%nat /\
    ordered (used loc) /\ Forall frag_wf (used loc);
  inv_slabs : forall k loc f pc, store st !! k = Some loc -> f ∈ used loc ->
    frag_start f <= pc < frag_end f -> in_slabs pc /\ slabs st !! slab_of pc = Some k
}.

(** Block [b] is recorded in [st]. *)
Definition stored (st : locators) (b : basic_block_info) : Prop :=
  exists k loc f, store st !! k = Some loc /\ f ∈ used loc /\ b ∈ frag_blocks f.

Lemma find_slab_ret pc : in_slabs pc -> Exec.granary_find_fragment_slab ex pc = Ret (slab_of pc).
Proof.
  intros (? & ? & Hs). unfold Exec.granary_find_fragment_slab, slab_of in *.
  assert (0 <= (pc - Exec.GRANARY_EXEC_START ex) / Exec.FRAGMENT_SLAB_SIZE).
  { apply Z.div_pos; [lia|]. vm_compute. done. }
  assert (Exec.MAX_NUM_FRAGMENT_SLABS < 2 ^ 32) by (vm_compute; done).
  rewrite (wrap_small 64) by lia. rewrite wrap_small by lia.
  destruct (Z.ltb_spec ((pc - Exec.GRANARY_EXEC_START ex) / Exec.FRAGMENT_SLAB_SIZE)
    Exec.MAX_NUM_FRAGMENT_SLABS); [done|lia].
Qed.

Lemma slab_of_mono a b : a <= b -> slab_of a <= slab_of b.
Proof. intros. apply Z.div_le_mono; [vm_compute; done|lia]. Qed.

Lemma inv_initial : inv initial_locators.
Proof.
  split; cbn; intros *; by rewrite ?lookup_empty.
Qed.

Lemma locator_at_ret st i k loc :
  slabs st !! i = Some k -> store st !! k = Some loc -> locator_at st i = Ret (k, loc).
Proof. intros E1 E2. unfold locator_at. by rewrite E1, E2. Qed.

(** A recorded block is found from each of its addresses. *)
Lemma find_stored st b pc fuel :
  inv st -> stored st b -> in_block b pc -> (MAX_BBS_PER_SLAB < fuel)%nat ->
  find_basic_block_info ex fuel pc st = Ret b.
Proof.
  intros Hinv (k & loc & f & Ek & Hf & Hb) Hpc Hfuel.
  destruct (inv_array st Hinv k loc Ek) as (Hlen & Hni & Hord & Hwf).
  assert (Hfw : frag_wf f) by (rewrite Forall_forall in Hwf; by apply Hwf).
  pose proof (frag_block_inside f b Hfw Hb) as (? & ? & ?).
  pose proof (frag_wf_pcs f Hfw) as (? & ? & ? & _).
  assert (Hpc' : frag_start f <= pc < frag_end f) by (unfold in_block in Hpc; lia).
  destruct (inv_slabs st Hinv k loc f pc Ek Hf Hpc') as [Hin Hslot].
  unfold find_basic_block_info. rewrite (find_slab_ret pc Hin). cbn [mbind outcome_bind].
  rewrite (locator_at_ret st _ k loc Hslot Ek). cbn [mbind outcome_bind fst snd].
  rewrite (proj1 (search_spec (fragments loc) (next_index loc) ltac:(lia) Hord Hwf fuel pc ltac:(lia)) f Hf Hpc').
  rewrite (get_block_spec f b pc Hfw Hb Hpc). cbn [mbind outcome_bind].
  unfold in_block in Hpc. rewrite wrap_small by lia.
  destruct (Z.leb_spec (bb_start_pc b) pc); [|lia].
  destruct (Z.ltb_spec pc (bb_start_pc b + bb_num_bytes b)); [done|lia].
Qed.

(** ** Storing a trace *)

(** What the fragment allocator guarantees when it places a trace: the trace
    is inside the code cache; it lies after everything recorded in the
    locator of its first slab, which has room; and the slabs it continues
    into are unused. *)
Record placeable (st : locators) (t : trace_info) : Prop := {
  pl_wf : trace_wf t;
  pl_start : in_slabs (tr_start_pc t);
  pl_end : in_slabs (tr_start_pc t + tr_num_bytes t - 1);
  pl_after : forall k loc, slabs st !! slab_of (tr_start_pc t) = Some k -> store st !! k = Some loc ->
    (next_index loc < MAX_BBS_PER_SLAB)%nat /\ forall f, f ∈ used loc -> frag_end f <= tr_start_pc t;
  pl_clear : forall i, slab_of (tr_start_pc t) < i <= slab_of (tr_start_pc t + tr_num_bytes t - 1) ->
    slabs st !! i = None
}.

Lemma ensure_locator_inv st i :
  inv st -> inv (ensure_locator i st) /\ (forall b, stored (ensure_locator i st) b <-> stored st b) /\
  (exists k loc, slabs (ensure_locator i st) !! i = Some k /\ store (ensure_locator i st) !! k = Some loc) /\
  (forall j, j <> i -> slabs (ensure_locator i st) !! j = slabs st !! j) /\
  (forall k, slabs st !! i = Some k -> ensure_locator i st = st) /\
  (slabs st !! i = None -> store (ensure_locator i st) !! fresh st = Some empty_locator /\
     slabs (ensure_locator i st) !! i = Some (fresh st)).
Proof.
  intros Hinv. unfold ensure_locator. destruct (slabs st !! i) as [k|] eqn:Ei.
  { destruct (inv_slots st Hinv i k Ei) as [loc El]. do 2 (split; [done|]). split; [by exists k, loc|].
    done. }
  assert (Hnew : store st !! fresh st = None).
  { apply eq_None_not_Some. intros H. pose proof (inv_fresh st Hinv _ H). lia. }
  assert (Hget : forall k loc, <[fresh st := empty_locator]> (store st) !! k = Some loc ->
            (k = fresh st /\ loc = empty_locator) \/ store st !! k = Some loc).
  { intros k loc H. apply lookup_insert_Some in H as [[<- <-]|[_ H]]; auto. }
  split; [split; cbn|split; [|split; [|split; [|split]]]].
  - intros j k H. apply lookup_insert_is_Some. apply lookup_insert_Some in H as [[<- <-]|[? H]]; [by left|].
    destruct (decide (fresh st = k)); [by left|right]. split; [done|]. by eapply inv_slots.
  - intros k [loc [[-> _]|H]%Hget]; [lia|]. pose proof (inv_fresh st Hinv k ltac:(eauto)). lia.
  - intros k loc [[-> ->]|H]%Hget; [|by eapply inv_array].
    split; [done|]. split; [cbn; lia|]. split; [by intros ? ? ? ?|constructor].
  - intros k loc f pc [[-> ->]|H]%Hget Hf Hpc; [by apply elem_of_nil in Hf|].
    destruct (inv_slabs st Hinv k loc f pc H Hf Hpc) as [? Hs]. split; [done|].
    rewrite lookup_insert_ne; [done|]. intros ->. congruence.
  - intros b. split; intros (k & loc & f & E & Hf & Hb); cbn in *.
    + apply Hget in E as [[-> ->]|E]; [by apply elem_of_nil in Hf|]. by exists k, loc, f.
    + exists k, loc, f. split; [|done]. cbn. rewrite lookup_insert_ne; [done|]. intros <-. congruence.
  - exists (fresh st), empty_locator. cbn. by rewrite !lookup_insert_eq.
  - intros j Hj. cbn. by rewrite lookup_insert_ne.
  - done.
  - intros _. cbn. by rewrite !lookup_insert_eq.
Qed.

Lemma share_slabs_ret n : forall i k st,
  (forall j, i <= j < i + Z.of_nat n -> slabs st !! j = None) ->
  exists st', share_slabs n i k st = Ret st' /\ store st' = store st /\ fresh st' = fresh st /\
    (forall j, i <= j < i + Z.of_nat n -> slabs st' !! j = Some k) /\
    (forall j, ~ (i <= j < i + Z.of_nat n) -> slabs st' !! j = slabs st !! j).
Proof.
  induction n as [|n IH]; intros i k st Hc; cbn [share_slabs].
  { exists st. split; [done|]. split; [done|]. split; [done|]. split; [lia|done]. }
  rewrite (Hc i) by lia.
  destruct (IH (i + 1) k {| slabs := <[i := k]> (slabs st); store := store st; fresh := fresh st |})
    as (st' & E & Hs & Hf & Hin & Hout); cbn [slabs].
  { intros j Hj. rewrite lookup_insert_ne by lia. apply Hc. lia. }
  exists st'. split; [done|]. split; [done|]. split; [done|]. split; intros j Hj.
  - destruct (Z.eq_dec j i) as [->|]; [|apply Hin; lia].
    rewrite Hout by lia. cbn. apply lookup_insert_eq.
  - rewrite Hout by lia. cbn. by rewrite lookup_insert_ne by lia.
Qed.

(** Sharing unused slots keeps the invariant and the recorded blocks. *)
Lemma share_slabs_inv n i k st st' :
  inv st -> is_Some (store st !! k) ->
  (forall j, i <= j < i + Z.of_nat n -> slabs st !! j = None) ->
  share_slabs n i k st = Ret st' -> inv st' /\ (forall b, stored st' b <-> stored st b).
Proof.
  intros Hinv Hk Hc E. destruct (share_slabs_ret n i k st Hc) as (st1 & E1 & Hs & Hf & Hin & Hout).
  rewrite E in E1. injection E1 as <-. split; [split|].
  - intros j l Hj. rewrite Hs. destruct (decide (i <= j < i + Z.of_nat n)) as [Hj'|Hj'].
    + rewrite Hin in Hj by done. by injection Hj as <-.
    + rewrite Hout in Hj by done. by eapply inv_slots.
  - intros l. rewrite Hs, Hf. by apply inv_fresh.
  - intros l loc. rewrite Hs. by apply inv_array.
  - intros l loc f pc. rewrite Hs. intros El Hfl Hpc.
    destruct (inv_slabs st Hinv l loc f pc El Hfl Hpc) as [? Hslot]. split; [done|].
    rewrite Hout; [done|]. intros Hj. rewrite Hc in Hslot by done. done.
  - intros b. unfold stored. by rewrite Hs.
Qed.

Lemma ordered_app fs f :
  ordered fs -> (forall g, g ∈ fs -> frag_end g <= frag_start f) -> ordered (fs ++ [f]).
Proof.
  intros Ho Hf i j g h Hij Hi Hj. pose proof (lookup_lt_Some _ _ _ Hj) as Hlt.
  rewrite length_app in Hlt. cbn in Hlt. rewrite lookup_app_l in Hi by lia.
  destruct (decide (j < length fs)%nat).
  - rewrite lookup_app_l in Hj by done. by apply (Ho i j).
  - rewrite lookup_app_r in Hj by lia. replace (j - length fs)%nat with 0%nat in Hj by lia.
    injection Hj as <-. apply Hf. by eapply list_elem_of_lookup_2.
Qed.

Lemma used_append loc f :
  length (fragments loc) = MAX_BBS_PER_SLAB -> (next_index loc < MAX_BBS_PER_SLAB)%nat ->
  used {| next_index := S (next_index loc); fragments := <[next_index loc := f]> (fragments loc) |}
  = used loc ++ [f].
Proof.
  intros Hl Hn. unfold used. cbn.
  rewrite (take_S_r _ (next_index loc) f) by (apply list_lookup_insert_eq; lia).
  by rewrite take_insert_ge by lia.
Qed.

(** Appending a fragment to locator [k]. *)
Definition append_frag (k : Z) (loc : fragment_locator) (f : generic_info_ptr) (st : locators) : locators :=
  set_locator k {| next_index := S (next_index loc);
                   fragments := <[next_index loc := f]> (fragments loc) |} st.

Lemma append_inv st k loc f :
  inv st -> store st !! k = Some loc -> (next_index loc < MAX_BBS_PER_SLAB)%nat -> frag_wf f ->
  (forall g, g ∈ used loc -> frag_end g <= frag_start f) ->
  (forall pc, frag_start f <= pc < frag_end f -> in_slabs pc /\ slabs st !! slab_of pc = Some k) ->
  let st' := append_frag k loc f st in
  inv st' /\ forall b, stored st' b <-> stored st b \/ b ∈ frag_blocks f.
Proof.
  intros Hinv Ek Hn Hfw Hafter Hslabs st'.
  destruct (inv_array st Hinv k loc Ek) as (Hlen & Hni & Hord & Hwf).
  pose proof (used_append loc f Hlen Hn) as Hused.
  set (loc' := {| next_index := S (next_index loc);
                  fragments := <[next_index loc := f]> (fragments loc) |}) in *.
  assert (Hst : store st' = <[k := loc']> (store st)) by done.
  assert (Hget : forall l m, store st' !! l = Some m ->
            (l = k /\ m = loc') \/ (l <> k /\ store st !! l = Some m)).
  { intros l m H. rewrite Hst in H. apply lookup_insert_Some in H as [[-> <-]|[? H]]; auto. }
  split; [split|].
  - intros i l Hi. rewrite Hst. apply lookup_insert_is_Some'. right. by eapply inv_slots.
  - intros l [m [[-> _]|[_ H]]%Hget]; apply (inv_fresh st Hinv); eauto.
  - intros l m [[-> ->]|[_ H]]%Hget; [|by eapply inv_array].
    split; [cbn; by rewrite length_insert|]. split; [cbn; lia|]. rewrite Hused.
    split; [by apply ordered_app|]. apply Forall_app. split; [done|by constructor].
  - intros l m g pc [[-> ->]|[_ H]]%Hget Hg Hpc; [|exact (inv_slabs st Hinv l m g pc H Hg Hpc)].
    rewrite Hused in Hg. apply elem_of_app in Hg as [Hg|Hg]; [exact (inv_slabs st Hinv k loc g pc Ek Hg Hpc)|].
    apply list_elem_of_singleton in Hg as ->. by apply Hslabs.
  - intros b. split.
    + intros (l & m & g & [[-> ->]|[_ H]]%Hget & Hg & Hb); [|left; by exists l, m, g].
      rewrite Hused in Hg. apply elem_of_app in Hg as [Hg|Hg]; [left; by exists k, loc, g|].
      apply list_elem_of_singleton in Hg as ->. by right.
    + intros [(l & m & g & H & Hg & Hb)|Hb].
      * destruct (Z.eq_dec l k) as [->|Hne].
        -- rewrite Ek in H. injection H as <-. exists k, loc', g. split; [rewrite Hst; apply lookup_insert_eq|].
           rewrite Hused. split; [|done]. apply elem_of_app. by left.
        -- exists l, m, g. split; [|done]. rewrite Hst. by rewrite lookup_insert_ne.
      * exists k, loc', f. split; [rewrite Hst; apply lookup_insert_eq|]. rewrite Hused. split; [|done].
        apply elem_of_app. right. by left.
Qed.

(** A trace at a placeable address is stored. *)
Lemma store_trace st t :
  inv st -> placeable st t ->
  exists st0 k loc, inv st0 /\ (forall b, stored st0 b <-> stored st b) /\
    slabs st0 !! slab_of (tr_start_pc t) = Some k /\ store st0 !! k = Some loc /\
    (forall j, slab_of (tr_start_pc t) < j <= slab_of (tr_start_pc t + tr_num_bytes t - 1) ->
       slabs st0 !! j = Some k) /\
    (next_index loc < MAX_BBS_PER_SLAB)%nat /\
    store_trace_meta_info ex t st = Ret (append_frag k loc (frag_of t) st0) /\
    inv (append_frag k loc (frag_of t) st0) /\
    forall b, stored (append_frag k loc (frag_of t) st0) b <-> stored st b \/ b ∈ tr_info t.
Proof.
  intros Hinv [Hw Hs He Hafter Hclear]. unfold store_trace_meta_info.
  rewrite (find_slab_ret _ Hs). cbn [mbind outcome_bind].
  pose proof (tw_range t Hw) as [Hr0 Hr1]. pose proof (frag_of_range t Hw) as (Hf1 & Hf2 & Hf3).
  set (i := slab_of (tr_start_pc t)) in *. set (e := slab_of (tr_start_pc t + tr_num_bytes t - 1)) in *.
  assert (Hie : i <= e) by (apply slab_of_mono; lia).
  destruct (ensure_locator_inv st i Hinv) as (Hinv1 & Hst1 & (k & loc & Ei & Ek) & Hoth & Hold & Hnew).
  set (st1 := ensure_locator i st) in *.
  assert (Hloc : (next_index loc < MAX_BBS_PER_SLAB)%nat /\ forall f, f ∈ used loc -> frag_end f <= tr_start_pc t).
  { destruct (slabs st !! i) as [k0|] eqn:E0.
    - pose proof (Hold k0 eq_refl) as Est. rewrite Est in Ei, Ek. by apply (Hafter k loc); [congruence|].
    - destruct (Hnew eq_refl) as [Hn1 Hn2]. rewrite Ei in Hn2. injection Hn2 as ->.
      rewrite Ek in Hn1. injection Hn1 as ->. split; [vm_compute; lia|]. by intros f ?%elem_of_nil. }
  destruct Hloc as [Hroom Hlast].
  rewrite (locator_at_ret st1 i k loc Ei Ek). cbn [mbind outcome_bind fst snd].
  rewrite (wrap_small 64) by lia. rewrite (find_slab_ret _ He). cbn [mbind outcome_bind]. fold e.
  assert (Hc : forall j, i + 1 <= j < i + 1 + Z.of_nat (Z.to_nat (e - i)) -> slabs st1 !! j = None).
  { intros j Hj. rewrite Hoth by lia. apply Hclear. lia. }
  destruct (share_slabs_ret _ _ k st1 Hc) as (st2 & E2 & Hs2 & _ & Hin & Hout). rewrite E2.
  destruct (share_slabs_inv _ _ k st1 st2 Hinv1 ltac:(eauto) Hc E2) as [Hinv2 Hst2].
  cbn [mbind outcome_bind].
  rewrite (locator_at_ret st2 i k loc); [|rewrite Hout by lia; done|by rewrite Hs2].
  cbn [mbind outcome_bind fst snd]. rewrite (tw_count t Hw).
  destruct (trace_first t Hw) as (b & bs & Eb).
  destruct (Z.ltb_spec 0 (Z.of_nat (length (tr_info t)))); [|rewrite Eb in *; cbn in *; lia].
  rewrite bool_decide_eq_true_2 by done. cbn [ASSERT mbind outcome_bind].
  assert (Ep : (if Z.of_nat (length (tr_info t)) =? 1 then b ← idx (tr_info t) 0; Ret (BlockPtr b)
                else Ret (TracePtr t)) = Ret (frag_of t)).
  { unfold frag_of. rewrite Eb. destruct bs as [|c bs]; [done|].
    destruct (Z.eqb_spec (Z.of_nat (length (b :: c :: bs))) 1) as [E|]; [cbn in E; lia|done]. }
  rewrite Ep. cbn [mbind outcome_bind].
  destruct (inv_array st1 Hinv1 k loc Ek) as (Hlen & _).
  unfold set_idx. rewrite bool_decide_eq_true_2 by lia. cbn [mbind outcome_bind].
  destruct (append_inv st2 k loc (frag_of t) Hinv2 ltac:(by rewrite Hs2) Hroom ltac:(by exists t))
    as [Hinv3 Hst3].
  - intros g Hg. specialize (Hlast g Hg). lia.
  - intros pc Hpc. assert (i <= slab_of pc) by (apply slab_of_mono; lia).
    assert (slab_of pc <= e) by (apply slab_of_mono; lia). destruct Hs as (? & ? & ?), He as (? & ? & ?).
    split; [repeat split; lia|].
    destruct (Z.eq_dec (slab_of pc) i) as [->|]; [rewrite Hout by lia; done|apply Hin; lia].
  - exists st2, k, loc. split; [done|]. split; [intros c; by rewrite Hst2, Hst1|].
    split; [rewrite Hout by lia; done|]. split; [by rewrite Hs2|].
    split; [intros j Hj; apply Hin; lia|]. split; [done|]. split; [done|]. split; [done|].
    intros c. unfold append_frag. rewrite Hst3, Hst2, Hst1. by rewrite frag_of_blocks.
Qed.

(** Removing the block that was appended last. *)
Lemma remove_last st k loc b pc :
  inv st -> inv (append_frag k loc (BlockPtr b) st) -> store st !! k = Some loc ->
  (next_index loc < MAX_BBS_PER_SLAB)%nat -> frag_wf (BlockPtr b) -> in_block b pc ->
  exists st', remove_basic_block_info ex pc (append_frag k loc (BlockPtr b) st) = Ret st' /\
    slabs st' = slabs st /\ inv st' /\ forall c, stored st' c <-> stored st c.
Proof.
  intros Hinv Hinv1 Ek Hn Hfw Hpc.
  destruct (inv_array st Hinv k loc Ek) as (Hlen & Hni & Hord & Hwf).
  pose proof (used_append loc (BlockPtr b) Hlen Hn) as Hused.
  set (loc1 := {| next_index := S (next_index loc);
                  fragments := <[next_index loc := BlockPtr b]> (fragments loc) |}) in *.
  assert (E1 : store (append_frag k loc (BlockPtr b) st) !! k = Some loc1) by apply lookup_insert_eq.
  assert (Hb1 : BlockPtr b ∈ used loc1) by (rewrite Hused; apply elem_of_app; right; by left).
  destruct (inv_slabs _ Hinv1 k loc1 (BlockPtr b) pc E1 Hb1 Hpc) as [Hin Hslot].
  unfold remove_basic_block_info. rewrite (find_slab_ret pc Hin). cbn [mbind outcome_bind].
  rewrite (locator_at_ret _ _ k loc1 Hslot E1). cbn [mbind outcome_bind fst snd].
  cbn [loc1 next_index fragments pred]. rewrite bool_decide_eq_true_2 by done.
  cbn [ASSERT mbind outcome_bind]. unfold idx. rewrite list_lookup_insert_eq by lia.
  cbn [mbind outcome_bind]. unfold in_block in Hpc.
  destruct (Z.leb_spec (bb_start_pc b) pc); [|lia]. cbn [ASSERT mbind outcome_bind].
  unfold set_idx. rewrite length_insert, bool_decide_eq_true_2 by lia. cbn [mbind outcome_bind].
  rewrite list_insert_insert_eq.
  set (loc2 := {| next_index := next_index loc;
                  fragments := <[next_index loc := NullPtr]> (fragments loc) |}).
  set (st2 := set_locator k loc2 (append_frag k loc (BlockPtr b) st)).
  assert (Hst : store st2 = <[k := loc2]> (store st)) by (cbn; apply insert_insert_eq).
  assert (Hused2 : used loc2 = used loc) by (unfold used; cbn; by rewrite take_insert_ge by lia).
  assert (Hget : forall l m, store st2 !! l = Some m ->
            (l = k /\ m = loc2) \/ (l <> k /\ store st !! l = Some m)).
  { intros l m H0. rewrite Hst in H0. apply lookup_insert_Some in H0 as [[-> <-]|[? ?]]; auto. }
  exists st2. split; [done|]. split; [done|]. split; [split|].
  - intros i l Hi. rewrite Hst. apply lookup_insert_is_Some'. right. by apply (inv_slots st Hinv i).
  - intros l [m [[-> _]|[_ H0]]%Hget]; apply (inv_fresh st Hinv); eauto.
  - intros l m [[-> ->]|[_ H0]]%Hget; [|by eapply (inv_array st Hinv)].
    rewrite Hused2. split; [cbn; by rewrite length_insert|]. split; [cbn; lia|]. done.
  - intros l m g q [[-> ->]|[_ H0]]%Hget Hg Hq; [|exact (inv_slabs st Hinv l m g q H0 Hg Hq)].
    rewrite Hused2 in Hg. exact (inv_slabs st Hinv k loc g q Ek Hg Hq).
  - intros c. split; intros (l & m & g & H0 & Hg & Hc).
    + apply Hget in H0 as [[-> ->]|[_ H0]]; [rewrite Hused2 in Hg; by exists k, loc, g|by exists l, m, g].
    + destruct (Z.eq_dec l k) as [->|Hne].
      * rewrite Ek in H0. injection H0 as <-. exists k, loc2, g.
        rewrite Hst, Hused2, lookup_insert_eq. done.
      * exists l, m, g. rewrite Hst, lookup_insert_ne by done. done.
Qed.

(** A trace of one block is stored as that block. *)
Lemma single_frag t b : trace_wf t -> tr_info t = [b] ->
  frag_of t = BlockPtr b /\ frag_wf (BlockPtr b) /\ in_block b (bb_start_pc b).
Proof.
  intros Hw Eb. assert (E : frag_of t = BlockPtr b) by (unfold frag_of; by rewrite Eb).
  split; [done|]. split; [by exists t|].
  pose proof (trace_blocks t b Hw ltac:(rewrite Eb; left)). unfold in_block. lia.
Qed.

End Invariant.

(** ** Theorems *)

(** The binary search.  In an array whose first [n] entries are
    well-formed fragments in address order, the search returns after at most
    [n + 1] tests of the loop condition: with the block of the fragment that
    contains the address when there is one, with null otherwise. *)
Theorem search_basic_block_info_correct array n pc :
  (n <= length array)%nat -> ordered (take n array) -> Forall frag_wf (take n array) ->
  (forall f b, f ∈ take n array -> b ∈ frag_blocks f -> in_block b pc ->
     search_basic_block_info (S n) array (Z.of_nat n) pc = Ret (Some b)) /\
  ((forall f, f ∈ take n array -> ~ (frag_start f <= pc < frag_end f)) ->
     search_basic_block_info (S n) array (Z.of_nat n) pc = Ret None).
Proof.
  intros Hn Ho Hw. destruct (search_spec array n Hn Ho Hw (S n) pc ltac:(lia)) as [H1 H2].
  split; [|done]. intros f b Hf Hb Hpc.
  assert (Hfw : frag_wf f) by (rewrite Forall_forall in Hw; by apply Hw).
  pose proof (frag_block_inside f b Hfw Hb). unfold in_block in Hpc.
  rewrite (H1 f Hf) by lia. by rewrite (get_block_spec f b pc Hfw Hb).
Qed.

(** C20 Storing a trace.  Where the fragment allocator may place a trace, the
    store succeeds and keeps the invariant; afterwards every address of every
    block of the trace finds that block, and every block recorded before is
    still found; no other block is recorded. *)
Theorem store_trace_find ex st t :
  inv ex st -> placeable ex st t ->
  exists st', store_trace_meta_info ex t st = Ret st' /\ inv ex st' /\
    (forall b, stored st' b <-> stored st b \/ b ∈ tr_info t) /\
    forall b pc, stored st b \/ b ∈ tr_info t -> in_block b pc ->
      find_basic_block_info ex (S MAX_BBS_PER_SLAB) pc st' = Ret b.
Proof.
  intros Hinv Hp. destruct (store_trace ex st t Hinv Hp)
    as (st0 & k & loc & _ & _ & _ & _ & _ & _ & E & Hinv' & Hst).
  eexists. split; [exact E|]. split; [done|]. split; [done|].
  intros b pc Hb Hpc. apply find_stored; [done|by apply Hst|done|lia].
Qed.

(** Discarding a block.  Removing a block right after it was stored
    succeeds, keeps the invariant and leaves exactly the blocks recorded
    before the store. *)
Theorem remove_undoes_store ex st t b :
  inv ex st -> placeable ex st t -> tr_info t = [b] ->
  exists st1 st2, store_trace_meta_info ex t st = Ret st1 /\
    remove_basic_block_info ex (bb_start_pc b) st1 = Ret st2 /\ inv ex st2 /\
    forall c, stored st2 c <-> stored st c.
Proof.
  intros Hinv Hp Eb. destruct (single_frag t b (pl_wf _ _ _ Hp) Eb) as (Ef & Hfw & Hpc).
  destruct (store_trace ex st t Hinv Hp)
    as (st0 & k & loc & Hinv0 & Hst0 & _ & Ek & _ & Hn & E & Hinv' & _). rewrite Ef in *.
  destruct (remove_last ex st0 k loc b _ Hinv0 Hinv' Ek Hn Hfw Hpc) as (st2 & E2 & _ & Hinv2 & Hst2).
  exists (append_frag k loc (BlockPtr b) st0), st2. split; [done|]. split; [done|]. split; [done|].
  intros c. by rewrite Hst2, Hst0.
Qed.

(** Discarding a block that crosses slabs is not undone completely: the
    slots of the further slabs keep pointing to the shared locator, so
    storing a trace that crosses into them from the freed space again, for
    instance the same one, fails the assertion that they are null. *)
Theorem restore_spanning_block_faults ex st t b :
  inv ex st -> placeable ex st t -> tr_info t = [b] ->
  slab_of ex (tr_start_pc t) < slab_of ex (tr_start_pc t + tr_num_bytes t - 1) ->
  exists st1 st2, store_trace_meta_info ex t st = Ret st1 /\
    remove_basic_block_info ex (bb_start_pc b) st1 = Ret st2 /\
    store_trace_meta_info ex t st2 = Fault.
Proof.
  intros Hinv Hp Eb Hspan. destruct (single_frag t b (pl_wf _ _ _ Hp) Eb) as (Ef & Hfw & Hpc).
  destruct (store_trace ex st t Hinv Hp)
    as (st0 & k & loc & Hinv0 & _ & Ei & Ek & Hsh & Hn & E & Hinv' & _). rewrite Ef in *.
  destruct (remove_last ex st0 k loc b _ Hinv0 Hinv' Ek Hn Hfw Hpc) as (st2 & E2 & Hsl & Hinv2 & _).
  exists (append_frag k loc (BlockPtr b) st0), st2. split; [done|]. split; [done|].
  unfold store_trace_meta_info. rewrite (find_slab_ret ex _ (pl_start _ _ _ Hp)). cbn [mbind outcome_bind].
  assert (Ei2 : slabs st2 !! slab_of ex (tr_start_pc t) = Some k) by (by rewrite Hsl).
  unfold ensure_locator. rewrite Ei2. destruct (inv_slots ex st2 Hinv2 _ k Ei2) as [loc2 Ek2].
  rewrite (locator_at_ret st2 _ k loc2 Ei2 Ek2). cbn [mbind outcome_bind fst snd].
  pose proof (tw_range t (pl_wf _ _ _ Hp)). pose proof (frag_of_range t (pl_wf _ _ _ Hp)).
  rewrite wrap_small by lia. rewrite (find_slab_ret ex _ (pl_end _ _ _ Hp)). cbn [mbind outcome_bind].
  destruct (Z.to_nat (slab_of ex (tr_start_pc t + tr_num_bytes t - 1) - slab_of ex (tr_start_pc t)))
    as [|m] eqn:Em; [lia|]. cbn [share_slabs]. rewrite Hsl, Hsh by lia. done.
Qed.

(** ** Witnesses *)
Definition ex_example : Exec.exec_state := Exec.init_code_cache 65536.
(** One block of 200 bytes that crosses from the first slab into the second. *)
Definition bb_example : basic_block_info :=
  {| bb_start_pc := 69440; bb_num_bytes := 200; generating_pc := 1 |}.
Definition trace_example : trace_info :=
  {| tr_start_pc := 69440; num_blocks := 1; tr_num_bytes := 200; tr_info := [bb_example] |}.

Lemma trace_wf_example : trace_wf trace_example.
Proof.
  split; cbn; [done|done|lia| |].
  - constructor; [cbn; lia|constructor].
  - apply all_disjoint_cons. split; constructor.
Defined.

Lemma placeable_example : placeable ex_example initial_locators trace_example.
Proof.
  split.
  - exact trace_wf_example.
  - repeat split; vm_compute; congruence.
  - repeat split; vm_compute; congruence.
  - intros k loc H. vm_compute in H. discriminate H.
  - intros i _. apply lookup_empty.
Defined.

Lemma search_basic_block_info_correct_witness :
  search_basic_block_info 2 [BlockPtr bb_example] 1 69500 = Ret (Some bb_example).
Proof.
  apply (proj1 (search_basic_block_info_correct [BlockPtr bb_example] 1 69500 ltac:(cbn; lia)
    ltac:(intros i j f g Hij Hi Hj; destruct j as [|[|j]]; [lia|discriminate Hj|discriminate Hj])
    ltac:(constructor; [exists trace_example; split; [exact trace_wf_example|reflexivity]|constructor])))
    with (f := BlockPtr bb_example); [left|left|vm_compute; split; congruence].
Defined.

Lemma store_trace_find_witness :
  exists st', store_trace_meta_info ex_example trace_example initial_locators = Ret st' /\
    find_basic_block_info ex_example (S MAX_BBS_PER_SLAB) 69639 st' = Ret bb_example.
Proof.
  destruct (store_trace_find ex_example initial_locators trace_example (inv_initial _) placeable_example)
    as (st' & E & _ & _ & H).
  exists st'. split; [exact E|]. apply H; [right; left|split; vm_compute; congruence].
Defined.

Lemma remove_undoes_store_witness :
  exists st1 st2, store_trace_meta_info ex_example trace_example initial_locators = Ret st1 /\
    remove_basic_block_info ex_example 69440 st1 = Ret st2.
Proof.
  destruct (remove_undoes_store ex_example initial_locators trace_example bb_example
    (inv_initial _) placeable_example eq_refl) as (st1 & st2 & E1 & E2 & _).
  exists st1, st2. split; [exact E1|exact E2].
Defined.

Lemma restore_spanning_block_faults_witness :
  exists st1 st2, store_trace_meta_info ex_example trace_example initial_locators = Ret st1 /\
    remove_basic_block_info ex_example 69440 st1 = Ret st2 /\
    store_trace_meta_info ex_example trace_example st2 = Fault.
Proof.
  apply (restore_spanning_block_faults ex_example initial_locators trace_example bb_example
    (inv_initial _) placeable_example eq_refl). vm_compute. reflexivity.
Defined.
