(* ===== verification/DelayStates.v ===== *)
(** * Interrupt delay states: [granary/basic_block.cc], [basic_block.h]

    A client can mark a range of instructions of a block as a delay region:
    an interrupt that arrives inside it is postponed until its end.  Every
    byte of the emitted block has one of four states, two bits each, packed
    four to a byte in an array that the blocks of a trace share.

    The theorems: the packed array is a faithful array of states; for a block
    made of plain instructions and of regions whose first and last
    instruction occupy bytes, [initialise_state_bytes] writes the states the
    regions call for, and [get_interrupt_delay_range] answers exactly when
    the interrupted address lies inside a region, with the bounds of that
    region, for every block of a trace.  Two error theorems state where the
    array is overrun and where a region is lost. *)

From Stdlib Require Import ZArith Lia.
From stdpp Require Import base numbers list option.
From S2P Require Import Prelude.

(** ** Data *)
Definition BB_BYTE_NATIVE : Z := 1. (* 1 << 0 *)
Definition BB_BYTE_DELAY_BEGIN : Z := 2. (* 1 << 1 *)
Definition BB_BYTE_DELAY_CONT : Z := 4. (* 1 << 2 *)
Definition BB_BYTE_DELAY_END : Z := 8. (* 1 << 3 *)

Definition BB_BYTE_STATES_PER_BYTE : Z := 4.
Definition BITS_PER_BYTE : Z := 8.
Definition BITS_PER_STATE : Z := BITS_PER_BYTE / BB_BYTE_STATES_PER_BYTE.
Definition BITS_PER_QWORD : Z := BITS_PER_BYTE * 8.

(** [instruction::DELAY_BEGIN] and [instruction::DELAY_END]. *)
Definition DELAY_BEGIN : Z := 2. (* 1 << 1 *)
Definition DELAY_END : Z := 4. (* 1 << 2 *)
Definition DELAY_INSTRUCTION : Z := Z.lor DELAY_BEGIN DELAY_END.

(** What the loops read of an instruction of the block: its flags and the
    size of its encoding. *)
Record delay_in := { granary_flags : Z; encoded_size : Z }.

(** ** Packed states

    [mem] is the array that holds the states of a trace; [states] is the
    offset in it to which a pointer [uint8_t *] points. *)
Definition get_state (mem : list Z) (states i : Z) : outcome Z :=
  let j := i / BB_BYTE_STATES_PER_BYTE in
  let k := 2 * (i mod BB_BYTE_STATES_PER_BYTE) in
  b ← idx mem (Z.to_nat (states + j));
  Ret (Z.shiftl 1 (Z.land (Z.shiftr b k) (BB_BYTE_STATES_PER_BYTE - 1))).

Definition state_to_mask : list Z := [0xFF; 0; 1; 0xFF; 2; 0xFF; 0xFF; 0xFF; 3].

Definition set_state (mem : list Z) (states i state : Z) : outcome (list Z) :=
  let j := i / BB_BYTE_STATES_PER_BYTE in
  let k := 2 * (i mod BB_BYTE_STATES_PER_BYTE) in
  let MASK := BB_BYTE_STATES_PER_BYTE - 1 in
  b ← idx mem (Z.to_nat (states + j));
  let b := u8 (Z.land b (Z.lnot (Z.shiftl MASK k))) in
  m ← idx state_to_mask (Z.to_nat state);
  set_idx mem (Z.to_nat (states + j)) (u8 (Z.lor b (Z.shiftl m k))).

(** The state of the bytes of an instruction, from its flags. *)
Definition get_instruction_state (flags prev_state : Z) : outcome Z :=
  if Z.land flags DELAY_INSTRUCTION =? DELAY_INSTRUCTION then Ret BB_BYTE_NATIVE
  else if negb (Z.land flags DELAY_BEGIN =? 0) then
    ASSERT (Z.land BB_BYTE_DELAY_CONT prev_state =? 0) ≫= fun _ =>
    ASSERT (Z.land BB_BYTE_DELAY_BEGIN prev_state =? 0) ≫= fun _ =>
    Ret BB_BYTE_DELAY_BEGIN
  else if negb (Z.land flags DELAY_END =? 0) then
    ASSERT (Z.land BB_BYTE_DELAY_END prev_state =? 0) ≫= fun _ =>
    ASSERT (Z.land BB_BYTE_NATIVE prev_state =? 0) ≫= fun _ =>
    Ret BB_BYTE_DELAY_END
  else if BB_BYTE_DELAY_BEGIN =? prev_state then Ret BB_BYTE_DELAY_CONT
  else if BB_BYTE_DELAY_CONT =? prev_state then Ret BB_BYTE_DELAY_CONT
  else Ret BB_BYTE_NATIVE.

(** Does any instruction before the end label take part in a delay? *)
Fixpoint requires_state_bytes (ins : list delay_in) : bool :=
  match ins with
  | [] => false
  | i :: ins =>
      if negb (Z.land DELAY_INSTRUCTION (granary_flags i) =? 0) then true
      else requires_state_bytes ins
  end.

(** ** Initialisation *)

(** [memset(&mem[p], 0, n)]: a write past the end of the array faults. *)
Fixpoint memset0 (mem : list Z) (p : nat) (n : nat) : outcome (list Z) :=
  match n with
  | O => Ret mem
  | S n => mem ← set_idx mem p 0; memset0 mem (S p) n
  end.

(** [for(j = a; j < a + n; ++j) set_state(bytes, j, state)]. *)
Fixpoint set_state_range (n : nat) (mem : list Z) (states j state : Z) : outcome (list Z) :=
  match n with
  | O => Ret mem
  | S n => mem ← set_state mem states j state; set_state_range n mem states (j + 1) state
  end.

(** The local variables of the loop of [initialise_state_bytes]. *)
Record init_state := {
  bytes : list Z;
  byte_offset : Z;
  prev_byte_offset : Z;
  prev_state : Z;
  num_delayed_instructions : Z;
  prev_num_delayed_instructions : Z
}.

(** One iteration. *)
Definition init_step (states : Z) (i : delay_in) (s : init_state) : outcome init_state :=
  state ← get_instruction_state (granary_flags i) (prev_state s);
  let in_num_bytes := encoded_size i in
  let native := BB_BYTE_NATIVE =? state in
  let stored_state := if native then state else BB_BYTE_DELAY_CONT in
  let num := if native then 0
             else if in_num_bytes =? 0 then num_delayed_instructions s
             else u32 (num_delayed_instructions s + 1) in
  let prev_num := if native then num_delayed_instructions s
                  else prev_num_delayed_instructions s in
  mem ← (if 1 =? prev_num
         then set_state_range (Z.to_nat (byte_offset s - prev_byte_offset s))
                (bytes s) states (prev_byte_offset s) BB_BYTE_NATIVE
         else Ret (bytes s));
  mem ← set_state_range (Z.to_nat (u32 (byte_offset s + in_num_bytes) - byte_offset s))
          mem states (byte_offset s) stored_state;
  mem ← (if BB_BYTE_DELAY_BEGIN =? state
         then set_state mem states (byte_offset s) BB_BYTE_DELAY_BEGIN
         else if BB_BYTE_DELAY_END =? state
         then set_state mem states (u32 (byte_offset s + in_num_bytes - 1)) BB_BYTE_DELAY_END
         else Ret mem);
  Ret {| bytes := mem;
         byte_offset := u32 (byte_offset s + in_num_bytes);
         prev_byte_offset := byte_offset s;
         prev_state := state;
         num_delayed_instructions := num;
         prev_num_delayed_instructions := prev_num |}.

Fixpoint init_loop (states : Z) (ins : list delay_in) (s : init_state) : outcome init_state :=
  match ins with
  | [] => Ret s
  | i :: ins => s ← init_step states i s; init_loop states ins s
  end.

(** The number of bytes that are cleared first. *)
Definition cleared_bytes (num_bytes : Z) : Z :=
  let num_instruction_bits := u32 (num_bytes * BITS_PER_STATE) in
  let num_instruction_bits :=
    u32 (num_instruction_bits + ALIGN_TO num_instruction_bits BITS_PER_QWORD) in
  num_instruction_bits / BITS_PER_BYTE.

Definition initialise_state_bytes (ins : list delay_in) (mem : list Z) (states num_bytes : Z)
    : outcome (Z * list Z) :=
  let num_state_bytes := cleared_bytes num_bytes in
  mem ← memset0 mem (Z.to_nat states) (Z.to_nat num_state_bytes);
  s ← init_loop states ins
    {| bytes := mem; byte_offset := 0; prev_byte_offset := 0; prev_state := BB_BYTE_NATIVE;
       num_delayed_instructions := 0; prev_num_delayed_instructions := 0 |};
  Ret (num_state_bytes, bytes s).

(** ** Delay ranges *)
Definition SAFE_INTERRUPT_STATE : Z := Z.lor BB_BYTE_NATIVE BB_BYTE_DELAY_BEGIN.

(** The first [i] of [n] offsets whose state ends a region. *)
Fixpoint find_delay_end (n : nat) (mem : list Z) (states i pc e : Z) : outcome Z :=
  match n with
  | O => Ret e
  | S n =>
      s ← get_state mem states i;
      if BB_BYTE_DELAY_END =? s then Ret (u64 (pc + i + 1))
      else find_delay_end n mem states (i + 1) pc e
  end.

(** The last [i] of [n] offsets whose state is safe. *)
Fixpoint find_delay_begin (n : nat) (mem : list Z) (states i pc b : Z) : outcome Z :=
  match n with
  | O => Ret b
  | S n =>
      s ← get_state mem states i;
      find_delay_begin n mem states (i + 1) pc
        (if Z.land SAFE_INTERRUPT_STATE s =? 0 then b else u64 (pc + i))
  end.

(** The fields of a block that the query uses; [delay_states] is an offset
    into the array of the trace, or null. *)
Record delay_block := {
  cache_pc_start : Z;
  cache_pc_current : Z;
  delay_states : option Z;
  num_bytes : Z
}.

(** [begin] and [end] are passed by reference: the result holds their values
    after the call. *)
Definition get_interrupt_delay_range (mem : list Z) (bb : delay_block) (begin_ end_ : Z)
    : outcome (bool * Z * Z) :=
  match delay_states bb with
  | None => Ret (false, begin_, end_)
  | Some delay_states =>
      if cache_pc_current bb =? cache_pc_start bb then Ret (false, begin_, end_)
      else
        ASSERT (cache_pc_start bb <? cache_pc_current bb) ≫= fun _ =>
        let current_offset := u32 (cache_pc_current bb - cache_pc_start bb) in
        let end_offset := num_bytes bb in
        ASSERT (current_offset <? num_bytes bb) ≫= fun _ =>
        byte_state ← get_state mem delay_states current_offset;
        if negb (Z.land SAFE_INTERRUPT_STATE byte_state =? 0) then Ret (false, 0, 0)
        else
          end_ ← find_delay_end (Z.to_nat (end_offset - current_offset)) mem delay_states
                   current_offset (cache_pc_start bb) end_;
          begin_ ← find_delay_begin (Z.to_nat current_offset) mem delay_states
                     0 (cache_pc_start bb) begin_;
          Ret (negb (end_ =? 0) && negb (begin_ =? 0), begin_, end_)
  end.

(** ** The blocks of a trace

    What [basic_block::translate] knows of a block: its instructions when
    the space is reserved, the estimate of its size then, and its
    instructions once aligned and encoded. *)
Record delay_translator := {
  decoded_ins : list delay_in;
  block_max_size : Z;
  emitted_ins : list delay_in;
  block_start_pc : Z;
  block_end_pc : Z
}.

(** [block->num_state_bytes]. *)
Definition num_state_bytes (b : delay_translator) : Z :=
  if requires_state_bytes (decoded_ins b)
  then u32 (block_max_size b + 7) / BB_BYTE_STATES_PER_BYTE else 0.

Definition trace_num_state_bytes (bs : list delay_translator) : Z :=
  foldr (fun b n => u32 (num_state_bytes b + n)) 0 bs.

Definition block_size (b : delay_translator) : Z := u32 (block_end_pc b - block_start_pc b).

(** The loop that fills the meta-information: the pointer of each block, and
    the array.  [allocate_memory] returns zeroed memory, so a block without
    states has a null pointer. *)
Fixpoint init_blocks (bs : list delay_translator) (mem : list Z) (trace_state_bytes_offset : Z)
    : outcome (list (option Z) * list Z) :=
  match bs with
  | [] => Ret ([], mem)
  | b :: bs =>
      if num_state_bytes b =? 0 then
        r ← init_blocks bs mem trace_state_bytes_offset;
        Ret (None :: fst r, snd r)
      else
        let num_delay_state_bytes := u32 (block_size b + 7) / BB_BYTE_STATES_PER_BYTE in
        ASSERT (num_delay_state_bytes <=? num_state_bytes b) ≫= fun _ =>
        i ← initialise_state_bytes (emitted_ins b) mem trace_state_bytes_offset
              num_delay_state_bytes;
        r ← init_blocks bs (snd i) (u32 (trace_state_bytes_offset + num_state_bytes b));
        Ret (Some trace_state_bytes_offset :: fst r, snd r)
  end.

Definition init_trace_states (bs : list delay_translator) : outcome (list (option Z) * list Z) :=
  init_blocks bs (replicate (Z.to_nat (trace_num_state_bytes bs)) 0) 0.

(** The block as an interrupt at [pc] sees it; the field for its size has 16
    bits. *)
Definition interrupted_block (b : delay_translator) (states : option Z) (pc : Z) : delay_block :=
  {| cache_pc_start := block_start_pc b; cache_pc_current := pc;
     delay_states := states; num_bytes := u16 (block_size b) |}.

(** ** Specification

    A block is a sequence of plain instructions and of delay regions. *)
Inductive part :=
  | Plain (i : delay_in)
  | Region (first : delay_in) (mid : list delay_in) (last : delay_in).

Definition part_ins (p : part) : list delay_in :=
  match p with
  | Plain i => [i]
  | Region f ms l => f :: ms ++ [l]
  end.

Definition ins_size (l : list delay_in) : Z := foldr (fun i n => encoded_size i + n) 0 l.
Definition part_size (p : part) : Z := ins_size (part_ins p).
Definition parts_size (ps : list part) : Z := foldr (fun p n => part_size p + n) 0 ps.

(** The delay bits of the flags. *)
Definition delay_bits (i : delay_in) : Z := Z.land (granary_flags i) DELAY_INSTRUCTION.

Definition part_ok (p : part) : Prop :=
  match p with
  | Plain i => (delay_bits i = 0 \/ delay_bits i = DELAY_INSTRUCTION) /\ 0 <= encoded_size i
  | Region f ms l =>
      delay_bits f = DELAY_BEGIN /\ 0 < encoded_size f /\
      (Forall (fun i => delay_bits i = 0 /\ 0 <= encoded_size i) ms) /\
      delay_bits l = DELAY_END /\ 0 < encoded_size l
  end.

(** The part that contains the byte at [o], and where it starts. *)
Fixpoint part_at (ps : list part) (start o : Z) : option (part * Z) :=
  match ps with
  | [] => None
  | p :: ps =>
      if (start <=? o) && (o <? start + part_size p) then Some (p, start)
      else part_at ps (start + part_size p) o
  end.

(** What an interrupt at offset [o] of the block calls for: nothing, or the
    delay of the region that it would tear apart. *)
Definition delay_range_spec (ps : list part) (o : Z) : option (Z * Z) :=
  match part_at ps 0 o with
  | Some (Region f ms l, s) => if o =? s then None else Some (s, s + part_size (Region f ms l))
  | _ => None
  end.

(** The states a part calls for, byte by byte. *)
Definition part_state (p : part) (o : Z) : Z :=
  match p with
  | Plain _ => 0
  | Region _ _ _ => if o =? 0 then 1 else if o =? part_size p - 1 then 3 else 2
  end.

(** The two bits of state number [g] of the array. *)
Definition state_val (mem : list Z) (g : Z) : Z :=
  get_field (2 * (g mod 4)) 2 (mem !!! Z.to_nat (g / 4)).

Definition is_byte (b : Z) : Prop := 0 <= b < 2 ^ 8.

(** ** Lemmas: the packed array *)
Lemma state_index p i : 0 <= p -> 0 <= i -> p + i / 4 = (4 * p + i) / 4 /\ i mod 4 = (4 * p + i) mod 4.
Proof. intros. split; [rewrite (Z.add_comm (4 * p)), (Z.mul_comm 4), Z.div_add|rewrite (Z.add_comm (4 * p)), (Z.mul_comm 4), Z_mod_plus_full]; lia. Qed.

Lemma get_state_val mem p i :
  0 <= p -> 0 <= i -> 4 * p + i < 4 * Z.of_nat (length mem) ->
  get_state mem p i = Ret (Z.shiftl 1 (state_val mem (4 * p + i))).
Proof.
  intros Hp Hi Hl. unfold get_state, state_val, BB_BYTE_STATES_PER_BYTE.
  destruct (state_index p i Hp Hi) as [-> ->].
  assert (Hlt : (Z.to_nat ((4 * p + i) / 4) < length mem)%nat).
  { apply Nat2Z.inj_lt. rewrite Z2Nat.id by (apply Z.div_pos; lia). apply Z.div_lt_upper_bound; lia. }
  destruct (idx_lt mem _ Hlt) as (b & Eb & Hb). rewrite Eb. cbn [mbind outcome_bind].
  rewrite (list_lookup_total_correct _ _ _ Hb). reflexivity.
Qed.

(** The state numbers that [set_state] stores. *)
Definition state_code (st v : Z) : Prop :=
  (st = BB_BYTE_NATIVE /\ v = 0) \/ (st = BB_BYTE_DELAY_BEGIN /\ v = 1) \/
  (st = BB_BYTE_DELAY_CONT /\ v = 2) \/ (st = BB_BYTE_DELAY_END /\ v = 3).

Lemma state_code_mask st v : state_code st v -> idx state_to_mask (Z.to_nat st) = Ret v /\ 0 <= v < 4.
Proof. intros [[-> ->]|[[-> ->]|[[-> ->]|[-> ->]]]]; (split; [reflexivity|lia]). Qed.

Lemma mask_is_field b v k :
  is_byte b -> 0 <= v < 4 -> 0 <= k -> k + 2 <= 8 ->
  u8 (Z.lor (u8 (Z.land b (Z.lnot (Z.shiftl 3 k)))) (Z.shiftl v k)) = set_field k 2 v b.
Proof.
  intros Hb Hv Hk Hk8. change 3 with (Z.ones 2). bitwise i Hi.
  rewrite Z.lnot_spec by lia. repeat (autorewrite with bits; try lia).
  destruct (Z.leb_spec k i); cbn [andb].
  - rewrite !testbit_ones by lia. zb; cbn; rewrite ?andb_false_r, ?andb_true_r, ?orb_false_r; try done.
    + rewrite (testbit_high 2 v) by (cbn; lia). apply orb_false_r.
    + rewrite (testbit_high 8 b i) by (unfold is_byte in *; lia). done.
  - cbn. rewrite andb_true_r, orb_false_r. zb.
Qed.

Lemma set_state_val mem p i st v :
  Forall is_byte mem -> state_code st v ->
  0 <= p -> 0 <= i -> 4 * p + i < 4 * Z.of_nat (length mem) ->
  exists mem', set_state mem p i st = Ret mem' /\ length mem' = length mem /\
    Forall is_byte mem' /\
    (forall g, 0 <= g -> state_val mem' g = if g =? 4 * p + i then v else state_val mem g).
Proof.
  intros Hm Hc Hp Hi Hl. unfold set_state, BB_BYTE_STATES_PER_BYTE.
  destruct (state_code_mask st v Hc) as [Em Hv].
  destruct (state_index p i Hp Hi) as [-> ->]. set (g0 := 4 * p + i) in *.
  assert (Hq : 0 <= g0 / 4) by (apply Z.div_pos; lia).
  pose proof (Z.mod_pos_bound g0 4 ltac:(lia)) as Hr.
  assert (Hlt : (Z.to_nat (g0 / 4) < length mem)%nat).
  { apply Nat2Z.inj_lt. rewrite Z2Nat.id by lia. apply Z.div_lt_upper_bound; lia. }
  destruct (idx_lt mem _ Hlt) as (b & Eb & Hb). rewrite Eb, Em. cbn [mbind outcome_bind].
  assert (Hbyte : is_byte b) by (eapply Forall_lookup_1; eauto).
  change (4 - 1) with 3. rewrite mask_is_field by (assumption || lia).
  unfold set_idx. rewrite bool_decide_eq_true_2 by lia.
  eexists; split; [reflexivity|]. split; [apply length_insert|]. split.
  - apply Forall_insert; [assumption|]. apply set_field_range; unfold is_byte in Hbyte; lia.
  - intros g Hg. unfold state_val. pose proof (Z.mod_pos_bound g 4 ltac:(lia)) as Hrg.
    assert (0 <= g / 4) by (apply Z.div_pos; lia).
    pose proof (Z.div_mod g 4 ltac:(lia)). pose proof (Z.div_mod g0 4 ltac:(lia)).
    destruct (Z.eq_dec (g / 4) (g0 / 4)) as [E|E].
    + rewrite E, list_lookup_total_insert_eq by lia.
      rewrite (list_lookup_total_correct _ _ _ Hb).
      destruct (Z.eqb_spec g g0) as [->|Hne].
      * rewrite get_set_field_same by lia. now apply wrap_small.
      * now rewrite get_set_field_other by lia.
    + rewrite list_lookup_total_insert_ne by (intros E'; apply Z2Nat.inj in E'; lia).
      destruct (Z.eqb_spec g g0) as [->|]; [congruence|reflexivity].
Qed.

(** ** Lemmas: the loops *)

(** [mem'] holds the states [f] from state [lo] on, [n] of them, and the
    states of [mem] elsewhere. *)
Definition updates (mem mem' : list Z) (lo n : Z) (f : Z -> Z) : Prop :=
  length mem' = length mem /\ Forall is_byte mem' /\
  forall g, 0 <= g ->
    state_val mem' g = if (lo <=? g) && (g <? lo + n) then f (g - lo) else state_val mem g.

Lemma updates_seq mem1 mem2 mem3 lo n m f g h :
  updates mem1 mem2 lo n f -> updates mem2 mem3 (lo + n) m g -> 0 <= n -> 0 <= m ->
  (forall o, 0 <= o < n + m -> h o = if o <? n then f o else g (o - n)) ->
  updates mem1 mem3 lo (n + m) h.
Proof.
  intros (L1 & B1 & U1) (L2 & B2 & U2) Hn Hm Hh. split; [congruence|]. split; [done|].
  intros k Hk. rewrite U2, U1 by done. zb; rewrite ?Hh by lia; zb. f_equal; lia.
Qed.

Lemma memset0_spec n mem p :
  Forall is_byte mem -> (p + n <= length mem)%nat ->
  exists mem', memset0 mem p n = Ret mem' /\ length mem' = length mem /\ Forall is_byte mem' /\
    (forall q, (q < p)%nat -> mem' !! q = mem !! q).
Proof.
  revert mem p. induction n as [|n IH]; intros mem p Hb Hl; cbn [memset0]; [eauto|].
  unfold set_idx. rewrite bool_decide_eq_true_2 by lia. cbn [mbind outcome_bind].
  destruct (IH (<[p := 0]> mem) (S p)) as (mem' & -> & L & B & F).
  - apply Forall_insert; [done|]. unfold is_byte. lia.
  - rewrite length_insert. lia.
  - eexists; split; [reflexivity|]. rewrite length_insert in L. split; [done|]. split; [done|].
    intros q Hq. rewrite F by lia. apply list_lookup_insert_ne. lia.
Qed.

Lemma memset0_overrun n mem p : (length mem < p + n)%nat -> (0 < n)%nat -> memset0 mem p n = Fault.
Proof.
  revert mem p. induction n as [|n IH]; intros mem p Hl Hn; [lia|]. cbn [memset0]. unfold set_idx.
  destruct (decide (p < length mem)%nat).
  - rewrite bool_decide_eq_true_2 by lia. cbn [mbind outcome_bind]. apply IH; rewrite ?length_insert; lia.
  - rewrite bool_decide_eq_false_2 by lia. reflexivity.
Qed.

Lemma set_state_range_val n mem p j st v :
  Forall is_byte mem -> state_code st v -> 0 <= p -> 0 <= j ->
  4 * p + j + Z.of_nat n <= 4 * Z.of_nat (length mem) ->
  exists mem', set_state_range n mem p j st = Ret mem' /\
    updates mem mem' (4 * p + j) (Z.of_nat n) (fun _ => v).
Proof.
  revert mem j. induction n as [|n IH]; intros mem j Hb Hc Hp Hj Hl; cbn [set_state_range].
  - eexists; split; [reflexivity|]. split; [done|]. split; [done|]. intros g Hg. zb.
  - destruct (set_state_val mem p j st v) as (m1 & -> & L1 & B1 & V1); [done..|lia|].
    cbn [mbind outcome_bind].
    destruct (IH m1 (j + 1)) as (m2 & -> & U2); [done..|lia|lia|].
    eexists; split; [reflexivity|]. rewrite Nat2Z.inj_succ, <- Z.add_1_l.
    eapply updates_seq; [|replace (4 * p + j + 1) with (4 * p + (j + 1)) by lia; exact U2|lia|lia|].
    + split; [done|]. split; [done|]. intros g Hg. rewrite V1 by done.
      instantiate (1 := fun _ => v). zb.
    + intros o _. cbn. now destruct (o <? 1).
Qed.

(** The states an instruction of state [st] and [n] bytes gives them. *)
Definition instr_states (st n o : Z) : Z :=
  if st =? BB_BYTE_NATIVE then 0
  else if (st =? BB_BYTE_DELAY_BEGIN) && (o =? 0) then 1
  else if (st =? BB_BYTE_DELAY_END) && (o =? n - 1) then 3
  else 2.

Definition is_state (st : Z) : Prop := exists v, state_code st v.

Lemma get_instruction_state_is_state flags prev st :
  get_instruction_state flags prev = Ret st -> is_state st.
Proof.
  unfold get_instruction_state, is_state, state_code. intros H.
  repeat match type of H with context [if ?b then _ else _] => destruct b end;
    inv_outcome; try (eexists; tauto).
Qed.

(** The last write of an iteration: the first or the last byte. *)
Lemma init_edge_val mem p off n st :
  Forall is_byte mem -> is_state st -> 0 <= p -> 0 <= off -> 0 <= n -> off + n < 2 ^ 32 ->
  4 * p + off + n <= 4 * Z.of_nat (length mem) ->
  (st = BB_BYTE_DELAY_BEGIN \/ st = BB_BYTE_DELAY_END -> 0 < n) ->
  exists mem',
    (if BB_BYTE_DELAY_BEGIN =? st then set_state mem p off BB_BYTE_DELAY_BEGIN
     else if BB_BYTE_DELAY_END =? st then set_state mem p (u32 (off + n - 1)) BB_BYTE_DELAY_END
     else Ret mem) = Ret mem' /\
    length mem' = length mem /\ Forall is_byte mem' /\
    (forall g, 0 <= g -> state_val mem' g =
      if (st =? BB_BYTE_DELAY_BEGIN) && (g =? 4 * p + off) then 1
      else if (st =? BB_BYTE_DELAY_END) && (g =? 4 * p + (off + n - 1)) then 3
      else state_val mem g).
Proof.
  intros Hb [v Hc] Hp Ho Hn H32 Hl Hpos.
  destruct Hc as [[-> _]|[[-> _]|[[-> _]|[-> _]]]]; cbn -[set_state state_val Z.mul Z.add].
  - eauto.
  - specialize (Hpos (or_introl eq_refl)).
    destruct (set_state_val mem p off BB_BYTE_DELAY_BEGIN 1) as (m & E & L & B & V);
      [done|unfold state_code; tauto|lia..|]. eauto.
  - eauto.
  - specialize (Hpos (or_intror eq_refl)). rewrite wrap_small by lia.
    destruct (set_state_val mem p (off + n - 1) BB_BYTE_DELAY_END 3) as (m & E & L & B & V);
      [done|unfold state_code; tauto|lia..|]. eauto.
Qed.

Lemma init_step_val p i s st :
  get_instruction_state (granary_flags i) (prev_state s) = Ret st ->
  (if st =? BB_BYTE_NATIVE then num_delayed_instructions s
   else prev_num_delayed_instructions s) <> 1 ->
  Forall is_byte (bytes s) -> 0 <= p -> 0 <= byte_offset s -> 0 <= encoded_size i ->
  byte_offset s + encoded_size i < 2 ^ 32 ->
  4 * p + byte_offset s + encoded_size i <= 4 * Z.of_nat (length (bytes s)) ->
  (st = BB_BYTE_DELAY_BEGIN \/ st = BB_BYTE_DELAY_END -> 0 < encoded_size i) ->
  exists s', init_step p i s = Ret s' /\
    updates (bytes s) (bytes s') (4 * p + byte_offset s) (encoded_size i)
      (instr_states st (encoded_size i)) /\
    byte_offset s' = byte_offset s + encoded_size i /\ prev_state s' = st /\
    num_delayed_instructions s' =
      (if st =? BB_BYTE_NATIVE then 0
       else if encoded_size i =? 0 then num_delayed_instructions s
       else u32 (num_delayed_instructions s + 1)) /\
    prev_num_delayed_instructions s' =
      (if st =? BB_BYTE_NATIVE then num_delayed_instructions s
       else prev_num_delayed_instructions s).
Proof.
  intros Est Hne Hb Hp Ho Hs H32 Hl Hpos.
  pose proof (get_instruction_state_is_state _ _ _ Est) as Hst.
  unfold init_step. rewrite Est. cbn [mbind outcome_bind].
  rewrite (Z.eqb_sym BB_BYTE_NATIVE st).
  replace (1 =? (if st =? BB_BYTE_NATIVE then _ else _)) with false
    by (symmetry; apply Z.eqb_neq; congruence).
  cbn [mbind outcome_bind]. rewrite (wrap_small 32 (byte_offset s + encoded_size i)) by lia.
  destruct (set_state_range_val
    (Z.to_nat (byte_offset s + encoded_size i - byte_offset s)) (bytes s) p (byte_offset s)
    (if st =? BB_BYTE_NATIVE then st else BB_BYTE_DELAY_CONT)
    (if st =? BB_BYTE_NATIVE then 0 else 2)) as (m1 & -> & L1 & B1 & U1); [done| |lia..|].
  { unfold state_code. destruct (Z.eqb_spec st BB_BYTE_NATIVE); tauto. }
  rewrite Z2Nat.id in U1 by lia. cbn [mbind outcome_bind].
  destruct (init_edge_val m1 p (byte_offset s) (encoded_size i) st) as (m2 & -> & L2 & B2 & U2);
    [done|done|lia..| rewrite L1; lia |done|].
  cbn [mbind outcome_bind]. eexists; split; [reflexivity|]. cbn. split; [|done].
  split; [congruence|]. split; [done|]. intros g Hg. rewrite U2, U1 by done.
  clear U1 U2. unfold instr_states. destruct Hst as [v [[-> _]|[[-> _]|[[-> _]|[-> _]]]]];
    zb; try discriminate; specialize (Hpos (or_intror eq_refl)); lia.
Qed.

(** Between parts: the last state is native or ends a region, and a run of
    delayed instructions has not exactly one instruction. *)
Record between (p o : Z) (s : init_state) : Prop := {
  bt_bytes : Forall is_byte (bytes s);
  bt_offset : byte_offset s = o;
  bt_prev : prev_state s = BB_BYTE_NATIVE \/ prev_state s = BB_BYTE_DELAY_END;
  bt_num : 0 <= num_delayed_instructions s <= o;
  bt_num1 : num_delayed_instructions s <> 1;
  bt_prev1 : prev_num_delayed_instructions s <> 1
}.

(** Inside a region. *)
Record inside (p o : Z) (s : init_state) : Prop := {
  in_bytes : Forall is_byte (bytes s);
  in_offset : byte_offset s = o;
  in_prev : prev_state s = BB_BYTE_DELAY_BEGIN \/ prev_state s = BB_BYTE_DELAY_CONT;
  in_num : 1 <= num_delayed_instructions s <= o;
  in_prev1 : prev_num_delayed_instructions s <> 1
}.

(** The tests of the flags, by the delay bits. *)
Lemma delay_bit_tests flags :
  Z.land flags DELAY_BEGIN = Z.land (Z.land flags DELAY_INSTRUCTION) DELAY_BEGIN /\
  Z.land flags DELAY_END = Z.land (Z.land flags DELAY_INSTRUCTION) DELAY_END.
Proof. split; rewrite <- Z.land_assoc; reflexivity. Qed.

Lemma get_instruction_state_cases i prev :
  get_instruction_state (granary_flags i) prev =
    if delay_bits i =? DELAY_INSTRUCTION then Ret BB_BYTE_NATIVE
    else if negb (Z.land (delay_bits i) DELAY_BEGIN =? 0) then
      ASSERT (Z.land BB_BYTE_DELAY_CONT prev =? 0) ≫= fun _ =>
      ASSERT (Z.land BB_BYTE_DELAY_BEGIN prev =? 0) ≫= fun _ => Ret BB_BYTE_DELAY_BEGIN
    else if negb (Z.land (delay_bits i) DELAY_END =? 0) then
      ASSERT (Z.land BB_BYTE_DELAY_END prev =? 0) ≫= fun _ =>
      ASSERT (Z.land BB_BYTE_NATIVE prev =? 0) ≫= fun _ => Ret BB_BYTE_DELAY_END
    else if BB_BYTE_DELAY_BEGIN =? prev then Ret BB_BYTE_DELAY_CONT
    else if BB_BYTE_DELAY_CONT =? prev then Ret BB_BYTE_DELAY_CONT
    else Ret BB_BYTE_NATIVE.
Proof.
  unfold get_instruction_state, delay_bits.
  destruct (delay_bit_tests (granary_flags i)) as [-> ->]. reflexivity.
Qed.

(** The step for each kind of instruction. *)
Ltac init_step_tac Hinv st :=
  match goal with
  | |- exists s', init_step ?p ?i ?s = Ret s' /\ _ =>
      destruct Hinv; subst;
      destruct (init_step_val p i s st) as (s' & E & U & Eo & Ep & En & Epn);
      [ rewrite get_instruction_state_cases;
        repeat match goal with H : _ \/ _ |- _ => destruct H end;
        repeat match goal with
        | H : delay_bits _ = _ |- _ => rewrite H
        | H : prev_state _ = _ |- _ => rewrite H
        end; reflexivity
      | cbn; done || lia | done | lia | lia | lia | lia | lia
      | try (intros [?|?]; discriminate); lia | ]
  end.

Lemma init_plain p o i s :
  between p o s -> part_ok (Plain i) -> 0 <= p -> 0 <= o -> o + encoded_size i < 2 ^ 32 ->
  4 * p + o + encoded_size i <= 4 * Z.of_nat (length (bytes s)) ->
  exists s', init_step p i s = Ret s' /\ between p (o + encoded_size i) s' /\
    updates (bytes s) (bytes s') (4 * p + o) (encoded_size i) (fun _ => 0).
Proof.
  intros Hinv [Hk Hs] Hp Ho H32 Hl. init_step_tac Hinv BB_BYTE_NATIVE.
  exists s'. split; [done|]. cbn in En, Epn. split.
  - split; [apply U|done|tauto|lia|lia|congruence].
  - exact U.
Qed.

Lemma init_first p o i s :
  between p o s -> delay_bits i = DELAY_BEGIN -> 0 < encoded_size i ->
  0 <= p -> 0 <= o -> o + encoded_size i < 2 ^ 32 ->
  4 * p + o + encoded_size i <= 4 * Z.of_nat (length (bytes s)) ->
  exists s', init_step p i s = Ret s' /\ inside p (o + encoded_size i) s' /\
    updates (bytes s) (bytes s') (4 * p + o) (encoded_size i) (fun k => if k =? 0 then 1 else 2).
Proof.
  intros Hinv Hk Hs Hp Ho H32 Hl. init_step_tac Hinv BB_BYTE_DELAY_BEGIN.
  exists s'. split; [done|]. cbn in Epn. split.
  - assert (num_delayed_instructions s' = num_delayed_instructions s + 1) as En'.
    { rewrite En. cbn -[wrap]. rewrite (proj2 (Z.eqb_neq _ _)) by lia. apply wrap_small. lia. }
    split; [apply U|done|tauto|lia|congruence].
  - destruct U as (L & B & V). split; [done|]. split; [done|]. intros g Hg. now rewrite V.
Qed.

Lemma init_mid p o i s :
  inside p o s -> delay_bits i = 0 -> 0 <= encoded_size i ->
  0 <= p -> 0 <= o -> o + encoded_size i < 2 ^ 32 ->
  4 * p + o + encoded_size i <= 4 * Z.of_nat (length (bytes s)) ->
  exists s', init_step p i s = Ret s' /\ inside p (o + encoded_size i) s' /\
    updates (bytes s) (bytes s') (4 * p + o) (encoded_size i) (fun _ => 2).
Proof.
  intros Hinv Hk Hs Hp Ho H32 Hl. init_step_tac Hinv BB_BYTE_DELAY_CONT.
  exists s'. split; [done|]. cbn in Epn. split.
  - assert (num_delayed_instructions s <= num_delayed_instructions s' <=
            num_delayed_instructions s + Z.min 1 (encoded_size i)) as En'.
    { rewrite En. cbn -[wrap]. destruct (Z.eqb_spec (encoded_size i) 0); [lia|].
      rewrite wrap_small by lia. lia. }
    split; [apply U|done|tauto|lia|congruence].
  - destruct U as (L & B & V). split; [done|]. split; [done|]. intros g Hg. now rewrite V.
Qed.

Lemma init_last p o i s :
  inside p o s -> delay_bits i = DELAY_END -> 0 < encoded_size i ->
  0 <= p -> 0 <= o -> o + encoded_size i < 2 ^ 32 ->
  4 * p + o + encoded_size i <= 4 * Z.of_nat (length (bytes s)) ->
  exists s', init_step p i s = Ret s' /\ between p (o + encoded_size i) s' /\
    updates (bytes s) (bytes s') (4 * p + o) (encoded_size i)
      (fun k => if k =? encoded_size i - 1 then 3 else 2).
Proof.
  intros Hinv Hk Hs Hp Ho H32 Hl. init_step_tac Hinv BB_BYTE_DELAY_END.
  exists s'. split; [done|]. cbn in Epn. split.
  - assert (num_delayed_instructions s' = num_delayed_instructions s + 1) as En'.
    { rewrite En. cbn -[wrap]. rewrite (proj2 (Z.eqb_neq _ _)) by lia. apply wrap_small. lia. }
    split; [apply U|done|tauto|lia|lia|congruence].
  - destruct U as (L & B & V). split; [done|]. split; [done|]. intros g Hg. now rewrite V.
Qed.

Lemma init_loop_app p l1 l2 s :
  init_loop p (l1 ++ l2) s = s' ← init_loop p l1 s; init_loop p l2 s'.
Proof.
  revert s. induction l1 as [|i l1 IH]; intros s; [done|]. cbn [init_loop app].
  destruct (init_step p i s); cbn [mbind outcome_bind]; auto.
Qed.

Lemma ins_size_app l1 l2 : ins_size (l1 ++ l2) = ins_size l1 + ins_size l2.
Proof. induction l1; cbn [ins_size foldr app] in *; unfold ins_size in *; cbn; lia. Qed.

Lemma ins_size_nonneg l : Forall (fun i => 0 <= encoded_size i) l -> 0 <= ins_size l.
Proof. induction 1; cbn; unfold ins_size in *; lia. Qed.

Lemma part_size_region f ms l :
  part_size (Region f ms l) = encoded_size f + ins_size ms + encoded_size l.
Proof. unfold part_size. cbn [part_ins]. cbn [ins_size foldr]. fold (ins_size (ms ++ [l])). rewrite ins_size_app. cbn. lia. Qed.

Lemma part_size_plain i : part_size (Plain i) = encoded_size i.
Proof. unfold part_size. cbn. lia. Qed.

Lemma mids_nonneg ms :
  Forall (fun i => delay_bits i = 0 /\ 0 <= encoded_size i) ms -> 0 <= ins_size ms.
Proof. intros H. apply ins_size_nonneg. induction H; constructor; tauto. Qed.

Lemma part_size_nonneg q : part_ok q -> 0 <= part_size q.
Proof.
  destruct q as [i|f ms l]; intros H.
  - rewrite part_size_plain. apply H.
  - destruct H as (? & ? & ?%mids_nonneg & ? & ?). rewrite part_size_region. lia.
Qed.

Lemma parts_size_nonneg ps : Forall part_ok ps -> 0 <= parts_size ps.
Proof. induction 1 as [|q ps Hq ? IH]; cbn; [lia|]. pose proof (part_size_nonneg q Hq). unfold parts_size in *. lia. Qed.

Lemma init_mids p ms : forall o s,
  inside p o s -> Forall (fun i => delay_bits i = 0 /\ 0 <= encoded_size i) ms ->
  0 <= p -> 0 <= o -> o + ins_size ms < 2 ^ 32 ->
  4 * p + o + ins_size ms <= 4 * Z.of_nat (length (bytes s)) ->
  exists s', init_loop p ms s = Ret s' /\ inside p (o + ins_size ms) s' /\
    updates (bytes s) (bytes s') (4 * p + o) (ins_size ms) (fun _ => 2).
Proof.
  induction ms as [|i ms IH]; intros o s Hin Hms Hp Ho H32 Hl; cbn [init_loop].
  - exists s. split; [done|]. cbn. rewrite Z.add_0_r. split; [done|]. split; [done|].
    split; [apply Hin|]. intros g Hg. zb.
  - apply List.Forall_cons_iff in Hms as [[Hi Hs] Hms]. pose proof (mids_nonneg ms Hms) as Hn.
    change (ins_size (i :: ms)) with (encoded_size i + ins_size ms) in *.
    destruct (init_mid p o i s Hin Hi Hs) as (s1 & -> & Hin1 & U1); [lia..|].
    cbn [mbind outcome_bind].
    destruct (IH _ _ Hin1 Hms) as (s2 & -> & Hin2 & U2); [lia..| |].
    { rewrite (proj1 U1). lia. }
    exists s2. split; [done|]. rewrite Z.add_assoc. split; [done|].
    eapply updates_seq; [exact U1| |lia|lia|].
    + rewrite Z.add_assoc in U2. exact U2.
    + intros k _. cbn. now destruct (k <? encoded_size i).
Qed.

Lemma init_part p q : forall o s,
  between p o s -> part_ok q -> 0 <= p -> 0 <= o -> o + part_size q < 2 ^ 32 ->
  4 * p + o + part_size q <= 4 * Z.of_nat (length (bytes s)) ->
  exists s', init_loop p (part_ins q) s = Ret s' /\ between p (o + part_size q) s' /\
    updates (bytes s) (bytes s') (4 * p + o) (part_size q) (part_state q).
Proof.
  intros o s Hb Hq Hp Ho H32 Hl. destruct q as [i|f ms l].
  - rewrite part_size_plain in *. cbn [part_ins init_loop].
    destruct (init_plain p o i s Hb Hq) as (s1 & -> & Hb1 & U1); [lia..|]. eauto.
  - rewrite part_size_region in *. destruct Hq as (Hf & Hfs & Hms & Hl' & Hls).
    pose proof (mids_nonneg ms Hms) as Hn. cbn [part_ins init_loop].
    destruct (init_first p o f s Hb Hf Hfs) as (s1 & -> & Hi1 & U1); [lia..|].
    cbn [mbind outcome_bind]. rewrite init_loop_app.
    destruct (init_mids p ms _ _ Hi1 Hms) as (s2 & -> & Hi2 & U2); [lia..|rewrite (proj1 U1); lia|].
    cbn [mbind outcome_bind init_loop].
    destruct (init_last p _ l s2 Hi2 Hl' Hls) as (s3 & -> & Hb3 & U3);
      [lia..|rewrite (proj1 U2), (proj1 U1); lia|].
    cbn [mbind outcome_bind]. exists s3. split; [done|]. rewrite !Z.add_assoc in *. split; [done|].
    rewrite <- (Z.add_assoc (4 * p + o)) in U3.
    eapply updates_seq; [|exact U3|lia|lia|].
    + eapply updates_seq; [exact U1|exact U2|lia|lia|]. intros k Hk.
      instantiate (1 := fun k => if k =? 0 then 1 else 2). cbn. zb.
    + intros k Hk. cbn [part_state]. rewrite part_size_region. zb.
Qed.

(** The states of a sequence of parts. *)
Fixpoint parts_state (ps : list part) (o : Z) : Z :=
  match ps with
  | [] => 0
  | q :: ps => if o <? part_size q then part_state q o else parts_state ps (o - part_size q)
  end.

Lemma init_parts p ps : forall o s,
  between p o s -> Forall part_ok ps -> 0 <= p -> 0 <= o -> o + parts_size ps < 2 ^ 32 ->
  4 * p + o + parts_size ps <= 4 * Z.of_nat (length (bytes s)) ->
  exists s', init_loop p (concat (map part_ins ps)) s = Ret s' /\
    updates (bytes s) (bytes s') (4 * p + o) (parts_size ps) (parts_state ps).
Proof.
  induction ps as [|q ps IH]; intros o s Hb Hps Hp Ho H32 Hl; cbn [init_loop concat map].
  - exists s. split; [done|]. split; [done|]. split; [apply Hb|]. intros g Hg. cbn. zb.
  - apply List.Forall_cons_iff in Hps as [Hq Hps].
    pose proof (parts_size_nonneg ps Hps). pose proof (part_size_nonneg q Hq).
    change (parts_size (q :: ps)) with (part_size q + parts_size ps) in *.
    rewrite init_loop_app.
    destruct (init_part p q o s Hb Hq) as (s1 & -> & Hb1 & U1); [lia..|].
    cbn [mbind outcome_bind].
    destruct (IH _ _ Hb1 Hps) as (s2 & -> & U2); [lia..|rewrite (proj1 U1); lia|].
    exists s2. split; [done|]. rewrite Z.add_assoc in U2.
    eapply updates_seq; [exact U1|exact U2|lia|lia|]. intros k Hk. reflexivity.
Qed.

(** ** Lemmas: the query *)
Lemma part_at_parts_state ps : forall start o q s,
  Forall part_ok ps -> part_at ps start o = Some (q, s) ->
  start <= s <= o /\ o < s + part_size q /\ part_ok q /\
  s + part_size q <= start + parts_size ps /\
  (forall k, 0 <= k < part_size q -> parts_state ps (s - start + k) = part_state q k).
Proof.
  induction ps as [|r ps IH]; intros start o q s Hps H; [done|]. cbn [part_at] in H.
  apply List.Forall_cons_iff in Hps as [Hr Hps].
  pose proof (parts_size_nonneg ps Hps). pose proof (part_size_nonneg r Hr).
  change (parts_size (r :: ps)) with (part_size r + parts_size ps).
  destruct ((start <=? o) && (o <? start + part_size r)) eqn:E.
  - injection H as <- <-. apply andb_true_iff in E as [?%Z.leb_le ?%Z.ltb_lt].
    split; [lia|]. split; [lia|]. split; [done|]. split; [lia|].
    intros k Hk. cbn [parts_state]. rewrite Z.sub_diag, Z.add_0_l. zb.
  - destruct (IH _ _ _ _ Hps H) as (Hs & Ho & Hq & Hend & Hk).
    split; [lia|]. split; [done|]. split; [done|]. split; [lia|]. intros k Hk'.
    cbn [parts_state]. rewrite (proj2 (Z.ltb_ge _ _)) by lia. rewrite <- Hk by done. f_equal. lia.
Qed.

Lemma part_at_total ps : forall start o,
  start <= o < start + parts_size ps -> is_Some (part_at ps start o).
Proof.
  induction ps as [|r ps IH]; intros start o Ho; [cbn in Ho; lia|].
  change (parts_size (r :: ps)) with (part_size r + parts_size ps) in Ho. cbn [part_at].
  destruct ((start <=? o) && (o <? start + part_size r)) eqn:E; [eauto|].
  apply IH. apply andb_false_iff in E as [?%Z.leb_gt|?%Z.ltb_ge]; lia.
Qed.

Lemma find_delay_end_val n mem p e pc e0 : forall i,
  0 <= p -> 0 <= i <= e -> e < i + Z.of_nat n -> 4 * p + i + Z.of_nat n <= 4 * Z.of_nat (length mem) ->
  state_val mem (4 * p + e) = 3 -> (forall k, i <= k < e -> 0 <= state_val mem (4 * p + k) < 3) ->
  find_delay_end n mem p i pc e0 = Ret (u64 (pc + e + 1)).
Proof.
  induction n as [|n IH]; intros i Hp Hi He Hl H3 Hk; [lia|]. cbn [find_delay_end].
  rewrite get_state_val by lia. cbn [mbind outcome_bind].
  destruct (Z.eq_dec i e) as [->|Hne]; [now rewrite H3|].
  assert ((BB_BYTE_DELAY_END =? Z.shiftl 1 (state_val mem (4 * p + i))) = false) as ->.
  { pose proof (Hk i ltac:(lia)) as Hv.
    assert (Hc : state_val mem (4 * p + i) = 0 \/ state_val mem (4 * p + i) = 1 \/ state_val mem (4 * p + i) = 2) by lia.
    destruct Hc as [->|[->| ->]]; reflexivity. }
  apply IH; try lia; try done; intros k Hk'; apply Hk; lia.
Qed.

(** A byte from which the code can be interrupted. *)
Lemma safe_state v :
  0 <= v < 4 -> (Z.land SAFE_INTERRUPT_STATE (Z.shiftl 1 v) =? 0) = (2 <=? v).
Proof.
  intros Hv. assert (Hc : v = 0 \/ v = 1 \/ v = 2 \/ v = 3) by lia.
  destruct Hc as [->|[->|[->| ->]]]; reflexivity.
Qed.

Lemma state_val_range mem g : 0 <= state_val mem g < 4.
Proof. apply (get_field_range _ 2). lia. Qed.

Lemma find_delay_begin_unsafe n mem p pc : forall i b0,
  0 <= p -> 0 <= i -> 4 * p + i + Z.of_nat n <= 4 * Z.of_nat (length mem) ->
  (forall k, i <= k < i + Z.of_nat n -> 2 <= state_val mem (4 * p + k)) ->
  find_delay_begin n mem p i pc b0 = Ret b0.
Proof.
  induction n as [|n IH]; intros i b0 Hp Hi Hl Hk; [done|]. cbn [find_delay_begin].
  rewrite get_state_val by lia. cbn [mbind outcome_bind].
  rewrite safe_state by apply state_val_range.
  rewrite (proj2 (Z.leb_le _ _)) by (apply Hk; lia). apply IH; try lia; try done; intros k Hk'; apply Hk; lia.
Qed.

Lemma find_delay_begin_val n mem p b pc : forall i b0,
  0 <= p -> 0 <= i <= b -> b < i + Z.of_nat n -> 4 * p + i + Z.of_nat n <= 4 * Z.of_nat (length mem) ->
  state_val mem (4 * p + b) < 2 ->
  (forall k, b < k < i + Z.of_nat n -> 2 <= state_val mem (4 * p + k)) ->
  find_delay_begin n mem p i pc b0 = Ret (u64 (pc + b)).
Proof.
  induction n as [|n IH]; intros i b0 Hp Hi He Hl H3 Hk; [lia|]. cbn [find_delay_begin].
  rewrite get_state_val by lia. cbn [mbind outcome_bind].
  rewrite safe_state by apply state_val_range.
  destruct (Z.eq_dec i b) as [->|Hne].
  - rewrite (proj2 (Z.leb_gt _ _)) by lia. apply find_delay_begin_unsafe; [lia..|].
    intros k Hk'. apply Hk. lia.
  - apply IH; try lia; try done; intros k Hk'; apply Hk; lia.
Qed.

(** A block of parts [ps] whose states are at [p]. *)
Definition holds_states (mem : list Z) (p : Z) (ps : list part) : Prop :=
  0 <= p /\ 4 * p + parts_size ps <= 4 * Z.of_nat (length mem) /\
  forall o, 0 <= o < parts_size ps -> state_val mem (4 * p + o) = parts_state ps o.

Lemma delay_range_of_states mem p ps pc o :
  Forall part_ok ps -> holds_states mem p ps -> parts_size ps < 2 ^ 16 ->
  0 < pc -> pc + parts_size ps < 2 ^ 64 -> 0 <= o < parts_size ps ->
  get_interrupt_delay_range mem
    {| cache_pc_start := pc; cache_pc_current := pc + o; delay_states := Some p;
       num_bytes := parts_size ps |} 0 0 =
    Ret (match delay_range_spec ps o with
         | Some (b, e) => (true, pc + b, pc + e)
         | None => (false, 0, 0)
         end).
Proof.
  intros Hps (Hp & Hl & Hst) H16 Hpc H64 Ho.
  unfold get_interrupt_delay_range, delay_range_spec. cbn [delay_states cache_pc_start cache_pc_current num_bytes].
  destruct (part_at_total ps 0 o ltac:(lia)) as [[q s] E].
  destruct (part_at_parts_state ps 0 o q s Hps E) as (Hs & Hos & Hq & Hend & Hk). rewrite E.
  assert (Hv : forall k, 0 <= k < part_size q -> state_val mem (4 * p + (s + k)) = part_state q k).
  { intros k Hk'. rewrite Hst by lia. rewrite <- Hk by done. f_equal. lia. }
  destruct (Z.eqb_spec (pc + o) pc) as [E0|E0].
  { assert (s = 0) by lia. assert (o = 0) by lia. subst. destruct q; reflexivity. }
  rewrite (proj2 (Z.ltb_lt pc _)) by lia. replace (pc + o - pc) with o by lia.
  rewrite (wrap_small 32) by lia. rewrite (proj2 (Z.ltb_lt o _)) by lia.
  cbn [ASSERT mbind outcome_bind]. rewrite get_state_val by lia. cbn [mbind outcome_bind].
  rewrite safe_state by apply state_val_range.
  pose proof (Hv (o - s) ltac:(lia)) as Hvo. replace (s + (o - s)) with o in Hvo by lia. rewrite Hvo.
  destruct q as [i|f ms l]; cbn [part_state]; [done|].
  set (n := part_size (Region f ms l)) in *.
  destruct (Z.eqb_spec (o - s) 0) as [E1|E1]; [now rewrite (proj2 (Z.eqb_eq o s)) by lia|].
  rewrite (proj2 (Z.eqb_neq o s)) by lia. replace (2 <=? _) with true by (destruct (_ =? _); done).
  cbn [negb]. rewrite (find_delay_end_val _ _ _ (s + (n - 1))), (find_delay_begin_val _ _ _ s); try lia.
  - cbn [mbind outcome_bind]. rewrite !wrap_small by lia.
    rewrite !(proj2 (Z.eqb_neq _ 0)) by lia. cbn. do 2 f_equal. lia.
  - rewrite <- (Z.add_0_r s), Hv by lia. reflexivity.
  - intros k Hk'. replace k with (s + (k - s)) by lia. rewrite Hv by lia. cbn [part_state]. zb.
  - rewrite Hv by lia. cbn [part_state]. fold n. zb.
  - intros k Hk'. replace k with (s + (k - s)) by lia. rewrite Hv by lia. cbn [part_state]. fold n. zb.
Qed.

(** ** Lemmas: the blocks of a trace *)
Lemma state_val_ext mem mem' g :
  mem' !! Z.to_nat (g / 4) = mem !! Z.to_nat (g / 4) -> state_val mem' g = state_val mem g.
Proof. intros H. unfold state_val. rewrite !list_lookup_total_alt. now rewrite H. Qed.

Lemma cleared_bytes_small n : 0 <= n < 2 ^ 30 -> cleared_bytes n = (2 * n + ALIGN_TO (2 * n) 64) / 8.
Proof.
  intros Hn. unfold cleared_bytes. change BITS_PER_STATE with 2. change BITS_PER_QWORD with 64.
  change BITS_PER_BYTE with 8. rewrite (wrap_small 32 (n * 2)) by lia.
  rewrite (Z.mul_comm n 2). pose proof (ALIGN_TO_range (2 * n) 64 ltac:(lia)).
  rewrite wrap_small by lia. reflexivity.
Qed.

Lemma cleared_bytes_le n m : 0 <= n <= m -> 8 <= m < 2 ^ 30 -> 0 <= cleared_bytes n <= m.
Proof.
  intros Hn Hm. rewrite cleared_bytes_small by lia.
  pose proof (ALIGN_TO_range (2 * n) 64 ltac:(lia)) as Hr. split; [apply Z.div_pos; lia|].
  destruct (Z.le_gt_cases n 32) as [Hs|Hs].
  - assert (ALIGN_TO (2 * n) 64 <= 64 - 2 * n).
    { apply ALIGN_TO_least; [lia..|]. replace (2 * n + (64 - 2 * n)) with 64 by lia. reflexivity. }
    transitivity (64 / 8); [apply Z.div_le_mono; lia|]. change (64 / 8) with 8. lia.
  - apply Z.lt_succ_r. apply Z.div_lt_upper_bound; lia.
Qed.

Lemma requires_region f ms l ps1 ps2 :
  part_ok (Region f ms l) ->
  requires_state_bytes (concat (map part_ins (ps1 ++ Region f ms l :: ps2))) = true.
Proof.
  intros (Hf & _). rewrite map_app, concat_app.
  generalize (concat (map part_ins ps1)). intros ins. induction ins as [|i ins IH]; cbn.
  - rewrite Z.land_comm. change (Z.land (granary_flags f) DELAY_INSTRUCTION) with (delay_bits f).
    now rewrite Hf.
  - cbn in IH. rewrite IH. now destruct (negb _).
Qed.

Lemma part_at_elem ps start o q s : part_at ps start o = Some (q, s) -> exists a b, ps = a ++ q :: b.
Proof.
  revert start. induction ps as [|r ps IH]; intros start H; [done|]. cbn in H.
  destruct (_ && _).
  - injection H as <- <-. now exists [], ps.
  - destruct (IH _ H) as (a & b & ->). now exists (r :: a), b.
Qed.

(** The block emitted for [b] consists of the parts [ps], its size is within
    the estimate, and the passes between the estimate and the emission keep
    its delays. *)
Record block_ok (b : delay_translator) (ps : list part) : Prop := {
  ok_ins : emitted_ins b = concat (map part_ins ps);
  ok_parts : Forall part_ok ps;
  ok_delays : requires_state_bytes (decoded_ins b) = requires_state_bytes (emitted_ins b);
  ok_end : block_end_pc b = block_start_pc b + parts_size ps;
  ok_pc : 0 < block_start_pc b /\ block_end_pc b < 2 ^ 64;
  ok_size : parts_size ps < 2 ^ 16;
  ok_max : parts_size ps <= block_max_size b < 2 ^ 20;
  ok_min : requires_state_bytes (decoded_ins b) = true -> 25 <= block_max_size b
}.

(** An interrupt anywhere in the block gets the right answer. *)
Definition answers (mem : list Z) (b : delay_translator) (ps : list part) (ptr : option Z) : Prop :=
  forall o, 0 <= o < parts_size ps ->
    get_interrupt_delay_range mem (interrupted_block b ptr (block_start_pc b + o)) 0 0 =
    Ret (match delay_range_spec ps o with
         | Some (s, e) => (true, block_start_pc b + s, block_start_pc b + e)
         | None => (false, 0, 0)
         end).

Lemma block_size_ok b ps : block_ok b ps -> block_size b = parts_size ps /\ 0 <= parts_size ps.
Proof.
  intros []. pose proof (parts_size_nonneg ps ok_parts0). unfold block_size.
  rewrite ok_end0. replace (_ + _ - _) with (parts_size ps) by lia. rewrite wrap_small; lia.
Qed.

Lemma answers_no_states mem b ps :
  block_ok b ps -> requires_state_bytes (decoded_ins b) = false -> answers mem b ps None.
Proof.
  intros Hok Hreq o Ho. cbn. unfold delay_range_spec.
  destruct (part_at ps 0 o) as [[[i|f ms l] s]|] eqn:E; [done| |done]. exfalso.
  destruct (part_at_elem _ _ _ _ _ E) as (a & c & ->). destruct Hok.
  rewrite ok_delays0, ok_ins0, requires_region in Hreq; [done|].
  apply Forall_app in ok_parts0 as [_ ok]. now apply List.Forall_cons_iff in ok as [? _].
Qed.

Lemma answers_states mem b ps p :
  block_ok b ps -> holds_states mem p ps -> answers mem b ps (Some p).
Proof.
  intros Hok Hst o Ho. destruct (block_size_ok b ps Hok) as [Hs Hs0]. destruct Hok.
  unfold interrupted_block. rewrite Hs, wrap_small by lia.
  apply delay_range_of_states; auto with lia.
Qed.

Lemma num_state_bytes_bounds b ps :
  block_ok b ps ->
  if requires_state_bytes (decoded_ins b)
  then (block_size b + 7) / 4 <= num_state_bytes b < 2 ^ 20 /\ 8 <= num_state_bytes b /\
       parts_size ps <= 4 * num_state_bytes b
  else num_state_bytes b = 0.
Proof.
  intros Hok. destruct (block_size_ok b ps Hok) as [Hs Hs0]. destruct Hok. unfold num_state_bytes.
  destruct (requires_state_bytes (decoded_ins b)); [|done]. specialize (ok_min0 eq_refl).
  rewrite wrap_small by lia. change BB_BYTE_STATES_PER_BYTE with 4. rewrite Hs. split; [split|split].
  - apply Z.div_le_mono; lia.
  - apply Z.div_lt_upper_bound; lia.
  - apply Z.div_le_lower_bound; lia.
  - pose proof (Z.div_mod (block_max_size b + 7) 4 ltac:(lia)).
    pose proof (Z.mod_pos_bound (block_max_size b + 7) 4 ltac:(lia)). lia.
Qed.

Lemma initialise_block b ps mem p :
  block_ok b ps -> requires_state_bytes (decoded_ins b) = true ->
  Forall is_byte mem -> 0 <= p -> p + num_state_bytes b <= Z.of_nat (length mem) ->
  exists n mem', initialise_state_bytes (emitted_ins b) mem p ((block_size b + 7) / 4) = Ret (n, mem') /\
    length mem' = length mem /\ Forall is_byte mem' /\ holds_states mem' p ps /\
    (forall g, 0 <= g < 4 * p -> state_val mem' g = state_val mem g).
Proof.
  intros Hok Hreq Hb Hp Hl. pose proof (num_state_bytes_bounds b ps Hok) as Hn. rewrite Hreq in Hn.
  destruct Hn as ([Hn1 Hn2] & Hn3 & Hn4). destruct (block_size_ok b ps Hok) as [Hs Hs0].
  assert (Hd : 0 <= (block_size b + 7) / 4) by (apply Z.div_pos; lia).
  destruct (cleared_bytes_le ((block_size b + 7) / 4) (num_state_bytes b)) as [Hc0 Hc1]; [lia..|].
  unfold initialise_state_bytes.
  destruct (memset0_spec (Z.to_nat (cleared_bytes ((block_size b + 7) / 4))) mem (Z.to_nat p))
    as (m1 & -> & L1 & B1 & F1); [done|lia|].
  cbn [mbind outcome_bind]. rewrite (ok_ins b ps Hok).
  edestruct (init_parts p ps 0) as (s' & -> & L2 & B2 & U2);
    [constructor; cbn; auto with lia|apply Hok|lia|lia|destruct Hok; lia|cbn; rewrite L1; lia|].
  cbn [mbind outcome_bind]. cbn [bytes] in *. rewrite Z.add_0_r in U2.
  eexists _, _. split; [reflexivity|]. split; [congruence|]. split; [done|]. split.
  - split; [done|]. split; [lia|]. intros o Ho. rewrite U2 by lia.
    replace (4 * p + o - 4 * p) with o by lia. zb.
  - intros g Hg. rewrite U2 by lia. rewrite (proj2 (Z.leb_gt (4 * p) g)) by lia. cbn.
    apply state_val_ext, F1. apply Z2Nat.inj_lt; [apply Z.div_pos; lia|lia|].
    apply Z.div_lt_upper_bound; lia.
Qed.

Lemma init_blocks_ok bs pss : Forall2 block_ok bs pss -> forall mem off,
  Forall is_byte mem -> 0 <= off -> Z.of_nat (length mem) < 2 ^ 32 ->
  off + foldr (fun b n => num_state_bytes b + n) 0 bs = Z.of_nat (length mem) ->
  exists ptrs mem', init_blocks bs mem off = Ret (ptrs, mem') /\ length mem' = length mem /\
    Forall3 (answers mem') bs pss ptrs /\
    (forall g, 0 <= g < 4 * off -> state_val mem' g = state_val mem g).
Proof.
  induction 1 as [|b ps bs pss Hok Hrest IH]; intros mem off Hb Hoff H32 Hl; cbn [init_blocks].
  - exists [], mem. repeat split; constructor.
  - cbn [foldr] in Hl. pose proof (num_state_bytes_bounds b ps Hok) as Hn.
    assert (Hpos : 0 <= foldr (fun b n => num_state_bytes b + n) 0 bs).
    { clear -Hrest. induction Hrest as [|b ps bs pss Hok _ IH]; cbn; [lia|].
      pose proof (num_state_bytes_bounds b ps Hok). destruct (requires_state_bytes _); lia. }
    destruct (requires_state_bytes (decoded_ins b)) eqn:Hreq.
    + destruct Hn as ([Hn1 Hn2] & Hn3 & Hn4). rewrite (proj2 (Z.eqb_neq _ 0)) by lia.
      destruct (block_size_ok b ps Hok) as [Hs Hs0]. pose proof (ok_size b ps Hok).
      rewrite (wrap_small 32 (block_size b + 7)) by lia. change BB_BYTE_STATES_PER_BYTE with 4.
      rewrite (proj2 (Z.leb_le _ _)) by lia. cbn [ASSERT mbind outcome_bind].
      destruct (initialise_block b ps mem off) as (n & m1 & -> & L1 & B1 & Hst & F1); [done..|lia|lia|].
      cbn [mbind outcome_bind snd]. rewrite (wrap_small 32) by lia.
      destruct (IH m1 (off + num_state_bytes b)) as (ptrs & m2 & -> & L2 & A2 & F2); [done|lia|lia|lia|].
      eexists _, _. split; [reflexivity|]. cbn. split; [congruence|]. split.
      * constructor; [|exact A2]. apply answers_states; [done|].
        destruct Hst as (? & ? & Hst). split; [lia|]. split; [lia|].
        intros o Ho. rewrite F2 by lia. now apply Hst.
      * intros g Hg. rewrite F2 by lia. now apply F1.
    + rewrite Hn. rewrite Hn in Hl. cbn.
      destruct (IH mem off) as (ptrs & m2 & -> & L2 & A2 & F2); [done..|].
      eexists _, _. split; [reflexivity|]. cbn. split; [done|]. split; [|done].
      constructor; [|exact A2]. now apply answers_no_states.
Qed.

Lemma trace_total bs pss :
  Forall2 block_ok bs pss -> foldr (fun b n => num_state_bytes b + n) 0 bs < 2 ^ 32 ->
  trace_num_state_bytes bs = foldr (fun b n => num_state_bytes b + n) 0 bs /\
  0 <= trace_num_state_bytes bs.
Proof.
  unfold trace_num_state_bytes. induction 1 as [|b ps bs pss Hok _ IH]; cbn [foldr]; [done|].
  pose proof (num_state_bytes_bounds b ps Hok) as Hn. intros H.
  assert (0 <= num_state_bytes b) by (destruct (requires_state_bytes _); lia).
  destruct (IH ltac:(lia)) as [-> ?]. rewrite wrap_small; lia.
Qed.

(** ** Theorems *)

(** C22 For every trace whose blocks are sequences of plain instructions and of
    delay regions, the state bytes of the trace are set up without a fault
    and an interrupt at any byte of any block is answered as its delay
    regions call for: it is delayed exactly when it would split a region,
    and then the range reported is that region.  The first and the last
    instruction of a region are encoded in at least one byte, a block is
    within its size estimate, and the estimate of a block with a delay region
    is at least 25 bytes (a smaller one overruns its state bytes, see
    [small_block_overruns]). *)
Theorem trace_delay_ranges bs pss :
  Forall2 block_ok bs pss -> foldr (fun b n => num_state_bytes b + n) 0 bs < 2 ^ 32 ->
  exists ptrs mem, init_trace_states bs = Ret (ptrs, mem) /\ Forall3 (answers mem) bs pss ptrs.
Proof.
  intros Hok H32. destruct (trace_total bs pss Hok H32) as [Ht Ht0].
  destruct (init_blocks_ok bs pss Hok (replicate (Z.to_nat (trace_num_state_bytes bs)) 0) 0)
    as (ptrs & mem & E & _ & A & _).
  - apply Forall_replicate. unfold is_byte. lia.
  - lia.
  - rewrite length_replicate. lia.
  - rewrite length_replicate. lia.
  - exists ptrs, mem. auto.
Qed.

Definition instr (flags size : Z) : delay_in := {| granary_flags := flags; encoded_size := size |}.

Lemma trace_delay_ranges_witness :
  let region := Region (instr DELAY_BEGIN 5) [instr 0 0; instr 0 7] (instr DELAY_END 3) in
  let ps1 := [Plain (instr 0 4); region; Plain (instr DELAY_INSTRUCTION 6)] in
  let ps2 := [Plain (instr 0 9)] in
  let ps3 := [region; region] in
  let mk pc ps := let ins := concat (map part_ins ps) in
    {| decoded_ins := ins; block_max_size := parts_size ps + 16; emitted_ins := ins;
       block_start_pc := pc; block_end_pc := pc + parts_size ps |} in
  let bs := [mk 4096 ps1; mk 4128 ps2; mk 4160 ps3] in
  exists ptrs mem, init_trace_states bs = Ret (ptrs, mem) /\ Forall3 (answers mem) bs [ps1; ps2; ps3] ptrs.
Proof.
  cbv zeta. apply trace_delay_ranges; [|vm_compute; reflexivity].
  repeat match goal with
  | |- _ \/ _ => (left; reflexivity) || (right; reflexivity)
  | |- _ => constructor
  end; cbn; lia.
Defined.

(** The array is cleared in units of eight bytes: a block that can delay
    interrupts and whose size estimate is below 25 bytes has fewer state
    bytes than are cleared, so emitting it writes past their end. *)
Theorem small_block_overruns b :
  requires_state_bytes (decoded_ins b) = true -> 0 <= block_max_size b <= 24 ->
  0 <= block_size b < 2 ^ 16 -> init_trace_states [b] = Fault.
Proof.
  intros Hreq Hmax Hs. unfold init_trace_states. cbn [init_blocks trace_num_state_bytes foldr].
  rewrite Z.add_0_r. unfold num_state_bytes. rewrite Hreq.
  rewrite (wrap_small 32 (block_max_size b + 7)), (wrap_small 32 (block_size b + 7)) by lia.
  change BB_BYTE_STATES_PER_BYTE with 4.
  assert (Hn : 1 <= (block_max_size b + 7) / 4 < 8).
  { split; [apply Z.div_le_lower_bound; lia|apply Z.div_lt_upper_bound; lia]. }
  rewrite (wrap_small 32) by lia.
  rewrite (proj2 (Z.eqb_neq _ 0)) by lia. destruct (Z.leb_spec ((block_size b + 7) / 4) ((block_max_size b + 7) / 4)); [|done].
  cbn [ASSERT mbind outcome_bind]. unfold initialise_state_bytes.
  assert (1 <= (block_size b + 7) / 4) by (apply Z.div_le_lower_bound; lia).
  rewrite memset0_overrun; [done|..]; rewrite ?length_replicate.
  all: rewrite cleared_bytes_small by lia; set (n := (block_size b + 7) / 4) in *.
  all: pose proof (ALIGN_TO_aligned (2 * n) 64 ltac:(lia)) as Ha; pose proof (ALIGN_TO_range (2 * n) 64 ltac:(lia)).
  all: apply Z.mod_divide in Ha as [q Hq]; [|lia]; rewrite Hq in *.
  all: replace (q * 64 / 8) with (8 * q) by (replace (q * 64) with ((8 * q) * 8) by lia; now rewrite Z.div_mul).
  all: assert (1 <= q) by lia; lia.
Qed.

Lemma small_block_overruns_witness :
  let b := {| decoded_ins := [instr DELAY_BEGIN 5; instr DELAY_END 4]; block_max_size := 9;
              emitted_ins := [instr DELAY_BEGIN 5; instr DELAY_END 4];
              block_start_pc := 4096; block_end_pc := 4105 |} in
  init_trace_states [b] = Fault.
Proof. cbv zeta. apply small_block_overruns; [reflexivity|cbn; lia|vm_compute; split; congruence]. Defined.

(** A region that starts at an instruction without bytes (a label) is
    reported as starting inside the instruction before it; and a region of
    one encoded instruction followed by one plain instruction wipes out the
    beginning of the next region, so that an interrupt inside that region is
    not delayed, or is delayed with a range that starts inside an
    instruction. *)
Theorem delay_region_mishandled :
  let query ins pc :=
    r ← initialise_state_bytes ins (replicate 64 0) 0 64;
    get_interrupt_delay_range (snd r)
      {| cache_pc_start := 4096; cache_pc_current := pc; delay_states := Some 0;
         num_bytes := ins_size ins |} 0 0 in
  (* plain instruction at 4096, region at [4099, 4103) *)
  query [instr 0 3; instr DELAY_BEGIN 0; instr 0 2; instr DELAY_END 2] 4100
    = Ret (true, 4098, 4103) /\
  (* region of one instruction at 4096, plain at 4098, region [4101, 4111) *)
  query [instr DELAY_BEGIN 2; instr DELAY_END 0; instr 0 3;
         instr DELAY_BEGIN 4; instr 0 2; instr DELAY_END 4] 4103 = Ret (false, 0, 0) /\
  query [instr DELAY_BEGIN 2; instr DELAY_END 0; instr 0 3;
         instr DELAY_BEGIN 4; instr 0 2; instr DELAY_END 4] 4108 = Ret (true, 4106, 4111).
Proof. vm_compute. repeat split. Qed.
