(* ===== verification/InterruptHandler.v ===== *)
(** * The interrupt handler: [granary/kernel/interrupt.cc]

    [handle_interrupt] is called by the code of [Interrupt] with the frame of
    an interrupt of kernel code.  It classifies the interrupted address: in
    the code cache the interrupt may have to be delayed ([DelayStates],
    [InterruptDelay]), a page fault in the code of a module sends the module
    into the code cache ([CodeCache], [CpuCodeCache]), a fault in a guarded
    access is answered with a failure, and the rest is left to the client or
    to the kernel.

    The theorems: the answer and the frame on every path, that no path
    changes more of the frame than the entry code allows, and that a module
    that faults is resumed at the code that the code cache holds for it, the
    same on every fault. *)

From Stdlib Require Import ZArith Lia Bool.
From stdpp Require Import base numbers list option gmap.
From S2P Require Import Prelude Utils Policy HashTable CpuCodeCache Detach CodeCache BlockInfo DelayStates Machine Interrupt InterruptDelay.
Import MangledAddress.

Definition INTERRUPT_DELAY_CODE_SIZE : Z := 2048.

Section Handler.
Context `{Config} {T W : Type} `{!LookupTable T, !CodeCacheEnv T W}.

(** [CONFIG_FEATURE_INTERRUPT_DELAY] and
    [CONFIG_FEATURE_CLIENT_HANDLE_INTERRUPT]. *)
Context (interrupt_delay client_handle_interrupt : bool).

(** Constants of the running system: the start policy of the client, the two
    addresses of the guarded access, the addresses of modules, of the common
    handler and of the delayed code of this processor. *)
Context (START_POLICY : instrumentation_policy) (TRY_ACCESS_PC FAIL_ACCESS_PC : Z) (is_app_address : Z -> bool).
Context (COMMON_HANDLER_BEGIN COMMON_HANDLER_END interrupt_delay_handler : Z).

(** The meta-information of a block, with its exception table entry and its
    delay states, which lie in [state_bytes]. *)
Context (find_info : Z -> outcome basic_block_info).
Context (user_exception_metadata : basic_block_info -> Z) (delay_states_of : basic_block_info -> option Z).
Context (state_bytes : list Z).

(** The decoder, the address at which the encoder puts a position of the
    delayed code, the spill slots, the alignment table, and the handlers of
    the vectors. *)
Context (decode : Z -> decoded) (encoded_at : list ditem -> list instr -> nat -> Z).
Context (spill stack_align : Z) (VECTOR_HANDLER : Z -> Z).

(** The handlers of the client: for a policy, and for the kernel. *)
Context (policy_handle_interrupt : instrumentation_policy -> interrupt_stack_frame -> Z ->
  outcome (interrupt_handled_state * interrupt_stack_frame)).
Context (client_handle_kernel_interrupt : interrupt_stack_frame -> Z ->
  outcome (interrupt_handled_state * interrupt_stack_frame)).

(** The code cache, and the fields of the CPU state. *)
Record int_state := {
  is_cc : cc_state T W;
  is_cpu_cache : CpuCache.cpu_private_code_cache;
  last_exception_instruction_pointer : Z;
  last_exception_table_entry : Z
}.

Definition with_exception (ip entry : Z) (st : int_state) : int_state :=
  {| is_cc := is_cc st; is_cpu_cache := is_cpu_cache st; last_exception_instruction_pointer := ip;
     last_exception_table_entry := entry |}.

Definition with_caches (cc : cc_state T W) (c : CpuCache.cpu_private_code_cache) (st : int_state) : int_state :=
  {| is_cc := cc; is_cpu_cache := c; last_exception_instruction_pointer := last_exception_instruction_pointer st;
     last_exception_table_entry := last_exception_table_entry st |}.

Definition set_ip (ip : Z) (isf : interrupt_stack_frame) : interrupt_stack_frame :=
  with_resume ip (isf_flags isf) isf.

Abbreviation handled := (outcome (int_state * interrupt_stack_frame * interrupt_handled_state)).

Definition handle_code_cache_interrupt (st : int_state) (isf : interrupt_stack_frame) (vector : Z) : handled :=
  let pc := instruction_pointer isf in
  info ← find_info pc;
  let st :=
    if (vector =? VECTOR_PAGE_FAULT) && negb (user_exception_metadata info =? 0)
    then with_exception pc (user_exception_metadata info) st else st in
  delay ← (if interrupt_delay then
             get_interrupt_delay_range state_bytes
               {| cache_pc_start := bb_start_pc info; cache_pc_current := pc;
                  delay_states := delay_states_of info; num_bytes := bb_num_bytes info |} 0 0
           else Ret (false, 0, 0));
  let '(must_delay, delay_begin, delay_end) := delay in
  if (must_delay : bool) then
    e ← emit_delayed_interrupt decode (Z.to_nat (delay_end - delay_begin)) spill stack_align (VECTOR_HANDLER vector)
          vector isf delay_begin delay_end;
    let '(ls, code, p, isf) := e in
    Ret (st, set_ip (encoded_at ls code p) isf, INTERRUPT_RETURN)
  else if client_handle_interrupt then
    r ← policy_handle_interrupt (policy_of (generating_pc info)) isf vector;
    Ret (st, r.2, r.1)
  else Ret (st, isf, INTERRUPT_DEFER).

(** Both interrupts in the common handler and elsewhere in generated code
    are deferred. *)
Definition handle_gencode_interrupt (st : int_state) (isf : interrupt_stack_frame) (vector : Z) : handled :=
  let pc := instruction_pointer isf in
  if interrupt_delay && (interrupt_delay_handler <=? pc) &&
     (pc <? u64 (interrupt_delay_handler + INTERRUPT_DELAY_CODE_SIZE))
  then Ret (st, isf, INTERRUPT_IRET)
  else if (COMMON_HANDLER_BEGIN <=? pc) && (pc <? COMMON_HANDLER_END) then Ret (st, isf, INTERRUPT_DEFER)
  else Ret (st, isf, INTERRUPT_DEFER).

(** The copy of the faulting stack that is kept for debugging is left out. *)
Definition handle_kernel_interrupt (st : int_state) (isf : interrupt_stack_frame) (vector : Z) : handled :=
  if (vector =? VECTOR_PAGE_FAULT) && (instruction_pointer isf =? TRY_ACCESS_PC)
  then Ret (st, set_ip FAIL_ACCESS_PC isf, INTERRUPT_IRET)
  else if client_handle_interrupt then r ← client_handle_kernel_interrupt isf vector; Ret (st, r.2, r.1)
  else Ret (st, isf, INTERRUPT_DEFER).

(** The policy under which a module is entered. *)
Definition module_policy : instrumentation_policy :=
  return_address_in_code_cache true (begins_functional_unit true (in_host_context false START_POLICY)).

Definition handle_module_interrupt (st : int_state) (isf : interrupt_stack_frame) : handled :=
  let target := mangled_address (instruction_pointer isf) module_policy in
  r ← CpuCache.load (is_cpu_cache st) target;
  if (r.1 : bool) then Ret (st, set_ip r.2 isf, INTERRUPT_IRET)
  else
    f ← CodeCache.find (is_cc st) target;
    c ← CpuCache.store (2 * length (CpuCache.slots (CpuCache.allocate_if_null (is_cpu_cache st)))) (is_cpu_cache st)
          target f.2 HASH_OVERWRITE_PREV_ENTRY;
    Ret (with_caches f.1 c.1 st, set_ip f.2 isf, INTERRUPT_IRET).

Definition handle_interrupt (st : int_state) (isf : interrupt_stack_frame) (vector : Z) : handled :=
  let pc := instruction_pointer isf in
  if negb (is_valid_address pc) then Ret (st, isf, INTERRUPT_DEFER)
  else if is_code_cache_address pc then handle_code_cache_interrupt st isf vector
  else if is_wrapper_address pc || is_gencode_address pc then handle_gencode_interrupt st isf vector
  else if is_app_address pc then
    if vector =? VECTOR_PAGE_FAULT then handle_module_interrupt st isf else Ret (st, isf, INTERRUPT_DEFER)
  else handle_kernel_interrupt st isf vector.

(** ** Theorems *)

(** What a handler may do to a frame. *)
Definition resumes (isf isf' : interrupt_stack_frame) : Prop :=
  isf' = with_resume (instruction_pointer isf') (isf_flags isf') isf.

Lemma resumes_refl isf : resumes isf isf.
Proof. by destruct isf. Qed.

Lemma resumes_set_ip ip isf isf' : resumes isf isf' -> resumes isf (set_ip ip isf').
Proof. unfold resumes. intros ->. done. Qed.

(** The clients that are asked respect the frame. *)
Definition clients_resume : Prop :=
  (forall p isf v s isf', policy_handle_interrupt p isf v = Ret (s, isf') -> resumes isf isf') /\
  (forall isf v s isf', client_handle_kernel_interrupt isf v = Ret (s, isf') -> resumes isf isf').

Lemma emit_delayed_resumes fuel sp al h v isf b e ls code p isf' :
  emit_delayed_interrupt decode fuel sp al h v isf b e = Ret (ls, code, p, isf') -> resumes isf isf'.
Proof.
  unfold emit_delayed_interrupt. destruct (copy_region _ _ _ _ _ _ _ _) as [[[l d] n]| |]; try discriminate 1.
  cbn [mbind outcome_bind]. destruct (redirect_loop n 0 l); try discriminate 1. cbn [mbind outcome_bind].
  destruct d; [|discriminate 1]. intros [= _ _ _ <-]. done.
Qed.

(** [handle_interrupt] changes nothing of a frame but the instruction
    pointer and the flags, on every path, if the clients that it asks do not;
    this is what the entry code relies on.  Without a client, an interrupt
    that is deferred leaves the whole frame to the kernel as it was. *)
Theorem handle_interrupt_resumes st isf vector st' isf' s :
  clients_resume -> handle_interrupt st isf vector = Ret (st', isf', s) ->
  resumes isf isf' /\ (client_handle_interrupt = false -> s = INTERRUPT_DEFER -> isf' = isf).
Proof.
  intros [Hp Hk]. unfold handle_interrupt. set (pc := instruction_pointer isf).
  assert (Same : forall r, Ret (st, isf, r) = Ret (st', isf', s) ->
    resumes isf isf' /\ (client_handle_interrupt = false -> s = INTERRUPT_DEFER -> isf' = isf)).
  { intros r [= <- <- <-]. split; [apply resumes_refl|done]. }
  destruct (negb (is_valid_address pc)); [apply Same|]. destruct (is_code_cache_address pc).
  - unfold handle_code_cache_interrupt. fold pc. destruct (find_info pc) as [info| |]; try discriminate 1.
    cbn [mbind outcome_bind]. set (st1 := if _ && _ then _ else st).
    destruct (if interrupt_delay then _ else _) as [[[d b] e]| |]; try discriminate 1. cbn [mbind outcome_bind].
    destruct d.
    + destruct (emit_delayed_interrupt _ _ _ _ _ _ _ _ _) as [[[[ls code] p] i]| |] eqn:E; try discriminate 1.
      cbn [mbind outcome_bind]. intros [= <- <- <-]. split; [|done]. apply resumes_set_ip. by eapply emit_delayed_resumes.
    + destruct client_handle_interrupt.
      * destruct (policy_handle_interrupt _ _ _) as [[s1 i]| |] eqn:E; try discriminate 1. cbn [mbind outcome_bind].
        intros [= <- <- <-]. split; [by eapply Hp|done].
      * intros [= <- <- <-]. split; [apply resumes_refl|done].
  - destruct (is_wrapper_address pc || is_gencode_address pc).
    { unfold handle_gencode_interrupt. destruct (_ && _ && _); [apply Same|]. destruct (_ && _); apply Same. }
    destruct (is_app_address pc).
    { destruct (vector =? VECTOR_PAGE_FAULT); [|apply Same]. unfold handle_module_interrupt.
      destruct (CpuCache.load _ _) as [[h v]| |]; try discriminate 1. cbn [mbind outcome_bind fst snd]. destruct h.
      - intros [= <- <- <-]. split; [apply resumes_set_ip, resumes_refl|done].
      - destruct (CodeCache.find _ _) as [[cc t]| |]; try discriminate 1. cbn [mbind outcome_bind fst snd].
        destruct (CpuCache.store _ _ _ _ _) as [[c b]| |]; try discriminate 1. cbn [mbind outcome_bind fst snd].
        intros [= <- <- <-]. split; [apply resumes_set_ip, resumes_refl|done]. }
    unfold handle_kernel_interrupt. destruct (_ && _); [intros [= <- <- <-]; split; [apply resumes_set_ip, resumes_refl|done]|].
    destruct client_handle_interrupt; [|apply Same].
    destruct (client_handle_kernel_interrupt _ _) as [[s1 i]| |] eqn:E; try discriminate 1. cbn [mbind outcome_bind].
    intros [= <- <- <-]. split; [by eapply Hk|done].
Qed.

(** What code is looked up for a fault at [a]: the code at [a], entered as the
    application and not as the host, at the beginning of a functional unit,
    with return addresses in the code cache, and with the identifier and all
    other properties of the start policy. *)
Record module_entry (a target : Z) : Prop := {
  me_address : unmangled_address target = a;
  me_app : is_in_host_context (policy_of target) = false;
  me_begins : is_beginning_of_functional_unit (policy_of target) = true;
  me_returns : return_address_is_in_code_cache (policy_of target) = true;
  me_id : u_id (policy_of target) = u_id START_POLICY;
  me_rest : forall f, f ∈ [IS_INDIRECT_TARGET; IS_RETURN_TARGET; FORCE_ATTACH; IS_IN_XMM_CONTEXT; ACCESSES_USER_DATA] ->
    flag f (policy_of target) = flag f START_POLICY
}.

Lemma module_policy_entry a :
  canonical a -> policy_wf START_POLICY -> module_entry a (mangled_address a module_policy).
Proof.
  intros Ha Hw. destruct (mangled_address_facts a module_policy Ha) as (_ & Ea & Ep).
  { unfold module_policy, return_address_in_code_cache, begins_functional_unit, in_host_context.
    destruct env_kernel; auto 6 using with_flag_wf with granary; repeat (apply with_flag_wf; [done|]); done. }
  constructor; rewrite ?Ep; [done|..];
    unfold module_policy, return_address_is_in_code_cache, return_address_in_code_cache, begins_functional_unit,
      in_host_context, is_in_host_context, is_beginning_of_functional_unit.
  - destruct env_kernel; now rewrite ?(flag_with_flag_other IS_IN_HOST_CONTEXT), flag_with_flag_same by done.
  - destruct env_kernel; now rewrite ?(flag_with_flag_other BEGINS_FUNCTIONAL_UNIT), flag_with_flag_same by done.
  - destruct env_kernel; [done|]. now apply flag_with_flag_same.
  - destruct env_kernel; now rewrite !id_with_flag by done.
  - intros f Hf. assert (0 <= f /\ f <> CAN_DIRECT_RETURN /\ f <> BEGINS_FUNCTIONAL_UNIT /\ f <> IS_IN_HOST_CONTEXT) as (?&?&?&?).
    { repeat (apply elem_of_cons in Hf as [->|Hf]; [done|]). by apply elem_of_nil in Hf. }
    destruct env_kernel; now rewrite !flag_with_flag_other by done.
Qed.

(** The page fault of a module, room in the cache of the processor, and a
    code cache that can resolve the address. *)
Record module_fault (st : int_state) (isf : interrupt_stack_frame) : Prop := {
  mf_valid : is_valid_address (instruction_pointer isf) = true;
  mf_canonical : canonical (instruction_pointer isf);
  mf_policy : policy_wf START_POLICY;
  mf_module : is_code_cache_address (instruction_pointer isf) = false /\
    is_wrapper_address (instruction_pointer isf) = false /\ is_gencode_address (instruction_pointer isf) = false /\
    is_app_address (instruction_pointer isf) = true;
  mf_cache : exists sf, CpuCache.cpu_wf sf (CpuCache.allocate_if_null (is_cpu_cache st)) /\ sf < 26 /\
    (0 < CpuCache.num_free (CpuCache.allocate_if_null (is_cpu_cache st)))%nat;
  mf_code_cache : cc_ok (is_cc st);
  mf_target : let target := mangled_address (instruction_pointer isf) module_policy in
    target <> 0 /\ base_address target <> 0 /\
    exists r, find_detach_target (unmangled_address target) (context (converted_policy target)) = Ret r
}.

Lemma allocate_if_null_idem c sf : CpuCache.cpu_wf sf c -> CpuCache.allocate_if_null c = c.
Proof. intros (_ & es & He & _). unfold CpuCache.allocate_if_null. by rewrite He. Qed.

(** C29 A module that the kernel calls without a wrapper faults on its first
    instruction and is resumed in the code cache: the handler answers with an
    [iret] to the code that [code_cache::find] returns for the module address,
    entered as the application at the beginning of a functional unit under
    the start policy ([module_entry]), or, when the cache of the processor has
    an entry for it, to what that cache remembers; and a later fault at the same address, as long as that cache
    has room, is resumed at the same code. *)
Theorem module_fault_resumes `{!EnvLaws (T := T) (W := W)} st isf :
  module_fault st isf ->
  exists st' code, handle_interrupt st isf VECTOR_PAGE_FAULT = Ret (st', set_ip code isf, INTERRUPT_IRET) /\ code <> 0 /\
    (exists target, module_entry (instruction_pointer isf) target /\
     ((exists cc', CodeCache.find (is_cc st) target = Ret (cc', code)) \/
      CpuCache.cpu_view (is_cpu_cache st) !! target = Some code)) /\
    ((0 < CpuCache.num_free (is_cpu_cache st'))%nat ->
     exists st'', handle_interrupt st' isf VECTOR_PAGE_FAULT = Ret (st'', set_ip code isf, INTERRUPT_IRET)).
Proof.
  intros [Hv Hcan Hpw (Hc & Hwr & Hg & Ha) (sf & Hwf & Hsf & Hfree) Hok (Ht & Hb & r & Hd)].
  set (target := mangled_address (instruction_pointer isf) module_policy) in *.
  assert (E : forall st0, handle_interrupt st0 isf VECTOR_PAGE_FAULT = handle_module_interrupt st0 isf).
  { intros st0. unfold handle_interrupt. by rewrite Hv, Hc, Hwr, Hg, Ha. }
  pose proof (module_policy_entry _ Hcan Hpw) as Hentry. fold target in Hentry.
  rewrite E. unfold handle_module_interrupt at 1. fold target.
  destruct (cpu_load_sound sf (is_cpu_cache st) target Hwf) as (v & El & Hl). rewrite El. cbn [mbind outcome_bind fst snd].
  destruct (Z.eqb_spec 0 v) as [_|Hv0]; cbn [negb].
  - destruct (find_repeatable (is_cc st) target r Hok Ht Hb Hd) as (cc' & code & Ef & Hcode & cc'' & Ef2 & _).
    rewrite Ef. cbn [mbind outcome_bind fst snd].
    destruct (cpu_store_spec (2 * length (CpuCache.slots (CpuCache.allocate_if_null (is_cpu_cache st)))) sf (is_cpu_cache st)
      target code HASH_OVERWRITE_PREV_ENTRY Hwf ltac:(lia) Hfree Ht) as (c' & b & sf' & Es & Hwf' & Hsf' & Hview & _); [lia|].
    rewrite Es. cbn [mbind outcome_bind fst snd]. eexists _, code. split; [reflexivity|]. split; [done|]. split; [exists target; split; [done|left; eauto]|].
    intros Hfree'. rewrite E. unfold handle_module_interrupt. fold target. cbn [is_cpu_cache is_cc with_caches] in *.
    pose proof (allocate_if_null_idem c' sf' Hwf') as Ea. rewrite <- Ea in Hwf', Hfree'.
    destruct (cpu_load_sound sf' c' target Hwf') as (v' & El' & Hl'). rewrite El'. cbn [mbind outcome_bind fst snd].
    destruct (Z.eqb_spec 0 v') as [_|Hv']; cbn [negb].
    + rewrite Ef2. cbn [mbind outcome_bind fst snd].
      destruct (cpu_store_spec (2 * length (CpuCache.slots (CpuCache.allocate_if_null c'))) sf' c' target code
        HASH_OVERWRITE_PREV_ENTRY Hwf' ltac:(lia) Hfree' Ht) as (c'' & b' & sf'' & -> & _); [lia|].
      eexists. reflexivity.
    + destruct Hl' as [->|Hl']; [done|]. rewrite Hview in Hl'. cbn [spec_store] in Hl'.
      rewrite lookup_insert_eq in Hl'. injection Hl' as <-. eexists. reflexivity.
  - exists st, v. split; [done|]. split; [done|]. split; [exists target; split; [done|right; by destruct Hl]|]. intros _. exists st. rewrite E. unfold handle_module_interrupt. fold target.
    rewrite El. cbn [mbind outcome_bind fst snd]. by destruct (Z.eqb_spec 0 v).
Qed.

End Handler.

(** ** Instances *)
Definition module_address : Z := 0xFFFFFFFFA0001000.

Definition sample_int_state : int_state (T := hash_table Z Z) (W := unit) :=
  {| is_cc := example_state; is_cpu_cache := CpuCache.empty_cache; last_exception_instruction_pointer := 0;
     last_exception_table_entry := 0 |}.

Definition module_isf : interrupt_stack_frame :=
  {| error_code := 16; instruction_pointer := module_address; segment_cs := 0x10; isf_flags := 0x202;
     stack_pointer := 0x10000; segment_ss := 0x18 |}.

(** Blocks, delays and clients are not reached here. *)
Abbreviation sample_handle := (handle_interrupt (H := kernel_config) (T := hash_table Z Z) (W := unit) false false
  (from_id 1) 0x500 0x600 (fun a => (0xFFFFFFFFA0000000 <=? a) && (a <? 0xFFFFFFFFB0000000)) 0 0 0
  (fun _ => Fault) (fun _ => 0) (fun _ => None) [] (fun _ => {| d_op := DR_cli; d_len := 1 |}) (fun _ _ _ => 0) 0 0
  (fun _ => 0) (fun _ isf _ => Ret (INTERRUPT_DEFER, isf)) (fun isf _ => Ret (INTERRUPT_DEFER, isf))).

Lemma sample_module_fault : module_fault (H := kernel_config) (from_id 1)
  (fun a => (0xFFFFFFFFA0000000 <=? a) && (a <? 0xFFFFFFFFB0000000)) sample_int_state module_isf.
Proof.
  constructor.
  - reflexivity.
  - split; [vm_compute; intuition congruence|reflexivity].
  - vm_compute; intuition congruence.
  - repeat split; reflexivity.
  - exists 7. split; [apply fresh_cache_wf|]. split; [lia|]. vm_compute. lia.
  - exact example_state_ok.
  - cbv zeta. split; [vm_compute; congruence|]. split; [vm_compute; congruence|]. exists 0. reflexivity.
Qed.

Lemma module_fault_resumes_witness :
  exists st' code, sample_handle sample_int_state module_isf VECTOR_PAGE_FAULT =
      Ret (st', set_ip code module_isf, INTERRUPT_IRET) /\ code <> 0.
Proof.
  pose proof (@example_env_laws kernel_config) as Hl.
  destruct (@module_fault_resumes kernel_config (hash_table Z Z) unit _ _ false false
    (from_id 1) 0x500 0x600 (fun a => (0xFFFFFFFFA0000000 <=? a) && (a <? 0xFFFFFFFFB0000000)) 0 0 0
    (fun _ => Fault) (fun _ => 0) (fun _ => None) [] (fun _ => {| d_op := DR_cli; d_len := 1 |}) (fun _ _ _ => 0) 0 0
    (fun _ => 0) (fun _ isf _ => Ret (INTERRUPT_DEFER, isf)) (fun isf _ => Ret (INTERRUPT_DEFER, isf)) Hl
    sample_int_state module_isf sample_module_fault) as (st' & code & E & Hc & _).
  exists st', code. split; [exact E|exact Hc].
Defined.

(** A page fault in the guarded access. *)
Definition access_isf : interrupt_stack_frame :=
  {| error_code := 0; instruction_pointer := 0xFFFF800000000500; segment_cs := 0x10; isf_flags := 0x202;
     stack_pointer := 0x10000; segment_ss := 0x18 |}.

Lemma handle_interrupt_resumes_witness :
  exists st' isf' s,
    handle_interrupt (H := kernel_config) (T := hash_table Z Z) (W := unit) false false (from_id 1)
      0xFFFF800000000500 0xFFFF800000000600 (fun _ => false) 0 0 0 (fun _ => Fault) (fun _ => 0) (fun _ => None) []
      (fun _ => {| d_op := DR_cli; d_len := 1 |}) (fun _ _ _ => 0) 0 0 (fun _ => 0)
      (fun _ isf _ => Ret (INTERRUPT_DEFER, isf)) (fun isf _ => Ret (INTERRUPT_DEFER, isf))
      sample_int_state access_isf VECTOR_PAGE_FAULT = Ret (st', isf', s) /\
    instruction_pointer isf' = 0xFFFF800000000600 /\ s = INTERRUPT_IRET /\ resumes access_isf isf'.
Proof.
  eexists _, _, _. split; [reflexivity|]. split; [reflexivity|]. split; [reflexivity|].
  eapply (@handle_interrupt_resumes kernel_config (hash_table Z Z) unit _ _ false false (from_id 1)
    0xFFFF800000000500 0xFFFF800000000600 (fun _ => false) 0 0 0 (fun _ => Fault) (fun _ => 0) (fun _ => None) []
    (fun _ => {| d_op := DR_cli; d_len := 1 |}) (fun _ _ _ => 0) 0 0 (fun _ => 0)
    (fun _ isf _ => Ret (INTERRUPT_DEFER, isf)) (fun isf _ => Ret (INTERRUPT_DEFER, isf))
    sample_int_state access_isf VECTOR_PAGE_FAULT); [|reflexivity].
  split.
  - intros p isf v s isf' [= _ <-]. apply resumes_refl.
  - intros isf v s isf' [= _ <-]. apply resumes_refl.
Defined.
