(* ===== verification/Idt.v ===== *)
(** * The interrupt descriptor table: [granary/kernel/interrupt.cc], [deps/drk/segment_descriptor.h]

    [create_idt] makes a copy of the table of the kernel in which the gates
    lead to the handlers of [Interrupt].  A descriptor takes two words; the
    address of the handler of a gate is spread over three fields of them.

    The theorems: the address fields are a round trip and leave the other
    fields alone; the new table differs from that of the kernel in the
    targets of gates only, which are the generated handlers for the vectors
    that Granary takes and the handlers of the kernel for the others; and
    asking again, for the table of the kernel or for the new one, gives the
    same table.

    This is the code of builds that do not instrument the kernel itself. *)

From Stdlib Require Import ZArith Lia Bool.
From stdpp Require Import base numbers list option.
From S2P Require Import Prelude Interrupt.

(** ** Descriptors *)
Inductive descriptor_class :=
  | DATA_SEGMENT_DESCRIPTOR
  | CODE_SEGMENT_DESCRIPTOR
  | SYSTEM_SEGMENT_DESCRIPTOR
  | GATE_DESCRIPTOR
  | NOT_PRESENT_DESCRIPTOR.

#[export] Instance descriptor_class_eq_dec : EqDecision descriptor_class.
Proof. solve_decision. Defined.

Definition SYSTEM_TYPE_CALL_GATE : Z := 0xC.
Definition SYSTEM_TYPE_INTERRUPT_GATE : Z := 0xE.
Definition SYSTEM_TYPE_TRAP_GATE : Z := 0xF.

Definition desc_present (d : Z) : bool := get_flag 47 d.
Definition desc_sbit (d : Z) : bool := get_flag 44 d.
Definition desc_system_type (d : Z) : Z := get_field 40 4 d.

Definition get_descriptor_kind (d : Z) : descriptor_class :=
  if negb (desc_present d) then NOT_PRESENT_DESCRIPTOR
  else if negb (desc_sbit d) then
    if (desc_system_type d =? SYSTEM_TYPE_CALL_GATE) || (desc_system_type d =? SYSTEM_TYPE_INTERRUPT_GATE) ||
       (desc_system_type d =? SYSTEM_TYPE_TRAP_GATE)
    then GATE_DESCRIPTOR else SYSTEM_SEGMENT_DESCRIPTOR
  else if negb (Z.land (Z.shiftl 1 (31 + 12)) d =? 0) then CODE_SEGMENT_DESCRIPTOR
  else DATA_SEGMENT_DESCRIPTOR.

(** A gate and the word behind it. *)
Definition get_gate_target_offset (gate extra : Z) : Z :=
  let low := get_field 0 16 gate in
  let middle := get_field 48 16 gate in
  let high := get_field 0 32 extra in
  Z.lor (Z.lor low (Z.shiftl middle 16)) (Z.shiftl high 32).

Definition set_gate_target_offset (gate extra offset : Z) : Z * Z :=
  (set_field 48 16 (u16 (Z.shiftr offset 16)) (set_field 0 16 (u16 offset) gate),
   set_field 0 32 (u32 (Z.shiftr offset 32)) extra).

(** ** The table *)
Record system_table_register := { limit : Z; base : Z }.

#[export] Instance system_table_register_eq_dec : EqDecision system_table_register.
Proof. solve_decision. Defined.

(** The static variables; [GLOBAL_IDT] as words. *)
Record idt_state := {
  PREV_IDTR : system_table_register;
  PREV_IDTR_GEN : system_table_register;
  GLOBAL_IDT : list Z;
  NATIVE_VECTOR_HANDLER : list Z;
  VECTOR_HANDLER : list Z
}.

(** [sizeof(interrupt_descriptor_table)], in words. *)
Definition IDT_WORDS : nat := 4096.

Definition initial_idt_state : idt_state :=
  {| PREV_IDTR := {| limit := 0; base := 0 |}; PREV_IDTR_GEN := {| limit := 0; base := 0 |};
     GLOBAL_IDT := replicate IDT_WORDS 0; NATIVE_VECTOR_HANDLER := replicate 256 0; VECTOR_HANDLER := replicate 256 0 |}.

Section Create.
(** [CONFIG_FEATURE_INTERRUPT_DELAY], [CONFIG_FEATURE_CLIENT_HANDLE_INTERRUPT],
    the address of [GLOBAL_IDT], the classifier of kernel addresses, and
    where [emit_interrupt_routine] puts the handler of a vector. *)
Context (interrupt_delay client_handle_interrupt : bool) (idt_base : Z) (is_host_address : Z -> bool).
Context (emit_interrupt_routine : Z -> Z -> Z).

(** Whether Granary takes the vector. *)
Definition takes_vector (i : Z) : bool :=
  if negb client_handle_interrupt && negb interrupt_delay then VECTOR_PAGE_FAULT =? i
  else negb (VECTOR_SYSCALL =? i) && negb (VECTOR_NMI =? i) && (i <=? 0xf0).

(** [memcpy] of [n] bytes over words that are zero. *)
Definition copy_words (words : list Z) (n : Z) : list Z :=
  let full := Z.to_nat (n / 8) in
  take full words ++
  (if n mod 8 =? 0 then [] else [wrap (8 * (n mod 8)) (nth full words 0)]).

Definition set_gate (idt : list Z) (i : nat) (target : Z) : outcome (list Z) :=
  g ← idx idt (2 * i);
  x ← idx idt (2 * i + 1);
  let gx := set_gate_target_offset g x target in
  idt ← set_idx idt (2 * i) gx.1;
  set_idx idt (2 * i + 1) gx.2.

(** One turn of the loop over the vectors. *)
Definition create_vector (native : list Z) (i : nat) (st : idt_state) : outcome idt_state :=
  i_vec ← idx (GLOBAL_IDT st) (2 * i);
  if bool_decide (get_descriptor_kind i_vec = GATE_DESCRIPTOR) then
    g ← idx native (2 * i);
    x ← idx native (2 * i + 1);
    let native_handler := get_gate_target_offset g x in
    if negb (is_host_address native_handler) then Ret st
    else
      known ← idx (NATIVE_VECTOR_HANDLER st) i;
      if native_handler =? known then
        handler ← idx (VECTOR_HANDLER st) i;
        ASSERT (negb (handler =? 0)) ≫= fun _ =>
        idt ← set_gate (GLOBAL_IDT st) i handler;
        Ret {| PREV_IDTR := PREV_IDTR st; PREV_IDTR_GEN := PREV_IDTR_GEN st; GLOBAL_IDT := idt;
               NATIVE_VECTOR_HANDLER := NATIVE_VECTOR_HANDLER st; VECTOR_HANDLER := VECTOR_HANDLER st |}
      else
        natives ← set_idx (NATIVE_VECTOR_HANDLER st) i native_handler;
        let target := if takes_vector (Z.of_nat i) then emit_interrupt_routine (Z.of_nat i) native_handler
                      else native_handler in
        handlers ← set_idx (VECTOR_HANDLER st) i target;
        idt ← set_gate (GLOBAL_IDT st) i target;
        Ret {| PREV_IDTR := PREV_IDTR st; PREV_IDTR_GEN := PREV_IDTR_GEN st; GLOBAL_IDT := idt;
               NATIVE_VECTOR_HANDLER := natives; VECTOR_HANDLER := handlers |}
  else Ret st.

Fixpoint create_vectors (native : list Z) (vectors : list nat) (st : idt_state) : outcome idt_state :=
  match vectors with
  | [] => Ret st
  | i :: vectors => st ← create_vector native i st; create_vectors native vectors st
  end.

(** [native] is the register, [native_words] the table it refers to. *)
Definition create_idt (native : system_table_register) (native_words : list Z) (st : idt_state)
    : outcome (idt_state * system_table_register) :=
  if base native =? base (PREV_IDTR_GEN st) then Ret (st, PREV_IDTR_GEN st)
  else if (base native =? base (PREV_IDTR st)) && (limit native =? limit (PREV_IDTR st)) then Ret (st, PREV_IDTR_GEN st)
  else
    ASSERT (base (PREV_IDTR st) =? 0) ≫= fun _ =>
    let copied := if base native =? 0 then [] else copy_words native_words (limit native + 1) in
    ASSERT (bool_decide (length copied <= IDT_WORDS)%nat) ≫= fun _ =>
    let st := {| PREV_IDTR := native; PREV_IDTR_GEN := PREV_IDTR_GEN st;
                 GLOBAL_IDT := copied ++ replicate (IDT_WORDS - length copied) 0;
                 NATIVE_VECTOR_HANDLER := NATIVE_VECTOR_HANDLER st; VECTOR_HANDLER := VECTOR_HANDLER st |} in
    let num_vecs := Z.to_nat ((limit native + 1) / 16) in
    st ← create_vectors native_words (seq 0 num_vecs) st;
    let instrumented := {| limit := limit native; base := idt_base |} in
    Ret ({| PREV_IDTR := PREV_IDTR st; PREV_IDTR_GEN := instrumented; GLOBAL_IDT := GLOBAL_IDT st;
            NATIVE_VECTOR_HANDLER := NATIVE_VECTOR_HANDLER st; VECTOR_HANDLER := VECTOR_HANDLER st |}, instrumented).

End Create.

(** ** Lemmas: gates *)
Lemma assemble_offset offset :
  in_width 64 offset ->
  Z.lor (Z.lor (u16 offset) (Z.shiftl (u16 (Z.shiftr offset 16)) 16)) (Z.shiftl (u32 (Z.shiftr offset 32)) 32) = offset.
Proof.
  intros Ho. apply Z.bits_inj'. intros i Hi. rewrite !Z.lor_spec, !Z.shiftl_spec by lia. unfold wrap.
  destruct (Z.lt_ge_cases i 16); [|destruct (Z.lt_ge_cases i 32); [|destruct (Z.lt_ge_cases i 64)]].
  - rewrite Z.mod_pow2_bits_low, !(Z.testbit_neg_r _ (i - _)) by lia. by rewrite !orb_false_r.
  - rewrite (Z.mod_pow2_bits_high offset), Z.mod_pow2_bits_low, (Z.testbit_neg_r _ (i - 32)), Z.shiftr_spec by lia.
    rewrite orb_false_r. cbn [orb]. f_equal. lia.
  - rewrite (Z.mod_pow2_bits_high offset), (Z.mod_pow2_bits_high (Z.shiftr offset 16)), Z.mod_pow2_bits_low, Z.shiftr_spec by lia.
    cbn [orb]. f_equal. lia.
  - rewrite !Z.mod_pow2_bits_high by lia. symmetry. by apply (testbit_high 64).
Qed.

Lemma gate_offset_set gate extra offset :
  in_width 64 offset ->
  get_gate_target_offset (set_gate_target_offset gate extra offset).1 (set_gate_target_offset gate extra offset).2 = offset.
Proof.
  intros Ho. unfold get_gate_target_offset, set_gate_target_offset. cbn [fst snd].
  rewrite (get_set_field_other 0 16 48 16), !get_set_field_same, !wrap_wrap by lia. by apply assemble_offset.
Qed.

(** The other fields. *)
Lemma gate_set_other gate extra offset lo w :
  0 <= lo -> 0 <= w -> 16 <= lo -> lo + w <= 48 ->
  get_field lo w (set_gate_target_offset gate extra offset).1 = get_field lo w gate.
Proof.
  intros. unfold set_gate_target_offset. cbn [fst]. by rewrite !get_set_field_other by lia.
Qed.

Lemma gate_set_kind gate extra offset :
  get_descriptor_kind (set_gate_target_offset gate extra offset).1 = get_descriptor_kind gate.
Proof.
  unfold get_descriptor_kind, desc_present, desc_sbit, desc_system_type.
  assert (E : forall i, 16 <= i < 48 -> get_flag i (set_gate_target_offset gate extra offset).1 = get_flag i gate).
  { intros i Hi. unfold set_gate_target_offset. cbn [fst]. by rewrite !get_flag_set_field_other by lia. }
  rewrite !E, gate_set_other by lia.
  assert (El : forall d, (Z.land (Z.shiftl 1 (31 + 12)) d =? 0) = negb (get_flag 43 d)).
  { intros d. unfold get_flag. destruct (Z.testbit d 43) eqn:Eb; cbn [negb].
    - apply Z.eqb_neq. intros E0. apply (f_equal (fun z => Z.testbit z 43)) in E0.
      rewrite Z.land_spec, Eb, Z.bits_0 in E0. discriminate E0.
    - apply Z.eqb_eq. apply Z.bits_inj'. intros i Hi. rewrite Z.land_spec, Z.bits_0. change (Z.shiftl 1 (31 + 12)) with (2 ^ 43).
      rewrite Z.pow2_bits_eqb by lia. destruct (Z.eqb_spec 43 i) as [<-|]; [by rewrite Eb|done]. }
  by rewrite !El, !E by lia.
Qed.

(** ** Lemmas: the loop *)
Section Loop.
Context (interrupt_delay client_handle_interrupt : bool) (idt_base : Z) (is_host_address : Z -> bool).
Context (emit_interrupt_routine : Z -> Z -> Z) (native : list Z) (n : nat).

Definition vector_target (i : nat) (handler : Z) : Z :=
  if takes_vector interrupt_delay client_handle_interrupt (Z.of_nat i)
  then emit_interrupt_routine (Z.of_nat i) handler else handler.

(** The handler of the kernel that is replaced, if any. *)
Definition replaced (g x : Z) : bool :=
  bool_decide (get_descriptor_kind g = GATE_DESCRIPTOR) && is_host_address (get_gate_target_offset g x).

Definition new_vector (i : nat) (g x : Z) : Z * Z :=
  if replaced g x then set_gate_target_offset g x (vector_target i (get_gate_target_offset g x)) else (g, x).

(** The table of the kernel has [n] vectors; null is not one of its
    handlers. *)
Record native_table : Prop := {
  nt_vectors : (n <= 256)%nat;
  nt_words : length native = (2 * n)%nat;
  nt_null : is_host_address 0 = false
}.

(** The state when the first [k] vectors are done. *)
Record done_upto (k : nat) (st : idt_state) : Prop := {
  du_len : length (GLOBAL_IDT st) = IDT_WORDS /\ length (NATIVE_VECTOR_HANDLER st) = 256%nat /\
    length (VECTOR_HANDLER st) = 256%nat;
  du_done : forall i g x, (i < k)%nat -> native !! (2 * i)%nat = Some g -> native !! (2 * i + 1)%nat = Some x ->
    GLOBAL_IDT st !! (2 * i)%nat = Some (new_vector i g x).1 /\
    GLOBAL_IDT st !! (2 * i + 1)%nat = Some (new_vector i g x).2 /\
    (replaced g x = true -> VECTOR_HANDLER st !! i = Some (vector_target i (get_gate_target_offset g x)));
  du_rest : forall j, (2 * k <= j < 2 * n)%nat -> GLOBAL_IDT st !! j = native !! j;
  du_fresh : forall i, (k <= i < 256)%nat -> NATIVE_VECTOR_HANDLER st !! i = Some 0
}.

Lemma idx_some {A} (l : list A) i x : l !! i = Some x -> idx l i = Ret x.
Proof. unfold idx. by intros ->. Qed.

Lemma set_idx_some {A} (l : list A) i x : (i < length l)%nat -> set_idx l i x = Ret (<[i := x]> l).
Proof. intros. unfold set_idx. by rewrite bool_decide_true. Qed.

Lemma set_gate_ok idt i g x target :
  idt !! (2 * i)%nat = Some g -> idt !! (2 * i + 1)%nat = Some x ->
  set_gate idt i target = Ret (<[(2 * i + 1)%nat := (set_gate_target_offset g x target).2]>
    (<[(2 * i)%nat := (set_gate_target_offset g x target).1]> idt)).
Proof.
  intros Hg Hx. unfold set_gate. rewrite (idx_some _ _ _ Hg). cbn [mbind outcome_bind]. rewrite (idx_some _ _ _ Hx).
  cbn [mbind outcome_bind]. apply lookup_lt_Some in Hg, Hx. rewrite set_idx_some by done. cbn [mbind outcome_bind].
  by rewrite set_idx_some by (rewrite length_insert; done).
Qed.

Lemma create_vector_ok k st :
  native_table -> (k < n)%nat -> done_upto k st ->
  exists st', create_vector interrupt_delay client_handle_interrupt is_host_address emit_interrupt_routine native k st =
      Ret st' /\ done_upto (S k) st' /\ PREV_IDTR st' = PREV_IDTR st /\ PREV_IDTR_GEN st' = PREV_IDTR_GEN st.
Proof.
  intros [Hn Hw Hnull] Hk [(L1 & L2 & L3) Hd Hr Hf].
  destruct (lookup_lt_is_Some_2 native (2 * k)) as [g Hg]; [lia|].
  destruct (lookup_lt_is_Some_2 native (2 * k + 1)) as [x Hx]; [lia|].
  pose proof (Hr (2 * k)%nat ltac:(lia)) as Rg. pose proof (Hr (2 * k + 1)%nat ltac:(lia)) as Rx. rewrite Hg in Rg. rewrite Hx in Rx.
  unfold create_vector. rewrite (idx_some _ _ _ Rg). cbn [mbind outcome_bind].
  assert (Same : replaced g x = false -> done_upto (S k) st).
  { intros Er. constructor; [done| |intros j Hj; apply Hr; lia|intros i Hi; apply Hf; lia].
    intros i g' x' Hi Hg' Hx'. destruct (decide (i = k)) as [->|Hne]; [|apply Hd; [lia|done..]].
    rewrite Hg in Hg'. rewrite Hx in Hx'. injection Hg' as <-. injection Hx' as <-. unfold new_vector. by rewrite Er. }
  case_bool_decide as Hgate.
  2: { exists st. split; [done|]. split; [|done]. apply Same. unfold replaced. by rewrite bool_decide_false. }
  rewrite (idx_some _ _ _ Hg). cbn [mbind outcome_bind]. rewrite (idx_some _ _ _ Hx). cbn [mbind outcome_bind].
  set (h := get_gate_target_offset g x). destruct (is_host_address h) eqn:Eh; cbn [negb].
  2: { exists st. split; [done|]. split; [|done]. apply Same. unfold replaced. fold h. by rewrite Eh, andb_false_r. }
  rewrite (idx_some _ _ _ (Hf k ltac:(lia))). cbn [mbind outcome_bind].
  destruct (Z.eqb_spec h 0) as [E0|H0]; [congruence|].
  rewrite set_idx_some by lia. cbn [mbind outcome_bind]. rewrite set_idx_some by lia. cbn [mbind outcome_bind].
  fold (vector_target k h). rewrite (set_gate_ok _ _ _ _ _ Rg Rx). cbn [mbind outcome_bind].
  eexists. split; [reflexivity|]. split; [|done].
  assert (Er : replaced g x = true) by (unfold replaced; fold h; by rewrite bool_decide_true, Eh).
  constructor; cbn [GLOBAL_IDT NATIVE_VECTOR_HANDLER VECTOR_HANDLER].
  - rewrite !length_insert. done.
  - intros i g' x' Hi Hg' Hx'. destruct (decide (i = k)) as [->|Hne].
    + rewrite Hg in Hg'. rewrite Hx in Hx'. injection Hg' as <-. injection Hx' as <-. unfold new_vector. rewrite Er. fold h.
      rewrite list_lookup_insert_ne by lia. apply lookup_lt_Some in Rg, Rx.
      rewrite !list_lookup_insert_eq by (rewrite ?length_insert; lia). done.
    + rewrite !list_lookup_insert_ne by lia. apply Hd; [lia|done..].
  - intros j Hj. rewrite !list_lookup_insert_ne by lia. apply Hr. lia.
  - intros i Hi. rewrite list_lookup_insert_ne by lia. apply Hf. lia.
Qed.

Lemma create_vectors_ok : forall m k st,
  native_table -> (k + m = n)%nat -> done_upto k st ->
  exists st', create_vectors interrupt_delay client_handle_interrupt is_host_address emit_interrupt_routine native (seq k m) st =
      Ret st' /\ done_upto n st' /\ PREV_IDTR st' = PREV_IDTR st /\ PREV_IDTR_GEN st' = PREV_IDTR_GEN st.
Proof.
  induction m as [|m IH]; intros k st Ht Hk Hd; cbn [seq create_vectors].
  - exists st. replace k with n in Hd by lia. done.
  - destruct (create_vector_ok k st Ht ltac:(lia) Hd) as (st1 & -> & Hd1 & P1 & P2). cbn [mbind outcome_bind].
    destruct (IH (S k) st1 Ht ltac:(lia) Hd1) as (st2 & -> & Hd2 & P3 & P4). exists st2. split; [done|]. split; [done|]. split; congruence.
Qed.

End Loop.

(** ** Theorems *)

(** Replacing the target of a gate is a round trip: the new target is read
    back, the kind of the descriptor and every field between the two parts of
    the target (selector, stack index, type, access) stay, and so does the
    reserved half of the second word. *)
Theorem gate_target_roundtrip gate extra offset :
  in_width 64 offset ->
  let g := set_gate_target_offset gate extra offset in
  get_gate_target_offset g.1 g.2 = offset /\ get_descriptor_kind g.1 = get_descriptor_kind gate /\
  get_field 16 32 g.1 = get_field 16 32 gate /\ get_field 32 32 g.2 = get_field 32 32 extra.
Proof.
  intros Ho g. unfold g. split; [by apply gate_offset_set|]. split; [apply gate_set_kind|].
  split; [apply gate_set_other; lia|]. unfold set_gate_target_offset. cbn [snd]. apply get_set_field_other; lia.
Qed.

Definition sample_gate : Z := 0x81008E0000101000.

Lemma gate_target_roundtrip_witness :
  let g := set_gate_target_offset sample_gate 0xFFFFFFFF 0xFFFFFFFFA0001234 in
  get_gate_target_offset g.1 g.2 = 0xFFFFFFFFA0001234 /\ get_descriptor_kind g.1 = GATE_DESCRIPTOR.
Proof.
  destruct (gate_target_roundtrip sample_gate 0xFFFFFFFF 0xFFFFFFFFA0001234) as (H1 & H2 & _); [split; lia|].
  split; [exact H1|]. exact H2.
Defined.

(** The table that Granary installs.  From the initial state and a table of
    [n] vectors, [create_idt] returns a register with the same limit for its
    own table.  A vector of that table whose descriptor is a gate to kernel
    code leads to the handler generated for it, if Granary takes the vector,
    and to the handler of the kernel otherwise; every other descriptor is
    that of the kernel.  Asked again, for the table of the kernel or for its
    own, [create_idt] returns the same register and changes nothing. *)
Theorem create_idt_replaces_gates delay client idt_base is_host emit native words n :
  native_table is_host words n -> limit native + 1 = 16 * Z.of_nat n -> base native <> 0 -> base native <> idt_base ->
  idt_base <> 0 ->
  exists st reg,
    create_idt delay client idt_base is_host emit native words initial_idt_state = Ret (st, reg) /\
    limit reg = limit native /\ base reg = idt_base /\
    (forall i g x, (i < n)%nat -> words !! (2 * i)%nat = Some g -> words !! (2 * i + 1)%nat = Some x ->
      GLOBAL_IDT st !! (2 * i)%nat = Some (new_vector delay client is_host emit i g x).1 /\
      GLOBAL_IDT st !! (2 * i + 1)%nat = Some (new_vector delay client is_host emit i g x).2) /\
    (forall words', create_idt delay client idt_base is_host emit native words' st = Ret (st, reg)) /\
    (forall words', create_idt delay client idt_base is_host emit reg words' st = Ret (st, reg)).
Proof.
  intros Ht Hl Hb Hne Hi. pose proof Ht as [Hn Hw Hnull].
  assert (Ecopy : copy_words words (limit native + 1) = words).
  { unfold copy_words. rewrite Hl. replace (16 * Z.of_nat n) with (2 * Z.of_nat n * 8) by lia.
    rewrite Z.div_mul, Z.mod_mul by lia. cbn. rewrite app_nil_r. apply take_ge. lia. }
  unfold create_idt at 1. cbn [PREV_IDTR_GEN PREV_IDTR initial_idt_state base].
  rewrite (proj2 (Z.eqb_neq (base native) 0)) by done. cbn [andb]. rewrite Ecopy. cbn [ASSERT Z.eqb mbind outcome_bind].
  rewrite bool_decide_true by (unfold IDT_WORDS; lia). cbn [ASSERT mbind outcome_bind].
  replace (Z.to_nat ((limit native + 1) / 16)) with n by (rewrite Hl, Z.mul_comm, Z.div_mul by lia; lia).
  set (st0 := {| PREV_IDTR := native; PREV_IDTR_GEN := _; GLOBAL_IDT := _; NATIVE_VECTOR_HANDLER := _; VECTOR_HANDLER := _ |}).
  destruct (create_vectors_ok delay client is_host emit words n n 0 st0 Ht eq_refl) as (st1 & -> & Hd & P1 & P2).
  { constructor; cbn [GLOBAL_IDT NATIVE_VECTOR_HANDLER VECTOR_HANDLER st0].
    - cbn [NATIVE_VECTOR_HANDLER VECTOR_HANDLER initial_idt_state]. rewrite length_app, !length_replicate.
      split; [unfold IDT_WORDS; lia|done].
    - intros i g x Hi0. lia.
    - intros j Hj. rewrite lookup_app_l by lia. done.
    - intros i Hi0. apply lookup_replicate. split; [done|lia]. }
  cbn [mbind outcome_bind]. eexists _, _. split; [reflexivity|]. cbn [limit base GLOBAL_IDT]. split; [done|]. split; [done|].
  split; [intros i g x Hi0 Hg Hx; destruct (du_done _ _ _ _ _ _ _ _ Hd i g x Hi0 Hg Hx) as (? & ? & _); done|].
  split; intros words'; unfold create_idt; cbn [PREV_IDTR_GEN PREV_IDTR base limit].
  - rewrite (proj2 (Z.eqb_neq (base native) idt_base)) by done. rewrite P1. cbn [st0 PREV_IDTR]. by rewrite !Z.eqb_refl.
  - by rewrite Z.eqb_refl.
Qed.

(** A table of one gate and one empty descriptor. *)
Definition sample_words : list Z := [sample_gate; 0xFFFFFFFF; 0; 0].

Lemma create_idt_replaces_gates_witness :
  exists st reg,
    create_idt false true 0x9000 (fun a => 0xFFFFFFFF80000000 <=? a) (fun v _ => 0xFFFFFFFFA0000000 + 64 * v)
      {| limit := 31; base := 0x8000 |} sample_words initial_idt_state = Ret (st, reg) /\ base reg = 0x9000 /\
    GLOBAL_IDT st !! 0%nat = Some 0xA0008E0000100000 /\ GLOBAL_IDT st !! 2%nat = Some 0.
Proof.
  destruct (create_idt_replaces_gates false true 0x9000 (fun a => 0xFFFFFFFF80000000 <=? a)
    (fun v _ => 0xFFFFFFFFA0000000 + 64 * v) {| limit := 31; base := 0x8000 |} sample_words 2)
    as (st & reg & E & _ & Hb & Hv & _).
  - constructor; [lia|reflexivity|reflexivity].
  - reflexivity.
  - discriminate.
  - discriminate.
  - discriminate.
  - exists st, reg. split; [exact E|]. split; [exact Hb|].
    destruct (Hv 0%nat sample_gate 0xFFFFFFFF ltac:(lia) eq_refl eq_refl) as [H0 _].
    destruct (Hv 1%nat 0 0 ltac:(lia) eq_refl eq_refl) as [H2 _]. split; [exact H0|exact H2].
Defined.
