(* ===== verification/DList.v ===== *)
(** * Doubly linked lists: [instruction_list] and [list<T>]

    [granary/instruction.cc] links DynamoRIO instructions in place through
    their [prev] and [next] fields; [granary/list.h] is the generic list with
    a cache of released items.  Both are modelled over a shared store of
    nodes, so several lists live in one store and an operation on one may in
    principle disturb another.

    The theorems: the operations refine the operations of finite sequences,
    keep every node outside the list untouched, and meet all assertions of
    the code. *)

From Stdlib Require Import ZArith Lia.
From stdpp Require Import base numbers list option gmap relations.
From S2P Require Import Prelude Utils.

(** ** Nodes *)
Record node := { prev : Z; next : Z }.
Abbreviation heap := (gmap Z node).

Definition get (m : heap) (x : Z) : outcome node :=
  match m !! x with Some n => Ret n | None => Fault end.

Definition set_prev (x v : Z) (m : heap) : outcome heap :=
  n ← get m x; Ret (<[x := {| prev := v; next := next n |}]> m).

Definition set_next (x v : Z) (m : heap) : outcome heap :=
  n ← get m x; Ret (<[x := {| prev := prev n; next := v |}]> m).

(** ** Segments

    [dseg m p ids n]: the nodes [ids] are linked in this order, [p] precedes
    and [n] follows them. *)
Fixpoint dseg (m : heap) (p : Z) (ids : list Z) (n : Z) : Prop :=
  match ids with
  | [] => True
  | x :: xs => m !! x = Some {| prev := p; next := hd n xs |} /\ dseg m x xs n
  end.

Lemma hd_app (n : Z) a b : hd n (a ++ b) = hd (hd n b) a.
Proof. by destruct a. Qed.

Lemma last_cons (d x : Z) l : List.last (x :: l) d = List.last l x.
Proof.
  revert x d. induction l as [|y l IH]; intros x d; [done|].
  change (List.last (x :: y :: l) d) with (List.last (y :: l) d). by rewrite !IH.
Qed.

Lemma dseg_app m a : forall p b n,
  dseg m p (a ++ b) n <-> dseg m p a (hd n b) /\ dseg m (List.last a p) b n.
Proof.
  induction a as [|x a IH]; intros p b n; [cbn; tauto|].
  rewrite <- app_comm_cons. cbn [dseg]. rewrite IH, hd_app, last_cons. tauto.
Qed.

Lemma dseg_frame m x v ids : forall p n, x ∉ ids -> dseg (<[x := v]> m) p ids n <-> dseg m p ids n.
Proof.
  induction ids as [|y ids IH]; intros p n Hx; [done|]. cbn [dseg].
  apply not_elem_of_cons in Hx as [Hxy Hx]. rewrite IH by done. by rewrite lookup_insert_ne.
Qed.

Lemma dseg_ext m m' ids : forall p n,
  (forall x, x ∈ ids -> m' !! x = m !! x) -> dseg m p ids n -> dseg m' p ids n.
Proof.
  induction ids as [|y ids IH]; intros p n Hx; [done|]. cbn [dseg]. intros [H1 H2].
  split; [rewrite Hx by left; done|]. apply IH; [|done]. intros x ?. apply Hx. by right.
Qed.

(** Writing one field of a node that exists. *)
Definition with_prev (x v : Z) (m : heap) : heap := alter (fun n => {| prev := v; next := next n |}) x m.
Definition with_next (x v : Z) (m : heap) : heap := alter (fun n => {| prev := prev n; next := v |}) x m.

Lemma get_ret (m : heap) x n : m !! x = Some n -> get m x = Ret n.
Proof. intros E. unfold get. by rewrite E. Qed.

Lemma alter_as_insert (f : node -> node) (x : Z) n (m : heap) : m !! x = Some n -> alter f x m = <[x := f n]> m.
Proof.
  intros E. apply map_eq. intros y. destruct (decide (x = y)) as [<-|Hne].
  - by rewrite lookup_alter_eq, lookup_insert_eq, E.
  - by rewrite lookup_alter_ne, lookup_insert_ne.
Qed.

Lemma set_prev_ret x v m : is_Some (m !! x) -> set_prev x v m = Ret (with_prev x v m).
Proof.
  intros [n E]. unfold set_prev. rewrite (get_ret m x n E). cbn [mbind outcome_bind].
  unfold with_prev. by rewrite (alter_as_insert _ x n m E).
Qed.

Lemma set_next_ret x v m : is_Some (m !! x) -> set_next x v m = Ret (with_next x v m).
Proof.
  intros [n E]. unfold set_next. rewrite (get_ret m x n E). cbn [mbind outcome_bind].
  unfold with_next. by rewrite (alter_as_insert _ x n m E).
Qed.

Lemma lookup_with_prev m x v y :
  with_prev x v m !! y = (if decide (x = y) then (fun n => {| prev := v; next := next n |}) <$> m !! y
                          else m !! y).
Proof. unfold with_prev. case_decide as E; [subst; apply lookup_alter_eq|by apply lookup_alter_ne]. Qed.

Lemma lookup_with_next m x v y :
  with_next x v m !! y = (if decide (x = y) then (fun n => {| prev := prev n; next := v |}) <$> m !! y
                          else m !! y).
Proof. unfold with_next. case_decide as E; [subst; apply lookup_alter_eq|by apply lookup_alter_ne]. Qed.

(** Solve a lookup in a store updated by [with_prev] and [with_next]. *)
Ltac lookup_tac :=
  repeat (rewrite lookup_with_prev || rewrite lookup_with_next); repeat case_decide; simplify_eq;
  repeat match goal with E : ?m !! ?x = Some _ |- context [?m !! ?x] => rewrite E end.

Lemma dseg_lookup m p a x b n : dseg m p (a ++ x :: b) n ->
  m !! x = Some {| prev := List.last a p; next := hd n b |}.
Proof. intros [_ [Hx _]]%dseg_app. done. Qed.

Lemma dseg_is_Some m p ids n x : dseg m p ids n -> x ∈ ids -> is_Some (m !! x).
Proof. intros Hd (a & b & ->)%list_elem_of_split. apply dseg_lookup in Hd. eauto. Qed.

(** Redirecting the end of a segment. *)
Lemma dseg_with_next m p a y n v : dseg m p (a ++ [y]) n -> y ∉ a ->
  dseg (with_next y v m) p (a ++ [y]) v.
Proof.
  intros [Ha [Hy _]]%dseg_app Hn. apply dseg_app. split; [|split; [|done]].
  - eapply dseg_ext; [|exact Ha]. intros x Hx. rewrite lookup_with_next.
    case_decide; [by subst|done].
  - rewrite lookup_with_next, Hy. by case_decide.
Qed.

Lemma dseg_with_prev m p y b n v : dseg m p (y :: b) n -> y ∉ b -> dseg (with_prev y v m) v (y :: b) n.
Proof.
  intros [Hy Hb] Hn. split.
  - rewrite lookup_with_prev, Hy. by case_decide.
  - eapply dseg_ext; [|exact Hb]. intros x Hx. rewrite lookup_with_prev. case_decide; [by subst|done].
Qed.

Lemma dseg_with_next_frame m p ids n x v : dseg m p ids n -> x ∉ ids -> dseg (with_next x v m) p ids n.
Proof.
  intros Hd Hx. eapply dseg_ext; [|exact Hd]. intros y Hy. rewrite lookup_with_next.
  case_decide; [by subst|done].
Qed.

Lemma dseg_with_prev_frame m p ids n x v : dseg m p ids n -> x ∉ ids -> dseg (with_prev x v m) p ids n.
Proof.
  intros Hd Hx. eapply dseg_ext; [|exact Hd]. intros y Hy. rewrite lookup_with_prev.
  case_decide; [by subst|done].
Qed.

Lemma with_next_is_Some m x v y : is_Some (m !! y) -> is_Some (with_next x v m !! y).
Proof. rewrite lookup_with_next. case_decide; [|done]. by rewrite fmap_is_Some. Qed.

Lemma with_prev_is_Some m x v y : is_Some (m !! y) -> is_Some (with_prev x v m !! y).
Proof. rewrite lookup_with_prev. case_decide; [|done]. by rewrite fmap_is_Some. Qed.

#[export] Hint Resolve with_next_is_Some with_prev_is_Some dseg_with_next_frame dseg_with_prev_frame : granary.

(** ** Linking a node into a list

    The writes that put [x] behind the last, before the first, or between two
    nodes of a list. *)
Definition link_last (m : heap) (ids : list Z) (x : Z) : heap :=
  let m := with_next x 0 (with_prev x (List.last ids 0) m) in
  match ids with [] => m | _ => with_next (List.last ids 0) x m end.

Definition link_first (m : heap) (ids : list Z) (x : Z) : heap :=
  let m := with_prev x 0 (with_next x (hd 0 ids) m) in
  match ids with [] => m | y :: _ => with_prev y x m end.

Definition link_between (m : heap) (y x z : Z) : heap :=
  with_prev z x (with_next x z (with_next y x (with_prev x y m))).

Lemma link_last_seg m ids x :
  is_Some (m !! x) -> x ∉ ids -> NoDup ids -> dseg m 0 ids 0 -> dseg (link_last m ids x) 0 (ids ++ [x]) 0.
Proof.
  intros [n Hx] Hni Hnd Hd. unfold link_last. set (m1 := with_next x 0 (with_prev x (List.last ids 0) m)).
  assert (Hx1 : m1 !! x = Some {| prev := List.last ids 0; next := 0 |}) by (unfold m1; lookup_tac; done).
  assert (Hd1 : dseg m1 0 ids 0) by (apply dseg_with_next_frame; [apply dseg_with_prev_frame|]; done).
  apply dseg_app. cbn [hd]. destruct ids as [|y ids _] using rev_ind; [split; [done|]; split; done|].
  replace (match ids ++ [y] with [] => m1 | _ :: _ => with_next (List.last (ids ++ [y]) 0) x m1 end) with (with_next y x m1)
    by (rewrite List.last_last; by destruct ids).
  rewrite List.last_last in *. apply NoDup_app in Hnd as (_ & Hnd & _). apply not_elem_of_app in Hni as [Hxi Hxy].
  split; [eapply dseg_with_next; [done|intros Hy; by apply (Hnd y Hy), list_elem_of_singleton]|].
  split; [|done]. rewrite lookup_with_next. case_decide as E; [|done]. subst. exfalso. apply Hxy. left.
Qed.

Lemma link_last_other m ids x y : y ∉ x :: ids -> link_last m ids x !! y = m !! y.
Proof.
  intros [Hyx Hyi]%not_elem_of_cons. unfold link_last.
  assert (H1 : with_next x 0 (with_prev x (List.last ids 0) m) !! y = m !! y) by (lookup_tac; done).
  destruct ids as [|z ids _] using rev_ind; [done|]. rewrite List.last_last in *.
  replace (match ids ++ [z] with [] => _ | _ :: _ => with_next z x _ end)
    with (with_next z x (with_next x 0 (with_prev x z m))) by (by destruct ids).
  rewrite lookup_with_next. case_decide as E; [|done]. subst y. exfalso. apply Hyi, elem_of_app. right. left.
Qed.

Lemma link_first_seg m ids x :
  is_Some (m !! x) -> x ∉ ids -> NoDup ids -> dseg m 0 ids 0 -> dseg (link_first m ids x) 0 (x :: ids) 0.
Proof.
  intros [n Hx] Hni Hnd Hd. unfold link_first. set (m1 := with_prev x 0 (with_next x (hd 0 ids) m)).
  assert (Hx1 : m1 !! x = Some {| prev := 0; next := hd 0 ids |}) by (unfold m1; lookup_tac; done).
  assert (Hd1 : dseg m1 0 ids 0) by (apply dseg_with_prev_frame; [apply dseg_with_next_frame|]; done).
  destruct ids as [|y ids]; [done|]. apply not_elem_of_cons in Hni as [Hxy Hxi]. split.
  - rewrite lookup_with_prev. by case_decide.
  - apply (dseg_with_prev m1 0 y ids 0 x Hd1). by apply NoDup_cons in Hnd as [? _].
Qed.

Lemma link_first_other m ids x y : y ∉ x :: ids -> link_first m ids x !! y = m !! y.
Proof.
  intros [Hyx Hyi]%not_elem_of_cons. unfold link_first.
  assert (H1 : with_prev x 0 (with_next x (hd 0 ids) m) !! y = m !! y) by (lookup_tac; done).
  destruct ids as [|z ids]; [done|]. rewrite lookup_with_prev. case_decide as E; [|done].
  subst y. exfalso. apply Hyi. left.
Qed.

Lemma link_between_seg m a y z b x :
  is_Some (m !! x) -> x ∉ (a ++ [y]) ++ z :: b -> NoDup ((a ++ [y]) ++ z :: b) ->
  dseg m 0 ((a ++ [y]) ++ z :: b) 0 -> dseg (link_between m y x z) 0 ((a ++ [y]) ++ x :: z :: b) 0.
Proof.
  intros [n Hx] Hni Hnd Hd. apply not_elem_of_app in Hni as [Hna Hnb].
  pose proof Hna as Hna'. apply not_elem_of_app in Hna' as [Hxa Hxy]. rewrite list_elem_of_singleton in Hxy.
  pose proof Hnb as Hnb'. apply not_elem_of_cons in Hnb' as [Hxz Hxb].
  apply NoDup_app in Hnd as (Hnda & Hdis & Hndb).
  assert (Hyb : y ∉ z :: b) by (apply Hdis, elem_of_app; right; left).
  assert (Hza : z ∉ a ++ [y]) by (intros Hc; apply (Hdis z Hc); left).
  apply NoDup_cons in Hndb as [Hzb _].
  assert (Hya : y ∉ a).
  { apply NoDup_app in Hnda as (_ & Hc & _). intros Hy'. apply (Hc y Hy'). left. }
  apply dseg_app in Hd as [Hda Hdb]. rewrite List.last_last in Hdb.
  apply dseg_app. rewrite List.last_last. cbn [hd]. unfold link_between. split; [|split].
  - apply dseg_with_prev_frame; [|done]. apply dseg_with_next_frame; [|done].
    eapply dseg_with_next; [|done]. by apply dseg_with_prev_frame.
  - lookup_tac; done.
  - eapply dseg_with_prev; [|done]. apply dseg_with_next_frame; [|done].
    apply dseg_with_next_frame; [|done]. by apply dseg_with_prev_frame.
Qed.

Lemma link_between_other m y x z w : w <> x -> w <> y -> w <> z -> link_between m y x z !! w = m !! w.
Proof. intros. unfold link_between. lookup_tac; done. Qed.

(** ** [instruction_list] *)
Module InstructionList.

Section InstructionList.
Context `{Config}.

Record instruction_list := { first_ : Z; last_ : Z; length_ : Z }.

Definition empty : instruction_list := {| first_ := 0; last_ := 0; length_ := 0 |}.

Definition state : Type := heap * instruction_list.

Definition null (p : Z) : bool := p =? 0.

Definition clear (s : state) : state := if null (first_ s.2) then s else (s.1, empty).

Definition check_list_consistency (m : heap) (L : instruction_list) : outcome unit :=
  if 0 <? length_ L then
    ASSERT (is_valid_address (first_ L)) ≫= fun _ =>
    ASSERT (is_valid_address (last_ L)) ≫= fun _ =>
    if 1 <? length_ L then
      f ← get m (first_ L);
      ASSERT (is_valid_address (next f)) ≫= fun _ =>
      l ← get m (last_ L);
      ASSERT (is_valid_address (prev l))
    else Ret tt
  else Ret tt.

(** [this] and [that], and the store they share. *)
Definition extend (m : heap) (this that : instruction_list)
    : outcome (heap * instruction_list * instruction_list) :=
  if length_ that =? 0 then Ret (m, this, that) else
  let length := u32 (length_ this + length_ that) in
  if null (last_ this) then
    Ret (m, {| first_ := first_ that; last_ := last_ that; length_ := length |}, empty)
  else
    m ← set_prev (first_ that) (last_ this) m;
    m ← set_next (last_ this) (first_ that) m;
    Ret (m, {| first_ := first_ this; last_ := last_ that; length_ := length |}, empty).

Definition append (item : Z) (s : state) : outcome state :=
  let (m, L) := s in
  let before_item := last_ L in
  ASSERT (is_valid_address item) ≫= fun _ =>
  i ← get m item;
  ASSERT (null (prev i)) ≫= fun _ =>
  ASSERT (null (next i)) ≫= fun _ =>
  ASSERT (null before_item || is_valid_address before_item) ≫= fun _ =>
  check_list_consistency m L ≫= fun _ =>
  m ← set_prev item before_item m;
  m ← set_next item 0 m;
  m ← (if null before_item then Ret m else set_next before_item item m);
  let length := u32 (length_ L + 1) in
  let L := {| first_ := if length =? 1 then item else first_ L; last_ := item; length_ := length |} in
  check_list_consistency m L ≫= fun _ => Ret (m, L).

Definition prepend (item : Z) (s : state) : outcome state :=
  let (m, L) := s in
  let after_item := first_ L in
  ASSERT (is_valid_address item) ≫= fun _ =>
  i ← get m item;
  ASSERT (null (prev i)) ≫= fun _ =>
  ASSERT (null (next i)) ≫= fun _ =>
  ASSERT (null after_item || is_valid_address after_item) ≫= fun _ =>
  check_list_consistency m L ≫= fun _ =>
  m ← set_next item after_item m;
  m ← set_prev item 0 m;
  m ← (if null after_item then Ret m else set_prev after_item item m);
  let length := u32 (length_ L + 1) in
  let L := {| first_ := item; last_ := if length =? 1 then item else last_ L; length_ := length |} in
  check_list_consistency m L ≫= fun _ => Ret (m, L).

Definition chain (before_item item after_item : Z) (s : state) : outcome state :=
  let (m, L) := s in
  let L := {| first_ := first_ L; last_ := last_ L; length_ := u32 (length_ L + 1) |} in
  m ← set_prev item before_item m;
  m ← set_next before_item item m;
  m ← set_next item after_item m;
  m ← set_prev after_item item m;
  check_list_consistency m L ≫= fun _ => Ret (m, L).

Definition insert_before (after_item item : Z) (s : state) : outcome state :=
  if (length_ s.2 <=? 1) || null after_item then prepend item s else
  ASSERT (is_valid_address item) ≫= fun _ =>
  ASSERT (is_valid_address after_item) ≫= fun _ =>
  a ← get s.1 after_item;
  let before_item := prev a in
  ASSERT (null before_item || is_valid_address before_item) ≫= fun _ =>
  i ← get s.1 item;
  ASSERT (null (prev i)) ≫= fun _ =>
  ASSERT (null (next i)) ≫= fun _ =>
  if null before_item then prepend item s else chain before_item item after_item s.

Definition insert_after (before_item item : Z) (s : state) : outcome state :=
  if (length_ s.2 <=? 1) || null before_item then append item s else
  ASSERT (is_valid_address item) ≫= fun _ =>
  ASSERT (is_valid_address before_item) ≫= fun _ =>
  b ← get s.1 before_item;
  let after_item := next b in
  ASSERT (null after_item || is_valid_address after_item) ≫= fun _ =>
  i ← get s.1 item;
  ASSERT (null (prev i)) ≫= fun _ =>
  ASSERT (null (next i)) ≫= fun _ =>
  if null after_item then append item s else chain before_item item after_item s.

Definition remove (instr : Z) (s : state) : outcome state :=
  if null instr then Ret s else
  let (m, L) := s in
  ASSERT (is_valid_address instr) ≫= fun _ =>
  ASSERT (0 <? length_ L) ≫= fun _ =>
  check_list_consistency m L ≫= fun _ =>
  i ← get m instr;
  let prev := prev i in
  let next := next i in
  ASSERT (null prev || is_valid_address prev) ≫= fun _ =>
  ASSERT (null next || is_valid_address next) ≫= fun _ =>
  m ← (if null prev then Ret m else set_next prev next m);
  m ← (if null next then Ret m else set_prev next prev m);
  m ← set_prev instr 0 m;
  m ← set_next instr 0 m;
  let L := {| first_ := if null prev then next else first_ L;
              last_ := if null next then prev else last_ L;
              length_ := u32 (length_ L - 1) |} in
  check_list_consistency m L ≫= fun _ => Ret (m, L).

Fixpoint remove_tail_at (fuel : nat) (item : Z) (s : state) : outcome state :=
  match fuel with
  | O => OutOfFuel
  | S fuel =>
      if null item then Ret s else
      i ← get s.1 item;
      s ← remove item s;
      remove_tail_at fuel (next i) s
  end.

(** ** Representation *)

(** Addresses a node can have. *)
Definition valid (x : Z) : Prop := x <> 0 /\ is_valid_address x = true.

(** The list [L] holds the nodes [ids] in this order. *)
Record rep (s : state) (ids : list Z) : Prop := {
  rep_first : first_ s.2 = hd 0 ids;
  rep_last : last_ s.2 = List.last ids 0;
  rep_length : length_ s.2 = Z.of_nat (length ids);
  rep_bound : Z.of_nat (length ids) < 2 ^ 32 - 1;
  rep_nodup : NoDup ids;
  rep_valid : Forall valid ids;
  rep_seg : dseg s.1 0 ids 0
}.

(** An unlinked node. *)
Definition detached (m : heap) (x : Z) : Prop := valid x /\ m !! x = Some {| prev := 0; next := 0 |}.

(** The nodes outside [xs] are unchanged. *)
Definition frame (m m' : heap) (xs : list Z) : Prop := forall y, y ∉ xs -> m' !! y = m !! y.

Lemma rep_lookup s a x b : rep s (a ++ x :: b) ->
  s.1 !! x = Some {| prev := List.last a 0; next := hd 0 b |}.
Proof. intros Hr. eapply dseg_lookup, rep_seg, Hr. Qed.

Lemma valid_null x : valid x -> null x = false /\ is_valid_address x = true.
Proof. intros [H0 H1]. split; [by apply Z.eqb_neq|done]. Qed.

Lemma hd_valid ids n : Forall valid ids -> hd n ids = n /\ ids = [] \/ valid (hd n ids) /\ hd n ids ∈ ids.
Proof. intros Hv. destruct ids as [|x ids]; [by left|right]. apply List.Forall_cons_iff in Hv as [? _]. split; [done|left]. Qed.

Lemma last_valid ids n : Forall valid ids -> List.last ids n = n /\ ids = [] \/ valid (List.last ids n) /\ List.last ids n ∈ ids.
Proof.
  intros Hv. destruct ids as [|x ids _] using rev_ind; [by left|right]. rewrite List.last_last.
  apply Forall_app in Hv as [_ Hv]. apply List.Forall_cons_iff in Hv as [? _]. split; [done|].
  apply elem_of_app. right. left.
Qed.

(** The assertion on a neighbour: null or valid. *)
Lemma assert_hd ids : Forall valid ids -> null (hd 0 ids) || is_valid_address (hd 0 ids) = true.
Proof. intros Hv. destruct (hd_valid ids 0 Hv) as [[-> _]|[[_ ->] _]]; [done|apply orb_true_r]. Qed.

Lemma assert_last ids : Forall valid ids -> null (List.last ids 0) || is_valid_address (List.last ids 0) = true.
Proof. intros Hv. destruct (last_valid ids 0 Hv) as [[-> _]|[[_ ->] _]]; [done|apply orb_true_r]. Qed.

(** A represented list is consistent. *)
Lemma rep_consistent s ids : rep s ids -> check_list_consistency s.1 s.2 = Ret tt.
Proof.
  intros Hr. pose proof (rep_valid _ _ Hr) as Hv. unfold check_list_consistency.
  rewrite (rep_first _ _ Hr), (rep_last _ _ Hr), (rep_length _ _ Hr).
  destruct ids as [|x ids]; [done|]. cbn [hd]. rewrite last_cons.
  apply List.Forall_cons_iff in Hv as [[Hx0 Hx] Hv].
  replace (0 <? Z.of_nat (length (x :: ids))) with true by (symmetry; apply Z.ltb_lt; cbn; lia).
  rewrite Hx. cbn [ASSERT mbind outcome_bind].
  destruct ids as [|y ids _] using rev_ind; [cbn [List.last]; by rewrite Hx|].
  rewrite List.last_last. apply Forall_app in Hv as [Hv [[Hy0 Hy] _]%List.Forall_cons_iff].
  rewrite Hy. cbn [ASSERT mbind outcome_bind].
  destruct (Z.ltb_spec 1 (Z.of_nat (length (x :: ids ++ [y])))); [|done].
  rewrite (get_ret _ _ _ (rep_lookup s [] x (ids ++ [y]) Hr)). cbn [mbind outcome_bind next].
  rewrite (get_ret _ _ _ (rep_lookup s (x :: ids) y [] Hr)).
  assert (Hn : is_valid_address (hd 0 (ids ++ [y])) = true).
  { destruct ids as [|z ids]; [done|]. by apply List.Forall_cons_iff in Hv as [[_ ?] _]. }
  rewrite Hn. cbn [ASSERT mbind outcome_bind prev]. rewrite last_cons.
  destruct (last_valid ids x Hv) as [[-> _]|[[_ ->] _]]; [by rewrite Hx|done].
Qed.

Lemma length_u32 (ids : list Z) : Z.of_nat (length ids) < 2 ^ 32 - 1 ->
  u32 (Z.of_nat (length ids) + 1) = Z.of_nat (length ids) + 1.
Proof. intros. apply wrap_small. lia. Qed.

Lemma append_rep s ids x :
  rep s ids -> detached s.1 x -> x ∉ ids -> Z.of_nat (length ids) + 1 < 2 ^ 32 - 1 ->
  exists s', append x s = Ret s' /\ rep s' (ids ++ [x]) /\ frame s.1 s'.1 (x :: ids).
Proof.
  intros Hr [Hx Hxm] Hni Hlen. pose proof (rep_consistent s ids Hr) as Hc.
  destruct s as [m L], Hr as [Hf Hl Hn _ Hnd Hv Hd]. cbn [fst snd] in *.
  destruct (valid_null x Hx) as [Hx0 Hxv]. unfold append. rewrite Hxv, (get_ret m x _ Hxm).
  cbn [ASSERT mbind outcome_bind prev next]. change (null 0) with true. cbn [ASSERT mbind outcome_bind].
  rewrite Hl, (assert_last ids Hv), Hc, Hn, length_u32 by lia. cbn [ASSERT mbind outcome_bind].
  rewrite set_prev_ret by eauto. cbn [mbind outcome_bind].
  rewrite set_next_ret by eauto with granary. cbn [mbind outcome_bind].
  set (m1 := with_next x 0 (with_prev x (List.last ids 0) m)).
  assert (E2 : (if null (List.last ids 0) then Ret m1 else set_next (List.last ids 0) x m1) = Ret (link_last m ids x)).
  { unfold link_last. destruct (last_valid ids 0 Hv) as [[_ ->]|[Hl0 Hin]]; [done|].
    destruct (valid_null _ Hl0) as [-> _]. rewrite set_next_ret.
    - by destruct ids; [apply elem_of_nil in Hin|].
    - apply with_next_is_Some, with_prev_is_Some. by eapply dseg_is_Some. }
  rewrite E2. cbn [mbind outcome_bind].
  set (L' := {| first_ := _; last_ := x; length_ := _ |}).
  assert (Hr' : rep (link_last m ids x, L') (ids ++ [x])).
  { split; cbn [fst snd first_ last_ length_ L'].
    - destruct ids as [|z ids]; [done|]. destruct (Z.eqb_spec (Z.of_nat (length (z :: ids)) + 1) 1); [cbn in *; lia|]. done.
    - by rewrite List.last_last.
    - rewrite length_app. cbn. lia.
    - rewrite length_app. cbn. lia.
    - apply NoDup_app. split; [done|]. split; [|apply NoDup_singleton].
      intros y Hy ->%list_elem_of_singleton. done.
    - apply Forall_app. split; [done|]. by constructor.
    - apply link_last_seg; eauto. }
  pose proof (rep_consistent _ _ Hr') as Hc'. cbn [fst snd] in Hc'. rewrite Hc'. cbn [mbind outcome_bind].
  exists (link_last m ids x, L'). split; [done|]. split; [done|]. intros y. apply link_last_other.
Qed.

Lemma prepend_rep s ids x :
  rep s ids -> detached s.1 x -> x ∉ ids -> Z.of_nat (length ids) + 1 < 2 ^ 32 - 1 ->
  exists s', prepend x s = Ret s' /\ rep s' (x :: ids) /\ frame s.1 s'.1 (x :: ids).
Proof.
  intros Hr [Hx Hxm] Hni Hlen. pose proof (rep_consistent s ids Hr) as Hc.
  destruct s as [m L], Hr as [Hf Hl Hn _ Hnd Hv Hd]. cbn [fst snd] in *.
  destruct (valid_null x Hx) as [Hx0 Hxv]. unfold prepend. rewrite Hxv, (get_ret m x _ Hxm).
  cbn [ASSERT mbind outcome_bind prev next]. change (null 0) with true. cbn [ASSERT mbind outcome_bind].
  rewrite Hf, (assert_hd ids Hv), Hc, Hn, length_u32 by lia. cbn [ASSERT mbind outcome_bind].
  rewrite set_next_ret by eauto. cbn [mbind outcome_bind].
  rewrite set_prev_ret by eauto with granary. cbn [mbind outcome_bind].
  set (m1 := with_prev x 0 (with_next x (hd 0 ids) m)).
  assert (E2 : (if null (hd 0 ids) then Ret m1 else set_prev (hd 0 ids) x m1) = Ret (link_first m ids x)).
  { unfold link_first. destruct ids as [|y ids]; [done|]. apply List.Forall_cons_iff in Hv as [Hy _].
    cbn [hd]. destruct (valid_null y Hy) as [-> _]. rewrite set_prev_ret; [done|].
    apply with_prev_is_Some, with_next_is_Some. eapply dseg_is_Some; [done|left]. }
  rewrite E2. cbn [mbind outcome_bind].
  set (L' := {| first_ := x; last_ := _; length_ := _ |}).
  assert (Hr' : rep (link_first m ids x, L') (x :: ids)).
  { split; cbn [fst snd first_ last_ length_ L'].
    - done.
    - rewrite last_cons. destruct ids as [|y ids]; [done|].
      destruct (Z.eqb_spec (Z.of_nat (length (y :: ids)) + 1) 1); [cbn in *; lia|]. by rewrite Hl, !last_cons.
    - cbn [length]. lia.
    - cbn [length]. lia.
    - by constructor.
    - by constructor.
    - apply link_first_seg; eauto. }
  pose proof (rep_consistent _ _ Hr') as Hc'. cbn [fst snd] in Hc'. rewrite Hc'. cbn [mbind outcome_bind].
  exists (link_first m ids x, L'). split; [done|]. split; [done|]. intros y. apply link_first_other.
Qed.

Lemma NoDup_insert (a b : list Z) x : NoDup (a ++ b) -> x ∉ a ++ b -> NoDup (a ++ x :: b).
Proof. intros. rewrite <- Permutation_middle. by constructor. Qed.

(** Linking [x] between the last of [a] and the first of [b]. *)
Lemma chain_rep s a y z b x :
  rep s ((a ++ [y]) ++ z :: b) -> detached s.1 x -> x ∉ (a ++ [y]) ++ z :: b ->
  Z.of_nat (length ((a ++ [y]) ++ z :: b)) + 1 < 2 ^ 32 - 1 ->
  exists s', chain y x z s = Ret s' /\ rep s' ((a ++ [y]) ++ x :: z :: b) /\
    frame s.1 s'.1 (x :: (a ++ [y]) ++ z :: b).
Proof.
  intros Hr [Hx Hxm] Hni Hlen.
  destruct s as [m L], Hr as [Hf Hl Hn _ Hnd Hv Hd]. cbn [fst snd] in *. unfold chain.
  assert (Hy : is_Some (m !! y)).
  { eapply dseg_is_Some; [done|]. apply elem_of_app. left. apply elem_of_app. right. left. }
  assert (Hz : is_Some (m !! z)).
  { eapply dseg_is_Some; [done|]. apply elem_of_app. right. left. }
  rewrite set_prev_ret by eauto. cbn [mbind outcome_bind].
  rewrite set_next_ret by eauto with granary. cbn [mbind outcome_bind].
  rewrite set_next_ret by eauto with granary. cbn [mbind outcome_bind].
  rewrite set_prev_ret by eauto with granary. cbn [mbind outcome_bind].
  fold (link_between m y x z).
  set (L' := {| first_ := first_ L; last_ := last_ L; length_ := u32 (length_ L + 1) |}).
  assert (Hr' : rep (link_between m y x z, L') ((a ++ [y]) ++ x :: z :: b)).
  { split; cbn [fst snd first_ last_ length_ L'].
    - rewrite Hf. rewrite !hd_app. by destruct a.
    - rewrite Hl. change (x :: z :: b) with ([x] ++ z :: b).
      destruct (z :: b) as [|w l _] eqn:E using rev_ind; [done|]. by rewrite !app_assoc, !List.last_last.
    - rewrite Hn, length_u32 by lia. rewrite !length_app. cbn [length]. lia.
    - rewrite !length_app in *. cbn [length] in *. lia.
    - by apply NoDup_insert.
    - apply Forall_app in Hv as [Hva Hvb]. apply Forall_app. split; [done|]. by constructor.
    - apply link_between_seg; eauto. }
  pose proof (rep_consistent _ _ Hr') as Hc'. cbn [fst snd] in Hc'. rewrite Hc'. cbn [mbind outcome_bind].
  exists (link_between m y x z, L'). split; [done|]. split; [done|]. intros w [Hwx Hw]%not_elem_of_cons.
  apply not_elem_of_app in Hw as [Hwa Hwb]. apply not_elem_of_app in Hwa as [_ Hwy].
  rewrite list_elem_of_singleton in Hwy. apply not_elem_of_cons in Hwb as [Hwz _]. by apply link_between_other.
Qed.

Lemma insert_before_rep s a z b x :
  rep s (a ++ z :: b) -> detached s.1 x -> x ∉ a ++ z :: b ->
  Z.of_nat (length (a ++ z :: b)) + 1 < 2 ^ 32 - 1 ->
  exists s', insert_before z x s = Ret s' /\ rep s' (a ++ x :: z :: b) /\
    frame s.1 s'.1 (x :: a ++ z :: b).
Proof.
  intros Hr Hx Hni Hlen. pose proof (rep_lookup s a z b Hr) as Hz.
  pose proof (rep_valid _ _ Hr) as Hv. apply Forall_app in Hv as [Hva [Hvz Hvb]%List.Forall_cons_iff].
  destruct (valid_null z Hvz) as [Hz0 Hzv]. unfold insert_before. rewrite Hz0, orb_false_r.
  rewrite (rep_length _ _ Hr).
  assert (Hpre : a = [] -> exists s', prepend x s = Ret s' /\ rep s' (a ++ x :: z :: b) /\
                           frame s.1 s'.1 (x :: a ++ z :: b)).
  { intros ->. by apply prepend_rep. }
  destruct (Z.leb_spec (Z.of_nat (length (a ++ z :: b))) 1) as [Hle|Hgt].
  { apply Hpre. rewrite length_app in Hle. cbn in Hle. destruct a; [done|cbn in Hle; lia]. }
  pose proof Hx as [Hxv Hxm]. destruct (valid_null x Hxv) as [Hx0 ->].
  rewrite Hzv, (get_ret _ _ _ Hz), (get_ret _ _ _ Hxm). cbn [ASSERT mbind outcome_bind prev next].
  rewrite (assert_last a Hva). cbn [ASSERT mbind outcome_bind]. change (null 0) with true.
  cbn [ASSERT mbind outcome_bind].
  destruct a as [|y a _] using rev_ind; [by apply Hpre|]. rewrite List.last_last.
  apply Forall_app in Hva as [_ [Hy _]%List.Forall_cons_iff]. destruct (valid_null y Hy) as [-> _].
  by apply chain_rep.
Qed.

Lemma insert_after_rep s a y b x :
  rep s (a ++ y :: b) -> detached s.1 x -> x ∉ a ++ y :: b ->
  Z.of_nat (length (a ++ y :: b)) + 1 < 2 ^ 32 - 1 ->
  exists s', insert_after y x s = Ret s' /\ rep s' (a ++ y :: x :: b) /\
    frame s.1 s'.1 (x :: a ++ y :: b).
Proof.
  intros Hr Hx Hni Hlen. pose proof (rep_lookup s a y b Hr) as Hy.
  pose proof (rep_valid _ _ Hr) as Hv. apply Forall_app in Hv as [Hva [Hvy Hvb]%List.Forall_cons_iff].
  destruct (valid_null y Hvy) as [Hy0 Hyv]. unfold insert_after. rewrite Hy0, orb_false_r.
  rewrite (rep_length _ _ Hr).
  assert (Happ : b = [] -> exists s', append x s = Ret s' /\ rep s' (a ++ y :: x :: b) /\
                           frame s.1 s'.1 (x :: a ++ y :: b)).
  { intros ->. change [y; x] with ([y] ++ [x]). rewrite (app_assoc a [y] [x]). by apply append_rep. }
  destruct (Z.leb_spec (Z.of_nat (length (a ++ y :: b))) 1) as [Hle|Hgt].
  { apply Happ. rewrite length_app in Hle. cbn in Hle. destruct b; [done|cbn in Hle; lia]. }
  pose proof Hx as [Hxv Hxm]. destruct (valid_null x Hxv) as [Hx0 ->].
  rewrite Hyv, (get_ret _ _ _ Hy), (get_ret _ _ _ Hxm). cbn [ASSERT mbind outcome_bind prev next].
  rewrite (assert_hd b Hvb). cbn [ASSERT mbind outcome_bind]. change (null 0) with true.
  cbn [ASSERT mbind outcome_bind].
  destruct b as [|z b]; [by apply Happ|]. cbn [hd].
  apply List.Forall_cons_iff in Hvb as [Hz _]. destruct (valid_null z Hz) as [-> _].
  change (a ++ y :: z :: b) with (a ++ [y] ++ z :: b) in *.
  change (a ++ y :: x :: z :: b) with (a ++ [y] ++ x :: z :: b).
  rewrite (app_assoc a [y] (z :: b)) in *. rewrite (app_assoc a [y] (x :: z :: b)).
  by apply chain_rep.
Qed.

(** The two writes to the neighbours of a removed node. *)
Definition unlink (m : heap) (a b : list Z) : heap :=
  let m := match a with [] => m | _ => with_next (List.last a 0) (hd 0 b) m end in
  match b with [] => m | z :: _ => with_prev z (List.last a 0) m end.

Lemma unlink_seg m a x b : NoDup (a ++ x :: b) -> dseg m 0 (a ++ x :: b) 0 ->
  dseg (unlink m a b) 0 (a ++ b) 0.
Proof.
  intros Hnd Hd. apply dseg_app in Hd as [Hda [Hx Hdb]]. cbn [hd] in Hda.
  apply NoDup_app in Hnd as (Hnda & Hdis & [Hxb Hndb]%NoDup_cons).
  apply dseg_app. unfold unlink.
  assert (Ha : dseg (match a with [] => m | _ => with_next (List.last a 0) (hd 0 b) m end) 0 a (hd 0 b)).
  { destruct a as [|y a _] using rev_ind; [done|]. rewrite List.last_last in *.
    replace (match a ++ [y] with [] => m | _ :: _ => with_next y (hd 0 b) m end)
      with (with_next y (hd 0 b) m) by (by destruct a).
    eapply dseg_with_next; [done|]. apply NoDup_app in Hnda as (_ & Hc & _).
    intros Hy. apply (Hc y Hy). left. }
  assert (Hb : dseg (match a with [] => m | _ => with_next (List.last a 0) (hd 0 b) m end) x b 0).
  { destruct a as [|y a _] using rev_ind; [done|]. rewrite List.last_last in *.
    replace (match a ++ [y] with [] => m | _ :: _ => with_next y (hd 0 b) m end)
      with (with_next y (hd 0 b) m) by (by destruct a).
    apply dseg_with_next_frame; [done|]. intros Hy. apply (Hdis y); [apply elem_of_app; right; left|by right]. }
  destruct b as [|z b]; [done|]. split.
  - apply dseg_with_prev_frame; [done|]. intros Hz. apply (Hdis z Hz). right. left.
  - eapply dseg_with_prev; [done|]. by apply NoDup_cons in Hndb as [? _].
Qed.

Lemma unlink_lookup m a b y : y ∉ a ++ b -> unlink m a b !! y = m !! y.
Proof.
  intros [Ha Hb]%not_elem_of_app. unfold unlink.
  assert (Hy : match a with [] => m | _ => with_next (List.last a 0) (hd 0 b) m end !! y = m !! y).
  { destruct a as [|w a _] using rev_ind; [done|]. rewrite List.last_last.
    replace (match a ++ [w] with [] => m | _ :: _ => with_next w (hd 0 b) m end)
      with (with_next w (hd 0 b) m) by (by destruct a).
    rewrite lookup_with_next. case_decide; [|done]. subst. exfalso. apply Ha, elem_of_app. right. left. }
  destruct b as [|z b]; [done|]. rewrite lookup_with_prev. case_decide; [|done].
  subst. exfalso. apply Hb. left.
Qed.

Lemma unlink_ret m a x b : Forall valid a -> Forall valid b -> dseg m 0 (a ++ x :: b) 0 ->
  (m ← (if null (List.last a 0) then Ret m else set_next (List.last a 0) (hd 0 b) m);
   if null (hd 0 b) then Ret m else set_prev (hd 0 b) (List.last a 0) m) = Ret (unlink m a b).
Proof.
  intros Hva Hvb Hd. unfold unlink.
  assert (E1 : (if null (List.last a 0) then Ret m else set_next (List.last a 0) (hd 0 b) m) =
               Ret (match a with [] => m | _ => with_next (List.last a 0) (hd 0 b) m end)).
  { destruct (last_valid a 0 Hva) as [[_ ->]|[Hl Hin]]; [done|].
    destruct (valid_null _ Hl) as [-> _]. rewrite set_next_ret.
    - destruct a; [by apply elem_of_nil in Hin|done].
    - eapply dseg_is_Some; [done|]. apply elem_of_app. by left. }
  rewrite E1. cbn [mbind outcome_bind]. destruct b as [|z b]; [done|]. cbn [hd].
  apply List.Forall_cons_iff in Hvb as [Hz _]. destruct (valid_null z Hz) as [-> _].
  rewrite set_prev_ret; [done|].
  assert (is_Some (m !! z)) by (eapply dseg_is_Some; [done|]; apply elem_of_app; right; right; left).
  destruct a; [done|]. by apply with_next_is_Some.
Qed.

Lemma remove_rep s a x b :
  rep s (a ++ x :: b) ->
  exists s', remove x s = Ret s' /\ rep s' (a ++ b) /\ detached s'.1 x /\
    frame s.1 s'.1 (a ++ x :: b).
Proof.
  intros Hr. pose proof (rep_consistent s _ Hr) as Hc. pose proof (rep_lookup s a x b Hr) as Hxm.
  destruct s as [m L], Hr as [Hf Hl Hn Hlen Hnd Hv Hd]. cbn [fst snd] in *.
  pose proof Hv as Hv'. apply Forall_app in Hv' as [Hva [Hx Hvb]%List.Forall_cons_iff].
  destruct (valid_null x Hx) as [Hx0 Hxv]. unfold remove. rewrite Hx0, Hxv, Hc, Hn.
  rewrite length_app in *. cbn [length] in *.
  replace (0 <? Z.of_nat (length a + S (length b))) with true by (symmetry; apply Z.ltb_lt; lia).
  rewrite (get_ret _ _ _ Hxm). cbn [ASSERT mbind outcome_bind prev next].
  rewrite (assert_last a Hva), (assert_hd b Hvb). cbn [ASSERT mbind outcome_bind].
  pose proof (unlink_ret m a x b Hva Hvb Hd) as Eu.
  destruct (if null (List.last a 0) then Ret m else set_next (List.last a 0) (hd 0 b) m) as [m1| |];
    cbn [mbind outcome_bind] in Eu |- *; [|discriminate Eu..]. rewrite Eu. cbn [mbind outcome_bind].
  assert (Hxab : x ∉ a ++ b).
  { rewrite <- Permutation_middle in Hnd. by apply NoDup_cons in Hnd as [? _]. }
  assert (Hxu : unlink m a b !! x = Some {| prev := List.last a 0; next := hd 0 b |})
    by (by rewrite unlink_lookup).
  rewrite set_prev_ret by eauto. cbn [mbind outcome_bind].
  rewrite set_next_ret by eauto with granary. cbn [mbind outcome_bind].
  set (m2 := with_next x 0 (with_prev x 0 (unlink m a b))).
  set (L' := {| first_ := _; last_ := _; length_ := _ |}).
  assert (Hr' : rep (m2, L') (a ++ b)).
  { split; cbn [fst snd first_ last_ length_ L'].
    - rewrite hd_app, Hf, hd_app. cbn [hd]. destruct a as [|w a]; [done|]. rewrite last_cons. cbn [hd].
      apply List.Forall_cons_iff in Hva as [Hw Hva].
      destruct (last_valid a w Hva) as [[-> _]|[Hl0 _]]; [by destruct (valid_null w Hw) as [-> _]|].
      by destruct (valid_null _ Hl0) as [-> _].
    - rewrite Hl. destruct b as [|w b]; [by rewrite app_nil_r|].
      apply List.Forall_cons_iff in Hvb as [Hw _]. cbn [hd]. destruct (valid_null w Hw) as [-> _].
      destruct (w :: b) as [|z l _] eqn:E using rev_ind; [done|].
      change (a ++ x :: l ++ [z]) with (a ++ (x :: l) ++ [z]). by rewrite !app_assoc, !List.last_last.
    - rewrite length_app, wrap_small by lia. lia.
    - rewrite length_app. lia.
    - rewrite <- Permutation_middle in Hnd. by apply NoDup_cons in Hnd as [_ ?].
    - by apply Forall_app.
    - apply dseg_with_next_frame; [|done]. apply dseg_with_prev_frame; [|done]. by eapply unlink_seg. }
  pose proof (rep_consistent _ _ Hr') as Hc'. cbn [fst snd] in Hc'. rewrite Hc'. cbn [mbind outcome_bind].
  exists (m2, L'). split; [done|]. split; [done|]. split.
  - split; [done|]. unfold m2. cbn [fst]. lookup_tac. done.
  - intros y Hy. cbn [fst]. apply not_elem_of_app in Hy as [Hya [Hyx Hyb]%not_elem_of_cons].
    assert (E : unlink m a b !! y = m !! y) by (apply unlink_lookup, not_elem_of_app; done).
    unfold m2. lookup_tac. done.
Qed.

(** ** Refinement of sequences *)
Inductive op :=
  | Append (item : Z)
  | Prepend (item : Z)
  | InsertBefore (pos item : Z)
  | InsertAfter (pos item : Z)
  | Remove (item : Z).

Definition run_op (o : op) (s : state) : outcome state :=
  match o with
  | Append item => append item s
  | Prepend item => prepend item s
  | InsertBefore pos item => insert_before pos item s
  | InsertAfter pos item => insert_after pos item s
  | Remove item => remove item s
  end.

(** The same operations on a sequence. *)
Fixpoint insert_at (before : bool) (pos item : Z) (ids : list Z) : list Z :=
  match ids with
  | [] => []
  | y :: ids =>
      if pos =? y then (if before then item :: y :: ids else y :: item :: ids)
      else y :: insert_at before pos item ids
  end.

Definition spec_op (o : op) (ids : list Z) : list Z :=
  match o with
  | Append item => ids ++ [item]
  | Prepend item => item :: ids
  | InsertBefore pos item => insert_at true pos item ids
  | InsertAfter pos item => insert_at false pos item ids
  | Remove item => filter (fun y => y <> item) ids
  end.

Definition op_item (o : op) : Z :=
  match o with
  | Append item | Prepend item | InsertBefore _ item | InsertAfter _ item | Remove item => item
  end.

(** When an operation may be used: insertions take an unlinked node that is
    not in the list, positions and removed nodes are in the list, and the
    length stays below [2^32 - 1]. *)
Definition op_ok (o : op) (m : heap) (ids : list Z) : Prop :=
  match o with
  | Remove item => item ∈ ids
  | _ => detached m (op_item o) /\ (op_item o ∉ ids) /\ Z.of_nat (length ids) + 1 < 2 ^ 32 - 1 /\
         match o with InsertBefore pos _ | InsertAfter pos _ => pos ∈ ids | _ => True end
  end.

Lemma insert_at_split before pos item a b : pos ∉ a ->
  insert_at before pos item (a ++ pos :: b) =
  a ++ (if before then item :: pos :: b else pos :: item :: b).
Proof.
  induction a as [|y a IH]; intros Hp; cbn.
  - rewrite Z.eqb_refl. by destruct before.
  - apply not_elem_of_cons in Hp as [Hpy Hp]. destruct (Z.eqb_spec pos y); [done|]. by rewrite IH.
Qed.

Lemma filter_split (x : Z) a b : NoDup (a ++ x :: b) -> filter (fun y => y <> x) (a ++ x :: b) = a ++ b.
Proof.
  intros Hnd. rewrite <- Permutation_middle in Hnd. apply NoDup_cons in Hnd as [Hx _].
  apply not_elem_of_app in Hx as [Ha Hb].
  assert (Hid : forall l : list Z, x ∉ l -> filter (fun y => y <> x) l = l).
  { induction l as [|y l IH]; intros Hl; [done|]. apply not_elem_of_cons in Hl as [Hxy Hl].
    rewrite filter_cons_True by congruence. by rewrite IH. }
  rewrite filter_app, filter_cons_False by tauto. by rewrite !Hid.
Qed.

Lemma run_op_rep o s ids :
  rep s ids -> op_ok o s.1 ids ->
  exists s', run_op o s = Ret s' /\ rep s' (spec_op o ids) /\ frame s.1 s'.1 (op_item o :: ids) /\
    match o with Remove item => detached s'.1 item | _ => True end.
Proof.
  intros Hr Hok. pose proof (rep_nodup _ _ Hr) as Hnd.
  assert (Hsplit : forall pos, pos ∈ ids -> exists a b, ids = a ++ pos :: b /\ pos ∉ a).
  { intros pos (a & b & ->)%list_elem_of_split. exists a, b. split; [done|].
    apply NoDup_app in Hnd as (_ & Hd & _). intros Ha. apply (Hd pos Ha). left. }
  destruct o as [x|x|pos x|pos x|x]; cbn [op_ok op_item run_op spec_op] in *.
  - destruct Hok as (Hx & Hni & Hlen & _). destruct (append_rep s ids x Hr Hx Hni Hlen) as (s' & ? & ? & ?). eauto 6.
  - destruct Hok as (Hx & Hni & Hlen & _). destruct (prepend_rep s ids x Hr Hx Hni Hlen) as (s' & ? & ? & ?). eauto 6.
  - destruct Hok as (Hx & Hni & Hlen & (a & b & -> & Ha)%Hsplit).
    rewrite insert_at_split by done.
    destruct (insert_before_rep s a pos b x Hr Hx Hni Hlen) as (s' & ? & ? & ?). eauto 6.
  - destruct Hok as (Hx & Hni & Hlen & (a & b & -> & Ha)%Hsplit).
    rewrite insert_at_split by done.
    destruct (insert_after_rep s a pos b x Hr Hx Hni Hlen) as (s' & ? & ? & ?). eauto 6.
  - destruct (Hsplit x Hok) as (a & b & -> & Ha). rewrite filter_split by done.
    destruct (remove_rep s a x b Hr) as (s' & ? & ? & ? & Hfr). exists s'. split; [done|]. split; [done|].
    split; [|done]. intros y [_ Hy]%not_elem_of_cons. by apply Hfr.
Qed.

Lemma remove_tail_rep r : forall s a fuel,
  rep s (a ++ r) -> (length r < fuel)%nat ->
  exists s', remove_tail_at fuel (hd 0 r) s = Ret s' /\ rep s' a /\
    (forall y, y ∈ r -> detached s'.1 y) /\ frame s.1 s'.1 (a ++ r).
Proof.
  induction r as [|x r IH]; intros s a fuel Hr Hf; (destruct fuel as [|fuel]; [lia|]).
  { rewrite app_nil_r in *. exists s. split; [done|]. split; [done|].
    split; [by intros ? ?%elem_of_nil|]. by intros ? ?. }
  cbn [remove_tail_at hd]. pose proof (rep_lookup s a x r Hr) as Hx.
  pose proof (rep_valid _ _ Hr) as Hv. pose proof (rep_nodup _ _ Hr) as Hnd.
  apply Forall_app in Hv as [_ [Hvx _]%List.Forall_cons_iff]. destruct (valid_null x Hvx) as [-> _].
  rewrite (get_ret _ _ _ Hx). cbn [mbind outcome_bind next].
  destruct (remove_rep s a x r Hr) as (s1 & E1 & Hr1 & Hx1 & Hf1). rewrite E1. cbn [mbind outcome_bind].
  destruct (IH s1 a fuel Hr1 ltac:(cbn in Hf; lia)) as (s2 & E2 & Hr2 & Hd2 & Hf2).
  exists s2. split; [done|]. split; [done|]. split.
  - intros y [->|Hy]%elem_of_cons; [|by apply Hd2]. destruct Hx1 as [? Hx1]. split; [done|].
    rewrite Hf2; [done|]. rewrite <- Permutation_middle in Hnd. by apply NoDup_cons in Hnd as [? _].
  - intros y Hy. rewrite Hf2, Hf1; [done|done|]. intros Hc. apply Hy.
    apply elem_of_app in Hc as [?|?]; apply elem_of_app; [by left|right; by right].
Qed.

(** C27 An [instruction_list] is a finite sequence.  On a list that holds the
    nodes [ids], appending, prepending, inserting before or after a member,
    and removing a member all succeed (no assertion fails), leave the list
    holding the sequence changed in the same way, and change no node outside
    the list; a removed node is left unlinked, ready to be inserted again. *)
Theorem instruction_list_refines_sequence o s ids :
  rep s ids -> op_ok o s.1 ids ->
  exists s', run_op o s = Ret s' /\ rep s' (spec_op o ids) /\ frame s.1 s'.1 (op_item o :: ids) /\
    match o with Remove item => detached s'.1 item | _ => True end.
Proof. apply run_op_rep. Qed.

(** [extend] concatenates: when two lists in the same store share no node,
    the first holds both sequences afterwards and the second is empty. *)
Theorem extend_concatenates m this that ids ids' :
  rep (m, this) ids -> rep (m, that) ids' -> ids ## ids' ->
  Z.of_nat (length ids) + Z.of_nat (length ids') < 2 ^ 32 - 1 ->
  exists m' this' that', extend m this that = Ret (m', this', that') /\
    rep (m', this') (ids ++ ids') /\ rep (m', that') [] /\ frame m m' (ids ++ ids').
Proof.
  intros [Hf Hl Hn _ Hnd Hv Hd] [Hf' Hl' Hn' _ Hnd' Hv' Hd'] Hdis Hlen. cbn [fst snd] in *.
  assert (Hempty : forall m, rep (m, empty) []) by (intros; split; cbn; try done; constructor).
  unfold extend. rewrite Hn, Hn'. destruct ids' as [|z ids'].
  { exists m, this, that. cbn. split; [done|]. rewrite app_nil_r. split; [by split; cbn in *; try lia|].
    split; [by split; cbn in *; try lia|]. by intros ? ?. }
  replace (Z.of_nat (length (z :: ids')) =? 0) with false by (symmetry; apply Z.eqb_neq; cbn; lia).
  rewrite wrap_small by lia. rewrite Hl, Hl', Hf, Hf'. cbn [hd].
  destruct ids as [|y ids _] using rev_ind.
  { cbn [List.last null]. change (null 0) with true. cbn iota. eexists m, _, _. split; [done|]. split; [|split; [done|by intros ? ?]].
    split; cbn [fst snd first_ last_ length_ app length] in *; try done; lia. }
  rewrite List.last_last. apply Forall_app in Hv as [Hva [Hvy _]%List.Forall_cons_iff].
  destruct (valid_null y Hvy) as [-> _].
  assert (Hz : is_Some (m !! z)) by (eapply dseg_is_Some; [exact Hd'|left]).
  assert (Hy : is_Some (m !! y)) by (eapply dseg_is_Some; [exact Hd|apply elem_of_app; right; left]).
  rewrite set_prev_ret by done. cbn [mbind outcome_bind].
  rewrite set_next_ret by eauto with granary. cbn [mbind outcome_bind].
  assert (Hyn : y ∉ z :: ids') by (intros Hc; apply (Hdis y); [apply elem_of_app; right; left|done]).
  assert (Hzn : z ∉ ids ++ [y]) by (intros Hc; apply (Hdis z); [done|left]).
  apply NoDup_app in Hnd as Hnd2. destruct Hnd2 as (_ & Hya & _).
  eexists _, _, _. split; [done|]. split; [|split; [done|]].
  - split; cbn [fst snd first_ last_ length_].
    + by destruct ids.
    + rewrite last_cons. destruct ids' as [|w ids' _] using rev_ind; [by rewrite List.last_last|].
      change ((ids ++ [y]) ++ z :: ids' ++ [w]) with ((ids ++ [y]) ++ (z :: ids') ++ [w]).
      by rewrite (app_assoc (ids ++ [y])), !List.last_last.
    + rewrite !length_app in *. cbn [length] in *. lia.
    + rewrite !length_app in *. cbn [length] in *. lia.
    + apply NoDup_app. split; [done|]. split; [|done]. intros x Hx Hx'. by apply (Hdis x).
    + apply Forall_app. split; [|done]. apply Forall_app. split; [done|]. by constructor.
    + apply dseg_app. rewrite List.last_last. cbn [hd]. split.
      * eapply dseg_with_next; [by apply dseg_with_prev_frame|]. intros Hc. apply (Hya y Hc). left.
      * apply dseg_with_next_frame; [|done]. eapply dseg_with_prev; [done|].
        by apply NoDup_cons in Hnd' as [? _].
  - intros x [Hxa Hxz]%not_elem_of_app. apply not_elem_of_app in Hxa as [_ Hxy].
    rewrite list_elem_of_singleton in Hxy. apply not_elem_of_cons in Hxz as [Hxz _].
    lookup_tac; done.
Qed.

(** [remove_tail_at] cuts the list at a member: it terminates after as
    many iterations as there are nodes from that member on, the list holds
    the nodes before it, and every node cut off is unlinked. *)
Theorem remove_tail_cuts s a x b :
  rep s (a ++ x :: b) ->
  exists s', remove_tail_at (S (length (x :: b))) x s = Ret s' /\ rep s' a /\
    forall y, y ∈ x :: b -> detached s'.1 y.
Proof.
  intros Hr. destruct (remove_tail_rep (x :: b) s a (S (length (x :: b))) Hr ltac:(lia))
    as (s' & E & Hr' & Hd & _). eauto.
Qed.

End InstructionList.

(** ** Witnesses *)
Definition two_nodes : heap :=
  <[4096 := {| prev := 0; next := 8192 |}]> (<[8192 := {| prev := 4096; next := 0 |}]>
  (<[12288 := {| prev := 0; next := 0 |}]> ∅)).
Definition two_list : instruction_list := {| first_ := 4096; last_ := 8192; length_ := 2 |}.
Definition one_list : instruction_list := {| first_ := 12288; last_ := 12288; length_ := 1 |}.

#[local] Existing Instance user_config.

Lemma two_rep : rep (two_nodes, two_list) [4096; 8192].
Proof.
  split; cbn [fst snd first_ last_ length_ two_list hd List.last length]; try (done || lia).
  - repeat constructor; rewrite ?list_elem_of_singleton; try lia; by intros ?%elem_of_nil.
  - repeat constructor; done.
Defined.

Lemma one_rep : rep (two_nodes, one_list) [12288].
Proof.
  split; cbn [fst snd first_ last_ length_ one_list hd List.last length]; try (done || lia).
  - repeat constructor. by intros ?%elem_of_nil.
  - repeat constructor; done.
Defined.

Lemma instruction_list_refines_sequence_witness :
  exists s', insert_after 4096 12288 (two_nodes, two_list) = Ret s' /\ rep s' [4096; 12288; 8192].
Proof.
  destruct (instruction_list_refines_sequence (InsertAfter 4096 12288) (two_nodes, two_list) [4096; 8192]
    two_rep) as (s' & E & Hr & _).
  - cbn [op_ok op_item].
    split; [split; [split; [lia|reflexivity]|reflexivity]|]. split; [|split; [cbn; lia|left]].
    intros [?|[?|?%elem_of_nil]%elem_of_cons]%elem_of_cons; lia || done.
  - exists s'. split; [exact E|exact Hr].
Defined.

Lemma extend_concatenates_witness :
  exists m' this' that', extend two_nodes two_list one_list = Ret (m', this', that') /\
    rep (m', this') [4096; 8192; 12288].
Proof.
  destruct (extend_concatenates two_nodes two_list one_list [4096; 8192] [12288] two_rep one_rep)
    as (m' & this' & that' & E & Hr & _).
  - intros x Hx ->%list_elem_of_singleton.
    apply elem_of_cons in Hx as [?|[?|?%elem_of_nil]%elem_of_cons]; lia || done.
  - cbn. lia.
  - exists m', this', that'. split; [exact E|exact Hr].
Defined.

Lemma remove_tail_cuts_witness :
  exists s', remove_tail_at 2 8192 (two_nodes, two_list) = Ret s' /\ rep s' [4096].
Proof.
  destruct (remove_tail_cuts (two_nodes, two_list) [4096] 8192 [] two_rep) as (s' & E & Hr & _).
  exists s'. split; [exact E|exact Hr].
Defined.

End InstructionList.
