(* ===== verification/GList.v ===== *)
(** * Generic linked lists: [granary/list.h]

    [list<T>] is the list of the worklists of [UsedRegs] and [HotPatch], and
    of the policies' and clients' bookkeeping.  Items are allocated by
    [list_meta<T>::allocate], or taken from a cache of items that
    [clear_for_reuse] fills.  As in [DList], all items live in a shared store,
    and a handle is the address of an item.

    The theorems: the operations refine the operations of sequences of
    handles with values, for lists with any cache, and change no item outside
    of the list; [clear] frees exactly the items of the list and its cache,
    unless the list is empty: then the cached items leak, as do all items that
    were removed. *)

From Stdlib Require Import ZArith Lia.
From stdpp Require Import base numbers list option gmap.
From S2P Require Import Prelude Utils DList.

Section GList.
Context {T : Type}.

(** The links and the values of all items. *)
Record list_state := { items : heap; values : gmap Z T; first_ : Z; last_ : Z; cache_ : Z; length_ : Z }.

Definition with_items (m : heap) (s : list_state) : list_state :=
  {| items := m; values := values s; first_ := first_ s; last_ := last_ s; cache_ := cache_ s; length_ := length_ s |}.

(** The constructor. *)
Definition list_ctor (m : heap) (vs : gmap Z T) : list_state :=
  {| items := m; values := vs; first_ := 0; last_ := 0; cache_ := 0; length_ := 0 |}.

Definition null (p : Z) : bool := p =? 0.

(** [meta_type::allocate]: the address of an item, and what its memory holds.
    [meta_type::free] takes an item away. *)
Context (malloc : heap -> Z * node).

Definition free (x : Z) (m : heap) : heap := delete x m.

Definition allocate_ (val : T) (s : list_state) : outcome (list_state * Z) :=
  p ← (if null (cache_ s) then
         let a := malloc (items s) in
         Ret (a.1, cache_ s, <[a.1 := a.2]> (items s))
       else
         c ← get (items s) (cache_ s);
         Ret (cache_ s, next c, <[cache_ s := {| prev := 0; next := 0 |}]> (items s)));
  let ptr := p.1.1 in
  Ret ({| items := p.2; values := <[ptr := val]> (values s); first_ := first_ s; last_ := last_ s;
          cache_ := p.1.2; length_ := length_ s |}, ptr).

(** [cache]. *)
Definition cache (item : Z) (s : list_state) : outcome list_state :=
  m ← set_prev item 0 (items s);
  m ← set_next item (cache_ s) m;
  Ret {| items := m; values := values s; first_ := first_ s; last_ := last_ s; cache_ := item; length_ := length_ s |}.

Definition clear_for_reuse (s : list_state) : outcome list_state :=
  if null (first_ s) then Ret s else
  m ← set_next (last_ s) (cache_ s) (items s);
  Ret {| items := m; values := values s; first_ := 0; last_ := 0; cache_ := first_ s; length_ := 0 |}.

(** The loops of [clear]. *)
Fixpoint free_all (fuel : nat) (item : Z) (m : heap) : outcome heap :=
  if null item then Ret m else
  match fuel with
  | O => OutOfFuel
  | S fuel => i ← get m item; free_all fuel (next i) (free item m)
  end.

Definition clear (fuel : nat) (s : list_state) : outcome list_state :=
  if null (first_ s) then Ret s else
  m ← free_all fuel (first_ s) (items s);
  m ← free_all fuel (cache_ s) m;
  Ret {| items := m; values := values s; first_ := 0; last_ := 0; cache_ := 0; length_ := 0 |}.

Definition append_item (item : Z) (s : list_state) : outcome (list_state * Z) :=
  let before_item := last_ s in
  m ← set_prev item before_item (items s);
  m ← set_next item 0 m;
  m ← (if null before_item then Ret m else set_next before_item item m);
  let length := u32 (length_ s + 1) in
  Ret ({| items := m; values := values s; first_ := if length =? 1 then item else first_ s; last_ := item;
          cache_ := cache_ s; length_ := length |}, item).

Definition prepend_item (item : Z) (s : list_state) : outcome (list_state * Z) :=
  let after_item := first_ s in
  m ← set_next item after_item (items s);
  m ← set_prev item 0 m;
  m ← (if null after_item then Ret m else set_prev after_item item m);
  let length := u32 (length_ s + 1) in
  Ret ({| items := m; values := values s; first_ := item; last_ := if length =? 1 then item else last_ s;
          cache_ := cache_ s; length_ := length |}, item).

Definition chain (before_item item after_item : Z) (s : list_state) : outcome (list_state * Z) :=
  m ← set_prev item before_item (items s);
  m ← set_next before_item item m;
  m ← set_next item after_item m;
  m ← set_prev after_item item m;
  Ret ({| items := m; values := values s; first_ := first_ s; last_ := last_ s; cache_ := cache_ s;
          length_ := u32 (length_ s + 1) |}, item).

Definition insert_item_before (after_item item : Z) (s : list_state) : outcome (list_state * Z) :=
  if (length_ s <=? 1) || null after_item then prepend_item item s else
  a ← get (items s) after_item;
  let before_item := prev a in
  if null before_item then prepend_item item s else chain before_item item after_item s.

Definition insert_item_after (before_item item : Z) (s : list_state) : outcome (list_state * Z) :=
  if (length_ s <=? 1) || null before_item then append_item item s else
  b ← get (items s) before_item;
  let after_item := next b in
  if null after_item then append_item item s else chain before_item item after_item s.

Definition append (val : T) (s : list_state) : outcome (list_state * Z) :=
  a ← allocate_ val s; append_item a.2 a.1.

Definition prepend (val : T) (s : list_state) : outcome (list_state * Z) :=
  a ← allocate_ val s; prepend_item a.2 a.1.

Definition insert_before (pos : Z) (val : T) (s : list_state) : outcome (list_state * Z) :=
  a ← allocate_ val s; insert_item_before pos a.2 a.1.

Definition insert_after (pos : Z) (val : T) (s : list_state) : outcome (list_state * Z) :=
  a ← allocate_ val s; insert_item_after pos a.2 a.1.

Definition remove (item : Z) (s : list_state) : outcome list_state :=
  if null item then Ret s else
  i ← get (items s) item;
  let prev := prev i in
  let next := next i in
  m ← (if null next then Ret (items s) else set_prev next prev (items s));
  m ← (if null prev then Ret m else set_next prev next m);
  Ret {| items := m; values := values s; first_ := if null prev then next else first_ s;
         last_ := if null next then prev else last_ s; cache_ := cache_ s; length_ := u32 (length_ s - 1) |}.

Definition first (s : list_state) : Z := if null (first_ s) then 0 else first_ s.
Definition last (s : list_state) : Z := if null (last_ s) then 0 else last_ s.

Definition pop (s : list_state) : outcome (list_state * Z) :=
  let ret := last s in
  s ← remove ret s;
  Ret (s, ret).

(** [*handle]. *)
Definition deref (s : list_state) (handle : Z) : outcome T :=
  match items s !! handle, values s !! handle with Some _, Some v => Ret v | _, _ => Fault end.

(** ** Representation *)

(** The list is the sequence of the items [ids]. *)
Record linked (s : list_state) (ids : list Z) : Prop := {
  linked_first : first_ s = hd 0 ids;
  linked_last : last_ s = List.last ids 0;
  linked_length : length_ s = Z.of_nat (length ids);
  linked_bound : Z.of_nat (length ids) < 2 ^ 32;
  linked_nodup : NoDup ids;
  linked_nonnull : 0 ∉ ids;
  linked_seg : dseg (items s) 0 ids 0
}.

(** Items linked through [next]. *)
Fixpoint cseg (m : heap) (ids : list Z) : Prop :=
  match ids with
  | [] => True
  | x :: xs => (exists p, m !! x = Some {| prev := p; next := hd 0 xs |}) /\ cseg m xs
  end.

(** The list holds the items [kvs], with their values, and caches [cached]. *)
Record rep (s : list_state) (kvs : list (Z * T)) (cached : list Z) : Prop := {
  rep_linked : linked s kvs.*1;
  rep_values : Forall (fun kv => values s !! kv.1 = Some kv.2) kvs;
  rep_cache : cache_ s = hd 0 cached;
  rep_cseg : cseg (items s) cached;
  rep_cnodup : NoDup cached;
  rep_cnonnull : 0 ∉ cached;
  rep_disjoint : kvs.*1 ## cached
}.

(** Nothing outside of [xs] has changed. *)
Definition keeps (s s' : list_state) (xs : list Z) : Prop :=
  forall y, is_Some (items s !! y) -> y ∉ xs -> items s' !! y = items s !! y /\ values s' !! y = values s !! y.

Lemma cseg_ext m m' ids : (forall x, x ∈ ids -> m' !! x = m !! x) -> cseg m ids -> cseg m' ids.
Proof.
  induction ids as [|x ids IH]; [done|]. intros Hx [(p & Hp) Hs]. split.
  - exists p. rewrite Hx by left. done.
  - apply IH; [|done]. intros y Hy. apply Hx. by right.
Qed.

Lemma cseg_is_Some m ids x : cseg m ids -> x ∈ ids -> is_Some (m !! x).
Proof.
  induction ids as [|y ids IH]; [by intros _ ?%elem_of_nil|]. intros [(p & Hp) Hs] [->|Hx]%elem_of_cons; eauto.
Qed.

Lemma dseg_cseg m ids : forall p, dseg m p ids 0 -> cseg m ids.
Proof. induction ids as [|x ids IH]; intros p; [done|]. intros [Hx Hs]. split; [by exists p|by eapply IH]. Qed.

Lemma null_in (ids : list Z) x : 0 ∉ ids -> x ∈ ids -> null x = false.
Proof. intros H0 Hx. apply Z.eqb_neq. by intros ->. Qed.

Lemma last_in (ids : list Z) : ids <> [] -> List.last ids 0 ∈ ids.
Proof.
  destruct ids as [|x ids _] using rev_ind; [done|]. intros _. rewrite List.last_last. apply elem_of_app. right. left.
Qed.

(** ** Insertion of an item *)

(** [ins] puts the item [x] between the items [a] and [b]. *)
Definition inserts (ins : list_state -> outcome (list_state * Z)) (x : Z) (a b : list Z) : Prop :=
  forall s, linked s (a ++ b) -> is_Some (items s !! x) -> x ∉ a ++ b -> x <> 0 ->
    Z.of_nat (length (a ++ b)) + 1 < 2 ^ 32 ->
    exists s', ins s = Ret (s', x) /\ linked s' (a ++ x :: b) /\ cache_ s' = cache_ s /\ values s' = values s /\
      forall y, y ∉ x :: a ++ b -> items s' !! y = items s !! y.

Lemma linked_nodup_insert (a b : list Z) x : NoDup (a ++ b) -> x ∉ a ++ b -> NoDup (a ++ x :: b).
Proof. intros. rewrite <- Permutation_middle. by constructor. Qed.

Lemma append_item_inserts x ids : inserts (append_item x) x ids [].
Proof.
  intros s Hl Hx Hni Hx0 Hlen. rewrite app_nil_r in *. destruct Hl as [Hf Hla Hn _ Hnd H0 Hd]. unfold append_item.
  rewrite set_prev_ret by done. cbn [mbind outcome_bind].
  rewrite set_next_ret by eauto with granary. cbn [mbind outcome_bind]. rewrite Hla, Hn, wrap_small by lia.
  set (m1 := with_next x 0 (with_prev x (List.last ids 0) (items s))).
  assert (E : (if null (List.last ids 0) then Ret m1 else set_next (List.last ids 0) x m1) = Ret (link_last (items s) ids x)).
  { destruct (decide (ids = [])) as [->|Hne]; [done|]. pose proof (last_in ids Hne) as Hin. rewrite (null_in ids _ H0 Hin).
    rewrite set_next_ret; [unfold link_last; by destruct ids|]. apply with_next_is_Some, with_prev_is_Some. by eapply dseg_is_Some. }
  rewrite E. cbn [mbind outcome_bind]. eexists. split; [reflexivity|]. split; [|split; [done|split; [done|]]].
  - split; cbn [first_ last_ length_ items].
    + destruct ids as [|z ids]; [done|]. destruct (Z.eqb_spec (Z.of_nat (length (z :: ids)) + 1) 1); [cbn in *; lia|]. done.
    + by rewrite List.last_last.
    + rewrite length_app. cbn. lia.
    + rewrite length_app. cbn. lia.
    + apply linked_nodup_insert; by rewrite app_nil_r.
    + rewrite not_elem_of_app, not_elem_of_cons. split; [done|]. split; [congruence|]. apply not_elem_of_nil.
    + by apply link_last_seg.
  - intros y Hy. by apply link_last_other.
Qed.

Lemma prepend_item_inserts x ids : inserts (prepend_item x) x [] ids.
Proof.
  intros s Hl Hx Hni Hx0 Hlen. cbn [app] in *. destruct Hl as [Hf Hla Hn _ Hnd H0 Hd]. unfold prepend_item.
  rewrite set_next_ret by done. cbn [mbind outcome_bind].
  rewrite set_prev_ret by eauto with granary. cbn [mbind outcome_bind]. rewrite Hf, Hn, wrap_small by lia.
  set (m1 := with_prev x 0 (with_next x (hd 0 ids) (items s))).
  assert (E : (if null (hd 0 ids) then Ret m1 else set_prev (hd 0 ids) x m1) = Ret (link_first (items s) ids x)).
  { destruct ids as [|y ids]; [done|]. cbn [hd]. rewrite (null_in _ y H0) by left.
    rewrite set_prev_ret; [done|]. apply with_prev_is_Some, with_next_is_Some. eapply dseg_is_Some; [done|left]. }
  rewrite E. cbn [mbind outcome_bind]. eexists. split; [reflexivity|]. split; [|split; [done|split; [done|]]].
  - split; cbn [first_ last_ length_ items].
    + done.
    + rewrite last_cons. destruct ids as [|y ids]; [done|].
      destruct (Z.eqb_spec (Z.of_nat (length (y :: ids)) + 1) 1); [cbn in *; lia|]. by rewrite Hla, !last_cons.
    + cbn [length]. lia.
    + cbn [length]. lia.
    + by constructor.
    + rewrite not_elem_of_cons. done.
    + by apply link_first_seg.
  - intros y Hy. by apply link_first_other.
Qed.

Lemma chain_inserts x a y z b : inserts (chain y x z) x (a ++ [y]) (z :: b).
Proof.
  intros s Hl Hx Hni Hx0 Hlen. destruct Hl as [Hf Hla Hn _ Hnd H0 Hd]. unfold chain.
  assert (Hy : is_Some (items s !! y)).
  { eapply dseg_is_Some; [done|]. apply elem_of_app. left. apply elem_of_app. right. left. }
  assert (Hz : is_Some (items s !! z)).
  { eapply dseg_is_Some; [done|]. apply elem_of_app. right. left. }
  rewrite set_prev_ret by done. cbn [mbind outcome_bind].
  do 2 (rewrite set_next_ret by eauto with granary; cbn [mbind outcome_bind]).
  rewrite set_prev_ret by eauto with granary. cbn [mbind outcome_bind]. fold (link_between (items s) y x z).
  eexists. split; [reflexivity|]. split; [|split; [done|split; [done|]]].
  - split; cbn [first_ last_ length_ items].
    + rewrite Hf, !hd_app. by destruct a.
    + rewrite Hla. change (x :: z :: b) with ([x] ++ z :: b).
      destruct (z :: b) as [|w l _] eqn:E using rev_ind; [done|]. by rewrite !app_assoc, !List.last_last.
    + rewrite Hn, wrap_small by lia. rewrite !length_app. cbn [length]. lia.
    + rewrite !length_app in *. cbn [length] in *. lia.
    + by apply linked_nodup_insert.
    + apply not_elem_of_app in H0 as [H0a H0b]. rewrite not_elem_of_app, not_elem_of_cons. done.
    + by apply link_between_seg.
  - intros w [Hwx [Hwa Hwb]%not_elem_of_app]%not_elem_of_cons. apply not_elem_of_app in Hwa as [_ Hwy].
    rewrite list_elem_of_singleton in Hwy. apply not_elem_of_cons in Hwb as [Hwz _]. by apply link_between_other.
Qed.

Lemma insert_item_before_inserts x a z b : inserts (insert_item_before z x) x a (z :: b).
Proof.
  intros s Hl Hx Hni Hx0 Hlen. pose proof (linked_nonnull _ _ Hl) as H0. unfold insert_item_before.
  rewrite (null_in _ z H0), orb_false_r, (linked_length _ _ Hl) by (apply elem_of_app; right; left).
  destruct (Z.leb_spec (Z.of_nat (length (a ++ z :: b))) 1) as [Hle|Hgt].
  { rewrite length_app in Hle. cbn in Hle. destruct a; [|cbn in Hle; lia]. by apply prepend_item_inserts. }
  rewrite (get_ret _ _ _ (dseg_lookup _ _ _ _ _ _ (linked_seg _ _ Hl))). cbn [mbind outcome_bind prev].
  destruct a as [|y a _] using rev_ind; [by apply prepend_item_inserts|]. rewrite List.last_last.
  rewrite (null_in _ y H0) by (apply elem_of_app; left; apply elem_of_app; right; left). by apply chain_inserts.
Qed.

Lemma insert_item_after_inserts x a y b : inserts (insert_item_after y x) x (a ++ [y]) b.
Proof.
  intros s Hl Hx Hni Hx0 Hlen. pose proof (linked_nonnull _ _ Hl) as H0. unfold insert_item_after.
  rewrite (null_in _ y H0), orb_false_r, (linked_length _ _ Hl)
    by (apply elem_of_app; left; apply elem_of_app; right; left).
  destruct (Z.leb_spec (Z.of_nat (length ((a ++ [y]) ++ b))) 1) as [Hle|Hgt].
  { rewrite !length_app in Hle. cbn in Hle. destruct b; [|cbn in Hle; lia]. by apply append_item_inserts. }
  pose proof (linked_seg _ _ Hl) as Hd. rewrite <- app_assoc in Hd.
  rewrite (get_ret _ _ _ (dseg_lookup _ _ _ _ _ _ Hd)). cbn [mbind outcome_bind next app].
  destruct b as [|z b]; [by apply append_item_inserts|]. cbn [hd].
  rewrite (null_in _ z H0) by (apply elem_of_app; right; left). by apply chain_inserts.
Qed.

(** ** Allocation *)
Context (malloc_fresh : forall m, (malloc m).1 <> 0 /\ m !! (malloc m).1 = None).

Lemma linked_ext s s' ids :
  linked s ids -> first_ s' = first_ s -> last_ s' = last_ s -> length_ s' = length_ s ->
  (forall x, x ∈ ids -> items s' !! x = items s !! x) -> linked s' ids.
Proof.
  intros [Hf Hl Hn Hb Hnd H0 Hd] Ef El En Ex. split; try congruence. by eapply dseg_ext.
Qed.

Lemma rep_is_Some s kvs cached x : rep s kvs cached -> x ∈ kvs.*1 ++ cached -> is_Some (items s !! x).
Proof.
  intros Hr [Hx|Hx]%elem_of_app; [eapply dseg_is_Some; [apply (linked_seg _ _ (rep_linked _ _ _ Hr))|done]|].
  eapply cseg_is_Some; [apply (rep_cseg _ _ _ Hr)|done].
Qed.

Lemma values_insert s (kvs : list (Z * T)) x v :
  x ∉ kvs.*1 -> Forall (fun kv => values s !! kv.1 = Some kv.2) kvs ->
  Forall (fun kv => <[x := v]> (values s) !! kv.1 = Some kv.2) kvs.
Proof.
  intros Hx. rewrite !list.Forall_forall. intros H kv Hkv. rewrite lookup_insert_ne; [by apply H|].
  intros ->. apply Hx. apply list_elem_of_fmap. by exists kv.
Qed.

(** What allocation gives: an item outside of the list and its cache. *)
Record allocated (s : list_state) (kvs : list (Z * T)) (cached : list Z) (v : T) (s1 : list_state) (x : Z) (cached1 : list Z) : Prop := {
  al_rep : rep s1 kvs cached1;
  al_nonnull : x <> 0;
  al_not_in : x ∉ kvs.*1;
  al_not_cached : x ∉ cached1;
  al_item : is_Some (items s1 !! x);
  al_value : values s1 !! x = Some v;
  al_origin : x ∈ cached \/ items s !! x = None;
  al_cached : cached1 = match cached with [] => [] | _ :: c => c end;
  al_keeps : keeps s s1 [x]
}.

Lemma allocate_rep s kvs cached v : rep s kvs cached ->
  exists s1 x cached1, allocate_ v s = Ret (s1, x) /\ allocated s kvs cached v s1 x cached1.
Proof.
  intros Hr. pose proof (rep_is_Some s kvs cached) as Hsome. pose proof Hr as [Hl Hv Hc Hcs Hcn Hc0 Hdis]. unfold allocate_.
  assert (Hk : forall x n c, keeps s {| items := <[x := n]> (items s); values := <[x := v]> (values s); first_ := first_ s;
                                        last_ := last_ s; cache_ := c; length_ := length_ s |} [x]).
  { intros x n c y _ Hy%not_elem_of_cons. cbn. destruct Hy as [Hy _]. by rewrite !lookup_insert_ne by congruence. }
  assert (Hlx : forall x n c, x ∉ kvs.*1 -> linked {| items := <[x := n]> (items s); values := <[x := v]> (values s); first_ := first_ s;
                                        last_ := last_ s; cache_ := c; length_ := length_ s |} kvs.*1).
  { intros x n c Hx. eapply linked_ext; [exact Hl|done..|]. intros y Hy. cbn. rewrite lookup_insert_ne; [done|]. by intros ->. }
  rewrite Hc. destruct cached as [|x c]; cbn [hd].
  - change (null 0) with true. cbn [mbind outcome_bind fst snd]. destruct (malloc_fresh (items s)) as [Hx0 Hxn].
    set (x := (malloc (items s)).1) in *.
    assert (Hx : x ∉ kvs.*1).
    { intros Hx. destruct (Hsome x Hr) as [n Hn]; [apply elem_of_app; by left|]. congruence. }
    eexists _, x, []. split; [reflexivity|]. split; try done; try (apply not_elem_of_nil); try (cbn; rewrite lookup_insert_eq; eauto; fail); [|by right].
    split; try done; [by apply Hlx|by apply values_insert].
  - rewrite (null_in (x :: c) x Hc0) by left. destruct Hcs as [(p & Hp) Hcs]. rewrite (get_ret _ _ _ Hp).
    cbn [mbind outcome_bind fst snd next]. apply NoDup_cons in Hcn as [Hxc Hcn]. apply not_elem_of_cons in Hc0 as [Hx0 Hc0].
    assert (Hx : x ∉ kvs.*1) by (intros Hx; apply (Hdis x Hx); left).
    eexists _, x, c. split; [reflexivity|]. split; try done; try congruence; try (cbn; rewrite lookup_insert_eq; eauto; fail); [|left; left].
    split; try done; [by apply Hlx|by apply values_insert| |].
    + cbn. eapply cseg_ext; [|exact Hcs]. intros y Hy. rewrite lookup_insert_ne; [done|]. by intros ->.
    + intros y Hy Hyc. apply (Hdis y Hy). by right.
Qed.

(** ** The operations *)
Lemma insert_rep (ins : Z -> list_state -> outcome (list_state * Z)) s a b cached v :
  rep s (a ++ b) cached -> Z.of_nat (length (a ++ b)) + 1 < 2 ^ 32 -> (forall x, inserts (ins x) x a.*1 b.*1) ->
  exists s' x cached', (p ← allocate_ v s; ins p.2 p.1) = Ret (s', x) /\ rep s' (a ++ (x, v) :: b) cached' /\
    (x ∉ (a ++ b).*1) /\ keeps s s' ((a ++ b).*1 ++ cached).
Proof.
  intros Hr Hlen Hins. destruct (allocate_rep s (a ++ b) cached v Hr) as (s1 & x & c1 & -> & [[Hl Hv Hc Hcs Hcn Hc0 Hdis] Hx0 Hxn Hxc Hxi Hxv Hor Ec Hk]).
  cbn [mbind outcome_bind fst snd]. rewrite fmap_app in *.
  destruct (Hins x s1 Hl Hxi Hxn Hx0) as (s2 & -> & Hl2 & Ec2 & Ev2 & Hf2).
  { rewrite length_app in *. rewrite !length_fmap. lia. }
  assert (Hkeep : forall y, y ∈ c1 -> items s2 !! y = items s1 !! y).
  { intros y Hy. apply Hf2. intros [->|Hy2]%elem_of_cons; [done|]. by apply (Hdis y). }
  exists s2, x, c1. split; [done|]. split; [|split; [done|]].
  - split; try done.
    + by rewrite fmap_app.
    + rewrite Ev2. apply Forall_app in Hv as [Hva Hvb]. apply Forall_app. split; [done|]. constructor; [done|done].
    + congruence.
    + by eapply cseg_ext.
    + rewrite fmap_app, fmap_cons. intros y [Hy|[->|Hy]%elem_of_cons]%elem_of_app Hyc; [|done|].
      * apply (Hdis y); [apply elem_of_app; by left|done].
      * apply (Hdis y); [apply elem_of_app; by right|done].
  - intros y Hy Hni. rewrite Ev2.
    assert (Hyx : y <> x).
    { intros ->. destruct Hor as [Hor|Hor]; [apply Hni, elem_of_app; by right|]. rewrite Hor in Hy. by destruct Hy. }
    destruct (Hk y Hy) as [<- <-]; [by rewrite list_elem_of_singleton|]. split; [|done]. apply Hf2.
    apply not_elem_of_app in Hni as [Hni _]. rewrite not_elem_of_cons. done.
Qed.

Lemma remove_linked s a x b : linked s (a ++ x :: b) ->
  exists s', remove x s = Ret s' /\ linked s' (a ++ b) /\ cache_ s' = cache_ s /\ values s' = values s /\
    forall y, y ∉ a ++ b -> items s' !! y = items s !! y.
Proof.
  intros [Hf Hla Hn Hb Hnd H0 Hd]. unfold remove.
  rewrite (null_in _ x H0), (get_ret _ _ _ (dseg_lookup _ _ _ _ _ _ Hd)) by (apply elem_of_app; right; left).
  cbn [mbind outcome_bind prev next].
  assert (H0a : 0 ∉ a) by (intros H; apply H0, elem_of_app; by left).
  assert (H0b : 0 ∉ b) by (intros H; apply H0, elem_of_app; right; by right).
  assert (Hlast : null (List.last a 0) = bool_decide (a = [])).
  { destruct (decide (a = [])) as [->|Hne]; [done|]. by rewrite (null_in a _ H0a (last_in a Hne)), bool_decide_false. }
  assert (Hhd : null (hd 0 b) = bool_decide (b = [])).
  { destruct b as [|z b]; [done|]. cbn [hd]. by rewrite (null_in _ z H0b) by left. }
  assert (Eu : (m ← (if null (hd 0 b) then Ret (items s) else set_prev (hd 0 b) (List.last a 0) (items s));
                if null (List.last a 0) then Ret m else set_next (List.last a 0) (hd 0 b) m) =
               Ret (InstructionList.unlink (items s) a b)).
  { rewrite Hlast, Hhd. unfold InstructionList.unlink. destruct b as [|z b].
    - rewrite (bool_decide_true ([] = [])) by done. cbn [mbind outcome_bind hd]. destruct a as [|y a]; [done|].
      rewrite bool_decide_false by done. rewrite set_next_ret; [done|].
      eapply dseg_is_Some; [exact Hd|]. apply elem_of_app. left. by apply last_in.
    - rewrite (bool_decide_false (z :: b = [])) by done. cbn [hd].
      rewrite set_prev_ret by (eapply dseg_is_Some; [exact Hd|]; apply elem_of_app; right; right; left).
      cbn [mbind outcome_bind]. destruct a as [|y a]; [done|]. rewrite bool_decide_false by done.
      rewrite set_next_ret; [|apply with_prev_is_Some; eapply dseg_is_Some; [exact Hd|]; apply elem_of_app; left; by apply last_in].
      f_equal. unfold with_next, with_prev. symmetry. apply alter_alter_ne. intros E.
      apply NoDup_app in Hnd as (_ & Hdis & _). apply (Hdis z); [rewrite E; by apply last_in|right; left]. }
  destruct (if null (hd 0 b) then Ret (items s) else set_prev (hd 0 b) (List.last a 0) (items s)) as [m1| |];
    cbn [mbind outcome_bind] in Eu |- *; [|discriminate Eu..]. rewrite Eu. cbn [mbind outcome_bind].
  eexists. split; [reflexivity|]. split; [|split; [done|split; [done|]]].
  - rewrite length_app in *. cbn [length] in *. split; cbn [first_ last_ length_ items].
    + rewrite Hlast, Hf, !hd_app. destruct a; [done|]. by rewrite bool_decide_false.
    + rewrite Hhd, Hla. destruct b as [|z b]; [by rewrite app_nil_r|]. rewrite bool_decide_false by done.
      destruct (z :: b) as [|w l _] eqn:E using rev_ind; [done|].
      change (a ++ x :: l ++ [w]) with (a ++ (x :: l) ++ [w]). by rewrite !app_assoc, !List.last_last.
    + rewrite length_app, Hn, wrap_small by lia. lia.
    + rewrite length_app. lia.
    + rewrite <- Permutation_middle in Hnd. by apply NoDup_cons in Hnd as [_ ?].
    + by rewrite not_elem_of_app.
    + by eapply InstructionList.unlink_seg.
  - intros y Hy. by apply InstructionList.unlink_lookup.
Qed.

Lemma remove_list_rep s a x v b cached : rep s (a ++ (x, v) :: b) cached ->
  exists s', remove x s = Ret s' /\ rep s' (a ++ b) cached /\ deref s' x = Ret v /\ keeps s s' ((a ++ b).*1).
Proof.
  intros [Hl Hv Hc Hcs Hcn Hc0 Hdis]. rewrite fmap_app, fmap_cons in Hl. cbn [fst] in Hl.
  pose proof (linked_nodup _ _ Hl) as Hnd. rewrite <- Permutation_middle in Hnd. apply NoDup_cons in Hnd as [Hx _].
  pose proof (dseg_lookup _ _ _ _ _ _ (linked_seg _ _ Hl)) as Hxi.
  destruct (remove_linked s _ x _ Hl) as (s' & E & Hl' & Ec & Ev & Hf). exists s'. split; [done|].
  apply Forall_app in Hv as [Hva [Hvx Hvb]%List.Forall_cons_iff]. cbn [fst snd] in Hvx.
  assert (Hsub : forall y, y ∈ a.*1 ++ b.*1 -> y ∉ cached).
  { intros y Hy Hyc. apply (Hdis y); [|done]. rewrite fmap_app, fmap_cons. rewrite elem_of_app, elem_of_cons.
    apply elem_of_app in Hy as [?|?]; tauto. }
  split; [|split].
  - split; try congruence.
    + by rewrite fmap_app.
    + rewrite Ev. by apply Forall_app.
    + eapply cseg_ext; [|exact Hcs]. intros y Hy. apply Hf. intros H. by apply (Hsub y H).
    + rewrite fmap_app. intros y Hy. by apply Hsub.
  - unfold deref. by rewrite Ev, Hf, Hxi, Hvx.
  - intros y _ Hy. rewrite fmap_app in Hy. rewrite Ev. split; [by apply Hf|done].
Qed.

(** ** Refinement of sequences *)
Inductive op :=
  | Append (v : T)
  | Prepend (v : T)
  | InsertBefore (pos : Z) (v : T)
  | InsertAfter (pos : Z) (v : T)
  | Remove (item : Z)
  | Pop
  | ClearForReuse.

(** The state and the handle that an operation returns, null if it returns
    none. *)
Definition run_op (o : op) (s : list_state) : outcome (list_state * Z) :=
  match o with
  | Append v => append v s
  | Prepend v => prepend v s
  | InsertBefore pos v => insert_before pos v s
  | InsertAfter pos v => insert_after pos v s
  | Remove item => s ← remove item s; Ret (s, 0)
  | Pop => pop s
  | ClearForReuse => s ← clear_for_reuse s; Ret (s, 0)
  end.

(** The same on sequences, as a relation between the items before, the items
    after and the handle [h] that is returned. *)
Inductive spec_op : op -> list (Z * T) -> list (Z * T) -> Z -> Prop :=
  | spec_append v kvs h : h ∉ kvs.*1 -> spec_op (Append v) kvs (kvs ++ [(h, v)]) h
  | spec_prepend v kvs h : h ∉ kvs.*1 -> spec_op (Prepend v) kvs ((h, v) :: kvs) h
  | spec_insert_before a pos w b v h : h ∉ (a ++ (pos, w) :: b).*1 ->
      spec_op (InsertBefore pos v) (a ++ (pos, w) :: b) (a ++ (h, v) :: (pos, w) :: b) h
  | spec_insert_after a pos w b v h : h ∉ (a ++ (pos, w) :: b).*1 ->
      spec_op (InsertAfter pos v) (a ++ (pos, w) :: b) (a ++ (pos, w) :: (h, v) :: b) h
  | spec_remove a x w b : spec_op (Remove x) (a ++ (x, w) :: b) (a ++ b) 0
  | spec_pop a x w : spec_op Pop (a ++ [(x, w)]) a x
  | spec_pop_empty : spec_op Pop [] [] 0
  | spec_clear_for_reuse kvs : spec_op ClearForReuse kvs [] 0.

(** Positions and removed items are in the list; the length does not wrap. *)
Definition op_ok (o : op) (kvs : list (Z * T)) : Prop :=
  match o with
  | Append _ | Prepend _ => Z.of_nat (length kvs) + 1 < 2 ^ 32
  | InsertBefore pos _ | InsertAfter pos _ => Z.of_nat (length kvs) + 1 < 2 ^ 32 /\ pos ∈ kvs.*1
  | Remove item => item ∈ kvs.*1
  | Pop | ClearForReuse => True
  end.

Lemma split_at (kvs : list (Z * T)) x : x ∈ kvs.*1 -> exists a w b, kvs = a ++ (x, w) :: b.
Proof. intros ([y w] & -> & (a & b & ->)%list_elem_of_split)%list_elem_of_fmap. eauto. Qed.

Lemma cseg_app m a : forall b, NoDup (a ++ b) -> 0 ∉ a -> cseg m a -> cseg m b -> a <> [] ->
  cseg (with_next (List.last a 0) (hd 0 b) m) (a ++ b).
Proof.
  induction a as [|x a IH]; [done|]. intros b Hnd H0 [(p & Hp) Ha] Hb _.
  apply NoDup_cons in Hnd as [Hx Hnd]. apply not_elem_of_cons in H0 as [Hx0 H0]. rewrite last_cons.
  destruct (decide (a = [])) as [->|Hne].
  - cbn [List.last app hd cseg]. split; [|eapply cseg_ext; [|exact Hb]; intros y Hy; rewrite lookup_with_next; case_decide; [by subst|done]].
    exists p. rewrite lookup_with_next. case_decide; [|done]. by rewrite Hp.
  - assert (El : List.last a x = List.last a 0).
    { destruct a as [|y a]; [done|]. by rewrite !last_cons. }
    rewrite El. split; [|by apply IH].
    exists p. rewrite lookup_with_next. case_decide as E.
    + exfalso. apply Hx, elem_of_app. left. rewrite <- E. by apply last_in.
    + rewrite Hp. by destruct a.
Qed.

Lemma linked_empty m vs c n : n = 0 -> linked {| items := m; values := vs; first_ := 0; last_ := 0; cache_ := c; length_ := n |} [].
Proof. intros ->. split; try done; [constructor|apply not_elem_of_nil]. Qed.

Lemma clear_for_reuse_rep s kvs cached : rep s kvs cached ->
  exists s', clear_for_reuse s = Ret s' /\ rep s' [] (kvs.*1 ++ cached) /\ values s' = values s /\ keeps s s' (kvs.*1).
Proof.
  intros Hr. pose proof Hr as [Hl Hv Hc Hcs Hcn Hc0 Hdis]. unfold clear_for_reuse. rewrite (linked_first _ _ Hl).
  destruct (decide (kvs = [])) as [->|Hne]; [by exists s|].
  assert (Hne1 : kvs.*1 <> []) by (by destruct kvs).
  pose proof (linked_nonnull _ _ Hl) as H0. pose proof (linked_seg _ _ Hl) as Hd.
  assert (Hh : hd 0 kvs.*1 ∈ kvs.*1) by (destruct (kvs.*1); [done|left]).
  rewrite (null_in _ _ H0 Hh), (linked_last _ _ Hl), Hc. pose proof (last_in _ Hne1) as Hlast.
  rewrite set_next_ret by (by eapply dseg_is_Some). cbn [mbind outcome_bind].
  assert (Hnd : NoDup (kvs.*1 ++ cached)).
  { apply NoDup_app. split; [apply (linked_nodup _ _ Hl)|]. split; [|done]. intros y Hy Hy'. by apply (Hdis y). }
  eexists. split; [reflexivity|]. split; [|split; [done|]].
  - split; try done; cbn [cache_ items].
    + by apply linked_empty.
    + by destruct (kvs.*1).
    + apply cseg_app; try done. by eapply dseg_cseg.
    + by rewrite not_elem_of_app.
    + intros y Hy%elem_of_nil. done.
  - intros y _ Hy. cbn. split; [|done]. rewrite lookup_with_next. case_decide as E; [|done]. by subst.
Qed.

Lemma last_fmap (a : list (Z * T)) x w : List.last (a ++ [(x, w)]).*1 0 = x.
Proof. rewrite fmap_app. apply List.last_last. Qed.

Lemma rep_deref s kvs cached x w : rep s kvs cached -> (x, w) ∈ kvs -> deref s x = Ret w.
Proof.
  intros Hr Hx. unfold deref. destruct (rep_is_Some _ _ _ x Hr) as [n ->].
  { apply elem_of_app. left. apply list_elem_of_fmap. by exists (x, w). }
  pose proof (rep_values _ _ _ Hr) as Hv. rewrite list.Forall_forall in Hv. specialize (Hv (x, w) Hx). cbn in Hv. by rewrite Hv.
Qed.

Lemma run_list_op_rep o s kvs cached : rep s kvs cached -> op_ok o kvs ->
  exists s' h kvs' cached', run_op o s = Ret (s', h) /\ spec_op o kvs kvs' h /\ rep s' kvs' cached' /\
    keeps s s' (kvs.*1 ++ cached) /\ forall x w, (x, w) ∈ kvs -> deref s' x = Ret w.
Proof.
  intros Hr Hok.
  assert (Hkeep : forall s' xs, keeps s s' xs -> (forall y, y ∈ xs -> y ∈ kvs.*1 ++ cached) -> keeps s s' (kvs.*1 ++ cached)).
  { intros s' xs Hk Hsub y Hy Hn. apply Hk; [done|]. by intros ?%Hsub. }
  assert (Hin : forall (a b : list (Z * T)) x w, kvs = a ++ (x, w) :: b -> forall y, y ∈ (a ++ b).*1 -> y ∈ kvs.*1 ++ cached).
  { intros a b x w -> y. rewrite !fmap_app, !elem_of_app, fmap_cons, elem_of_cons. tauto. }
  destruct o as [v|v|pos v|pos v|x| |]; cbn [op_ok run_op] in *.
  - rewrite <- (app_nil_r kvs) in Hr, Hok. destruct (insert_rep append_item s kvs [] cached v) as (s' & x & c & E & Hr' & Hx & Hk); [done|done|intros x; apply append_item_inserts|].
    rewrite app_nil_r in *. exists s', x, (kvs ++ [(x, v)]), c. split; [done|]. split; [by constructor|]. split; [done|]. split; [done|].
    intros y u Hy. apply (rep_deref _ _ _ _ _ Hr'). rewrite ?elem_of_app, ?elem_of_cons in *. tauto.
  - destruct (insert_rep prepend_item s [] kvs cached v) as (s' & x & c & E & Hr' & Hx & Hk); [done|done|intros x; apply prepend_item_inserts|].
    exists s', x, ((x, v) :: kvs), c. split; [done|]. split; [by constructor|]. split; [done|]. split; [done|].
    intros y u Hy. apply (rep_deref _ _ _ _ _ Hr'). rewrite ?elem_of_app, ?elem_of_cons in *. tauto.
  - destruct Hok as [Hlen (a & w & b & ->)%split_at].
    destruct (insert_rep (insert_item_before pos) s a ((pos, w) :: b) cached v) as (s' & x & c & E & Hr' & Hx & Hk); [done|done|intros x; apply insert_item_before_inserts|].
    exists s', x, (a ++ (x, v) :: (pos, w) :: b), c. split; [done|]. split; [by constructor|]. split; [done|]. split; [done|].
    intros y u Hy. apply (rep_deref _ _ _ _ _ Hr'). rewrite ?elem_of_app, ?elem_of_cons in *. tauto.
  - destruct Hok as [Hlen (a & w & b & ->)%split_at].
    change (a ++ (pos, w) :: b) with (a ++ [(pos, w)] ++ b) in Hr, Hlen. rewrite (app_assoc a [_] b) in Hr, Hlen.
    destruct (insert_rep (insert_item_after pos) s (a ++ [(pos, w)]) b cached v) as (s' & x & c & E & Hr' & Hx & Hk);
      [done|done|intros x; rewrite fmap_app; apply insert_item_after_inserts|].
    rewrite <- !app_assoc in *. cbn [app] in *.
    exists s', x, (a ++ (pos, w) :: (x, v) :: b), c. split; [done|]. split; [by constructor|]. split; [done|]. split; [done|].
    intros y u Hy. apply (rep_deref _ _ _ _ _ Hr'). rewrite ?elem_of_app, ?elem_of_cons in *. tauto.
  - destruct (split_at kvs x Hok) as (a & w & b & ->). destruct (remove_list_rep s a x w b cached Hr) as (s' & -> & Hr' & Hx & Hk).
    exists s', 0, (a ++ b), cached. split; [done|]. split; [constructor|]. split; [done|]. split; [eapply Hkeep; [done|]; by eapply Hin|].
    intros y u Hy. rewrite elem_of_app, elem_of_cons in Hy. destruct Hy as [Hy|[[= -> ->]|Hy]]; [|done|];
      apply (rep_deref _ _ _ _ _ Hr'), elem_of_app; tauto.
  - unfold pop, last. rewrite (linked_last _ _ (rep_linked _ _ _ Hr)).
    destruct kvs as [|[x w] a _] using rev_ind; [exists s, 0, [], cached; split; [done|]; split; [constructor|]; split; [done|]; split; [by intros y ? ?|by intros ? ? ?%elem_of_nil]|].
    rewrite last_fmap. rewrite (null_in _ x (linked_nonnull _ _ (rep_linked _ _ _ Hr)))
      by (rewrite fmap_app; apply elem_of_app; right; left).
    destruct (remove_list_rep s a x w [] cached Hr) as (s' & -> & Hr' & Hx & Hk). rewrite app_nil_r in *.
    exists s', x, a, cached. split; [done|]. split; [constructor|]. split; [done|]. split.
    { eapply Hkeep; [done|]. specialize (Hin a [] x w eq_refl). by rewrite app_nil_r in Hin. }
    intros y u Hy. apply elem_of_app in Hy as [Hy|[= -> ->]%list_elem_of_singleton]; [by apply (rep_deref _ _ _ _ _ Hr')|done].
  - destruct (clear_for_reuse_rep s kvs cached Hr) as (s' & -> & Hr' & Ev & Hk).
    exists s', 0, [], (kvs.*1 ++ cached). split; [done|]. split; [constructor|]. split; [done|]. split.
    { eapply Hkeep; [done|]. intros y Hy. apply elem_of_app. by left. }
    intros y u Hy. unfold deref. rewrite Ev. destruct (rep_is_Some _ _ _ y Hr') as [n ->].
    { cbn [fmap list_fmap app]. apply elem_of_app. left. apply list_elem_of_fmap. by exists (y, u). }
    pose proof (rep_values _ _ _ Hr) as Hv. rewrite list.Forall_forall in Hv. specialize (Hv (y, u) Hy). cbn in Hv. by rewrite Hv.
Qed.

(** ** Clearing *)
Lemma free_all_ret ids : forall fuel m, cseg m ids -> NoDup ids -> 0 ∉ ids -> (length ids <= fuel)%nat ->
  exists m', free_all fuel (hd 0 ids) m = Ret m' /\ (forall x, x ∈ ids -> m' !! x = None) /\
    forall x, x ∉ ids -> m' !! x = m !! x.
Proof.
  induction ids as [|x ids IH]; intros fuel m Hs Hnd H0 Hf.
  { exists m. split; [by destruct fuel|]. split; [by intros x ?%elem_of_nil|done]. }
  destruct fuel as [|fuel]; [cbn in Hf; lia|]. cbn [free_all hd]. rewrite (null_in (x :: ids) x H0) by left.
  destruct Hs as [(p & Hp) Hs]. rewrite (get_ret _ _ _ Hp). cbn [mbind outcome_bind next].
  apply NoDup_cons in Hnd as [Hx Hnd]. apply not_elem_of_cons in H0 as [_ H0].
  destruct (IH fuel (free x m)) as (m' & -> & Hin & Hout); [|done|done|cbn in Hf; lia|].
  { eapply cseg_ext; [|exact Hs]. intros y Hy. unfold free. rewrite lookup_delete_ne; [done|]. by intros ->. }
  exists m'. split; [done|]. split.
  - intros y [->|Hy]%elem_of_cons; [|by apply Hin]. rewrite Hout by done. apply lookup_delete_eq.
  - intros y [Hyx Hy]%not_elem_of_cons. rewrite Hout by done. by apply lookup_delete_ne.
Qed.

Lemma clear_ret s kvs cached fuel : rep s kvs cached -> kvs <> [] -> (length kvs + length cached <= fuel)%nat ->
  exists s', clear fuel s = Ret s' /\ rep s' [] [] /\ (forall x, x ∈ kvs.*1 ++ cached -> items s' !! x = None) /\
    forall x, x ∉ kvs.*1 ++ cached -> items s' !! x = items s !! x.
Proof.
  intros [Hl Hv Hc Hcs Hcn Hc0 Hdis] Hne Hf. unfold clear. rewrite (linked_first _ _ Hl).
  assert (Hh : hd 0 kvs.*1 ∈ kvs.*1) by (destruct kvs; [done|left]).
  rewrite (null_in _ _ (linked_nonnull _ _ Hl) Hh).
  destruct (free_all_ret kvs.*1 fuel (items s)) as (m1 & -> & Hin1 & Hout1);
    [eapply dseg_cseg, linked_seg, Hl|apply (linked_nodup _ _ Hl)|apply (linked_nonnull _ _ Hl)|rewrite length_fmap; lia|].
  cbn [mbind outcome_bind]. rewrite Hc. destruct (free_all_ret cached fuel m1) as (m2 & -> & Hin2 & Hout2); [|done|done|lia|].
  { eapply cseg_ext; [|exact Hcs]. intros x Hx. apply Hout1. intros H. by apply (Hdis x). }
  cbn [mbind outcome_bind]. eexists. split; [reflexivity|]. split; [|split].
  - split; try done; [by apply linked_empty|constructor|apply not_elem_of_nil|by intros ? ?%elem_of_nil].
  - intros x [Hx|Hx]%elem_of_app; cbn [items]; [|by apply Hin2]. rewrite Hout2; [by apply Hin1|]. intros H. by apply (Hdis x).
  - intros x [Hx1 Hx2]%not_elem_of_app. cbn [items]. by rewrite Hout2, Hout1.
Qed.

Lemma list_ctor_rep m vs : rep (list_ctor m vs) [] [].
Proof. split; try done; [by apply linked_empty|constructor|apply not_elem_of_nil|by intros ? ?%elem_of_nil]. Qed.
End GList.

(** ** Theorems *)

(** C28 [list<T>] is a sequence of handles with values.  On a list with any
    cache, every operation succeeds, changes the sequence as its name says and
    returns a handle that was not in the list; the list and its cache stay
    well formed, no item outside of them changes, and every handle that was in
    the list before can still be dereferenced, also the one that is removed. *)
Theorem list_refines_sequence {T} malloc (o : op (T := T)) s kvs cached :
  (forall m, (malloc m).1 <> 0 /\ m !! (malloc m).1 = None) ->
  rep s kvs cached -> op_ok o kvs ->
  exists s' h kvs' cached', run_op malloc o s = Ret (s', h) /\ spec_op o kvs kvs' h /\ rep s' kvs' cached' /\
    keeps s s' (kvs.*1 ++ cached) /\ forall x w, (x, w) ∈ kvs -> deref s' x = Ret w.
Proof. intros Hm. by apply run_list_op_rep. Qed.

(** What [clear], and so the destructor, frees.  On a list that is not
    empty, exactly the items of the list and of its cache, within as many
    turns as there are items.  On an empty list nothing: the items that
    [clear_for_reuse] has put into the cache are not freed. *)
Theorem clear_frees {T} (s : list_state (T := T)) kvs cached fuel :
  rep s kvs cached -> (length kvs + length cached <= fuel)%nat ->
  exists s', clear fuel s = Ret s' /\
    (kvs <> [] -> rep s' [] [] /\ forall x, items s' !! x = (if bool_decide (x ∈ kvs.*1 ++ cached) then None else items s !! x)) /\
    (kvs = [] -> s' = s /\ forall x, x ∈ cached -> is_Some (items s' !! x)).
Proof.
  intros Hr Hf. destruct (decide (kvs = [])) as [->|Hne].
  - exists s. split; [unfold clear; by rewrite (linked_first _ _ (rep_linked _ _ _ Hr))|]. split; [done|].
    intros _. split; [done|]. intros x Hx. eapply rep_is_Some; [exact Hr|]. apply elem_of_app. by right.
  - destruct (clear_ret s kvs cached fuel Hr Hne Hf) as (s' & E & Hr' & Hin & Hout). exists s'. split; [done|].
    split; [|done]. intros _. split; [done|]. intros x. case_bool_decide as Hx; [by apply Hin|by apply Hout].
Qed.

(** ** Witnesses *)

(** An allocator: an address that is not null and not in use. *)
Definition some_malloc (m : heap) : Z * node := (fresh (0 :: (map_to_list m).*1), {| prev := 7; next := 7 |}).

Lemma some_malloc_fresh m : (some_malloc m).1 <> 0 /\ m !! (some_malloc m).1 = None.
Proof.
  cbn [some_malloc fst]. pose proof (infinite_is_fresh (0 :: (map_to_list m).*1)) as [H0 Hm]%not_elem_of_cons.
  split; [done|]. apply eq_None_not_Some. intros [n Hn]. apply Hm, list_elem_of_fmap.
  eexists (_, n). split; [reflexivity|]. by apply elem_of_map_to_list.
Defined.

(** A list of one item, with a cache of one. *)
Definition one_cached : list_state (T := Z) :=
  {| items := <[0x10 := {| prev := 0; next := 0 |}]> (<[0x20 := {| prev := 5; next := 0 |}]> ∅);
     values := <[0x10 := 3]> ∅; first_ := 0x10; last_ := 0x10; cache_ := 0x20; length_ := 1 |}.

Lemma one_cached_rep : rep one_cached [(0x10, 3)] [0x20].
Proof.
  split.
  - split; try reflexivity.
    + constructor; [apply not_elem_of_nil|constructor].
    + cbn. rewrite list_elem_of_singleton. lia.
    + split; [reflexivity|exact I].
  - constructor; [reflexivity|constructor].
  - reflexivity.
  - split; [exists 5; reflexivity|exact I].
  - constructor; [apply not_elem_of_nil|constructor].
  - rewrite list_elem_of_singleton. lia.
  - intros x Hx%list_elem_of_singleton Hy%list_elem_of_singleton. cbn in Hx. lia.
Defined.

Lemma list_refines_sequence_witness :
  exists s', prepend some_malloc 4 one_cached = Ret (s', 0x20) /\ deref s' 0x10 = Ret 3 /\ deref s' 0x20 = Ret 4.
Proof.
  destruct (list_refines_sequence some_malloc (Prepend 4) one_cached [(0x10, 3)] [0x20] some_malloc_fresh one_cached_rep)
    as (s' & h & kvs' & cached' & E & _ & _ & _ & H).
  - cbn. lia.
  - exists s'. assert (E' := E). cbn [run_op] in E'. vm_compute in E'. injection E' as <- <-.
    split; [exact E|]. split; [apply (H 0x10 3); left|reflexivity].
Defined.

Lemma clear_frees_witness : exists s', clear 2 one_cached = Ret s' /\ items s' !! 0x20 = None.
Proof.
  destruct (clear_frees one_cached [(0x10, 3)] [0x20] 2 one_cached_rep) as (s' & E & H & _); [cbn; lia|].
  exists s'. split; [exact E|]. destruct H as [_ H]; [discriminate|]. rewrite H. reflexivity.
Defined.
