(* ===== verification/Instruction.v ===== *)
(** * Replacing instructions in place: [granary/instruction.cc], [instruction.h]

    An instruction of a list is replaced by copying another one over it:
    [instruction::replace_with].  The links and the note of the instruction
    stay, so that the list and the labels that refer to it stay intact; the
    flags and the policy for the target of a branch are kept, overwritten or
    combined.  What DynamoRIO stores besides is one field.

    The theorems: every list in the store is as before, and the instruction is
    the new one with the meta-data that the constraint asks for; policies are
    combined only if they do not name two policy classes. *)

From Stdlib Require Import ZArith Lia Bool.
From stdpp Require Import base numbers list option gmap.
From S2P Require Import Prelude Utils Policy DList.

(** ** Flags *)
Definition DONT_MANGLE : Z := Z.shiftl 1 0.
Definition DELAY_BEGIN : Z := Z.shiftl 1 1.
Definition DELAY_END : Z := Z.shiftl 1 2.
Definition TARGETED_BY_CTI : Z := Z.shiftl 1 3.
Definition HOT_PATCHABLE : Z := Z.shiftl 1 4.
Definition COND_CTI_FALL_THROUGH : Z := Z.shiftl 1 5.
Definition NATIVE_INSTRUCTION : Z := Z.shiftl 1 6.

Inductive replace_constraint :=
  | REPLACE_WITH_OLD_META_DATA
  | REPLACE_WITH_NEW_META_DATA
  | REPLACE_WITH_COMBINED_META_DATA.

Section Instruction.
Context `{Config} {D : Type}.

Record instr_t := {
  op_code : Z; content : D; note : Z; links : node; granary_flags : Z; granary_policy : Z
}.

Definition with_flags (f : Z) (i : instr_t) : instr_t :=
  {| op_code := op_code i; content := content i; note := note i; links := links i; granary_flags := f; granary_policy := granary_policy i |}.

Definition add_flag (f : Z) (i : instr_t) : instr_t := with_flags (Z.lor (granary_flags i) f) i.
Definition remove_flag (f : Z) (i : instr_t) : instr_t := with_flags (Z.ldiff (granary_flags i) f) i.
Definition has_flag (f : Z) (i : instr_t) : bool := negb (Z.land f (granary_flags i) =? 0).

Abbreviation store := (gmap Z instr_t).

Definition get_instr (s : store) (x : Z) : outcome instr_t := match s !! x with Some i => Ret i | None => Fault end.

Definition null_or_valid (p : Z) : bool := (p =? 0) || is_valid_address p.

Definition replace_with (instr that : Z) (constraint : replace_constraint) (s : store) : outcome store :=
  ASSERT (is_valid_address instr) ≫= fun _ =>
  ASSERT (is_valid_address that) ≫= fun _ =>
  t ← get_instr s that;
  ASSERT (negb (op_code t =? 0)) ≫= fun _ =>
  if that =? instr then Ret s else
  i ← get_instr s instr;
  ASSERT (null_or_valid (next (links i))) ≫= fun _ =>
  ASSERT (null_or_valid (prev (links i))) ≫= fun _ =>
  let copy f p := {| op_code := op_code t; content := content t; note := note i; links := links i; granary_flags := f; granary_policy := p |} in
  match constraint with
  | REPLACE_WITH_OLD_META_DATA => Ret (<[instr := copy (granary_flags i) (granary_policy i)]> s)
  | REPLACE_WITH_NEW_META_DATA => Ret (<[instr := copy (granary_flags t) (granary_policy t)]> s)
  | REPLACE_WITH_COMBINED_META_DATA =>
      let old_policy := decode (granary_policy i) in
      let new_policy := decode (granary_policy t) in
      (if u_id old_policy =? u_id new_policy then Ret tt
       else ASSERT ((u_id old_policy =? 0) || (u_id new_policy =? 0))) ≫= fun _ =>
      Ret (<[instr := copy (Z.lor (granary_flags t) (granary_flags i)) (Z.lor (granary_policy t) (granary_policy i))]> s)
  end.

(** [clone]: [copy] is the address of the new instruction. *)
Definition clone (instr copy : Z) (s : store) : outcome store :=
  ASSERT (negb (instr =? 0)) ≫= fun _ =>
  i ← get_instr s instr;
  Ret (<[copy := {| op_code := op_code i; content := content i; note := note i; links := {| prev := 0; next := 0 |};
                    granary_flags := granary_flags i; granary_policy := granary_policy i |}]> s).

(** The store of [DList]: the links of all instructions. *)
Definition link_heap (s : store) : heap := links <$> s.

(** ** Lemmas *)
Lemma flag_bit n f : 0 <= n -> negb (Z.land (Z.shiftl 1 n) f =? 0) = Z.testbit f n.
Proof.
  intros Hn. destruct (Z.testbit f n) eqn:E.
  - destruct (Z.eqb_spec (Z.land (Z.shiftl 1 n) f) 0) as [H0|]; [|done]. exfalso.
    assert (Hb : Z.testbit (Z.land (Z.shiftl 1 n) f) n = true); [|by rewrite H0, Z.bits_0 in Hb].
    rewrite Z.land_spec, E, Z.shiftl_spec, Z.sub_diag by lia. done.
  - replace (Z.land (Z.shiftl 1 n) f) with 0; [done|]. symmetry. apply Z.bits_inj'. intros k Hk.
    rewrite Z.land_spec, Z.bits_0, Z.shiftl_1_l, Z.pow2_bits_eqb by lia. destruct (Z.eqb_spec n k); [by subst|done].
Qed.

Lemma id_lor a b : u_id (mk_policy (Z.lor a b)) = Z.lor (u_id (mk_policy a)) (u_id (mk_policy b)).
Proof.
  unfold u_id. cbn [as_raw_bits]. apply Z.bits_inj'. intros i Hi. rewrite Z.lor_spec, !testbit_get_field, Z.lor_spec by (unfold NUM_PROPERTIES, NUM_TEMPORARY_PROPERTIES, NUM_INHERITED_PROERTIES; lia).
  by rewrite andb_orb_distrib_r.
Qed.

Lemma flag_lor f a b : flag f (mk_policy (Z.lor a b)) = flag f (mk_policy a) || flag f (mk_policy b).
Proof. unfold flag, get_flag. apply Z.lor_spec. Qed.

Lemma link_heap_insert s x i j : s !! x = Some i -> links j = links i -> link_heap (<[x := j]> s) = link_heap s.
Proof.
  intros Hx Hl. unfold link_heap. rewrite fmap_insert, Hl. apply insert_id. by rewrite lookup_fmap, Hx.
Qed.

(** The meta-data of the result. *)
Definition merged (constraint : replace_constraint) (i t r : instr_t) : Prop :=
  match constraint with
  | REPLACE_WITH_OLD_META_DATA => granary_flags r = granary_flags i /\ granary_policy r = granary_policy i
  | REPLACE_WITH_NEW_META_DATA => granary_flags r = granary_flags t /\ granary_policy r = granary_policy t
  | REPLACE_WITH_COMBINED_META_DATA =>
      (forall n, 0 <= n -> has_flag (Z.shiftl 1 n) r = has_flag (Z.shiftl 1 n) i || has_flag (Z.shiftl 1 n) t) /\
      (forall f, flag f (decode (granary_policy r)) = flag f (decode (granary_policy i)) || flag f (decode (granary_policy t))) /\
      let id j := u_id (decode (granary_policy j)) in
      id r = (if id i =? 0 then id t else id i)
  end.

(** Two policies can be combined if they do not name two policy classes. *)
Definition combinable (constraint : replace_constraint) (i t : instr_t) : Prop :=
  constraint = REPLACE_WITH_COMBINED_META_DATA ->
  let id j := u_id (decode (granary_policy j)) in id i = id t \/ id i = 0 \/ id t = 0.
End Instruction.
Arguments instr_t : clear implicits.

(** C35 Replacing an instruction.  The instruction has the opcode and the
    operands of the other one, keeps its note and its place in its list, and
    has the meta-data that the constraint asks for: combined, it has a flag or
    a policy property if one of the two has it, and the policy class that one
    of them names.  Every list of instructions is as before. *)
Theorem replace_with_keeps_lists `{Config} {D} x y constraint (s : gmap Z (instr_t D)) i t :
  s !! x = Some i -> s !! y = Some t -> x <> y -> op_code t <> 0 ->
  is_valid_address x = true -> is_valid_address y = true ->
  null_or_valid (prev (links i)) = true -> null_or_valid (next (links i)) = true -> combinable constraint i t ->
  exists r s', replace_with x y constraint s = Ret s' /\ s' = <[x := r]> s /\
    op_code r = op_code t /\ content r = content t /\ note r = note i /\ merged constraint i t r /\
    forall L ids, InstructionList.rep (link_heap s, L) ids -> InstructionList.rep (link_heap s', L) ids.
Proof.
  intros Hx Hy Hne Hop Hvx Hvy Hp Hn Hc. unfold replace_with, get_instr. rewrite Hvx, Hvy, Hx, Hy.
  cbn [ASSERT mbind outcome_bind]. rewrite (proj2 (Z.eqb_neq (op_code t) 0) Hop). cbn [negb ASSERT mbind outcome_bind].
  rewrite (proj2 (Z.eqb_neq y x)) by congruence. rewrite Hp, Hn. cbn [ASSERT mbind outcome_bind].
  destruct constraint; cbn [merged].
  1,2: eexists _, _; do 5 (split; [reflexivity|]); split; [split; reflexivity|]; intros L ids; by erewrite link_heap_insert.
  specialize (Hc eq_refl). cbn zeta in Hc.
  assert (Ea : (if u_id (decode (granary_policy i)) =? u_id (decode (granary_policy t)) then Ret tt
     else ASSERT ((u_id (decode (granary_policy i)) =? 0) || (u_id (decode (granary_policy t)) =? 0))) = Ret tt).
  { destruct Hc as [->|[->| ->]]; [by rewrite Z.eqb_refl|by destruct (_ =? _)|rewrite orb_true_r; by destruct (_ =? _)]. }
  rewrite Ea. cbn [mbind outcome_bind]. eexists _, _. do 5 (split; [reflexivity|]). split.
  - split; [|split].
    + intros n Hn0. unfold has_flag. cbn [granary_flags]. rewrite !flag_bit, Z.lor_spec by done. apply orb_comm.
    + intros f. unfold decode. cbn [granary_policy]. rewrite flag_lor. apply orb_comm.
    + unfold decode in *. cbn [granary_policy]. rewrite id_lor. destruct Hc as [E|[E|E]]; rewrite E.
      * rewrite Z.lor_diag. destruct (Z.eqb_spec (u_id (mk_policy (granary_policy t))) 0); congruence.
      * by rewrite Z.lor_0_r.
      * rewrite Z.lor_0_l. destruct (Z.eqb_spec (u_id (mk_policy (granary_policy i))) 0); congruence.
  - intros L ids. by erewrite link_heap_insert.
Qed.

(** ** Witnesses *)
Definition one_instr (flags policy : Z) : instr_t unit :=
  {| op_code := 1; content := tt; note := 0; links := {| prev := 0; next := 0 |}; granary_flags := flags; granary_policy := policy |}.

Definition two_instrs : gmap Z (instr_t unit) :=
  <[0x1000 := one_instr DONT_MANGLE 0x0301]> (<[0x2000 := one_instr HOT_PATCHABLE 0x0002]> ∅).

Lemma replace_with_keeps_lists_witness :
  exists r s', replace_with (H := user_config) 0x1000 0x2000 REPLACE_WITH_COMBINED_META_DATA two_instrs = Ret s' /\
    s' = <[0x1000 := r]> two_instrs /\ has_flag HOT_PATCHABLE r = true /\ has_flag DONT_MANGLE r = true /\
    u_id (decode (granary_policy r)) = 3.
Proof.
  destruct (replace_with_keeps_lists (H := user_config) 0x1000 0x2000 REPLACE_WITH_COMBINED_META_DATA two_instrs
    (one_instr DONT_MANGLE 0x0301) (one_instr HOT_PATCHABLE 0x0002)) as (r & s' & E & Es & _ & _ & _ & (Hf & _ & Hid) & _);
    try reflexivity; try discriminate.
  - intros _. right. right. reflexivity.
  - exists r, s'. split; [exact E|]. split; [exact Es|].
    split; [exact (Hf 4 ltac:(lia))|]. split; [exact (Hf 0 ltac:(lia))|exact Hid].
Defined.
