(* ===== verification/Encode.v ===== *)
(** * Encoding of instruction lists: [granary/instruction.cc]

    [instruction_list::encode] writes the instructions of a list to memory one
    after the other.  The displacement of a branch to an instruction of the
    list is not known before its target is placed, so such a branch is first
    encoded with itself as its target and encoded again in a second pass.  The
    encoder proper is DynamoRIO's ([deps/dr/x86/encode.c]): direct branches
    and displacements relative to the instruction pointer are modelled byte by
    byte; the bytes of all other instructions, which do not depend on their
    place, are data.

    The theorems: a list of instructions whose targets are in reach is encoded
    into exactly as many bytes as [encoded_size] reports; every instruction
    lies behind its predecessor, every branch leads to the place of its target
    and every relative memory operand refers to its address; no byte outside
    is written; staged code can be copied to its final place; and a branch
    that does not reach its target stops the encoder. *)

From Stdlib Require Import ZArith Lia Bool.
From stdpp Require Import base numbers list option gmap.
From S2P Require Import Prelude.

(** ** Bytes *)
Fixpoint le_bytes (n : nat) (z : Z) : list Z :=
  match n with O => [] | S n => z mod 256 :: le_bytes n (z / 256) end.

Fixpoint of_bytes (bs : list Z) : Z :=
  match bs with [] => 0 | b :: bs => b + 256 * of_bytes bs end.

(** A [w]-bit pattern as a signed integer. *)
Definition sext (w z : Z) : Z := if z <? 2 ^ (w - 1) then z else z - 2 ^ w.

Definition fits (w d : Z) : bool := (- 2 ^ (w - 1) <=? d) && (d <? 2 ^ (w - 1)).

Definition read_bytes (n : nat) (a : Z) (mem : Z -> Z) : list Z := map (fun k => mem (a + Z.of_nat k)) (seq 0 n).

Fixpoint write_bytes (a : Z) (bs : list Z) (mem : Z -> Z) : Z -> Z :=
  match bs with
  | [] => mem
  | b :: bs => write_bytes (a + 1) bs (fun x => if x =? a then b else mem x)
  end.

Lemma length_le_bytes n : forall z, length (le_bytes n z) = n.
Proof. induction n as [|n IH]; intros z; [done|]. cbn. by rewrite IH. Qed.

Lemma of_le_bytes n : forall z, of_bytes (le_bytes n z) = z mod 2 ^ (8 * Z.of_nat n).
Proof.
  induction n as [|n IH]; intros z; [by rewrite Z.mod_1_r|]. cbn [le_bytes of_bytes]. rewrite IH.
  replace (8 * Z.of_nat (S n)) with (8 + 8 * Z.of_nat n) by lia. rewrite Z.pow_add_r by lia.
  change (2 ^ 8) with 256. rewrite Z.rem_mul_r by lia. done.
Qed.

Lemma sext_mod w d : 0 < w -> fits w d = true -> sext w (d mod 2 ^ w) = d.
Proof.
  intros Hw [H1%Z.leb_le H2%Z.ltb_lt]%andb_prop. unfold sext.
  assert (E : 2 ^ w = 2 * 2 ^ (w - 1)) by (rewrite <- Z.pow_succ_r by lia; f_equal; lia).
  pose proof (pow2_pos (w - 1) ltac:(lia)). destruct (Z.lt_ge_cases d 0).
  - replace (d mod 2 ^ w) with (d + 2 ^ w) by (apply Z.mod_unique with (-1); lia).
    destruct (Z.ltb_spec (d + 2 ^ w) (2 ^ (w - 1))); lia.
  - rewrite Z.mod_small by lia. destruct (Z.ltb_spec d (2 ^ (w - 1))); lia.
Qed.

Lemma fits_mono v w d : 0 < v -> v <= w -> fits v d = true -> fits w d = true.
Proof.
  unfold fits. rewrite !andb_true_iff, !Z.leb_le, !Z.ltb_lt. intros Hv Hw [H1 H2].
  pose proof (Z.pow_le_mono_r 2 (v - 1) (w - 1) ltac:(lia) ltac:(lia)). lia.
Qed.

Lemma write_bytes_other bs : forall a mem x, x < a \/ a + Z.of_nat (length bs) <= x -> write_bytes a bs mem x = mem x.
Proof.
  induction bs as [|b bs IH]; intros a mem x Hx; [done|]. cbn [write_bytes length] in *. rewrite IH by lia.
  destruct (Z.eqb_spec x a); [lia|done].
Qed.

Lemma write_bytes_nth bs : forall a mem k b, bs !! k = Some b -> write_bytes a bs mem (a + Z.of_nat k) = b.
Proof.
  induction bs as [|c bs IH]; intros a mem k b; [done|]. destruct k as [|k]; cbn [lookup list_lookup write_bytes].
  - intros [= ->]. rewrite write_bytes_other by lia. rewrite Z.add_0_r, Z.eqb_refl. done.
  - intros Hk. replace (a + Z.of_nat (S k)) with (a + 1 + Z.of_nat k) by lia. by apply IH.
Qed.

(** The bytes [bs] are at [a]. *)
Definition holds (mem : Z -> Z) (a : Z) (bs : list Z) : Prop := forall k b, bs !! k = Some b -> mem (a + Z.of_nat k) = b.

Lemma holds_write a bs mem : holds (write_bytes a bs mem) a bs.
Proof. intros k b. apply write_bytes_nth. Qed.

Lemma holds_app mem a bs cs : holds mem a (bs ++ cs) <-> holds mem a bs /\ holds mem (a + Z.of_nat (length bs)) cs.
Proof.
  unfold holds. split.
  - intros H. split; intros k b Hk.
    + apply H. by apply lookup_app_l_Some.
    + rewrite <- Z.add_assoc, <- Nat2Z.inj_add. apply H. rewrite lookup_app_r by lia. by replace (_ - _)%nat with k by lia.
  - intros [H1 H2] k b [Hk|[Hl Hk]]%lookup_app_Some; [by apply H1|]. specialize (H2 _ _ Hk).
    rewrite <- H2. f_equal. lia.
Qed.

Lemma holds_ext mem mem' a bs : (forall x, a <= x < a + Z.of_nat (length bs) -> mem' x = mem x) -> holds mem a bs -> holds mem' a bs.
Proof. intros He H k b Hk. rewrite He; [by apply H|]. apply lookup_lt_Some in Hk. lia. Qed.

Lemma read_holds mem a bs : holds mem a bs -> read_bytes (length bs) a mem = bs.
Proof.
  intros H. apply list_eq. intros k. unfold read_bytes. rewrite list_lookup_fmap.
  destruct (bs !! k) as [b|] eqn:Hb.
  - pose proof (lookup_lt_Some _ _ _ Hb). rewrite lookup_seq_lt by done. cbn. by rewrite (H k b Hb).
  - apply lookup_ge_None in Hb. by rewrite lookup_seq_ge.
Qed.

(** The displacement of [n] bytes at [a]. *)
Definition read_disp (n : nat) (a : Z) (mem : Z -> Z) : Z := sext (8 * Z.of_nat n) (of_bytes (read_bytes n a mem)).

Lemma read_disp_holds n mem a d : (0 < n)%nat -> fits (8 * Z.of_nat n) d = true -> holds mem a (le_bytes n d) -> read_disp n a mem = d.
Proof.
  intros Hn Hf Hh%read_holds. rewrite length_le_bytes in Hh. unfold read_disp. rewrite Hh, of_le_bytes. apply sext_mod; [lia|done].
Qed.

(** ** Instructions *)
Inductive target := T_pc (pc : Z) | T_instr (x : Z).

(** What the encoder does with an instruction: a label, bytes that are copied,
    a displacement relative to the instruction pointer between the bytes
    [pre] and [post], a direct branch with its prefix and opcode bytes, or the
    bytes that the templates give for operands that do not depend on the
    place.  An instruction with a relative memory operand is a [B_raw_rip] in
    both forms: whether its bytes are copied ([copy_and_re_relativize_raw_instr])
    or come from the templates (the end of [instr_encode_common], with
    [disp_abs]), its displacement is the distance of the target from the end of
    the instruction at [final_pc], and must fit in 32 bits.  So [B_general]
    stands for no instruction with a relative operand. *)
Inductive body :=
  | B_label
  | B_raw (bytes : list Z)
  | B_raw_rip (pre : list Z) (target : Z) (post : list Z)
  | B_cti (op : list Z) (short : bool) (t : target)
  | B_general (bytes : list Z).

Record instr_t := { i_body : body; note : Z; translation : Z; i_length : Z }.
Abbreviation store := (gmap Z instr_t).

Definition set_body (b : body) (i : instr_t) : instr_t :=
  {| i_body := b; note := note i; translation := translation i; i_length := i_length i |}.
Definition set_note (n : Z) (i : instr_t) : instr_t :=
  {| i_body := i_body i; note := n; translation := translation i; i_length := i_length i |}.

Definition disp_size (short : bool) : nat := if short then 1%nat else 4%nat.

(** [instr_length]. *)
Definition body_size (b : body) : Z :=
  match b with
  | B_label => 0
  | B_raw bs | B_general bs => Z.of_nat (length bs)
  | B_raw_rip pre _ post => Z.of_nat (length pre) + 4 + Z.of_nat (length post)
  | B_cti op short _ => Z.of_nat (length op) + Z.of_nat (disp_size short)
  end.

Definition get (s : store) (x : Z) : outcome instr_t := match s !! x with Some i => Ret i | None => Fault end.

(** [encode_cti]; a target that is out of reach fails an assertion. *)
Definition encode_cti (s : store) (i : instr_t) (op : list Z) (short : bool) (t : target) (final_pc : Z) : outcome (list Z) :=
  dest ← match t with
         | T_pc pc => Ret pc
         | T_instr y => j ← get s y; Ret (final_pc + (note j - note i))
         end;
  let n := disp_size short in
  let offset := sext 64 (u64 (dest - (final_pc + Z.of_nat (length op) + Z.of_nat n))) in
  if fits (8 * Z.of_nat n) offset then Ret (op ++ le_bytes n offset) else Fault.

(** [copy_and_re_relativize_raw_instr], with a displacement; the templates
    compute the displacement of a target in reach in the same way. *)
Definition re_relativize (pre : list Z) (target : Z) (post : list Z) (final_pc : Z) : outcome (list Z) :=
  let new_offs := sext 64 (u64 (target - (final_pc + Z.of_nat (length pre) + 4 + Z.of_nat (length post)))) in
  if fits 32 new_offs then Ret (pre ++ le_bytes 4 new_offs ++ post) else Fault.

(** [instr_encode_common]: the bytes of an instruction that will be executed
    at [final_pc]. *)
Definition instr_encode (s : store) (i : instr_t) (final_pc : Z) : outcome (list Z) :=
  match i_body i with
  | B_label => Ret []
  | B_raw bs | B_general bs => Ret bs
  | B_raw_rip pre target post => re_relativize pre target post final_pc
  | B_cti op short t => encode_cti s i op short t final_pc
  end.

(** [instruction::encode]. *)
Definition encode (x pc : Z) (w : store * (Z -> Z)) : outcome (store * (Z -> Z) * Z) :=
  ASSERT (negb (x =? 0)) ≫= fun _ =>
  ASSERT (negb (pc =? 0)) ≫= fun _ =>
  i ← get w.1 x;
  let i := set_note pc i in
  let s := <[x := i]> w.1 in
  bs ← instr_encode s i pc;
  let ret := pc + Z.of_nat (length bs) in
  let i := {| i_body := i_body i; note := note i; translation := pc; i_length := ret - pc |} in
  Ret (<[x := i]> s, write_bytes pc bs w.2, ret).

(** [instruction::stage_encode]. *)
Definition stage_encode (x staged_pc final_pc : Z) (w : store * (Z -> Z)) : outcome (store * (Z -> Z) * Z) :=
  i ← get w.1 x;
  let i := set_note final_pc i in
  let s := <[x := i]> w.1 in
  bs ← instr_encode s i final_pc;
  Ret (s, write_bytes staged_pc bs w.2, staged_pc + Z.of_nat (length bs)).

(** The branch target of a local branch. *)
Definition local_target (b : body) : option Z := match b with B_cti _ _ (T_instr y) => Some y | _ => None end.

Definition retarget (b : body) (y : Z) : body :=
  match b with B_cti op short _ => B_cti op short (T_instr y) | _ => b end.

(** The first pass: local branches point to themselves while they are
    encoded. *)
Fixpoint encode_items (items : list Z) (pc : Z) (has_local_jump : bool) (w : store * (Z -> Z))
    : outcome (store * (Z -> Z) * Z * bool) :=
  match items with
  | [] => Ret (w, pc, has_local_jump)
  | x :: items =>
      i ← get w.1 x;
      match local_target (i_body i) with
      | Some target_instr =>
          r ← encode x pc (<[x := set_body (retarget (i_body i) x) i]> w.1, w.2);
          j ← get r.1.1 x;
          encode_items items r.2 true (<[x := set_body (retarget (i_body j) target_instr) j]> r.1.1, r.1.2)
      | None =>
          r ← encode x pc w;
          encode_items items r.2 has_local_jump r.1
      end
  end.

(** The second pass. *)
Fixpoint resolve_items (items : list Z) (w : store * (Z -> Z)) : outcome (store * (Z -> Z)) :=
  match items with
  | [] => Ret w
  | x :: items =>
      i ← get w.1 x;
      match local_target (i_body i) with
      | Some _ => r ← encode x (note i) w; resolve_items items r.1
      | None => resolve_items items w
      end
  end.

(** [instruction_list::encode]. *)
Definition list_encode (items : list Z) (start_pc max_size : Z) (w : store * (Z -> Z)) : outcome (store * (Z -> Z) * Z) :=
  match items with
  | [] => Ret (w, start_pc)
  | _ =>
      ASSERT (forallb (fun k => w.2 (start_pc + Z.of_nat k) =? 0xCC) (seq 0 (Z.to_nat max_size))) ≫= fun _ =>
      r ← encode_items items start_pc false w;
      w ← (if (r.2 : bool) then resolve_items items r.1.1 else Ret r.1.1);
      ASSERT (r.1.2 <=? start_pc + max_size) ≫= fun _ =>
      Ret (w, r.1.2)
  end.

(** [instruction_list::stage_encode]. *)
Fixpoint list_stage_encode (items : list Z) (staged_pc final_pc : Z) (w : store * (Z -> Z)) : outcome (store * (Z -> Z) * Z) :=
  match items with
  | [] => Ret (w, staged_pc)
  | x :: items =>
      r ← stage_encode x staged_pc final_pc w;
      list_stage_encode items r.2 (final_pc + (r.2 - staged_pc)) r.1
  end.

(** [instruction_list::encoded_size]. *)
Fixpoint encoded_size (items : list Z) (s : store) : outcome Z :=
  match items with
  | [] => Ret 0
  | x :: items => i ← get s x; n ← encoded_size items s; Ret (u32 (body_size (i_body i) + n))
  end.

(** ** What encoded instructions do *)
Lemma read_disp_ext n a mem mem' : (forall x, a <= x < a + Z.of_nat n -> mem' x = mem x) -> read_disp n a mem' = read_disp n a mem.
Proof.
  intros He. unfold read_disp, read_bytes. do 2 f_equal. apply map_ext_in. intros k Hk%in_seq. apply He. lia.
Qed.

(** The bytes at [a] are the instruction [b], with [dest] where its branch
    leads. *)
Definition means (dest : target -> Z) (b : body) (mem : Z -> Z) (a : Z) : Prop :=
  match b with
  | B_label => True
  | B_raw bs | B_general bs => holds mem a bs
  | B_raw_rip pre t post =>
      holds mem a pre /\ holds mem (a + Z.of_nat (length pre) + 4) post /\
      a + body_size b + read_disp 4 (a + Z.of_nat (length pre)) mem = t
  | B_cti op short t =>
      holds mem a op /\ a + body_size b + read_disp (disp_size short) (a + Z.of_nat (length op)) mem = dest t
  end.

(** The displacement that is needed at [a] can be encoded. *)
Definition reaches (dest : target -> Z) (b : body) (a : Z) : Prop :=
  match b with
  | B_raw_rip _ t _ => fits 32 (t - (a + body_size b)) = true
  | B_cti _ short t => fits (8 * Z.of_nat (disp_size short)) (dest t - (a + body_size b)) = true
  | _ => True
  end.

Lemma means_ext dest b mem mem' a : (forall x, a <= x < a + body_size b -> mem' x = mem x) -> means dest b mem a -> means dest b mem' a.
Proof.
  destruct b as [|bs|pre t post|op short t|bs]; cbn [means body_size]; intros He; [done| | | |].
  - by apply holds_ext.
  - intros (H1 & H2 & H3). split; [eapply holds_ext; [|exact H1]; intros; apply He; lia|].
    split; [eapply holds_ext; [|exact H2]; intros; apply He; lia|].
    rewrite (read_disp_ext 4 _ mem mem'); [done|]. intros. apply He. lia.
  - intros (H1 & H2). split; [eapply holds_ext; [|exact H1]; intros; apply He; lia|].
    rewrite (read_disp_ext _ _ mem mem'); [done|]. intros. apply He. lia.
  - by apply holds_ext.
Qed.

Lemma body_size_nonneg b : 0 <= body_size b.
Proof. destruct b; cbn; lia. Qed.

(** Displacements in reach survive the 64-bit arithmetic. *)
Lemma offset_exact w d : 0 < w <= 64 -> fits w d = true -> sext 64 (u64 d) = d.
Proof. intros Hw Hf. apply sext_mod; [lia|]. eapply fits_mono; [| |exact Hf]; lia. Qed.

(** The destinations that [dest] gives are where the encoder looks. *)
Definition knows (dest : target -> Z) (s : store) (b : body) : Prop :=
  match b with
  | B_cti _ _ (T_pc p) => dest (T_pc p) = p
  | B_cti _ _ (T_instr y) => exists j, s !! y = Some j /\ note j = dest (T_instr y)
  | _ => True
  end.

Lemma instr_encode_means dest s i : knows dest s (i_body i) -> reaches dest (i_body i) (note i) ->
  exists bs, instr_encode s i (note i) = Ret bs /\ Z.of_nat (length bs) = body_size (i_body i) /\
    forall mem, holds mem (note i) bs -> means dest (i_body i) mem (note i).
Proof.
  set (a := note i). intros Hk Hr. unfold instr_encode. destruct (i_body i) as [|bs|pre t post|op short t|bs] eqn:Eb; cbn [reaches means body_size knows] in *.
  - by exists [].
  - by exists bs.
  - unfold re_relativize. replace (t - (a + Z.of_nat (length pre) + 4 + Z.of_nat (length post)))
      with (t - (a + (Z.of_nat (length pre) + 4 + Z.of_nat (length post)))) by lia.
    set (d := t - _) in *. rewrite (offset_exact 32 d), Hr by (done || lia). eexists. split; [reflexivity|].
    rewrite !length_app, length_le_bytes. split; [lia|]. intros mem [H1 [H2 H3]%holds_app]%holds_app.
    rewrite length_le_bytes in H3. split; [done|]. split; [exact H3|].
    rewrite (read_disp_holds 4 mem _ d) by (done || lia). unfold d. lia.
  - unfold encode_cti. set (n := disp_size short) in *.
    assert (Hd : match t with T_pc pc => Ret pc | T_instr y => j ← get s y; Ret (a + (note j - note i)) end = Ret (dest t)).
    { destruct t as [p|y]; [by rewrite Hk|]. destruct Hk as (j & Hj & Hn). unfold get. rewrite Hj. cbn. rewrite Hn. f_equal. fold a. lia. }
    rewrite Hd. cbn [mbind outcome_bind]. replace (dest t - (a + Z.of_nat (length op) + Z.of_nat n))
      with (dest t - (a + (Z.of_nat (length op) + Z.of_nat n))) by lia.
    set (d := dest t - _) in *. assert (Hn : (0 < n)%nat /\ 8 * Z.of_nat n <= 64) by (unfold n; destruct short; cbn; lia).
    rewrite (offset_exact (8 * Z.of_nat n) d), Hr by (done || lia). eexists. split; [reflexivity|].
    rewrite !length_app, length_le_bytes. split; [lia|]. intros mem (H1 & H2)%holds_app. split; [done|].
    rewrite (read_disp_holds n mem _ d) by (done || lia). unfold d. lia.
  - by exists bs.
Qed.

(** ** Places *)

(** An item that has been encoded at [a]. *)
Definition placed (b : body) (a : Z) : instr_t := {| i_body := b; note := a; translation := a; i_length := body_size b |}.

Definition body_of (s : store) (x : Z) : body := match s !! x with Some i => i_body i | None => B_label end.

Section Places.
Context (bodies : Z -> body).

Fixpoint total (items : list Z) : Z := match items with [] => 0 | x :: items => body_size (bodies x) + total items end.

(** [P] holds of every item and its place, when the items are placed one
    behind the other from [pc] on. *)
Fixpoint at_places (P : Z -> Z -> Prop) (pc : Z) (items : list Z) : Prop :=
  match items with
  | [] => True
  | x :: items => P x pc /\ at_places P (pc + body_size (bodies x)) items
  end.

Fixpoint place (pc : Z) (items : list Z) (y : Z) : option Z :=
  match items with
  | [] => None
  | x :: items => if x =? y then Some pc else place (pc + body_size (bodies x)) items y
  end.

Lemma total_nonneg items : 0 <= total items.
Proof. induction items as [|x items IH]; cbn; [lia|]. pose proof (body_size_nonneg (bodies x)). lia. Qed.

Lemma at_places_impl (P Q : Z -> Z -> Prop) items : forall pc,
  (forall x a, x ∈ items -> pc <= a -> a + body_size (bodies x) <= pc + total items -> P x a -> Q x a) ->
  at_places P pc items -> at_places Q pc items.
Proof.
  induction items as [|x items IH]; intros pc HPQ; [done|]. intros [Hx Hr]. pose proof (body_size_nonneg (bodies x)).
  pose proof (total_nonneg items). split.
  - apply HPQ; [left|lia|cbn; lia|done].
  - apply IH; [|done]. intros y a Hy Ha He. cbn in HPQ. apply HPQ; [by right|lia|lia].
Qed.

Lemma at_places_and (P Q : Z -> Z -> Prop) items : forall pc,
  at_places P pc items -> at_places Q pc items -> at_places (fun x a => P x a /\ Q x a) pc items.
Proof. induction items as [|x items IH]; intros pc; [done|]. intros [? ?] [? ?]. split; [done|]. by apply IH. Qed.

Lemma at_place P items y a : forall pc, at_places P pc items -> place pc items y = Some a -> P y a.
Proof.
  induction items as [|x items IH]; intros pc; [done|]. intros [Hx Hr]. cbn.
  destruct (Z.eqb_spec x y) as [->|_]; [by intros [= <-]|]. by apply IH.
Qed.

Lemma place_None items y : forall pc, place pc items y = None -> y ∉ items.
Proof.
  induction items as [|x items IH]; intros pc; [intros _; apply not_elem_of_nil|]. cbn.
  destruct (Z.eqb_spec x y); [done|]. intros Hp. apply not_elem_of_cons. split; [done|]. by eapply IH.
Qed.

(** ** The first pass *)
Definition is_local (x : Z) : bool := match local_target (bodies x) with Some _ => true | None => false end.

(** Items whose bodies are as given, with opcodes of at most four bytes. *)
Definition short_opcode (b : body) : Prop := match b with B_cti op _ _ => (length op <= 4)%nat | _ => True end.

Definition item_ok (s : store) (x : Z) : Prop :=
  x <> 0 /\ short_opcode (bodies x) /\ exists i, s !! x = Some i /\ i_body i = bodies x.

Lemma encode_ret dest s mem x pc i :
  x <> 0 -> 0 < pc -> s !! x = Some i ->
  knows dest (<[x := set_note pc i]> s) (i_body i) -> reaches dest (i_body i) pc ->
  exists bs, encode x pc (s, mem) = Ret (<[x := placed (i_body i) pc]> s, write_bytes pc bs mem, pc + body_size (i_body i)) /\
    Z.of_nat (length bs) = body_size (i_body i) /\
    forall mem, holds mem pc bs -> means dest (i_body i) mem pc.
Proof.
  intros Hx Hpc Hi Hk Hr. destruct (instr_encode_means dest (<[x := set_note pc i]> s) (set_note pc i) Hk Hr) as (bs & E & Hl & Hm).
  exists bs. split; [|done]. unfold encode. rewrite (proj2 (Z.eqb_neq x 0) Hx), (proj2 (Z.eqb_neq pc 0)) by lia.
  cbn [negb ASSERT mbind outcome_bind fst snd]. unfold get. rewrite Hi. cbn [mbind outcome_bind].
  change (note (set_note pc i)) with pc in E. rewrite E. cbn [mbind outcome_bind]. rewrite Hl, insert_insert_eq.
  cbn [i_body set_note note]. unfold placed. do 2 f_equal. f_equal. f_equal. f_equal. lia.
Qed.

Lemma first_step dest s mem x pc h items : item_ok s x -> 0 < pc ->
  (is_local x = false -> reaches dest (bodies x) pc /\ knows dest ∅ (bodies x)) ->
  exists bs, encode_items (x :: items) pc h (s, mem) =
      encode_items items (pc + body_size (bodies x)) (h || is_local x) (<[x := placed (bodies x) pc]> s, write_bytes pc bs mem) /\
    Z.of_nat (length bs) = body_size (bodies x) /\
    (is_local x = false -> forall mem, holds mem pc bs -> means dest (bodies x) mem pc).
Proof.
  intros (Hx & Hop & i & Hi & Ei) Hpc Hr. unfold is_local in *. rewrite <- Ei in *. cbn [encode_items fst snd]. unfold get. rewrite Hi. cbn [mbind outcome_bind].
  destruct (local_target (i_body i)) as [y|] eqn:El.
  - destruct (i_body i) as [| | |op short [p|z]|] eqn:Eb; try discriminate El. injection El as ->.
    cbn [retarget short_opcode] in *. set (b0 := B_cti op short (T_instr x)).
    destruct (encode_ret (fun _ => pc) (<[x := set_body b0 i]> s) mem x pc (set_body b0 i)) as (bs & E & Hl & _).
    { done. } { done. } { apply lookup_insert_eq. }
    { cbn. eexists. rewrite lookup_insert_eq. done. }
    { cbn [reaches set_body i_body b0 body_size]. unfold fits. apply andb_true_intro. rewrite Z.leb_le, Z.ltb_lt.
      destruct short; cbn; lia. }
    exists bs. split; [|split; [done|done]]. rewrite E. cbn [mbind outcome_bind fst snd]. rewrite !lookup_insert_eq. cbn [mbind outcome_bind].
    rewrite !insert_insert_eq, orb_true_r. done.
  - destruct Hr as [Hr Hk]; [done|].
    destruct (encode_ret dest s mem x pc i) as (bs & E & Hl & Hm); try done.
    { destruct (i_body i) as [| | |op short [p|z]|]; try done. }
    exists bs. split; [|done]. rewrite E. cbn [mbind outcome_bind fst snd]. by rewrite orb_false_r.
Qed.

Lemma first_pass dest items : forall pc h s mem,
  NoDup items -> 0 < pc -> Forall (item_ok s) items ->
  at_places (fun x a => is_local x = false -> reaches dest (bodies x) a /\ knows dest ∅ (bodies x)) pc items ->
  exists s' mem', encode_items items pc h (s, mem) = Ret (s', mem', pc + total items, h || existsb is_local items) /\
    at_places (fun x a => s' !! x = Some (placed (bodies x) a) /\ (is_local x = false -> means dest (bodies x) mem' a)) pc items /\
    (forall y, y ∉ items -> s' !! y = s !! y) /\
    forall z, z < pc \/ pc + total items <= z -> mem' z = mem z.
Proof.
  induction items as [|x items IH]; intros pc h s mem Hnd Hpc Hok Hr.
  { exists s, mem. cbn. rewrite Z.add_0_r, orb_false_r. done. }
  apply NoDup_cons in Hnd as [Hx Hnd]. apply List.Forall_cons_iff in Hok as [Hxok Hok]. destruct Hr as [Hrx Hr].
  destruct (first_step dest s mem x pc h items Hxok Hpc Hrx) as (bs & -> & Hl & Hm).
  pose proof (body_size_nonneg (bodies x)). pose proof (total_nonneg items).
  destruct (IH (pc + body_size (bodies x)) (h || is_local x) (<[x := placed (bodies x) pc]> s) (write_bytes pc bs mem))
    as (s' & mem' & -> & Hp & Hs & Hmem); [done|lia| |done|].
  { rewrite list.Forall_forall in *. intros y Hy. destruct (Hok y Hy) as (Hy0 & Hys & i & Hi & Hb). split; [done|]. split; [done|].
    exists i. rewrite lookup_insert_ne; [done|]. by intros ->. }
  exists s', mem'. cbn [total existsb at_places]. rewrite orb_assoc, Z.add_assoc. split; [done|]. split; [|split].
  - split; [|done]. split; [by rewrite Hs, lookup_insert_eq|]. intros Hloc.
    eapply means_ext; [|apply (Hm Hloc), holds_write]. intros z Hz. apply Hmem. lia.
  - intros y [Hyx Hy]%not_elem_of_cons. rewrite Hs by done. by apply lookup_insert_ne.
  - intros z Hz. rewrite Hmem by lia. apply write_bytes_other. lia.
Qed.

(** ** The second pass *)
Lemma second_pass dest items s : forall pc mem,
  0 < pc -> 0 ∉ items ->
  at_places (fun x a => s !! x = Some (placed (bodies x) a) /\ (is_local x = false -> means dest (bodies x) mem a) /\
                        knows dest s (bodies x) /\ reaches dest (bodies x) a) pc items ->
  exists mem', resolve_items items (s, mem) = Ret (s, mem') /\ at_places (fun x a => means dest (bodies x) mem' a) pc items /\
    forall z, z < pc \/ pc + total items <= z -> mem' z = mem z.
Proof.
  induction items as [|x items IH]; intros pc mem Hpc H0 Hp; [by exists mem|]. destruct Hp as [(Hx & Hm & Hk & Hr) Hp].
  apply not_elem_of_cons in H0 as [Hx0 H0]. pose proof (body_size_nonneg (bodies x)). pose proof (total_nonneg items).
  cbn [resolve_items fst snd]. unfold get. rewrite Hx. cbn [mbind outcome_bind placed i_body note].
  assert (Hstep : exists mem1, (match local_target (bodies x) with
      | Some _ => r ← encode x pc (s, mem); resolve_items items r.1
      | None => resolve_items items (s, mem) end) = resolve_items items (s, mem1) /\
      means dest (bodies x) mem1 pc /\ forall z, z < pc \/ pc + body_size (bodies x) <= z -> mem1 z = mem z).
  { unfold is_local in Hm. destruct (local_target (bodies x)) as [y|]; [|exists mem; by auto].
    destruct (encode_ret dest s mem x pc (placed (bodies x) pc)) as (bs & E & Hl & Hms); try done.
    { cbn [placed i_body]. change (set_note pc (placed (bodies x) pc)) with (placed (bodies x) pc). by rewrite insert_id. }
    cbn [placed i_body] in E. rewrite insert_id in E by done. rewrite E. cbn [mbind outcome_bind fst].
    exists (write_bytes pc bs mem). split; [done|]. split; [apply Hms, holds_write|].
    cbn [placed i_body] in Hl. intros z Hz. apply write_bytes_other. lia. }
  destruct Hstep as (mem1 & -> & Hm1 & Ho1).
  destruct (IH (pc + body_size (bodies x)) mem1) as (mem' & -> & Hp' & Ho'); [lia|done| |].
  { eapply at_places_impl; [|exact Hp]. intros y a Hy Ha He (? & Hmy & ? & ?). split; [done|]. split; [|done]. intros Hloc.
    eapply means_ext; [|by apply Hmy]. intros z Hz. apply Ho1. lia. }
  exists mem'. split; [done|]. cbn [at_places total]. split.
  - split; [|done]. eapply means_ext; [|exact Hm1]. intros z Hz. apply Ho'. lia.
  - intros z Hz. rewrite Ho' by lia. apply Ho1. lia.
Qed.
End Places.

(** ** Lists *)

(** Where a target is when the items are encoded from [start] on. *)
Definition destination (s : store) (items : list Z) (start : Z) (t : target) : Z :=
  match t with
  | T_pc p => p
  | T_instr y =>
      match place (body_of s) start items y, s !! y with
      | Some a, _ => a
      | None, Some j => note j
      | None, None => 0
      end
  end.

(** A list that can be encoded: no item twice, and branches to instructions
    that exist. *)
Record encodable (s : store) (items : list Z) : Prop := {
  en_nodup : NoDup items;
  en_items : Forall (item_ok (body_of s) s) items;
  en_targets : forall x y, x ∈ items -> local_target (body_of s x) = Some y -> is_Some (s !! y)
}.

Lemma knows_empty s items start b : local_target b = None -> knows (destination s items start) ∅ b.
Proof. destruct b as [| | |op short [p|y]|]; done. Qed.

Lemma encoded_size_total s items : Forall (item_ok (body_of s) s) items -> total (body_of s) items < 2 ^ 32 ->
  encoded_size items s = Ret (total (body_of s) items).
Proof.
  induction items as [|x items IH]; [done|]. intros [(_ & _ & i & Hi & Hb) Hok]%List.Forall_cons_iff Ht. cbn [encoded_size total] in *.
  pose proof (body_size_nonneg (body_of s x)). pose proof (total_nonneg (body_of s) items).
  unfold get. rewrite Hi, IH by (done || lia). cbn [mbind outcome_bind]. rewrite Hb, wrap_small by lia. done.
Qed.

Lemma cc_assert mem start max_size : (forall z, start <= z < start + max_size -> mem z = 0xCC) ->
  forallb (fun k => mem (start + Z.of_nat k) =? 0xCC) (seq 0 (Z.to_nat max_size)) = true.
Proof. intros H. apply forallb_forall. intros k Hk%in_seq. apply Z.eqb_eq, H. lia. Qed.

(** What the first pass leaves behind, in terms of the final places. *)
Lemma first_pass_knows s items start mem :
  encodable s items -> 0 < start ->
  at_places (body_of s) (fun x a => is_local (body_of s) x = false -> reaches (destination s items start) (body_of s x) a) start items ->
  exists s' mem', encode_items items start false (s, mem) =
      Ret (s', mem', start + total (body_of s) items, existsb (is_local (body_of s)) items) /\
    at_places (body_of s) (fun x a => s' !! x = Some (placed (body_of s x) a) /\
      (is_local (body_of s) x = false -> means (destination s items start) (body_of s x) mem' a) /\
      knows (destination s items start) s' (body_of s x)) start items /\
    (forall y, y ∉ items -> s' !! y = s !! y) /\
    forall z, z < start \/ start + total (body_of s) items <= z -> mem' z = mem z.
Proof.
  intros [Hnd Hok Ht] Hs Hr.
  destruct (first_pass (body_of s) (destination s items start) items start false s mem Hnd Hs Hok) as (s' & mem' & E & Hp & Hsame & Hmem).
  { eapply at_places_impl; [|exact Hr]. intros x a Hx _ _ H Hl. split; [by apply H|]. apply knows_empty.
    unfold is_local in Hl. by destruct (local_target _). }
  exists s', mem'. split; [exact E|]. split; [|done]. eapply at_places_impl; [|exact Hp].
  intros x a Hx _ _ [H1 H2]. split; [done|]. split; [done|]. specialize (Ht x).
  destruct (body_of s x) as [| | |op short [p|y]|]; try done. cbn [knows]. destruct (Ht y Hx eq_refl) as [j Hj]. cbn [destination].
  destruct (place (body_of s) start items y) as [a'|] eqn:Ep.
  - destruct (at_place _ _ _ _ _ _ Hp Ep) as [Hy _]. by exists (placed (body_of s y) a').
  - apply place_None in Ep. rewrite Hj. exists j. by rewrite Hsame.
Qed.

(** Lists without local branches need one pass. *)
Lemma no_local items bodies x : existsb (is_local bodies) items = false -> x ∈ items -> is_local bodies x = false.
Proof.
  intros He Hx. destruct (is_local bodies x) eqn:E; [|done]. exfalso.
  assert (existsb (is_local bodies) items = true) by (apply existsb_exists; exists x; split; [by apply list_elem_of_In|done]). congruence.
Qed.

Lemma list_encode_ret s items start max_size mem :
  encodable s items -> 0 < start -> total (body_of s) items <= max_size ->
  (forall z, start <= z < start + max_size -> mem z = 0xCC) ->
  at_places (body_of s) (fun x a => reaches (destination s items start) (body_of s x) a) start items ->
  exists s' mem', list_encode items start max_size (s, mem) = Ret (s', mem', start + total (body_of s) items) /\
    at_places (body_of s) (fun x a => s' !! x = Some (placed (body_of s x) a) /\ means (destination s items start) (body_of s x) mem' a) start items /\
    (forall y, y ∉ items -> s' !! y = s !! y) /\
    forall z, z < start \/ start + total (body_of s) items <= z -> mem' z = mem z.
Proof.
  intros Hen Hs Hmax Hcc Hr.
  destruct (first_pass_knows s items start mem Hen Hs) as (s' & mem1 & E & Hp & Hsame & Hmem).
  { eapply at_places_impl; [|exact Hr]. by intros. }
  assert (H0 : 0 ∉ items).
  { intros H. pose proof (en_items _ _ Hen) as Hok. rewrite list.Forall_forall in Hok. by destruct (Hok 0 H) as [? _]. }
  assert (Hw : exists mem', (if existsb (is_local (body_of s)) items then resolve_items items (s', mem1) else Ret (s', mem1)) = Ret (s', mem') /\
      at_places (body_of s) (fun x a => means (destination s items start) (body_of s x) mem' a) start items /\
      forall z, z < start \/ start + total (body_of s) items <= z -> mem' z = mem1 z).
  { destruct (existsb (is_local (body_of s)) items) eqn:El.
    - apply second_pass; [done|done|]. eapply at_places_impl; [|exact (at_places_and _ _ _ _ _ Hp Hr)].
      intros x a _ _ _ [(H1 & H2 & H3) H4]. done.
    - exists mem1. split; [done|]. split; [|done]. eapply at_places_impl; [|exact Hp].
      intros x a Hx _ _ (_ & H2 & _). apply H2. by eapply no_local. }
  destruct Hw as (mem' & Ew & Hpm & Ho). exists s', mem'. split; [|split; [|split; [done|]]].
  - destruct items as [|x l] eqn:Ei; [|rewrite <- Ei in *].
    { cbn in *. injection E as <- <-. injection Ew as <-. by rewrite Z.add_0_r. }
    unfold list_encode. rewrite Ei at 1. cbn [fst snd]. rewrite (cc_assert mem start max_size Hcc). cbn [ASSERT mbind outcome_bind].
    rewrite E. cbn [mbind outcome_bind fst snd]. rewrite Ew. cbn [mbind outcome_bind].
    by rewrite (proj2 (Z.leb_le (start + total (body_of s) items) (start + max_size))) by lia.
  - eapply at_places_impl; [|exact (at_places_and _ _ _ _ _ Hp Hpm)]. intros x a _ _ _ [(H1 & _) H2]. done.
  - intros z Hz. by rewrite Ho, Hmem.
Qed.

(** *** Branches out of reach *)
Definition out_of_reach (dest : target -> Z) (b : body) (a : Z) : Prop :=
  match b with
  | B_cti _ short (T_instr y) =>
      let d := dest (T_instr y) - (a + body_size b) in
      fits 64 d = true /\ fits (8 * Z.of_nat (disp_size short)) d = false
  | _ => False
  end.

Lemma encode_fault dest s mem x pc b : x <> 0 -> 0 < pc -> s !! x = Some (placed b pc) ->
  knows dest s b -> out_of_reach dest b pc -> encode x pc (s, mem) = Fault.
Proof.
  intros Hx Hpc Hs Hk Hr. unfold encode. rewrite (proj2 (Z.eqb_neq x 0) Hx), (proj2 (Z.eqb_neq pc 0)) by lia.
  cbn [negb ASSERT mbind outcome_bind fst snd]. unfold get at 1. rewrite Hs. cbn [mbind outcome_bind].
  change (set_note pc (placed b pc)) with (placed b pc). rewrite insert_id by done. unfold instr_encode. cbn [placed i_body].
  destruct b as [| | |op short [p|y]|]; try done. cbn [out_of_reach knows body_size] in *. destruct Hk as (j & Hj & Hn), Hr as [H64 Hf].
  unfold encode_cti, get. rewrite Hj. cbn [mbind outcome_bind note placed]. rewrite Hn.
  replace (pc + (dest (T_instr y) - pc) - (pc + Z.of_nat (length op) + Z.of_nat (disp_size short)))
    with (dest (T_instr y) - (pc + (Z.of_nat (length op) + Z.of_nat (disp_size short)))) by lia.
  rewrite (offset_exact 64) by (done || lia). by rewrite Hf.
Qed.

Lemma second_pass_fault bodies dest items s : forall pc mem,
  0 < pc -> 0 ∉ items ->
  at_places bodies (fun x a => s !! x = Some (placed (bodies x) a) /\ knows dest s (bodies x) /\
                               (is_local bodies x = true -> reaches dest (bodies x) a \/ out_of_reach dest (bodies x) a)) pc items ->
  ~ at_places bodies (fun x a => is_local bodies x = true -> reaches dest (bodies x) a) pc items ->
  resolve_items items (s, mem) = Fault.
Proof.
  induction items as [|x items IH]; intros pc mem Hpc H0 Hp Hn; [by exfalso; apply Hn|]. destruct Hp as [(Hx & Hk & Hr) Hp].
  apply not_elem_of_cons in H0 as [Hx0 H0]. pose proof (body_size_nonneg (bodies x)).
  cbn [resolve_items fst snd]. unfold get. rewrite Hx. cbn [mbind outcome_bind placed i_body note].
  cbn [at_places] in Hn. unfold is_local in Hr. destruct (local_target (bodies x)) as [y|] eqn:El.
  - destruct (Hr eq_refl) as [Hrx|Hrx]; [|by rewrite (encode_fault dest s mem x pc (bodies x))].
    destruct (encode_ret dest s mem x pc (placed (bodies x) pc)) as (bs & E & _); try done.
    { cbn [placed i_body]. change (set_note pc (placed (bodies x) pc)) with (placed (bodies x) pc). by rewrite insert_id. }
    cbn [placed i_body] in E. rewrite insert_id in E by done. rewrite E. cbn [mbind outcome_bind fst].
    eapply IH; [|done|exact Hp|]; [lia|]. intros H1. by apply Hn.
  - eapply IH; [|done|exact Hp|]; [lia|]. intros H'. apply Hn. split; [|done]. unfold is_local. by rewrite El.
Qed.

(** *** Staging *)

(** Bytes that are read somewhere else. *)
Lemma means_moved dest b mem mem' a a' : (forall x, 0 <= x < body_size b -> mem' (a' + x) = mem (a + x)) ->
  forall bs, Z.of_nat (length bs) = body_size b -> holds mem a bs -> (forall m, holds m a' bs -> means dest b m a') -> means dest b mem' a'.
Proof.
  intros He bs Hl Hh Hm. apply Hm. intros k c Hk. pose proof (lookup_lt_Some _ _ _ Hk). rewrite He by lia. by apply Hh.
Qed.

Lemma list_stage_encode_ret dest bodies items : forall s staged final mem,
  NoDup items -> Forall (item_ok bodies s) items -> (forall x, x ∈ items -> is_local bodies x = false) ->
  (forall p, dest (T_pc p) = p) -> at_places bodies (fun x a => reaches dest (bodies x) a) final items ->
  exists s' mem', list_stage_encode items staged final (s, mem) = Ret (s', mem', staged + total bodies items) /\
    (forall mem2, (forall k, 0 <= k < total bodies items -> mem2 (final + k) = mem' (staged + k)) ->
      at_places bodies (fun x a => means dest (bodies x) mem2 a) final items) /\
    forall z, z < staged \/ staged + total bodies items <= z -> mem' z = mem z.
Proof.
  induction items as [|x items IH]; intros s staged final mem Hnd Hok Hloc Hd Hr.
  { exists s, mem. cbn. rewrite Z.add_0_r. done. }
  apply NoDup_cons in Hnd as [Hx Hnd]. apply List.Forall_cons_iff in Hok as [(Hx0 & _ & i & Hi & Hb) Hok]. destruct Hr as [Hrx Hr].
  pose proof (body_size_nonneg (bodies x)). pose proof (total_nonneg bodies items).
  set (s1 := <[x := set_note final i]> s).
  destruct (instr_encode_means dest s1 (set_note final i)) as (bs & E & Hl & Hm); cbn [set_note i_body note] in *; rewrite ?Hb in *.
  { specialize (Hloc x ltac:(left)). unfold is_local in Hloc. destruct (bodies x) as [| | |op short [p|y]|]; try done. apply Hd. }
  { done. }
  cbn [list_stage_encode total at_places]. unfold stage_encode. cbn [fst snd]. unfold get. rewrite Hi. cbn [mbind outcome_bind].
  fold s1. change (note (set_note final i)) with final in E. rewrite E. cbn [mbind outcome_bind fst snd]. rewrite Hl.
  replace (final + (staged + body_size (bodies x) - staged)) with (final + body_size (bodies x)) by lia.
  destruct (IH s1 (staged + body_size (bodies x)) (final + body_size (bodies x)) (write_bytes staged bs mem)) as (s' & mem' & -> & Hp & Ho); try done.
  { rewrite list.Forall_forall in *. intros y Hy. destruct (Hok y Hy) as (Hy0 & Hys & j & Hj & Hbj). split; [done|]. split; [done|].
    exists j. unfold s1. rewrite lookup_insert_ne; [done|]. by intros ->. }
  { intros y Hy. apply Hloc. by right. }
  exists s', mem'. rewrite Z.add_assoc. split; [done|]. split.
  - intros mem2 H2. split.
    + eapply (means_moved dest (bodies x) mem' mem2 staged final); [intros k Hk; apply H2; lia|exact Hl| |exact Hm].
      eapply holds_ext; [|apply holds_write]. intros z Hz. apply Ho. lia.
    + apply Hp. intros k Hk. rewrite <- !Z.add_assoc. apply H2. lia.
  - intros z Hz. rewrite Ho by lia. apply write_bytes_other. lia.
Qed.

(** ** Theorems *)

(** C15 Encoding an instruction list.  If every branch and every relative
    operand reaches its destination, the list is encoded without a fault into
    the number of bytes that [encoded_size] reports.  Every item lies behind
    its predecessor, and its bytes are the instruction: a branch to an
    instruction of the list leads to the place of that instruction, also when
    it comes later, a branch to an address leads there, and a relative memory
    operand refers to its address.  The items remember their places, and
    nothing outside of the reported bytes is written. *)
Theorem list_encode_resolves s items start max_size mem :
  encodable s items -> 0 < start -> total (body_of s) items < 2 ^ 32 -> total (body_of s) items <= max_size ->
  (forall z, start <= z < start + max_size -> mem z = 0xCC) ->
  at_places (body_of s) (fun x a => reaches (destination s items start) (body_of s x) a) start items ->
  exists n s' mem', encoded_size items s = Ret n /\ list_encode items start max_size (s, mem) = Ret (s', mem', start + n) /\
    at_places (body_of s) (fun x a => s' !! x = Some (placed (body_of s x) a) /\ means (destination s items start) (body_of s x) mem' a) start items /\
    (forall y, y ∉ items -> s' !! y = s !! y) /\
    forall z, z < start \/ start + n <= z -> mem' z = mem z.
Proof.
  intros Hen Hs H32 Hmax Hcc Hr. exists (total (body_of s) items).
  destruct (list_encode_ret s items start max_size mem Hen Hs Hmax Hcc Hr) as (s' & mem' & E & Hp & Ho & Hm). exists s', mem'.
  split; [|done]. apply encoded_size_total; [apply (en_items _ _ Hen)|done].
Qed.

(** A branch that does not reach.  If all other displacements can be
    encoded but a branch to an instruction of the list is too far away from
    its target, the second pass stops on an assertion: no code with a wrong
    branch is produced. *)
Theorem list_encode_out_of_reach s items start max_size mem :
  encodable s items -> 0 < start ->
  (forall z, start <= z < start + max_size -> mem z = 0xCC) ->
  at_places (body_of s) (fun x a => reaches (destination s items start) (body_of s x) a \/
                                    out_of_reach (destination s items start) (body_of s x) a) start items ->
  ~ at_places (body_of s) (fun x a => is_local (body_of s) x = true -> reaches (destination s items start) (body_of s x) a) start items ->
  list_encode items start max_size (s, mem) = Fault.
Proof.
  intros Hen Hs Hcc Hr Hn.
  destruct (first_pass_knows s items start mem Hen Hs) as (s' & mem1 & E & Hp & _).
  { eapply at_places_impl; [|exact Hr]. intros x a _ _ _ [H|H] Hl; [done|]. exfalso. unfold is_local in Hl.
    destruct (body_of s x) as [| | |op short [p|y]|]; done. }
  assert (H0 : 0 ∉ items).
  { intros H. pose proof (en_items _ _ Hen) as Hok. rewrite list.Forall_forall in Hok. by destruct (Hok 0 H) as [? _]. }
  destruct (existsb (is_local (body_of s)) items) eqn:El.
  - destruct items as [|x l] eqn:Ei; [done|rewrite <- Ei in *]. unfold list_encode. rewrite Ei at 1.
    cbn [fst snd]. rewrite (cc_assert mem start max_size Hcc). cbn [ASSERT mbind outcome_bind]. rewrite E. cbn [mbind outcome_bind fst snd].
    rewrite (second_pass_fault (body_of s) (destination s items start) items s' start mem1); try done.
    eapply at_places_impl; [|exact (at_places_and _ _ _ _ _ Hp Hr)]. intros y a _ _ _ [(H1 & _ & H3) H4]. done.
  - exfalso. apply Hn. eapply at_places_impl; [|exact Hr]. intros x a Hx _ _ _ Hl. by rewrite (no_local _ _ _ El Hx) in Hl.
Qed.

(** Staged code.  A list without branches to its own instructions can be
    encoded in one place for execution in another one: wherever the staged
    bytes are copied to the final place, they are the instructions of the
    list there. *)
Theorem list_stage_encode_moves s items staged final mem :
  encodable s items -> (forall x, x ∈ items -> is_local (body_of s) x = false) ->
  at_places (body_of s) (fun x a => reaches (destination s items final) (body_of s x) a) final items ->
  exists s' mem', list_stage_encode items staged final (s, mem) = Ret (s', mem', staged + total (body_of s) items) /\
    (forall mem2, (forall k, 0 <= k < total (body_of s) items -> mem2 (final + k) = mem' (staged + k)) ->
      at_places (body_of s) (fun x a => means (destination s items final) (body_of s x) mem2 a) final items) /\
    forall z, z < staged \/ staged + total (body_of s) items <= z -> mem' z = mem z.
Proof. intros [Hnd Hok _] Hl Hr. by apply list_stage_encode_ret. Qed.

(** ** Witnesses *)
Definition item (b : body) : instr_t := {| i_body := b; note := 0; translation := 0; i_length := 0 |}.

(** [1: jmp_short 3; 2: (n bytes); 3: ; 4: mov 0x5000(%rip); 5: jmp 0x3000]. *)
Definition some_items (n : nat) : store :=
  <[1 := item (B_cti [0xEB] true (T_instr 3))]> (<[2 := item (B_general (repeat 0x90 n))]> (<[3 := item B_label]>
  (<[4 := item (B_raw_rip [0x48; 0x8B; 0x05] 0x5000 [])]> (<[5 := item (B_cti [0xE9] false (T_pc 0x3000))]> ∅)))).

Lemma some_encodable n items : NoDup items -> Forall (fun x => x ∈ [1; 2; 3; 4; 5]) items -> encodable (some_items n) items.
Proof.
  intros Hnd Hin. rewrite list.Forall_forall in Hin. split; [done| |].
  - rewrite list.Forall_forall. intros x Hx%Hin. rewrite !elem_of_cons, elem_of_nil in Hx.
    destruct Hx as [->|[->|[->|[->|[->|[]]]]]]; (split; [discriminate|]); (split; [vm_compute; repeat constructor|]); eexists; split; reflexivity.
  - intros x y Hx%Hin. rewrite !elem_of_cons, elem_of_nil in Hx.
    destruct Hx as [->|[->|[->|[->|[->|[]]]]]]; try discriminate. intros [= <-]. eexists. reflexivity.
Defined.

Lemma list_encode_resolves_witness :
  exists s' mem', list_encode [1; 2; 3; 4; 5] 0x1000 32 (some_items 2, fun _ => 0xCC) = Ret (s', mem', 0x1010) /\
    read_disp 1 0x1001 mem' = 2.
Proof.
  destruct (list_encode_resolves (some_items 2) [1; 2; 3; 4; 5] 0x1000 32 (fun _ => 0xCC)) as (n & s' & mem' & En & E & Hp & _).
  - apply some_encodable; apply (bool_decide_unpack _); vm_compute; exact I.
  - lia.
  - reflexivity.
  - discriminate.
  - reflexivity.
  - cbn [at_places]. split; [reflexivity|]. split; [exact I|]. split; [exact I|]. split; [reflexivity|]. split; [reflexivity|exact I].
  - vm_compute in En. injection En as <-. exists s', mem'. split; [exact E|].
    destruct Hp as [[_ [_ H]] _]. change (0x1000 + 2 + read_disp 1 0x1001 mem' = 0x1004) in H. lia.
Defined.

Lemma list_encode_out_of_reach_witness : list_encode [1; 2; 3] 0x1000 256 (some_items 200, fun _ => 0xCC) = Fault.
Proof.
  apply (list_encode_out_of_reach (some_items 200) [1; 2; 3] 0x1000 256 (fun _ => 0xCC)).
  - apply some_encodable; apply (bool_decide_unpack _); vm_compute; exact I.
  - lia.
  - reflexivity.
  - cbn [at_places]. split; [right; split; vm_compute; reflexivity|]. split; [left; exact I|]. split; [left; exact I|exact I].
  - intros [H _]. specialize (H eq_refl). vm_compute in H. discriminate H.
Defined.

Lemma list_stage_encode_moves_witness :
  exists s' mem', list_stage_encode [2; 4; 5] 0x9000 0x1000 (some_items 2, fun _ => 0) = Ret (s', mem', 0x900E).
Proof.
  destruct (list_stage_encode_moves (some_items 2) [2; 4; 5] 0x9000 0x1000 (fun _ => 0)) as (s' & mem' & E & _).
  - apply some_encodable; apply (bool_decide_unpack _); vm_compute; exact I.
  - intros x Hx. rewrite !elem_of_cons, elem_of_nil in Hx. destruct Hx as [->|[->|[->|[]]]]; reflexivity.
  - cbn [at_places]. split; [exact I|]. split; [reflexivity|]. split; [reflexivity|exact I].
  - exists s', mem'. exact E.
Defined.
