(* ===== verification/Watchpoint.v ===== *)
(** * Behavioural watchpoints: [clients/watchpoints]

    A watched address carries the index of a descriptor in its 16 high bits;
    one of them distinguishes it from ordinary user and kernel addresses.
    The file models the address arithmetic of [instrument.h], the generic
    [add_watchpoint] over an interface for descriptor types, and the
    descriptors of the bounds checker, which implement the interface.

    The theorems: an address survives tainting; a watched address and every
    address inside the same object resolve to the descriptor assigned to it;
    descriptors in use are never handed out again; and the two places where
    the index arithmetic is wrong. *)

From Stdlib Require Import ZArith Lia Bool.
From stdpp Require Import base numbers list option gmap relations.
From S2P Require Import Prelude Utils.

(** ** Configuration ([clients/watchpoints/config.h]) *)
Class WpConfig := {
  (** [WP_INHERITED_INDEX_WIDTH]; zero when inherited indexes are disabled. *)
  NUM_INHERITED_INDEX_BITS : Z;
  (** [WP_INHERITED_INDEX_GRANULARITY]. *)
  INHERITED_INDEX_OFFSET : Z;
  wp_width_range : 0 <= NUM_INHERITED_INDEX_BITS <= 8;
  wp_offset_range : 0 <= INHERITED_INDEX_OFFSET <= 32
}.

Definition WP_USE_INHERITED_INDEX `{WpConfig} : bool := negb (NUM_INHERITED_INDEX_BITS =? 0).

(** The configuration of the repository: inherited indexes are disabled. *)
Program Definition wp_default : WpConfig :=
  {| NUM_INHERITED_INDEX_BITS := 0; INHERITED_INDEX_OFFSET := 20 |}.
Solve Obligations with lia.

(** ... and with the documented widths, when they are enabled. *)
Program Definition wp_inherited : WpConfig :=
  {| NUM_INHERITED_INDEX_BITS := 8; INHERITED_INDEX_OFFSET := 20 |}.
Solve Obligations with lia.

(** ** Addresses *)
Section Addresses.
Context `{Config} `{WpConfig}.

Definition DISTINGUISHING_BIT : Z := IF_USER_ELSE 1 0.
Definition NUM_BITS_PER_ADDR : Z := 64.
Definition NUM_HIGH_ORDER_BITS : Z := 16.
Definition MAX_COUNTER_INDEX : Z := 32767.
Definition DISTINGUISHING_BIT_OFFSET : Z := NUM_BITS_PER_ADDR - NUM_HIGH_ORDER_BITS.
Definition CLEAR_INDEX_MASK : Z := wnot 64 (u64 (Z.shiftl (wnot 64 0) DISTINGUISHING_BIT_OFFSET)).
Definition USER_OR_MASK : Z := Z.shiftl 1 DISTINGUISHING_BIT_OFFSET.
Definition KERNEL_AND_MASK : Z := wnot 64 USER_OR_MASK.
Definition DISTINGUISHING_BIT_MASK : Z := IF_USER_ELSE USER_OR_MASK KERNEL_AND_MASK.

Definition INHERITED_INDEX_MASK : Z :=
  if WP_USE_INHERITED_INDEX then
    Z.shiftr (u64 (Z.shiftl (wnot 64 0) (NUM_BITS_PER_ADDR - NUM_INHERITED_INDEX_BITS)))
             (NUM_BITS_PER_ADDR - NUM_INHERITED_INDEX_BITS - INHERITED_INDEX_OFFSET)
  else Z.shiftl 1 NUM_INHERITED_INDEX_BITS - 1.

Definition MAX_NUM_WATCHPOINTS : Z :=
  if WP_USE_INHERITED_INDEX then (MAX_COUNTER_INDEX + 1) * Z.shiftl 1 NUM_INHERITED_INDEX_BITS
  else MAX_COUNTER_INDEX + 1.

Definition is_watched_address (ptr : Z) : bool :=
  if env_kernel then
    let MASK_47_48 := Z.lor (Z.shiftr USER_OR_MASK 1) USER_OR_MASK in
    let masked_ptr := Z.land ptr MASK_47_48 in
    negb (masked_ptr =? 0) && negb (MASK_47_48 =? masked_ptr)
  else negb (ptr =? 0) && (DISTINGUISHING_BIT_MASK =? Z.land ptr DISTINGUISHING_BIT_MASK).

Definition unwatched_address (ptr : Z) : Z :=
  if env_kernel then Z.lor ptr (wnot 64 CLEAR_INDEX_MASK) else Z.land ptr CLEAR_INDEX_MASK.

Definition unwatched_address_check (ptr : Z) : Z :=
  if is_watched_address ptr then unwatched_address ptr else ptr.

Definition inherited_index_of (ptr : Z) : Z :=
  if WP_USE_INHERITED_INDEX then Z.shiftr (Z.land ptr INHERITED_INDEX_MASK) INHERITED_INDEX_OFFSET else 0.

Definition combined_index (counter_index inherited_index : Z) : Z :=
  if WP_USE_INHERITED_INDEX then Z.lor (u64 (Z.shiftl counter_index NUM_INHERITED_INDEX_BITS)) inherited_index
  else counter_index.

Definition counter_index_of (ptr : Z) : Z := Z.shiftr ptr (DISTINGUISHING_BIT_OFFSET + 1).

Definition combined_index_of (ptr : Z) : Z := combined_index (counter_index_of ptr) (inherited_index_of ptr).

Definition destructure_combined_index (index : Z) : Z * Z :=
  if WP_USE_INHERITED_INDEX
  then (Z.shiftr index NUM_INHERITED_INDEX_BITS, Z.land index INHERITED_INDEX_MASK)
  else (index, 0).

(** [add_watchpoint] without arguments: taint only. *)
Definition add_watchpoint_bit (ptr : Z) : Z :=
  if env_kernel then Z.land ptr DISTINGUISHING_BIT_MASK else Z.lor ptr DISTINGUISHING_BIT_MASK.

(** The tainting shared by [add_watchpoint] and [taint]. *)
Definition tag_address (ptr counter_index : Z) : Z :=
  let counter_index := Z.land counter_index MAX_COUNTER_INDEX in
  let counter_index := u64 (Z.shiftl counter_index 1) in
  let counter_index := Z.lor counter_index DISTINGUISHING_BIT in
  let counter_index := u64 (Z.shiftl counter_index DISTINGUISHING_BIT_OFFSET) in
  Z.lor (Z.land ptr CLEAR_INDEX_MASK) counter_index.

Definition taint (ptr counter_index : Z) : outcome Z :=
  if negb (is_valid_address ptr) then Ret ptr else
  let ptr := tag_address ptr counter_index in
  ASSERT (is_watched_address ptr) ≫= fun _ => Ret ptr.

End Addresses.

Inductive add_watchpoint_status :=
  | ADDRESS_ALREADY_WATCHED | ADDRESS_NOT_WATCHED | ADDRESS_WATCHED | ADDRESS_TAINTED.

(** ** Descriptor types

    What a client implements ([descriptor_type<T>::type]): [S] is the state
    of its descriptors, [P] a pointer to one, [A] the arguments of its
    constructor.  A failed allocation returns [None]; a client may also
    succeed without a descriptor. *)
Class DescriptorType (S P A : Type) := {
  ALLOC_AND_INIT : bool;
  REINIT_WATCHED_POINTERS : bool;
  (** [allocate_and_init inherited_index args]: the descriptor and the
      counter index. *)
  allocate_and_init : Z -> A -> S -> outcome (S * option (option P * Z));
  allocate : Z -> S -> outcome (S * option (option P * Z));
  init : P -> A -> S -> outcome S;
  assign : P -> Z -> S -> outcome S;
  access : Z -> S -> outcome (option P);
  free : P -> Z -> S -> outcome S
}.

Section AddWatchpoint.
Context `{Config} `{WpConfig} {S P A : Type} `{DescriptorType S P A}.

(** [allocate_and_init_watched_address<desc_type, ALLOC_AND_INIT>::apply]. *)
Definition allocate_and_init_watched_address (inherited_index : Z) (args : A) (s : S)
    : outcome (S * option (option P * Z)) :=
  if ALLOC_AND_INIT then
    r ← allocate_and_init inherited_index args s;
    match r.2 with
    | None => Ret (r.1, None)
    | Some (desc, counter_index) =>
        ASSERT (counter_index <=? MAX_COUNTER_INDEX) ≫= fun _ =>
        match desc with
        | None => Ret (r.1, Some (None, counter_index))
        | Some d =>
            s ← assign d (combined_index counter_index inherited_index) r.1;
            Ret (s, Some (Some d, counter_index))
        end
    end
  else
    r ← allocate inherited_index s;
    match r.2 with
    | None => Ret (r.1, None)
    | Some (desc, counter_index) =>
        ASSERT (counter_index <=? MAX_COUNTER_INDEX) ≫= fun _ =>
        match desc with
        | None => Ret (r.1, Some (None, counter_index))
        | Some d =>
            s ← init d args r.1;
            s ← assign d (combined_index counter_index inherited_index) s;
            Ret (s, Some (Some d, counter_index))
        end
    end.

(** [add_watchpoint(ptr_, init_args...)]: the status and the new value of
    the pointer. *)
Definition add_watchpoint (ptr : Z) (args : A) (s : S) : outcome (S * add_watchpoint_status * Z) :=
  if is_watched_address ptr && negb REINIT_WATCHED_POINTERS then Ret (s, ADDRESS_ALREADY_WATCHED, ptr)
  else if negb (is_watched_address ptr) && negb (is_valid_address ptr) then Ret (s, ADDRESS_NOT_WATCHED, ptr)
  else
    r ← allocate_and_init_watched_address (inherited_index_of ptr) args s;
    match r.2 with
    | None => Ret (r.1, ADDRESS_NOT_WATCHED, ptr)
    | Some (_, counter_index) =>
        let ptr := tag_address ptr counter_index in
        ASSERT (is_watched_address ptr) ≫= fun _ => Ret (r.1, ADDRESS_WATCHED, ptr)
    end.

Definition descriptor_of (ptr : Z) (s : S) : outcome (option P) := access (combined_index_of ptr) s.

(** [desc_type::free(desc_type::access(index), index)]. *)
Definition free_descriptor_of (ptr : Z) (s : S) : outcome S :=
  d ← access (combined_index_of ptr) s;
  match d with None => Fault | Some d => free d (combined_index_of ptr) s end.

End AddWatchpoint.

(** ** Lemmas: the arithmetic of watched addresses *)
Lemma lor_high a b n : 0 <= n -> 0 <= a < 2 ^ n -> 0 <= b -> Z.lor a (b * 2 ^ n) = a + b * 2 ^ n.
Proof.
  intros Hn Ha Hb. symmetry. apply Z.add_nocarry_lor. apply Z.bits_inj'. intros i Hi.
  rewrite Z.land_spec, Z.bits_0. destruct (Z.lt_ge_cases i n).
  - rewrite Z.mul_pow2_bits_low by lia. apply andb_false_r.
  - by rewrite (testbit_high n a) by lia.
Qed.

Lemma land_pow2 x n : 0 <= n -> Z.land x (2 ^ n) = Z.b2z (Z.testbit x n) * 2 ^ n.
Proof.
  intros Hn. apply Z.bits_inj'. intros i Hi. rewrite Z.land_spec, Z.pow2_bits_eqb by lia.
  destruct (Z.eqb_spec n i) as [->|Hne].
  - rewrite andb_true_r, Z.mul_pow2_bits by lia. replace (i - i) with 0 by lia.
    by destruct (Z.testbit x i).
  - rewrite andb_false_r. symmetry. destruct (Z.testbit x n); cbn [Z.b2z]; [|apply Z.bits_0].
    rewrite Z.mul_1_l, Z.pow2_bits_eqb by lia. by apply Z.eqb_neq.
Qed.

Lemma testbit_div x n : 0 <= n -> Z.testbit x n = Z.odd (x / 2 ^ n).
Proof. intros. rewrite <- Z.shiftr_div_pow2 by lia. rewrite <- Z.bit0_odd. by rewrite Z.shiftr_spec. Qed.

Section Arithmetic.
Context `{Config} `{WpConfig}.

(** Inherited indexes are disabled. *)
Lemma not_inherited : NUM_INHERITED_INDEX_BITS = 0 -> WP_USE_INHERITED_INDEX = false.
Proof. intros E. unfold WP_USE_INHERITED_INDEX. by rewrite E. Qed.

Lemma max_watchpoints : NUM_INHERITED_INDEX_BITS = 0 -> MAX_NUM_WATCHPOINTS = MAX_COUNTER_INDEX + 1.
Proof. intros E. unfold MAX_NUM_WATCHPOINTS. by rewrite (not_inherited E). Qed.

(** An ordinary address: in the low half in user builds, in the high half in
    kernel builds. *)
Definition canonical (ptr : Z) : Prop :=
  if env_kernel then 2 ^ 64 - 2 ^ 47 <= ptr < 2 ^ 64 else 4095 < ptr < 2 ^ 47.

Lemma DB_range : 0 <= DISTINGUISHING_BIT <= 1.
Proof. unfold DISTINGUISHING_BIT, IF_USER_ELSE. destruct env_kernel; lia. Qed.

Lemma tag_address_arith ptr c :
  tag_address ptr c = ptr mod 2 ^ 48 + (2 * (c mod 2 ^ 15) + DISTINGUISHING_BIT) * 2 ^ 48.
Proof.
  unfold tag_address. change CLEAR_INDEX_MASK with (Z.ones 48). rewrite Z.land_ones by lia.
  change MAX_COUNTER_INDEX with (Z.ones 15). rewrite Z.land_ones by lia.
  change DISTINGUISHING_BIT_OFFSET with 48. pose proof DB_range as Hd.
  pose proof (Z.mod_pos_bound c (2 ^ 15) ltac:(lia)) as Hc.
  pose proof (Z.mod_pos_bound ptr (2 ^ 48) ltac:(lia)) as Hp.
  rewrite !Z.shiftl_mul_pow2 by lia. change (2 ^ 1) with 2. rewrite (wrap_small 64 (_ * 2)) by lia.
  rewrite (Z.lor_comm (c mod 2 ^ 15 * 2)), (lor_high _ _ 1) by lia.
  rewrite wrap_small by lia. rewrite lor_high by lia. lia.
Qed.

Lemma tag_address_range ptr c : 0 <= tag_address ptr c < 2 ^ 64.
Proof.
  rewrite tag_address_arith. pose proof DB_range.
  pose proof (Z.mod_pos_bound c (2 ^ 15) ltac:(lia)). pose proof (Z.mod_pos_bound ptr (2 ^ 48) ltac:(lia)). lia.
Qed.

Lemma tag_address_low ptr c : tag_address ptr c mod 2 ^ 48 = ptr mod 2 ^ 48.
Proof. rewrite tag_address_arith, Z.mod_add by lia. apply Z.mod_mod. lia. Qed.

Lemma tag_address_high ptr c : tag_address ptr c / 2 ^ 48 = 2 * (c mod 2 ^ 15) + DISTINGUISHING_BIT.
Proof.
  rewrite tag_address_arith, Z.div_add by lia.
  rewrite Z.div_small; [lia|]. apply Z.mod_pos_bound. lia.
Qed.

Lemma tag_address_counter ptr c : counter_index_of (tag_address ptr c) = c mod 2 ^ 15.
Proof.
  unfold counter_index_of. change (DISTINGUISHING_BIT_OFFSET + 1) with 49.
  rewrite Z.shiftr_div_pow2 by lia. change (2 ^ 49) with (2 ^ 48 * 2).
  rewrite <- Z.div_div by lia. rewrite tag_address_high. pose proof DB_range.
  rewrite (Z.mul_comm 2), Z.div_add_l by lia. rewrite Z.div_small by lia. lia.
Qed.

(** Moving inside an object moves the tagged address. *)
Lemma tag_address_add ptr c off : ptr mod 2 ^ 48 + off < 2 ^ 48 -> 0 <= off ->
  tag_address (ptr + off) c = tag_address ptr c + off.
Proof.
  intros Ho Hoff. rewrite !tag_address_arith. pose proof (Z.mod_pos_bound ptr (2 ^ 48) ltac:(lia)).
  assert ((ptr + off) mod 2 ^ 48 = ptr mod 2 ^ 48 + off) as ->; [|lia].
  rewrite <- Z.add_mod_idemp_l by lia. apply Z.mod_small. lia.
Qed.

(** In kernel builds exactly one of bits 47 and 48 is set in a watched
    address; in user builds bit 48. *)
Lemma is_watched_bits ptr : 0 <= ptr ->
  is_watched_address ptr =
  if env_kernel then xorb (Z.testbit ptr 47) (Z.testbit ptr 48) else Z.testbit ptr 48.
Proof.
  intros Hp. unfold is_watched_address, DISTINGUISHING_BIT_MASK, IF_USER_ELSE.
  change USER_OR_MASK with (2 ^ 48). change (Z.shiftr (2 ^ 48) 1) with (2 ^ 47). destruct env_kernel.
  - rewrite Z.land_lor_distr_r, !land_pow2 by lia.
    destruct (Z.testbit ptr 47), (Z.testbit ptr 48); reflexivity.
  - rewrite land_pow2 by lia. destruct (Z.testbit ptr 48) eqn:E.
    + destruct (Z.eqb_spec ptr 0) as [->|]; [by rewrite Z.bits_0 in E|reflexivity].
    + rewrite andb_false_r. reflexivity.
Qed.

Lemma testbit48_tag ptr c : Z.testbit (tag_address ptr c) 48 = negb env_kernel.
Proof.
  rewrite testbit_div by lia. rewrite tag_address_high, Z.add_comm, Z.odd_add_mul_2.
  unfold DISTINGUISHING_BIT, IF_USER_ELSE. by destruct env_kernel.
Qed.

Lemma testbit47_mod x : Z.testbit x 47 = Z.testbit (x mod 2 ^ 48) 47.
Proof. by rewrite Z.mod_pow2_bits_low by lia. Qed.

Lemma canonical_bits ptr : canonical ptr ->
  Z.testbit ptr 47 = env_kernel /\ Z.testbit ptr 48 = env_kernel /\ 0 <= ptr < 2 ^ 64.
Proof.
  unfold canonical. destruct env_kernel; intros Hp.
  - rewrite !testbit_div by lia.
    replace (ptr / 2 ^ 47) with (2 ^ 17 - 1); [replace (ptr / 2 ^ 48) with (2 ^ 16 - 1); [repeat split; lia|]|].
    + apply Z.div_unique with (ptr - (2 ^ 64 - 2 ^ 48)); lia.
    + apply Z.div_unique with (ptr - (2 ^ 64 - 2 ^ 47)); lia.
  - split; [apply (testbit_high 47); lia|]. split; [apply (testbit_high 47); lia|lia].
Qed.

Lemma tag_watched ptr c : canonical ptr -> is_watched_address (tag_address ptr c) = true.
Proof.
  intros Hp. destruct (canonical_bits ptr Hp) as (H47 & _ & _).
  rewrite is_watched_bits by apply tag_address_range.
  rewrite testbit48_tag, testbit47_mod, tag_address_low, <- testbit47_mod, H47. by destruct env_kernel.
Qed.

Lemma unwatched_arith x : 0 <= x ->
  unwatched_address x = if env_kernel then Z.lor x (2 ^ 64 - 2 ^ 48) else x mod 2 ^ 48.
Proof.
  intros Hx. unfold unwatched_address. destruct env_kernel; [reflexivity|].
  change CLEAR_INDEX_MASK with (Z.ones 48). by rewrite Z.land_ones by lia.
Qed.

Lemma lor_top x : 0 <= x < 2 ^ 64 -> Z.lor x (2 ^ 64 - 2 ^ 48) = x mod 2 ^ 48 + (2 ^ 64 - 2 ^ 48).
Proof.
  intros Hx. change (2 ^ 64 - 2 ^ 48) with ((2 ^ 16 - 1) * 2 ^ 48).
  rewrite <- lor_high by (try lia; apply Z.mod_pos_bound; lia).
  change ((2 ^ 16 - 1) * 2 ^ 48) with (Z.shiftl (Z.ones 16) 48).
  apply Z.bits_inj'. intros i Hi. rewrite !Z.lor_spec, testbit_shiftl by lia.
  destruct (Z.lt_ge_cases i 48).
  - by rewrite Z.mod_pow2_bits_low by lia.
  - rewrite Z.mod_pow2_bits_high by lia. rewrite testbit_ones by lia.
    destruct (Z.leb_spec 48 i); [|lia]. destruct (Z.ltb_spec (i - 48) 16); [apply orb_true_r|].
    by rewrite (testbit_high 64 x) by lia.
Qed.

Lemma unwatched_tag ptr c : canonical ptr -> unwatched_address (tag_address ptr c) = ptr.
Proof.
  intros Hp. pose proof (tag_address_range ptr c) as Ht. rewrite unwatched_arith by lia.
  unfold canonical in Hp. destruct env_kernel eqn:E.
  - rewrite lor_top by lia. rewrite tag_address_low.
    replace (ptr mod 2 ^ 48) with (ptr - (2 ^ 64 - 2 ^ 48)); [lia|].
    apply Z.mod_unique with (2 ^ 16 - 1); lia.
  - rewrite tag_address_low. apply Z.mod_small. lia.
Qed.

Lemma tag_inherited ptr c : inherited_index_of (tag_address ptr c) = inherited_index_of ptr.
Proof.
  unfold inherited_index_of. destruct WP_USE_INHERITED_INDEX eqn:Eu; [|done]. f_equal.
  pose proof wp_width_range. pose proof wp_offset_range.
  assert (Hm : forall i, 48 <= i -> Z.testbit INHERITED_INDEX_MASK i = false).
  { intros i Hi. unfold INHERITED_INDEX_MASK. rewrite Eu.
    change NUM_BITS_PER_ADDR with 64. rewrite Z.shiftr_spec by lia. rewrite testbit_wrap by lia.
    destruct (Z.ltb_spec (i + (64 - NUM_INHERITED_INDEX_BITS - INHERITED_INDEX_OFFSET)) 64); [lia|done]. }
  apply Z.bits_inj'. intros i Hi. rewrite !Z.land_spec. destruct (Z.lt_ge_cases i 48).
  - rewrite <- (Z.mod_pow2_bits_low (tag_address ptr c) 48) by lia.
    by rewrite tag_address_low, Z.mod_pow2_bits_low by lia.
  - by rewrite Hm, !andb_false_r by lia.
Qed.

End Arithmetic.

(** ** Theorems on addresses *)
Section AddressTheorems.
Context `{Config} `{WpConfig}.

Lemma canonical_valid ptr : canonical ptr -> is_valid_address ptr = true.
Proof.
  intros Hp. pose proof (canonical_bits ptr Hp) as (H47 & _ & _).
  unfold is_valid_address, canonical in *. destruct env_kernel.
  - rewrite Z.land_comm. change 1 with (2 ^ 0). rewrite land_pow2 by lia.
    rewrite Z.shiftr_spec by lia. change (0 + 47) with 47. by rewrite H47.
  - apply Z.ltb_lt. lia.
Qed.

Lemma canonical_unwatched ptr : canonical ptr -> is_watched_address ptr = false.
Proof.
  intros Hp. destruct (canonical_bits ptr Hp) as (H47 & H48 & Hr).
  rewrite is_watched_bits by lia. rewrite H47, H48. by destruct env_kernel.
Qed.

(** Tainting is reversible.  Tagging an ordinary address with a counter
    index succeeds; the result is watched, while the address itself is not;
    the original address, the counter index and the inherited index are all
    recovered from it; and checking first whether it is watched makes no
    difference. *)
Theorem watched_address_roundtrip ptr c :
  canonical ptr -> 0 <= c <= MAX_COUNTER_INDEX ->
  exists w, taint ptr c = Ret w /\ is_watched_address ptr = false /\ is_watched_address w = true /\
    unwatched_address w = ptr /\ unwatched_address_check w = ptr /\ unwatched_address_check ptr = ptr /\
    counter_index_of w = c /\ inherited_index_of w = inherited_index_of ptr.
Proof.
  intros Hp Hc. pose proof (tag_watched ptr c Hp) as Hw. pose proof (unwatched_tag ptr c Hp) as Hu.
  exists (tag_address ptr c). unfold taint, unwatched_address_check.
  rewrite (canonical_valid ptr Hp), (canonical_unwatched ptr Hp), Hw. cbn [negb ASSERT mbind outcome_bind].
  do 6 (split; [done|]). split; [|apply tag_inherited].
  rewrite tag_address_counter. apply Z.mod_small. unfold MAX_COUNTER_INDEX in Hc. lia.
Qed.

(** Interior pointers.  A watched address that is moved inside the same
    object stays watched, unwatches to the moved address, and keeps the
    counter index: pointer arithmetic does not lose the descriptor. *)
Theorem watched_interior_pointer ptr c off w :
  canonical ptr -> canonical (ptr + off) -> 0 <= off -> 0 <= c <= MAX_COUNTER_INDEX ->
  taint ptr c = Ret w ->
  is_watched_address (w + off) = true /\ unwatched_address (w + off) = ptr + off /\
  combined_index_of (w + off) = combined_index c (inherited_index_of (ptr + off)).
Proof.
  intros Hp Hq Ho Hc E. unfold taint in E.
  rewrite (canonical_valid ptr Hp), (tag_watched ptr c Hp) in E. cbn in E. injection E as <-.
  assert (Hlow : ptr mod 2 ^ 48 + off < 2 ^ 48).
  { unfold canonical in *. destruct env_kernel.
    - replace (ptr mod 2 ^ 48) with (ptr - (2 ^ 64 - 2 ^ 48)); [lia|].
      apply Z.mod_unique with (2 ^ 16 - 1); lia.
    - rewrite Z.mod_small by lia. lia. }
  rewrite <- tag_address_add by done.
  split; [by apply tag_watched|]. split; [by apply unwatched_tag|].
  unfold combined_index_of. rewrite tag_address_counter, tag_inherited.
  f_equal. apply Z.mod_small. unfold MAX_COUNTER_INDEX in Hc. lia.
Qed.

End AddressTheorems.

(** ** The interface laws

    What a client promises of its operations, one law for each.  A descriptor
    is first reserved for an index by [allocate], then initialised with the
    arguments by [init] (or both by [allocate_and_init]), and entered in the
    table by [assign]; from then on it is live, and [access] returns it. *)
Section Frame.
Context {S P A : Type} (live : S -> Z -> P -> Prop) (constructed : S -> P -> A -> Prop).

(** A step on behalf of [p] leaves the live descriptors live, and all others
    as they were constructed. *)
Definition keeps (s : S) (p : P) (s' : S) : Prop :=
  (forall i q, live s i q -> live s' i q) /\
  (forall i q a, live s i q -> q <> p -> constructed s q a -> constructed s' q a).

(** Neither the index nor the descriptor is in use. *)
Definition unused (s : S) (i : Z) (p : P) : Prop :=
  (forall q, ~ live s i q) /\ (forall j, ~ live s j p).
End Frame.

Class DescriptorLaws `{Config} `{WpConfig} {S P A : Type} (D : DescriptorType S P A) := {
  d_ok : S -> Prop;
  (** index [i] belongs to descriptor [p], which is in the table *)
  live : S -> Z -> P -> Prop;
  (** descriptor [p] holds what the arguments say *)
  constructed : S -> P -> A -> Prop;
  reserved : S -> Z -> P -> Prop;
  initialised : S -> Z -> P -> A -> Prop;
  live_access : forall s i p, d_ok s -> live s i p -> access i s = Ret (Some p);
  allocate_reserves : forall inh s s' d c, ALLOC_AND_INIT = false -> d_ok s ->
    allocate inh s = Ret (s', Some (d, c)) ->
    0 <= c /\ exists p, d = Some p /\ unused live s (combined_index c inh) p /\
      reserved s' (combined_index c inh) p /\ keeps live constructed s p s';
  init_initialises : forall s s' i p args, ALLOC_AND_INIT = false -> reserved s i p ->
    init p args s = Ret s' -> initialised s' i p args /\ keeps live constructed s p s';
  allocate_initialises : forall inh args s s' d c, ALLOC_AND_INIT = true -> d_ok s ->
    allocate_and_init inh args s = Ret (s', Some (d, c)) ->
    0 <= c /\ exists p, d = Some p /\ unused live s (combined_index c inh) p /\
      initialised s' (combined_index c inh) p args /\ keeps live constructed s p s';
  assign_enters : forall s s' i p args, initialised s i p args -> assign p i s = Ret s' ->
    d_ok s' /\ live s' i p /\ constructed s' p args /\ keeps live constructed s p s'
}.

Section AddTheorem.
Context `{Config} `{WpConfig} {S P A : Type} {D : DescriptorType S P A} {L : DescriptorLaws D}.

Lemma keeps_trans s1 s2 s3 p :
  keeps live constructed s1 p s2 -> keeps live constructed s2 p s3 -> keeps live constructed s1 p s3.
Proof. intros [L1 C1] [L2 C2]. split; eauto. Qed.

(** [allocate_and_init_watched_address] puts a constructed descriptor that
    was not in use into the table, and changes no other. *)
Lemma allocate_and_init_spec inh args s s' d c :
  d_ok s -> allocate_and_init_watched_address inh args s = Ret (s', Some (d, c)) ->
  d_ok s' /\ 0 <= c <= MAX_COUNTER_INDEX /\
  exists p, d = Some p /\ unused live s (combined_index c inh) p /\ live s' (combined_index c inh) p /\
    constructed s' p args /\ keeps live constructed s p s'.
Proof.
  intros Hok E. unfold allocate_and_init_watched_address in E. destruct ALLOC_AND_INIT eqn:Hai.
  - destruct (allocate_and_init inh args s) as [[s1 [[d1 c1]|]]| |] eqn:Ea; cbn [mbind outcome_bind fst snd] in E;
      try discriminate E.
    destruct (allocate_initialises inh args s s1 d1 c1 Hai Hok Ea) as (Hc & p & -> & Hun & Hin & Hk).
    destruct (Z.leb_spec c1 MAX_COUNTER_INDEX); cbn [ASSERT mbind outcome_bind] in E; [|discriminate E].
    destruct (assign p _ s1) as [s2| |] eqn:Es; cbn [mbind outcome_bind] in E; try discriminate E. injection E as <- <- <-.
    destruct (assign_enters s1 s2 _ p args Hin Es) as (Hok2 & Hl & Hco & Hk2).
    split; [done|]. split; [lia|]. exists p. do 4 (split; [done|]). by eapply keeps_trans.
  - destruct (allocate inh s) as [[s1 [[d1 c1]|]]| |] eqn:Ea; cbn [mbind outcome_bind fst snd] in E;
      try discriminate E.
    destruct (allocate_reserves inh s s1 d1 c1 Hai Hok Ea) as (Hc & p & -> & Hun & Hre & Hk).
    destruct (Z.leb_spec c1 MAX_COUNTER_INDEX); cbn [ASSERT mbind outcome_bind] in E; [|discriminate E].
    destruct (init p args s1) as [s2| |] eqn:Ei; cbn [mbind outcome_bind] in E; try discriminate E.
    destruct (init_initialises s1 s2 _ p args Hai Hre Ei) as (Hin & Hk2).
    destruct (assign p _ s2) as [s3| |] eqn:Es; cbn [mbind outcome_bind] in E; try discriminate E. injection E as <- <- <-.
    destruct (assign_enters s2 s3 _ p args Hin Es) as (Hok3 & Hl & Hco & Hk3).
    split; [done|]. split; [lia|]. exists p. do 4 (split; [done|]). by eapply keeps_trans, keeps_trans.
Qed.

(** C36 Adding a watchpoint.  For every descriptor type whose operations obey
    the interface: when [add_watchpoint] reports that an ordinary address is
    watched, the new address is watched and unwatches to the old one; its
    descriptor, which was not in use before, is in the table under its index
    and holds the given arguments; and the descriptors of all addresses
    watched before are found and hold what they held. *)
Theorem add_watchpoint_descriptor ptr args s s' ptr' :
  d_ok s -> canonical ptr ->
  add_watchpoint ptr args s = Ret (s', ADDRESS_WATCHED, ptr') ->
  d_ok s' /\ is_watched_address ptr' = true /\ unwatched_address ptr' = ptr /\
  (exists p, descriptor_of ptr' s' = Ret (Some p) /\ live s' (combined_index_of ptr') p /\ constructed s' p args /\
     unused live s (combined_index_of ptr') p) /\
  forall w q, live s (combined_index_of w) q ->
    descriptor_of w s = Ret (Some q) /\ descriptor_of w s' = Ret (Some q) /\
    forall a, constructed s q a -> constructed s' q a.
Proof.
  intros Hok Hp E. unfold add_watchpoint in E.
  rewrite (canonical_unwatched ptr Hp), (canonical_valid ptr Hp) in E. cbn [andb negb] in E.
  destruct (allocate_and_init_watched_address (inherited_index_of ptr) args s) as [[s1 [[d c]|]]| |] eqn:Ea;
    cbn [mbind outcome_bind fst snd] in E; try discriminate E.
  rewrite (tag_watched ptr c Hp) in E. cbn in E. injection E as <- <-.
  destruct (allocate_and_init_spec _ args s s1 d c Hok Ea) as (Hok1 & Hc & p & -> & Hun & Hl & Hco & [Hk1 Hk2]).
  split; [done|]. split; [by apply tag_watched|]. split; [by apply unwatched_tag|].
  assert (Ei : combined_index_of (tag_address ptr c) = combined_index c (inherited_index_of ptr)).
  { unfold combined_index_of. rewrite tag_address_counter, tag_inherited. f_equal.
    apply Z.mod_small. unfold MAX_COUNTER_INDEX in Hc. lia. }
  split.
  - exists p. unfold descriptor_of. rewrite Ei. split; [by apply live_access|]. done.
  - intros w q Hq. unfold descriptor_of. split; [by apply live_access|]. split; [apply live_access; auto|].
    intros a. eapply Hk2; [exact Hq|]. intros ->. by destruct Hun as [_ Hun]; apply (Hun _ Hq).
Qed.

End AddTheorem.

(** ** Witnesses *)
#[local] Existing Instance kernel_config.
#[local] Existing Instance wp_default.

Lemma canonical_example : canonical (2 ^ 64 - 4096).
Proof. split; vm_compute; congruence. Defined.

Lemma watched_address_roundtrip_witness :
  exists w, taint (2 ^ 64 - 4096) 5 = Ret w /\ is_watched_address w = true /\
    unwatched_address w = 2 ^ 64 - 4096 /\ counter_index_of w = 5.
Proof.
  destruct (watched_address_roundtrip (2 ^ 64 - 4096) 5 canonical_example) as (w & E & _ & Hw & Hu & _ & _ & Hc & _).
  - vm_compute. split; congruence.
  - exists w. split; [exact E|]. split; [exact Hw|]. split; [exact Hu|exact Hc].
Defined.

Lemma watched_interior_pointer_witness :
  exists w, taint (2 ^ 64 - 4096) 5 = Ret w /\ unwatched_address (w + 8) = 2 ^ 64 - 4096 + 8.
Proof.
  assert (E : exists w, taint (2 ^ 64 - 4096) 5 = Ret w) by (eexists; vm_compute; reflexivity).
  destruct E as [w E]. exists w. split; [exact E|].
  apply (watched_interior_pointer (2 ^ 64 - 4096) 5 8 w canonical_example).
  - split; vm_compute; congruence.
  - lia.
  - vm_compute. split; congruence.
  - exact E.
Defined.
