(* ===== verification/BoundsChecker.v ===== *)
(** * The bounds checker: [clients/watchpoints/clients/bounds_checker]

    Its descriptors live in a static array indexed by the counter index; a
    released descriptor goes to a free list threaded through the array (the
    field shared with the return address).  The free list is the one of the
    executing CPU.  The file shows that these descriptors satisfy the
    interface of [Watchpoint] and how the array is exhausted. *)

From Stdlib Require Import ZArith Lia Bool.
From stdpp Require Import base numbers list option gmap relations.
From S2P Require Import Prelude Utils Watchpoint.

(** The union of the return address and the free-list link. *)
Inductive ret_or_next :=
  | return_address (ret_address : Z)
  | next_free_descriptor (next : option Z).

Record bound_descriptor := {
  lower_bound : Z;
  upper_bound : Z;
  ret_next : ret_or_next
}.

Definition zero_descriptor : bound_descriptor :=
  {| lower_bound := 0; upper_bound := 0; ret_next := next_free_descriptor None |}.

(** A pointer to a descriptor is its index in [DESCRIPTORS]. *)
Record bc_state := {
  NEXT_COUNTER_INDEX : Z;
  DESCRIPTORS : gmap Z bound_descriptor;
  free_list : option Z
}.

Definition bc_initial : bc_state :=
  {| NEXT_COUNTER_INDEX := 0; DESCRIPTORS := ∅; free_list := None |}.

Definition descriptor_at (s : bc_state) (i : Z) : bound_descriptor :=
  default zero_descriptor (DESCRIPTORS s !! i).

(** [NEXT_COUNTER_INDEX.fetch_add(1)]. *)
Definition next_counter_index (s : bc_state) : bc_state * Z :=
  ({| NEXT_COUNTER_INDEX := u64 (NEXT_COUNTER_INDEX s + 1); DESCRIPTORS := DESCRIPTORS s;
      free_list := free_list s |}, NEXT_COUNTER_INDEX s).

Section BoundsChecker.
Context `{Config} `{WpConfig}.
(** The address of [DESCRIPTORS]; [is_code_cache_address]. *)
Context (base : Z) (is_code_cache_address : Z -> bool).

Definition desc_address (i : Z) : Z := base + 16 * i.

Definition bound_allocate (inherited_index : Z) (s : bc_state) : outcome (bc_state * option (option Z * Z)) :=
  match free_list s with
  | Some desc =>
      match ret_next (descriptor_at s desc) with
      | return_address _ => Fault
      | next_free_descriptor next =>
          let s := {| NEXT_COUNTER_INDEX := NEXT_COUNTER_INDEX s; DESCRIPTORS := DESCRIPTORS s;
                      free_list := next |} in
          let counter_index := (destructure_combined_index desc).1 in
          ASSERT (counter_index <=? MAX_COUNTER_INDEX) ≫= fun _ =>
          ASSERT (counter_index <=? MAX_NUM_WATCHPOINTS) ≫= fun _ =>
          Ret (s, Some (Some desc, counter_index))
      end
  | None =>
      let r := next_counter_index s in
      let counter_index := r.2 in
      if MAX_NUM_WATCHPOINTS <? counter_index then Ret (r.1, None) else
      ASSERT (counter_index <=? MAX_COUNTER_INDEX) ≫= fun _ =>
      ASSERT (counter_index <=? MAX_NUM_WATCHPOINTS) ≫= fun _ =>
      Ret (r.1, Some (Some counter_index, counter_index))
  end.

Definition set_descriptor (i : Z) (d : bound_descriptor) (s : bc_state) : bc_state :=
  {| NEXT_COUNTER_INDEX := NEXT_COUNTER_INDEX s; DESCRIPTORS := <[i := d]> (DESCRIPTORS s);
     free_list := free_list s |}.

(** Arguments: [base_address], [size], [ret_address]. *)
Definition bound_allocate_and_init (inherited_index : Z) (args : Z * Z * Z) (s : bc_state)
    : outcome (bc_state * option (option Z * Z)) :=
  let '(base_address, size, ret_address) := args in
  if size =? 0 then Ret (s, None) else
  r ← bound_allocate inherited_index s;
  match r.2 with
  | None => Ret (r.1, None)
  | Some (None, _) => Fault
  | Some (Some desc, counter_index) =>
      ASSERT (is_valid_address (desc_address desc)) ≫= fun _ =>
      ASSERT (is_code_cache_address ret_address) ≫= fun _ =>
      let d := {| lower_bound := u32 base_address; upper_bound := u32 (base_address + size);
                  ret_next := return_address ret_address |} in
      let s := set_descriptor desc d r.1 in
      ASSERT (lower_bound d <? upper_bound d) ≫= fun _ =>
      Ret (s, Some (Some desc, counter_index))
  end.

Definition bound_access (index : Z) (s : bc_state) : outcome (option Z) :=
  ASSERT (index <? MAX_NUM_WATCHPOINTS) ≫= fun _ => Ret (Some index).

Definition bound_free (desc index : Z) (s : bc_state) : outcome bc_state :=
  ASSERT (is_valid_address (desc_address desc)) ≫= fun _ =>
  ASSERT (index =? desc) ≫= fun _ =>
  let d := descriptor_at s desc in
  let s := set_descriptor desc {| lower_bound := lower_bound d; upper_bound := upper_bound d;
                                  ret_next := next_free_descriptor (free_list s) |} s in
  Ret {| NEXT_COUNTER_INDEX := NEXT_COUNTER_INDEX s; DESCRIPTORS := DESCRIPTORS s; free_list := Some desc |}.

Definition bound_assign (desc index : Z) (s : bc_state) : outcome bc_state := Ret s.

(** The client uses [allocate_and_init]; it has no separate [init]. *)
Definition bound_descriptor_type : DescriptorType bc_state Z (Z * Z * Z) :=
  {| ALLOC_AND_INIT := true; REINIT_WATCHED_POINTERS := false;
     allocate_and_init := bound_allocate_and_init; allocate := bound_allocate;
     init := fun _ _ _ => Fault; assign := bound_assign; access := bound_access; free := bound_free |}.

(** [visit_overflow]: what is reported about an access. *)
Inductive overflow_report := Underflowed (addr : Z) | Overflowed (addr : Z).

Definition visit_overflow (watched_addr size : Z) (s : bc_state) : outcome overflow_report :=
  d ← bound_access (combined_index_of watched_addr) s;
  match d with
  | None => Fault
  | Some i =>
      let descriptor := descriptor_at s i in
      let unwatched_addr := unwatched_address watched_addr in
      let low_32 := u32 watched_addr in
      if low_32 <? lower_bound descriptor then Ret (Underflowed unwatched_addr)
      else ASSERT (upper_bound descriptor <? u32 (low_32 + size)) ≫= fun _ =>
           Ret (Overflowed unwatched_addr)
  end.

(** ** Invariant *)

(** The free list, as the descriptors it links. *)
Fixpoint free_chain (s : bc_state) (h : option Z) (l : list Z) : Prop :=
  match l with
  | [] => h = None
  | i :: l => h = Some i /\ exists next, ret_next (descriptor_at s i) = next_free_descriptor next /\
                free_chain s next l
  end.

Record bc_ok (s : bc_state) (fl : list Z) : Prop := {
  ok_next : 0 <= NEXT_COUNTER_INDEX s <= MAX_COUNTER_INDEX + 1;
  ok_chain : free_chain s (free_list s) fl;
  ok_nodup : NoDup fl;
  ok_range : Forall (fun i => 0 <= i < NEXT_COUNTER_INDEX s) fl
}.

(** Descriptor [i] is handed out. *)
Definition in_use (s : bc_state) (fl : list Z) (i : Z) : Prop :=
  0 <= i < NEXT_COUNTER_INDEX s /\ (i ∉ fl).

Lemma free_chain_ext s s' h l :
  (forall i, i ∈ l -> descriptor_at s' i = descriptor_at s i) -> free_chain s h l -> free_chain s' h l.
Proof.
  revert h. induction l as [|i l IH]; intros h Hd; [done|]. cbn. intros [-> (next & E & Hc)].
  split; [done|]. exists next. rewrite Hd by left. split; [done|]. apply IH; [|done].
  intros j Hj. apply Hd. by right.
Qed.

Lemma free_chain_det s h l l' : free_chain s h l -> free_chain s h l' -> l = l'.
Proof.
  revert h l'. induction l as [|i l IH]; intros h [|i' l']; cbn; intros H1 H2; try done.
  - destruct H2 as [E _]. congruence.
  - destruct H1 as [E _]. congruence.
  - destruct H1 as [-> (n & E & Hc)], H2 as [[= <-] (n' & E' & Hc')].
    rewrite E in E'. injection E' as <-. f_equal. by eapply IH.
Qed.

Lemma descriptor_at_set s i d j :
  descriptor_at (set_descriptor i d s) j = if decide (i = j) then d else descriptor_at s j.
Proof.
  unfold descriptor_at, set_descriptor. cbn. case_decide as E.
  - subst. by rewrite lookup_insert_eq.
  - by rewrite lookup_insert_ne.
Qed.

(** The configuration of the repository: no inherited indexes; and the array
    lies at valid addresses. *)
Context (Hcfg : NUM_INHERITED_INDEX_BITS = 0).
Context (Hbase : forall i, 0 <= i <= MAX_COUNTER_INDEX -> is_valid_address (desc_address i) = true).

(** [allocate] takes the first free descriptor, or the next one never used. *)
Lemma bound_allocate_ret inh s fl :
  bc_ok s fl -> fl <> [] \/ NEXT_COUNTER_INDEX s <= MAX_COUNTER_INDEX ->
  exists s' fl' i, bound_allocate inh s = Ret (s', Some (Some i, i)) /\ bc_ok s' fl' /\
    DESCRIPTORS s' = DESCRIPTORS s /\ 0 <= i <= MAX_COUNTER_INDEX /\ (i ∉ fl') /\ i < NEXT_COUNTER_INDEX s' /\
    ~ in_use s fl i /\ forall j, in_use s' fl' j <-> in_use s fl j \/ j = i.
Proof.
  intros [Hn Hc Hnd Hr] Hroom. unfold bound_allocate, in_use. rewrite (max_watchpoints Hcfg).
  destruct fl as [|i fl]; cbn [free_chain] in Hc.
  - rewrite Hc. destruct Hroom as [?|Hroom]; [done|].
    cbn [next_counter_index snd fst].
    destruct (Z.ltb_spec (MAX_COUNTER_INDEX + 1) (NEXT_COUNTER_INDEX s)); [lia|].
    destruct (Z.leb_spec (NEXT_COUNTER_INDEX s) MAX_COUNTER_INDEX); [|lia].
    destruct (Z.leb_spec (NEXT_COUNTER_INDEX s) (MAX_COUNTER_INDEX + 1)); [|lia].
    cbn [ASSERT mbind outcome_bind]. eexists _, [], (NEXT_COUNTER_INDEX s). split; [done|].
    unfold MAX_COUNTER_INDEX in *. cbn [NEXT_COUNTER_INDEX DESCRIPTORS]. rewrite wrap_small by lia.
    split; [split; cbn; try done; try constructor; unfold MAX_COUNTER_INDEX; lia|].
    split; [done|]. split; [lia|]. split; [apply not_elem_of_nil|]. split; [lia|].
    split; [lia|]. intros j. pose proof (not_elem_of_nil j). split.
    + intros [Hj _]. destruct (Z.eq_dec j (NEXT_COUNTER_INDEX s)); [by right|left]. split; [lia|done].
    + intros [[Hj _]| ->]; (split; [lia|done]).
  - destruct Hc as [Hfl (next & En & Hc)]. rewrite Hfl, En.
    apply List.Forall_cons_iff in Hr as [Hi Hr]. apply NoDup_cons in Hnd as [Hni Hnd].
    unfold destructure_combined_index. rewrite (not_inherited Hcfg). cbn [fst].
    destruct (Z.leb_spec i MAX_COUNTER_INDEX); [|lia].
    destruct (Z.leb_spec i (MAX_COUNTER_INDEX + 1)); [|lia].
    cbn [ASSERT mbind outcome_bind]. eexists _, fl, i. split; [done|]. cbn [NEXT_COUNTER_INDEX DESCRIPTORS].
    split; [split; try done; by apply (free_chain_ext s)|]. split; [done|]. split; [lia|]. split; [done|].
    split; [lia|]. split; [intros [_ Hin]; apply Hin; left|].
    intros j. split.
    + intros [Hj Hjf]. destruct (Z.eq_dec j i) as [->|Hne]; [by right|left]. split; [done|].
      by apply not_elem_of_cons.
    + intros [[Hj [_ Hjf]%not_elem_of_cons]| ->]; done.
Qed.

(** Writing a descriptor that is in use keeps the free list. *)
Lemma set_descriptor_ok s fl i d : bc_ok s fl -> i ∉ fl -> bc_ok (set_descriptor i d s) fl.
Proof.
  intros [Hn Hc Hnd Hr] Hi. split; try done. eapply free_chain_ext; [|exact Hc].
  intros j Hj. rewrite descriptor_at_set. case_decide; [by subst|done].
Qed.

Lemma bound_alloc_ret inh addr size ret s fl :
  bc_ok s fl -> fl <> [] \/ NEXT_COUNTER_INDEX s <= MAX_COUNTER_INDEX ->
  size <> 0 -> is_code_cache_address ret = true -> u32 addr < u32 (addr + size) ->
  exists s' fl' i, bound_allocate_and_init inh (addr, size, ret) s = Ret (s', Some (Some i, i)) /\
    bc_ok s' fl' /\ 0 <= i <= MAX_COUNTER_INDEX /\ ~ in_use s fl i /\
    (forall j, in_use s' fl' j <-> in_use s fl j \/ j = i) /\
    descriptor_at s' i = {| lower_bound := u32 addr; upper_bound := u32 (addr + size);
                            ret_next := return_address ret |} /\
    forall j, in_use s fl j -> descriptor_at s' j = descriptor_at s j.
Proof.
  intros Hok Hroom Hs Hret Hb. unfold bound_allocate_and_init.
  destruct (Z.eqb_spec size 0); [done|].
  destruct (bound_allocate_ret inh s fl Hok Hroom) as (s1 & fl1 & i & -> & Hok1 & Hd & Hi & Hif & Hin & Hnew & Huse).
  cbn [mbind outcome_bind fst snd]. rewrite (Hbase i Hi), Hret. cbn [ASSERT mbind outcome_bind lower_bound upper_bound].
  destruct (Z.ltb_spec (u32 addr) (u32 (addr + size))); [|lia]. cbn [ASSERT mbind outcome_bind].
  eexists _, fl1, i. split; [done|]. split; [by apply set_descriptor_ok|]. split; [done|]. split; [done|].
  split; [done|]. split; [rewrite descriptor_at_set; by case_decide|].
  intros j Hj. rewrite descriptor_at_set. case_decide; [by subst|]. unfold descriptor_at. by rewrite Hd.
Qed.

(** The descriptor [i] describes the object of the arguments. *)
Definition holds (s : bc_state) (i : Z) (args : Z * Z * Z) : Prop :=
  let '(addr, size, ret) := args in
  descriptor_at s i = {| lower_bound := u32 addr; upper_bound := u32 (addr + size); ret_next := return_address ret |}.

(** A successful allocation, inverted. *)
Lemma bound_alloc_inv inh args s fl s' d c :
  bc_ok s fl -> bound_allocate_and_init inh args s = Ret (s', Some (d, c)) ->
  exists fl', d = Some c /\ bc_ok s' fl' /\ 0 <= c <= MAX_COUNTER_INDEX /\ ~ in_use s fl c /\
    (forall j, in_use s' fl' j <-> in_use s fl j \/ j = c) /\ holds s' c args /\
    forall j, j <> c -> descriptor_at s' j = descriptor_at s j.
Proof.
  destruct args as [[addr size] ret]. intros Hok E. unfold bound_allocate_and_init in E.
  destruct (Z.eqb_spec size 0); [discriminate E|].
  assert (Hroom : fl <> [] \/ NEXT_COUNTER_INDEX s <= MAX_COUNTER_INDEX).
  { destruct fl as [|i fl]; [right|by left].
    destruct (Z.le_gt_cases (NEXT_COUNTER_INDEX s) MAX_COUNTER_INDEX) as [|Hgt]; [done|]. exfalso.
    unfold bound_allocate in E. rewrite (ok_chain _ _ Hok), (max_watchpoints Hcfg) in E.
    pose proof (ok_next _ _ Hok). cbn [next_counter_index snd fst] in E.
    destruct (Z.ltb_spec (MAX_COUNTER_INDEX + 1) (NEXT_COUNTER_INDEX s)); [lia|].
    destruct (Z.leb_spec (NEXT_COUNTER_INDEX s) MAX_COUNTER_INDEX); [lia|]. discriminate E. }
  destruct (bound_allocate_ret inh s fl Hok Hroom) as (s1 & fl1 & i & E1 & Hok1 & Hd & Hi & Hif & _ & Hnew & Huse).
  rewrite E1 in E. cbn [mbind outcome_bind fst snd lower_bound upper_bound] in E. inv_outcome.
  exists fl1. split; [done|]. split; [by apply set_descriptor_ok|]. do 3 (split; [done|]). split.
  - unfold holds. rewrite descriptor_at_set. by case_decide.
  - intros j Hj. rewrite descriptor_at_set. case_decide; [by subst|]. unfold descriptor_at. by rewrite Hd.
Qed.

Lemma bound_free_ret s fl i :
  bc_ok s fl -> in_use s fl i ->
  exists s', bound_free i i s = Ret s' /\ bc_ok s' (i :: fl) /\
    forall j, in_use s' (i :: fl) j <-> in_use s fl j /\ j <> i.
Proof.
  intros Hok [Hi Hif]. pose proof (ok_next _ _ Hok) as Hn. unfold bound_free.
  rewrite (Hbase i) by lia. rewrite Z.eqb_refl. cbn [ASSERT mbind outcome_bind].
  eexists. split; [done|]. split.
  - destruct Hok as [_ Hc Hnd Hr]. split; cbn [NEXT_COUNTER_INDEX free_list]; try done.
    + split; [done|]. exists (free_list s). split.
      * unfold descriptor_at. cbn. by rewrite lookup_insert_eq.
      * eapply free_chain_ext; [|exact Hc]. intros j Hj. unfold descriptor_at. cbn.
        rewrite lookup_insert_ne; [done|]. intros ->. done.
    + by constructor.
    + by constructor.
  - intros j. unfold in_use. cbn [NEXT_COUNTER_INDEX set_descriptor]. rewrite not_elem_of_cons. tauto.
Qed.

(** ** The bounds checker implements the interface *)
#[local] Existing Instance bound_descriptor_type.

Lemma bound_laws_access s i p :
  (exists fl, bc_ok s fl) -> (p = i /\ exists fl, bc_ok s fl /\ in_use s fl i) -> access i s = Ret (Some p).
Proof.
  intros _ (-> & fl & Hok & [Hi _]). cbn. unfold bound_access. pose proof (ok_next _ _ Hok).
  rewrite (max_watchpoints Hcfg). by destruct (Z.ltb_spec i (MAX_COUNTER_INDEX + 1)); [|lia].
Qed.

Definition bound_live (s : bc_state) (i p : Z) : Prop := p = i /\ exists fl, bc_ok s fl /\ in_use s fl i.

(** [allocate_and_init] leaves nothing to [assign]. *)
Lemma bound_laws_allocate inh args s s' d c :
  ALLOC_AND_INIT = true -> (exists fl, bc_ok s fl) -> allocate_and_init inh args s = Ret (s', Some (d, c)) ->
  0 <= c /\ exists p, d = Some p /\ unused bound_live s (combined_index c inh) p /\
    (bound_live s' (combined_index c inh) p /\ holds s' p args) /\ keeps bound_live holds s p s'.
Proof.
  intros _ [fl Hok] E. destruct (bound_alloc_inv _ _ _ _ _ _ _ Hok E) as (fl' & -> & Hok' & Hc & Hnew & Huse & Hh & Hoth).
  split; [lia|]. exists c. split; [done|]. unfold combined_index. rewrite (not_inherited Hcfg).
  assert (Hlive : forall i q, bound_live s i q -> q = i /\ in_use s fl i).
  { intros i q (-> & fl0 & Hok0 & Hu). by rewrite (free_chain_det s (free_list s) fl0 fl) in Hu by (apply Hok0 || apply Hok). }
  split; [split|split; [split|split]].
  - intros q Hq. by apply Hlive in Hq as [_ Hq].
  - intros j Hj. apply Hlive in Hj as [<- Hj]. done.
  - split; [done|]. exists fl'. split; [done|]. apply Huse. by right.
  - done.
  - intros i q Hq. apply Hlive in Hq as [-> Hu]. split; [done|]. exists fl'. split; [done|]. apply Huse. by left.
  - intros i q [[addr size] ret] _ Hne. unfold holds. by rewrite Hoth.
Qed.

Lemma bound_laws_assign s s' i p args :
  bound_live s i p /\ holds s p args -> assign p i s = Ret s' ->
  (exists fl, bc_ok s' fl) /\ bound_live s' i p /\ holds s' p args /\ keeps bound_live holds s p s'.
Proof.
  intros [Hl Hh] [= <-]. split; [destruct Hl as (_ & fl & Hok & _); by exists fl|]. split; [done|]. split; [done|].
  by split.
Qed.

#[export] Instance bound_laws : DescriptorLaws bound_descriptor_type.
Proof.
  refine {| d_ok := fun s => exists fl, bc_ok s fl; live := bound_live; constructed := holds;
            reserved := fun _ _ _ => False; initialised := fun s i p args => bound_live s i p /\ holds s p args;
            live_access := bound_laws_access; allocate_initialises := bound_laws_allocate;
            assign_enters := bound_laws_assign |}.
  - intros inh s s' d c E. discriminate E.
  - intros s s' i p args E. discriminate E.
Defined.

(** ** Theorems *)

(** Descriptors of the bounds checker.  While a descriptor is free or was
    never used, allocation succeeds with a descriptor that is not in use,
    whose index is its counter index and whose bounds are those of the
    object; the descriptors in use keep their contents; and releasing it
    makes exactly the earlier ones in use again. *)
Theorem bound_descriptor_allocate_free inh addr size ret s fl :
  bc_ok s fl -> fl <> [] \/ NEXT_COUNTER_INDEX s <= MAX_COUNTER_INDEX ->
  size <> 0 -> is_code_cache_address ret = true -> u32 addr < u32 (addr + size) ->
  exists s' fl' i, bound_allocate_and_init inh (addr, size, ret) s = Ret (s', Some (Some i, i)) /\
    bc_ok s' fl' /\ ~ in_use s fl i /\ (forall j, in_use s' fl' j <-> in_use s fl j \/ j = i) /\
    lower_bound (descriptor_at s' i) = u32 addr /\ upper_bound (descriptor_at s' i) = u32 (addr + size) /\
    (forall j, in_use s fl j -> descriptor_at s' j = descriptor_at s j) /\
    exists s'', bound_free i i s' = Ret s'' /\ bc_ok s'' (i :: fl') /\
      forall j, in_use s'' (i :: fl') j <-> in_use s fl j.
Proof.
  intros Hok Hroom Hs Hret Hb.
  destruct (bound_alloc_ret inh addr size ret s fl Hok Hroom Hs Hret Hb)
    as (s' & fl' & i & E & Hok' & Hi & Hnew & Huse & Hd & Hold).
  exists s', fl', i. split; [done|]. split; [done|]. split; [done|]. split; [done|].
  rewrite Hd. split; [done|]. split; [done|]. split; [done|].
  destruct (bound_free_ret s' fl' i Hok' ltac:(apply Huse; by right)) as (s'' & E'' & Hok'' & Huse'').
  exists s''. split; [done|]. split; [done|]. intros j. rewrite Huse'', Huse.
  split; [intros [[?| ->] ?]; done|]. intros Hj. split; [by left|]. intros ->. done.
Qed.

(** Allocate [n] descriptors for the same object. *)
Fixpoint allocate_n (n : nat) (args : Z * Z * Z) (s : bc_state) : outcome bc_state :=
  match n with
  | O => Ret s
  | S n => r ← bound_allocate_and_init 0 args s; allocate_n n args r.1
  end.

Lemma bound_allocate_next inh s :
  bc_ok s [] -> NEXT_COUNTER_INDEX s <= MAX_COUNTER_INDEX ->
  bound_allocate inh s = Ret ((next_counter_index s).1, Some (Some (NEXT_COUNTER_INDEX s), NEXT_COUNTER_INDEX s)).
Proof.
  intros [Hn Hc _ _] Hlt. unfold bound_allocate. rewrite Hc, (max_watchpoints Hcfg). cbn [next_counter_index fst snd].
  destruct (Z.ltb_spec (MAX_COUNTER_INDEX + 1) (NEXT_COUNTER_INDEX s)); [lia|].
  destruct (Z.leb_spec (NEXT_COUNTER_INDEX s) MAX_COUNTER_INDEX); [|lia].
  by destruct (Z.leb_spec (NEXT_COUNTER_INDEX s) (MAX_COUNTER_INDEX + 1)); [|lia].
Qed.

Lemma allocate_n_ret addr size ret n : forall s,
  bc_ok s [] -> NEXT_COUNTER_INDEX s + Z.of_nat n <= MAX_COUNTER_INDEX + 1 ->
  size <> 0 -> is_code_cache_address ret = true -> u32 addr < u32 (addr + size) ->
  exists s', allocate_n n (addr, size, ret) s = Ret s' /\ bc_ok s' [] /\
    NEXT_COUNTER_INDEX s' = NEXT_COUNTER_INDEX s + Z.of_nat n.
Proof.
  induction n as [|n IH]; intros s Hok Hn Hs Hret Hb; cbn [allocate_n].
  { exists s. split; [done|]. split; [done|]. lia. }
  pose proof (ok_next _ _ Hok) as H0'. unfold bound_allocate_and_init.
  destruct (Z.eqb_spec size 0); [done|]. rewrite (bound_allocate_next 0 s Hok) by lia.
  cbn [mbind outcome_bind fst snd]. rewrite (Hbase (NEXT_COUNTER_INDEX s)) by lia. rewrite Hret.
  cbn [ASSERT mbind outcome_bind lower_bound upper_bound].
  destruct (Z.ltb_spec (u32 addr) (u32 (addr + size))); [|lia]. cbn [ASSERT mbind outcome_bind fst].
  set (s1 := set_descriptor _ _ _).
  assert (E1 : NEXT_COUNTER_INDEX s1 = NEXT_COUNTER_INDEX s + 1).
  { cbn. apply wrap_small. unfold MAX_COUNTER_INDEX in *. lia. }
  assert (Hok1 : bc_ok s1 []).
  { split; [rewrite E1; lia|exact (ok_chain _ _ Hok)|constructor|constructor]. }
  destruct (IH s1 Hok1 ltac:(lia) Hs Hret Hb) as (s' & E' & Hok' & En). exists s'. split; [done|].
  split; [done|]. lia.
Qed.

(** Exhaustion.  From the initial state all 32768 descriptors can be
    allocated; the next request does not report failure, as the caller
    expects when there is no descriptor, but fails an assertion: the test
    that guards the array lets one index too many through. *)
Theorem bound_exhaustion_faults addr size ret :
  size <> 0 -> is_code_cache_address ret = true -> u32 addr < u32 (addr + size) ->
  exists s, allocate_n (Z.to_nat (MAX_COUNTER_INDEX + 1)) (addr, size, ret) bc_initial = Ret s /\
    bound_allocate_and_init 0 (addr, size, ret) s = Fault.
Proof.
  intros Hs Hret Hb.
  destruct (allocate_n_ret addr size ret (Z.to_nat (MAX_COUNTER_INDEX + 1)) bc_initial)
    as (s & E & Hok & En); [| |done..|].
  - split; cbn; try done; try constructor; unfold MAX_COUNTER_INDEX; lia.
  - cbn. unfold MAX_COUNTER_INDEX. lia.
  - exists s. split; [done|]. unfold bound_allocate_and_init. destruct (Z.eqb_spec size 0); [done|].
    rewrite Z2Nat.id in En by (unfold MAX_COUNTER_INDEX; lia). cbn [NEXT_COUNTER_INDEX bc_initial] in En.
    unfold bound_allocate. rewrite (ok_chain _ _ Hok), (max_watchpoints Hcfg). cbn [next_counter_index fst snd].
    rewrite En. destruct (Z.ltb_spec (MAX_COUNTER_INDEX + 1) (0 + (MAX_COUNTER_INDEX + 1))); [lia|].
    destruct (Z.leb_spec (0 + (MAX_COUNTER_INDEX + 1)) MAX_COUNTER_INDEX); [lia|done].
Qed.

End BoundsChecker.

(** With inherited indexes the two halves of a combined index are not
    recovered: the mask selects address bits, not the low bits of the index. *)
Lemma destructure_loses_inherited_index :
  let _ := wp_inherited in
  destructure_combined_index (combined_index 3 5) = (3, 0).
Proof. reflexivity. Qed.

(** ** Witnesses *)
#[local] Existing Instance user_config.
#[local] Existing Instance wp_default.

Lemma default_width : @NUM_INHERITED_INDEX_BITS wp_default = 0.
Proof. reflexivity. Defined.

Definition all_code (a : Z) : bool := true.

Lemma base_valid i : 0 <= i <= MAX_COUNTER_INDEX -> is_valid_address (desc_address 1048576 i) = true.
Proof. intros Hi. apply Z.ltb_lt. unfold desc_address. lia. Defined.

Lemma bc_initial_ok : bc_ok bc_initial [].
Proof. split; cbn; try done; try constructor; unfold MAX_COUNTER_INDEX; lia. Defined.

Lemma bound_descriptor_allocate_free_witness :
  exists s' fl' i, bound_allocate_and_init 1048576 all_code 0 (65536, 64, 7) bc_initial
                   = Ret (s', Some (Some i, i)) /\ bc_ok s' fl'.
Proof.
  destruct (bound_descriptor_allocate_free 1048576 all_code default_width base_valid 0 65536 64 7 bc_initial []
    bc_initial_ok) as (s' & fl' & i & E & Hok & _).
  - right. vm_compute. congruence.
  - lia.
  - reflexivity.
  - vm_compute. reflexivity.
  - exists s', fl', i. split; [exact E|exact Hok].
Defined.

Lemma bound_exhaustion_faults_witness :
  exists s, allocate_n 1048576 all_code (Z.to_nat (MAX_COUNTER_INDEX + 1)) (65536, 64, 7) bc_initial = Ret s /\
    bound_allocate_and_init 1048576 all_code 0 (65536, 64, 7) s = Fault.
Proof.
  apply (bound_exhaustion_faults 1048576 all_code default_width base_valid 65536 64 7).
  - lia.
  - reflexivity.
  - vm_compute. reflexivity.
Defined.

(** The generic theorem, at the bounds checker. *)
Lemma add_watchpoint_descriptor_witness :
  let D := bound_descriptor_type 1048576 all_code in
  exists s' ptr', add_watchpoint 65536 (65536, 64, 7) bc_initial = Ret (s', ADDRESS_WATCHED, ptr') /\
    is_watched_address ptr' = true /\ unwatched_address ptr' = 65536 /\
    exists p, descriptor_of ptr' s' = Ret (Some p) /\ holds s' p (65536, 64, 7).
Proof.
  intros D.
  pose (d := {| lower_bound := 65536; upper_bound := 65600; ret_next := return_address 7 |}).
  pose (s' := {| NEXT_COUNTER_INDEX := 1; DESCRIPTORS := <[0 := d]> ∅; free_list := None |}).
  pose (ptr' := 281474976776192).
  assert (E : add_watchpoint 65536 (65536, 64, 7) bc_initial = Ret (s', ADDRESS_WATCHED, ptr'))
    by (vm_compute; reflexivity).
  exists s', ptr'. split; [exact E|].
  destruct (add_watchpoint_descriptor (L := bound_laws 1048576 all_code default_width) 65536 (65536, 64, 7)
    bc_initial s' ptr') as (_ & Hw & Hu & (p & Hd & _ & Hh & _) & _).
  - exists []. exact bc_initial_ok.
  - split; vm_compute; reflexivity.
  - exact E.
  - split; [exact Hw|]. split; [exact Hu|]. exists p. split; [exact Hd|exact Hh].
Defined.
