(* ===== verification/RcuDbg.v ===== *)
(** * The RCU debugger: [clients/watchpoints/clients/rcudbg]

    The client watches the pointers that pass through RCU.  The counter index
    of a watched address says whether the pointer comes from
    [rcu_assign_pointer], and from which place in the sources, or from
    [rcu_dereference], and in which read-side critical section.  The events of
    [events.cc] keep the nesting and the section of every thread, taint the
    pointers and log what looks wrong; [carat.cc] hands out the identifiers of
    sections and places; [log.h] and [log.cc] hold the log.

    Source locations ("carats") and threads are addresses.  Events run one
    after the other, as they do with interrupts disabled on one processor.

    The theorems: code that assigns, locks, dereferences, reads and unlocks
    in this order is not reported, and reads and writes go to the object that
    was assigned; a dereferenced pointer that is read behind its section, or
    in a later one, is reported; no two critical sections share an
    identifier, because identifiers are never given back, and after 16384 of
    them a thread that enters one never leaves [allocate_section_id]; leaving a section nested three deep
    writes outside of an array; and a log that has overflown is read outside
    of its bounds. *)

From Stdlib Require Import ZArith Lia Bool.
From stdpp Require Import base numbers list option gmap.
From S2P Require Import Prelude Utils Watchpoint.

(** ** Messages ([message.h]) *)
Inductive log_message_id :=
  | RCU_DEREFERENCE_UNASSIGNED_ADDRESS
  | RCU_DEREFERENCE_UNASSIGNED_VALUE
  | DOUBLE_RCU_DEREFERENCE_WRONG_SECTION
  | DOUBLE_RCU_DEREFERENCE
  | RCU_ASSIGN_TO_RCU_DEREFERENCED_POINTER
  | RCU_ASSIGN_WITH_RCU_DEREFERENCED_POINTER
  | RCU_READ_SECTION_ACROSS_FUNC_BOUNDARY
  | RCU_READ_UNLOCK_OUTSIDE_OF_CRITICAL_SECTION
  | RCU_ASSIGN_IN_CRITICAL_SECTION
  | RCU_DEREFERENCE_OUTSIDE_OF_CRITICAL_SECTION
  | ACCESS_OF_LEAKED_RCU_DEREFERENCED_POINTER
  | ACCESS_OF_WRONG_RCU_DEREFERENCED_POINTER
  | ACCESS_OF_ASSIGNED_POINTER_IN_CRITICAL_SECTION
  | WRITE_TO_DEREF_POINTER_IN_CRITICAL_SECTION.

(** ** The log ([log.h], [log.cc]) *)
Definition MAX_NUM_MESSAGES : Z := 4096.

Definition message : Type := log_message_id * list Z.

(** A slot without a message is not ready. *)
Record log_state := { MESSAGES : gmap Z message; NEXT_LOG_OFFSET : Z }.

Definition log (id : log_message_id) (args : list Z) (l : log_state) : log_state :=
  let index := NEXT_LOG_OFFSET l in
  let next := u64 (index + 1) in
  if MAX_NUM_MESSAGES <=? index then {| MESSAGES := MESSAGES l; NEXT_LOG_OFFSET := next |}
  else {| MESSAGES := <[index mod MAX_NUM_MESSAGES := (id, args)]> (MESSAGES l); NEXT_LOG_OFFSET := next |}.

Definition clear_log (l : log_state) : log_state := {| MESSAGES := MESSAGES l; NEXT_LOG_OFFSET := 0 |}.

(** The loop of [report]: the messages that are printed; the array has
    [MAX_NUM_MESSAGES] slots. *)
Fixpoint print_messages (todo : nat) (i : Z) (m : gmap Z message) : outcome (list message) :=
  match todo with
  | O => Ret []
  | S todo =>
      if MAX_NUM_MESSAGES <=? i then Fault else
      rest ← print_messages todo (i + 1) m;
      Ret (match m !! i with Some e => e :: rest | None => rest end)
  end.

Definition report (l : log_state) : outcome (log_state * list message) :=
  let num_messages := u32 (NEXT_LOG_OFFSET l) in
  let num_messages := if num_messages <? MAX_NUM_MESSAGES then MAX_NUM_MESSAGES else num_messages in
  printed ← print_messages (Z.to_nat num_messages) 0 (MESSAGES l);
  Ret (clear_log l, printed).

Definition log_entry_is (offset : Z) (l : log_state) : option log_message_id :=
  if MAX_NUM_MESSAGES <=? offset then None else fst <$> MESSAGES l !! offset.

(** ** Sections and locations ([carat.cc], [state.h]) *)
Definition MAX_NUM_LOCATION_IDS : Z := 2 ^ 14.
Definition MAX_NUM_SECTION_IDS : Z := MAX_NUM_LOCATION_IDS.

Record section_info := { lock_carat : Z; unlock_carat : Z; deref_carat : Z; thread : Z }.

Definition no_section : section_info := {| lock_carat := 0; unlock_carat := 0; deref_carat := 0; thread := 0 |}.

Record thread_state := {
  section_depth : Z;
  section_id : Z;
  section_carat_backtrace : list Z;
  section_carat : Z
}.

Definition new_thread : thread_state :=
  {| section_depth := 0; section_id := 0; section_carat_backtrace := [0; 0; 0]; section_carat := 0 |}.

Record world := {
  SECTIONS : gmap Z section_info;
  NEXT_SECTION_ID : Z;
  LOCATION_IDS : AtomicIdSet.atomic_id_set;
  UNWATCHED_AND_ASSIGNED_POINTERS : list Z;
  WATCHED_AND_ASSIGNED_POINTERS : list Z;
  the_log : log_state;
  threads : gmap Z thread_state;
  memory : Z -> Z
}.

Definition section_at (w : world) (id : Z) : section_info := default no_section (SECTIONS w !! id).
Definition thread_at (w : world) (t : Z) : thread_state := default new_thread (threads w !! t).

Definition with_sections (s : gmap Z section_info) (n : Z) (w : world) : world :=
  {| SECTIONS := s; NEXT_SECTION_ID := n; LOCATION_IDS := LOCATION_IDS w;
     UNWATCHED_AND_ASSIGNED_POINTERS := UNWATCHED_AND_ASSIGNED_POINTERS w;
     WATCHED_AND_ASSIGNED_POINTERS := WATCHED_AND_ASSIGNED_POINTERS w; the_log := the_log w; threads := threads w; memory := memory w |}.

Definition with_thread (t : Z) (ts : thread_state) (w : world) : world :=
  {| SECTIONS := SECTIONS w; NEXT_SECTION_ID := NEXT_SECTION_ID w; LOCATION_IDS := LOCATION_IDS w;
     UNWATCHED_AND_ASSIGNED_POINTERS := UNWATCHED_AND_ASSIGNED_POINTERS w;
     WATCHED_AND_ASSIGNED_POINTERS := WATCHED_AND_ASSIGNED_POINTERS w; the_log := the_log w;
     threads := <[t := ts]> (threads w); memory := memory w |}.

Definition logging (id : log_message_id) (args : list Z) (w : world) : world :=
  {| SECTIONS := SECTIONS w; NEXT_SECTION_ID := NEXT_SECTION_ID w; LOCATION_IDS := LOCATION_IDS w;
     UNWATCHED_AND_ASSIGNED_POINTERS := UNWATCHED_AND_ASSIGNED_POINTERS w;
     WATCHED_AND_ASSIGNED_POINTERS := WATCHED_AND_ASSIGNED_POINTERS w; the_log := log id args (the_log w);
     threads := threads w; memory := memory w |}.

Definition with_bits (u a : list Z) (w : world) : world :=
  {| SECTIONS := SECTIONS w; NEXT_SECTION_ID := NEXT_SECTION_ID w; LOCATION_IDS := LOCATION_IDS w;
     UNWATCHED_AND_ASSIGNED_POINTERS := u; WATCHED_AND_ASSIGNED_POINTERS := a; the_log := the_log w;
     threads := threads w; memory := memory w |}.

Definition with_locations (l : AtomicIdSet.atomic_id_set) (w : world) : world :=
  {| SECTIONS := SECTIONS w; NEXT_SECTION_ID := NEXT_SECTION_ID w; LOCATION_IDS := l;
     UNWATCHED_AND_ASSIGNED_POINTERS := UNWATCHED_AND_ASSIGNED_POINTERS w;
     WATCHED_AND_ASSIGNED_POINTERS := WATCHED_AND_ASSIGNED_POINTERS w; the_log := the_log w; threads := threads w; memory := memory w |}.

Definition with_memory (m : Z -> Z) (w : world) : world :=
  {| SECTIONS := SECTIONS w; NEXT_SECTION_ID := NEXT_SECTION_ID w; LOCATION_IDS := LOCATION_IDS w;
     UNWATCHED_AND_ASSIGNED_POINTERS := UNWATCHED_AND_ASSIGNED_POINTERS w;
     WATCHED_AND_ASSIGNED_POINTERS := WATCHED_AND_ASSIGNED_POINTERS w; the_log := the_log w; threads := threads w; memory := m |}.

Inductive section_carat_kind := SECTION_LOCK_CARAT | SECTION_UNLOCK_CARAT | SECTION_DEREF_CARAT.

Definition get_section_carat (id : Z) (kind : section_carat_kind) (w : world) : Z :=
  let s := section_at w (id mod MAX_NUM_SECTION_IDS) in
  match kind with
  | SECTION_LOCK_CARAT => lock_carat s
  | SECTION_UNLOCK_CARAT => unlock_carat s
  | SECTION_DEREF_CARAT => deref_carat s
  end.

Definition set_section_carat (id : Z) (kind : section_carat_kind) (carat : Z) (w : world) : world :=
  let i := id mod MAX_NUM_SECTION_IDS in
  let s := section_at w i in
  let s := match kind with
           | SECTION_LOCK_CARAT => {| lock_carat := carat; unlock_carat := unlock_carat s; deref_carat := deref_carat s; thread := thread s |}
           | SECTION_UNLOCK_CARAT => {| lock_carat := lock_carat s; unlock_carat := carat; deref_carat := deref_carat s; thread := thread s |}
           | SECTION_DEREF_CARAT => {| lock_carat := lock_carat s; unlock_carat := unlock_carat s; deref_carat := carat; thread := thread s |}
           end in
  with_sections (<[i := s]> (SECTIONS w)) (NEXT_SECTION_ID w) w.

Definition get_location_id (fuel : nat) (carat : Z) (w : world) : outcome (world * Z) :=
  r ← AtomicIdSet.add fuel (LOCATION_IDS w) carat;
  Ret (with_locations r.1 w, Z.of_nat r.2).

Definition get_location_carat (location_id : Z) (w : world) : Z := AtomicIdSet.get (LOCATION_IDS w) (Z.to_nat location_id).

Section Rcu.
Context `{Config} `{WpConfig}.

(** The addresses of the two strings of [allocate_section_id], and the bits
    of a counter index that its constructors leave alone. *)
Context (not_unlocked no_derefs garbage : Z).

Fixpoint allocate_section_id (fuel : nat) (carat t conflict_id : Z) (w : world) : outcome (world * Z) :=
  match fuel with
  | O => OutOfFuel
  | S fuel =>
      let id := NEXT_SECTION_ID w mod MAX_NUM_SECTION_IDS in
      let w := with_sections (SECTIONS w) (u32 (NEXT_SECTION_ID w + 1)) w in
      if conflict_id =? id then allocate_section_id fuel carat t conflict_id w
      else if thread (section_at w id) =? 0 then
        let s := {| lock_carat := carat; unlock_carat := not_unlocked; deref_carat := no_derefs; thread := t |} in
        Ret (with_sections (<[id := s]> (SECTIONS w)) (NEXT_SECTION_ID w) w, id)
      else allocate_section_id fuel carat t conflict_id w
  end.

(** ** Watched addresses ([events.cc]) *)
Definition shadow_offset (addr : Z) : Z := get_field 3 16 addr.
Definition assign_location_id (addr : Z) : Z := get_field 49 14 addr.
Definition read_section_id (addr : Z) : Z := get_field 49 14 addr.
Definition is_deref (addr : Z) : bool := get_flag 63 addr.

(** [rcudbg_counter_index]: a 14-bit identifier and [is_deref]. *)
Definition counter_index (deref : bool) (id : Z) : Z := set_field 0 14 id (set_flag 14 deref (u16 garbage)).

(** ** Events *)
Definition event_read_through_ret (t : Z) (w : world) : world :=
  logging RCU_READ_SECTION_ACROSS_FUNC_BOUNDARY [t; section_carat (thread_at w t)] w.

(** The checks of [event_rcu_dereference]. *)
Definition check_address (derefed_ptr : Z) (args : list Z) (w : world) : outcome world :=
  b ← Bitset.get (if is_watched_address derefed_ptr then WATCHED_AND_ASSIGNED_POINTERS w else UNWATCHED_AND_ASSIGNED_POINTERS w)
        (shadow_offset derefed_ptr);
  Ret (if (b : bool) then w else logging RCU_DEREFERENCE_UNASSIGNED_ADDRESS args w).

Definition check_value (ptr id t read_lock_carat dereference_carat : Z) (w : world) : world :=
  if negb (is_watched_address ptr) then
    logging RCU_DEREFERENCE_UNASSIGNED_VALUE [ptr; t; dereference_carat; read_lock_carat] w
  else if is_deref ptr then
    if read_section_id ptr =? id then logging DOUBLE_RCU_DEREFERENCE [t; dereference_carat; read_lock_carat] w
    else logging DOUBLE_RCU_DEREFERENCE_WRONG_SECTION
           [t; dereference_carat; read_lock_carat; get_location_carat (assign_location_id ptr) w] w
  else w.

Definition event_rcu_dereference (t derefed_ptr ptr dereference_carat : Z) (w : world) : outcome (world * Z) :=
  let ts := thread_at w t in
  let id := u16 (section_id ts) in
  let read_lock_carat := section_carat ts in
  let outside := section_depth ts =? 0 in
  let w := if outside then
             logging RCU_DEREFERENCE_OUTSIDE_OF_CRITICAL_SECTION [t; read_lock_carat; dereference_carat] w
           else w in
  w ← check_address derefed_ptr [derefed_ptr; t; dereference_carat; read_lock_carat] w;
  let w := check_value ptr id t read_lock_carat dereference_carat w in
  let index := counter_index true id in
  let w := set_section_carat id SECTION_DEREF_CARAT dereference_carat w in
  if outside then Ret (w, ptr)
  else p ← taint ptr index; Ret (w, p).

Definition event_rcu_assign_pointer (fuel : nat) (t p v assign_carat : Z) (w : world) : outcome world :=
  let ts := thread_at w t in
  let w := if section_depth ts =? 0 then w
           else logging RCU_ASSIGN_IN_CRITICAL_SECTION [t; section_carat ts; assign_carat] w in
  w ← (if is_watched_address p then
         if is_deref p then
           Ret (logging RCU_ASSIGN_TO_RCU_DEREFERENCED_POINTER
                  [t; get_section_carat (read_section_id p) SECTION_DEREF_CARAT w; assign_carat] w)
         else b ← Bitset.set (WATCHED_AND_ASSIGNED_POINTERS w) (shadow_offset p) true;
              Ret (with_bits (UNWATCHED_AND_ASSIGNED_POINTERS w) b w)
       else b ← Bitset.set (UNWATCHED_AND_ASSIGNED_POINTERS w) (shadow_offset p) true;
            Ret (with_bits b (WATCHED_AND_ASSIGNED_POINTERS w) w));
  let w := if is_watched_address v && is_deref v then
             logging RCU_ASSIGN_WITH_RCU_DEREFERENCED_POINTER
               [t; get_section_carat (read_section_id v) SECTION_DEREF_CARAT w; assign_carat] w
           else w in
  r ← get_location_id fuel assign_carat w;
  v ← taint v (counter_index false r.2);
  Ret (with_memory (fun a => if a =? p then v else memory r.1 a) r.1).

Definition event_rcu_read_lock (fuel : nat) (t carat : Z) (w : world) : outcome world :=
  let ts := thread_at w t in
  backtrace ← set_idx (section_carat_backtrace ts) (Z.to_nat (section_depth ts)) carat;
  r ← (if section_depth ts =? 0 then allocate_section_id fuel carat t (section_id ts) w
       else Ret (w, section_id ts));
  let ts := {| section_depth := u32 (section_depth ts + 1); section_id := r.2;
               section_carat_backtrace := backtrace; section_carat := carat |} in
  Ret (set_section_carat r.2 SECTION_LOCK_CARAT carat (with_thread t ts r.1)).

Definition event_rcu_read_unlock (t carat : Z) (w : world) : outcome world :=
  let ts := thread_at w t in
  if section_depth ts =? 0 then
    let last_read_unlock_carat := section_carat ts in
    let ts := {| section_depth := 0; section_id := section_id ts;
                 section_carat_backtrace := section_carat_backtrace ts; section_carat := carat |} in
    let w := with_thread t ts w in
    Ret (if t =? 0 then w
         else logging RCU_READ_UNLOCK_OUTSIDE_OF_CRITICAL_SECTION [t; last_read_unlock_carat; carat] w)
  else
    backtrace ← set_idx (section_carat_backtrace ts) (Z.to_nat (section_depth ts)) carat;
    let ts := {| section_depth := section_depth ts - 1; section_id := section_id ts;
                 section_carat_backtrace := backtrace; section_carat := carat |} in
    Ret (set_section_carat (section_id ts) SECTION_UNLOCK_CARAT carat (with_thread t ts w)).

Definition access_assigned_pointer (t addr : Z) (w : world) : world :=
  logging ACCESS_OF_ASSIGNED_POINTER_IN_CRITICAL_SECTION
    [t; section_carat (thread_at w t); get_location_carat (assign_location_id addr) w] w.

Definition write_to_deref_pointer (t addr : Z) (w : world) : world :=
  logging WRITE_TO_DEREF_POINTER_IN_CRITICAL_SECTION
    [t; section_carat (thread_at w t); get_section_carat (read_section_id addr) SECTION_DEREF_CARAT w] w.

Definition read_from_deref_pointer (t addr : Z) (w : world) : world :=
  let args := [t; get_section_carat (read_section_id addr) SECTION_UNLOCK_CARAT w;
               get_section_carat (read_section_id addr) SECTION_DEREF_CARAT w] in
  if section_depth (thread_at w t) =? 0 then logging ACCESS_OF_LEAKED_RCU_DEREFERENCED_POINTER args w
  else if negb (section_id (thread_at w t) =? read_section_id addr) then
    logging ACCESS_OF_WRONG_RCU_DEREFERENCED_POINTER args w
  else w.

(** What the generated visitor of a watched address calls ([instrumented_access]). *)
Definition watched_access (t addr : Z) (is_read : bool) (w : world) : world :=
  if negb (is_deref addr) then access_assigned_pointer t addr w
  else if is_read then read_from_deref_pointer t addr w
  else write_to_deref_pointer t addr w.

(** ** Lemmas: addresses *)
Lemma read_section_id_tag ptr c : read_section_id (tag_address ptr c) = c mod 2 ^ 14.
Proof.
  unfold read_section_id, get_field. rewrite Z.land_ones by lia. pose proof (tag_address_counter ptr c) as E.
  unfold counter_index_of in E. change (DISTINGUISHING_BIT_OFFSET + 1) with 49 in E. rewrite E.
  change (2 ^ 15) with (2 ^ 14 * 2). rewrite Z.rem_mul_r by lia. rewrite Z.mul_comm, Z.mod_add by lia. apply Z.mod_mod. lia.
Qed.

Lemma is_deref_tag ptr c : is_deref (tag_address ptr c) = Z.testbit c 14.
Proof.
  unfold is_deref, get_flag. pose proof (tag_address_counter ptr c) as E.
  unfold counter_index_of in E. change (DISTINGUISHING_BIT_OFFSET + 1) with 49 in E.
  assert (Hs : Z.testbit (Z.shiftr (tag_address ptr c) 49) 14 = Z.testbit (tag_address ptr c) 63) by (rewrite Z.shiftr_spec by lia; done).
  rewrite <- Hs, E. by rewrite Z.mod_pow2_bits_low by lia.
Qed.

Lemma counter_index_id deref id : counter_index deref id mod 2 ^ 14 = id mod 2 ^ 14.
Proof.
  unfold counter_index. pose proof (get_set_field_same 0 14 id (set_flag 14 deref (u16 garbage)) ltac:(lia) ltac:(lia)) as E.
  rewrite get_field_0_wrap in E by lia. exact E.
Qed.

Lemma counter_index_deref deref id : Z.testbit (counter_index deref id) 14 = deref.
Proof.
  unfold counter_index. change (Z.testbit ?x 14) with (get_flag 14 x).
  rewrite get_flag_set_field_other, get_flag_set_same by lia. done.
Qed.

(** Tagging a tagged address replaces the tag. *)
Lemma tag_tag ptr c c' : tag_address (tag_address ptr c) c' = tag_address ptr c'.
Proof. rewrite (tag_address_arith (tag_address ptr c)), (tag_address_arith ptr c'). by rewrite tag_address_low. Qed.

Lemma tag_valid ptr c : canonical ptr -> is_valid_address (tag_address ptr c) = true.
Proof.
  intros Hp. destruct (canonical_bits ptr Hp) as (H47 & _ & _). pose proof (testbit48_tag ptr c) as H48.
  unfold is_valid_address. destruct env_kernel eqn:Ek.
  - rewrite Z.land_comm. change 1 with (2 ^ 0). rewrite land_pow2 by lia. rewrite Z.shiftr_spec by lia. change (0 + 47) with 47.
    rewrite testbit47_mod, tag_address_low, <- testbit47_mod, H47. done.
  - apply Z.ltb_lt. rewrite tag_address_arith. unfold DISTINGUISHING_BIT, IF_USER_ELSE. rewrite Ek.
    pose proof (Z.mod_pos_bound c (2 ^ 15) ltac:(lia)). pose proof (Z.mod_pos_bound ptr (2 ^ 48) ltac:(lia)). lia.
Qed.

(** An ordinary address, or one that is already tagged. *)
Lemma taint_ret ptr c : canonical ptr -> taint ptr c = Ret (tag_address ptr c).
Proof. intros Hp. unfold taint. by rewrite canonical_valid, tag_watched. Qed.

Lemma taint_tag ptr c c' : canonical ptr -> taint (tag_address ptr c) c' = Ret (tag_address ptr c').
Proof. intros Hp. unfold taint. rewrite tag_valid by done. cbn [negb]. by rewrite tag_tag, tag_watched. Qed.

Lemma tag_interior ptr off c : canonical ptr -> canonical (ptr + off) -> 0 <= off ->
  tag_address ptr c + off = tag_address (ptr + off) c.
Proof.
  intros Hp Hq Ho. rewrite tag_address_add; [done| |done]. unfold canonical in *. destruct env_kernel.
  - replace (ptr mod 2 ^ 48) with (ptr - (2 ^ 64 - 2 ^ 48)); [lia|]. apply Z.mod_unique with (2 ^ 16 - 1); lia.
  - rewrite Z.mod_small by lia. lia.
Qed.

Lemma shadow_range p : 0 <= shadow_offset p < 2 ^ 16.
Proof. unfold shadow_offset. apply get_field_range; lia. Qed.

(** ** Lemmas: sections *)
Lemma thread_at_with t ts w t' : thread_at (with_thread t ts w) t' = if decide (t = t') then ts else thread_at w t'.
Proof. unfold thread_at. cbn. case_decide; [subst; by rewrite lookup_insert_eq|by rewrite lookup_insert_ne]. Qed.

Lemma section_at_set id kind c w i : section_at (set_section_carat id kind c w) i =
  (if decide (id mod MAX_NUM_SECTION_IDS = i) then
     let s := section_at w i in
     match kind with
     | SECTION_LOCK_CARAT => {| lock_carat := c; unlock_carat := unlock_carat s; deref_carat := deref_carat s; thread := thread s |}
     | SECTION_UNLOCK_CARAT => {| lock_carat := lock_carat s; unlock_carat := c; deref_carat := deref_carat s; thread := thread s |}
     | SECTION_DEREF_CARAT => {| lock_carat := lock_carat s; unlock_carat := unlock_carat s; deref_carat := c; thread := thread s |}
     end
   else section_at w i).
Proof.
  unfold section_at at 1. cbn [set_section_carat with_sections SECTIONS]. case_decide as E.
  - subst i. rewrite lookup_insert_eq. cbn. by destruct kind.
  - by rewrite lookup_insert_ne.
Qed.

(** The thread that a section identifier belongs to. *)
Definition owner (w : world) (id : Z) : Z := thread (section_at w id).

Lemma owner_set id kind c w i : owner (set_section_carat id kind c w) i = owner w i.
Proof. unfold owner. rewrite section_at_set. case_decide; [|done]. by destruct kind. Qed.

(** What allocation does: it takes an identifier without an owner, other than
    [conflict]. *)
Record section_allocated (carat t conflict : Z) (w w' : world) (id : Z) : Prop := {
  sa_free : owner w id = 0;
  sa_range : 0 <= id < MAX_NUM_SECTION_IDS;
  sa_conflict : id <> conflict;
  sa_section : section_at w' id = {| lock_carat := carat; unlock_carat := not_unlocked; deref_carat := no_derefs; thread := t |};
  sa_others : forall i, i <> id -> section_at w' i = section_at w i;
  sa_rest : w' = with_sections (SECTIONS w') (NEXT_SECTION_ID w') w
}.

Lemma allocate_section_id_spec fuel : forall carat t conflict w w' id,
  allocate_section_id fuel carat t conflict w = Ret (w', id) -> section_allocated carat t conflict w w' id.
Proof.
  induction fuel as [|fuel IH]; intros carat t conflict w w' id; [discriminate|]. cbn [allocate_section_id].
  set (i := NEXT_SECTION_ID w mod MAX_NUM_SECTION_IDS). set (w1 := with_sections (SECTIONS w) (u32 (NEXT_SECTION_ID w + 1)) w).
  assert (Hrec : allocate_section_id fuel carat t conflict w1 = Ret (w', id) -> section_allocated carat t conflict w w' id).
  { intros E. destruct (IH _ _ _ _ _ _ E) as [Hf Hr Hc Hs Ho Hrest]. split; try done. }
  destruct (Z.eqb_spec conflict i) as [_|Hne]; [apply Hrec|].
  destruct (Z.eqb_spec (thread (section_at w1 i)) 0) as [E0|_]; [|apply Hrec]. intros [= <- <-]. split.
  - exact E0.
  - apply Z.mod_pos_bound. reflexivity.
  - congruence.
  - unfold section_at. cbn. by rewrite lookup_insert_eq.
  - intros j Hj. unfold section_at. cbn. by rewrite lookup_insert_ne.
  - reflexivity.
Qed.

(** One of the next [fuel] identifiers can be allocated. *)
Definition free_soon (fuel : nat) (conflict : Z) (w : world) : Prop :=
  exists k, (k < fuel)%nat /\
    let id := (NEXT_SECTION_ID w + Z.of_nat k) mod MAX_NUM_SECTION_IDS in owner w id = 0 /\ id <> conflict.

Lemma u32_mod x : u32 x mod MAX_NUM_SECTION_IDS = x mod MAX_NUM_SECTION_IDS.
Proof.
  unfold wrap, MAX_NUM_SECTION_IDS, MAX_NUM_LOCATION_IDS. change (2 ^ 32) with (2 ^ 14 * 2 ^ 18). rewrite Z.rem_mul_r by lia.
  rewrite (Z.mul_comm (2 ^ 14) (_ mod _)), Z.mod_add by lia. apply Z.mod_mod. lia.
Qed.

Lemma allocate_section_id_ret fuel : forall carat t conflict w, free_soon fuel conflict w ->
  exists w' id, allocate_section_id fuel carat t conflict w = Ret (w', id).
Proof.
  induction fuel as [|fuel IH]; intros carat t conflict w (k & Hk & Ho & Hc); [lia|]. cbn [allocate_section_id].
  change (section_at (with_sections _ _ w)) with (section_at w).
  assert (Hrec : k <> 0%nat -> exists w' id, allocate_section_id fuel carat t conflict
      (with_sections (SECTIONS w) (u32 (NEXT_SECTION_ID w + 1)) w) = Ret (w', id)).
  { intros Hk0. destruct k as [|k]; [done|]. apply IH. exists k. split; [lia|]. cbn [with_sections NEXT_SECTION_ID].
    assert (Em : (u32 (NEXT_SECTION_ID w + 1) + Z.of_nat k) mod MAX_NUM_SECTION_IDS = (NEXT_SECTION_ID w + Z.of_nat (S k)) mod MAX_NUM_SECTION_IDS)
      by (rewrite <- Z.add_mod_idemp_l, u32_mod, Z.add_mod_idemp_l by done; f_equal; lia).
    by rewrite Em. }
  destruct (Z.eqb_spec conflict (NEXT_SECTION_ID w mod MAX_NUM_SECTION_IDS)) as [E|Hne].
  - apply Hrec. intros ->. rewrite Z.add_0_r in Hc. by apply Hc.
  - destruct (Z.eqb_spec (thread (section_at w (NEXT_SECTION_ID w mod MAX_NUM_SECTION_IDS))) 0) as [E0|Hn0]; [eauto|].
    apply Hrec. intros ->. rewrite Z.add_0_r in Ho. by apply Hn0.
Qed.

Lemma free_soon_same fuel conflict w w' : SECTIONS w' = SECTIONS w -> NEXT_SECTION_ID w' = NEXT_SECTION_ID w ->
  free_soon fuel conflict w -> free_soon fuel conflict w'.
Proof. intros Es En (k & Hk & Ho). exists k. split; [done|]. rewrite En. unfold owner, section_at in *. by rewrite Es. Qed.

(** When every identifier has an owner, or is the one to be avoided, the loop
    does not end. *)
Lemma allocate_section_id_loops fuel : forall carat t conflict w,
  (forall id, 0 <= id < MAX_NUM_SECTION_IDS -> owner w id <> 0 \/ id = conflict) -> allocate_section_id fuel carat t conflict w = OutOfFuel.
Proof.
  induction fuel as [|fuel IH]; intros carat t conflict w Ho; [done|]. cbn [allocate_section_id].
  destruct (Z.eqb_spec conflict (NEXT_SECTION_ID w mod MAX_NUM_SECTION_IDS)) as [|Hne]; [by apply IH|].
  change (thread (section_at (with_sections _ _ w) ?i)) with (owner w i).
  destruct (Ho _ (Z.mod_pos_bound (NEXT_SECTION_ID w) MAX_NUM_SECTION_IDS eq_refl)) as [Hn|Hn]; [|by destruct Hne].
  rewrite (proj2 (Z.eqb_neq _ _) Hn). by apply IH.
Qed.

(** One turn through all identifiers finds the unused one. *)
Lemma unused_free_soon id conflict w :
  0 <= id < MAX_NUM_SECTION_IDS -> owner w id = 0 -> id <> conflict -> free_soon (Z.to_nat MAX_NUM_SECTION_IDS) conflict w.
Proof.
  intros Hid Ho Hne. pose proof (Z.mod_pos_bound (id - NEXT_SECTION_ID w) MAX_NUM_SECTION_IDS eq_refl) as Hk.
  exists (Z.to_nat ((id - NEXT_SECTION_ID w) mod MAX_NUM_SECTION_IDS)). split; [lia|]. rewrite Z2Nat.id by lia.
  rewrite Z.add_mod_idemp_r by done. replace (NEXT_SECTION_ID w + (id - NEXT_SECTION_ID w)) with id by lia. by rewrite Z.mod_small.
Qed.

(** ** Lemmas: events *)
Lemma lock_outer fuel t carat w : section_depth (thread_at w t) = 0 -> length (section_carat_backtrace (thread_at w t)) = 3%nat ->
  free_soon fuel (section_id (thread_at w t)) w ->
  exists w1 id bt, event_rcu_read_lock fuel t carat w =
      Ret (set_section_carat id SECTION_LOCK_CARAT carat
            (with_thread t {| section_depth := 1; section_id := id; section_carat_backtrace := bt; section_carat := carat |} w1)) /\
    length bt = 3%nat /\ section_allocated carat t (section_id (thread_at w t)) w w1 id.
Proof.
  intros Hd Hl Hf. destruct (allocate_section_id_ret fuel carat t _ w Hf) as (w1 & id & E).
  unfold event_rcu_read_lock. rewrite Hd, set_idx_ret by (rewrite Hl; cbn; lia). cbn [mbind outcome_bind Z.eqb].
  rewrite E. cbn [mbind outcome_bind fst snd]. exists w1, id, (<[Z.to_nat 0 := carat]> (section_carat_backtrace (thread_at w t))).
  split; [done|]. split; [by rewrite length_insert|]. by eapply allocate_section_id_spec.
Qed.

Lemma deref_assigned t p v c carat w : canonical v -> Z.testbit c 14 = false ->
  section_depth (thread_at w t) <> 0 -> 0 <= section_id (thread_at w t) < MAX_NUM_SECTION_IDS ->
  Bitset.get (if is_watched_address p then WATCHED_AND_ASSIGNED_POINTERS w else UNWATCHED_AND_ASSIGNED_POINTERS w) (shadow_offset p) = Ret true ->
  event_rcu_dereference t p (tag_address v c) carat w =
    Ret (set_section_carat (section_id (thread_at w t)) SECTION_DEREF_CARAT carat w,
         tag_address v (counter_index true (section_id (thread_at w t)))).
Proof.
  intros Hv Hc Hd Hid Hb. unfold event_rcu_dereference. rewrite (proj2 (Z.eqb_neq _ _) Hd).
  change MAX_NUM_SECTION_IDS with (2 ^ 14) in Hid. rewrite (wrap_small 16) by lia.
  unfold check_address. rewrite Hb. cbn [mbind outcome_bind]. unfold check_value. rewrite tag_watched, is_deref_tag, Hc by done.
  cbn [negb]. rewrite taint_tag by done. done.
Qed.

Lemma section_of_tag v id : 0 <= id < MAX_NUM_SECTION_IDS -> read_section_id (tag_address v (counter_index true id)) = id.
Proof. intros Hid. change MAX_NUM_SECTION_IDS with (2 ^ 14) in Hid. rewrite read_section_id_tag, counter_index_id. apply Z.mod_small. lia. Qed.

Lemma access_deref t v id w : 
  watched_access t (tag_address v (counter_index true id)) true w = read_from_deref_pointer t (tag_address v (counter_index true id)) w.
Proof. unfold watched_access. by rewrite is_deref_tag, counter_index_deref. Qed.

Lemma unlock_ret t carat w : section_depth (thread_at w t) <> 0 ->
  (Z.to_nat (section_depth (thread_at w t)) < length (section_carat_backtrace (thread_at w t)))%nat ->
  exists bt, event_rcu_read_unlock t carat w =
    Ret (set_section_carat (section_id (thread_at w t)) SECTION_UNLOCK_CARAT carat
          (with_thread t {| section_depth := section_depth (thread_at w t) - 1; section_id := section_id (thread_at w t);
                            section_carat_backtrace := bt; section_carat := carat |} w)) /\
    length bt = length (section_carat_backtrace (thread_at w t)).
Proof.
  intros Hd Hl. unfold event_rcu_read_unlock. rewrite (proj2 (Z.eqb_neq _ _) Hd), set_idx_ret by done.
  cbn [mbind outcome_bind]. eexists. split; [reflexivity|]. apply length_insert.
Qed.

(** ** Sequences of events *)

(** A thread outside of critical sections. *)
Definition idle (w : world) (t : Z) : Prop :=
  section_depth (thread_at w t) = 0 /\ length (section_carat_backtrace (thread_at w t)) = 3%nat.

(** A writer assigns [v] to [*p]; a reader locks, dereferences [p], reads
    [off] bytes behind the pointer, and unlocks. *)
Definition assign_and_read (location_fuel fuel : nat) (writer reader p v off assign_carat lock deref unlock : Z) (w : world)
    : outcome (world * Z) :=
  w ← event_rcu_assign_pointer location_fuel writer p v assign_carat w;
  w ← event_rcu_read_lock fuel reader lock w;
  r ← event_rcu_dereference reader p (memory w p) deref w;
  w ← event_rcu_read_unlock reader unlock (watched_access reader (r.2 + off) true r.1);
  Ret (w, r.2).

(** The pointer at [p] has been assigned. *)
Definition assigned (w : world) (p : Z) : Prop :=
  Bitset.get (if is_watched_address p then WATCHED_AND_ASSIGNED_POINTERS w else UNWATCHED_AND_ASSIGNED_POINTERS w) (shadow_offset p) = Ret true.

Lemma assign_outside fuel t p v carat w ids lid :
  section_depth (thread_at w t) = 0 -> is_watched_address p = false -> canonical v ->
  Bitset.wf (2 ^ 16) (UNWATCHED_AND_ASSIGNED_POINTERS w) -> AtomicIdSet.add fuel (LOCATION_IDS w) carat = Ret (ids, lid) ->
  exists w', event_rcu_assign_pointer fuel t p v carat w = Ret w' /\
    SECTIONS w' = SECTIONS w /\ NEXT_SECTION_ID w' = NEXT_SECTION_ID w /\ the_log w' = the_log w /\ threads w' = threads w /\
    assigned w' p /\ memory w' p = tag_address v (counter_index false (Z.of_nat lid)).
Proof.
  intros Hd Hp Hv [Hlen Hwf] Eadd. unfold event_rcu_assign_pointer. rewrite Hd, Hp. cbn [Z.eqb].
  pose proof (shadow_range p) as Hs.
  pose proof (elem_index_lt (2 ^ 16) _ (shadow_offset p) ltac:(lia) (conj Hlen Hwf) Hs) as Hlt.
  destruct (set_bit_of (UNWATCHED_AND_ASSIGNED_POINTERS w) (shadow_offset p) true (shadow_offset p)) as (b & -> & Hbl & _ & Hb); [lia..|].
  cbn [mbind outcome_bind]. rewrite canonical_unwatched by done. cbn [andb].
  unfold get_location_id. cbn [with_bits LOCATION_IDS]. rewrite Eadd. cbn [mbind outcome_bind fst snd].
  rewrite taint_ret by done. cbn [mbind outcome_bind]. eexists. split; [reflexivity|].
  do 4 (split; [reflexivity|]). split; [|cbn; by rewrite Z.eqb_refl].
  unfold assigned. rewrite Hp. cbn [with_memory with_locations with_bits UNWATCHED_AND_ASSIGNED_POINTERS].
  rewrite get_bit_of by lia. by rewrite Hb, Z.eqb_refl.
Qed.

(** Entering a section and dereferencing an assigned pointer. *)
Lemma lock_and_deref fuel t p x v c lock deref w :
  idle w t -> free_soon fuel (section_id (thread_at w t)) w -> assigned w p ->
  x = tag_address v c -> Z.testbit c 14 = false -> canonical v ->
  exists w1 w2 id bt, event_rcu_read_lock fuel t lock w = Ret w1 /\ memory w1 = memory w /\
    event_rcu_dereference t p x deref w1 = Ret (w2, tag_address v (counter_index true id)) /\
    thread_at w2 t = {| section_depth := 1; section_id := id; section_carat_backtrace := bt; section_carat := lock |} /\
    length bt = 3%nat /\ 0 <= id < MAX_NUM_SECTION_IDS /\ owner w id = 0 /\ id <> section_id (thread_at w t) /\
    the_log w2 = the_log w /\ memory w2 = memory w /\ assigned w2 p /\ deref_carat (section_at w2 id) = deref.
Proof.
  intros [Hd Hl] Hf Ha -> Hc Hv. destruct (lock_outer fuel t lock w Hd Hl Hf) as (wa & id & bt & E & Hbt & [Hfree Hr Hne Hsec Hoth Hrest]).
  set (w1 := set_section_carat _ _ _ _) in E.
  assert (Ht : thread_at w1 t = {| section_depth := 1; section_id := id; section_carat_backtrace := bt; section_carat := lock |}).
  { unfold w1. change (thread_at (set_section_carat ?a ?b ?c ?d) t) with (thread_at d t). rewrite thread_at_with. by case_decide. }
  assert (Ha1 : assigned w1 p) by (unfold w1; rewrite Hrest; exact Ha).
  pose proof (deref_assigned t p v c deref w1 Hv Hc) as Ed. rewrite Ht in Ed. specialize (Ed ltac:(done) Hr Ha1). cbn [section_id] in Ed.
  eexists w1, _, id, bt. split; [exact E|]. split; [unfold w1; rewrite Hrest; done|]. split; [exact Ed|]. split; [exact Ht|].
  do 4 (split; [done|]). do 2 (split; [unfold w1; rewrite Hrest; done|]). split; [exact Ha1|].
  rewrite section_at_set, Z.mod_small, decide_True by done. done.
Qed.

(** ** Theorems *)

(** C25 Correct use of RCU is not reported.  A writer outside of critical
    sections assigns an object to a pointer; a reader enters a critical
    section, dereferences the pointer, reads inside of the object and leaves
    the section.  All events succeed, nothing is logged, the pointer in memory
    and the pointer of the reader are watched and lead to the object, and the
    reader is outside of critical sections again. *)
Theorem rcu_protocol_silent location_fuel fuel writer reader p v off assign_carat lock deref unlock w ids lid :
  section_depth (thread_at w writer) = 0 -> idle w reader -> free_soon fuel (section_id (thread_at w reader)) w ->
  canonical p -> canonical v -> canonical (v + off) -> 0 <= off ->
  Bitset.wf (2 ^ 16) (UNWATCHED_AND_ASSIGNED_POINTERS w) ->
  AtomicIdSet.add location_fuel (LOCATION_IDS w) assign_carat = Ret (ids, lid) ->
  exists w' q, assign_and_read location_fuel fuel writer reader p v off assign_carat lock deref unlock w = Ret (w', q) /\
    the_log w' = the_log w /\ idle w' reader /\
    is_watched_address (memory w' p) = true /\ unwatched_address (memory w' p) = v /\
    is_watched_address (q + off) = true /\ unwatched_address (q + off) = v + off.
Proof.
  intros Hw Hr Hf Hp Hv Hq Ho Hb Eadd. unfold assign_and_read.
  destruct (assign_outside location_fuel writer p v assign_carat w ids lid Hw (canonical_unwatched p Hp) Hv Hb Eadd)
    as (w0 & -> & Es & En & Elog & Eth & Ha & Em). cbn [mbind outcome_bind].
  assert (Et : thread_at w0 reader = thread_at w reader) by (unfold thread_at; by rewrite Eth).
  destruct (lock_and_deref fuel reader p (memory w0 p) v (counter_index false (Z.of_nat lid)) lock deref w0) as (w1 & w2 & id & bt & -> & Em1 & Ed & Ht & Hbt & Hid & _ & _ & El & Em2 & _ & _);
    [by unfold idle; rewrite Et|rewrite Et; by eapply free_soon_same|done|exact Em|apply counter_index_deref|done|].
  cbn [mbind outcome_bind]. rewrite Em1, Ed. cbn [mbind outcome_bind fst snd].
  rewrite tag_interior, access_deref by done. unfold read_from_deref_pointer. rewrite Ht, section_of_tag by done.
  cbn [section_depth section_id Z.eqb]. rewrite Z.eqb_refl. cbn [negb].
  destruct (unlock_ret reader unlock w2) as (bt' & Eu & Hbt'); rewrite ?Ht; cbn [section_depth section_carat_backtrace]; [done|rewrite Hbt; cbn; lia|].
  rewrite Ht in Eu. cbn [section_depth section_id] in Eu. rewrite Eu. cbn [mbind outcome_bind].
  eexists _, _. split; [reflexivity|]. split; [cbn; congruence|]. split.
  { unfold idle. change (thread_at (set_section_carat ?a ?b ?c ?d) reader) with (thread_at d reader). rewrite thread_at_with.
    rewrite decide_True by done. cbn. rewrite Hbt', Ht. done. }
  change (memory (set_section_carat ?a ?b ?c (with_thread ?t ?ts w2))) with (memory w2). rewrite Em2, Em, tag_interior by done.
  rewrite !tag_watched, !unwatched_tag by done. done.
Qed.

(** The log [l'] is [l] with the message [m] added. *)
Definition adds_message (m : message) (l l' : log_state) : Prop :=
  NEXT_LOG_OFFSET l' = NEXT_LOG_OFFSET l + 1 /\ MESSAGES l' !! NEXT_LOG_OFFSET l = Some m /\
  forall i, i <> NEXT_LOG_OFFSET l -> MESSAGES l' !! i = MESSAGES l !! i.

Lemma log_adds id args l : 0 <= NEXT_LOG_OFFSET l < MAX_NUM_MESSAGES -> adds_message (id, args) l (log id args l).
Proof.
  intros Hr. unfold log, adds_message. rewrite (proj2 (Z.leb_gt _ _)) by lia. rewrite Z.mod_small by done. cbn [NEXT_LOG_OFFSET MESSAGES].
  unfold MAX_NUM_MESSAGES in Hr. rewrite wrap_small by lia. split; [done|]. split; [apply lookup_insert_eq|].
  intros i Hi. by rewrite lookup_insert_ne.
Qed.

(** C24 Leaked pointers are reported.  A thread dereferences an assigned
    pointer in a critical section and leaves the section, while there is room
    in the log.  When it then reads through the pointer, the message that an
    access was made outside of a critical section is added to the log, with
    the places of the unlock and of the dereference.  When it enters another
    critical section first, whose identifier is different from the old one,
    the message that an access was made in the wrong section is added, with
    the same places.  No other event adds a message. *)
Theorem rcu_leak_reported fuel t p x v c off lock deref unlock w :
  idle w t -> free_soon fuel (section_id (thread_at w t)) w -> assigned w p ->
  x = tag_address v c -> Z.testbit c 14 = false -> canonical v -> canonical (v + off) -> 0 <= off ->
  0 <= NEXT_LOG_OFFSET (the_log w) < MAX_NUM_MESSAGES ->
  exists w1 w2 q w3, event_rcu_read_lock fuel t lock w = Ret w1 /\ event_rcu_dereference t p x deref w1 = Ret (w2, q) /\
    event_rcu_read_unlock t unlock w2 = Ret w3 /\
    adds_message (ACCESS_OF_LEAKED_RCU_DEREFERENCED_POINTER, [t; unlock; deref]) (the_log w)
      (the_log (watched_access t (q + off) true w3)) /\
    forall fuel' lock', free_soon fuel' (section_id (thread_at w3 t)) w3 ->
      exists w4, event_rcu_read_lock fuel' t lock' w3 = Ret w4 /\
        adds_message (ACCESS_OF_WRONG_RCU_DEREFERENCED_POINTER, [t; unlock; deref]) (the_log w)
          (the_log (watched_access t (q + off) true w4)).
Proof.
  intros Hi Hf Ha Hx Hc Hv Hq Ho Hroom.
  destruct (lock_and_deref fuel t p x v c lock deref w Hi Hf Ha Hx Hc Hv)
    as (w1 & w2 & id & bt & El & _ & Ed & Ht & Hbt & Hid & _ & _ & Elog & _ & _ & Hdc).
  destruct (unlock_ret t unlock w2) as (bt' & Eu & Hbt'); rewrite ?Ht in *; cbn [section_depth section_carat_backtrace section_id] in *;
    [done|rewrite Hbt; cbn; lia|].
  set (w3 := set_section_carat _ _ _ _) in Eu. exists w1, w2, (tag_address v (counter_index true id)), w3.
  assert (Ht3 : thread_at w3 t = {| section_depth := 0; section_id := id; section_carat_backtrace := bt'; section_carat := unlock |}).
  { unfold w3. change (thread_at (set_section_carat ?a ?b ?c ?d) t) with (thread_at d t). rewrite thread_at_with. by case_decide. }
  assert (Hs3 : deref_carat (section_at w3 id) = deref /\ unlock_carat (section_at w3 id) = unlock).
  { unfold w3. rewrite section_at_set, Z.mod_small, decide_True by done. cbn [deref_carat unlock_carat]. split; [exact Hdc|done]. }
  destruct Hs3 as [Hd3 Hu3]. do 3 (split; [done|]). rewrite tag_interior by done. split.
  - rewrite access_deref. unfold read_from_deref_pointer, get_section_carat. rewrite Ht3, section_of_tag, Z.mod_small by done.
    cbn [section_depth Z.eqb]. rewrite Hd3, Hu3. cbn [logging the_log]. unfold w3. cbn [set_section_carat with_sections with_thread the_log].
    rewrite Elog. by apply log_adds.
  - intros fuel' lock' Hf'. rewrite Ht3 in Hf'. cbn [section_id] in Hf'.
    destruct (lock_outer fuel' t lock' w3) as (wb & id' & bt2 & E2 & Hbt2 & [_ Hr2 Hne2 _ Hoth2 Hrest2]);
      rewrite ?Ht3; cbn [section_depth section_carat_backtrace section_id]; [done|lia|done|].
    rewrite Ht3 in Hne2. cbn [section_id] in Hne2. set (w4 := set_section_carat _ _ _ _) in E2. exists w4. split; [done|].
    assert (Ht4 : thread_at w4 t = {| section_depth := 1; section_id := id'; section_carat_backtrace := bt2; section_carat := lock' |}).
    { unfold w4. change (thread_at (set_section_carat ?a ?b ?c ?d) t) with (thread_at d t). rewrite thread_at_with. by case_decide. }
    assert (Hs4 : section_at w4 id = section_at w3 id).
    { unfold w4. rewrite section_at_set, Z.mod_small, decide_False by done.
      change (section_at (with_thread ?a ?b wb) id) with (section_at wb id). by apply Hoth2. }
    rewrite access_deref. unfold read_from_deref_pointer, get_section_carat. rewrite Ht4, section_of_tag, Z.mod_small, Hs4 by done.
    cbn [section_depth section_id Z.eqb]. rewrite (proj2 (Z.eqb_neq id' id)) by done. cbn [negb].
    rewrite Hd3, Hu3. cbn [logging the_log]. unfold w4. rewrite Hrest2. unfold w3.
    cbn [set_section_carat with_sections with_thread the_log]. rewrite Elog. by apply log_adds.
Qed.

(** *** Identifiers of sections *)

(** The events of any number of threads. *)
Inductive step : world -> world -> Prop :=
  | step_lock fuel t carat w w' : t <> 0 -> event_rcu_read_lock fuel t carat w = Ret w' -> step w w'
  | step_unlock t carat w w' : event_rcu_read_unlock t carat w = Ret w' -> step w w'
  | step_deref t p x carat w w' q : event_rcu_dereference t p x carat w = Ret (w', q) -> step w w'
  | step_assign fuel t p v carat w w' : event_rcu_assign_pointer fuel t p v carat w = Ret w' -> step w w'
  | step_access t addr is_read w : step w (watched_access t addr is_read w)
  | step_ret t w : step w (event_read_through_ret t w).

(** An identifier keeps its owner. *)
Definition owners_kept (w w' : world) : Prop := forall id, owner w id <> 0 -> owner w' id = owner w id.

#[local] Instance owners_kept_preorder : PreOrder owners_kept.
Proof. split; [by intros w id|]. intros a b c Hab Hbc id Ho. rewrite Hbc; [by apply Hab|]. by rewrite Hab. Qed.

Lemma same_sections_kept w w' : SECTIONS w' = SECTIONS w -> owners_kept w w'.
Proof. intros E id _. unfold owner, section_at. by rewrite E. Qed.

Lemma set_carat_kept id kind c w w' : owners_kept w w' -> owners_kept w (set_section_carat id kind c w').
Proof. intros Hk i Ho. rewrite owner_set. by apply Hk. Qed.

Lemma lock_kept fuel t carat w w' : event_rcu_read_lock fuel t carat w = Ret w' -> owners_kept w w'.
Proof.
  unfold event_rcu_read_lock. intros E. destruct (set_idx _ _ _) as [bt| |]; cbn [mbind outcome_bind] in E; [|discriminate E..].
  destruct (if section_depth (thread_at w t) =? 0 then _ else _) as [[w1 id]| |] eqn:E1; cbn [mbind outcome_bind] in E; [|discriminate E..].
  injection E as <-. apply set_carat_kept. cbn [fst snd]. change (owners_kept w w1).
  destruct (section_depth (thread_at w t) =? 0); [|by injection E1 as <- _].
  apply allocate_section_id_spec in E1 as [Hfree _ _ Hs Ho _]. intros i Hi.
  destruct (decide (i = id)) as [->|Hne]; [done|]. unfold owner. by rewrite Ho.
Qed.

Lemma unlock_kept t carat w w' : event_rcu_read_unlock t carat w = Ret w' -> owners_kept w w'.
Proof.
  unfold event_rcu_read_unlock. intros E. destruct (section_depth (thread_at w t) =? 0).
  - injection E as <-. apply same_sections_kept. by destruct (t =? 0).
  - destruct (set_idx _ _ _) as [bt| |]; cbn [mbind outcome_bind] in E; [|discriminate E..]. injection E as <-.
    apply set_carat_kept. by apply same_sections_kept.
Qed.

Lemma check_value_sections x id t a b w : SECTIONS (check_value x id t a b w) = SECTIONS w.
Proof. unfold check_value. destruct (negb _); [done|]. destruct (is_deref x); [by destruct (_ =? _)|done]. Qed.

Lemma check_address_sections p args w w' : check_address p args w = Ret w' -> SECTIONS w' = SECTIONS w.
Proof.
  unfold check_address. intros E. destruct (Bitset.get _ _) as [b| |]; cbn [mbind outcome_bind] in E; [|discriminate E..].
  injection E as <-. by destruct b.
Qed.

Lemma deref_kept t p x carat w w' q : event_rcu_dereference t p x carat w = Ret (w', q) -> owners_kept w w'.
Proof.
  unfold event_rcu_dereference. intros E. destruct (check_address _ _ _) as [w1| |] eqn:E1; cbn [mbind outcome_bind] in E; [|discriminate E..].
  apply check_address_sections in E1.
  assert (Hs : SECTIONS w1 = SECTIONS w) by (rewrite E1; by destruct (_ =? 0)). clear E1.
  set (w2 := set_section_carat _ _ _ _) in E. assert (Hw : w' = w2).
  { destruct (section_depth (thread_at w t) =? 0); [by injection E|]. destruct (taint _ _); cbn in E; try discriminate E. by injection E. }
  subst w'. apply set_carat_kept, same_sections_kept. by rewrite check_value_sections.
Qed.

Lemma assign_kept fuel t p v carat w w' : event_rcu_assign_pointer fuel t p v carat w = Ret w' -> owners_kept w w'.
Proof.
  unfold event_rcu_assign_pointer. set (w0 := if section_depth _ =? 0 then w else _). intros E.
  assert (Hs0 : SECTIONS w0 = SECTIONS w) by (unfold w0; by destruct (_ =? 0)).
  destruct (if is_watched_address p then _ else _) as [w1| |] eqn:E1; cbn [mbind outcome_bind] in E; [|discriminate E..].
  assert (Hs1 : SECTIONS w1 = SECTIONS w).
  { rewrite <- Hs0. destruct (is_watched_address p); [destruct (is_deref p); [by injection E1 as <-|]|];
      destruct (Bitset.set _ _ _) as [b| |]; cbn [mbind outcome_bind] in E1; try discriminate E1; by injection E1 as <-. }
  set (w2 := if _ && _ then _ else w1) in E. assert (Hs2 : SECTIONS w2 = SECTIONS w) by (unfold w2; by destruct (_ && _)).
  unfold get_location_id in E. destruct (AtomicIdSet.add _ _ _) as [r| |]; cbn [mbind outcome_bind fst snd] in E; [|discriminate E..].
  destruct (taint _ _) as [u| |]; cbn [mbind outcome_bind] in E; [|discriminate E..]. injection E as <-. by apply same_sections_kept.
Qed.

Lemma step_kept w w' : step w w' -> owners_kept w w'.
Proof.
  destruct 1 as [fuel t carat w w' _ E|t carat w w' E|t p x carat w w' q E|fuel t p v carat w w' E|t addr is_read w|t w].
  - by eapply lock_kept.
  - by eapply unlock_kept.
  - by eapply deref_kept.
  - by eapply assign_kept.
  - apply same_sections_kept. unfold watched_access, read_from_deref_pointer. destruct (negb _); [done|]. destruct is_read; [|done].
    destruct (_ =? 0); [done|]. by destruct (negb _).
  - by apply same_sections_kept.
Qed.

Lemma steps_kept w w' : rtc step w w' -> owners_kept w w'.
Proof. induction 1 as [|a b c Hab _ IH]; [done|]. etrans; [by apply step_kept|done]. Qed.

(** Entering an outermost section takes an identifier. *)
Lemma lock_owner fuel t carat w w' : section_depth (thread_at w t) = 0 -> event_rcu_read_lock fuel t carat w = Ret w' ->
  owner w (section_id (thread_at w' t)) = 0 /\ owner w' (section_id (thread_at w' t)) = t.
Proof.
  intros Hd. unfold event_rcu_read_lock. rewrite Hd. intros E. destruct (set_idx _ _ _) as [bt| |]; cbn [mbind outcome_bind] in E; [|discriminate E..].
  cbn [Z.eqb] in E. destruct (allocate_section_id _ _ _ _ _) as [[w1 id]| |] eqn:E1; cbn [mbind outcome_bind fst snd] in E; [|discriminate E..].
  apply allocate_section_id_spec in E1 as [Hfree Hr _ Hs _ _]. injection E as <-.
  change (thread_at (set_section_carat ?a ?b ?c ?d) t) with (thread_at d t). rewrite thread_at_with, decide_True by done. cbn [section_id].
  split; [done|]. rewrite owner_set. change (owner (with_thread ?a ?b w1) id) with (owner w1 id). unfold owner. by rewrite Hs.
Qed.

(** An identifier that an outermost section of thread [t] can get. *)
Definition unused_id (w : world) (t id : Z) : Prop :=
  0 <= id < MAX_NUM_SECTION_IDS /\ owner w id = 0 /\ id <> section_id (thread_at w t).

(** C34 Identifiers of critical sections are not used twice, and run out.
    Whatever events of whatever threads happen after a thread has entered an
    outermost critical section, a thread that is outside of critical sections
    enters one, within as many turns as there are identifiers, as long as
    some identifier other than its last one is unused, and then with a
    different identifier; afterwards, since no identifier is ever given back,
    the loop that looks for one does not end. *)
Theorem section_ids_unique fuel1 t1 t2 carat1 carat2 w w1 w2 :
  t1 <> 0 -> section_depth (thread_at w t1) = 0 -> event_rcu_read_lock fuel1 t1 carat1 w = Ret w1 ->
  rtc step w1 w2 -> idle w2 t2 ->
  (forall fuel w3, event_rcu_read_lock fuel t2 carat2 w2 = Ret w3 -> section_id (thread_at w3 t2) <> section_id (thread_at w1 t1)) /\
  ((exists id, unused_id w2 t2 id) ->
     exists w3, event_rcu_read_lock (Z.to_nat MAX_NUM_SECTION_IDS) t2 carat2 w2 = Ret w3) /\
  ((forall id, ~ unused_id w2 t2 id) -> forall fuel, event_rcu_read_lock fuel t2 carat2 w2 = OutOfFuel).
Proof.
  intros Ht1 Hd1 E1 Hst [Hd2 Hl2]. destruct (lock_owner _ _ _ _ _ Hd1 E1) as [_ Ho1]. apply steps_kept in Hst.
  split; [|split].
  - intros fuel w3 E2 Heq. destruct (lock_owner _ _ _ _ _ Hd2 E2) as [Ho2 _]. rewrite Heq in Ho2.
    rewrite (Hst (section_id (thread_at w1 t1))) in Ho2; congruence.
  - intros (id & Hid & Ho & Hne).
    destruct (lock_outer _ t2 carat2 w2 Hd2 Hl2 (unused_free_soon id _ w2 Hid Ho Hne)) as (wa & i & bt & E & _). by eexists.
  - intros Hno fuel. unfold event_rcu_read_lock. rewrite Hd2, set_idx_ret by (rewrite Hl2; cbn; lia).
    cbn [mbind outcome_bind Z.eqb]. rewrite allocate_section_id_loops; [done|]. intros id Hid.
    destruct (decide (owner w2 id = 0)) as [Ho|]; [|by left]. right. destruct (decide (id = section_id (thread_at w2 t2))); [done|].
    by destruct (Hno id).
Qed.

(** Identifiers of sections run out.  They are never given back: when all
    16384 have an owner, a thread that enters an outermost critical section
    loops forever, now and after any further events. *)
Theorem section_ids_run_out fuel t carat w w' :
  (forall id, 0 <= id < MAX_NUM_SECTION_IDS -> owner w id <> 0) -> rtc step w w' -> idle w' t ->
  event_rcu_read_lock fuel t carat w' = OutOfFuel.
Proof.
  intros Ho Hst [Hd Hl]. apply steps_kept in Hst. unfold event_rcu_read_lock. rewrite Hd, set_idx_ret by (rewrite Hl; cbn; lia).
  cbn [mbind outcome_bind Z.eqb]. rewrite allocate_section_id_loops; [done|]. intros id Hid. left. rewrite Hst; by apply Ho.
Qed.

(** Sections that are nested three deep.  A thread that has entered three
    nested sections writes behind the end of its array of places when it
    leaves the innermost one. *)
Theorem third_unlock_faults fuel t lock1 lock2 lock3 unlock w :
  idle w t -> free_soon fuel (section_id (thread_at w t)) w ->
  exists w1 w2 w3, event_rcu_read_lock fuel t lock1 w = Ret w1 /\ event_rcu_read_lock fuel t lock2 w1 = Ret w2 /\
    event_rcu_read_lock fuel t lock3 w2 = Ret w3 /\ event_rcu_read_unlock t unlock w3 = Fault.
Proof.
  intros [Hd Hl] Hf. destruct (lock_outer fuel t lock1 w Hd Hl Hf) as (wa & id & bt & E & Hbt & _).
  assert (Hnest : forall w n bt carat, thread_at w t = {| section_depth := n; section_id := id; section_carat_backtrace := bt; section_carat := carat |} ->
    1 <= n <= 2 -> length bt = 3%nat -> forall lock, exists bt', length bt' = 3%nat /\
    exists w', event_rcu_read_lock fuel t lock w = Ret w' /\
      thread_at w' t = {| section_depth := n + 1; section_id := id; section_carat_backtrace := bt'; section_carat := lock |}).
  { clear. intros w n bt carat Ht Hn Hbt lock. exists (<[Z.to_nat n := lock]> bt). split; [by rewrite length_insert|].
    unfold event_rcu_read_lock. rewrite Ht. cbn [section_depth section_id section_carat_backtrace].
    rewrite set_idx_ret by lia. cbn [mbind outcome_bind]. rewrite (proj2 (Z.eqb_neq n 0)) by lia. cbn [mbind outcome_bind fst snd].
    eexists. split; [reflexivity|]. change (thread_at (set_section_carat ?a ?b ?c ?d) t) with (thread_at d t).
    rewrite thread_at_with, decide_True by done. rewrite wrap_small by lia. done. }
  set (w1 := set_section_carat _ _ _ _) in E.
  assert (Ht1 : thread_at w1 t = {| section_depth := 1; section_id := id; section_carat_backtrace := bt; section_carat := lock1 |}).
  { unfold w1. change (thread_at (set_section_carat ?a ?b ?c ?d) t) with (thread_at d t). rewrite thread_at_with. by case_decide. }
  destruct (Hnest w1 1 bt lock1 Ht1 ltac:(lia) Hbt lock2) as (bt2 & Hb2 & w2 & E2 & Ht2).
  destruct (Hnest w2 2 bt2 lock2 Ht2 ltac:(lia) Hb2 lock3) as (bt3 & Hb3 & w3 & E3 & Ht3).
  exists w1, w2, w3. do 3 (split; [done|]). unfold event_rcu_read_unlock. rewrite Ht3. cbn [section_depth section_carat_backtrace Z.eqb].
  unfold set_idx. rewrite bool_decide_false by (rewrite Hb3; cbn; lia). done.
Qed.
End Rcu.

(** ** The log *)
Definition empty_log : log_state := {| MESSAGES := ∅; NEXT_LOG_OFFSET := 0 |}.

Definition log_all (ms : list message) (l : log_state) : log_state := foldl (fun l m => log m.1 m.2 l) l ms.

Lemma log_all_snoc ms m l : log_all (ms ++ [m]) l = log m.1 m.2 (log_all ms l).
Proof. unfold log_all. by rewrite foldl_app. Qed.

Lemma log_all_offset ms : Z.of_nat (length ms) < 2 ^ 64 -> NEXT_LOG_OFFSET (log_all ms empty_log) = Z.of_nat (length ms).
Proof.
  induction ms as [|m ms IH] using rev_ind; [done|]. rewrite length_app. cbn [length]. intros Hl. rewrite log_all_snoc.
  unfold log. rewrite IH by lia. destruct (MAX_NUM_MESSAGES <=? Z.of_nat (length ms)); cbn [NEXT_LOG_OFFSET]; rewrite wrap_small by lia; lia.
Qed.

Lemma log_all_messages ms : Z.of_nat (length ms) <= MAX_NUM_MESSAGES ->
  forall k, MESSAGES (log_all ms empty_log) !! Z.of_nat k = ms !! k.
Proof.
  unfold MAX_NUM_MESSAGES. induction ms as [|m ms IH] using rev_ind; [done|]. rewrite length_app. cbn [length]. intros Hl k.
  pose proof (log_all_offset ms ltac:(lia)) as Ho. rewrite log_all_snoc. unfold log. rewrite Ho.
  unfold MAX_NUM_MESSAGES. destruct (Z.leb_spec 4096 (Z.of_nat (length ms))); [lia|]. cbn [MESSAGES]. rewrite Z.mod_small by lia.
  destruct (decide (k = length ms)) as [->|Hne].
  - destruct m. by rewrite lookup_insert_eq, lookup_app_r, Nat.sub_diag by lia.
  - rewrite lookup_insert_ne, IH by lia. destruct (decide (k < length ms)%nat).
    + by rewrite lookup_app_l.
    + rewrite !lookup_ge_None_2 by (rewrite ?length_app; cbn; lia). done.
Qed.

Lemma print_messages_ret n : forall i m ms, 0 <= i -> i + Z.of_nat n <= MAX_NUM_MESSAGES -> (length ms <= n)%nat ->
  (forall k, (k < n)%nat -> m !! (i + Z.of_nat k) = ms !! k) -> print_messages n i m = Ret ms.
Proof.
  unfold MAX_NUM_MESSAGES. induction n as [|n IH]; intros i m ms Hi Hn Hl Hm; [by destruct ms; [|cbn in Hl; lia]|].
  cbn [print_messages]. unfold MAX_NUM_MESSAGES. destruct (Z.leb_spec 4096 i); [lia|].
  rewrite (IH (i + 1) m (tail ms)); [|lia|lia|destruct ms; cbn in *; lia|].
  - cbn [mbind outcome_bind]. specialize (Hm 0%nat ltac:(lia)). rewrite Z.add_0_r in Hm. rewrite Hm. by destruct ms.
  - intros k Hk. specialize (Hm (S k) ltac:(lia)). replace (i + 1 + Z.of_nat k) with (i + Z.of_nat (S k)) by lia. rewrite Hm. by destruct ms.
Qed.

Lemma print_messages_fault n : forall i m, 0 <= i <= MAX_NUM_MESSAGES -> MAX_NUM_MESSAGES < i + Z.of_nat n -> print_messages n i m = Fault.
Proof.
  unfold MAX_NUM_MESSAGES. induction n as [|n IH]; intros i m Hi Hn; [lia|]. cbn [print_messages]. unfold MAX_NUM_MESSAGES.
  destruct (Z.leb_spec 4096 i); [done|]. by rewrite IH by lia.
Qed.

(** The log.  As long as at most 4096 messages were logged, [report] prints
    them in order; they stay in the log, so that the next report prints them
    again.  A log that has taken more messages is read behind its end. *)
Theorem report_prints ms :
  Z.of_nat (length ms) < 2 ^ 32 ->
  if decide (Z.of_nat (length ms) <= MAX_NUM_MESSAGES) then
    exists l, report (log_all ms empty_log) = Ret (l, ms) /\ report l = Ret (l, ms)
  else report (log_all ms empty_log) = Fault.
Proof.
  intros Hl. pose proof (log_all_offset ms ltac:(lia)) as Ho. unfold MAX_NUM_MESSAGES. case_decide as Hd.
  - pose proof (log_all_messages ms Hd) as Hm.
    assert (Hp : print_messages (Z.to_nat MAX_NUM_MESSAGES) 0 (MESSAGES (log_all ms empty_log)) = Ret ms).
    { apply print_messages_ret; [done|done|unfold MAX_NUM_MESSAGES; lia|]. intros k _. apply Hm. }
    exists (clear_log (log_all ms empty_log)). split; unfold report.
    + rewrite Ho, wrap_small by lia. replace (if Z.of_nat (length ms) <? MAX_NUM_MESSAGES then MAX_NUM_MESSAGES else Z.of_nat (length ms)) with MAX_NUM_MESSAGES.
      { by rewrite Hp. }
      unfold MAX_NUM_MESSAGES in *. destruct (Z.ltb_spec (Z.of_nat (length ms)) 4096); lia.
    + cbn [clear_log NEXT_LOG_OFFSET MESSAGES]. change (if u32 0 <? MAX_NUM_MESSAGES then _ else _) with MAX_NUM_MESSAGES. by rewrite Hp.
  - unfold report. rewrite Ho, wrap_small by lia. unfold MAX_NUM_MESSAGES in *. destruct (Z.ltb_spec (Z.of_nat (length ms)) 4096); [lia|].
    rewrite print_messages_fault; [done|unfold MAX_NUM_MESSAGES; lia|unfold MAX_NUM_MESSAGES; lia].
Qed.

(** ** Witnesses *)
#[local] Existing Instance kernel_config.
#[local] Existing Instance wp_default.

Definition first_world (n : nat) : world :=
  {| SECTIONS := ∅; NEXT_SECTION_ID := 1; LOCATION_IDS := AtomicIdSet.make 4 0 (2 ^ 64 - 1);
     UNWATCHED_AND_ASSIGNED_POINTERS := replicate n 0; WATCHED_AND_ASSIGNED_POINTERS := replicate n 0;
     the_log := empty_log; threads := ∅; memory := fun _ => 0 |}.

Lemma first_idle n t : idle (first_world n) t.
Proof. split; reflexivity. Defined.

Lemma first_free n t : free_soon 1 (section_id (thread_at (first_world n) t)) (first_world n).
Proof. exists 0%nat. split; [lia|]. split; [reflexivity|discriminate]. Defined.

Lemma rcu_protocol_silent_witness :
  exists w' q, assign_and_read 2 3 9 1 1 7 8 (2 ^ 64 - 4096) (2 ^ 64 - 8192) 16 0x500 0x600 0x700 0x800 (first_world 1024) = Ret (w', q) /\
    the_log w' = empty_log /\ unwatched_address (q + 16) = 2 ^ 64 - 8176.
Proof.
  destruct (rcu_protocol_silent 2 3 9 1 1 7 8 (2 ^ 64 - 4096) (2 ^ 64 - 8192) 16 0x500 0x600 0x700 0x800 (first_world 1024)
    (AtomicIdSet.store_slot (AtomicIdSet.make 4 0 (2 ^ 64 - 1)) 0 0x500) 0%nat) as (w' & q & E & El & _ & _ & _ & _ & Hq).
  - reflexivity.
  - apply first_idle.
  - apply first_free.
  - split; lia || reflexivity.
  - split; lia || reflexivity.
  - split; lia || reflexivity.
  - lia.
  - split; [vm_compute; reflexivity|apply Forall_replicate; split; lia].
  - reflexivity.
  - exists w', q. split; [exact E|]. split; [exact El|exact Hq].
Defined.

(** A world in which the pointer at the first address of shadow memory was
    assigned. *)
Definition assigned_world : world := with_bits [1] [] (first_world 0).

Lemma rcu_leak_reported_witness :
  exists w1 w2 q w3, event_rcu_read_lock 2 3 1 7 0x600 assigned_world = Ret w1 /\
    event_rcu_dereference 9 7 (2 ^ 64 - 2 ^ 19) (tag_address (2 ^ 64 - 8192) 5) 0x700 w1 = Ret (w2, q) /\
    event_rcu_read_unlock 7 0x800 w2 = Ret w3 /\
    MESSAGES (the_log (watched_access 7 (q + 16) true w3)) !! 0 =
      Some (ACCESS_OF_LEAKED_RCU_DEREFERENCED_POINTER, [7; 0x800; 0x700]).
Proof.
  destruct (rcu_leak_reported 2 3 9 1 7 (2 ^ 64 - 2 ^ 19) (tag_address (2 ^ 64 - 8192) 5) (2 ^ 64 - 8192) 5 16 0x600 0x700 0x800 assigned_world)
    as (w1 & w2 & q & w3 & E1 & E2 & E3 & (_ & El & _) & _).
  - split; reflexivity.
  - exists 0%nat. split; [lia|]. split; [reflexivity|discriminate].
  - reflexivity.
  - reflexivity.
  - reflexivity.
  - split; lia || reflexivity.
  - split; lia || reflexivity.
  - lia.
  - vm_compute. split; [discriminate|reflexivity].
  - exists w1, w2, q, w3. split; [exact E1|]. split; [exact E2|]. split; [exact E3|exact El].
Defined.

Lemma section_ids_unique_witness :
  exists w1 w3, event_rcu_read_lock 2 3 1 7 0x600 (first_world 0) = Ret w1 /\ event_rcu_read_lock 2 3 1 8 0x700 w1 = Ret w3 /\
    section_id (thread_at w3 8) <> section_id (thread_at w1 7).
Proof.
  destruct (event_rcu_read_lock 2 3 1 7 0x600 (first_world 0)) as [w1| |] eqn:E1; [|vm_compute in E1; discriminate E1..].
  assert (E1' := E1). vm_compute in E1'. injection E1' as E1'.
  destruct (event_rcu_read_lock 2 3 1 8 0x700 w1) as [w3| |] eqn:E2; [|rewrite <- E1' in E2; vm_compute in E2; discriminate E2..].
  exists w1, w3. split; [reflexivity|]. split; [exact E2|].
  refine (proj1 (section_ids_unique 2 3 9 1 7 8 0x600 0x700 (first_world 0) w1 w1 _ _ E1 (rtc_refl _ _) _) 1%nat w3 E2).
  - discriminate.
  - reflexivity.
  - rewrite <- E1'. split; reflexivity.
Defined.

(** A world in which all identifiers are in use. *)
Definition full_world : world :=
  with_sections (gset_to_gmap {| lock_carat := 1; unlock_carat := 1; deref_carat := 1; thread := 9 |}
                   (list_to_set (seqZ 0 MAX_NUM_SECTION_IDS))) 1 (first_world 0).

Lemma section_ids_run_out_witness : event_rcu_read_lock 2 3 100 7 0x600 full_world = OutOfFuel.
Proof.
  apply (section_ids_run_out 2 3 9 100 7 0x600 full_world full_world).
  - intros id Hid. unfold owner, section_at. cbn [full_world with_sections SECTIONS]. rewrite lookup_gset_to_gmap.
    rewrite option_guard_True; [discriminate|]. apply elem_of_list_to_set, elem_of_seqZ. lia.
  - apply rtc_refl.
  - split; reflexivity.
Defined.

Lemma third_unlock_faults_witness :
  exists w1 w2 w3, event_rcu_read_lock 2 3 1 7 0x600 (first_world 0) = Ret w1 /\ event_rcu_read_lock 2 3 1 7 0x601 w1 = Ret w2 /\
    event_rcu_read_lock 2 3 1 7 0x602 w2 = Ret w3 /\ event_rcu_read_unlock 7 0x603 w3 = Fault.
Proof. exact (third_unlock_faults 2 3 1 7 0x600 0x601 0x602 0x603 (first_world 0) (first_idle 0 7) (first_free 0 7)). Defined.

Lemma report_prints_witness : exists l, report (log_all [(DOUBLE_RCU_DEREFERENCE, [1; 2; 3])] empty_log) = Ret (l, [(DOUBLE_RCU_DEREFERENCE, [1; 2; 3])]).
Proof.
  pose proof (report_prints [(DOUBLE_RCU_DEREFERENCE, [1; 2; 3])] eq_refl) as Hr. rewrite decide_True in Hr by discriminate.
  destruct Hr as (l & E & _). exists l. exact E.
Defined.
