(* ===== verification/LeakDetector.v ===== *)
(** * The leak detector: [clients/watchpoints/clients/leak_detector]

    A watchpoint client that looks for lost objects.  Every object that
    module code allocates gets a descriptor; every access through a watched
    pointer sets a flag in it.  Once per epoch a thread marks the descriptors
    of objects that were accessed or whose address is found in kernel memory,
    and from there all objects whose watched addresses are stored in marked
    objects ([thread.cc]); an active object that is not marked is reported.

    The descriptors ([descriptor.cc]) are shown to satisfy the interface of
    [Watchpoint].  The theorems on the scan say exactly which objects it
    reports, that it ends, and what goes wrong with objects that were marked
    in an earlier epoch or that were freed.  The memory of the program is a
    partial function from addresses to bytes. *)

From Stdlib Require Import ZArith Lia Bool.
From stdpp Require Import base numbers list list_numbers option gmap relations.
From S2P Require Import Prelude Utils Watchpoint.

(** ** Descriptors ([descriptor.h]) *)

(** The bits of [leak_object_state]. *)
Definition was_freed : Z := 1.
Definition was_allocated_by_app : Z := 5.
Definition is_active : Z := 6.
Definition is_reachable : Z := 7.

(** [size] and [type_id] share their place with [index], [base_address] shares
    its place with [next_free]. *)
Record leak_detector_descriptor := {
  accessed_in_last_epoch : bool;
  state : Z;
  num_epochs_since_last_access : Z;
  size_type_or_index : Z;
  base_or_next : Z
}.

Definition zero_descriptor : leak_detector_descriptor :=
  {| accessed_in_last_epoch := false; state := 0; num_epochs_since_last_access := 0; size_type_or_index := 0; base_or_next := 0 |}.

Definition size_of (d : leak_detector_descriptor) : Z := get_field 0 16 (size_type_or_index d).
Definition base_address (d : leak_detector_descriptor) : Z := get_field 0 48 (base_or_next d).
Definition index (d : leak_detector_descriptor) : Z := size_type_or_index d.
Definition next_free (d : leak_detector_descriptor) : Z := base_or_next d.
Definition BASE_ADDRESS_MASK : Z := 0xffff000000000000.
(** The address of the object: [base_address | BASE_ADDRESS_MASK]. *)
Definition object_address (d : leak_detector_descriptor) : Z := Z.lor (base_address d) BASE_ADDRESS_MASK.

Definition with_state (st : Z) (d : leak_detector_descriptor) : leak_detector_descriptor :=
  {| accessed_in_last_epoch := accessed_in_last_epoch d; state := st; num_epochs_since_last_access := num_epochs_since_last_access d;
     size_type_or_index := size_type_or_index d; base_or_next := base_or_next d |}.
Definition with_accessed (b : bool) (d : leak_detector_descriptor) : leak_detector_descriptor :=
  {| accessed_in_last_epoch := b; state := state d; num_epochs_since_last_access := num_epochs_since_last_access d;
     size_type_or_index := size_type_or_index d; base_or_next := base_or_next d |}.
Definition with_union (low high : Z) (d : leak_detector_descriptor) : leak_detector_descriptor :=
  {| accessed_in_last_epoch := accessed_in_last_epoch d; state := state d; num_epochs_since_last_access := num_epochs_since_last_access d;
     size_type_or_index := low; base_or_next := high |}.

(** [leak_object_state::set_state] and [unset_state]: the loops around the
    compare-and-swap make them atomic. *)
Definition set_state (bits : Z) (d : leak_detector_descriptor) : leak_detector_descriptor :=
  with_state (Z.lor (state d) bits) d.
Definition unset_state (bits : Z) (d : leak_detector_descriptor) : leak_detector_descriptor :=
  with_state (Z.land (state d) (wnot 8 bits)) d.

(** ** State

    [DESCRIPTORS] maps indexes to pointers, [descriptors] is the memory they
    point to; the free list is the one of the executing CPU. *)
Record ld_state := {
  NEXT_COUNTER_INDEX : Z;
  DESCRIPTORS : gmap Z Z;
  descriptors : gmap Z leak_detector_descriptor;
  free_list : Z;
  execution_state : Z;
  memory : Z -> option Z
}.

Definition with_descriptors (h : gmap Z leak_detector_descriptor) (s : ld_state) : ld_state :=
  {| NEXT_COUNTER_INDEX := NEXT_COUNTER_INDEX s; DESCRIPTORS := DESCRIPTORS s; descriptors := h;
     free_list := free_list s; execution_state := execution_state s; memory := memory s |}.
Definition with_free_list (p : Z) (s : ld_state) : ld_state :=
  {| NEXT_COUNTER_INDEX := NEXT_COUNTER_INDEX s; DESCRIPTORS := DESCRIPTORS s; descriptors := descriptors s;
     free_list := p; execution_state := execution_state s; memory := memory s |}.
Definition with_execution_state (e : Z) (s : ld_state) : ld_state :=
  {| NEXT_COUNTER_INDEX := NEXT_COUNTER_INDEX s; DESCRIPTORS := DESCRIPTORS s; descriptors := descriptors s;
     free_list := free_list s; execution_state := e; memory := memory s |}.
Definition with_memory (m : Z -> option Z) (s : ld_state) : ld_state :=
  {| NEXT_COUNTER_INDEX := NEXT_COUNTER_INDEX s; DESCRIPTORS := DESCRIPTORS s; descriptors := descriptors s;
     free_list := free_list s; execution_state := execution_state s; memory := m |}.

(** [NEXT_COUNTER_INDEX.fetch_add(1)]. *)
Definition next_counter_index (s : ld_state) : ld_state * Z :=
  ({| NEXT_COUNTER_INDEX := u64 (NEXT_COUNTER_INDEX s + 1); DESCRIPTORS := DESCRIPTORS s; descriptors := descriptors s;
      free_list := free_list s; execution_state := execution_state s; memory := memory s |}, NEXT_COUNTER_INDEX s).

(** A pointer that does not point to a descriptor is not dereferenced without
    a fault. *)
Definition get (p : Z) (s : ld_state) : outcome leak_detector_descriptor :=
  match descriptors s !! p with Some d => Ret d | None => Fault end.
Definition put (p : Z) (d : leak_detector_descriptor) (s : ld_state) : ld_state :=
  with_descriptors (<[p := d]> (descriptors s)) s.

(** [memset(addr, 0, n)] and the load of a quadword. *)
Definition zero_memory (addr n : Z) (m : Z -> option Z) : outcome (Z -> option Z) :=
  if forallb (fun k => bool_decide (is_Some (m (addr + k)))) (seqZ 0 n)
  then Ret (fun a => if (addr <=? a) && (a <? addr + n) then Some 0 else m a)
  else Fault.

Fixpoint load (n : nat) (addr : Z) (m : Z -> option Z) : outcome Z :=
  match n with
  | O => Ret 0
  | S n =>
      match m addr with
      | None => Fault
      | Some b => rest ← load n (addr + 1) m; Ret (Z.lor b (Z.shiftl rest 8))
      end
  end.
Definition load_word (addr : Z) (m : Z -> option Z) : outcome Z := load 8 addr m.

Section LeakDetector.
Context `{Config} `{WpConfig}.
(** The bump allocator of descriptors, which returns the address of unused
    memory. *)
Context (new_descriptor : gmap Z leak_detector_descriptor -> Z).
(** The automatic variables of type [leak_object_state] are not initialised:
    what they hold when the state of the descriptor at an address is set. *)
Context (indeterminate : Z -> Z).

(** ** [descriptor.cc] *)
Definition activate (desc counter_index : Z) (s : ld_state) : outcome (ld_state * option (option Z * Z)) :=
  ASSERT (counter_index <=? MAX_COUNTER_INDEX) ≫= fun _ =>
  let s := put desc (with_state (set_flag is_active true 0) zero_descriptor) s in
  let s := if execution_state s =? 0 then with_execution_state 1 s else s in
  Ret (s, Some (Some desc, counter_index)).

Definition leak_allocate (inherited_index : Z) (s : ld_state) : outcome (ld_state * option (option Z * Z)) :=
  let desc := free_list s in
  if desc =? 0 then
    let r := next_counter_index s in
    if MAX_COUNTER_INDEX <? r.2 then Ret (r.1, None)
    else activate (new_descriptor (descriptors s)) r.2 r.1
  else
    d ← get desc s;
    activate desc (destructure_combined_index (index d)).1 (with_free_list (next_free d) s).

(** Arguments: [base_address], [size]. *)
Definition leak_init (desc : Z) (args : Z * Z) (s : ld_state) : outcome ld_state :=
  d ← get desc s;
  Ret (put desc (with_union (set_field 0 16 args.2 (size_type_or_index d)) (set_field 0 48 args.1 (base_or_next d)) d) s).

Definition leak_assign (desc idx : Z) (s : ld_state) : outcome ld_state :=
  ASSERT (idx <? MAX_NUM_WATCHPOINTS) ≫= fun _ =>
  d ← get desc s;
  let s := put desc (with_state (set_flag was_allocated_by_app true (state d)) d) s in
  Ret {| NEXT_COUNTER_INDEX := NEXT_COUNTER_INDEX s; DESCRIPTORS := <[idx := desc]> (DESCRIPTORS s); descriptors := descriptors s;
         free_list := free_list s; execution_state := execution_state s; memory := memory s |}.

(** The pointer at an index; entries that were never assigned are null. *)
Definition leak_access (idx : Z) (s : ld_state) : outcome Z :=
  ASSERT (idx <? MAX_NUM_WATCHPOINTS) ≫= fun _ => Ret (default 0 (DESCRIPTORS s !! idx)).

Definition leak_free (desc idx : Z) (s : ld_state) : outcome ld_state :=
  if negb (is_valid_address desc) then Ret s else
  d ← get desc s;
  m ← zero_memory (object_address d) (size_of d) (memory s);
  let desc_state := set_flag is_active false (set_flag was_freed true (indeterminate desc)) in
  let d := set_state desc_state (with_union (u32 idx) 0 zero_descriptor) in
  let d := with_union (size_type_or_index d) (free_list s) d in
  Ret (with_free_list desc (put desc d (with_memory m s))).

Definition leak_descriptor_type : DescriptorType ld_state Z (Z * Z) :=
  {| ALLOC_AND_INIT := false; REINIT_WATCHED_POINTERS := false;
     allocate_and_init := fun _ _ _ => Fault; allocate := leak_allocate; init := leak_init; assign := leak_assign;
     access := fun idx s => p ← leak_access idx s; Ret (Some p); free := leak_free |}.

(** ** The accessors that instrumented code calls ([access_descriptor.asm]) *)
Definition access_descriptor (watched_addr : Z) (s : ld_state) : outcome ld_state :=
  let desc := default 0 (DESCRIPTORS s !! combined_index_of watched_addr) in
  d ← get desc s;
  Ret (put desc (with_accessed true d) s).

(** ** The scan ([thread.cc]) *)

(** [state.is_reachable = true; desc->state.set_state(state)]. *)
Definition mark (p : Z) (s : ld_state) : outcome ld_state :=
  d ← get p s; Ret (put p (set_state (set_flag is_reachable true (indeterminate p)) d) s).

(** The addresses that are read of an object: [offset] runs from zero to
    [desc->size], which is included. *)
Definition words (d : leak_detector_descriptor) : list Z :=
  (fun k => u64 (object_address d + 8 * k)) <$> seqZ 0 (size_of d / 8 + 1).

(** If the descriptor at the pointer is not marked yet, it is marked and its
    object is scanned. *)
Definition reach (scan : ld_state -> outcome ld_state) (p : Z) (s : ld_state) : outcome ld_state :=
  d ← get p s;
  if get_flag is_reachable (state d) then Ret s
  else s ← mark p s; scan s.

Definition scan_word (scan : Z -> ld_state -> outcome ld_state) (addr : Z) (s : ld_state) : outcome ld_state :=
  val ← load_word addr (memory s);
  if is_watched_address val then
    let found_index := counter_index_of val in
    found_desc ← leak_access found_index s;
    if is_valid_address found_desc then reach (scan found_index) found_desc s else Ret s
  else Ret s.

Fixpoint for_each {A} (body : A -> ld_state -> outcome ld_state) (l : list A) (s : ld_state) : outcome ld_state :=
  match l with
  | [] => Ret s
  | x :: l => s ← body x s; for_each body l s
  end.

Fixpoint scan_descriptor (fuel : nat) (idx : Z) (s : ld_state) : outcome ld_state :=
  match fuel with
  | O => OutOfFuel
  | S fuel =>
      desc ← leak_access idx s;
      if is_valid_address desc then
        d ← get desc s;
        for_each (scan_word (scan_descriptor fuel)) (words d) s
      else Ret s
  end.

(** [watchpoint_callback]: a value that was found in kernel memory. *)
Definition watchpoint_callback (fuel : nat) (addr : Z) (s : ld_state) : outcome ld_state :=
  let idx := counter_index_of addr in
  desc ← leak_access idx s;
  if desc =? 0 then Ret s else
  d ← get desc s;
  let base := base_address d in
  let limit := base_address d + size_of d in
  let watch_addr := Z.land addr 0xffffffffffff in
  if (base <=? watch_addr) && (watch_addr <=? limit) then reach (scan_descriptor fuel idx) desc s else Ret s.

(** The first loop of the scan: an object that was accessed. *)
Definition scan_accessed (fuel : nat) (idx : Z) (s : ld_state) : outcome ld_state :=
  desc ← leak_access idx s;
  if is_valid_address desc then
    d ← get desc s;
    if accessed_in_last_epoch d then
      let s := put desc (with_accessed false d) s in
      reach (scan_descriptor fuel idx) desc s
    else Ret s
  else Ret s.

(** What the last loop prints. *)
Inductive verdict := Reachable (idx : Z) | Leaked (idx : Z).

Fixpoint report (indexes : list Z) (s : ld_state) : outcome (list verdict) :=
  match indexes with
  | [] => Ret []
  | idx :: indexes =>
      desc ← leak_access idx s;
      if is_valid_address desc then
        d ← get desc s;
        rest ← report indexes s;
        Ret (if get_flag is_reachable (state d) then Reachable idx :: rest
             else if get_flag is_active (state d) then Leaked idx :: rest else rest)
      else report indexes s
  end.

(** [leak_policy_scan_callback]; [found] are the values that
    [kernel_pagetable_walk] passes to its callback. *)
Definition leak_policy_scan_callback (fuel : nat) (found : list Z) (s : ld_state) : outcome (ld_state * list verdict) :=
  if execution_state s =? 0 then Ret (s, []) else
  let s := with_execution_state 0 s in
  let indexes := seqZ 0 MAX_NUM_WATCHPOINTS in
  s ← for_each (scan_accessed fuel) indexes s;
  s ← for_each (watchpoint_callback fuel) found s;
  r ← report indexes s;
  Ret (s, r).
End LeakDetector.

(** ** Reachability *)
Section Scan.
Context `{Config} `{WpConfig} (indeterminate : Z -> Z).

Definition marked (s : ld_state) (p : Z) : Prop :=
  exists d, descriptors s !! p = Some d /\ get_flag is_reachable (state d) = true.
Definition unmarked (s : ld_state) (p : Z) : Prop :=
  exists d, descriptors s !! p = Some d /\ get_flag is_reachable (state d) = false.
Definition active (s : ld_state) (p : Z) : Prop :=
  exists d, descriptors s !! p = Some d /\ get_flag is_active (state d) = true.
Definition accessed (s : ld_state) (p : Z) : Prop :=
  exists d, descriptors s !! p = Some d /\ accessed_in_last_epoch d = true.

(** [a] is the address of a quadword at an offset of the object that is a
    multiple of eight.  An offset that equals the size of the object counts,
    so the quadword behind an object whose size is a multiple of eight is
    taken for a part of it. *)
Definition word_of (d : leak_detector_descriptor) (a : Z) : Prop :=
  exists offset, 0 <= offset <= size_of d /\ offset mod 8 = 0 /\ a = u64 (object_address d + offset).

(** A word of the object of [p] holds a watched address whose descriptor is
    [q]. *)
Definition points_to (s : ld_state) (p q : Z) : Prop :=
  exists d a val, descriptors s !! p = Some d /\ word_of d a /\ load_word a (memory s) = Ret val /\
    is_watched_address val = true /\ DESCRIPTORS s !! counter_index_of val = Some q.

(** Reachable from [C] through descriptors that are not marked. *)
Inductive found (s : ld_state) (C : Z -> Prop) : Z -> Prop :=
  | found_start p : C p -> unmarked s p -> found s C p
  | found_step p q : found s C p -> points_to s p q -> unmarked s q -> found s C q.

(** The words of an object can be read. *)
Definition readable (s : ld_state) (p : Z) : Prop :=
  exists d, descriptors s !! p = Some d /\
    forall a, word_of d a -> exists val, load_word a (memory s) = Ret val /\ in_width 64 val.

(** Table entries point to descriptors. *)
Definition table_ok (s : ld_state) : Prop :=
  forall i p, DESCRIPTORS s !! i = Some p -> is_valid_address p = true /\ is_Some (descriptors s !! p).

(** ** Steps of the scan

    All that a scan changes are the states and access flags of descriptors. *)
Definition skeleton (d : leak_detector_descriptor) : Z * Z := (size_type_or_index d, base_or_next d).

Record same_graph (s s' : ld_state) : Prop := {
  sg_frame : s' = with_descriptors (descriptors s') s;
  sg_skeleton : forall p, skeleton <$> descriptors s' !! p = skeleton <$> descriptors s !! p
}.

(** A step that visits the descriptors in [C]: they are marked afterwards, and
    so is everything that a newly marked object points to; nothing else is. *)
Record visits (C : Z -> Prop) (s s' : ld_state) : Prop := {
  v_graph : same_graph s s';
  v_marked : forall p, marked s p -> marked s' p;
  v_sound : forall p, marked s' p -> marked s p \/ found s C p;
  v_start : forall p, C p -> marked s' p;
  v_closed : forall p q, marked s' p -> unmarked s p -> points_to s p q -> marked s' q;
  v_active : forall p, unmarked s' p -> active s' p <-> active s p
}.

Definition same_accessed (s s' : ld_state) : Prop := forall p, accessed s' p <-> accessed s p.

(** The loop over an object reads exactly its words. *)
Lemma elem_of_words d a : a ∈ words d <-> word_of d a.
Proof.
  unfold words, word_of. rewrite list_elem_of_fmap. split.
  - intros (k & -> & Hk%elem_of_seqZ). exists (8 * k). rewrite Z.mul_comm, Z_mod_mult.
    pose proof (Z.mul_div_le (size_of d) 8 ltac:(lia)). split; [lia|]. split; [done|]. by rewrite Z.mul_comm.
  - intros (off & Hoff & Hm & ->). apply Z.div_exact in Hm; [|lia]. exists (off / 8). rewrite <- Hm. split; [done|].
    apply elem_of_seqZ. pose proof (Z.div_pos off 8). pose proof (Z.div_le_mono off (size_of d) 8). lia.
Qed.

Lemma word_of_same d d' : words d' = words d -> forall a, word_of d' a <-> word_of d a.
Proof. intros E a. by rewrite <- !elem_of_words, E. Qed.

Lemma marked_unmarked s p : marked s p -> unmarked s p -> False.
Proof. intros (d & E & Hm) (d' & E' & Hu). rewrite E in E'. injection E' as ->. congruence. Qed.

Lemma marked_or_unmarked s p d : descriptors s !! p = Some d -> marked s p \/ unmarked s p.
Proof. intros E. destruct (get_flag is_reachable (state d)) eqn:Ef; [left|right]; exists d; done. Qed.

Lemma same_graph_refl s : same_graph s s.
Proof. split; [by destruct s|done]. Qed.

Lemma same_graph_trans s1 s2 s3 : same_graph s1 s2 -> same_graph s2 s3 -> same_graph s1 s3.
Proof. intros [F1 K1] [F2 K2]. split; [rewrite F2, F1; done|]. intros p. by rewrite K2, K1. Qed.

Lemma same_graph_sym s1 s2 : same_graph s1 s2 -> same_graph s2 s1.
Proof. intros [F K]. split; [rewrite F; by destruct s1|done]. Qed.

Lemma same_graph_lookup s s' p d : same_graph s s' -> descriptors s !! p = Some d ->
  exists d', descriptors s' !! p = Some d' /\ words d' = words d /\ base_address d' = base_address d /\ size_of d' = size_of d.
Proof.
  intros [_ K] E. specialize (K p). rewrite E in K. destruct (descriptors s' !! p) as [d'|]; [|discriminate K].
  exists d'. injection K as E1 E2. unfold words, size_of, object_address, base_address. by rewrite E1, E2.
Qed.

Lemma same_graph_table s s' : same_graph s s' -> DESCRIPTORS s' = DESCRIPTORS s /\ memory s' = memory s.
Proof. intros [-> _]. done. Qed.

Lemma points_to_same s s' p q : same_graph s s' -> points_to s p q -> points_to s' p q.
Proof.
  intros Hg (d & a & val & E & Ha & El & Hw & Hq). destruct (same_graph_lookup s s' p d Hg E) as (d' & E' & Ew & _).
  destruct (same_graph_table s s' Hg) as [Ed Em]. exists d', a, val. by rewrite (word_of_same d d' Ew), Ed, Em.
Qed.

Lemma readable_same s s' p : same_graph s s' -> readable s p -> readable s' p.
Proof.
  intros Hg (d & E & Hr). destruct (same_graph_lookup s s' p d Hg E) as (d' & E' & Ew & _).
  exists d'. split; [done|]. intros a Ha%(word_of_same d d' Ew). destruct (same_graph_table s s' Hg) as [_ ->]. by apply Hr.
Qed.

Lemma table_ok_same s s' : same_graph s s' -> table_ok s -> table_ok s'.
Proof.
  intros Hg Ht i p. destruct (same_graph_table s s' Hg) as [-> _]. intros E. destruct (Ht i p E) as [Hv [d Ed]].
  split; [done|]. destruct (same_graph_lookup s s' p d Hg Ed) as (d' & -> & _). by eexists.
Qed.

Lemma unmarked_back C s s' p : visits C s s' -> unmarked s' p -> unmarked s p.
Proof.
  intros Hv (d' & E' & Hf). destruct (same_graph_lookup s' s p d' (same_graph_sym _ _ (v_graph _ _ _ Hv)) E') as (d & E & _).
  destruct (marked_or_unmarked s p d E) as [Hm|]; [|done]. apply (v_marked _ _ _ Hv) in Hm. exfalso.
  apply (marked_unmarked s' p Hm). by exists d'.
Qed.

Lemma found_mono s (C C' : Z -> Prop) p : (forall q, C q -> C' q) -> found s C p -> found s C' p.
Proof. intros HC. induction 1; [apply found_start; auto|by eapply found_step]. Qed.

Lemma found_back C0 C s s' p : visits C0 s s' -> found s' C p -> found s C p.
Proof.
  intros Hv. induction 1 as [p HC Hu|p q Hp IH Hpt Hu].
  - apply found_start; [done|by eapply unmarked_back].
  - eapply found_step; [exact IH| |by eapply unmarked_back]. eapply points_to_same; [|exact Hpt]. apply same_graph_sym, Hv.
Qed.

Lemma visits_nothing s s' :
  same_graph s s' -> (forall p, state <$> descriptors s' !! p = state <$> descriptors s !! p) -> visits (fun _ => False) s s'.
Proof.
  intros Hg Hs.
  assert (Hb : forall (b : Z) p v, (exists d, descriptors s' !! p = Some d /\ get_flag b (state d) = v) <-> (exists d, descriptors s !! p = Some d /\ get_flag b (state d) = v)).
  { intros b p v. specialize (Hs p). split; intros (d & E & Ef); rewrite E in Hs.
    - destruct (descriptors s !! p) as [d0|]; [|discriminate Hs]. injection Hs as Hs. exists d0. by rewrite <- Hs.
    - destruct (descriptors s' !! p) as [d0|]; [|discriminate Hs]. injection Hs as Hs. exists d0. by rewrite Hs. }
  split; [done|intros p; apply Hb|intros p Hm; left; by apply Hb in Hm|done| |intros p _; apply Hb].
  intros p q Hm Hu _. exfalso. apply Hb in Hm. by eapply marked_unmarked.
Qed.

Lemma visits_union C1 C2 s1 s2 s3 :
  visits C1 s1 s2 -> visits C2 s2 s3 -> visits (fun p => C1 p \/ C2 p) s1 s3.
Proof.
  intros V1 V2. split.
  - eapply same_graph_trans; [apply V1|apply V2].
  - intros p Hp. by apply (v_marked _ _ _ V2), (v_marked _ _ _ V1).
  - intros p Hp. destruct (v_sound _ _ _ V2 p Hp) as [Hp2|Hp2].
    + destruct (v_sound _ _ _ V1 p Hp2) as [|Hf]; [by left|right]. eapply found_mono; [|exact Hf]. by left.
    + right. eapply found_mono; [|eapply found_back; [exact V1|exact Hp2]]. by right.
  - intros p [HC|HC]; [apply (v_marked _ _ _ V2)|]; by eapply v_start.
  - intros p q Hm Hu Hpt. destruct (v_sound _ _ _ V2 p Hm) as [Hm2|Hf].
    + apply (v_marked _ _ _ V2). by eapply v_closed.
    + eapply (v_closed _ _ _ V2); [done| |eapply points_to_same; [apply V1|done]].
      inversion Hf; subst; done.
  - intros p Hu. rewrite (v_active _ _ _ V2 p Hu). apply (v_active _ _ _ V1). by eapply unmarked_back.
Qed.

Lemma visits_equiv C C' s s' : (forall p, C p <-> C' p) -> visits C s s' -> visits C' s s'.
Proof.
  intros HC [Hg Hm Hs Hst Hc Ha]. split; try done.
  - intros p Hp. destruct (Hs p Hp) as [|Hf]; [by left|right]. eapply found_mono; [|exact Hf]. apply HC.
  - intros p Hp. by apply Hst, HC.
Qed.

Lemma visits_refl s : visits (fun _ => False) s s.
Proof. apply visits_nothing; [apply same_graph_refl|done]. Qed.

(** A descriptor that is marked already need not be visited. *)
Lemma visits_marked s p : marked s p -> visits (eq p) s s.
Proof.
  intros Hm. destruct (visits_refl s) as [Hg _ _ _ Hc Ha]. split; try done; [by left|by intros q <-].
Qed.

(** ** Marking *)
Definition marked_state (p : Z) (d : leak_detector_descriptor) : leak_detector_descriptor :=
  set_state (set_flag is_reachable true (indeterminate p)) d.

Lemma mark_ret s p d : descriptors s !! p = Some d -> mark indeterminate p s = Ret (put p (marked_state p d) s).
Proof. intros E. unfold mark, get. by rewrite E. Qed.

Lemma marked_state_flag p d : get_flag is_reachable (state (marked_state p d)) = true.
Proof.
  unfold marked_state, set_state, get_flag. cbn [state with_state]. rewrite Z.lor_spec.
  change (Z.testbit (set_flag is_reachable true (indeterminate p)) is_reachable) with (get_flag is_reachable (set_flag is_reachable true (indeterminate p))).
  rewrite get_flag_set_same by done. apply orb_true_r.
Qed.

Lemma put_same_graph s p d d' : descriptors s !! p = Some d -> skeleton d' = skeleton d -> same_graph s (put p d' s).
Proof.
  intros E Ek. split; [done|]. intros q. cbn. destruct (decide (p = q)) as [<-|Hne].
  - rewrite lookup_insert_eq, E. cbn [fmap option_fmap option_map]. by rewrite Ek.
  - by rewrite lookup_insert_ne.
Qed.

Lemma put_other s p d (P : leak_detector_descriptor -> Prop) q : q <> p ->
  (exists x, descriptors (put p d s) !! q = Some x /\ P x) <-> (exists x, descriptors s !! q = Some x /\ P x).
Proof. intros Hne. cbn. by rewrite lookup_insert_ne by done. Qed.

Lemma put_here s p d (P : leak_detector_descriptor -> Prop) :
  (exists x, descriptors (put p d s) !! p = Some x /\ P x) <-> P d.
Proof. cbn. rewrite lookup_insert_eq. split; [by intros (x & [= ->] & Hx)|]. intros Hd. by exists d. Qed.

Lemma mark_marked s p d : marked (put p (marked_state p d) s) p.
Proof. apply (put_here s p _ (fun x => get_flag is_reachable (state x) = true)), marked_state_flag. Qed.

Lemma mark_accessed s p d : descriptors s !! p = Some d -> same_accessed s (put p (marked_state p d) s).
Proof.
  intros E q. destruct (decide (q = p)) as [->|Hne]; [|by apply put_other].
  unfold accessed at 1. rewrite (put_here s p _ (fun x => accessed_in_last_epoch x = true)). cbn.
  split; [by exists d|]. by intros (x & [= <-]%(eq_trans (eq_sym E)) & Hx).
Qed.

(** Marking an object and then visiting what it points to. *)
Lemma visits_mark s p d s' :
  descriptors s !! p = Some d -> unmarked s p ->
  visits (points_to s p) (put p (marked_state p d) s) s' -> visits (eq p) s s'.
Proof.
  intros E Hu V. set (s0 := put p (marked_state p d) s) in *.
  assert (Hg : same_graph s s0) by by eapply put_same_graph.
  assert (Hm0 : forall q, marked s0 q -> q = p \/ marked s q).
  { intros q Hq. destruct (decide (q = p)) as [|Hne]; [by left|right]. by apply put_other in Hq. }
  assert (Hu0 : forall q, unmarked s0 q -> q <> p /\ unmarked s q).
  { intros q Hq. destruct (decide (q = p)) as [->|Hne]; [exfalso; eapply marked_unmarked; [apply mark_marked|exact Hq]|].
    split; [done|]. by apply put_other in Hq. }
  assert (Hp : found s (eq p) p) by (by apply found_start).
  assert (Hf : forall q, found s0 (points_to s p) q -> found s (eq p) q).
  { induction 1 as [q Hq Huq|q r _ IH Hqr Hur].
    - eapply found_step; [exact Hp|done|]. by apply Hu0.
    - eapply found_step; [exact IH| |by apply Hu0]. eapply points_to_same; [apply same_graph_sym, Hg|done]. }
  split.
  - eapply same_graph_trans; [exact Hg|apply V].
  - intros q Hq. apply (v_marked _ _ _ V). destruct (decide (q = p)) as [->|Hne]; [apply mark_marked|]. by apply put_other.
  - intros q Hq. destruct (v_sound _ _ _ V q Hq) as [Hq0|Hq0]; [|right; by apply Hf].
    destruct (Hm0 q Hq0) as [->|]; [by right|by left].
  - intros q <-. apply (v_marked _ _ _ V), mark_marked.
  - intros q r Hq Huq Hqr. destruct (decide (q = p)) as [->|Hne]; [by eapply v_start|].
    eapply (v_closed _ _ _ V); [done| |by eapply points_to_same]. by apply put_other.
  - intros q Hq. rewrite (v_active _ _ _ V q Hq). apply put_other. intros ->.
    eapply marked_unmarked; [apply (v_marked _ _ _ V), mark_marked|exact Hq].
Qed.

(** ** Termination: the descriptors that are not marked *)
Definition unmarked_set (s : ld_state) : gset Z :=
  dom (filter (fun kd => get_flag is_reachable (state kd.2) = false) (descriptors s)).

Lemma elem_of_unmarked_set s p : p ∈ unmarked_set s <-> unmarked s p.
Proof.
  unfold unmarked_set. rewrite elem_of_dom. split.
  - intros [d E]. apply map_lookup_filter_Some in E as [E Hf]. by exists d.
  - intros (d & E & Hf). exists d. by apply map_lookup_filter_Some.
Qed.

Definition unmarked_count (s : ld_state) : nat := size (unmarked_set s).

Lemma visits_count C s s' : visits C s s' -> (unmarked_count s' <= unmarked_count s)%nat.
Proof. intros V. unfold unmarked_count. apply subseteq_size. intros p. rewrite !elem_of_unmarked_set. by eapply unmarked_back. Qed.

Lemma mark_count s p d : descriptors s !! p = Some d -> unmarked s p ->
  (unmarked_count (put p (marked_state p d) s) < unmarked_count s)%nat.
Proof.
  intros E Hu. unfold unmarked_count. apply subset_size. split.
  - intros q. rewrite !elem_of_unmarked_set. intros Hq. destruct (decide (q = p)) as [->|Hne]; [done|]. by apply put_other in Hq.
  - intros Hs. specialize (Hs p). rewrite !elem_of_unmarked_set in Hs. eapply marked_unmarked; [apply mark_marked|by apply Hs].
Qed.

Lemma unmarked_count_size s : (unmarked_count s <= size (descriptors s))%nat.
Proof.
  unfold unmarked_count, unmarked_set. rewrite size_dom. apply map_subseteq_size, map_filter_subseteq.
Qed.

(** ** The recursion *)

(** The objects in [R] can be scanned, and whatever they point to is marked
    or in [R]. *)
Definition safe (s : ld_state) (R : Z -> Prop) : Prop :=
  forall p, R p -> readable s p /\ forall q, points_to s p q -> marked s q \/ R q.

Lemma safe_grow s s' R : same_graph s s' -> (forall p, marked s p -> marked s' p) -> safe s R -> safe s' R.
Proof.
  intros Hg Hm Hs p Hp. destruct (Hs p Hp) as [Hr Hq]. split; [by eapply readable_same|].
  intros q Hpt. destruct (Hq q) as [Hmq|]; [|left; by apply Hm|by right]. eapply points_to_same; [apply same_graph_sym, Hg|done].
Qed.

(** What the loops of the scan maintain. *)
Record scanning (fuel : nat) (R : Z -> Prop) (s0 s : ld_state) : Prop := {
  sc_graph : same_graph s0 s;
  sc_marked : forall p, marked s0 p -> marked s p;
  sc_table : table_ok s;
  sc_safe : safe s R;
  sc_fuel : (unmarked_count s <= fuel)%nat
}.

Lemma scanning_visits fuel R s0 C s s' : scanning fuel R s0 s -> visits C s s' -> scanning fuel R s0 s'.
Proof.
  intros [Hg Hm Ht Hs Hf] V. split.
  - eapply same_graph_trans; [exact Hg|apply V].
  - intros p Hp. by apply (v_marked _ _ _ V), Hm.
  - eapply table_ok_same; [apply V|done].
  - eapply safe_grow; [apply V|apply V|done].
  - apply visits_count in V. lia.
Qed.

Lemma for_each_visits {A} (body : A -> ld_state -> outcome ld_state) (Cx : A -> Z -> Prop) fuel R s0 l : forall s,
  (forall x s, x ∈ l -> scanning fuel R s0 s -> exists s', body x s = Ret s' /\ visits (Cx x) s s' /\ same_accessed s s') ->
  scanning fuel R s0 s ->
  exists s', for_each body l s = Ret s' /\ visits (fun p => exists x, x ∈ l /\ Cx x p) s s' /\ same_accessed s s'.
Proof.
  induction l as [|x l IH]; intros s Hb HI.
  - exists s. split; [done|]. split; [|done]. eapply visits_equiv; [|apply visits_refl]. intros p. split; [done|].
    intros (x & Hx & _). by apply not_elem_of_nil in Hx.
  - destruct (Hb x s ltac:(left) HI) as (s1 & E1 & V1 & A1).
    destruct (IH s1) as (s2 & E2 & V2 & A2); [intros y sy Hy; apply Hb; by right|by eapply scanning_visits|].
    exists s2. cbn [for_each]. rewrite E1. cbn [mbind outcome_bind]. split; [done|]. split; [|intros p; by rewrite (A2 p)].
    eapply visits_equiv; [|exact (visits_union _ _ _ _ _ V1 V2)]. intros p. split.
    + intros [Hx|(y & Hy & Hp)]; [exists x|exists y]; (split; [|done]); [left|by right].
    + intros (y & [->|Hy]%elem_of_cons & Hp); [by left|right; by exists y].
Qed.

Lemma counter_index_range val : in_width 64 val -> 0 <= counter_index_of val < MAX_NUM_WATCHPOINTS.
Proof.
  intros Hv. unfold counter_index_of, DISTINGUISHING_BIT_OFFSET, NUM_BITS_PER_ADDR, NUM_HIGH_ORDER_BITS.
  rewrite Z.shiftr_div_pow2 by lia. change (2 ^ (64 - 16 + 1)) with (2 ^ 49).
  assert (0 <= val / 2 ^ 49 < 32768).
  { unfold in_width in Hv. split; [apply Z.div_pos; lia|apply Z.div_lt_upper_bound; [lia|]]. change (2 ^ 49 * 32768) with (2 ^ 64). lia. }
  unfold MAX_NUM_WATCHPOINTS, MAX_COUNTER_INDEX. destruct WP_USE_INHERITED_INDEX; [|lia].
  pose proof (pow2_pos _ (proj1 wp_width_range)) as Hp. rewrite Z.shiftl_1_l.
  revert Hp. generalize (2 ^ NUM_INHERITED_INDEX_BITS) as P. generalize dependent (val / 2 ^ 49). lia.
Qed.

Lemma leak_access_ret idx s : idx < MAX_NUM_WATCHPOINTS -> leak_access idx s = Ret (default 0 (DESCRIPTORS s !! idx)).
Proof. intros Hi. unfold leak_access. by rewrite (proj2 (Z.ltb_lt _ _) Hi). Qed.

Lemma null_invalid : is_valid_address 0 = false.
Proof. unfold is_valid_address. by destruct env_kernel. Qed.

(** What one level of the recursion does. *)
Definition scan_spec (fuel : nat) : Prop := forall s idx p R,
  table_ok s -> safe s R -> DESCRIPTORS s !! idx = Some p -> idx < MAX_NUM_WATCHPOINTS -> readable s p ->
  (forall q, points_to s p q -> marked s q \/ R q) -> (unmarked_count s < fuel)%nat ->
  exists s', scan_descriptor indeterminate fuel idx s = Ret s' /\ visits (points_to s p) s s' /\ same_accessed s s'.

Lemma reach_visits fuel R s0 s idx p :
  scan_spec fuel -> scanning fuel R s0 s -> DESCRIPTORS s !! idx = Some p -> idx < MAX_NUM_WATCHPOINTS -> marked s p \/ R p ->
  exists s', reach indeterminate (scan_descriptor indeterminate fuel idx) p s = Ret s' /\ visits (eq p) s s' /\ same_accessed s s'.
Proof.
  intros Hscan [Hg _ Ht Hs Hf] Ep Hi Hp. destruct (Ht idx p Ep) as [_ [d E]]. unfold reach, get. rewrite E. cbn [mbind outcome_bind].
  destruct (get_flag is_reachable (state d)) eqn:Ef.
  { exists s. split; [done|]. split; [|done]. apply visits_marked. by exists d. }
  assert (Hu : unmarked s p) by by exists d.
  destruct Hp as [Hm|HR]; [exfalso; by eapply marked_unmarked|]. destruct (Hs p HR) as [Hr Hq].
  rewrite (mark_ret s p d E). cbn [mbind outcome_bind]. set (s1 := put p (marked_state p d) s).
  assert (Hg1 : same_graph s s1) by by eapply put_same_graph.
  assert (Hm1 : forall q, marked s q -> marked s1 q).
  { intros q Hmq. destruct (decide (q = p)) as [->|Hne]; [apply mark_marked|by apply put_other]. }
  destruct (Hscan s1 idx p R) as (s2 & E2 & V2 & A2).
  - by eapply table_ok_same.
  - by eapply safe_grow.
  - done.
  - done.
  - by eapply readable_same.
  - intros q Hpt. destruct (Hq q) as [Hmq|HRq]; [|left; by apply Hm1|by right].
    eapply points_to_same; [apply same_graph_sym, Hg1|done].
  - pose proof (mark_count s p d E Hu). fold s1 in H1. lia.
  - exists s2. split; [done|]. split; [|intros q; rewrite (A2 q); by apply mark_accessed].
    eapply visits_mark; [done|done|]. eapply visits_equiv; [|exact V2]. intros q. split; apply points_to_same; [apply same_graph_sym|]; done.
Qed.

(** A word holds a watched address of [q]. *)
Definition word_points_to (s : ld_state) (a q : Z) : Prop :=
  exists val, load_word a (memory s) = Ret val /\ is_watched_address val = true /\ DESCRIPTORS s !! counter_index_of val = Some q.

Lemma scan_word_visits fuel R s0 s a val :
  scan_spec fuel -> scanning fuel R s0 s -> load_word a (memory s0) = Ret val -> in_width 64 val ->
  (forall q, word_points_to s0 a q -> marked s q \/ R q) ->
  exists s', scan_word indeterminate (scan_descriptor indeterminate fuel) a s = Ret s' /\ visits (word_points_to s0 a) s s' /\ same_accessed s s'.
Proof.
  intros Hscan HI El Hw Hq. destruct (same_graph_table _ _ (sc_graph _ _ _ _ HI)) as [Ed Em].
  unfold scan_word. rewrite Em, El. cbn [mbind outcome_bind].
  assert (Hdet : forall q, word_points_to s0 a q -> is_watched_address val = true /\ DESCRIPTORS s0 !! counter_index_of val = Some q).
  { intros q (v & Ev & Hv). rewrite El in Ev. injection Ev as <-. done. }
  assert (Hnone : (forall q, ~ word_points_to s0 a q) -> visits (word_points_to s0 a) s s).
  { intros Hn. eapply visits_equiv; [|apply visits_refl]. intros q. split; [done|]. apply Hn. }
  destruct (is_watched_address val) eqn:Ewa.
  - destruct (counter_index_range val Hw) as [Hc0 Hc]. rewrite leak_access_ret by done. cbn [mbind outcome_bind]. rewrite Ed.
    destruct (DESCRIPTORS s0 !! counter_index_of val) as [p|] eqn:Ep; cbn [default from_option id].
    + destruct (sc_table _ _ _ _ HI (counter_index_of val) p) as [-> _]; [by rewrite Ed|].
      assert (Hp : word_points_to s0 a p) by (exists val; done).
      destruct (reach_visits fuel R s0 s (counter_index_of val) p Hscan HI) as (s' & E' & V & A); [by rewrite Ed|done|by apply Hq|].
      exists s'. split; [done|]. split; [|done]. eapply visits_equiv; [|exact V]. intros q. split; [by intros <-|].
      intros Hq'. destruct (Hdet q Hq') as [_ Eq]. congruence.
    + rewrite null_invalid. exists s. split; [done|]. split; [|done]. apply Hnone. intros q Hq'. destruct (Hdet q Hq') as [_ Eq]. congruence.
  - exists s. split; [done|]. split; [|done]. apply Hnone. intros q Hq'. by destruct (Hdet q Hq').
Qed.

Lemma scan_descriptor_spec fuel : scan_spec fuel.
Proof.
  induction fuel as [|fuel IH]; intros s idx p R Ht Hs Ep Hi (d & E & Hr) Hq Hf; [lia|]. cbn [scan_descriptor].
  rewrite leak_access_ret by done. cbn [mbind outcome_bind]. rewrite Ep. cbn [default from_option id].
  destruct (Ht idx p Ep) as [-> _]. unfold get. rewrite E. cbn [mbind outcome_bind].
  assert (Hpt : forall a q, a ∈ words d -> word_points_to s a q -> points_to s p q).
  { intros a q Ha%elem_of_words (val & Ev & Hw & Eq). by exists d, a, val. }
  destruct (for_each_visits (scan_word indeterminate (scan_descriptor indeterminate fuel)) (word_points_to s) fuel R s (words d) s) as (s' & E' & V & A).
  - intros a s1 Ha HI. destruct (Hr a) as (val & Ev & Hw); [by apply elem_of_words|]. apply (scan_word_visits fuel R s s1 a val IH HI Ev Hw).
    intros q Hwq. destruct (Hq q (Hpt a q Ha Hwq)) as [Hm|]; [|by right].
    left. by apply (sc_marked _ _ _ _ HI).
  - split; [apply same_graph_refl|done|done|done|lia].
  - exists s'. split; [done|]. split; [|done]. eapply visits_equiv; [|exact V]. intros q. split.
    + intros (a & Ha & Hw). by eapply Hpt.
    + intros (d' & a & val & E1 & Ha & El & Hw & Eq). rewrite E in E1. injection E1 as <-. exists a. split; [by apply elem_of_words|]. by exists val.
Qed.

(** ** The loops of the callback *)
Lemma clear_accessed s p d :
  descriptors s !! p = Some d -> visits (fun _ => False) s (put p (with_accessed false d) s) /\
  forall q, accessed (put p (with_accessed false d) s) q <-> accessed s q /\ q <> p.
Proof.
  intros E. split.
  - apply visits_nothing; [by eapply put_same_graph|]. intros q. cbn. destruct (decide (p = q)) as [<-|Hne].
    + by rewrite lookup_insert_eq, E.
    + by rewrite lookup_insert_ne.
  - intros q. destruct (decide (q = p)) as [->|Hne].
    + unfold accessed at 1. rewrite (put_here s p _ (fun x => accessed_in_last_epoch x = true)). cbn. split; [done|by intros []].
    + unfold accessed at 1. rewrite (put_other s p _ (fun x => accessed_in_last_epoch x = true)) by done. by split; [intros|intros []].
Qed.

Lemma scan_accessed_visits fuel R s0 s idx :
  scanning fuel R s0 s -> idx < MAX_NUM_WATCHPOINTS ->
  (forall p, DESCRIPTORS s0 !! idx = Some p -> accessed s p -> marked s p \/ R p) ->
  exists s', scan_accessed indeterminate fuel idx s = Ret s' /\
    visits (fun p => DESCRIPTORS s0 !! idx = Some p /\ accessed s p) s s' /\
    (forall q, accessed s' q -> accessed s q) /\ (forall q, accessed s q -> accessed s' q \/ DESCRIPTORS s0 !! idx = Some q).
Proof.
  intros HI Hi Hp. destruct (same_graph_table _ _ (sc_graph _ _ _ _ HI)) as [Ed _].
  unfold scan_accessed. rewrite leak_access_ret by done. cbn [mbind outcome_bind]. rewrite Ed.
  assert (Hnone : (forall p, DESCRIPTORS s0 !! idx = Some p -> accessed s p -> False) -> visits (fun p => DESCRIPTORS s0 !! idx = Some p /\ accessed s p) s s).
  { intros Hn. eapply visits_equiv; [|apply visits_refl]. intros q. split; [done|]. intros [? ?]. by eapply Hn. }
  destruct (DESCRIPTORS s0 !! idx) as [p|] eqn:Ep; cbn [default from_option id].
  2: { rewrite null_invalid. exists s. split; [done|]. split; [by apply Hnone|]. by split; [|left]. }
  destruct (sc_table _ _ _ _ HI idx p) as [-> [d E]]; [by rewrite Ed|]. unfold get. rewrite E. cbn [mbind outcome_bind].
  destruct (accessed_in_last_epoch d) eqn:Ea.
  - assert (Hacc : accessed s p) by by exists d. destruct (clear_accessed s p d E) as [V0 A0].
    destruct (reach_visits fuel R s0 (put p (with_accessed false d) s) idx p) as (s' & E' & V & A).
    + apply scan_descriptor_spec.
    + by eapply scanning_visits.
    + cbn. by rewrite Ed.
    + done.
    + destruct (Hp p eq_refl Hacc) as [Hm|]; [left; by apply (v_marked _ _ _ V0)|by right].
    + exists s'. split; [done|]. split.
      * eapply visits_equiv; [|exact (visits_union _ _ _ _ _ V0 V)]. intros q. split; [intros [[]| <-]; done|]. intros [[= <-] _]. by right.
      * split; intros q; rewrite (A q), (A0 q); [by intros []|]. intros Hq. destruct (decide (q = p)) as [->|]; [by right|by left].
  - exists s. split; [done|]. split; [|by split; [|left]]. apply Hnone. intros q [= <-] (d' & E' & Ha). congruence.
Qed.

Lemma scan_all_accessed fuel R s0 l : forall s,
  scanning fuel R s0 s -> Forall (fun i => i < MAX_NUM_WATCHPOINTS) l ->
  (forall i p, i ∈ l -> DESCRIPTORS s0 !! i = Some p -> accessed s p -> marked s p \/ R p) ->
  exists s', for_each (scan_accessed indeterminate fuel) l s = Ret s' /\
    visits (fun p => exists i, i ∈ l /\ DESCRIPTORS s0 !! i = Some p /\ accessed s p) s s'.
Proof.
  induction l as [|i l IH]; intros s HI Hl Hp.
  - exists s. split; [done|]. eapply visits_equiv; [|apply visits_refl]. intros p. split; [done|].
    intros (i & Hi & _). by apply not_elem_of_nil in Hi.
  - apply List.Forall_cons_iff in Hl as [Hi Hl].
    destruct (scan_accessed_visits fuel R s0 s i HI Hi) as (s1 & E1 & V1 & Ab & Af); [intros p; apply Hp; left|].
    destruct (IH s1) as (s2 & E2 & V2); [by eapply scanning_visits|done| |].
    + intros j p Hj Ej Ha. destruct (Hp j p ltac:(by right) Ej (Ab p Ha)) as [Hm|]; [left; by apply (v_marked _ _ _ V1)|by right].
    + exists s2. cbn [for_each]. rewrite E1. cbn [mbind outcome_bind]. split; [done|].
      eapply visits_equiv; [|exact (visits_union _ _ _ _ _ V1 V2)]. intros p. split.
      * intros [[Ep Ha]|(j & Hj & Ej & Ha)]; [exists i; split; [left|done]|exists j; split; [by right|]; split; [done|by apply Ab]].
      * intros (j & [->|Hj]%elem_of_cons & Ej & Ha); [by left|]. destruct (Af p Ha) as [Ha1|Ep]; [right; by exists j|by left].
Qed.

(** A value from kernel memory is an address inside of the object of [p]. *)
Definition inside (s : ld_state) (v p : Z) : Prop :=
  exists d, descriptors s !! p = Some d /\ base_address d <= Z.land v 0xffffffffffff <= base_address d + size_of d.
Definition value_refers (s : ld_state) (v p : Z) : Prop :=
  DESCRIPTORS s !! counter_index_of v = Some p /\ inside s v p.

Lemma inside_same s s' v p : same_graph s s' -> inside s v p -> inside s' v p.
Proof.
  intros Hg (d & E & Hb). destruct (same_graph_lookup s s' p d Hg E) as (d' & E' & _ & Eb & Es). exists d'. by rewrite Eb, Es.
Qed.

Lemma watchpoint_callback_visits fuel R s0 s v :
  scanning fuel R s0 s -> in_width 64 v -> (forall p, value_refers s0 v p -> marked s p \/ R p) ->
  exists s', watchpoint_callback indeterminate fuel v s = Ret s' /\ visits (value_refers s0 v) s s' /\ same_accessed s s'.
Proof.
  intros HI Hw Hp. pose proof (sc_graph _ _ _ _ HI) as Hg. destruct (same_graph_table _ _ Hg) as [Ed _].
  destruct (counter_index_range v Hw) as [_ Hc]. unfold watchpoint_callback. rewrite leak_access_ret by done. cbn [mbind outcome_bind]. rewrite Ed.
  assert (Hnone : (forall p, ~ value_refers s0 v p) -> exists s', Ret s = Ret s' /\ visits (value_refers s0 v) s s' /\ same_accessed s s').
  { intros Hn. exists s. split; [done|]. split; [|done]. eapply visits_equiv; [|apply visits_refl]. intros q. split; [done|]. apply Hn. }
  destruct (DESCRIPTORS s0 !! counter_index_of v) as [p|] eqn:Ep; cbn [default from_option id].
  2: { apply Hnone. intros q [Eq _]. congruence. }
  destruct (sc_table _ _ _ _ HI (counter_index_of v) p) as [Hv [d E]]; [by rewrite Ed|].
  destruct (Z.eqb_spec p 0) as [->|_]; [by rewrite null_invalid in Hv|]. unfold get. rewrite E. cbn [mbind outcome_bind].
  destruct ((base_address d <=? Z.land v 0xffffffffffff) && (Z.land v 0xffffffffffff <=? base_address d + size_of d)) eqn:Eb.
  - assert (Hr : value_refers s0 v p).
    { split; [done|]. apply (inside_same s); [by apply same_graph_sym|]. exists d. split; [done|].
      apply andb_prop in Eb as [H1 H2]. by rewrite Z.leb_le in H1, H2. }
    destruct (reach_visits fuel R s0 s (counter_index_of v) p) as (s' & E' & V & A);
      [apply scan_descriptor_spec|done|by rewrite Ed|done|by apply Hp|].
    exists s'. split; [done|]. split; [|done]. eapply visits_equiv; [|exact V]. intros q. split; [by intros <-|]. intros [Eq _]. congruence.
  - apply Hnone. intros q [Eq Hin]. rewrite Ep in Eq. injection Eq as <-. apply (inside_same _ s) in Hin as (d' & E' & Hb); [|done].
    rewrite E in E'. injection E' as <-. apply andb_false_iff in Eb as [Eb|Eb]; apply Z.leb_gt in Eb; lia.
Qed.

Lemma report_ret s l :
  table_ok s -> Forall (fun i => i < MAX_NUM_WATCHPOINTS) l ->
  exists r, report l s = Ret r /\
    (forall i, Reachable i ∈ r <-> i ∈ l /\ exists p, DESCRIPTORS s !! i = Some p /\ marked s p) /\
    (forall i, Leaked i ∈ r <-> i ∈ l /\ exists p, DESCRIPTORS s !! i = Some p /\ active s p /\ unmarked s p).
Proof.
  intros Ht. induction l as [|i l IH]; intros Hl.
  { exists []. split; [done|]. split; intros i; rewrite elem_of_nil; (split; [done|]); by intros [?%elem_of_nil _]. }
  apply List.Forall_cons_iff in Hl as [Hi Hl]. destruct (IH Hl) as (r & E & Hr & Hk). cbn [report].
  rewrite leak_access_ret by done. cbn [mbind outcome_bind].
  destruct (DESCRIPTORS s !! i) as [p|] eqn:Ep; cbn [default from_option id].
  - destruct (Ht i p Ep) as [-> [d Ed]]. unfold get. rewrite Ed, E. cbn [mbind outcome_bind]. eexists. split; [reflexivity|].
    assert (Hj : forall j (P : Z -> Prop), (exists q, DESCRIPTORS s !! j = Some q /\ P q) -> j = i -> P p).
    { intros j P (q & Eq & HP) ->. congruence. }
    destruct (get_flag is_reachable (state d)) eqn:Em; [|destruct (get_flag is_active (state d)) eqn:Ea].
    + assert (Hm : marked s p) by by exists d. split; intros j; rewrite !elem_of_cons, ?Hr, ?Hk.
      * split; [intros [[= ->]|[? ?]]; [split; [by left|]; by exists p|split; [by right|done]]|].
        intros [[->|Hj'] Hx]; [by left|right; done].
      * split; [intros [?|[? ?]]; [done|split; [by right|done]]|]. intros [[->|Hj'] Hx]; [|by right].
        exfalso. destruct (Hj i _ Hx eq_refl) as [_ Hu]. by eapply marked_unmarked.
    + assert (Hu : unmarked s p) by by exists d. assert (Hac : active s p) by by exists d.
      split; intros j; rewrite !elem_of_cons, ?Hr, ?Hk.
      * split; [intros [?|[? ?]]; [done|split; [by right|done]]|]. intros [[->|Hj'] Hx]; [|by right].
        exfalso. pose proof (Hj i _ Hx eq_refl) as Hm. by eapply marked_unmarked.
      * split; [intros [[= ->]|[? ?]]; [split; [by left|]; by exists p|split; [by right|done]]|].
        intros [[->|Hj'] Hx]; [by left|right; done].
    + split; intros j; rewrite !elem_of_cons, ?Hr, ?Hk; (split; [intros [? ?]; split; [by right|done]|]);
        (intros [[->|Hj'] Hx]; [exfalso|done]).
      * destruct (Hj i _ Hx eq_refl) as (d' & E' & Hm). congruence.
      * destruct (Hj i _ Hx eq_refl) as ((d' & E' & Hac) & _). congruence.
  - rewrite null_invalid. exists r. split; [done|].
    split; intros j; rewrite elem_of_cons, ?Hr, ?Hk; (split; [intros [? ?]; split; [by right|done]|]);
      (intros [[->|Hj'] Hx]; [|done]); destruct Hx as (q & Eq & _); congruence.
Qed.

(** ** The scan as a whole *)

(** Where the scan starts: objects that were accessed, and objects whose
    address is in kernel memory. *)
Definition root (s : ld_state) (values : list Z) (p : Z) : Prop :=
  (exists i, i ∈ seqZ 0 MAX_NUM_WATCHPOINTS /\ DESCRIPTORS s !! i = Some p /\ accessed s p) \/
  exists v, v ∈ values /\ value_refers s v p.

Lemma found_exec e s values p : found (with_execution_state e s) (root (with_execution_state e s) values) p <-> found s (root s values) p.
Proof.
  split; induction 1 as [p HC Hu|p q _ IH Hpt Hu]; first [by apply found_start|by eapply found_step].
Qed.

Lemma visited_marked C s s' : visits C s s' -> forall p, found s C p -> marked s' p.
Proof. intros V p. induction 1 as [p HC Hu|p q Hf IH Hpt Hu]; [by eapply v_start|]. eapply (v_closed _ _ _ V); [exact IH| |exact Hpt]. by inversion Hf. Qed.

Lemma scan_loops fuel values s :
  table_ok s -> Forall (in_width 64) values -> (forall p, found s (root s values) p -> readable s p) -> (size (descriptors s) <= fuel)%nat ->
  exists s1 s2, for_each (scan_accessed indeterminate fuel) (seqZ 0 MAX_NUM_WATCHPOINTS) s = Ret s1 /\
    for_each (watchpoint_callback indeterminate fuel) values s1 = Ret s2 /\ visits (root s values) s s2.
Proof.
  intros Ht Hw Hr Hf. set (R := found s (root s values)).
  assert (Hheap : forall p, is_Some (descriptors s !! p) -> marked s p \/ unmarked s p).
  { intros p [d E]. by eapply marked_or_unmarked. }
  assert (Hroot : forall p, root s values p -> marked s p \/ R p).
  { intros p Hp. destruct (Hheap p) as [|Hu]; [|by left|right; by apply found_start].
    destruct Hp as [(i & _ & Ei & _)|(v & _ & Ei & _)]; by destruct (Ht _ _ Ei). }
  assert (HI : scanning fuel R s s).
  { split; [apply same_graph_refl|done|done| |pose proof (unmarked_count_size s); lia].
    intros p Hp. split; [by apply Hr|]. intros q Hpt. destruct (Hheap q) as [|Hu]; [|by left|right; by eapply found_step].
    destruct Hpt as (d & a & val & _ & _ & _ & _ & Eq). by destruct (Ht _ _ Eq). }
  destruct (scan_all_accessed fuel R s (seqZ 0 MAX_NUM_WATCHPOINTS) s HI) as (s1 & E1 & V1).
  { rewrite list.Forall_forall. intros i Hi. apply elem_of_seqZ in Hi. lia. }
  { intros i p Hi Ei Ha. apply Hroot. left. by exists i. }
  destruct (for_each_visits (watchpoint_callback indeterminate fuel) (value_refers s) fuel R s values s1) as (s2 & E2 & V2 & _).
  { intros v s' Hv HI'. rewrite list.Forall_forall in Hw. apply (watchpoint_callback_visits fuel R); [done|by apply Hw|].
    intros p Hp. destruct (Hroot p) as [Hm|]; [right; by exists v|left; by apply (sc_marked _ _ _ _ HI')|by right]. }
  { by eapply scanning_visits. }
  exists s1, s2. split; [done|]. split; [done|]. exact (visits_union _ _ _ _ _ V1 V2).
Qed.

(** What is reported, whatever was marked by earlier scans. *)
Lemma leak_scan_ret fuel values s :
  table_ok s -> execution_state s <> 0 -> Forall (in_width 64) values ->
  (forall p, found s (root s values) p -> readable s p) -> (size (descriptors s) <= fuel)%nat ->
  exists s' r, leak_policy_scan_callback indeterminate fuel values s = Ret (s', r) /\
    same_graph (with_execution_state 0 s) s' /\
    (forall i, Reachable i ∈ r <-> 0 <= i < MAX_NUM_WATCHPOINTS /\ exists p, DESCRIPTORS s !! i = Some p /\ (marked s p \/ found s (root s values) p)) /\
    (forall i, Leaked i ∈ r <-> 0 <= i < MAX_NUM_WATCHPOINTS /\
       exists p, DESCRIPTORS s !! i = Some p /\ active s p /\ unmarked s p /\ ~ found s (root s values) p).
Proof.
  intros Ht He Hw Hr Hf. set (s0 := with_execution_state 0 s).
  destruct (scan_loops fuel values s0) as (s1 & s2 & E1 & E2 & V); [exact Ht|done|intros p Hp; apply Hr; by apply found_exec in Hp|done|].
  pose proof (v_graph _ _ _ V) as Hg. destruct (same_graph_table _ _ Hg) as [Ed _]. cbn in Ed.
  destruct (report_ret s2 (seqZ 0 MAX_NUM_WATCHPOINTS)) as (r & Er & HR & HL).
  { by eapply table_ok_same. }
  { rewrite list.Forall_forall. intros i Hi. apply elem_of_seqZ in Hi. lia. }
  exists s2, r. unfold leak_policy_scan_callback. rewrite (proj2 (Z.eqb_neq _ _) He). fold s0. rewrite E1. cbn [mbind outcome_bind]. rewrite E2.
  cbn [mbind outcome_bind]. rewrite Er. cbn [mbind outcome_bind]. split; [done|]. split; [done|].
  assert (Hm : forall p, marked s2 p <-> marked s p \/ found s (root s values) p).
  { intros p. split.
    - intros Hp. destruct (v_sound _ _ _ V p Hp) as [|Hp']; [by left|right; by apply found_exec in Hp'].
    - intros [Hp|Hp]; [by apply (v_marked _ _ _ V)|]. eapply visited_marked; [exact V|]. by apply found_exec. }
  split; intros i; rewrite ?HR, ?HL, Ed, elem_of_seqZ, Z.add_0_l.
  - split; intros [Hi (p & Ep & Hp)]; (split; [done|]); exists p; (split; [done|]); by apply Hm.
  - split; intros [Hi (p & Ep & Hp)]; (split; [done|]); exists p; (split; [done|]).
    + destruct Hp as [Ha Hu]. split; [by apply (v_active _ _ _ V p Hu) in Ha|]. split; [exact (unmarked_back _ _ _ _ V Hu)|].
      intros Hfd. eapply marked_unmarked; [apply Hm; by right|exact Hu].
    + destruct Hp as (Ha & Hu & Hn). assert (Hu2 : unmarked s2 p).
      { destruct Hu as (d & E & Hfl). destruct (same_graph_lookup s0 s2 p d Hg E) as (d' & E' & _).
        destruct (marked_or_unmarked s2 p d' E') as [Hm2|]; [|done]. apply Hm in Hm2 as [Hm2|]; [|done].
        exfalso. eapply marked_unmarked; [exact Hm2|]. by exists d. }
      split; [|done]. by apply (v_active _ _ _ V p Hu2).
Qed.

(** ** Theorems on the scan *)

Lemma found_reachable s values p :
  table_ok s -> (forall q, ~ marked s q) ->
  found s (root s values) p <-> exists q, root s values q /\ rtc (points_to s) q p.
Proof.
  intros Ht Hn.
  assert (Hu : forall i q, DESCRIPTORS s !! i = Some q -> unmarked s q).
  { intros i q Ei. destruct (Ht i q Ei) as [_ [d E]]. destruct (marked_or_unmarked s q d E) as [Hm|]; [by apply Hn in Hm|done]. }
  split.
  - induction 1 as [p HC _|p q _ (r & Hr & Hp) Hpt _]; [by exists p|]. exists r. split; [done|]. by eapply rtc_r.
  - intros (q & Hq & Hp). assert (Hs : found s (root s values) q).
    { apply found_start; [done|]. destruct Hq as [(i & _ & Ei & _)|(v & _ & Ei & _)]; by eapply Hu. }
    clear Hq. induction Hp as [q|q r t Hqr _ IH]; [done|]. apply IH. eapply found_step; [exact Hs|done|].
    destruct Hqr as (d & a & val & _ & _ & _ & _ & Ei). by eapply Hu.
Qed.

(** C17 The first scan finds exactly the lost objects.  While no descriptor is
    marked, and the objects that can be reached are mapped together with the
    quadword behind them, a scan ends with a report in which an index is
    leaked if and only if its object is active and cannot be reached, through
    watched addresses stored in the quadwords of objects, from an object that
    was accessed in the epoch or into which, or to the end of which, a watched
    address in kernel memory points; and reachable if and only if its object can be reached.
    The quadword behind an object is taken for a part of it.  The scan changes
    nothing but the states of descriptors. *)
Theorem leak_scan_exact fuel values s :
  table_ok s -> execution_state s <> 0 -> Forall (in_width 64) values -> (forall p, ~ marked s p) ->
  (forall p q, root s values q -> rtc (points_to s) q p -> readable s p) -> (size (descriptors s) <= fuel)%nat ->
  exists s' r, leak_policy_scan_callback indeterminate fuel values s = Ret (s', r) /\ same_graph (with_execution_state 0 s) s' /\
    forall i p, 0 <= i < MAX_NUM_WATCHPOINTS -> DESCRIPTORS s !! i = Some p ->
      (Reachable i ∈ r <-> exists q, root s values q /\ rtc (points_to s) q p) /\
      (Leaked i ∈ r <-> active s p /\ ~ exists q, root s values q /\ rtc (points_to s) q p).
Proof.
  intros Ht He Hw Hn Hr Hf. destruct (leak_scan_ret fuel values s Ht He Hw) as (s' & r & E & Hg & HR & HL); [|done|].
  { intros p (q & Hq & Hp)%found_reachable; [by eapply Hr|done|done]. }
  exists s', r. split; [done|]. split; [done|]. intros i p Hi Ep. rewrite HR, HL, <- (found_reachable s values p Ht Hn). split.
  - split; [intros [_ (q & Eq & [Hm|Hq])]|intros Hp; split; [done|]; exists p; by auto].
    + by apply Hn in Hm.
    + rewrite Ep in Eq. by injection Eq as <-.
  - split; [intros [_ (q & Eq & Ha & _ & Hq)]; rewrite Ep in Eq; by injection Eq as <-|].
    intros [Ha Hp]. split; [done|]. exists p. split; [done|]. split; [done|]. split; [|done].
    destruct (Ht i p Ep) as [_ [d Ed]]. destruct (marked_or_unmarked s p d Ed) as [Hm|]; [by apply Hn in Hm|done].
Qed.

(** C39 Later scans report objects that are not lost.  Marks are not removed, and
    objects that are marked from an earlier epoch are not scanned again: an
    active object that only such objects point to, that was not accessed in
    the epoch and whose address is not in the scanned memory itself, is
    reported as leaked although it can be reached. *)
Theorem rescan_reports_reachable fuel values s holder p i :
  table_ok s -> execution_state s <> 0 -> Forall (in_width 64) values -> (size (descriptors s) <= fuel)%nat ->
  (forall p, found s (root s values) p -> readable s p) ->
  root s values holder -> points_to s holder p -> (forall q, points_to s q p -> marked s q) ->
  0 <= i < MAX_NUM_WATCHPOINTS -> DESCRIPTORS s !! i = Some p -> active s p -> unmarked s p -> ~ root s values p ->
  rtc (points_to s) holder p /\
  exists s' r, leak_policy_scan_callback indeterminate fuel values s = Ret (s', r) /\ Leaked i ∈ r.
Proof.
  intros Ht He Hw Hf Hr Hh Hpt Hall Hi Ep Ha Hu Hnr. split; [by apply rtc_once|].
  destruct (leak_scan_ret fuel values s Ht He Hw Hr Hf) as (s' & r & E & _ & _ & HL). exists s', r. split; [done|].
  apply HL. split; [done|]. exists p. split; [done|]. split; [done|]. split; [done|]. intros Hfd.
  inversion Hfd as [? HC _|q ? Hq Hqp _]; subst; [done|]. apply Hall in Hqp. by inversion Hq; subst; eapply marked_unmarked.
Qed.
End Scan.

(** ** Descriptors *)
Section Descriptors.
Context `{Config} `{WpConfig} (new_descriptor : gmap Z leak_detector_descriptor -> Z) (indeterminate : Z -> Z).
Context (Hcfg : NUM_INHERITED_INDEX_BITS = 0).
(** The allocator returns valid, unused memory for as many descriptors as
    there are indexes. *)
Context (Hnew : forall h, Z.of_nat (size h) <= MAX_COUNTER_INDEX -> is_valid_address (new_descriptor h) = true /\ h !! new_descriptor h = None).

Record ld_ok (s : ld_state) (fl : list Z) : Prop := {
  ok_next : 0 <= NEXT_COUNTER_INDEX s;
  ok_count : Z.of_nat (size (descriptors s)) <= NEXT_COUNTER_INDEX s;
  ok_valid : forall p, is_Some (descriptors s !! p) -> is_valid_address p = true;
  ok_table : forall i p, DESCRIPTORS s !! i = Some p -> 0 <= i <= MAX_COUNTER_INDEX /\ i < NEXT_COUNTER_INDEX s /\ is_Some (descriptors s !! p);
  ok_inj : forall i j p, DESCRIPTORS s !! i = Some p -> DESCRIPTORS s !! j = Some p -> i = j;
  ok_chain : chain (next_free <$> descriptors s) (free_list s) fl;
  ok_nodup : NoDup fl;
  ok_free : forall p, p ∈ fl -> exists d, descriptors s !! p = Some d /\ DESCRIPTORS s !! index d = Some p
}.

(** Descriptor [p] is in use under index [i]. *)
Definition in_use (s : ld_state) (i p : Z) : Prop :=
  DESCRIPTORS s !! i = Some p /\ exists fl, ld_ok s fl /\ (p ∉ fl).

Lemma chain_det m h l l' : chain m h l -> chain m h l' -> l = l'.
Proof.
  revert h l'. induction l as [|a l IH]; intros h [|b l']; cbn; intros H1 H2; try done.
  - destruct H2 as (E & Hb & _). congruence.
  - destruct H1 as (E & Hb & _). congruence.
  - destruct H1 as (-> & _ & n & E & Hc), H2 as (-> & _ & n' & E' & Hc'). rewrite E in E'. injection E' as <-. f_equal. by eapply IH.
Qed.

Lemma ld_ok_table_ok s fl : ld_ok s fl -> table_ok s.
Proof. intros Hok i p E. destruct (ok_table _ _ Hok i p E) as (_ & _ & Hs). split; [by apply (ok_valid _ _ Hok)|done]. Qed.

(** A descriptor [p] outside of the free list is written and entered at index
    [c]. *)
Lemma ld_ok_enter s s' fl c p d :
  ld_ok s fl -> is_valid_address p = true -> p ∉ fl -> 0 <= c <= MAX_COUNTER_INDEX ->
  c < NEXT_COUNTER_INDEX s' -> NEXT_COUNTER_INDEX s <= NEXT_COUNTER_INDEX s' ->
  Z.of_nat (size (<[p := d]> (descriptors s))) <= NEXT_COUNTER_INDEX s' ->
  (forall i, DESCRIPTORS s !! i = Some p -> i = c) -> (forall q, DESCRIPTORS s !! c = Some q -> q = p) ->
  DESCRIPTORS s' = <[c := p]> (DESCRIPTORS s) -> descriptors s' = <[p := d]> (descriptors s) -> free_list s' = free_list s ->
  ld_ok s' fl.
Proof.
  intros [Hn Hc Hv Ht Hi Hch Hnd Hfr] Hpv Hp Hcr Hcn Hnn Hsz Hcp Hpc ED Ed Ef.
  split; rewrite ?ED, ?Ed, ?Ef; [lia|done| | | | |done|].
  - intros q [x E]. destruct (decide (q = p)) as [->|Hne]; [done|]. rewrite lookup_insert_ne in E by done. apply Hv. by eexists.
  - intros i q. rewrite lookup_insert_Some. intros [[<- <-]|[Hne E]].
    + split; [done|]. split; [done|]. rewrite lookup_insert_eq. by eexists.
    + destruct (Ht i q E) as (H1 & H2 & H3). split; [done|]. split; [lia|]. destruct (decide (p = q)) as [->|Hqp].
      * rewrite lookup_insert_eq. by eexists.
      * by rewrite lookup_insert_ne.
  - intros i j q. rewrite !lookup_insert_Some. intros [[<- <-]|[Hne E]] [[<- E']|[Hne' E']]; [done|symmetry; by apply Hcp|subst; by apply Hcp|by eapply Hi].
  - eapply chain_cong; [|exact Hch]. intros a Ha. rewrite !lookup_fmap, lookup_insert_ne; [done|]. by intros ->.
  - intros q Hq. destruct (Hfr q Hq) as (x & Ex & Eq). exists x. assert (q <> p) by by intros ->.
    rewrite lookup_insert_ne by done. split; [done|]. rewrite lookup_insert_ne; [done|]. intros Hx. apply H1. apply Hpc. by rewrite Hx.
Qed.

(** The descriptor of a new object. *)
Definition fresh_descriptor (base size : Z) : leak_detector_descriptor :=
  {| accessed_in_last_epoch := false; state := set_flag was_allocated_by_app true (set_flag is_active true 0);
     num_epochs_since_last_access := 0; size_type_or_index := set_field 0 16 size 0; base_or_next := set_field 0 48 base 0 |}.

#[local] Instance leak_type : DescriptorType ld_state Z (Z * Z) := leak_descriptor_type new_descriptor indeterminate.

(** After the pointer is chosen: the descriptor is cleared, initialised and
    entered. *)
Lemma activate_ret p c base size inh s :
  0 <= c <= MAX_COUNTER_INDEX ->
  exists s', (r ← activate p c s;
    match r.2 with
    | None => Ret (r.1, None)
    | Some (desc, counter_index) =>
        ASSERT (counter_index <=? MAX_COUNTER_INDEX) ≫= fun _ =>
        match desc with
        | None => Ret (r.1, Some (None, counter_index))
        | Some d => s ← leak_init d (base, size) r.1; s ← leak_assign d (combined_index counter_index inh) s; Ret (s, Some (Some d, counter_index))
        end
    end) = Ret (s', Some (Some p, c)) /\
  NEXT_COUNTER_INDEX s' = NEXT_COUNTER_INDEX s /\ DESCRIPTORS s' = <[c := p]> (DESCRIPTORS s) /\
  descriptors s' = <[p := fresh_descriptor base size]> (descriptors s) /\ free_list s' = free_list s /\ execution_state s' <> 0 /\ memory s' = memory s.
Proof.
  intros Hc. unfold activate. rewrite (proj2 (Z.leb_le c _)) by lia. cbn [ASSERT mbind outcome_bind fst snd].
  rewrite (proj2 (Z.leb_le c _)) by lia. cbn [ASSERT mbind outcome_bind fst snd].
  set (s1 := if execution_state _ =? 0 then _ else _).
  assert (E1 : NEXT_COUNTER_INDEX s1 = NEXT_COUNTER_INDEX s /\ DESCRIPTORS s1 = DESCRIPTORS s /\
    descriptors s1 = <[p := with_state (set_flag is_active true 0) zero_descriptor]> (descriptors s) /\ free_list s1 = free_list s /\
    execution_state s1 <> 0 /\ memory s1 = memory s).
  { unfold s1. cbn [put with_descriptors execution_state]. destruct (Z.eqb_spec (execution_state s) 0); cbn; (do 4 (split; [done|])); by split. }
  destruct E1 as (En & ED & Ed & Ef & Ee & Em). unfold leak_init, get. rewrite Ed, lookup_insert_eq. cbn [mbind outcome_bind fst snd].
  unfold leak_assign, combined_index. rewrite (not_inherited Hcfg), (max_watchpoints Hcfg), (proj2 (Z.ltb_lt c _)) by lia.
  cbn [ASSERT mbind outcome_bind]. unfold get. cbn [put with_descriptors descriptors]. rewrite lookup_insert_eq. cbn [mbind outcome_bind].
  eexists. split; [reflexivity|]. cbn. rewrite En, ED, Ed, Ef, Em, !insert_insert_eq. done.
Qed.

(** A new watchpoint takes the first free descriptor with its index, or new
    memory and the next index. *)
Lemma leak_alloc_ret inh base size s fl :
  ld_ok s fl -> fl <> [] \/ NEXT_COUNTER_INDEX s <= MAX_COUNTER_INDEX ->
  exists s' fl' p c, allocate_and_init_watched_address inh (base, size) s = Ret (s', Some (Some p, c)) /\
    ld_ok s' fl' /\ 0 <= c <= MAX_COUNTER_INDEX /\ (p ∉ fl') /\ (forall q, q ∈ fl' -> q ∈ fl) /\
    (forall q, DESCRIPTORS s !! c = Some q -> q ∈ fl) /\ (descriptors s !! p = None \/ p ∈ fl) /\
    DESCRIPTORS s' = <[c := p]> (DESCRIPTORS s) /\ descriptors s' = <[p := fresh_descriptor base size]> (descriptors s) /\
    execution_state s' <> 0 /\ memory s' = memory s.
Proof.
  intros Hok Hroom. pose proof Hok as [Hn Hc Hv Ht Hi Hch Hnd Hfr].
  unfold allocate_and_init_watched_address. cbn [ALLOC_AND_INIT leak_type leak_descriptor_type allocate init assign].
  unfold leak_allocate. destruct fl as [|p fl]; cbn [chain] in Hch.
  - rewrite Hch. cbn [Z.eqb next_counter_index fst snd]. destruct Hroom as [|Hroom]; [done|].
    destruct (Z.ltb_spec MAX_COUNTER_INDEX (NEXT_COUNTER_INDEX s)) as [|_]; [lia|].
    destruct (Hnew (descriptors s)) as [Hpv Hpn]; [lia|]. set (p := new_descriptor (descriptors s)) in *.
    set (s0 := {| NEXT_COUNTER_INDEX := _ |}).
    destruct (activate_ret p (NEXT_COUNTER_INDEX s) base size inh s0) as (s' & E & En & ED & Ed & Ef & Ee & Em); [lia|].
    assert (En0 : NEXT_COUNTER_INDEX s0 = NEXT_COUNTER_INDEX s + 1) by (cbn; apply wrap_small; unfold MAX_COUNTER_INDEX in *; lia).
    assert (Hno : forall i, DESCRIPTORS s !! i = Some p -> False).
    { intros i Ei. destruct (Ht i p Ei) as (_ & _ & [x Ex]). congruence. }
    assert (Hnc : forall q, DESCRIPTORS s !! NEXT_COUNTER_INDEX s = Some q -> False).
    { intros q Eq. destruct (Ht _ _ Eq) as (_ & Hlt & _). lia. }
    exists s', [], p, (NEXT_COUNTER_INDEX s). split; [exact E|]. split.
    { eapply (ld_ok_enter s s' [] (NEXT_COUNTER_INDEX s) p); try done; [apply not_elem_of_nil|rewrite En, En0; lia|rewrite En, En0; lia| |by intros i Ei; apply Hno in Ei|by intros q Eq; apply Hnc in Eq].
      rewrite map_size_insert_None by done. rewrite En, En0. lia. }
    split; [lia|]. split; [apply not_elem_of_nil|]. split; [done|]. split; [by intros q Eq; apply Hnc in Eq|]. split; [by left|]. done.
  - destruct Hch as (Efl & Hp0 & n & En0 & Hch). rewrite Efl. destruct (Z.eqb_spec p 0) as [|_]; [done|].
    destruct (Hfr p ltac:(left)) as (d & Ed0 & Ei). unfold get. rewrite Ed0. cbn [mbind outcome_bind].
    unfold destructure_combined_index. rewrite (not_inherited Hcfg). cbn [fst]. destruct (Ht _ _ Ei) as (Hci & Hcn & _).
    destruct (activate_ret p (index d) base size inh (with_free_list (next_free d) s)) as (s' & E & En & ED & Ed & Ef & Ee & Em); [lia|].
    apply NoDup_cons in Hnd as [Hpf Hnd].
    assert (Hok1 : ld_ok (with_free_list (next_free d) s) fl).
    { split; try done; [|intros q Hq; apply Hfr; by right]. cbn. rewrite lookup_fmap, Ed0 in En0. by injection En0 as <-. }
    assert (Hpc : forall q, DESCRIPTORS s !! index d = Some q -> q = p) by (intros q Eq; congruence).
    exists s', fl, p, (index d). split; [exact E|]. split.
    { eapply (ld_ok_enter _ s' fl (index d) p _ Hok1); try done; [apply Hv; by eexists|by rewrite En|rewrite En; cbn; lia| |by intros i Ei'; apply (Hi i _ p)].
      rewrite map_size_insert_Some by by eexists. by rewrite En. }
    split; [lia|]. split; [done|]. split; [by right|]. split; [intros q Eq; rewrite (Hpc q Eq); left|]. split; [right; left|]. done.
Qed.

Lemma leak_laws_access s i p : (exists fl, ld_ok s fl) -> in_use s i p -> access i s = Ret (Some p).
Proof.
  intros _ [E (fl & Hok & _)]. destruct (ok_table _ _ Hok i p E) as (Hi & _). cbn.
  rewrite leak_access_ret by (rewrite (max_watchpoints Hcfg); lia). cbn [mbind outcome_bind]. by rewrite E.
Qed.

(** ** The leak detector implements the interface of descriptor types *)

(** Descriptor [p], with contents [d], is set aside for index [i]. *)
Definition placed (s : ld_state) (i p : Z) (d : leak_detector_descriptor) : Prop :=
  exists fl, ld_ok s fl /\ (p ∉ fl) /\ 0 <= i <= MAX_COUNTER_INDEX /\ i < NEXT_COUNTER_INDEX s /\
    (forall j, DESCRIPTORS s !! j = Some p -> j = i) /\ (forall q, DESCRIPTORS s !! i = Some q -> q = p) /\
    descriptors s !! p = Some d.

(** The contents after [allocate] and after [init]. *)
Definition active_descriptor : leak_detector_descriptor := with_state (set_flag is_active true 0) zero_descriptor.
Definition object_descriptor (args : Z * Z) : leak_detector_descriptor :=
  with_union (set_field 0 16 args.2 0) (set_field 0 48 args.1 0) active_descriptor.

Definition holds (s : ld_state) (p : Z) (args : Z * Z) : Prop :=
  descriptors s !! p = Some (fresh_descriptor args.1 args.2).

(** Writing a descriptor that is not in the free list. *)
Lemma ld_ok_write s s' fl p d :
  ld_ok s fl -> p ∉ fl -> is_valid_address p = true -> NEXT_COUNTER_INDEX s <= NEXT_COUNTER_INDEX s' ->
  Z.of_nat (size (<[p := d]> (descriptors s))) <= NEXT_COUNTER_INDEX s' ->
  DESCRIPTORS s' = DESCRIPTORS s -> descriptors s' = <[p := d]> (descriptors s) -> free_list s' = free_list s ->
  ld_ok s' fl.
Proof.
  intros [Hn Hc Hv Ht Hi Hch Hnd Hfr] Hp Hpv Hnn Hsz ED Ed Ef.
  split; rewrite ?ED, ?Ed, ?Ef; [lia|done| | |done| |done|].
  - intros q [x E]. destruct (decide (q = p)) as [->|Hne]; [done|]. rewrite lookup_insert_ne in E by done. apply Hv. by eexists.
  - intros i q E. destruct (Ht i q E) as (H1 & H2 & H3). split; [done|]. split; [lia|]. by apply lookup_insert_is_Some'; right.
  - eapply chain_cong; [|exact Hch]. intros a Ha. rewrite !lookup_fmap, lookup_insert_ne; [done|]. by intros ->.
  - intros q Hq. rewrite lookup_insert_ne; [by apply Hfr|]. by intros ->.
Qed.

(** A state in which fewer descriptors are free and only [p] is written. *)
Lemma write_keeps s s' fl fl' p d :
  ld_ok s fl -> ld_ok s' fl' -> (forall q, q ∈ fl' -> q ∈ fl) ->
  (forall i q, DESCRIPTORS s !! i = Some q -> DESCRIPTORS s' !! i = Some q) ->
  descriptors s' = <[p := d]> (descriptors s) -> keeps in_use holds s p s'.
Proof.
  intros Hok Hok' Hsub HD Ed. split.
  - intros i q [Eq (fl0 & Hok0 & Hq)]. rewrite (chain_det _ _ fl0 fl (ok_chain _ _ Hok0) (ok_chain _ _ Hok)) in Hq.
    split; [by apply HD|]. exists fl'. split; [done|]. intros Hin. by apply Hq, Hsub.
  - intros i q a _ Hne. unfold holds. rewrite Ed, lookup_insert_ne; [done|congruence].
Qed.

Lemma activate_inv p c s r :
  activate p c s = Ret r -> c <= MAX_COUNTER_INDEX /\ r.2 = Some (Some p, c) /\
  NEXT_COUNTER_INDEX r.1 = NEXT_COUNTER_INDEX s /\ DESCRIPTORS r.1 = DESCRIPTORS s /\
  descriptors r.1 = <[p := active_descriptor]> (descriptors s) /\ free_list r.1 = free_list s.
Proof.
  unfold activate. destruct (Z.leb_spec c MAX_COUNTER_INDEX); [|discriminate 1]. cbn [ASSERT mbind outcome_bind].
  intros [= <-]. cbn [fst snd]. split; [done|]. split; [done|].
  cbn [put with_descriptors execution_state]. by destruct (execution_state s =? 0).
Qed.

Lemma leak_laws_allocate inh s s' d c :
  ALLOC_AND_INIT = false -> (exists fl, ld_ok s fl) -> allocate inh s = Ret (s', Some (d, c)) ->
  0 <= c /\ exists p, d = Some p /\ unused in_use s (combined_index c inh) p /\
    placed s' (combined_index c inh) p active_descriptor /\ keeps in_use holds s p s'.
Proof.
  intros _ [fl Hok] E. unfold combined_index. rewrite (not_inherited Hcfg).
  pose proof Hok as [Hn Hc Hv Ht Hi Hch Hnd Hfr].
  assert (Hlive : forall i q, in_use s i q -> DESCRIPTORS s !! i = Some q /\ (q ∉ fl)).
  { intros i q [Eq (fl0 & Hok0 & Hq)]. by rewrite (chain_det _ _ fl0 fl (ok_chain _ _ Hok0) Hch) in Hq. }
  cbn [allocate leak_type leak_descriptor_type] in E. unfold leak_allocate in E. destruct fl as [|p fl]; cbn [chain] in Hch.
  - rewrite Hch in E. cbn [Z.eqb next_counter_index fst snd] in E.
    destruct (Z.ltb_spec MAX_COUNTER_INDEX (NEXT_COUNTER_INDEX s)) as [|Hle]; [discriminate E|].
    destruct (Hnew (descriptors s)) as [Hpv Hpn]; [lia|]. set (p := new_descriptor (descriptors s)) in *.
    destruct (activate_inv _ _ _ _ E) as (_ & [= -> ->] & En & ED & Ed & Ef). cbn [fst] in *.
    cbn [NEXT_COUNTER_INDEX DESCRIPTORS descriptors free_list] in En, ED, Ed, Ef.
    rewrite wrap_small in En by (unfold MAX_COUNTER_INDEX in *; lia).
    assert (Hok' : ld_ok s' []).
    { eapply (ld_ok_write s s' []); try done; [apply not_elem_of_nil|lia|]. rewrite map_size_insert_None by done. lia. }
    assert (Hno : forall i, DESCRIPTORS s !! i = Some p -> False).
    { intros i Ei. destruct (Ht i p Ei) as (_ & _ & [x Ex]). congruence. }
    assert (Hnc : forall q, DESCRIPTORS s !! NEXT_COUNTER_INDEX s = Some q -> False).
    { intros q Eq. destruct (Ht _ _ Eq) as (_ & Hlt & _). lia. }
    split; [lia|]. exists p. split; [done|]. split; [split|split].
    + intros q Hq. apply Hlive in Hq as [Hq _]. by apply Hnc in Hq.
    + intros j Hj. apply Hlive in Hj as [Hj _]. by apply Hno in Hj.
    + exists []. rewrite ED, Ed, En, lookup_insert_eq. split; [done|]. split; [apply not_elem_of_nil|]. split; [lia|]. split; [lia|].
      split; [intros j Ej; by apply Hno in Ej|]. split; [intros q Eq; by apply Hnc in Eq|done].
    + apply (write_keeps s s' [] [] p active_descriptor); try done. by rewrite ED.
  - destruct Hch as (Efl & Hp0 & n & En0 & Hch). rewrite Efl in E. destruct (Z.eqb_spec p 0) as [|_]; [done|].
    destruct (Hfr p ltac:(left)) as (d0 & Ed0 & Ei). unfold get in E. rewrite Ed0 in E. cbn [mbind outcome_bind] in E.
    unfold destructure_combined_index in E. rewrite (not_inherited Hcfg) in E. cbn [fst] in E. destruct (Ht _ _ Ei) as (Hci & Hcn & _).
    destruct (activate_inv _ _ _ _ E) as (_ & [= -> ->] & En & ED & Ed & Ef). cbn [fst] in *.
    apply NoDup_cons in Hnd as [Hpf Hnd].
    assert (Hok1 : ld_ok (with_free_list (next_free d0) s) fl).
    { split; try done; [|intros q Hq; apply Hfr; by right]. cbn. rewrite lookup_fmap, Ed0 in En0. by injection En0 as <-. }
    cbn [with_free_list NEXT_COUNTER_INDEX DESCRIPTORS descriptors free_list] in En, ED, Ed, Ef.
    assert (Hok' : ld_ok s' fl).
    { eapply (ld_ok_write _ s' fl p active_descriptor Hok1); try done; [apply Hv; by eexists|by rewrite En|].
      cbn. rewrite map_size_insert_Some by by eexists. by rewrite En. }
    split; [lia|]. exists p. split; [done|]. split; [split|split].
    + intros q Hq. apply Hlive in Hq as [Hq Hqf]. apply Hqf. rewrite Ei in Hq. injection Hq as <-. left.
    + intros j Hj. apply Hlive in Hj as [_ Hqf]. apply Hqf. left.
    + exists fl. rewrite ED, Ed, En, lookup_insert_eq. split; [done|]. split; [done|]. split; [lia|]. split; [lia|].
      split; [intros j Ej; by apply (Hi j _ p)|]. split; [intros q Eq; congruence|done].
    + apply (write_keeps s s' (p :: fl) fl p active_descriptor); try done; [by right|by rewrite ED].
Qed.

Lemma leak_laws_init s s' i p args :
  ALLOC_AND_INIT = false -> placed s i p active_descriptor -> init p args s = Ret s' ->
  placed s' i p (object_descriptor args) /\ keeps in_use holds s p s'.
Proof.
  intros _ (fl & Hok & Hp & Hi & Hin & Hj & Hq & Ed) E. cbn [init leak_type leak_descriptor_type] in E.
  unfold leak_init, get in E. rewrite Ed in E. cbn [mbind outcome_bind] in E. injection E as <-.
  assert (Hok' : ld_ok (put p (object_descriptor args) s) fl).
  { eapply (ld_ok_write s _ fl p (object_descriptor args)); try done; [apply (ok_valid _ _ Hok); by eexists|].
    rewrite map_size_insert_Some by by eexists. apply Hok. }
  split; [exists fl; do 6 (split; [done|]); apply lookup_insert_eq|].
  by apply (write_keeps s _ fl fl p (object_descriptor args)).
Qed.

Lemma leak_laws_assign s s' i p args :
  placed s i p (object_descriptor args) -> assign p i s = Ret s' ->
  (exists fl, ld_ok s' fl) /\ in_use s' i p /\ holds s' p args /\ keeps in_use holds s p s'.
Proof.
  intros (fl & Hok & Hp & Hi & Hin & Hj & Hq & Ed) E. cbn [assign leak_type leak_descriptor_type] in E.
  unfold leak_assign, get in E. rewrite (max_watchpoints Hcfg), (proj2 (Z.ltb_lt i _)) in E by lia.
  cbn [ASSERT mbind outcome_bind] in E. rewrite Ed in E. cbn [mbind outcome_bind] in E. injection E as <-.
  set (s' := {| NEXT_COUNTER_INDEX := _ |}).
  assert (Hok' : ld_ok s' fl).
  { eapply (ld_ok_enter s s' fl i p (fresh_descriptor args.1 args.2) Hok); try done; [apply (ok_valid _ _ Hok); by eexists|].
    rewrite map_size_insert_Some by by eexists. apply Hok. }
  split; [by exists fl|]. split; [split; [apply lookup_insert_eq|by exists fl]|]. split; [apply lookup_insert_eq|].
  apply (write_keeps s s' fl fl p (fresh_descriptor args.1 args.2)); try done.
  intros j q Ej. cbn [s' DESCRIPTORS]. rewrite lookup_insert_Some. destruct (decide (i = j)) as [->|Hne]; [left|by right].
  split; [done|]. symmetry. by apply Hq.
Qed.

#[export] Instance leak_laws : DescriptorLaws leak_type.
Proof.
  refine {| d_ok := fun s => exists fl, ld_ok s fl; live := in_use; constructed := holds;
            reserved := fun s i p => placed s i p active_descriptor;
            initialised := fun s i p args => placed s i p (object_descriptor args);
            live_access := leak_laws_access; allocate_reserves := leak_laws_allocate;
            init_initialises := leak_laws_init; assign_enters := leak_laws_assign |}.
  intros inh args s s' d c E. discriminate E.
Defined.

(** ** Release *)
Definition mapped (s : ld_state) (d : leak_detector_descriptor) : Prop :=
  forall k, 0 <= k < size_of d -> is_Some (memory s (object_address d + k)).

Lemma zero_memory_ret addr n m : (forall k, 0 <= k < n -> is_Some (m (addr + k))) ->
  zero_memory addr n m = Ret (fun a => if (addr <=? a) && (a <? addr + n) then Some 0 else m a).
Proof.
  intros Hm. unfold zero_memory. rewrite (proj2 (forallb_forall _ _)); [done|]. intros k Hk.
  apply bool_decide_eq_true, Hm. apply list_elem_of_In, elem_of_seqZ in Hk. lia.
Qed.

Lemma leak_free_ok s fl i p d :
  ld_ok s fl -> DESCRIPTORS s !! i = Some p -> p ∉ fl -> descriptors s !! p = Some d -> mapped s d ->
  exists s' d', leak_free indeterminate p i s = Ret s' /\ ld_ok s' (p :: fl) /\ DESCRIPTORS s' = DESCRIPTORS s /\
    descriptors s' = <[p := d']> (descriptors s) /\ free_list s' = p /\ get_flag was_freed (state d') = true /\ get_flag is_active (state d') = false /\
    size_type_or_index d' = i /\ base_or_next d' = free_list s /\ NEXT_COUNTER_INDEX s' = NEXT_COUNTER_INDEX s /\
    memory s' = fun a => if (object_address d <=? a) && (a <? object_address d + size_of d) then Some 0 else memory s a.
Proof.
  intros Hok Ei Hpf Ed Hm. pose proof Hok as [Hn Hc Hv Ht Hi Hch Hnd Hfr]. destruct (Ht i p Ei) as (Hir & Hin & _).
  assert (Hpv : is_valid_address p = true) by (apply Hv; by eexists).
  unfold leak_free, get. rewrite Hpv, Ed. cbn [negb mbind outcome_bind]. rewrite zero_memory_ret by done. cbn [mbind outcome_bind].
  set (d' := with_union _ _ _). eexists _, d'. split; [reflexivity|].
  assert (Eu : u32 i = i) by (apply wrap_small; unfold MAX_COUNTER_INDEX in Hir; lia).
  assert (Est : state d' = set_flag is_active false (set_flag was_freed true (indeterminate p))) by done.
  assert (Hp0 : p <> 0) by (intros ->; by rewrite null_invalid in Hpv).
  split.
  - split; cbn [with_free_list put with_descriptors with_memory NEXT_COUNTER_INDEX DESCRIPTORS descriptors free_list]; try done.
    + by rewrite map_size_insert_Some by by eexists.
    + intros q [x Hq]. apply Hv. destruct (decide (q = p)) as [->|Hne]; [by eexists|]. rewrite lookup_insert_ne in Hq by done. by eexists.
    + intros j q Ej. destruct (Ht j q Ej) as (H1 & H2 & H3). split; [done|]. split; [done|].
      destruct (decide (p = q)) as [->|Hne]; [rewrite lookup_insert_eq; by eexists|by rewrite lookup_insert_ne].
    + rewrite fmap_insert. by apply chain_push.
    + by constructor.
    + intros q [->|Hq]%elem_of_cons.
      * exists d'. rewrite lookup_insert_eq. split; [done|]. unfold index. cbn [d' with_union size_type_or_index set_state with_state]. by rewrite Eu.
      * destruct (Hfr q Hq) as (x & Ex & Eq). exists x. rewrite lookup_insert_ne by (by intros <-). done.
  - split; [done|]. split; [done|]. split; [done|]. rewrite Est. split; [by rewrite get_flag_set_other, get_flag_set_same by done|].
    split; [by rewrite get_flag_set_same by done|]. split; [exact Eu|]. by split.
Qed.

(** Freeing a watched object.  The object is cleared and its descriptor put at
    the head of the free list: the other objects keep their descriptors, the
    freed one is in use under no index any more, and the next object that is
    watched gets this descriptor under the same index. *)
Theorem leak_free_reuses s fl i p d inh base size :
  ld_ok s fl -> DESCRIPTORS s !! i = Some p -> p ∉ fl -> descriptors s !! p = Some d -> mapped s d ->
  exists s', leak_free indeterminate p i s = Ret s' /\ (exists fl', ld_ok s' fl') /\
    (forall k, 0 <= k < size_of d -> memory s' (object_address d + k) = Some 0) /\
    (forall j q, in_use s' j q <-> in_use s j q /\ q <> p) /\
    exists s'', allocate_and_init_watched_address inh (base, size) s' = Ret (s'', Some (Some p, i)) /\
      descriptors s'' !! p = Some (fresh_descriptor base size) /\ forall j q, in_use s'' j q <-> in_use s j q.
Proof.
  intros Hok Ei Hpf Ed Hm. destruct (leak_free_ok s fl i p d Hok Ei Hpf Ed Hm) as (s' & d' & E & Hok' & ED & Edd & Efl & _ & _ & Es & Eb & En & Emem).
  assert (Hdet : forall s fl fl0, ld_ok s fl -> ld_ok s fl0 -> fl0 = fl) by (intros ? ? ? H1 H2; eapply chain_det; [apply H2|apply H1]).
  assert (Huse : forall s fl j q, ld_ok s fl -> in_use s j q <-> DESCRIPTORS s !! j = Some q /\ (q ∉ fl)).
  { intros s0 fl0 j q Hok0. split; [intros [Ej (fl1 & Hok1 & Hq)]; by rewrite (Hdet _ _ _ Hok0 Hok1) in Hq|]. intros [Ej Hq]. split; [done|by exists fl0]. }
  exists s'. split; [done|]. split; [by eexists|]. split.
  { intros k Hk. rewrite Emem. by rewrite (proj2 (Z.leb_le _ _)), (proj2 (Z.ltb_lt _ _)) by lia. }
  split.
  { intros j q. rewrite (Huse s' _ j q Hok'), (Huse s _ j q Hok), ED, not_elem_of_cons. tauto. }
  destruct (ok_table _ _ Hok i p Ei) as (Hir & _).
  unfold allocate_and_init_watched_address. cbn [ALLOC_AND_INIT leak_type leak_descriptor_type allocate init assign].
  unfold leak_allocate, get. rewrite Efl. destruct (Z.eqb_spec p 0) as [->|_].
  { pose proof (ok_valid _ _ Hok 0 ltac:(by eexists)). by rewrite null_invalid in H1. }
  rewrite Edd, lookup_insert_eq. cbn [mbind outcome_bind]. unfold destructure_combined_index, index, next_free. rewrite (not_inherited Hcfg), Es, Eb. cbn [fst].
  destruct (activate_ret p i base size inh (with_free_list (free_list s) s')) as (s'' & E2 & En2 & ED2 & Ed2 & Ef2 & _); [lia|].
  exists s''. split; [exact E2|]. split; [by rewrite Ed2, lookup_insert_eq|].
  assert (Hok2 : ld_ok s'' fl).
  { cbn [with_free_list NEXT_COUNTER_INDEX DESCRIPTORS descriptors free_list] in *. rewrite ED in ED2. rewrite Edd in Ed2. rewrite insert_insert_eq in Ed2.
    rewrite En in En2. destruct (ok_table _ _ Hok i p Ei) as (_ & Hin & _).
    eapply (ld_ok_enter s s'' fl i p _ Hok); try done; [apply (ok_valid _ _ Hok); by eexists|by rewrite En2|rewrite En2; lia| |by intros j Ej; apply (ok_inj _ _ Hok j i p)|by intros q Eq; congruence].
    rewrite map_size_insert_Some by by eexists. rewrite En2. apply Hok. }
  intros j q. rewrite (Huse s'' _ j q Hok2), (Huse s _ j q Hok), ED2. cbn [with_free_list DESCRIPTORS]. by rewrite ED, insert_id.
Qed.

(** Scanning a freed object.  The entry of a freed object stays in the table,
    and the scan takes the link of the free list for the address of an object:
    when a watched address of an object is found that was freed while the
    free list was empty, address 0xffff000000000000 is read. *)
Theorem scan_freed_faults s fl i p d s' fuel :
  ld_ok s fl -> DESCRIPTORS s !! i = Some p -> p ∉ fl -> descriptors s !! p = Some d -> mapped s d -> free_list s = 0 ->
  leak_free indeterminate p i s = Ret s' -> memory s' BASE_ADDRESS_MASK = None ->
  scan_descriptor indeterminate (S fuel) i s' = Fault.
Proof.
  intros Hok Ei Hpf Ed Hm Hf E Hmem. destruct (leak_free_ok s fl i p d Hok Ei Hpf Ed Hm) as (s1 & d' & E1 & Hok' & ED & Edd & _ & _ & _ & Es & Eb & _).
  rewrite E in E1. injection E1 as <-. destruct (ok_table _ _ Hok i p Ei) as (Hir & _). cbn [scan_descriptor].
  rewrite leak_access_ret by (rewrite (max_watchpoints Hcfg); lia). cbn [mbind outcome_bind]. rewrite ED, Ei. cbn [default from_option id].
  rewrite (ok_valid _ _ Hok p) by by eexists. unfold get. rewrite Edd, lookup_insert_eq. cbn [mbind outcome_bind].
  assert (Ea : object_address d' = BASE_ADDRESS_MASK) by (unfold object_address, base_address; by rewrite Eb, Hf).
  assert (Hsz : 0 <= size_of d' / 8) by (apply Z.div_pos; [apply get_field_range|]; lia).
  unfold words. rewrite Ea, seqZ_cons by lia. cbn [fmap list_fmap for_each]. unfold scan_word, load_word. cbn [load].
  change (u64 (BASE_ADDRESS_MASK + 8 * 0)) with BASE_ADDRESS_MASK. by rewrite Hmem.
Qed.
End Descriptors.

(** ** Witnesses *)
#[local] Existing Instance kernel_config.
#[local] Existing Instance wp_default.

(** Three objects [0], [1], [2]; the first one holds the address of the second
    one. *)
Definition object_at (i : Z) : Z := 0xffff888000001000 + 0x1000 * i.
Definition descriptor_at (i : Z) : Z := 0xffffc00000000000 + 16 * i.

Definition some_memory (a : Z) : option Z :=
  if (object_at 0 <=? a) && (a <? object_at 4) then
    Some (if a <? object_at 0 + 8 then get_field (8 * (a - object_at 0)) 8 (tag_address (object_at 1) 1) else 0)
  else None.

(** [first] and [second]: what the first two descriptors hold besides the
    place of the object. *)
Definition some_descriptor (i st : Z) (acc : bool) : leak_detector_descriptor :=
  with_accessed acc (with_state st (fresh_descriptor (object_at i) 8)).

Definition three_objects (st0 st1 : Z) : ld_state :=
  {| NEXT_COUNTER_INDEX := 3;
     DESCRIPTORS := <[0 := descriptor_at 0]> (<[1 := descriptor_at 1]> (<[2 := descriptor_at 2]> ∅));
     descriptors := <[descriptor_at 0 := some_descriptor 0 st0 true]> (<[descriptor_at 1 := some_descriptor 1 st1 false]>
                    (<[descriptor_at 2 := some_descriptor 2 0x60 false]> ∅));
     free_list := 0; execution_state := 1; memory := some_memory |}.

Lemma three_descriptors st0 st1 p d :
  descriptors (three_objects st0 st1) !! p = Some d ->
  (p = descriptor_at 0 /\ d = some_descriptor 0 st0 true) \/ (p = descriptor_at 1 /\ d = some_descriptor 1 st1 false) \/
  (p = descriptor_at 2 /\ d = some_descriptor 2 0x60 false).
Proof.
  cbn [descriptors three_objects]. rewrite !lookup_insert_Some, lookup_empty. intros [[<- <-]|[_ [[<- <-]|[_ [[<- <-]|[_ [=]]]]]]]; auto.
Defined.

Lemma three_table st0 st1 i p : DESCRIPTORS (three_objects st0 st1) !! i = Some p -> 0 <= i <= 2 /\ p = descriptor_at i.
Proof.
  cbn [DESCRIPTORS three_objects]. rewrite !lookup_insert_Some, lookup_empty.
  intros [[<- <-]|[_ [[<- <-]|[_ [[<- <-]|[_ [=]]]]]]]; (split; [lia|done]).
Defined.

Lemma three_table_ok st0 st1 : table_ok (three_objects st0 st1).
Proof.
  intros i p [Hi ->]%three_table. assert (i = 0 \/ i = 1 \/ i = 2) as [->|[->| ->]] by lia; (split; [reflexivity|by eexists]).
Defined.

Lemma some_words i st acc a : 0 <= i <= 2 -> word_of (some_descriptor i st acc) a -> a = object_at i \/ a = object_at i + 8.
Proof.
  intros Hi Ha%elem_of_words. assert (E : words (some_descriptor i st acc) = [object_at i; object_at i + 8]).
  { assert (i = 0 \/ i = 1 \/ i = 2) as [->|[->| ->]] by lia; vm_compute; reflexivity. }
  rewrite E, !elem_of_cons, elem_of_nil in Ha. destruct Ha as [->|[->|[]]]; auto.
Defined.

Lemma three_readable st0 st1 p : is_Some (descriptors (three_objects st0 st1) !! p) -> readable (three_objects st0 st1) p.
Proof.
  intros [d E]. exists d. split; [done|]. intros a Ha. apply three_descriptors in E as [[-> ->]|[[-> ->]|[-> ->]]];
    (apply some_words in Ha as [->| ->]; [| |lia]);
    (eexists; split; [vm_compute; reflexivity|split; vm_compute; congruence]).
Defined.

Lemma three_points_to st0 st1 p q : points_to (three_objects st0 st1) p q -> p = descriptor_at 0 /\ q = descriptor_at 1.
Proof.
  intros (d & a & val & E & Ha & El & Hw & Eq). apply three_descriptors in E as [[-> ->]|[[-> ->]|[-> ->]]];
    (apply some_words in Ha as [->| ->]; [| |lia]);
    vm_compute in El; injection El as <-; vm_compute in Hw; try discriminate Hw.
  split; [done|]. vm_compute in Eq. by injection Eq as <-.
Defined.

Lemma three_root st0 st1 p : root (three_objects st0 st1) [] p -> p = descriptor_at 0.
Proof.
  intros [(i & _ & Ei & d & E & Ha)|(v & Hv & _)]; [|by apply not_elem_of_nil in Hv].
  apply three_descriptors in E as [[-> ->]|[[-> ->]|[-> ->]]]; done.
Defined.

Lemma three_rtc st0 st1 p : rtc (points_to (three_objects st0 st1)) (descriptor_at 0) p -> p = descriptor_at 0 \/ p = descriptor_at 1.
Proof.
  intros Hp. apply rtc_inv_r in Hp as [<-|(q & _ & Hq)]; [by left|right]. by apply three_points_to in Hq as [_ ->].
Defined.

Lemma three_has_root st0 st1 : root (three_objects st0 st1) [] (descriptor_at 0).
Proof. left. exists 0. split; [apply elem_of_seqZ; change MAX_NUM_WATCHPOINTS with 32768; lia|]. split; [reflexivity|]. by eexists. Defined.

Lemma three_edge st0 st1 : points_to (three_objects st0 st1) (descriptor_at 0) (descriptor_at 1).
Proof.
  exists (some_descriptor 0 st0 true), (object_at 0), (tag_address (object_at 1) 1). split; [reflexivity|].
  split; [|split; [vm_compute; reflexivity|split; vm_compute; reflexivity]].
  exists 0. split; [change (size_of (some_descriptor 0 st0 true)) with 8; lia|]. split; [reflexivity|vm_compute; reflexivity].
Defined.

Lemma some_index i : 0 <= i <= 2 -> 0 <= i < MAX_NUM_WATCHPOINTS.
Proof. change MAX_NUM_WATCHPOINTS with 32768. lia. Defined.

Lemma leak_scan_exact_witness :
  exists s' r, leak_policy_scan_callback (fun _ => 0) 3 [] (three_objects 0x60 0x60) = Ret (s', r) /\
    (Reachable 1 ∈ r) /\ (Leaked 2 ∈ r) /\ ~ (Leaked 1 ∈ r).
Proof.
  destruct (leak_scan_exact (fun _ => 0) 3 [] (three_objects 0x60 0x60)) as (s' & r & E & _ & Hr).
  - apply three_table_ok.
  - discriminate.
  - constructor.
  - intros p (d & Ed & Hm). apply three_descriptors in Ed as [[-> ->]|[[-> ->]|[-> ->]]]; discriminate Hm.
  - intros p q ->%three_root Hp. apply three_readable. apply three_rtc in Hp as [->| ->]; by eexists.
  - vm_compute. lia.
  - exists s', r. split; [exact E|].
    assert (H1 : exists q, root (three_objects 0x60 0x60) [] q /\ rtc (points_to (three_objects 0x60 0x60)) q (descriptor_at 1)).
    { exists (descriptor_at 0). split; [apply three_has_root|apply rtc_once, three_edge]. }
    destruct (Hr 1 (descriptor_at 1) (some_index 1 ltac:(lia)) eq_refl) as [Hr1 Hl1].
    destruct (Hr 2 (descriptor_at 2) (some_index 2 ltac:(lia)) eq_refl) as [_ Hl2].
    split; [exact (proj2 Hr1 H1)|]. split.
    + apply Hl2. split; [exists (some_descriptor 2 0x60 false); split; reflexivity|].
      intros (q & ->%three_root & [Hp|Hp]%three_rtc); discriminate Hp.
    + intros Hl. exact (proj2 (proj1 Hl1 Hl) H1).
Defined.

Lemma rescan_reports_reachable_witness :
  rtc (points_to (three_objects 0xe0 0x60)) (descriptor_at 0) (descriptor_at 1) /\
  exists s' r, leak_policy_scan_callback (fun _ => 0) 3 [] (three_objects 0xe0 0x60) = Ret (s', r) /\ (Leaked 1 ∈ r).
Proof.
  apply (rescan_reports_reachable (fun _ => 0) 3 [] (three_objects 0xe0 0x60) (descriptor_at 0) (descriptor_at 1) 1).
  - apply three_table_ok.
  - done.
  - constructor.
  - vm_compute. lia.
  - intros p Hp. apply three_readable. inversion Hp as [? _ (d & E & _)|? ? _ _ (d & E & _)]; by eexists.
  - apply three_has_root.
  - apply three_edge.
  - intros q [-> _]%three_points_to. exists (some_descriptor 0 0xe0 true). split; reflexivity.
  - by apply some_index.
  - reflexivity.
  - exists (some_descriptor 1 0x60 false). split; reflexivity.
  - exists (some_descriptor 1 0x60 false). split; reflexivity.
  - intros Hr%three_root. discriminate Hr.
Defined.

(** An allocator: the first unused one of 32768 places. *)
Definition first_unused (h : gmap Z leak_detector_descriptor) : Z :=
  default 0 (snd <$> list_find (fun a => h !! a = None) (descriptor_at <$> seqZ 0 32768)).

Lemma descriptor_at_valid k : 0 <= k < 32768 -> is_valid_address (descriptor_at k) = true.
Proof.
  intros Hk. unfold is_valid_address, descriptor_at. cbn [env_kernel kernel_config]. rewrite Z.shiftr_div_pow2 by lia.
  replace ((0xffffc00000000000 + 16 * k) / 2 ^ 47) with 131071; [done|].
  apply Z.div_unique with (0x400000000000 + 16 * k); lia.
Defined.

Lemma first_unused_ok h : Z.of_nat (size h) <= MAX_COUNTER_INDEX -> is_valid_address (first_unused h) = true /\ h !! first_unused h = None.
Proof.
  intros Hs. unfold first_unused. destruct (list_find _ _) as [[n a]|] eqn:E.
  - apply list_find_Some in E as (Ea & Hn & _). cbn. split; [|done]. apply list_elem_of_lookup_2 in Ea.
    apply list_elem_of_fmap in Ea as (k & -> & Hk%elem_of_seqZ). apply descriptor_at_valid. lia.
  - exfalso. apply list_find_None in E.
    assert (Hsub : list_to_set (C := gset Z) (descriptor_at <$> seqZ 0 32768) ⊆ dom h).
    { intros a Ha. apply elem_of_list_to_set in Ha. rewrite list.Forall_forall in E. apply elem_of_dom.
      destruct (h !! a) eqn:Eh; [by eexists|]. by apply E in Ha. }
    apply subseteq_size in Hsub. rewrite size_dom, size_list_to_set in Hsub.
    + rewrite length_fmap, length_seqZ in Hsub. unfold MAX_COUNTER_INDEX in Hs. lia.
    + apply NoDup_fmap_2; [|apply NoDup_seqZ]. intros x y. unfold descriptor_at. lia.
Defined.

Lemma three_ok st0 st1 : ld_ok (three_objects st0 st1) [].
Proof.
  split; [done|vm_compute; discriminate| | | |done|constructor|].
  - intros p [d E]. apply three_descriptors in E as [[-> _]|[[-> _]|[-> _]]]; reflexivity.
  - intros i p [Hi ->]%three_table. unfold MAX_COUNTER_INDEX. cbn [NEXT_COUNTER_INDEX three_objects]. split; [lia|]. split; [lia|].
    assert (i = 0 \/ i = 1 \/ i = 2) as [->|[->| ->]] by lia; by eexists.
  - intros i j p [_ ->]%three_table [_ E]%three_table. unfold descriptor_at in E. lia.
  - intros p Hp. by apply not_elem_of_nil in Hp.
Defined.

Lemma three_mapped : mapped (three_objects 0x60 0x60) (some_descriptor 1 0x60 false).
Proof.
  intros k Hk. change (size_of _) with 8 in Hk. change (object_address (some_descriptor 1 0x60 false)) with (object_at 1).
  cbn [memory three_objects]. unfold some_memory. rewrite (proj2 (Z.leb_le _ _)), (proj2 (Z.ltb_lt _ _)) by (unfold object_at; lia). by eexists.
Defined.

Lemma leak_free_reuses_witness :
  exists s', leak_free (fun _ => 0) (descriptor_at 1) 1 (three_objects 0x60 0x60) = Ret s' /\
    exists s'', allocate_and_init_watched_address (H1 := leak_descriptor_type first_unused (fun _ => 0)) 0 (object_at 3, 16) s' =
      Ret (s'', Some (Some (descriptor_at 1), 1)).
Proof.
  destruct (leak_free_reuses (H := kernel_config) (H0 := wp_default) first_unused (fun _ => 0) eq_refl (three_objects 0x60 0x60) [] 1 (descriptor_at 1)
    (some_descriptor 1 0x60 false) 0 (object_at 3) 16 (three_ok _ _) eq_refl (not_elem_of_nil _) eq_refl three_mapped) as (s' & E & _ & _ & _ & s'' & E2 & _).
  exists s'. split; [exact E|]. exists s''. exact E2.
Defined.

Lemma scan_freed_faults_witness :
  exists s', leak_free (fun _ => 0) (descriptor_at 1) 1 (three_objects 0x60 0x60) = Ret s' /\
    scan_descriptor (fun _ => 0) 3 1 s' = Fault.
Proof.
  destruct (leak_free_ok (H := kernel_config) (fun _ => 0) (three_objects 0x60 0x60) [] 1 (descriptor_at 1) (some_descriptor 1 0x60 false)
    (three_ok _ _) eq_refl (not_elem_of_nil _) eq_refl three_mapped) as (s' & d' & E & _ & _ & _ & _ & _ & _ & _ & _ & _ & Em).
  exists s'. split; [exact E|].
  apply (scan_freed_faults (H := kernel_config) (H0 := wp_default) (fun _ => 0) eq_refl (three_objects 0x60 0x60) [] 1 (descriptor_at 1) (some_descriptor 1 0x60 false) s' 2
    (three_ok _ _) eq_refl (not_elem_of_nil _) eq_refl three_mapped eq_refl E). rewrite Em. vm_compute. reflexivity.
Defined.

(** The interface with this allocator. *)
Definition leak_laws_default : DescriptorLaws (H := kernel_config) (H0 := wp_default) (leak_type first_unused (fun _ => 0)) :=
  leak_laws first_unused (fun _ => 0) eq_refl first_unused_ok.
