(* ===== verification/PageWalk.v ===== *)
(** * The page table walk of the leak detector:
    [clients/watchpoints/clients/leak_detector/kernel/leakpolicy_scan.c]

    To find watched addresses in kernel memory, the leak detector walks the
    page table of the kernel, joins neighbouring pages with equal attributes
    into ranges, and passes the words of writable and not executable ranges
    that look like heap addresses to a callback.  An entry of a table is data:
    it is absent, it maps a page with attributes, or it leads to the next
    table.  The theorems say which pages are scanned, and which are not. *)

From Stdlib Require Import ZArith Lia Bool.
From stdpp Require Import base numbers list list_numbers option sorting.
From S2P Require Import Prelude.

(** ** Page tables *)

(** [pte_none] or not [pte_present]: [None]; otherwise [pte_pgprot]. *)
Definition pte := option Z.

(** An entry of a higher level: absent, a large page, or a table. *)
Inductive entry (T : Type) := E_none | E_large (prot : Z) | E_table (t : list T).
Arguments E_none {T}.
Arguments E_large {T} prot.
Arguments E_table {T} t.

Definition pmd := entry pte.
Definition pud := entry pmd.
Definition pgd := entry pud.

Definition PAGE_SIZE : Z := 4096.
Definition PTRS_PER_TABLE : Z := 512.
Definition PTE_LEVEL_MULT : Z := PAGE_SIZE.
Definition PMD_LEVEL_MULT : Z := PTRS_PER_TABLE * PTE_LEVEL_MULT.
Definition PUD_LEVEL_MULT : Z := PTRS_PER_TABLE * PMD_LEVEL_MULT.
Definition PGD_LEVEL_MULT : Z := PTRS_PER_TABLE * PUD_LEVEL_MULT.

(** [(signed long)(u << 16) >> 16]. *)
Definition normalize_addr (u : Z) : Z :=
  let v := u64 (Z.shiftl u 16) in
  u64 (Z.shiftr (if v <? 2 ^ 63 then v else v - 2 ^ 64) 16).

(** Attributes. *)
Definition _PAGE_RW : Z := 2.
Definition _PAGE_NX : Z := Z.shiftl 1 63.

Record pg_state := {
  level : Z;
  current_prot : Z;
  start_address : Z;
  current_address : Z;
  marker : nat
}.

Definition with_current (a : Z) (st : pg_state) : pg_state :=
  {| level := level st; current_prot := current_prot st; start_address := start_address st; current_address := a; marker := marker st |}.

Section Walk.
(** Constants of the kernel: [PTE_FLAGS_MASK], and the start addresses of
    [address_markers], which end with [-1]. *)
Context (PTE_FLAGS_MASK : Z) (address_markers : list Z).

Definition prot_bits (prot : Z) : Z := Z.land prot PTE_FLAGS_MASK.
Definition is_scanned (prot : Z) : bool := negb (Z.land (prot_bits prot) _PAGE_RW =? 0) && negb (Z.land (prot_bits prot) _PAGE_NX =? 0).

(** [note_page]: the new state and the range that is scanned, if any. *)
Definition note_page (new_prot new_level : Z) (st : pg_state) : outcome (pg_state * list (Z * Z)) :=
  let prot := prot_bits new_prot in
  let cur := prot_bits (current_prot st) in
  if level st =? 0 then
    Ret ({| level := new_level; current_prot := new_prot; start_address := start_address st; current_address := current_address st; marker := 0 |}, [])
  else
    m ← idx address_markers (S (marker st));
    if negb (prot =? cur) || negb (new_level =? level st) || (m <=? current_address st) then
      Ret ({| level := new_level; current_prot := new_prot; start_address := current_address st; current_address := current_address st;
              marker := if m <=? current_address st then S (marker st) else marker st |},
           if is_scanned (current_prot st) then [(start_address st, current_address st)] else [])
    else Ret (st, []).

(** The address of an entry is noted only if the entry is present. *)
Definition note_present (addr prot new_level : Z) (st : pg_state) : outcome (pg_state * list (Z * Z)) :=
  note_page prot new_level (with_current (normalize_addr addr) st).

(** The loop over the entries of a table: [body P] is run on each entry. *)
Fixpoint walk_table {T} (body : T -> Z -> pg_state -> outcome (pg_state * list (Z * Z))) (mult : Z) (t : list T) (P : Z) (st : pg_state)
    : outcome (pg_state * list (Z * Z)) :=
  match t with
  | [] => Ret (st, [])
  | e :: t =>
      r ← body e P st;
      r' ← walk_table body mult t (P + mult) r.1;
      Ret (r'.1, r.2 ++ r'.2)
  end.

Definition note_pte (e : pte) (P : Z) (st : pg_state) : outcome (pg_state * list (Z * Z)) :=
  match e with
  | Some prot => note_present P prot 4 st
  | None => note_page 0 4 st
  end.
Definition walk_pte_level (t : list pte) (P : Z) := walk_table note_pte PTE_LEVEL_MULT t P.

(** The bodies of the loops of the three higher levels.  The address is noted
    before a table is entered. *)
Definition note_entry {T} (walk : list T -> Z -> pg_state -> outcome (pg_state * list (Z * Z))) (lvl : Z) (e : entry T) (P : Z) (st : pg_state)
    : outcome (pg_state * list (Z * Z)) :=
  match e with
  | E_none => note_page 0 lvl st
  | E_large prot => note_present P prot lvl st
  | E_table t => walk t P (with_current (normalize_addr P) st)
  end.
Definition walk_pmd_level (t : list pmd) (P : Z) := walk_table (note_entry walk_pte_level 3) PMD_LEVEL_MULT t P.
Definition walk_pud_level (t : list pud) (P : Z) := walk_table (note_entry walk_pmd_level 2) PUD_LEVEL_MULT t P.

Definition initial_state : pg_state :=
  {| level := 0; current_prot := 0; start_address := 0; current_address := 0; marker := 0 |}.

(** [walk_pgd_level]: the ranges that are scanned. *)
Definition walk_pgd_level (t : list pgd) : outcome (list (Z * Z)) :=
  r ← walk_table (note_entry walk_pud_level 1) PGD_LEVEL_MULT t 0 initial_state;
  r' ← note_page 0 0 (with_current (normalize_addr (PTRS_PER_TABLE * PGD_LEVEL_MULT)) r.1);
  Ret (r.2 ++ r'.2).

(** ** Scanning *)
Context (virt_addr_valid : Z -> bool) (word : Z -> Z).

Definition HEAP_BASE : Z := 0x880000000000.
Definition is_watched_address (ptr : Z) : bool := HEAP_BASE <? Z.land ptr 0xFFFFFFFFFFFF.

(** [scan_kernel_memory]: the values that are passed to the callback; the end
    of the range is included. *)
Definition scan_kernel_memory (range : Z * Z) : list Z :=
  if range.1 <=? range.2 then
    a ← seqZ 0 ((range.2 - range.1) / 8 + 1);
    let ptr := range.1 + 8 * a in
    if virt_addr_valid ptr && is_watched_address (word ptr) then [word ptr] else []
  else [].

(** [kernel_pagetable_walk]. *)
Definition kernel_pagetable_walk (t : list pgd) : outcome (list Z) :=
  ranges ← walk_pgd_level t; Ret (ranges ≫= scan_kernel_memory).
End Walk.

(** ** The walk as a sequence of events

    An event sets the current address, if it has an address, and then notes
    attributes and a level, if it has them. *)
Definition event : Type := option Z * option (Z * Z).

Definition pte_events (e : pte) (P : Z) : list event :=
  match e with Some prot => [(Some P, Some (prot, 4))] | None => [(None, Some (0, 4))] end.

Fixpoint table_events {T} (f : T -> Z -> list event) (mult : Z) (t : list T) (P : Z) : list event :=
  match t with [] => [] | e :: t => f e P ++ table_events f mult t (P + mult) end.

Definition entry_events {T} (f : T -> Z -> list event) (mult lvl : Z) (e : entry T) (P : Z) : list event :=
  match e with
  | E_none => [(None, Some (0, lvl))]
  | E_large prot => [(Some P, Some (prot, lvl))]
  | E_table t => (Some P, None) :: table_events f mult t P
  end.

Definition pmd_events := entry_events pte_events PTE_LEVEL_MULT 3.
Definition pud_events := entry_events pmd_events PMD_LEVEL_MULT 2.
Definition pgd_events := entry_events pud_events PUD_LEVEL_MULT 1.
Definition walk_events (t : list pgd) : list event := table_events pgd_events PGD_LEVEL_MULT t 0.

(** Tables have at most 512 entries. *)
Definition wf_entry {T} (wf : T -> Prop) (e : entry T) : Prop :=
  match e with E_table t => (length t <= 512)%nat /\ Forall wf t | _ => True end.
Definition wf_pmd : pmd -> Prop := wf_entry (fun _ => True).
Definition wf_pud : pud -> Prop := wf_entry wf_pmd.
Definition wf_pgd : pgd -> Prop := wf_entry wf_pud.
Definition wf_tables (t : list pgd) : Prop := (length t <= 512)%nat /\ Forall wf_pgd t.

(** *** Addresses are visited in increasing order *)

(** The events of a subtree at [P] of size [S]. *)
Definition event_ok (P S : Z) (e : event) : Prop :=
  (forall a, e.1 = Some a -> P <= a < P + S /\ a mod PAGE_SIZE = 0) /\
  (forall n, e.2 = Some n -> 1 <= n.2 <= 4 /\ (e.1 = None -> n.1 = 0)).

(** A later address is larger; it may be the same only behind a table. *)
Definition before (e1 e2 : event) : Prop :=
  forall a b, e1.1 = Some a -> e2.1 = Some b -> a <= b /\ (is_Some e1.2 -> a < b).

Definition events_ok (P S : Z) (l : list event) : Prop := Forall (event_ok P S) l /\ StronglySorted before l.

Lemma event_ok_weaken P S P' S' e : P' <= P -> P + S <= P' + S' -> event_ok P S e -> event_ok P' S' e.
Proof. intros H1 H2 [Ha Hn]. split; [|done]. intros a E. destruct (Ha a E). split; [lia|done]. Qed.

Lemma sorted_app l1 l2 : StronglySorted before l1 -> StronglySorted before l2 -> (forall x y, x ∈ l1 -> y ∈ l2 -> before x y) ->
  StronglySorted before (l1 ++ l2).
Proof.
  intros H1 H2 Hb. induction H1 as [|x l1 H1 IH Hx]; [done|]. cbn. constructor.
  - apply IH. intros y z Hy. apply Hb. by right.
  - apply Forall_app. split; [done|]. rewrite list.Forall_forall. intros y. apply Hb. left.
Qed.

Lemma table_events_ok {T} (f : T -> Z -> list event) (wf : T -> Prop) mult t : forall P,
  0 < mult -> P mod PAGE_SIZE = 0 -> mult mod PAGE_SIZE = 0 -> Forall wf t ->
  (forall e P, P mod PAGE_SIZE = 0 -> wf e -> events_ok P mult (f e P)) ->
  events_ok P (Z.of_nat (length t) * mult) (table_events f mult t P).
Proof.
  induction t as [|e t IH]; intros P Hm HP Hmm Hwf Hf; [split; constructor|]. apply List.Forall_cons_iff in Hwf as [He Hwf].
  destruct (Hf e P HP He) as [Ha Hs]. destruct (IH (P + mult)) as [Ha' Hs']; [done| |done|done|done|].
  { rewrite Z.add_mod, HP, Hmm by done. done. }
  cbn [table_events length]. rewrite Nat2Z.inj_succ. split.
  - apply Forall_app. split; eapply Forall_impl; [exact Ha| |exact Ha'|]; intros x; apply event_ok_weaken; nia.
  - apply sorted_app; [done|done|]. rewrite list.Forall_forall in Ha, Ha'. intros x y Hx Hy a b Ea Eb.
    destruct (proj1 (Ha x Hx) a Ea), (proj1 (Ha' y Hy) b Eb). split; [lia|]. lia.
Qed.

Lemma entry_events_ok {T} (f : T -> Z -> list event) (wf : T -> Prop) mult lvl e P :
  0 < mult -> P mod PAGE_SIZE = 0 -> mult mod PAGE_SIZE = 0 -> 1 <= lvl <= 4 -> wf_entry wf e ->
  (forall e P, P mod PAGE_SIZE = 0 -> wf e -> events_ok P mult (f e P)) ->
  events_ok P (512 * mult) (entry_events f mult lvl e P).
Proof.
  intros Hm HP Hmm Hl Hwf Hf. destruct e as [|prot|t]; cbn [entry_events].
  1,2: split; [constructor; [|constructor]|repeat constructor].
  - split; [discriminate|]. intros n [= <-]. split; [done|done].
  - split; [intros a [= <-]; split; [lia|done]|]. intros n [= <-]. split; [done|discriminate].
  - destruct Hwf as [Hlen Hwf]. destruct (table_events_ok f wf mult t P Hm HP Hmm Hwf Hf) as [Ha Hs]. split; constructor.
    + split; [intros a [= <-]; split; [lia|done]|discriminate].
    + eapply Forall_impl; [exact Ha|]. intros x. apply event_ok_weaken; nia.
    + done.
    + eapply Forall_impl; [exact Ha|]. intros x [Hx _] a b [= <-] Eb. destruct (Hx b Eb). split; [lia|]. by intros [? [=]].
Qed.

Lemma walk_events_ok t : wf_tables t -> events_ok 0 (2 ^ 48) (walk_events t).
Proof.
  intros [Hlen Hwf].
  assert (H1 : forall e P, P mod PAGE_SIZE = 0 -> True -> events_ok P PTE_LEVEL_MULT (pte_events e P)).
  { intros e P HP _. destruct e as [prot|]; cbn; (split; [constructor; [|constructor]|repeat constructor]).
    - split; [intros a [= <-]; split; [unfold PTE_LEVEL_MULT, PAGE_SIZE; lia|done]|]. intros n [= <-]. split; [done|discriminate].
    - split; [discriminate|]. by intros n [= <-]. }
  assert (H2 : forall e P, P mod PAGE_SIZE = 0 -> wf_pmd e -> events_ok P PMD_LEVEL_MULT (pmd_events e P)).
  { intros e P HP He. by apply (entry_events_ok pte_events (fun _ => True)). }
  assert (H3 : forall e P, P mod PAGE_SIZE = 0 -> wf_pud e -> events_ok P PUD_LEVEL_MULT (pud_events e P)).
  { intros e P HP He. by apply (entry_events_ok pmd_events wf_pmd). }
  assert (H4 : forall e P, P mod PAGE_SIZE = 0 -> wf_pgd e -> events_ok P PGD_LEVEL_MULT (pgd_events e P)).
  { intros e P HP He. by apply (entry_events_ok pud_events wf_pud). }
  destruct (table_events_ok pgd_events wf_pgd PGD_LEVEL_MULT t 0) as [Ha Hs]; try done. split; [|done].
  eapply Forall_impl; [exact Ha|]. intros x. apply event_ok_weaken; [lia|].
  change PGD_LEVEL_MULT with 549755813888. change (2 ^ 48) with 281474976710656. apply Nat2Z.inj_le in Hlen. unfold pgd, pud, pmd, pte in *. lia.
Qed.

(** *** Normalised addresses *)
Lemma normalize_addr_eq u : 0 <= u < 2 ^ 48 -> normalize_addr u = if u <? 2 ^ 47 then u else u + (2 ^ 64 - 2 ^ 48).
Proof.
  intros Hu. unfold normalize_addr. rewrite Z.shiftl_mul_pow2 by lia. rewrite (wrap_small 64 (u * 2 ^ 16)) by lia.
  destruct (Z.ltb_spec u (2 ^ 47)), (Z.ltb_spec (u * 2 ^ 16) (2 ^ 63)); try lia; rewrite Z.shiftr_div_pow2 by lia.
  - rewrite Z.div_mul by lia. apply wrap_small. lia.
  - replace (u * 2 ^ 16 - 2 ^ 64) with ((u - 2 ^ 48) * 2 ^ 16) by lia. rewrite Z.div_mul by lia.
    unfold wrap. replace (u - 2 ^ 48) with (u + (2 ^ 64 - 2 ^ 48) + -1 * 2 ^ 64) by lia. rewrite Z.mod_add by lia. apply Z.mod_small. lia.
Qed.

Lemma normalize_gap a b : 0 <= a < 2 ^ 48 -> 0 <= b < 2 ^ 48 -> a <= b -> normalize_addr a + (b - a) <= normalize_addr b.
Proof. intros Ha Hb Hab. rewrite !normalize_addr_eq by done. destruct (Z.ltb_spec a (2 ^ 47)), (Z.ltb_spec b (2 ^ 47)); lia. Qed.

Lemma normalize_range a : 0 <= a < 2 ^ 48 -> a mod PAGE_SIZE = 0 -> 0 <= normalize_addr a < 2 ^ 64 - 1 /\ normalize_addr a mod 8 = 0.
Proof.
  intros Ha Hm. unfold PAGE_SIZE in Hm. rewrite normalize_addr_eq by done.
  pose proof (Z.div_mod a 4096 ltac:(lia)). replace a with (8 * (512 * (a / 4096))) by lia.
  destruct (Z.ltb_spec (8 * (512 * (a / 4096))) (2 ^ 47)); (split; [lia|]).
  - rewrite Z.mul_comm. apply Z.mod_mul. lia.
  - replace (8 * (512 * (a / 4096)) + (2 ^ 64 - 2 ^ 48)) with ((512 * (a / 4096) + (2 ^ 61 - 2 ^ 45)) * 8) by lia. apply Z.mod_mul. lia.
Qed.

Section Correct.
Context (PTE_FLAGS_MASK : Z) (address_markers : list Z).
Context (Hmarkers : (2 <= length address_markers)%nat) (Hlast : last address_markers = Some (2 ^ 64 - 1)).

#[local] Abbreviation note := (note_page PTE_FLAGS_MASK address_markers).
#[local] Abbreviation bits := (prot_bits PTE_FLAGS_MASK).
#[local] Abbreviation scanned := (is_scanned PTE_FLAGS_MASK).

Definition step (e : event) (st : pg_state) : outcome (pg_state * list (Z * Z)) :=
  let st := match e.1 with Some P => with_current (normalize_addr P) st | None => st end in
  match e.2 with Some n => note n.1 n.2 st | None => Ret (st, []) end.

Fixpoint run (l : list event) (st : pg_state) : outcome (pg_state * list (Z * Z)) :=
  match l with
  | [] => Ret (st, [])
  | e :: l => r ← step e st; r' ← run l r.1; Ret (r'.1, r.2 ++ r'.2)
  end.

Lemma run_app l1 l2 st : run (l1 ++ l2) st = (r ← run l1 st; r' ← run l2 r.1; Ret (r'.1, r.2 ++ r'.2)).
Proof.
  revert st. induction l1 as [|e l1 IH]; intros st; cbn [app run].
  - destruct (run l2 st) as [[st' rs]| |] eqn:E; cbn [mbind outcome_bind fst snd]; rewrite ?E; done.
  - destruct (step e st) as [[st1 r1]| |]; cbn [mbind outcome_bind fst snd]; [|done..]. rewrite IH.
    destruct (run l1 st1) as [[st2 r2]| |]; cbn [mbind outcome_bind fst snd]; [|done..].
    destruct (run l2 st2) as [[st3 r3]| |]; cbn [mbind outcome_bind fst snd]; [|done..]. by rewrite app_assoc.
Qed.

Lemma walk_table_run {T} (body : T -> Z -> pg_state -> outcome (pg_state * list (Z * Z))) f mult t : forall P st,
  (forall e P st, body e P st = run (f e P) st) -> walk_table body mult t P st = run (table_events f mult t P) st.
Proof.
  induction t as [|e t IH]; intros P st Hb; [done|]. cbn [walk_table table_events]. rewrite run_app, Hb.
  destruct (run (f e P) st) as [[st1 r1]| |]; cbn [mbind outcome_bind fst snd]; [|done..]. by rewrite IH.
Qed.

Lemma run_one e st : run [e] st = step e st.
Proof. cbn [run]. destruct (step e st) as [[st1 r1]| |]; cbn [mbind outcome_bind fst snd]; [|done..]. by rewrite app_nil_r. Qed.

Lemma note_entry_run {T} (walk : list T -> Z -> pg_state -> outcome (pg_state * list (Z * Z))) f mult lvl e P st :
  (forall t P st, walk t P st = run (table_events f mult t P) st) ->
  note_entry PTE_FLAGS_MASK address_markers walk lvl e P st = run (entry_events f mult lvl e P) st.
Proof.
  intros Hw. destruct e as [|prot|t]; cbn [note_entry entry_events]; rewrite ?run_one; [done|done|].
  rewrite Hw. cbn [run step fst snd mbind outcome_bind]. by destruct (run _ _) as [[? ?]| |].
Qed.

Lemma walk_pgd_run t :
  walk_pgd_level PTE_FLAGS_MASK address_markers t =
  (r ← run (walk_events t) initial_state; r' ← note 0 0 (with_current (normalize_addr (2 ^ 48)) r.1); Ret (r.2 ++ r'.2)).
Proof.
  unfold walk_pgd_level. rewrite (walk_table_run _ pgd_events PGD_LEVEL_MULT t 0); [done|].
  intros e P st. apply note_entry_run. clear. intros t P st. apply walk_table_run. clear. intros e P st.
  apply note_entry_run. clear. intros t P st. apply walk_table_run. clear. intros e P st.
  apply note_entry_run. clear. intros t P st. apply walk_table_run. clear. intros e P st.
  by destruct e; cbn [note_pte pte_events]; rewrite run_one.
Qed.

(** *** One event *)
Record walk_inv (st : pg_state) : Prop := {
  wi_marker : (S (marker st) < length address_markers)%nat;
  wi_current : 0 <= current_address st < 2 ^ 64 - 1
}.

(** The current address after the event. *)
Definition now (e : event) (st : pg_state) : Z :=
  match e.1 with Some P => normalize_addr P | None => current_address st end.

(** What an event does: nothing but set the address; start the first series;
    end a series and start another one; or continue the series. *)
Inductive noted (e : event) (st st' : pg_state) : list (Z * Z) -> Prop :=
  | noted_address : e.2 = None -> level st' = level st -> current_prot st' = current_prot st ->
      start_address st' = start_address st -> noted e st st' []
  | noted_first n : e.2 = Some n -> level st = 0 -> level st' = n.2 -> current_prot st' = n.1 ->
      start_address st' = start_address st -> noted e st st' []
  | noted_flush n : e.2 = Some n -> level st <> 0 -> level st' = n.2 -> current_prot st' = n.1 -> start_address st' = now e st ->
      noted e st st' (if scanned (current_prot st) then [(start_address st, now e st)] else [])
  | noted_same n : e.2 = Some n -> level st <> 0 -> level st' = level st -> current_prot st' = current_prot st ->
      start_address st' = start_address st -> bits n.1 = bits (current_prot st) -> n.2 = level st -> noted e st st' [].

Lemma marker_bound k a : address_markers !! k = Some a -> a < 2 ^ 64 - 1 -> (S k < length address_markers)%nat.
Proof.
  intros E Ha. pose proof (lookup_lt_Some _ _ _ E) as Hk. destruct (Nat.eq_dec (S k) (length address_markers)) as [Hs|]; [|lia].
  rewrite last_lookup, <- Hs in Hlast. cbn in Hlast. rewrite E in Hlast. injection Hlast as ->. lia.
Qed.

Lemma step_noted e st : event_ok 0 (2 ^ 48) e -> walk_inv st ->
  exists st' rs, step e st = Ret (st', rs) /\ walk_inv st' /\ current_address st' = now e st /\ noted e st st' rs.
Proof.
  intros [Ha _] [Hm Hc]. unfold step. set (st1 := match e.1 with Some P => _ | None => st end).
  assert (E1 : current_address st1 = now e st /\ level st1 = level st /\ current_prot st1 = current_prot st /\
               start_address st1 = start_address st /\ marker st1 = marker st) by (unfold st1, now; by destruct e.1).
  assert (Hc1 : 0 <= now e st < 2 ^ 64 - 1).
  { unfold now. destruct e.1 as [P|] eqn:EP; [|done]. destruct (Ha P eq_refl). by apply normalize_range. }
  destruct E1 as (Ec & El & Ep & Es & Em). destruct (e.2) as [n|] eqn:En.
  2: { exists st1, []. split; [done|]. split; [split; [by rewrite Em|by rewrite Ec]|]. split; [done|]. by apply noted_address. }
  unfold note_page. rewrite El, Ep, Es, Ec, Em. destruct (Z.eqb_spec (level st) 0) as [Hl|Hl].
  { eexists _, _. split; [reflexivity|]. split; [split; cbn; [lia|done]|]. split; [done|]. by apply (noted_first _ _ _ n). }
  destruct (lookup_lt_is_Some_2 address_markers (S (marker st)) Hm) as [m Em']. rewrite (proj2 (idx_ret _ _ _) Em'). cbn [mbind outcome_bind].
  destruct (negb (bits n.1 =? bits (current_prot st)) || negb (n.2 =? level st) || (m <=? now e st)) eqn:Ef.
  - eexists _, _. split; [reflexivity|]. split.
    { split; cbn; [|done]. destruct (Z.leb_spec m (now e st)); [|done]. eapply marker_bound; [exact Em'|lia]. }
    split; [done|]. by apply (noted_flush _ _ _ n).
  - exists st1, []. split; [done|]. split; [split; [by rewrite Em|by rewrite Ec]|]. split; [done|].
    apply orb_false_iff in Ef as [[Ef1 Ef2]%orb_false_iff _]. apply negb_false_iff, Z.eqb_eq in Ef1, Ef2. by apply (noted_same _ _ _ n).
Qed.

(** *** Sequences of events *)

(** Up to an address [a]: nothing behind it is scanned. *)
Lemma run_below a l : forall st,
  Forall (event_ok 0 (2 ^ 48)) l -> (forall e P, e ∈ l -> e.1 = Some P -> normalize_addr P <= a) -> walk_inv st ->
  start_address st <= a -> current_address st <= a ->
  exists st' rs, run l st = Ret (st', rs) /\ walk_inv st' /\ start_address st' <= a /\ current_address st' <= a /\ Forall (fun r => r.2 <= a) rs.
Proof.
  induction l as [|e l IH]; intros st Hok Hb HI Hs Hc; [exists st, []; by split|]. apply List.Forall_cons_iff in Hok as [He Hok].
  destruct (step_noted e st He HI) as (st1 & r1 & E1 & HI1 & Ec & Hn).
  assert (Hnow : now e st <= a) by (unfold now; destruct e.1 as [P|] eqn:EP; [by apply (Hb e P); [left|]|done]).
  assert (Hs1 : start_address st1 <= a /\ Forall (fun r => r.2 <= a) r1).
  { destruct Hn as [? _ _ Es|n ? ? _ _ Es|n ? ? _ _ Es|n ? ? _ _ Es]; rewrite Es; (split; [done|]); try constructor.
    destruct (scanned (current_prot st)); repeat constructor. done. }
  destruct (IH st1 Hok) as (st2 & r2 & E2 & HI2 & Hs2 & Hc2 & Hr2); [intros e' P He'; apply Hb; by right|done|apply Hs1|by rewrite Ec|].
  exists st2, (r1 ++ r2). cbn [run]. rewrite E1. cbn [mbind outcome_bind fst snd]. rewrite E2. cbn [mbind outcome_bind fst snd].
  split; [done|]. split; [done|]. split; [done|]. split; [done|]. apply Forall_app. by split; [apply Hs1|].
Qed.

(** A series that is scanned ends, and covers its addresses. *)
Lemma run_covers x l : forall st,
  Forall (event_ok 0 (2 ^ 48)) l -> (forall e P, e ∈ l -> e.1 = Some P -> x <= normalize_addr P) -> walk_inv st ->
  level st <> 0 -> scanned (current_prot st) = true -> start_address st <= x ->
  x <= current_address st \/ (exists e, head l = Some e /\ is_Some e.1) ->
  (exists e n, e ∈ l /\ e.2 = Some n /\ (bits n.1 <> bits (current_prot st) \/ n.2 <> level st)) ->
  exists st' rs, run l st = Ret (st', rs) /\ walk_inv st' /\ exists r, r ∈ rs /\ r.1 <= x <= r.2.
Proof.
  assert (Htotal : forall l st, Forall (event_ok 0 (2 ^ 48)) l -> walk_inv st -> exists st' rs, run l st = Ret (st', rs) /\ walk_inv st').
  { clear x l. induction l as [|e l IH]; intros st Hok HI; [by exists st, []|]. apply List.Forall_cons_iff in Hok as [He Hok].
    destruct (step_noted e st He HI) as (st1 & r1 & E1 & HI1 & _). destruct (IH st1 Hok HI1) as (st2 & r2 & E2 & HI2).
    exists st2, (r1 ++ r2). cbn [run]. rewrite E1. cbn [mbind outcome_bind fst snd]. by rewrite E2. }
  induction l as [|e l IH]; intros st Hok Hb HI Hl Hsc Hs Hx Hd; [destruct Hd as (e & n & He & _); by apply not_elem_of_nil in He|].
  apply List.Forall_cons_iff in Hok as [He Hok]. destruct (step_noted e st He HI) as (st1 & r1 & E1 & HI1 & Ec & Hn).
  assert (Hnow : x <= now e st).
  { unfold now. destruct e.1 as [P|] eqn:EP; [by apply (Hb e P); [left|]|]. destruct Hx as [|(e' & [= <-] & Hx)]; [done|]. rewrite EP in Hx. by destruct Hx. }
  cbn [run]. rewrite E1. cbn [mbind outcome_bind fst snd].
  assert (Hgo : e.2 = None \/ (exists n, e.2 = Some n /\ bits n.1 = bits (current_prot st) /\ n.2 = level st) ->
    level st1 = level st -> current_prot st1 = current_prot st -> start_address st1 = start_address st ->
    exists st' rs, (r' ← run l st1; Ret (r'.1, r1 ++ r'.2)) = Ret (st', rs) /\ walk_inv st' /\ exists r, r ∈ rs /\ r.1 <= x <= r.2).
  { intros Hsame El Ep Est. destruct (IH st1 Hok) as (st2 & r2 & E2 & HI2 & r & Hr & Hrx).
    - intros e' P He'. apply Hb. by right.
    - done.
    - by rewrite El.
    - by rewrite Ep.
    - by rewrite Est.
    - left. by rewrite Ec.
    - destruct Hd as (e' & n & [->|He']%elem_of_cons & En & Hdn).
      + exfalso. destruct Hsame as [Hz|(n' & Hz & Hs1 & Hs2)]; [congruence|]. rewrite En in Hz. injection Hz as <-. destruct Hdn; done.
      + exists e', n. rewrite El, Ep. done.
    - exists st2, (r1 ++ r2). rewrite E2. split; [done|]. split; [done|]. exists r. split; [|done]. apply elem_of_app. by right. }
  destruct Hn as [En El Ep Es|n En Hl0|n En _ _ _ _|n En _ El Ep Es Hs1 Hs2].
  - apply Hgo; auto.
  - done.
  - rewrite Hsc. destruct (Htotal l st1 Hok HI1) as (st2 & r2 & E2 & HI2). eexists st2, _. rewrite E2. split; [done|]. split; [done|].
    exists (start_address st, now e st). split; [left|cbn; lia].
  - apply Hgo; eauto 10.
Qed.

(** From an address [b] on, while the current series is not scanned: nothing
    before it is scanned. *)
Lemma run_above b l : forall st,
  Forall (event_ok 0 (2 ^ 48)) l -> (forall e P, e ∈ l -> e.1 = Some P -> b <= normalize_addr P) -> walk_inv st -> level st <> 0 ->
  scanned (current_prot st) = false \/ (b <= start_address st /\ b <= current_address st) ->
  exists st' rs, run l st = Ret (st', rs) /\ walk_inv st' /\ Forall (fun r => b <= r.1) rs /\
    (scanned (current_prot st') = false \/ b <= start_address st').
Proof.
  induction l as [|e l IH]; intros st Hok Hb HI Hl HJ.
  { exists st, []. split; [done|]. split; [done|]. split; [constructor|]. destruct HJ as [|[? ?]]; auto. }
  apply List.Forall_cons_iff in Hok as [He Hok]. destruct (step_noted e st He HI) as (st1 & r1 & E1 & HI1 & Ec & Hn).
  assert (Hnow : (e.1 = None /\ now e st = current_address st) \/ b <= now e st).
  { unfold now. destruct e.1 as [P|] eqn:EP; [right; by apply (Hb e P); [left|]|by left]. }
  assert (Hkeep : forall (b1 : bool) c1 c2, b1 = false \/ b <= c1 /\ b <= c2 -> c2 = current_address st -> b1 = false \/ b <= c1 /\ b <= now e st).
  { intros b1 c1 c2 [|[? ?]] ->; [by left|right]. destruct Hnow as [[_ ->]|]; lia. }
  assert (H1 : level st1 <> 0 /\ (scanned (current_prot st1) = false \/ b <= start_address st1 /\ b <= now e st) /\ Forall (fun r => b <= r.1) r1).
  { destruct Hn as [En El Ep Es|n En Hl0|n En _ El Ep Es|n En _ El Ep Es _ _].
    - rewrite El, Ep, Es. split; [done|]. split; [by eapply Hkeep|constructor].
    - done.
    - rewrite El, Ep, Es. destruct He as [_ He]. destruct (He n En) as [Hlv Hz]. split; [lia|]. split.
      + destruct Hnow as [[Hno _]|Hnow]; [left|right; lia]. rewrite (Hz Hno). unfold is_scanned, prot_bits. by rewrite Z.land_0_l.
      + destruct (scanned (current_prot st)) eqn:Esc; [|constructor]. constructor; [|constructor]. destruct HJ as [|[? ?]]; [done|cbn; lia].
    - rewrite El, Ep, Es. split; [done|]. split; [by eapply Hkeep|constructor]. }
  destruct H1 as (Hl1 & HJ1 & Hr1). destruct (IH st1 Hok) as (st2 & r2 & E2 & HI2 & Hr2 & HJ2);
    [intros e' P He'; apply Hb; by right|done|done|by rewrite Ec|].
  exists st2, (r1 ++ r2). cbn [run]. rewrite E1. cbn [mbind outcome_bind fst snd]. rewrite E2. cbn [mbind outcome_bind fst snd].
  split; [done|]. split; [done|]. split; [by apply Forall_app|done].
Qed.

(** Ranges start at multiples of eight. *)
Lemma run_aligned l : forall st st' rs,
  Forall (event_ok 0 (2 ^ 48)) l -> walk_inv st -> start_address st mod 8 = 0 -> current_address st mod 8 = 0 -> run l st = Ret (st', rs) ->
  Forall (fun r => r.1 mod 8 = 0) rs.
Proof.
  induction l as [|e l IH]; intros st st' rs Hok HI Hs Hc; [intros [= <- <-]; constructor|]. apply List.Forall_cons_iff in Hok as [He Hok].
  destruct (step_noted e st He HI) as (st1 & r1 & E1 & HI1 & Ec & Hn). cbn [run]. rewrite E1. cbn [mbind outcome_bind fst snd].
  destruct (run l st1) as [[st2 r2]| |] eqn:E2; cbn [mbind outcome_bind fst snd]; [|discriminate..]. intros [= <- <-].
  assert (Hnow : now e st mod 8 = 0).
  { unfold now. destruct e.1 as [P|] eqn:EP; [|done]. destruct (proj1 He P EP). by apply normalize_range. }
  apply Forall_app. split.
  - destruct Hn; try constructor. destruct (scanned (current_prot st)); repeat constructor. done.
  - eapply (IH st1); [done|done| |by rewrite Ec|done]. destruct Hn as [_ _ _ Es|n _ _ _ _ Es|n _ _ _ _ Es|n _ _ _ _ Es]; by rewrite Es.
Qed.

(** The state behind an entry that is present. *)
Lemma step_present A prot l st :
  event_ok 0 (2 ^ 48) (Some A, Some (prot, l)) -> walk_inv st -> start_address st <= normalize_addr A ->
  exists st' rs, step (Some A, Some (prot, l)) st = Ret (st', rs) /\ walk_inv st' /\ current_address st' = normalize_addr A /\
    start_address st' <= normalize_addr A /\ level st' = l /\ l <> 0 /\ bits (current_prot st') = bits prot /\ Forall (fun r => r.2 <= normalize_addr A) rs.
Proof.
  intros He HI Hs. destruct (proj2 He (prot, l) eq_refl) as [Hl _]. cbn in Hl.
  destruct (step_noted _ st He HI) as (st1 & r1 & E1 & HI1 & Ec & Hn). exists st1, r1. split; [done|]. split; [done|]. split; [done|].
  destruct Hn as [En|n [= <-] _ El Ep Es|n [= <-] _ El Ep Es|n [= <-] _ El Ep Es Hs1 Hs2]; [discriminate En|..]; cbn in *.
  - rewrite Es, El, Ep. split; [done|]. split; [done|]. split; [lia|]. split; [done|constructor].
  - rewrite Es, El, Ep. split; [unfold now; cbn; lia|]. split; [done|]. split; [lia|]. split; [done|].
    destruct (scanned (current_prot st)); repeat constructor. cbn. unfold now. cbn. lia.
  - rewrite Es, El, Ep. split; [done|]. split; [done|]. split; [lia|]. split; [done|constructor].
Qed.

Lemma initial_walk_inv : walk_inv initial_state.
Proof. split; cbn; [lia|done]. Qed.

(** The parts of a walk around an event. *)
Lemma walk_split t pre e post :
  wf_tables t -> walk_events t = pre ++ e :: post ->
  Forall (event_ok 0 (2 ^ 48)) pre /\ event_ok 0 (2 ^ 48) e /\ Forall (event_ok 0 (2 ^ 48)) post /\
  (forall x, x ∈ pre -> before x e) /\ (forall y, y ∈ post -> before e y).
Proof.
  intros Hwf E. destruct (walk_events_ok t Hwf) as [Ha Hs]. rewrite E in Ha, Hs. apply Forall_app in Ha as [Hpre Ha].
  apply List.Forall_cons_iff in Ha as [He Hpost]. split; [done|]. split; [done|]. split; [done|]. clear -Hs.
  induction pre as [|x pre IH]; cbn in Hs; apply StronglySorted_inv in Hs as [Hs Hx].
  - split; [intros x Hx'; by apply not_elem_of_nil in Hx'|]. by rewrite list.Forall_forall in Hx.
  - destruct (IH Hs) as [H1 H2]. split; [|done]. intros y [->|Hy]%elem_of_cons; [|by apply H1].
    rewrite list.Forall_forall in Hx. apply Hx, elem_of_app. right. left.
Qed.

(** The state before a present entry. *)
Lemma run_until t pre A n post :
  wf_tables t -> walk_events t = pre ++ (Some A, n) :: post ->
  exists st rs, run pre initial_state = Ret (st, rs) /\ walk_inv st /\ start_address st <= normalize_addr A /\
    Forall (fun r => r.2 <= normalize_addr A) rs /\ 0 <= A < 2 ^ 48 /\ A mod PAGE_SIZE = 0.
Proof.
  intros Hwf E. destruct (walk_split t pre _ post Hwf E) as (Hpre & He & _ & Hb & _). destruct (proj1 He A eq_refl) as [HA HAm].
  destruct (normalize_range A HA HAm) as [Hr _].
  destruct (run_below (normalize_addr A) pre initial_state Hpre) as (st & rs & Er & HI & Hs & _ & Hrs); [|apply initial_walk_inv|cbn; lia|cbn; lia|].
  - intros e P Hin EP. destruct (Hb e Hin P A EP eq_refl) as [Hle _]. rewrite list.Forall_forall in Hpre.
    destruct (proj1 (Hpre e Hin) P EP) as [HP _]. pose proof (normalize_gap P A). lia.
  - exists st, rs. done.
Qed.

(** The last event of the walk. *)
Lemma last_note st : walk_inv st -> exists st' rs, note 0 0 (with_current (normalize_addr (2 ^ 48)) st) = Ret (st', rs) /\ Forall (fun r => r.2 = 0) rs.
Proof.
  intros [Hm _]. unfold note_page, with_current. cbn [level current_prot start_address current_address marker].
  destruct (Z.eqb_spec (level st) 0) as [|Hl]; [eexists _, _; split; [reflexivity|constructor]|].
  destruct (lookup_lt_is_Some_2 address_markers (S (marker st)) Hm) as [m Em]. rewrite (proj2 (idx_ret _ _ _) Em). cbn [mbind outcome_bind].
  destruct (_ || _); eexists _, _; (split; [reflexivity|]); [|constructor].
  destruct (scanned (current_prot st)); repeat constructor.
Qed.

Lemma scan_kernel_memory_elem valid word r x :
  r.1 <= x <= r.2 -> r.1 mod 8 = 0 -> x mod 8 = 0 -> valid x = true -> is_watched_address (word x) = true ->
  word x ∈ scan_kernel_memory valid word r.
Proof.
  intros Hx Hr8 Hx8 Hv Hw. unfold scan_kernel_memory. rewrite (proj2 (Z.leb_le _ _)) by lia. apply list_elem_of_bind. exists ((x - r.1) / 8).
  assert (E : x = r.1 + 8 * ((x - r.1) / 8)).
  { pose proof (Z.div_mod (x - r.1) 8 ltac:(lia)). rewrite Zminus_mod, Hr8, Hx8 in H. change ((0 - 0) mod 8) with 0 in H. lia. }
  split; [|apply elem_of_seqZ; split; [apply Z.div_pos; lia|]].
  - rewrite <- E, Hv, Hw. apply list_elem_of_singleton. done.
  - pose proof (Z.div_le_mono (x - r.1) (r.2 - r.1) 8). lia.
Qed.

(** ** Theorems *)

(** C23 Pages that are scanned.  The walk ends without a fault.  If an entry is
    present, writable and not executable, the next entry is present, and the
    attributes change at some later entry, then every valid aligned word from
    the page of the entry up to the next one that looks like a heap address
    is passed to the callback. *)
Theorem walk_scans_pages valid word t pre A prot l B nb post x :
  wf_tables t -> walk_events t = pre ++ (Some A, Some (prot, l)) :: (Some B, nb) :: post -> scanned prot = true ->
  (exists e n, e ∈ (Some B, nb) :: post /\ e.2 = Some n /\ (bits n.1 <> bits prot \/ n.2 <> l)) ->
  normalize_addr A <= x < normalize_addr B -> x mod 8 = 0 -> valid x = true -> is_watched_address (word x) = true ->
  exists values, kernel_pagetable_walk PTE_FLAGS_MASK address_markers valid word t = Ret values /\ word x ∈ values.
Proof.
  intros Hwf E Hsc Hd Hx Hx8 Hv Hw. destruct (run_until t pre A _ _ Hwf E) as (st1 & r1 & E1 & HI1 & Hs1 & _ & HA & HAm).
  destruct (walk_split t pre _ _ Hwf E) as (Hpre & He & Hpost & _ & _).
  destruct (step_present A prot l st1 He HI1 Hs1) as (st2 & r2 & E2 & HI2 & Hc2 & Hs2 & Hl2 & Hl & Hp2 & _).
  assert (Hsc2 : scanned (current_prot st2) = true) by (unfold is_scanned in *; by rewrite Hp2).
  assert (E' : walk_events t = (pre ++ [(Some A, Some (prot, l))]) ++ (Some B, nb) :: post) by (rewrite E, <- app_assoc; done).
  destruct (walk_split t _ _ _ Hwf E') as (_ & HeB & _ & _ & HbB). destruct (proj1 HeB B eq_refl) as [HB _].
  destruct (run_covers x ((Some B, nb) :: post) st2) as (st3 & r3 & E3 & HI3 & r & Hr & Hrx).
  - done.
  - intros e P [->|Hin]%elem_of_cons EP; [injection EP as <-; lia|]. destruct (HbB e Hin B P eq_refl EP) as [Hle _].
    rewrite list.Forall_forall in Hpost. destruct (proj1 (Hpost e ltac:(by right)) P EP) as [HP _]. pose proof (normalize_gap B P). lia.
  - done.
  - by rewrite Hl2.
  - done.
  - lia.
  - right. by eexists.
  - by rewrite Hp2, Hl2.
  - assert (Erun : run (walk_events t) initial_state = Ret (st3, r1 ++ r2 ++ r3)).
    { rewrite E, run_app, E1. cbn [mbind outcome_bind fst snd]. change (run (?e :: ?l) ?s) with (r ← step e s; r' ← run l r.1; Ret (r'.1, r.2 ++ r'.2)).
      rewrite E2. cbn [mbind outcome_bind fst snd]. rewrite E3. cbn [mbind outcome_bind fst snd]. done. }
    destruct (last_note st3 HI3) as (st4 & r4 & E4 & _). unfold kernel_pagetable_walk. rewrite walk_pgd_run, Erun. cbn [mbind outcome_bind fst snd].
    rewrite E4. cbn [mbind outcome_bind fst snd]. eexists. split; [reflexivity|]. apply list_elem_of_bind. exists r.
    assert (Hin : r ∈ r1 ++ r2 ++ r3) by (apply elem_of_app; right; apply elem_of_app; by right).
    split; [|apply elem_of_app; by left]. apply scan_kernel_memory_elem; try done.
    pose proof (run_aligned _ _ _ _ (proj1 (walk_events_ok t Hwf)) initial_walk_inv eq_refl eq_refl Erun) as Hal.
    rewrite list.Forall_forall in Hal. by apply Hal.
Qed.

(** C40 Pages that are missed.  The address of an absent entry is not noted: when
    a writable and not executable page is followed by an absent entry, the
    range that ends there ends with the first word of the page, and no range
    contains any other address of the page. *)
Theorem last_page_not_scanned t pre A prot l l' post :
  wf_tables t -> walk_events t = pre ++ (Some A, Some (prot, l)) :: (None, Some (0, l')) :: post -> scanned prot = true ->
  exists ranges, walk_pgd_level PTE_FLAGS_MASK address_markers t = Ret ranges /\
    forall r x, r ∈ ranges -> normalize_addr A < x < normalize_addr A + PAGE_SIZE -> ~ r.1 <= x <= r.2.
Proof.
  intros Hwf E Hsc. destruct (run_until t pre A _ _ Hwf E) as (st1 & r1 & E1 & HI1 & Hs1 & Hr1 & HA & HAm).
  destruct (normalize_range A HA HAm) as [HAr _]. destruct (walk_split t pre _ _ Hwf E) as (Hpre & He & Hpost & _ & Hb).
  apply List.Forall_cons_iff in Hpost as [Hh Hpost].
  destruct (step_present A prot l st1 He HI1 Hs1) as (st2 & r2 & E2 & HI2 & Hc2 & Hs2 & Hl2 & Hl & Hp2 & Hr2).
  destruct (step_noted _ st2 Hh HI2) as (st3 & r3 & E3 & HI3 & Hc3 & Hn).
  assert (Hz : scanned 0 = false) by (unfold is_scanned, prot_bits; by rewrite Z.land_0_l).
  assert (H3 : level st3 <> 0 /\ current_prot st3 = 0 /\ Forall (fun r => r.2 <= normalize_addr A) r3).
  { destruct (proj2 Hh (0, l') eq_refl) as [Hl' _]. cbn in Hl'.
    destruct Hn as [En|n _ Hl0|n [= <-] _ El Ep _|n [= <-] _ _ _ _ Hb0 _]; [discriminate En|congruence|..]; cbn in *.
    - split; [lia|]. split; [done|]. destruct (scanned (current_prot st2)); repeat constructor. unfold now. cbn. lia.
    - exfalso. unfold is_scanned in Hsc, Hz. rewrite <- Hp2, <- Hb0 in Hsc. congruence. }
  destruct H3 as (Hl3 & Hp3 & Hr3).
  destruct (run_above (normalize_addr A + PAGE_SIZE) post st3) as (st4 & r4 & E4 & HI4 & Hr4 & _).
  - done.
  - intros e P Hin EP. destruct (Hb e ltac:(by right) A P eq_refl EP) as [_ Hlt]. specialize (Hlt ltac:(by eexists)).
    rewrite list.Forall_forall in Hpost. destruct (proj1 (Hpost e Hin) P EP) as [HP HPm]. pose proof (normalize_gap A P HA HP).
    unfold PAGE_SIZE in *. pose proof (Z.div_mod A 4096 ltac:(lia)). pose proof (Z.div_mod P 4096 ltac:(lia)). lia.
  - done.
  - done.
  - left. by rewrite Hp3.
  - destruct (last_note st4 HI4) as (st5 & r5 & E5 & Hr5). rewrite walk_pgd_run, E, run_app, E1. cbn [mbind outcome_bind fst snd].
    change (run (?e :: ?l) ?s) with (r ← step e s; r' ← run l r.1; Ret (r'.1, r.2 ++ r'.2)). rewrite E2. cbn [mbind outcome_bind fst snd].
    change (run (?e :: ?l) ?s) with (r ← step e s; r' ← run l r.1; Ret (r'.1, r.2 ++ r'.2)). rewrite E3. cbn [mbind outcome_bind fst snd].
    rewrite E4. cbn [mbind outcome_bind fst snd]. rewrite E5. cbn [mbind outcome_bind fst snd]. eexists. split; [reflexivity|].
    intros r x Hr Hx. rewrite !elem_of_app in Hr. rewrite list.Forall_forall in Hr1, Hr2, Hr3, Hr4, Hr5.
    destruct Hr as [[Hr|[Hr|[Hr|Hr]]]|Hr]; [apply Hr1 in Hr|apply Hr2 in Hr|apply Hr3 in Hr|apply Hr4 in Hr|apply Hr5 in Hr]; lia.
Qed.
End Correct.

(** ** Witnesses *)

(** One table of pages: two pages of data, a hole, and a page that is not
    writable. *)
Definition data_prot : Z := Z.lor _PAGE_NX 3.
Definition some_tables : list pgd :=
  [E_table [E_table [E_table [Some data_prot; Some data_prot; None; Some 1]]]].
Definition some_markers : list Z := [0; 2 ^ 63; 2 ^ 64 - 1].

Lemma some_tables_wf : wf_tables some_tables.
Proof.
  split; [cbn; lia|]. constructor; [|constructor]. split; [cbn; lia|]. constructor; [|constructor].
  split; [cbn; lia|]. constructor; [|constructor]. split; [cbn; lia|]. repeat constructor.
Defined.

Lemma walk_scans_pages_witness :
  exists values, kernel_pagetable_walk (2 ^ 64 - 1) some_markers (fun _ => true) (fun a => 0xffff888000000000 + a) some_tables = Ret values /\
    (0xffff888000000ff8 ∈ values).
Proof.
  apply (walk_scans_pages (2 ^ 64 - 1) some_markers ltac:(cbn; lia) eq_refl (fun _ => true) (fun a => 0xffff888000000000 + a) some_tables
    [(Some 0, None); (Some 0, None); (Some 0, None)] 0 data_prot 4 4096 (Some (data_prot, 4)) [(None, Some (0, 4)); (Some 12288, Some (1, 4))] 0xff8 some_tables_wf);
    [reflexivity|reflexivity| |vm_compute; split; congruence|reflexivity|reflexivity|reflexivity].
  exists (None, Some (0, 4)), (0, 4). split; [right; left|]. split; [reflexivity|]. left. vm_compute. discriminate.
Defined.

Lemma last_page_not_scanned_witness :
  exists ranges, walk_pgd_level (2 ^ 64 - 1) some_markers some_tables = Ret ranges /\ ranges = [(0, 4096)] /\
    forall r, r ∈ ranges -> ~ r.1 <= 4104 <= r.2.
Proof.
  destruct (last_page_not_scanned (2 ^ 64 - 1) some_markers ltac:(cbn; lia) eq_refl some_tables
    [(Some 0, None); (Some 0, None); (Some 0, None); (Some 0, Some (data_prot, 4))] 4096 data_prot 4 4 [(Some 12288, Some (1, 4))] some_tables_wf eq_refl eq_refl)
    as (ranges & E & Hr). exists ranges. split; [exact E|]. split.
  - vm_compute in E. by injection E as <-.
  - intros r Hin. apply Hr; [done|]. vm_compute. split; congruence.
Defined.
