(* ===== verification/WpInstrument.v ===== *)
(** * Watchpoint instrumentation: [clients/watchpoints/instrument.cc], [instrument.h]

    A watched address cannot be dereferenced.  The watchpoint client puts code
    in front of every instruction with a memory operand: it computes the
    address into a register, tests the distinguishing bit, and on a watched
    address replaces the high bits, so that the instruction accesses the
    object that the address stands for.  The register is one that the
    instruction overwrites, one that is dead, or one that is spilled around
    the instruction; the carry flag, which the test changes, is saved when it
    is needed.  At two labels per operand a client adds its own checks.

    This file has the whole of the generator: the classification of operands,
    the state machine for the carry flag, the instructions that are rewritten
    before ([mangle]), the operands ([visit_operands]), and the backward pass
    over a block ([visit_instructions]).  The emitted instructions are those
    of [Machine].  An instruction of the block is described by what DynamoRIO
    reports about it. *)

From Stdlib Require Import ZArith Lia.
From stdpp Require Import base numbers list option.
From S2P Require Import Prelude Register Machine EmitUtils Mangle Watchpoint.

(** ** Operands and instructions *)
Record base_disp := {
  bd_disp : Z;
  bd_base : Z;
  bd_index : Z;
  bd_scale : Z
}.

Inductive woperand :=
  | WReg (r : Z)
  | WMem (seg size : Z) (v : base_disp)
  | WOther.

(** [w_reads_cf] and [w_writes_cf] are the bits of [instr_get_eflags]. *)
Record winstr := {
  w_opcode : Z;
  w_dsts : list woperand;
  w_srcs : list woperand;
  w_is_nop : bool;
  w_is_cti : bool;
  w_is_call : bool;
  w_is_return : bool;
  w_is_mangled : bool;
  w_reads_cf : bool;
  w_writes_cf : bool
}.

(** Opcodes (the enumeration of [granary/dynamorio.h]). *)
Abbreviation OP_push := 18.
Abbreviation OP_pop := 20.
Abbreviation OP_mov_ld := 55.
Abbreviation OP_mov_st := 56.
Abbreviation OP_lea := 61.
Abbreviation OP_enter := 74.
Abbreviation OP_leave := 75.
Abbreviation OP_xlat := 82.
Abbreviation OP_nop_modrm := 101.

(** [mov_ld], [mov_st], [movzx], [movsx], [add], [sub], [inc], [dec], [and],
    [or], [xor], [not], [xadd], [xchg], [sar], [shr], [shl], [cmp], the
    prefetches, [clflush], [xsave32], [xsave64], [xrstor64], [xsaveopt64]. *)
Definition replaceable_opcodes : list Z :=
  [55; 56; 195; 200; 4; 10; 16; 17; 8; 5; 12; 260; 201; 62; 259; 258; 257; 14;
   291; 287; 288; 289; 290; 292; 285; 633; 957; 958; 959].

(** The string instructions, [OP_ins] to [OP_repne_scas]. *)
Definition is_string (opcode : Z) : bool := (383 <=? opcode) && (opcode <=? 398).

Definition DR_SEG_FS : Z := 105.
Definition DR_SEG_GS : Z := 106.

(** The part of an instruction that the register manager looks at. *)
Definition dr_opcode (op : Z) : opcode :=
  match op with
  | 198 => OP_bsf | 199 => OP_bsr
  | 384 => OP_rep_ins | 386 => OP_rep_outs | 388 => OP_rep_movs | 390 => OP_rep_stos
  | 392 => OP_rep_lods | 394 => OP_rep_cmps | 395 => OP_repne_cmps
  | 397 => OP_rep_scas | 398 => OP_repne_scas
  | _ => OP_other op
  end.

Definition w_opnd (o : woperand) : opnd :=
  match o with
  | WReg r => REG_kind r
  | WMem _ _ v => BASE_DISP_kind (bd_base v) (bd_index v)
  | WOther => OTHER_kind
  end.

Definition w_view (w : winstr) : Register.instr :=
  {| in_opcode := dr_opcode (w_opcode w); in_dsts := map w_opnd (w_dsts w); in_srcs := map w_opnd (w_srcs w);
     in_is_nop := w_is_nop w; in_is_cti := w_is_cti w |}.

Definition with_operands (dsts srcs : list woperand) (w : winstr) : winstr :=
  {| w_opcode := w_opcode w; w_dsts := dsts; w_srcs := srcs; w_is_nop := w_is_nop w; w_is_cti := w_is_cti w;
     w_is_call := w_is_call w; w_is_return := w_is_return w; w_is_mangled := w_is_mangled w;
     w_reads_cf := w_reads_cf w; w_writes_cf := w_writes_cf w |}.

(** A plain instruction made by the client. *)
Definition make_instr (op : Z) (dsts srcs : list woperand) : winstr :=
  {| w_opcode := op; w_dsts := dsts; w_srcs := srcs; w_is_nop := false; w_is_cti := false;
     w_is_call := false; w_is_return := false; w_is_mangled := false;
     w_reads_cf := false; w_writes_cf := false |}.

(** References to operands: positions in the destinations followed by the
    sources. *)
Inductive operand_kind := SOURCE_OPERAND | DEST_OPERAND | SOURCE_DEST_OPERAND.

#[export] Instance operand_kind_eq_dec : EqDecision operand_kind.
Proof. solve_decision. Defined.

Record operand_ref := {
  ref_op : nat;
  ref_op2 : option nat;
  ref_kind : operand_kind
}.

Definition all_operands (w : winstr) : list woperand := w_dsts w ++ w_srcs w.

Definition get_operand (w : winstr) (p : nat) : outcome woperand := idx (all_operands w) p.

Definition set_operand (p : nat) (o : woperand) (w : winstr) : winstr :=
  let ops := <[p := o]> (all_operands w) in
  with_operands (take (length (w_dsts w)) ops) (drop (length (w_dsts w)) ops) w.

(** [operand_ref::replace_with]. *)
Definition replace_with (r : operand_ref) (o : woperand) (w : winstr) : winstr :=
  let w := set_operand (ref_op r) o w in
  match ref_op2 r with Some p => set_operand p o w | None => w end.

(** [operand_ref::can_combine]: the first two bytes of the values are
    compared, which are the low bits of the displacement. *)
Definition can_combine (w : winstr) (r that : operand_ref) : outcome bool :=
  a ← get_operand w (ref_op r);
  b ← get_operand w (ref_op that);
  Ret (negb (bool_decide (ref_op r = ref_op that)) &&
       bool_decide (ref_op2 r = ref_op2 that) && bool_decide (ref_op2 r = None) &&
       negb (bool_decide (ref_kind r = ref_kind that)) &&
       match a, b with
       | WMem sa za va, WMem sb zb vb => (za =? zb) && (sa =? sb) && (u16 (bd_disp va) =? u16 (bd_disp vb))
       | _, _ => false
       end).

Definition combine (r that : operand_ref) : operand_ref :=
  {| ref_op := ref_op r; ref_op2 := Some (ref_op that); ref_kind := SOURCE_DEST_OPERAND |}.

(** [for_each_operand]: the destinations, then the sources. *)
Definition for_each_operand {A} (f : operand_ref -> A -> outcome A) (w : winstr) (a : A) : outcome A :=
  foldl (fun a p =>
      a ← a;
      f {| ref_op := p; ref_op2 := None;
           ref_kind := if bool_decide (p < length (w_dsts w))%nat then DEST_OPERAND else SOURCE_OPERAND |} a)
    (Ret a) (seq 0 (length (all_operands w))).

(** ** The tracker *)
Definition MAX_NUM_OPERANDS : nat := 2.

Record found_operands := {
  reads_from_rsp : bool;
  writes_to_rsp : bool;
  ops : list operand_ref;
  can_replace : list bool
}.

Definition no_operands : found_operands :=
  {| reads_from_rsp := false; writes_to_rsp := false; ops := []; can_replace := [] |}.

Section Instrument.
Context `{Config}.

Definition WP_IGNORE_FRAME_POINTER : bool := IF_USER_ELSE false true.

(** Whether an operand of this form is one that the program wrote out, and
    not an implicit one. *)
Definition is_replaceable (opcode : Z) (regs0 regs1 : Z) (v : base_disp) : bool :=
  if opcode =? OP_xlat then false
  else if negb (regs1 =? DR_REG_NULL) then true
  else if DR_REG_RDI <? regs0 then true
  else if negb (bd_disp v =? 0) || negb (bd_scale v =? 0) then true
  else existsb (Z.eqb opcode) replaceable_opcodes.

(** The loop that combines an operand with an earlier one: the position
    combined with, if any. *)
Fixpoint combine_index (w : winstr) (rs : list operand_ref) (op : operand_ref) (i : nat) : outcome (option nat) :=
  match rs with
  | [] => Ret None
  | r :: rs =>
      c ← can_combine w r op;
      if (c : bool) then Ret (Some i) else combine_index w rs op (S i)
  end.

(** A third operand does not fit the arrays. *)
Definition add_operand (w : winstr) (op : operand_ref) (replaceable : bool) (t : found_operands)
    : outcome found_operands :=
  ASSERT (bool_decide (length (ops t) < MAX_NUM_OPERANDS)%nat) ≫= fun _ =>
  c ← combine_index w (ops t) op 0;
  match c with
  | Some i =>
      r ← idx (ops t) i;
      b ← idx (can_replace t) i;
      Ret {| reads_from_rsp := reads_from_rsp t; writes_to_rsp := writes_to_rsp t;
             ops := <[i := combine r op]> (ops t); can_replace := <[i := b && replaceable]> (can_replace t) |}
  | None =>
      Ret {| reads_from_rsp := reads_from_rsp t; writes_to_rsp := writes_to_rsp t;
             ops := ops t ++ [op]; can_replace := can_replace t ++ [replaceable] |}
  end.

Definition reads_rsp (t : found_operands) : found_operands :=
  {| reads_from_rsp := true; writes_to_rsp := writes_to_rsp t; ops := ops t; can_replace := can_replace t |}.
Definition writes_rsp (t : found_operands) : found_operands :=
  {| reads_from_rsp := reads_from_rsp t; writes_to_rsp := true; ops := ops t; can_replace := can_replace t |}.

Definition find_memory_operand (w : winstr) (op : operand_ref) (t : found_operands) : outcome found_operands :=
  o ← get_operand w (ref_op op);
  match o with
  | WReg r =>
      Ret (if r =? DR_REG_RSP then
             match ref_kind op with
             | DEST_OPERAND => writes_rsp t
             | SOURCE_OPERAND => reads_rsp t
             | SOURCE_DEST_OPERAND => reads_rsp (writes_rsp t)
             end
           else t)
  | WOther => Ret t
  | WMem _ _ v =>
      base_reg_64 ← scale (bd_base v) REG_64;
      index_reg_64 ← scale (bd_index v) REG_64;
      if (base_reg_64 =? DR_REG_RSP) || (index_reg_64 =? DR_REG_RSP) then Ret (reads_rsp t)
      else if (if negb (bd_base v =? DR_REG_NULL) then negb (bd_base v =? base_reg_64)
               else negb (bd_index v =? index_reg_64)) then Ret t
      else
        rm ← kill_opnd (w_opnd o) register_manager_ctor;
        let z0 := get_zombie rm in
        let z1 := get_zombie z0.2 in
        if z0.1 =? DR_REG_NULL then Ret t
        else if WP_IGNORE_FRAME_POINTER && ((z0.1 =? reg_id rbp) || (z1.1 =? reg_id rbp)) &&
                (negb (bd_index v =? reg_id rbp) || (bd_scale v =? 1)) then Ret t
        else add_operand w op (is_replaceable (w_opcode w) z0.1 z1.1 v) t
  end.

(** ** The carry flag *)

(** [ret], [ret_far], [call], [call_far], [call_ind], [call_far_ind],
    [jmp_ind], [jmp_far_ind], [iret]. *)
Definition carry_ends (opcode : Z) : bool := existsb (Z.eqb opcode) [70; 71; 42; 44; 43; 45; 48; 50; 79].

(** [next_reads_carry_flag], [restore_carry_flag_before] and
    [restore_carry_flag_after]. *)
Definition track_carry_flag (w : winstr) (next_reads_carry_flag : bool) : bool * bool * bool :=
  if w_is_return w || w_is_call w then (false, false, false)
  else if w_is_cti w then
    if carry_ends (w_opcode w) then (false, false, false) else (true, true, false)
  else if w_reads_cf w then (true, true, false)
  else if w_writes_cf w then (false, false, false)
  else (next_reads_carry_flag, false, next_reads_carry_flag).

(** ** Instructions that are rewritten first

    The instructions put before and after the one that keeps the memory
    operand, that instruction, and the sets of registers. *)
Record mangled_in := {
  m_pre : list instr;
  m_in : winstr;
  m_post : list instr;
  m_live : register_manager;
  m_spill : register_manager
}.

Definition deref (r : Z) (size : Z) : woperand :=
  WMem DR_REG_NULL size {| bd_disp := 0; bd_base := r; bd_index := DR_REG_NULL; bd_scale := 1 |}.

(** A register that is dead at the instruction, which is then kept out of
    the registers to spill, or one to spill. *)
Definition steal_register (live_regs spill_regs : register_manager)
    : outcome (bool * Z * register_manager * register_manager) :=
  let z := get_zombie live_regs in
  if z.1 =? DR_REG_NULL then
    let s := get_zombie spill_regs in Ret (false, s.1, z.2, s.2)
  else
    spill_regs ← revive_reg z.1 spill_regs;
    Ret (true, z.1, z.2, spill_regs).

Definition mangle_push (live_regs spill_regs : register_manager) (op : woperand) : outcome mangled_in :=
  r ← steal_register live_regs spill_regs;
  let '(is_dead, z, live_regs, spill_regs) := r in
  dead_reg ← reg_of z;
  let in_ := make_instr OP_mov_ld [WReg z] [op] in
  Ret (if (is_dead : bool) then
         {| m_pre := []; m_in := in_; m_post := [push_ (OReg dead_reg)]; m_live := live_regs; m_spill := spill_regs |}
       else
         {| m_pre := [lea_ rsp rsp (-8); push_ (OReg dead_reg)]; m_in := in_;
            m_post := [mov_st_ (OMem rsp 8) dead_reg; pop_ dead_reg];
            m_live := live_regs; m_spill := spill_regs |}).

Definition mangle_pop (live_regs spill_regs : register_manager) (op : woperand) : outcome mangled_in :=
  r ← steal_register live_regs spill_regs;
  let '(is_dead, z, live_regs, spill_regs) := r in
  dead_reg ← reg_of z;
  let in_ := make_instr OP_mov_st [op] [WReg z] in
  Ret (if (is_dead : bool) then
         {| m_pre := [pop_ dead_reg]; m_in := in_; m_post := []; m_live := live_regs; m_spill := spill_regs |}
       else
         {| m_pre := [push_ (OReg dead_reg); mov_ld_ dead_reg (OMem rsp 8)]; m_in := in_;
            m_post := [pop_ dead_reg; lea_ rsp rsp 8]; m_live := live_regs; m_spill := spill_regs |}).

(** Register number 49 is [al]. *)
Definition mangle_xlat (live_regs spill_regs : register_manager) : outcome mangled_in :=
  r ← steal_register live_regs spill_regs;
  let '(is_dead, z, live_regs, spill_regs) := r in
  dead_reg ← reg_of z;
  let address := [movzx_8_ dead_reg rax; lea_bd_ dead_reg (Some dead_reg) (Some rbx) 1 0] in
  let in_ := make_instr OP_mov_ld [WReg 49] [deref z 8] in
  Ret (if (is_dead : bool) then
         {| m_pre := address; m_in := in_; m_post := []; m_live := live_regs; m_spill := spill_regs |}
       else
         {| m_pre := push_ (OReg dead_reg) :: address; m_in := in_; m_post := [pop_ dead_reg];
            m_live := live_regs; m_spill := spill_regs |}).

(** The last source operand that is the stack pointer. *)
Definition get_rsp (w : winstr) (op : operand_ref) (rsp_op : option operand_ref) : outcome (option operand_ref) :=
  o ← get_operand w (ref_op op);
  Ret (match o, ref_kind op with
       | WReg r, SOURCE_OPERAND => if r =? DR_REG_RSP then Some op else rsp_op
       | _, _ => rsp_op
       end).

Definition mangle_source_sp (live_regs spill_regs : register_manager) (w : winstr) (rsp_op : operand_ref)
    : outcome mangled_in :=
  r ← steal_register live_regs spill_regs;
  let '(is_dead, z, live_regs, spill_regs) := r in
  dead_reg ← reg_of z;
  let in_ := replace_with rsp_op (WReg z) w in
  Ret (if (is_dead : bool) then
         {| m_pre := [lea_ dead_reg rsp 0]; m_in := in_; m_post := []; m_live := live_regs; m_spill := spill_regs |}
       else
         {| m_pre := [push_ (OReg dead_reg); lea_ dead_reg rsp 8]; m_in := in_; m_post := [pop_ dead_reg];
            m_live := live_regs; m_spill := spill_regs |}).

(** The first memory operand that was found. *)
Definition first_operand (w : winstr) (t : found_operands) : outcome woperand :=
  r ← idx (ops t) 0; get_operand w (ref_op r).

(** [None]: the instruction is left as it is. *)
Definition mangle (w : winstr) (t : found_operands) (live_regs spill_regs : register_manager)
    : outcome (option mangled_in) :=
  if w_opcode w =? OP_push then
    op ← first_operand w t; m ← mangle_push live_regs spill_regs op; Ret (Some m)
  else if w_opcode w =? OP_pop then
    op ← first_operand w t; m ← mangle_pop live_regs spill_regs op; Ret (Some m)
  else if w_opcode w =? OP_xlat then
    m ← mangle_xlat live_regs spill_regs; Ret (Some m)
  else if w_opcode w =? OP_mov_ld then
    if writes_to_rsp t then
      op ← first_operand w t;
      m ← mangle_push live_regs spill_regs op;
      Ret (Some {| m_pre := m_pre m; m_in := m_in m; m_post := m_post m ++ [pop_ rsp];
                   m_live := m_live m; m_spill := m_spill m |})
    else Ret None
  else if reads_from_rsp t then
    rsp_op ← for_each_operand (get_rsp w) w None;
    match rsp_op with
    | Some rsp_op => m ← mangle_source_sp live_regs spill_regs w rsp_op; Ret (Some m)
    | None => Fault
    end
  else ASSERT (negb (writes_to_rsp t)) ≫= fun _ => Ret None.

(** ** [visit_operands] *)

(** A register to save the carry flag in: its number, or null when the flag
    is not needed, whether it was spilled, and the code. *)
Definition save_carry_flag (restore_before restore_after : bool) (live_regs spill_regs : register_manager)
    : outcome (Z * bool * list instr * register_manager * register_manager) :=
  if negb restore_before && negb restore_after then Ret (DR_REG_NULL, false, [], live_regs, spill_regs)
  else
    let z := get_zombie live_regs in
    if z.1 =? DR_REG_NULL then
      let s := get_zombie spill_regs in
      ASSERT (negb (s.1 =? DR_REG_NULL)) ≫= fun _ =>
      r ← reg_of s.1;
      Ret (s.1, true, [push_ (OReg r); setb_ r], z.2, s.2)
    else
      spill_regs ← revive_reg z.1 spill_regs;
      r ← reg_of z.1;
      Ret (z.1, false, [setb_ r], z.2, spill_regs).

(** [must_change_regs_but_cant]: a source register of the instruction is
    also an address register. *)
Definition record_source_regs (w : winstr) (op : operand_ref) (rms : register_manager * register_manager)
    : outcome (register_manager * register_manager) :=
  let '(mem_regs, reg_regs) := rms in
  o ← get_operand w (ref_op op);
  match ref_kind op, o with
  | SOURCE_OPERAND, WReg r => rm ← kill_reg r reg_regs; Ret (mem_regs, rm)
  | SOURCE_OPERAND, WMem _ _ v =>
      rm ← kill_reg (bd_base v) mem_regs; rm ← kill_reg (bd_index v) rm; Ret (rm, reg_regs)
  | _, _ => Ret rms
  end.

(** The loop over the zombies of [mem_regs], of which there are at most
    sixteen. *)
Fixpoint shared_reg (n : nat) (mem_regs reg_regs : register_manager) : outcome bool :=
  match n with
  | O => OutOfFuel
  | S n =>
      let z := get_zombie mem_regs in
      if z.1 =? DR_REG_NULL then Ret false
      else
        d ← is_dead reg_regs z.1;
        if (d : bool) then Ret true else shared_reg n z.2 reg_regs
  end.

Definition must_change_regs_but_cant (w : winstr) : outcome bool :=
  if is_string (w_opcode w) then Ret false
  else
    rms ← for_each_operand (record_source_regs w) w
      (revive_all register_manager_ctor, revive_all register_manager_ctor);
    shared_reg 17 rms.1 rms.2.

(** The operand of [lea]. *)
Definition reg_opt (id : Z) : outcome (option reg) :=
  if id =? DR_REG_NULL then Ret None else r ← reg_of id; Ret (Some r).

Definition lea_operand (addr : reg) (v : base_disp) : outcome instr :=
  base ← reg_opt (bd_base v);
  index ← reg_opt (bd_index v);
  Ret (lea_bd_ addr base index (bd_scale v) (bd_disp v)).

(** The labels of operand [i]: before the test, on a watched address, and
    behind both. *)
Definition pre_label (i : nat) : nat := 3 * i.
Definition watched_label (i : nat) : nat := 3 * i + 1.
Definition not_a_watchpoint (i : nat) : nat := 3 * i + 2.
Definition before_label : nat := 6.
Definition after_label (i : nat) : nat := 7 + i.

(** What a client inserts at the labels of an operand: it is told how the
    operand is accessed, the register with the address, and the size of the
    access ([visit_read] and [visit_write] of the [Watcher]). *)
Context (at_pre_label at_label : nat -> operand_kind -> reg -> Z -> list instr).

(** The test of the address in [addr], and on a watched address the
    replacement of the high bits in [original]; [save] keeps a copy of
    [original] in [addr]. *)
Definition translate_address (i : nat) (kind : operand_kind) (size : Z) (check_bit_47 save : bool)
    (addr original : reg) : list instr :=
  [label_ (pre_label i)] ++ at_pre_label i kind addr size ++
  [bt_ addr DISTINGUISHING_BIT_OFFSET] ++
  (if save then [mov_st_ (OReg addr) original] else []) ++
  [IF_USER_ELSE jnb_ jb_ (not_a_watchpoint i)] ++
  (if check_bit_47 then
     [bt_ addr (DISTINGUISHING_BIT_OFFSET - 1); IF_USER_ELSE jb_ jnb_ (not_a_watchpoint i)]
   else []) ++
  [label_ (watched_label i)] ++ at_label i kind addr size ++
  (if save then [mov_st_ (OReg addr) original] else []) ++
  [ bswap_ original;
    mov_imm16_ original (IF_USER_ELSE 0 (u64 (-1)));
    bswap_ original;
    label_ (not_a_watchpoint i) ].

(** The state of the loop over the operands. *)
Record visit_state := {
  vs_in : winstr;
  vs_live : register_manager;
  vs_spill : register_manager;
  vs_used : register_manager;
  vs_before : list instr;
  vs_afters : list (list instr);
  vs_regs : list (reg * Z)
}.

(** The register for the address: one that the instruction overwrites and
    does not read, if the operand can be replaced; a dead one; or none. *)
Definition choose_addr_reg (can_change : bool) (live_regs used : register_manager)
    : outcome (Z * register_manager * register_manager) :=
  let u := if can_change then get_zombie used else (DR_REG_NULL, used) in
  if u.1 =? DR_REG_NULL then let z := get_zombie live_regs in Ret (z.1, z.2, u.2)
  else live_regs ← revive_reg u.1 live_regs; Ret (u.1, live_regs, u.2).

(** Whether [addr_reg] is the only register of the operand. *)
Definition only_op_reg (addr_reg seg : Z) (v : base_disp) : outcome bool :=
  if negb (seg =? 0) then Ret false
  else if bd_index v =? DR_REG_NULL then b ← scale (bd_base v) REG_64; Ret (addr_reg =? b)
  else if bd_base v =? DR_REG_NULL then x ← scale (bd_index v) REG_64; Ret (addr_reg =? x)
  else Ret false.

Definition simple_operand (v : base_disp) : bool :=
  if bd_index v =? DR_REG_NULL then bd_disp v =? 0
  else if bd_base v =? DR_REG_NULL then (bd_disp v =? 0) && (bd_scale v <=? 1)
  else false.

(** [this->sizes]. *)
Definition access_size (size : Z) : Z := if 16 <? size then 16 else if size =? 0 then 1 else size.

(** How the register is restored behind the instruction. *)
Definition restore_unwatched (full : bool) (original addr : reg) : list instr :=
  if full then [mov_ld_ original (OReg addr)]
  else [bswap_ original; bswap_ addr; mov_16_ original addr; bswap_ original].

Definition visit_operand (check_bit_47 uses_rsp : bool) (regs_killed_by_in live_regs_after : register_manager)
    (i : nat) (op : operand_ref) (can_change : bool) (s : visit_state) : outcome visit_state :=
  original_op ← get_operand (vs_in s) (ref_op op);
  match original_op with
  | WMem seg size v =>
      cannot ← (if can_change then Ret false else must_change_regs_but_cant (vs_in s));
      ASSERT (negb cannot) ≫= fun _ =>
      c ← choose_addr_reg can_change (vs_live s) (vs_used s);
      let '(stolen, live_regs, used) := c in
      let addr_reg_was_spilled := stolen =? DR_REG_NULL in
      r ← (if addr_reg_was_spilled then
             ASSERT (negb uses_rsp) ≫= fun _ =>
             let z := get_zombie (vs_spill s) in Ret (z.1, z.2)
           else spill_regs ← revive_reg stolen (vs_spill s); Ret (stolen, spill_regs));
      let '(addr_reg, spill_regs) := r in
      addr ← reg_of addr_reg;
      addr_reg_is_only_op_reg ← (if addr_reg_was_spilled then Ret false else only_op_reg addr_reg seg v);
      let compute_addr := if (addr_reg_is_only_op_reg : bool) then negb (bd_disp v =? 0) || (1 <? bd_scale v)
                          else true in
      lea ← (if compute_addr then lea ← lea_operand addr v; Ret [lea] else Ret []);
      let in_ := if compute_addr && can_change then
                   replace_with op (WMem seg size
                     {| bd_disp := 0; bd_base := addr_reg; bd_index := DR_REG_NULL; bd_scale := 1 |}) (vs_in s)
                 else vs_in s in
      let original_addr_reg := if can_change then addr_reg else bd_base v in
      k ← is_live regs_killed_by_in original_addr_reg;
      l ← is_live live_regs_after original_addr_reg;
      ASSERT (negb (can_change && addr_reg_is_only_op_reg && k && l)) ≫= fun _ =>
      let restore_unwatched_reg :=
        k && l && (negb addr_reg_was_spilled || negb (original_addr_reg =? addr_reg)) in
      let restore_full := negb (is_string (w_opcode in_)) in
      ASSERT (negb (compute_addr && addr_reg_is_only_op_reg && restore_unwatched_reg)) ≫= fun _ =>
      ASSERT (negb (restore_unwatched_reg && can_change)) ≫= fun _ =>
      let double_restore := restore_unwatched_reg && (negb (simple_operand v) || negb compute_addr) in
      original_addr ← reg_of original_addr_reg;
      ka ← is_live regs_killed_by_in addr_reg;
      ASSERT (negb restore_unwatched_reg || (negb (addr_reg =? original_addr_reg) && ka)) ≫= fun _ =>
      Ret {| vs_in := in_; vs_live := live_regs; vs_spill := spill_regs; vs_used := used;
             vs_before := vs_before s ++
               (if addr_reg_was_spilled then [push_ (OReg addr)] else []) ++
               lea ++
               translate_address i (ref_kind op) (access_size size) check_bit_47 double_restore addr original_addr;
             vs_afters := vs_afters s ++
               [(if restore_unwatched_reg then restore_unwatched restore_full original_addr addr else []) ++
                (if addr_reg_was_spilled then [pop_ addr] else [])];
             vs_regs := vs_regs s ++ [(addr, access_size size)] |}
  | _ => Fault
  end.

Fixpoint visit_operand_loop (check_bit_47 uses_rsp : bool) (regs_killed_by_in live_regs_after : register_manager)
    (i : nat) (rs : list (operand_ref * bool)) (s : visit_state) : outcome visit_state :=
  match rs with
  | [] => Ret s
  | (op, can_change) :: rs =>
      s ← visit_operand check_bit_47 uses_rsp regs_killed_by_in live_regs_after i op can_change s;
      visit_operand_loop check_bit_47 uses_rsp regs_killed_by_in live_regs_after (S i) rs s
  end.

(** The labels behind the instruction: that of the last operand is the
    closest. *)
Definition afters_code (afters : list (list instr)) : list instr :=
  concat (rev (imap (fun i l => l ++ [label_ (after_label i)]) afters)).

(** The code before the instruction, the instruction, and the code behind
    it. *)
Record instrumented := {
  i_before : list instr;
  i_in : winstr;
  i_after : list instr;
  i_regs : list (reg * Z)
}.

Definition visit_operands (check_bit_47 restore_before restore_after : bool) (w : winstr) (t : found_operands)
    (live_regs spill_regs live_regs_after : register_manager) : outcome instrumented :=
  regs_killed_by_in ← visit_dests (w_view w) register_manager_ctor;
  regs_used_by_in ← visit (w_view w) register_manager_ctor;
  let can_replace := if has_live_xmm spill_regs then map (fun _ => true) (can_replace t) else can_replace t in
  c ← save_carry_flag restore_before restore_after live_regs spill_regs;
  let '(carry_flag, spilled_carry_flag, save, live_regs, spill_regs) := c in
  let uses_rsp := reads_from_rsp t || writes_to_rsp t in
  ASSERT (negb (spilled_carry_flag && uses_rsp)) ≫= fun _ =>
  s ← visit_operand_loop check_bit_47 uses_rsp regs_killed_by_in live_regs_after 0 (zip (ops t) can_replace)
    {| vs_in := w; vs_live := live_regs; vs_spill := spill_regs; vs_used := regs_used_by_in;
       vs_before := save; vs_afters := []; vs_regs := [] |};
  carry ← (if restore_before || restore_after then r ← reg_of carry_flag; Ret [bt_ r 0] else Ret []);
  pop ← (if (spilled_carry_flag : bool) then r ← reg_of carry_flag; Ret [pop_ r] else Ret []);
  after ← match vs_afters s with
    | [] => if restore_after || spilled_carry_flag then Fault else Ret []
    | a0 :: afters => Ret (afters_code ((a0 ++ (if restore_after then carry else []) ++ pop) :: afters))
    end;
  Ret {| i_before := vs_before s ++ (if restore_before then carry else []) ++ [label_ before_label];
         i_in := vs_in s; i_after := after; i_regs := vs_regs s |}.

(** ** The pass over a block *)

(** The rewritten block: emitted instructions, and instructions of the
    block with their operands replaced. *)
Inductive item :=
  | Emit (i : instr)
  | Native (w : winstr).

(** [lea], [nop_modrm], [leave], [enter], instructions that are mangled
    already, and branches are left alone. *)
Definition is_ignored (w : winstr) : bool :=
  (w_opcode w =? OP_lea) || (w_opcode w =? OP_nop_modrm) || (w_opcode w =? OP_leave) ||
  (w_opcode w =? OP_enter) || w_is_mangled w || w_is_cti w.

(** A single operand relative to a segment is left alone. *)
Definition is_segment_operand (w : winstr) (t : found_operands) : outcome bool :=
  if bool_decide (length (ops t) = 1%nat) then
    op ← first_operand w t;
    Ret (match op with WMem seg _ _ => (seg =? DR_SEG_GS) || (seg =? DR_SEG_FS) | _ => false end)
  else Ret false.

(** One turn of the backward pass: the registers live before [w], whether the
    carry flag is read from there on, and the code. *)
Definition instrument_instruction (in_user_access_zone is_last : bool) (next_live_regs : register_manager)
    (next_reads_carry_flag : bool) (w : winstr) : outcome (register_manager * bool * list item) :=
  live_regs ← revive_instr (w_view w) (if is_last then revive_all next_live_regs else next_live_regs);
  let '(reads, restore_before, restore_after) := track_carry_flag w next_reads_carry_flag in
  live_before ← visit (w_view w) next_live_regs;
  if is_ignored w then Ret (live_before, reads, [Native w])
  else
    t ← for_each_operand (find_memory_operand w) w no_operands;
    if bool_decide (ops t = []) then Ret (live_before, reads, [Native w])
    else
      seg ← is_segment_operand w t;
      if (seg : bool) then Ret (live_before, reads, [Native w])
      else
        spill_regs ← revive_instr (w_view w) (kill_all register_manager_ctor);
        mm ← mangle w t live_regs spill_regs;
        let check_bit_47 := env_kernel && in_user_access_zone in
        match mm with
        | None =>
            i ← visit_operands check_bit_47 restore_before restore_after w t live_regs spill_regs next_live_regs;
            Ret (live_before, reads, map Emit (i_before i) ++ [Native (i_in i)] ++ map Emit (i_after i))
        | Some m =>
            t ← for_each_operand (find_memory_operand (m_in m)) (m_in m) no_operands;
            i ← visit_operands check_bit_47 restore_before restore_after (m_in m) t (m_live m) (m_spill m) next_live_regs;
            Ret (live_before, reads,
                 map Emit (m_pre m ++ i_before i) ++ [Native (i_in i)] ++ map Emit (i_after i ++ m_post m))
        end.

(** [visit_instructions], from the last instruction to the first; the
    argument is the block in reverse. *)
Fixpoint visit_instructions_loop (in_user_access_zone is_last : bool) (next_live_regs : register_manager)
    (next_reads_carry_flag : bool) (rev_ls : list winstr) (done : list item) : outcome (list item) :=
  match rev_ls with
  | [] => Ret done
  | w :: rev_ls =>
      r ← instrument_instruction in_user_access_zone is_last next_live_regs next_reads_carry_flag w;
      visit_instructions_loop in_user_access_zone false r.1.1 r.1.2 rev_ls (r.2 ++ done)
  end.

Definition visit_instructions (in_user_access_zone : bool) (ls : list winstr) : outcome (list item) :=
  visit_instructions_loop in_user_access_zone true register_manager_ctor true (rev ls) [].

End Instrument.
