(* ===== verification/WpCorrect.v ===== *)
(** * Watchpoint instrumentation is transparent

    The comment in [clients/watchpoints/instrument.h] promises of the code of
    [WpInstrument]: "if no code is added before/after these labels, then the
    net effect is that the code will just mask out all watchpoint accesses to
    behave as normal".  This file proves it for the instructions whose
    memory operands can be replaced: the emitted code has the effect of the
    instruction at the unwatched addresses, on memory, on the registers that
    are live behind it, and on the flags that are still read; and it has the
    statement for the string instructions whose source pointer loses its
    watchpoint.

    First come the registers (the ones handed out are distinct, and are not
    used by the instruction), then the test of an address, then the
    composition. *)

From Stdlib Require Import ZArith Lia Bool.
From stdpp Require Import base numbers list option.
From S2P Require Import Prelude Register Machine EmitUtils Mangle Watchpoint WpInstrument.

(** ** Registers *)
Definition free (rm : register_manager) (r : Z) : Prop := lives rm r || zombie rm r = false.

(** The instruction names register [r]. *)
Definition mentions (i : Register.instr) (r : Z) : bool :=
  in_ops op_names (in_dsts i) r || in_ops op_names (in_srcs i) r.

Lemma revive_instr_ok i rm :
  instr_ok i -> rm_wf rm -> in_is_nop i = false ->
  exists rm', revive_instr i rm = Ret rm' /\ rm_wf rm' /\
    forall r, 1 <= r <= 16 ->
      lives rm' r = lives rm r || mentions i r /\ zombie rm' r = zombie rm r && negb (mentions i r).
Proof.
  intros [Hd Hs] Hwf Hn. destruct (wf_view rm Hwf) as [V Hsp]. unfold revive_instr. rewrite Hn.
  destruct (revive_ops_view (in_dsts i) _ _ _ _ _ Hd V) as (rm1 & E1 & V1). rewrite E1. cbn [mbind outcome_bind].
  destruct (revive_ops_view (in_srcs i) _ _ _ _ _ Hs V1) as (rm2 & E2 & V2). exists rm2. split; [done|].
  split; [eapply view_wf; [done|]; cbn; by rewrite Hsp|].
  intros r Hr. destruct V2 as [_ V2]. destruct (V2 r Hr) as (-> & -> & _). unfold mentions.
  by rewrite orb_assoc, negb_orb, andb_assoc.
Qed.

Lemma reg64_small z : 1 <= z <= 16 -> reg64_of z = z.
Proof.
  intros Hz. destruct (reg_of_id_spec z Hz) as (r & _ & <-). apply reg64_of_id.
Qed.

Lemma revive_reg_ok z rm :
  1 <= z <= 16 -> rm_wf rm ->
  exists rm', revive_reg z rm = Ret rm' /\ rm_wf rm' /\
    forall r, 1 <= r <= 16 -> lives rm' r = lives rm r || (z =? r) /\ zombie rm' r = zombie rm r && negb (z =? r).
Proof.
  intros Hz Hwf. destruct (wf_view rm Hwf) as [V Hsp]. unfold revive_reg.
  rewrite (proj2 (Z.leb_gt DR_REG_MM0 z)) by lia.
  destruct (revive_64_view z rm _ _ _ _ ltac:(lia) V) as (rm' & E & V'). exists rm'. split; [done|].
  rewrite (reg64_small z Hz) in V'. split; [eapply view_wf; [done|]; cbn; by rewrite Hsp|].
  intros r Hr. destruct V' as [_ V']. by destruct (V' r Hr) as (-> & -> & _).
Qed.

Lemma revive_reg_free z rm rm' r :
  1 <= r <= 16 ->
  (forall r, 1 <= r <= 16 -> lives rm' r = lives rm r || (z =? r) /\ zombie rm' r = zombie rm r && negb (z =? r)) ->
  free rm' r <-> free rm r /\ r <> z.
Proof.
  intros Hr Hv. unfold free. destruct (Hv r Hr) as [-> ->].
  destruct (Z.eqb_spec z r) as [->|Hne]; cbn [negb andb]; rewrite ?orb_true_r, ?orb_false_r, ?andb_true_r; cbn.
  - split; [done|]. by intros [_ ?].
  - split; [split; [done|congruence]|]. by intros [? _].
Qed.

Lemma get_zombie_free rm z rm' :
  rm_wf rm -> get_zombie rm = (z, rm') ->
  rm_wf rm' /\
  ((z = DR_REG_NULL /\ rm' = rm /\ forall r, 1 <= r <= 16 -> ~ free rm r) \/
   (z <> DR_REG_NULL /\ 1 <= z <= 16 /\ z <> DR_REG_RSP /\ free rm z /\
    forall r, 1 <= r <= 16 -> (free rm' r <-> free rm r /\ r <> z))).
Proof.
  intros Hwf E. destruct (get_zombie_spec rm z rm' Hwf E) as (Hwf' & El & Hc). split; [done|]. unfold free, lives.
  rewrite El. fold (lives rm). destruct Hc as [(-> & -> & Hc)|(Hz & Hsp & Hl & Hu & _ & Hv)].
  - left. split; [done|]. split; [done|]. intros r Hr. unfold lives in Hc. rewrite Hc by done. done.
  - right. split; [lia|]. split; [done|]. split; [done|]. split; [unfold lives in *; by rewrite Hl, Hu|].
    intros r Hr. rewrite Hv by done. fold (lives rm r). destruct (Z.eqb_spec r z) as [->|]; cbn.
    + rewrite !orb_true_r. split; [done|]. by intros [_ ?].
    + rewrite orb_false_r. split; [by split|]. by intros [? _].
Qed.

(** The registers handed out so far, and what is left in the three sets. *)
Record taking (i : Register.instr) (live_after : register_manager) (taken : list Z)
    (live_regs spill_regs used : register_manager) : Prop := {
  tk_live_wf : rm_wf live_regs;
  tk_spill_wf : rm_wf spill_regs;
  tk_used_wf : rm_wf used;
  tk_live : forall r, 1 <= r <= 16 -> free live_regs r ->
    mentions i r = false /\ lives live_after r = false /\ r ∉ taken;
  tk_spill : forall r, 1 <= r <= 16 -> (free spill_regs r <-> r <> DR_REG_RSP /\ mentions i r = false /\ r ∉ taken);
  tk_used : forall r, 1 <= r <= 16 -> free used r -> overwrites i r = true /\ uses i r = false /\ r ∉ taken
}.

(** How a register was found. *)
Definition suitable (i : Register.instr) (live_after : register_manager) (spilled : bool) (z : Z) : Prop :=
  if spilled then mentions i z = false
  else (mentions i z = false /\ lives live_after z = false) \/ (overwrites i z = true /\ uses i z = false).

Definition spare (i : Register.instr) (taken : list Z) : Prop :=
  exists r, 1 <= r <= 16 /\ r <> DR_REG_RSP /\ mentions i r = false /\ r ∉ taken.

Lemma overwrites_mentions i r : overwrites i r = true -> mentions i r = true.
Proof.
  unfold overwrites, mentions. rewrite !andb_true_iff. intros [_ Ho]. rewrite orb_true_iff. left.
  unfold in_ops in *. rewrite existsb_exists in *. destruct Ho as (o & Hin & Ho). exists o. split; [done|].
  unfold op_names. rewrite orb_true_iff. left. destruct o as [g| |]; cbn in *; try done.
  rewrite andb_true_iff in Ho. destruct Ho as [?%Z.leb_le ->]. rewrite (proj2 (Z.ltb_lt g DR_REG_MM0)) by lia. done.
Qed.

(** A register is taken out of the dead ones. *)
Lemma taking_live i la taken live_regs spill_regs used z live' :
  taking i la taken live_regs spill_regs used -> get_zombie live_regs = (z, live') -> z <> DR_REG_NULL ->
  1 <= z <= 16 /\ z <> DR_REG_RSP /\ (z ∉ taken) /\ mentions i z = false /\ lives la z = false /\
  exists spill', revive_reg z spill_regs = Ret spill' /\ taking i la (z :: taken) live' spill' used.
Proof.
  intros T E Hz. pose proof T as [Wl Ws Wu Tl Ts Tu].
  destruct (get_zombie_free _ _ _ Wl E) as [Wl' [(? & _)|(_ & Hr & Hsp & Hf & Hv)]]; [done|].
  destruct (Tl z Hr Hf) as (Hm & Hla & Hnt).
  do 5 (split; [done|]). destruct (revive_reg_ok z spill_regs Hr Ws) as (spill' & Es & Ws' & Hvs).
  exists spill'. split; [done|]. constructor; try done.
  - intros r Hr' [Hfr Hne]%Hv; [|done]. destruct (Tl r Hr' Hfr) as (? & ? & ?). by rewrite not_elem_of_cons.
  - intros r Hr'. rewrite (revive_reg_free z spill_regs spill' r Hr' Hvs), (Ts r Hr'), not_elem_of_cons. tauto.
  - intros r Hr' Hfr. destruct (Tu r Hr' Hfr) as (Ho & ? & ?). rewrite not_elem_of_cons. split; [done|].
    split; [done|]. split; [|done]. intros ->. apply overwrites_mentions in Ho. congruence.
Qed.

(** A register is spilled, when no dead one is left. *)
Lemma taking_spill i la taken live_regs spill_regs used :
  taking i la taken live_regs spill_regs used -> spare i taken -> (forall r, 1 <= r <= 16 -> ~ free live_regs r) ->
  exists z spill', get_zombie spill_regs = (z, spill') /\ z <> DR_REG_NULL /\
    1 <= z <= 16 /\ z <> DR_REG_RSP /\ (z ∉ taken) /\ mentions i z = false /\
    taking i la (z :: taken) live_regs spill' used.
Proof.
  intros T (x & Hx & Hxs & Hxm & Hxt) Hnl. pose proof T as [Wl Ws Wu Tl Ts Tu].
  destruct (get_zombie spill_regs) as [z spill'] eqn:E. exists z, spill'. split; [done|].
  destruct (get_zombie_free _ _ _ Ws E) as [Ws' [(_ & _ & Hno)|(Hz & Hr & Hsp & Hf & Hv)]].
  { destruct (Hno x Hx). by apply Ts. }
  destruct (proj1 (Ts z Hr) Hf) as (_ & Hm & Hnt).
  do 5 (split; [done|]). constructor; try done.
  - intros r Hr' Hfr. by destruct (Hnl r Hr').
  - intros r Hr'. rewrite (Hv r Hr'), (Ts r Hr'), not_elem_of_cons. tauto.
  - intros r Hr' Hfr. destruct (Tu r Hr' Hfr) as (Ho & ? & ?). rewrite not_elem_of_cons. split; [done|].
    split; [done|]. split; [|done]. intros ->. apply overwrites_mentions in Ho. congruence.
Qed.

(** The register for the address of a replaceable operand. *)
Lemma choose_addr_reg_ok i la taken live_regs spill_regs used :
  taking i la taken live_regs spill_regs used -> spare i taken ->
  exists stolen live' used' z spill', choose_addr_reg true live_regs used = Ret (stolen, live', used') /\
    (if stolen =? DR_REG_NULL then get_zombie spill_regs = (z, spill')
     else z = stolen /\ revive_reg stolen spill_regs = Ret spill') /\
    1 <= z <= 16 /\ z <> DR_REG_RSP /\ (z ∉ taken) /\ suitable i la (stolen =? DR_REG_NULL) z /\
    taking i la (z :: taken) live' spill' used'.
Proof.
  intros T Hspare. pose proof T as [Wl Ws Wu Tl Ts Tu]. unfold choose_addr_reg.
  destruct (get_zombie used) as [u used'] eqn:Eu. cbn [fst snd].
  destruct (get_zombie_free _ _ _ Wu Eu) as [Wu' [(-> & -> & Hno)|(Hu & Hr & Hsp & Hf & Hv)]].
  - cbn [Z.eqb]. destruct (get_zombie live_regs) as [z live'] eqn:El. cbn [fst snd].
    destruct (decide (z = DR_REG_NULL)) as [->|Hz].
    + destruct (get_zombie_free _ _ _ Wl El) as [_ [(_ & -> & Hnl)|(? & _)]]; [|done].
      destruct (taking_spill _ _ _ _ _ _ T Hspare Hnl) as (z & spill' & Es & Hz0 & Hz1 & Hz2 & Hz3 & Hz4 & T').
      exists DR_REG_NULL, live_regs, used, z, spill'. cbn [Z.eqb]. by do 6 (split; [done|]).
    + destruct (taking_live _ _ _ _ _ _ _ _ T El Hz) as (H1 & H2 & H3 & H4 & H5 & spill' & Es & T').
      exists z, live', used, z, spill'. rewrite (proj2 (Z.eqb_neq z 0)) by done. unfold suitable.
      do 5 (split; [done|]). split; [by left|done].
  - rewrite (proj2 (Z.eqb_neq u 0)) by done.
    destruct (Tu u Hr Hf) as (Ho & Hnu & Hnt). pose proof (overwrites_mentions i u Ho) as Hm.
    destruct (revive_reg_ok u live_regs Hr Wl) as (live' & El & Wl' & Hvl). rewrite El. cbn [mbind outcome_bind].
    destruct (revive_reg_ok u spill_regs Hr Ws) as (spill' & Es & Ws' & Hvs).
    exists u, live', used', u, spill'. rewrite (proj2 (Z.eqb_neq u 0)) by done. unfold suitable.
    do 5 (split; [done|]). split; [by right|]. constructor; try done.
    + intros r Hr' [Hfr Hne]%(revive_reg_free u live_regs live' r Hr' Hvl). destruct (Tl r Hr' Hfr) as (? & ? & ?).
      by rewrite not_elem_of_cons.
    + intros r Hr'. rewrite (revive_reg_free u spill_regs spill' r Hr' Hvs), (Ts r Hr'), not_elem_of_cons. tauto.
    + intros r Hr' [Hfr Hne]%Hv; [|done]. destruct (Tu r Hr' Hfr) as (? & ? & ?). by rewrite not_elem_of_cons.
Qed.

Lemma reg_of_ok z : 1 <= z <= 16 -> exists r, reg_of z = Ret r /\ reg_id r = z.
Proof.
  intros Hz. destruct (reg_of_id_spec z Hz) as (r & E & Hr). exists r. unfold reg_of. by rewrite E.
Qed.

(** A register for the carry flag. *)
Lemma save_carry_flag_ok i la live_regs spill_regs used before after :
  taking i la [] live_regs spill_regs used -> spare i [] ->
  exists c spilled code live' spill',
    save_carry_flag before after live_regs spill_regs = Ret (c, spilled, code, live', spill') /\
    if before || after then
      exists r, reg_of c = Ret r /\ reg_id r = c /\ c <> DR_REG_RSP /\ mentions i c = false /\
        (spilled = false -> lives la c = false) /\
        code = (if spilled then [push_ (OReg r)] else []) ++ [setb_ r] /\
        taking i la [c] live' spill' used
    else spilled = false /\ code = [] /\ taking i la [] live' spill' used.
Proof.
  intros T Hspare. unfold save_carry_flag. rewrite <- negb_orb. destruct (before || after); cbn [negb].
  2: { exists DR_REG_NULL, false, [], live_regs, spill_regs. done. }
  destruct (get_zombie live_regs) as [z live'] eqn:El. cbn [fst snd].
  destruct (Z.eqb_spec z DR_REG_NULL) as [->|Hz].
  - destruct (get_zombie_free _ _ _ (tk_live_wf _ _ _ _ _ _ T) El) as [_ [(_ & -> & Hnl)|(? & _)]]; [|done].
    destruct (taking_spill _ _ _ _ _ _ T Hspare Hnl) as (z & spill' & Es & Hz0 & Hz1 & Hz2 & _ & Hz4 & T').
    rewrite Es. cbn [fst snd]. rewrite (proj2 (Z.eqb_neq z 0)) by done. cbn [negb ASSERT mbind outcome_bind].
    destruct (reg_of_ok z Hz1) as (r & Er & Hr). rewrite Er. cbn [mbind outcome_bind].
    exists z, true, [push_ (OReg r); setb_ r], live_regs, spill'. split; [done|]. exists r. by do 6 (split; [done|]).
  - destruct (taking_live _ _ _ _ _ _ _ _ T El Hz) as (H1 & H2 & _ & H4 & H5 & spill' & Es & T').
    rewrite Es. cbn [mbind outcome_bind]. destruct (reg_of_ok z H1) as (r & Er & Hr). rewrite Er. cbn [mbind outcome_bind].
    exists z, false, [setb_ r], live', spill'. split; [done|]. exists r. by do 6 (split; [done|]).
Qed.

(** ** Running code with forward jumps

    [seg], a part of [code] with [rest] behind it, runs from [m] to [m'], with
    at most [k] branches. *)
Definition steps (ns : native_sem) (cl : callee_sem) (code : list instr) (k : nat) (seg rest : list instr)
    (m m' : mach) : Prop :=
  forall f, (k <= f)%nat -> exists f', (f <= f' + k)%nat /\
    run_from (branch f ns cl code) ns cl (seg ++ rest) m = run_from (branch f' ns cl code) ns cl rest m'.

Lemma steps_straight ns cl code seg rest m m' :
  exec_list ns seg m = Some m' -> steps ns cl code 0 seg rest m m'.
Proof. intros E f _. exists f. split; [lia|]. by apply run_from_straight. Qed.

Lemma steps_app ns cl code k1 k2 s1 s2 rest m m1 m2 :
  steps ns cl code k1 s1 (s2 ++ rest) m m1 -> steps ns cl code k2 s2 rest m1 m2 ->
  steps ns cl code (k1 + k2) (s1 ++ s2) rest m m2.
Proof.
  intros H1 H2 f Hf. destruct (H1 f ltac:(lia)) as (f1 & Hf1 & E1). destruct (H2 f1 ltac:(lia)) as (f2 & Hf2 & E2).
  exists f2. split; [lia|]. by rewrite <- app_assoc, E1, E2.
Qed.

Definition labels_below (n : nat) (l : list instr) : Prop := forall x, label_ x ∈ l -> (x < n)%nat.

Lemma labels_below_app n l1 l2 : labels_below n l1 -> labels_below n l2 -> labels_below n (l1 ++ l2).
Proof. intros H1 H2 x [?|?]%elem_of_app; auto. Qed.

Lemma labels_below_mono n n' l : (n <= n')%nat -> labels_below n l -> labels_below n' l.
Proof. intros Hn Hl x Hx. specialize (Hl x Hx). lia. Qed.

Lemma find_label_here l pre rest : (forall x, label_ x ∈ pre -> x <> l) -> find_label l (pre ++ label_ l :: rest) = Some rest.
Proof.
  induction pre as [|i pre IH]; intros Hp; cbn [app find_label].
  - by rewrite decide_True.
  - assert (Hi : find_label l (pre ++ label_ l :: rest) = Some rest).
    { apply IH. intros x Hx. apply Hp. by right. }
    destruct i; try done. rewrite decide_False; [done|]. intros ->. by apply (Hp l0); [left|].
Qed.

(** A branch to a label ahead. *)
Lemma steps_jump ns cl code pre skipped l rest i m m' :
  code = pre ++ (i :: skipped) ++ label_ l :: rest -> exec1 ns i m = Branch l m' ->
  (forall x, label_ x ∈ pre ++ i :: skipped -> x <> l) ->
  steps ns cl code 1 ((i :: skipped) ++ [label_ l]) rest m m'.
Proof.
  intros -> E Hl f Hf. destruct f as [|f]; [lia|]. exists f. split; [lia|].
  assert (Ef : find_label l (pre ++ (i :: skipped) ++ label_ l :: rest) = Some rest)
    by (rewrite app_assoc; by apply find_label_here).
  cbn [app run_from] in *. rewrite E. cbn [branch]. by rewrite Ef.
Qed.

(** ** The test of an address *)
Section Translate.
Context `{Config}.

(** No code is added at the labels. *)
Definition no_code : nat -> operand_kind -> reg -> Z -> list instr := fun _ _ _ _ => [].

(** What the emitted test does to an address. *)
Definition emitted_unwatch (check_bit_47 : bool) (a : Z) : Z :=
  if env_kernel then
    if Z.testbit a 48 || (check_bit_47 && negb (Z.testbit a 47)) then a else unwatched_address a
  else if negb (Z.testbit a 48) || (check_bit_47 && Z.testbit a 47) then a else unwatched_address a.

(** The addresses on which it agrees with [unwatched_address_check]: in the
    kernel those with bit 47 set, and with the check also user addresses. *)
Definition translatable (check_bit_47 : bool) (a : Z) : Prop :=
  if env_kernel then Z.testbit a 47 = true \/ (check_bit_47 = true /\ Z.testbit a 48 = false)
  else check_bit_47 = false.

Lemma emitted_unwatch_agrees check a :
  0 <= a -> translatable check a -> emitted_unwatch check a = unwatched_address_check a.
Proof.
  intros Ha. unfold translatable, emitted_unwatch, unwatched_address_check. rewrite is_watched_bits by done.
  destruct env_kernel.
  - intros [->|[-> ->]]; [destruct (Z.testbit a 48)|destruct (Z.testbit a 47)]; cbn; by rewrite ?andb_false_r.
  - intros ->. by destruct (Z.testbit a 48).
Qed.

(** The flags but CF. *)
Definition eq_but_cf (f g : Z) : Prop := set_flag CF false f = set_flag CF false g.

Lemma eq_but_cf_set b f : eq_but_cf (set_flag CF b f) f.
Proof. unfold eq_but_cf, set_flag. by rewrite set_field_set_same. Qed.

Lemma eq_but_cf_flags f g : eq_but_cf f g -> get_flag CF f = get_flag CF g -> f = g.
Proof.
  unfold eq_but_cf, get_flag. intros E Eb. apply Z.bits_inj'. intros i Hi.
  destruct (decide (i = CF)) as [->|Hne]; [done|]. apply (f_equal (fun z => Z.testbit z i)) in E.
  rewrite !testbit_set_flag in E by (unfold CF; lia). unfold CF in *. destruct (Z.eqb_spec i 0); [lia|done].
Qed.

(** The high bits are replaced by way of byte swaps. *)
Lemma replace_high_bits v : in_width 64 v ->
  bswap64 (set_field 0 16 (u16 (IF_USER_ELSE 0 (u64 (-1)))) (bswap64 v)) = unwatched_address v.
Proof.
  intros Hv. unfold IF_USER_ELSE, unwatched_address.
  change CLEAR_INDEX_MASK with (Z.ones 48). destruct env_kernel.
  - change (u16 (u64 (-1))) with (bswap16 0xFFFF). rewrite bswap64_set_low by (done || by split).
    apply Z.bits_inj'. intros i Hi. rewrite testbit_set_field, Z.lor_spec by lia.
    change (wnot 64 (Z.ones 48)) with (Z.shiftl (Z.ones 16) 48). rewrite Z.shiftl_spec by lia.
    change 0xFFFF with (Z.ones 16). destruct (Z.le_gt_cases 48 i).
    + rewrite !testbit_ones by lia. destruct (Z.lt_ge_cases i 64); [zb; by rewrite orb_true_r|].
      rewrite (testbit_high 64 v i) by (done || lia). zb.
    + rewrite (Z.testbit_neg_r _ (i - 48)) by lia. rewrite orb_false_r. zb.
  - change (u16 0) with (bswap16 0). rewrite bswap64_set_low by (done || by split).
    apply Z.bits_inj'. intros i Hi. rewrite testbit_set_field, Z.land_spec, testbit_ones, Z.bits_0 by lia.
    destruct (Z.lt_ge_cases i 64); [zb; by rewrite ?andb_true_r, ?andb_false_r|].
    rewrite (testbit_high 64 v i) by (done || lia). zb.
Qed.

Abbreviation translate := (translate_address no_code no_code).

(** The label behind the code is found from inside it. *)
Lemma find_not_a_watchpoint pre i kind size check addr rest :
  labels_below (3 * i) pre ->
  find_label (not_a_watchpoint i) (pre ++ translate i kind size check false addr addr ++ rest) = Some rest.
Proof.
  intros Hl. unfold translate_address. rewrite !app_assoc.
  rewrite <- (app_assoc _ [bswap_ addr; mov_imm16_ addr _; bswap_ addr; label_ _]). cbn [app].
  change (bswap_ addr :: ?a :: ?b :: label_ (not_a_watchpoint i) :: rest) with
    ([bswap_ addr; a; b] ++ label_ (not_a_watchpoint i) :: rest). rewrite app_assoc.
  apply find_label_here. intros x Hx. unfold not_a_watchpoint, pre_label, watched_label, IF_USER_ELSE, no_code in *.
  rewrite !elem_of_app in Hx.
  destruct check, env_kernel; rewrite ?elem_of_cons, ?elem_of_nil in Hx;
    repeat match goal with Hx : _ \/ _ |- _ => destruct Hx as [Hx|Hx] end; try discriminate Hx;
    first [specialize (Hl x Hx); lia | injection Hx as ->; lia | by apply elem_of_nil in Hx | done].
Qed.

(** The result of the test: the register holds the address to access. *)
Definition translated (check : bool) (addr : reg) (m m' : mach) : Prop :=
  regs m' addr = emitted_unwatch check (regs m addr) /\ (forall r, r <> addr -> regs m' r = regs m r) /\
  mem m' = mem m /\ eq_but_cf (flags m') (flags m).

Lemma translate_steps ns cl pre i kind size check addr rest m :
  labels_below (3 * i) pre -> in_width 64 (regs m addr) ->
  let code := pre ++ translate i kind size check false addr addr ++ rest in
  exists m', steps ns cl code 1 (translate i kind size check false addr addr) rest m m' /\
    translated check addr m m'.
Proof.
  intros Hl Hw code. pose proof (find_not_a_watchpoint pre i kind size check addr rest Hl) as Hf.
  assert (Hgo : forall f m, branch (S f) ns cl code (not_a_watchpoint i) m =
                            run_from (branch f ns cl code) ns cl rest m).
  { intros f m0. cbn [branch]. unfold code. by rewrite Hf. }
  clearbody code. clear Hf Hl.
  set (m1 := set_flags (set_flag CF (Z.testbit (regs m addr) 48) (flags m)) m).
  set (m2 := set_flags (set_flag CF (Z.testbit (regs m addr) 47) (flags m1)) m1).
  set (unwatch := fun m0 : mach =>
    let a := set_reg addr (bswap64 (regs m0 addr)) m0 in
    let b := set_reg addr (set_field 0 16 (u16 (IF_USER_ELSE 0 (u64 (-1)))) (regs a addr)) a in
    set_reg addr (bswap64 (regs b addr)) b).
  set (skip := if env_kernel then Z.testbit (regs m addr) 48 else negb (Z.testbit (regs m addr) 48)).
  set (skip47 := if env_kernel then negb (Z.testbit (regs m addr) 47) else Z.testbit (regs m addr) 47).
  exists (if skip then m1 else if check then if skip47 then m2 else unwatch m2 else unwatch m1).
  split.
  - intros [|f] Hf; [lia|]. unfold translate_address, no_code, IF_USER_ELSE in *.
    unfold skip, skip47, unwatch, m2, m1. change DISTINGUISHING_BIT_OFFSET with 48. change (48 - 1) with 47. cbn [app].
    destruct env_kernel, check; cbn [app run_from exec1 flags set_flags]; rewrite ?get_flag_set_same by (unfold CF; lia);
      destruct (Z.testbit (regs m addr) 48); cbn [negb regs set_flags];
      rewrite ?Hgo; try (exists f; split; [lia|reflexivity]);
      try (exists (S f); split; [lia|reflexivity]);
      cbn [run_from exec1 flags set_flags]; rewrite ?get_flag_set_same by (unfold CF; lia);
      destruct (Z.testbit (regs m addr) 47); cbn [negb]; rewrite ?Hgo;
      first [exists f; split; [lia|reflexivity] | exists (S f); split; [lia|reflexivity]].
  - assert (Hun : forall m0, regs m0 = regs m -> mem m0 = mem m -> eq_but_cf (flags m0) (flags m) ->
      regs (unwatch m0) addr = unwatched_address (regs m addr) /\
      (forall r, r <> addr -> regs (unwatch m0) r = regs m r) /\
      mem (unwatch m0) = mem m /\ eq_but_cf (flags (unwatch m0)) (flags m)).
    { intros m0 Hr Hm Hfl. unfold unwatch. rewrite !regs_set_same, Hr. rewrite replace_high_bits by done.
      split; [done|]. split; [|done]. intros r Hne. by rewrite !regs_set_other, Hr by done. }
    assert (H1 : eq_but_cf (flags m1) (flags m)) by apply eq_but_cf_set.
    assert (H2 : eq_but_cf (flags m2) (flags m)).
    { unfold eq_but_cf in *. rewrite <- H1. apply eq_but_cf_set. }
    unfold translated, emitted_unwatch. unfold skip, skip47 in *.
    destruct env_kernel; destruct (Z.testbit (regs m addr) 48); cbn [negb orb]; try (by repeat split);
      (destruct check; cbn [andb]; [|by apply Hun]); destruct (Z.testbit (regs m addr) 47); cbn [negb];
      first [by apply Hun | by repeat split].
Qed.

(** ** The state between the emitted instructions *)

(** The values of [rs] are on the stack, the first at [sp]. *)
Fixpoint saved (f : Z -> Z) (sp : Z) (rs : list reg) (m : mach) : Prop :=
  match rs with
  | [] => True
  | r :: rs => read64 f sp = regs m r /\ saved f (sp + 8) rs m
  end.

Lemma saved_ext f g sp rs m :
  0 <= sp -> sp + 8 * Z.of_nat (length rs) <= 2 ^ 64 ->
  (forall x, sp <= x < sp + 8 * Z.of_nat (length rs) -> f x = g x) -> saved f sp rs m -> saved g sp rs m.
Proof.
  revert sp. induction rs as [|r rs IH]; intros sp Hlo Hhi Hfg; cbn [saved length] in *; [done|].
  rewrite Nat2Z.inj_succ in *. intros [E Hs]. split.
  - rewrite <- E. apply read64_ext; [split; lia|]. intros x Hx. symmetry. apply Hfg. lia.
  - apply IH; [lia|lia| |done]. intros x Hx. apply Hfg. lia.
Qed.

(** Relative to the machine [m] at the instruction: the registers [taken] are
    in use, the registers [sv] are spilled, the addresses [es] are ready, and
    [carry] has the carry flag. *)
Record prepared (m m1 : mach) (taken : list Z) (sv : list reg) (es : list (reg * Z)) (carry : option reg) : Prop := {
  pr_wf : wf_regs m1;
  pr_regs : forall r, r <> rsp -> reg_id r ∉ taken -> regs m1 r = regs m r;
  pr_es : forall a v, (a, v) ∈ es -> regs m1 a = v /\ reg_id a ∈ taken /\ a <> rsp;
  pr_sp : regs m1 rsp = regs m rsp - 8 * Z.of_nat (length sv);
  pr_saved : saved (mem m1) (regs m1 rsp) sv m;
  pr_len : (length sv <= 3)%nat;
  pr_mem : forall x, 0 <= x < 2 ^ 64 -> x < regs m rsp - 24 \/ regs m rsp <= x -> mem m1 x = mem m x;
  pr_flags : eq_but_cf (flags m1) (flags m);
  pr_carry : forall c, carry = Some c ->
    Z.testbit (regs m1 c) 0 = get_flag CF (flags m) /\ reg_id c ∈ taken /\ c <> rsp
}.

Definition stack_room (m : mach) : Prop := 64 <= regs m rsp /\ regs m rsp + 8 < 2 ^ 64.

Lemma prepared_start m : wf_regs m -> prepared m m [] [] [] None.
Proof.
  intros Hwf. constructor; try done.
  - intros a v Hin. by apply elem_of_nil in Hin.
  - cbn. lia.
  - cbn. lia.
Qed.

(** A register is spilled. *)
Definition spill_code (spilled : bool) (a : reg) : list instr := if spilled then [push_ (OReg a)] else [].
Definition spill (spilled : bool) (a : reg) (sv : list reg) : list reg := if spilled then a :: sv else sv.

Lemma prepared_spill ns m m1 taken sv es carry spilled a :
  prepared m m1 taken sv es carry -> stack_room m -> a <> rsp -> reg_id a ∉ taken -> (length sv < 3)%nat ->
  exists m2, exec_list ns (spill_code spilled a) m1 = Some m2 /\
    prepared m m2 taken (spill spilled a sv) es carry /\ flags m2 = flags m1.
Proof.
  intros P [Hlo Hhi] Ha Hat Hlen. destruct spilled; cbn [spill_code spill]; [|by exists m1].
  pose proof P as [Wf Rg Es Sp Sv _ Mm Fl Ca]. cbn [exec_list]. rewrite exec_push by lia.
  eexists. split; [reflexivity|]. set (m2 := set_reg rsp _ _).
  assert (Hsp : regs m2 rsp = regs m1 rsp - 8) by apply regs_set_same.
  assert (Hr : forall r, r <> rsp -> regs m2 r = regs m1 r) by (intros r Hne; unfold m2; by rewrite regs_set_other).
  assert (Hm : forall x, 0 <= x < 2 ^ 64 -> x < regs m1 rsp - 8 \/ regs m1 rsp <= x -> mem m2 x = mem m1 x).
  { intros x Hx Hd. unfold m2. cbn [mem set_reg set_mem]. apply write64_other; [split; lia|done|lia]. }
  split; [|done]. constructor; try done.
  - intros r. destruct (decide (r = rsp)) as [->|Hne]; [rewrite Hsp; split; lia|rewrite Hr by done; apply Wf].
  - intros r Hne Hnt. rewrite Hr by done. by apply Rg.
  - intros a' v Hin. destruct (Es a' v Hin) as (? & ? & Hne). by rewrite Hr.
  - rewrite Hsp, Sp. cbn [length]. lia.
  - cbn [saved]. rewrite Hsp. split.
    + unfold m2. cbn [mem set_reg set_mem]. rewrite read64_write64_same by apply Wf. by apply Rg.
    + replace (regs m1 rsp - 8 + 8) with (regs m1 rsp) by lia.
      eapply saved_ext; [| | |exact Sv]; [lia|lia|]. intros x Hx. symmetry. apply Hm; lia.
  - intros x Hx Hd. rewrite Hm by lia. by apply Mm.
  - intros c Ec. destruct (Ca c Ec) as (? & ? & Hne). by rewrite Hr.
Qed.

(** A taken register gets its value, and the carry flag may change. *)
Lemma prepared_set m m1 m2 taken sv es carry a :
  prepared m m1 taken sv es carry -> a <> rsp -> reg_id a ∉ taken -> in_width 64 (regs m2 a) ->
  (forall r, r <> a -> regs m2 r = regs m1 r) -> mem m2 = mem m1 -> eq_but_cf (flags m2) (flags m1) ->
  prepared m m2 (reg_id a :: taken) sv (es ++ [(a, regs m2 a)]) carry.
Proof.
  intros P Ha Hat Hw Hr Hm Hf. pose proof P as [Wf Rg Es Sp Sv Le Mm Fl Ca].
  assert (Hta : forall r, reg_id r ∈ taken -> r <> a) by (intros r Hin ->; done).
  constructor.
  - intros r. destruct (decide (r = a)) as [->|]; [done|]. rewrite Hr by done. apply Wf.
  - intros r Hne Hnt. rewrite not_elem_of_cons in Hnt. destruct Hnt as [Hni Hnt].
    rewrite Hr by (intros ->; done). by apply Rg.
  - intros a' v Hin. rewrite elem_of_app, list_elem_of_singleton in Hin. destruct Hin as [Hin|Hin].
    + destruct (Es a' v Hin) as (? & Ht & ?). rewrite Hr by (by apply Hta). rewrite elem_of_cons. auto.
    + injection Hin as -> ->. rewrite elem_of_cons. auto.
  - by rewrite Hr.
  - rewrite Hm, Hr by done. done.
  - done.
  - intros x Hx Hd. rewrite Hm. by apply Mm.
  - unfold eq_but_cf in *. congruence.
  - intros c Ec. destruct (Ca c Ec) as (? & Ht & ?). rewrite Hr by (by apply Hta). rewrite elem_of_cons. auto.
Qed.

(** The carry flag is saved. *)
Lemma prepared_carry ns m spilled c :
  wf_regs m -> stack_room m -> c <> rsp ->
  exists m1, exec_list ns (spill_code spilled c ++ [setb_ c]) m = Some m1 /\
    prepared m m1 [reg_id c] (spill spilled c []) [] (Some c).
Proof.
  intros Hwf Hroom Hc.
  destruct (prepared_spill ns m m [] [] [] None spilled c (prepared_start m Hwf) Hroom Hc) as (m2 & E2 & P2 & F2);
    [apply not_elem_of_nil|cbn; lia|].
  rewrite exec_list_app, E2. cbn [mbind option_bind exec_list exec1]. eexists. split; [reflexivity|].
  set (m1 := set_reg c _ m2).
  assert (P1 : prepared m m1 [reg_id c] (spill spilled c []) ([] ++ [(c, regs m1 c)]) None).
  { apply (prepared_set m m2 m1 [] _ [] None c P2); try done; [apply not_elem_of_nil| |].
    - unfold m1. rewrite regs_set_same. apply set_field_in_width; [lia..|]. apply (pr_wf _ _ _ _ _ _ P2).
    - intros r Hne. by apply regs_set_other. }
  destruct P1 as [A1 A2 _ A4 A5 A6 A7 A8 _]. constructor; try done; [intros a v Hin; by apply elem_of_nil in Hin|].
  intros c' [= <-]. split; [|split; [apply elem_of_cons; by left|done]].
  unfold m1. rewrite regs_set_same, testbit_set_field, F2 by lia. cbn [Z.leb Z.ltb Z.compare Z.add Z.sub andb].
  by destruct (get_flag CF (flags m)).
Qed.

End Translate.

(** ** Registers of an instruction *)
Lemma is_live_ok rm r : 1 <= r <= 16 -> is_live rm r = Ret (lives rm r).
Proof. intros Hr. unfold is_live. rewrite reg_query_gpr by lia. by rewrite reg64_small. Qed.

(** What the instruction overwrites and does not use is not live in
    [regs_killed_by_in]. *)
Lemma killed_ok i :
  instr_ok i -> in_is_nop i = false ->
  exists rm, visit_dests i register_manager_ctor = Ret rm /\
    forall r, 1 <= r <= 16 -> overwrites i r = true -> uses i r = false -> lives rm r = false.
Proof.
  intros [Hd _] Hn. destruct (wf_view register_manager_ctor ctor_wf) as [V Hsp].
  destruct (visit_dests_view i _ _ _ _ _ Hd Hn Hsp V) as (rm & E & [_ Vr]). exists rm. split; [done|].
  intros r Hr Ho Hu. destruct (Vr r Hr) as (-> & _). unfold overwrites in Ho. rewrite !andb_true_iff in Ho.
  destruct Ho as [[[_ Hcti] Hbs] Ho]. unfold uses in Hu. rewrite Hn in Hu. cbn [negb andb] in Hu.
  rewrite !orb_false_iff in Hu. destruct Hu as [[[[[[_ Hrsp] _] _] Ha] Hrep] _].
  unfold visit_dests_live, dest_live. rewrite Ha, Hrep, Hrsp, Ho. apply negb_true_iff in Hbs. rewrite Hbs.
  cbn. by rewrite andb_false_r.
Qed.

Lemma suitable_unused i la spilled z x :
  suitable i la spilled z -> mentions i x = true -> uses i x = true -> z <> x.
Proof. unfold suitable. intros Hs Hm Hu ->. destruct spilled; [congruence|]. destruct Hs as [[? _]|[_ ?]]; congruence. Qed.

(** ** One operand *)
Section Operand.
Context `{Config}.

(** The address of an operand. *)
Definition op_address (m : mach) (v : base_disp) : Z :=
  ea_bd m (reg_of_id (bd_base v)) (reg_of_id (bd_index v)) (bd_scale v) (bd_disp v).

(** The register operand [*addr] that replaces a memory operand. *)
Definition at_reg (a : reg) : base_disp :=
  {| bd_disp := 0; bd_base := reg_id a; bd_index := DR_REG_NULL; bd_scale := 1 |}.

(** The address registers of an operand of the instruction: 64-bit
    registers that the instruction names and uses, the stack pointer apart. *)
Definition address_reg_ok (i : Register.instr) (x : Z) : Prop :=
  x = DR_REG_NULL \/ (1 <= x <= 16 /\ mentions i x = true /\ uses i x = true /\ x <> DR_REG_RSP).

Definition base_disp_ok (i : Register.instr) (v : base_disp) : Prop :=
  address_reg_ok i (bd_base v) /\ address_reg_ok i (bd_index v).

Lemma reg_opt_ok i x : address_reg_ok i x -> reg_opt x = Ret (reg_of_id x).
Proof.
  unfold reg_opt. intros [->|(Hx & _)]; [done|]. rewrite (proj2 (Z.eqb_neq x 0)) by lia.
  destruct (reg_of_id_spec x Hx) as (r & E & _). unfold reg_of. by rewrite E.
Qed.

Lemma lea_operand_ok i a v :
  base_disp_ok i v ->
  lea_operand a v = Ret (lea_bd_ a (reg_of_id (bd_base v)) (reg_of_id (bd_index v)) (bd_scale v) (bd_disp v)).
Proof. intros [Hb Hx]. unfold lea_operand. by rewrite (reg_opt_ok i _ Hb), (reg_opt_ok i _ Hx). Qed.

Lemma only_op_reg_false i la spilled z seg v :
  base_disp_ok i v -> suitable i la spilled z -> 1 <= z <= 16 -> only_op_reg z seg v = Ret false.
Proof.
  intros [Hb Hx] Hs Hz. unfold only_op_reg.
  assert (Hscale : forall x, address_reg_ok i x -> scale x REG_64 = Ret x).
  { intros x [->|(Hr & _)]; [done|]. unfold scale. rewrite (proj2 (Z.leb_gt DR_REG_MM0 x)) by lia.
    destruct (table64 x ltac:(lia)) as (E & _). by rewrite E, reg64_small. }
  assert (Hne : forall x, address_reg_ok i x -> (z =? x) = false).
  { intros x [->|(Hr & Hm & Hu & _)]; apply Z.eqb_neq; [lia|]. by eapply suitable_unused. }
  rewrite !Hscale by done. cbn [mbind outcome_bind]. rewrite !Hne by done.
  by destruct (negb (seg =? 0)), (bd_index v =? 0), (bd_base v =? 0).
Qed.

(** The loop body on a replaceable operand. *)
Lemma visit_operand_step i la killed taken check n op seg size v s :
  taking i la taken (vs_live s) (vs_spill s) (vs_used s) -> spare i taken ->
  (forall r, 1 <= r <= 16 -> overwrites i r = true -> uses i r = false -> lives killed r = false) ->
  get_operand (vs_in s) (ref_op op) = Ret (WMem seg size v) -> base_disp_ok i v ->
  exists a spilled s',
    visit_operand no_code no_code check false killed la n op true s = Ret s' /\
    a <> rsp /\ (reg_id a ∉ taken) /\ suitable i la spilled (reg_id a) /\
    taking i la (reg_id a :: taken) (vs_live s') (vs_spill s') (vs_used s') /\
    vs_in s' = replace_with op (WMem seg size (at_reg a)) (vs_in s) /\
    vs_before s' = vs_before s ++ spill_code spilled a ++
      [lea_bd_ a (reg_of_id (bd_base v)) (reg_of_id (bd_index v)) (bd_scale v) (bd_disp v)] ++
      translate_address no_code no_code n (ref_kind op) (access_size size) check false a a /\
    vs_afters s' = vs_afters s ++ [if spilled then [pop_ a] else []].
Proof.
  intros T Hspare Hk Eop Hv. unfold visit_operand. rewrite Eop. cbn [mbind outcome_bind negb ASSERT].
  destruct (choose_addr_reg_ok _ _ _ _ _ _ T Hspare)
    as (stolen & live' & used' & z & spill' & Ec & Es & Hz & Hzsp & Hzt & Hsuit & T').
  rewrite Ec. cbn [mbind outcome_bind]. destruct (reg_of_ok z Hz) as (a & Ea & Hida).
  assert (Hasp : a <> rsp) by (intros ->; done).
  match goal with |- context [if stolen =? DR_REG_NULL then ?A else ?B] =>
    assert (Er : (if stolen =? DR_REG_NULL then A else B) = Ret (z, spill')) end.
  { destruct (stolen =? DR_REG_NULL); [cbn; by rewrite Es|]. destruct Es as [<- ->]. done. }
  rewrite Er. cbn [mbind outcome_bind]. rewrite Ea. cbn [mbind outcome_bind].
  assert (Eo : (if stolen =? DR_REG_NULL then Ret false else only_op_reg z seg v) = Ret false).
  { destruct (stolen =? DR_REG_NULL); [done|]. by eapply only_op_reg_false. }
  rewrite Eo. cbn [mbind outcome_bind andb negb]. rewrite (lea_operand_ok i a v Hv). cbn [mbind outcome_bind].
  rewrite !(is_live_ok _ z Hz). cbn [mbind outcome_bind andb negb ASSERT]. rewrite Z.eqb_refl. cbn [negb].
  rewrite orb_false_r.
  assert (Enr : lives killed z && lives la z && negb (stolen =? DR_REG_NULL) = false).
  { unfold suitable in Hsuit. destruct (stolen =? DR_REG_NULL); cbn [negb]; [by rewrite andb_false_r|].
    destruct Hsuit as [[_ ->]|[? ?]]; [by rewrite andb_false_r|]. by rewrite (Hk z). }
  rewrite Enr. cbn [negb andb ASSERT mbind outcome_bind orb].
  eexists a, (stolen =? DR_REG_NULL), _. split; [reflexivity|].
  cbn [vs_live vs_spill vs_used vs_in vs_before vs_afters]. rewrite Hida. unfold at_reg. rewrite Hida.
  by do 6 (split; [done|]).
Qed.

(** The registers of an address are not taken. *)
Lemma prepared_address i m m1 taken sv es carry v :
  prepared m m1 taken sv es carry -> base_disp_ok i v ->
  (forall x, x ∈ taken -> ~ (mentions i x = true /\ uses i x = true)) -> op_address m1 v = op_address m v.
Proof.
  intros P [Hb Hx] Ht. unfold op_address, ea_bd.
  assert (Hr : forall x, address_reg_ok i x ->
    match reg_of_id x with Some r => regs m1 r | None => 0 end = match reg_of_id x with Some r => regs m r | None => 0 end).
  { intros x [->|(Hx' & Hm & Hu & Hsp)]; [done|]. destruct (reg_of_id_spec x Hx') as (r & -> & <-).
    apply (pr_regs _ _ _ _ _ _ P); [intros ->; done|]. intros Hin. by apply (Ht _ Hin). }
  by rewrite !Hr.
Qed.

Lemma emitted_unwatch_range check a : in_width 64 a -> in_width 64 (emitted_unwatch check a).
Proof.
  intros Ha. assert (Hu : in_width 64 (unwatched_address a)).
  { unfold unwatched_address. destruct env_kernel.
    - apply in_width_lor; [lia|done|]. split; vm_compute; congruence.
    - apply in_width_land; [lia|done]. }
  unfold emitted_unwatch. by destruct env_kernel, (_ || _).
Qed.

(** The code for one operand. *)
Definition operand_code (n : nat) (kind : operand_kind) (size : Z) (check spilled : bool) (a : reg) (v : base_disp)
    : list instr :=
  spill_code spilled a ++
  [lea_bd_ a (reg_of_id (bd_base v)) (reg_of_id (bd_index v)) (bd_scale v) (bd_disp v)] ++
  translate_address no_code no_code n kind size check false a a.

Lemma operand_code_labels n kind size check spilled a v :
  labels_below (3 * S n) (operand_code n kind size check spilled a v).
Proof.
  intros x Hx. unfold operand_code, translate_address, no_code, spill_code, IF_USER_ELSE, pre_label, watched_label,
    not_a_watchpoint in Hx.
  rewrite !elem_of_app in Hx. destruct spilled, check, env_kernel; rewrite ?elem_of_cons, ?elem_of_nil in Hx;
    repeat match goal with Hx : _ \/ _ |- _ => destruct Hx as [Hx|Hx] end; try discriminate Hx;
    first [injection Hx as ->; lia | by apply elem_of_nil in Hx | done].
Qed.

Lemma operand_steps ns cl i m m1 taken sv es carry pre n kind size check spilled a v rest :
  prepared m m1 taken sv es carry -> stack_room m -> (length sv < 3)%nat ->
  a <> rsp -> reg_id a ∉ taken -> labels_below (3 * n) pre -> base_disp_ok i v ->
  (forall x, x ∈ taken -> ~ (mentions i x = true /\ uses i x = true)) ->
  exists m2,
    steps ns cl (pre ++ operand_code n kind size check spilled a v ++ rest) 1
      (operand_code n kind size check spilled a v) rest m1 m2 /\
    prepared m m2 (reg_id a :: taken) (spill spilled a sv)
      (es ++ [(a, emitted_unwatch check (op_address m v))]) carry.
Proof.
  intros P Hroom Hlen Ha Hat Hpre Hv Ht.
  destruct (prepared_spill ns m m1 taken sv es carry spilled a P Hroom Ha Hat Hlen) as (m3 & E3 & P3 & _).
  set (lea := lea_bd_ a (reg_of_id (bd_base v)) (reg_of_id (bd_index v)) (bd_scale v) (bd_disp v)).
  set (m4 := set_reg a (op_address m v) m3).
  assert (E4 : exec_list ns (spill_code spilled a ++ [lea]) m1 = Some m4).
  { rewrite exec_list_app, E3. cbn [mbind option_bind exec_list lea exec1].
    unfold m4. rewrite <- (prepared_address i m m3 taken (spill spilled a sv) es carry v P3 Hv Ht). done. }
  assert (Ew : in_width 64 (op_address m v)) by (apply wrap_range; lia).
  assert (Ea4 : regs m4 a = op_address m v) by apply regs_set_same.
  destruct (translate_steps ns cl (pre ++ spill_code spilled a ++ [lea]) n kind size check a rest m4)
    as (m2 & S2 & R2 & O2 & M2 & F2).
  - apply labels_below_app; [done|]. intros x Hx. unfold spill_code, lea in Hx.
    destruct spilled; rewrite ?elem_of_app, ?elem_of_cons, ?elem_of_nil in Hx;
      repeat match goal with Hx : _ \/ _ |- _ => destruct Hx as [Hx|Hx] end; try discriminate Hx;
      first [by apply elem_of_nil in Hx | done].
  - by rewrite Ea4.
  - exists m2. rewrite Ea4 in R2. split.
    + unfold operand_code. fold lea. rewrite (app_assoc (spill_code spilled a)).
      replace (pre ++ ((spill_code spilled a ++ [lea]) ++ _) ++ rest) with
        ((pre ++ spill_code spilled a ++ [lea]) ++
         translate_address no_code no_code n kind size check false a a ++ rest) by (by rewrite <- !app_assoc).
      apply (steps_app ns cl _ 0 1 _ _ rest m1 m4 m2); [by apply steps_straight|exact S2].
    + rewrite <- R2. apply (prepared_set m m3 m2 taken _ es carry a P3 Ha Hat).
      * rewrite R2. by apply emitted_unwatch_range.
      * intros r Hne. rewrite O2 by done. by apply regs_set_other.
      * by rewrite M2.
      * exact F2.
Qed.

(** ** The operands of the rewritten instruction *)
Definition positions (r : operand_ref) : list nat := ref_op r :: option_list (ref_op2 r).

Definition operand_address (m : mach) (o : woperand) : Z :=
  match o with WMem _ _ v => op_address m v | _ => 0 end.

Lemma all_operands_set p o w : all_operands (set_operand p o w) = <[p := o]> (all_operands w).
Proof. unfold set_operand, all_operands. cbn [w_dsts w_srcs with_operands]. apply take_drop. Qed.

Lemma lookup_replace r o w p :
  ref_op r <> p -> ref_op2 r <> Some p -> all_operands (replace_with r o w) !! p = all_operands w !! p.
Proof.
  intros H1 H2. unfold replace_with. destruct (ref_op2 r) as [q|]; rewrite !all_operands_set, !list_lookup_insert_ne;
    congruence.
Qed.

Lemma lookup_replaced r o w p :
  p ∈ positions r -> (p < length (all_operands w))%nat -> all_operands (replace_with r o w) !! p = Some o.
Proof.
  intros Hp Hlt. unfold replace_with, positions in *. rewrite elem_of_cons in Hp.
  destruct (ref_op2 r) as [q|]; cbn in Hp.
  - rewrite elem_of_cons, elem_of_nil in Hp. rewrite !all_operands_set.
    destruct (decide (q = p)) as [->|Hne]; [by apply list_lookup_insert_eq; rewrite length_insert|].
    rewrite list_lookup_insert_ne by done. destruct Hp as [->|[->|[]]]; [by apply list_lookup_insert_eq|done].
  - destruct Hp as [->|Hp]; [|by apply elem_of_nil in Hp]. rewrite all_operands_set. by apply list_lookup_insert_eq.
Qed.

Lemma length_replace r o w : length (all_operands (replace_with r o w)) = length (all_operands w).
Proof. unfold replace_with. destruct (ref_op2 r); by rewrite !all_operands_set, !length_insert. Qed.

(** The operands at the positions [done] are replaced by registers that hold
    the addresses to access; the others are as in [w]. *)
Definition operands_done (m : mach) (check : bool) (w w' : winstr) (done : list nat) (es : list (reg * Z)) : Prop :=
  length (all_operands w') = length (all_operands w) /\
  forall p o, all_operands w !! p = Some o ->
    (p ∈ done /\ exists seg size a, all_operands w' !! p = Some (WMem seg size (at_reg a)) /\
       (a, emitted_unwatch check (operand_address m o)) ∈ es) \/
    ((p ∉ done) /\ all_operands w' !! p = Some o).

(** A reference to a memory operand of [w]; the two operands that are
    combined are the same. *)
Definition ref_ok (i : Register.instr) (w : winstr) (r : operand_ref) : Prop :=
  exists seg size v, base_disp_ok i v /\ forall p, p ∈ positions r -> all_operands w !! p = Some (WMem seg size v).

Lemma operands_done_step m check w w' done es r seg size a v :
  operands_done m check w w' done es -> (forall p, p ∈ positions r -> all_operands w !! p = Some (WMem seg size v)) ->
  operands_done m check w (replace_with r (WMem seg size (at_reg a)) w') (done ++ positions r)
    (es ++ [(a, emitted_unwatch check (op_address m v))]).
Proof.
  intros [Hlen Hd] Hr. split; [by rewrite length_replace|]. intros p o Ho.
  destruct (decide (p ∈ positions r)) as [Hp|Hp].
  - left. split; [apply elem_of_app; by right|]. exists seg, size, a. split.
    + apply lookup_replaced; [done|]. rewrite Hlen. by eapply lookup_lt_Some.
    + apply elem_of_app. right. apply list_elem_of_singleton. rewrite (Hr p Hp) in Ho. by injection Ho as <-.
  - assert (E : all_operands (replace_with r (WMem seg size (at_reg a)) w') !! p = all_operands w' !! p).
    { apply lookup_replace; intros E; apply Hp; unfold positions; rewrite elem_of_cons; [by left|].
      right. rewrite E. cbn. by apply list_elem_of_singleton. }
    rewrite E. destruct (Hd p o Ho) as [(Hin & s0 & z0 & a0 & E0 & H0)|[Hnin E0]].
    + left. split; [apply elem_of_app; by left|]. exists s0, z0, a0. split; [done|]. apply elem_of_app. by left.
    + right. split; [|done]. rewrite elem_of_app. tauto.
Qed.

(** The result of the loop: the entries are the registers and whether they
    were spilled. *)
Definition restores (e : reg * bool) : list instr := if e.2 then [pop_ e.1] else [].
Definition spills (sv : list reg) (ents : list (reg * bool)) : list reg :=
  foldl (fun sv e => spill e.2 e.1 sv) sv ents.
Definition takes (taken : list Z) (ents : list (reg * bool)) : list Z :=
  foldl (fun taken e => reg_id e.1 :: taken) taken ents.

Definition roomy (i : Register.instr) (k : nat) : Prop := forall taken, (length taken < k)%nat -> spare i taken.

Lemma visit_operand_loop_ok i la killed check w m rs : forall n s taken sv es carry done,
  taking i la taken (vs_live s) (vs_spill s) (vs_used s) -> roomy i 3 ->
  (length taken + length rs <= 3)%nat -> (length sv <= length taken)%nat ->
  (forall r, 1 <= r <= 16 -> overwrites i r = true -> uses i r = false -> lives killed r = false) ->
  (forall x, x ∈ taken -> ~ (mentions i x = true /\ uses i x = true)) ->
  operands_done m check w (vs_in s) done es -> stack_room m ->
  Forall (ref_ok i w) rs -> NoDup (done ++ concat (map positions rs)) ->
  labels_below (3 * n) (vs_before s) ->
  exists s' ents seg es',
    visit_operand_loop no_code no_code check false killed la n (map (fun r => (r, true)) rs) s = Ret s' /\
    length ents = length rs /\ vs_before s' = vs_before s ++ seg /\
    vs_afters s' = vs_afters s ++ map restores ents /\
    Forall (fun e => e.1 <> rsp /\ suitable i la e.2 (reg_id e.1)) ents /\
    (NoDup taken -> NoDup (takes taken ents)) /\
    operands_done m check w (vs_in s') (done ++ concat (map positions rs)) es' /\
    forall ns cl m1 rest, prepared m m1 taken sv es carry ->
      exists m2, steps ns cl (vs_before s ++ seg ++ rest) (length rs) seg rest m1 m2 /\
        prepared m m2 (takes taken ents) (spills sv ents) es' carry.
Proof.
  induction rs as [|r rs IH]; intros n s taken sv es carry done T Hroomy Hlen Hsv Hk Ht Hd Hroom Hrs Hnd Hl.
  - exists s, [], [], es. cbn [map visit_operand_loop concat]. rewrite !app_nil_r. do 4 (split; [done|]).
    split; [constructor|]. do 2 (split; [done|]). intros ns cl m1 rest P. exists m1. split; [|done].
    by apply (steps_straight _ _ _ [] rest m1 m1).
  - apply List.Forall_cons_iff in Hrs as [(seg & size & v & Hv & Hr) Hrs]. cbn [map concat length] in *.
    assert (Hnd1 : ref_op r ∉ done).
    { rewrite list.NoDup_app in Hnd. destruct Hnd as (_ & Hnd & _). intros Hin. apply (Hnd _ Hin).
      apply elem_of_app. left. apply elem_of_cons. by left. }
    assert (Eop : get_operand (vs_in s) (ref_op r) = Ret (WMem seg size v)).
    { unfold get_operand, idx. assert (E : all_operands w !! ref_op r = Some (WMem seg size v)) by (apply Hr; left).
      destruct (proj2 Hd _ _ E) as [[? _]|[_ ->]]; done. }
    destruct (visit_operand_step i la killed taken check n r seg size v s T (Hroomy taken ltac:(lia)) Hk Eop Hv)
      as (a & spilled & s1 & E1 & Ha & Hat & Hsuit & T1 & Ein & Ebf & Eaf).
    fold (operand_code n (ref_kind r) (access_size size) check spilled a v) in Ebf.
    destruct (IH (S n) s1 (reg_id a :: taken) (spill spilled a sv)
      (es ++ [(a, emitted_unwatch check (op_address m v))]) carry (done ++ positions r))
      as (s' & ents & seg' & es' & E' & Hlen' & Ebf' & Eaf' & Hents & Hndt & Hd' & Hrun); try done.
    + cbn [length]. lia.
    + unfold spill. destruct spilled; cbn [length]; lia.
    + intros x Hx [Hm Hu]. apply elem_of_cons in Hx as [->|Hx]; [|by apply (Ht x)].
      by eapply suitable_unused in Hsuit.
    + rewrite Ein. by eapply operands_done_step.
    + by rewrite <- app_assoc.
    + rewrite Ebf. apply labels_below_app; [eapply labels_below_mono; [|exact Hl]; lia|apply operand_code_labels].
    + exists s', ((a, spilled) :: ents), (operand_code n (ref_kind r) (access_size size) check spilled a v ++ seg'), es'.
      cbn [visit_operand_loop]. rewrite E1. cbn [mbind outcome_bind]. split; [exact E'|].
      split; [cbn; lia|]. split; [by rewrite Ebf', Ebf, <- !app_assoc|].
      split; [by rewrite Eaf', Eaf, <- !app_assoc|]. split; [by constructor|].
      split; [intros Hnt; apply Hndt; by constructor|].
      split; [by rewrite app_assoc|]. intros ns cl m1 rest P.
      destruct (operand_steps ns cl i m m1 taken sv es carry (vs_before s) n (ref_kind r) (access_size size) check
        spilled a v (seg' ++ rest) P Hroom) as (m3 & S3 & P3); try done; [lia|].
      destruct (Hrun ns cl m3 rest P3) as (m2 & S2 & P2). exists m2. split; [|exact P2].
      rewrite <- app_assoc. change (S (length rs)) with (1 + length rs)%nat.
      apply (steps_app _ _ _ 1 (length rs) _ _ rest m1 m3 m2); [exact S3|].
      rewrite Ebf, <- app_assoc in S2. exact S2.
Qed.

(** ** Behind the instruction *)

(** The registers [sv] are still on the stack, which was at [sp]. *)
Definition stacked (m m3 : mach) (sv : list reg) : Prop :=
  regs m3 rsp = regs m rsp - 8 * Z.of_nat (length sv) /\ saved (mem m3) (regs m3 rsp) sv m /\ (length sv <= 3)%nat.

Lemma restore_one ns m m3 sv e :
  stacked m m3 (spill e.2 e.1 sv) -> stack_room m -> e.1 <> rsp ->
  exists m4, exec_list ns (restores e) m3 = Some m4 /\ stacked m m4 sv /\
    mem m4 = mem m3 /\ flags m4 = flags m3 /\
    regs m4 e.1 = (if e.2 then regs m e.1 else regs m3 e.1) /\
    forall r, r <> rsp -> r <> e.1 -> regs m4 r = regs m3 r.
Proof.
  destruct e as [a [|]]; cbn [fst snd spill restores]; intros (Hsp & Hs & Hlen) [Hlo Hhi] Ha; cbn [length saved] in *.
  - destruct Hs as [E Hs]. cbn [exec_list]. rewrite exec_pop by lia. eexists. split; [reflexivity|].
    split; [|split; [done|]]; [unfold stacked|split; [done|]].
    + rewrite regs_set_other, regs_set_same by congruence. cbn [mem set_reg]. split; [lia|]. split; [done|lia].
    + split; [by rewrite regs_set_same|]. intros r Hr Hne. by rewrite !regs_set_other.
  - exists m3. done.
Qed.

(** The registers that are spilled come back, the others are left, and the
    carry flag is set from [c]. *)
Definition restored (m m3 m4 : mach) (all : list (reg * bool)) : Prop :=
  mem m4 = mem m3 /\ regs m4 rsp = regs m rsp /\
  (forall e : reg * bool, e ∈ all -> regs m4 e.1 = if e.2 then regs m e.1 else regs m3 e.1) /\
  (forall r, r <> rsp -> r ∉ map fst all -> regs m4 r = regs m3 r).

Definition bt_code (b : bool) (c : option (reg * bool)) : list instr :=
  match c with Some e => (if b then [bt_ e.1 0] else []) ++ restores e | None => [] end.

Definition bt_flags (b : bool) (c : option (reg * bool)) (m3 : mach) : Z :=
  match c with
  | Some e => if b then set_flag CF (Z.testbit (regs m3 e.1) 0) (flags m3) else flags m3
  | None => flags m3
  end.

Lemma carry_restore ns b c m m3 :
  stacked m m3 (spills [] (option_list c)) -> stack_room m -> (forall e : reg * bool, c = Some e -> e.1 <> rsp) ->
  exists m4, exec_list ns (bt_code b c) m3 = Some m4 /\
    flags m4 = bt_flags b c m3 /\ restored m m3 m4 (option_list c).
Proof.
  intros Hst Hroom Hc. destruct c as [e|]; cbn [option_list bt_code bt_flags] in *.
  - set (m5 := if b then set_flags (bt_flags b (Some e) m3) m3 else m3).
    assert (E5 : exec_list ns (if b then [bt_ e.1 0] else []) m3 = Some m5) by (by destruct b).
    assert (H5 : regs m5 = regs m3 /\ mem m5 = mem m3) by (by destruct b). destruct H5 as [R5 M5].
    destruct (restore_one ns m m5 [] e) as (m4 & E4 & (S4 & _) & M4 & F4 & R4 & O4);
      [|done|by apply Hc|].
    { unfold stacked in *. rewrite R5, M5. exact Hst. }
    rewrite R5 in R4, O4. rewrite M5 in M4.
    exists m4. rewrite exec_list_app, E5. cbn [mbind option_bind]. split; [done|].
    split; [rewrite F4; unfold m5, bt_flags; by destruct b|]. split; [done|]. split; [cbn in S4; lia|]. split.
    + intros e' He'. cbn in He'. apply list_elem_of_singleton in He' as ->. done.
    + intros r Hr Hni. apply O4; [done|]. intros ->. apply Hni. cbn. by apply list_elem_of_singleton.
  - exists m3. split; [done|]. split; [done|]. destruct Hst as (Hsp & _). cbn in Hsp.
    split; [done|]. split; [lia|]. split; [|done]. intros e He. by apply elem_of_nil in He.
Qed.

(** First [e], then the others. *)
Lemma restored_before m m3 m5 m4 all (e : reg * bool) :
  restored m m5 m4 all -> mem m5 = mem m3 -> e.1 <> rsp -> e.1 ∉ map fst all ->
  regs m5 e.1 = (if e.2 then regs m e.1 else regs m3 e.1) ->
  (forall r, r <> rsp -> r <> e.1 -> regs m5 r = regs m3 r) ->
  (forall e', e' ∈ all -> e'.1 <> rsp) -> restored m m3 m4 (all ++ [e]).
Proof.
  intros (M & S & A & O) M5 He Hne R5 O5 Hall. split; [congruence|]. split; [done|]. split.
  - intros e' Hin. rewrite elem_of_app, list_elem_of_singleton in Hin. destruct Hin as [Hin| ->].
    + rewrite (A e' Hin). destruct e'.2; [done|]. apply O5; [by apply Hall|]. intros E. apply Hne. rewrite <- E.
      apply list_elem_of_fmap. by exists e'.
    + rewrite O by done. exact R5.
  - intros r Hr Hni. rewrite map_app, elem_of_app in Hni. cbn in Hni. rewrite list_elem_of_singleton in Hni.
    rewrite O by tauto. apply O5; tauto.
Qed.

Lemma afters_run ns b c m m3 e0 ents :
  (length ents <= 1)%nat -> stacked m m3 (spills (spills [] (option_list c)) (e0 :: ents)) -> stack_room m ->
  NoDup (map fst (option_list c ++ e0 :: ents)) -> (forall e : reg * bool, e ∈ option_list c ++ e0 :: ents -> e.1 <> rsp) ->
  exists m4, exec_list ns (afters_code ((restores e0 ++ bt_code b c) :: map restores ents)) m3 = Some m4 /\
    flags m4 = bt_flags b c m3 /\ restored m m3 m4 (option_list c ++ e0 :: ents).
Proof.
  intros Hlen Hst Hroom Hnd Hsp.
  assert (H0 : forall m5, stacked m m5 (spill e0.2 e0.1 (spills [] (option_list c))) ->
    exists m4, exec_list ns ((restores e0 ++ bt_code b c) ++ [label_ (after_label 0)]) m5 = Some m4 /\
      flags m4 = bt_flags b c m5 /\ restored m m5 m4 (option_list c ++ [e0])).
  { intros m5 Hst5. destruct (restore_one ns m m5 _ e0 Hst5 Hroom) as (m6 & E6 & S6 & M6 & F6 & R6 & O6).
    { apply Hsp. rewrite elem_of_app, elem_of_cons. auto. }
    destruct (carry_restore ns b c m m6 S6 Hroom) as (m4 & E4 & F4 & R4).
    { intros e Ee. apply Hsp. rewrite Ee, elem_of_app. left. cbn. by apply list_elem_of_singleton. }
    assert (Hc0 : e0.1 ∉ map fst (option_list c)).
    { rewrite map_app, list.NoDup_app in Hnd. destruct Hnd as (_ & Hnd & _). intros Hin. apply (Hnd _ Hin).
      cbn. apply elem_of_cons. by left. }
    exists m4. rewrite !exec_list_app, E6. cbn [mbind option_bind]. rewrite E4. cbn [mbind option_bind exec_list exec1].
    split; [done|]. split.
    - rewrite F4. unfold bt_flags. destruct c as [e|]; [|done]. rewrite F6. destruct b; [|done].
      rewrite O6; [done| |].
      + apply Hsp. rewrite elem_of_app. left. cbn. by apply list_elem_of_singleton.
      + intros E. apply Hc0. cbn. rewrite E. by apply list_elem_of_singleton.
    - eapply restored_before; [exact R4|done| |done|done|done|].
      + apply Hsp. rewrite elem_of_app, elem_of_cons. auto.
      + intros e' Hin. apply Hsp. rewrite elem_of_app. by left. }
  destruct ents as [|e1 [|? ?]]; [| |cbn in Hlen; lia].
  - unfold afters_code. cbn -[after_label]. rewrite app_nil_r. by apply H0.
  - destruct (restore_one ns m m3 _ e1 Hst Hroom) as (m5 & E5 & S5 & M5 & F5 & R5 & O5).
    { apply Hsp. rewrite elem_of_app, !elem_of_cons. auto. }
    destruct (H0 m5 S5) as (m4 & E4 & F4 & R4). exists m4.
    assert (Hne : e1.1 ∉ map fst (option_list c ++ [e0])).
    { rewrite (map_app _ _ [e0]). rewrite map_app, list.NoDup_app in Hnd. destruct Hnd as (_ & Hx & Hnd).
      cbn in Hnd, Hx. inversion Hnd as [|? ? Hn _]; subst. rewrite elem_of_app. cbn. rewrite list_elem_of_singleton.
      intros [Hin|E]; [by apply (Hx _ Hin); rewrite !elem_of_cons; auto|]. apply Hn. rewrite E. by left. }
    split; [|split].
    + unfold afters_code. cbn -[after_label]. rewrite app_nil_r, <- app_assoc, exec_list_app, E5.
      cbn [mbind option_bind exec_list app exec1]. exact E4.
    + rewrite F4. unfold bt_flags. destruct c as [e|]; [|done]. rewrite F5. destruct b; [|done].
      rewrite O5; [done| |].
      * apply Hsp. rewrite elem_of_app. left. cbn. by apply list_elem_of_singleton.
      * intros E. apply Hne. cbn. rewrite E. apply elem_of_cons. by left.
    + rewrite (app_assoc _ [e0] [e1] : option_list c ++ e0 :: [e1] = _). eapply restored_before; try done.
      * apply Hsp. rewrite elem_of_app, !elem_of_cons. auto.
      * intros e' Hin. apply Hsp. rewrite elem_of_app, !elem_of_cons. rewrite elem_of_app, elem_of_cons, elem_of_nil in Hin.
        tauto.
Qed.

End Operand.

(** ** What [find_memory_operand] finds *)
Section Found.
Context `{Config}.

Definition found_upto (w : winstr) (n : nat) (t : found_operands) : Prop :=
  length (can_replace t) = length (ops t) /\ (length (ops t) <= 2)%nat /\
  (forall r p, r ∈ ops t -> p ∈ positions r ->
     (p < n)%nat /\ exists seg size v, all_operands w !! p = Some (WMem seg size v)) /\
  NoDup (concat (map positions (ops t))).

Lemma for_each_inv {A} (P : nat -> A -> Prop) f (w : winstr) a a' :
  P 0%nat a ->
  (forall p k b b', P p b -> f {| ref_op := p; ref_op2 := None; ref_kind := k |} b = Ret b' -> P (S p) b') ->
  for_each_operand f w a = Ret a' -> P (length (all_operands w)) a'.
Proof.
  intros H0 Hstep. unfold for_each_operand. revert a'.
  induction (length (all_operands w)) as [|n IH]; intros a' E; [by injection E as <-|].
  rewrite seq_S, foldl_app in E. cbn [foldl Nat.add] in E.
  destruct (foldl _ _ (seq 0 n)) as [b| |] eqn:Eb; try discriminate E. cbn [mbind outcome_bind] in E.
  eapply Hstep; [by apply IH|exact E].
Qed.

Lemma found_keep w n t t' :
  ops t' = ops t -> can_replace t' = can_replace t -> found_upto w n t -> found_upto w (S n) t'.
Proof.
  intros Eo Ec (H1 & H2 & H3 & H4). unfold found_upto. rewrite Eo, Ec. do 2 (split; [done|]). split; [|done].
  intros r p Hr Hp. destruct (H3 r p Hr Hp) as [? ?]. split; [lia|done].
Qed.

Lemma add_operand_found w n k b t t' seg size v :
  found_upto w n t -> all_operands w !! n = Some (WMem seg size v) ->
  add_operand w {| ref_op := n; ref_op2 := None; ref_kind := k |} b t = Ret t' -> found_upto w (S n) t'.
Proof.
  intros (H1 & H2 & H3 & H4) En E. unfold add_operand in E.
  destruct (bool_decide _) eqn:Eb; [|discriminate E]. apply bool_decide_eq_true in Eb. unfold MAX_NUM_OPERANDS in Eb.
  cbn [ASSERT mbind outcome_bind] in E.
  destruct (ops t) as [|r0 [|]] eqn:Eo; [| |cbn in Eb; lia].
  - cbn [combine_index mbind outcome_bind] in E. injection E as <-. unfold found_upto. cbn [ops can_replace].
    destruct (can_replace t); [|discriminate H1]. split; [done|]. split; [cbn; lia|]. split.
    + intros r p Hr Hp. cbn in Hr. apply list_elem_of_singleton in Hr as ->. cbn in Hp. apply list_elem_of_singleton in Hp as ->.
      split; [cbn; lia|]. eauto.
    + cbn. apply NoDup_singleton.
  - destruct (can_replace t) as [|b0 [|]] eqn:Ec; try discriminate H1.
    assert (Hr0 : forall p, p ∈ positions r0 -> (p < n)%nat /\
      exists seg size v, all_operands w !! p = Some (WMem seg size v)) by (intros p; apply H3; by left).
    cbn [combine_index] in E. destruct (can_combine w r0 _) as [c| |] eqn:Ecc; try discriminate E.
    cbn [mbind outcome_bind] in E. destruct c; cbn [idx mbind outcome_bind insert list_insert] in E.
    + assert (Hr2 : ref_op2 r0 = None).
      { unfold can_combine in Ecc. cbn [ref_op ref_op2 ref_kind] in Ecc.
        destruct (get_operand w (ref_op r0)); try discriminate Ecc. cbn [mbind outcome_bind] in Ecc.
        destruct (get_operand w n); try discriminate Ecc. cbn [mbind outcome_bind] in Ecc. injection Ecc as Ecc.
        rewrite !andb_true_iff in Ecc. destruct Ecc as [[[_ Ecc] _] _]. by apply bool_decide_eq_true in Ecc. }
      injection E as <-. unfold found_upto. cbn [ops can_replace]. split; [done|]. split; [cbn; lia|].
      unfold positions in Hr0, H4. rewrite Hr2 in *. split.
      * intros r p Hr Hp. apply list_elem_of_singleton in Hr as ->. unfold positions, combine in Hp. cbn in Hp. rewrite !elem_of_cons, elem_of_nil in Hp.
        destruct Hp as [->|[->|[]]]; [destruct (Hr0 (ref_op r0)) as [? ?]; [by left|split; [lia|done]]|].
        split; [lia|]. eauto.
      * unfold combine. cbn. constructor; [|apply NoDup_singleton]. rewrite list_elem_of_singleton.
        destruct (Hr0 (ref_op r0)) as [? _]; [by left|lia].
    + injection E as <-. unfold found_upto. cbn [ops can_replace app]. split; [done|]. split; [cbn; lia|]. split.
      * intros r p Hr Hp. rewrite !elem_of_cons, elem_of_nil in Hr. destruct Hr as [->|[->|[]]].
        -- destruct (Hr0 p Hp). split; [lia|done].
        -- cbn in Hp. apply list_elem_of_singleton in Hp as ->. split; [cbn; lia|]. eauto.
      * cbn [map concat] in *. rewrite app_nil_r in *. apply list.NoDup_app. split; [done|]. split; [|apply NoDup_singleton].
        intros p Hp Hin. cbn in Hin. apply list_elem_of_singleton in Hin as ->. destruct (Hr0 n Hp) as [? _]. lia.
Qed.

Lemma find_memory_operand_found w n k t t' :
  found_upto w n t -> find_memory_operand w {| ref_op := n; ref_op2 := None; ref_kind := k |} t = Ret t' ->
  found_upto w (S n) t'.
Proof.
  intros Hf E. unfold find_memory_operand in E. cbn [ref_op ref_kind] in E. unfold get_operand, idx in E.
  destruct (all_operands w !! n) as [o|] eqn:En; [|discriminate E]. cbn [mbind outcome_bind] in E.
  destruct o as [r|seg size v|].
  - injection E as <-. apply (found_keep w n t); [..|done]; by destruct (r =? DR_REG_RSP), k.
  - inv_outcome. destruct (_ || _); [injection E as <-; by apply (found_keep w n t)|].
    destruct (if negb (bd_base v =? 0) then _ else _); [injection E as <-; by apply (found_keep w n t)|].
    inv_outcome. destruct (_ =? _); [injection E as <-; by apply (found_keep w n t)|].
    destruct (_ && _); [injection E as <-; by apply (found_keep w n t)|].
    by eapply add_operand_found.
  - injection E as <-. by apply (found_keep w n t).
Qed.

Lemma found_all w t :
  for_each_operand (find_memory_operand w) w no_operands = Ret t -> found_upto w (length (all_operands w)) t.
Proof.
  apply (for_each_inv (found_upto w)).
  - split; [done|]. split; [cbn; lia|]. split; [|constructor]. intros r p Hr. by apply elem_of_nil in Hr.
  - intros p k b b'. apply find_memory_operand_found.
Qed.

End Found.

(** ** The instructions the theorem is about *)
Section Transparent.
Context `{Config}.

(** The memory operands that [find_memory_operand] finds can all be replaced;
    the stack pointer is not involved; operands that are combined are the
    same; address registers are 64-bit registers; and three registers are
    left over. *)
Record replaceable (w : winstr) (t : found_operands) : Prop := {
  rp_ok : instr_ok (w_view w);
  rp_plain : w_is_nop w = false /\ is_ignored w = false /\ is_string (w_opcode w) = false /\
    w_is_call w = false /\ w_is_return w = false;
  rp_opcode : w_opcode w ∉ [OP_push; OP_pop; OP_xlat];
  rp_found : for_each_operand (find_memory_operand w) w no_operands = Ret t;
  rp_some : ops t <> [];
  rp_all : Forall (eq true) (can_replace t);
  rp_rsp : reads_from_rsp t = false /\ writes_to_rsp t = false /\ mentions (w_view w) DR_REG_RSP = false;
  rp_regs : forall seg size v, WMem seg size v ∈ all_operands w -> 0 <= bd_base v <= 16 /\ 0 <= bd_index v <= 16;
  rp_same : forall r p, r ∈ ops t -> ref_op2 r = Some p -> all_operands w !! p = all_operands w !! ref_op r;
  rp_segment : is_segment_operand w t = Ret false;
  rp_room : roomy (w_view w) 3
}.

(** The positions of the operands that are found. *)
Definition tracked (t : found_operands) : list nat := concat (map positions (ops t)).

(** The addresses an instruction accesses, position by position, and the same
    with the watched ones unwatched. *)
Definition addresses (m : mach) (w : winstr) : list Z := map (operand_address m) (all_operands w).

Definition unwatched_addresses (m : mach) (w : winstr) (t : found_operands) : list Z :=
  imap (fun p o => let a := operand_address m o in
                   if bool_decide (p ∈ tracked t) then unwatched_address_check a else a) (all_operands w).

(** What the operands and flags that are reported for [w] say about its
    effect [exec], which does not touch the stack between [lo] and [hi]. *)
Record instr_laws (w : winstr) (exec : mach -> mach) (lo hi : Z) : Prop := {
  il_same : forall m m',
    (forall r, uses (w_view w) (reg_id r) = true -> r <> rsp -> regs m r = regs m' r) ->
    (forall x, 0 <= x < 2 ^ 64 -> x < lo \/ hi <= x -> mem m x = mem m' x) ->
    eq_but_cf (flags m) (flags m') -> (w_reads_cf w = true -> flags m = flags m') ->
    (forall x, 0 <= x < 2 ^ 64 -> x < lo \/ hi <= x -> mem (exec m) x = mem (exec m') x) /\
    (forall r, overwrites (w_view w) (reg_id r) = true \/ regs m r = regs m' r ->
       regs (exec m) r = regs (exec m') r) /\
    eq_but_cf (flags (exec m)) (flags (exec m')) /\
    (w_reads_cf w || w_writes_cf w = true -> flags (exec m) = flags (exec m'));
  il_keeps : forall m r, in_ops op_reg (in_dsts (w_view w)) (reg_id r) = false -> regs (exec m) r = regs m r;
  il_frame : forall m x, lo <= x < hi -> mem (exec m) x = mem m x;
  il_cf : forall m, w_writes_cf w = false -> get_flag CF (flags (exec m)) = get_flag CF (flags m)
}.

Lemma replaceable_base w t seg size v :
  replaceable w t -> WMem seg size v ∈ all_operands w -> base_disp_ok (w_view w) v.
Proof.
  intros R Hin. destruct (rp_regs w t R _ _ _ Hin) as [Hb Hx]. destruct (rp_rsp w t R) as (_ & _ & Hsp).
  destruct (rp_plain w t R) as (Hn & _).
  assert (Hm : forall x, 1 <= x <= 16 -> x = bd_base v \/ x = bd_index v ->
    mentions (w_view w) x = true /\ uses (w_view w) x = true).
  { intros x Hx' Hor. assert (Ha : op_addr (BASE_DISP_kind (bd_base v) (bd_index v)) x = true).
    { cbn [op_addr]. destruct Hor as [E|E]; rewrite <- E, (reg64_small x), Z.eqb_refl, ?orb_true_r by done; done. }
    assert (Hi : in_ops op_addr (in_dsts (w_view w)) x = true \/ in_ops op_addr (in_srcs (w_view w)) x = true).
    { unfold in_ops. rewrite !existsb_exists. unfold all_operands in Hin. rewrite elem_of_app, !list_elem_of_In in Hin.
      destruct Hin as [Hin|Hin]; [left|right]; exists (w_opnd (WMem seg size v)); (split; [|done]); by apply in_map. }
    assert (Ho : forall l, in_ops op_addr l x = true -> in_ops op_names l x = true).
    { intros l. unfold in_ops. rewrite !existsb_exists. intros (o & ? & Ho). exists o. split; [done|].
      unfold op_names. by rewrite Ho, orb_true_r. }
    unfold mentions, uses. cbn [in_is_nop w_view]. rewrite Hn. cbn [negb andb].
    destruct Hi as [Hi|Hi]; rewrite (Ho _ Hi), Hi, ?orb_true_r; done. }
  split; unfold address_reg_ok.
  - destruct (decide (bd_base v = 0)); [by left|right]. destruct (Hm (bd_base v)) as [? ?]; [lia|auto|].
    split; [lia|]. split; [done|]. split; [done|]. intros E. congruence.
  - destruct (decide (bd_index v = 0)); [by left|right]. destruct (Hm (bd_index v)) as [? ?]; [lia|auto|].
    split; [lia|]. split; [done|]. split; [done|]. intros E. congruence.
Qed.

Lemma replaceable_refs w t : replaceable w t -> Forall (ref_ok (w_view w) w) (ops t).
Proof.
  intros R. destruct (found_all w t (rp_found w t R)) as (_ & _ & Hf & _). apply list.Forall_forall. intros r Hr.
  destruct (Hf r (ref_op r) Hr) as (_ & seg & size & v & E); [by left|].
  exists seg, size, v. split; [eapply replaceable_base; [done|]; by eapply list_elem_of_lookup_2|].
  intros p Hp. unfold positions in Hp. apply elem_of_cons in Hp as [->|Hp]; [done|].
  destruct (ref_op2 r) as [q|] eqn:E2; cbn in Hp; [|by apply elem_of_nil in Hp].
  apply list_elem_of_singleton in Hp as ->. by rewrite (rp_same w t R r q Hr E2).
Qed.

(** The sets of registers at the start. *)
Lemma taking_start w t (is_last : bool) next_live :
  replaceable w t -> rm_wf next_live ->
  exists live_regs spill_regs used,
    revive_instr (w_view w) (if is_last then revive_all next_live else next_live) = Ret live_regs /\
    revive_instr (w_view w) (kill_all register_manager_ctor) = Ret spill_regs /\
    visit (w_view w) register_manager_ctor = Ret used /\
    taking (w_view w) next_live [] live_regs spill_regs used.
Proof.
  intros R Hwf. pose proof (rp_ok w t R) as Hok. destruct (rp_plain w t R) as (Hn & _).
  assert (Hwf1 : rm_wf (if is_last then revive_all next_live else next_live)).
  { destruct is_last; [|done]. by eapply view_wf; [apply revive_all_view|]. }
  destruct (revive_instr_ok _ _ Hok Hwf1 Hn) as (live_regs & El & Wl & Hl).
  destruct (revive_instr_ok _ _ Hok (kill_all_wf register_manager_ctor) Hn) as (spill_regs & Es & Ws & Hs).
  destruct (visit_step _ _ Hok ctor_wf) as (used & Eu & Wu & Hu).
  exists live_regs, spill_regs, used. do 3 (split; [done|]). constructor; try done.
  - intros r Hr Hf. unfold free in Hf. destruct (Hl r Hr) as [E1 _]. rewrite E1, !orb_false_iff in Hf.
    destruct Hf as [[Hf1 Hf2] _]. split; [done|]. split; [|apply not_elem_of_nil]. destruct is_last; [|done].
    destruct (revive_all_view next_live) as [_ V]. destruct (V r Hr) as (V1 & _). congruence.
  - intros r Hr. unfold free. destruct (Hs r Hr) as [-> ->].
    assert (Ek : lives (kill_all register_manager_ctor) r = (r =? DR_REG_RSP)).
    { unfold lives. cbn [live kill_all]. rewrite testbit_FORCE_LIVE by lia. zb. }
    assert (Ez : zombie (kill_all register_manager_ctor) r = false) by apply Z.bits_0.
    rewrite Ek, Ez. cbn [andb]. rewrite orb_false_r, orb_false_iff, Z.eqb_neq.
    pose proof (not_elem_of_nil r). tauto.
  - intros r Hr Hf. unfold free in Hf. rewrite (Hu r Hr), !orb_false_iff in Hf. destruct Hf as [[Hf1 Hf2] _].
    assert (El' : lives register_manager_ctor r = true).
    { unfold lives. replace (Register.live register_manager_ctor) with (Z.ones 16) by reflexivity. rewrite testbit_ones by lia. zb. }
    rewrite El' in Hf2. cbn [andb] in Hf2. apply negb_false_iff in Hf2. split; [done|]. split; [done|]. apply not_elem_of_nil.
Qed.

Lemma takes_elem taken (ents : list (reg * bool)) x :
  x ∈ takes taken ents <-> x ∈ taken \/ exists e, e ∈ ents /\ x = reg_id e.1.
Proof.
  revert taken. induction ents as [|e ents IH]; intros taken; cbn [takes foldl].
  - split; [by left|]. intros [?|(e & He & _)]; [done|by apply elem_of_nil in He].
  - fold (takes (reg_id e.1 :: taken) ents). rewrite IH, elem_of_cons. split.
    + intros [[->|?]|(e' & ? & ->)]; [right; exists e; split; [by left|done]|by left|right; exists e'; split; [by right|done]].
    + intros [?|(e' & He' & ->)]; [auto|]. apply elem_of_cons in He' as [->|?]; [auto|]. right. by exists e'.
Qed.

Lemma takes_rev taken (ents : list (reg * bool)) : takes taken ents = rev (map (fun e => reg_id e.1) ents) ++ taken.
Proof.
  revert taken. induction ents as [|e ents IH]; intros taken; [done|]. cbn [takes foldl map rev].
  fold (takes (reg_id e.1 :: taken) ents). by rewrite IH, <- app_assoc.
Qed.

Lemma takes_nodup (all : list (reg * bool)) : NoDup (takes [] all) -> NoDup (map fst all).
Proof.
  rewrite takes_rev, app_nil_r, <- Permutation_rev. intros Hnd. apply (NoDup_fmap_1 reg_id).
  rewrite <- list_fmap_compose. exact Hnd.
Qed.

Lemma replaceable_ops w t :
  replaceable w t -> exists r0 rs, ops t = r0 :: rs /\ (length rs <= 1)%nat /\ NoDup (tracked t) /\
    forall b, zip (ops t) (if b : bool then map (fun _ => true) (can_replace t) else can_replace t) =
      map (fun r => (r, true)) (ops t).
Proof.
  intros R. destruct (found_all w t (rp_found w t R)) as (Hlen & Hle & _ & Hnd).
  pose proof (rp_some w t R) as Hne. pose proof (rp_all w t R) as Hall. unfold tracked.
  destruct (ops t) as [|r0 rs]; [done|]. exists r0, rs. split; [done|]. split; [cbn in Hle; lia|]. split; [done|].
  intros b. replace (if b then _ else _) with (can_replace t).
  - revert Hall Hlen. generalize (can_replace t). generalize (r0 :: rs). clear.
    induction l as [|r l IH]; intros [|c cs] Hall Hlen; try discriminate Hlen; [done|].
    apply List.Forall_cons_iff in Hall as [<- Hall]. cbn [zip zip_with map]. f_equal. apply IH; [done|]. by injection Hlen.
  - destruct b; [|done]. revert Hall. clear. induction (can_replace t) as [|c cs IH]; [done|].
    intros Hall. apply List.Forall_cons_iff in Hall as [<- Hall]. cbn [map]. f_equal. by apply IH.
Qed.

Lemma takes_app taken l1 l2 : takes taken (l1 ++ l2) = takes (takes taken l1) l2.
Proof. apply foldl_app. Qed.

Lemma spills_app sv l1 l2 : spills sv (l1 ++ l2) = spills (spills sv l1) l2.
Proof. apply foldl_app. Qed.

(** The registers of the carry flag and of the operands. *)
Record entries_ok (w : winstr) (la : register_manager) (c : option (reg * bool)) (ents : list (reg * bool)) : Prop := {
  eo_rsp : forall e, e ∈ option_list c ++ ents -> e.1 <> rsp;
  eo_nodup : NoDup (map fst (option_list c ++ ents));
  eo_ents : forall e, e ∈ ents -> suitable (w_view w) la e.2 (reg_id e.1);
  eo_carry : forall e, c = Some e -> mentions (w_view w) (reg_id e.1) = false /\
    (e.2 = false -> lives la (reg_id e.1) = false)
}.

(** The generator, and the run of the code before the instruction. *)
Lemma visit_operands_ok w t la live_regs spill_regs used check before after m :
  replaceable w t -> taking (w_view w) la [] live_regs spill_regs used ->
  visit (w_view w) register_manager_ctor = Ret used -> wf_regs m -> stack_room m ->
  exists ins pre c e0 ents es,
    visit_operands no_code no_code check before after w t live_regs spill_regs la = Ret ins /\
    i_before ins = pre ++ (match c with Some e => if before then [bt_ e.1 0] else [] | None => [] end) ++ [label_ before_label] /\
    i_after ins = afters_code ((restores e0 ++ bt_code after c) :: map restores ents) /\
    (length ents <= 1)%nat /\ (before || after = true <-> is_Some c) /\ entries_ok w la c (e0 :: ents) /\
    operands_done m check w (i_in ins) (tracked t) es /\
    forall ns cl rest, exists m2, steps ns cl (pre ++ rest) 2 pre rest m m2 /\
      prepared m m2 (takes [] (option_list c ++ e0 :: ents)) (spills [] (option_list c ++ e0 :: ents)) es (fst <$> c).
Proof.
  intros R T Eu Hwf Hroom. destruct (rp_rsp w t R) as (Hr1 & Hr2 & _). destruct (rp_plain w t R) as (Hn & _).
  destruct (replaceable_ops w t R) as (r0 & rs & Eops & Hrs & Hnd & Hzip).
  destruct (killed_ok (w_view w) (rp_ok w t R) Hn) as (killed & Ek & Hk).
  destruct (save_carry_flag_ok _ _ _ _ _ before after T (rp_room w t R [] ltac:(cbn; lia)))
    as (cz & spilled & save & live' & spill' & Ec & Hc).
  unfold visit_operands. rewrite Ek, Eu. cbn [mbind outcome_bind]. rewrite Ec. cbn [mbind outcome_bind].
  rewrite Hr1, Hr2. cbn [orb]. rewrite andb_false_r. cbn [negb ASSERT mbind outcome_bind]. rewrite Hzip, Eops.
  assert (Hcarry : exists c : option (reg * bool),
    (before || after = true <-> is_Some c) /\
    taking (w_view w) la (takes [] (option_list c)) live' spill' used /\
    (if before || after then r ← reg_of cz; Ret [bt_ r 0] else Ret []) =
      Ret (match c with Some e => [bt_ e.1 0] | None => [] end) /\
    (if spilled then r ← reg_of cz; Ret [pop_ r] else Ret []) = Ret (match c with Some e => restores e | None => [] end) /\
    (forall e, c = Some e -> e.1 <> rsp /\ mentions (w_view w) (reg_id e.1) = false /\
      (e.2 = false -> lives la (reg_id e.1) = false)) /\ labels_below 0 save /\
    forall ns, exists m1, exec_list ns save m = Some m1 /\
      prepared m m1 (takes [] (option_list c)) (spills [] (option_list c)) [] (fst <$> c)).
  { destruct (before || after).
    - destruct Hc as (r & Er & <- & Hsp & Hm & Hl & -> & T'). exists (Some (r, spilled)). rewrite Er. cbn.
      split; [done|]. split; [done|]. split; [done|]. split; [by destruct spilled|]. split; [|split].
      + intros e [= <-]. cbn. split; [intros ->; done|done].
      + intros x Hx. destruct spilled; rewrite ?elem_of_app, ?elem_of_cons, ?elem_of_nil in Hx;
          repeat match goal with Hx : _ \/ _ |- _ => destruct Hx as [Hx|Hx] end; try discriminate Hx; done.
      + intros ns. apply prepared_carry; [done|done|]. intros ->. done.
    - destruct Hc as (-> & -> & T'). exists None. cbn. split; [split; [done|by intros [? ?]]|].
      do 3 (split; [done|]). split; [done|]. split; [intros x Hx; by apply elem_of_nil in Hx|].
      intros ns. exists m. split; [done|]. by apply prepared_start. }
  clear Ec Hc T. destruct Hcarry as (c & Hsome & T & E1 & E2 & Hc & Hlab & Hsave).
  destruct (visit_operand_loop_ok (w_view w) la killed check w m (r0 :: rs) 0
    {| vs_in := w; vs_live := live'; vs_spill := spill'; vs_used := used; vs_before := save; vs_afters := []; vs_regs := [] |}
    (takes [] (option_list c)) (spills [] (option_list c)) [] (fst <$> c) [])
    as (s' & ents & seg & es & Es & Hlen & Ebf & Eaf & Hents & Hndt & Hdone & Hrun); try done.
  - by apply (rp_room w t R).
  - destruct c; cbn; lia.
  - destruct c as [[? []]|]; cbn; lia.
  - intros x Hx [Hm _]. destruct c as [e|]; cbn in Hx; [|by apply elem_of_nil in Hx].
    apply list_elem_of_singleton in Hx as ->. destruct (Hc e eq_refl) as (_ & ? & _). congruence.
  - split; [done|]. intros p o Ho. right. split; [apply not_elem_of_nil|done].
  - rewrite <- Eops. by apply replaceable_refs.
  - rewrite <- Eops. exact Hnd.
  - destruct ents as [|e0 ents]; [discriminate Hlen|]. cbn [vs_before vs_afters app] in *.
    rewrite Es. cbn [mbind outcome_bind]. rewrite E1. cbn [mbind outcome_bind]. rewrite E2. cbn [mbind outcome_bind].
    rewrite Eaf. cbn [map mbind outcome_bind].
    eexists _, (save ++ seg), c, e0, ents, es. split; [reflexivity|]. cbn [i_before i_after i_in].
    split; [rewrite Ebf, <- !app_assoc; by destruct c, before|].
    split; [unfold bt_code; by destruct c, after|]. split; [cbn in Hlen; lia|]. split; [done|].
    split; [|split; [unfold tracked; by rewrite Eops|]].
    + rewrite list.Forall_forall in Hents. constructor.
      * intros e He. apply elem_of_app in He as [He|He]; [|by apply Hents].
        destruct c as [e'|]; cbn in He; [|by apply elem_of_nil in He]. apply list_elem_of_singleton in He as ->.
        by apply Hc.
      * apply takes_nodup. rewrite takes_app. apply Hndt. destruct c; cbn; [apply NoDup_singleton|constructor].
      * intros e He. by apply Hents.
      * intros e He. by apply Hc.
    + intros ns cl rest. destruct (Hsave ns) as (m1 & Em1 & P1).
      destruct (Hrun ns cl m1 rest P1) as (m2 & S2 & P2). exists m2. rewrite takes_app, spills_app. split; [|exact P2].
      rewrite <- app_assoc. intros f Hf.
      destruct (steps_app ns cl (save ++ seg ++ rest) 0 (length (r0 :: rs)) save seg rest m m1 m2
        ltac:(by apply steps_straight) S2 f) as (f' & Hf' & E'); [cbn; lia|]. exists f'. split; [cbn in Hf'; lia|exact E'].
Qed.

(** The registers that were taken are not used by the instruction. *)
Lemma entries_unused w la c ents r :
  entries_ok w la c ents -> uses (w_view w) (reg_id r) = true -> in_is_nop (w_view w) = false ->
  is_string (w_opcode w) = false -> w_is_cti w = false -> r <> rsp -> reg_id r ∉ takes [] (option_list c ++ ents).
Proof.
  intros E Hu Hn Hstr Hcti Hsp Hin.
  assert (Hm : mentions (w_view w) (reg_id r) = true).
  { unfold uses in Hu. rewrite Hn in Hu. cbn [negb andb] in Hu.
    assert (Hrep : rep_reg (in_opcode (w_view w)) (reg_id r) = false).
    { cbn [in_opcode w_view]. unfold is_string in Hstr. apply andb_false_iff in Hstr. rewrite Z.leb_gt, Z.leb_gt in Hstr.
      assert (Hd : forall op, op < 383 \/ 398 < op -> rep_reg (dr_opcode op) (reg_id r) = false).
      { intros op Hop. unfold dr_opcode.
        repeat match goal with |- context [match ?x with _ => _ end] => is_var x; destruct x; try done end; lia. }
      by apply Hd. }
    rewrite Hrep in Hu. cbn [in_is_cti w_view] in Hu. rewrite Hcti in Hu.
    assert (Hrsp : (reg_id r =? DR_REG_RSP) = false) by (apply Z.eqb_neq; intros E'; apply Hsp, reg_id_inj; exact E').
    rewrite Hrsp in Hu. unfold mentions, op_names. rewrite <- !in_ops_orb.
    destruct (in_ops op_reg (in_srcs (w_view w)) (reg_id r)), (in_ops op_addr (in_srcs (w_view w)) (reg_id r)),
      (in_ops op_addr (in_dsts (w_view w)) (reg_id r)), (in_ops op_reg (in_dsts (w_view w)) (reg_id r));
      cbn in Hu |- *; try done; by rewrite andb_false_r in Hu. }
  apply takes_elem in Hin as [Hin|(e & He & Heq)]; [by apply elem_of_nil in Hin|].
  apply elem_of_app in He as [He|He].
  - destruct c as [e'|]; cbn in He; [|by apply elem_of_nil in He]. apply list_elem_of_singleton in He as ->.
    destruct (eo_carry _ _ _ _ E e' eq_refl) as [? _]. congruence.
  - apply (suitable_unused _ _ _ _ (reg_id r) (eo_ents _ _ _ _ E e He) Hm Hu). by symmetry.
Qed.

Lemma entries_taken w la c ents x :
  entries_ok w la c ents -> x ∈ takes [] (option_list c ++ ents) ->
  ~ (mentions (w_view w) x = true /\ uses (w_view w) x = true).
Proof.
  intros E Hin [Hm Hu]. apply takes_elem in Hin as [Hin|(e & He & ->)]; [by apply elem_of_nil in Hin|].
  apply elem_of_app in He as [He|He].
  - destruct c as [e'|]; cbn in He; [|by apply elem_of_nil in He]. apply list_elem_of_singleton in He as ->.
    destruct (eo_carry _ _ _ _ E e' eq_refl) as [? _]. congruence.
  - by apply (suitable_unused _ _ _ _ _ (eo_ents _ _ _ _ E e He) Hm Hu).
Qed.

(** The rewritten instruction accesses the unwatched addresses. *)
Lemma done_addresses w t check m m2 taken sv es carry w' :
  replaceable w t -> operands_done m check w w' (tracked t) es -> prepared m m2 taken sv es carry ->
  (forall x, x ∈ taken -> ~ (mentions (w_view w) x = true /\ uses (w_view w) x = true)) ->
  (forall p o, p ∈ tracked t -> all_operands w !! p = Some o -> translatable check (operand_address m o)) ->
  addresses m2 w' = unwatched_addresses m w t.
Proof.
  intros R [Hlen Hd] P Ht Htr. unfold addresses, unwatched_addresses. apply list_eq. intros p.
  rewrite list_lookup_imap. change (map (operand_address m2)) with (fmap (M := list) (operand_address m2)).
  rewrite list_lookup_fmap. destruct (all_operands w !! p) as [o|] eqn:Eo.
  2: { cbn. rewrite (lookup_ge_None_2 (all_operands w') p); [done|]. rewrite Hlen. by apply lookup_ge_None. }
  cbn [fmap option_fmap option_map].
  assert (Ha0 : 0 <= operand_address m o) by (destruct o; cbn; try lia; apply wrap_range; lia).
  destruct (Hd p o Eo) as [(Hin & seg & size & a & -> & He)|[Hnin ->]].
  - rewrite bool_decide_true by done. cbn [fmap option_fmap option_map operand_address]. f_equal.
    destruct (pr_es _ _ _ _ _ _ P _ _ He) as (Ea & _ & _).
    unfold op_address, at_reg, ea_bd. cbn [bd_base bd_index bd_scale bd_disp]. rewrite reg_of_id_id.
    change (reg_of_id DR_REG_NULL) with (@None reg). rewrite Z.mul_1_r, !Z.add_0_r, Ea.
    rewrite wrap_small by (rewrite <- Ea; apply (pr_wf _ _ _ _ _ _ P)).
    apply emitted_unwatch_agrees; [done|]. by eapply Htr.
  - rewrite bool_decide_false by done. cbn [fmap option_fmap option_map]. f_equal.
    destruct o as [| sg sz v|]; try done. cbn [operand_address].
    eapply prepared_address; [done|eapply replaceable_base; [done|by eapply list_elem_of_lookup_2]|done].
Qed.

(** The carry flag is put back before an instruction that reads it. *)
Lemma carry_before ns (before : bool) (c : option (reg * bool)) m m2 taken sv es :
  prepared m m2 taken sv es (fst <$> c) ->
  exists m3, exec_list ns (match c with Some e => if before then [bt_ e.1 0] else [] | None => [] end ++
      [label_ before_label]) m2 = Some m3 /\
    prepared m m3 taken sv es (fst <$> c) /\ (before = true -> is_Some c -> flags m3 = flags m).
Proof.
  intros P. destruct c as [e|]; [|exists m2; split; [done|]; split; [done|]; by intros _ [? ?]].
  destruct before; [|by exists m2]. eexists. split; [reflexivity|].
  destruct (pr_carry _ _ _ _ _ _ P e.1 eq_refl) as (Hc & _ & _).
  assert (Ef : set_flag CF (Z.testbit (regs m2 e.1) 0) (flags m2) = flags m).
  { rewrite Hc. apply eq_but_cf_flags.
    - unfold eq_but_cf. rewrite eq_but_cf_set. apply (pr_flags _ _ _ _ _ _ P).
    - apply get_flag_set_same. unfold CF. lia. }
  rewrite Ef. split; [|done]. destruct P as [A1 A2 A3 A4 A5 A6 A7 A8 A9]. by constructor.
Qed.

(** The flags behind the emitted code. *)
Lemma carry_after w exec lo hi reads writes after b c m m3 taken sv es :
  instr_laws w exec lo hi -> w_reads_cf w = reads -> w_writes_cf w = writes ->
  after = (if reads then false else if writes then false else b) ->
  prepared m m3 taken sv es (fst <$> c) -> (after = true -> is_Some c) ->
  (forall e, c = Some e -> in_ops op_reg (in_dsts (w_view w)) (reg_id e.1) = false) ->
  eq_but_cf (flags (exec m3)) (flags (exec m)) ->
  (reads || writes = true -> flags (exec m3) = flags (exec m)) ->
  eq_but_cf (bt_flags after c (exec m3)) (flags (exec m)) /\ (b = true -> bt_flags after c (exec m3) = flags (exec m)).
Proof.
  intros L Er Ew Ea P Hc Hd Hf Hrw. unfold bt_flags. destruct c as [e|].
  - destruct after.
    + destruct reads, writes; try discriminate Ea.
      assert (E : set_flag CF (Z.testbit (regs (exec m3) e.1) 0) (flags (exec m3)) = flags (exec m)).
      { apply eq_but_cf_flags.
        - unfold eq_but_cf. rewrite eq_but_cf_set. exact Hf.
        - rewrite get_flag_set_same by (unfold CF; lia). rewrite (il_keeps _ _ _ _ L m3 e.1) by (by apply Hd).
          destruct (pr_carry _ _ _ _ _ _ P e.1 eq_refl) as (-> & _ & _). by rewrite (il_cf _ _ _ _ L m). }
      split; [unfold eq_but_cf; by rewrite E|done].
    + split; [done|]. intros ->. apply Hrw. by destruct reads, writes.
  - split; [done|]. intros ->. destruct after; [by destruct (Hc eq_refl)|]. apply Hrw. by destruct reads, writes.
Qed.

(** What is the same behind the emitted code as behind the instruction at the
    unwatched addresses. *)
Definition agrees_after (la : register_manager) (reads_carry : bool) (m m' m_ref : mach) : Prop :=
  (forall x, 0 <= x < 2 ^ 64 -> x < regs m rsp - 24 \/ regs m rsp <= x -> mem m' x = mem m_ref x) /\
  (forall r, lives la (reg_id r) = true -> regs m' r = regs m_ref r) /\
  eq_but_cf (flags m') (flags m_ref) /\ (reads_carry = true -> flags m' = flags m_ref).

Lemma mentions_dst i r : mentions i r = false -> in_ops op_reg (in_dsts i) r = false.
Proof.
  unfold mentions, op_names. rewrite <- in_ops_orb, !orb_false_iff. tauto.
Qed.

(** The registers that are live behind the instruction. *)
Lemma registers_after w la c ents exec m m3 m4 :
  instr_laws w exec (regs m rsp - 24) (regs m rsp) -> mentions (w_view w) DR_REG_RSP = false ->
  entries_ok w la c ents -> restored m (exec m3) m4 (option_list c ++ ents) ->
  (forall r, r <> rsp -> reg_id r ∉ takes [] (option_list c ++ ents) -> regs m3 r = regs m r) ->
  (forall r, overwrites (w_view w) (reg_id r) = true \/ regs m3 r = regs m r -> regs (exec m3) r = regs (exec m) r) ->
  forall r, lives la (reg_id r) = true -> regs m4 r = regs (exec m) r.
Proof.
  intros L Hrsp E (_ & Hsp & Hall & Hoth) Hr3 Hex r Hl.
  destruct (decide (r = rsp)) as [->|Hne].
  { rewrite Hsp. symmetry. apply (il_keeps _ _ _ _ L). by apply mentions_dst. }
  destruct (decide (r ∈ map fst (option_list c ++ ents))) as [Hin|Hnin].
  - apply list_elem_of_fmap in Hin as (e & -> & He). rewrite (Hall e He).
    assert (Hkeep : mentions (w_view w) (reg_id e.1) = false -> regs m e.1 = regs (exec m) e.1).
    { intros Hm. symmetry. apply (il_keeps _ _ _ _ L). by apply mentions_dst. }
    apply elem_of_app in He as [He|He].
    + destruct c as [e'|]; cbn in He; [|by apply elem_of_nil in He]. apply list_elem_of_singleton in He as ->.
      destruct (eo_carry _ _ _ _ E e' eq_refl) as [Hm Hd]. destruct e'.2; [by apply Hkeep|].
      rewrite Hd in Hl by done. discriminate Hl.
    + pose proof (eo_ents _ _ _ _ E e He) as Hs. unfold suitable in Hs. destruct e.2; [by apply Hkeep|].
      destruct Hs as [[_ Hd]|[Ho _]]; [congruence|]. apply Hex. by left.
  - rewrite Hoth by done. apply Hex. right. apply Hr3; [done|]. intros Hin. apply Hnin.
    apply takes_elem in Hin as [Hin|(e & He & Heq)]; [by apply elem_of_nil in Hin|].
    apply reg_id_inj in Heq as ->. apply list_elem_of_fmap. by exists e.
Qed.

(** The run of the instrumented instruction. *)
Lemma visit_operands_run w t la live_regs spill_regs used check b m eff cl :
  replaceable w t -> taking (w_view w) la [] live_regs spill_regs used ->
  visit (w_view w) register_manager_ctor = Ret used -> wf_regs m -> stack_room m ->
  (forall p o, p ∈ tracked t -> all_operands w !! p = Some o -> translatable check (operand_address m o)) ->
  let exec := eff (unwatched_addresses m w t) in
  instr_laws w exec (regs m rsp - 24) (regs m rsp) ->
  let before := w_reads_cf w in
  let after := if w_reads_cf w then false else if w_writes_cf w then false else b in
  exists ins m',
    visit_operands no_code no_code check before after w t live_regs spill_regs la = Ret ins /\
    run 2 (fun _ m0 => eff (addresses m0 (i_in ins)) m0) cl (i_before ins ++ [native_ 0] ++ i_after ins) m =
      Ret (Fell, m') /\
    agrees_after la b m m' (exec m).
Proof.
  intros R T Eu Hwf Hroom Htr exec L before after.
  destruct (visit_operands_ok w t la live_regs spill_regs used check before after m R T Eu Hwf Hroom)
    as (ins & pre & c & e0 & ents & es & Ev & Eb & Ea & Hlen & Hsome & Hent & Hdone & Hrun).
  exists ins. set (ns := fun (_ : Z) (m0 : mach) => eff (addresses m0 (i_in ins)) m0).
  destruct (rp_rsp w t R) as (_ & _ & Hrsp). destruct (rp_plain w t R) as (Hn & Hig & Hstr & _).
  assert (Hcti : w_is_cti w = false).
  { unfold is_ignored in Hig. rewrite !orb_false_iff in Hig. tauto. }
  set (code := i_before ins ++ [native_ 0] ++ i_after ins).
  destruct (Hrun ns cl (match c with Some e => if before then [bt_ e.1 0] else [] | None => [] end ++
    [label_ before_label] ++ [native_ 0] ++ i_after ins)) as (m2 & S2 & P2).
  destruct (carry_before ns before c m m2 _ _ _ P2) as (m3 & E3 & P3 & F3).
  pose proof (pr_regs _ _ _ _ _ _ P3) as R3.
  assert (Hun := fun x => entries_taken w la c (e0 :: ents) x Hent).
  assert (Haddr : addresses m3 (i_in ins) = unwatched_addresses m w t) by (by eapply done_addresses).
  destruct (il_same _ _ _ _ L m3 m) as (Lm & Lr & Lf & Lfl).
  { intros r Hu Hne. apply R3; [done|]. by eapply entries_unused. }
  { apply (pr_mem _ _ _ _ _ _ P3). }
  { apply (pr_flags _ _ _ _ _ _ P3). }
  { intros Hrd. apply F3; [done|]. apply Hsome. unfold before. by rewrite Hrd. }
  assert (Hst : stacked m (exec m3) (spills (spills [] (option_list c)) (e0 :: ents))).
  { rewrite <- spills_app. unfold stacked. rewrite (il_keeps _ _ _ _ L m3 rsp) by (by apply mentions_dst).
    split; [apply (pr_sp _ _ _ _ _ _ P3)|]. pose proof (pr_len _ _ _ _ _ _ P3). pose proof (pr_sp _ _ _ _ _ _ P3) as Hs.
    destruct Hroom. split; [|done]. eapply saved_ext; [| | |apply (pr_saved _ _ _ _ _ _ P3)]; [lia|lia|].
    intros x Hx. symmetry. apply (il_frame _ _ _ _ L). lia. }
  destruct (afters_run ns after c m (exec m3) e0 ents Hlen Hst Hroom (eo_nodup _ _ _ _ Hent) (eo_rsp _ _ _ _ Hent))
    as (m4 & E4 & F4 & R4).
  exists m4. split; [done|]. split.
  - destruct (S2 2%nat ltac:(lia)) as (f' & _ & E2). unfold run, code. rewrite Eb, <- !app_assoc.
    rewrite E2.
    rewrite (app_assoc (match c with Some _ => _ | None => _ end)), (run_from_straight _ _ _ _ _ _ _ E3).
    cbn [app run_from exec1]. change (ns 0 m3) with (eff (addresses m3 (i_in ins)) m3). rewrite Haddr, Ea.
    rewrite <- (app_nil_r (afters_code _)), (run_from_straight _ _ _ _ _ _ _ E4). done.
  - destruct (carry_after w exec _ _ _ _ after b c m m3 _ _ _ L eq_refl eq_refl eq_refl P3) as [Fe Fb].
    + intros Ha. apply Hsome. rewrite Ha. apply orb_true_r.
    + intros e He. apply mentions_dst. by destruct (eo_carry _ _ _ _ Hent e He).
    + exact Lf.
    + exact Lfl.
    + rewrite <- F4 in Fe, Fb. split; [|split; [|done]].
      * intros x Hx Hd. destruct R4 as (-> & _). by apply Lm.
      * by eapply registers_after.
Qed.

(** The generator does not rewrite such an instruction first. *)
Lemma mangle_none w t live_regs spill_regs :
  replaceable w t -> mangle w t live_regs spill_regs = Ret None.
Proof.
  intros R. destruct (rp_rsp w t R) as (Hr & Hw & _). pose proof (rp_opcode w t R) as Hop.
  rewrite !not_elem_of_cons in Hop. destruct Hop as (H1 & H2 & H3 & _). unfold mangle.
  rewrite (proj2 (Z.eqb_neq _ _) H1), (proj2 (Z.eqb_neq _ _) H2), (proj2 (Z.eqb_neq _ _) H3), Hr, Hw.
  by destruct (_ =? OP_mov_ld).
Qed.

End Transparent.

(** C4 Watchpoint instrumentation is transparent.  Take an instruction whose
    memory operands can be replaced, in a machine where its addresses may be
    watched, and any effect [eff] of it, as a function of the addresses it
    accesses, that respects what is reported about its registers and flags.
    The generator returns code around the rewritten instruction, and that
    code runs to its end.  It leaves memory (but for its own spill slots
    below the stack pointer) and every register that is live behind the
    instruction as the instruction at the unwatched addresses leaves them,
    the flags up to CF, and CF too when it is read later. *)
Theorem watchpoint_transparent `{Config} w t zone is_last next_live b m
    (eff : list Z -> mach -> mach) (cl : callee_sem) :
  replaceable w t -> rm_wf next_live -> wf_regs m -> stack_room m ->
  (forall p o, p ∈ tracked t -> all_operands w !! p = Some o ->
     translatable (env_kernel && zone) (operand_address m o)) ->
  instr_laws w (eff (unwatched_addresses m w t)) (regs m rsp - 24) (regs m rsp) ->
  exists live_before reads before w' after m',
    instrument_instruction no_code no_code zone is_last next_live b w =
      Ret (live_before, reads, map Emit before ++ [Native w'] ++ map Emit after) /\
    run 2 (fun _ m0 => eff (addresses m0 w') m0) cl (before ++ [native_ 0] ++ after) m = Ret (Fell, m') /\
    agrees_after next_live b m m' (eff (unwatched_addresses m w t) m).
Proof.
  intros R Hwf Hm Hroom Htr L. destruct (taking_start w t is_last next_live R Hwf) as (lr & sr & us & El & Es & Eu & T).
  destruct (visit_step (w_view w) next_live (rp_ok w t R) Hwf) as (lb & Elb & _ & _).
  destruct (visit_operands_run w t next_live lr sr us (env_kernel && zone) b m eff cl R T Eu Hm Hroom Htr L)
    as (ins & m' & Ev & Er & Ha).
  destruct (rp_plain w t R) as (_ & Hig & _ & Hcall & Hret).
  assert (Hcti : w_is_cti w = false) by (unfold is_ignored in Hig; rewrite !orb_false_iff in Hig; tauto).
  assert (Etr : exists reads, track_carry_flag w b = (reads, w_reads_cf w,
    if w_reads_cf w then false else if w_writes_cf w then false else b)).
  { unfold track_carry_flag. rewrite Hcall, Hret, Hcti. cbn [orb].
    destruct (w_reads_cf w), (w_writes_cf w); eauto. }
  destruct Etr as (reads & Etr).
  exists lb, reads, (i_before ins), (i_in ins), (i_after ins), m'. split; [|done].
  unfold instrument_instruction. rewrite El. cbn [mbind outcome_bind]. rewrite Etr, Elb. cbn [mbind outcome_bind].
  rewrite Hig, (rp_found w t R). cbn [mbind outcome_bind]. rewrite bool_decide_false by apply (rp_some w t R).
  rewrite (rp_segment w t R). cbn [mbind outcome_bind]. rewrite Es. cbn [mbind outcome_bind].
  rewrite (mangle_none w t lr sr R). cbn [mbind outcome_bind]. by rewrite Ev.
Qed.

(** ** An example: [mov 16(%rdi,%rcx,4), %rax] *)
Definition wp_load : winstr :=
  make_instr OP_mov_ld [WReg (reg_id rax)]
    [WMem 0 8 {| bd_disp := 16; bd_base := reg_id rdi; bd_index := reg_id rcx; bd_scale := 4 |}].

Definition load_eff (addrs : list Z) (m : mach) : mach :=
  set_reg rax (read64 (mem m) (nth 1 addrs 0)) m.

Definition wp_load_found : found_operands :=
  {| reads_from_rsp := false; writes_to_rsp := false;
     ops := [{| ref_op := 1; ref_op2 := None; ref_kind := SOURCE_OPERAND |}]; can_replace := [true] |}.

Lemma roomy_list i l : NoDup l -> (forall r, r ∈ l -> 1 <= r <= 16 /\ r <> DR_REG_RSP /\ mentions i r = false) ->
  roomy i (length l).
Proof.
  intros Hnd Hl taken Hlen. destruct (decide (Forall (fun r => r ∈ taken) l)) as [Ha|Hn].
  - rewrite list.Forall_forall in Ha. pose proof (submseteq_length _ _ (NoDup_submseteq _ _ Hnd Ha)). lia.
  - apply not_Forall_Exists in Hn; [|apply _]. apply list.Exists_exists in Hn as (r & Hr & Hnr).
    destruct (Hl r Hr) as (? & ? & ?). exists r. done.
Qed.

Lemma wp_load_replaceable : replaceable (H := kernel_config) wp_load wp_load_found.
Proof.
  constructor; try done.
  - split; repeat constructor; cbn; lia.
  - intros Hin. rewrite !elem_of_cons, elem_of_nil in Hin. cbn in Hin. lia.
  - repeat constructor.
  - intros seg size v Hin. cbn in Hin. rewrite !elem_of_cons, elem_of_nil in Hin.
    destruct Hin as [E|[E|[]]]; [discriminate E|]. injection E as -> -> ->. cbn. lia.
  - intros r p Hr. cbn in Hr. apply list_elem_of_singleton in Hr as ->. done.
  - apply (roomy_list _ [3; 4; 6]).
    + repeat constructor; rewrite ?elem_of_cons, ?elem_of_nil; lia.
    + intros r Hr. rewrite !elem_of_cons, elem_of_nil in Hr. destruct Hr as [->|[->|[->|[]]]]; repeat split; lia || done.
Qed.

Lemma load_laws a lo hi :
  word_at a -> a + 8 <= lo \/ hi <= a -> instr_laws wp_load (load_eff [0; a]) lo hi.
Proof.
  intros Ha Hd. constructor.
  - intros m m' Hr Hm Hf Hrd.
    assert (E : read64 (mem m) a = read64 (mem m') a).
    { apply read64_ext; [done|]. intros x Hx. unfold word_at in Ha. apply Hm; lia. }
    unfold load_eff. cbn [nth]. rewrite E. split; [done|]. split; [|done]. intros r Hor.
    destruct (decide (r = rax)) as [->|Hne]; [by rewrite !regs_set_same|]. rewrite !regs_set_other by done.
    destruct Hor as [Ho|]; [|done]. destruct r; done.
  - intros m r Hr. apply regs_set_other. intros ->. done.
  - done.
  - done.
Qed.

(** The pointer in [rdi] is a watched kernel address with counter index 1. *)
Definition watched_mach : mach :=
  {| regs := fun r => match r with rdi => 0x28000_00001000 | rcx => 2 | rsp => 0x1000 | _ => 0 end;
     mem := fun x => if x =? 0xFFFF8000_00001018 then 7 else 0; flags := 0x203 |}.

(** The premises hold for this load from a watched address, so it loads the
    value of the watched object, with every register live behind it. *)
Lemma watchpoint_transparent_witness :
  exists live_before reads before w' after m',
    instrument_instruction (H := kernel_config) no_code no_code false true register_manager_ctor true wp_load =
      Ret (live_before, reads, map Emit before ++ [Native w'] ++ map Emit after) /\
    run 2 (fun _ m0 => load_eff (addresses m0 w') m0) (fun _ _ => Fault) (before ++ [native_ 0] ++ after) watched_mach =
      Ret (Fell, m') /\
    regs m' rax = 7 /\ regs m' rdi = 0x28000_00001000 /\ flags m' = 0x203.
Proof.
  destruct (watchpoint_transparent (H := kernel_config) wp_load wp_load_found false true register_manager_ctor true
    watched_mach load_eff (fun _ _ => Fault) wp_load_replaceable ctor_wf)
    as (lb & reads & before & w' & after & m' & Ei & Er & _ & Hr & _ & Hf).
  - intros []; vm_compute; split; congruence.
  - split; vm_compute; congruence.
  - intros p o Hp Ho. cbn in Hp. apply list_elem_of_singleton in Hp as ->. injection Ho as <-. by left.
  - apply load_laws; [split; vm_compute; congruence|]. right. vm_compute. congruence.
  - exists lb, reads, before, w', after, m'. split; [exact Ei|]. split; [exact Er|].
    rewrite !Hr by reflexivity. rewrite Hf by reflexivity. by vm_compute.
Defined.

(** ** Where the masking is not transparent *)

(** The code of one instruction, and its run. *)
Definition emitted_code (its : list item) : list instr :=
  map (fun it => match it with Emit i => i | Native _ => native_ 0 end) its.

Definition native_in (its : list item) : list winstr :=
  omap (fun it => match it with Native w => Some w | Emit _ => None end) its.

Definition run_items (eff : list Z -> mach -> mach) (its : list item) (m : mach) : outcome (exit * mach) :=
  match native_in its with
  | [w] => run 2 (fun _ m0 => eff (addresses m0 w) m0) (fun _ _ => Fault) (emitted_code its) m
  | _ => Fault
  end.

(** [lods], with the operands that are reported for it: it loads [rax] from
    [rsi] and advances [rsi]. *)
Definition lods_instr : winstr :=
  make_instr 391 [WReg (reg_id rax); WReg (reg_id rsi)]
    [WMem 104 8 {| bd_disp := 0; bd_base := reg_id rsi; bd_index := 0; bd_scale := 0 |}; WReg (reg_id rsi)].

Definition lods_eff (addrs : list Z) (m : mach) : mach :=
  set_reg rsi (u64 (regs m rsi + 8)) (set_reg rax (read64 (mem m) (nth 2 addrs 0)) m).

(** [stos]: it stores [rax] to [rdi] and advances [rdi]. *)
Definition stos_instr : winstr :=
  make_instr 389 [WMem 101 8 {| bd_disp := 0; bd_base := reg_id rdi; bd_index := 0; bd_scale := 0 |}; WReg (reg_id rdi)]
    [WReg (reg_id rax); WReg (reg_id rdi)].

Definition stos_eff (addrs : list Z) (m : mach) : mach :=
  set_reg rdi (u64 (regs m rdi + 8)) (set_mem (write64 (mem m) (nth 0 addrs 0) (regs m rax)) m).

(** Both pointers are watched. *)
Definition string_mach : mach :=
  {| regs := fun r => match r with rsi => 0x28000_00001000 | rdi => 0x28000_00002000 | rsp => 0x1000 | _ => 0 end;
     mem := fun x => if x =? 0xFFFF8000_00001000 then 7 else 0; flags := 0x202 |}.

(** What is left behind the code of [w] in kernel builds, all registers and
    the carry flag being used later. *)
Definition after_instrumented {A} (f : mach -> A) (eff : list Z -> mach -> mach) (w : winstr) (m : mach) : option A :=
  match instrument_instruction (H := kernel_config) no_code no_code false false register_manager_ctor true w with
  | Ret (_, _, its) => match run_items eff its m with Ret (Fell, m') => Some (f m') | _ => None end
  | _ => None
  end.

(** A string instruction that reads memory loses the watchpoint of its
    source pointer.  Behind the code emitted for [lods], with [rsi] watched
    and live, [rsi] is no longer a watched address, although the instruction
    only adds 8 to it: the register is taken for overwritten because the
    address is a source operand.  The destination pointer of [stos] is
    restored. *)
Theorem string_source_loses_watchpoint :
  let watched := is_watched_address (H := kernel_config) in
  after_instrumented (fun m => (regs m rax, regs m rsi)) lods_eff lods_instr string_mach =
    Some (7, unwatched_address (H := kernel_config) (regs string_mach rsi) + 8) /\
  regs (lods_eff (addresses string_mach lods_instr) string_mach) rsi = regs string_mach rsi + 8 /\
  watched (regs string_mach rsi) = true /\
  watched (unwatched_address (H := kernel_config) (regs string_mach rsi) + 8) = false /\
  after_instrumented (fun m => regs m rdi) stos_eff stos_instr string_mach = Some (regs string_mach rdi + 8).
Proof. by vm_compute. Qed.

(** [shl %cl, (%rdi)], which is reported to write all arithmetic flags; a
    shift by zero leaves them alone. *)
Definition shl_instr : winstr :=
  let op := WMem 0 8 {| bd_disp := 0; bd_base := reg_id rdi; bd_index := 0; bd_scale := 0 |} in
  {| w_opcode := 257; w_dsts := [op]; w_srcs := [WReg 50; op]; w_is_nop := false; w_is_cti := false;
     w_is_call := false; w_is_return := false; w_is_mangled := false; w_reads_cf := false; w_writes_cf := true |}.

Definition shl_eff (addrs : list Z) (m : mach) : mach :=
  let n := u8 (regs m rcx) mod 64 in let a := nth 0 addrs 0 in let v := read64 (mem m) a in
  if n =? 0 then m
  else let res := u64 (Z.shiftl v n) in
    set_flags (result_flags 64 res (Z.testbit v (64 - n)) false false (flags m)) (set_mem (write64 (mem m) a res) m).

Definition carry_mach : mach :=
  {| regs := regs string_mach; mem := mem string_mach; flags := set_flag CF true (flags string_mach) |}.

(** The carry flag is lost on a shift by zero.  The state machine for the
    carry flag takes every instruction that can write it for one that does;
    with a shift count of zero the flag, which the instruction keeps, is that
    of the address test, although it is read later. *)
Theorem shift_by_zero_loses_carry :
  get_flag CF (flags (shl_eff (addresses carry_mach shl_instr) carry_mach)) = true /\
  after_instrumented (fun m => get_flag CF (flags m)) shl_eff shl_instr carry_mach = Some false.
Proof. by vm_compute. Qed.

(** Operands are combined when the low bits of their displacements agree,
    whatever their registers are. *)
Example combine_ignores_registers :
  let mem r := WMem 0 8 {| bd_disp := 0; bd_base := reg_id r; bd_index := 0; bd_scale := 0 |} in
  let w := make_instr OP_mov_st [mem rdi] [mem rsi] in
  can_combine w {| ref_op := 0; ref_op2 := None; ref_kind := DEST_OPERAND |}
    {| ref_op := 1; ref_op2 := None; ref_kind := SOURCE_OPERAND |} = Ret true.
Proof. reflexivity. Qed.
