(* ===== verification/RegionSpill.v ===== *)
(** * Spilling registers around regions: [region_register_spiller]
    ([clients/watchpoints/instrument.cc])

    Before the watchpoint client instruments a block, it looks for regions in
    which no register is dead where one is needed, and pushes one or two
    registers before such a region and pops them behind it; inside of the
    region the registers are then dead, and the instrumentation of every
    instruction can use them.  The pass walks the block backwards.  A region
    ends at branches, at pushes and pops, and at every other instruction that
    reads or writes the stack pointer.

    The theorems: the pass returns, and its result is the block with balanced
    pushes and pops of unused registers around exactly those regions that lack
    a dead register and have at least two instructions, two memory operands
    and an unused register; no instruction of a region names the stack
    pointer; and whatever is done to these registers inside of a region,
    behind the region all registers, the flags and memory above the stack
    pointer are as without it. *)

From Stdlib Require Import ZArith Lia Bool.
From stdpp Require Import base numbers list option.
From S2P Require Import Prelude Register Machine EmitUtils Watchpoint WpInstrument WpCorrect.

(** ** The pass *)

(** [mangled(push_(operand(r)))] and [mangled(pop_(operand(r)))]. *)
Definition rsp_mem (disp : Z) : woperand :=
  WMem 0 8 {| bd_disp := disp; bd_base := DR_REG_RSP; bd_index := DR_REG_NULL; bd_scale := 0 |}.

Definition mangled (w : winstr) : winstr :=
  {| w_opcode := w_opcode w; w_dsts := w_dsts w; w_srcs := w_srcs w; w_is_nop := w_is_nop w; w_is_cti := w_is_cti w;
     w_is_call := w_is_call w; w_is_return := w_is_return w; w_is_mangled := true;
     w_reads_cf := w_reads_cf w; w_writes_cf := w_writes_cf w |}.

Definition spill_push (r : Z) : winstr := mangled (make_instr OP_push [WReg DR_REG_RSP; rsp_mem (-8)] [WReg r; WReg DR_REG_RSP]).
Definition spill_pop (r : Z) : winstr := mangled (make_instr OP_pop [WReg r; WReg DR_REG_RSP] [WReg DR_REG_RSP; rsp_mem 0]).

(** What the inner loop knows: the instructions of the region in the order of
    the program; what is left of the block, in reverse, from the instruction
    at which the loop stopped; and its variables. *)
Record region := {
  rg_body : list winstr;
  rg_rest : list winstr;
  rg_live : register_manager;
  rg_used : register_manager;
  rg_num_memory_ops : nat;
  rg_missing_dead_reg : bool;
  rg_reads_carry_flag : bool;
  rg_visited : bool
}.

Section Spill.
Context `{Config}.

(** The inner loop. *)
Fixpoint find_region (rev_ls : list winstr) (g : region) : outcome region :=
  match rev_ls with
  | [] => Ret {| rg_body := rg_body g; rg_rest := []; rg_live := rg_live g; rg_used := rg_used g;
                 rg_num_memory_ops := rg_num_memory_ops g; rg_missing_dead_reg := rg_missing_dead_reg g;
                 rg_reads_carry_flag := rg_reads_carry_flag g; rg_visited := rg_visited g |}
  | w :: rev_ls' =>
      let stop used :=
        Ret {| rg_body := rg_body g; rg_rest := rev_ls; rg_live := rg_live g; rg_used := used;
               rg_num_memory_ops := rg_num_memory_ops g; rg_missing_dead_reg := rg_missing_dead_reg g;
               rg_reads_carry_flag := rg_reads_carry_flag g; rg_visited := false |} in
      if w_is_cti w || (w_opcode w =? OP_push) || (w_opcode w =? OP_pop) then stop (rg_used g)
      else
        used ← revive_instr (w_view w) (rg_used g);
        t ← for_each_operand (find_memory_operand w) w no_operands;
        if reads_from_rsp t || writes_to_rsp t then stop used
        else
          let missing := if w_is_mangled w then rg_missing_dead_reg g
                         else rg_missing_dead_reg g || ((get_zombie (rg_live g)).1 =? DR_REG_NULL) in
          let reads := if w_is_mangled w then rg_reads_carry_flag g else rg_reads_carry_flag g || w_reads_cf w in
          let num := if w_is_mangled w then rg_num_memory_ops g else (rg_num_memory_ops g + length (ops t))%nat in
          live ← visit (w_view w) (rg_live g);
          find_region rev_ls' {| rg_body := w :: rg_body g; rg_rest := []; rg_live := live; rg_used := used;
                                 rg_num_memory_ops := num; rg_missing_dead_reg := missing;
                                 rg_reads_carry_flag := reads; rg_visited := true |}
  end.

(** The code around a region: the region itself if it is not interesting or
    no register is unused in it. *)
Definition spill_region (g : region) : list winstr :=
  let region_length := length (rg_body g) in
  if bool_decide (region_length < 2)%nat || bool_decide (rg_num_memory_ops g < 2)%nat || negb (rg_missing_dead_reg g) then rg_body g
  else
    let spill_reg_1 := get_zombie (rg_used g) in
    let spill_reg_2 := get_zombie spill_reg_1.2 in
    if spill_reg_1.1 =? DR_REG_NULL then rg_body g
    else
      let reads_carry_flag := rg_reads_carry_flag g && negb (spill_reg_2.1 =? DR_REG_NULL) in
      let do_spill_reg_2 := negb (spill_reg_2.1 =? DR_REG_NULL) && (reads_carry_flag || bool_decide (3 < region_length)%nat) in
      [spill_push spill_reg_1.1] ++ (if do_spill_reg_2 then [spill_push spill_reg_2.1] else []) ++
      rg_body g ++ (if do_spill_reg_2 then [spill_pop spill_reg_2.1] else []) ++ [spill_pop spill_reg_1.1].

Definition empty_region (live_regs : register_manager) : region :=
  {| rg_body := []; rg_rest := []; rg_live := live_regs; rg_used := kill_all register_manager_ctor; rg_num_memory_ops := 0;
     rg_missing_dead_reg := false; rg_reads_carry_flag := false; rg_visited := false |}.

(** The outer loop, from the last instruction to the first; [acc] is the part
    of the block that is finished. *)
Fixpoint spiller_loop (fuel : nat) (rev_ls : list winstr) (live_regs : register_manager) (acc : list winstr) : outcome (list winstr) :=
  match rev_ls with
  | [] => Ret acc
  | w :: rev_ls' =>
      match fuel with
      | O => OutOfFuel
      | S fuel =>
          if w_is_mangled w || w_is_cti w then
            live ← visit (w_view w) live_regs;
            spiller_loop fuel rev_ls' live (w :: acc)
          else
            g ← find_region rev_ls (empty_region live_regs);
            live ← (if rg_visited g then Ret (rg_live g)
                    else match rg_rest g with [] => Ret (rg_live g) | prev_in :: _ => visit (w_view prev_in) (rg_live g) end);
            if bool_decide (rg_body g = []) then spiller_loop fuel rev_ls' live (w :: acc)
            else spiller_loop fuel (rg_rest g) live (spill_region g ++ acc)
      end
  end.

Definition region_register_spiller (ls : list winstr) : outcome (list winstr) :=
  spiller_loop (length ls) (rev ls) register_manager_ctor [].

(** [visit_instructions] as it is configured in the repository, in kernel
    builds: regions are spilled first; the redzone guards that
    [post_process_instructions] adds are those of user space. *)
Definition instrument_block (at_pre_label at_label : nat -> operand_kind -> reg -> Z -> list instr)
    (in_user_access_zone : bool) (ls : list winstr) : outcome (list item) :=
  ls ← region_register_spiller ls;
  visit_instructions at_pre_label at_label in_user_access_zone ls.
End Spill.

(** ** What a region leaves alone *)

(** Instruction [w] neither needs nor changes register [r]; of the stack
    pointer, that it does not change it. *)
Definition untouched (w : winstr) (r : Z) : Prop :=
  (r <> DR_REG_RSP -> uses (w_view w) r = false) /\ in_ops op_reg (in_dsts (w_view w)) r = false.

(** Registers [rs] may be spilled around [body]. *)
Record spill_ok (body : list winstr) (rs : list reg) : Prop := {
  so_length : (length rs <= 2)%nat;
  so_nodup : NoDup rs;
  so_rsp : rsp ∉ rs;
  so_regs : forall r w, r ∈ rs -> w ∈ body -> untouched w (reg_id r);
  so_body : forall w, w ∈ body -> w_is_cti w = false /\ w_opcode w <> OP_push /\ w_opcode w <> OP_pop /\ untouched w DR_REG_RSP /\
    mentions (w_view w) DR_REG_RSP = false
}.

Definition pushes (rs : list reg) : list winstr := map (fun r => spill_push (reg_id r)) rs.
Definition pops (rs : list reg) : list winstr := map (fun r => spill_pop (reg_id r)) (rev rs).

(** An instruction that can be inside of a region: no branch, push or pop,
    and without the stack pointer among its operands. *)
Definition in_region (w : winstr) : bool :=
  negb (w_is_cti w) && negb (w_opcode w =? OP_push) && negb (w_opcode w =? OP_pop) && negb (mentions (w_view w) DR_REG_RSP).

(** The registers live before [body], if those in [live] are live behind it. *)
Fixpoint live_before (body : list winstr) (live : register_manager) : outcome register_manager :=
  match body with
  | [] => Ret live
  | w :: body => rm ← live_before body live; visit (w_view w) rm
  end.

(** Behind some instruction that is not Granary's own, no register is dead. *)
Definition lacks_dead (live : register_manager) (body : list winstr) : Prop :=
  exists pre w post rm, body = pre ++ w :: post /\ w_is_mangled w = false /\ live_before post live = Ret rm /\
    forall r, 1 <= r <= 16 -> ~ free rm r.

(** Of the instructions that are not Granary's own, the number of memory
    operands, and whether one of them reads the carry flag. *)
Definition memory_operands `{Config} (body : list winstr) : nat :=
  sum_list_with (fun w => if w_is_mangled w then 0%nat
    else match for_each_operand (find_memory_operand w) w no_operands with Ret t => length (ops t) | _ => 0%nat end) body.
Definition reads_carry (body : list winstr) : bool := existsb (fun w => negb (w_is_mangled w) && w_reads_cf w) body.

(** The instruction before a region, when the region ends because of its use
    of the stack pointer. *)
Definition blocker (rest : list winstr) : list winstr :=
  match rest with
  | w :: _ => if w_is_cti w || (w_opcode w =? OP_push) || (w_opcode w =? OP_pop) then [] else [w]
  | [] => []
  end.

(** Neither the region nor the instruction that ends it names register [r]. *)
Definition available (ws : list winstr) (r : Z) : Prop :=
  forall w, w ∈ ws -> w_is_nop w = true \/ mentions (w_view w) r = false.

(** A region around which it is worth to spill, and the registers that are
    spilled: one if there is an unused one, and another one for regions that
    are long or read the carry flag. *)
Definition worth_spilling `{Config} (live : register_manager) (body : list winstr) : Prop :=
  (2 <= length body)%nat /\ (2 <= memory_operands body)%nat /\ lacks_dead live body.

Record spills `{Config} (live : register_manager) (body rest : list winstr) (rs : list reg) : Prop := {
  sp_ok : spill_ok body rs;
  sp_one : rs <> [] <-> worth_spilling live body /\ exists r, r <> rsp /\ available (blocker rest ++ body) (reg_id r);
  sp_two : length rs = 2%nat <-> worth_spilling live body /\ ((3 < length body)%nat \/ reads_carry body = true) /\
    exists r r', r <> rsp /\ r' <> rsp /\ r <> r' /\
      available (blocker rest ++ body) (reg_id r) /\ available (blocker rest ++ body) (reg_id r')
}.



Section SpillCorrect.
Context `{Config}.

(** What is reported about an instruction: its operands are those of the
    tables, at most two of them are memory operands, the registers of repeated
    instructions are operands, a [nop] writes no register, and the stack
    pointer is named as a whole. *)
Record block_ok (w : winstr) : Prop := {
  bo_ok : instr_ok (w_view w);
  bo_found : exists t, for_each_operand (find_memory_operand w) w no_operands = Ret t;
  bo_rep : forall r, rep_reg (in_opcode (w_view w)) r = true -> mentions (w_view w) r = true;
  bo_nop : w_is_nop w = true -> forall r, in_ops op_reg (in_dsts (w_view w)) r = false;
  bo_rsp : forall g, WReg g ∈ all_operands w -> g < DR_REG_MM0 -> reg64_of g = DR_REG_RSP -> g = DR_REG_RSP
}.

Lemma mentions_false i r : mentions i r = false ->
  in_ops op_reg (in_dsts i) r = false /\ in_ops op_addr (in_dsts i) r = false /\
  in_ops op_reg (in_srcs i) r = false /\ in_ops op_addr (in_srcs i) r = false.
Proof.
  unfold mentions, op_names. intros [Hd Hs]%orb_false_iff. rewrite <- (in_ops_orb op_reg op_addr) in Hd, Hs.
  apply orb_false_iff in Hd as [? ?], Hs as [? ?]. done.
Qed.

Lemma untouched_mentions w r :
  block_ok w -> w_is_cti w = false -> w_is_nop w = true \/ mentions (w_view w) r = false -> untouched w r.
Proof.
  intros Hok Hcti Hm. destruct (w_is_nop w) eqn:En.
  { split; [intros _; unfold uses; cbn [w_view in_is_nop]; by rewrite En|by apply (bo_nop w Hok)]. }
  destruct Hm as [|Hm]; [done|]. destruct (mentions_false _ _ Hm) as (H1 & H2 & H3 & H4). split; [|done].
  intros Hr. unfold uses. rewrite H1, H2, H3, H4, andb_false_r. cbn [w_view in_is_nop in_is_cti in_opcode]. rewrite En, Hcti.
  rewrite (proj2 (Z.eqb_neq r _) Hr). cbn [negb andb orb]. rewrite orb_false_r.
  destruct (rep_reg (dr_opcode (w_opcode w)) r) eqn:Er; [|done]. by rewrite (bo_rep w Hok r Er) in Hm.
Qed.

(** *** The stack pointer *)
Lemma scale_64 reg x : reg < DR_REG_MM0 -> scale reg REG_64 = Ret x -> x = reg64_of reg.
Proof.
  intros Hr. unfold scale, reg_idx, idx, reg64_of. rewrite (proj2 (Z.leb_gt _ _) Hr).
  destruct (REG_TO_REG64 !! Z.to_nat reg); [|discriminate]. by intros [= ->].
Qed.

Lemma operand_ok w p o : block_ok w -> all_operands w !! p = Some o -> opnd_ok (w_opnd o).
Proof.
  intros Hok Eo. destruct (bo_ok w Hok) as [Hd Hs]. rewrite List.Forall_forall in Hd, Hs. apply list_elem_of_lookup_2 in Eo.
  apply elem_of_app in Eo as [Ho|Ho]; [apply Hd|apply Hs]; apply in_map; by apply list_elem_of_In.
Qed.

Definition no_rsp (t : found_operands) : bool := negb (reads_from_rsp t || writes_to_rsp t).

Lemma find_memory_operand_rsp w p k t t' o :
  block_ok w -> find_memory_operand w {| ref_op := p; ref_op2 := None; ref_kind := k |} t = Ret t' -> all_operands w !! p = Some o ->
  no_rsp t' = true -> no_rsp t = true /\ op_names (w_opnd o) DR_REG_RSP = false.
Proof.
  intros Hok E Eo Hn. unfold find_memory_operand, get_operand in E. cbn [ref_op ref_kind] in E.
  rewrite (proj2 (idx_ret _ _ _) Eo) in E. cbn [mbind outcome_bind] in E. destruct o as [g|seg size v|].
  - destruct (Z.eqb_spec g DR_REG_RSP) as [->|Hne].
    + exfalso. injection E as <-. unfold no_rsp in Hn. destruct k; cbn in Hn; rewrite ?orb_true_r in Hn; discriminate Hn.
    + injection E as <-. split; [done|]. unfold op_names. cbn [w_opnd op_reg op_addr]. rewrite orb_false_r.
      destruct (Z.ltb_spec g DR_REG_MM0); [|done]. cbn [andb]. apply Z.eqb_neq. intros Hg. apply Hne.
      apply (bo_rsp w Hok); [|done|done]. by eapply list_elem_of_lookup_2.
  - destruct (scale (bd_base v) REG_64) as [b| |] eqn:Eb; cbn [mbind outcome_bind] in E; [|discriminate E..].
    destruct (scale (bd_index v) REG_64) as [x| |] eqn:Ex; cbn [mbind outcome_bind] in E; [|discriminate E..].
    pose proof (operand_ok w p _ Hok Eo) as [[_ Hb] [_ Hx]]. apply scale_64 in Eb, Ex; [|done|done]. subst b x.
    destruct ((reg64_of (bd_base v) =? DR_REG_RSP) || (reg64_of (bd_index v) =? DR_REG_RSP)) eqn:Er; [injection E as <-; discriminate Hn|].
    assert (Hop : op_names (w_opnd (WMem seg size v)) DR_REG_RSP = false) by (unfold op_names; cbn [w_opnd op_reg op_addr]; exact Er).
    split; [|done]. revert E. destruct (if negb _ then _ else _); [by intros [= <-]|].
    destruct (kill_opnd _ _) as [rm| |]; cbn [mbind outcome_bind]; [|discriminate..].
    destruct (_ =? DR_REG_NULL); [by intros [= <-]|]. destruct (_ && _ && _); [by intros [= <-]|].
    unfold add_operand. destruct (ASSERT _); cbn [mbind outcome_bind]; [|discriminate..].
    destruct (combine_index _ _ _ _) as [[i|]| |]; cbn [mbind outcome_bind]; [|by intros [= <-]|discriminate..].
    destruct (idx (ops t) i); cbn [mbind outcome_bind]; [|discriminate..].
    destruct (idx (can_replace t) i); cbn [mbind outcome_bind]; [|discriminate..]. by intros [= <-].
  - injection E as <-. done.
Qed.

Lemma for_each_operand_rsp w t :
  block_ok w -> for_each_operand (find_memory_operand w) w no_operands = Ret t -> reads_from_rsp t || writes_to_rsp t = false ->
  mentions (w_view w) DR_REG_RSP = false.
Proof.
  intros Hok E Hn. unfold for_each_operand in E.
  set (f := fun a p => _) in E.
  assert (Hfold : forall ps a t', (forall p, p ∈ ps -> (p < length (all_operands w))%nat) -> foldl f a ps = Ret t' -> no_rsp t' = true ->
    exists t0, a = Ret t0 /\ no_rsp t0 = true /\ forall p o, p ∈ ps -> all_operands w !! p = Some o -> op_names (w_opnd o) DR_REG_RSP = false).
  { clear E Hn t. induction ps as [|p ps IH]; intros a t' Hp E Hn; cbn [foldl] in E.
    - exists t'. split; [done|]. split; [done|]. intros p o Hin. by apply not_elem_of_nil in Hin.
    - destruct (IH (f a p) t') as (t1 & E1 & Hn1 & Hall); [intros q Hq; apply Hp; by right|done|done|].
      unfold f in E1. destruct a as [t0| |]; cbn [mbind outcome_bind] in E1; [|discriminate E1..].
      destruct (lookup_lt_is_Some_2 _ _ (Hp p ltac:(left))) as [o Eo].
      destruct (find_memory_operand_rsp w p _ t0 t1 o Hok E1 Eo Hn1) as [Hn0 Ho]. exists t0. split; [done|]. split; [done|].
      intros q o' [->|Hq]%elem_of_cons Eq; [congruence|by eapply Hall]. }
  destruct (Hfold (seq 0 (length (all_operands w))) (Ret no_operands) t) as (_ & _ & _ & Hall).
  { intros p Hp. apply elem_of_seq in Hp. lia. }
  { exact E. }
  { unfold no_rsp. by rewrite Hn. }
  assert (Hm : existsb (fun o => op_names o DR_REG_RSP) (map w_opnd (all_operands w)) = false).
  { apply not_true_is_false. intros (o & Hin & Ho)%existsb_exists. apply in_map_iff in Hin as (o' & <- & Hin%list_elem_of_In).
    apply list_elem_of_lookup_1 in Hin as [p Ep]. rewrite (Hall p o') in Ho; [done| |done].
    apply elem_of_seq. pose proof (lookup_lt_Some _ _ _ Ep). lia. }
  unfold all_operands in Hm. rewrite map_app, existsb_app in Hm. exact Hm.
Qed.

Lemma add_operand_rsp w op b t t' : add_operand w op b t = Ret t' -> no_rsp t' = no_rsp t.
Proof.
  unfold add_operand. destruct (ASSERT _); cbn [mbind outcome_bind]; [|discriminate..].
  destruct (combine_index _ _ _ _) as [[i|]| |]; cbn [mbind outcome_bind]; [|by intros [= <-]|discriminate..].
  destruct (idx (ops t) i); cbn [mbind outcome_bind]; [|discriminate..].
  destruct (idx (can_replace t) i); cbn [mbind outcome_bind]; [|discriminate..]. by intros [= <-].
Qed.

(** An operand without the stack pointer is not noted as an access to it. *)
Lemma find_memory_operand_keeps w p k t t' o :
  block_ok w -> find_memory_operand w {| ref_op := p; ref_op2 := None; ref_kind := k |} t = Ret t' -> all_operands w !! p = Some o ->
  op_names (w_opnd o) DR_REG_RSP = false -> no_rsp t' = no_rsp t.
Proof.
  intros Hok E Eo Hn. unfold find_memory_operand, get_operand in E. cbn [ref_op ref_kind] in E.
  rewrite (proj2 (idx_ret _ _ _) Eo) in E. cbn [mbind outcome_bind] in E. destruct o as [g|seg size v|].
  - destruct (Z.eqb_spec g DR_REG_RSP) as [->|Hne]; [discriminate Hn|]. by injection E as <-.
  - destruct (scale (bd_base v) REG_64) as [b| |] eqn:Eb; cbn [mbind outcome_bind] in E; [|discriminate E..].
    destruct (scale (bd_index v) REG_64) as [x| |] eqn:Ex; cbn [mbind outcome_bind] in E; [|discriminate E..].
    pose proof (operand_ok w p _ Hok Eo) as [[_ Hb] [_ Hx]]. apply scale_64 in Eb, Ex; [|done|done]. subst b x.
    unfold op_names in Hn. cbn [w_opnd op_reg op_addr orb] in Hn. rewrite Hn in E.
    revert E. destruct (if negb _ then _ else _); [by intros [= <-]|].
    destruct (kill_opnd _ _) as [rm| |]; cbn [mbind outcome_bind]; [|discriminate..].
    destruct (_ =? DR_REG_NULL); [by intros [= <-]|]. destruct (_ && _ && _); [by intros [= <-]|]. apply add_operand_rsp.
  - by injection E as <-.
Qed.

Lemma for_each_operand_no_rsp w t :
  block_ok w -> for_each_operand (find_memory_operand w) w no_operands = Ret t -> mentions (w_view w) DR_REG_RSP = false ->
  reads_from_rsp t || writes_to_rsp t = false.
Proof.
  intros Hok E Hm. unfold for_each_operand in E. set (f := fun a p => _) in E.
  assert (Hall : forall p o, all_operands w !! p = Some o -> op_names (w_opnd o) DR_REG_RSP = false).
  { intros p o Eo. destruct (mentions_false _ _ Hm) as (H1 & H2 & H3 & H4). unfold mentions in Hm.
    apply not_true_is_false. intros Ho. assert (Hx : existsb (fun o => op_names o DR_REG_RSP) (map w_opnd (all_operands w)) = true).
    { apply existsb_exists. exists (w_opnd o). split; [|done]. apply in_map, list_elem_of_In. by eapply list_elem_of_lookup_2. }
    unfold all_operands in Hx. rewrite map_app, existsb_app in Hx. unfold in_ops in Hm. cbn [w_view in_dsts in_srcs] in Hm. congruence. }
  assert (Hfold : forall ps a t', (forall p, p ∈ ps -> (p < length (all_operands w))%nat) -> foldl f (Ret a) ps = Ret t' -> no_rsp t' = no_rsp a).
  { clear E t. induction ps as [|p ps IH]; intros a t' Hp E; cbn [foldl] in E; [by injection E as <-|].
    destruct (lookup_lt_is_Some_2 _ _ (Hp p ltac:(left))) as [o Eo].
    assert (Hno : forall q (x : outcome found_operands), (forall y, x <> Ret y) -> foldl f x q <> Ret t').
    { induction q as [|q0 q IHq]; intros x Hx; cbn [foldl]; [apply Hx|]. apply IHq. intros y. unfold f.
      destruct x as [y0| |]; [by destruct (Hx y0)|done..]. }
    destruct (f (Ret a) p) as [t1| |] eqn:E1; [|by apply Hno in E..].
    rewrite (IH t1 t') by (done || (intros q Hq; apply Hp; by right)). unfold f in E1. cbn [mbind outcome_bind] in E1.
    eapply find_memory_operand_keeps; [done|exact E1|exact Eo|by eapply Hall]. }
  assert (Hr : no_rsp t = no_rsp no_operands).
  { eapply Hfold; [|exact E]. intros p Hp. apply elem_of_seq in Hp. lia. }
  unfold no_rsp in Hr. cbn in Hr. by apply negb_true_iff in Hr.
Qed.

(** *** Regions *)

(** What is known of a region, behind which the registers of [live] are
    live; [ws] are the instructions whose registers have been noted. *)
Record region_ok (live : register_manager) (ws : list winstr) (g : region) : Prop := {
  ro_live : rm_wf (rg_live g);
  ro_used : rm_wf (rg_used g);
  ro_body : Forall (fun w => block_ok w /\ in_region w = true) (rg_body g);
  ro_free : forall r, 1 <= r <= 16 -> free (rg_used g) r <-> r <> DR_REG_RSP /\ available ws r;
  ro_before : live_before (rg_body g) live = Ret (rg_live g);
  ro_ops : rg_num_memory_ops g = memory_operands (rg_body g);
  ro_missing : rg_missing_dead_reg g = true <-> lacks_dead live (rg_body g);
  ro_reads : rg_reads_carry_flag g = reads_carry (rg_body g)
}.

(** Reviving the operands of an instruction leaves exactly the registers free
    that it does not name. *)
Lemma revive_free w rm : block_ok w -> rm_wf rm ->
  exists rm', revive_instr (w_view w) rm = Ret rm' /\ rm_wf rm' /\
    forall r, 1 <= r <= 16 -> free rm' r <-> free rm r /\ (w_is_nop w = true \/ mentions (w_view w) r = false).
Proof.
  intros Hok Hwf. destruct (w_is_nop w) eqn:En.
  - exists rm. unfold revive_instr. cbn [w_view in_is_nop]. rewrite En. split; [done|]. split; [done|]. intros r _. tauto.
  - destruct (revive_instr_ok (w_view w) rm (bo_ok w Hok) Hwf) as (rm' & E & Hwf' & Hr); [by cbn|]. exists rm'. split; [done|]. split; [done|].
    intros r Hr16. unfold free. destruct (Hr r Hr16) as [-> ->].
    destruct (lives rm r), (zombie rm r), (mentions (w_view w) r); cbn; intuition congruence.
Qed.

Lemma available_cons w ws r : available (w :: ws) r <-> (w_is_nop w = true \/ mentions (w_view w) r = false) /\ available ws r.
Proof.
  unfold available. split.
  - intros Ha. split; [apply Ha; left|]. intros w' Hw'. apply Ha. by right.
  - intros [Hw Ha] w' [->|Hw']%elem_of_cons; auto.
Qed.

Lemma in_region_facts w : block_ok w -> in_region w = true ->
  w_is_cti w = false /\ w_opcode w <> OP_push /\ w_opcode w <> OP_pop /\ untouched w DR_REG_RSP /\ mentions (w_view w) DR_REG_RSP = false.
Proof.
  intros Hok. unfold in_region. rewrite !andb_true_iff, !negb_true_iff, !Z.eqb_neq. intros (((Hc & Hpu) & Hpo) & Hm).
  repeat (split; [done|]). split; [|done]. apply untouched_mentions; [done|done|by right].
Qed.

Lemma lacks_dead_cons live w body rm :
  live_before body live = Ret rm -> rm_wf rm ->
  lacks_dead live (w :: body) <-> lacks_dead live body \/ (w_is_mangled w = false /\ (get_zombie rm).1 = DR_REG_NULL).
Proof.
  intros E Hwf. assert (Hz : (get_zombie rm).1 = DR_REG_NULL <-> forall r, 1 <= r <= 16 -> ~ free rm r).
  { destruct (get_zombie rm) as [z rm'] eqn:Ez. destruct (get_zombie_free rm z rm' Hwf Ez) as [_ [(-> & _ & Hn)|(Hz & Hr & _ & Hf & _)]]; cbn [fst].
    - done.
    - split; [done|]. intros Hn. by apply Hn in Hf. }
  rewrite Hz. split.
  - intros (pre & w0 & post & rm0 & Eb & Hm & El & Hn). destruct pre as [|w1 pre]; cbn [app] in Eb; injection Eb as -> Eb.
    + right. subst post. rewrite E in El. by injection El as <-.
    + left. by exists pre, w0, post, rm0.
  - intros [(pre & w0 & post & rm0 & -> & Hm & El & Hn)|[Hm Hn]]; [by exists (w :: pre), w0, post, rm0|by exists [], w, body, rm].
Qed.

Lemma region_ok_grow live w g used t rm :
  block_ok w -> in_region w = true -> region_ok live (rg_body g) g -> revive_instr (w_view w) (rg_used g) = Ret used ->
  for_each_operand (find_memory_operand w) w no_operands = Ret t -> visit (w_view w) (rg_live g) = Ret rm ->
  region_ok live (w :: rg_body g) {| rg_body := w :: rg_body g; rg_rest := []; rg_live := rm; rg_used := used;
    rg_num_memory_ops := if w_is_mangled w then rg_num_memory_ops g else (rg_num_memory_ops g + length (ops t))%nat;
    rg_missing_dead_reg := if w_is_mangled w then rg_missing_dead_reg g else rg_missing_dead_reg g || ((get_zombie (rg_live g)).1 =? DR_REG_NULL);
    rg_reads_carry_flag := if w_is_mangled w then rg_reads_carry_flag g else rg_reads_carry_flag g || w_reads_cf w;
    rg_visited := true |}.
Proof.
  intros Hw Hin [Hlv Hu Hb Hfr Hbe Hops Hmi Hrd] Eu Et Ev.
  destruct (revive_free w (rg_used g) Hw Hu) as (used' & Eu' & Hu' & Hfree). rewrite Eu in Eu'. injection Eu' as <-.
  destruct (visit_step (w_view w) (rg_live g) (bo_ok w Hw) Hlv) as (rm' & Ev' & Hlv' & _). rewrite Ev in Ev'. injection Ev' as <-.
  split; cbn [rg_live rg_used rg_body rg_num_memory_ops rg_missing_dead_reg rg_reads_carry_flag].
  - done.
  - done.
  - by constructor.
  - intros r Hr. rewrite Hfree, Hfr, available_cons by done. tauto.
  - cbn [live_before]. rewrite Hbe. exact Ev.
  - unfold memory_operands in *. cbn [sum_list_with]. rewrite Et. destruct (w_is_mangled w); rewrite Hops; lia.
  - rewrite (lacks_dead_cons live w _ _ Hbe Hlv), <- Hmi. destruct (w_is_mangled w); [split; [by left|by intros [|[? _]]]|].
    rewrite orb_true_iff, Z.eqb_eq. tauto.
  - unfold reads_carry in *. cbn [existsb]. destruct (w_is_mangled w); cbn [negb andb orb]; [done|]. rewrite Hrd. apply orb_comm.
Qed.

Lemma in_region_split w t :
  block_ok w -> for_each_operand (find_memory_operand w) w no_operands = Ret t ->
  w_is_cti w || (w_opcode w =? OP_push) || (w_opcode w =? OP_pop) = false ->
  in_region w = negb (reads_from_rsp t || writes_to_rsp t).
Proof.
  intros Hw Et [[Hc Hpu]%orb_false_iff Hpo]%orb_false_iff. unfold in_region. rewrite Hc, Hpu, Hpo. cbn [negb andb].
  destruct (reads_from_rsp t || writes_to_rsp t) eqn:Er; cbn [negb].
  - destruct (mentions (w_view w) DR_REG_RSP) eqn:Em; [done|]. by rewrite (for_each_operand_no_rsp w t) in Er.
  - by rewrite (for_each_operand_rsp w t).
Qed.

(** What the inner loop returns: the longest region. *)
Record region_found (live : register_manager) (rev_ls : list winstr) (g g' : region) : Prop := {
  rf_ok : region_ok live (blocker (rg_rest g') ++ rg_body g') g';
  rf_split : rev (rg_rest g') ++ rg_body g' = rev rev_ls ++ rg_body g;
  rf_rest : Forall block_ok (rg_rest g');
  rf_ends : match rg_rest g' with w :: _ => in_region w = false | [] => True end;
  rf_visited : rg_visited g' = true <-> rg_rest g' = [] /\ (rev_ls <> [] \/ rg_visited g = true);
  rf_last : exists b, rg_body g' = b ++ rg_body g;
  rf_first : match rev_ls with w :: _ => in_region w = true -> rg_body g' <> [] | [] => True end
}.

Lemma find_region_ok live rev_ls : forall g, Forall block_ok rev_ls -> region_ok live (rg_body g) g ->
  exists g', find_region rev_ls g = Ret g' /\ region_found live rev_ls g g'.
Proof.
  induction rev_ls as [|w l IH]; intros g Hl Hg.
  { eexists. split; [reflexivity|]. split; cbn; try done; [by destruct Hg; split| |by exists []].
    split; [intros ->; split; [done|by right]|by intros [_ [|]]]. }
  pose proof Hl as Hl0. apply List.Forall_cons_iff in Hl as [Hw Hl]. cbn [find_region].
  destruct (w_is_cti w || (w_opcode w =? OP_push) || (w_opcode w =? OP_pop)) eqn:Ecti.
  { assert (Hout : in_region w = false).
    { unfold in_region. destruct (w_is_cti w), (w_opcode w =? OP_push), (w_opcode w =? OP_pop); done. }
    eexists. split; [reflexivity|]. split; cbn [rg_rest rg_body rg_visited blocker]; rewrite ?Ecti; try done.
    - by destruct Hg; split.
    - by split; [|intros [? _]].
    - by exists [].
    - by rewrite Hout. }
  destruct (revive_free w (rg_used g) Hw (ro_used _ _ _ Hg)) as (used & Eu & Hu' & Hfree). rewrite Eu. cbn [mbind outcome_bind].
  destruct (bo_found w Hw) as [t Et]. rewrite Et. cbn [mbind outcome_bind].
  pose proof (in_region_split w t Hw Et Ecti) as Hin.
  destruct (reads_from_rsp t || writes_to_rsp t); cbn [negb] in Hin.
  { eexists. split; [reflexivity|]. split; cbn [rg_rest rg_body rg_visited blocker]; rewrite ?Ecti; try done.
    - destruct Hg as [Hlv Hu Hb Hfr Hbe Hops Hmi Hrd]. split; cbn; try done.
      intros r Hr. rewrite Hfree, Hfr, available_cons by done. tauto.
    - by split; [|intros [? _]].
    - by exists [].
    - by rewrite Hin. }
  destruct (visit_step (w_view w) (rg_live g) (bo_ok w Hw) (ro_live _ _ _ Hg)) as (rm & El & Hlv' & _). rewrite El. cbn [mbind outcome_bind].
  pose proof (region_ok_grow live w g used t rm Hw Hin Hg Eu Et El) as Hg'.
  match goal with |- context [find_region l ?g0] => destruct (IH g0 Hl Hg') as (g' & E & [Hok Hsp Hr He Hv [b Hb] _]) end.
  exists g'. split; [done|].
  cbn [rg_body] in *. split; try done.
  - rewrite Hsp. cbn [rev]. by rewrite <- app_assoc.
  - rewrite Hv. split; intros [? _]; (split; [done|]); [by left|by right].
  - exists (b ++ [w]). by rewrite Hb, <- app_assoc.
  - intros _. rewrite Hb. by destruct b.
Qed.

Lemma empty_region_ok lv : rm_wf lv -> region_ok lv [] (empty_region lv).
Proof.
  intros Hl. split; try done; try apply kill_all_wf.
  - intros r Hr. unfold free, lives, zombie. cbn [empty_region rg_used kill_all live undead]. rewrite testbit_FORCE_LIVE by lia.
    rewrite Z.bits_0, orb_false_r, Z.eqb_neq. split; [intros Hne; split; [lia|]|intros [Hne _]; lia].
    intros w Hw. by apply not_elem_of_nil in Hw.
  - split; [done|]. intros (pre & w & post & rm & E & _). by destruct pre.
Qed.

(** What the code around a region is. *)
Lemma spill_region_spills live g : region_ok live (blocker (rg_rest g) ++ rg_body g) g ->
  exists rs, spill_region g = pushes rs ++ rg_body g ++ pops rs /\ spills live (rg_body g) (rg_rest g) rs.
Proof.
  intros [_ Hu Hb Hfr _ Hops Hmi Hrd]. set (ws := blocker (rg_rest g) ++ rg_body g) in *.
  assert (Hb5 : forall w, w ∈ rg_body g -> w_is_cti w = false /\ w_opcode w <> OP_push /\ w_opcode w <> OP_pop /\ untouched w DR_REG_RSP /\
    mentions (w_view w) DR_REG_RSP = false).
  { intros w Hw. rewrite list.Forall_forall in Hb. destruct (Hb w Hw). by apply in_region_facts. }
  assert (Hun : forall r w, available ws r -> w ∈ rg_body g -> untouched w r).
  { intros r w Ha Hw. rewrite list.Forall_forall in Hb. destruct (Hb w Hw) as [Hok Hin]. destruct (Hb5 w Hw) as (Hc & _).
    apply untouched_mentions; [done|done|]. apply Ha, elem_of_app. by right. }
  assert (Hid : forall r : reg, 1 <= reg_id r <= 16 /\ (r <> rsp <-> reg_id r <> DR_REG_RSP)) by (intros []; cbn; split; try lia; split; done).
  assert (Hav : forall r : reg, free (rg_used g) (reg_id r) <-> r <> rsp /\ available ws (reg_id r)).
  { intros r. destruct (Hid r) as [Hr ->]. by apply Hfr. }
  assert (Hworth : bool_decide (length (rg_body g) < 2)%nat || bool_decide (rg_num_memory_ops g < 2)%nat || negb (rg_missing_dead_reg g) = false <->
    worth_spilling live (rg_body g)).
  { rewrite !orb_false_iff, !bool_decide_eq_false, negb_false_iff, Hmi, Hops. unfold worth_spilling. intuition lia. }
  assert (Hnil : ~ (worth_spilling live (rg_body g) /\ exists r, r <> rsp /\ available ws (reg_id r)) ->
    exists rs, rg_body g = pushes rs ++ rg_body g ++ pops rs /\ spills live (rg_body g) (rg_rest g) rs).
  { intros Hno. exists []. split; [cbn; by rewrite app_nil_r|]. split.
    - split; [cbn; lia|constructor|apply not_elem_of_nil| |done]. intros r w Hr. by apply not_elem_of_nil in Hr.
    - split; [done|]. intros Hyes. by apply Hno in Hyes.
    - split; [done|]. intros (Hw & _ & r & _ & Hr & _ & _ & Ha & _). exfalso. apply Hno. split; [done|]. by exists r. }
  unfold spill_region. destruct (_ || _) eqn:Ew; [apply Hnil; intros [Hw _]; by apply Hworth in Hw|]. pose proof (proj1 Hworth eq_refl) as Hw. clear Ew Hworth.
  destruct (get_zombie (rg_used g)) as [z1 rm1] eqn:E1. cbn [fst snd]. destruct (get_zombie rm1) as [z2 rm2] eqn:E2. cbn [fst snd].
  destruct (get_zombie_free _ _ _ Hu E1) as [Hu1 [(-> & _ & Hn)|(Hz1 & Hr1 & Hsp1 & Hf1 & Hfr1)]].
  { apply Hnil. intros [_ (r & Hr & Ha)]. apply (Hn (reg_id r)); [apply Hid|]. by apply Hav. }
  clear Hnil. rewrite (proj2 (Z.eqb_neq z1 _) Hz1). set (b := negb (z2 =? DR_REG_NULL) && _).
  destruct (reg_of_id_spec z1 Hr1) as (x1 & _ & Ex1). subst z1. pose proof (proj1 (Hav x1) Hf1) as [Hx1 Ha1].
  assert (Hone : forall rs : list reg, rs <> [] -> rs <> [] <-> worth_spilling live (rg_body g) /\ exists r, r <> rsp /\ available ws (reg_id r)).
  { intros rs Hrs. split; [intros _; split; [done|by exists x1]|done]. }
  assert (Hsecond : b = true <-> ((3 < length (rg_body g))%nat \/ reads_carry (rg_body g) = true) /\ z2 <> DR_REG_NULL).
  { unfold b. rewrite Hrd, !andb_true_iff, orb_true_iff, andb_true_iff, negb_true_iff, bool_decide_eq_true, Z.eqb_neq. tauto. }
  assert (Hfree2 : forall r : reg, free rm1 (reg_id r) <-> (r <> rsp /\ available ws (reg_id r)) /\ r <> x1).
  { intros r. rewrite Hfr1, Hav by apply Hid. split; intros [? Hne]; (split; [done|]); [by intros ->|intros E; apply Hne; by destruct r, x1]. }
  destruct (get_zombie_free _ _ _ Hu1 E2) as [_ [(Ez2 & _ & Hn2)|(Hz2 & Hr2 & Hsp2 & Hf2 & _)]].
  - assert (b = false) as -> by (apply not_true_is_false; intros [_ ?]%Hsecond; done). exists [x1]. split; [reflexivity|]. split.
    + split; [cbn; lia|apply NoDup_singleton|rewrite list_elem_of_singleton; by intros <-| |done].
      intros r w ->%list_elem_of_singleton. by apply Hun.
    + by apply Hone.
    + split; [done|]. intros (_ & _ & r & r' & Hr & Hr' & Hne & Ha & Ha'). exfalso.
      destruct (decide (r = x1)) as [->|Hrx]; [apply (Hn2 (reg_id r'))|apply (Hn2 (reg_id r))]; try apply Hid; apply Hfree2; auto.
  - destruct (reg_of_id_spec z2 Hr2) as (x2 & _ & Ex2). subst z2. apply Hfree2 in Hf2 as [[Hx2 Ha2] Hne].
    destruct b eqn:Eb.
    + apply proj1 in Hsecond. destruct (Hsecond eq_refl) as [Hlong _]. exists [x1; x2]. split; [reflexivity|]. split.
      * split; [cbn; lia| |rewrite !elem_of_cons, elem_of_nil; intros [<-|[<-|[]]]; done| |done].
        -- constructor; [rewrite list_elem_of_singleton; congruence|apply NoDup_singleton].
        -- intros r w. rewrite !elem_of_cons, elem_of_nil. intros [->|[->|[]]]; by apply Hun.
      * by apply Hone.
      * split; [intros _|done]. split; [done|]. split; [done|]. exists x1, x2. by repeat (split; [done|]).
    + exists [x1]. split; [reflexivity|]. split.
      * split; [cbn; lia|apply NoDup_singleton|rewrite list_elem_of_singleton; by intros <-| |done].
        intros r w ->%list_elem_of_singleton. by apply Hun.
      * by apply Hone.
      * split; [done|]. intros (_ & Hlong & _). exfalso. apply proj2 in Hsecond. discriminate Hsecond. by split.
Qed.





End SpillCorrect.

(** ** Running a region *)
Section SpillRun.
Context `{Config} (ns : native_sem).
(** The effect of an instruction, and what instrumentation does behind it. *)
Context (exec clobber : winstr -> mach -> mach).

(** Pushes and pops of the pass are those of the machine. *)
Definition step_winstr (w : winstr) (m : mach) : option mach :=
  match w_opcode w, w_dsts w, w_srcs w with
  | OP_push, _, WReg r :: _ => r ← reg_of_id r; exec_list ns [push_ (OReg r)] m
  | OP_pop, WReg r :: _, _ => r ← reg_of_id r; exec_list ns [pop_ r] m
  | _, _, _ => Some (clobber w (exec w m))
  end.

Fixpoint run_winstrs (l : list winstr) (m : mach) : option mach :=
  match l with
  | [] => Some m
  | w :: l => m ← step_winstr w m; run_winstrs l m
  end.

(** The instructions without spills and instrumentation. *)
Definition run_plain (body : list winstr) (m : mach) : mach := foldl (fun m w => exec w m) m body.
Definition run_clobbered (body : list winstr) (m : mach) : mach := foldl (fun m w => clobber w (exec w m)) m body.

(** A function that changes no registers but those in [rs]. *)
Definition changes_only (rs : reg -> Prop) (f : mach -> mach) : Prop :=
  forall m, mem (f m) = mem m /\ flags (f m) = flags m /\ forall r, ~ rs r -> regs (f m) r = regs m r.

(** The states with and without the spill. *)
Record alike (rs : list reg) (lo hi : Z) (m m' : mach) : Prop := {
  al_regs : forall r, r <> rsp -> r ∉ rs -> regs m r = regs m' r;
  al_mem : forall x, 0 <= x < 2 ^ 64 -> x < lo \/ hi <= x -> mem m x = mem m' x;
  al_flags : flags m = flags m'
}.

Lemma run_alike rs lo hi body : forall m m',
  spill_ok body rs -> (forall w, w ∈ body -> instr_laws w (exec w) lo hi /\ changes_only (fun r => r ∈ rs) (clobber w)) ->
  alike rs lo hi m m' ->
  alike rs lo hi (run_plain body m) (run_clobbered body m') /\
  regs (run_plain body m) rsp = regs m rsp /\ (forall r, r ∈ rs -> regs (run_plain body m) r = regs m r) /\
  regs (run_clobbered body m') rsp = regs m' rsp /\ forall x, lo <= x < hi -> mem (run_clobbered body m') x = mem m' x.
Proof.
  induction body as [|w body IH]; intros m m' Hok Hlaws Ha; [done|]. destruct Hok as [Hn Hnd Hsp Hr Hb].
  destruct (Hlaws w ltac:(left)) as [L Hc]. destruct (Hb w ltac:(left)) as (_ & _ & _ & [_ Hw] & _). destruct Ha as [Har Ham Haf].
  assert (Hun : forall r, r ∈ rs -> untouched w (reg_id r)) by (intros r Hin; apply Hr; [done|left]).
  destruct (il_same _ _ _ _ L m m') as (Sm & Sr & Sf & Sfw).
  { intros r Hu Hrs. apply Har; [done|]. intros Hin. destruct (Hun r Hin) as [H1 _]. rewrite H1 in Hu; [done|].
    intros E. apply Hrs. by destruct r. }
  { done. }
  { unfold eq_but_cf. by rewrite Haf. }
  { done. }
  assert (Hf : flags (exec w m) = flags (exec w m')).
  { destruct (w_reads_cf w || w_writes_cf w) eqn:Ecf; [by apply Sfw|]. apply orb_false_iff in Ecf as [_ Ecf].
    apply eq_but_cf_flags; [done|]. rewrite (il_cf _ _ _ _ L m Ecf), (il_cf _ _ _ _ L m' Ecf). by rewrite Haf. }
  destruct (Hc (exec w m')) as (Cm & Cf & Cr).
  destruct (IH (exec w m) (clobber w (exec w m'))) as (A & R1 & R2 & R3 & M).
  - split; [done|done|done| |]; [intros r w0 Hin Hin0; apply Hr; [done|by right]|]. intros w0 Hin0. apply Hb. by right.
  - intros w0 Hin0. apply Hlaws. by right.
  - split; [|intros x Hx Hd; rewrite Cm; by apply Sm|by rewrite Cf].
    intros r Hrs Hin. rewrite Cr by done. apply Sr. right. by apply Har.
  - change (run_plain (w :: body) m) with (run_plain body (exec w m)).
    change (run_clobbered (w :: body) m') with (run_clobbered body (clobber w (exec w m'))). split; [exact A|].
    split; [rewrite R1; by apply (il_keeps _ _ _ _ L)|].
    split; [intros r Hin; rewrite (R2 r Hin); apply (il_keeps _ _ _ _ L), Hun; done|].
    split; [rewrite R3, Cr by done; by apply (il_keeps _ _ _ _ L)|]. intros x Hx. rewrite (M x Hx), Cm. by apply (il_frame _ _ _ _ L).
Qed.

Lemma run_winstrs_app l1 l2 m : run_winstrs (l1 ++ l2) m = (m ← run_winstrs l1 m; run_winstrs l2 m).
Proof. revert m. induction l1 as [|w l1 IH]; intros m; [done|]. cbn [app run_winstrs]. destruct (step_winstr w m); cbn; [apply IH|done]. Qed.

Lemma run_winstrs_spills (f : Z -> winstr) (g : reg -> instr) rs :
  (forall r m, step_winstr (f (reg_id r)) m = exec_list ns [g r] m) -> forall m,
  run_winstrs (map (fun r => f (reg_id r)) rs) m = exec_list ns (map g rs) m.
Proof.
  intros Hf. induction rs as [|r rs IH]; intros m; [done|]. cbn [map run_winstrs]. rewrite Hf. cbn [exec_list].
  destruct (exec1 ns (g r) m) as [m'| | |]; cbn; [apply IH|done..].
Qed.

Lemma step_push r m : step_winstr (spill_push (reg_id r)) m = exec_list ns [push_ (OReg r)] m.
Proof. unfold step_winstr. cbn [spill_push mangled make_instr w_opcode w_dsts w_srcs]. by rewrite reg_of_id_id. Qed.

Lemma step_pop r m : step_winstr (spill_pop (reg_id r)) m = exec_list ns [pop_ r] m.
Proof. unfold step_winstr. cbn [spill_pop mangled make_instr w_opcode w_dsts w_srcs]. by rewrite reg_of_id_id. Qed.

Lemma step_other w m : w_opcode w <> OP_push -> w_opcode w <> OP_pop -> step_winstr w m = Some (clobber w (exec w m)).
Proof.
  intros H1 H2. unfold step_winstr. destruct (w_opcode w) as [|p|p]; [done| |done].
  repeat (destruct p as [p|p|]; try done); destruct (w_dsts w) as [|[] ?], (w_srcs w) as [|[] ?]; done.
Qed.

Lemma run_winstrs_body body m : (forall w, w ∈ body -> w_opcode w <> OP_push /\ w_opcode w <> OP_pop) -> run_winstrs body m = Some (run_clobbered body m).
Proof.
  revert m. induction body as [|w body IH]; intros m Hb; [done|]. cbn [run_winstrs]. destruct (Hb w ltac:(left)) as [H1 H2].
  rewrite step_other by done. cbn. apply IH. intros w0 Hin. apply Hb. by right.
Qed.

(** C5 Spilled regions are transparent.  Take any region that the pass finds,
    run the code that it makes of it, and let instrumentation change the
    registers that are pushed there behind every instruction.  The code runs
    to its end, and behind it all registers, the flags, and memory but for two
    words below the stack pointer, are what the instructions of the region
    alone leave. *)
Theorem spilled_region_transparent rev_ls live g m :
  Forall block_ok rev_ls -> rm_wf live -> find_region rev_ls (empty_region live) = Ret g -> wf_regs m -> stack_room m ->
  (forall w, w ∈ rg_body g -> instr_laws w (exec w) (regs m rsp - 16) (regs m rsp) /\
     changes_only (fun r => spill_push (reg_id r) ∈ spill_region g) (clobber w)) ->
  exists m', run_winstrs (spill_region g) m = Some m' /\
    (forall r, regs m' r = regs (run_plain (rg_body g) m) r) /\ flags m' = flags (run_plain (rg_body g) m) /\
    forall x, 0 <= x < 2 ^ 64 -> x < regs m rsp - 16 \/ regs m rsp <= x -> mem m' x = mem (run_plain (rg_body g) m) x.
Proof.
  intros Hl Hlv Eg Hwf [Hlo Hhi] Hlaws.
  destruct (find_region_ok live rev_ls (empty_region live) Hl (empty_region_ok live Hlv)) as (g' & Eg' & [Hok _]). rewrite Eg in Eg'. injection Eg' as <-.
  destruct (spill_region_spills live g Hok) as (rs & Esh & [Hrs _ _]). pose proof Hrs as [Hlen Hnd Hsp _ Hb].
  assert (Hpush : forall r, spill_push (reg_id r) ∈ spill_region g -> r ∈ rs).
  { intros r. rewrite Esh, !elem_of_app. intros [Hin|[Hin|Hin]].
    - apply list_elem_of_fmap in Hin as (r' & E & Hin). assert (reg_id r = reg_id r') by (injection E; done). destruct r, r'; done.
    - by destruct (Hb _ Hin) as (_ & ? & _).
    - apply list_elem_of_fmap in Hin as (r' & E & _). discriminate E. }
  destruct (save_restore_exec ns rs m Hnd Hsp Hwf) as (m1 & E1 & S1 & R1 & F1 & M1 & K); [lia|lia|].
  destruct (run_alike rs (regs m rsp - 16) (regs m rsp) (rg_body g) m m1 Hrs) as (A & P1 & P2 & P3 & P4).
  { intros w Hw. destruct (Hlaws w Hw) as [L Hc]. split; [done|]. intros m0. destruct (Hc m0) as (? & ? & Hr). split; [done|]. split; [done|].
    intros r Hin. apply Hr. intros Hin'. by apply Hin, Hpush. }
  { split; [intros r Hr _; by rewrite R1|intros x Hx Hd; symmetry; apply M1; [done|lia]|done]. }
  destruct (K (run_clobbered (rg_body g) m1)) as (m3 & E3 & M3 & F3 & S3 & R3 & O3); [done|intros x Hx; apply P4; lia|].
  exists m3. split.
  { rewrite Esh, !run_winstrs_app. unfold pushes, pops. rewrite (run_winstrs_spills spill_push (fun r => push_ (OReg r)) rs step_push), E1.
    cbn [mbind option_bind]. rewrite run_winstrs_app, run_winstrs_body by (intros w Hw; by destruct (Hb w Hw) as (_ & ? & ? & _)).
    cbn [mbind option_bind]. by rewrite (run_winstrs_spills spill_pop pop_ (rev rs) step_pop). }
  split.
  - intros r. destruct (decide (r = rsp)) as [->|Hne]; [by rewrite S3, P1|]. destruct (decide (r ∈ rs)) as [Hin|Hin].
    + by rewrite (R3 r Hin), (P2 r Hin).
    + rewrite (O3 r Hin Hne). symmetry. by apply A.
  - split; [rewrite F3; symmetry; apply A|]. intros x Hx Hd. rewrite M3. symmetry. by apply A.
Qed.
End SpillRun.

(** ** Witnesses *)
#[local] Existing Instance kernel_config.


Lemma wp_load_block_ok : block_ok wp_load.
Proof.
  split.
  - split; repeat constructor; cbn; lia.
  - by eexists.
  - discriminate.
  - discriminate.
  - intros g Hg. cbn in Hg. rewrite !elem_of_cons, elem_of_nil in Hg. destruct Hg as [[= ->]|[[=]|[]]]. discriminate.
Defined.


(** The region of the two loads: [rdx] is pushed, changed behind both loads,
    and popped. *)
Definition load_region : region :=
  match find_region [wp_load; wp_load] (empty_region (revive_all register_manager_ctor)) with Ret g => g | _ => empty_region register_manager_ctor end.

Lemma spilled_region_transparent_witness :
  let exec := fun (_ : winstr) => load_eff [0; 0x5000] in
  exists m', run_winstrs (fun _ m => m) exec (fun _ => set_reg rdx 77) (spill_region load_region) watched_mach = Some m' /\
    length (spill_region load_region) = 4%nat /\ regs m' rdx = 0 /\ regs m' rsp = 0x1000.
Proof.
  intros exec. destruct (spilled_region_transparent (fun _ m => m) exec (fun _ => set_reg rdx 77) [wp_load; wp_load] (revive_all register_manager_ctor)
    load_region watched_mach) as (m' & E & Hr & _).
  - constructor; [apply wp_load_block_ok|]. constructor; [apply wp_load_block_ok|constructor].
  - apply (view_wf _ _ _ _ _ (revive_all_view register_manager_ctor)). reflexivity.
  - reflexivity.
  - intros []; vm_compute; split; congruence.
  - split; vm_compute; congruence.
  - intros w Hw. replace (rg_body load_region) with [wp_load; wp_load] in Hw by reflexivity.
    assert (w = wp_load) as -> by (rewrite !elem_of_cons, elem_of_nil in Hw; by destruct Hw as [->|[->|[]]]). split.
    + apply load_laws; [split; vm_compute; congruence|]. right. vm_compute. congruence.
    + intros m. split; [done|]. split; [done|]. intros r Hin. apply regs_set_other. intros ->. apply Hin.
      replace (spill_region load_region) with [spill_push 3; wp_load; wp_load; spill_pop 3] by reflexivity. left.
  - exists m'. split; [exact E|]. split; [reflexivity|]. rewrite !Hr. split; vm_compute; reflexivity.
Defined.
